(* ===== verification/_CoqProject ===== *)
-Q . S2P
Prelude.v
Double.v
Rounding.v
Archive.v
Serialization.v
IntegerPack.v
DenseBitset.v
FlexibleType.v
TypeEncoding.v
Hash.v
FlexibleOps.v
FlexHeap.v
FlexHeapCorrect.v
FlexHeapSteps.v
GroupbyOps.v
Groupby.v
GroupbyCorrect.v
StringEscape.v
Csv.v
CsvCorrect.v
SFrame.v
SFrameCorrect.v
Join.v
JoinCorrect.v
JoinGrace.v
JoinOrder.v
JoinSpec.v
BlockStore.v
BlockManagerCorrect.v
BlockReader.v
BlockStoreCorrect.v
BlockGroupCorrect.v
BlockReaderCorrect.v
BlockArrayCorrect.v
Sketches.v
SketchesCorrect.v
SpaceSaving.v
SpaceSavingCorrect.v
SpaceSavingCount.v
Sort.v
SortCorrect.v
SortSpec.v
SortGate.v
Hopscotch.v
HopscotchCorrect.v
HopscotchSpec.v
Hilbert.v
HilbertCorrect.v
HilbertSpec.v
