(* ===== verification/Prelude.v ===== *)
(** * Verification of the data core: values, columns, frames and their algorithms

    The program stores tables of dynamically typed values in compressed columns
    on disk, and computes on them with external algorithms (group-by, join) and
    streaming ones.  This library models that core from the bottom to the top
    and proves each part correct:

      bytes and archives
        -> serializers, integer codes, bit sets
        -> the value type [flexible_type], its storage and its operators
        -> blocks of typed values -> segment files -> arrays -> frames
        -> group-by, joins, CSV rows, hashes.

    Every definition is executable, keeps the name it has in the source where
    Rocq allows it, and follows the control flow of the code: the guards and
    early returns, the jumps into loops, the order of writes.

    ** Conventions

    - A machine integer is a [Z] at its width; [wrap w] (with [u8] ... [u64]) is
      what an assignment to an unsigned variable does and [signed w] the
      two's-complement reading ([Prelude]).  Sizes that only count elements of
      containers in memory are [nat]; where a size can wrap, the wrap is written.
    - Doubles are their 64-bit patterns and single-precision numbers their
      32-bit ones; the arithmetic is the Standard Library's [SpecFloat]
      ([Double], and the [f32_] functions of [BlockStore]).
    - [option] is used where the code has one way to fail.  [outcome]
      ([Prelude]: [Ok], [Throws], [Undef]) tells exceptions from behaviour
      that C++ leaves undefined; storage with explicit addresses has faults
      ([FlexHeap]); the reader of arrays has four effects ([BlockReader]: a
      value, an exception, undefined behaviour, waiting forever).
    - Mutable state is passed explicitly.  Threads are interleavings of critical
      sections: an argument (a schedule) says who goes next, and the theorems
      hold for every schedule.
    - Machines are little-endian, as the code assumes.

    ** The files

    Bytes and integers.
    - [Prelude]: machine integers, the generic lemmas on lists, options and
      bits, automation.
    - [Double]: binary64 arithmetic and comparison, and the order on patterns.
    - [Archive] (serialization/oarchive.hpp, iarchive.hpp): the growable output
      buffer and the input cursor, and the interface [emits]/[parses]/[Codec]
      against which every serializer above is proved.
    - [Serialization] (serialization/*.hpp): the serializers of the basic and
      container types, each an instance of [Codec].
    - [IntegerPack] (sframe/integer_pack.hpp, .cpp): variable-length integers,
      packing at 1 to 64 bits with the switch-into-loop control flow, and
      frame-of-reference coding; [frame_of_reference_roundtrip],
      [pack_unpack_roundtrip], [variable_encode_roundtrip].
    - [DenseBitset] (util/dense_bitset.hpp): [dense_bitset] and
      [fixed_dense_bitset] refine sets of positions ([dense_bitset_refines]),
      iteration and search ([dense_bitset_iteration]), and
      [transfer_approximate_unsafe], which can fail to return.
    - [StringEscape] (flexible_type/string_escape.cpp): escaping and in-place
      unescaping against reference functions on lists.
    - [Hash] (util/cityhash_gl.*, the hash visitors of flexible_type, row hashes
      of sframe/join_impl.cpp): CityHash reads inside its argument, and the
      integer hashes are injective.

    Values.
    - [FlexibleType] (flexible_type/*.hpp, image/image_type.hpp, .cpp): the type tags and
      their tables, the values, and their serialization, current and legacy
      ([flexible_type_save_load], [flexible_type_load_legacy]).
    - [FlexibleOps] (flexible_type_detail.hpp, flexible_type.cpp): comparison,
      arithmetic, conversion and container access; for operand types that the
      operator tables allow, exactly when an operator throws or is undefined
      ([has_binary_op_sound]).
    - [FlexHeap], [FlexHeapCorrect], [FlexHeapSteps] (flexible_type.hpp): the
      tagged union with its reference-counted, copy-on-write blocks.  Programs
      over variables are memory safe and leak nothing
      ([flexible_type_memory_safe]) and refine value semantics
      ([flexible_type_value_semantics]) as long as no object is assigned an
      element of itself; the two programs that break this are shown to fault
      and to leak.

    Columns and frames.
    - [TypeEncoding] (sframe/sarray_v2_type_encoding.hpp, .cpp): blocks of typed values,
      decoded at once or as a stream ([typed_encode_decode],
      [typed_decode_stream_correct]), with the position counters of the decoders
      at their widths, an [unsigned int] and an [int].
    - [BlockStore] and [BlockReader] (sframe/sarray_v2_block_writer.*,
      sarray_v2_block_manager.*, sarray_v2_encoded_block.*,
      sarray_file_format_v2.hpp, sarray_reader*.hpp, sarray_index_file.cpp): the
      definitions of the storage of arrays in two halves, writing and reading.
      [BlockStoreCorrect]: file names, footers and single blocks.
      [BlockGroupCorrect]: the group writer, by views of its state; the bound
      [buffered_cells_bounded] on what it holds in memory.
      [BlockManagerCorrect]: the states of the block manager that opens which
      succeed and closes reach ([manager_bookkeeping]).  [BlockReaderCorrect]: the reader with its cache,
      spin locks and evictions, and the buffer in front of it.
      [BlockArrayCorrect]: the composition ([array_roundtrip],
      [concurrent_reads], [buffered_iteration]) and what happens after failures
      ([failed_open_sticks], [failed_read_spins]).
    - [SFrame], [SFrameCorrect] (sframe/sframe.*, sframe_reader.cpp): frames,
      their invariant, the column operations, and rows written and read back.

    Algorithms.
    - [Csv], [CsvCorrect] (sframe/csv_line_tokenizer.*, csv_writer.hpp, .cpp): the line
      tokenizer as a state machine; it terminates within its line
      ([tokenize_line_total]) and reads back what the writer writes
      ([csv_roundtrip]).
    - [GroupbyOps] (sframe/groupby_aggregate_operators.hpp): the aggregators as
      instances of the interface [Aggregate]; merging partial aggregates equals
      aggregating everything ([aggregator_merge]).  [Groupby], [GroupbyCorrect]
      (groupby_aggregate_impl.hpp, .cpp): buffering, spilling and merging, proved against
      the interface [Mergeable] alone ([groupby_correct]).
    - [Join], [JoinCorrect], [JoinGrace], [JoinOrder], [JoinSpec]
      (sframe/join.cpp, join_impl.hpp, join_impl.cpp): the GRACE hash join, and that it gives the relational
      join whatever the partitions, the schedule and the frame that is hashed
      ([join_correct]).
    - [Rounding], [Sketches], [SketchesCorrect] (sketches/countmin.hpp,
      countsketch.hpp, hyperloglog.hpp): the rounding of doubles, and the
      sketches of counts: the estimate of a count-min sketch is at least the
      count ([count_min_correct]) and hyperloglog depends on the set of values
      alone, however it was split and merged ([hyperloglog_correct]).
    - [SpaceSaving], [SpaceSavingCorrect], [SpaceSavingCount]
      (sketches/space_saving.hpp): the frequent elements, with the binary heap
      and the hash table of linked entries as they are in memory; the elements
      above the threshold are reported ([space_saving_frequent]) and the
      guaranteed ones are above it ([space_saving_guaranteed]).
    - [Sort], [SortCorrect], [SortSpec], [SortGate] (unity/query_process/sort.cpp,
      sort_impl.hpp, le_sort.hpp): sorting in memory and by partitions.  The
      comparators are strict weak orders on rows without NaN; parallel workers
      scatter the rows; the result is a sorted permutation of the rows for any
      pivots and any schedule without a race on the flags ([sort_correct]), and the
      update that is lost in the race is shown ([sort_flags_race]).  [SortGate] is the transition system of
      the threads that share the sort buffer: no deadlock, no endless run, every
      partition once ([sort_gate_completes]).
    - [Hopscotch], [HopscotchCorrect], [HopscotchSpec]
      (graphlab/util/hopscotch_table.hpp, hopscotch_map.hpp): the hash map under
      group-by and space saving.  The bit fields of the table name the data of
      each hash through every displacement, and the map with its rehashing and its
      spill refines a finite map for any hash function ([hopscotch_map_refines]).
    - [Hilbert], [HilbertCorrect], [HilbertSpec] (sgraph/hilbert_curve.hpp,
      hilbert_parallel_for.hpp): the curve along which graph computations visit the
      partitions of the edges: the word operations and the state machine compute one
      recursive curve, a bijection whose neighbours are adjacent
      ([hilbert_curve_correct]), and a sweep visits each cell once
      ([hilbert_sweep_covers]).

    ** Interfaces between the parts

    [Codec] (archives to serializers), [Aggregate] and [Mergeable] (aggregators
    to the group-by), [Lz4]/[Lz4Laws] (the compression library to the block
    writer), [RowSource]/[RowSourceLaws] (a reader of rows to the buffer and the
    iterator), [StdSort] (what the standard library's sort promises, to the sort of
    frames), and [holds] (the block manager to its clients: whatever others do
    between two operations, the columns a client opened stay usable).

    ** Parameters and hypotheses

    Code outside the repository, and choices the program makes by chance, are
    arguments: the allocator, the value parsers built from Boost Spirit, [atof],
    LZ4 (a round trip within the size it accepts), the padding bytes of structs,
    the conversion of a float out of range, the hash function and the traversal
    order of unordered containers where the result must not depend on them, the
    number of processors, the order in which threads take their turns, and the
    random numbers of evictions, the hash and the seeds of sketches, [std::sort] and
    the pivots of the external sort.  A dictionary is compared through its hash
    table: the model assumes that keys that compare equal have equal hashes,
    which fails only for 0.0 and -0.0.

    ** Fuel and bounds

    - Releasing a block recurses over the heap: the number of live blocks is
      enough, since every level frees one ([decref_spec]).
    - The tokenizer's loop has the length of the line and the number of columns
      as fuel: every iteration advances by a character, or by a column when a
      parser succeeds without taking a character.
    - The loop that skips UNDEFINED positions in a decoder has the number of
      positions as fuel: a loop that takes more steps has wrapped around and never
      ends.
    - Reading a value recurses to its nesting depth ([parses_load]).
    - CityHash's loops run once per 64 or 128 bytes.
    - The generation of a column name tries one name more than there are columns.
    - Counters of 64 bits do not wrap because fewer than 2^60 objects exist
      ([stays_small]) or fewer than 2^64 columns are open; files are shorter than
      2^63 bytes, and LZ4 accepts blocks of at most 0x7E000000 bytes.  The
      positions of a block are counted in 32 bits, and in 31 by the streaming
      decoder ([count32], [count31]): a block that the group writer makes has
      fewer as long as the settings allow fewer than 2^31 cells in a block
      ([write_array_counted]).  Each bound
      is a hypothesis of the theorem that needs it.
    - The chains of the hash table of space saving are walked with the number of
      entries as fuel, its heap loops with the length of the heap.
    - Sums of partition sizes below 2^64 do not wrap in the gate of the sort.
    - A displacement in a hopscotch table moves the free entry towards the hash, so
      the length of the table is enough; a field has at most 31 bits to look at.
    - A sweep of the square has at most one pass per cell.

    ** Not modelled

    - File systems, sockets, RPC, worker processes, thread pools, fibers: calls
      into the operating system and third-party libraries.
    - The JSON index files of arrays and frames (Boost property trees), the first
      version of the array format, the pools of file handles and buffers and the
      lock per disk, and failures while writing output files.
    - Boost Spirit's grammars for values, and ODBC, Avro and Spark readers.
    - The operators on values that parse or print doubles (they are arguments),
      in-place modification of shared dictionaries, and constructors of
      [flexible_type] from containers.
    - Quantile sketches (they choose pivots; any will do), the sorted spill
      buffer, shuffling, the query evaluator, property graphs and the
      distributed graph engines, toolkits, bindings and glue.
    - The 32-bit, seeded and CRC variants of CityHash, which nothing calls.

    ** Continuing

    What could come next: the quantile sketches, shuffle and the parallel
    transformations, lazy evaluation, and the storage of property graphs over
    frames. *)
From Stdlib Require Import ZArith Lia List Bool Permutation.
From Stdlib Require Strings.Byte.
From stdpp Require Import prelude countable.
From coqutil Require Import Byte Word.LittleEndianList.

#[global] Open Scope Z_scope.
#[global] Open Scope list_scope.

(** ** Machine integers

    An unsigned [w]-bit C++ integer is a [Z] in [[0, 2^w)]; [wrap] is the
    reduction an assignment to such a variable performs.  A signed one is a
    [Z] in [[-2^(w-1), 2^(w-1))]; [signed] is the two's-complement
    reinterpretation. *)
Definition wrap (w z : Z) : Z := z mod 2 ^ w.
Definition signed (w z : Z) : Z :=
  let u := wrap w z in if u <? 2 ^ (w - 1) then u else u - 2 ^ w.

Abbreviation u8 := (wrap 8).
Abbreviation u16 := (wrap 16).
Abbreviation u32 := (wrap 32).
Abbreviation u64 := (wrap 64).
Abbreviation i64 := (signed 64).

Definition is_u (w z : Z) : Prop := 0 <= z < 2 ^ w.
Definition is_s (w z : Z) : Prop := - 2 ^ (w - 1) <= z < 2 ^ (w - 1).

(** [64 - __builtin_clzl(z)] for a non-zero [z]: the number of significant bits. *)
Definition bit_length (z : Z) : Z := if z =? 0 then 0 else Z.log2 z + 1.

(** [__builtin_ctzl] for a non-zero argument: the index of the lowest set bit. *)
Fixpoint pos_ctz (p : positive) : Z :=
  match p with
  | xO p' => 1 + pos_ctz p'
  | _ => 0
  end.
Definition ctz (z : Z) : Z := match z with Zpos p => pos_ctz p | _ => 0 end.

(** [__builtin_popcountl] *)
Fixpoint pos_popcount (p : positive) : Z :=
  match p with
  | xH => 1
  | xO p' => pos_popcount p'
  | xI p' => 1 + pos_popcount p'
  end.
Definition popcount (z : Z) : Z := match z with Zpos p => pos_popcount p | _ => 0 end.

#[export] Instance byte_eq_dec : EqDecision byte := Stdlib.Strings.Byte.byte_eq_dec.
#[export] Instance byte_countable : Countable byte :=
  inj_countable Byte.to_N Byte.of_N Byte.of_to_N.

(** Rewriting with permutations under [::] and [++] *)
#[export] Existing Instances Permutation_cons Permutation_app'.

Create HintDb dato.

(** Case analysis on the boolean comparisons that the code branches on. *)
Ltac zcases :=
  repeat match goal with
  | |- context [Z.eqb ?a ?b] => destruct (Z.eqb_spec a b)
  | |- context [Z.ltb ?a ?b] => destruct (Z.ltb_spec a b)
  | |- context [Z.leb ?a ?b] => destruct (Z.leb_spec a b)
  | H : context [Z.eqb ?a ?b] |- _ => destruct (Z.eqb_spec a b)
  | H : context [Z.ltb ?a ?b] |- _ => destruct (Z.ltb_spec a b)
  | H : context [Z.leb ?a ?b] |- _ => destruct (Z.leb_spec a b)
  end.

(** ** Outcomes

    What a call does: it returns, it throws, or its behaviour is undefined. *)
Inductive outcome (A : Type) := Ok (x : A) | Throws | Undef.
Arguments Ok {A} x.
Arguments Throws {A}.
Arguments Undef {A}.

Definition obind {A B} (m : outcome A) (k : A -> outcome B) : outcome B :=
  match m with Ok x => k x | Throws => Throws | Undef => Undef end.
Definition omap_ok {A B} (f : A -> B) (m : outcome A) : outcome B :=
  match m with Ok x => Ok (f x) | Throws => Throws | Undef => Undef end.
Definition of_option {A} (o : option A) : outcome A :=
  match o with Some x => Ok x | None => Undef end.

Notation "x <-? m ; k" := (obind m (fun x => k)) (at level 100, m at next level, right associativity).

Fixpoint otraverse {A B} (f : A -> outcome B) (l : list A) : outcome (list B) :=
  match l with
  | [] => Ok []
  | x :: l => y <-? f x; omap_ok (cons y) (otraverse f l)
  end.
(** A loop over the elements of a list that carries a state *)
Fixpoint ofold {A S} (f : A -> S -> outcome S) (l : list A) (s : S) : outcome S :=
  match l with [] => Ok s | x :: l => obind (f x s) (ofold f l) end.
(** [log_and_throw] and [ASSERT_...]: an exception unless the condition holds *)
Definition assert (b : bool) : outcome unit := if b then Ok tt else Throws.

(** ** Generic lemmas on machine integers *)

Lemma wrap_range w z : 0 <= w -> is_u w (wrap w z).
Proof. intros. apply Z.mod_pos_bound. apply Z.pow_pos_nonneg; lia. Qed.

Lemma wrap_small w z : is_u w z -> wrap w z = z.
Proof. apply Z.mod_small. Qed.

Lemma wrap_wrap w z : 0 <= w -> wrap w (wrap w z) = wrap w z.
Proof. intros. by apply wrap_small, wrap_range. Qed.

Lemma wrap_signed w z : 0 < w -> wrap w (signed w z) = wrap w z.
Proof.
  intros. unfold signed. zcases.
  - by apply wrap_wrap; lia.
  - unfold wrap. rewrite <- (Z.mod_mod z (2 ^ w)) at 2 by lia.
    rewrite Zminus_mod, Z_mod_same_full, Z.sub_0_r, !Zmod_mod. done.
Qed.

Lemma signed_range w z : 0 < w -> is_s w (signed w z).
Proof.
  intros. pose proof (wrap_range w z ltac:(lia)). unfold is_u, is_s, signed in *.
  assert (2 ^ w = 2 * 2 ^ (w - 1)) by (rewrite <- Z.pow_succ_r by lia; f_equal; lia).
  zcases; lia.
Qed.

Lemma signed_wrap w z : 0 < w -> is_s w z -> signed w (wrap w z) = z.
Proof.
  intros Hw Hz. unfold signed. rewrite wrap_wrap by lia. unfold is_s, wrap in *.
  assert (2 ^ w = 2 * 2 ^ (w - 1)) by (rewrite <- Z.pow_succ_r by lia; f_equal; lia).
  destruct (Z.lt_ge_cases z 0).
  - assert (z mod 2 ^ w = z + 2 ^ w) as -> by
      (symmetry; apply Z.mod_unique_pos with (-1); lia).
    zcases; lia.
  - rewrite Z.mod_small by lia. zcases; lia.
Qed.

Lemma signed_small w z : 0 < w -> is_s w z -> signed w z = z.
Proof.
  intros Hw Hz. rewrite <- (signed_wrap w z Hw Hz) at 2.
  unfold signed. by rewrite wrap_wrap by lia.
Qed.

Lemma wrap_add_l w a b : wrap w (wrap w a + b) = wrap w (a + b).
Proof. unfold wrap. by rewrite Zplus_mod_idemp_l. Qed.
Lemma wrap_add_r w a b : wrap w (a + wrap w b) = wrap w (a + b).
Proof. unfold wrap. by rewrite Zplus_mod_idemp_r. Qed.

(** A left shift by [n] leaves the low [n] bits free, so or-ing a number that
    fits there is an addition. *)
Lemma lor_shiftl_add a b n :
  0 <= n -> 0 <= b < 2 ^ n -> Z.lor (Z.shiftl a n) b = a * 2 ^ n + b.
Proof.
  intros Hn Hb. rewrite <- Z.shiftl_mul_pow2 by lia.
  assert (Z.land (Z.shiftl a n) b = 0) as H0.
  { apply Z.bits_inj'. intros i Hi. rewrite Z.land_spec, Z.bits_0.
    destruct (Z.lt_ge_cases i n).
    - by rewrite Z.shiftl_spec_low by lia.
    - rewrite <- (Z.mod_small b (2 ^ n)) by lia.
      rewrite Z.mod_pow2_bits_high by lia. apply andb_false_r. }
  rewrite <- Z.lxor_lor, Z.add_nocarry_lxor by done. done.
Qed.

Lemma bit_length_bound z w : 0 <= z -> 0 <= w -> z < 2 ^ w <-> bit_length z <= w.
Proof.
  intros Hz Hw. unfold bit_length. zcases.
  - subst. pose proof (Z.pow_pos_nonneg 2 w). lia.
  - rewrite <- Z.le_succ_l, <- Z.add_1_r.
    pose proof (Z.log2_lt_pow2 z w ltac:(lia)). lia.
Qed.

Lemma bit_length_nonneg z : 0 <= bit_length z.
Proof. unfold bit_length. pose proof (Z.log2_nonneg z). zcases; lia. Qed.

(** ** Lists *)

Lemma split_at {A} n (l : list A) :
  (n <= length l)%nat -> exists l1 l2, l = l1 ++ l2 /\ length l1 = n.
Proof.
  intros. exists (take n l), (drop n l). split; [by rewrite take_drop|].
  rewrite length_take. lia.
Qed.

Lemma land_low c j : 0 <= j -> Z.land c (2 ^ j - 1) = c mod 2 ^ j.
Proof.
  intros. replace (2 ^ j - 1) with (Z.ones j) by (rewrite Z.ones_equiv; lia).
  by apply Z.land_ones.
Qed.

Lemma shiftr_eq_0 z n : 0 <= n -> 0 <= z -> (Z.shiftr z n =? 0) = (z <? 2 ^ n).
Proof.
  intros. rewrite Z.shiftr_div_pow2 by done. pose proof (Z.pow_pos_nonneg 2 n).
  destruct (Z.ltb_spec z (2 ^ n)).
  - by rewrite Z.div_small.
  - apply Z.eqb_neq. pose proof (Z.div_le_mono (2 ^ n) z (2 ^ n)).
    rewrite Z.div_same in *; lia.
Qed.

(** [lia] with division and remainder by constants. *)
Ltac dlia := Z.to_euclidean_division_equations; lia.

Lemma lxor_ones x n : 0 <= n -> is_u n x -> Z.lxor x (2 ^ n - 1) = 2 ^ n - 1 - x.
Proof.
  intros Hn Hx. replace (2 ^ n - 1) with (Z.ones n) by (rewrite Z.ones_equiv; lia).
  transitivity (Z.land (Z.lnot x) (Z.ones n)).
  - apply Z.bits_inj'. intros i Hi. rewrite Z.lxor_spec, Z.land_spec, Z.lnot_spec by lia.
    destruct (Z.lt_ge_cases i n).
    + rewrite Z.ones_spec_low by lia. by destruct (Z.testbit x i).
    + rewrite Z.ones_spec_high by lia. rewrite <- (Z.mod_small x (2 ^ n)) by done.
      by rewrite Z.mod_pow2_bits_high by lia.
  - rewrite Z.land_ones, Z.ones_equiv by lia. unfold Z.lnot, is_u in *.
    symmetry. apply Z.mod_unique_pos with (-1); lia.
Qed.

Lemma signed_cong w z : exists k, signed w z = z + k * 2 ^ w.
Proof.
  unfold signed, wrap. pose proof (Z_div_mod_eq_full z (2 ^ w)).
  zcases; [exists (- (z / 2 ^ w)) | exists (- (z / 2 ^ w) - 1)]; lia.
Qed.

(** Differences of signed reinterpretations agree with unsigned ones. *)
Lemma wrap_signed_sub w x p : 0 <= w -> wrap w (signed w x - signed w p + p) = wrap w x.
Proof.
  intros. destruct (signed_cong w x) as [a ->], (signed_cong w p) as [b ->].
  replace (x + a * 2 ^ w - (p + b * 2 ^ w) + p) with (x + (a - b) * 2 ^ w) by lia.
  unfold wrap. apply Z.mod_add. pose proof (Z.pow_pos_nonneg 2 w). lia.
Qed.

Lemma signed_ext w x y : wrap w x = wrap w y -> signed w x = signed w y.
Proof. intros E. unfold signed. by rewrite E. Qed.
Lemma signed_shift w x k : 0 <= w -> signed w (x + k * 2 ^ w) = signed w x.
Proof. intros Hw. apply signed_ext. unfold wrap. apply Z.mod_add. pose proof (Z.pow_pos_nonneg 2 w). lia. Qed.
Lemma signed_add_l w a b : 0 <= w -> signed w (signed w a + b) = signed w (a + b).
Proof.
  intros Hw. destruct (signed_cong w a) as [k ->]. rewrite <- (signed_shift w (a + b) k) by done. f_equal. lia.
Qed.
Lemma signed_add_r w a b : 0 <= w -> signed w (a + signed w b) = signed w (a + b).
Proof. intros Hw. by rewrite Z.add_comm, signed_add_l, Z.add_comm. Qed.
Lemma signed_mul_r w a b : 0 <= w -> signed w (a * signed w b) = signed w (a * b).
Proof.
  intros Hw. destruct (signed_cong w b) as [k ->]. rewrite <- (signed_shift w (a * b) (a * k)) by done. f_equal. lia.
Qed.

(** ** Lists and loops *)

Lemma map_seq_lookup {A} (f : nat -> A) m i : (i < m)%nat -> map f (seq 0 m) !! i = Some (f i).
Proof.
  intros Hi. change (map f (seq 0 m)) with (f <$> seq 0 m). rewrite list_lookup_fmap.
  by rewrite (proj2 (lookup_seq 0 m i i)) by lia.
Qed.

(** A loop over consecutive numbers, by the state it has before each of them *)
Lemma ofold_seq {St} (body : nat -> St -> outcome St) (I : nat -> St) n : forall lo,
  (forall i, (lo <= i < lo + n)%nat -> body i (I i) = Ok (I (S i))) -> ofold body (seq lo n) (I lo) = Ok (I (lo + n)%nat).
Proof.
  induction n as [|n IH]; intros lo H; cbn [seq ofold]; [by rewrite Nat.add_0_r|].
  rewrite H by lia. cbn [obind]. rewrite IH; [by rewrite Nat.add_succ_r|]. intros i Hi. apply H. lia.
Qed.

Lemma otraverse_map {A B} (f : A -> outcome B) (g : A -> B) l :
  (forall x, x ∈ l -> f x = Ok (g x)) -> otraverse f l = Ok (map g l).
Proof.
  induction l as [|x l IH]; intros H; [done|]. cbn [otraverse map]. rewrite H by left. cbn [obind].
  rewrite IH; [done|]. intros y Hy. apply H. by right.
Qed.

Lemma ofold_app {A St} (f : A -> St -> outcome St) l1 : forall l2 s,
  ofold f (l1 ++ l2) s = obind (ofold f l1 s) (ofold f l2).
Proof.
  induction l1 as [|x l1 IH]; intros l2 s; [done|]. cbn [app ofold]. destruct (f x s); cbn [obind]; [apply IH|done|done].
Qed.
