(* ===== verification/Double.v ===== *)
(** IEEE 754 binary64 arithmetic on bit patterns.

    The code computes with [double]; a value is stored as its 64-bit pattern.
    The arithmetic is the executable specification of binary floating point of
    the Standard Library ([SpecFloat], round to nearest, ties to even) at
    precision 53 and maximal exponent 1024.  A NaN result is the default quiet
    NaN. *)
From Stdlib Require Import ZArith Lia List Bool.
From Stdlib Require Import Floats.SpecFloat.
From stdpp Require Import prelude.
From S2P Require Import Prelude.

Definition prec : Z := 53.
Definition emax : Z := 1024.
Definition quiet_nan : Z := 2047 * 2 ^ 52 + 2 ^ 51.

Definition sign_of (b : Z) : bool := Z.testbit b 63.
Definition exponent_of (b : Z) : Z := Z.shiftr b 52 mod 2048.
Definition mantissa_of (b : Z) : Z := b mod 2 ^ 52.

Definition of_bits (b : Z) : spec_float :=
  let e := exponent_of b in
  let m := mantissa_of b in
  let s := sign_of b in
  if e =? 2047 then (if m =? 0 then S754_infinity s else S754_nan)
  else if e =? 0 then
    match m with Zpos p => S754_finite s p (-1074) | _ => S754_zero s end
  else match m + 2 ^ 52 with Zpos p => S754_finite s p (e - 1075) | _ => S754_zero s end.

Definition sign_bit (s : bool) : Z := if s then 2 ^ 63 else 0.

Definition to_bits (f : spec_float) : Z :=
  match f with
  | S754_zero s => sign_bit s
  | S754_infinity s => sign_bit s + 2047 * 2 ^ 52
  | S754_nan => quiet_nan
  | S754_finite s p e =>
      if Zpos p <? 2 ^ 52 then sign_bit s + Zpos p
      else sign_bit s + (e + 1075) * 2 ^ 52 + (Zpos p - 2 ^ 52)
  end.

Definition is_nan (b : Z) : bool := (exponent_of b =? 2047) && negb (mantissa_of b =? 0).

Definition d_add (a b : Z) : Z := to_bits (SFadd prec emax (of_bits a) (of_bits b)).
Definition d_sub (a b : Z) : Z := to_bits (SFsub prec emax (of_bits a) (of_bits b)).
Definition d_mul (a b : Z) : Z := to_bits (SFmul prec emax (of_bits a) (of_bits b)).
Definition d_div (a b : Z) : Z := to_bits (SFdiv prec emax (of_bits a) (of_bits b)).
(** Unary minus flips the sign bit, of a NaN too. *)
Definition d_neg (a : Z) : Z := Z.lxor a (2 ^ 63).
Definition d_lt (a b : Z) : bool := SFltb (of_bits a) (of_bits b).
Definition d_gt (a b : Z) : bool := SFltb (of_bits b) (of_bits a).
Definition d_eq (a b : Z) : bool := SFeqb (of_bits a) (of_bits b).

(** Conversion of an integer, correctly rounded *)
Definition d_of_int (z : Z) : Z := to_bits (binary_normalize prec emax z 0 false).

(** [(int64_t) d]: truncation.  Out of range (and for an infinity or a NaN) the
    conversion is undefined: [None]. *)
Definition d_to_int (a : Z) : option Z :=
  match of_bits a with
  | S754_zero _ => Some 0
  | S754_finite s p e =>
      let m := if 0 <=? e then Zpos p * 2 ^ e else Zpos p / 2 ^ (- e) in
      let z := if s then - m else m in
      if (- 2 ^ 63 <=? z) && (z <? 2 ^ 63) then Some z else None
  | _ => None
  end.

(** [(size_t) d] *)
Definition d_to_size (a : Z) : option Z :=
  match of_bits a with
  | S754_zero _ => Some 0
  | S754_finite s p e =>
      let m := if 0 <=? e then Zpos p * 2 ^ e else Zpos p / 2 ^ (- e) in
      let z := if s then - m else m in
      if (0 <=? z) && (z <? 2 ^ 64) then Some z else None
  | _ => None
  end.

(** [ceil]: the integers below 2^53 are doubles. *)
Definition d_ceil (a : Z) : Z :=
  match of_bits a with
  | S754_finite s p e =>
      if 0 <=? e then a else
      let z := if s then - (Zpos p / 2 ^ (- e)) else - ((- Zpos p) / 2 ^ (- e)) in
      if s && (z =? 0) then to_bits (S754_zero true) else d_of_int z
  | _ => a
  end.

(** [fmod]: the exact remainder, with the sign of the first argument *)
Definition d_fmod (a b : Z) : Z :=
  match of_bits a, of_bits b with
  | S754_nan, _ | _, S754_nan | S754_infinity _, _ | _, S754_zero _ => quiet_nan
  | S754_zero _, _ => a
  | S754_finite _ _ _, S754_infinity _ => a
  | S754_finite s p e, S754_finite _ q f =>
      let g := Z.min e f in
      let r := (Zpos p * 2 ^ (e - g)) mod (Zpos q * 2 ^ (f - g)) in
      to_bits (binary_normalize prec emax (if s then - r else r) g s)
  end.

(** [float(d)]: the nearest single-precision value, as a double *)
Definition d_to_single (a : Z) : Z :=
  match of_bits a with
  | S754_finite s p e =>
      to_bits (match binary_normalize 24 128 (if s then Zneg p else Zpos p) e s with
               | S754_finite s p e => binary_normalize prec emax (if s then Zneg p else Zpos p) e s
               | f => f
               end)
  | f => to_bits f
  end.

Example d_add_ex : d_add (d_of_int 2) (d_of_int 3) = d_of_int 5.
Proof. reflexivity. Qed.
Example d_div_ex : d_div (d_of_int 1) (d_of_int 2) = 1022 * 2 ^ 52.
Proof. reflexivity. Qed.
Example d_fmod_ex : d_fmod (d_neg (d_of_int 7)) (d_of_int 4) = d_neg (d_of_int 3).
Proof. reflexivity. Qed.
Example d_trunc_ex : d_to_int (d_neg (d_div (d_of_int 7) (d_of_int 2))) = Some (-3).
Proof. reflexivity. Qed.

(** ** The two representations agree *)

Lemma bits_split b : is_u 64 b ->
  b = sign_bit (sign_of b) + exponent_of b * 2 ^ 52 + mantissa_of b /\
  0 <= exponent_of b < 2048 /\ 0 <= mantissa_of b < 2 ^ 52.
Proof.
  intros Hb. unfold is_u in Hb. unfold exponent_of, mantissa_of, sign_of, sign_bit.
  rewrite Z.shiftr_div_pow2 by lia.
  assert (Z.testbit b 63 = (2 ^ 63 <=? b)) as ->.
  { destruct (Z.leb_spec (2 ^ 63) b).
    - apply Z.testbit_true; [lia|]. rewrite <- (Z.div_unique_pos b (2 ^ 63) 1 (b - 2 ^ 63)) by lia. done.
    - apply Z.testbit_false; [lia|]. rewrite Z.div_small by lia. done. }
  destruct (Z.leb_spec (2 ^ 63) b); dlia.
Qed.

(** Every pattern that is not a NaN is recovered from the value it denotes. *)
Lemma to_of_bits b : is_u 64 b -> is_nan b = false -> to_bits (of_bits b) = b.
Proof.
  intros Hb Hn. destruct (bits_split b Hb) as (E & He & Hm). unfold of_bits, is_nan in *.
  destruct (Z.eqb_spec (exponent_of b) 2047) as [E1|E1].
  - destruct (Z.eqb_spec (mantissa_of b) 0); [|done]. cbn [to_bits]. lia.
  - destruct (Z.eqb_spec (exponent_of b) 0) as [E2|E2].
    + destruct (mantissa_of b) as [|p|p] eqn:Em; cbn [to_bits]; try lia.
      destruct (Z.ltb_spec (Zpos p) (2 ^ 52)); lia.
    + destruct (mantissa_of b + 2 ^ 52) as [|p|p] eqn:Em; try lia. cbn [to_bits].
      destruct (Z.ltb_spec (Zpos p) (2 ^ 52)); lia.
Qed.

Lemma SFcompare_swap x y :
  SFcompare y x = match SFcompare x y with Some c => Some (CompOpp c) | None => None end.
Proof.
  destruct x as [sx|sx| |sx mx ex], y as [sy|sy| |sy my ey]; cbn; try destruct sx; try destruct sy; try done.
  all: rewrite (Z.compare_antisym ex ey); destruct (Z.compare ex ey); cbn; try done.
  all: rewrite Pos.compare_cont_antisym; by destruct (Pos.compare_cont _ _ _).
Qed.

Lemma SFcompare_refl x : x <> S754_nan -> SFcompare x x = Some Eq.
Proof.
  destruct x as [s|s| |s m e]; cbn; try (destruct s; done); try done.
  intros _. rewrite Z.compare_refl, Pos.compare_cont_refl. by destruct s.
Qed.

(** ** The order of the values is the order of the patterns

    Without the sign bit, the pattern of a number grows with the number: the key
    is that pattern, negated for a negative number.  The two zeros share a key. *)
Definition d_key (b : Z) : Z :=
  let m := exponent_of b * 2 ^ 52 + mantissa_of b in if sign_of b then - m else m.

(** The finite values [of_bits] produces *)
Definition canonical (p : positive) (e : Z) : Prop :=
  (Zpos p < 2 ^ 52 /\ e = -1074) \/ (2 ^ 52 <= Zpos p < 2 ^ 53 /\ -1074 <= e <= 971).
Definition magnitude (f : spec_float) : Z :=
  match f with
  | S754_zero _ => 0
  | S754_infinity _ => 2047 * 2 ^ 52
  | S754_nan => 0
  | S754_finite _ p e => if Zpos p <? 2 ^ 52 then Zpos p else (e + 1075) * 2 ^ 52 + (Zpos p - 2 ^ 52)
  end.
Definition sf_key (f : spec_float) : Z :=
  match f with
  | S754_zero s | S754_infinity s | S754_finite s _ _ => if s then - magnitude f else magnitude f
  | S754_nan => 0
  end.
Definition sf_ok (f : spec_float) : Prop :=
  match f with S754_finite _ p e => canonical p e | S754_nan => False | _ => True end.

Lemma of_bits_ok b : is_u 64 b -> is_nan b = false -> sf_ok (of_bits b) /\ sf_key (of_bits b) = d_key b.
Proof.
  intros Hb Hn. destruct (bits_split b Hb) as (_ & He & Hm). unfold of_bits, is_nan, d_key in *.
  destruct (Z.eqb_spec (exponent_of b) 2047) as [E1|E1].
  - destruct (Z.eqb_spec (mantissa_of b) 0) as [E2|E2]; [|done]. rewrite E1, E2.
    split; [done|]. by destruct (sign_of b).
  - destruct (Z.eqb_spec (exponent_of b) 0) as [E2|E2].
    + destruct (mantissa_of b) as [|p|p] eqn:Em; cbn [sf_ok sf_key magnitude]; try lia.
      * rewrite E2. by destruct (sign_of b).
      * destruct (Z.ltb_spec (Zpos p) (2 ^ 52)); [|lia]. rewrite E2.
        split; [left; lia|]. destruct (sign_of b); lia.
    + destruct (mantissa_of b + 2 ^ 52) as [|p|p] eqn:Em; try lia. cbn [sf_ok sf_key magnitude].
      destruct (Z.ltb_spec (Zpos p) (2 ^ 52)); [lia|].
      split; [right; lia|]. destruct (sign_of b); lia.
Qed.

Lemma magnitude_compare s t p q e f : canonical p e -> canonical q f ->
  match Z.compare e f with Lt => Lt | Gt => Gt | Eq => Pos.compare_cont Eq p q end =
  Z.compare (magnitude (S754_finite s p e)) (magnitude (S754_finite t q f)).
Proof.
  intros Hp Hq. change (Pos.compare_cont Eq p q) with (Z.compare (Zpos p) (Zpos q)).
  cbn [magnitude]. symmetry.
  destruct (Z.ltb_spec (Zpos p) (2 ^ 52)), (Z.ltb_spec (Zpos q) (2 ^ 52)), Hp as [Hp|Hp], Hq as [Hq|Hq];
    try lia; destruct (Z.compare_spec e f); try lia; destruct (Z.compare_spec (Zpos p) (Zpos q)); try lia.
  all: first [done | apply Z.compare_eq_iff; lia | apply Z.compare_lt_iff; lia | apply Z.compare_gt_iff; lia].
Qed.

Lemma magnitude_pos s p e : canonical p e -> 0 < magnitude (S754_finite s p e) < 2047 * 2 ^ 52.
Proof. intros [H|H]; cbn [magnitude]; destruct (Z.ltb_spec (Zpos p) (2 ^ 52)); lia. Qed.

Lemma SFcompare_key x y : sf_ok x -> sf_ok y ->
  SFcompare x y = Some (Z.compare (sf_key x) (sf_key y)).
Proof.
  intros Hx Hy. destruct x as [s|s| |s p e], y as [t|t| |t q f]; try done; cbn [SFcompare sf_key sf_ok] in *;
    apply (f_equal Some); try (destruct s, t; done);
    try pose proof (magnitude_pos s _ _ Hx); try pose proof (magnitude_pos t _ _ Hy);
    try (destruct s, t; symmetry; first [apply Z.compare_lt_iff | apply Z.compare_gt_iff]; cbn [magnitude] in *; lia).
  pose proof (magnitude_compare s t p q e f Hx Hy) as Hc.
  destruct s, t; try (symmetry; first [apply Z.compare_lt_iff; lia | apply Z.compare_gt_iff; lia]); [|done].
  rewrite Z.compare_opp, (Z.compare_antisym (magnitude (S754_finite true p e))), <- Hc.
  destruct (Z.compare e f); [|done|done]. done.
Qed.

Lemma d_lt_key a b : is_u 64 a -> is_u 64 b -> is_nan a = false -> is_nan b = false ->
  d_lt a b = (d_key a <? d_key b).
Proof.
  intros Ha Hb Na Nb. destruct (of_bits_ok a Ha Na) as [Oa Ka], (of_bits_ok b Hb Nb) as [Ob Kb].
  unfold d_lt, SFltb, Z.ltb. by rewrite SFcompare_key, Ka, Kb.
Qed.
