(* ===== verification/Rounding.v ===== *)
(** What floating-point arithmetic on non-negative numbers computes.

    A finite double is an integer times a power of two.  Scaled by 2^2200 the
    doubles, and the exact results of an addition or a multiplication of two of
    them, are integers, and the exact result of a division is a fraction of two
    integers.  [rnd X D] is the double nearest to the fraction [X / D], so
    scaled.  Every operation of [Double] on non-negative numbers is the exact
    one followed by [rnd]; and [rnd] is monotone, leaves doubles alone, and is
    off by half a unit in the last place at most. *)
From Stdlib Require Import ZArith Lia List Bool.
From Stdlib Require Import Floats.SpecFloat.
From stdpp Require Import prelude.
From S2P Require Import Prelude.
From S2P Require Import Double.

(** ** Rounding a fraction *)

(** The integer nearest to [X / E], the even one of two *)
Definition nearest (X E : Z) : Z :=
  let q := X / E in
  match 2 * (X mod E) ?= E with
  | Lt => q
  | Eq => if Z.even q then q else q + 1
  | Gt => q + 1
  end.

Lemma nearest_bounds X E : 0 < E -> X / E <= nearest X E <= X / E + 1.
Proof. intros HE. unfold nearest. destruct (_ ?= _); [destruct (Z.even _)|..]; lia. Qed.

Lemma nearest_error X E : 0 < E -> 2 * X - E <= 2 * (nearest X E * E) <= 2 * X + E.
Proof.
  intros HE. unfold nearest. pose proof (Z_div_mod_eq_full X E). pose proof (Z.mod_pos_bound X E HE).
  destruct (Z.compare_spec (2 * (X mod E)) E); [destruct (Z.even _)|..]; nia.
Qed.

Lemma div_mono X1 E1 X2 E2 : 0 < E1 -> 0 < E2 -> X1 * E2 <= X2 * E1 -> X1 / E1 <= X2 / E2.
Proof.
  intros H1 H2 H. apply Z.div_le_lower_bound; [done|]. apply (Z.mul_le_mono_pos_l _ _ E1); [done|].
  pose proof (Z.mul_div_le X1 E1 H1). nia.
Qed.

Lemma nearest_mono X1 E1 X2 E2 : 0 < E1 -> 0 < E2 -> X1 * E2 <= X2 * E1 -> nearest X1 E1 <= nearest X2 E2.
Proof.
  intros H1 H2 H. pose proof (nearest_bounds X1 E1 H1). pose proof (nearest_bounds X2 E2 H2).
  pose proof (Z_div_mod_eq_full X1 E1) as D1. pose proof (Z.mod_pos_bound X1 E1 H1) as M1.
  pose proof (Z_div_mod_eq_full X2 E2) as D2. pose proof (Z.mod_pos_bound X2 E2 H2) as M2.
  pose proof (div_mono X1 E1 X2 E2 H1 H2 H) as Hq.
  destruct (Z.eq_dec (X1 / E1) (X2 / E2)) as [Eq|Ne]; [|lia]. unfold nearest. rewrite Eq in *.
  assert (X1 mod E1 * E2 <= X2 mod E2 * E1) as Hr by nia.
  destruct (Z.compare_spec (2 * (X1 mod E1)) E1), (Z.compare_spec (2 * (X2 mod E2)) E2);
    try destruct (Z.even _); try lia; exfalso; nia.
Qed.

Lemma nearest_scale X E c : 0 < E -> 0 < c -> nearest (X * c) (E * c) = nearest X E.
Proof. intros HE Hc. apply Z.le_antisymm; apply nearest_mono; nia. Qed.

Lemma nearest_multiple q E : 0 < E -> nearest (q * E) E = q.
Proof.
  intros HE. unfold nearest. rewrite Z.mod_mul, Z.div_mul by lia. by rewrite (proj2 (Z.compare_lt_iff (2 * 0) E)) by lia.
Qed.

(** The unit of the doubles of the magnitude of [v], a scaled number *)
Definition unit_exp (v : Z) : Z := Z.max (Z.log2 v - 52) 1126.

Definition rnd (X D : Z) : Z := let k := unit_exp (X / D) in nearest X (D * 2 ^ k) * 2 ^ k.

Lemma unit_exp_mono v w : v <= w -> unit_exp v <= unit_exp w.
Proof. intros H. pose proof (Z.log2_le_mono v w H). unfold unit_exp. lia. Qed.

Lemma pow2_pos k : 0 <= k -> 0 < 2 ^ k.
Proof. intros. by apply Z.pow_pos_nonneg. Qed.
#[local] Hint Resolve pow2_pos : core.

Lemma unit_exp_nonneg v : 0 <= unit_exp v.
Proof. unfold unit_exp. lia. Qed.

(** Below the magnitude above, a rounded number stays at or below it. *)
Lemma nearest_le_pow X E : 0 < E -> X <= 2 ^ 53 * E -> nearest X E <= 2 ^ 53.
Proof. intros HE H. rewrite <- (nearest_multiple (2 ^ 53) E HE). apply nearest_mono; [done|done|]. nia. Qed.

Lemma rnd_mono X1 D1 X2 D2 : 0 < D1 -> 0 < D2 -> 0 <= X1 -> X1 * D2 <= X2 * D1 -> rnd X1 D1 <= rnd X2 D2.
Proof.
  intros H1 H2 Hx H. unfold rnd.
  pose proof (div_mono X1 D1 X2 D2 H1 H2 H) as Hq.
  pose proof (Z.div_pos X1 D1 Hx H1) as Hp. pose proof (unit_exp_mono _ _ Hq) as Hk.
  pose proof (unit_exp_nonneg (X1 / D1)) as Hk1. set (k1 := unit_exp (X1 / D1)) in *. set (k2 := unit_exp (X2 / D2)) in *.
  pose proof (pow2_pos k1 Hk1) as P1. pose proof (pow2_pos k2 ltac:(lia)) as P2.
  destruct (Z.eq_dec k1 k2) as [E|Ne].
  - rewrite <- E. apply Z.mul_le_mono_nonneg_r; [lia|]. apply nearest_mono; nia.
  - assert (Z.log2 (X1 / D1) < k1 + 53 /\ k2 = Z.log2 (X2 / D2) - 52) as [L1 L2] by (unfold k1, k2, unit_exp in *; lia).
    assert (X1 < D1 * 2 ^ k1 * 2 ^ 53) as B1.
    { assert (X1 / D1 < 2 ^ (k1 + 53)) as Hlt.
      { destruct (Z.eq_dec (X1 / D1) 0) as [->|]; [apply pow2_pos; lia|]. apply Z.log2_lt_pow2; lia. }
      rewrite Z.pow_add_r in Hlt by lia. pose proof (Z_div_mod_eq_full X1 D1). pose proof (Z.mod_pos_bound X1 D1 H1). nia. }
    assert (D2 * 2 ^ k2 * 2 ^ 52 <= X2) as B2.
    { assert (0 < X2 / D2) as Hpos.
      { destruct (Z.eq_dec (X2 / D2) 0) as [E|]; [|lia]. rewrite E in L2. cbn in L2. unfold k1, unit_exp in *. lia. }
      pose proof (Z.log2_spec (X2 / D2) Hpos) as [Hlo _].
      replace (Z.log2 (X2 / D2)) with (k2 + 52) in Hlo by lia. rewrite Z.pow_add_r in Hlo by lia.
      pose proof (Z_div_mod_eq_full X2 D2). pose proof (Z.mod_pos_bound X2 D2 H2). nia. }
    assert (nearest X1 (D1 * 2 ^ k1) <= 2 ^ 53) as N1 by (apply nearest_le_pow; nia).
    assert (2 ^ 52 <= nearest X2 (D2 * 2 ^ k2)) as N2.
    { rewrite <- (nearest_multiple (2 ^ 52) (D2 * 2 ^ k2)) by nia. apply nearest_mono; nia. }
    assert (2 * 2 ^ k1 <= 2 ^ k2) as Hpow.
    { replace (2 * 2 ^ k1) with (2 ^ (k1 + 1)) by (rewrite Z.pow_add_r by lia; lia). apply Z.pow_le_mono_r; lia. }
    nia.
Qed.

Lemma rnd_nonneg X D : 0 < D -> 0 <= X -> 0 <= rnd X D.
Proof.
  intros HD HX. unfold rnd. pose proof (unit_exp_nonneg (X / D)) as Hk. pose proof (pow2_pos _ Hk).
  apply Z.mul_nonneg_nonneg; [|lia]. pose proof (nearest_bounds X (D * 2 ^ unit_exp (X / D)) ltac:(nia)).
  pose proof (Z.div_pos X (D * 2 ^ unit_exp (X / D)) HX ltac:(nia)). lia.
Qed.

Lemma rnd_scale X D c : 0 < D -> 0 < c -> rnd (X * c) (D * c) = rnd X D.
Proof.
  intros HD Hc. unfold rnd. rewrite Z.div_mul_cancel_r by lia. f_equal.
  pose proof (pow2_pos _ (unit_exp_nonneg (X / D))).
  rewrite <- (nearest_scale X (D * 2 ^ unit_exp (X / D)) c) by nia. f_equal. lia.
Qed.

(** A double is left alone. *)
Lemma rnd_exact p j : 0 <= p < 2 ^ 53 -> 1126 <= j -> rnd (p * 2 ^ j) 1 = p * 2 ^ j.
Proof.
  intros Hp Hj. unfold rnd. rewrite Z.div_1_r, Z.mul_1_l. set (k := unit_exp (p * 2 ^ j)).
  pose proof (unit_exp_nonneg (p * 2 ^ j)) as Hk. fold k in Hk.
  assert (k <= j \/ p = 0) as [Hkj| ->].
  - destruct (Z.eq_dec p 0) as [|Hne]; [by right|left]. unfold k, unit_exp.
    rewrite Z.log2_mul_pow2 by lia. assert (Z.log2 p < 53) by (apply Z.log2_lt_pow2; lia). lia.
  - replace (p * 2 ^ j) with (p * 2 ^ (j - k) * 2 ^ k)
      by (rewrite <- Z.mul_assoc, <- Z.pow_add_r by lia; do 2 f_equal; lia).
    by rewrite nearest_multiple by (by apply pow2_pos).
  - rewrite Z.mul_0_l. pose proof (nearest_multiple 0 (2 ^ k) (pow2_pos k Hk)) as E. rewrite Z.mul_0_l in E. lia.
Qed.

(** The relative error, for numbers that are not tiny *)
Lemma rnd_error X D : 0 < D -> 2 ^ 1178 <= X / D ->
  X * (2 ^ 53 - 1) <= rnd X D * D * 2 ^ 53 <= X * (2 ^ 53 + 1).
Proof.
  intros HD HX. unfold rnd. set (k := unit_exp (X / D)).
  pose proof (unit_exp_nonneg (X / D)) as Hk. fold k in Hk. pose proof (pow2_pos k Hk) as Pk.
  assert (0 < X / D) as Hpos by (assert (0 < 2 ^ 1178) by (by apply pow2_pos); lia).
  pose proof (proj1 (Z.log2_le_pow2 (X / D) 1178 Hpos) HX) as Hl.
  assert (k = Z.log2 (X / D) - 52) as Ek by (unfold k, unit_exp; lia).
  pose proof (Z.log2_spec (X / D) Hpos) as [Hlo _]. replace (Z.log2 (X / D)) with (k + 52) in Hlo by lia.
  rewrite Z.pow_add_r in Hlo by lia.
  pose proof (Z_div_mod_eq_full X D). pose proof (Z.mod_pos_bound X D HD).
  pose proof (nearest_error X (D * 2 ^ k) ltac:(nia)).
  assert (D * 2 ^ k * 2 ^ 52 <= X) by nia. nia.
Qed.

(** ** [binary_round_aux] rounds *)

(** A mantissa with its round and sticky bits stands for [X / D]. *)
Definition stands_for (X D : Z) (r : shr_record) : Prop :=
  shr_m r = X / D /\ shr_r r = (D <=? 2 * (X mod D)) /\
  shr_s r = negb (2 * (X mod D) =? 0) && negb (2 * (X mod D) =? D).

Definition loc_of (X D : Z) : location :=
  if X mod D =? 0 then loc_Exact else loc_Inexact (2 * (X mod D) ?= D).

Lemma stands_for_loc X D : 0 < D -> stands_for X D (shr_record_of_loc (X / D) (loc_of X D)).
Proof.
  intros HD. unfold stands_for, loc_of, shr_record_of_loc. pose proof (Z.mod_pos_bound X D HD).
  destruct (Z.eqb_spec (X mod D) 0) as [->|Hne]; [cbn; zcases; split_and!; lia || done|].
  destruct (Z.compare_spec (2 * (X mod D)) D); cbn; zcases; split_and!; lia || done.
Qed.

Lemma round_stands_for X D r : 0 < D -> stands_for X D r ->
  round_nearest_even (shr_m r) (loc_of_shr_record r) = nearest X D.
Proof.
  intros HD (Hm & Hr & Hs). unfold nearest. destruct r as [m r s]. cbn in *. subst m.
  pose proof (Z.mod_pos_bound X D HD). subst r s.
  destruct (Z.compare_spec (2 * (X mod D)) D); zcases; cbn; done || lia.
Qed.

Lemma shr_1_stands_for X D r : 0 <= X -> 0 < D -> stands_for X D r -> stands_for X (2 * D) (shr_1 r).
Proof.
  intros HX HD (Hm & Hr & Hs). destruct r as [m r s]. cbn in Hm, Hr, Hs.
  pose proof (Z.mod_pos_bound X D HD) as Hb. pose proof (Z.div_pos X D HX HD) as Hq.
  assert (X / (2 * D) = m / 2) as Eq by (rewrite Z.mul_comm, <- Z.div_div by lia; congruence).
  assert (X mod (2 * D) = (m mod 2) * D + X mod D) as Em.
  { pose proof (Z_div_mod_eq_full X (2 * D)). pose proof (Z_div_mod_eq_full X D). pose proof (Z_div_mod_eq_full m 2). nia. }
  assert (r || s = negb (X mod D =? 0)) as Ers.
  { subst r s. zcases; cbn; done || lia. }
  unfold stands_for. rewrite Eq, Em.
  assert (forall p, m = Zpos p -> shr_1 (Build_shr_record m r s) =
    Build_shr_record (m / 2) (m mod 2 =? 1) (r || s)) as Hpos.
  { intros p ->. destruct p as [p|p|]; cbn -[Z.mul Z.div Z.modulo].
    - replace (Zpos p~1) with (1 + Zpos p * 2) by lia. by rewrite Z.div_add, Z.mod_add by lia.
    - replace (Zpos p~0) with (0 + Zpos p * 2) by lia. by rewrite Z.div_add, Z.mod_add by lia.
    - done. }
  assert (shr_1 (Build_shr_record m r s) = Build_shr_record (m / 2) (m mod 2 =? 1) (r || s)) as ->.
  { destruct m as [|p|p]; [done|by apply (Hpos p)|lia]. }
  cbn [shr_m shr_r shr_s]. rewrite Ers. pose proof (Z.mod_pos_bound m 2 ltac:(lia)).
  split_and!; [done| |]; destruct (Z.eqb_spec (m mod 2) 1) as [E1|E1]; zcases; cbn; done || nia.
Qed.

Lemma iter_stands_for p : forall X D r, 0 <= X -> 0 < D -> stands_for X D r ->
  stands_for X (D * 2 ^ Zpos p) (SpecFloat.iter_pos shr_1 p r).
Proof.
  induction p as [p IH|p IH|]; intros X D r HX HD H; cbn [SpecFloat.iter_pos].
  - replace (D * 2 ^ Zpos p~1) with (2 * D * 2 ^ Zpos p * 2 ^ Zpos p).
    + apply IH; [done|pose proof (pow2_pos (Zpos p) ltac:(lia)); nia|]. apply IH; [done|lia|]. by apply shr_1_stands_for.
    + replace (Zpos p~1) with (1 + (Zpos p + Zpos p)) by lia. rewrite !Z.pow_add_r by lia. lia.
  - replace (D * 2 ^ Zpos p~0) with (D * 2 ^ Zpos p * 2 ^ Zpos p).
    + apply IH; [done|pose proof (pow2_pos (Zpos p) ltac:(lia)); nia|]. by apply IH.
    + replace (Zpos p~0) with (Zpos p + Zpos p) by lia. rewrite !Z.pow_add_r by lia. lia.
  - rewrite Z.mul_comm. by apply shr_1_stands_for.
Qed.

Lemma shr_stands_for X D r e n : 0 <= X -> 0 < D -> stands_for X D r ->
  exists r', shr r e n = (r', e + Z.max n 0) /\ stands_for X (D * 2 ^ Z.max n 0) r'.
Proof.
  intros HX HD H. destruct n as [|p|p]; cbn [shr].
  - exists r. rewrite Z.add_0_r, Z.mul_1_r. by split.
  - eexists. split; [reflexivity|]. rewrite Z.max_l by lia. by apply iter_stands_for.
  - exists r. rewrite Z.max_r, Z.add_0_r, Z.mul_1_r by lia. by split.
Qed.

Lemma digits2_log2 p : Zpos (digits2_pos p) = Z.log2 (Zpos p) + 1.
Proof.
  induction p as [p IH|p IH|]; [| |done]; cbn [digits2_pos]; rewrite Pos2Z.inj_succ, IH.
  - change (Zpos p~1) with (2 * Zpos p + 1). rewrite Z.log2_succ_double by lia. lia.
  - change (Zpos p~0) with (2 * Zpos p). rewrite Z.log2_double by lia. lia.
Qed.
Lemma Zdigits2_log2 m : 0 < m -> Zdigits2 m = Z.log2 m + 1.
Proof. destruct m; [lia| |lia]. intros _. apply digits2_log2. Qed.

(** The doubles that are not negative, and their scaled values *)
Definition has_value (f : spec_float) (v : Z) : Prop :=
  match f with
  | S754_zero false => v = 0
  | S754_finite false p e => canonical p e /\ v = Zpos p * 2 ^ (e + 2200)
  | _ => False
  end.

Lemma log2_div_scale X D a : 0 < D -> 0 < X / D -> 0 <= a -> Z.log2 (X * 2 ^ a / D) = Z.log2 (X / D) + a.
Proof.
  intros HD HX Ha. pose proof (Z.log2_spec (X / D) HX) as [H1 H2]. pose proof (Z.log2_nonneg (X / D)).
  pose proof (Z_div_mod_eq_full X D). pose proof (Z.mod_pos_bound X D HD). pose proof (pow2_pos a Ha).
  apply Z.log2_unique; [lia|]. rewrite <- Z.add_succ_l, !Z.pow_add_r by lia. split.
  - apply Z.div_le_lower_bound; [done|]. rewrite Z.mul_assoc. apply Z.mul_le_mono_nonneg_r; [lia|]. nia.
  - apply Z.div_lt_upper_bound; [done|]. rewrite Z.mul_assoc. apply Z.mul_lt_mono_pos_r; [lia|]. nia.
Qed.

(** The rest of the rounding, when the mantissa has been cut to its width *)
Lemma normalize_value q g : 0 <= q <= 2 ^ 53 -> -1074 <= g -> (g = -1074 \/ 2 ^ 52 <= q) ->
  q * 2 ^ (g + 2200) < 2 ^ (1024 + 2200) ->
  has_value (let '(r, e) := shr_fexp prec emax q g loc_Exact in
             match shr_m r with
             | Z0 => S754_zero false
             | Zpos m => if Z.leb e (emax - prec) then S754_finite false m e else S754_infinity false
             | Zneg _ => S754_nan
             end) (q * 2 ^ (g + 2200)).
Proof.
  intros Hq Hg Hc Hmax. unfold shr_fexp.
  assert (stands_for q 1 (shr_record_of_loc q loc_Exact)) as Hs.
  { pose proof (stands_for_loc q 1 ltac:(lia)) as H. unfold loc_of in H. by rewrite Z.div_1_r, Z.mod_1_r in H. }
  destruct (shr_stands_for q 1 _ g (fexp prec emax (Zdigits2 q + g) - g) ltac:(lia) ltac:(lia) Hs) as (r & -> & Hm & _).
  rewrite Hm. destruct (Z.eq_dec q 0) as [->|Hne].
  { rewrite Z.div_0_l; [done|]. pose proof (pow2_pos (Z.max (fexp prec emax (Zdigits2 0 + g) - g) 0) ltac:(lia)). lia. }
  rewrite Zdigits2_log2 by lia.
  assert (g <= 971) as Hg971.
  { destruct (Z.le_gt_cases g 971) as [|Hgt]; [done|exfalso]. destruct Hc as [->|Hc]; [lia|].
    assert (2 ^ (972 + 2200) <= 2 ^ (g + 2200)) by (apply Z.pow_le_mono_r; lia).
    assert (2 ^ (1024 + 2200) = 2 ^ 52 * 2 ^ (972 + 2200)) by (rewrite <- Z.pow_add_r by lia; done). nia. }
  destruct (Z.eq_dec q (2 ^ 53)) as [->|Hlt].
  - assert (fexp prec emax (Z.log2 (2 ^ 53) + 1 + g) - g = 1) as ->.
    { rewrite Z.log2_pow2 by lia. unfold fexp, emin, prec, emax. lia. }
    change (Z.max 1 0) with 1. change (2 ^ 53 / (1 * 2 ^ 1)) with (Zpos 4503599627370496).
    assert (g + 1 <= 971).
    { destruct (Z.eq_dec g 971) as [->|]; [exfalso|lia]. revert Hmax. by vm_compute. }
    destruct (Z.leb_spec (g + 1) (emax - prec)); [|unfold emax, prec in *; lia]. cbn [has_value]. split; [right; lia|].
    replace (g + 1 + 2200) with (1 + (g + 2200)) by lia. rewrite (Z.pow_add_r 2 1) by lia. lia.
  - assert (Z.log2 q <= 52) by (apply Z.lt_succ_r, Z.log2_lt_pow2; lia).
    assert (Z.max (fexp prec emax (Z.log2 q + 1 + g) - g) 0 = 0) as ->.
    { unfold fexp, emin, prec, emax. lia. }
    rewrite Z.mul_1_l, Z.div_1_r, Z.add_0_r. destruct q as [|q|q]; [lia| |lia].
    destruct (Z.leb_spec g (emax - prec)); [|unfold emax, prec in *; lia]. cbn [has_value]. split; [|done].
    destruct (Z.lt_ge_cases (Zpos q) (2 ^ 52)); [left; lia|right; lia].
Qed.

(** The result of rounding: [m] and the location are the fraction [X / D], the
    exponent is [e], and the mantissa has enough digits or the exponent is small. *)
Lemma round_aux_value X D m e : 0 < D -> 0 < m -> m = X / D -> -2200 <= e <= fexp prec emax (Z.log2 m + 1 + e) ->
  rnd (X * 2 ^ (e + 2200)) D < 2 ^ (1024 + 2200) ->
  has_value (binary_round_aux prec emax false m e (loc_of X D)) (rnd (X * 2 ^ (e + 2200)) D).
Proof.
  intros HD Hm Em He Hmax. pose proof (Z_div_mod_eq_full X D) as Hdiv. pose proof (Z.mod_pos_bound X D HD).
  assert (0 <= X) as HX by nia.
  set (g := fexp prec emax (Z.log2 m + 1 + e)) in *.
  assert (g = Z.max (Z.log2 m + e - 52) (-1074)) as Eg by (unfold g, fexp, emin, prec, emax; lia).
  unfold binary_round_aux. unfold shr_fexp at 1. rewrite Zdigits2_log2 by done. fold g. rewrite Em at 1.
  destruct (shr_stands_for X D _ e (g - e) HX HD (stands_for_loc X D HD)) as (r & -> & Hr).
  assert (0 < D * 2 ^ Z.max (g - e) 0) as HE by (pose proof (pow2_pos (Z.max (g - e) 0) ltac:(lia)); nia).
  rewrite (round_stands_for _ _ _ HE Hr). rewrite Z.max_l by lia. replace (e + (g - e)) with g by lia.
  rewrite Z.max_l in HE by lia.
  assert (rnd (X * 2 ^ (e + 2200)) D = nearest X (D * 2 ^ (g - e)) * 2 ^ (g + 2200)) as Er.
  { unfold rnd. assert (unit_exp (X * 2 ^ (e + 2200) / D) = g + 2200) as ->.
    { unfold unit_exp. rewrite log2_div_scale by lia. rewrite <- Em. lia. }
    f_equal. rewrite <- (nearest_scale X (D * 2 ^ (g - e)) (2 ^ (e + 2200))) by (done || apply pow2_pos; lia).
    f_equal. rewrite <- Z.mul_assoc, <- Z.pow_add_r by lia. do 2 f_equal. lia. }
  rewrite Er in Hmax |- *. set (q := nearest X (D * 2 ^ (g - e))) in *.
  pose proof (Z.log2_spec m Hm) as [L1 L2]. pose proof (Z.log2_nonneg m).
  assert (0 <= q <= 2 ^ 53) as Hq.
  { split.
    - rewrite <- (nearest_multiple 0 (D * 2 ^ (g - e)) HE). apply nearest_mono; [done|done|]. nia.
    - apply nearest_le_pow; [done|]. apply Z.lt_le_incl.
      apply Z.lt_le_trans with (D * 2 ^ Z.succ (Z.log2 m)); [nia|].
      replace (2 ^ 53 * (D * 2 ^ (g - e))) with (D * 2 ^ (53 + (g - e))) by (rewrite Z.pow_add_r by lia; lia).
      apply Z.mul_le_mono_nonneg_l; [lia|]. apply Z.pow_le_mono_r; lia. }
  apply normalize_value; [done|lia| |done].
  destruct (Z.eq_dec g (-1074)) as [|Hg]; [by left|right].
  rewrite <- (nearest_multiple (2 ^ 52) (D * 2 ^ (g - e)) HE). apply nearest_mono; [done|done|].
  apply Z.mul_le_mono_nonneg_r; [lia|]. apply Z.le_trans with (D * 2 ^ Z.log2 m); [|nia].
  replace (2 ^ 52 * (D * 2 ^ (g - e))) with (D * 2 ^ (52 + (g - e))) by (rewrite Z.pow_add_r by lia; lia).
  apply Z.mul_le_mono_nonneg_l; [lia|]. apply Z.pow_le_mono_r; lia.
Qed.

(** ** The order of the values *)

Lemma magnitude_lt p e q f : canonical p e -> canonical q f ->
  magnitude (S754_finite false p e) < magnitude (S754_finite false q f) ->
  Zpos p * 2 ^ (e + 2200) < Zpos q * 2 ^ (f + 2200).
Proof.
  intros Hp Hq. cbn [magnitude]. intros H.
  assert (e = f /\ Zpos p < Zpos q \/ Zpos p < 2 ^ 53 /\ 2 ^ 52 <= Zpos q /\ e < f) as [[<- Hpq]|(H1 & H2 & H3)].
  { revert H. destruct (Z.ltb_spec (Zpos p) (2 ^ 52)), (Z.ltb_spec (Zpos q) (2 ^ 52)), Hp as [Hp|Hp], Hq as [Hq|Hq]; lia. }
  - assert (-1074 <= e) by (destruct Hp; lia). pose proof (pow2_pos (e + 2200) ltac:(lia)). nia.
  - assert (-1074 <= e) by (destruct Hp; lia). pose proof (pow2_pos (e + 2200) ltac:(lia)).
    replace (f + 2200) with (e + 2200 + (1 + (f - e - 1))) by lia. rewrite (Z.pow_add_r 2 (e + 2200)) by lia.
    rewrite (Z.pow_add_r 2 1) by lia. pose proof (pow2_pos (f - e - 1) ltac:(lia)).
    set (A := 2 ^ (e + 2200)) in *. set (B := 2 ^ (f - e - 1)) in *.
    apply Z.lt_le_trans with (2 ^ 53 * A); [nia|]. replace (Zpos q * (A * (2 ^ 1 * B))) with (Zpos q * 2 * B * A) by lia.
    apply Z.mul_le_mono_nonneg_r; [lia|]. nia.
Qed.

Lemma magnitude_inj p e q f : canonical p e -> canonical q f ->
  magnitude (S754_finite false p e) = magnitude (S754_finite false q f) -> p = q /\ e = f.
Proof.
  intros Hp Hq. cbn [magnitude].
  destruct (Z.ltb_spec (Zpos p) (2 ^ 52)), (Z.ltb_spec (Zpos q) (2 ^ 52)), Hp as [Hp|Hp], Hq as [Hq|Hq]; lia.
Qed.

Lemma has_value_compare f g v w : has_value f v -> has_value g w -> SFcompare f g = Some (v ?= w).
Proof.
  intros Hf Hg.
  assert (forall p e, canonical p e -> 0 < Zpos p * 2 ^ (e + 2200)) as Hpos.
  { intros p e Hp. assert (-1074 <= e) by (destruct Hp; lia). pose proof (pow2_pos (e + 2200) ltac:(lia)). nia. }
  assert (sf_ok f /\ sf_ok g) as [Of Og].
  { destruct f as [[]| | |[]], g as [[]| | |[]]; cbn in *; try done; tauto. }
  rewrite (SFcompare_key f g Of Og). f_equal.
  destruct f as [[]| | |[] p e], g as [[]| | |[] q h]; cbn [has_value] in *; try done; cbn [sf_key].
  - by subst.
  - destruct Hg as [Hg ->]. subst v.
    transitivity Lt; [|symmetry]; apply Z.compare_lt_iff; [by apply magnitude_pos|by apply Hpos].
  - destruct Hf as [Hf ->]. subst w.
    transitivity Gt; [|symmetry]; apply Z.compare_gt_iff; [by apply magnitude_pos|by apply Hpos].
  - destruct Hf as [Hf ->], Hg as [Hg ->].
    destruct (Z.compare_spec (magnitude (S754_finite false p e)) (magnitude (S754_finite false q h))) as [E|L|L].
    + destruct (magnitude_inj _ _ _ _ Hf Hg E) as [<- <-]. by rewrite Z.compare_refl.
    + symmetry. apply Z.compare_lt_iff. by apply magnitude_lt.
    + symmetry. apply Z.compare_gt_iff. by apply magnitude_lt.
Qed.

(** ** Doubles and their scaled values *)

(** The pattern [b] is that of the double with the scaled value [v]. *)
Definition denotes (b v : Z) : Prop := has_value (of_bits b) v.

Lemma of_to_bits f v : has_value f v -> of_bits (to_bits f) = f.
Proof.
  destruct f as [[]| | |[] p e]; cbn [has_value]; try done. intros [Hc _]. cbn [to_bits sign_bit].
  assert (forall x m, 0 <= x < 2047 -> 0 <= m < 2 ^ 52 -> x * 2 ^ 52 + m < 2 ^ 63 /\
    sign_of (x * 2 ^ 52 + m) = false /\ exponent_of (x * 2 ^ 52 + m) = x /\ mantissa_of (x * 2 ^ 52 + m) = m) as Hs.
  { intros x m Hx Hm. split; [lia|]. unfold sign_of, exponent_of, mantissa_of. rewrite Z.shiftr_div_pow2 by lia.
    rewrite Z.div_add_l, (Z.div_small m) by lia. rewrite Z.add_0_r, (Z.mod_small x) by lia.
    split; [|split; [done|]].
    - apply Z.testbit_false; [lia|]. rewrite Z.div_small by lia. done.
    - rewrite Z.add_comm, Z.mod_add by lia. by apply Z.mod_small. }
  unfold of_bits. destruct (Z.ltb_spec (Zpos p) (2 ^ 52)).
  - destruct (Hs 0 (Zpos p)) as (_ & E1 & E2 & E3); [lia|lia|]. rewrite Z.mul_0_l, Z.add_0_l in E1, E2, E3.
    rewrite ?Z.add_0_l, E1, E2, E3. cbn. destruct Hc as [[_ ->]|]; [done|lia].
  - destruct Hc as [|[Hp He]]; [lia|]. destruct (Hs (e + 1075) (Zpos p - 2 ^ 52)) as (_ & E1 & E2 & E3); [lia|lia|].
    match goal with |- context [sign_of ?b] => assert (b = (e + 1075) * 2 ^ 52 + (Zpos p - 2 ^ 52)) as -> by lia end.
    rewrite E1, E2, E3. destruct (Z.eqb_spec (e + 1075) 2047); [lia|]. destruct (Z.eqb_spec (e + 1075) 0); [lia|].
    replace (Zpos p - 2 ^ 52 + 2 ^ 52) with (Zpos p) by lia. f_equal. lia.
Qed.

Lemma denotes_lt a b v w : denotes a v -> denotes b w -> d_lt a b = (v <? w).
Proof. intros Ha Hb. unfold d_lt, SFltb. by rewrite (has_value_compare _ _ v w Ha Hb). Qed.
Lemma denotes_gt a b v w : denotes a v -> denotes b w -> d_gt a b = (w <? v).
Proof. intros Ha Hb. unfold d_gt, SFltb. by rewrite (has_value_compare _ _ w v Hb Ha). Qed.

Lemma has_value_nonneg f v : has_value f v -> 0 <= v.
Proof.
  destruct f as [[]| | |[] p e]; cbn [has_value]; intros H; try done; [lia|]. destruct H as [Hc ->].
  assert (-1074 <= e) by (destruct Hc; lia). pose proof (pow2_pos (e + 2200) ltac:(lia)). lia.
Qed.

Lemma has_value_denotes f v : has_value f v -> denotes (to_bits f) v.
Proof. intros H. unfold denotes. by rewrite (of_to_bits f v). Qed.

Lemma rnd_0 D : 0 < D -> rnd 0 D = 0.
Proof.
  intros HD. unfold rnd. rewrite Z.div_0_l by lia. pose proof (pow2_pos _ (unit_exp_nonneg 0)).
  pose proof (nearest_multiple 0 (D * 2 ^ unit_exp 0) ltac:(nia)) as E. rewrite Z.mul_0_l in E. by rewrite E.
Qed.

Lemma iter_xO p d : Zpos (Pos.iter xO p d) = Zpos p * 2 ^ Zpos d.
Proof.
  induction d as [|d IH] using Pos.peano_ind; [cbn; lia|].
  rewrite Pos.iter_succ, Pos2Z.inj_succ, Z.pow_succ_r by lia. change (Zpos (Pos.iter xO p d)~0) with (2 * Zpos (Pos.iter xO p d)).
  rewrite IH. lia.
Qed.

Lemma binary_round_value p e : -2200 <= e -> rnd (Zpos p * 2 ^ (e + 2200)) 1 < 2 ^ (1024 + 2200) ->
  has_value (binary_round prec emax false p e) (rnd (Zpos p * 2 ^ (e + 2200)) 1).
Proof.
  intros He Hmax. unfold binary_round, shl_align. rewrite digits2_log2.
  set (g := fexp prec emax (Z.log2 (Zpos p) + 1 + e)).
  assert (-1074 <= g) by (unfold g, fexp, emin, prec, emax; lia).
  destruct (g - e) as [|d|d] eqn:Ed.
  1,2: replace loc_Exact with (loc_of (Zpos p) 1) by (unfold loc_of; by rewrite Z.mod_1_r);
    apply round_aux_value; [lia|lia|by rewrite Z.div_1_r|unfold g in *; lia|done].
  replace loc_Exact with (loc_of (Zpos (Pos.iter xO p d)) 1) by (unfold loc_of; by rewrite Z.mod_1_r).
  assert (Zpos (Pos.iter xO p d) * 2 ^ (g + 2200) = Zpos p * 2 ^ (e + 2200)) as E.
  { rewrite iter_xO, <- Z.mul_assoc, <- Z.pow_add_r by lia. do 2 f_equal. lia. }
  rewrite <- E in Hmax |- *. apply round_aux_value; [lia|lia|by rewrite Z.div_1_r| |done].
  rewrite iter_xO, Z.log2_mul_pow2 by lia.
  match goal with |- context [fexp prec emax ?t] => replace t with (Z.log2 (Zpos p) + 1 + e) by lia end. fold g. lia.
Qed.

(** The bound below which nothing overflows *)
Abbreviation below_max v := (v < 2 ^ (1024 + 2200)).

Lemma denotes_of_int z : 0 <= z -> below_max (rnd (z * 2 ^ 2200) 1) -> denotes (d_of_int z) (rnd (z * 2 ^ 2200) 1).
Proof.
  intros Hz Hmax. apply has_value_denotes. destruct z as [|p|p]; [|exact (binary_round_value p 0 ltac:(lia) Hmax)|lia].
  rewrite Z.mul_0_l, rnd_0 by lia. done.
Qed.

Lemma denotes_of_small z : 0 <= z < 2 ^ 53 -> denotes (d_of_int z) (z * 2 ^ 2200).
Proof.
  intros Hz. assert (rnd (z * 2 ^ 2200) 1 = z * 2 ^ 2200) as E by (apply rnd_exact; lia).
  pose proof (denotes_of_int z) as H. rewrite E in H. apply H; [lia|].
  replace (2 ^ (1024 + 2200)) with (2 ^ 1024 * 2 ^ 2200) by (rewrite <- Z.pow_add_r by lia; done).
  apply Z.mul_lt_mono_pos_r; [by apply pow2_pos|]. assert (2 ^ 53 < 2 ^ 1024) by (apply Z.pow_lt_mono_r; lia). lia.
Qed.

Lemma denotes_mul a b v w : denotes a v -> denotes b w -> below_max (rnd (v * w) (2 ^ 2200)) ->
  denotes (d_mul a b) (rnd (v * w) (2 ^ 2200)).
Proof.
  intros Ha Hb Hmax. apply has_value_denotes. unfold denotes in *.
  destruct (of_bits a) as [[]| | |[] p e], (of_bits b) as [[]| | |[] q f]; cbn [has_value SFmul] in *; try done.
  1,2: subst; rewrite rnd_0 by (by apply pow2_pos); done.
  1: subst; rewrite Z.mul_0_r, rnd_0 by (by apply pow2_pos); done.
  destruct Ha as [Ha ->], Hb as [Hb ->].
  assert (-1074 <= e <= 971 /\ -1074 <= f <= 971) as [He Hf] by (destruct Ha, Hb; lia).
  assert (rnd (Zpos p * 2 ^ (e + 2200) * (Zpos q * 2 ^ (f + 2200))) (2 ^ 2200) =
    rnd (Zpos (p * q) * 2 ^ (e + f + 2200)) 1) as E.
  { rewrite <- (rnd_scale (Zpos (p * q) * 2 ^ (e + f + 2200)) 1 (2 ^ 2200)) by (lia || by apply pow2_pos).
    f_equal. rewrite Pos2Z.inj_mul, <- !Z.mul_assoc, <- Z.pow_add_r by lia.
    replace (e + f + 2200 + 2200) with (e + 2200 + (f + 2200)) by lia.
    rewrite (Z.pow_add_r 2 (e + 2200) (f + 2200)) by lia. ring. }
  rewrite E in Hmax |- *. cbn [xorb].
  replace loc_Exact with (loc_of (Zpos (p * q)) 1) by (unfold loc_of; by rewrite Z.mod_1_r).
  apply round_aux_value; [lia|lia|by rewrite Z.div_1_r| |done]. split; [lia|].
  unfold fexp, emin, prec, emax.
  assert (e + f <= -1074 \/ 52 <= Z.log2 (Zpos (p * q))) as [|]; [|lia|lia].
  destruct Ha as [[_ ->]|[[Hp _] _]], Hb as [[_ ->]|[[Hq _] _]]; [left; lia|right..];
    apply Z.log2_le_pow2; lia.
Qed.

Lemma new_location_of d X : 0 < d -> new_location d (X mod d) = loc_of X d.
Proof.
  intros Hd. unfold new_location, new_location_even, new_location_odd, loc_of. pose proof (Z.mod_pos_bound X d Hd).
  destruct (Z.even d) eqn:Ev; [done|]. destruct (X mod d =? 0); [done|]. f_equal.
  assert (Z.odd d = true) as Ho by (rewrite <- Z.negb_even; by rewrite Ev). apply Z.odd_spec in Ho as [k Hk].
  destruct (Z.compare_spec (2 * (X mod d) + 1) d), (Z.compare_spec (2 * (X mod d)) d); done || lia.
Qed.

Lemma denotes_div a b v w : denotes a v -> denotes b w -> 0 < w -> v = 0 \/ 2 ^ 1178 * w <= v * 2 ^ 2200 ->
  below_max (rnd (v * 2 ^ 2200) w) -> denotes (d_div a b) (rnd (v * 2 ^ 2200) w).
Proof.
  intros Ha Hb Hw Hmin Hmax. apply has_value_denotes. unfold denotes in *.
  destruct (of_bits a) as [[]| | |[] p e], (of_bits b) as [[]| | |[] q f]; cbn [has_value SFdiv] in *; try done; subst; try lia.
  1: rewrite rnd_0 by done; done.
  destruct Ha as [Ha ->], Hb as [Hb ->].
  assert (-1074 <= e <= 971 /\ -1074 <= f <= 971) as [He Hf] by (destruct Ha, Hb; lia).
  unfold SFdiv_core_binary. rewrite !Zdigits2_log2 by lia.
  set (g := Z.min (fexp prec emax (Z.log2 (Zpos p) + 1 + e - (Z.log2 (Zpos q) + 1 + f))) (e - f)).
  assert (-2200 <= g) as Hg by (unfold g, fexp, emin, prec, emax; lia).
  assert (match e - f - g with Zpos _ => Z.shiftl (Zpos p) (e - f - g) | Z0 => Zpos p | Zneg _ => 0 end =
    Zpos p * 2 ^ (e - f - g)) as Es.
  { destruct (e - f - g) as [|s|s] eqn:E; [lia| |unfold g in *; lia]. by rewrite Z.shiftl_mul_pow2 by lia. }
  rewrite Es. set (X := Zpos p * 2 ^ (e - f - g)). rewrite (surjective_pairing (Z.div_eucl X (Zpos q))).
  change (Z.div_eucl X (Zpos q)).1 with (X / Zpos q). change (Z.div_eucl X (Zpos q)).2 with (X mod Zpos q).
  rewrite new_location_of by lia.
  assert (X * 2 ^ (g + 2200) = Zpos p * 2 ^ (e - f + 2200)) as EX.
  { unfold X. rewrite <- Z.mul_assoc, <- Z.pow_add_r by (unfold g in *; lia). do 2 f_equal. lia. }
  assert (rnd (Zpos p * 2 ^ (e + 2200) * 2 ^ 2200) (Zpos q * 2 ^ (f + 2200)) = rnd (X * 2 ^ (g + 2200)) (Zpos q)) as E.
  { rewrite <- (rnd_scale (X * 2 ^ (g + 2200)) (Zpos q) (2 ^ (f + 2200))) by (lia || apply pow2_pos; lia).
    f_equal. rewrite EX, <- !Z.mul_assoc, <- !Z.pow_add_r by lia. do 2 f_equal. lia. }
  pose proof (Z.log2_spec (Zpos p) ltac:(lia)) as [P1 P2]. pose proof (Z.log2_spec (Zpos q) ltac:(lia)) as [Q1 Q2].
  pose proof (Z.log2_nonneg (Zpos p)). pose proof (Z.log2_nonneg (Zpos q)).
  assert (0 < X / Zpos q) as Hpos.
  { apply Z.div_str_pos. split; [lia|]. destruct Hmin as [Hmin|Hmin]; [pose proof (pow2_pos (e + 2200) ltac:(lia)); lia|].
    destruct (Z.le_gt_cases (g + 2200) 1178) as [Hle|Hgt].
    - assert (2 ^ (g + 2200) <= 2 ^ 1178) by (apply Z.pow_le_mono_r; lia).
      pose proof (pow2_pos (g + 2200) ltac:(lia)). pose proof (pow2_pos (f + 2200) ltac:(lia)).
      apply (Z.mul_le_mono_pos_r _ _ (2 ^ (g + 2200))); [done|]. rewrite EX.
      apply (Z.mul_le_mono_pos_r _ _ (2 ^ (f + 2200))); [done|].
      replace (Zpos p * 2 ^ (e - f + 2200) * 2 ^ (f + 2200)) with (Zpos p * 2 ^ (e + 2200) * 2 ^ 2200).
      + etransitivity; [|exact Hmin]. nia.
      + rewrite <- !Z.mul_assoc, <- !Z.pow_add_r by lia. do 2 f_equal. lia.
    - assert (53 + Z.log2 (Zpos q) <= Z.log2 (Zpos p) + (e - f - g)) as Hd by (unfold g, fexp, emin, prec, emax in *; lia).
      apply Z.lt_le_incl, (Z.lt_le_trans _ _ _ Q2). apply Z.le_trans with (2 ^ (Z.log2 (Zpos p) + (e - f - g))).
      + apply Z.pow_le_mono_r; lia.
      + rewrite Z.pow_add_r by (unfold g in *; lia). apply Z.mul_le_mono_nonneg_r; [|done].
        apply Z.lt_le_incl, pow2_pos. unfold g. lia. }
  rewrite E in Hmax |- *. cbn [xorb]. apply round_aux_value; [lia|done|done| |done]. split; [done|].
  assert (Z.log2 (Zpos p) + (e - f - g) - Z.log2 (Zpos q) - 1 <= Z.log2 (X / Zpos q)) as Hl.
  { set (d := Z.log2 (Zpos p) + (e - f - g) - Z.log2 (Zpos q) - 1). destruct (Z.le_gt_cases d 0) as [|Hd];
      [pose proof (Z.log2_nonneg (X / Zpos q)); lia|]. apply Z.log2_le_pow2; [done|].
    apply Z.div_le_lower_bound; [lia|]. apply Z.le_trans with (2 ^ (Z.log2 (Zpos p) + (e - f - g))).
    - replace (Z.log2 (Zpos p) + (e - f - g)) with (Z.succ (Z.log2 (Zpos q)) + d) by (unfold d; lia).
      rewrite Z.pow_add_r by lia. apply Z.mul_le_mono_nonneg_r; [|lia]. apply Z.lt_le_incl, pow2_pos. lia.
    - rewrite Z.pow_add_r by (unfold g in *; lia). apply Z.mul_le_mono_nonneg_r; [|done].
      apply Z.lt_le_incl, pow2_pos. unfold g. lia. }
  unfold g at 1. unfold fexp, emin, prec, emax in *. lia.
Qed.

Lemma denotes_add a b v w : denotes a v -> denotes b w -> below_max (rnd (v + w) 1) ->
  denotes (d_add a b) (rnd (v + w) 1).
Proof.
  intros Ha Hb Hmax. apply has_value_denotes. unfold denotes in *.
  assert (forall f x, has_value f x -> rnd x 1 = x) as Hexact.
  { intros [[]| | |[] p e] x; cbn [has_value]; [intros []|intros ->; by apply rnd_0|intros []..|].
    intros [Hc ->]. apply rnd_exact; destruct Hc; lia. }
  destruct (of_bits a) as [[]| | |[] p e] eqn:Ea, (of_bits b) as [[]| | |[] q f] eqn:Eb; cbn [has_value] in Ha, Hb; try done; cbn [SFadd].
  - subst. by rewrite rnd_0.
  - subst v. rewrite Z.add_0_l, (Hexact (S754_finite false q f)) by done. done.
  - subst w. rewrite Z.add_0_r, (Hexact (S754_finite false p e)) by done. done.
  - destruct Ha as [Ha ->], Hb as [Hb ->].
    assert (-1074 <= e <= 971 /\ -1074 <= f <= 971) as [He Hf] by (destruct Ha, Hb; lia).
    assert (forall m x, Z.min e f <= x -> Zpos (shl_align m x (Z.min e f)).1 = Zpos m * 2 ^ (x - Z.min e f)) as Hal.
    { intros m x Hx. unfold shl_align. destruct (Z.min e f - x) as [|d|d] eqn:Ed; [|lia|].
      - replace (x - Z.min e f) with 0 by lia. cbn. lia.
      - cbn [fst]. rewrite iter_xO. do 2 f_equal. lia. }
    unfold cond_Zopp. rewrite !Hal by lia.
    assert (Zpos p * 2 ^ (e - Z.min e f) * 2 ^ (Z.min e f + 2200) = Zpos p * 2 ^ (e + 2200)) as E1
      by (rewrite <- Z.mul_assoc, <- Z.pow_add_r by lia; do 2 f_equal; lia).
    assert (Zpos q * 2 ^ (f - Z.min e f) * 2 ^ (Z.min e f + 2200) = Zpos q * 2 ^ (f + 2200)) as E2
      by (rewrite <- Z.mul_assoc, <- Z.pow_add_r by lia; do 2 f_equal; lia).
    pose proof (pow2_pos (e - Z.min e f) ltac:(lia)). pose proof (pow2_pos (f - Z.min e f) ltac:(lia)).
    destruct (Zpos p * 2 ^ (e - Z.min e f) + Zpos q * 2 ^ (f - Z.min e f)) as [|m|m] eqn:Em; [nia| |nia].
    cbn [binary_normalize].
    replace (Zpos p * 2 ^ (e + 2200) + Zpos q * 2 ^ (f + 2200)) with (Zpos m * 2 ^ (Z.min e f + 2200)) in *
      by (rewrite <- E1, <- E2, <- Em; ring).
    apply binary_round_value; [lia|done].
Qed.

(** The integers below 2^53 *)
Lemma rnd_small z : 0 <= z < 2 ^ 53 -> rnd (z * 2 ^ 2200) 1 = z * 2 ^ 2200.
Proof. intros Hz. by apply rnd_exact. Qed.

Lemma small_below_max z : 0 <= z < 2 ^ 53 -> below_max (z * 2 ^ 2200).
Proof.
  intros Hz. replace (2 ^ (1024 + 2200)) with (2 ^ 1024 * 2 ^ 2200) by (rewrite <- Z.pow_add_r by lia; done).
  apply Z.mul_lt_mono_pos_r; [by apply pow2_pos|]. assert (2 ^ 53 < 2 ^ 1024) by (apply Z.pow_lt_mono_r; lia). lia.
Qed.

Lemma denotes_add_small a b y z : denotes a (y * 2 ^ 2200) -> denotes b (z * 2 ^ 2200) -> 0 <= y -> 0 <= z ->
  y + z < 2 ^ 53 -> denotes (d_add a b) ((y + z) * 2 ^ 2200).
Proof.
  intros Ha Hb Hy Hz Hs. rewrite <- (rnd_small (y + z)) by lia. rewrite Z.mul_add_distr_r.
  apply denotes_add; [done|done|]. rewrite <- Z.mul_add_distr_r, rnd_small by lia. apply small_below_max. lia.
Qed.

(** The quotient, rounded down, of a finite double that is not negative *)
Lemma finite_quotient p e : -1074 <= e ->
  (if 0 <=? e then Zpos p * 2 ^ e else Zpos p / 2 ^ (- e)) = Zpos p * 2 ^ (e + 2200) / 2 ^ 2200.
Proof.
  intros He. destruct (Z.leb_spec 0 e).
  - rewrite Z.pow_add_r, Z.mul_assoc by lia. by rewrite Z.div_mul by (apply Z.neq_sym, Z.lt_neq, pow2_pos; lia).
  - replace (2 ^ 2200) with (2 ^ (- e) * 2 ^ (e + 2200)) by (rewrite <- Z.pow_add_r by lia; f_equal; lia).
    rewrite Z.div_mul_cancel_r; [done|apply Z.neq_sym, Z.lt_neq, pow2_pos; lia..].
Qed.

Lemma denotes_to_int b v : denotes b v -> v / 2 ^ 2200 < 2 ^ 63 -> d_to_int b = Some (v / 2 ^ 2200).
Proof.
  unfold denotes, d_to_int. intros Hb Hv. destruct (of_bits b) as [[]| | |[] p e]; cbn [has_value] in *; try done; [by subst|].
  destruct Hb as [Hc ->]. assert (-1074 <= e) by (destruct Hc; lia). rewrite finite_quotient by done.
  assert (0 <= Zpos p * 2 ^ (e + 2200) / 2 ^ 2200).
  { apply Z.div_pos; [|by apply pow2_pos]. pose proof (pow2_pos (e + 2200) ltac:(lia)). lia. }
  set (z := Zpos p * 2 ^ (e + 2200) / 2 ^ 2200) in *. destruct (Z.leb_spec (- 2 ^ 63) z), (Z.ltb_spec z (2 ^ 63)); lia || done.
Qed.

Lemma denotes_to_size b v : denotes b v -> v / 2 ^ 2200 < 2 ^ 64 -> d_to_size b = Some (v / 2 ^ 2200).
Proof.
  unfold denotes, d_to_size. intros Hb Hv. destruct (of_bits b) as [[]| | |[] p e]; cbn [has_value] in *; try done; [by subst|].
  destruct Hb as [Hc ->]. assert (-1074 <= e) by (destruct Hc; lia). rewrite finite_quotient by done.
  assert (0 <= Zpos p * 2 ^ (e + 2200) / 2 ^ 2200).
  { apply Z.div_pos; [|by apply pow2_pos]. pose proof (pow2_pos (e + 2200) ltac:(lia)). lia. }
  set (z := Zpos p * 2 ^ (e + 2200) / 2 ^ 2200) in *. destruct (Z.leb_spec 0 z), (Z.ltb_spec z (2 ^ 64)); lia || done.
Qed.

Lemma scale_pos : 0 < 2 ^ 2200.
Proof. by apply pow2_pos. Qed.

(** Rounding up *)
Definition ceiling (v : Z) : Z := - ((- v) / 2 ^ 2200).

Lemma ceiling_spec v : v <= ceiling v * 2 ^ 2200 < v + 2 ^ 2200.
Proof.
  unfold ceiling. pose proof scale_pos as HP. generalize dependent (2 ^ 2200). intros P HP.
  pose proof (Z_div_mod_eq_full (- v) P). pose proof (Z.mod_pos_bound (- v) P HP). nia.
Qed.

Lemma quotient_bounds v P c k : 0 < P -> 0 <= v -> v <= c * P < v + P -> v < (k - 1) * P -> 0 <= c < k.
Proof. intros HP Hv Hc Hk. split; nia. Qed.

Lemma denotes_ceil a v : denotes a v -> v < (2 ^ 53 - 1) * 2 ^ 2200 -> denotes (d_ceil a) (ceiling v * 2 ^ 2200).
Proof.
  intros Ha Hv. pose proof (has_value_nonneg _ _ Ha) as Hv0. pose proof (ceiling_spec v) as Hcs.
  assert (0 <= ceiling v < 2 ^ 53) as Hcb.
  { by apply (quotient_bounds v (2 ^ 2200)); [apply scale_pos|..]. }
  clear Hcs.
  unfold denotes, d_ceil in *. destruct (of_bits a) as [[]| | |[] p e] eqn:Ea; cbn [has_value] in Ha;
    try match type of Ha with False => destruct Ha end.
  - subst v. rewrite Ea. reflexivity.
  - destruct Ha as [Hc ->]. assert (-1074 <= e) by (destruct Hc; lia). destruct (Z.leb_spec 0 e) as [He|He].
    + rewrite Ea. cbn [has_value]. split; [done|]. unfold ceiling. rewrite Z.pow_add_r, Z.mul_assoc by lia.
      rewrite <- Z.mul_opp_l, Z.div_mul by lia. lia.
    + cbn [andb]. assert (- (- Zpos p / 2 ^ (- e)) = ceiling (Zpos p * 2 ^ (e + 2200))) as ->.
      { unfold ceiling. f_equal. replace (2 ^ 2200) with (2 ^ (- e) * 2 ^ (e + 2200)) by (rewrite <- Z.pow_add_r by lia; f_equal; lia).
        rewrite <- Z.mul_opp_l, Z.div_mul_cancel_r; [done|apply Z.neq_sym, Z.lt_neq, pow2_pos; lia..]. }
      by apply denotes_of_small.
Qed.
