(* ===== verification/Archive.v ===== *)
(** Byte archives: the model of [serialization/oarchive.hpp] and
    [serialization/iarchive.hpp].

    An [oarchive] writes either to a growable buffer ([buf], [off], [len]) or to
    a [std::ostream] ([out]).  An [iarchive] reads from a buffer.  The section
    [Spec] states what the two promise to every serializer built on them:
    [emits] (a writer appends exactly these bytes) and [parses] (a reader
    consumes exactly these bytes and returns this value), both closed under
    sequencing.  [codec] joins them: what a writer emits, the reader parses
    back.  Clients use only these three predicates and their lemmas. *)
From Stdlib Require Import ZArith Lia List Bool.
From stdpp Require Import prelude.
From coqutil Require Import Byte Word.LittleEndianList.
From S2P Require Import Prelude.

Abbreviation bytes := (list byte).

(** ** Output archive *)

Record oarchive := mk_oarchive {
  out : option bytes;     (** the contents of the ostream, if one is attached *)
  obuf : bytes;           (** the allocated buffer (the vector [vchar] refers to) *)
  ooff : nat;             (** the serialized length *)
  olen : nat              (** the allocated length *)
}.

(** [oarchive(std::ostream&)], [oarchive(void)] and [oarchive(std::vector<char>&)] *)
Definition oarchive_stream (s : bytes) : oarchive := mk_oarchive (Some s) [] 0 0.
Definition oarchive_new : oarchive := mk_oarchive None [] 0 0.
Definition oarchive_vec (v : bytes) : oarchive := mk_oarchive None v 0 (length v).

Definition expand_buf (s : nat) (o : oarchive) : oarchive :=
  if (olen o <? ooff o + s)%nat then
    let len := (2 * (s + olen o))%nat in
    mk_oarchive (out o) (resize len Byte.x00 (obuf o)) (ooff o) len
  else o.

(** [memcpy(buf + off, c, s)] into a buffer that is long enough *)
Definition memcpy_at (buf : bytes) (off : nat) (c : bytes) : bytes :=
  take off buf ++ c ++ drop (off + length c) buf.

(** A writer transforms the archive; [None] is a failed assertion. *)
Definition writer := oarchive -> option oarchive.

Definition write (c : bytes) : writer := fun o =>
  match out o with
  | None =>
      let o := expand_buf (length c) o in
      Some (mk_oarchive None (memcpy_at (obuf o) (ooff o) c) (ooff o + length c) (olen o))
  | Some s => Some (mk_oarchive (Some (s ++ c)) (obuf o) (ooff o) (olen o))
  end.

(** [direct_assign<T>(t)] for a little-endian integer [t] of [n = sizeof(T)] bytes *)
Definition direct_assign (n : nat) (t : Z) : writer := fun o =>
  match out o with
  | None =>
      let o := expand_buf n o in
      Some (mk_oarchive None (memcpy_at (obuf o) (ooff o) (le_split n t)) (ooff o + n) (olen o))
  | Some s => Some (mk_oarchive (Some (s ++ le_split n t)) (obuf o) (ooff o) (olen o))
  end.

(** What has been written so far. *)
Definition oa_data (o : oarchive) : bytes :=
  match out o with None => take (ooff o) (obuf o) | Some s => s end.

Definition is_stream (o : oarchive) : bool :=
  match out o with None => false | Some _ => true end.

Definition oa_wf (o : oarchive) : Prop :=
  length (obuf o) = olen o /\ (ooff o <= olen o)%nat.

(** ** Input archive *)

Record iarchive := mk_iarchive {
  ibuf : bytes;
  ioff : nat
}.

Definition iarchive_buf (b : bytes) : iarchive := mk_iarchive b 0.

(** [read(c, l)] copies [l] bytes from [buf + off].  The code does not check
    the bound; a copy that leaves the buffer is undefined and is [None] here. *)
Definition read (l : nat) (i : iarchive) : option (bytes * iarchive) :=
  if (ioff i + l <=? length (ibuf i))%nat then
    Some (take l (drop (ioff i) (ibuf i)), mk_iarchive (ibuf i) (ioff i + l))
  else None.

(** [read_into<T>(c)] for an unsigned integer [c] of [n = sizeof(T)] bytes *)
Definition read_into (n : nat) (i : iarchive) : option (Z * iarchive) :=
  match read n i with
  | Some (c, i') => Some (le_combine c, i')
  | None => None
  end.

Definition ia_rest (i : iarchive) : bytes := drop (ioff i) (ibuf i).
Definition ia_wf (i : iarchive) : Prop := (ioff i <= length (ibuf i))%nat.
Definition ia_skip (n : nat) (i : iarchive) : iarchive := mk_iarchive (ibuf i) (ioff i + n).

(** ** Writers and readers *)

Definition reader (A : Type) := iarchive -> option (A * iarchive).

Definition wnil : writer := fun o => Some o.
Definition wfail : writer := fun _ => None.
Definition wseq (w1 w2 : writer) : writer :=
  fun o => match w1 o with Some o' => w2 o' | None => None end.
Fixpoint wfor {A} (f : A -> writer) (l : list A) : writer :=
  match l with
  | [] => wnil
  | x :: l => wseq (f x) (wfor f l)
  end.

Definition rret {A} (x : A) : reader A := fun i => Some (x, i).
Definition rfail {A} : reader A := fun _ => None.
Definition rbind {A B} (m : reader A) (k : A -> reader B) : reader B :=
  fun i => match m i with Some (x, i') => k x i' | None => None end.

(** [n] successive reads, collected in order. *)
Fixpoint rrepeat {A} (n : nat) (m : reader A) : reader (list A) :=
  match n with
  | O => rret []
  | S n => rbind m (fun x => rbind (rrepeat n m) (fun l => rret (x :: l)))
  end.

Declare Scope archive_scope.
Delimit Scope archive_scope with arc.
Notation "x <- m ;; k" := (rbind m (fun x => k))
  (at level 100, m at next level, right associativity) : archive_scope.
Notation "w1 >>> w2" := (wseq w1 w2) (at level 60, right associativity) : archive_scope.
#[global] Open Scope archive_scope.

(** ** Specification *)

Definition emits (w : writer) (bs : bytes) : Prop :=
  forall o, oa_wf o ->
    exists o', w o = Some o' /\
      oa_wf o' /\ oa_data o' = oa_data o ++ bs /\ is_stream o' = is_stream o.

Definition parses {A} (m : reader A) (bs : bytes) (x : A) : Prop :=
  forall i rest, ia_wf i -> ia_rest i = bs ++ rest -> m i = Some (x, ia_skip (length bs) i).

Definition codec {A} (save : A -> writer) (load : reader A) (x : A) : Prop :=
  exists bs, emits (save x) bs /\ parses load bs x.

(** The contract of a serializable type: every valid value round-trips. *)
Class Codec {A} (save : A -> writer) (load : reader A) (valid : A -> Prop) : Prop :=
  codec_at : forall x, valid x -> codec save load x.

(** ** The output archive keeps its contract *)

Lemma expand_buf_spec s o :
  oa_wf o ->
  let o' := expand_buf s o in
  oa_wf o' /\ out o' = out o /\ ooff o' = ooff o /\
  take (ooff o) (obuf o') = take (ooff o) (obuf o) /\ (ooff o + s <= olen o')%nat.
Proof.
  intros [Hl Ho]. unfold expand_buf, oa_wf.
  destruct (Nat.ltb_spec (olen o) (ooff o + s)); simpl.
  - rewrite length_resize. repeat split; try lia.
    rewrite resize_ge by lia. by rewrite take_app_le by lia.
  - repeat split; auto; lia.
Qed.

Lemma memcpy_at_spec buf off c :
  (off + length c <= length buf)%nat ->
  length (memcpy_at buf off c) = length buf /\
  take (off + length c) (memcpy_at buf off c) = take off buf ++ c.
Proof.
  intros H. unfold memcpy_at. split.
  - rewrite !length_app, length_take, length_drop. lia.
  - rewrite app_assoc, take_app_le.
    + rewrite take_ge; [done|]. rewrite length_app, length_take. lia.
    + rewrite length_app, length_take. lia.
Qed.

Lemma emits_write c : emits (write c) c.
Proof.
  intros o Hwf. unfold write, oa_data, is_stream. destruct (out o) as [s|] eqn:E; simpl.
  - eexists; split; [done|]. repeat split; apply Hwf.
  - eexists; split; [done|].
    destruct (expand_buf_spec (length c) o Hwf) as ([Hl Hle] & _ & Hoff & Htake & Hroom).
    rewrite Hoff in *.
    destruct (memcpy_at_spec (obuf (expand_buf (length c) o)) (ooff o) c) as [H1 H2]; [lia|].
    unfold oa_wf; simpl. rewrite H1, H2, Htake. repeat split; auto.
Qed.

Lemma direct_assign_write n t o : direct_assign n t o = write (le_split n t) o.
Proof. unfold direct_assign, write. by rewrite length_le_split. Qed.

Lemma emits_direct_assign n t : emits (direct_assign n t) (le_split n t).
Proof. intros o Ho. rewrite direct_assign_write. by apply emits_write. Qed.

Lemma emits_nil : emits wnil [].
Proof. intros o Ho. exists o. by rewrite app_nil_r. Qed.

Lemma emits_seq w1 w2 b1 b2 : emits w1 b1 -> emits w2 b2 -> emits (w1 >>> w2) (b1 ++ b2).
Proof.
  intros H1 H2 o Ho. unfold wseq.
  destruct (H1 o Ho) as (o1 & -> & Hw & Hd & Hs).
  destruct (H2 _ Hw) as (o2 & -> & Hw' & Hd' & Hs'). exists o2.
  split_and!; [done| done | by rewrite Hd', Hd, app_assoc | congruence].
Qed.

Lemma emits_for {A} (f : A -> writer) (g : A -> bytes) l :
  (forall x, x ∈ l -> emits (f x) (g x)) -> emits (wfor f l) (concat (map g l)).
Proof.
  induction l as [|x l IH]; intros H; simpl; [apply emits_nil|].
  apply emits_seq; [apply H; left | apply IH; intros; apply H; by right].
Qed.

Lemma emits_eq w b b' : emits w b -> b = b' -> emits w b'.
Proof. by intros ? <-. Qed.

(** In buffer mode the offset is the number of bytes written. *)
Lemma oa_data_length o : oa_wf o -> out o = None -> length (oa_data o) = ooff o.
Proof. intros [Hl Ho] E. unfold oa_data. rewrite E, length_take. lia. Qed.

(** ** The input archive keeps its contract *)

Lemma parses_ret {A} (x : A) : parses (rret x) [] x.
Proof. intros i rest Hi _. unfold rret, ia_skip. simpl. rewrite Nat.add_0_r. by destruct i. Qed.

Lemma ia_skip_rest i b rest :
  ia_wf i -> ia_rest i = b ++ rest ->
  ia_wf (ia_skip (length b) i) /\ ia_rest (ia_skip (length b) i) = rest.
Proof.
  unfold ia_wf, ia_rest, ia_skip; simpl. intros Hi H. split.
  - apply (f_equal length) in H. rewrite length_app, length_drop in H. lia.
  - rewrite <- drop_drop, H. apply drop_app_length.
Qed.

Lemma parses_bind {A B} (m : reader A) (k : A -> reader B) b1 b2 x y :
  parses m b1 x -> parses (k x) b2 y -> parses (rbind m k) (b1 ++ b2) y.
Proof.
  intros H1 H2 i rest Hi E. unfold rbind. rewrite <- app_assoc in E.
  rewrite (H1 i _ Hi E). destruct (ia_skip_rest i b1 _ Hi E) as [Hw Hr].
  rewrite (H2 _ _ Hw Hr). unfold ia_skip; simpl. rewrite length_app.
  do 3 f_equal. lia.
Qed.

Lemma parses_bind_nil {A B} (m : reader A) (k : A -> reader B) b x y :
  parses m b x -> parses (k x) [] y -> parses (rbind m k) b y.
Proof. intros. rewrite <- (app_nil_r b). eauto using parses_bind. Qed.

Lemma parses_eq {A} (m : reader A) b b' x : parses m b x -> b = b' -> parses m b' x.
Proof. by intros ? <-. Qed.

Lemma parses_read c : parses (read (length c)) c c.
Proof.
  intros i rest Hi E. unfold read. unfold ia_wf, ia_rest in *.
  pose proof (f_equal length E) as HL. rewrite length_drop, length_app in HL.
  destruct (Nat.leb_spec (ioff i + length c) (length (ibuf i))); [|lia].
  by rewrite E, take_app_length.
Qed.

Lemma parses_read_n n c : length c = n -> parses (read n) c c.
Proof. intros <-. apply parses_read. Qed.

Lemma le_combine_split_small n t : is_u (8 * Z.of_nat n) t -> le_combine (le_split n t) = t.
Proof.
  intros H. rewrite le_combine_split. rewrite Z.mul_comm in H. by apply Z.mod_small.
Qed.

Lemma parses_read_into n t :
  is_u (8 * Z.of_nat n) t -> parses (read_into n) (le_split n t) t.
Proof.
  intros Ht i rest Hi E. unfold read_into.
  rewrite (parses_read_n n (le_split n t) (length_le_split n t) i rest Hi E).
  by rewrite le_combine_split_small.
Qed.

Lemma parses_repeat {A} (m : reader A) (g : A -> bytes) l :
  (forall x, x ∈ l -> parses m (g x) x) ->
  parses (rrepeat (length l) m) (concat (map g l)) l.
Proof.
  induction l as [|x l IH]; intros H; simpl; [apply parses_ret|].
  eapply parses_bind; [apply H; left|].
  eapply parses_bind_nil; [apply IH; intros; apply H; by right | apply parses_ret].
Qed.

#[export] Hint Resolve emits_write emits_direct_assign emits_nil emits_seq
  parses_ret parses_read parses_read_into parses_bind : dato.

(** ** Whole-archive view *)

(** Serializing into a fresh buffer and reading that buffer back. *)
Definition to_bytes {A} (save : A -> writer) (x : A) : option bytes :=
  match save x oarchive_new with Some o => Some (oa_data o) | None => None end.
Definition of_bytes {A} (load : reader A) (b : bytes) : option A :=
  match load (iarchive_buf b) with Some (x, _) => Some x | None => None end.

Lemma oarchive_new_wf : oa_wf oarchive_new.
Proof. split; simpl; lia. Qed.

Lemma emits_to_bytes {A} (save : A -> writer) x bs : emits (save x) bs -> to_bytes save x = Some bs.
Proof.
  intros H. unfold to_bytes. by destruct (H _ oarchive_new_wf) as (o & -> & _ & -> & _).
Qed.

Lemma parses_of_bytes {A} (load : reader A) bs rest x :
  parses load bs x -> of_bytes load (bs ++ rest) = Some x.
Proof.
  intros H. unfold of_bytes. by rewrite (H (iarchive_buf (bs ++ rest)) rest (Nat.le_0_l _) eq_refl).
Qed.

Lemma codec_roundtrip {A} (save : A -> writer) (load : reader A) x rest :
  codec save load x ->
  exists bs, to_bytes save x = Some bs /\ of_bytes load (bs ++ rest) = Some x.
Proof.
  intros (bs & He & Hp). exists bs. split; [by apply emits_to_bytes | by apply parses_of_bytes].
Qed.

(** Whatever the archive holds and however its buffer was sized, writing a
    sequence of byte strings appends their concatenation: growing the buffer
    loses nothing, the bookkeeping stays consistent, and the offset is the
    number of bytes written (buffer mode). *)
Theorem oarchive_append cs o : oa_wf o ->
  exists o', wfor write cs o = Some o' /\ oa_wf o' /\ oa_data o' = oa_data o ++ concat cs /\
    (out o' = None -> length (oa_data o') = ooff o').
Proof.
  intros Ho. destruct (emits_for write (fun c => c) cs ltac:(intros; apply emits_write) o Ho)
    as (o' & E & Hw & Hd & _).
  exists o'. rewrite map_id in Hd. split_and!; auto using oa_data_length.
Qed.
