(* ===== verification/Serialization.v ===== *)
(** Serializers of the basic and container types: the model of
    [serialization/basic_types.hpp], [vector.hpp], [iterator.hpp], [list.hpp],
    [map.hpp], [set.hpp] and [unordered_map.hpp].  Every writer is paired with
    its reader and shown to be a [Codec] of the archive interface. *)
From Stdlib Require Import ZArith Lia List Bool.
From stdpp Require Import prelude gmap.
From coqutil Require Import Byte Word.LittleEndianList.
From S2P Require Import Prelude.
From S2P Require Import Archive.

(** ** POD types: [serialize_impl<_, T, true>] and [deserialize_impl<_, T, true>] *)
Definition pod_save (n : nat) (t : Z) : writer := direct_assign n t.
Definition pod_load (n : nat) : reader Z := read_into n.

Definition size_save (n : nat) : writer := pod_save 8 (Z.of_nat n).
Definition size_load : reader nat := z <- pod_load 8 ;; rret (Z.to_nat z).

Definition bool_save (b : bool) : writer := pod_save 1 (if b then 1 else 0).
Definition bool_load : reader bool := z <- pod_load 1 ;; rret (negb (z =? 0)).

(** ** Null-terminated and fixed-length character arrays *)

(** [strlen]: the number of bytes before the first NUL *)
Fixpoint strlen (s : bytes) : nat :=
  match s with
  | [] => O
  | c :: s => if decide (c = Byte.x00) then O else S (strlen s)
  end.

Definition cstr_save (s : bytes) : writer :=
  let length := S (strlen s) in size_save length >>> write (take length s).
Definition cstr_load : reader bytes := length <- size_load ;; read length.

Definition chararray_save (s : bytes) : writer := size_save (length s) >>> write s.
(** [ASSERT_LE(length, len)] aborts; otherwise the first [length] bytes of the
    destination are overwritten. *)
Definition chararray_load (s : bytes) : reader bytes :=
  n <- size_load ;;
  if (n <=? length s)%nat then (c <- read n ;; rret (c ++ drop n s)) else rfail.

(** ** [std::string] and [std::pair] *)
Definition string_save (s : bytes) : writer := size_save (length s) >>> write s.
Definition string_load : reader bytes := length <- size_load ;; read length.

Definition pair_save {T U} (st : T -> writer) (su : U -> writer) (s : T * U) : writer :=
  st s.1 >>> su s.2.
Definition pair_load {T U} (lt : reader T) (lu : reader U) : reader (T * U) :=
  x <- lt ;; y <- lu ;; rret (x, y).

(** ** [std::vector] *)
(** [vector_serialize_impl<_, _, false>] *)
Definition vector_save {T} (st : T -> writer) (vec : list T) : writer :=
  size_save (length vec) >>> wfor st vec.
Definition vector_load {T} (lt : reader T) : reader (list T) :=
  len <- size_load ;; rrepeat len lt.

(** [vector_serialize_impl<_, _, true>]: the elements as one raw copy of
    [n = sizeof(ValueType)] bytes each *)
Definition vector_pod_save (n : nat) (vec : list Z) : writer :=
  size_save (length vec) >>> write (concat (map (le_split n) vec)).

(** The raw bytes seen as consecutive [n]-byte values *)
Fixpoint pods_of_bytes (n : nat) (len : nat) (b : bytes) : list Z :=
  match len with
  | O => []
  | S len => le_combine (take n b) :: pods_of_bytes n len (drop n b)
  end.
Definition vector_pod_load (n : nat) : reader (list Z) :=
  len <- size_load ;; b <- read (n * len) ;; rret (pods_of_bytes n len b).

(** ** Iterators and the containers serialized through them *)

(** [serialize_iterator(oarc, begin, end)] over the elements [l] *)
Definition serialize_iterator {T} (st : T -> writer) (l : list T) : writer :=
  size_save (length l) >>> wfor st l.
(** [serialize_iterator(oarc, begin, end, vsize)]: fails when the count differs *)
Definition serialize_iterator_n {T} (st : T -> writer) (l : list T) (vsize : nat) : writer :=
  size_save vsize >>> wfor st l >>> (if (length l =? vsize)%nat then wnil else wfail).

(** [deserialize_iterator(iarc, result)]: [insert] is the output iterator *)
Fixpoint deserialize_loop {T C} (lt : reader T) (insert : T -> C -> C) (n : nat) (c : C)
    : reader C :=
  match n with
  | O => rret c
  | S n => v <- lt ;; deserialize_loop lt insert n (insert v c)
  end.
Definition deserialize_iterator {T C} (lt : reader T) (insert : T -> C -> C) (c : C)
    : reader C :=
  length <- size_load ;; deserialize_loop lt insert length c.

Definition list_save {T} (st : T -> writer) (vec : list T) : writer :=
  serialize_iterator_n st vec (length vec).
Definition list_load {T} (lt : reader T) : reader (list T) :=
  deserialize_iterator lt (fun x l => l ++ [x]) [].

Section maps.
Context {K V : Type} `{Countable K} (sk : K -> writer) (sv : V -> writer)
        (lk : reader K) (lv : reader V).

(** [std::map]; the argument is the sequence [begin .. end] yields *)
Definition map_save (elems : list (K * V)) : writer :=
  serialize_iterator_n (pair_save sk sv) elems (length elems).
(** [std::inserter] keeps an element whose key is already present *)
Definition map_load : reader (gmap K V) :=
  deserialize_iterator (pair_load lk lv)
    (fun kv m => match m !! kv.1 with Some _ => m | None => <[kv.1 := kv.2]> m end) ∅.

(** [std::unordered_map]: [vec[v.first] = v.second] overwrites *)
Definition unordered_map_save (elems : list (K * V)) : writer :=
  serialize_iterator_n (pair_save sk sv) elems (length elems).
Definition unordered_map_load : reader (gmap K V) :=
  deserialize_iterator (pair_load lk lv) (fun kv m => <[kv.1 := kv.2]> m) ∅.

(** [std::set] *)
Definition set_save (elems : list K) : writer :=
  serialize_iterator_n sk elems (length elems).
Definition set_load : reader (gset K) := deserialize_iterator lk (fun x s => {[x]} ∪ s) ∅.
End maps.

(** ** Codecs *)

Definition fits_size (n : nat) : Prop := Z.of_nat n < 2 ^ 64.

Lemma emits_size n : emits (size_save n) (le_split 8 (Z.of_nat n)).
Proof. apply emits_direct_assign. Qed.

Lemma parses_size n : fits_size n -> parses size_load (le_split 8 (Z.of_nat n)) n.
Proof.
  intros Hn. eapply parses_bind_nil.
  - apply (parses_read_into 8). unfold fits_size in Hn. split; [lia|]. done.
  - rewrite Nat2Z.id. apply parses_ret.
Qed.

#[export] Instance pod_codec n : Codec (pod_save n) (pod_load n) (is_u (8 * Z.of_nat n)).
Proof. intros x Hx. eexists; split; [apply emits_direct_assign | by apply parses_read_into]. Qed.

#[export] Instance bool_codec : Codec bool_save bool_load (fun _ => True).
Proof.
  intros b _. eexists; split; [apply emits_direct_assign|].
  eapply parses_bind_nil; [apply (parses_read_into 1); by destruct b|].
  destruct b; apply parses_ret.
Qed.

#[export] Instance string_codec : Codec string_save string_load (fun s => fits_size (length s)).
Proof.
  intros s Hs. eexists; split; [apply emits_seq; [apply emits_size | apply emits_write]|].
  eapply parses_bind; [by apply parses_size | apply parses_read].
Qed.

Lemma codec_pair {T U} (st : T -> writer) (su : U -> writer) lt lu x y :
  codec st lt x -> codec su lu y -> codec (pair_save st su) (pair_load lt lu) (x, y).
Proof.
  intros (b1 & He1 & Hp1) (b2 & He2 & Hp2). exists (b1 ++ b2). split.
  - by apply emits_seq.
  - eapply parses_bind; [done|]. eapply parses_bind_nil; [done|]. apply parses_ret.
Qed.

#[export] Instance pair_codec {T U} (st : T -> writer) (su : U -> writer) lt lu vt vu
    {CT : Codec st lt vt} {CU : Codec su lu vu} :
  Codec (pair_save st su) (pair_load lt lu) (fun p => vt p.1 /\ vu p.2).
Proof. intros [x y] [Hx Hy]. apply codec_pair; by apply codec_at. Qed.

(** Codecs of a list's elements give the bytes of the whole list. *)
Lemma codec_elements {T} (st : T -> writer) lt l :
  Forall (codec st lt) l ->
  exists bs, emits (wfor st l) bs /\
    parses (rrepeat (length l) lt) bs l /\
    forall C (insert : T -> C -> C) c,
      parses (deserialize_loop lt insert (length l) c) bs (fold_left (fun c x => insert x c) l c).
Proof.
  induction 1 as [|x l (b & He & Hp) _ (bs & IHe & IHp & IHl)].
  - exists []. split_and!; [apply emits_nil | apply parses_ret | intros; apply parses_ret].
  - exists (b ++ bs). split_and!.
    + by apply emits_seq.
    + eapply parses_bind; [done|]. eapply parses_bind_nil; [done|]. apply parses_ret.
    + intros C insert c. simpl. eapply parses_bind; [done|]. apply IHl.
Qed.

Lemma codec_vector {T} (st : T -> writer) lt l :
  fits_size (length l) -> Forall (codec st lt) l ->
  codec (vector_save st) (vector_load lt) l.
Proof.
  intros Hn Hl. destruct (codec_elements st lt l Hl) as (bs & He & Hp & _).
  eexists; split; [apply emits_seq; [apply emits_size | done]|].
  eapply parses_bind; [by apply parses_size | done].
Qed.

#[export] Instance vector_codec {T} (st : T -> writer) lt vt {CT : Codec st lt vt} :
  Codec (vector_save st) (vector_load lt) (fun l => fits_size (length l) /\ Forall vt l).
Proof.
  intros l [Hn Hl]. apply codec_vector; [done|].
  eapply Forall_impl; [exact Hl|]. intros. by apply codec_at.
Qed.

Lemma pods_of_bytes_concat n l :
  Forall (is_u (8 * Z.of_nat n)) l ->
  pods_of_bytes n (length l) (concat (map (le_split n) l)) = l.
Proof.
  induction 1 as [|x l Hx _ IH]; simpl; [done|].
  pose proof (length_le_split n x) as Hn.
  rewrite take_app_length', drop_app_length', IH by done.
  by rewrite le_combine_split_small.
Qed.

Lemma length_concat_le_split n l :
  length (concat (map (le_split n) l)) = (n * length l)%nat.
Proof.
  induction l; simpl; [lia|]. rewrite length_app, length_le_split, IHl. lia.
Qed.

#[export] Instance vector_pod_codec n :
  Codec (vector_pod_save n) (vector_pod_load n)
    (fun l => fits_size (length l) /\ Forall (is_u (8 * Z.of_nat n)) l).
Proof.
  intros l [Hn Hl]. eexists; split; [apply emits_seq; [apply emits_size | apply emits_write]|].
  eapply parses_bind; [by apply parses_size|].
  eapply parses_bind_nil; [apply parses_read_n, length_concat_le_split|].
  rewrite pods_of_bytes_concat by done. apply parses_ret.
Qed.

Lemma deserialize_iterator_spec {T C} (st : T -> writer) lt (insert : T -> C -> C) c l :
  fits_size (length l) -> Forall (codec st lt) l ->
  exists bs, emits (serialize_iterator_n st l (length l)) bs /\
    parses (deserialize_iterator lt insert c) bs (fold_left (fun c x => insert x c) l c).
Proof.
  intros Hn Hl. destruct (codec_elements st lt l Hl) as (bs & He & _ & Hp).
  exists (le_split 8 (Z.of_nat (length l)) ++ bs).
  split.
  { apply emits_seq; [apply emits_size|]. rewrite <- (app_nil_r bs), Nat.eqb_refl.
    apply emits_seq; [done | apply emits_nil]. }
  eapply parses_bind; [by apply parses_size | apply Hp].
Qed.

Lemma fold_left_snoc {T} (l c : list T) : fold_left (fun c x => c ++ [x]) l c = c ++ l.
Proof.
  revert c. induction l as [|x l IH]; intros c; simpl; [by rewrite app_nil_r|].
  by rewrite IH, <- app_assoc.
Qed.

#[export] Instance list_codec {T} (st : T -> writer) lt vt {CT : Codec st lt vt} :
  Codec (list_save st) (list_load lt) (fun l => fits_size (length l) /\ Forall vt l).
Proof.
  intros l [Hn Hl].
  destruct (deserialize_iterator_spec st lt (fun x l => l ++ [x]) [] l Hn) as (bs & He & Hp).
  { eapply Forall_impl; [exact Hl|]. intros. by apply codec_at. }
  rewrite fold_left_snoc in Hp. by exists bs.
Qed.

Section map_codecs.
Context {K V : Type} `{Countable K} (sk : K -> writer) (sv : V -> writer)
        (lk : reader K) (lv : reader V).

(** Inserting elements with distinct new keys, by any insertion that agrees
    with [insert] on new keys, builds the map of the elements. *)
Lemma fold_insert_fresh (ins : K * V -> gmap K V -> gmap K V) l m :
  (forall kv m, m !! kv.1 = None -> ins kv m = <[kv.1 := kv.2]> m) ->
  NoDup l.*1 -> (forall k, k ∈ l.*1 -> m !! k = None) ->
  fold_left (fun m kv => ins kv m) l m = list_to_map l ∪ m.
Proof.
  intros Hins. revert m. induction l as [|[k v] l IH]; intros m Hnd Hm; simpl.
  - by rewrite (left_id_L ∅ (∪)).
  - simpl in *. apply NoDup_cons in Hnd as [Hk Hnd].
    rewrite Hins by (apply Hm; left). simpl. rewrite IH; [|done|].
    + rewrite <- insert_union_l, insert_union_r; [done|].
      by apply not_elem_of_list_to_map_1.
    + intros k' Hk'. rewrite lookup_insert_ne by set_solver. apply Hm. by right.
Qed.

Lemma map_elems_spec (ins : K * V -> gmap K V -> gmap K V) elems (m : gmap K V) :
  (forall kv m, m !! kv.1 = None -> ins kv m = <[kv.1 := kv.2]> m) ->
  elems ≡ₚ map_to_list m -> fits_size (size m) ->
  map_Forall (fun k v => codec sk lk k /\ codec sv lv v) m ->
  exists bs, emits (serialize_iterator_n (pair_save sk sv) elems (length elems)) bs /\
    parses (deserialize_iterator (pair_load lk lv) ins ∅) bs m.
Proof.
  intros Hins Hp Hn Hc.
  destruct (deserialize_iterator_spec (pair_save sk sv) (pair_load lk lv) ins ∅ elems)
    as (bs & He & Hps).
  - rewrite Hp. by rewrite length_map_to_list.
  - apply Forall_forall. intros [k v] Hkv.
    rewrite Hp, elem_of_map_to_list in Hkv. destruct (Hc k v Hkv). by apply codec_pair.
  - exists bs. split; [done|].
    assert (NoDup elems.*1) by (rewrite Hp; apply NoDup_fst_map_to_list).
    rewrite fold_insert_fresh in Hps by (done || (intros; apply lookup_empty)).
    rewrite (right_id_L ∅ (∪)) in Hps.
    rewrite (list_to_map_proper elems (map_to_list m)), list_to_map_to_list in Hps; done.
Qed.

(** Whatever order the hash table enumerates its elements in, reading them
    back rebuilds the same map. *)
Lemma unordered_map_codec elems (m : gmap K V) :
  elems ≡ₚ map_to_list m -> fits_size (size m) ->
  map_Forall (fun k v => codec sk lk k /\ codec sv lv v) m ->
  exists bs, emits (unordered_map_save sk sv elems) bs /\
    parses (unordered_map_load lk lv) bs m.
Proof. intros. by apply map_elems_spec. Qed.

Lemma map_codec elems (m : gmap K V) :
  elems ≡ₚ map_to_list m -> fits_size (size m) ->
  map_Forall (fun k v => codec sk lk k /\ codec sv lv v) m ->
  exists bs, emits (map_save sk sv elems) bs /\ parses (map_load lk lv) bs m.
Proof. intros. apply map_elems_spec; [|done..]. by intros kv m' ->. Qed.

Lemma set_codec elems (s : gset K) :
  elems ≡ₚ elements s -> fits_size (size s) -> set_Forall (codec sk lk) s ->
  exists bs, emits (set_save sk elems) bs /\ parses (set_load lk) bs s.
Proof.
  intros Hp Hn Hc.
  destruct (deserialize_iterator_spec sk lk (fun x s => {[x]} ∪ s) (∅ : gset K) elems)
    as (bs & He & Hps).
  - rewrite Hp. exact Hn.
  - apply Forall_forall. intros k Hk. apply Hc. by rewrite Hp, elem_of_elements in Hk.
  - exists bs. split; [done|].
    assert (forall l (c : gset K), fold_left (fun s x => {[x]} ∪ s) l c = list_to_set l ∪ c) as Hf.
    { induction l as [|x l IH]; intros c; simpl; [set_solver|]. rewrite IH. set_solver. }
    rewrite Hf, (list_to_set_perm_L _ _ Hp), list_to_set_elements_L, (right_id_L ∅ (∪)) in Hps.
    done.
Qed.
End map_codecs.

(** ** Character arrays *)

Lemma cstr_codec s :
  Byte.x00 ∈ s -> fits_size (S (strlen s)) ->
  exists bs, emits (cstr_save s) bs /\ parses cstr_load bs (take (S (strlen s)) s).
Proof.
  intros Hs Hn. eexists; split; [apply emits_seq; [apply emits_size | apply emits_write]|].
  eapply parses_bind; [by apply parses_size|]. apply parses_read_n. rewrite length_take.
  enough (strlen s < length s)%nat by lia. clear Hn.
  induction s as [|c s IH]; simpl; [by apply not_elem_of_nil in Hs|].
  case_decide; [lia|]. apply elem_of_cons in Hs as [|Hs]; [done|]. specialize (IH Hs). lia.
Qed.

Lemma chararray_codec s dst :
  fits_size (length s) -> (length s <= length dst)%nat ->
  exists bs, emits (chararray_save s) bs /\
    parses (chararray_load dst) bs (s ++ drop (length s) dst).
Proof.
  intros Hn Hl. eexists; split; [apply emits_seq; [apply emits_size | apply emits_write]|].
  eapply parses_bind; [by apply parses_size|]. destruct (Nat.leb_spec (length s) (length dst)); [|lia].
  eapply parses_bind_nil; [apply parses_read | apply parses_ret].
Qed.

(** ** Round trips of the containers *)

(** A map whose keys and values round-trip is rebuilt from its serialized
    elements, in whatever order they are enumerated: both [std::map] (whose
    inserter keeps the first of two equal keys) and [std::unordered_map] (which
    overwrites) read back the same map, whatever follows in the archive. *)
Theorem map_serialization_roundtrip {K V : Type} `{Countable K}
    (sk : K -> writer) (sv : V -> writer) (lk : reader K) (lv : reader V)
    elems (m : gmap K V) rest :
  elems ≡ₚ map_to_list m -> fits_size (size m) ->
  map_Forall (fun k v => codec sk lk k /\ codec sv lv v) m ->
  exists bs bs', to_bytes (map_save sk sv) elems = Some bs /\
    of_bytes (map_load lk lv) (bs ++ rest) = Some m /\
    to_bytes (unordered_map_save sk sv) elems = Some bs' /\
    of_bytes (unordered_map_load lk lv) (bs' ++ rest) = Some m.
Proof.
  intros Hp Hn Hc. destruct (map_codec sk sv lk lv elems m Hp Hn Hc) as (bs & He & Hd).
  destruct (unordered_map_codec sk sv lk lv elems m Hp Hn Hc) as (bs' & He' & Hd').
  exists bs, bs'. split_and!; by apply emits_to_bytes || by apply parses_of_bytes.
Qed.

(** A vector or list whose elements round-trip is read back element for
    element, and a vector of plain old data is read back from its raw copy. *)
Theorem vector_serialization_roundtrip {T : Type} (st : T -> writer) (lt : reader T) l n pods rest :
  fits_size (length l) -> Forall (codec st lt) l ->
  fits_size (length pods) -> Forall (is_u (8 * Z.of_nat n)) pods ->
  (exists bs, to_bytes (vector_save st) l = Some bs /\ of_bytes (vector_load lt) (bs ++ rest) = Some l) /\
  (exists bs, to_bytes (list_save st) l = Some bs /\ of_bytes (list_load lt) (bs ++ rest) = Some l) /\
  (exists bs, to_bytes (vector_pod_save n) pods = Some bs /\
              of_bytes (vector_pod_load n) (bs ++ rest) = Some pods).
Proof.
  intros Hn Hl Hp Hu. split_and!; apply codec_roundtrip.
  - by apply codec_vector.
  - exact (@list_codec T st lt (codec st lt) (fun x Hx => Hx) l (conj Hn Hl)).
  - by apply vector_pod_codec.
Qed.

