(* ===== verification/IntegerPack.v ===== *)
(** Integer compression: the model of [sframe/integer_pack.hpp] and
    [sframe/integer_pack.cpp] (variable-length integers, the [pack_n]/[unpack_n]
    routines with their interleaved switch/loop control flow, zig-zag coding and
    the frame-of-reference block code). *)
From Stdlib Require Import ZArith Lia List Bool.
From stdpp Require Import prelude.
From coqutil Require Import Byte Word.LittleEndianList.
From S2P Require Import Prelude.
From S2P Require Import Archive.

(** ** Variable-length integers *)

Definition variable_encode (s : Z) : writer :=
  if Z.shiftr s (8 - 1) =? 0 then
    let trunc_s := u8 (Z.shiftl s 1) in
    direct_assign 1 trunc_s
  else if Z.shiftr s (16 - 2) =? 0 then
    let trunc_s := u16 s in
    let trunc_s := u16 (Z.lor (Z.shiftl trunc_s 2) 1) in
    direct_assign 2 trunc_s
  else if Z.shiftr s (24 - 3) =? 0 then
    let trunc_s := u32 s in
    let trunc_s := u32 (Z.lor (Z.shiftl trunc_s 3) 3) in
    write (take 3 (le_split 4 trunc_s))
  else if Z.shiftr s (32 - 4) =? 0 then
    let trunc_s := u32 s in
    let trunc_s := u32 (Z.lor (Z.shiftl trunc_s 4) 7) in
    direct_assign 4 trunc_s
  else if Z.shiftr s (40 - 5) =? 0 then
    let trunc_s := u64 s in
    let trunc_s := u64 (Z.lor (Z.shiftl trunc_s 5) 15) in
    write (take 5 (le_split 8 trunc_s))
  else if Z.shiftr s (48 - 6) =? 0 then
    let trunc_s := u64 s in
    let trunc_s := u64 (Z.lor (Z.shiftl trunc_s 6) 31) in
    write (take 6 (le_split 8 trunc_s))
  else if Z.shiftr s (56 - 7) =? 0 then
    let trunc_s := u64 s in
    let trunc_s := u64 (Z.lor (Z.shiftl trunc_s 7) 63) in
    write (take 7 (le_split 8 trunc_s))
  else
    direct_assign 1 127 >>> direct_assign 8 s.

(** The union [c]: [chars] holds the bytes read so far, the others are zero. *)
Definition intval (chars : bytes) : Z := le_combine chars.

Definition variable_decode : reader Z :=
  c0 <- read 1 ;;
  let c := intval c0 in
  if Z.land c 1 =? 0 then rret (Z.shiftr c 1)
  else if Z.land c 3 =? 1 then (cs <- read 1 ;; rret (Z.shiftr (intval (c0 ++ cs)) 2))
  else if Z.land c 7 =? 3 then (cs <- read 2 ;; rret (Z.shiftr (intval (c0 ++ cs)) 3))
  else if Z.land c 15 =? 7 then (cs <- read 3 ;; rret (Z.shiftr (intval (c0 ++ cs)) 4))
  else if Z.land c 31 =? 15 then (cs <- read 4 ;; rret (Z.shiftr (intval (c0 ++ cs)) 5))
  else if Z.land c 63 =? 31 then (cs <- read 5 ;; rret (Z.shiftr (intval (c0 ++ cs)) 6))
  else if Z.land c 127 =? 63 then (cs <- read 6 ;; rret (Z.shiftr (intval (c0 ++ cs)) 7))
  else (cs <- read 8 ;; rret (intval cs)).

(** ** Packing

    Each of [pack_1], [pack_2], [pack_4] is a [do .. while(--n > 0)] loop whose
    body has eight steps, entered through a [switch (srclen % 8)] at step
    [8 - srclen % 8] (at the top when the remainder is 0).  A step or-s one
    shifted source value into the byte [c]; a step marked [true] also stores
    [c] and clears it.  Reading past the source is [None]; in particular an
    empty source enters the body once and reads past the end. *)

Record pack_state := mk_pack { p_src : list Z; p_c : Z; p_out : list byte }.

Definition pack_step (s : Z * bool) (st : pack_state) : option pack_state :=
  match p_src st with
  | [] => None
  | x :: src =>
      let c := u8 (Z.lor (p_c st) (Z.shiftl x s.1)) in
      if s.2 : bool then Some (mk_pack src 0 (p_out st ++ [byte.of_Z c]))
      else Some (mk_pack src c (p_out st))
  end.

Fixpoint pack_steps (l : list (Z * bool)) (st : pack_state) : option pack_state :=
  match l with
  | [] => Some st
  | s :: l => match pack_step s st with Some st => pack_steps l st | None => None end
  end.

(** The remaining iterations of the loop, each through the whole body. *)
Fixpoint pack_loop (body : list (Z * bool)) (n : nat) (st : pack_state) : option pack_state :=
  match n with
  | O => Some st
  | S n => match pack_steps body st with Some st => pack_loop body n st | None => None end
  end.

(** Where [switch (n % 8)] enters the body. *)
Definition switch_entry (n : nat) : nat := if (n mod 8 =? 0)%nat then 0 else 8 - n mod 8.

Definition pack_duff (body : list (Z * bool)) (src : list Z) : option bytes :=
  let n := ((length src + 7) / 8)%nat in
  match pack_steps (drop (switch_entry (length src)) body) (mk_pack src 0 []) with
  | Some st =>
      match pack_loop body (n - 1) st with Some st => Some (p_out st) | None => None end
  | None => None
  end.

Definition pack_1 (src : list Z) : option bytes :=
  pack_duff [(0, false); (1, false); (2, false); (3, false);
             (4, false); (5, false); (6, false); (7, true)] src.
Definition pack_2 (src : list Z) : option bytes :=
  pack_duff [(0, false); (2, false); (4, false); (6, true);
             (0, false); (2, false); (4, false); (6, true)] src.
Definition pack_4 (src : list Z) : option bytes :=
  pack_duff [(0, false); (4, true); (0, false); (4, true);
             (0, false); (4, true); (0, false); (4, true)] src.

Definition pack_8 (src : list Z) : bytes := map (fun x => byte.of_Z (u8 x)) src.
Definition pack_16 (src : list Z) : bytes := concat (map (fun x => le_split 2 (u16 x)) src).
Definition pack_32 (src : list Z) : bytes := concat (map (fun x => le_split 4 (u32 x)) src).

(** ** Unpacking

    The same control flow: a step stores [c & mask], shifts [c] right and, when
    marked [true], fetches the next source byte; an iteration after the first
    starts with a fetch. *)

Record unpack_state := mk_unpack { q_src : bytes; q_c : Z; q_out : list Z }.

Definition fetch (st : unpack_state) : option unpack_state :=
  match q_src st with
  | [] => None
  | b :: src => Some (mk_unpack src (byte.unsigned b) (q_out st))
  end.

Definition unpack_step (mask bits : Z) (refill : bool) (st : unpack_state)
    : option unpack_state :=
  let st' := mk_unpack (q_src st) (Z.shiftr (q_c st) bits) (q_out st ++ [Z.land (q_c st) mask]) in
  if refill then fetch st' else Some st'.

Fixpoint unpack_steps (mask bits : Z) (l : list bool) (st : unpack_state) : option unpack_state :=
  match l with
  | [] => Some st
  | r :: l =>
      match unpack_step mask bits r st with
      | Some st => unpack_steps mask bits l st
      | None => None
      end
  end.

Fixpoint unpack_loop (mask bits : Z) (body : list bool) (n : nat) (st : unpack_state)
    : option unpack_state :=
  match n with
  | O => Some st
  | S n =>
      match fetch st with
      | Some st =>
          match unpack_steps mask bits body st with
          | Some st => unpack_loop mask bits body n st
          | None => None
          end
      | None => None
      end
  end.

(** [per] is the number of values in a byte; a count of zero runs the body once
    and stores out of range. *)
Definition unpack_duff (mask bits per : Z) (body : list bool) (src : bytes) (nout : nat)
    : option (list Z) :=
  let n := ((nout + 7) / 8)%nat in
  if (nout =? 0)%nat then None else
  match fetch (mk_unpack src 0 []) with
  | None => None
  | Some st =>
      let shift := (8 - bits * (Z.of_nat nout mod per)) mod 8 in
      let st := mk_unpack (q_src st) (Z.shiftr (q_c st) shift) (q_out st) in
      match unpack_steps mask bits (drop (switch_entry nout) body) st with
      | Some st =>
          match unpack_loop mask bits body (n - 1) st with
          | Some st => Some (q_out st)
          | None => None
          end
      | None => None
      end
  end.

Definition unpack_1 (src : bytes) (nout_values : nat) : option (list Z) :=
  unpack_duff 1 1 8 [false; false; false; false; false; false; false; false] src nout_values.
Definition unpack_2 (src : bytes) (nout_values : nat) : option (list Z) :=
  unpack_duff 3 2 4 [false; false; false; true; false; false; false; false] src nout_values.
Definition unpack_4 (src : bytes) (nout_values : nat) : option (list Z) :=
  unpack_duff 15 4 2 [false; true; false; true; false; true; false; false] src nout_values.

(** [nout] consecutive [n]-byte little-endian values *)
Fixpoint unpack_words (n : nat) (src : bytes) (nout : nat) : option (list Z) :=
  match nout with
  | O => Some []
  | S nout =>
      if (length src <? n)%nat then None else
      match unpack_words n (drop n src) nout with
      | Some l => Some (le_combine (take n src) :: l)
      | None => None
      end
  end.
Definition unpack_8 (src : bytes) (nout_values : nat) : option (list Z) :=
  unpack_words 1 src nout_values.
Definition unpack_16 (src : bytes) (nout_values : nat) : option (list Z) :=
  unpack_words 2 src nout_values.
Definition unpack_32 (src : bytes) (nout_values : nat) : option (list Z) :=
  unpack_words 4 src nout_values.

(** ** Zig-zag coding (signed arithmetic wraps in two's complement) *)

Definition shifted_integer_encode (val : Z) : Z :=
  let sign := Z.shiftr val 63 in
  let absval := u64 (Z.lxor (i64 (val + sign)) sign) in
  u64 (u64 (Z.shiftl absval 1) + sign).

Definition shifted_integer_decode (val : Z) : Z :=
  let sign := - Z.land val 1 in
  let absval := u64 (Z.shiftr val 1 - sign) in
  i64 (Z.lxor (u64 (absval + sign)) (u64 sign)).

(** ** Frame of reference coding *)

Definition FRAME_OF_REFERENCE : Z := 0.
Definition FRAME_OF_REFERENCE_DELTA : Z := 1.
Definition FRAME_OF_REFERENCE_DELTA_NEGATIVE : Z := 2.
Definition FRAME_OF_REFERENCE_HEADER_NUM_BITS : Z := 2.
Definition FRAME_OF_REFERENCE_HEADER_MASK : Z := 3.

(** The first loop of the encoder: [minvalue] and [is_incremental]. *)
Definition min_value (x0 : Z) (input : list Z) : Z := fold_left Z.min input x0.
Fixpoint is_incremental (prev : Z) (rest : list Z) : bool :=
  match rest with
  | [] => true
  | x :: rest => if x <? prev then false else is_incremental x rest
  end.

(** [nbits = max(nbits, 64 - clzl(d))] over the non-zero [d], in an [unsigned char] *)
Definition max_nbits (nbits : Z) (l : list Z) : Z :=
  fold_left (fun nbits d => if d =? 0 then nbits else Z.max nbits (u8 (bit_length d))) l nbits.

Fixpoint deltas (prev : Z) (rest : list Z) : list Z :=
  match rest with
  | [] => []
  | x :: rest => u64 (x - prev) :: deltas x rest
  end.
Fixpoint deltas_negative (prev : Z) (rest : list Z) : list Z :=
  match rest with
  | [] => []
  | x :: rest => shifted_integer_encode (i64 (i64 x - i64 prev)) :: deltas_negative x rest
  end.

(** "round nbits to next power of 2" *)
Definition round_nbits (nbits : Z) : Z :=
  let nbits := u8 (nbits - 1) in
  let nbits := Z.lor nbits (Z.shiftr nbits 1) in
  let nbits := Z.lor nbits (Z.shiftr nbits 2) in
  let nbits := Z.lor nbits (Z.shiftr nbits 4) in
  u8 (nbits + 1).

(** The coding decision: [(coding_technique, nbits, input)] before rounding. *)
Definition choose_coding (x0 : Z) (rest : list Z) : Z * Z * list Z :=
  let input := x0 :: rest in
  let minvalue := min_value x0 input in
  let frame := map (fun x => u64 (x - minvalue)) input in
  let nbits_frame := max_nbits 0 frame in
  let nbits_delta := 255 in
  let nbits_delta_negative := 255 in
  let inc := is_incremental x0 rest in
  let delta := x0 :: deltas x0 rest in
  let nbits_delta := if inc then max_nbits nbits_delta (tail delta) else nbits_delta in
  let delta_negative := x0 :: deltas_negative x0 rest in
  let nbits_delta_negative :=
    if inc then nbits_delta_negative else max_nbits 0 (tail delta_negative) in
  if (nbits_frame <=? nbits_delta) && (nbits_frame <=? nbits_delta_negative) then
    (FRAME_OF_REFERENCE, nbits_frame, frame)
  else if (nbits_delta <=? nbits_frame) && (nbits_delta <=? nbits_delta_negative) then
    (FRAME_OF_REFERENCE_DELTA, nbits_delta, delta)
  else
    (FRAME_OF_REFERENCE_DELTA_NEGATIVE, nbits_delta_negative, delta_negative).

(** The encoder's [switch(nbits)]; any other width fails the assertion. *)
Definition pack_values (nbits : Z) (input : list Z) : option bytes :=
  if nbits =? 1 then pack_1 input
  else if nbits =? 2 then pack_2 input
  else if nbits =? 4 then pack_4 input
  else if nbits =? 8 then Some (pack_8 input)
  else if nbits =? 16 then Some (pack_16 input)
  else if nbits =? 32 then Some (pack_32 input)
  else if nbits =? 64 then Some (concat (map (le_split 8) input))
  else None.

Definition frame_of_reference_encode_128 (input : list Z) : writer :=
  match input with
  | [] => wnil
  | x0 :: rest =>
      if (128 <? length input)%nat then wfail else
      let '(coding_technique, nbits, coded) := choose_coding x0 rest in
      let nbits := round_nbits nbits in
      let header :=
        if 0 <? nbits then u8 (coding_technique + Z.shiftl (u8 (bit_length nbits)) 2)
        else coding_technique in
      direct_assign 1 header >>>
      (if coding_technique =? FRAME_OF_REFERENCE
       then variable_encode (min_value x0 input)
       else variable_encode (hd 0 coded)) >>>
      let coded := if coding_technique =? FRAME_OF_REFERENCE then coded else tail coded in
      if nbits =? 0 then wnil else
      match pack_values nbits coded with Some p => write p | None => wfail end
  end.

(** The decoder's [switch(nbits)] *)
Definition unpack_values (nbits : Z) (len : nat) : reader (list Z) :=
  let nbytes_to_read := Z.to_nat ((nbits * Z.of_nat len + 7) / 8) in
  let unpack u := p <- read nbytes_to_read ;; match u p len with Some l => rret l | None => rfail end in
  if nbits =? 1 then unpack unpack_1
  else if nbits =? 2 then unpack unpack_2
  else if nbits =? 4 then unpack unpack_4
  else if nbits =? 8 then unpack unpack_8
  else if nbits =? 16 then unpack unpack_16
  else if nbits =? 32 then unpack unpack_32
  else if nbits =? 64 then
    (p <- read (8 * len) ;; match unpack_words 8 p len with Some l => rret l | None => rfail end)
  else rfail.

(** [output[i] += output[i-1]], starting from the value stored before *)
Fixpoint accumulate (prev : Z) (l : list Z) : list Z :=
  match l with
  | [] => []
  | d :: l => let x := u64 (d + prev) in x :: accumulate x l
  end.
Fixpoint accumulate_negative (prev : Z) (l : list Z) : list Z :=
  match l with
  | [] => []
  | d :: l =>
      let x := u64 (u64 (shifted_integer_decode d) + prev) in x :: accumulate_negative x l
  end.

Definition frame_of_reference_decode_128 (len : nat) : reader (list Z) :=
  match len with
  | O => rret []
  | S len' =>
      if (128 <? len)%nat then rfail else
      header <- read_into 1 ;;
      let shiftpos := Z.shiftr header FRAME_OF_REFERENCE_HEADER_NUM_BITS in
      let coding_technique := Z.land header FRAME_OF_REFERENCE_HEADER_MASK in
      let nbits := if 0 <? shiftpos then u8 (Z.shiftl 1 (shiftpos - 1)) else 0 in
      if nbits =? 0 then (minvalue <- variable_decode ;; rret (replicate len minvalue)) else
      if coding_technique =? FRAME_OF_REFERENCE then
        minvalue <- variable_decode ;;
        l <- unpack_values nbits len ;;
        rret (map (fun x => u64 (x + minvalue)) l)
      else if coding_technique =? FRAME_OF_REFERENCE_DELTA then
        x0 <- variable_decode ;;
        l <- unpack_values nbits len' ;;
        rret (x0 :: accumulate x0 l)
      else if coding_technique =? FRAME_OF_REFERENCE_DELTA_NEGATIVE then
        x0 <- variable_decode ;;
        l <- unpack_values nbits len' ;;
        rret (x0 :: accumulate_negative x0 l)
      else unpack_values nbits len
  end.

(** ** Correctness of the packing loops

    Both loops walk the source in groups of [per = 8 / bits] values, one byte
    per group; only the first group may be short, and then its values sit in
    the high bits of the byte.  The section proves the two walks inverse in
    lockstep, for any body made of such groups. *)

Fixpoint digits (bits : Z) (xs : list Z) : Z :=
  match xs with
  | [] => 0
  | x :: xs => x + 2 ^ bits * digits bits xs
  end.

Lemma digits_range bits xs :
  0 <= bits -> Forall (is_u bits) xs -> 0 <= digits bits xs < 2 ^ (bits * Z.of_nat (length xs)).
Proof.
  intros Hb. induction 1 as [|x xs Hx _ IH]; simpl length.
  - rewrite Z.mul_0_r. simpl. lia.
  - rewrite Nat2Z.inj_succ, Z.mul_succ_r, Z.pow_add_r by lia. simpl. unfold is_u in Hx. nia.
Qed.

Lemma byte_unsigned_of_Z z : is_u 8 z -> byte.unsigned (byte.of_Z z) = z.
Proof. intros H. rewrite byte.unsigned_of_Z. by apply Z.mod_small. Qed.

Section duff.
Context (bits : Z) (per : nat).
Hypothesis Hbits : 0 < bits.
Hypothesis Hper : bits * Z.of_nat per = 8.

(** The steps of one byte from its [k]-th value on *)
Definition pgroup (k : nat) : list (Z * bool) :=
  map (fun j => (bits * Z.of_nat j, (j =? per - 1)%nat)) (seq k (per - k)).
Fixpoint pgroups (k m : nat) : list (Z * bool) :=
  match m with O => pgroup k | S m => pgroup k ++ pgroups 0 m end.
Fixpoint ugroups (k m : nat) : list bool :=
  match m with
  | O => replicate (per - k) false
  | S m => replicate (per - k - 1) false ++ [true] ++ ugroups 0 m
  end.

Lemma pack_steps_app l1 l2 st :
  pack_steps (l1 ++ l2) st =
    match pack_steps l1 st with Some st => pack_steps l2 st | None => None end.
Proof. revert st. induction l1 as [|s l1 IH]; intros st; simpl; [done|]. by destruct (pack_step s st). Qed.

Lemma unpack_steps_app mask l1 l2 st :
  unpack_steps mask bits (l1 ++ l2) st =
    match unpack_steps mask bits l1 st with
    | Some st => unpack_steps mask bits l2 st | None => None end.
Proof.
  revert st. induction l1 as [|s l1 IH]; intros st; simpl; [done|].
  by destruct (unpack_step mask bits s st).
Qed.

(** One value or-ed above the [s] bits already present *)
Lemma pack_or c x s :
  0 <= s -> s + bits <= 8 -> is_u s c -> is_u bits x ->
  u8 (Z.lor c (Z.shiftl x s)) = c + 2 ^ s * x /\ is_u (s + bits) (c + 2 ^ s * x).
Proof.
  intros Hs Hs8 Hc Hx. rewrite Z.lor_comm, lor_shiftl_add by done.
  assert (is_u (s + bits) (c + 2 ^ s * x)) as Hr.
  { unfold is_u in *. rewrite Z.pow_add_r by lia. nia. }
  rewrite (Z.mul_comm x), Z.add_comm. split; [|done].
  apply wrap_small. unfold is_u in *.
  pose proof (Z.pow_le_mono_r 2 (s + bits) 8). lia.
Qed.

Lemma pack_group_spec n k xs tail c out :
  n = length xs -> (k + n = per)%nat -> (0 < n)%nat ->
  Forall (is_u bits) xs -> is_u (bits * Z.of_nat k) c ->
  pack_steps (map (fun j => (bits * Z.of_nat j, (j =? per - 1)%nat)) (seq k n))
    (mk_pack (xs ++ tail) c out)
  = Some (mk_pack tail 0 (out ++ [byte.of_Z (c + 2 ^ (bits * Z.of_nat k) * digits bits xs)])).
Proof.
  revert k xs c. induction n as [|n IH]; intros k xs c Hn Hk Hpos Hxs Hc; [lia|].
  destruct xs as [|x xs]; [done|]. apply Forall_cons in Hxs as [Hx Hxs].
  simpl in Hn. injection Hn as Hn. cbn [seq map pack_steps pack_step p_src p_c p_out app fst snd].
  assert (bits * Z.of_nat k + bits <= 8) by (rewrite <- Hper; nia).
  destruct (pack_or c x (bits * Z.of_nat k)) as [-> Hr]; [nia|done|done|done|].
  destruct (Nat.eqb_spec k (per - 1)).
  - assert (n = 0)%nat as -> by lia. destruct xs; [|done]. simpl.
    do 4 f_equal. f_equal. ring.
  - rewrite IH; [|done|lia|lia|done|].
    + do 5 f_equal. simpl digits.
      replace (bits * Z.of_nat (S k)) with (bits * Z.of_nat k + bits) by lia.
      rewrite Z.pow_add_r by nia. ring.
    + by replace (bits * Z.of_nat (S k)) with (bits * Z.of_nat k + bits) by lia.
Qed.

Lemma unpack_digits x xs :
  is_u bits x ->
  Z.land (digits bits (x :: xs)) (2 ^ bits - 1) = x /\
  Z.shiftr (digits bits (x :: xs)) bits = digits bits xs.
Proof.
  intros Hx. replace (2 ^ bits - 1) with (Z.ones bits) by (rewrite Z.ones_equiv; lia).
  rewrite Z.land_ones, Z.shiftr_div_pow2 by lia. simpl. unfold is_u in Hx. split.
  - rewrite Z.mul_comm, Z.mod_add by lia. by apply Z.mod_small.
  - rewrite Z.mul_comm, Z.div_add by lia. rewrite Z.div_small by lia. lia.
Qed.

Lemma unpack_group_spec xs src out :
  Forall (is_u bits) xs ->
  unpack_steps (2 ^ bits - 1) bits (replicate (length xs) false)
    (mk_unpack src (digits bits xs) out) = Some (mk_unpack src 0 (out ++ xs)).
Proof.
  revert out. induction xs as [|x xs IH]; intros out Hxs; simpl length.
  - simpl. by rewrite app_nil_r.
  - apply Forall_cons in Hxs as [Hx Hxs].
    cbn [replicate unpack_steps unpack_step q_src q_c q_out].
    destruct (unpack_digits x xs Hx) as [-> ->].
    rewrite IH by done. by rewrite <- app_assoc.
Qed.

Lemma unpack_group_refill xs b src out :
  xs <> [] -> Forall (is_u bits) xs ->
  unpack_steps (2 ^ bits - 1) bits (replicate (length xs - 1) false ++ [true])
    (mk_unpack (b :: src) (digits bits xs) out)
  = Some (mk_unpack src (byte.unsigned b) (out ++ xs)).
Proof.
  intros Hne. destruct xs as [|x0 xs] using rev_ind; [done|]. clear IHxs Hne.
  rewrite Forall_app. intros [Hxs Hx].
  rewrite length_app. simpl length. replace (length xs + 1 - 1)%nat with (length xs) by lia.
  revert out. induction xs as [|x xs IH]; intros out.
  - apply Forall_cons in Hx as [Hx _].
    cbn [length replicate app unpack_steps unpack_step q_src q_c q_out fetch].
    destruct (unpack_digits x0 [] Hx) as [E _]. by rewrite E.
  - apply Forall_cons in Hxs as [Hx' Hxs].
    cbn [length replicate app unpack_steps unpack_step q_src q_c q_out].
    destruct (unpack_digits x (xs ++ [x0]) Hx') as [E1 E2].
    rewrite E1, E2.
    rewrite IH by done. by rewrite <- !app_assoc.
Qed.

(** The byte of one group, from its [k]-th value on *)
Lemma group_byte k xs :
  (k < per)%nat -> length xs = (per - k)%nat -> Forall (is_u bits) xs ->
  exists b, Z.shiftr (byte.unsigned b) (bits * Z.of_nat k) = digits bits xs /\
    forall tail out, pack_steps (pgroup k) (mk_pack (xs ++ tail) 0 out)
                     = Some (mk_pack tail 0 (out ++ [b])).
Proof.
  intros Hk Hl Hxs. exists (byte.of_Z (2 ^ (bits * Z.of_nat k) * digits bits xs)).
  pose proof (Z.pow_pos_nonneg 2 (bits * Z.of_nat k) ltac:(lia) ltac:(nia)) as Hpow.
  split.
  - pose proof (digits_range bits xs ltac:(lia) Hxs) as Hd. rewrite Hl in Hd.
    rewrite byte_unsigned_of_Z.
    + rewrite Z.shiftr_div_pow2, Z.mul_comm, Z.div_mul by nia. done.
    + unfold is_u.
      replace (2 ^ 8) with (2 ^ (bits * Z.of_nat k) * 2 ^ (bits * Z.of_nat (per - k)))
        by (rewrite <- Z.pow_add_r by nia; f_equal; nia).
      nia.
  - intros. unfold pgroup. by rewrite pack_group_spec; try lia.
Qed.

(** [m + 1] groups, the first from its [k]-th value on *)
Lemma groups_lockstep m k xs :
  (k < per)%nat -> length xs = (per - k + m * per)%nat -> Forall (is_u bits) xs ->
  exists b bs, length bs = m /\
    (forall tail out, pack_steps (pgroups k m) (mk_pack (xs ++ tail) 0 out)
                      = Some (mk_pack tail 0 (out ++ b :: bs))) /\
    (forall tail out,
      unpack_steps (2 ^ bits - 1) bits (ugroups k m)
        (mk_unpack (bs ++ tail) (Z.shiftr (byte.unsigned b) (bits * Z.of_nat k)) out)
      = Some (mk_unpack tail 0 (out ++ xs))).
Proof.
  revert k xs. induction m as [|m IH]; intros k xs Hk Hlen Hxs.
  all: destruct (split_at (per - k) xs) as (x1 & x2 & -> & Hl1); [lia|].
  all: apply Forall_app in Hxs as [Hx1 Hx2]; rewrite length_app in Hlen.
  all: destruct (group_byte k x1 Hk Hl1 Hx1) as (b0 & Hb & Hp); exists b0.
  - exists []. assert (x2 = []) as -> by (apply length_zero_iff_nil; lia).
    rewrite app_nil_r. split_and!; [done|apply Hp|].
    intros tail out. cbn [app ugroups]. rewrite Hb, <- Hl1. by apply unpack_group_spec.
  - destruct (IH 0%nat x2) as (b & bs & Hbs & Hpk & Huk); [lia|lia|done|].
    exists (b :: bs). split_and!; [simpl; lia| |]; intros tail out.
    + cbn [pgroups]. rewrite pack_steps_app, <- app_assoc, Hp, Hpk. by rewrite <- app_assoc.
    + cbn [ugroups app]. rewrite cons_middle, app_assoc, unpack_steps_app, Hb, <- Hl1.
      rewrite unpack_group_refill; [|destruct x1; [simpl in Hl1; lia|done]|done].
      specialize (Huk tail (out ++ x1)). rewrite Z.mul_0_r, Z.shiftr_0_r in Huk.
      rewrite Huk. by rewrite app_assoc.
Qed.

(** The bodies of the loops, as the groups their switch statements enter *)
Context (pbody : list (Z * bool)) (ubody : list bool).
Hypothesis Hbody : forall r, (1 <= r <= 8)%nat ->
  let k := ((8 - r) mod per)%nat in
  exists m, (r = per - k + m * per)%nat /\
    drop (8 - r) pbody = pgroups k m /\ drop (8 - r) ubody = ugroups k m /\
    (8 - bits * (Z.of_nat r mod Z.of_nat per)) mod 8 = bits * Z.of_nat k.

(** The iterations after the first *)
Lemma loop_lockstep n xs :
  length xs = (8 * n)%nat -> Forall (is_u bits) xs ->
  exists bs, Z.of_nat (length bs) = bits * Z.of_nat n /\
    (forall tail out, pack_loop pbody n (mk_pack (xs ++ tail) 0 out)
                      = Some (mk_pack tail 0 (out ++ bs))) /\
    (forall tail c out, exists c',
      unpack_loop (2 ^ bits - 1) bits ubody n (mk_unpack (bs ++ tail) c out)
      = Some (mk_unpack tail c' (out ++ xs))).
Proof.
  revert xs. induction n as [|n IH]; intros xs Hl Hxs.
  - destruct xs; [|done]. exists []. split_and!; [simpl; lia| |]; intros; simpl; [by rewrite app_nil_r|].
    exists c. by rewrite app_nil_r.
  - destruct (split_at 8 xs) as (x1 & x2 & -> & Hl1); [lia|].
    apply Forall_app in Hxs as [Hx1 Hx2]. rewrite length_app in Hl.
    destruct (Hbody 8) as (m & Hm & Hpb & Hub & _); [lia|].
    assert (0 < per)%nat by nia. rewrite Nat.sub_diag, Nat.Div0.mod_0_l in Hpb, Hub, Hm.
    rewrite drop_0 in Hpb. rewrite drop_0 in Hub.
    destruct (groups_lockstep m 0 x1) as (b & bs & Hbs & Hp & Hu); [lia|lia|done|].
    rewrite <- Hpb in Hp. rewrite <- Hub in Hu.
    destruct (IH x2) as (bs2 & Hbs2 & Hp2 & Hu2); [lia|done|].
    exists (b :: bs ++ bs2). split_and!.
    + simpl length. rewrite length_app. nia.
    + intros tail out. cbn [pack_loop]. rewrite <- app_assoc, Hp, Hp2. by rewrite <- app_assoc.
    + intros tail c out. destruct (Hu2 tail 0 (out ++ x1)) as (c' & Hu2').
      exists c'. cbn [unpack_loop fetch q_src q_out app].
      specialize (Hu (bs2 ++ tail) out). rewrite Z.mul_0_r, Z.shiftr_0_r in Hu.
      by rewrite <- app_assoc, Hu, Hu2', app_assoc.
Qed.

Lemma duff_lockstep xs :
  xs <> [] -> Forall (is_u bits) xs ->
  exists bs, pack_duff pbody xs = Some bs /\
    Z.of_nat (length bs) = (bits * Z.of_nat (length xs) + 7) / 8 /\
    unpack_duff (2 ^ bits - 1) bits (Z.of_nat per) ubody bs (length xs) = Some xs.
Proof.
  intros Hne Hxs. set (L := length xs).
  assert (0 < L)%nat by (destruct xs; [done | unfold L; simpl; lia]).
  set (n := ((L - 1) / 8)%nat). set (r := (L - 8 * n)%nat).
  pose proof (Nat.div_mod_eq (L - 1) 8) as Hdm. pose proof (Nat.mod_upper_bound (L - 1) 8).
  fold n in Hdm. assert (1 <= r <= 8)%nat as Hr by lia. assert (L = r + 8 * n)%nat as HL by lia.
  destruct (Hbody r Hr) as (m & Hm & Hpb & Hub & Hsh). set (k := ((8 - r) mod per)%nat) in *.
  assert (switch_entry L = 8 - r)%nat as Hentry.
  { unfold switch_entry. rewrite HL, Nat.mul_comm, Nat.Div0.mod_add.
    destruct (decide (r = 8)%nat) as [->|]; [done|].
    rewrite Nat.mod_small by lia. destruct (Nat.eqb_spec r 0); lia. }
  assert ((L + 7) / 8 - 1 = n)%nat as Hn.
  { replace (L + 7)%nat with ((L - 1) + 1 * 8)%nat by lia. rewrite Nat.div_add by lia. fold n. lia. }
  destruct (split_at r xs) as (x1 & x2 & -> & Hl1); [fold L; lia|].
  apply Forall_app in Hxs as [Hx1 Hx2]. unfold L in HL. rewrite length_app in HL.
  assert (0 < per)%nat by nia.
  destruct (groups_lockstep m k x1) as (b & bs & Hbs & Hp & Hu);
    [apply Nat.mod_upper_bound; lia|lia|done|].
  destruct (loop_lockstep n x2) as (bs2 & Hbs2 & Hp2 & Hu2); [lia|done|].
  exists (b :: bs ++ bs2). split_and!.
  - unfold pack_duff. fold L. rewrite Hentry, Hn, Hpb, Hp.
    specialize (Hp2 [] ([] ++ b :: bs)). rewrite app_nil_r in Hp2. rewrite Hp2. done.
  - fold L. simpl length. rewrite length_app.
    assert (Z.of_nat k < Z.of_nat per) by (pose proof (Nat.mod_upper_bound (8 - r) per); lia).
    assert (bits * Z.of_nat k < 8) by nia.
    replace (bits * Z.of_nat L + 7)
      with ((1 + Z.of_nat m + bits * Z.of_nat n) * 8 + (7 - bits * Z.of_nat k)) by nia.
    rewrite Z.div_add_l, Z.div_small by nia. lia.
  - unfold unpack_duff. fold L. rewrite Hentry, Hn, Hub. destruct (Nat.eqb_spec L 0); [lia|].
    cbn [fetch q_src q_c q_out].
    replace (Z.of_nat L mod Z.of_nat per) with (Z.of_nat r mod Z.of_nat per).
    2:{ replace (Z.of_nat L) with (Z.of_nat r + (bits * Z.of_nat n) * Z.of_nat per) by nia.
        by rewrite Z.mod_add by lia. }
    rewrite Hsh. rewrite (Hu bs2 []). destruct (Hu2 [] 0 x1) as (c' & Hu2').
    rewrite app_nil_r in Hu2'. rewrite app_nil_l, Hu2'. done.
Qed.
End duff.

(** ** Variable-length integers round-trip *)

(** The [k]-byte code of [s], for the seven tagged lengths *)
Definition tagged (k s : Z) : Z := s * 2 ^ k + (2 ^ (k - 1) - 1).

Lemma le_split_S n t : le_split (S n) t = byte.of_Z t :: le_split n (Z.shiftr t 8).
Proof. done. Qed.

Lemma take_le_split k n t : (k <= n)%nat -> take k (le_split n t) = le_split k t.
Proof.
  revert n t. induction k as [|k IH]; intros [|n] t H; try done; [lia|].
  rewrite !le_split_S. simpl. f_equal. apply IH. lia.
Qed.

Lemma tagged_word w k m s :
  m = 2 ^ (k - 1) - 1 -> 0 < k <= w -> 0 <= s < 2 ^ (w - k) ->
  wrap w (Z.lor (Z.shiftl (wrap w s) k) m) = tagged k s /\ is_u w (tagged k s).
Proof.
  intros -> Hk Hs. unfold tagged, is_u.
  assert (2 ^ w = 2 ^ (w - k) * 2 ^ k) as Hw by (rewrite <- Z.pow_add_r by lia; f_equal; lia).
  assert (2 ^ k = 2 * 2 ^ (k - 1)) as Hk2 by (rewrite <- Z.pow_succ_r by lia; f_equal; lia).
  pose proof (Z.pow_pos_nonneg 2 (k - 1)).
  rewrite (wrap_small w s) by (unfold is_u; nia).
  rewrite lor_shiftl_add by lia. split; [|nia]. apply wrap_small. unfold is_u. nia.
Qed.

Lemma emits_variable_encode s :
  is_u 64 s ->
  emits (variable_encode s)
    (if s <? 2 ^ 7 then le_split 1 (tagged 1 s)
     else if s <? 2 ^ 14 then le_split 2 (tagged 2 s)
     else if s <? 2 ^ 21 then le_split 3 (tagged 3 s)
     else if s <? 2 ^ 28 then le_split 4 (tagged 4 s)
     else if s <? 2 ^ 35 then le_split 5 (tagged 5 s)
     else if s <? 2 ^ 42 then le_split 6 (tagged 6 s)
     else if s <? 2 ^ 49 then le_split 7 (tagged 7 s)
     else le_split 1 127 ++ le_split 8 s).
Proof.
  intros [Hs0 Hs]. unfold variable_encode. rewrite !shiftr_eq_0 by lia.
  change (8 - 1) with 7. change (16 - 2) with 14. change (24 - 3) with 21.
  change (32 - 4) with 28. change (40 - 5) with 35. change (48 - 6) with 42.
  change (56 - 7) with 49.
  destruct (Z.ltb_spec s (2 ^ 7)).
  { replace (u8 (Z.shiftl s 1)) with (tagged 1 s); [apply emits_direct_assign|].
    rewrite Z.shiftl_mul_pow2 by lia. unfold tagged. symmetry. simpl Z.sub. rewrite Z.pow_0_r, Z.sub_diag, Z.add_0_r.
    apply wrap_small. unfold is_u. lia. }
  do 6 (case_match; [zcases;
    match goal with
    | |- context [wrap ?w (Z.lor (Z.shiftl _ ?k) ?m)] =>
        destruct (tagged_word w k m s) as [-> _]; [done|lia|lia|]
    end; rewrite ?take_le_split by lia; auto with dato|]).
  apply emits_seq; apply emits_direct_assign.
Qed.

Lemma le_combine_one z : le_combine [byte.of_Z z] = z mod 2 ^ 8.
Proof. rewrite le_combine_1, byte.unsigned_of_Z. done. Qed.

Lemma tag_masks c :
  Z.land c 1 = c mod 2 /\ Z.land c 3 = c mod 4 /\ Z.land c 7 = c mod 8 /\ Z.land c 15 = c mod 16 /\
  Z.land c 31 = c mod 32 /\ Z.land c 63 = c mod 64 /\ Z.land c 127 = c mod 128.
Proof.
  split_and!; [apply (land_low c 1)|apply (land_low c 2)|apply (land_low c 3)|apply (land_low c 4)
    |apply (land_low c 5)|apply (land_low c 6)|apply (land_low c 7)]; lia.
Qed.

(** The low [j] bits of a tag decide the branch of the decoder. *)
Lemma tagged_value n s :
  (n < 7)%nat -> 0 <= s < 2 ^ (7 * Z.of_nat (S n)) ->
  let t := tagged (Z.of_nat (S n)) s in
  le_combine (le_split (S n) t) = t /\ Z.shiftr t (Z.of_nat (S n)) = s.
Proof.
  intros Hn Hs t. split.
  - apply le_combine_split_small. unfold t, tagged, is_u.
    do 7 (destruct n as [|n]; [cbn -[Z.mul] in *; lia|]). lia.
  - unfold t, tagged. rewrite Z.shiftr_div_pow2, Z.div_add_l, Z.div_small; try lia.
    pose proof (Z.pow_lt_mono_r 2 (Z.of_nat (S n) - 1) (Z.of_nat (S n))).
    pose proof (Z.pow_pos_nonneg 2 (Z.of_nat (S n) - 1)). lia.
Qed.

Lemma parses_tagged n s :
  (n < 7)%nat -> 0 <= s < 2 ^ (7 * Z.of_nat (S n)) ->
  parses variable_decode (le_split (S n) (tagged (Z.of_nat (S n)) s)) s.
Proof.
  intros Hn Hs. destruct (tagged_value n s Hn Hs) as [Hc Hsr].
  unfold variable_decode. rewrite le_split_S in *.
  eapply (parses_bind (read 1) _ [byte.of_Z (tagged (Z.of_nat (S n)) s)]); [apply parses_read|].
  unfold intval. rewrite le_combine_one.
  destruct (tag_masks (tagged (Z.of_nat (S n)) s mod 2 ^ 8)) as (-> & -> & -> & -> & -> & -> & ->).
  assert (tagged (Z.of_nat (S n)) s = s * 2 ^ Z.of_nat (S n) + (2 ^ Z.of_nat n - 1)) as Ht.
  { unfold tagged. do 3 f_equal. lia. }
  do 7 (destruct n as [|n];
    [ match type of Hsr with Z.shiftr _ ?k = _ =>
        let k' := eval compute in k in change k with k' in * end;
      zcases; try (exfalso; dlia);
      repeat (eapply parses_bind_nil; [apply parses_read_n, length_le_split|]);
      cbn [app]; rewrite ?Hc, ?Hsr; try apply parses_ret;
      rewrite Z.mod_small, Hsr by lia; apply parses_ret |]).
  lia.
Qed.

#[export] Instance variable_codec : Codec variable_encode variable_decode (is_u 64).
Proof.
  intros s Hs. eexists; split; [by apply emits_variable_encode|]. destruct Hs as [Hs0 Hs].
  repeat match goal with
  | |- context [le_split (S ?n) (tagged _ _)] =>
      let E := fresh in case_match eqn:E;
      [ apply Z.ltb_lt in E; apply (parses_tagged n s); lia | apply Z.ltb_ge in E ]
  end.
  eapply (parses_bind (read 1) _ (le_split 1 127)); [apply parses_read|].
  change (intval (le_split 1 127)) with 127.
  cbn -[Z.shiftr]. eapply parses_bind_nil; [apply parses_read_n, length_le_split|].
  unfold intval. rewrite (le_combine_split_small 8) by (split; [lia | exact Hs]). apply parses_ret.
Qed.

(** ** Zig-zag coding *)

Lemma shifted_integer_encode_spec v :
  is_s 64 v -> shifted_integer_encode v = if 0 <=? v then 2 * v else - 2 * v - 1.
Proof.
  intros Hv. unfold is_s in Hv. unfold shifted_integer_encode.
  rewrite Z.shiftr_div_pow2, Z.shiftl_mul_pow2 by lia. destruct (Z.leb_spec 0 v).
  - rewrite (Z.div_small v) by lia. rewrite Z.lxor_0_r, !Z.add_0_r.
    rewrite signed_small by (unfold is_s; lia).
    rewrite (wrap_small 64 v), wrap_wrap, wrap_small by (unfold is_u; lia). lia.
  - replace (v / 2 ^ 63) with (-1) by dlia. rewrite Z.lxor_m1_r. unfold Z.lnot.
    destruct (Z.eq_dec v (- 2 ^ 63)) as [->|]; [done|].
    rewrite signed_small by (unfold is_s; lia).
    rewrite wrap_add_l, (wrap_small 64 (Z.pred _)), wrap_small by (unfold is_u; lia). lia.
Qed.

Lemma shifted_integer_decode_spec u :
  is_u 64 u -> shifted_integer_decode u = if u mod 2 =? 0 then u / 2 else - (u / 2) - 1.
Proof.
  intros Hu. unfold is_u in Hu. unfold shifted_integer_decode.
  destruct (tag_masks u) as (-> & _). rewrite Z.shiftr_div_pow2 by lia. change (2 ^ 1) with 2.
  destruct (Z.eqb_spec (u mod 2) 0) as [->|E].
  - change (u64 (- 0)) with 0. rewrite Z.lxor_0_r, Z.sub_0_r, Z.add_0_r.
    rewrite (wrap_small 64 (u / 2)), wrap_small, signed_small by (unfold is_u, is_s; dlia). done.
  - replace (u mod 2) with 1 by dlia. change (u64 (-(1))) with (2 ^ 64 - 1).
    rewrite wrap_add_l. replace (u / 2 - - (1) + - (1)) with (u / 2) by lia.
    rewrite wrap_small, lxor_ones by (unfold is_u; dlia).
    rewrite <- (signed_wrap 64 (- (u / 2) - 1)) by (unfold is_s; dlia).
    unfold signed. rewrite !wrap_wrap by lia. unfold wrap.
    replace (2 ^ 64 - 1 - u / 2) with (- (u / 2) - 1 + 1 * 2 ^ 64) by lia.
    by rewrite Z.mod_add by lia.
Qed.

Lemma shifted_integer_roundtrip v :
  is_s 64 v -> shifted_integer_decode (shifted_integer_encode v) = v.
Proof.
  intros Hv. rewrite shifted_integer_encode_spec by done. unfold is_s in Hv.
  rewrite shifted_integer_decode_spec by (unfold is_u; zcases; lia). zcases; dlia.
Qed.

(** ** Packed values round-trip *)

Lemma unpack_words_concat n l :
  Forall (is_u (8 * Z.of_nat n)) l ->
  unpack_words n (concat (map (le_split n) l)) (length l) = Some l.
Proof.
  induction 1 as [|x l Hx _ IH]; [done|]. cbn [map concat length unpack_words].
  pose proof (length_le_split n x) as Hn.
  destruct (Nat.ltb_spec (length (le_split n x ++ concat (map (le_split n) l))) n) as [H|H].
  { rewrite length_app in H. lia. }
  rewrite drop_app_length', IH, take_app_length' by done.
  by rewrite le_combine_split_small.
Qed.

Lemma length_concat_split n l :
  length (concat (map (le_split n) l)) = (n * length l)%nat.
Proof. induction l; simpl; [lia|]. rewrite length_app, length_le_split, IHl. lia. Qed.

Lemma map_le_split_wrap n w l :
  w = 8 * Z.of_nat n -> Forall (is_u w) l ->
  map (fun x => le_split n (wrap w x)) l = map (le_split n) l.
Proof.
  intros -> H. apply map_ext_Forall. eapply Forall_impl; [exact H|].
  intros x Hx. simpl. by rewrite wrap_small.
Qed.

Lemma pack_8_words l : Forall (is_u 8) l -> pack_8 l = concat (map (le_split 1) l).
Proof.
  induction 1 as [|x l Hx _ IH]; [done|]. cbn [pack_8 map concat]. unfold pack_8 in IH.
  rewrite IH, wrap_small by done. done.
Qed.

Definition pack_widths : list Z := [1; 2; 4; 8; 16; 32; 64].

Lemma pack_widths_range w : w ∈ pack_widths -> 1 <= w <= 64.
Proof.
  assert (Forall (fun w => 1 <= w <= 64) pack_widths) as H by (repeat constructor; lia).
  rewrite Forall_forall in H. apply H.
Qed.

Lemma pack_bits_spec nbits l :
  nbits ∈ [1; 2; 4] -> l <> [] -> Forall (is_u nbits) l ->
  exists bs, pack_values nbits l = Some bs /\
    Z.of_nat (length bs) = (nbits * Z.of_nat (length l) + 7) / 8 /\
    (if nbits =? 1 then unpack_1 else if nbits =? 2 then unpack_2 else unpack_4) bs (length l)
    = Some l.
Proof.
  intros Hn Hne Hl.
  repeat (apply elem_of_cons in Hn as [->|Hn]); [..|by apply not_elem_of_nil in Hn].
  - apply (duff_lockstep 1 8); [lia|lia| |done|done].
    intros r Hr. exists 0%nat.
    do 9 (destruct r as [|r]; [try lia; done|]). lia.
  - apply (duff_lockstep 2 4); [lia|lia| |done|done].
    intros r Hr. exists ((r - 1) / 4)%nat.
    do 9 (destruct r as [|r]; [try lia; done|]). lia.
  - apply (duff_lockstep 4 2); [lia|lia| |done|done].
    intros r Hr. exists ((r - 1) / 2)%nat.
    do 9 (destruct r as [|r]; [try lia; done|]). lia.
Qed.

Lemma pack_values_spec nbits l :
  nbits ∈ pack_widths -> l <> [] -> Forall (is_u nbits) l ->
  exists bs, pack_values nbits l = Some bs /\ parses (unpack_values nbits (length l)) bs l /\
    Z.of_nat (length bs) = (nbits * Z.of_nat (length l) + 7) / 8.
Proof.
  intros Hn Hne Hl. unfold pack_widths in Hn.
  assert (nbits ∈ [1; 2; 4] \/ nbits ∈ [8; 16; 32; 64]) as [Hb|Hw] by set_solver.
  - destruct (pack_bits_spec nbits l Hb Hne Hl) as (bs & Hp & Hlen & Hu). exists bs.
    split_and!; [done| |done]. unfold unpack_values. rewrite <- Hlen, Nat2Z.id.
    repeat (apply elem_of_cons in Hb as [->|Hb]); [..|by apply not_elem_of_nil in Hb];
      cbn [Z.eqb Pos.eqb] in *;
      (eapply parses_bind_nil; [apply parses_read | rewrite Hu; apply parses_ret]).
  - assert (exists n, nbits = 8 * Z.of_nat n /\ pack_values nbits l = Some (concat (map (le_split n) l)) /\
      forall i, unpack_values nbits (length l) i =
        (p <- read (n * length l) ;;
         match unpack_words n p (length l) with Some l => rret l | None => rfail end) i)
      as (n & -> & Hp & Hu).
    { repeat (apply elem_of_cons in Hw as [->|Hw]); [..|by apply not_elem_of_nil in Hw].
      - exists 1%nat. unfold pack_values, unpack_values. cbn [Z.eqb Pos.eqb]. rewrite pack_8_words by done.
        split_and!; [done..|]. intros. do 2 f_equal. dlia.
      - exists 2%nat. unfold pack_values, unpack_values, pack_16. cbn [Z.eqb Pos.eqb].
        rewrite map_le_split_wrap by done. split_and!; [done..|]. intros. do 2 f_equal. dlia.
      - exists 4%nat. unfold pack_values, unpack_values, pack_32. cbn [Z.eqb Pos.eqb].
        rewrite map_le_split_wrap by done. split_and!; [done..|]. intros. do 2 f_equal. dlia.
      - exists 8%nat. done. }
    eexists. split_and!; [exact Hp| |rewrite length_concat_split; dlia].
    intros i rest Hi Hr. rewrite Hu. revert i rest Hi Hr.
    eapply parses_bind_nil; [apply parses_read_n, length_concat_split|].
    rewrite unpack_words_concat by done. apply parses_ret.
Qed.

(** ** Bit widths *)

Lemma max_nbits_spec init l :
  Forall (is_u 64) l -> 0 <= init ->
  init <= max_nbits init l /\ max_nbits init l <= Z.max init 64 /\
  Forall (fun d => bit_length d <= max_nbits init l) l.
Proof.
  intros Hl. revert init. induction Hl as [|d l Hd _ IH]; intros init Hi; simpl.
  - split_and!; [lia|lia|constructor].
  - assert (0 <= bit_length d <= 64) as Hb.
    { split; [apply bit_length_nonneg|]. apply bit_length_bound; unfold is_u in Hd; lia. }
    assert (u8 (bit_length d) = bit_length d) as E by (apply wrap_small; unfold is_u; lia).
    destruct (Z.eqb_spec d 0) as [->|Hd0].
    + destruct (IH init Hi) as (H1 & H2 & H3). split_and!; [done..|]. constructor; [|done].
      change (bit_length 0) with 0. unfold max_nbits in *. simpl in *. lia.
    + rewrite E. destruct (IH (Z.max init (bit_length d)) ltac:(lia)) as (H1 & H2 & H3).
      unfold max_nbits in *. simpl.
      split_and!; [lia|lia|]. constructor; [lia|done].
Qed.

Lemma max_nbits_zero l :
  Forall (is_u 64) l -> max_nbits 0 l = 0 -> Forall (fun d => d = 0) l.
Proof.
  intros Hl H0. destruct (max_nbits_spec 0 l Hl ltac:(lia)) as (_ & _ & H). rewrite H0 in H.
  eapply Forall_impl; [apply Forall_and; split; [exact Hl | exact H]|].
  intros d [[Hd _] Hb]. pose proof (proj2 (bit_length_bound d 0 Hd ltac:(lia)) Hb). lia.
Qed.

Lemma round_nbits_spec n :
  0 <= n <= 64 ->
  n <= round_nbits n /\ (n = 0 /\ round_nbits n = 0 \/ 0 < n /\ round_nbits n ∈ pack_widths).
Proof.
  intros Hn.
  assert (Forall (fun n => n <= round_nbits n /\
    (n = 0 /\ round_nbits n = 0 \/ 0 < n /\ round_nbits n ∈ pack_widths)) (seqZ 0 65)) as H.
  { apply Forall_forall. intros m. rewrite elem_of_seqZ. intros Hm.
    apply (bool_decide_unpack _). revert m Hm.
    assert (forallb (fun m => bool_decide (m <= round_nbits m /\
      (m = 0 /\ round_nbits m = 0 \/ 0 < m /\ round_nbits m ∈ pack_widths))) (seqZ 0 65) = true)
      as H by (vm_compute; reflexivity).
    intros m Hm. rewrite forallb_forall in H. rewrite H; [done|].
    apply list_elem_of_In, elem_of_seqZ. lia. }
  rewrite Forall_forall in H. apply H, elem_of_seqZ. lia.
Qed.

(** The width the decoder reads from a header *)
Definition header_nbits (header : Z) : Z :=
  let shiftpos := Z.shiftr header FRAME_OF_REFERENCE_HEADER_NUM_BITS in
  if 0 <? shiftpos then u8 (Z.shiftl 1 (shiftpos - 1)) else 0.

(** What the decoder recovers from the header the encoder writes *)
Lemma header_spec technique nbits :
  technique ∈ [FRAME_OF_REFERENCE; FRAME_OF_REFERENCE_DELTA_NEGATIVE] ->
  nbits ∈ 0 :: pack_widths ->
  let header := if 0 <? nbits then u8 (technique + Z.shiftl (u8 (bit_length nbits)) 2)
                else technique in
  is_u 8 header /\
  Z.land header FRAME_OF_REFERENCE_HEADER_MASK = technique /\
  header_nbits header = nbits.
Proof.
  intros Ht Hn. unfold pack_widths in Hn.
  repeat (apply elem_of_cons in Ht as [->|Ht]); [..|by apply not_elem_of_nil in Ht].
  all: repeat (apply elem_of_cons in Hn as [->|Hn]); [..|by apply not_elem_of_nil in Hn].
  all: vm_compute; split_and!; [done|done|done|done].
Qed.

(** ** The frame-of-reference block code *)

Lemma frame_range m l : Forall (is_u 64) (map (fun x => u64 (x - m)) l).
Proof. apply Forall_map, Forall_true. intros. apply wrap_range. lia. Qed.

Lemma deltas_negative_range prev l : Forall (is_u 64) (deltas_negative prev l).
Proof.
  revert prev. induction l as [|x l IH]; intros prev; constructor; [|apply IH].
  apply wrap_range. lia.
Qed.

(** The coding decision: plain frame coding, or delta coding with signs. *)
Lemma choose_coding_spec x0 rest t n coded :
  choose_coding x0 rest = (t, n, coded) ->
  0 <= n <= 64 /\
  (t = FRAME_OF_REFERENCE /\ n = max_nbits 0 coded /\
     coded = map (fun x => u64 (x - min_value x0 (x0 :: rest))) (x0 :: rest) \/
   t = FRAME_OF_REFERENCE_DELTA_NEGATIVE /\ n = max_nbits 0 (tail coded) /\
     coded = x0 :: deltas_negative x0 rest).
Proof.
  unfold choose_coding. cbv zeta.
  remember (map (fun x => u64 (x - min_value x0 (x0 :: rest))) (x0 :: rest)) as frame eqn:Hframe.
  destruct (max_nbits_spec 0 frame) as (Hf1 & Hf2 & _);
    [rewrite Hframe; apply frame_range | lia |].
  destruct (max_nbits_spec 0 _ (deltas_negative_range x0 rest) ltac:(lia)) as (Hd1 & Hd2 & _).
  cbn [tail]. destruct (is_incremental x0 rest) eqn:Hinc.
  - assert (255 <= max_nbits 255 (deltas x0 rest)) as H255.
    { assert (Forall (is_u 64) (deltas x0 rest)) as Hr.
      { clear. revert x0. induction rest as [|x l IH]; intros p; constructor; [|apply IH].
        apply wrap_range. lia. }
      apply (max_nbits_spec 255 _ Hr ltac:(lia)). }
    destruct (Z.leb_spec (max_nbits 0 frame) (max_nbits 255 (deltas x0 rest))); [|lia].
    destruct (Z.leb_spec (max_nbits 0 frame) 255); [|lia]. cbn [andb].
    intros Hc; injection Hc as <- <- <-. split; [lia|]. by left.
  - destruct (Z.leb_spec (max_nbits 0 frame) 255); [|lia]. cbn [andb].
    destruct (Z.leb_spec (max_nbits 0 frame) (max_nbits 0 (deltas_negative x0 rest))).
    + intros Hc; injection Hc as <- <- <-. split; [lia|]. by left.
    + destruct (Z.leb_spec 255 (max_nbits 0 frame)); [lia|]. cbn [andb].
      intros Hc; injection Hc as <- <- <-. split; [lia|]. by right.
Qed.

Lemma accumulate_negative_deltas prev l :
  is_u 64 prev -> Forall (is_u 64) l -> accumulate_negative prev (deltas_negative prev l) = l.
Proof.
  intros Hp Hl. revert prev Hp. induction Hl as [|x l Hx _ IH]; intros prev Hp; simpl; [done|].
  assert (u64 (u64 (shifted_integer_decode (shifted_integer_encode (i64 (i64 x - i64 prev)))) + prev)
    = x) as ->.
  { rewrite shifted_integer_roundtrip by (apply signed_range; lia).
    rewrite wrap_signed, wrap_add_l, wrap_signed_sub by lia. by apply wrap_small. }
  f_equal. by apply IH.
Qed.

Lemma deltas_negative_zero prev l :
  is_u 64 prev -> Forall (is_u 64) l -> Forall (fun d => d = 0) (deltas_negative prev l) ->
  l = replicate (length l) prev.
Proof.
  intros Hp Hl Hz. rewrite <- (accumulate_negative_deltas prev l Hp Hl) at 1.
  assert (deltas_negative prev l = replicate (length l) 0) as ->.
  { clear Hp Hl. revert prev Hz. induction l as [|x l IH]; intros prev Hz; simpl in *; [done|].
    apply Forall_cons in Hz as [-> Hz]. f_equal. by apply IH. }
  induction (length l) as [|n IH]; simpl; [done|].
  replace (u64 (u64 (shifted_integer_decode 0) + prev)) with prev.
  - f_equal. apply IH.
  - change (u64 (shifted_integer_decode 0)) with 0. symmetry. by apply wrap_small.
Qed.

Lemma min_value_spec x0 l : is_u 64 x0 -> Forall (is_u 64) l -> is_u 64 (min_value x0 l).
Proof.
  intros Hx Hl. unfold min_value. revert x0 Hx.
  induction Hl as [|x l Hx' _ IH]; intros x0 Hx; simpl; [done|].
  apply IH. unfold is_u in *. lia.
Qed.

Lemma frame_decode m l :
  Forall (is_u 64) l -> map (fun x => u64 (x + m)) (map (fun x => u64 (x - m)) l) = l.
Proof.
  intros Hl. rewrite map_map. rewrite <- (map_id l) at 2. apply map_ext_Forall.
  eapply Forall_impl; [exact Hl|]. intros x Hx. rewrite wrap_add_l.
  replace (x - m + m) with x by lia. by apply wrap_small.
Qed.

Lemma frame_zero m l :
  is_u 64 m -> Forall (is_u 64) l -> Forall (fun d => d = 0) (map (fun x => u64 (x - m)) l) ->
  l = replicate (length l) m.
Proof.
  intros Hm Hl Hz. rewrite <- (frame_decode m l Hl) at 1.
  induction Hl as [|x l Hx _ IH]; simpl in *; [done|].
  apply Forall_cons in Hz as [-> Hz]. rewrite IH by done. f_equal. by apply wrap_small.
Qed.

(** The values that are packed fit the rounded width. *)
Lemma packed_fit nbits l :
  Forall (is_u 64) l -> nbits = max_nbits 0 l -> 0 <= nbits <= 64 ->
  Forall (is_u (round_nbits nbits)) l.
Proof.
  intros Hl -> Hn. destruct (max_nbits_spec 0 l Hl ltac:(lia)) as (_ & _ & Hb).
  destruct (round_nbits_spec _ Hn) as [Hr _].
  eapply Forall_impl; [apply Forall_and; split; [exact Hl | exact Hb]|].
  intros d [[Hd0 Hd] Hdb]. split; [done|]. apply bit_length_bound; lia.
Qed.

Lemma variable_codec_size s :
  is_u 64 s ->
  exists bs, emits (variable_encode s) bs /\ parses variable_decode bs s /\ (1 <= length bs <= 9)%nat.
Proof.
  intros Hs. destruct (variable_codec s Hs) as (bs & He & Hp). exists bs.
  split; [done|]. split; [done|].
  assert (to_bytes variable_encode s = Some bs) as E by (by apply emits_to_bytes).
  rewrite (emits_to_bytes _ _ _ (emits_variable_encode s Hs)) in E. injection E as <-.
  repeat (case_match; [rewrite length_le_split; lia|]).
  cbn [length]. rewrite length_le_split. lia.
Qed.

(** The code of one block: its header, its variable-length base value, its packed values. *)
Lemma encode_block_emits x0 rest t n coded base bsv bsp :
  (length (x0 :: rest) <= 128)%nat ->
  choose_coding x0 rest = (t, n, coded) ->
  base = (if t =? FRAME_OF_REFERENCE then min_value x0 (x0 :: rest) else hd 0 coded) ->
  emits (variable_encode base) bsv ->
  (if round_nbits n =? 0 then bsp = []
   else pack_values (round_nbits n)
          (if t =? FRAME_OF_REFERENCE then coded else tail coded) = Some bsp) ->
  emits (frame_of_reference_encode_128 (x0 :: rest))
    (le_split 1 (if 0 <? round_nbits n then u8 (t + Z.shiftl (u8 (bit_length (round_nbits n))) 2)
                 else t) ++ bsv ++ bsp).
Proof.
  intros Hl Hc -> Hv Hp. unfold frame_of_reference_encode_128.
  destruct (Nat.ltb_spec 128 (length (x0 :: rest))); [lia|]. rewrite Hc.
  apply emits_seq; [apply emits_direct_assign|]. apply emits_seq.
  - revert Hv. by destruct (t =? FRAME_OF_REFERENCE).
  - revert Hp. destruct (round_nbits n =? 0); [intros ->; apply emits_nil|].
    intros ->. apply emits_write.
Qed.

Lemma decode_block_zero n header base bsv :
  (S n <= 128)%nat -> is_u 8 header -> header_nbits header = 0 -> parses variable_decode bsv base ->
  parses (frame_of_reference_decode_128 (S n)) (le_split 1 header ++ bsv) (replicate (S n) base).
Proof.
  intros Hn Hh H0 Hv. unfold frame_of_reference_decode_128.
  destruct (Nat.ltb_spec 128 (S n)); [lia|].
  eapply parses_bind; [by apply (parses_read_into 1)|]. fold (header_nbits header). rewrite H0.
  eapply parses_bind_nil; [done | apply parses_ret].
Qed.

Lemma decode_block_frame n header base bsv bsp l :
  (S n <= 128)%nat -> is_u 8 header -> header_nbits header <> 0 ->
  Z.land header FRAME_OF_REFERENCE_HEADER_MASK = FRAME_OF_REFERENCE ->
  parses variable_decode bsv base -> parses (unpack_values (header_nbits header) (S n)) bsp l ->
  parses (frame_of_reference_decode_128 (S n)) (le_split 1 header ++ bsv ++ bsp)
    (map (fun x => u64 (x + base)) l).
Proof.
  intros Hn Hh H0 Ht Hv Hu. unfold frame_of_reference_decode_128.
  destruct (Nat.ltb_spec 128 (S n)); [lia|].
  eapply parses_bind; [by apply (parses_read_into 1)|]. fold (header_nbits header).
  rewrite (proj2 (Z.eqb_neq _ _) H0), Ht. cbn [Z.eqb].
  eapply parses_bind; [done|]. eapply parses_bind_nil; [done | apply parses_ret].
Qed.

Lemma decode_block_negative n header base bsv bsp l :
  (S n <= 128)%nat -> is_u 8 header -> header_nbits header <> 0 ->
  Z.land header FRAME_OF_REFERENCE_HEADER_MASK = FRAME_OF_REFERENCE_DELTA_NEGATIVE ->
  parses variable_decode bsv base -> parses (unpack_values (header_nbits header) n) bsp l ->
  parses (frame_of_reference_decode_128 (S n)) (le_split 1 header ++ bsv ++ bsp)
    (base :: accumulate_negative base l).
Proof.
  intros Hn Hh H0 Ht Hv Hu. unfold frame_of_reference_decode_128.
  destruct (Nat.ltb_spec 128 (S n)); [lia|].
  eapply parses_bind; [by apply (parses_read_into 1)|]. fold (header_nbits header).
  rewrite (proj2 (Z.eqb_neq _ _) H0), Ht. cbn [Z.eqb FRAME_OF_REFERENCE_DELTA].
  eapply parses_bind; [done|]. eapply parses_bind_nil; [done | apply parses_ret].
Qed.

Lemma length_deltas_negative prev l : length (deltas_negative prev l) = length l.
Proof. revert prev. induction l; intros; simpl; auto. Qed.

(** The packed part of a block: empty when every coded value is zero. *)
Lemma payload_spec n payload :
  Forall (is_u 64) payload -> n = max_nbits 0 payload -> 0 <= n <= 64 ->
  exists bsp, (length bsp <= 8 * length payload)%nat /\
    (if round_nbits n =? 0 then bsp = [] /\ Forall (fun d => d = 0) payload
     else pack_values (round_nbits n) payload = Some bsp /\
          parses (unpack_values (round_nbits n) (length payload)) bsp payload).
Proof.
  intros Hl Hn Hr. destruct (round_nbits_spec n Hr) as [_ [[H0 ->]|[H0 Hw]]].
  - exists []. split; [simpl; lia|]. cbn [Z.eqb]. split; [done|].
    apply max_nbits_zero; [done|congruence].
  - destruct (pack_values_spec (round_nbits n) payload) as (bsp & Hp & Hu & Hlen);
      [done| |by apply packed_fit|].
    { intros ->. unfold max_nbits in Hn. simpl in Hn. lia. }
    pose proof (pack_widths_range _ Hw).
    exists bsp. rewrite (proj2 (Z.eqb_neq _ 0)) by lia. split; [|done].
    enough (Z.of_nat (length bsp) <= 8 * Z.of_nat (length payload)) by lia.
    rewrite Hlen. Z.to_euclidean_division_equations. nia.
Qed.

Lemma frame_codec input :
  Forall (is_u 64) input -> (length input <= 128)%nat ->
  exists bs, emits (frame_of_reference_encode_128 input) bs /\
    parses (frame_of_reference_decode_128 (length input)) bs input /\
    (length bs <= 10 + 8 * length input)%nat.
Proof.
  intros Hin Hlen. destruct input as [|x0 rest].
  { exists []. split_and!; [apply emits_nil|apply parses_ret|simpl; lia]. }
  apply Forall_cons in Hin as Hin'. destruct Hin' as [Hx0 Hrest].
  destruct (choose_coding x0 rest) as [[t n] coded] eqn:Hc.
  destruct (choose_coding_spec _ _ _ _ _ Hc) as [Hn Hcase].
  assert (round_nbits n ∈ 0 :: pack_widths) as Hrw
    by (destruct (round_nbits_spec n Hn) as [_ [[_ ->]|[_ ?]]]; set_solver).
  destruct Hcase as [(-> & Hnp & Hcoded)|(-> & Hnp & Hcoded)].
  - pose proof (header_spec FRAME_OF_REFERENCE (round_nbits n) ltac:(set_solver) Hrw) as (Hh & Hht & Hhn).
    pose proof (min_value_spec x0 (x0 :: rest) Hx0 Hin) as Hbase.
    destruct (variable_codec_size _ Hbase) as (bsv & Hev & Hpv & Hlv).
    destruct (payload_spec n coded) as (bsp & Hlp & Hp); [subst; apply frame_range|done|done|].
    assert (length coded = S (length rest)) as Hcl by (subst; by rewrite length_map).
    eexists. split_and!.
    + eapply encode_block_emits; [done|exact Hc|done|exact Hev|].
      revert Hp. cbn [Z.eqb FRAME_OF_REFERENCE FRAME_OF_REFERENCE_DELTA_NEGATIVE].
      destruct (round_nbits n =? 0); by intros [? _].
    + cbn [length]. destruct (round_nbits n =? 0) eqn:E.
      * destruct Hp as [-> Hz]. rewrite app_nil_r. subst coded.
        rewrite (frame_zero _ _ Hbase Hin Hz). apply decode_block_zero; try done.
        etrans; [exact Hhn|]. by apply Z.eqb_eq.
      * apply Z.eqb_neq in E. destruct Hp as [_ Hu]. rewrite Hcl in Hu.
        rewrite <- (frame_decode (min_value x0 (x0 :: rest)) (x0 :: rest) Hin).
        rewrite <- Hcoded. apply decode_block_frame; try done; by rewrite Hhn.
    + rewrite !length_app, length_le_split. cbn [length] in *. lia.
  - pose proof (header_spec FRAME_OF_REFERENCE_DELTA_NEGATIVE (round_nbits n) ltac:(set_solver) Hrw) as (Hh & Hht & Hhn).
    subst coded. cbn [tail hd] in *.
    destruct (variable_codec_size _ Hx0) as (bsv & Hev & Hpv & Hlv).
    destruct (payload_spec n (deltas_negative x0 rest)) as (bsp & Hlp & Hp);
      [apply deltas_negative_range|done|done|].
    rewrite length_deltas_negative in *.
    eexists. split_and!.
    + eapply encode_block_emits; [done|exact Hc|done|exact Hev|].
      revert Hp. cbn [Z.eqb FRAME_OF_REFERENCE FRAME_OF_REFERENCE_DELTA_NEGATIVE].
      destruct (round_nbits n =? 0); by intros [? _].
    + cbn [length]. destruct (round_nbits n =? 0) eqn:E.
      * destruct Hp as [-> Hz]. rewrite app_nil_r.
        rewrite (deltas_negative_zero _ _ Hx0 Hrest Hz), length_replicate.
        apply (decode_block_zero (length rest)); try done.
        etrans; [exact Hhn|]. by apply Z.eqb_eq.
      * apply Z.eqb_neq in E. destruct Hp as [_ Hu].
        rewrite <- (accumulate_negative_deltas x0 rest Hx0 Hrest) at 2.
        apply decode_block_negative; try done; by rewrite Hhn.
    + rewrite !length_app, length_le_split. cbn [length] in *. lia.
Qed.

(** * Properties *)

(** C2. A block of at most 128 unsigned 64-bit integers round-trips through
    [frame_of_reference_encode_128] and [frame_of_reference_decode_128]: the
    encoder never fails, the decoder consumes exactly the bytes the encoder
    wrote and returns the block, and the code takes at most ten bytes more than
    the raw integers. *)
Theorem frame_of_reference_roundtrip input :
  Forall (is_u 64) input -> (length input <= 128)%nat ->
  exists bs, emits (frame_of_reference_encode_128 input) bs /\
    parses (frame_of_reference_decode_128 (length input)) bs input /\
    (length bs <= 10 + 8 * length input)%nat.
Proof. apply frame_codec. Qed.

Lemma frame_of_reference_roundtrip_witness :
  exists bs, emits (frame_of_reference_encode_128 [5; 3; 9; 2 ^ 63; 0]) bs /\
    parses (frame_of_reference_decode_128 5) bs [5; 3; 9; 2 ^ 63; 0] /\ (length bs <= 50)%nat.
Proof.
  apply (frame_of_reference_roundtrip [5; 3; 9; 2 ^ 63; 0]).
  - repeat constructor; vm_compute; congruence.
  - vm_compute. lia.
Defined.

(** C38. Every unsigned 64-bit integer round-trips through [variable_encode] and
    [variable_decode]; a number of at most [7 k] significant bits ([k <= 7])
    takes at most [k] bytes, and any number takes at most nine. *)
Theorem variable_encode_roundtrip s :
  is_u 64 s ->
  exists bs, emits (variable_encode s) bs /\ parses variable_decode bs s /\
    (length bs <= 9)%nat /\
    forall k, (1 <= k <= 7)%nat -> s < 2 ^ (7 * Z.of_nat k) -> (length bs <= k)%nat.
Proof.
  intros Hs. destruct (variable_codec_size s Hs) as (bs & He & Hp & Hl).
  exists bs. split_and!; [done|done|lia|]. intros k Hk Hsk.
  pose proof (emits_to_bytes _ _ _ He) as E.
  rewrite (emits_to_bytes _ _ _ (emits_variable_encode s Hs)) in E. injection E as <-.
  zcases; rewrite ?length_le_split; destruct k as [|[|[|[|[|[|[|[|k]]]]]]]]; lia.
Qed.

Lemma variable_encode_roundtrip_witness :
  exists bs, emits (variable_encode 300) bs /\ parses variable_decode bs 300 /\ (length bs <= 2)%nat.
Proof.
  destruct (variable_encode_roundtrip 300) as (bs & He & Hp & _ & Hk).
  - split; [discriminate|reflexivity].
  - exists bs. split; [exact He|]. split; [exact Hp|].
    apply (Hk 2%nat); [split; repeat constructor|reflexivity].
Defined.

(** [shifted_integer_encode] is the zig-zag map [0, -1, 1, -2, 2, ...] to
    [0, 1, 2, 3, 4, ...] on the whole signed 64-bit range, and it and
    [shifted_integer_decode] are inverse in both directions. *)
Theorem shifted_integer_bijection v u :
  is_s 64 v -> is_u 64 u ->
  shifted_integer_encode v = (if 0 <=? v then 2 * v else - 2 * v - 1) /\
  is_u 64 (shifted_integer_encode v) /\ is_s 64 (shifted_integer_decode u) /\
  shifted_integer_decode (shifted_integer_encode v) = v /\
  shifted_integer_encode (shifted_integer_decode u) = u.
Proof.
  intros Hv Hu. pose proof (shifted_integer_encode_spec v Hv) as He.
  assert (is_s 64 (shifted_integer_decode u)) as Hd.
  { rewrite shifted_integer_decode_spec by done. unfold is_u, is_s in *. zcases; dlia. }
  split; [done|]. split.
  { rewrite He. unfold is_s, is_u in *. zcases; lia. }
  split; [exact Hd|]. split; [by apply shifted_integer_roundtrip|].
  { rewrite shifted_integer_encode_spec by done.
    rewrite shifted_integer_decode_spec by done. unfold is_u in Hu. zcases; dlia. }
Qed.

(** The encoder never chooses [FRAME_OF_REFERENCE_DELTA]: for an incremental
    block [nbits_delta] starts at 255 and is only ever increased, so plain frame
    coding always wins, although the codec and its decoder branch exist. *)
Theorem delta_coding_unreachable x0 rest :
  (choose_coding x0 rest).1.1 <> FRAME_OF_REFERENCE_DELTA.
Proof.
  destruct (choose_coding x0 rest) as [[t n] coded] eqn:Hc.
  by destruct (choose_coding_spec _ _ _ _ _ Hc) as [_ [(-> & _)|(-> & _)]].
Qed.

(** For every width the encoder packs with, [pack_n] of a non-empty list of
    values of that width succeeds, uses [ceil(n * len / 8)] bytes, and reading
    those bytes with [unpack_n] gives the values back in order; the interleaved
    switch and loop of the 1-, 2- and 4-bit routines handle every length. *)
Theorem pack_unpack_roundtrip nbits l :
  nbits ∈ pack_widths -> l <> [] -> Forall (is_u nbits) l ->
  exists bs, pack_values nbits l = Some bs /\ parses (unpack_values nbits (length l)) bs l /\
    Z.of_nat (length bs) = (nbits * Z.of_nat (length l) + 7) / 8.
Proof. apply pack_values_spec. Qed.
