(* ===== verification/DenseBitset.v ===== *)
(** Dense bit sets: the model of [util/dense_bitset.hpp].

    [Module DenseBitset] is the class [dense_bitset] (a resizable array of 64-bit
    words); [Module FixedBitset] is [fixed_dense_bitset<len>], whose operations
    have the same bodies over an array of fixed size.  The abstract view of
    either is the set of positions [bit d i]; the invariant [wf] says that the
    array has the words the length needs and that no bit at or past the length
    is set.  Accesses outside the array are undefined in the code and [None]
    here.  The atomic operations are modelled as the single read-modify-write
    step they perform. *)
From Stdlib Require Import ZArith Lia List Bool.
From stdpp Require Import prelude.
From coqutil Require Import Byte Word.LittleEndianList.
From S2P Require Import Prelude.
From S2P Require Import Archive.
From S2P Require Import Serialization.

(** ** Word operations shared by the two classes *)

Definition bit_to_pos (b : nat) : nat * Z :=
  ((b / (8 * 8))%nat, Z.land (Z.of_nat b) (8 * 8 - 1)).

(** returns 0 on failure *)
Definition next_bit_in_block (b block : Z) : Z :=
  let belowselectedbit :=
    u64 ((2 ^ 64 - 1) - Z.lor (u64 (Z.shiftl 1 b) - 1) (u64 (Z.shiftl 1 b))) in
  let x := Z.land block belowselectedbit in
  if x =? 0 then 0 else ctz x.

(** returns 0 on failure *)
Definition first_bit_in_block (block : Z) : Z := if block =? 0 then 0 else ctz block.

(** [~w] for a [size_t] *)
Definition not64 (w : Z) : Z := u64 (Z.lnot w).

(** The first word from index [i] on for which [test] holds, as a bit position *)
Fixpoint first_in_words (f : Z -> Z) (i : nat) (ws : list Z) : option nat :=
  match ws with
  | [] => None
  | w :: ws =>
      if f w =? 0 then first_in_words f (S i) ws
      else Some (i * 64 + Z.to_nat (first_bit_in_block (f w)))%nat
  end.

(** Number of words for [n] bits *)
Definition words_for (n : nat) : nat := (n / 64 + (if n mod 64 =? 0 then 0 else 1))%nat.

(** [array[arrlen - 1] &= ((size_t(1) << lastbits) - 1)] unless the length is a
    multiple of the word size *)
Definition fix_trailing (len : nat) (array : list Z) : option (list Z) :=
  let lastbits := (len mod 64)%nat in
  if (lastbits =? 0)%nat then Some array else
  match array !! (length array - 1)%nat with
  | None => None
  | Some w =>
      Some (<[(length array - 1)%nat :=
               Z.land w (u64 (Z.shiftl 1 (Z.of_nat lastbits)) - 1)]> array)
  end.

(** ** Lemmas on words *)

Lemma pos_ctz_nonneg p : 0 <= pos_ctz p.
Proof. induction p; simpl pos_ctz; lia. Qed.

Lemma pos_ctz_testbit p : Z.testbit (Zpos p) (pos_ctz p) = true.
Proof.
  induction p as [p IH|p IH|]; try done. simpl pos_ctz. pose proof (pos_ctz_nonneg p).
  rewrite Pos2Z.inj_xO, Z.add_1_l, Z.double_bits_succ. done.
Qed.

Lemma pos_ctz_below p j : 0 <= j < pos_ctz p -> Z.testbit (Zpos p) j = false.
Proof.
  revert j. induction p as [p IH|p IH|]; intros j Hj; simpl in Hj; try lia.
  rewrite Pos2Z.inj_xO. destruct (Z.eq_dec j 0) as [->|]; [done|].
  replace j with (Z.succ (j - 1)) by lia. rewrite Z.double_bits_succ. apply IH. lia.
Qed.

Lemma ctz_spec z :
  0 < z -> 0 <= ctz z /\ Z.testbit z (ctz z) = true /\
           forall j, 0 <= j < ctz z -> Z.testbit z j = false.
Proof.
  destruct z as [|p|p]; try lia. intros _. simpl ctz.
  auto using pos_ctz_nonneg, pos_ctz_testbit, pos_ctz_below.
Qed.

Lemma testbit_u_high w z j : is_u w z -> w <= j -> Z.testbit z j = false.
Proof.
  intros Hz Hj. destruct (Z.lt_ge_cases w 0).
  { unfold is_u in Hz. rewrite Z.pow_neg_r in Hz by done. lia. }
  rewrite <- (Z.mod_small z (2 ^ w)) by done. by apply Z.mod_pow2_bits_high.
Qed.

Lemma testbit_true_u w z j : is_u w z -> Z.testbit z j = true -> j < w.
Proof.
  intros Hz Hb. destruct (Z.lt_ge_cases j w) as [|Hj]; [done|].
  by rewrite (testbit_u_high w z j Hz Hj) in Hb.
Qed.

Lemma is_u_testbit w z :
  0 <= w -> 0 <= z -> (forall j, w <= j -> Z.testbit z j = false) -> is_u w z.
Proof.
  intros Hw Hz H. split; [done|].
  assert (z = z mod 2 ^ w) as ->.
  { apply Z.bits_inj'. intros i Hi. destruct (Z.lt_ge_cases i w).
    - by rewrite Z.mod_pow2_bits_low.
    - rewrite Z.mod_pow2_bits_high by lia. by apply H. }
  apply Z.mod_pos_bound. by apply Z.pow_pos_nonneg.
Qed.

(** The mask of bit [b] of a word *)
Lemma mask64 b : 0 <= b < 64 -> u64 (Z.shiftl 1 b) = 2 ^ b.
Proof.
  intros Hb. rewrite Z.shiftl_1_l. apply wrap_small. split; [apply Z.pow_nonneg; lia|].
  apply Z.pow_lt_mono_r; lia.
Qed.

Lemma land_pow2_test w b : 0 <= b -> negb (Z.land w (2 ^ b) =? 0) = Z.testbit w b.
Proof.
  intros Hb. destruct (Z.testbit w b) eqn:E.
  - apply negb_true_iff, Z.eqb_neq. intros H0.
    assert (Z.testbit (Z.land w (2 ^ b)) b = true) as Ht
      by (rewrite Z.land_spec, E; by apply Z.pow2_bits_true).
    by rewrite H0, Z.bits_0 in Ht.
  - apply negb_false_iff, Z.eqb_eq. apply Z.bits_inj'. intros i Hi.
    rewrite Z.land_spec, Z.bits_0, Z.pow2_bits_eqb by done.
    destruct (Z.eqb_spec b i) as [->|]; [by rewrite E | apply andb_false_r].
Qed.

Lemma not64_spec w j : 0 <= j -> Z.testbit (not64 w) j = (j <? 64) && negb (Z.testbit w j).
Proof.
  intros Hj. unfold not64, wrap. destruct (Z.ltb_spec j 64).
  - rewrite Z.mod_pow2_bits_low by lia. by rewrite Z.lnot_spec.
  - by rewrite Z.mod_pow2_bits_high by lia.
Qed.

Lemma not64_u w : is_u 64 (not64 w).
Proof. apply wrap_range. lia. Qed.

(** Bits above [b] of a word *)
Lemma above_mask b :
  0 <= b < 64 ->
  u64 ((2 ^ 64 - 1) - Z.lor (u64 (Z.shiftl 1 b) - 1) (u64 (Z.shiftl 1 b))) =
  Z.shiftl (Z.ones (63 - b)) (b + 1).
Proof.
  intros Hb. rewrite mask64 by done.
  rewrite Z.lor_comm. replace (2 ^ b) with (Z.shiftl 1 b) at 1 by apply Z.shiftl_1_l.
  pose proof (Z.pow_pos_nonneg 2 b).
  rewrite lor_shiftl_add by lia. rewrite Z.shiftl_mul_pow2, Z.ones_equiv by lia.
  assert (2 ^ 64 = 2 ^ (63 - b) * 2 ^ (b + 1)) as E
    by (rewrite <- Z.pow_add_r by lia; f_equal; lia).
  assert (2 ^ (b + 1) = 2 * 2 ^ b) as E1 by (rewrite Z.add_1_r, Z.pow_succ_r; lia).
  pose proof (Z.pow_pos_nonneg 2 (63 - b) ltac:(lia) ltac:(lia)).
  rewrite wrap_small; [|unfold is_u]; nia.
Qed.

Lemma next_bit_in_block_spec b w :
  0 <= b < 64 -> is_u 64 w ->
  let r := next_bit_in_block b w in
  if r =? 0 then forall j, b < j -> Z.testbit w j = false
  else b < r < 64 /\ Z.testbit w r = true /\ forall j, b < j < r -> Z.testbit w j = false.
Proof.
  intros Hb Hw r. unfold r, next_bit_in_block. rewrite above_mask by done.
  set (x := Z.land w _).
  assert (forall j, 0 <= j -> Z.testbit x j = Z.testbit w j && (b <? j)) as Hx.
  { intros j Hj. unfold x. rewrite Z.land_spec, Z.shiftl_spec by done.
    destruct (Z.lt_ge_cases j 64).
    - f_equal. destruct (Z.ltb_spec b j).
      + apply Z.ones_spec_low. lia.
      + destruct (Z.eq_dec j (b + 1)); [lia|]. by apply Z.testbit_neg_r; lia.
    - by rewrite (testbit_u_high 64 w j Hw). }
  assert (0 <= x) by (apply Z.land_nonneg; left; apply Hw).
  destruct (Z.eqb_spec x 0) as [E|E].
  - simpl. intros j Hj. specialize (Hx j ltac:(lia)). rewrite E, Z.bits_0 in Hx.
    destruct (Z.ltb_spec b j); [|lia]. by rewrite andb_true_r in Hx.
  - destruct (ctz_spec x ltac:(lia)) as (H0 & Ht & Hl).
    rewrite Hx in Ht by done. apply andb_prop in Ht as [Ht Hlt]. apply Z.ltb_lt in Hlt.
    destruct (Z.eqb_spec (ctz x) 0); [lia|].
    pose proof (testbit_true_u _ _ _ Hw Ht). split_and!; try done.
    intros j Hj. specialize (Hl j ltac:(lia)). rewrite Hx in Hl by lia.
    destruct (Z.ltb_spec b j); [|lia]. by rewrite andb_true_r in Hl.
Qed.

(** ** Words as a set of positions *)

(** Position [i] of the words [ws], each seen through [f] *)
Definition wbit (f : Z -> Z) (ws : list Z) (i : nat) : bool :=
  match ws !! (i / 64)%nat with
  | Some w => Z.testbit (f w) (Z.of_nat (i mod 64))
  | None => false
  end.

(** [r] is the least position from [lo] on that satisfies [P], if any *)
Definition least (P : nat -> bool) (lo : nat) (r : option nat) : Prop :=
  match r with
  | Some c => (lo <= c)%nat /\ P c = true /\ forall j, (lo <= j < c)%nat -> P j = false
  | None => forall j, (lo <= j)%nat -> P j = false
  end.

Lemma divmod64 k j : (j < 64)%nat -> ((k * 64 + j) / 64 = k /\ (k * 64 + j) mod 64 = j)%nat.
Proof.
  intros. rewrite Nat.add_comm, Nat.div_add, Nat.Div0.mod_add, Nat.div_small, Nat.mod_small; lia.
Qed.

Lemma divmod64_of i k : (k * 64 <= i < k * 64 + 64)%nat -> exists j, (i = k * 64 + j /\ j < 64)%nat.
Proof. intros. exists (i - k * 64)%nat. lia. Qed.

Lemma wbit_at f ws k j w :
  ws !! k = Some w -> (j < 64)%nat -> wbit f ws (k * 64 + j) = Z.testbit (f w) (Z.of_nat j).
Proof. intros Hk Hj. unfold wbit. destruct (divmod64 k j Hj) as [-> ->]. by rewrite Hk. Qed.

Lemma wbit_out f ws i : (64 * length ws <= i)%nat -> wbit f ws i = false.
Proof.
  intros H. unfold wbit. rewrite lookup_ge_None_2; [done|].
  apply Nat.div_le_lower_bound; lia.
Qed.

Lemma least_below (P : nat -> bool) lo mid r :
  (lo <= mid)%nat -> (forall j, (lo <= j < mid)%nat -> P j = false) -> least P mid r -> least P lo r.
Proof.
  intros Hle Hb. destruct r as [c|]; simpl.
  - intros (Hc & Hp & Hn). split_and!; [lia|done|]. intros j Hj.
    destruct (Nat.lt_ge_cases j mid); [apply Hb | apply Hn]; lia.
  - intros Hn j Hj. destruct (Nat.lt_ge_cases j mid); [apply Hb | apply Hn]; lia.
Qed.

(** A word's bits decide a range of positions. *)
Lemma least_in_word f ws k w (lo : nat) :
  ws !! k = Some w -> (lo < 64)%nat ->
  (forall j, Z.of_nat lo <= j -> Z.testbit (f w) j = false) ->
  forall i, (k * 64 + lo <= i < S k * 64)%nat -> wbit f ws i = false.
Proof.
  intros Hk Hlo H i Hi. destruct (divmod64_of i k ltac:(lia)) as (j & -> & Hj).
  rewrite (wbit_at _ _ _ _ w) by done. apply H. lia.
Qed.

Lemma first_in_words_spec f ws k :
  (forall w, w ∈ ws -> is_u 64 (f w)) ->
  least (wbit f ws) (k * 64) (first_in_words f k (drop k ws)).
Proof.
  intros Hf. remember (drop k ws) as suf eqn:E. revert k E.
  induction suf as [|w suf IH]; intros k E; simpl.
  - intros j Hj. apply wbit_out. apply (f_equal length) in E. rewrite length_drop in E. simpl in E. lia.
  - assert (ws !! k = Some w) as Hk.
    { rewrite <- (Nat.add_0_r k), <- lookup_drop, <- E. done. }
    assert (suf = drop (S k) ws) as Hs.
    { replace (S k) with (k + 1)%nat by lia. by rewrite <- drop_drop, <- E. }
    pose proof (Hf w (list_elem_of_lookup_2 _ _ _ Hk)) as Hu.
    destruct (Z.eqb_spec (f w) 0) as [E0|E0].
    + eapply least_below; [| |by apply (IH (S k))]; [lia|].
      intros j Hj. eapply (least_in_word f ws k w 0); try done; try lia.
      intros. by rewrite E0, Z.bits_0.
    + unfold first_bit_in_block. destruct (Z.eqb_spec (f w) 0); [done|].
      destruct (ctz_spec (f w)) as (H0 & Ht & Hl); [unfold is_u in Hu; lia|].
      pose proof (testbit_true_u _ _ _ Hu Ht). split_and!; [lia| |].
      * rewrite (wbit_at _ _ _ _ w) by (done || lia). by rewrite Z2Nat.id.
      * intros i Hi. destruct (divmod64_of i k ltac:(lia)) as (j & -> & Hj).
        rewrite (wbit_at _ _ _ _ w) by done. apply Hl. lia.
Qed.

Lemma bit_to_pos_spec b :
  bit_to_pos b = ((b / 64)%nat, Z.of_nat (b mod 64)).
Proof.
  unfold bit_to_pos. f_equal. change (8 * 8 - 1) with (2 ^ 6 - 1).
  rewrite land_low, Nat2Z.inj_mod; done.
Qed.

Module DenseBitset.

Record dense_bitset := mk { array : list Z; len : nat }.
Definition arrlen (d : dense_bitset) : nat := length (array d).

Definition empty_bitset : dense_bitset := mk [] 0.

Definition fix_trailing_bits (d : dense_bitset) : option dense_bitset :=
  match fix_trailing (len d) (array d) with Some a => Some (mk a (len d)) | None => None end.

(** The words [realloc] adds are indeterminate until the final [fill]; they are
    taken as zero in between. *)
Definition resize (n : nat) (d : dense_bitset) : option dense_bitset :=
  let prev_arrlen := arrlen d in
  let arrlen' := words_for n in
  let d' := mk (list.resize arrlen' 0 (array d)) n in
  match fix_trailing_bits d' with
  | None => None
  | Some d' =>
      if (prev_arrlen <? arrlen')%nat then
        Some (mk (take prev_arrlen (array d') ++ replicate (arrlen' - prev_arrlen) 0) n)
      else Some d'
  end.

(** [dense_bitset(size)] *)
Definition new (size : nat) : option dense_bitset := resize size empty_bitset.

Definition clear (d : dense_bitset) : dense_bitset := mk (replicate (arrlen d) 0) (len d).

Definition empty (d : dense_bitset) : bool := forallb (fun w => w =? 0) (array d).

Definition fill (d : dense_bitset) : option dense_bitset :=
  fix_trailing_bits (mk (replicate (arrlen d) (u64 (-1))) (len d)).

Definition get (d : dense_bitset) (b : nat) : option bool :=
  let '(arrpos, bitpos) := bit_to_pos b in
  match array d !! arrpos with
  | None => None
  | Some w => Some (negb (Z.land w (u64 (Z.shiftl 1 bitpos)) =? 0))
  end.

(** A read-modify-write of the word of bit [b]: the tested mask and the new word *)
Definition update_word (f : Z -> Z -> Z) (d : dense_bitset) (b : nat)
    : option (bool * dense_bitset) :=
  let '(arrpos, bitpos) := bit_to_pos b in
  let mask := u64 (Z.shiftl 1 bitpos) in
  match array d !! arrpos with
  | None => None
  | Some w =>
      Some (negb (Z.land w mask =? 0), mk (<[arrpos := f w mask]> (array d)) (len d))
  end.

Definition set_bit (d : dense_bitset) (b : nat) : option (bool * dense_bitset) :=
  update_word (fun w mask => Z.lor w mask) d b.
Definition set_bit_unsync (d : dense_bitset) (b : nat) : option (bool * dense_bitset) :=
  update_word (fun w mask => Z.lor w mask) d b.
Definition xor_bit (d : dense_bitset) (b : nat) : option (bool * dense_bitset) :=
  update_word (fun w mask => Z.lxor w mask) d b.
Definition clear_bit (d : dense_bitset) (b : nat) : option (bool * dense_bitset) :=
  update_word (fun w mask => Z.land w (not64 mask)) d b.
Definition clear_bit_unsync (d : dense_bitset) (b : nat) : option (bool * dense_bitset) :=
  update_word (fun w mask => Z.land w (not64 mask)) d b.
Definition set (d : dense_bitset) (b : nat) (value : bool) : option (bool * dense_bitset) :=
  if value then set_bit d b else clear_bit d b.
Definition set_unsync (d : dense_bitset) (b : nat) (value : bool)
    : option (bool * dense_bitset) :=
  if value then set_bit_unsync d b else clear_bit_unsync d b.

Definition containing_word (d : dense_bitset) (b : nat) : option Z :=
  array d !! (bit_to_pos b).1.
Definition get_containing_word_and_zero (d : dense_bitset) (b : nat)
    : option (Z * dense_bitset) :=
  let arrpos := (bit_to_pos b).1 in
  match array d !! arrpos with
  | None => None
  | Some w => Some (w, mk (<[arrpos := 0]> (array d)) (len d))
  end.
Definition clear_word_unsync (d : dense_bitset) (b : nat) : option dense_bitset :=
  let arrpos := (bit_to_pos b).1 in
  match array d !! arrpos with
  | None => None
  | Some _ => Some (mk (<[arrpos := 0]> (array d)) (len d))
  end.

(** [first_bit(b)]: [Some b] for [true], [None] for [false] *)
Definition first_bit (d : dense_bitset) : option nat :=
  first_in_words (fun w => w) 0 (array d).
Definition first_zero_bit (d : dense_bitset) : option nat :=
  first_in_words not64 0 (array d).

(** The search after bit [b], over the words as [f] sees them.  The outer
    [None] is an access outside the array. *)
Definition next_in (f : Z -> Z) (d : dense_bitset) (b : nat) : option (option nat) :=
  let '(arrpos, bitpos) := bit_to_pos b in
  match array d !! arrpos with
  | None => None
  | Some w =>
      let bitpos := next_bit_in_block bitpos (f w) in
      if negb (bitpos =? 0) then Some (Some (arrpos * 64 + Z.to_nat bitpos)%nat)
      else Some (first_in_words f (arrpos + 1) (drop (arrpos + 1) (array d)))
  end.

Definition next_bit (d : dense_bitset) (b : nat) : option (option nat) :=
  next_in (fun w => w) d b.
Definition next_zero_bit (d : dense_bitset) (b : nat) : option (option nat) :=
  match next_in not64 d b with
  | None => None
  | Some None => Some None
  | Some (Some c) => if (c <? len d)%nat then Some (Some c) else Some None
  end.

Definition size (d : dense_bitset) : nat := len d.

(** [begin()] and [operator++] of [bit_pos_iterator]; [None] is [end()] *)
Definition iter_begin (d : dense_bitset) : option nat := first_bit d.
Definition iter_next (d : dense_bitset) (pos : nat) : option (option nat) := next_bit d pos.

(** [for (auto t: d)]: the positions visited, with fuel for the loop *)
Fixpoint iterate (d : dense_bitset) (fuel : nat) (pos : option nat) : option (list nat) :=
  match pos, fuel with
  | None, _ => Some []
  | Some _, O => None
  | Some p, S fuel =>
      match iter_next d p with
      | None => None
      | Some q => match iterate d fuel q with Some l => Some (p :: l) | None => None end
      end
  end.
Definition elements (d : dense_bitset) : option (list nat) :=
  iterate d (64 * arrlen d) (iter_begin d).

Definition popcount (d : dense_bitset) : Z :=
  fold_left (fun ret w => ret + Prelude.popcount w) (array d) 0.

(** [operator&], [operator|], [operator-]; a size mismatch fails the assertion.
    The result of the operators is a new bit set of the same size, that of the
    in-place versions overwrites the words of [d]. *)
Definition zip_words (f : Z -> Z -> Z) (d other : dense_bitset) : option dense_bitset :=
  if (size d =? size other)%nat then
    Some (mk (zip_with f (array d) (array other)) (len d))
  else None.
Definition op_and (d other : dense_bitset) : option dense_bitset := zip_words Z.land d other.
Definition op_or (d other : dense_bitset) : option dense_bitset := zip_words Z.lor d other.
Definition op_minus (d other : dense_bitset) : option dense_bitset :=
  zip_words (fun w v => u64 (w - Z.land w v)) d other.

Definition op_and_assign (d other : dense_bitset) : option dense_bitset := zip_words Z.land d other.
Definition op_or_assign (d other : dense_bitset) : option dense_bitset := zip_words Z.lor d other.
Definition op_minus_assign (d other : dense_bitset) : option dense_bitset :=
  zip_words (fun w v => u64 (w - Z.land w v)) d other.

(** [operator=]: resize, take the lengths of [db] and copy its words; a copy
    past the allocation is [None]. *)
Definition copy_assign (d db : dense_bitset) : option dense_bitset :=
  match resize (size db) d with
  | Some r => if (arrlen db <=? arrlen r)%nat then Some (mk (array db) (len db)) else None
  | None => None
  end.

Definition invert (d : dense_bitset) : option dense_bitset :=
  fix_trailing_bits (mk (map not64 (array d)) (len d)).

Definition save (d : dense_bitset) : writer :=
  size_save (len d) >>> size_save (arrlen d) >>>
  (if (0 <? arrlen d)%nat then write (concat (map (le_split 8) (array d))) else wnil).
Definition load : reader dense_bitset :=
  len <- size_load ;; arrlen <- size_load ;;
  if (0 <? arrlen)%nat then
    (b <- read (arrlen * 8) ;; rret (mk (pods_of_bytes 8 arrlen b) len))
  else rret (mk [] len).

(** [transfer_approximate_unsafe]: the state of its loop *)
Record transfer_state := mk_ts {
  ts_this : list Z; ts_other : list Z; ts_arrpos : nat; ts_transferred : Z
}.

(** One iteration; the boolean tells whether the loop is left by [break] *)
Definition transfer_step (initial_arrpos : nat) (s : transfer_state)
    : option (transfer_state * bool) :=
  match ts_other s !! ts_arrpos s, ts_this s !! ts_arrpos s with
  | Some ow, Some tw =>
      let '(this', other', tr) :=
        if 0 <? ow then
          (<[ts_arrpos s := Z.lor tw ow]> (ts_this s), <[ts_arrpos s := 0]> (ts_other s),
           ts_transferred s + Prelude.popcount ow)
        else (ts_this s, ts_other s, ts_transferred s) in
      let arrpos := S (ts_arrpos s) in
      if (length other' <=? arrpos)%nat then Some (mk_ts this' other' 0 tr, false)
      else Some (mk_ts this' other' arrpos tr, (arrpos =? initial_arrpos)%nat)
  | _, _ => None
  end.

(** [while(transferred < b)]; [None] when the fuel runs out or an access is
    outside the array *)
Fixpoint transfer_loop (fuel : nat) (initial_arrpos : nat) (b : Z) (s : transfer_state)
    : option transfer_state :=
  if ts_transferred s <? b then
    match fuel with
    | O => None
    | S fuel =>
        match transfer_step initial_arrpos s with
        | None => None
        | Some (s', true) => Some s'
        | Some (s', false) => transfer_loop fuel initial_arrpos b s'
        end
    end
  else Some s.

(** Returns (this, other, start, b). *)
Definition transfer_approximate_unsafe (fuel : nat) (d other : dense_bitset) (start : nat) (b : Z)
    : option (dense_bitset * dense_bitset * nat * Z) :=
  if negb ((len other =? len d)%nat && (arrlen other =? arrlen d)%nat) then None else
  let initial_arrpos := (bit_to_pos start).1 in
  let arrpos := if (arrlen d <=? initial_arrpos)%nat then 0%nat else initial_arrpos in
  match transfer_loop fuel initial_arrpos b (mk_ts (array d) (array other) arrpos 0) with
  | None => None
  | Some s =>
      Some (mk (ts_this s) (len d), mk (ts_other s) (len other),
            (8 * 8 * ts_arrpos s)%nat, ts_transferred s)
  end.

(** ** The abstract view and the invariant *)

Definition bit (d : dense_bitset) (i : nat) : bool := wbit (fun w => w) (array d) i.

Record wf (d : dense_bitset) : Prop := {
  wf_arrlen : arrlen d = words_for (len d);
  wf_words : Forall (is_u 64) (array d);
  wf_trailing : forall i, (len d <= i)%nat -> bit d i = false
}.

Lemma words_for_bounds n : (n <= 64 * words_for n < n + 64)%nat.
Proof.
  unfold words_for. pose proof (Nat.div_mod_eq n 64). pose proof (Nat.mod_upper_bound n 64).
  destruct (Nat.eqb_spec (n mod 64) 0); lia.
Qed.

Lemma in_array d b : wf d -> (b < len d)%nat -> exists w, array d !! (b / 64)%nat = Some w.
Proof.
  intros Hd Hb. apply lookup_lt_is_Some_2. pose proof (wf_arrlen d Hd) as Ha.
  unfold arrlen in Ha. rewrite Ha. pose proof (words_for_bounds (len d)).
  apply Nat.Div0.div_lt_upper_bound. lia.
Qed.

Lemma word_u d k w : wf d -> array d !! k = Some w -> is_u 64 w.
Proof. intros Hd Hk. eapply Forall_lookup_1; [apply wf_words, Hd | exact Hk]. Qed.

Lemma mod64_lt (b : nat) : (b mod 64 < 64)%nat.
Proof. apply Nat.mod_upper_bound. lia. Qed.

Lemma split64 (b : nat) : (b = b / 64 * 64 + b mod 64)%nat.
Proof. pose proof (Nat.div_mod_eq b 64). lia. Qed.

Lemma get_spec d b : wf d -> (b < len d)%nat -> get d b = Some (bit d b).
Proof.
  intros Hd Hb. destruct (in_array d b Hd Hb) as [w Hw]. unfold get, bit, wbit.
  rewrite bit_to_pos_spec, Hw. pose proof (mod64_lt b).
  rewrite mask64, land_pow2_test by lia. done.
Qed.

(** Every single-bit update is described by what it does to one bit. *)
Lemma update_word_spec (f : Z -> Z -> Z) (g : bool -> bool) d b :
  wf d -> (b < len d)%nat ->
  (forall w p, is_u 64 w -> 0 <= p < 64 -> is_u 64 (f w (2 ^ p)) /\
     forall j, 0 <= j -> Z.testbit (f w (2 ^ p)) j =
                         if j =? p then g (Z.testbit w p) else Z.testbit w j) ->
  exists d', update_word f d b = Some (bit d b, d') /\ wf d' /\ len d' = len d /\
    forall i, bit d' i = if (i =? b)%nat then g (bit d b) else bit d i.
Proof.
  intros Hd Hb Hf. destruct (in_array d b Hd Hb) as [w Hw]. pose proof (mod64_lt b) as Hm.
  unfold update_word. rewrite bit_to_pos_spec, Hw, mask64 by lia. eexists. split.
  { unfold bit, wbit. rewrite Hw, land_pow2_test by lia. done. }
  destruct (Hf w (Z.of_nat (b mod 64)) (word_u _ _ _ Hd Hw) ltac:(lia)) as [Hu Ht].
  set (v := f w _) in *.
  assert (forall i, bit (mk (<[(b / 64)%nat := v]> (array d)) (len d)) i =
                    if (i =? b)%nat then g (bit d b) else bit d i) as Hbit.
  { intros i. unfold bit, wbit; cbn [array]. rewrite Hw.
    destruct (Nat.eq_dec (i / 64)%nat (b / 64)%nat) as [E|E].
    - rewrite E, list_lookup_insert_eq by (apply lookup_lt_Some in Hw; lia).
      rewrite Ht by lia. pose proof (split64 i). pose proof (split64 b).
      destruct (Nat.eqb_spec i b) as [->|Hn].
      + by rewrite Z.eqb_refl.
      + rewrite E in *. destruct (Z.eqb_spec (Z.of_nat (i mod 64)) (Z.of_nat (b mod 64))); [lia|].
        by rewrite Hw.
    - rewrite list_lookup_insert_ne by done.
      destruct (Nat.eqb_spec i b) as [->|]; done. }
  split_and!; [|done|done]. split; simpl.
  - unfold arrlen; simpl. rewrite length_insert. apply Hd.
  - apply Forall_insert; [apply Hd|done].
  - intros i Hi. rewrite Hbit. destruct (Nat.eqb_spec i b); [lia|]. by apply wf_trailing.
Qed.

Lemma lor_bit w p : is_u 64 w -> 0 <= p < 64 -> is_u 64 (Z.lor w (2 ^ p)) /\
  forall j, 0 <= j -> Z.testbit (Z.lor w (2 ^ p)) j = if j =? p then true else Z.testbit w j.
Proof.
  intros Hw Hp.
  assert (forall j, 0 <= j -> Z.testbit (Z.lor w (2 ^ p)) j =
                              if j =? p then true else Z.testbit w j) as H.
  { intros j Hj. rewrite Z.lor_spec, Z.pow2_bits_eqb, Z.eqb_sym by lia.
    destruct (j =? p); [apply orb_true_r | apply orb_false_r]. }
  split; [|done]. apply is_u_testbit; [lia|apply Z.lor_nonneg; split; [apply Hw|apply Z.pow_nonneg; lia]|].
  intros j Hj. rewrite H by lia. destruct (Z.eqb_spec j p); [lia|]. by apply (testbit_u_high 64).
Qed.

Lemma lxor_bit w p : is_u 64 w -> 0 <= p < 64 -> is_u 64 (Z.lxor w (2 ^ p)) /\
  forall j, 0 <= j -> Z.testbit (Z.lxor w (2 ^ p)) j =
                      if j =? p then negb (Z.testbit w p) else Z.testbit w j.
Proof.
  intros Hw Hp.
  assert (forall j, 0 <= j -> Z.testbit (Z.lxor w (2 ^ p)) j =
             if j =? p then negb (Z.testbit w p) else Z.testbit w j) as H.
  { intros j Hj. rewrite Z.lxor_spec, Z.pow2_bits_eqb, Z.eqb_sym by lia.
    destruct (Z.eqb_spec j p) as [->|]; [apply xorb_true_r | apply xorb_false_r]. }
  split; [|done]. apply is_u_testbit; [lia| |].
  - apply Z.lxor_nonneg. pose proof (Z.pow_nonneg 2 p). unfold is_u in *. lia.
  - intros j Hj. rewrite H by lia. destruct (Z.eqb_spec j p); [lia|]. by apply (testbit_u_high 64).
Qed.

Lemma land_not_bit w p : is_u 64 w -> 0 <= p < 64 -> is_u 64 (Z.land w (not64 (2 ^ p))) /\
  forall j, 0 <= j -> Z.testbit (Z.land w (not64 (2 ^ p))) j =
                      if j =? p then false else Z.testbit w j.
Proof.
  intros Hw Hp.
  assert (forall j, 0 <= j -> Z.testbit (Z.land w (not64 (2 ^ p))) j =
             if j =? p then false else Z.testbit w j) as H.
  { intros j Hj. rewrite Z.land_spec, not64_spec, Z.pow2_bits_eqb, Z.eqb_sym by lia.
    destruct (Z.eqb_spec j p); simpl negb; [by rewrite !andb_false_r|].
    rewrite andb_true_r. destruct (Z.ltb_spec j 64); [apply andb_true_r|].
    by rewrite (testbit_u_high 64 w j Hw). }
  split; [|done]. apply is_u_testbit; [lia|apply Z.land_nonneg; left; apply Hw|].
  intros j Hj. rewrite H by lia. destruct (j =? p); [done|]. by apply (testbit_u_high 64).
Qed.

(** ** Searching and iterating *)

Lemma next_in_spec f d b :
  (forall w, w ∈ array d -> is_u 64 (f w)) -> (b < 64 * arrlen d)%nat ->
  exists r, next_in f d b = Some r /\ least (wbit f (array d)) (S b) r.
Proof.
  intros Hf Hb. unfold next_in. rewrite bit_to_pos_spec.
  destruct (lookup_lt_is_Some_2 (array d) (b / 64)%nat) as [w Hw].
  { unfold arrlen in Hb. apply Nat.Div0.div_lt_upper_bound. lia. }
  pose proof (mod64_lt b) as Hm. pose proof (split64 b) as Hs.
  rewrite Hw. pose proof (Hf w (list_elem_of_lookup_2 _ _ _ Hw)) as Hu.
  pose proof (next_bit_in_block_spec (Z.of_nat (b mod 64)) (f w) ltac:(lia) Hu) as Hn.
  cbv zeta in *. set (r := next_bit_in_block _ _) in *.
  destruct (Z.eqb_spec r 0) as [E|E]; simpl negb; cbv iota.
  - eexists. split; [done|].
    eapply (least_below _ _ ((b / 64 + 1) * 64)); [lia| |by apply first_in_words_spec].
    intros i Hi. destruct (divmod64_of i (b / 64) ltac:(lia)) as (j & -> & Hj).
    rewrite (wbit_at _ _ _ _ w) by done. apply Hn. lia.
  - eexists. split; [done|]. destruct Hn as (Hr & Ht & Hl). split_and!; [lia| |].
    + rewrite (wbit_at _ _ _ _ w) by (done || lia). by rewrite Z2Nat.id by lia.
    + intros i Hi. destruct (divmod64_of i (b / 64) ltac:(lia)) as (j & -> & Hj).
      rewrite (wbit_at _ _ _ _ w) by done. apply Hl. lia.
Qed.

Lemma words_elem d w : wf d -> w ∈ array d -> is_u 64 w.
Proof. intros Hd. by apply Forall_forall, wf_words. Qed.

Lemma filter_none (P : nat -> bool) lo n :
  (forall j, (lo <= j < lo + n)%nat -> P j = false) -> List.filter P (seq lo n) = [].
Proof.
  revert lo. induction n as [|n IH]; intros lo H; [done|]. simpl.
  rewrite H by lia. apply IH. intros. apply H. lia.
Qed.

Lemma filter_least (P : nat -> bool) lo n c :
  least P lo (Some c) -> (c < lo + n)%nat ->
  List.filter P (seq lo n) = c :: List.filter P (seq (S c) (lo + n - S c)).
Proof.
  intros (Hle & Hc & Hb) Hn. replace n with ((c - lo) + S (lo + n - S c))%nat at 1 by lia.
  rewrite seq_app, List.filter_app, filter_none by (intros; apply Hb; lia).
  replace (lo + (c - lo))%nat with c by lia. simpl. by rewrite Hc.
Qed.

Lemma iterate_spec d fuel lo pos :
  wf d -> least (bit d) lo pos -> (64 * arrlen d <= fuel + lo)%nat ->
  iterate d fuel pos = Some (List.filter (bit d) (seq lo (64 * arrlen d - lo))).
Proof.
  intros Hd. revert lo pos. induction fuel as [|fuel IH]; intros lo pos Hl Hf.
  - destruct pos as [c|]; simpl.
    + destruct Hl as (Hle & Hc & _). unfold bit in Hc. rewrite wbit_out in Hc; [done|].
      unfold arrlen in Hf. lia.
    + rewrite filter_none; [done|]. intros. apply Hl. lia.
  - destruct pos as [c|]; simpl iterate.
    2: { rewrite filter_none; [done|]. intros. apply Hl. lia. }
    assert (c < 64 * arrlen d)%nat as Hc.
    { destruct Hl as (_ & Hc & _). destruct (Nat.lt_ge_cases c (64 * arrlen d)); [done|].
      unfold bit in Hc. by rewrite wbit_out in Hc. }
    destruct (next_in_spec (fun w => w) d c) as (r & Hr & Hlr); [by intros; apply words_elem with d|done|].
    unfold iter_next, next_bit. rewrite Hr.
    pose proof Hl as (Hle & _). rewrite (IH (S c) r Hlr ltac:(lia)).
    rewrite (filter_least _ _ _ _ Hl) by lia. do 4 f_equal. lia.
Qed.

Lemma first_bit_spec d : wf d -> least (bit d) 0 (first_bit d).
Proof. intros Hd. apply (first_in_words_spec _ _ 0). intros. by apply words_elem with d. Qed.

(** ** Whole-array operations *)

Lemma wbit_lookup f ws i :
  wbit f ws i = from_option (fun w => Z.testbit (f w) (Z.of_nat (i mod 64))) false (ws !! (i / 64)%nat).
Proof. unfold wbit. by destruct (ws !! _). Qed.

Lemma lookup_in_range {A} (ws : list A) i :
  (exists w, ws !! (i / 64)%nat = Some w) <-> (i < 64 * length ws)%nat.
Proof.
  split; intros H.
  - destruct (Nat.lt_ge_cases i (64 * length ws)) as [|Hle]; [done|].
    pose proof (Nat.div_le_lower_bound i 64 (length ws) ltac:(lia) Hle).
    apply lookup_lt_is_Some_1 in H. lia.
  - apply lookup_lt_is_Some_2. apply Nat.Div0.div_lt_upper_bound. lia.
Qed.

Lemma fix_trailing_spec n ws :
  length ws = words_for n -> Forall (is_u 64) ws ->
  exists ws', fix_trailing n ws = Some ws' /\ length ws' = length ws /\ Forall (is_u 64) ws' /\
    forall i, wbit (fun w => w) ws' i = wbit (fun w => w) ws i && (i <? n)%nat.
Proof.
  intros Hlen Hu. unfold fix_trailing. pose proof (words_for_bounds n) as Hb. rewrite <- Hlen in Hb.
  destruct (Nat.eqb_spec (n mod 64) 0) as [E|E].
  - exists ws. split_and!; auto. intros i. destruct (Nat.ltb_spec i n); [by rewrite andb_true_r|].
    rewrite wbit_out; [done|]. unfold words_for in Hlen. rewrite E in Hlen. simpl in Hlen.
    pose proof (split64 n). lia.
  - assert (length ws = S (n / 64)) as HL.
    { unfold words_for in Hlen. destruct (Nat.eqb_spec (n mod 64) 0); lia. }
    replace (length ws - 1)%nat with (n / 64)%nat by lia.
    destruct (lookup_lt_is_Some_2 ws (n / 64)%nat) as [w Hw]; [lia|]. rewrite Hw.
    pose proof (mod64_lt n) as Hm. rewrite mask64, land_low by lia. eexists. split; [done|].
    pose proof (Forall_lookup_1 _ _ _ _ Hu Hw) as Hwu.
    assert (is_u 64 (w mod 2 ^ Z.of_nat (n mod 64))) as Hmu.
    { split; [apply Z.mod_pos_bound, Z.pow_pos_nonneg; lia|].
      eapply Z.le_lt_trans; [apply Z.mod_le; [apply Hwu|apply Z.pow_pos_nonneg; lia]|apply Hwu]. }
    split_and!; [apply length_insert | by apply Forall_insert |].
    intros i. rewrite !wbit_lookup. pose proof (split64 i). pose proof (split64 n).
    pose proof (mod64_lt i).
    destruct (Nat.eq_dec (i / 64)%nat (n / 64)%nat) as [Ei|Ei].
    + rewrite Ei, list_lookup_insert_eq, Hw by lia. cbn [from_option].
      assert ((i < n) <-> (i mod 64 < n mod 64))%nat by lia.
      destruct (Nat.ltb_spec i n).
      * rewrite Z.mod_pow2_bits_low by lia. by rewrite andb_true_r.
      * rewrite Z.mod_pow2_bits_high by lia. by rewrite andb_false_r.
    + rewrite list_lookup_insert_ne by done. destruct (Nat.ltb_spec i n); [by rewrite andb_true_r|].
      rewrite (lookup_ge_None_2 ws (i / 64)) by lia. done.
Qed.

(** The three bulk operations end with [fix_trailing_bits]. *)
Lemma fix_trailing_bits_spec ws n :
  length ws = words_for n -> Forall (is_u 64) ws ->
  exists d', fix_trailing_bits (mk ws n) = Some d' /\ wf d' /\ len d' = n /\
    forall i, bit d' i = wbit (fun w => w) ws i && (i <? n)%nat.
Proof.
  intros Hlen Hu. destruct (fix_trailing_spec n ws Hlen Hu) as (ws' & E & Hl & Hu' & Hb).
  unfold fix_trailing_bits; cbn [len array]. rewrite E. eexists. split_and!; [done| |done|exact Hb].
  split; [by unfold arrlen; cbn; rewrite Hl|done|].
  intros i Hi. unfold bit; cbn [array]. rewrite Hb. cbn [len] in Hi.
  destruct (Nat.ltb_spec i n); [lia|]. apply andb_false_r.
Qed.

Lemma wbit_replicate n v i :
  wbit (fun w => w) (replicate n v) i = (i <? 64 * n)%nat && Z.testbit v (Z.of_nat (i mod 64)).
Proof.
  unfold wbit. destruct (Nat.ltb_spec i (64 * n)) as [H|H].
  - rewrite lookup_replicate_2; [done|]. apply Nat.Div0.div_lt_upper_bound. lia.
  - rewrite (lookup_ge_None_2 (replicate n v)); [done|].
    rewrite length_replicate. apply Nat.div_le_lower_bound; lia.
Qed.

Lemma fill_spec d : wf d ->
  exists d', fill d = Some d' /\ wf d' /\ len d' = len d /\ forall i, bit d' i = (i <? len d)%nat.
Proof.
  intros Hd. unfold fill.
  destruct (fix_trailing_bits_spec (replicate (arrlen d) (u64 (-1))) (len d)) as (d' & E & Hw & Hl & Hb).
  - rewrite length_replicate. apply Hd.
  - apply Forall_replicate. apply wrap_range. lia.
  - exists d'. split_and!; auto. intros i. rewrite Hb, wbit_replicate.
    pose proof (words_for_bounds (len d)). rewrite <- (wf_arrlen d Hd) in *. pose proof (mod64_lt i).
    change (u64 (-1)) with (not64 0). rewrite not64_spec, Z.bits_0 by lia.
    destruct (Nat.ltb_spec i (len d)); [|by rewrite andb_false_r].
    destruct (Nat.ltb_spec i (64 * arrlen d)); [|lia].
    destruct (Z.ltb_spec (Z.of_nat (i mod 64)) 64); [done|lia].
Qed.

Lemma clear_spec d : wf d ->
  wf (clear d) /\ len (clear d) = len d /\ forall i, bit (clear d) i = false.
Proof.
  intros Hd. assert (forall i, bit (clear d) i = false) as Hb.
  { intros i. unfold bit, clear; cbn [array]. by rewrite wbit_replicate, Z.bits_0, andb_false_r. }
  split_and!; [|done|done]. split; [|by apply Forall_replicate|auto].
  unfold clear, arrlen; cbn. rewrite length_replicate. apply Hd.
Qed.

Lemma wbit_map g ws i :
  wbit (fun w => w) (map g ws) i = wbit g ws i.
Proof. unfold wbit. rewrite list_lookup_fmap. by destruct (ws !! _). Qed.

Lemma wbit_not64 ws i : wbit not64 ws i = (i <? 64 * length ws)%nat && negb (wbit (fun w => w) ws i).
Proof.
  rewrite !wbit_lookup. pose proof (mod64_lt i).
  destruct (Nat.ltb_spec i (64 * length ws)) as [H1|H1].
  - apply lookup_in_range in H1 as [w Hw]. rewrite Hw; cbn [from_option].
    rewrite not64_spec by lia. destruct (Z.ltb_spec (Z.of_nat (i mod 64)) 64); [done|lia].
  - rewrite lookup_ge_None_2; [done|]. apply Nat.div_le_lower_bound; lia.
Qed.

Lemma invert_spec d : wf d ->
  exists d', invert d = Some d' /\ wf d' /\ len d' = len d /\
    forall i, bit d' i = (i <? len d)%nat && negb (bit d i).
Proof.
  intros Hd. unfold invert.
  destruct (fix_trailing_bits_spec (map not64 (array d)) (len d)) as (d' & E & Hw & Hl & Hb).
  - rewrite length_map. apply Hd.
  - apply Forall_fmap, Forall_true. intros. apply not64_u.
  - exists d'. split_and!; auto. intros i. rewrite Hb, wbit_map, wbit_not64. fold (bit d i).
    pose proof (words_for_bounds (len d)). rewrite <- (wf_arrlen d Hd) in *. unfold arrlen in *.
    destruct (Nat.ltb_spec i (len d)); [|by rewrite andb_false_r].
    destruct (Nat.ltb_spec i (64 * length (array d))); [|lia]. by rewrite andb_true_r.
Qed.

Lemma zip_words_spec f g d other :
  wf d -> wf other -> len d = len other ->
  (forall w v, is_u 64 w -> is_u 64 v -> is_u 64 (f w v) /\
     forall j, 0 <= j -> Z.testbit (f w v) j = g (Z.testbit w j) (Z.testbit v j)) ->
  g false false = false ->
  exists d', zip_words f d other = Some d' /\ wf d' /\ len d' = len d /\
    forall i, bit d' i = g (bit d i) (bit other i).
Proof.
  intros Hd Ho El Hf Hg. unfold zip_words, size. rewrite El, Nat.eqb_refl. rewrite <- El.
  eexists. split; [done|].
  assert (length (array d) = length (array other)) as Hlen.
  { pose proof (wf_arrlen d Hd). pose proof (wf_arrlen other Ho). unfold arrlen in *. congruence. }
  assert (forall i, bit (mk (zip_with f (array d) (array other)) (len d)) i =
                    g (bit d i) (bit other i)) as Hb.
  { intros i. unfold bit; cbn [array]. rewrite !wbit_lookup, lookup_zip_with.
    destruct (array d !! (i / 64)%nat) as [w|] eqn:E1, (array other !! (i / 64)%nat) as [v|] eqn:E2.
    - cbn. apply (Hf w v); [by apply (word_u d (i / 64))|by apply (word_u other (i / 64))|lia].
    - apply lookup_lt_Some in E1. apply lookup_ge_None_1 in E2. lia.
    - apply lookup_lt_Some in E2. apply lookup_ge_None_1 in E1. lia.
    - done. }
  split_and!; [|done|done]. split.
  - unfold arrlen; cbn. rewrite length_zip_with_l_eq by done. apply Hd.
  - apply Forall_lookup_2. intros k w. cbn. rewrite lookup_zip_with_Some.
    intros (x & y & -> & Hx & Hy).
    apply Hf; [by apply (word_u d k)|by apply (word_u other k)].
  - intros i Hi. rewrite Hb, !wf_trailing; cbn in *; auto; lia.
Qed.

Lemma land_words w v : is_u 64 w -> is_u 64 v -> is_u 64 (Z.land w v) /\
  forall j, 0 <= j -> Z.testbit (Z.land w v) j = Z.testbit w j && Z.testbit v j.
Proof.
  intros Hw Hv. split; [|intros; apply Z.land_spec].
  apply is_u_testbit; [lia|apply Z.land_nonneg; left; apply Hw|].
  intros j Hj. by rewrite Z.land_spec, (testbit_u_high 64 w j).
Qed.

Lemma lor_words w v : is_u 64 w -> is_u 64 v -> is_u 64 (Z.lor w v) /\
  forall j, 0 <= j -> Z.testbit (Z.lor w v) j = Z.testbit w j || Z.testbit v j.
Proof.
  intros Hw Hv. split; [|intros; apply Z.lor_spec].
  apply is_u_testbit; [lia|apply Z.lor_nonneg; split; [apply Hw|apply Hv]|].
  intros j Hj. by rewrite Z.lor_spec, (testbit_u_high 64 w j), (testbit_u_high 64 v j).
Qed.

Lemma minus_words w v : is_u 64 w -> is_u 64 v -> is_u 64 (u64 (w - Z.land w v)) /\
  forall j, 0 <= j -> Z.testbit (u64 (w - Z.land w v)) j = Z.testbit w j && negb (Z.testbit v j).
Proof.
  intros Hw Hv. split; [apply wrap_range; lia|]. intros j Hj.
  rewrite Z.sub_nocarry_ldiff.
  - unfold wrap. destruct (Z.lt_ge_cases j 64).
    + rewrite Z.mod_pow2_bits_low, Z.ldiff_spec, Z.land_spec by lia.
      by destruct (Z.testbit w j), (Z.testbit v j).
    + rewrite Z.mod_pow2_bits_high by lia. by rewrite (testbit_u_high 64 w j).
  - apply Z.bits_inj'. intros i Hi. rewrite Z.ldiff_spec, Z.land_spec, Z.bits_0.
    by destruct (Z.testbit w i), (Z.testbit v i).
Qed.

Lemma wbit_app_zeros ws n i :
  wbit (fun w => w) (ws ++ replicate n 0) i = wbit (fun w => w) ws i.
Proof.
  rewrite !wbit_lookup. destruct (Nat.lt_ge_cases (i / 64) (length ws)) as [H|H].
  - by rewrite lookup_app_l.
  - rewrite lookup_app_r, (lookup_ge_None_2 ws (i / 64)) by done.
    destruct (replicate n 0 !! _) as [w|] eqn:E; [|done].
    apply lookup_replicate in E as [-> _]. apply Z.bits_0.
Qed.

Lemma wbit_take ws n i :
  (i < 64 * n)%nat -> wbit (fun w => w) (take n ws) i = wbit (fun w => w) ws i.
Proof.
  intros H. rewrite !wbit_lookup, lookup_take_lt; [done|]. apply Nat.Div0.div_lt_upper_bound. lia.
Qed.

Lemma insert_last_take {A} (ws : list A) k n v : (k <= n)%nat -> take k (<[n := v]> ws) = take k ws.
Proof. intros. apply take_insert_ge. lia. Qed.

(** Growing: the words [fix_trailing_bits] touches are cleared afterwards. *)
Lemma resize_grow d n : wf d -> (arrlen d < words_for n)%nat ->
  resize n d = Some (mk (array d ++ replicate (words_for n - arrlen d) 0) n).
Proof.
  intros Hd Hlt. unfold resize, fix_trailing_bits, fix_trailing. cbn [len array].
  unfold arrlen in *. rewrite list.resize_ge, length_app, length_replicate by lia.
  set (ws := array d ++ _).
  replace (length (array d) + (words_for n - length (array d)) - 1)%nat
    with (words_for n - 1)%nat by lia.
  assert (take (length (array d)) ws = array d) as Ht by apply take_app_length.
  destruct (Nat.ltb_spec (length (array d)) (words_for n)); [|lia].
  destruct (Nat.eqb_spec (n mod 64) 0); [cbn [array]; by rewrite Ht|].
  destruct (lookup_lt_is_Some_2 ws (words_for n - 1)%nat) as [w Hw].
  { unfold ws. rewrite length_app, length_replicate. lia. }
  rewrite Hw. cbn [array]. by rewrite insert_last_take, Ht by lia.
Qed.

Lemma resize_spec d n : wf d ->
  exists d', resize n d = Some d' /\ wf d' /\ len d' = n /\
    forall i, bit d' i = bit d i && (i <? n)%nat.
Proof.
  intros Hd. pose proof (words_for_bounds n) as Hn. pose proof (words_for_bounds (len d)) as Hl.
  pose proof (wf_arrlen d Hd) as Ha. unfold arrlen in Ha.
  destruct (Nat.lt_ge_cases (arrlen d) (words_for n)) as [H|H].
  - rewrite resize_grow by done. eexists. split; [done|].
    assert (forall i, (n <= i)%nat -> bit d i = false) as Hz.
    { intros i Hi. apply wbit_out. unfold arrlen in H. lia. }
    assert (forall i, bit (mk (array d ++ replicate (words_for n - arrlen d) 0) n) i =
                      bit d i && (i <? n)%nat) as Hb.
    { intros i. unfold bit; cbn [array]. rewrite wbit_app_zeros.
      destruct (Nat.ltb_spec i n); [by rewrite andb_true_r|]. rewrite andb_false_r. by apply Hz. }
    split_and!; [|done|done]. split.
    + unfold arrlen in *; cbn [array len]. rewrite length_app, length_replicate. lia.
    + cbn. apply Forall_app_2; [apply Hd | by apply Forall_replicate].
    + intros i Hi. rewrite Hb. cbn in Hi. by rewrite Hz.
  - unfold resize. unfold arrlen in *. rewrite list.resize_le by done.
    destruct (fix_trailing_bits_spec (take (words_for n) (array d)) n) as (d' & E & Hw & Hlen & Hb).
    + rewrite length_take. lia.
    + apply Forall_take, Hd.
    + rewrite E. destruct (Nat.ltb_spec (length (array d)) (words_for n)); [lia|].
      exists d'. split_and!; auto. intros i. rewrite Hb.
      destruct (Nat.ltb_spec i n); [|by rewrite !andb_false_r].
      by rewrite wbit_take by lia.
Qed.

Lemma wf_empty_bitset : wf empty_bitset.
Proof. split; [done|constructor|]. intros. by apply wbit_out. Qed.

Lemma clear_word_spec d b : wf d -> (b < len d)%nat ->
  exists d', clear_word_unsync d b = Some d' /\ wf d' /\ len d' = len d /\
    forall i, bit d' i = bit d i && negb (i / 64 =? b / 64)%nat.
Proof.
  intros Hd Hb. destruct (in_array d b Hd Hb) as [w Hw].
  unfold clear_word_unsync. rewrite bit_to_pos_spec; cbn [fst]. rewrite Hw.
  eexists. split; [done|].
  assert (forall i, bit (mk (<[(b / 64)%nat := 0]> (array d)) (len d)) i =
                    bit d i && negb (i / 64 =? b / 64)%nat) as Hbit.
  { intros i. unfold bit; cbn [array]. rewrite !wbit_lookup.
    destruct (Nat.eqb_spec (i / 64) (b / 64)) as [->|E].
    - rewrite list_lookup_insert_eq by (apply lookup_lt_Some in Hw; lia). cbn [from_option].
      by rewrite Z.bits_0, andb_false_r.
    - rewrite list_lookup_insert_ne by done. by rewrite andb_true_r. }
  split_and!; [|done|done]. split.
  - unfold arrlen; cbn [array]. rewrite length_insert. apply Hd.
  - apply Forall_insert; [apply Hd|done].
  - intros i Hi. rewrite Hbit, wf_trailing; done.
Qed.

(** ** Counting *)

Lemma popcount_half z : 0 <= z -> Prelude.popcount z = Z.b2z (Z.odd z) + Prelude.popcount (Z.div2 z).
Proof. intros Hz. destruct z as [|[p|p|]|p]; try done. Qed.

Lemma filter_seq_shift (P : nat -> bool) n lo :
  length (List.filter P (seq (S lo) n)) = length (List.filter (fun i => P (S i)) (seq lo n)).
Proof.
  revert lo. induction n as [|n IH]; intros lo; [done|]. cbn.
  destruct (P (S lo)); cbn; by rewrite IH.
Qed.

Lemma popcount_word n w : is_u (Z.of_nat n) w ->
  Prelude.popcount w =
    Z.of_nat (length (List.filter (fun i => Z.testbit w (Z.of_nat i)) (seq 0 n))).
Proof.
  revert w. induction n as [|n IH]; intros w Hw.
  - assert (w = 0) as -> by (unfold is_u in Hw; simpl in Hw; lia). done.
  - rewrite popcount_half by apply Hw. rewrite IH.
    + cbn [seq List.filter]. rewrite Nat2Z.inj_0, Z.bit0_odd.
      assert (length (List.filter (fun i => Z.testbit w (Z.of_nat i)) (seq 1 n)) =
              length (List.filter (fun i => Z.testbit (Z.div2 w) (Z.of_nat i)) (seq 0 n))) as E.
      { rewrite filter_seq_shift. f_equal. apply List.filter_ext. intros i.
        rewrite Z.div2_spec, Z.shiftr_spec by lia. f_equal. lia. }
      destruct (Z.odd w); cbn [length Z.b2z]; rewrite E; lia.
    + unfold is_u in *. rewrite Z.div2_div. rewrite Nat2Z.inj_succ, Z.pow_succ_r in Hw by lia. dlia.
Qed.

Definition words_pop (ws : list Z) : Z := foldr (fun w r => Prelude.popcount w + r) 0 ws.

Lemma popcount_sum d : popcount d = words_pop (array d).
Proof.
  unfold popcount. assert (forall ws a, fold_left (fun ret w => ret + Prelude.popcount w) ws a =
                                       a + words_pop ws) as H.
  { induction ws as [|w ws IH]; intros a; cbn; [lia|]. rewrite IH. unfold words_pop. lia. }
  by rewrite H.
Qed.

Lemma words_pop_count ws : Forall (is_u 64) ws ->
  words_pop ws =
    Z.of_nat (length (List.filter (wbit (fun w => w) ws) (seq 0 (64 * length ws)))).
Proof.
  induction 1 as [|w ws Hw Hws IH]; [done|].
  change (words_pop (w :: ws)) with (Prelude.popcount w + words_pop ws).
  rewrite IH, (popcount_word 64) by done.
  replace (64 * length (w :: ws))%nat with (64 + 64 * length ws)%nat by (cbn [length]; lia).
  rewrite seq_app, List.filter_app, length_app, Nat2Z.inj_add.
  apply (f_equal2 Z.add); apply (f_equal Z.of_nat).
  - apply (f_equal length), List.filter_ext_in. intros i Hi. apply in_seq in Hi.
    symmetry. apply (wbit_at (fun w => w) (w :: ws) 0 i w); [done|lia].
  - rewrite (Nat.add_comm 0 64).
    assert (forall k (P : nat -> bool) n lo, length (List.filter P (seq (k + lo) n)) =
              length (List.filter (fun i => P (k + i)%nat) (seq lo n))) as Hs.
    { induction k as [|k IHk]; intros; [done|]. rewrite Nat.add_succ_l, filter_seq_shift.
      by rewrite (IHk (fun i => P (S i))). }
    rewrite Hs. apply (f_equal length), List.filter_ext. intros i. rewrite !wbit_lookup.
    replace (64 + i)%nat with (i + 1 * 64)%nat by lia.
    rewrite Nat.div_add, Nat.Div0.mod_add by lia. by rewrite Nat.add_1_r.
Qed.

Lemma filter_bits d : wf d ->
  List.filter (bit d) (seq 0 (64 * arrlen d)) = List.filter (bit d) (seq 0 (len d)).
Proof.
  intros Hd. pose proof (words_for_bounds (len d)) as Hb. rewrite <- (wf_arrlen d Hd) in Hb.
  replace (64 * arrlen d)%nat with (len d + (64 * arrlen d - len d))%nat by lia.
  rewrite seq_app, List.filter_app, (filter_none _ (0 + len d)), app_nil_r; [done|].
  intros j Hj. apply wf_trailing; [done|lia].
Qed.

(** ** Refinement of the abstract bit set

    The abstract state is a length and a predicate on positions.  [op] lists the
    mutating operations, [exec] runs them, and the [spec_] functions say what
    each does to the abstract state and what it returns. *)

Inductive op :=
| OSet (b : nat) (value : bool) | OSetUnsync (b : nat) (value : bool) | OXor (b : nat)
| OClear | OFill | OInvert | OResize (n : nat) | OClearWord (b : nat)
| OAnd (other : dense_bitset) | OOr (other : dense_bitset) | OMinus (other : dense_bitset)
| OAndEq (other : dense_bitset) | OOrEq (other : dense_bitset) | OMinusEq (other : dense_bitset)
| OAssign (other : dense_bitset).

Definition void (r : option dense_bitset) : option (bool * dense_bitset) :=
  match r with Some d => Some (false, d) | None => None end.

Definition exec (o : op) (d : dense_bitset) : option (bool * dense_bitset) :=
  match o with
  | OSet b v => set d b v
  | OSetUnsync b v => set_unsync d b v
  | OXor b => xor_bit d b
  | OClear => void (Some (clear d))
  | OFill => void (fill d)
  | OInvert => void (invert d)
  | OResize n => void (resize n d)
  | OClearWord b => void (clear_word_unsync d b)
  | OAnd other => void (op_and d other)
  | OOr other => void (op_or d other)
  | OMinus other => void (op_minus d other)
  | OAndEq other => void (op_and_assign d other)
  | OOrEq other => void (op_or_assign d other)
  | OMinusEq other => void (op_minus_assign d other)
  | OAssign other => void (copy_assign d other)
  end.

Definition spec_ret (o : op) (S : nat -> bool) : bool :=
  match o with OSet b _ | OSetUnsync b _ | OXor b => S b | _ => false end.

Definition spec_len (o : op) (n : nat) : nat := match o with OResize m => m | OAssign other => len other | _ => n end.

Definition spec_bit (o : op) (n : nat) (S : nat -> bool) (i : nat) : bool :=
  match o with
  | OSet b v | OSetUnsync b v => if (i =? b)%nat then v else S i
  | OXor b => if (i =? b)%nat then negb (S b) else S i
  | OClear => false
  | OFill => (i <? n)%nat
  | OInvert => (i <? n)%nat && negb (S i)
  | OResize m => S i && (i <? m)%nat
  | OClearWord b => S i && negb (i / 64 =? b / 64)%nat
  | OAnd other | OAndEq other => S i && bit other i
  | OOr other | OOrEq other => S i || bit other i
  | OMinus other | OMinusEq other => S i && negb (bit other i)
  | OAssign other => bit other i
  end.

Definition valid (o : op) (n : nat) : Prop :=
  match o with
  | OSet b _ | OSetUnsync b _ | OXor b | OClearWord b => (b < n)%nat
  | OAnd other | OOr other | OMinus other
  | OAndEq other | OOrEq other | OMinusEq other => wf other /\ n = len other
  | OAssign other => wf other
  | _ => True
  end.

Lemma copy_assign_spec d db : wf d -> wf db -> copy_assign d db = Some db.
Proof.
  intros Hd Hb. unfold copy_assign, size.
  destruct (resize_spec d (len db) Hd) as (r & -> & Hr & El & _).
  rewrite (wf_arrlen _ Hr), El, (wf_arrlen _ Hb), Nat.leb_refl. by destruct db.
Qed.

Lemma exec_refines o d : wf d -> valid o (len d) ->
  exists d', exec o d = Some (spec_ret o (bit d), d') /\ wf d' /\
    len d' = spec_len o (len d) /\ forall i, bit d' i = spec_bit o (len d) (bit d) i.
Proof.
  intros Hd Hv. destruct o as [b [] | b [] | b | | | | n | b | t | t | t | t | t | t | t];
    cbn [exec spec_ret spec_len spec_bit valid] in *.
  1, 3: apply (update_word_spec _ (fun _ => true)); auto using lor_bit.
  1, 2: apply (update_word_spec _ (fun _ => false)); auto using land_not_bit.
  { apply (update_word_spec _ negb); auto using lxor_bit. }
  { exists (clear d). split; [done|]. by apply clear_spec. }
  { destruct (fill_spec d Hd) as (d' & -> & H). by exists d'. }
  { destruct (invert_spec d Hd) as (d' & -> & H). by exists d'. }
  { destruct (resize_spec d n Hd) as (d' & -> & H). by exists d'. }
  { destruct (clear_word_spec d b Hd Hv) as (d' & -> & H). by exists d'. }
  7: { rewrite copy_assign_spec by done. by exists t. }
  all: destruct Hv as [Ht Hl];
    unfold op_and, op_or, op_minus, op_and_assign, op_or_assign, op_minus_assign.
  1, 4: destruct (zip_words_spec Z.land andb d t) as (d' & -> & H);
    auto using land_words; by exists d'.
  1, 3: destruct (zip_words_spec Z.lor orb d t) as (d' & -> & H); auto using lor_words; by exists d'.
  all: destruct (zip_words_spec (fun w v => u64 (w - Z.land w v)) (fun x y => x && negb y) d t)
      as (d' & -> & H); auto using minus_words; by exists d'.
Qed.

(** A sequence of operations, with the values they return *)
Fixpoint exec_all (os : list op) (d : dense_bitset) : option (list bool * dense_bitset) :=
  match os with
  | [] => Some ([], d)
  | o :: os =>
      match exec o d with
      | Some (r, d) => match exec_all os d with Some (rs, d) => Some (r :: rs, d) | None => None end
      | None => None
      end
  end.

Fixpoint spec_all (os : list op) (n : nat) (S : nat -> bool) : list bool * nat * (nat -> bool) :=
  match os with
  | [] => ([], n, S)
  | o :: os =>
      let '(rs, n', S') := spec_all os (spec_len o n) (spec_bit o n S) in
      (spec_ret o S :: rs, n', S')
  end.

Fixpoint valid_all (os : list op) (n : nat) : Prop :=
  match os with [] => True | o :: os => valid o n /\ valid_all os (spec_len o n) end.

Lemma spec_bit_ext o n S S' i : (forall i, S i = S' i) -> spec_bit o n S i = spec_bit o n S' i.
Proof. intros H. destruct o; cbn; by rewrite ?H. Qed.

Lemma spec_all_ext os n S S' : (forall i, S i = S' i) ->
  (spec_all os n S).1 = (spec_all os n S').1 /\
  forall i, (spec_all os n S).2 i = (spec_all os n S').2 i.
Proof.
  revert n S S'. induction os as [|o os IH]; intros n S S' H; [done|]. cbn.
  destruct (IH (spec_len o n) (spec_bit o n S) (spec_bit o n S')) as [H1 H2].
  { intros. by apply spec_bit_ext. }
  destruct (spec_all os _ (spec_bit o n S)) as [[??]?], (spec_all os _ (spec_bit o n S')) as [[??]?].
  cbn in *. split; [|done]. simplify_eq. do 2 f_equal. destruct o; cbn; by rewrite ?H.
Qed.

(** C30. Starting from a well-formed bit set, any sequence of valid operations
    (set, clear, xor, fill, invert, resize, word clear, the three binary
    operators, their in-place versions and assignment) succeeds, keeps the representation invariant, returns the old
    bit values that the abstract set of positions predicts, and ends in a
    representation of the abstract set that the operations denote. *)
Theorem dense_bitset_refines os d : wf d -> valid_all os (len d) ->
  exists rs d', exec_all os d = Some (rs, d') /\ wf d' /\
    (rs, len d') = (spec_all os (len d) (bit d)).1 /\
    forall i, bit d' i = (spec_all os (len d) (bit d)).2 i.
Proof.
  revert d. induction os as [|o os IH]; intros d Hd Hv; [by exists [], d|].
  destruct Hv as [Hv Hvs]. destruct (exec_refines o d Hd Hv) as (d1 & E1 & Hd1 & Hl1 & Hb1).
  rewrite <- Hl1 in Hvs. destruct (IH d1 Hd1 Hvs) as (rs & d2 & E2 & Hd2 & Hr2 & Hb2).
  destruct (spec_all_ext os (len d1) _ _ Hb1) as [Hx1 Hx2].
  cbn. rewrite E1, E2. eexists _, d2. split; [done|]. split; [done|].
  rewrite <- Hl1. destruct (spec_all os (len d1) (spec_bit o (len d) (bit d))) as [[rs' n'] S'].
  cbn in *. rewrite Hx1 in Hr2. simplify_eq. split; [done|]. intros i. by rewrite Hb2, Hx2.
Qed.

Lemma dense_bitset_refines_witness :
  exists rs d', exec_all [OResize 70; OFill; OSet 69 false; OXor 3; OInvert] empty_bitset =
                Some (rs, d') /\ wf d' /\ elements d' = Some [3; 69]%nat.
Proof.
  destruct (dense_bitset_refines [OResize 70; OFill; OSet 69 false; OXor 3; OInvert] empty_bitset)
    as (rs & d' & E & Hw & _); [apply wf_empty_bitset | cbn; lia |].
  exists rs, d'. split_and!; [done..|]. vm_compute in E. injection E as <- <-. by vm_compute.
Defined.

Lemma iteration_spec d : wf d ->
  let bits := List.filter (bit d) (seq 0 (len d)) in
  elements d = Some bits /\ popcount d = Z.of_nat (length bits) /\
  (empty d = true <-> bits = []).
Proof.
  intros Hd bits. unfold bits. rewrite <- filter_bits by done.
  assert (popcount d = Z.of_nat (length (List.filter (bit d) (seq 0 (64 * arrlen d))))) as Hp.
  { rewrite popcount_sum. apply words_pop_count, wf_words, Hd. }
  split_and!; [|done|].
  - unfold elements, iter_begin. rewrite (iterate_spec d _ 0); [by rewrite Nat.sub_0_r|done| |lia].
    by apply first_bit_spec.
  - pose proof (first_bit_spec d Hd) as Hf. unfold first_bit in Hf.
    assert (empty d = true <-> first_in_words (fun w => w) 0 (array d) = None) as ->.
    { clear Hf. unfold empty. generalize 0%nat. induction (array d) as [|w ws IH]; intros k; [done|].
      cbn. destruct (Z.eqb_spec w 0); [exact (IH (S k)) | done]. }
    destruct (first_in_words _ 0 (array d)) as [c|].
    + split; [done|]. intros E.
      assert (c < 64 * arrlen d)%nat.
      { destruct Hf as (_ & Hc & _). destruct (Nat.lt_ge_cases c (64 * arrlen d)); [done|].
        unfold bit in Hc. by rewrite wbit_out in Hc. }
      rewrite (filter_least _ _ _ _ Hf) in E by lia. done.
    + split; [|done]. intros _. apply filter_none. intros. apply Hf. lia.
Qed.

(** C32. Iterating over a well-formed bit set ([begin], [operator++], [end])
    terminates and visits exactly the positions of the set bits, in increasing
    order, and [popcount] is their number; [empty] tells whether there are none. *)
Theorem dense_bitset_iteration d : wf d ->
  let bits := List.filter (bit d) (seq 0 (len d)) in
  elements d = Some bits /\ popcount d = Z.of_nat (length bits) /\
  (empty d = true <-> bits = []).
Proof. apply iteration_spec. Qed.

Lemma dense_bitset_iteration_witness :
  elements (mk [5; 2 ^ 63] 128) = Some [0; 2; 127]%nat /\ popcount (mk [5; 2 ^ 63] 128) = 3.
Proof.
  assert (wf (mk [5; 2 ^ 63] 128)) as Hw.
  { split; [done|by repeat constructor|]. intros i Hi. by apply wbit_out. }
  destruct (dense_bitset_iteration _ Hw) as (H1 & H2 & _).
  split; [etransitivity; [exact H1|] | etransitivity; [exact H2|]]; by vm_compute.
Defined.

(** [next_zero_bit] from a position inside the set finds the least clear
    position after it that is below the length, if there is one. *)
Theorem next_zero_bit_correct d b : wf d -> (b < len d)%nat ->
  exists r, next_zero_bit d b = Some r /\
    least (fun i => (i <? len d)%nat && negb (bit d i)) (S b) r.
Proof.
  intros Hd Hb. pose proof (words_for_bounds (len d)) as Hw. rewrite <- (wf_arrlen d Hd) in Hw.
  destruct (next_in_spec not64 d b) as (r & Hr & Hl); [intros; apply not64_u|lia|].
  unfold next_zero_bit. rewrite Hr.
  assert (forall i, (i < len d)%nat -> wbit not64 (array d) i = negb (bit d i)) as Hn.
  { intros i Hi. rewrite wbit_not64. fold (bit d i). unfold arrlen in Hw.
    destruct (Nat.ltb_spec i (64 * length (array d))); [done|lia]. }
  assert (forall i, (i < len d)%nat -> wbit not64 (array d) i = false ->
                    (i <? len d)%nat && negb (bit d i) = false) as Hf.
  { intros i Hi E. rewrite Hn in E by done. rewrite E. apply andb_false_r. }
  destruct r as [c|]; [destruct (Nat.ltb_spec c (len d)) as [Hc|Hc]|]; eexists; (split; [done|]).
  - destruct Hl as (Hle & Ht & Hj). split_and!; [done| |].
    + rewrite Hn in Ht by done. rewrite Ht. by destruct (Nat.ltb_spec c (len d)); [|lia].
    + intros j Hjc. apply Hf; [lia|]. by apply Hj.
  - intros j Hj. destruct (Nat.lt_ge_cases j (len d)) as [Hlt|Hge].
    + apply Hf; [done|]. apply Hl. lia.
    + by destruct (Nat.ltb_spec j (len d)); [lia|].
  - intros j Hj. destruct (Nat.lt_ge_cases j (len d)) as [Hlt|Hge].
    + apply Hf; [done|]. by apply Hl.
    + by destruct (Nat.ltb_spec j (len d)); [lia|].
Qed.

(** ** Serialization *)

Lemma save_codec d : wf d -> fits_size (len d) -> codec save load d.
Proof.
  intros Hd Hn. pose proof (words_for_bounds (len d)) as Hb. pose proof (wf_arrlen d Hd) as Ha.
  assert (fits_size (arrlen d)) as Han by (unfold fits_size in *; lia).
  unfold codec, save, load. destruct (Nat.ltb_spec 0 (arrlen d)) as [H|H].
  - eexists. split; [repeat apply emits_seq; [apply emits_size..|apply emits_write]|].
    eapply parses_bind; [by apply parses_size|]. eapply parses_bind; [by apply parses_size|].
    cbv beta. destruct (Nat.ltb_spec 0 (arrlen d)); [|lia]. eapply parses_bind_nil.
    + apply parses_read_n. rewrite length_concat_le_split. unfold arrlen. lia.
    + cbv beta. unfold arrlen. rewrite (pods_of_bytes_concat 8 (array d)) by apply Hd.
      destruct d. apply parses_ret.
  - eexists. split; [repeat apply emits_seq; [apply emits_size..|apply emits_nil]|].
    eapply parses_bind; [by apply parses_size|]. eapply parses_bind; [by apply parses_size|].
    cbv beta. destruct (Nat.ltb_spec 0 (arrlen d)); [lia|].
    assert (array d = []) as E by (apply nil_length_inv; unfold arrlen in *; lia).
    destruct d as [a n]; cbn in *. subst a. apply parses_ret.
Qed.

(** A well-formed bit set that is saved to a fresh archive and loaded back
    is unchanged, whatever follows it in the archive. *)
Theorem dense_bitset_save_load d rest : wf d -> fits_size (len d) ->
  exists bs, to_bytes save d = Some bs /\ of_bytes load (bs ++ rest) = Some d.
Proof. intros. by apply codec_roundtrip, save_codec. Qed.

(** ** Transfer between bit sets *)

Lemma pos_popcount_pos p : 0 < pos_popcount p.
Proof. induction p; cbn; lia. Qed.

Lemma words_pop_nonneg ws : 0 <= words_pop ws.
Proof.
  induction ws as [|w ws IH]; [done|]. cbn. fold (words_pop ws).
  destruct w as [|p|p]; cbn; try lia. pose proof (pos_popcount_pos p). lia.
Qed.

Lemma words_pop_zero ws k w : ws !! k = Some w ->
  words_pop (<[k := 0]> ws) + Prelude.popcount w = words_pop ws.
Proof.
  assert (forall v l, words_pop (v :: l) = Prelude.popcount v + words_pop l) as Hc by done.
  revert k. induction ws as [|v ws IH]; intros [|k] H; [done..| |].
  - injection H as ->. change (<[0%nat := 0]> (w :: ws)) with (0 :: ws). rewrite !Hc.
    change (Prelude.popcount 0) with 0. lia.
  - change (<[S k := 0]> (v :: ws)) with (v :: <[k := 0]> ws). rewrite !Hc.
    specialize (IH k H). lia.
Qed.

(** What the loop keeps: the transferred count is what [other] has lost, and
    every bit is in the same union as before. *)
Record transfer_inv (this0 other0 : list Z) (s : transfer_state) : Prop := {
  ti_len : length (ts_this s) = length this0 /\ length (ts_other s) = length other0;
  ti_words : Forall (is_u 64) (ts_this s) /\ Forall (is_u 64) (ts_other s);
  ti_pos : (ts_arrpos s < length other0)%nat;
  ti_count : ts_transferred s + words_pop (ts_other s) = words_pop other0;
  ti_bits : forall i,
    wbit (fun w => w) (ts_this s) i =
      wbit (fun w => w) this0 i ||
      (wbit (fun w => w) other0 i && negb (wbit (fun w => w) (ts_other s) i)) /\
    (wbit (fun w => w) (ts_other s) i = true -> wbit (fun w => w) other0 i = true)
}.

Lemma transfer_step_inv this0 other0 k s :
  length this0 = length other0 -> transfer_inv this0 other0 s ->
  exists s' stop, transfer_step k s = Some (s', stop) /\ transfer_inv this0 other0 s' /\
    (k = 0%nat -> stop = false).
Proof.
  intros Hlen [[Hl1 Hl2] [Hw1 Hw2] Hpos Hcnt Hbits]. unfold transfer_step.
  destruct (lookup_lt_is_Some_2 (ts_other s) (ts_arrpos s)) as [ow Ho]; [lia|].
  destruct (lookup_lt_is_Some_2 (ts_this s) (ts_arrpos s)) as [tw Ht]; [lia|]. rewrite Ho, Ht.
  pose proof (Forall_lookup_1 _ _ _ _ Hw2 Ho) as Hou. pose proof (Forall_lookup_1 _ _ _ _ Hw1 Ht) as Htu.
  assert (exists t' o' c,
    (if 0 <? ow then (<[ts_arrpos s := Z.lor tw ow]> (ts_this s), <[ts_arrpos s := 0]> (ts_other s),
                      ts_transferred s + Prelude.popcount ow)
     else (ts_this s, ts_other s, ts_transferred s)) = (t', o', c) /\
    forall p, (p < length other0)%nat -> transfer_inv this0 other0 (mk_ts t' o' p c))
    as (t' & o' & c & -> & Hinv).
  { destruct (Z.ltb_spec 0 ow) as [Hpos'|Hz]; eexists _, _, _; (split; [done|]); intros p Hp.
    2: by split.
    split; cbn [ts_this ts_other ts_arrpos ts_transferred]; rewrite ?length_insert; auto.
    - destruct (lor_words tw ow Htu Hou). split; by apply Forall_insert.
    - pose proof (words_pop_zero _ _ _ Ho). lia.
    - intros i. specialize (Hbits i). rewrite !wbit_lookup in *.
      destruct (Nat.eq_dec (i / 64)%nat (ts_arrpos s)) as [E|E].
      + rewrite E in *. rewrite !list_lookup_insert_eq by lia. rewrite Ho, Ht in Hbits.
        cbn [from_option] in *. rewrite Z.lor_spec, Z.bits_0. destruct Hbits as [-> Hsub].
        destruct (Z.testbit ow _); [rewrite Hsub by done|]; by rewrite ?orb_true_r, ?orb_false_r, ?andb_true_r.
      + by rewrite !list_lookup_insert_ne. }
  destruct (Nat.leb_spec (length o') (S (ts_arrpos s))) as [H|H].
  - exists (mk_ts t' o' 0 c), false. split_and!; [done| |done]. apply Hinv. lia.
  - eexists _, _. split_and!; [done| |by intros ->]. apply Hinv.
    destruct (Hinv 0%nat) as [[_ Hlo]]; [lia|]. cbn in Hlo. lia.
Qed.

Lemma transfer_loop_inv this0 other0 fuel k b s s' :
  length this0 = length other0 -> transfer_inv this0 other0 s ->
  transfer_loop fuel k b s = Some s' -> transfer_inv this0 other0 s'.
Proof.
  intros Hlen. revert s. induction fuel as [|fuel IH]; intros s Hs; cbn;
    destruct (Z.ltb_spec (ts_transferred s) b); try congruence.
  destruct (transfer_step_inv this0 other0 k s Hlen Hs) as (s1 & [] & -> & Hs1 & _); [congruence|].
  by apply IH.
Qed.

Lemma transfer_inv_init d other p : wf d -> wf other -> arrlen d = arrlen other ->
  (p < arrlen other)%nat -> transfer_inv (array d) (array other) (mk_ts (array d) (array other) p 0).
Proof.
  intros Hd Ho Ha Hp.
  split; cbn [ts_this ts_other ts_arrpos ts_transferred]; auto using wf_words.
  intros i. split; [|done]. rewrite andb_negb_r. by rewrite orb_false_r.
Qed.

(** When [transfer_approximate_unsafe] returns, nothing is lost and nothing
    is made up: the destination has gained exactly the bits the source has lost,
    the reported count is the number of bits moved, and the new start is a word
    boundary inside the set. *)
Theorem transfer_moves_bits fuel d other start b d' other' start' b' :
  wf d -> wf other -> (0 < len d)%nat ->
  transfer_approximate_unsafe fuel d other start b = Some (d', other', start', b') ->
  (forall i, bit d' i = bit d i || (bit other i && negb (bit other' i))) /\
  (forall i, bit other' i = true -> bit other i = true) /\
  b' = popcount other - popcount other' /\ (start' < 64 * arrlen d)%nat.
Proof.
  intros Hd Ho Hpos. unfold transfer_approximate_unsafe.
  destruct (Nat.eqb_spec (len other) (len d)) as [El|]; [|done].
  destruct (Nat.eqb_spec (arrlen other) (arrlen d)) as [Ea|]; [|done]. cbn [negb andb].
  destruct (transfer_loop _ _ _ _) as [s|] eqn:E; [|done]. intros [= <- <- <- <-].
  pose proof (words_for_bounds (len d)). pose proof (wf_arrlen d Hd).
  apply transfer_loop_inv with (this0 := array d) (other0 := array other) in E;
    [|by unfold arrlen in Ea|].
  - destruct E as [[_ _] _ Hp Hc Hb]. unfold bit; cbn [array]. rewrite !popcount_sum; cbn [array].
    split_and!; [intros; apply Hb | intros i; apply Hb | lia |]. unfold arrlen in *. lia.
  - apply transfer_inv_init; auto. destruct (Nat.leb_spec (arrlen d) (bit_to_pos start).1); lia.
Qed.

(** [transfer_approximate_unsafe] does not return when the transfer starts in
    the first word and the source holds fewer bits than asked for: the loop
    wraps to word 0 without testing for the starting word again. *)
Theorem transfer_diverges fuel d other start b :
  wf d -> wf other -> (0 < len d)%nat -> (start < 64)%nat -> popcount other < b ->
  transfer_approximate_unsafe fuel d other start b = None.
Proof.
  intros Hd Ho Hpos Hst Hb. unfold transfer_approximate_unsafe.
  destruct (Nat.eqb_spec (len other) (len d)) as [El|]; [|done].
  destruct (Nat.eqb_spec (arrlen other) (arrlen d)) as [Ea|]; [|done]. cbn [negb andb].
  rewrite bit_to_pos_spec; cbn [fst]. rewrite (Nat.div_small start 64) by done.
  pose proof (words_for_bounds (len d)) as Hw. rewrite <- (wf_arrlen d Hd) in Hw.
  set (s := mk_ts _ _ _ _).
  assert (transfer_inv (array d) (array other) s) as Hs.
  { apply transfer_inv_init; auto. destruct (Nat.leb_spec (arrlen d) 0); lia. }
  clearbody s. revert s Hs. induction fuel as [|fuel IH]; intros s Hs; cbn [transfer_loop].
  all: pose proof (ti_count _ _ _ Hs); pose proof (words_pop_nonneg (ts_other s)).
  all: rewrite popcount_sum in Hb; destruct (Z.ltb_spec (ts_transferred s) b); [|lia].
  - done.
  - destruct (transfer_step_inv (array d) (array other) 0 s) as (s1 & st & -> & Hs1 & Hst');
      [by unfold arrlen in Ea|done|]. rewrite Hst' by done. by apply IH.
Qed.

End DenseBitset.

(** [fixed_dense_bitset<len>] declares no [fixed_dense_bitset(size_t)]
    constructor, so its [operator&], [operator|] and [operator-], which use one,
    cannot be instantiated; the in-place versions are modelled. *)
Module FixedBitset.
Section fixed.
Context (len : nat).

Record fixed_dense_bitset := mk { array : list Z }.
Definition arrlen : nat := words_for len.

(** The same words as a [dense_bitset] of length [len] *)
Definition dense (f : fixed_dense_bitset) : DenseBitset.dense_bitset :=
  DenseBitset.mk (array f) len.
Definition of_dense (d : DenseBitset.dense_bitset) : fixed_dense_bitset := mk (DenseBitset.array d).

Definition new : fixed_dense_bitset := mk (replicate arrlen 0).
(** [memcpy(array, mem, memlen)]; a copy that leaves the array is [None] *)
Definition initialize_from_mem (mem : bytes) (f : fixed_dense_bitset) : option fixed_dense_bitset :=
  if (length mem <=? 8 * arrlen)%nat then
    Some (mk (pods_of_bytes 8 arrlen (memcpy_at (concat (map (le_split 8) (array f))) 0 mem)))
  else None.
Definition clear (f : fixed_dense_bitset) : fixed_dense_bitset := mk (replicate arrlen 0).
Definition fill (f : fixed_dense_bitset) : option fixed_dense_bitset :=
  match fix_trailing len (replicate arrlen (u64 (-1))) with Some a => Some (mk a) | None => None end.
Definition empty (f : fixed_dense_bitset) : bool := forallb (fun w => w =? 0) (array f).

Definition lift (r : option (bool * DenseBitset.dense_bitset)) : option (bool * fixed_dense_bitset) :=
  match r with Some (b, d) => Some (b, of_dense d) | None => None end.
Definition lift0 (r : option DenseBitset.dense_bitset) : option fixed_dense_bitset :=
  match r with Some d => Some (of_dense d) | None => None end.

Definition get (f : fixed_dense_bitset) (b : nat) : option bool := DenseBitset.get (dense f) b.
Definition set_bit (f : fixed_dense_bitset) (b : nat) := lift (DenseBitset.set_bit (dense f) b).
Definition set_bit_unsync (f : fixed_dense_bitset) (b : nat) :=
  lift (DenseBitset.set_bit_unsync (dense f) b).
Definition clear_bit (f : fixed_dense_bitset) (b : nat) := lift (DenseBitset.clear_bit (dense f) b).
Definition clear_bit_unsync (f : fixed_dense_bitset) (b : nat) :=
  lift (DenseBitset.clear_bit_unsync (dense f) b).
Definition set (f : fixed_dense_bitset) (b : nat) (value : bool) :=
  if value then set_bit f b else clear_bit f b.
Definition set_unsync (f : fixed_dense_bitset) (b : nat) (value : bool) :=
  if value then set_bit_unsync f b else clear_bit_unsync f b.
Definition containing_word (f : fixed_dense_bitset) (b : nat) : option Z :=
  array f !! (bit_to_pos b).1.

Definition first_bit (f : fixed_dense_bitset) : option nat := DenseBitset.first_bit (dense f).
Definition first_zero_bit (f : fixed_dense_bitset) : option nat :=
  DenseBitset.first_zero_bit (dense f).
Definition next_bit (f : fixed_dense_bitset) (b : nat) : option (option nat) :=
  DenseBitset.next_bit (dense f) b.
Definition elements (f : fixed_dense_bitset) : option (list nat) := DenseBitset.elements (dense f).
Definition size (f : fixed_dense_bitset) : nat := len.
Definition popcount (f : fixed_dense_bitset) : Z := DenseBitset.popcount (dense f).

Definition op_and_eq (f g : fixed_dense_bitset) := lift0 (DenseBitset.op_and (dense f) (dense g)).
Definition op_or_eq (f g : fixed_dense_bitset) := lift0 (DenseBitset.op_or (dense f) (dense g)).
Definition op_minus_eq (f g : fixed_dense_bitset) := lift0 (DenseBitset.op_minus (dense f) (dense g)).
Definition op_eq (f g : fixed_dense_bitset) : bool :=
  fold_left (fun ret p => ret && (p.1 =? p.2)) (zip (array f) (array g)) true.

(** The words alone: the length is part of the type. *)
Definition save (f : fixed_dense_bitset) : writer := write (concat (map (le_split 8) (array f))).
Definition load : reader fixed_dense_bitset :=
  b <- read (arrlen * 8) ;; rret (mk (pods_of_bytes 8 arrlen b)).

Definition bit (f : fixed_dense_bitset) (i : nat) : bool := DenseBitset.bit (dense f) i.
Definition wf (f : fixed_dense_bitset) : Prop := DenseBitset.wf (dense f).

Lemma wf_new : wf new.
Proof.
  split; cbn.
  - unfold DenseBitset.arrlen; cbn. apply length_replicate.
  - by apply Forall_replicate.
  - intros i _. unfold DenseBitset.bit; cbn [DenseBitset.array dense new array].
    by rewrite DenseBitset.wbit_replicate, Z.bits_0, andb_false_r.
Qed.

Lemma bit_new i : bit new i = false.
Proof.
  unfold bit, DenseBitset.bit; cbn [DenseBitset.array dense new array].
  by rewrite DenseBitset.wbit_replicate, Z.bits_0, andb_false_r.
Qed.

Lemma set_bit_spec f b : wf f -> (b < len)%nat ->
  exists f', set_bit f b = Some (bit f b, f') /\ wf f' /\
    forall i, bit f' i = (i =? b)%nat || bit f i.
Proof.
  intros Hf Hb.
  destruct (DenseBitset.exec_refines (DenseBitset.OSet b true) (dense f) Hf Hb)
    as (d' & E & Hw & Hl & Hi). cbn [DenseBitset.exec DenseBitset.set DenseBitset.spec_ret] in E.
  cbn in Hl, Hi. exists (of_dense d'). unfold set_bit. rewrite E.
  assert (dense (of_dense d') = d') as Hd by (destruct d'; cbn in *; by subst).
  split; [done|]. unfold wf, bit. rewrite Hd. split; [done|]. intros i.
  rewrite Hi. by destruct (i =? b)%nat.
Qed.

Lemma set_bit_unsync_spec f b : wf f -> (b < len)%nat ->
  exists f', set_bit_unsync f b = Some (bit f b, f') /\ wf f' /\
    forall i, bit f' i = (i =? b)%nat || bit f i.
Proof. apply set_bit_spec. Qed.

Lemma fixed_get_spec f b : wf f -> (b < len)%nat -> get f b = Some (bit f b).
Proof. apply DenseBitset.get_spec. Qed.

Lemma elements_spec f : wf f ->
  let bits := List.filter (bit f) (seq 0 len) in
  elements f = Some bits /\ popcount f = Z.of_nat (length bits).
Proof. intros Hf. destruct (DenseBitset.iteration_spec _ Hf) as (H1 & H2 & _). done. Qed.

(** A fixed-size bit set that is saved and loaded back is unchanged, and the
    image has no header: it is exactly [8 * arrlen] bytes. *)
Theorem fixed_bitset_save_load f rest : wf f ->
  exists bs, to_bytes save f = Some bs /\ length bs = (8 * arrlen)%nat /\
    of_bytes load (bs ++ rest) = Some f.
Proof.
  intros Hf. pose proof (DenseBitset.wf_arrlen _ Hf) as Hl. unfold DenseBitset.arrlen in Hl.
  cbn [DenseBitset.array dense DenseBitset.len] in Hl. fold arrlen in Hl.
  eexists. split; [apply emits_to_bytes, emits_write|]. rewrite length_concat_le_split, Hl.
  split; [done|]. apply parses_of_bytes. eapply parses_bind_nil.
  - apply parses_read_n. rewrite length_concat_le_split. lia.
  - cbv beta. rewrite <- Hl. rewrite (pods_of_bytes_concat 8 (array f)) by apply Hf.
    destruct f. apply parses_ret.
Qed.
End fixed.

End FixedBitset.
