(* ===== verification/FlexibleType.v ===== *)
(** The variant type [flexible_type]: its data, its type tables and its
    serialization ([flexible_type/flexible_type_base_types.hpp],
    [flexible_type/flexible_type.hpp], the serializers of
    [flexible_type/flexible_type_detail.hpp], [image/image_type.hpp] and [.cpp]).

    A [flexible_type] is a value of an inductive type with one constructor per
    type tag.  An integer is its signed 64-bit value, a double its 64-bit
    pattern, a string its bytes.  The reference counts and the copy-on-write
    sharing of the heap-allocated payloads are not part of this value view.
    The assertions that are disabled in a release build are not modelled;
    [FLEX_TYPE_ASSERT] throws, which is [None] here. *)
From Stdlib Require Import ZArith Lia List Bool String.
From stdpp Require Import prelude.
From coqutil Require Import Byte Word.LittleEndianList.
From S2P Require Import Prelude.
From S2P Require Import Archive.
From S2P Require Import Serialization.

(** ** Type tags *)

Inductive flex_type_enum :=
| INTEGER | FLOAT | STRING | VECTOR | LIST | DICT | DATETIME | UNDEFINED | IMAGE.

#[export] Instance flex_type_enum_eq_dec : EqDecision flex_type_enum.
Proof. solve_decision. Defined.

(** [static_cast<int>] of the enumerators *)
Definition type_code (t : flex_type_enum) : Z :=
  match t with
  | INTEGER => 0 | FLOAT => 1 | STRING => 2 | VECTOR => 3 | LIST => 4
  | DICT => 5 | DATETIME => 6 | UNDEFINED => 7 | IMAGE => 8
  end.
Definition type_of_code (c : Z) : option flex_type_enum :=
  match c with
  | 0 => Some INTEGER | 1 => Some FLOAT | 2 => Some STRING | 3 => Some VECTOR | 4 => Some LIST
  | 5 => Some DICT | 6 => Some DATETIME | 7 => Some UNDEFINED | 8 => Some IMAGE
  | _ => None
  end.

Definition all_types : list flex_type_enum :=
  [INTEGER; FLOAT; STRING; VECTOR; LIST; DICT; DATETIME; UNDEFINED; IMAGE].

(** A constexpr [bool] table, indexed by two tags; the missing trailing entries
    of a row are value-initialized to [false]. *)
Definition table_at (m : list (list Z)) (r c : flex_type_enum) : bool :=
  negb (nth (Z.to_nat (type_code c)) (nth (Z.to_nat (type_code r)) m []) 0 =? 0).

Definition castable : list (list Z) :=
  [[1; 1; 1; 0; 0; 0; 1; 0; 0];
   [1; 1; 1; 0; 0; 0; 1; 0; 0];
   [0; 0; 1; 0; 0; 0; 0; 0; 0];
   [0; 0; 1; 1; 1; 0; 0; 0; 0];
   [0; 0; 1; 0; 1; 0; 0; 0; 0];
   [0; 0; 1; 0; 0; 1; 0; 0; 0];
   [1; 1; 1; 0; 0; 0; 1; 0; 0];
   [0; 0; 1; 0; 0; 0; 0; 1; 0];
   [0; 0; 1; 1; 0; 0; 0; 0; 1]].
Definition flex_type_is_convertible (from to : flex_type_enum) : bool := table_at castable from to.

Definition plus_operator : list (list Z) :=
  [[1; 1; 0; 0; 0; 0; 0; 0; 0];
   [1; 1; 0; 0; 0; 0; 0; 0; 0];
   [0; 0; 1; 0; 0; 0; 0; 0; 0];
   [1; 1; 0; 1; 0; 0; 0; 0; 0];
   [0; 0; 0; 0; 0; 0; 0; 0; 0];
   [0; 0; 0; 0; 0; 0; 0; 0; 0];
   [1; 0; 0; 0; 0; 0; 0; 0; 0];
   [0; 0; 0; 0; 0; 0; 0; 0; 0];
   [0; 0; 0; 0; 0; 0; 0; 0; 0]].
Definition other_numeric_operators : list (list Z) :=
  [[1; 1; 0; 0; 0; 0; 0; 0; 0];
   [1; 1; 0; 0; 0; 0; 0; 0; 0];
   [0; 0; 0; 0; 0; 0; 0; 0; 0];
   [1; 1; 0; 1; 0; 0; 0; 0; 0];
   [0; 0; 0; 0; 0; 0; 0; 0; 0];
   [0; 0; 0; 0; 0; 0; 0; 0; 0];
   [0; 0; 0; 0; 0; 0; 0; 0; 0];
   [0; 0; 0; 0; 0; 0; 0; 0; 0];
   [0; 0; 0; 0; 0; 0; 0; 0; 0]].
Definition comparison_operators : list (list Z) :=
  [[1; 1; 0; 0; 0; 0; 1; 0];
   [1; 1; 0; 0; 0; 0; 0; 0];
   [0; 0; 1; 0; 0; 0; 0; 0];
   [0; 0; 0; 0; 0; 0; 0; 0];
   [0; 0; 0; 0; 0; 0; 0; 0];
   [0; 0; 0; 0; 0; 0; 0; 0];
   [1; 0; 0; 0; 0; 0; 1; 0];
   [0; 0; 0; 0; 0; 0; 0; 0];
   [0; 0; 0; 0; 0; 0; 0; 0]].
Definition equality_operators : list (list Z) :=
  [[1; 1; 0; 0; 0; 0; 1; 1; 0];
   [1; 1; 0; 0; 0; 0; 0; 1; 0];
   [0; 0; 1; 0; 0; 0; 0; 1; 0];
   [0; 0; 0; 1; 0; 0; 0; 1; 0];
   [0; 0; 0; 0; 0; 0; 0; 1; 0];
   [0; 0; 0; 0; 0; 0; 0; 1; 0];
   [1; 0; 0; 0; 0; 0; 1; 1; 0];
   [1; 1; 1; 1; 1; 1; 1; 1; 1];
   [0; 0; 0; 0; 0; 0; 0; 1; 0]].

Inductive operator := OpPlus | OpMinus | OpMul | OpDiv | OpMod | OpLt | OpGt | OpEq | OpOther.
Definition flex_type_has_binary_op (left right : flex_type_enum) (op : operator) : bool :=
  match op with
  | OpPlus => table_at plus_operator left right
  | OpMinus | OpMul | OpDiv | OpMod => table_at other_numeric_operators left right
  | OpLt | OpGt => table_at comparison_operators left right
  | OpEq => table_at equality_operators left right
  | OpOther => false
  end.

Definition flex_type_enum_to_name (en : flex_type_enum) : string :=
  match en with
  | INTEGER => "integer" | DATETIME => "datetime" | FLOAT => "float" | STRING => "string"
  | VECTOR => "array" | LIST => "list" | DICT => "dictionary" | IMAGE => "image"
  | UNDEFINED => "NoneType"
  end.

Definition type_map : list (string * flex_type_enum) :=
  [("integer", INTEGER); ("datetime", DATETIME); ("float", FLOAT); ("string", STRING);
   ("array", VECTOR); ("recursive", LIST); ("dictionary", DICT); ("image", IMAGE);
   ("undefined", UNDEFINED)]%string.
(** [None] when the name is not in the map, which throws *)
Definition flex_type_enum_from_name (name : string) : option flex_type_enum :=
  match List.find (fun p => String.eqb p.1 name) type_map with
  | Some p => Some p.2
  | None => None
  end.

(** ** Payloads *)

(** [int64_t first : 56; int8_t second : 8] *)
Record flex_date_time := mk_dt { dt_first : Z; dt_second : Z }.
(** The constructor, whose arguments are truncated to the bit-fields *)
Definition flex_date_time_new (posix_timestamp half_hour_offset : Z) : flex_date_time :=
  mk_dt (signed 56 posix_timestamp) (signed 8 half_hour_offset).
Definition dt_valid (d : flex_date_time) : Prop := is_s 56 (dt_first d) /\ is_s 8 (dt_second d).

(** The eight bytes of the struct as a little-endian number: [first] is in the
    low 56 bits. *)
Definition dt_to_word (d : flex_date_time) : Z :=
  wrap 56 (dt_first d) + wrap 8 (dt_second d) * 2 ^ 56.
Definition dt_of_word (w : Z) : flex_date_time :=
  mk_dt (signed 56 w) (signed 8 (Z.shiftr w 56)).

Inductive Format := JPG | PNG | RAW_ARRAY | FORMAT_UNDEFINED.
Definition format_code (f : Format) : Z :=
  match f with JPG => 0 | PNG => 1 | RAW_ARRAY => 2 | FORMAT_UNDEFINED => 3 end.
Definition format_of_code (c : Z) : option Format :=
  match c with
  | 0 => Some JPG | 1 => Some PNG | 2 => Some RAW_ARRAY | 3 => Some FORMAT_UNDEFINED
  | _ => None
  end.

(** [m_image_data_size] is the length of [m_image_data]. *)
Record image_type := mk_image {
  m_image_data : bytes;
  m_height : nat;
  m_width : nat;
  m_channels : nat;
  m_version : Z;
  m_format : Format
}.
Definition m_image_data_size (i : image_type) : nat := length (m_image_data i).

Definition IMAGE_TYPE_CURRENT_VERSION : Z := 0.
Definition image_type_default : image_type :=
  mk_image [] 0 0 0 IMAGE_TYPE_CURRENT_VERSION FORMAT_UNDEFINED.
Definition is_decoded (i : image_type) : bool :=
  match m_format i with RAW_ARRAY => true | _ => false end.

Definition image_save (i : image_type) : writer :=
  pod_save 1 (u8 (m_version i)) >>> size_save (m_height i) >>> size_save (m_width i) >>>
  size_save (m_channels i) >>> pod_save 8 (format_code (m_format i)) >>>
  size_save (m_image_data_size i) >>>
  (if (0 <? m_image_data_size i)%nat then write (m_image_data i) else wnil).

(** A format outside the enumeration would be stored as it is; it is not
    representable here and the load is then [None]. *)
Definition image_load : reader image_type :=
  version <- pod_load 1 ;; height <- size_load ;; width <- size_load ;;
  channels <- size_load ;; format <- pod_load 8 ;; size <- size_load ;;
  match format_of_code format with
  | None => rfail
  | Some format =>
      if (0 <? size)%nat then
        (data <- read size ;;
         rret (mk_image data height width channels (signed 8 version) format))
      else rret (mk_image [] height width channels (signed 8 version) format)
  end.

(** ** Values *)

Inductive flexible_type :=
| FInt (i : Z)
| FFloat (bits : Z)
| FString (s : bytes)
| FVector (v : list Z)
| FList (l : list flexible_type)
| FDict (d : list (flexible_type * flexible_type))
| FDateTime (dt : flex_date_time)
| FUndefined
| FImage (img : image_type).

Definition get_type (f : flexible_type) : flex_type_enum :=
  match f with
  | FInt _ => INTEGER | FFloat _ => FLOAT | FString _ => STRING | FVector _ => VECTOR
  | FList _ => LIST | FDict _ => DICT | FDateTime _ => DATETIME | FUndefined => UNDEFINED
  | FImage _ => IMAGE
  end.

(** [flexible_type()], [reset()] and [reset(target_type)] (also
    [flexible_type(start_type)]): the value depends only on the target *)
Definition flex_default : flexible_type := FInt 0.
Definition reset (target_type : flex_type_enum) : flexible_type :=
  match target_type with
  | INTEGER => FInt 0 | FLOAT => FFloat 0 | STRING => FString [] | VECTOR => FVector []
  | LIST => FList [] | DICT => FDict [] | DATETIME => FDateTime (flex_date_time_new 0 0)
  | UNDEFINED => FUndefined | IMAGE => FImage image_type_default
  end.

(** The accessors.  [get<flex_int>] and [get<flex_float>] read the same eight
    bytes of the union, whichever of the two types is stored. *)
Definition get_int (f : flexible_type) : option Z :=
  match f with FInt i => Some i | FFloat b => Some (i64 b) | _ => None end.
Definition get_float (f : flexible_type) : option Z :=
  match f with FInt i => Some (u64 i) | FFloat b => Some b | _ => None end.
Definition get_string (f : flexible_type) : option bytes :=
  match f with FString s => Some s | _ => None end.
Definition get_vec (f : flexible_type) : option (list Z) :=
  match f with FVector v => Some v | _ => None end.
(** [mutable_get<flex_int>() = i] *)
Definition set_int (i : Z) (f : flexible_type) : option flexible_type :=
  match f with FInt _ => Some (FInt (i64 i)) | FFloat _ => Some (FFloat (u64 i)) | _ => None end.

(** ** Serialization *)

(** [apply_visitor(serializer{oarc})] and [flexible_type::save] *)
Fixpoint save (f : flexible_type) : writer :=
  pod_save 1 (128 + type_code (get_type f)) >>>
  match f with
  | FInt i => pod_save 8 (u64 i)
  | FFloat b => pod_save 8 b
  | FString s => string_save s
  | FVector v => vector_pod_save 8 v
  | FList l => vector_save save l
  | FDict d => vector_save (pair_save save save) d
  | FDateTime dt => pod_save 8 (dt_to_word dt)
  | FUndefined => wnil
  | FImage img => image_save img
  end.

(** The payload alone, as the block encoder writes it *)
Definition serializer (f : flexible_type) : writer :=
  match f with
  | FInt i => pod_save 8 (u64 i)
  | FFloat b => pod_save 8 b
  | FString s => string_save s
  | FVector v => vector_pod_save 8 v
  | FList l => vector_save save l
  | FDict d => vector_save (pair_save save save) d
  | FDateTime dt => pod_save 8 (dt_to_word dt)
  | FUndefined => wnil
  | FImage img => image_save img
  end.

(** The payload of a value of type [t]; [load_elem] loads a nested value. *)
Definition deserializer_with (load_elem : reader flexible_type) (t : flex_type_enum)
    : reader flexible_type :=
  match t with
  | INTEGER => z <- pod_load 8 ;; rret (FInt (i64 z))
  | FLOAT => z <- pod_load 8 ;; rret (FFloat z)
  | STRING => s <- string_load ;; rret (FString s)
  | VECTOR => v <- vector_pod_load 8 ;; rret (FVector v)
  | LIST => l <- vector_load load_elem ;; rret (FList l)
  | DICT => d <- vector_load (pair_load load_elem load_elem) ;; rret (FDict d)
  | DATETIME => w <- pod_load 8 ;; rret (FDateTime (dt_of_word w))
  | UNDEFINED => rret FUndefined
  | IMAGE => img <- image_load ;; rret (FImage img)
  end.

(** [flexible_type::load].  A first byte below 128 is the format of earlier
    versions, with a four-byte tag after the type.  The fuel bounds the nesting
    depth. *)
Fixpoint load_fuel (fuel : nat) : reader flexible_type :=
  match fuel with
  | O => rfail
  | S fuel =>
      c <- pod_load 1 ;;
      if c <? 128 then
        (tag_value <- pod_load 4 ;;
         match type_of_code c with Some t => deserializer_with (load_fuel fuel) t | None => rfail end)
      else
        match type_of_code (c - 128) with
        | Some t => deserializer_with (load_fuel fuel) t
        | None => rfail
        end
  end.

(** Every nesting level takes at least one byte of the archive. *)
Definition load : reader flexible_type := fun i => load_fuel (S (length (ibuf i))) i.
Definition deserializer (t : flex_type_enum) : reader flexible_type :=
  fun i => deserializer_with load t i.

(** ** Well-formed values: what fits the C++ representation *)

Definition image_ok (i : image_type) : Prop :=
  fits_size (m_image_data_size i) /\ fits_size (m_height i) /\ fits_size (m_width i) /\
  fits_size (m_channels i) /\ is_s 8 (m_version i).

Fixpoint flex_ok (f : flexible_type) : Prop :=
  match f with
  | FInt i => is_s 64 i
  | FFloat b => is_u 64 b
  | FString s => fits_size (length s)
  | FVector v => fits_size (length v) /\ Forall (is_u 64) v
  | FList l => fits_size (length l) /\
      (fix all l := match l with [] => True | x :: l => flex_ok x /\ all l end) l
  | FDict d => fits_size (length d) /\
      (fix all d := match d with [] => True | (k, v) :: d => flex_ok k /\ flex_ok v /\ all d end) d
  | FDateTime dt => dt_valid dt
  | FUndefined => True
  | FImage img => image_ok img
  end.

Section induction.
Variable P : flexible_type -> Prop.
Hypothesis Hint : forall i, P (FInt i).
Hypothesis Hflt : forall b, P (FFloat b).
Hypothesis Hstr : forall s, P (FString s).
Hypothesis Hvec : forall v, P (FVector v).
Hypothesis Hlist : forall l, Forall P l -> P (FList l).
Hypothesis Hdict : forall d, Forall (fun kv => P kv.1 /\ P kv.2) d -> P (FDict d).
Hypothesis Hdt : forall dt, P (FDateTime dt).
Hypothesis Hundef : P FUndefined.
Hypothesis Himg : forall img, P (FImage img).

Fixpoint flexible_type_nested_ind (f : flexible_type) : P f :=
  match f with
  | FInt i => Hint i
  | FFloat b => Hflt b
  | FString s => Hstr s
  | FVector v => Hvec v
  | FList l => Hlist l
      ((fix all l : Forall P l :=
          match l with
          | [] => List.Forall_nil _
          | x :: l => List.Forall_cons _ x l (flexible_type_nested_ind x) (all l)
          end) l)
  | FDict d => Hdict d
      ((fix all d : Forall (fun kv => P kv.1 /\ P kv.2) d :=
          match d with
          | [] => List.Forall_nil _
          | kv :: d => List.Forall_cons _ kv d
              (conj (flexible_type_nested_ind kv.1) (flexible_type_nested_ind kv.2)) (all d)
          end) d)
  | FDateTime dt => Hdt dt
  | FUndefined => Hundef
  | FImage img => Himg img
  end.
End induction.

Lemma flex_ok_list l : flex_ok (FList l) <-> fits_size (length l) /\ Forall flex_ok l.
Proof.
  cbn. split; intros [Hn H]; (split; [done|]); clear Hn.
  - induction l as [|x l IH]; [constructor|]. destruct H. constructor; auto.
  - induction H; auto.
Qed.

Lemma flex_ok_dict d :
  flex_ok (FDict d) <-> fits_size (length d) /\ Forall (fun kv => flex_ok kv.1 /\ flex_ok kv.2) d.
Proof.
  cbn. split; intros [Hn H]; (split; [done|]); clear Hn.
  - induction d as [|[k v] d IH]; [constructor|]. destruct H as (? & ? & ?). constructor; auto.
  - induction H as [|[k v] d [] ? IH]; auto.
Qed.

(** ** The bytes of a value *)

Definition enc_size (n : nat) : bytes := le_split 8 (Z.of_nat n).

Definition enc_image (i : image_type) : bytes :=
  le_split 1 (u8 (m_version i)) ++ enc_size (m_height i) ++ enc_size (m_width i) ++
  enc_size (m_channels i) ++ le_split 8 (format_code (m_format i)) ++
  enc_size (m_image_data_size i) ++ m_image_data i.

Fixpoint enc (f : flexible_type) : bytes :=
  le_split 1 (128 + type_code (get_type f)) ++
  match f with
  | FInt i => le_split 8 (u64 i)
  | FFloat b => le_split 8 b
  | FString s => enc_size (length s) ++ s
  | FVector v => enc_size (length v) ++ concat (map (le_split 8) v)
  | FList l => enc_size (length l) ++ concat (map enc l)
  | FDict d => enc_size (length d) ++ concat (map (fun kv => enc kv.1 ++ enc kv.2) d)
  | FDateTime dt => le_split 8 (dt_to_word dt)
  | FUndefined => []
  | FImage img => enc_image img
  end.

(** Nesting depth *)
Fixpoint depth (f : flexible_type) : nat :=
  match f with
  | FList l => S (foldr (fun x n => Nat.max (depth x) n) 0%nat l)
  | FDict d => S (foldr (fun kv n => Nat.max (Nat.max (depth kv.1) (depth kv.2)) n) 0%nat d)
  | _ => 1%nat
  end.

Lemma foldr_max_le {A} (g : A -> nat) l n :
  (foldr (fun x m => Nat.max (g x) m) 0%nat l <= n)%nat <-> Forall (fun x => (g x <= n)%nat) l.
Proof.
  induction l as [|x l IH]; cbn; [split; [constructor|lia]|].
  rewrite Forall_cons, <- IH. lia.
Qed.

Lemma concat_length_ge {A} (g : A -> bytes) (l : list A) x :
  x ∈ l -> (length (g x) <= length (concat (map g l)))%nat.
Proof. induction 1; cbn; rewrite length_app; lia. Qed.

Lemma depth_le_enc f : (depth f <= length (enc f))%nat.
Proof.
  induction f using flexible_type_nested_ind; cbn [depth enc];
    rewrite length_app, length_le_split; try lia.
  - rewrite length_app. apply le_n_S, foldr_max_le. rewrite Forall_forall in *.
    intros x Hx. pose proof (concat_length_ge enc l x Hx). pose proof (H x Hx). lia.
  - rewrite length_app. apply le_n_S, foldr_max_le. rewrite Forall_forall in *.
    intros x Hx. pose proof (concat_length_ge (fun kv => enc kv.1 ++ enc kv.2) d x Hx) as Hc.
    cbn in Hc. rewrite length_app in Hc. destruct (H x Hx). lia.
Qed.

Lemma emits_image img : emits (image_save img) (enc_image img).
Proof.
  unfold image_save, enc_image. repeat apply emits_seq;
    try apply emits_size; try apply emits_direct_assign.
  destruct (Nat.ltb_spec 0 (m_image_data_size img)) as [H|H]; [apply emits_write|].
  assert (m_image_data img = []) as -> by (apply nil_length_inv; unfold m_image_data_size in H; lia).
  apply emits_nil.
Qed.

Lemma emits_save f : emits (save f) (enc f).
Proof.
  induction f using flexible_type_nested_ind; cbn [save enc];
    (apply emits_seq; [apply emits_direct_assign|]); try apply emits_direct_assign.
  - apply emits_seq; [apply emits_size | apply emits_write].
  - apply emits_seq; [apply emits_size | apply emits_write].
  - apply emits_seq; [apply emits_size | apply emits_for].
    rewrite Forall_forall in H. auto.
  - apply emits_seq; [apply emits_size | apply emits_for].
    rewrite Forall_forall in H. intros kv Hkv. destruct (H kv Hkv). by apply emits_seq.
  - apply emits_nil.
  - apply emits_image.
Qed.

Lemma type_of_code_code t : type_of_code (type_code t) = Some t.
Proof. by destruct t. Qed.
Lemma format_of_code_code f : format_of_code (format_code f) = Some f.
Proof. by destruct f. Qed.
Lemma type_code_range t : 0 <= type_code t <= 8.
Proof. destruct t; cbn; lia. Qed.

Lemma dt_word_range d : is_u 64 (dt_to_word d).
Proof.
  unfold dt_to_word. pose proof (wrap_range 56 (dt_first d) ltac:(lia)).
  pose proof (wrap_range 8 (dt_second d) ltac:(lia)). unfold is_u in *.
  change (2 ^ 64) with (2 ^ 8 * 2 ^ 56). nia.
Qed.

Lemma dt_word_roundtrip d : dt_valid d -> dt_of_word (dt_to_word d) = d.
Proof.
  intros [H1 H2]. unfold dt_of_word, dt_to_word. destruct d as [a b]; cbn [dt_first dt_second] in *.
  pose proof (wrap_range 56 a ltac:(lia)) as Ha. f_equal.
  - assert (wrap 56 (wrap 56 a + wrap 8 b * 2 ^ 56) = wrap 56 a) as E.
    { unfold wrap at 1. rewrite Z.mod_add by lia. apply wrap_small, Ha. }
    unfold signed. rewrite E. fold (wrap 56 a).
    rewrite <- (signed_wrap 56 a) at 4 by (done || lia). unfold signed. by rewrite wrap_wrap.
  - rewrite Z.shiftr_div_pow2, Z.div_add, Z.div_small by (done || lia).
    rewrite Z.add_0_l. by apply signed_wrap.
Qed.

Lemma parses_pod n t : is_u (8 * Z.of_nat n) t -> parses (pod_load n) (le_split n t) t.
Proof. apply parses_read_into. Qed.

Lemma parses_image img : image_ok img -> parses image_load (enc_image img) img.
Proof.
  intros (H1 & H2 & H3 & H4 & H5). unfold enc_image, image_load.
  eapply parses_bind; [apply parses_pod; apply (wrap_range 8); lia|].
  eapply parses_bind; [by apply parses_size|]. eapply parses_bind; [by apply parses_size|].
  eapply parses_bind; [by apply parses_size|].
  eapply parses_bind; [apply parses_pod; by destruct (m_format img)|].
  eapply parses_bind; [by apply parses_size|].
  cbv beta. rewrite format_of_code_code, signed_wrap by (done || lia).
  destruct (Nat.ltb_spec 0 (m_image_data_size img)) as [H|H].
  - eapply parses_bind_nil; [apply parses_read_n; done|]. destruct img. apply parses_ret.
  - assert (m_image_data img = []) as E by (apply nil_length_inv; unfold m_image_data_size in H; lia).
    rewrite E. destruct img; cbn in *; subst. apply parses_ret.
Qed.

(** What the deserializer reads back, given that nested values are read back. *)
Lemma parses_deserializer lt f bs :
  flex_ok f ->
  match f with
  | FList l => Forall (fun x => parses lt (enc x) x) l
  | FDict d => Forall (fun kv => parses lt (enc kv.1) kv.1 /\ parses lt (enc kv.2) kv.2) d
  | _ => True
  end ->
  enc f = le_split 1 (128 + type_code (get_type f)) ++ bs ->
  parses (deserializer_with lt (get_type f)) bs f.
Proof.
  intros Hok Hn E.
  destruct f as [i|b|s|v|l|d|dt| |img]; cbn [enc get_type] in E; apply app_inv_head in E; subst bs;
    cbn [get_type deserializer_with].
  - eapply parses_bind_nil; [apply parses_pod, wrap_range; lia|]. cbn in Hok.
    rewrite signed_wrap by (done || lia). apply parses_ret.
  - eapply parses_bind_nil; [by apply parses_pod|apply parses_ret].
  - eapply parses_bind_nil; [|apply parses_ret].
    eapply parses_bind; [by apply parses_size | apply parses_read].
  - destruct Hok as [Hl Hv]. eapply parses_bind_nil; [|apply parses_ret].
    eapply parses_bind; [by apply parses_size|].
    eapply parses_bind_nil; [apply parses_read_n, length_concat_le_split|].
    cbv beta. rewrite pods_of_bytes_concat by done. apply parses_ret.
  - apply flex_ok_list in Hok as [Hl _]. eapply parses_bind_nil; [|apply parses_ret].
    eapply parses_bind; [by apply parses_size|]. apply parses_repeat. by apply Forall_forall.
  - apply flex_ok_dict in Hok as [Hl _]. eapply parses_bind_nil; [|apply parses_ret].
    eapply parses_bind; [by apply parses_size|]. apply (parses_repeat _ (fun kv => enc kv.1 ++ enc kv.2)).
    intros [k v] Hkv. rewrite Forall_forall in Hn. destruct (Hn _ Hkv) as [Hk Hv].
    eapply parses_bind; [exact Hk|]. eapply parses_bind_nil; [exact Hv|apply parses_ret].
  - eapply parses_bind_nil; [apply parses_pod, dt_word_range|].
    cbv beta. rewrite dt_word_roundtrip by done. apply parses_ret.
  - apply parses_ret.
  - eapply parses_bind_nil; [by apply parses_image|apply parses_ret].
Qed.

Lemma enc_tag f : exists bs, enc f = le_split 1 (128 + type_code (get_type f)) ++ bs.
Proof. destruct f; eexists; reflexivity. Qed.

(** One level of [load]: the tag byte, then the payload *)
Lemma parses_load_tag n f :
  flex_ok f ->
  match f with
  | FList l => Forall (fun x => parses (load_fuel n) (enc x) x) l
  | FDict d => Forall (fun kv => parses (load_fuel n) (enc kv.1) kv.1 /\
                                 parses (load_fuel n) (enc kv.2) kv.2) d
  | _ => True
  end -> parses (load_fuel (S n)) (enc f) f.
Proof.
  intros Hok Hn. destruct (enc_tag f) as [bs E]. rewrite E. cbn [load_fuel].
  pose proof (type_code_range (get_type f)).
  eapply parses_bind; [apply parses_pod; split; [lia|]; change (2 ^ _) with 256; lia|].
  cbv beta. rewrite (proj2 (Z.ltb_ge _ _)) by lia.
  replace (128 + type_code (get_type f) - 128) with (type_code (get_type f)) by lia.
  rewrite type_of_code_code. by apply parses_deserializer.
Qed.

Lemma parses_load_fuel f : flex_ok f ->
  forall n, (depth f <= n)%nat -> parses (load_fuel n) (enc f) f.
Proof.
  induction f as [| | | |l H|d H| | |] using flexible_type_nested_ind; intros Hok n Hd.
  all: destruct n as [|n]; [cbn in Hd; lia|].
  all: apply parses_load_tag; [done|]; try done.
  - apply flex_ok_list in Hok as [_ Hok]. cbn [depth] in Hd. apply le_S_n, foldr_max_le in Hd.
    rewrite Forall_forall in *. auto.
  - apply flex_ok_dict in Hok as [_ Hok]. cbn [depth] in Hd. apply le_S_n, foldr_max_le in Hd.
    rewrite Forall_forall in *. intros kv Hkv. specialize (Hok kv Hkv). specialize (Hd kv Hkv).
    destruct (H kv Hkv), Hok. split; auto with lia.
Qed.

Lemma parses_load f : flex_ok f -> parses load (enc f) f.
Proof.
  intros Hok i rest Hi E. unfold load. eapply parses_load_fuel; [done| |done|exact E].
  apply (f_equal length) in E. unfold ia_rest in E. rewrite length_drop, length_app in E.
  pose proof (depth_le_enc f). lia.
Qed.

#[export] Instance flex_codec : Codec save load flex_ok.
Proof. intros f Hf. exists (enc f). split; [apply emits_save | by apply parses_load]. Qed.

(** C3. A flexible_type of any nesting that fits the C++ representation is read
    back unchanged from what [save] writes, whatever follows it; the loader
    terminates because each level of nesting takes a byte. *)
Theorem flexible_type_save_load f rest : flex_ok f ->
  exists bs, to_bytes save f = Some bs /\ of_bytes load (bs ++ rest) = Some f.
Proof. intros. by apply codec_roundtrip, flex_codec. Qed.

Definition sample : flexible_type :=
  FDict [(FString [Byte.x61], FList [FInt (-1); FUndefined; FVector [2 ^ 62; 2 ^ 63 + 5]]);
         (FInt 3, FDateTime (mk_dt (-5) 3));
         (FFloat 7, FImage (mk_image [Byte.x01; Byte.xff] 1 2 1 (-1) RAW_ARRAY))].

Lemma sample_ok : flex_ok sample.
Proof. repeat split; try done; repeat constructor; done. Qed.

Lemma flexible_type_save_load_witness :
  exists bs, to_bytes save sample = Some bs /\ of_bytes load (bs ++ [Byte.x07]) = Some sample.
Proof. exact (flexible_type_save_load sample [Byte.x07] sample_ok). Defined.

Lemma serializer_emits f bs :
  enc f = le_split 1 (128 + type_code (get_type f)) ++ bs -> emits (serializer f) bs.
Proof.
  intros E. destruct f; cbn [enc get_type] in E; apply app_inv_head in E; subst bs; cbn [serializer];
    try apply emits_direct_assign.
  - apply emits_seq; [apply emits_size | apply emits_write].
  - apply emits_seq; [apply emits_size | apply emits_write].
  - apply emits_seq; [apply emits_size | apply emits_for]. intros. apply emits_save.
  - apply emits_seq; [apply emits_size | apply emits_for]. intros.
    apply emits_seq; apply emits_save.
  - apply emits_nil.
  - apply emits_image.
Qed.

Lemma parses_deserializer_gen lt f bs :
  flex_ok f -> (forall x, flex_ok x -> (depth x < depth f)%nat -> parses lt (enc x) x) ->
  enc f = le_split 1 (128 + type_code (get_type f)) ++ bs ->
  parses (deserializer_with lt (get_type f)) bs f.
Proof.
  intros Hok Hlt E. apply parses_deserializer; [done| |done].
  destruct f; try done.
  - apply flex_ok_list in Hok as [_ Hok]. rewrite Forall_forall in *. intros x Hx.
    apply Hlt; [by apply Hok|]. cbn [depth]. apply le_n_S.
    pose proof (proj1 (foldr_max_le depth l _) (le_n _)) as Hm. rewrite Forall_forall in Hm. by apply Hm.
  - apply flex_ok_dict in Hok as [_ Hok]. rewrite Forall_forall in *. intros kv Hkv.
    destruct (Hok kv Hkv).
    pose proof (proj1 (foldr_max_le (fun kv => Nat.max (depth kv.1) (depth kv.2)) d _) (le_n _)) as Hm.
    rewrite Forall_forall in Hm. specialize (Hm kv Hkv). cbn in Hm.
    split; (apply Hlt; [done|]); cbn [depth]; lia.
Qed.

(** The payload codec used by the block encoder for the generic types. *)
Lemma serializer_codec f : flex_ok f ->
  exists bs, emits (serializer f) bs /\ parses (deserializer (get_type f)) bs f.
Proof.
  intros Hok. destruct (enc_tag f) as [bs E]. exists bs. split; [by apply serializer_emits|].
  apply parses_deserializer_gen; [done| |done]. intros. by apply parses_load.
Qed.

(** Values written by earlier versions, which put a four-byte tag after an
    unshifted type byte, are still read: the tag is skipped and the payload is
    read as the same value. *)
Theorem flexible_type_load_legacy f tag : flex_ok f -> is_u 32 tag ->
  exists payload, emits (serializer f) payload /\
    parses load (le_split 1 (type_code (get_type f)) ++ le_split 4 tag ++ payload) f.
Proof.
  intros Hok Htag. destruct (enc_tag f) as [bs E]. exists bs. split; [by apply serializer_emits|].
  pose proof (type_code_range (get_type f)).
  intros i rest Hi Er. unfold load.
  assert (depth f <= length (ibuf i))%nat as Hd.
  { pose proof (depth_le_enc f) as Hd. rewrite E in Hd.
    apply (f_equal length) in Er. unfold ia_rest in Er.
    rewrite length_drop, !length_app, !length_le_split in *. lia. }
  cbn [load_fuel]. revert i rest Hi Er Hd. intros i rest Hi Er Hd.
  refine (parses_bind _ _ _ _ (type_code (get_type f)) f _ _ i rest Hi Er).
  { apply parses_pod. split; [lia|]. change (2 ^ _) with 256. lia. }
  cbv beta. rewrite (proj2 (Z.ltb_lt _ _)) by lia.
  eapply parses_bind; [by apply parses_pod|]. cbv beta. rewrite type_of_code_code.
  apply parses_deserializer_gen; [done| |done]. intros x Hx Hlt.
  apply parses_load_fuel; [done|lia].
Qed.

(** [flex_type_enum_from_name] is the reverse of [flex_type_enum_to_name] for
    every type but LIST and UNDEFINED, whose printed names it does not accept. *)
Theorem type_name_roundtrip t :
  flex_type_enum_from_name (flex_type_enum_to_name t) =
  if bool_decide (t = LIST \/ t = UNDEFINED) then None else Some t.
Proof. by destruct t. Qed.
