(* ===== verification/TypeEncoding.v ===== *)
(** Typed block encoding: the model of [sframe/sarray_v2_type_encoding.cpp],
    [sframe/sarray_v2_type_encoding.hpp] and [sframe/sarray_v2_block_types.hpp].

    A block of a column is a vector of [flexible_type]s.  [typed_encode] writes
    it as one of: an empty block, one type, one type with a bit field of the
    UNDEFINED positions, or (several types) a plain serialized vector; integers,
    doubles, strings and vectors are packed by [frame_of_reference_encode_128].
    [typed_decode] reads a block back into a vector, and
    [typed_decode_stream_callback] calls a function on each element.

    A function that takes a callback is modelled by the list of the arguments
    the callback receives, in order. *)
From Stdlib Require Import ZArith Lia List Bool.
From stdpp Require Import prelude.
From coqutil Require Import Byte Word.LittleEndianList.
From S2P Require Import Prelude.
From S2P Require Import Archive.
From S2P Require Import Serialization.
From S2P Require Import IntegerPack.
From S2P Require Import DenseBitset.
From S2P Require Import FlexibleType.

Definition MAX_INTEGERS_PER_BLOCK : nat := 128.

(** ** Block metadata *)

Definition LZ4_COMPRESSION : Z := 1.
Definition IS_FLEXIBLE_TYPE : Z := 2.
Definition MULTIPLE_TYPE_BLOCK : Z := 4.

Record block_info := mk_info {
  bi_offset : Z;
  bi_length : Z;
  bi_block_size : Z;
  bi_num_elem : nat;
  bi_flags : Z;
  bi_content_type : Z
}.
Definition block_info_default : block_info := mk_info (u64 (-1)) 0 0 0 0 0.

Definition set_num_elem (n : nat) (b : block_info) : block_info :=
  mk_info (bi_offset b) (bi_length b) (bi_block_size b) n (bi_flags b) (bi_content_type b).
Definition or_flags (f : Z) (b : block_info) : block_info :=
  mk_info (bi_offset b) (bi_length b) (bi_block_size b) (bi_num_elem b) (Z.lor (bi_flags b) f)
    (bi_content_type b).
Definition set_block_size (s : nat) (b : block_info) : block_info :=
  mk_info (bi_offset b) (bi_length b) (Z.of_nat s) (bi_num_elem b) (bi_flags b) (bi_content_type b).

Definition is_undefined (f : flexible_type) : bool :=
  match f with FUndefined => true | _ => false end.

(** ** Numbers and doubles *)

(** The inner loop: up to [n] values that are not UNDEFINED, and what is left.
    [None]: [get<flex_int>] of a type that holds no number. *)
Fixpoint collect (n : nat) (data : list flexible_type) : option (list Z * list flexible_type) :=
  match n, data with
  | O, _ | _, [] => Some ([], data)
  | S n', f :: data' =>
      if is_undefined f then collect n data' else
      match get_int f, collect n' data' with
      | Some v, Some (buf, rest) => Some (u64 v :: buf, rest)
      | _, _ => None
      end
  end.

(** The outer loop; [f] is applied to each value of the buffer.  Every
    iteration that does not break consumes an element. *)
Fixpoint encode_blocks (f : Z -> Z) (fuel : nat) (data : list flexible_type) : writer :=
  match data with
  | [] => wnil
  | _ =>
      match fuel with
      | O => wfail
      | S fuel =>
          match collect MAX_INTEGERS_PER_BLOCK data with
          | None => wfail
          | Some ([], _) => wnil
          | Some (buf, rest) =>
              frame_of_reference_encode_128 (map f buf) >>> encode_blocks f fuel rest
          end
      end
  end.

Definition encode_number (data : list flexible_type) : writer :=
  encode_blocks (fun v => v) (length data) data.

(** [(v << 1) | (v >> 63)] and [(v >> 1) | (v << 63)] *)
Definition rotate_left (v : Z) : Z := Z.lor (u64 (Z.shiftl v 1)) (Z.shiftr v 63).
Definition rotate_right (v : Z) : Z := Z.lor (Z.shiftr v 1) (u64 (Z.shiftl v 63)).

Definition encode_double (data : list flexible_type) : writer :=
  encode_blocks rotate_left (length data) data.

(** The loop over [ret]; [buf] is [buf[bufstart .. buflen)] *)
Fixpoint decode_blocks (f : Z -> Z) (ret : list flexible_type) (buf : list Z)
    (num_values_to_read : nat) : reader (list flexible_type) :=
  match ret with
  | [] => rret []
  | x :: ret =>
      if is_undefined x then
        (r <- decode_blocks f ret buf num_values_to_read ;; rret (x :: r))
      else
        match buf with
        | v :: buf =>
            match set_int v x with
            | None => rfail
            | Some y => r <- decode_blocks f ret buf (num_values_to_read - 1) ;; rret (y :: r)
            end
        | [] =>
            block <- frame_of_reference_decode_128
                       (Nat.min num_values_to_read MAX_INTEGERS_PER_BLOCK) ;;
            match map f block with
            | [] => rfail
            | v :: buf =>
                match set_int v x with
                | None => rfail
                | Some y => r <- decode_blocks f ret buf (num_values_to_read - 1) ;; rret (y :: r)
                end
            end
        end
  end.

Definition decode_number (ret : list flexible_type) (num_undefined : nat) : reader (list flexible_type) :=
  decode_blocks (fun v => v) ret [] (length ret - num_undefined).
Definition decode_double (ret : list flexible_type) (num_undefined : nat) : reader (list flexible_type) :=
  decode_blocks rotate_right ret [] (length ret - num_undefined).

(** The streaming decoders.  The fuel is [num_elements]: every block has at
    least one element. *)
Fixpoint decode_stream_blocks {A} (f : Z -> A) (fuel num_elements : nat) : reader (list A) :=
  match num_elements with
  | O => rret []
  | _ =>
      match fuel with
      | O => rfail
      | S fuel =>
          let buflen := Nat.min num_elements MAX_INTEGERS_PER_BLOCK in
          buf <- frame_of_reference_decode_128 buflen ;;
          r <- decode_stream_blocks f fuel (num_elements - buflen) ;;
          rret (map f buf ++ r)
      end
  end.
Definition decode_number_stream (num_elements : nat) : reader (list flexible_type) :=
  decode_stream_blocks (fun v => FInt (i64 v)) num_elements num_elements.
Definition decode_double_stream (num_elements : nat) : reader (list flexible_type) :=
  decode_stream_blocks (fun v => FFloat (u64 (rotate_right v))) num_elements num_elements.

(** ** Strings *)

(** The dictionary: [unique_values] maps a string to its position in
    [str_values], so the list alone determines it. *)
Fixpoint find_index (s : bytes) (l : list bytes) : option nat :=
  match l with
  | [] => None
  | x :: l =>
      if decide (x = s) then Some O
      else match find_index s l with Some i => Some (S i) | None => None end
  end.

(** The first loop of [encode_string].  Returns the strings and the indexes, or
    [inl] when there are more than 64 unique values ([break]); the outer
    [None] is [get<std::string>] of another type. *)
Fixpoint build_dictionary (data : list flexible_type) (str_values : list bytes) (idx_values : list nat)
    : option (unit + (list bytes * list nat)) :=
  match data with
  | [] => Some (inr (str_values, idx_values))
  | f :: data =>
      if is_undefined f then build_dictionary data str_values idx_values else
      match get_string f with
      | None => None
      | Some s =>
          match find_index s str_values with
          | Some i => build_dictionary data str_values (idx_values ++ [i])
          | None =>
              if (64 <=? length str_values)%nat then Some (inl tt)
              else build_dictionary data (str_values ++ [s]) (idx_values ++ [length str_values])
          end
      end
  end.

(** The strings of the elements that are not UNDEFINED *)
Fixpoint strings_of (data : list flexible_type) : option (list bytes) :=
  match data with
  | [] => Some []
  | f :: data =>
      if is_undefined f then strings_of data else
      match get_string f, strings_of data with
      | Some s, Some l => Some (s :: l)
      | _, _ => None
      end
  end.

Definition ints_of (l : list nat) : list flexible_type := map (fun n => FInt (i64 (Z.of_nat n))) l.

Definition encode_string (data : list flexible_type) : writer :=
  match build_dictionary data [] [] with
  | None => wfail
  | Some (inr (str_values, idx_values)) =>
      bool_save true >>>
      variable_encode (Z.of_nat (length str_values)) >>>
      wfor (fun str => variable_encode (Z.of_nat (length str)) >>> write str) str_values >>>
      encode_number (ints_of idx_values)
  | Some (inl _) =>
      match strings_of data with
      | None => wfail
      | Some strs =>
          bool_save false >>> encode_number (ints_of (map length strs)) >>> wfor write strs
      end
  end.

(** [size_t(x.get<flex_int>())] *)
Definition get_size (f : flexible_type) : option nat :=
  match get_int f with Some i => Some (Z.to_nat (u64 i)) | None => None end.

Definition option_reader {A} (o : option A) : reader A :=
  match o with Some x => rret x | None => rfail end.

(** The last loop of [decode_string_stream] *)
Fixpoint read_strings (lens : list nat) : reader (list flexible_type) :=
  match lens with
  | [] => rret []
  | str_len :: lens => s <- read str_len ;; r <- read_strings lens ;; rret (FString s :: r)
  end.

Definition decode_string_stream (num_elements : nat) : reader (list flexible_type) :=
  use_dictionary_encoding <- bool_load ;;
  if (use_dictionary_encoding : bool) then
    (num_values <- variable_decode ;;
     str_values <- rrepeat (Z.to_nat num_values)
                     (str_len <- variable_decode ;; read (Z.to_nat str_len)) ;;
     idx_values <- decode_number (replicate num_elements (FInt 0)) 0 ;;
     option_reader (mapM (fun x => i ← get_size x; s ← str_values !! i; Some (FString s))
                      idx_values))
  else
    (idx_values <- decode_number (replicate num_elements (FInt 0)) 0 ;;
     lens <- option_reader (mapM get_size idx_values) ;;
     read_strings lens).

(** [while (last_id < ret.size() && ret[last_id].get_type() == UNDEFINED) ++last_id]:
    [last_id] is an [unsigned int].  A loop that takes more steps than there are
    positions has come back to the first one: it never ends ([None]). *)
Fixpoint skip_undefined (fuel : nat) (ret : list flexible_type) (last_id : Z) : option Z :=
  match ret !! Z.to_nat last_id with
  | None => Some last_id
  | Some x =>
      if is_undefined x then
        match fuel with
        | O => None
        | S fuel => skip_undefined fuel ret (u32 (last_id + 1))
        end
      else Some last_id
  end.

(** The callback of [decode_string] and [decode_vector], which captures [ret] and
    [last_id]: the value goes to the next position of [ret] that is not
    UNDEFINED.  [None] also when there is none: [ret[last_id]] is past the end. *)
Definition fill_value (ret : list flexible_type) (last_id : Z) (val : flexible_type)
    : option (list flexible_type * Z) :=
  match skip_undefined (length ret) ret last_id with
  | None => None
  | Some last_id =>
      if last_id <? Z.of_nat (length ret)
      then Some (<[Z.to_nat last_id := val]> ret, u32 (last_id + 1)) else None
  end.

(** The calls of the callback on [vals] *)
Fixpoint fill_values (ret : list flexible_type) (last_id : Z) (vals : list flexible_type)
    : option (list flexible_type) :=
  match vals with
  | [] => Some ret
  | val :: vals =>
      match fill_value ret last_id val with
      | Some (ret, last_id) => fill_values ret last_id vals
      | None => None
      end
  end.

Definition decode_string (ret : list flexible_type) (num_undefined : nat) : reader (list flexible_type) :=
  vals <- decode_string_stream (length ret - num_undefined) ;; option_reader (fill_values ret 0 vals).

(** ** Vectors *)

Fixpoint vectors_of (data : list flexible_type) : option (list (list Z)) :=
  match data with
  | [] => Some []
  | f :: data =>
      if is_undefined f then vectors_of data else
      match get_vec f, vectors_of data with
      | Some v, Some l => Some (v :: l)
      | _, _ => None
      end
  end.

Definition encode_vector (data : list flexible_type) : writer :=
  match vectors_of data with
  | None => wfail
  | Some vecs =>
      encode_number (ints_of (map length vecs)) >>>
      encode_double (map FFloat (concat vecs))
  end.

(** The last loop of [decode_vector_stream]; [None]: [values] is too short *)
Fixpoint split_values (lens : list nat) (values : list Z) : option (list flexible_type) :=
  match lens with
  | [] => Some []
  | n :: lens =>
      if (n <=? length values)%nat then
        match split_values lens (drop n values) with
        | Some r => Some (FVector (take n values) :: r)
        | None => None
        end
      else None
  end.

Definition decode_vector_stream (num_elements : nat) : reader (list flexible_type) :=
  lengths <- decode_number (replicate num_elements flex_default) 0 ;;
  lens <- option_reader (mapM get_size lengths) ;;
  let total_num_values := Z.to_nat (u64 (Z.of_nat (sum_list lens))) in
  values <- decode_double (replicate total_num_values flex_default) 0 ;;
  values <- option_reader (mapM get_float values) ;;
  option_reader (split_values lens values).

Definition decode_vector (ret : list flexible_type) (num_undefined : nat) : reader (list flexible_type) :=
  vals <- decode_vector_stream (length ret - num_undefined) ;; option_reader (fill_values ret 0 vals).

(** ** Blocks *)

Definition types_of (data : list flexible_type) : option FixedBitset.fixed_dense_bitset :=
  foldl (fun acc f =>
           match acc with
           | None => None
           | Some b =>
               match FixedBitset.set_bit_unsync 16 b (Z.to_nat (type_code (get_type f))) with
               | Some (_, b) => Some b
               | None => None
               end
           end) (Some (FixedBitset.clear 16 (FixedBitset.new 16))) data.

Definition undefined_bitset (data : list flexible_type) : option DenseBitset.dense_bitset :=
  match DenseBitset.new (length data) with
  | None => None
  | Some d =>
      foldl (fun acc p =>
               match acc with
               | None => None
               | Some d =>
                   if is_undefined p.2 then
                     match DenseBitset.set_bit_unsync d p.1 with
                     | Some (_, d) => Some d
                     | None => None
                     end
                   else Some d
               end) (Some (DenseBitset.clear d)) (zip (seq 0 (length data)) data)
  end.

Definition appeared (types : FixedBitset.fixed_dense_bitset) (t : flex_type_enum) : option bool :=
  FixedBitset.get 16 types (Z.to_nat (type_code t)).

(** The type-specific part of [typed_encode] *)
Definition encode_content (types : FixedBitset.fixed_dense_bitset) (data : list flexible_type) : writer :=
  match appeared types INTEGER, appeared types FLOAT, appeared types STRING, appeared types VECTOR with
  | Some has_int, Some has_float, Some has_string, Some has_vector =>
      if has_int : bool then encode_number data
      else if has_float : bool then encode_double data
      else if has_string : bool then encode_string data
      else if has_vector : bool then encode_vector data
      else wfor (fun f => if is_undefined f then wnil else serializer f) data
  | _, _, _, _ => wfail
  end.

(** The first type that appeared and is not UNDEFINED *)
Definition other_type (types : FixedBitset.fixed_dense_bitset) : option Z :=
  match FixedBitset.elements 16 types with
  | None => None
  | Some l =>
      match List.filter (fun t => negb (Z.of_nat t =? type_code UNDEFINED)) l with
      | t :: _ => Some (Z.of_nat t)
      | [] => None
      end
  end.

(** What [typed_encode] writes, and whether it is a block of several types *)
Definition encode_block (data : list flexible_type) : option (bool * writer) :=
  match types_of data with
  | None => None
  | Some types =>
      let num_types := FixedBitset.popcount 16 types in
      let header := pod_save 1 (u8 num_types) in
      if num_types =? 0 then Some (false, header)
      else if num_types =? 1 then
        match data with
        | [] => None
        | f :: _ =>
            let header := header >>> pod_save 1 (type_code (get_type f)) in
            if is_undefined f then Some (false, header)
            else Some (false, header >>> encode_content types data)
        end
      else
        match appeared types UNDEFINED with
        | None => None
        | Some has_undefined =>
            if (num_types =? 2) && has_undefined then
              match other_type types, undefined_bitset data with
              | Some t, Some d =>
                  Some (false, header >>> pod_save 1 t >>>
                               write (concat (map (le_split 8) (DenseBitset.array d))) >>>
                               encode_content types data)
              | _, _ => None
              end
            else Some (true, header >>> vector_save save data)
        end
  end.

(** [typed_encode(data, block, oarc)] *)
Definition typed_encode (data : list flexible_type) (block : block_info) (oarc : oarchive)
    : option (block_info * oarchive) :=
  let block := set_num_elem (length data) (or_flags IS_FLEXIBLE_TYPE block) in
  match encode_block data with
  | None => None
  | Some (multiple, w) =>
      match w oarc with
      | None => None
      | Some oarc =>
          let block := if multiple then or_flags MULTIPLE_TYPE_BLOCK block else block in
          Some (set_block_size (ooff oarc) block, oarc)
      end
  end.

(** [iarc.read(d.array, sizeof(size_t) * d.arrlen)] into a cleared bit
    set of [n] bits *)
Definition read_bitset (n : nat) : reader DenseBitset.dense_bitset :=
  let arrlen := words_for n in
  b <- read (8 * arrlen) ;; rret (DenseBitset.mk (pods_of_bytes 8 arrlen b) n).

(** [for (auto t: d) ret[t].reset(UNDEFINED)] *)
Definition undefine (positions : list nat) (ret : list flexible_type) : option (list flexible_type) :=
  foldl (fun acc t =>
           match acc with
           | None => None
           | Some ret => if (t <? length ret)%nat then Some (<[t := FUndefined]> ret) else None
           end) (Some ret) positions.

(** The generic deserialization loop of [typed_decode] *)
Fixpoint decode_generic (ret : list flexible_type) : reader (list flexible_type) :=
  match ret with
  | [] => rret []
  | x :: ret =>
      if is_undefined x then (r <- decode_generic ret ;; rret (x :: r))
      else (y <- deserializer (get_type x) ;; r <- decode_generic ret ;; rret (y :: r))
  end.

Definition decode_content (column_type : flex_type_enum) (ret : list flexible_type) (num_undefined : nat)
    : reader (list flexible_type) :=
  match column_type with
  | INTEGER => decode_number ret num_undefined
  | FLOAT => decode_double ret num_undefined
  | STRING => decode_string ret num_undefined
  | VECTOR => decode_vector ret num_undefined
  | _ => decode_generic ret
  end.

(** [typed_decode] from the archive on; [num_types] above 2 in a block that is
    not marked MULTIPLE_TYPE_BLOCK leaves the column type indeterminate. *)
Definition decode_block (info : block_info) (ret : list flexible_type) : reader (list flexible_type) :=
  let dsize := bi_num_elem info in
  let ret := list.resize dsize flex_default ret in
  num_types <- pod_load 1 ;;
  if negb (Z.land (bi_flags info) MULTIPLE_TYPE_BLOCK =? 0) then vector_load load
  else if num_types =? 0 then rret ret
  else if num_types =? 1 then
    (c <- pod_load 1 ;;
     match type_of_code c with
     | None => rfail
     | Some column_type =>
         let ret := replicate dsize (reset column_type) in
         if decide (column_type = UNDEFINED) then rret ret else decode_content column_type ret 0
     end)
  else if num_types =? 2 then
    (c <- pod_load 1 ;;
     match type_of_code c with
     | None => rfail
     | Some column_type =>
         d <- read_bitset dsize ;;
         positions <- option_reader (DenseBitset.elements d) ;;
         ret <- option_reader (undefine positions (replicate dsize (reset column_type))) ;;
         decode_content column_type ret (Z.to_nat (DenseBitset.popcount d))
     end)
  else rfail.

(** Returns the boolean result and the vector; [None] is undefined behaviour. *)
Definition typed_decode (info : block_info) (buf : bytes) (ret : list flexible_type)
    : option (bool * list flexible_type) :=
  if Z.land (bi_flags info) IS_FLEXIBLE_TYPE =? 0 then Some (false, ret) else
  match decode_block info ret (iarchive_buf buf) with
  | None => None
  | Some (ret, _) => Some ((length ret =? bi_num_elem info)%nat, ret)
  end.

(** ** The streaming decoder *)

(** [++last_id] on an [int]: undefined at the largest value *)
Definition next_id (last_id : Z) : option Z :=
  if last_id <? 2 ^ 31 - 1 then Some (last_id + 1) else None.

(** [while (last_id < dsize && undefined_bitmap.get(last_id))]: the number of
    UNDEFINED values it emits, and [last_id] after it.  The comparison is on
    [size_t]; the loop ends after at most [dsize] steps. *)
Fixpoint flush (d : DenseBitset.dense_bitset) (dsize fuel : nat) (last_id : Z) : option (nat * Z) :=
  if u64 last_id <? Z.of_nat dsize then
    match DenseBitset.get d (Z.to_nat (u64 last_id)) with
    | None => None
    | Some false => Some (O, last_id)
    | Some true =>
        match fuel, next_id last_id with
        | S fuel, Some last_id =>
            match flush d dsize fuel last_id with
            | Some (n, last_id) => Some (S n, last_id)
            | None => None
            end
        | _, _ => None
        end
    end
  else Some (O, last_id).

(** [stream_callback] on each value, then the final UNDEFINED values; the
    bitmap is consulted only when [num_undefined] is not zero *)
Fixpoint stream_emit (num_undefined : nat) (d : DenseBitset.dense_bitset) (dsize : nat) (last_id : Z)
    (vals : list flexible_type) : option (list flexible_type) :=
  let run := if (num_undefined =? 0)%nat then Some (O, last_id) else flush d dsize dsize last_id in
  match run, vals with
  | None, _ => None
  | Some (n, _), [] => Some (replicate n FUndefined)
  | Some (n, last_id), v :: vals =>
      match next_id last_id with
      | None => None
      | Some last_id =>
          match stream_emit num_undefined d dsize last_id vals with
          | Some r => Some (replicate n FUndefined ++ v :: r)
          | None => None
          end
      end
  end.

(** The loop over positions used for the other types: [n] positions from [i] *)
Fixpoint stream_generic (num_undefined : nat) (d : DenseBitset.dense_bitset) (t : flex_type_enum)
    (n i : nat) : reader (list flexible_type) :=
  match n with
  | O => rret []
  | S n =>
      undef <- (if (num_undefined =? 0)%nat then rret false else option_reader (DenseBitset.get d i)) ;;
      x <- (if (undef : bool) then rret FUndefined else deserializer t) ;;
      r <- stream_generic num_undefined d t n (S i) ;;
      rret (x :: r)
  end.

Definition stream_content (t : flex_type_enum) (num_undefined : nat) (d : DenseBitset.dense_bitset)
    (dsize : nat) : reader (list flexible_type) :=
  let elements_to_decode := (dsize - num_undefined)%nat in
  match t with
  | INTEGER =>
      vals <- decode_number_stream elements_to_decode ;;
      option_reader (stream_emit num_undefined d dsize 0 vals)
  | FLOAT =>
      vals <- decode_double_stream elements_to_decode ;;
      option_reader (stream_emit num_undefined d dsize 0 vals)
  | STRING =>
      vals <- decode_string_stream elements_to_decode ;;
      option_reader (stream_emit num_undefined d dsize 0 vals)
  | VECTOR =>
      vals <- decode_vector_stream elements_to_decode ;;
      option_reader (stream_emit num_undefined d dsize 0 vals)
  | _ =>
      vals <- stream_generic num_undefined d t dsize 0 ;;
      final <- option_reader (stream_emit num_undefined d dsize 0 []) ;;
      rret (vals ++ final)
  end.

Definition stream_block (info : block_info) : reader (list flexible_type) :=
  let dsize := bi_num_elem info in
  num_types <- pod_load 1 ;;
  if negb (Z.land (bi_flags info) MULTIPLE_TYPE_BLOCK =? 0) then vector_load load
  else if num_types =? 0 then rret []
  else if num_types =? 1 then
    (c <- pod_load 1 ;;
     match type_of_code c with
     | None => rfail
     | Some column_type =>
         if decide (column_type = UNDEFINED) then rret (replicate dsize FUndefined)
         else stream_content column_type 0 DenseBitset.empty_bitset dsize
     end)
  else if num_types =? 2 then
    (c <- pod_load 1 ;;
     match type_of_code c with
     | None => rfail
     | Some column_type =>
         d <- read_bitset dsize ;;
         stream_content column_type (Z.to_nat (DenseBitset.popcount d)) d dsize
     end)
  else rfail.

(** The result and the arguments of the callback, in order *)
Definition typed_decode_stream_callback (info : block_info) (buf : bytes)
    : option (bool * list flexible_type) :=
  if Z.land (bi_flags info) IS_FLEXIBLE_TYPE =? 0 then Some (false, []) else
  match stream_block info (iarchive_buf buf) with
  | None => None
  | Some (vals, _) => Some (true, vals)
  end.

(** ** Executable checks *)

Definition encode_decode (data : list flexible_type) : option (bool * list flexible_type) :=
  match typed_encode data block_info_default oarchive_new with
  | Some (info, o) => typed_decode info (oa_data o) []
  | None => None
  end.
Definition encode_stream (data : list flexible_type) : option (bool * list flexible_type) :=
  match typed_encode data block_info_default oarchive_new with
  | Some (info, o) => typed_decode_stream_callback info (oa_data o)
  | None => None
  end.

(** ** Sequences of packed blocks *)

(** The values that are not UNDEFINED *)
Definition present (data : list flexible_type) : list flexible_type :=
  List.filter (fun f => negb (is_undefined f)) data.

(** The shape of the data: UNDEFINED where it is, [x0] elsewhere *)
Definition mask (x0 : flexible_type) (data : list flexible_type) : list flexible_type :=
  map (fun f => if is_undefined f then FUndefined else x0) data.

(** [bs] is a sequence of frame-of-reference blocks that hold [ws], 128 each
    but for the last *)
Inductive chunked : list Z -> bytes -> Prop :=
| chunked_nil : chunked [] []
| chunked_cons ws b bs :
    ws <> [] ->
    parses (frame_of_reference_decode_128 (Nat.min (length ws) MAX_INTEGERS_PER_BLOCK)) b
      (take MAX_INTEGERS_PER_BLOCK ws) ->
    chunked (drop MAX_INTEGERS_PER_BLOCK ws) bs ->
    chunked ws (b ++ bs).

Lemma collect_spec n data ws :
  Forall2 (fun f w => exists v, get_int f = Some v /\ w = u64 v) (present data) ws ->
  exists rest, collect n data = Some (take n ws, rest) /\
    Forall2 (fun f w => exists v, get_int f = Some v /\ w = u64 v) (present rest) (drop n ws) /\
    (length rest <= length data)%nat /\ (n <> 0%nat -> ws <> [] -> (length rest < length data)%nat).
Proof.
  revert n ws. induction data as [|f data IH]; intros n ws H.
  - apply Forall2_nil_inv_l in H as ->. exists []. destruct n; cbn; (split; [done|]; split; [constructor|]; split; [lia|done]).
  - destruct n as [|n]; [by exists (f :: data)|]. cbn [collect].
    unfold present in H; cbn [List.filter] in H. fold (present data) in H.
    destruct (is_undefined f) eqn:Ef; cbn [negb] in H.
    + destruct (IH (S n) ws H) as (rest & E & Hr & Hl & Hl'). exists rest.
      split_and!; [done..| |]; cbn [length]; lia.
    + apply Forall2_cons_inv_l in H as (w & ws' & (v & Hv & ->) & H & ->).
      destruct (IH n ws' H) as (rest & E & Hr & Hl & _). rewrite Hv, E. exists rest.
      split_and!; [done..| |]; cbn [length]; lia.
Qed.

Lemma encode_blocks_spec g fuel data ws :
  (length data <= fuel)%nat ->
  Forall2 (fun f w => exists v, get_int f = Some v /\ w = u64 v) (present data) ws ->
  Forall (is_u 64) (map g ws) ->
  exists bs, emits (encode_blocks g fuel data) bs /\ chunked (map g ws) bs.
Proof.
  revert data ws. induction fuel as [|fuel IH]; intros data ws Hf H Hu.
  - destruct data; [|cbn in Hf; lia]. apply Forall2_nil_inv_l in H as ->.
    exists []. split; [apply emits_nil|constructor].
  - destruct (collect_spec MAX_INTEGERS_PER_BLOCK data ws H) as (rest & E & Hr & Hl & Hl').
    destruct data as [|f data].
    { apply Forall2_nil_inv_l in H as ->. exists []. split; [apply emits_nil|constructor]. }
    cbn [encode_blocks]. rewrite E. destruct ws as [|w ws].
    { exists []. rewrite take_nil. split; [apply emits_nil|constructor]. }
    set (vs := w :: ws) in *.
    assert (take MAX_INTEGERS_PER_BLOCK vs = w :: take 127 ws) as -> by done.
    rewrite <- (take_drop MAX_INTEGERS_PER_BLOCK (map g vs)) in Hu.
    apply Forall_app in Hu as [Hu1 Hu2].
    destruct (frame_codec (take MAX_INTEGERS_PER_BLOCK (map g vs)) Hu1) as (b & He & Hp & _).
    { rewrite length_take. unfold MAX_INTEGERS_PER_BLOCK. lia. }
    rewrite skipn_map in Hu2.
    destruct (IH rest (drop MAX_INTEGERS_PER_BLOCK vs)) as (bs & Heb & Hc); [|done|done|].
    { specialize (Hl' ltac:(done) ltac:(done)). lia. }
    exists (b ++ bs). split.
    + apply emits_seq; [|done]. by rewrite firstn_map in He.
    + apply chunked_cons; [done| |by rewrite skipn_map].
      rewrite length_take in Hp. by rewrite Nat.min_comm.
Qed.

Lemma decode_stream_spec {A} (h : Z -> A) fuel ws bs :
  chunked ws bs -> (length ws <= fuel)%nat ->
  parses (decode_stream_blocks h fuel (length ws)) bs (map h ws).
Proof.
  intros Hc. revert fuel. induction Hc as [|ws b bs Hne Hp Hc IH]; intros fuel Hf.
  - destruct fuel; apply parses_ret.
  - destruct fuel as [|fuel]; [destruct ws; cbn in Hf; [done|lia]|].
    cbn [decode_stream_blocks]. destruct (length ws) as [|n] eqn:En; [by destruct ws|]. rewrite <- En in *.
    eapply parses_bind; [exact Hp|]. cbv beta.
    assert (length (drop MAX_INTEGERS_PER_BLOCK ws) = length ws - Nat.min (length ws) MAX_INTEGERS_PER_BLOCK)%nat
      as El by (rewrite length_drop; lia).
    eapply parses_bind_nil; [rewrite <- El; apply IH; rewrite length_drop; unfold MAX_INTEGERS_PER_BLOCK; lia|].
    rewrite <- map_app, take_drop. apply parses_ret.
Qed.

(** Filling [vals] in the positions of a shape *)
Lemma decode_blocks_spec g x0 mkv ws bs data vals buf :
  is_undefined x0 = false -> (forall v, set_int v x0 = Some (mkv v)) -> chunked ws bs ->
  present data = vals -> vals = map mkv (buf ++ map g ws) ->
  parses (decode_blocks g (mask x0 data) buf (length vals)) bs data.
Proof.
  intros Hx0 Hset. revert ws bs vals buf. induction data as [|f data IH]; intros ws bs vals buf Hc Hd Hv.
  - cbn in Hd. subst vals. symmetry in Hv. apply map_eq_nil, app_eq_nil in Hv as [-> Hv].
    apply map_eq_nil in Hv as ->. inversion Hc; subst; [apply parses_ret|done].
  - cbn [mask map decode_blocks]. fold (mask x0 data).
    unfold present in Hd; cbn [List.filter] in Hd. fold (present data) in Hd.
    destruct (is_undefined f) eqn:Ef; cbn [negb] in Hd.
    + change (is_undefined FUndefined) with true. cbv iota.
      assert (f = FUndefined) as -> by (by destruct f).
      eapply parses_bind_nil; [by eapply IH|apply parses_ret].
    + rewrite Hx0. subst vals. destruct buf as [|v buf].
      * destruct Hc as [|ws b bs Hne Hp Hc]; [done|]. destruct ws as [|w ws]; [done|].
        assert (length (f :: present data) = length (w :: ws)) as El.
        { apply (f_equal length) in Hv. by rewrite length_map, length_app, length_map in Hv. }
        rewrite El. eapply parses_bind; [exact Hp|]. cbv beta.
        assert (take MAX_INTEGERS_PER_BLOCK (w :: ws) = w :: take 127 ws) as -> by done.
        cbn [map]. rewrite Hset. cbn [app map] in Hv. injection Hv as Hf Hv.
        eapply parses_bind_nil; [|rewrite <- Hf; apply parses_ret].
        replace (length (w :: ws) - 1)%nat with (length (present data)) by (cbn in *; lia).
        eapply IH; [exact Hc|done|].
        rewrite Hv. f_equal. rewrite <- map_app. f_equal.
        change (drop MAX_INTEGERS_PER_BLOCK (w :: ws)) with (drop 127 ws). by rewrite take_drop.
      * rewrite Hset. cbn [app map] in Hv. injection Hv as Hf Hv.
        eapply parses_bind_nil; [|rewrite <- Hf; apply parses_ret].
        replace (length (f :: present data) - 1)%nat with (length (present data)) by (cbn; lia).
        by eapply IH.
Qed.

(** Left rotation by one: the top bit becomes the low bit. *)
Lemma rotate_left_eq v : is_u 64 v -> rotate_left v = 2 * (v mod 2 ^ 63) + v / 2 ^ 63.
Proof.
  intros Hv. unfold is_u in Hv. unfold rotate_left. rewrite Z.shiftr_div_pow2 by lia.
  assert (u64 (Z.shiftl v 1) = Z.shiftl (v mod 2 ^ 63) 1) as ->.
  { rewrite !Z.shiftl_mul_pow2 by lia. unfold wrap. change (2 ^ 1) with 2. dlia. }
  rewrite lor_shiftl_add; [lia|lia|dlia].
Qed.

Lemma rotate_left_u v : is_u 64 v -> is_u 64 (rotate_left v).
Proof. intros Hv. rewrite rotate_left_eq by done. unfold is_u in *. dlia. Qed.

Lemma rotate_right_left v : is_u 64 v -> rotate_right (rotate_left v) = v.
Proof.
  intros Hv. rewrite rotate_left_eq by done. unfold is_u in Hv.
  set (h := v / 2 ^ 63). set (l := v mod 2 ^ 63).
  assert (v = 2 ^ 63 * h + l /\ 0 <= l < 2 ^ 63 /\ 0 <= h < 2) as (Ev & Hl & Hh)
    by (subst h l; dlia).
  unfold rotate_right. rewrite Z.shiftr_div_pow2, Z.lor_comm by lia. change (2 ^ 1) with 2.
  replace ((2 * l + h) / 2) with l by dlia.
  assert (u64 (Z.shiftl (2 * l + h) 63) = Z.shiftl h 63) as ->.
  { rewrite !Z.shiftl_mul_pow2 by lia. unfold wrap.
    replace ((2 * l + h) * 2 ^ 63) with (h * 2 ^ 63 + l * 2 ^ 64) by lia.
    rewrite Z.mod_add by lia. apply Z.mod_small. lia. }
  rewrite lor_shiftl_add by lia. lia.
Qed.

Definition num_undef (data : list flexible_type) : nat := (length data - length (present data))%nat.

Lemma present_length data : (length (present data) <= length data)%nat.
Proof. apply filter_length_le. Qed.

Lemma mask_present x0 data :
  (length (mask x0 data) - num_undef data)%nat = length (present data).
Proof.
  unfold mask, num_undef. rewrite length_map. pose proof (present_length data). lia.
Qed.

(** A column of one type [t] with UNDEFINED values *)
Definition column (t : flex_type_enum) (data : list flexible_type) : Prop :=
  Forall (fun f => get_type f = t) (present data).

Lemma present_ok data : Forall flex_ok data -> Forall flex_ok (present data).
Proof.
  intros H. rewrite Forall_forall in *. intros x Hx. apply H.
  apply list_elem_of_In, filter_In in Hx as [Hx _]. by apply list_elem_of_In.
Qed.

Lemma Forall_in {A} (P : A -> Prop) l x : Forall P l -> x ∈ l -> P x.
Proof. rewrite Forall_forall. auto. Qed.

(** What a content encoder and its two decoders promise: both return the data,
    the vector decoder in place and the streaming one in order. *)
Definition content_codec (w : writer) (dec : reader (list flexible_type))
    (stream : reader (list flexible_type)) (data : list flexible_type) : Prop :=
  exists bs, emits w bs /\ parses dec bs data /\ parses stream bs (present data).

Lemma number_codec data : Forall flex_ok data -> column INTEGER data ->
  content_codec (encode_number data) (decode_number (mask (FInt 0) data) (num_undef data))
    (decode_number_stream (length (present data))) data.
Proof.
  intros Hok Hcol. apply present_ok in Hok.
  set (ws := map (fun f => match f with FInt i => u64 i | _ => 0 end) (present data)).
  assert (present data = map (fun v => FInt (i64 v)) ws) as Hp.
  { unfold ws. rewrite map_map. rewrite <- map_id at 1. apply map_ext_in. intros f Hf.
    apply list_elem_of_In in Hf. pose proof (Forall_in _ _ _ Hok Hf).
    pose proof (Forall_in _ _ _ Hcol Hf). destruct f; try done. by rewrite signed_wrap. }
  destruct (encode_blocks_spec (fun v => v) (length data) data ws) as (bs & He & Hc).
  - done.
  - unfold ws. clear Hp. apply Forall2_fmap_r. apply Forall_Forall2_diag.
    eapply Forall_impl; [exact Hcol|]. intros [] H; try done. by eexists.
  - rewrite map_id. unfold ws. apply Forall_fmap, Forall_true. intros []; cbn; try done.
    apply (wrap_range 64). lia.
  - rewrite map_id in Hc. exists bs. split_and!; [done| |].
    + unfold decode_number. rewrite mask_present.
      eapply (decode_blocks_spec _ _ (fun v => FInt (i64 v)) ws); try done.
      cbn. by rewrite map_id.
    + rewrite Hp. unfold decode_number_stream. rewrite length_map.
      by apply (decode_stream_spec (fun v => FInt (i64 v))).
Qed.

Lemma double_codec data : Forall flex_ok data -> column FLOAT data ->
  content_codec (encode_double data) (decode_double (mask (FFloat 0) data) (num_undef data))
    (decode_double_stream (length (present data))) data.
Proof.
  intros Hok Hcol. apply present_ok in Hok.
  set (ws := map (fun f => match f with FFloat b => b | _ => 0 end) (present data)).
  assert (Forall (is_u 64) ws) as Hu.
  { unfold ws. apply Forall_fmap. eapply Forall_impl; [exact Hok|]. by intros []. }
  assert (present data = map (fun v => FFloat (u64 v)) (map rotate_right (map rotate_left ws))) as Hp.
  { transitivity (map (fun v => FFloat v) ws).
    - unfold ws. rewrite map_map. rewrite <- map_id at 1. apply map_ext_in. intros f Hf.
      apply list_elem_of_In in Hf. pose proof (Forall_in _ _ _ Hcol Hf). by destruct f.
    - rewrite !map_map. apply map_ext_in. intros v Hv. apply list_elem_of_In in Hv.
      pose proof (Forall_in _ _ _ Hu Hv). by rewrite rotate_right_left, wrap_small. }
  destruct (encode_blocks_spec rotate_left (length data) data ws) as (bs & He & Hc).
  - done.
  - unfold ws. apply Forall2_fmap_r. apply Forall_Forall2_diag.
    apply Forall_forall. intros f Hf. pose proof (Forall_in _ _ _ Hcol Hf).
    pose proof (Forall_in _ _ _ Hok Hf). destruct f as [|b| | | | | | |]; try done.
    exists (i64 b). split; [done|]. rewrite wrap_signed by lia. by rewrite wrap_small.
  - apply Forall_fmap. eapply Forall_impl; [exact Hu|]. intros. by apply rotate_left_u.
  - exists bs. split_and!; [done| |].
    + unfold decode_double. rewrite mask_present.
      eapply (decode_blocks_spec _ _ (fun v => FFloat (u64 v)) (map rotate_left ws)); done.
    + rewrite Hp, map_map. unfold decode_double_stream. rewrite !length_map.
      rewrite <- (length_map rotate_left ws). by apply decode_stream_spec.
Qed.

(** ** Strings and vectors *)

(** The run of UNDEFINED values at the front *)
Fixpoint leading (data : list flexible_type) : nat :=
  match data with f :: data => if is_undefined f then S (leading data) else O | [] => O end.

Lemma leading_split suf : exists rest,
  suf = replicate (leading suf) FUndefined ++ rest /\ present rest = present suf /\
  (rest = [] \/ exists v rest', rest = v :: rest' /\ is_undefined v = false).
Proof.
  induction suf as [|f suf (rest & E & Hp & Hr)]; [exists []; auto|]. cbn [leading].
  destruct (is_undefined f) eqn:Ef.
  - exists rest. split_and!; [|by unfold present in *; cbn; rewrite Ef|done].
    destruct f; try done. cbn. by rewrite <- E.
  - exists (f :: suf). split_and!; [done|done|]. right. by exists f, suf.
Qed.

(** The position counters of the decoders of strings and vectors hold 32 bits,
    the one of the streaming decoder 31. *)
Definition count32 (data : list flexible_type) : Prop := Z.of_nat (length data) <= 2 ^ 32.
Definition count31 (data : list flexible_type) : Prop := Z.of_nat (length data) < 2 ^ 31.

Lemma skip_undefined_spec n pre x post fuel :
  is_undefined x = false -> (n <= fuel)%nat -> Z.of_nat (length pre + n) < 2 ^ 32 ->
  skip_undefined fuel (pre ++ replicate n FUndefined ++ x :: post) (Z.of_nat (length pre)) =
  Some (Z.of_nat (length pre + n)).
Proof.
  intros Hx. revert pre fuel. induction n as [|n IH]; intros pre fuel Hn Hlt.
  - cbn [replicate app]. destruct fuel; cbn [skip_undefined];
      rewrite Nat2Z.id, list_lookup_middle, Hx by done; do 2 f_equal; lia.
  - destruct fuel as [|fuel]; [lia|]. cbn [skip_undefined replicate app].
    rewrite Nat2Z.id, list_lookup_middle by done. cbn [is_undefined].
    specialize (IH (pre ++ [FUndefined]) fuel). rewrite <- app_assoc, length_app in IH. cbn [length app] in IH.
    rewrite wrap_small by (split; lia).
    replace (Z.of_nat (length pre) + 1) with (Z.of_nat (length pre + 1)) by lia.
    rewrite IH by lia. do 2 f_equal. lia.
Qed.

Lemma fill_mask_from x0 suf pre :
  is_undefined x0 = false -> Z.of_nat (length (pre ++ suf)) <= 2 ^ 32 ->
  fill_values (pre ++ mask x0 suf) (u32 (Z.of_nat (length pre))) (present suf) = Some (pre ++ suf).
Proof.
  intros Hx0. remember (length suf) as m eqn:Em. revert pre suf Em.
  induction m as [m IH] using lt_wf_ind. intros pre suf Em Hlen.
  destruct (leading_split suf) as (rest & E & Hp & Hrest). rewrite <- Hp.
  set (n := leading suf) in *. assert (mask x0 (replicate n FUndefined) = replicate n FUndefined) as Hm.
  { unfold mask. change (map ?f ?l) with (f <$> l). by rewrite fmap_replicate. }
  destruct Hrest as [->|(v & rest' & -> & Hv)].
  { cbn. rewrite app_nil_r in E. by rewrite E, Hm. }
  assert (present (v :: rest') = v :: present rest') as -> by (unfold present; cbn; by rewrite Hv).
  assert (mask x0 suf = replicate n FUndefined ++ x0 :: mask x0 rest') as ->.
  { rewrite E. unfold mask in *. rewrite map_app, Hm. cbn. by rewrite Hv. }
  rewrite E, !length_app, length_replicate in Hlen. cbn [length] in Hlen.
  cbn [fill_values]. unfold fill_value. rewrite wrap_small by (split; lia).
  rewrite skip_undefined_spec; [|done|rewrite !length_app, length_replicate; lia|lia].
  rewrite (proj2 (Z.ltb_lt _ _)) by (rewrite !length_app, length_replicate; cbn [length]; lia).
  rewrite Nat2Z.id, app_assoc, insert_app_r_alt by (rewrite length_app, length_replicate; lia).
  rewrite length_app, length_replicate, Nat.sub_diag. cbn [insert list_insert].
  set (pre' := (pre ++ replicate n FUndefined) ++ [v]).
  assert (Z.of_nat (length pre + n) + 1 = Z.of_nat (length pre')) as ->
    by (unfold pre'; rewrite !length_app, length_replicate; cbn; lia).
  replace ((pre ++ replicate n FUndefined) ++ v :: mask x0 rest') with (pre' ++ mask x0 rest')
    by (unfold pre'; by rewrite <- !app_assoc).
  assert (pre ++ suf = pre' ++ rest') as Eapp by (unfold pre'; rewrite E; by rewrite <- !app_assoc).
  rewrite Eapp. eapply IH; [|done|].
  - rewrite Em, E, length_app. cbn [length]. lia.
  - unfold pre'. rewrite !length_app, length_replicate. cbn [length]. lia.
Qed.

Lemma fill_mask x0 data : is_undefined x0 = false -> count32 data ->
  fill_values (mask x0 data) 0 (present data) = Some data.
Proof. intros Hx0 Hc. exact (fill_mask_from x0 data [] Hx0 Hc). Qed.

Lemma present_none data : Forall (fun f => is_undefined f = false) data -> present data = data.
Proof.
  unfold present. induction 1 as [|f l Hf _ IH]; [done|]. cbn. by rewrite Hf, IH.
Qed.

Lemma mask_none x0 data :
  Forall (fun f => is_undefined f = false) data -> mask x0 data = replicate (length data) x0.
Proof.
  unfold mask. induction 1 as [|f l Hf _ IH]; [done|]. cbn. by rewrite Hf, IH.
Qed.

Lemma get_size_of n : fits_size n -> get_size (FInt (i64 (Z.of_nat n))) = Some n.
Proof.
  intros Hn. unfold get_size; cbn [get_int]. rewrite wrap_signed by lia.
  rewrite wrap_small, Nat2Z.id; [done|]. unfold fits_size in Hn. split; lia.
Qed.

(** Indexes and lengths are stored with [encode_number]. *)
Lemma sizes_codec ns : Forall fits_size ns ->
  exists bs l, emits (encode_number (ints_of ns)) bs /\
    parses (decode_number (replicate (length ns) (FInt 0)) 0) bs l /\ mapM get_size l = Some ns.
Proof.
  intros Hns. set (data := ints_of ns).
  assert (Forall (fun f => is_undefined f = false) data) as Hu by (by apply Forall_fmap, Forall_true).
  destruct (number_codec data) as (bs & He & Hd & _).
  - apply Forall_fmap, Forall_true. intros n. apply (signed_range 64). lia.
  - unfold column. rewrite present_none by done. by apply Forall_fmap, Forall_true.
  - exists bs, data. split; [done|]. split.
    + unfold num_undef in Hd. rewrite present_none, Nat.sub_diag, mask_none in Hd by done.
      by replace (length data) with (length ns) in Hd by (symmetry; apply length_map).
    + apply mapM_Some. unfold data, ints_of. apply Forall2_fmap_l, Forall_Forall2_diag.
      eapply Forall_impl; [exact Hns|]. apply get_size_of.
Qed.

Definition str_of (f : flexible_type) : bytes := match f with FString s => s | _ => [] end.

Lemma present_strings data : column STRING data -> present data = map FString (map str_of (present data)).
Proof.
  intros Hcol. rewrite map_map. rewrite <- map_id at 1. apply map_ext_in. intros f Hf.
  apply list_elem_of_In in Hf. pose proof (Forall_in _ _ _ Hcol Hf). by destruct f.
Qed.

Lemma column_cons_inv t f data :
  column t (f :: data) -> (is_undefined f = true \/ is_undefined f = false /\ get_type f = t) /\ column t data.
Proof.
  unfold column, present; cbn. destruct (is_undefined f); cbn; [by auto|].
  rewrite Forall_cons. intros [? ?]. auto.
Qed.

Lemma strings_of_spec data : column STRING data -> strings_of data = Some (map str_of (present data)).
Proof.
  induction data as [|f data IH]; intros Hcol; [done|].
  apply column_cons_inv in Hcol as [Hf Hcol]. cbn [strings_of present List.filter].
  destruct Hf as [-> | [-> Ht]]; cbn [negb]; [by apply IH|].
  destruct f; try done. cbn [get_string]. by rewrite IH.
Qed.

Lemma find_index_spec s l i : find_index s l = Some i -> l !! i = Some s.
Proof.
  revert i. induction l as [|x l IH]; intros i; [done|]. cbn.
  destruct (decide (x = s)) as [->|]; [by intros [= <-]|].
  destruct (find_index s l); [|done]. intros [= <-]. cbn. by apply IH.
Qed.

Lemma build_dictionary_spec data sv iv : column STRING data ->
  exists r, build_dictionary data sv iv = Some r /\
    match r with
    | inl _ => True
    | inr (sv', iv') => exists new idx, sv' = sv ++ new /\ iv' = iv ++ idx /\
        (forall s, s ∈ new -> s ∈ map str_of (present data)) /\
        (length sv <= 64 -> length sv' <= 64)%nat /\
        Forall2 (fun i s => sv' !! i = Some s) idx (map str_of (present data))
    end.
Proof.
  revert sv iv. induction data as [|f data IH]; intros sv iv Hcol.
  { eexists. split; [done|]. exists [], []. rewrite !app_nil_r. by split_and!; auto. }
  apply column_cons_inv in Hcol as [Hf Hcol]. cbn [build_dictionary present List.filter].
  destruct Hf as [-> | [-> Ht]]; cbn [negb]; [by apply IH|].
  destruct f as [| |s| | | | | |]; try done. cbn [get_string map str_of].
  destruct (find_index s sv) as [i|] eqn:Ei.
  - destruct (IH sv (iv ++ [i]) Hcol) as (r & -> & Hr). eexists. split; [done|].
    destruct r as [|[sv' iv']]; [done|]. destruct Hr as (new & idx & -> & -> & Hn & Hl & H2).
    exists new, (i :: idx). split_and!; [done| by rewrite <- app_assoc | | done |].
    + intros x Hx. right. by apply Hn.
    + constructor; [|done]. apply lookup_app_l_Some. by apply find_index_spec.
  - destruct (Nat.leb_spec 64 (length sv)) as [H64|H64]; [by eexists|].
    destruct (IH (sv ++ [s]) (iv ++ [length sv]) Hcol) as (r & -> & Hr). eexists. split; [done|].
    destruct r as [|[sv' iv']]; [done|]. destruct Hr as (new & idx & -> & -> & Hn & Hl & H2).
    exists (s :: new), (length sv :: idx).
    split_and!; [by rewrite <- app_assoc | by rewrite <- app_assoc | | |].
    + intros x Hx. apply elem_of_cons in Hx as [->|Hx]; [left|right; by apply Hn].
    + intros _. apply Hl. rewrite length_app. cbn. lia.
    + constructor; [|done]. rewrite <- app_assoc. cbn. by rewrite list_lookup_middle.
Qed.

Lemma read_strings_spec strs :
  parses (read_strings (map length strs)) (concat strs) (map FString strs).
Proof.
  induction strs as [|s strs IH]; [apply parses_ret|]. cbn.
  eapply parses_bind; [apply parses_read|]. eapply parses_bind_nil; [exact IH|apply parses_ret].
Qed.

Lemma dict_entry_codec str : fits_size (length str) ->
  codec (fun str => variable_encode (Z.of_nat (length str)) >>> write str)
        (str_len <- variable_decode ;; read (Z.to_nat str_len)) str.
Proof.
  intros Hs. destruct (variable_codec_size (Z.of_nat (length str))) as (b & He & Hp & _).
  { unfold fits_size in Hs. split; lia. }
  exists (b ++ str). split; [apply emits_seq; [done|apply emits_write]|].
  eapply parses_bind; [exact Hp|]. cbv beta. rewrite Nat2Z.id. apply parses_read.
Qed.

Lemma Forall2_lookup_FString (sv : list bytes) (idx : list nat) (strs : list bytes) ns :
  Forall2 (fun i s => sv !! i = Some s) idx strs ->
  mapM get_size ns = Some idx ->
  mapM (fun x => i ← get_size x; s ← sv !! i; Some (FString s)) ns = Some (map FString strs).
Proof.
  rewrite !mapM_Some. intros H2 Hns. revert strs H2.
  induction Hns as [|x i ns idx Hx Hns IH]; intros strs H2.
  - apply Forall2_nil_inv_l in H2 as ->. constructor.
  - apply Forall2_cons_inv_l in H2 as (s & strs' & Hs & H2 & ->). cbn. constructor; [|by apply IH].
    by rewrite Hx; cbn; rewrite Hs.
Qed.

(** The streaming decoder of strings reads what the encoder writes. *)
Lemma string_stream_codec data : Forall flex_ok data -> column STRING data -> fits_size (length data) ->
  exists bs, emits (encode_string data) bs /\
    parses (decode_string_stream (length (present data))) bs (present data).
Proof.
  intros Hok Hcol Hlen. apply present_ok in Hok. pose proof (present_length data) as Hpl.
  assert (Forall (fun s => fits_size (length s)) (map str_of (present data))) as Hfit.
  { apply Forall_fmap. apply Forall_forall. intros f Hf.
    pose proof (Forall_in _ _ _ Hok Hf). pose proof (Forall_in _ _ _ Hcol Hf). by destruct f. }
  enough (exists bs, emits (encode_string data) bs /\
    parses (decode_string_stream (length (present data))) bs (map FString (map str_of (present data))))
    as H by (by rewrite <- present_strings in H).
  unfold encode_string. destruct (build_dictionary_spec data [] [] Hcol) as (r & -> & Hr).
  destruct r as [[]|[sv iv]].
  - rewrite strings_of_spec by done.
    destruct (sizes_codec (map length (map str_of (present data)))) as (bs & l & He & Hd & Hm).
    { by apply Forall_fmap. }
    rewrite !length_map in Hd. destruct (bool_codec false I) as (b0 & Hb0 & Hp0).
    eexists. split; [apply emits_seq; [exact Hb0|apply emits_seq; [exact He|]]|].
    { apply (emits_for write (fun s => s)). intros. apply emits_write. }
    unfold decode_string_stream. eapply parses_bind; [exact Hp0|]. cbv beta iota.
    eapply parses_bind; [exact Hd|]. cbv beta. rewrite Hm, map_id.
    change (option_reader (Some (map length (map str_of (present data)))))
      with (rret (map length (map str_of (present data)))).
    eapply (parses_bind _ _ []); [apply parses_ret|]. apply read_strings_spec.
  - destruct Hr as (new & idx & -> & -> & Hn & Hl & H2). cbn [app] in *.
    assert (length idx = length (present data)) as Eidx.
    { apply Forall2_length in H2. by rewrite length_map in H2. }
    assert (Forall fits_size idx) as Hidx.
    { apply Forall_forall. intros i Hi. apply list_elem_of_lookup in Hi as [k Hk].
      destruct (Forall2_lookup_l _ _ _ _ _ H2 Hk) as (s & _ & Hs). apply lookup_lt_Some in Hs.
      specialize (Hl ltac:(cbn; lia)). unfold fits_size. lia. }
    destruct (sizes_codec idx Hidx) as (bs & l & He & Hd & Hm). rewrite Eidx in Hd.
    destruct (bool_codec true I) as (b0 & Hb0 & Hp0).
    destruct (variable_codec_size (Z.of_nat (length new))) as (b1 & Hb1 & Hp1 & _).
    { specialize (Hl ltac:(cbn; lia)). split; lia. }
    destruct (codec_elements (fun str => variable_encode (Z.of_nat (length str)) >>> write str)
      (str_len <- variable_decode ;; read (Z.to_nat str_len)) new) as (b2 & Hb2 & Hp2 & _).
    { apply Forall_forall. intros s Hs. apply dict_entry_codec. apply (Forall_in _ _ _ Hfit), Hn, Hs. }
    eexists. split; [repeat (apply emits_seq; [eassumption|]); exact He|].
    unfold decode_string_stream. eapply parses_bind; [exact Hp0|]. cbv beta iota.
    eapply parses_bind; [exact Hp1|]. cbv beta. rewrite Nat2Z.id.
    eapply parses_bind; [exact Hp2|]. eapply parses_bind_nil; [exact Hd|].
    cbv beta. rewrite (Forall2_lookup_FString _ _ _ _ H2 Hm). apply parses_ret.
Qed.

(** The vector decoders of strings and vectors fill a shape from the stream. *)
Lemma fill_codec x0 data w stream :
  is_undefined x0 = false ->
  (exists bs, emits w bs /\ parses (stream (length (present data))) bs (present data)) ->
  exists bs, emits w bs /\
    (count32 data -> parses (vals <- stream (length (mask x0 data) - num_undef data)%nat ;;
                             option_reader (fill_values (mask x0 data) 0 vals)) bs data) /\
    parses (stream (length (present data))) bs (present data).
Proof.
  intros Hx0 (bs & He & Hp). exists bs. split_and!; [done| |done].
  intros Hc. rewrite mask_present. eapply parses_bind_nil; [exact Hp|]. cbv beta.
  rewrite fill_mask by done. apply parses_ret.
Qed.

Definition vec_of (f : flexible_type) : list Z := match f with FVector v => v | _ => [] end.

(** The values of all the vectors of a block must be addressable. *)
Definition vector_total (data : list flexible_type) : nat :=
  sum_list (map (fun f => length (vec_of f)) (present data)).

Lemma vectors_of_spec data : column VECTOR data -> vectors_of data = Some (map vec_of (present data)).
Proof.
  induction data as [|f data IH]; intros Hcol; [done|].
  apply column_cons_inv in Hcol as [Hf Hcol]. cbn [vectors_of present List.filter].
  destruct Hf as [-> | [-> Ht]]; cbn [negb]; [by apply IH|].
  destruct f; try done. cbn [get_vec]. by rewrite IH.
Qed.

Lemma split_values_spec vecs :
  split_values (map length vecs) (concat vecs) = Some (map FVector vecs).
Proof.
  induction vecs as [|v vecs IH]; [done|]. cbn [map concat split_values].
  rewrite length_app. destruct (Nat.leb_spec (length v) (length v + length (concat vecs))); [|lia].
  by rewrite drop_app_length, take_app_length, IH.
Qed.

Lemma length_concat_sum {A} (ls : list (list A)) : length (concat ls) = sum_list (map length ls).
Proof. induction ls as [|l ls IH]; [done|]. cbn. by rewrite length_app, IH. Qed.

Lemma doubles_codec vs : Forall (is_u 64) vs ->
  exists bs l, emits (encode_double (map FFloat vs)) bs /\
    parses (decode_double (replicate (length vs) flex_default) 0) bs l /\ mapM get_float l = Some vs.
Proof.
  intros Hu. set (data := map FFloat vs). set (ints := map (fun v => FInt (i64 v)) vs).
  assert (Forall (fun f => is_undefined f = false) data) as Hn by (by apply Forall_fmap, Forall_true).
  assert (Forall (fun f => is_undefined f = false) ints) as Hn' by (by apply Forall_fmap, Forall_true).
  destruct (encode_blocks_spec rotate_left (length data) data vs) as (bs & He & Hc); [done| | |].
  - rewrite present_none by done. unfold data. apply Forall2_fmap_l, Forall_Forall2_diag.
    eapply Forall_impl; [exact Hu|]. intros b Hb. exists (i64 b). split; [done|].
    rewrite wrap_signed by lia. by rewrite wrap_small.
  - apply Forall_fmap. eapply Forall_impl; [exact Hu|]. intros. by apply rotate_left_u.
  - exists bs, ints. split; [done|]. split.
    + unfold decode_double. rewrite length_replicate, Nat.sub_0_r.
      assert (replicate (length vs) flex_default = mask (FInt 0) ints) as ->.
      { rewrite mask_none by done. unfold ints. by rewrite length_map. }
      assert (length vs = length (present ints)) as -> by
        (rewrite present_none by done; unfold ints; by rewrite length_map).
      eapply (decode_blocks_spec _ _ (fun v => FInt (i64 v)) (map rotate_left vs)); try done.
      rewrite present_none by done. unfold ints. cbn [app]. rewrite !map_map. apply map_ext_in.
      intros v Hv. apply list_elem_of_In in Hv. pose proof (Forall_in _ _ _ Hu Hv).
      by rewrite rotate_right_left.
    + apply mapM_Some. unfold ints. apply Forall2_fmap_l, Forall_Forall2_diag.
      eapply Forall_impl; [exact Hu|]. intros v Hv. cbn. rewrite wrap_signed by lia.
      by rewrite wrap_small.
Qed.

Lemma vector_stream_codec data : Forall flex_ok data -> column VECTOR data ->
  fits_size (vector_total data) ->
  exists bs, emits (encode_vector data) bs /\
    parses (decode_vector_stream (length (present data))) bs (present data).
Proof.
  intros Hok Hcol Htot. apply present_ok in Hok.
  set (vecs := map vec_of (present data)).
  assert (present data = map FVector vecs) as Hp.
  { unfold vecs. rewrite map_map. rewrite <- map_id at 1. apply map_ext_in. intros f Hf.
    apply list_elem_of_In in Hf. pose proof (Forall_in _ _ _ Hcol Hf). by destruct f. }
  assert (Forall (fun v => fits_size (length v) /\ Forall (is_u 64) v) vecs) as Hv.
  { unfold vecs. apply Forall_fmap, Forall_forall. intros f Hf.
    pose proof (Forall_in _ _ _ Hok Hf). pose proof (Forall_in _ _ _ Hcol Hf). by destruct f. }
  destruct (sizes_codec (map length vecs)) as (b1 & l1 & He1 & Hd1 & Hm1).
  { apply Forall_fmap. eapply Forall_impl; [exact Hv|]. by intros ? []. }
  destruct (doubles_codec (concat vecs)) as (b2 & l2 & He2 & Hd2 & Hm2).
  { apply Forall_concat. eapply Forall_impl; [exact Hv|]. by intros ? []. }
  exists (b1 ++ b2). split.
  - unfold encode_vector. rewrite vectors_of_spec by done. by apply emits_seq.
  - rewrite Hp, length_map. rewrite length_map in Hd1. unfold decode_vector_stream.
    eapply parses_bind; [exact Hd1|]. cbv beta. rewrite Hm1.
    eapply (parses_bind _ _ []); [apply parses_ret|]. cbv beta zeta.
    assert (Z.to_nat (u64 (Z.of_nat (sum_list (map length vecs)))) = length (concat vecs)) as ->.
    { rewrite length_concat_sum. rewrite wrap_small, Nat2Z.id; [done|].
      unfold vector_total in Htot. unfold vecs. rewrite map_map. unfold fits_size in Htot. split; lia. }
    eapply parses_bind_nil; [exact Hd2|]. cbv beta. rewrite Hm2.
    eapply (parses_bind _ _ []); [apply parses_ret|]. cbv beta. rewrite split_values_spec. apply parses_ret.
Qed.

(** ** The other types *)

Definition generic (t : flex_type_enum) : Prop :=
  t = LIST \/ t = DICT \/ t = DATETIME \/ t = IMAGE.

Definition undef_at (data : list flexible_type) (i : nat) : bool :=
  match data !! i with Some f => is_undefined f | None => false end.

(** What a decoder knows of the UNDEFINED positions: their number and, unless
    there are none, the bitmap. *)
Definition bitmap_of (num_undefined : nat) (d : DenseBitset.dense_bitset) (data : list flexible_type) : Prop :=
  num_undefined = num_undef data /\
  (num_undefined <> 0%nat ->
   DenseBitset.wf d /\ DenseBitset.len d = length data /\ forall i, DenseBitset.bit d i = undef_at data i).

Lemma bitmap_get nu d data i : bitmap_of nu d data -> nu <> 0%nat -> (i < length data)%nat ->
  DenseBitset.get d i = Some (undef_at data i).
Proof.
  intros [_ H] Hnu Hi. destruct (H Hnu) as (Hw & Hl & Hb). rewrite <- Hb.
  apply DenseBitset.get_spec; [done|lia].
Qed.

Lemma num_undef_cons f data :
  num_undef (f :: data) = ((if is_undefined f then 1 else 0) + num_undef data)%nat.
Proof.
  unfold num_undef, present. cbn [List.filter length]. pose proof (present_length data) as H.
  unfold present in H. destruct (is_undefined f); cbn [negb length]; lia.
Qed.

Lemma num_undef_0 data i : num_undef data = 0%nat -> undef_at data i = false.
Proof.
  unfold undef_at. revert i. induction data as [|f data IH]; intros i H; [done|].
  rewrite num_undef_cons in H. destruct i as [|i]; cbn; destruct (is_undefined f); auto; lia.
Qed.

(** The loop over the positions of either decoder *)
Lemma generic_codec t data : Forall flex_ok data -> column t data -> t <> UNDEFINED ->
  exists bs, emits (wfor (fun f => if is_undefined f then wnil else serializer f) data) bs /\
    parses (decode_generic (mask (reset t) data)) bs data /\
    forall nu d pre, bitmap_of nu d (pre ++ data) ->
      parses (stream_generic nu d t (length data) (length pre)) bs data.
Proof.
  intros Hok Hcol Ht. induction data as [|f data IH].
  { exists []. split_and!; [apply emits_nil|apply parses_ret|]. intros. apply parses_ret. }
  apply column_cons_inv in Hcol as [Hf Hcol]. apply Forall_cons in Hok as [Hokf Hok].
  destruct (IH Hok Hcol) as (bs & He & Hp & Hs).
  assert (forall nu d pre, bitmap_of nu d (pre ++ f :: data) ->
            parses (stream_generic nu d t (length data) (S (length pre))) bs data) as Hs'.
  { intros nu d pre Hb. replace (S (length pre)) with (length (pre ++ [f])) by (rewrite length_app; cbn; lia).
    apply Hs. by rewrite <- app_assoc. }
  assert (forall nu d pre, bitmap_of nu d (pre ++ f :: data) ->
            parses (if (nu =? 0)%nat then rret false else option_reader (DenseBitset.get d (length pre)))
              [] (is_undefined f)) as Hu.
  { intros nu d pre Hb. assert (undef_at (pre ++ f :: data) (length pre) = is_undefined f) as E.
    { unfold undef_at. by rewrite list_lookup_middle. }
    destruct (Nat.eqb_spec nu 0) as [->|Hnu].
    - destruct Hb as [Hb _]. rewrite <- E, (num_undef_0 _ _ (eq_sym Hb)). apply parses_ret.
    - rewrite (bitmap_get _ _ _ _ Hb Hnu) by (rewrite length_app; cbn; lia). rewrite E. apply parses_ret. }
  destruct Hf as [Ef | [Ef Et]].
  - exists bs. split_and!.
    + apply (emits_seq _ _ [] bs); [rewrite Ef; apply emits_nil|done].
    + cbn [mask map decode_generic]. rewrite Ef. destruct f; try done. cbn [is_undefined].
      eapply parses_bind_nil; [exact Hp|apply parses_ret].
    + intros nu d pre Hb. cbn [length stream_generic].
      eapply (parses_bind _ _ []); [by eapply Hu|]. rewrite Ef.
      eapply (parses_bind _ _ []); [apply parses_ret|].
      eapply parses_bind_nil; [by apply Hs'|]. destruct f; try done. apply parses_ret.
  - destruct (serializer_codec f Hokf) as (bf & Hef & Hpf). exists (bf ++ bs). split_and!.
    + apply (emits_seq _ _ bf bs); [by rewrite Ef|done].
    + cbn [mask map decode_generic]. rewrite Ef.
      assert (is_undefined (reset t) = false) as -> by (by destruct t).
      assert (get_type (reset t) = get_type f) as -> by (rewrite Et; by destruct t).
      eapply parses_bind; [exact Hpf|]. eapply parses_bind_nil; [exact Hp|apply parses_ret].
    + intros nu d pre Hb. cbn [length stream_generic].
      eapply (parses_bind _ _ []); [by eapply Hu|]. rewrite Ef. rewrite Et in Hpf.
      eapply parses_bind; [exact Hpf|]. eapply parses_bind_nil; [by apply Hs'|apply parses_ret].
Qed.

(** ** Emitting the UNDEFINED values *)

Lemma next_id_nat i : Z.of_nat (S i) < 2 ^ 31 -> next_id (Z.of_nat i) = Some (Z.of_nat (S i)).
Proof. intros H. unfold next_id. rewrite (proj2 (Z.ltb_lt _ _)) by lia. f_equal. lia. Qed.

Lemma flush_spec nu d pre suf fuel : bitmap_of nu d (pre ++ suf) -> nu <> 0%nat -> count31 (pre ++ suf) ->
  (length suf <= fuel)%nat ->
  flush d (length (pre ++ suf)) fuel (Z.of_nat (length pre)) =
  Some (leading suf, Z.of_nat (length pre + leading suf)).
Proof.
  unfold count31. intros Hb Hnu. revert pre fuel Hb. induction suf as [|f suf IH]; intros pre fuel Hb Hc Hf.
  - rewrite app_nil_r in *. cbn [leading]. rewrite Nat.add_0_r.
    destruct fuel; cbn [flush]; rewrite wrap_small by (split; lia); by rewrite Z.ltb_irrefl.
  - pose proof Hc as Hc'. rewrite length_app in Hc'. cbn [length] in Hc', Hf. destruct fuel as [|fuel]; [lia|].
    cbn [flush leading]. rewrite wrap_small by (split; lia).
    rewrite (proj2 (Z.ltb_lt _ _)), Nat2Z.id by (rewrite length_app; cbn; lia).
    rewrite (bitmap_get _ _ _ _ Hb Hnu) by (rewrite length_app; cbn; lia).
    unfold undef_at. rewrite list_lookup_middle by done.
    destruct (is_undefined f); [|by rewrite Nat.add_0_r].
    rewrite next_id_nat by lia. specialize (IH (pre ++ [f]) fuel). rewrite <- app_assoc in IH. cbn [app] in IH.
    specialize (IH Hb Hc ltac:(lia)). rewrite (length_app pre [f]) in IH. cbn [length] in IH.
    replace (length pre + 1)%nat with (S (length pre)) in IH by lia. rewrite IH. do 2 f_equal. lia.
Qed.

Definition undef_run (nu : nat) (d : DenseBitset.dense_bitset) (dsize : nat) (last_id : Z) : option (nat * Z) :=
  if (nu =? 0)%nat then Some (O, last_id) else flush d dsize dsize last_id.

Lemma undef_run_spec nu d pre suf : bitmap_of nu d (pre ++ suf) -> count31 (pre ++ suf) ->
  undef_run nu d (length (pre ++ suf)) (Z.of_nat (length pre)) =
  Some (leading suf, Z.of_nat (length pre + leading suf)).
Proof.
  intros Hb Hc. unfold undef_run. destruct (Nat.eqb_spec nu 0) as [->|Hnu].
  - assert (leading suf = 0%nat) as ->; [|by rewrite Nat.add_0_r].
    destruct suf as [|f suf]; [done|]. cbn. destruct Hb as [Hb _].
    pose proof (num_undef_0 _ (length pre) (eq_sym Hb)) as H. unfold undef_at in H.
    rewrite list_lookup_middle in H by done. by rewrite H.
  - eapply flush_spec; [done..|]. rewrite length_app. lia.
Qed.

Lemma stream_emit_spec nu d pre suf : bitmap_of nu d (pre ++ suf) -> count31 (pre ++ suf) ->
  stream_emit nu d (length (pre ++ suf)) (Z.of_nat (length pre)) (present suf) = Some suf.
Proof.
  intros Hb Hc. remember (length suf) as n eqn:En. revert pre suf Hb Hc En.
  induction n as [n IH] using lt_wf_ind. intros pre suf Hb Hc En.
  pose proof (undef_run_spec nu d pre suf Hb Hc) as Hrun. unfold undef_run in Hrun.
  destruct (leading_split suf) as (rest & E & Hp & Hrest). rewrite <- Hp.
  destruct Hrest as [->|(v & rest' & -> & Hv)].
  - cbn. rewrite Hrun. by rewrite app_nil_r in E; rewrite <- E.
  - assert (present (v :: rest') = v :: present rest') as -> by (unfold present; cbn; by rewrite Hv).
    cbn [stream_emit]. rewrite Hrun.
    set (pre' := pre ++ replicate (leading suf) FUndefined ++ [v]).
    assert (pre ++ suf = pre' ++ rest') as Eapp by (unfold pre'; rewrite E at 1; by rewrite <- !app_assoc).
    assert (length pre' = S (length pre + leading suf))%nat as El
      by (unfold pre'; rewrite !length_app, length_replicate; cbn; lia).
    rewrite Eapp in Hb, Hc. rewrite next_id_nat.
    2: { unfold count31 in Hc. rewrite length_app, El in Hc. lia. }
    rewrite <- El, Eapp. erewrite IH; [by rewrite <- E| |exact Hb|exact Hc|done].
    rewrite En, E, length_app. cbn. lia.
Qed.

Lemma stream_emit_nil nu d data : bitmap_of nu d data -> count31 data ->
  stream_emit nu d (length data) 0 [] = Some (replicate (leading data) FUndefined).
Proof.
  intros Hb Hc. pose proof (undef_run_spec nu d [] data Hb Hc) as H. unfold undef_run in H. cbn [app length] in H.
  change (Z.of_nat 0) with 0 in H.
  cbn [stream_emit]. by rewrite H.
Qed.

(** ** The types of a block and the bitmap *)

Definition tcode (f : flexible_type) : nat := Z.to_nat (type_code (get_type f)).

Lemma tcode_lt f : (tcode f < 16)%nat.
Proof. unfold tcode. pose proof (type_code_range (get_type f)). lia. Qed.

Lemma tcode_inj f g : tcode f = tcode g -> get_type f = get_type g.
Proof. unfold tcode. destruct (get_type f), (get_type g); done. Qed.

Lemma types_of_spec data :
  exists types, types_of data = Some types /\ FixedBitset.wf 16 types /\
    forall i, FixedBitset.bit 16 types i = existsb (fun f => i =? tcode f)%nat data.
Proof.
  unfold types_of. set (step := fun acc f => _).
  assert (forall l b, FixedBitset.wf 16 b ->
    exists b', foldl step (Some b) l = Some b' /\ FixedBitset.wf 16 b' /\
      forall i, FixedBitset.bit 16 b' i =
                FixedBitset.bit 16 b i || existsb (fun f => i =? tcode f)%nat l) as H.
  { induction l as [|f l IH]; intros b Hb.
    - exists b. split_and!; [done..|]. intros i. cbn. by rewrite orb_false_r.
    - destruct (FixedBitset.set_bit_unsync_spec 16 b (tcode f) Hb (tcode_lt f)) as (b1 & E & Hw & Hi).
      cbn [foldl]. unfold step at 2. fold (tcode f). rewrite E.
      destruct (IH b1 Hw) as (b' & E' & Hw' & Hi'). exists b'. split_and!; [done..|].
      intros i. rewrite Hi', Hi. cbn [existsb]. by rewrite orb_assoc, (orb_comm (_ =? _)%nat). }
  destruct (H data (FixedBitset.new 16) (FixedBitset.wf_new 16)) as (b' & E & Hw & Hi).
  exists b'. split_and!; [done..|]. intros i. by rewrite Hi, FixedBitset.bit_new.
Qed.

Lemma existsb_tcode data i : existsb (fun f => i =? tcode f)%nat data = true <->
  exists f, f ∈ data /\ tcode f = i.
Proof.
  rewrite existsb_exists. setoid_rewrite Nat.eqb_eq. setoid_rewrite <- list_elem_of_In. naive_solver.
Qed.

Lemma undefined_bitset_spec data :
  exists d, undefined_bitset data = Some d /\ DenseBitset.wf d /\ DenseBitset.len d = length data /\
    forall i, DenseBitset.bit d i = undef_at data i.
Proof.
  unfold undefined_bitset, DenseBitset.new. set (step := fun acc p => _).
  destruct (DenseBitset.resize_spec DenseBitset.empty_bitset (length data) DenseBitset.wf_empty_bitset)
    as (d0 & -> & Hw0 & Hl0 & _).
  destruct (DenseBitset.clear_spec d0 Hw0) as (Hw1 & Hl1 & Hb1).
  assert (forall l k d, DenseBitset.wf d -> (k + length l <= DenseBitset.len d)%nat ->
    exists d', foldl step (Some d) (zip (seq k (length l)) l) = Some d' /\ DenseBitset.wf d' /\
      DenseBitset.len d' = DenseBitset.len d /\
      forall i, DenseBitset.bit d' i = DenseBitset.bit d i || ((k <=? i)%nat && undef_at l (i - k))) as H.
  { induction l as [|f l IH]; intros k d Hw Hk.
    - exists d. split_and!; [done..|]. intros i. unfold undef_at. by rewrite lookup_nil, andb_false_r, orb_false_r.
    - cbn [length seq zip zip_with foldl]. fold (zip (seq (S k) (length l)) l). unfold step at 2. cbn [fst snd].
      assert (exists d1, (if is_undefined f then
          match DenseBitset.set_bit_unsync d k with Some (_, d2) => Some d2 | None => None end
        else Some d) = Some d1 /\ DenseBitset.wf d1 /\ DenseBitset.len d1 = DenseBitset.len d /\
        forall i, DenseBitset.bit d1 i = DenseBitset.bit d i || ((i =? k)%nat && is_undefined f))
        as (d1 & -> & Hw' & Hl' & Hb').
      { cbn [length] in Hk. destruct (is_undefined f).
        - destruct (DenseBitset.exec_refines (DenseBitset.OSetUnsync k true) d Hw) as (d1 & E & ? & ? & Hi);
            [cbn; lia|]. cbn [DenseBitset.exec DenseBitset.set_unsync] in E. rewrite E. exists d1.
          split_and!; [done..|]. intros i. rewrite Hi. cbn. destruct (i =? k)%nat; cbn;
            by rewrite ?orb_true_r, ?orb_false_r.
        - exists d. split_and!; [done..|]. intros i. by rewrite andb_false_r, orb_false_r. }
      destruct (IH (S k) d1 Hw') as (d' & E & Hw2 & Hl2 & Hb2); [cbn [length] in Hk; lia|].
      exists d'. split_and!; [done..|congruence|]. intros i. rewrite Hb2, Hb', <- orb_assoc. f_equal.
      unfold undef_at. destruct (Nat.leb_spec k i) as [Hki|Hki].
      + destruct (Nat.eqb_spec i k) as [->|Hne].
        * rewrite Nat.sub_diag. destruct (Nat.leb_spec (S k) k); [lia|].
          cbn [lookup list_lookup andb]. by rewrite orb_false_r.
        * destruct (Nat.leb_spec (S k) i); [|lia]. cbn [andb orb].
          replace (i - k)%nat with (S (i - S k)) by lia. done.
      + destruct (Nat.leb_spec (S k) i), (Nat.eqb_spec i k); done || lia. }
  destruct (H data 0%nat (DenseBitset.clear d0) Hw1 ltac:(lia)) as (d & E & Hw & Hl & Hb).
  exists d. split_and!; [done..|lia|]. intros i. rewrite Hb, Hb1. cbn. by rewrite Nat.sub_0_r.
Qed.

Lemma count_undef data :
  length (List.filter (undef_at data) (seq 0 (length data))) = num_undef data.
Proof.
  induction data as [|f data IH]; [done|]. rewrite num_undef_cons, <- IH.
  cbn [length seq List.filter]. unfold undef_at at 1; cbn [lookup list_lookup].
  assert (length (List.filter (undef_at (f :: data)) (seq 1 (length data))) =
          length (List.filter (undef_at data) (seq 0 (length data)))) as E.
  { rewrite DenseBitset.filter_seq_shift. done. }
  destruct (is_undefined f); cbn [length]; rewrite E; lia.
Qed.

Lemma undefine_spec l ret : Forall (fun t => (t < length ret)%nat) l ->
  exists ret', undefine l ret = Some ret' /\ length ret' = length ret /\
    forall i, ret' !! i = if existsb (Nat.eqb i) l && (i <? length ret)%nat then Some FUndefined else ret !! i.
Proof.
  unfold undefine. set (step := fun acc t => _). revert ret. induction l as [|t l IH]; intros ret H.
  - exists ret. done.
  - apply Forall_cons in H as [Ht H]. cbn [foldl]. unfold step at 2.
    destruct (Nat.ltb_spec t (length ret)); [|lia].
    destruct (IH (<[t := FUndefined]> ret)) as (ret' & E & Hl & Hi); [by rewrite length_insert|].
    rewrite length_insert in Hl, Hi. exists ret'. split_and!; [done..|]. intros i. rewrite Hi. cbn [existsb].
    destruct (Nat.ltb_spec i (length ret)) as [Hlt|Hge].
    2: { rewrite !andb_false_r, !lookup_ge_None_2 by (rewrite ?length_insert; lia). done. }
    rewrite !andb_true_r.
    destruct (existsb (Nat.eqb i) l); [by rewrite orb_true_r|]. rewrite orb_false_r.
    destruct (Nat.eqb_spec i t) as [->|Hne].
    + by rewrite list_lookup_insert_eq.
    + by rewrite list_lookup_insert_ne.
Qed.

(** Resetting the flagged entries of a column gives the shape of the data. *)
Lemma undefine_mask x0 data :
  undefine (List.filter (undef_at data) (seq 0 (length data))) (replicate (length data) x0) =
  Some (mask x0 data).
Proof.
  destruct (undefine_spec (List.filter (undef_at data) (seq 0 (length data)))
              (replicate (length data) x0)) as (ret' & -> & Hl & Hi).
  { apply Forall_forall. intros t Ht. apply list_elem_of_In, filter_In in Ht as [Ht _].
    apply in_seq in Ht. rewrite length_replicate. lia. }
  f_equal. apply list_eq. intros i. rewrite Hi. unfold mask. rewrite list_lookup_fmap, length_replicate.
  destruct (Nat.ltb_spec i (length data)) as [H|H].
  - destruct (lookup_lt_is_Some_2 data i H) as [f Hf]. rewrite Hf, lookup_replicate_2 by done. cbn.
    assert (existsb (Nat.eqb i) (List.filter (undef_at data) (seq 0 (length data))) = is_undefined f) as ->.
    { apply eq_true_iff_eq. rewrite existsb_exists. setoid_rewrite Nat.eqb_eq.
      setoid_rewrite filter_In. setoid_rewrite in_seq. unfold undef_at. split.
      - intros (x & (_ & Hx) & <-). by rewrite Hf in Hx.
      - intros Hu. exists i. rewrite Hf. repeat split; auto; lia. }
    by destruct (is_undefined f).
  - rewrite andb_false_r, (lookup_ge_None_2 data) by done. cbn.
    apply lookup_ge_None_2. by rewrite length_replicate.
Qed.

(** ** Blocks *)

Definition block_ok (data : list flexible_type) : Prop :=
  Forall flex_ok data /\ fits_size (length data) /\ fits_size (vector_total data).

(** What the streaming decoder passes to its callback for a column of type [t] *)
Definition stream_result (t : flex_type_enum) (data : list flexible_type) : list flexible_type :=
  match t with
  | INTEGER | FLOAT | STRING | VECTOR => data
  | _ => data ++ replicate (leading data) FUndefined
  end.

Lemma in_present f data : f ∈ present data <-> f ∈ data /\ is_undefined f = false.
Proof.
  unfold present. rewrite !list_elem_of_In, filter_In. by rewrite negb_true_iff.
Qed.

Lemma appeared_spec data types T : types_of data = Some types ->
  exists b : bool, appeared types T = Some b /\
    (b = true <-> exists f, f ∈ data /\ get_type f = T).
Proof.
  intros E. destruct (types_of_spec data) as (types' & E' & Hw & Hb). rewrite E in E'. injection E' as <-.
  unfold appeared. pose proof (type_code_range T).
  rewrite FixedBitset.fixed_get_spec by (done || lia). rewrite Hb. eexists. split; [done|].
  rewrite existsb_tcode. split; intros (f & Hf & Ht); exists f; (split; [done|]).
  - unfold tcode in Ht. destruct (get_type f), T; done.
  - unfold tcode. by rewrite Ht.
Qed.

Lemma appeared_column data types t T : types_of data = Some types -> column t data ->
  present data <> [] -> T <> UNDEFINED -> appeared types T = Some (bool_decide (t = T)).
Proof.
  intros E Hcol Hne HT. destruct (appeared_spec data types T E) as (b & -> & Hb). f_equal.
  apply eq_true_iff_eq. rewrite Hb, bool_decide_eq_true. split.
  - intros (f & Hf & Hft). destruct (is_undefined f) eqn:Ef; [by destruct f; cbn in Hft; subst|].
    rewrite <- (Forall_in _ _ f Hcol); [done|]. by apply in_present.
  - intros ->. destruct (present data) as [|f l] eqn:Ep; [done|].
    assert (f ∈ present data) as Hf by (rewrite Ep; left).
    exists f. split; [by apply in_present in Hf as [? _]|]. apply (Forall_in _ _ f Hcol Hf).
Qed.

(** From a content codec to the streaming decoder of a block *)
Lemma stream_of_codec (stream : nat -> reader (list flexible_type)) data nu d bs :
  parses (stream (length (present data))) bs (present data) ->
  bitmap_of nu d data -> count31 data ->
  parses (vals <- stream (length data - nu)%nat ;; option_reader (stream_emit nu d (length data) 0 vals))
    bs data.
Proof.
  intros Hs Hb Hc. pose proof Hb as [-> _].
  replace (length data - num_undef data)%nat with (length (present data))
    by (unfold num_undef; pose proof (present_length data); lia).
  eapply parses_bind_nil; [exact Hs|]. cbv beta.
  pose proof (stream_emit_spec _ _ [] data Hb Hc) as E. cbn [app length] in E.
  change (Z.of_nat 0) with 0 in E. rewrite E. apply parses_ret.
Qed.

Lemma content_spec t data types :
  block_ok data -> column t data -> t <> UNDEFINED -> present data <> [] -> types_of data = Some types ->
  exists bs, emits (encode_content types data) bs /\
    (count32 data -> parses (decode_content t (mask (reset t) data) (num_undef data)) bs data) /\
    forall nu d, bitmap_of nu d data -> count31 data ->
      parses (stream_content t nu d (length data)) bs (stream_result t data).
Proof.
  intros (Hok & Hlen & Htot) Hcol Ht Hne E. unfold encode_content.
  rewrite !(appeared_column data types t) by done.
  assert (generic t -> exists bs,
    emits (wfor (fun f => if is_undefined f then wnil else serializer f) data) bs /\
    (count32 data -> parses (decode_generic (mask (reset t) data)) bs data) /\
    forall nu d, bitmap_of nu d data -> count31 data ->
      parses (vals <- stream_generic nu d t (length data) 0 ;;
              final <- option_reader (stream_emit nu d (length data) 0 []) ;;
              rret (vals ++ final)) bs (data ++ replicate (leading data) FUndefined)) as Hgen.
  { intros _. destruct (generic_codec t data Hok Hcol Ht) as (bs & He & Hd & Hs).
    exists bs. split_and!; [done..|]. intros nu d Hb Hc.
    eapply parses_bind_nil; [by apply (Hs nu d [])|]. cbv beta. rewrite stream_emit_nil by done.
    eapply (parses_bind _ _ []); apply parses_ret. }
  destruct t; try done; cbn [decode_content stream_content stream_result reset].
  - destruct (number_codec data Hok Hcol) as (bs & He & Hd & Hs). exists bs. split_and!; [done..|].
    intros. by apply (stream_of_codec decode_number_stream).
  - destruct (double_codec data Hok Hcol) as (bs & He & Hd & Hs). exists bs. split_and!; [done..|].
    intros. by apply (stream_of_codec decode_double_stream).
  - destruct (fill_codec (FString []) data _ decode_string_stream eq_refl
      (string_stream_codec data Hok Hcol Hlen)) as (bs & He & Hd & Hs).
    exists bs. split_and!; [done..|]. intros. by apply (stream_of_codec decode_string_stream).
  - destruct (fill_codec (FVector []) data _ decode_vector_stream eq_refl
      (vector_stream_codec data Hok Hcol Htot)) as (bs & He & Hd & Hs).
    exists bs. split_and!; [done..|]. intros. by apply (stream_of_codec decode_vector_stream).
  - apply Hgen. by left.
  - apply Hgen. by right; left.
  - apply Hgen. by right; right; left.
  - apply Hgen. by right; right; right.
Qed.

(** The type of a block of one type, if it has one *)
Definition column_type (data : list flexible_type) : flex_type_enum :=
  match present data with f :: _ => get_type f | [] => UNDEFINED end.

Definition num_types (data : list flexible_type) : nat :=
  length (List.filter (fun i => existsb (fun f => i =? tcode f)%nat data) (seq 0 16)).

Lemma num_types_elem data f : f ∈ data ->
  In (tcode f) (List.filter (fun i => existsb (fun f => i =? tcode f)%nat data) (seq 0 16)).
Proof.
  intros Hf. apply filter_In. split; [apply in_seq; pose proof (tcode_lt f); lia|].
  apply existsb_tcode. by exists f.
Qed.

Lemma types_popcount data types : types_of data = Some types ->
  FixedBitset.popcount 16 types = Z.of_nat (num_types data) /\
  FixedBitset.elements 16 types =
    Some (List.filter (fun i => existsb (fun f => i =? tcode f)%nat data) (seq 0 16)).
Proof.
  intros E. destruct (types_of_spec data) as (types' & E' & Hw & Hb). rewrite E in E'. injection E' as <-.
  destruct (FixedBitset.elements_spec 16 types Hw) as [H1 H2].
  rewrite (List.filter_ext _ _ Hb) in H1, H2. done.
Qed.

Lemma num_types_le data : (num_types data <= 16)%nat.
Proof. unfold num_types. etransitivity; [apply filter_length_le|]. by rewrite length_seq. Qed.

Lemma num_types_0 data : num_types data = 0%nat -> data = [].
Proof.
  destruct data as [|f data]; [done|]. intros H. apply nil_length_inv in H.
  pose proof (num_types_elem (f :: data) f ltac:(left)) as Hin. by rewrite H in Hin.
Qed.

Lemma num_types_1 f data : num_types (f :: data) = 1%nat ->
  Forall (fun g => get_type g = get_type f) (f :: data).
Proof.
  intros H. apply Forall_forall. intros g Hg. apply tcode_inj.
  pose proof (num_types_elem (f :: data) f ltac:(left)) as Hf. pose proof (num_types_elem _ _ Hg) as Hg'.
  unfold num_types in H. destruct (List.filter _ _) as [|x [|]]; try done.
  destruct Hf as [->|[]]. by destruct Hg' as [->|[]].
Qed.

(** Two types, one of them UNDEFINED: the other one is found by [other_type]. *)
Lemma num_types_2 data types g : types_of data = Some types -> num_types data = 2%nat ->
  g ∈ data -> get_type g = UNDEFINED ->
  exists t, t <> UNDEFINED /\ other_type types = Some (type_code t) /\ column t data /\ present data <> [].
Proof.
  intros E H Hg Hgt. unfold other_type. destruct (types_popcount data types E) as [_ ->].
  pose proof (num_types_elem data g Hg) as Hin.
  assert (tcode g = 7%nat) as Eg by (unfold tcode; by rewrite Hgt). rewrite Eg in Hin.
  assert (forall i, In i (List.filter (fun i => existsb (fun f => i =? tcode f)%nat data) (seq 0 16)) ->
                    exists f, f ∈ data /\ tcode f = i) as Hof.
  { intros i Hi. apply filter_In in Hi as [_ Hi]. by apply existsb_tcode. }
  assert (forall f, f ∈ data ->
            In (tcode f) (List.filter (fun i => existsb (fun f => i =? tcode f)%nat data) (seq 0 16))) as Hall
    by apply num_types_elem.
  assert (NoDup (List.filter (fun i => existsb (fun f => i =? tcode f)%nat data) (seq 0 16))) as Hnd.
  { apply NoDup_ListNoDup, List.NoDup_filter, seq_NoDup. }
  unfold num_types in H. destruct (List.filter _ _) as [|a [|b [|]]]; try done.
  apply NoDup_cons in Hnd as [Hab _]. rewrite list_elem_of_singleton in Hab.
  assert (exists o, o <> 7%nat /\ In o [a; b] /\ (forall x, In x [a; b] -> x = 7%nat \/ x = o) /\
            List.filter (fun t => negb (Z.of_nat t =? type_code UNDEFINED)) [a; b] = [o]) as (o & Ho & Hoi & Hx & Hfil).
  { destruct Hin as [->|[->|[]]].
    - exists b. split_and!; [done|by right; left|cbn; naive_solver|]. cbn.
      destruct (Z.eqb_spec (Z.of_nat b) 7); [lia|done].
    - exists a. split_and!; [congruence|by left|cbn; naive_solver|]. cbn.
      destruct (Z.eqb_spec (Z.of_nat a) 7); [lia|done]. }
  rewrite Hfil. destruct (Hof o Hoi) as (f & Hf & Efo).
  assert (get_type f <> UNDEFINED) as Hfu by (intros Hft; unfold tcode in Efo; rewrite Hft in Efo; done).
  assert (is_undefined f = false) as Hfn by (by destruct f).
  exists (get_type f). split_and!; [done| | |].
  - f_equal. rewrite <- Efo. unfold tcode. pose proof (type_code_range (get_type f)). lia.
  - apply Forall_forall. intros x Hxp. apply in_present in Hxp as [Hxd Hxu]. apply tcode_inj.
    rewrite Efo. destruct (Hx _ (Hall x Hxd)) as [H7|]; [|done].
    unfold tcode in H7. destruct x; done.
  - intros Hp. assert (f ∈ present data) as Hin' by (by apply in_present). by rewrite Hp in Hin'; apply elem_of_nil in Hin'.
Qed.

(** Every value is UNDEFINED or of the type of the first one that is not *)
Definition uniform (data : list flexible_type) : bool :=
  forallb (fun f => is_undefined f || bool_decide (get_type f = column_type data)) data.

Definition is_generic (t : flex_type_enum) : bool :=
  match t with LIST | DICT | DATETIME | IMAGE => true | _ => false end.

(** What the streaming decoder emits for an encoded block *)
Definition stream_expected (data : list flexible_type) : list flexible_type :=
  if uniform data && is_generic (column_type data)
  then data ++ replicate (leading data) FUndefined else data.

Lemma column_type_eq t data : column t data -> present data <> [] -> column_type data = t.
Proof.
  unfold column_type, column. destruct (present data) as [|f l]; [done|]. intros H _. by apply Forall_cons in H as [? _].
Qed.

Lemma column_uniform t data : column t data -> present data <> [] -> uniform data = true.
Proof.
  intros Hcol Hne. unfold uniform. rewrite (column_type_eq t) by done. apply forallb_forall. intros f Hf.
  apply list_elem_of_In in Hf. destruct (is_undefined f) eqn:Ef; [done|]. cbn. apply bool_decide_eq_true.
  apply (Forall_in _ _ f Hcol). by apply in_present.
Qed.

Lemma stream_result_expected t data : column t data -> present data <> [] -> t <> UNDEFINED ->
  stream_result t data = stream_expected data.
Proof.
  intros Hcol Hne Ht. unfold stream_expected. rewrite (column_uniform t), (column_type_eq t) by done.
  by destruct t.
Qed.

(** Only a block of one type and UNDEFINED is uniform. *)
Lemma uniform_types data : uniform data = true ->
  (num_types data <= 1)%nat \/ num_types data = 2%nat /\ exists f, f ∈ data /\ get_type f = UNDEFINED.
Proof.
  intros Hu. unfold uniform in Hu. rewrite forallb_forall in Hu.
  set (T := List.filter (fun i => existsb (fun f => i =? tcode f)%nat data) (seq 0 16)).
  assert (forall i, In i T -> (i = 7%nat /\ exists f, f ∈ data /\ get_type f = UNDEFINED) \/
                              i = Z.to_nat (type_code (column_type data))) as HT.
  { intros i Hi. apply filter_In in Hi as [_ Hi]. apply existsb_tcode in Hi as (f & Hf & <-).
    specialize (Hu f ltac:(by apply list_elem_of_In)). apply orb_prop in Hu as [Hu|Hu].
    - left. destruct f; try done. split; [done|]. by exists FUndefined.
    - right. apply bool_decide_eq_true in Hu. unfold tcode. by rewrite Hu. }
  assert (List.NoDup T) as Hnd by apply List.NoDup_filter, seq_NoDup.
  unfold num_types. fold T. destruct (in_dec Nat.eq_dec 7%nat T) as [H7|H7].
  - assert (length T <= 2)%nat as Hl.
    { apply (List.NoDup_incl_length Hnd (l' := [7%nat; Z.to_nat (type_code (column_type data))])).
      intros i Hi. destruct (HT i Hi) as [ [-> _] | -> ]; cbn; auto. }
    destruct (Nat.eq_dec (length T) 2%nat); [|left; lia]. right. split; [done|].
    apply filter_In in H7 as [_ H7]. apply existsb_tcode in H7 as (f & Hf & Ef). exists f. split; [done|].
    unfold tcode in Ef. by destruct (get_type f).
  - left. apply (List.NoDup_incl_length Hnd (l' := [Z.to_nat (type_code (column_type data))])).
    intros i Hi. destruct (HT i Hi) as [ [-> _] | -> ]; cbn; auto.
Qed.

Definition multiple_ok (multiple : bool) (info : block_info) (data : list flexible_type) : Prop :=
  bi_num_elem info = length data /\
  negb (Z.land (bi_flags info) MULTIPLE_TYPE_BLOCK =? 0) = multiple.

Lemma u8_small n : (n <= 16)%nat -> is_u (8 * Z.of_nat 1) (u8 (Z.of_nat n)) /\ u8 (Z.of_nat n) = Z.of_nat n.
Proof.
  intros H. assert (is_u 8 (Z.of_nat n)) as Hu by (split; [lia|]; change (2 ^ 8) with 256; lia).
  rewrite (wrap_small 8) by done. done.
Qed.

(** The bitmap is written as raw words and read back with the same bits. *)
Lemma read_bitset_spec d : DenseBitset.wf d ->
  parses (read_bitset (DenseBitset.len d)) (concat (map (le_split 8) (DenseBitset.array d))) d.
Proof.
  intros Hw. unfold read_bitset. pose proof (DenseBitset.wf_arrlen d Hw) as Ha.
  unfold DenseBitset.arrlen in Ha. rewrite <- Ha.
  eapply parses_bind_nil; [apply parses_read_n, length_concat_le_split|].
  cbv beta. rewrite pods_of_bytes_concat by apply Hw. destruct d. apply parses_ret.
Qed.

(** A block with one type and UNDEFINED values *)
Lemma two_types_codec data types t : block_ok data -> types_of data = Some types ->
  t <> UNDEFINED -> column t data -> present data <> [] ->
  exists d bs, undefined_bitset data = Some d /\
    emits (write (concat (map (le_split 8) (DenseBitset.array d))) >>> encode_content types data) bs /\
    (count32 data -> parses (d <- read_bitset (length data) ;;
            positions <- option_reader (DenseBitset.elements d) ;;
            ret <- option_reader (undefine positions (replicate (length data) (reset t))) ;;
            decode_content t ret (Z.to_nat (DenseBitset.popcount d))) bs data) /\
    (count31 data -> parses (d <- read_bitset (length data) ;;
            stream_content t (Z.to_nat (DenseBitset.popcount d)) d (length data)) bs (stream_result t data)).
Proof.
  intros Hok E Ht Hcol Hne. destruct (undefined_bitset_spec data) as (d & Ed & Hw & Hl & Hb).
  destruct (content_spec t data types Hok Hcol Ht Hne E) as (bs & He & Hd & Hs).
  exists d, (concat (map (le_split 8) (DenseBitset.array d)) ++ bs).
  destruct (DenseBitset.iteration_spec d Hw) as (Hel & Hpop & _).
  rewrite Hl, (List.filter_ext _ _ Hb) in Hel, Hpop. rewrite count_undef in Hpop.
  pose proof (read_bitset_spec d Hw) as Hr. rewrite Hl in Hr.
  split_and!; [done|apply emits_seq; [apply emits_write|done]| |].
  - intros Hc. eapply parses_bind; [exact Hr|]. cbv beta. rewrite Hel, Hpop, Nat2Z.id.
    eapply (parses_bind _ _ []); [apply parses_ret|]. cbv beta. rewrite undefine_mask.
    eapply (parses_bind _ _ []); [apply parses_ret|]. by apply Hd.
  - intros Hc. eapply parses_bind; [exact Hr|]. cbv beta. rewrite Hpop, Nat2Z.id. apply Hs; [by split|done].
Qed.

(** What an encoded block promises to both decoders *)
Definition block_spec (data : list flexible_type) (r : option (bool * writer)) : Prop :=
  exists multiple w bs, r = Some (multiple, w) /\ emits w bs /\
    forall info ret, multiple_ok multiple info data ->
      (count32 data -> parses (decode_block info ret) bs data) /\
      (count31 data -> parses (stream_block info) bs (stream_expected data)).

Lemma type_code_u t : is_u (8 * Z.of_nat 1) (type_code t).
Proof. pose proof (type_code_range t). split; [lia|]. change (2 ^ _) with 256. lia. Qed.

Lemma empty_block_spec : block_spec [] (Some (false, pod_save 1 (u8 0))).
Proof.
  exists false, (pod_save 1 (u8 0)), (le_split 1 (u8 0)).
  split_and!; [done|apply emits_direct_assign|]. intros info ret [Hn Hm].
  split; intros Hc; (eapply parses_bind_nil; [by apply parses_pod|]); cbv beta; rewrite Hm; cbn [Z.eqb].
  - rewrite Hn. cbn [length]. rewrite resize_0. apply parses_ret.
  - apply parses_ret.
Qed.

Lemma undefined_block_spec n :
  let data := replicate n FUndefined in
  block_spec data (Some (false, pod_save 1 (u8 1) >>> pod_save 1 (type_code UNDEFINED))).
Proof.
  intros data.
  assert (stream_expected data = data) as Hse.
  { unfold stream_expected, column_type. assert (present data = []) as ->; [|by rewrite andb_false_r].
    unfold data. by induction n. }
  eexists false, _, _. split_and!; [done|apply emits_seq; apply emits_direct_assign|].
  intros info ret [Hn Hm]. rewrite Hse. unfold data in *. rewrite length_replicate in Hn.
  split; intros Hc; (eapply parses_bind; [by apply parses_pod|]); cbv beta; rewrite Hm; cbn [Z.eqb Pos.eqb];
    (eapply parses_bind_nil; [by apply parses_pod|]); cbn; rewrite Hn; apply parses_ret.
Qed.

Lemma one_type_block_spec t data types : block_ok data -> types_of data = Some types ->
  t <> UNDEFINED -> data <> [] -> Forall (fun f => get_type f = t) data ->
  block_spec data (Some (false, (pod_save 1 (u8 1) >>> pod_save 1 (type_code t)) >>> encode_content types data)).
Proof.
  intros Hok E Ht Hnil Hall.
  assert (Forall (fun f => is_undefined f = false) data) as Hnu.
  { eapply Forall_impl; [exact Hall|]. cbn. intros g Hg. destruct g; subst; done. }
  assert (column t data) as Hcol by (unfold column; by rewrite present_none).
  assert (present data <> []) as Hne by (by rewrite present_none).
  destruct (content_spec _ data types Hok Hcol Ht Hne E) as (bs & He & Hd & Hs).
  assert (num_undef data = 0%nat) as Hz by (unfold num_undef; rewrite present_none by done; lia).
  eexists false, _, _. split_and!; [done| |].
  { apply emits_seq; [apply emits_seq; apply emits_direct_assign|exact He]. }
  intros info ret [Hn Hm]. rewrite mask_none, Hz in Hd by done.
  rewrite <- (stream_result_expected t) by done. rewrite <- app_assoc.
  split; intros Hc; (eapply parses_bind; [by apply parses_pod|]); cbv beta; rewrite Hm; cbn [Z.eqb Pos.eqb];
    (eapply parses_bind; [apply parses_pod, type_code_u|]); cbv beta; rewrite type_of_code_code, Hn;
    rewrite decide_False by done; [by apply Hd|].
  apply Hs; [split; [by symmetry|done]|done].
Qed.

Lemma two_types_block_spec t data types d : block_ok data -> types_of data = Some types ->
  t <> UNDEFINED -> column t data -> present data <> [] -> undefined_bitset data = Some d ->
  block_spec data (Some (false, pod_save 1 (u8 2) >>> pod_save 1 (type_code t) >>>
    write (concat (map (le_split 8) (DenseBitset.array d))) >>> encode_content types data)).
Proof.
  intros Hok E Ht Hcol Hne Ed.
  destruct (two_types_codec data types t Hok E Ht Hcol Hne) as (d' & bs & Ed' & He & Hd & Hs).
  rewrite Ed in Ed'. injection Ed' as <-. eexists false, _, _. split_and!; [done| |].
  { apply emits_seq; [apply emits_direct_assign|]. apply emits_seq; [apply emits_direct_assign|exact He]. }
  intros info ret [Hn Hm]. rewrite <- (stream_result_expected t) by done.
  split; intros Hc; (eapply parses_bind; [by apply parses_pod|]); cbv beta; rewrite Hm; cbn [Z.eqb Pos.eqb];
    (eapply parses_bind; [apply parses_pod, type_code_u|]); cbv beta; rewrite type_of_code_code, Hn; auto.
Qed.

Lemma multiple_block_spec data n : block_ok data -> uniform data = false -> (n <= 16)%nat ->
  block_spec data (Some (true, pod_save 1 (u8 (Z.of_nat n)) >>> vector_save save data)).
Proof.
  intros (Hflex & Hlen & _) Hu Hn. destruct (codec_vector save load data Hlen) as (bs & He & Hd).
  { eapply Forall_impl; [exact Hflex|]. apply flex_codec. }
  assert (stream_expected data = data) as Hse by (unfold stream_expected; by rewrite Hu).
  eexists true, _, _. split_and!; [done|apply emits_seq; [apply emits_direct_assign|exact He]|].
  intros info ret [_ Hm]. rewrite Hse.
  split; intros Hc; (eapply parses_bind; [by apply parses_pod, u8_small|]); cbv beta; rewrite Hm; exact Hd.
Qed.

Lemma block_codec data : block_ok data -> block_spec data (encode_block data).
Proof.
  intros Hok. destruct (types_of_spec data) as (types & E & _ & _).
  destruct (types_popcount data types E) as [Hpop _]. pose proof (num_types_le data) as Hle.
  unfold encode_block. rewrite E, Hpop.
  destruct (Z.eqb_spec (Z.of_nat (num_types data)) 0) as [H0|H0].
  { assert (data = []) as -> by (apply num_types_0; lia). rewrite H0. apply empty_block_spec. }
  destruct (Z.eqb_spec (Z.of_nat (num_types data)) 1) as [H1|H1].
  { rewrite H1. destruct data as [|f data']; [done|].
    pose proof (num_types_1 f data' ltac:(lia)) as Hall. destruct (is_undefined f) eqn:Ef.
    - destruct f; try done.
      assert (FUndefined :: data' = replicate (length (FUndefined :: data')) FUndefined) as ->;
        [|apply undefined_block_spec].
      clear -Hall. induction Hall as [|g l Hg _ IH]; [done|]. cbn. rewrite <- IH. by destruct g.
    - apply one_type_block_spec; try done. by destruct f. }
  destruct (appeared_spec data types UNDEFINED E) as (b & -> & Hb).
  destruct ((Z.of_nat (num_types data) =? 2) && b) eqn:Etwo.
  - apply andb_prop in Etwo as [H2 ->]. apply Z.eqb_eq in H2. rewrite H2.
    destruct (proj1 Hb eq_refl) as (g & Hg & Hgt).
    destruct (num_types_2 data types g E ltac:(lia) Hg Hgt) as (t & Ht & -> & Hcol & Hne).
    destruct (undefined_bitset_spec data) as (d & Ed & _). rewrite Ed. by apply two_types_block_spec.
  - apply multiple_block_spec; [done| |done]. destruct (uniform data) eqn:Eu; [|done].
    destruct (uniform_types data Eu) as [Hone | [H2 Hex]]; [lia|]. apply Hb in Hex as ->.
    by rewrite H2 in Etwo.
Qed.

(** ** Whole blocks *)

Lemma land_or_flags f a b : Z.land (Z.lor f a) b = Z.lor (Z.land f b) (Z.land a b).
Proof. apply Z.land_lor_distr_l. Qed.

(** The encoder succeeds on every well-formed block; both decoders then read
    the bytes it appended, whatever follows them. *)
Lemma typed_encode_spec data block o : block_ok data -> oa_wf o ->
  Z.land (bi_flags block) MULTIPLE_TYPE_BLOCK = 0 ->
  exists info o' bs, typed_encode data block o = Some (info, o') /\ oa_wf o' /\
    oa_data o' = oa_data o ++ bs /\ bi_num_elem info = length data /\
    bi_block_size info = Z.of_nat (ooff o') /\
    forall rest ret,
      (count32 data -> typed_decode info (bs ++ rest) ret = Some (true, data)) /\
      (count31 data -> typed_decode_stream_callback info (bs ++ rest) = Some (true, stream_expected data)).
Proof.
  intros Hok Ho Hflag. destruct (block_codec data Hok) as (m & w & bs & E & He & Hp).
  destruct (He o Ho) as (o' & Ew & Ho' & Hd & _). unfold typed_encode. rewrite E, Ew.
  do 3 eexists. split; [done|]. split_and!; [done|exact Hd|by destruct m|done|].
  set (info := set_block_size _ _). intros rest ret.
  assert (multiple_ok m info data) as Hm.
  { split; [by destruct m|]. unfold info. destruct m; cbn [bi_flags set_block_size or_flags set_num_elem];
      rewrite !land_or_flags, Hflag; done. }
  assert ((Z.land (bi_flags info) IS_FLEXIBLE_TYPE =? 0) = false) as Hf.
  { apply Z.eqb_neq. intros H0. apply (f_equal (fun z => Z.testbit z 1)) in H0. revert H0.
    unfold info. destruct m; cbn [bi_flags set_block_size or_flags set_num_elem];
      rewrite Z.land_spec, !Z.lor_spec, Z.bits_0; change (Z.testbit IS_FLEXIBLE_TYPE 1) with true;
      by rewrite orb_true_r. }
  destruct (Hp info ret Hm) as [H1 H2]. unfold typed_decode, typed_decode_stream_callback. rewrite Hf.
  split; intros Hc.
  - rewrite (H1 Hc (iarchive_buf (bs ++ rest)) rest (Nat.le_0_l _) eq_refl).
    destruct Hm as [-> _]. by rewrite Nat.eqb_refl.
  - by rewrite (H2 Hc (iarchive_buf (bs ++ rest)) rest (Nat.le_0_l _) eq_refl).
Qed.

(** C1. [typed_decode] inverts [typed_encode].  For every block of at most 2^32
    values (empty, all UNDEFINED, one type, one type with UNDEFINED values, or
    mixed) in which every number fits its width and every length, the total
    length of the vectors too, fits 64 bits, encoding to a well-formed archive
    with block metadata that is not marked as of several types appends bytes to
    the archive, records the number of elements and the archive offset in the
    metadata, and decoding those bytes with that metadata succeeds and returns
    the original values, whatever follows the bytes and whatever the vector
    held that is decoded into.  (Beyond 2^32 values the [unsigned int] position
    counter of the string and vector decoders wraps.) *)
Theorem typed_encode_decode data block o : block_ok data -> count32 data -> oa_wf o ->
  Z.land (bi_flags block) MULTIPLE_TYPE_BLOCK = 0 ->
  exists info o' bs, typed_encode data block o = Some (info, o') /\
    oa_data o' = oa_data o ++ bs /\ bi_num_elem info = length data /\
    bi_block_size info = Z.of_nat (ooff o') /\
    forall rest ret, typed_decode info (bs ++ rest) ret = Some (true, data).
Proof.
  intros H1 Hc H2 H3. destruct (typed_encode_spec data block o H1 H2 H3)
    as (info & o' & bs & E & _ & Hd & Hn & Hs & H).
  exists info, o', bs. split_and!; auto. intros rest ret. by apply (proj1 (H rest ret)).
Qed.

Definition sample_block : list flexible_type :=
  [FUndefined; FString [Byte.x61]; FUndefined; FString []; FString [Byte.x61]].

Lemma typed_encode_decode_witness :
  exists info o' bs, typed_encode sample_block block_info_default oarchive_new = Some (info, o') /\
    oa_data o' = bs /\ typed_decode info (bs ++ [Byte.x00]) [FInt 4] = Some (true, sample_block).
Proof.
  destruct (typed_encode_decode sample_block block_info_default oarchive_new)
    as (info & o' & bs & E & Hd & _ & _ & H); [by repeat constructor|done|apply oarchive_new_wf|done|].
  exists info, o', bs. split_and!; [done|done|apply H].
Defined.

(** C31. The streaming decoder passes exactly the encoded values to its callback,
    in order, for every block of fewer than 2^31 values (the counter of the
    decoder is an [int]; every number fits its width, every length and the total
    length of the vectors 64 bits) that is of integers, doubles, strings or
    vectors (with or without UNDEFINED values), or mixed, or does not begin with
    an UNDEFINED value; the block was encoded to a well-formed archive with
    metadata that was not marked as of several types. *)
Theorem typed_decode_stream_correct data block o : block_ok data -> count31 data -> oa_wf o ->
  Z.land (bi_flags block) MULTIPLE_TYPE_BLOCK = 0 ->
  uniform data = false \/ is_generic (column_type data) = false \/ leading data = 0%nat ->
  exists info o' bs, typed_encode data block o = Some (info, o') /\ oa_data o' = oa_data o ++ bs /\
    forall rest, typed_decode_stream_callback info (bs ++ rest) = Some (true, data).
Proof.
  intros H1 H0 H2 H3 Hc. destruct (typed_encode_spec data block o H1 H2 H3)
    as (info & o' & bs & E & _ & Hd & _ & _ & H).
  exists info, o', bs. split_and!; auto. intros rest. rewrite (proj2 (H rest []) H0).
  unfold stream_expected.
  destruct Hc as [-> | [-> | ->]]; [done|by rewrite andb_false_r|].
  cbn [replicate]. rewrite app_nil_r. by destruct (_ && _).
Qed.

Lemma typed_decode_stream_correct_witness :
  exists info o' bs, typed_encode sample_block block_info_default oarchive_new = Some (info, o') /\
    oa_data o' = bs /\ typed_decode_stream_callback info (bs ++ []) = Some (true, sample_block).
Proof.
  destruct (typed_decode_stream_correct sample_block block_info_default oarchive_new)
    as (info & o' & bs & E & Hd & H);
    [by repeat constructor|done|apply oarchive_new_wf|done|right; left; reflexivity|].
  exists info, o', bs. split_and!; [done|done|apply H].
Defined.

(** For a column of lists, dictionaries, date-times or images that begins
    with UNDEFINED values, the streaming decoder calls its callback on those
    leading UNDEFINED values a second time, after all the elements: the
    branch for these types never advances [last_id]. *)
Theorem typed_decode_stream_repeats data block o : block_ok data -> count31 data -> oa_wf o ->
  Z.land (bi_flags block) MULTIPLE_TYPE_BLOCK = 0 ->
  uniform data = true -> is_generic (column_type data) = true ->
  exists info o' bs, typed_encode data block o = Some (info, o') /\ oa_data o' = oa_data o ++ bs /\
    forall rest, typed_decode_stream_callback info (bs ++ rest) =
                 Some (true, data ++ replicate (leading data) FUndefined).
Proof.
  intros H1 H0 H2 H3 Hu Hg. destruct (typed_encode_spec data block o H1 H2 H3)
    as (info & o' & bs & E & _ & Hd & _ & _ & H).
  exists info, o', bs. split_and!; auto. intros rest. rewrite (proj2 (H rest []) H0).
  unfold stream_expected. by rewrite Hu, Hg.
Qed.
