(* ===== verification/Hash.v ===== *)
(** Hashing: the model of [util/cityhash_gl.hpp] and [.cpp], of the hash
    visitors of [flexible_type/flexible_type_detail.hpp] and [.cpp], and of the
    row hashes of [sframe/join_impl.cpp].

    A [const char*] is an offset into the storage it points to; reading outside
    the storage is [None].  Numbers are kept at their width: [+!], [-!] and [*!]
    are the operations of [uint64_t].  The machine is little-endian.  The
    CityHash variants that nothing calls (32 bit, seeded, CRC) are left out. *)
From Stdlib Require Import ZArith Lia List Bool Znumtheory.
From stdpp Require Import prelude.
From coqutil Require Import Byte Word.LittleEndianList.
From S2P Require Import Prelude.
From S2P Require Import Archive.
From S2P Require Import FlexibleType.

Declare Scope u64_scope.
Delimit Scope u64_scope with u64.
Notation "x +! y" := (wrap 64 (Z.add x y)) (at level 50, left associativity) : u64_scope.
Notation "x -! y" := (wrap 64 (Z.sub x y)) (at level 50, left associativity) : u64_scope.
Notation "x *! y" := (wrap 64 (Z.mul x y)) (at level 40, left associativity) : u64_scope.
Infix "^!" := Z.lxor (at level 52, left associativity) : u64_scope.
#[local] Open Scope u64_scope.

(** ** CityHash *)

Definition k0 : Z := 0xc3a5c85c97cb3127.
Definition k1 : Z := 0xb492b66fbe98f273.
Definition k2 : Z := 0x9ae16a3b2f90404f.
Definition kMul : Z := 0x9ddfea08eb382d69.

Definition Rotate (val shift : Z) : Z :=
  if shift =? 0 then val else Z.lor (Z.shiftr val shift) (u64 (Z.shiftl val (64 - shift))).
Definition ShiftMix (val : Z) : Z := val ^! Z.shiftr val 47.
Definition bswap_64 (x : Z) : Z := LittleEndianList.le_combine (rev (LittleEndianList.le_split 8 x)).

(** The three-argument [HashLen16], and [Hash128to64] with its own multiplier *)
Definition HashLen16_mul (u v mul : Z) : Z :=
  let a := (u ^! v) *! mul in
  let a := a ^! Z.shiftr a 47 in
  let b := (v ^! a) *! mul in
  let b := b ^! Z.shiftr b 47 in
  b *! mul.
Definition Hash128to64 (x : Z * Z) : Z :=
  let a := (x.1 ^! x.2) *! kMul in
  let a := a ^! Z.shiftr a 47 in
  let b := (x.2 ^! a) *! kMul in
  let b := b ^! Z.shiftr b 47 in
  b *! kMul.
Definition HashLen16 (u v : Z) : Z := Hash128to64 (u, v).

Definition WeakHashLen32WithSeeds_values (w x y z a b : Z) : Z * Z :=
  let a := a +! w in
  let b := Rotate (b +! a +! z) 21 in
  let c := a in
  let a := a +! x in
  let a := a +! y in
  let b := b +! Rotate a 44 in
  (a +! z, b +! c).

Section city.
(** The storage that the pointers point into *)
Context (mem : bytes).

Definition load_le (n p : Z) : option Z :=
  if (0 <=? p) && (p + n <=? Z.of_nat (length mem))
  then Some (LittleEndianList.le_combine (take (Z.to_nat n) (drop (Z.to_nat p) mem))) else None.
Definition Fetch64 (p : Z) : option Z := load_le 8 p.
Definition Fetch32 (p : Z) : option Z := load_le 4 p.
Definition char_at (p : Z) : option Z := load_le 1 p.

Definition HashLen0to16 (s len : Z) : option Z :=
  if 8 <=? len then
    let mul := k2 +! len *! 2 in
    f ← Fetch64 s;
    let a := f +! k2 in
    b ← Fetch64 (s + len - 8);
    let c := Rotate b 37 *! mul +! a in
    let d := (Rotate a 25 +! b) *! mul in
    Some (HashLen16_mul c d mul)
  else if 4 <=? len then
    let mul := k2 +! len *! 2 in
    a ← Fetch32 s;
    b ← Fetch32 (s + len - 4);
    Some (HashLen16_mul (len +! u64 (Z.shiftl a 3)) b mul)
  else if 0 <? len then
    a ← char_at s;
    b ← char_at (s + Z.shiftr len 1);
    c ← char_at (s + len - 1);
    let y := u32 (a + u32 (Z.shiftl b 8)) in
    let z := u32 (len + u32 (Z.shiftl c 2)) in
    Some (ShiftMix (y *! k2 ^! z *! k0) *! k2)
  else Some k2.

Definition HashLen17to32 (s len : Z) : option Z :=
  let mul := k2 +! len *! 2 in
  f ← Fetch64 s;
  let a := f *! k1 in
  b ← Fetch64 (s + 8);
  f ← Fetch64 (s + len - 8);
  let c := f *! mul in
  f ← Fetch64 (s + len - 16);
  let d := f *! k2 in
  Some (HashLen16_mul (Rotate (a +! b) 43 +! Rotate c 30 +! d)
                      (a +! Rotate (b +! k2) 18 +! c) mul).

Definition WeakHashLen32WithSeeds (s a b : Z) : option (Z * Z) :=
  w ← Fetch64 s;
  x ← Fetch64 (s + 8);
  y ← Fetch64 (s + 16);
  z ← Fetch64 (s + 24);
  Some (WeakHashLen32WithSeeds_values w x y z a b).

Definition HashLen33to64 (s len : Z) : option Z :=
  let mul := k2 +! len *! 2 in
  f ← Fetch64 s;
  let a := f *! k2 in
  b ← Fetch64 (s + 8);
  c ← Fetch64 (s + len - 24);
  d ← Fetch64 (s + len - 32);
  f ← Fetch64 (s + 16);
  let e := f *! k2 in
  f ← Fetch64 (s + 24);
  let f := f *! 9 in
  g ← Fetch64 (s + len - 8);
  h ← Fetch64 (s + len - 16);
  let h := h *! mul in
  let u := Rotate (a +! g) 43 +! (Rotate b 30 +! c) *! 9 in
  let v := ((a +! g) ^! d) +! f +! 1 in
  let w := bswap_64 ((u +! v) *! mul) +! h in
  let x := Rotate (e +! f) 42 +! c in
  let y := (bswap_64 ((v +! w) *! mul) +! g) *! mul in
  let z := e +! f +! c in
  let a := bswap_64 ((x +! z) *! mul +! y) +! b in
  let b := ShiftMix ((z +! a) *! mul +! d +! h) *! mul in
  Some (b +! x).

(** The 56 bytes of state of the loops over 64-byte chunks *)
Record mix := mk_mix { mx : Z; my : Z; mz : Z; mv : Z * Z; mw : Z * Z }.

(** The body of the loop over a 64-byte chunk, before [s] advances; [CityHash64]
    and (twice per iteration) [CityHash128WithSeed] have it in common. *)
Definition city_chunk (s : Z) (m : mix) : option mix :=
  f ← Fetch64 (s + 8);
  let x := Rotate (mx m +! my m +! (mv m).1 +! f) 37 *! k1 in
  f ← Fetch64 (s + 48);
  let y := Rotate (my m +! (mv m).2 +! f) 42 *! k1 in
  let x := x ^! (mw m).2 in
  f ← Fetch64 (s + 40);
  let y := y +! ((mv m).1 +! f) in
  let z := Rotate (mz m +! (mw m).1) 33 *! k1 in
  v ← WeakHashLen32WithSeeds s ((mv m).2 *! k1) (x +! (mw m).1);
  f ← Fetch64 (s + 16);
  w ← WeakHashLen32WithSeeds (s + 32) (z +! (mw m).2) (y +! f);
  Some (mk_mix z y x v w).

(** [do ... while (len != 0)] with [len] a multiple of 64; [n] counts the chunks *)
Fixpoint city_loop (n : nat) (s : Z) (m : mix) : option mix :=
  match n with
  | O => Some m
  | S n => m ← city_chunk s m; city_loop n (s + 64) m
  end.

Definition CityHash64 (s len : Z) : option Z :=
  if len <=? 32 then
    if len <=? 16 then HashLen0to16 s len else HashLen17to32 s len
  else if len <=? 64 then HashLen33to64 s len
  else
    x ← Fetch64 (s + len - 40);
    f ← Fetch64 (s + len - 16);
    g ← Fetch64 (s + len - 56);
    let y := f +! g in
    f ← Fetch64 (s + len - 48);
    g ← Fetch64 (s + len - 24);
    let z := HashLen16 (f +! len) g in
    v ← WeakHashLen32WithSeeds (s + len - 64) len z;
    w ← WeakHashLen32WithSeeds (s + len - 32) (y +! k1) x;
    f ← Fetch64 s;
    let x := x *! k1 +! f in
    m ← city_loop (Z.to_nat (Z.land (len - 1) (Z.lnot 63) / 64)) s (mk_mix x y z v w);
    Some (HashLen16 (HashLen16 (mv m).1 (mw m).1 +! ShiftMix (my m) *! k1 +! mz m)
                    (HashLen16 (mv m).2 (mw m).2 +! mx m)).

(** The loop [do ... while (l > 0)] of [CityMurmur]; a fuel of the number of
    16-byte blocks is enough *)
Fixpoint murmur_loop (fuel : nat) (s l a b c d : Z) : option (Z * Z * Z * Z) :=
  match fuel with
  | O => None
  | S fuel =>
      f ← Fetch64 s;
      let a := a ^! ShiftMix (f *! k1) *! k1 in
      let a := a *! k1 in
      let b := b ^! a in
      f ← Fetch64 (s + 8);
      let c := c ^! ShiftMix (f *! k1) *! k1 in
      let c := c *! k1 in
      let d := d ^! c in
      let l := l - 16 in
      if 0 <? l then murmur_loop fuel (s + 16) l a b c d else Some (a, b, c, d)
  end.

Definition CityMurmur (s len : Z) (seed : Z * Z) : option (Z * Z) :=
  let '(a, b) := seed in
  let l := len - 16 in
  '(a, b, c, d) ←
    (if l <=? 0 then
       let a := ShiftMix (a *! k1) *! k1 in
       h ← HashLen0to16 s len;
       let c := b *! k1 +! h in
       f ← (if 8 <=? len then Fetch64 s else Some c);
       Some (a, b, c, ShiftMix (a +! f))
     else
       f ← Fetch64 (s + len - 8);
       let c := HashLen16 (f +! k1) a in
       f ← Fetch64 (s + len - 16);
       let d := HashLen16 (b +! len) (c +! f) in
       let a := a +! d in
       murmur_loop (Z.to_nat len) s l a b c d);
  let a := HashLen16 a c in
  let b := HashLen16 d b in
  Some (a ^! b, HashLen16 b a).

(** [do ... while (len >= 128)]; the result has the final [s] and [len] *)
Fixpoint city128_loop (fuel : nat) (s len : Z) (m : mix) : option (Z * Z * mix) :=
  match fuel with
  | O => None
  | S fuel =>
      m ← city_chunk s m;
      m ← city_chunk (s + 64) m;
      let s := s + 128 in
      let len := len - 128 in
      if 128 <=? len then city128_loop fuel s len m else Some (s, len, m)
  end.

(** [for (tail_done = 0; tail_done < len; )] *)
Fixpoint city128_tail (fuel : nat) (s len tail_done : Z) (m : mix) : option mix :=
  if tail_done <? len then
    match fuel with
    | O => None
    | S fuel =>
        let tail_done := tail_done + 32 in
        let y := Rotate (mx m +! my m) 42 *! k0 +! (mv m).2 in
        f ← Fetch64 (s + len - tail_done + 16);
        let w1 := (mw m).1 +! f in
        let x := mx m *! k0 +! w1 in
        f ← Fetch64 (s + len - tail_done);
        let z := mz m +! ((mw m).2 +! f) in
        let w2 := (mw m).2 +! (mv m).1 in
        v ← WeakHashLen32WithSeeds (s + len - tail_done) ((mv m).1 +! z) (mv m).2;
        city128_tail fuel s len tail_done (mk_mix x y z (v.1 *! k0, v.2) (w1, w2))
    end
  else Some m.

Definition CityHash128WithSeed (s len : Z) (seed : Z * Z) : option (Z * Z) :=
  if len <? 128 then CityMurmur s len seed
  else
    let '(x, y) := seed in
    let z := len *! k1 in
    f ← Fetch64 s;
    let v1 := Rotate (y ^! k1) 49 *! k1 +! f in
    f ← Fetch64 (s + 8);
    let v2 := Rotate v1 42 *! k1 +! f in
    let w1 := Rotate (y +! z) 35 *! k1 +! x in
    f ← Fetch64 (s + 88);
    let w2 := Rotate (x +! f) 53 *! k1 in
    '(s, len, m) ← city128_loop (Z.to_nat len) s len (mk_mix x y z (v1, v2) (w1, w2));
    let x := mx m +! Rotate ((mv m).1 +! mz m) 49 *! k0 in
    let y := my m *! k0 +! Rotate (mw m).2 37 in
    let z := mz m *! k0 +! Rotate (mw m).1 27 in
    m ← city128_tail 4 s len 0 (mk_mix x y z ((mv m).1 *! k0, (mv m).2) ((mw m).1 *! 9, (mw m).2));
    let x := HashLen16 (mx m) (mv m).1 in
    let y := HashLen16 (my m +! mz m) (mw m).1 in
    Some (HashLen16 (x +! (mv m).2) (mw m).2 +! y, HashLen16 (x +! (mw m).2) (y +! (mv m).2)).

Definition CityHash128 (s len : Z) : option (Z * Z) :=
  if 16 <=? len then
    f ← Fetch64 s;
    g ← Fetch64 (s + 8);
    CityHash128WithSeed (s + 16) (len - 16) (f, g +! k0)
  else CityHash128WithSeed s len (k0, k1).
End city.

(** ** Integer hashes *)

Definition murmur_m : Z := 0xc6a4a7935bd1e995.

(** [k *= m; k ^= k >> r; k *= m] *)
Definition murmur_mix (k : Z) : Z :=
  let k := k *! murmur_m in
  let k := k ^! Z.shiftr k 47 in
  k *! murmur_m.
Definition SimpleIntegerHash64 (s : Z) : Z := murmur_mix (u64 s ^! k0).
Definition SimpleIntegerHash128_pair (s1 s2 : Z) : Z * Z :=
  let first := murmur_mix s1 in
  let second := murmur_mix s2 in
  (first, (second ^! first) *! murmur_m).
Definition SimpleIntegerHash128 (s : Z) : Z * Z :=
  SimpleIntegerHash128_pair s (0x6e626e7774e95a48 ^! s).

Definition mur_c1 : Z := 0x87c37b91114253d5.
Definition mur_c2 : Z := 0x4cf5ad432745937f.
Definition Murmor3MixRoutine64 (x y seed : Z) : Z * Z :=
  let x := x *! mur_c1 in let x := Rotate x 31 in let x := x *! mur_c2 in
  let h1 := seed ^! x in
  let h1 := Rotate h1 27 in let h1 := h1 +! seed in let h1 := h1 *! 5 +! 0x52dce729 in
  let y := y *! mur_c2 in let y := Rotate y 33 in let y := y *! mur_c1 in
  let h2 := seed ^! y in
  let h2 := Rotate h2 31 in let h2 := h2 +! h1 in let h2 := h2 *! 5 +! 0x38495ab5 in
  (h1, h2).

(** The arguments are 128 bits wide.  The rotation of [y2] goes to [y], which is
    not read again. *)
Definition Murmor3MixRoutine128 (x y seed : Z) : Z * Z :=
  let x1 := u64 (Z.shiftr x 64) in let x2 := u64 x in
  let x1 := x1 *! mur_c1 in let x1 := Rotate x1 31 in let x1 := x1 *! mur_c2 in
  let h1 := seed ^! x1 in
  let h1 := Rotate h1 27 in let h1 := h1 +! seed in let h1 := h1 *! 5 +! 0x52dce729 in
  let x2 := x2 *! mur_c2 in let x2 := Rotate x2 33 in let x2 := x2 *! mur_c1 in
  let h2 := seed ^! x2 in
  let h2 := Rotate h2 31 in let h2 := h2 +! h1 in let h2 := h2 *! 5 +! 0x38495ab5 in
  let y1 := u64 (Z.shiftr y 64) in let y2 := u64 y in
  let y1 := y1 *! mur_c1 in let y1 := Rotate y1 31 in let y1 := y1 *! mur_c2 in
  let h1 := h1 ^! y1 in
  let h1 := Rotate h1 27 in let h1 := h1 +! h2 in let h1 := h1 *! 5 +! 0x52dce729 in
  let y2 := y2 *! mur_c2 in let y2 := y2 *! mur_c1 in
  let h2 := h2 ^! y2 in
  let h2 := Rotate h2 31 in let h2 := h2 +! h1 in let h2 := h2 *! 5 +! 0x38495ab5 in
  (h1, h2).

(** [(uint128_t(high) << 64) + uint128_t(low)] of a pair of (low, high) *)
Definition uint128_of (r : Z * Z) : Z := Z.shiftl r.2 64 + r.1.

(** The overloads of [hash64] and [hash128], by the type of the argument.  A
    string is hashed from its first character; the hash of a string is always
    defined (see [CityHash64_defined], [CityHash128_defined]). *)
Definition hash64_string (s : bytes) : Z := default 0 (CityHash64 s 0 (Z.of_nat (length s))).
Definition hash64_int (v : Z) : Z := SimpleIntegerHash64 v.
Definition hash64_pair (v1 v2 : Z) : Z :=
  let r := Murmor3MixRoutine64 v1 v2 0x9fa35c8d77b96328 in r.1 ^! r.2.
Definition hash64_uint128 (v : Z) : Z :=
  let r := Murmor3MixRoutine64 (u64 (Z.shiftr v 64)) (u64 v) 0xf52ef6f00df6f718 in r.1 ^! r.2.
Definition hash64_combine (h1 h2 : Z) : Z :=
  let r := Murmor3MixRoutine64 h1 h2 0x73a3916ae45d01e5 in r.1 ^! r.2.

Definition hash128_string (s : bytes) : Z :=
  uint128_of (default (0, 0) (CityHash128 s 0 (Z.of_nat (length s)))).
Definition hash128_uint128 (v : Z) : Z :=
  uint128_of (Murmor3MixRoutine64 (u64 (Z.shiftr v 64)) (u64 v) 0x8f84e92c0587b7e3).
Definition hash128_int (v : Z) : Z := uint128_of (SimpleIntegerHash128 (u64 v)).
Definition hash128_combine (h1 h2 : Z) : Z := uint128_of (Murmor3MixRoutine128 h1 h2 0x5b73ff027f14f66a).

Definition simple_random_mapping (index seed : Z) : Z :=
  let r := SimpleIntegerHash128_pair index seed in
  let h := r.1 ^! r.2 in
  u32 (h ^! Z.shiftr h 32).

(** ** Hashes of values *)

(** The bytes of an array of doubles *)
Definition vec_bytes (v : list Z) : bytes := concat (map (LittleEndianList.le_split 8) v).

(** [flexible_type::hash] by [city_hash_visitor]; UNDEFINED and images go to the
    generic overload *)
Fixpoint hash (f : flexible_type) : Z :=
  match f with
  | FInt i => hash64_int i
  | FDateTime d => hash64_int (dt_first d)
  | FFloat b => b
  | FString s => hash64_string s
  | FVector v => hash64_string (vec_bytes v)
  | FList l => hash64_int (fold_left (fun h x => hash64_combine h (hash x)) l 0)
  | FDict d =>
      let key_hash := fold_left (fun h kv => Z.lor h (hash kv.1)) d 0 in
      let value_hash := fold_left (fun h kv => Z.lor h (hash kv.1)) d 0 in
      hash64_combine key_hash value_hash
  | FImage _ | FUndefined => 0
  end.

(** [flexible_type::hash128] by [city_hash128_visitor] *)
Fixpoint hash128 (f : flexible_type) : Z :=
  match f with
  | FInt i => hash128_int i
  | FDateTime d => hash128_int (dt_first d)
  | FFloat b => hash128_string (LittleEndianList.le_split 8 b)
  | FString s => hash128_string s
  | FVector v => hash128_string (vec_bytes v)
  | FList l => hash128_uint128 (fold_left (fun h x => hash128_combine h (hash128 x)) l 0)
  | FDict d =>
      let key_hash := fold_left (fun h kv => Z.lor h (hash128 kv.1)) d 0 in
      let value_hash := fold_left (fun h kv => Z.lor h (hash128 kv.1)) d 0 in
      hash128_combine key_hash value_hash
  | FImage _ | FUndefined => 0
  end.

(** [hash128] and [hash64] of a vector of values *)
Definition hash128_vector (v : list flexible_type) : Z :=
  fold_left (fun h x => hash128_combine h (hash128 x)) v (hash128_int (Z.of_nat (length v))).
Definition hash64_vector (v : list flexible_type) : Z := hash64_uint128 (hash128_vector v).

(** [join_impl::hash_key] and [join_impl::compute_hash_from_row]; a position past
    the end of the row is undefined *)
Definition hash_key (key : list flexible_type) : Z :=
  fold_left (fun ret f => hash64_combine ret (hash f)) key 0.
Definition compute_hash_from_row (row : list flexible_type) (positions : list nat) : option Z :=
  fold_left (fun ret i => ret ← ret; f ← row !! i; Some (hash64_combine ret (hash f))) positions (Some 0).

(** ** Every read is inside the string *)

Section defined.
Context (mem : bytes).
Abbreviation size := (Z.of_nat (length mem)).

Lemma load_le_ok n p : 0 <= p -> 0 <= n -> p + n <= size ->
  exists x, load_le mem n p = Some x /\ is_u (8 * n) x.
Proof.
  intros. unfold load_le. rewrite (proj2 (Z.leb_le 0 p)), (proj2 (Z.leb_le _ _)) by lia. cbn.
  eexists. split; [done|].
  pose proof (LittleEndianList.le_combine_bound (take (Z.to_nat n) (drop (Z.to_nat p) mem))) as Hb.
  rewrite length_take, length_drop, Nat.min_l in Hb by lia.
  replace (8 * n) with (8 * Z.of_nat (Z.to_nat n)) by lia. done.
Qed.
Lemma Fetch64_ok p : 0 <= p -> p + 8 <= size -> exists x, Fetch64 mem p = Some x /\ is_u 64 x.
Proof. intros. apply (load_le_ok 8); lia. Qed.
Lemma Fetch32_ok p : 0 <= p -> p + 4 <= size -> exists x, Fetch32 mem p = Some x /\ is_u 32 x.
Proof. intros. apply (load_le_ok 4); lia. Qed.
Lemma char_at_ok p : 0 <= p -> p + 1 <= size -> exists x, char_at mem p = Some x /\ is_u 8 x.
Proof. intros. apply (load_le_ok 1); lia. Qed.
End defined.

Lemma lxor_range w x y : 0 <= w -> is_u w x -> is_u w y -> is_u w (Z.lxor x y).
Proof.
  intros Hw Hx Hy. unfold is_u in *.
  assert (Z.lxor x y = Z.lxor x y mod 2 ^ w) as ->; [|apply Z.mod_pos_bound; lia].
  rewrite <- Z.land_ones by done. symmetry. apply Z.bits_inj'. intros i Hi.
  rewrite Z.land_spec, Z.lxor_spec. destruct (Z.lt_ge_cases i w).
  - by rewrite Z.ones_spec_low, andb_true_r by lia.
  - rewrite <- (Z.mod_small x (2 ^ w)), <- (Z.mod_small y (2 ^ w)) by done.
    by rewrite !Z.mod_pow2_bits_high by lia.
Qed.

(** Runs the next read of a computation on an offset that [lia] shows to be
    inside the string. *)
Ltac fetch :=
  match goal with
  | |- context [Fetch64 ?m ?p] =>
      let x := fresh "x" in let E := fresh in let R := fresh in
      destruct (Fetch64_ok m p) as (x & E & R); [lia..|]; rewrite E; clear E; cbn [mbind option_bind]
  | |- context [Fetch32 ?m ?p] =>
      let x := fresh "x" in let E := fresh in let R := fresh in
      destruct (Fetch32_ok m p) as (x & E & R); [lia..|]; rewrite E; clear E; cbn [mbind option_bind]
  | |- context [char_at ?m ?p] =>
      let x := fresh "x" in let E := fresh in let R := fresh in
      destruct (char_at_ok m p) as (x & E & R); [lia..|]; rewrite E; clear E; cbn [mbind option_bind]
  end.
Ltac hash_done := eexists; split; [reflexivity|]; apply wrap_range; done.

Section defined_city.
Context (mem : bytes).
Abbreviation size := (Z.of_nat (length mem)).
(** [len] characters from [s] are inside the storage *)
Abbreviation inside s len := (0 <= s /\ s + len <= size).

Lemma WeakHash_ok p a b : inside p 32 -> exists v, WeakHashLen32WithSeeds mem p a b = Some v.
Proof. intros. unfold WeakHashLen32WithSeeds. repeat fetch. by eexists. Qed.

Ltac weak :=
  match goal with
  | |- context [WeakHashLen32WithSeeds ?m ?p ?a ?b] =>
      let v := fresh "v" in let E := fresh in
      destruct (WeakHash_ok p a b) as (v & E); [lia|]; rewrite E; clear E; cbn [mbind option_bind]
  end.

Lemma HashLen0to16_ok s len : inside s len -> 0 <= len <= 16 ->
  exists h, HashLen0to16 mem s len = Some h /\ is_u 64 h.
Proof.
  intros. unfold HashLen0to16. zcases; try (fetch; fetch; hash_done).
  - assert (0 <= Z.shiftr len 1 <= len - 1) by (rewrite Z.shiftr_div_pow2 by done; change (2 ^ 1) with 2; dlia).
    fetch; fetch; fetch; hash_done.
  - eexists. split; [done|]. unfold is_u. vm_compute. intuition congruence.
Qed.
Lemma HashLen17to32_ok s len : inside s len -> 16 < len ->
  exists h, HashLen17to32 mem s len = Some h /\ is_u 64 h.
Proof. intros. unfold HashLen17to32. repeat fetch. hash_done. Qed.
Lemma HashLen33to64_ok s len : inside s len -> 32 < len ->
  exists h, HashLen33to64 mem s len = Some h /\ is_u 64 h.
Proof. intros. unfold HashLen33to64. repeat fetch. hash_done. Qed.

Lemma city_chunk_ok s m : inside s 64 -> exists m', city_chunk mem s m = Some m'.
Proof. intros. unfold city_chunk. repeat (fetch || weak). by eexists. Qed.
Lemma city_loop_ok n : forall s m, inside s (64 * Z.of_nat n) -> exists m', city_loop mem n s m = Some m'.
Proof.
  induction n as [|n IH]; intros s m Hs; cbn [city_loop]; [by eexists|].
  destruct (city_chunk_ok s m) as [m' ->]; [lia|]. cbn. apply IH. lia.
Qed.

Lemma CityHash64_ok s len : inside s len -> 0 <= len -> exists h, CityHash64 mem s len = Some h /\ is_u 64 h.
Proof.
  intros Hs Hl. unfold CityHash64. zcases;
    [by apply HashLen0to16_ok | by apply HashLen17to32_ok; lia | by apply HashLen33to64_ok; lia | ].
  set (n := Z.to_nat _). assert (64 * Z.of_nat n <= len) as Hn.
  { unfold n. assert (Z.land (len - 1) (Z.lnot 63) <= len - 1) as Hle.
    { change 63 with (Z.ones 6). rewrite <- Z.ldiff_land, Z.ldiff_ones_r by done.
      rewrite Z.shiftl_mul_pow2, Z.shiftr_div_pow2 by done. dlia. }
    assert (0 <= Z.land (len - 1) (Z.lnot 63)) by (apply Z.land_nonneg; lia). dlia. }
  clearbody n. repeat (fetch || weak).
  match goal with |- context [city_loop mem n s ?m] => destruct (city_loop_ok n s m) as [m' ->]; [lia|] end.
  cbn [mbind option_bind]. hash_done.
Qed.

Lemma murmur_loop_ok fuel : forall s l a b c d, inside s (l + 16) -> 0 < l <= Z.of_nat fuel ->
  exists r, murmur_loop mem fuel s l a b c d = Some r.
Proof.
  induction fuel as [|fuel IH]; intros s l a b c d Hs Hl; [lia|]. cbn [murmur_loop].
  fetch. fetch. zcases; [apply IH; lia | by eexists].
Qed.

(** A pair of 64-bit numbers *)
Definition is_u128_pair (r : Z * Z) : Prop := is_u 64 r.1 /\ is_u 64 r.2.

Lemma HashLen16_range u v : is_u 64 (HashLen16 u v).
Proof. by apply wrap_range. Qed.

Lemma CityMurmur_ok s len seed : inside s len -> 0 <= len ->
  exists r, CityMurmur mem s len seed = Some r /\ is_u128_pair r.
Proof.
  intros Hs Hl. unfold CityMurmur. destruct seed as [a b].
  assert (forall a b c d, is_u128_pair (HashLen16 a c ^! HashLen16 d b, HashLen16 (HashLen16 d b) (HashLen16 a c)))
    as Hout by (split; [apply lxor_range|]; apply HashLen16_range || done).
  destruct (Z.leb_spec (len - 16) 0).
  - destruct (HashLen0to16_ok s len) as (h & -> & _); [lia..|]. cbn [mbind option_bind].
    destruct (Z.leb_spec 8 len); [fetch|cbn [mbind option_bind]]; eexists; (split; [reflexivity|apply Hout]).
  - fetch. fetch.
    match goal with |- context [murmur_loop mem ?n s ?l ?a ?b ?c ?d] =>
      destruct (murmur_loop_ok n s l a b c d) as [[[[a' b'] c'] d'] ->]; [lia..|] end.
    eexists. split; [reflexivity|apply Hout].
Qed.

Lemma city128_loop_ok fuel : forall s len m, inside s len -> 128 <= len <= Z.of_nat fuel ->
  exists s' len' m', city128_loop mem fuel s len m = Some (s', len', m') /\
    s' + len' = s + len /\ s + 128 <= s' /\ 0 <= len' < 128.
Proof.
  induction fuel as [|fuel IH]; intros s len m Hs Hl; [lia|]. cbn [city128_loop].
  destruct (city_chunk_ok s m) as [m1 ->]; [lia|]. cbn [mbind option_bind].
  destruct (city_chunk_ok (s + 64) m1) as [m2 ->]; [lia|]. cbn [mbind option_bind].
  zcases.
  - destruct (IH (s + 128) (len - 128) m2) as (s' & len' & m' & -> & ?); [lia..|].
    do 3 eexists. split; [done|]. lia.
  - do 3 eexists. split; [done|]. lia.
Qed.

Lemma city128_tail_ok fuel : forall s len tail m,
  32 <= s -> s + len <= size -> 0 <= tail -> len <= tail + 32 * Z.of_nat fuel ->
  exists m', city128_tail mem fuel s len tail m = Some m'.
Proof.
  induction fuel as [|fuel IH]; intros s len tail m Hs Hl Ht Hf; cbn [city128_tail]; zcases; try lia; try by eexists.
  fetch. fetch. weak. apply IH; lia.
Qed.

Lemma CityHash128WithSeed_ok s len seed : inside s len -> 0 <= len ->
  exists r, CityHash128WithSeed mem s len seed = Some r /\ is_u128_pair r.
Proof.
  intros Hs Hl. unfold CityHash128WithSeed. zcases; [by apply CityMurmur_ok|]. destruct seed as [x y].
  do 3 fetch.
  match goal with |- context [city128_loop mem ?n s len ?m] =>
    destruct (city128_loop_ok n s len m) as (s' & len' & m' & -> & ?); [lia..|] end.
  cbn [mbind option_bind].
  match goal with |- context [city128_tail mem 4 s' len' 0 ?m] =>
    destruct (city128_tail_ok 4 s' len' 0 m) as [m2 ->]; [lia..|] end.
  eexists. split; [reflexivity|]. split; by apply wrap_range.
Qed.

Lemma CityHash128_ok s len : inside s len -> 0 <= len ->
  exists r, CityHash128 mem s len = Some r /\ is_u128_pair r.
Proof.
  intros Hs Hl. unfold CityHash128. zcases; [|by apply CityHash128WithSeed_ok].
  fetch. fetch. apply CityHash128WithSeed_ok; lia.
Qed.
End defined_city.

(** C28. Hashing a string reads only characters of the string and returns: whatever
    the string, [CityHash64] and [CityHash128] are defined on it (every one of the
    unaligned loads of the branches for short strings, of the loops over chunks and
    of the tail, which reads backwards over characters already hashed, is inside
    it), and the hashes are numbers of 64 bits and of twice 64 bits. *)
Theorem CityHash_in_bounds s :
  (exists h, CityHash64 s 0 (Z.of_nat (length s)) = Some h /\ is_u 64 h) /\
  (exists r, CityHash128 s 0 (Z.of_nat (length s)) = Some r /\ is_u128_pair r).
Proof. split; [apply CityHash64_ok | apply CityHash128_ok]; lia. Qed.

(** ** The integer hashes are bijections *)

(** [f] permutes the 64-bit numbers *)
Record bij64 (f : Z -> Z) : Prop := {
  bij_range x : is_u 64 x -> is_u 64 (f x);
  bij_inj x y : is_u 64 x -> is_u 64 y -> f x = f y -> x = y;
  bij_surj y : is_u 64 y -> exists x, is_u 64 x /\ f x = y
}.

Lemma bij64_inverse f g : (forall x, is_u 64 x -> is_u 64 (f x) /\ is_u 64 (g x) /\ g (f x) = x /\ f (g x) = x) -> bij64 f.
Proof.
  intros H. split.
  - intros x Hx. by destruct (H x Hx).
  - intros x y Hx Hy E. destruct (H x Hx) as (_ & _ & <- & _), (H y Hy) as (_ & _ & <- & _). by rewrite E.
  - intros y Hy. exists (g y). by destruct (H y Hy) as (_ & ? & _ & ?).
Qed.
Lemma bij64_compose f g : bij64 f -> bij64 g -> bij64 (fun x => f (g x)).
Proof.
  intros [Rf If Sf] [Rg Ig Sg]. split.
  - auto.
  - intros x y Hx Hy E. apply Ig; auto.
  - intros y Hy. destruct (Sf y Hy) as (z & Hz & <-), (Sg z Hz) as (x & Hx & <-). eauto.
Qed.

Lemma bij64_mul m inv : u64 (m * inv) = 1 -> bij64 (fun x => x *! m).
Proof.
  intros E. apply (bij64_inverse _ (fun x => x *! inv)). intros x Hx.
  assert (forall a b, u64 (a * b) = 1 -> u64 (u64 (x * a) * b) = x) as Hinv.
  { intros a b Hab. unfold wrap in *. rewrite Zmult_mod_idemp_l, <- Z.mul_assoc, <- Zmult_mod_idemp_r, Hab.
    rewrite Z.mul_1_r. by apply Z.mod_small. }
  split_and!; [by apply wrap_range..| |]; apply Hinv; [done|]. by rewrite Z.mul_comm.
Qed.
Lemma bij64_add c : bij64 (fun x => x +! c).
Proof.
  apply (bij64_inverse _ (fun x => x -! c)). intros x Hx. split_and!; [by apply wrap_range..| |].
  - unfold wrap. rewrite Zminus_mod_idemp_l, Z.add_simpl_r. by apply Z.mod_small.
  - rewrite wrap_add_l, Z.sub_add. by apply wrap_small.
Qed.
Lemma bij64_xor c : is_u 64 c -> bij64 (fun x => x ^! c).
Proof.
  intros Hc. apply (bij64_inverse _ (fun x => x ^! c)). intros x Hx.
  split_and!; try (by apply lxor_range); by rewrite Z.lxor_assoc, Z.lxor_nilpotent, Z.lxor_0_r.
Qed.
Lemma bij64_xor_l c : is_u 64 c -> bij64 (fun x => c ^! x).
Proof.
  intros Hc. destruct (bij64_xor c Hc) as [R I S]. split.
  - intros x. rewrite Z.lxor_comm. apply R.
  - intros x y. rewrite !(Z.lxor_comm c). apply I.
  - intros y Hy. destruct (S y Hy) as (x & ? & <-). exists x. by rewrite Z.lxor_comm.
Qed.
Lemma bij64_shiftmix : bij64 ShiftMix.
Proof.
  apply (bij64_inverse _ ShiftMix). intros x Hx.
  assert (forall n, 0 <= n -> is_u 64 (Z.shiftr x n)) as Hs.
  { intros n Hn. unfold is_u in *. rewrite Z.shiftr_div_pow2 by done.
    pose proof (Z.pow_pos_nonneg 2 n). split; [apply Z.div_pos; lia|].
    apply Z.div_lt_upper_bound; nia. }
  assert (is_u 64 (ShiftMix x)) by (apply lxor_range; try done; apply Hs; done).
  assert (ShiftMix (ShiftMix x) = x) as E; [|by rewrite E].
  unfold ShiftMix. rewrite Z.shiftr_lxor, Z.shiftr_shiftr by done.
  assert (Z.shiftr x (47 + 47) = 0) as ->.
  { rewrite Z.shiftr_div_pow2 by done. apply Z.div_small. unfold is_u in Hx. lia. }
  by rewrite Z.lxor_0_r, Z.lxor_assoc, Z.lxor_nilpotent, Z.lxor_0_r.
Qed.

Lemma Rotate_arith v n : is_u 64 v -> 0 < n < 64 ->
  Rotate v n = v mod 2 ^ n * 2 ^ (64 - n) + v / 2 ^ n.
Proof.
  intros Hv Hn. unfold Rotate. zcases; [lia|].
  assert (2 ^ 64 = 2 ^ n * 2 ^ (64 - n)) as E by (rewrite <- Z.pow_add_r by lia; f_equal; lia).
  assert (0 < 2 ^ n /\ 0 < 2 ^ (64 - n)) as [H1 H2] by (split; apply Z.pow_pos_nonneg; lia).
  assert (u64 (Z.shiftl v (64 - n)) = Z.shiftl (v mod 2 ^ n) (64 - n)) as ->.
  { rewrite !Z.shiftl_mul_pow2 by lia. unfold wrap. rewrite E. by rewrite Z.mul_mod_distr_r by lia. }
  rewrite Z.lor_comm, lor_shiftl_add, Z.shiftr_div_pow2; try lia.
  rewrite Z.shiftr_div_pow2 by lia. unfold is_u in Hv. split; [apply Z.div_pos; lia|].
  apply Z.div_lt_upper_bound; lia.
Qed.
Lemma bij64_rotate n : 0 < n < 64 -> bij64 (fun x => Rotate x n).
Proof.
  assert (forall n x, 0 < n < 64 -> is_u 64 x -> is_u 64 (Rotate x n) /\ Rotate (Rotate x n) (64 - n) = x) as H.
  { clear n. intros n x Hn Hx.
    assert (2 ^ 64 = 2 ^ n * 2 ^ (64 - n)) as E by (rewrite <- Z.pow_add_r by lia; f_equal; lia).
    assert (0 < 2 ^ n /\ 0 < 2 ^ (64 - n)) as [H1 H2] by (split; apply Z.pow_pos_nonneg; lia).
    pose proof (Z.mod_pos_bound x (2 ^ n)) as Hm.
    assert (0 <= x / 2 ^ n < 2 ^ (64 - n)) as Hd.
    { unfold is_u in Hx. split; [apply Z.div_pos; lia | apply Z.div_lt_upper_bound; lia]. }
    rewrite (Rotate_arith x) by done.
    assert (is_u 64 (x mod 2 ^ n * 2 ^ (64 - n) + x / 2 ^ n)) as Hr by (unfold is_u; nia).
    split; [done|]. rewrite Rotate_arith by (done || lia). replace (64 - (64 - n)) with n by lia.
    rewrite (Z.add_comm (x mod _ * _)), Z.mod_add, Z.div_add, (Z.mod_small (x / _)), (Z.div_small (x / _)) by lia.
    rewrite (Z_div_mod_eq_full x (2 ^ n)) at 3. lia. }
  intros Hn. apply (bij64_inverse _ (fun x => Rotate x (64 - n))). intros x Hx.
  destruct (H n x Hn Hx), (H (64 - n) x ltac:(lia) Hx) as [? E].
  replace (64 - (64 - n)) with n in E by lia. done.
Qed.

#[export] Hint Resolve bij64_compose bij64_add bij64_xor bij64_xor_l bij64_shiftmix bij64_rotate : dato.

(** The two inverses of the odd multipliers modulo 2^64 *)
Lemma bij64_murmur_m : bij64 (fun x => x *! murmur_m).
Proof. apply (bij64_mul _ 0x5f7a0ea7e59b19bd). by vm_compute. Qed.
Lemma bij64_mur_c1 : bij64 (fun x => x *! mur_c1).
Proof. apply (bij64_mul _ 0xa98409e882ce4d7d). by vm_compute. Qed.
Lemma bij64_mur_c2 : bij64 (fun x => x *! mur_c2).
Proof. apply (bij64_mul _ 0xa81e14edd9de2c7f). by vm_compute. Qed.
Lemma bij64_5 : bij64 (fun x => x *! 5).
Proof. apply (bij64_mul _ 0xcccccccccccccccd). by vm_compute. Qed.

Lemma bij64_ext f g : (forall x, f x = g x) -> bij64 f -> bij64 g.
Proof.
  intros E [R I S]. split.
  - intros x. rewrite <- E. apply R.
  - intros x y. rewrite <- !E. apply I.
  - intros y Hy. destruct (S y Hy) as (x & ? & <-). by exists x.
Qed.

Lemma bij64_murmur_mix : bij64 murmur_mix.
Proof.
  exact (bij64_compose _ _ bij64_murmur_m (bij64_compose _ _ bij64_shiftmix bij64_murmur_m)).
Qed.

(** The two halves of [Murmor3MixRoutine64]: the second depends on the first. *)
Definition mix_first (seed x : Z) : Z := (Murmor3MixRoutine64 x 0 seed).1.
Definition mix_second (seed h1 y : Z) : Z :=
  (Rotate (seed ^! (Rotate (y *! mur_c2) 33 *! mur_c1)) 31 +! h1) *! 5 +! 0x38495ab5.
Lemma Murmor3MixRoutine64_halves x y seed :
  Murmor3MixRoutine64 x y seed = (mix_first seed x, mix_second seed (mix_first seed x) y).
Proof. reflexivity. Qed.

Lemma bij64_mix_first seed : is_u 64 seed -> bij64 (mix_first seed).
Proof.
  intros Hs. apply (bij64_compose (fun x => x +! 0x52dce729)); [auto with dato|].
  apply (bij64_compose (fun x => x *! 5)); [apply bij64_5|].
  apply (bij64_compose (fun x => x +! seed)); [auto with dato|].
  apply (bij64_compose (fun x => Rotate x 27)); [by apply bij64_rotate|].
  apply (bij64_compose (fun x => seed ^! x)); [auto with dato|].
  apply (bij64_compose (fun x => x *! mur_c2)); [apply bij64_mur_c2|].
  apply (bij64_compose (fun x => Rotate x 31)); [by apply bij64_rotate|apply bij64_mur_c1].
Qed.
Lemma bij64_mix_second seed h1 : is_u 64 seed -> bij64 (mix_second seed h1).
Proof.
  intros Hs. apply (bij64_compose (fun x => x +! 0x38495ab5)); [auto with dato|].
  apply (bij64_compose (fun x => x *! 5)); [apply bij64_5|].
  apply (bij64_compose (fun x => x +! h1)); [auto with dato|].
  apply (bij64_compose (fun x => Rotate x 31)); [by apply bij64_rotate|].
  apply (bij64_compose (fun x => seed ^! x)); [auto with dato|].
  apply (bij64_compose (fun x => x *! mur_c1)); [apply bij64_mur_c1|].
  apply (bij64_compose (fun x => Rotate x 33)); [by apply bij64_rotate|apply bij64_mur_c2].
Qed.

Lemma mix_first_range seed x : is_u 64 (mix_first seed x).
Proof. by apply wrap_range. Qed.
Lemma mix_second_range seed h1 y : is_u 64 (mix_second seed h1 y).
Proof. by apply wrap_range. Qed.

Lemma mix_pair_range seed seed' x h y : is_u128_pair (mix_first seed x, mix_second seed' h y).
Proof. split; [exact (mix_first_range seed x) | exact (mix_second_range seed' h y)]. Qed.

Lemma uint128_of_inj a b : is_u128_pair a -> is_u128_pair b -> uint128_of a = uint128_of b -> a = b.
Proof.
  destruct a as [a1 a2], b as [b1 b2]. unfold is_u128_pair, uint128_of, is_u. cbn.
  rewrite !Z.shiftl_mul_pow2 by done. intros. f_equal; lia.
Qed.

Lemma u64_of_signed_inj i j : is_s 64 i -> is_s 64 j -> u64 i = u64 j -> i = j.
Proof. intros Hi Hj E. rewrite <- (signed_wrap 64 i), <- (signed_wrap 64 j) by done. by rewrite E. Qed.

Lemma hash64_int_inj i j : is_s 64 i -> is_s 64 j -> hash64_int i = hash64_int j -> i = j.
Proof.
  intros Hi Hj E. apply u64_of_signed_inj; try done.
  assert (is_u 64 k0) as Hk by (by vm_compute).
  refine (bij_inj _ (bij64_compose _ _ bij64_murmur_mix (bij64_xor k0 Hk)) _ _ _ _ E); by apply wrap_range.
Qed.

Lemma SimpleIntegerHash128_range s : is_u128_pair (SimpleIntegerHash128 s).
Proof.
  unfold SimpleIntegerHash128, SimpleIntegerHash128_pair, murmur_mix. split; cbn [fst snd]; by apply wrap_range.
Qed.

Lemma hash128_int_inj i j : is_s 64 i -> is_s 64 j -> hash128_int i = hash128_int j -> i = j.
Proof.
  intros Hi Hj E. unfold hash128_int in E. apply uint128_of_inj in E; [|apply SimpleIntegerHash128_range..].
  apply u64_of_signed_inj; try done. apply (f_equal fst) in E.
  apply (bij_inj _ bij64_murmur_mix); [by apply wrap_range..|done].
Qed.

(** Conversion unfolds the mixing routine last. *)
Strategy 100 [uint128_of Murmor3MixRoutine64].

Lemma mix128_inj seed v w : is_u 64 seed -> is_u 128 v -> is_u 128 w ->
  uint128_of (Murmor3MixRoutine64 (u64 (Z.shiftr v 64)) (u64 v) seed) =
  uint128_of (Murmor3MixRoutine64 (u64 (Z.shiftr w 64)) (u64 w) seed) -> v = w.
Proof.
  intros Hs Hv Hw E. rewrite !Murmor3MixRoutine64_halves in E.
  apply uint128_of_inj in E; [|apply mix_pair_range..].
  injection E as E1 E2. rewrite E1 in E2.
  apply (bij_inj _ (bij64_mix_first _ Hs)) in E1; [|by apply wrap_range..].
  apply (bij_inj _ (bij64_mix_second _ _ Hs)) in E2; [|by apply wrap_range..].
  rewrite !Z.shiftr_div_pow2 in E1 by done. unfold wrap, is_u in *.
  rewrite (Z_div_mod_eq_full v (2 ^ 64)), (Z_div_mod_eq_full w (2 ^ 64)), E2.
  rewrite (Z.mod_small (v / _)), (Z.mod_small (w / _)) in E1 by (split; [apply Z.div_pos | apply Z.div_lt_upper_bound]; lia).
  by rewrite E1.
Qed.
Lemma hash128_uint128_inj v w : is_u 128 v -> is_u 128 w -> hash128_uint128 v = hash128_uint128 w -> v = w.
Proof. intros Hv Hw E. unfold hash128_uint128 in E. exact (mix128_inj 0x8f84e92c0587b7e3 v w ltac:(done) Hv Hw E). Qed.

(** The two halves xored, as [hash64] of two numbers and [hash64_combine] do *)
Lemma mix64_bij seed x : is_u 64 seed ->
  bij64 (fun y => (Murmor3MixRoutine64 x y seed).1 ^! (Murmor3MixRoutine64 x y seed).2).
Proof.
  intros Hs. apply (bij64_ext (fun y => mix_first seed x ^! mix_second seed (mix_first seed x) y)).
  - intros y. by rewrite Murmor3MixRoutine64_halves.
  - apply (bij64_compose (fun z => mix_first seed x ^! z)); [|by apply bij64_mix_second].
    apply bij64_xor_l, mix_first_range.
Qed.
Lemma hash64_combine_bij h : bij64 (hash64_combine h).
Proof. by apply (mix64_bij 0x73a3916ae45d01e5). Qed.

(** C26. The integer hashes have no collisions: [hash64] and [hash128] map
    different 64-bit integers to different hashes, [hash128] maps different 128-bit
    numbers to different hashes, and [hash64_combine], with a fixed first
    argument, is a permutation of the 64-bit numbers in the second.  (It is not
    injective in the first: [hash64_combine_first_collides].) *)
Theorem integer_hashes_unique :
  (forall i j, is_s 64 i -> is_s 64 j -> hash64_int i = hash64_int j -> i = j) /\
  (forall i j, is_s 64 i -> is_s 64 j -> hash128_int i = hash128_int j -> i = j) /\
  (forall v w, is_u 128 v -> is_u 128 w -> hash128_uint128 v = hash128_uint128 w -> v = w) /\
  (forall h, bij64 (hash64_combine h)).
Proof.
  split_and!; [apply hash64_int_inj | apply hash128_int_inj | apply hash128_uint128_inj | apply hash64_combine_bij].
Qed.

(** Nor is [hash64_combine] injective in its first argument. *)
Lemma hash64_combine_first_collides :
  hash64_combine 0xdc9b69ac6623ddab 12345 = hash64_combine 0x9dc192ba4e1c2136 12345.
Proof. vm_compute. reflexivity. Qed.

(** The hash of two integers is not unique: for any two integers and any other
    first integer there is a second one with the same hash. *)
Lemma hash64_pair_collides v1 v2 w1 : is_u 64 v2 ->
  exists w2, is_u 64 w2 /\ hash64_pair w1 w2 = hash64_pair v1 v2.
Proof.
  intros Hv. apply (bij_surj _ (mix64_bij 0x9fa35c8d77b96328 w1 ltac:(done))).
  by apply (bij_range _ (mix64_bij 0x9fa35c8d77b96328 v1 ltac:(done))).
Qed.
