(* ===== verification/FlexibleOps.v ===== *)
(** Operators of [flexible_type]: comparison, equality, arithmetic, conversion
    and container access ([flexible_type/flexible_type_detail.hpp],
    [flexible_type/flexible_type.hpp], [flexible_type/flexible_type.cpp]).

    The visitors are functions by cases on the stored types.  A case that the
    code leaves to the generic [FLEX_TYPE_ASSERT(false)] overload throws.
    Behaviour that C++ leaves undefined (division by zero, conversion of a
    double out of the integer range, access out of bounds) is [Undef].  Signed
    overflow wraps around, as on the platforms the code is built for. *)
From Stdlib Require Import ZArith Lia List Bool.
From stdpp Require Import prelude pretty.
From coqutil Require Import Byte.
From S2P Require Import Prelude.
From S2P Require Import Double.
From S2P Require Import Archive.
From S2P Require Import FlexibleType.

(** ** Ordering *)

(** [std::string] compares as unsigned characters, the shorter prefix first. *)
Fixpoint bytes_lt (s t : bytes) : bool :=
  match s, t with
  | _, [] => false
  | [], _ => true
  | a :: s, b :: t =>
      if byte.unsigned a <? byte.unsigned b then true
      else if byte.unsigned b <? byte.unsigned a then false
      else bytes_lt s t
  end.

(** The [flex_vec] cases of [lt_operator] and [gt_operator] *)
Fixpoint vec_lt (t u : list Z) : bool :=
  match t, u with
  | [], [] => false
  | [], _ :: _ => true
  | _ :: _, [] => false
  | x :: t, y :: u => if d_gt x y then false else if d_lt x y then true else vec_lt t u
  end.
Fixpoint vec_gt (t u : list Z) : bool :=
  match t, u with
  | [], _ => false
  | _ :: _, [] => true
  | x :: t, y :: u => if d_gt x y then true else if d_lt x y then false else vec_gt t u
  end.

(** [operator<] and [operator>]: [compare lt] is [lt_operator] for [true] and
    [gt_operator] for [false]; they call each other on the elements of lists. *)
Fixpoint compare (lt : bool) (t u : flexible_type) : outcome bool :=
  match t, u with
  | FFloat a, FFloat b => Ok (if lt then d_lt a b else d_gt a b)
  | FInt a, FInt b => Ok (if lt then a <? b else b <? a)
  | FDateTime a, FInt b => Ok (if lt then dt_first a <? b else b <? dt_first a)
  | FInt a, FDateTime b => Ok (if lt then a <? dt_first b else dt_first b <? a)
  | FDateTime a, FDateTime b =>
      Ok (if lt then dt_first a <? dt_first b else dt_first b <? dt_first a)
  | FInt a, FFloat b => Ok (if lt then d_lt (d_of_int a) b else d_gt (d_of_int a) b)
  | FFloat a, FInt b => Ok (if lt then d_lt a (d_of_int b) else d_gt a (d_of_int b))
  | FString a, FString b => Ok (if lt then bytes_lt a b else bytes_lt b a)
  | FVector a, FVector b => Ok (if lt then vec_lt a b else vec_gt a b)
  | FList a, FList b =>
      (fix loop (a b : list flexible_type) : outcome bool :=
         match a, b with
         | [], [] => Ok false
         | [], _ :: _ => Ok lt
         | _ :: _, [] => Ok (negb lt)
         | x :: a, y :: b =>
             obind (compare false x y) (fun gt =>
             if (gt : bool) then Ok (negb lt) else
             obind (compare true x y) (fun less =>
             if (less : bool) then Ok lt else loop a b))
         end) a b
  | _, _ => Throws
  end.
Definition lt_operator := compare true.
Definition gt_operator := compare false.

(** ** Equality *)

Fixpoint vec_eq (t u : list Z) : bool :=
  match t, u with
  | [], [] => true
  | x :: t, y :: u => d_eq x y && vec_eq t u
  | _, _ => false
  end.

(** The pairs of [d] without the first one that satisfies [p] *)
Fixpoint remove_first {A} (p : A -> bool) (d : list A) : option (list A) :=
  match d with
  | [] => None
  | x :: d =>
      if p x then Some d
      else match remove_first p d with Some d' => Some (x :: d') | None => None end
  end.

(** [approx_equality_operator].  Two dictionaries are compared as unordered
    multimaps: each pair of one is matched with an equal pair of the other. *)
Fixpoint approx_equal (t u : flexible_type) : bool :=
  match t, u with
  | FUndefined, FUndefined => true
  | FDateTime a, FDateTime b => dt_first a =? dt_first b
  | FDateTime a, FInt b => dt_first a =? b
  | FInt a, FDateTime b => a =? dt_first b
  | FInt a, FInt b => a =? b
  | FFloat a, FFloat b => d_eq a b
  | FInt a, FFloat b => d_eq (d_of_int a) b
  | FFloat a, FInt b => d_eq a (d_of_int b)
  | FString a, FString b => bool_decide (a = b)
  | FVector a, FVector b => vec_eq a b
  | FList a, FList b =>
      (fix loop (a b : list flexible_type) : bool :=
         match a, b with
         | [], [] => true
         | x :: a, y :: b => approx_equal x y && loop a b
         | _, _ => false
         end) a b
  | FDict a, FDict b =>
      (fix loop (a b : list (flexible_type * flexible_type)) : bool :=
         match a with
         | [] => match b with [] => true | _ => false end
         | (k, v) :: a =>
             match remove_first (fun kv => approx_equal k kv.1 && approx_equal v kv.2) b with
             | Some b => loop a b
             | None => false
             end
         end) a b
  | _, _ => false
  end.

Fixpoint list_eq_by {A} (eq : A -> A -> bool) (a b : list A) : bool :=
  match a, b with
  | [], [] => true
  | x :: a, y :: b => eq x y && list_eq_by eq a b
  | _, _ => false
  end.

(** [equality_operator]: lists and dictionaries use the [operator==] of
    [std::vector], element by element *)
Definition identical (t u : flexible_type) : bool :=
  match t, u with
  | FDateTime a, FDateTime b => dt_first a =? dt_first b
  | FDateTime a, FInt b => dt_first a =? b
  | FInt a, FDateTime b => a =? dt_first b
  | FInt a, FInt b => a =? b
  | FFloat a, FFloat b => d_eq a b
  | FString a, FString b => bool_decide (a = b)
  | FVector a, FVector b => vec_eq a b
  | FDict a, FDict b =>
      list_eq_by (fun p q => approx_equal p.1 q.1 && approx_equal p.2 q.2) a b
  | FList a, FList b => list_eq_by approx_equal a b
  | FUndefined, FUndefined => true
  | _, _ => false
  end.

Definition operator_le (t u : flexible_type) : outcome bool :=
  omap_ok (fun b => b || approx_equal t u) (lt_operator t u).
Definition operator_ge (t u : flexible_type) : outcome bool :=
  omap_ok (fun b => b || approx_equal t u) (gt_operator t u).

(** ** Arithmetic *)

Definition negation_operator (t : flexible_type) : outcome flexible_type :=
  match t with
  | FInt i => Ok (FInt (i64 (- i)))
  | FFloat b => Ok (FFloat (d_neg b))
  | FVector v => Ok (FVector (map d_neg v))
  | _ => Throws
  end.
Definition increment_operator (t : flexible_type) : outcome flexible_type :=
  match t with
  | FInt i => Ok (FInt (i64 (i + 1)))
  | FFloat b => Ok (FFloat (d_add b (d_of_int 1)))
  | _ => Throws
  end.
Definition decrement_operator (t : flexible_type) : outcome flexible_type :=
  match t with
  | FInt i => Ok (FInt (i64 (i - 1)))
  | FFloat b => Ok (FFloat (d_sub b (d_of_int 1)))
  | _ => Throws
  end.

(** The [flex_vec] overloads, common to the five operators *)
Definition vec_vec (f : Z -> Z -> Z) (t u : list Z) : outcome flexible_type :=
  if (length t =? length u)%nat then Ok (FVector (zip_with f t u)) else Throws.
Definition vec_scalar (f : Z -> Z -> Z) (t : list Z) (u : Z) : outcome flexible_type :=
  Ok (FVector (map (fun x => f x u) t)).
(** [flex_int& t, flex_float u]: computed in double and converted back *)
Definition int_of_double (d : Z) : outcome flexible_type := omap_ok FInt (of_option (d_to_int d)).

Definition plus_equal_operator (t u : flexible_type) : outcome flexible_type :=
  match t, u with
  | FInt a, FInt b => Ok (FInt (i64 (a + b)))
  | FDateTime a, FInt b => Ok (FDateTime (mk_dt (signed 56 (dt_first a + b)) (dt_second a)))
  | FInt a, FFloat b => int_of_double (d_add (d_of_int a) b)
  | FFloat a, FInt b => Ok (FFloat (d_add a (d_of_int b)))
  | FFloat a, FFloat b => Ok (FFloat (d_add a b))
  | FString a, FString b => Ok (FString (a ++ b))
  | FVector a, FVector b => vec_vec d_add a b
  | FVector a, FInt b => vec_scalar d_add a (d_of_int b)
  | FVector a, FFloat b => vec_scalar d_add a b
  | _, _ => Throws
  end.

Definition minus_equal_operator (t u : flexible_type) : outcome flexible_type :=
  match t, u with
  | FDateTime a, FInt b => Ok (FDateTime (mk_dt (signed 56 (dt_first a - b)) (dt_second a)))
  | FInt a, FInt b => Ok (FInt (i64 (a - b)))
  | FInt a, FFloat b => int_of_double (d_sub (d_of_int a) b)
  | FFloat a, FInt b => Ok (FFloat (d_sub a (d_of_int b)))
  | FFloat a, FFloat b => Ok (FFloat (d_sub a b))
  | FVector a, FVector b => vec_vec d_sub a b
  | FVector a, FInt b => vec_scalar d_sub a (d_of_int b)
  | FVector a, FFloat b => vec_scalar d_sub a b
  | _, _ => Throws
  end.

(** Integer division truncates; by zero, and of the least integer by -1, it is
    undefined. *)
Definition div_defined (a b : Z) : bool := negb (b =? 0) && negb ((a =? - 2 ^ 63) && (b =? -1)).

Definition divide_equal_operator (t u : flexible_type) : outcome flexible_type :=
  match t, u with
  | FInt a, FInt b => if div_defined a b then Ok (FInt (Z.quot a b)) else Undef
  | FInt a, FFloat b => int_of_double (d_div (d_of_int a) b)
  | FFloat a, FInt b => Ok (FFloat (d_div a (d_of_int b)))
  | FFloat a, FFloat b => Ok (FFloat (d_div a b))
  | FVector a, FVector b => vec_vec d_div a b
  | FVector a, FInt b => vec_scalar d_div a (d_of_int b)
  | FVector a, FFloat b => vec_scalar d_div a b
  | _, _ => Throws
  end.

Definition mod_equal_operator (t u : flexible_type) : outcome flexible_type :=
  match t, u with
  | FInt a, FInt b => if div_defined a b then Ok (FInt (Z.rem a b)) else Undef
  | FInt a, FFloat b =>
      obind (of_option (d_to_int b)) (fun b =>
      if div_defined a b then Ok (FInt (Z.rem a b)) else Undef)
  | FFloat a, FInt b => Ok (FFloat (d_fmod a (d_of_int b)))
  | FFloat a, FFloat b => Ok (FFloat (d_fmod a b))
  | FVector a, FVector b => vec_vec d_fmod a b
  | FVector a, FInt b => vec_scalar d_fmod a (d_of_int b)
  | FVector a, FFloat b => vec_scalar d_fmod a b
  | _, _ => Throws
  end.

Definition multiply_equal_operator (t u : flexible_type) : outcome flexible_type :=
  match t, u with
  | FInt a, FInt b => Ok (FInt (i64 (a * b)))
  | FInt a, FFloat b => int_of_double (d_mul (d_of_int a) b)
  | FFloat a, FInt b => Ok (FFloat (d_mul a (d_of_int b)))
  | FFloat a, FFloat b => Ok (FFloat (d_mul a b))
  | FVector a, FVector b => vec_vec d_mul a b
  | FVector a, FInt b => vec_scalar d_mul a (d_of_int b)
  | FVector a, FFloat b => vec_scalar d_mul a b
  | _, _ => Throws
  end.

(** [operator+] and the others work on a copy of the left operand. *)
Definition arithmetic (op : operator) (t u : flexible_type) : outcome flexible_type :=
  match op with
  | OpPlus => plus_equal_operator t u
  | OpMinus => minus_equal_operator t u
  | OpMul => multiply_equal_operator t u
  | OpDiv => divide_equal_operator t u
  | OpMod => mod_equal_operator t u
  | _ => Throws
  end.

(** ** Container access *)

(** [operator\[\](size_t)] *)
Definition operator_index (f : flexible_type) (index : nat) : outcome Z :=
  match f with
  | FVector v => of_option (v !! index)
  | FFloat b => if (index =? 0)%nat then Ok b else Throws
  | _ => Throws
  end.
(** [operator()(size_t)], through [array_at] *)
Definition array_at (f : flexible_type) (index : nat) : outcome flexible_type :=
  match f with FList l => of_option (l !! index) | _ => Throws end.

(** [dict_at]: the value of the first pair whose key is equal *)
Fixpoint dict_find (d : list (flexible_type * flexible_type)) (s : flexible_type)
    : option flexible_type :=
  match d with
  | [] => None
  | (k, v) :: d => if approx_equal k s then Some v else dict_find d s
  end.
Definition dict_at (f s : flexible_type) : outcome flexible_type :=
  match f with
  | FDict d => match dict_find d s with Some v => Ok v | None => Throws end
  | _ => Throws
  end.
(** [dict_at(s) = v] for a key that is present *)
Fixpoint dict_update (d : list (flexible_type * flexible_type)) (s v : flexible_type)
    : option (list (flexible_type * flexible_type)) :=
  match d with
  | [] => None
  | (k, w) :: d =>
      if approx_equal k s then Some ((k, v) :: d)
      else match dict_update d s v with Some d' => Some ((k, w) :: d') | None => None end
  end.
Definition dict_assign (f s v : flexible_type) : outcome flexible_type :=
  match f with
  | FDict d => match dict_update d s v with Some d => Ok (FDict d) | None => Throws end
  | _ => Throws
  end.

(** [erase(index)]: the first pair whose key is equal, if any *)
Definition erase (f index : flexible_type) : outcome flexible_type :=
  match f with
  | FDict d =>
      Ok (FDict (match remove_first (fun kv => approx_equal kv.1 index) d with
                 | Some d' => d'
                 | None => d
                 end))
  | _ => Throws
  end.

Definition size (f : flexible_type) : nat :=
  match f with
  | FVector v => length v
  | FList l => length l
  | FDict d => length d
  | _ => 1%nat
  end.
Definition resize (s : nat) (f : flexible_type) : outcome flexible_type :=
  match f with
  | FVector v => Ok (FVector (list.resize s 0 v))
  | FList l => Ok (FList (list.resize s flex_default l))
  | _ => Throws
  end.
Definition clear (f : flexible_type) : outcome flexible_type :=
  match get_type f with
  | VECTOR | LIST | DICT => Ok (reset (get_type f))
  | _ => Throws
  end.
(** [push_back(flex_float)] *)
Definition push_back_float (i : Z) (f : flexible_type) : outcome flexible_type :=
  match f with
  | FVector v => Ok (FVector (v ++ [i]))
  | FList l => Ok (FList (l ++ [FFloat i]))
  | _ => Throws
  end.

(** [array_at(index) = v], through [operator()(size_t)] *)
Definition array_assign (index : nat) (v f : flexible_type) : outcome flexible_type :=
  match f with
  | FList l => if (index <? length l)%nat then Ok (FList (<[index := v]> l)) else Undef
  | _ => Throws
  end.
(** [operator[](index) = d] *)
Definition index_assign (index : nat) (d : Z) (f : flexible_type) : outcome flexible_type :=
  match f with
  | FVector v => if (index <? length v)%nat then Ok (FVector (<[index := d]> v)) else Undef
  | FFloat _ => if (index =? 0)%nat then Ok (FFloat d) else Throws
  | _ => Throws
  end.

(** [is_zero] throws for a type its switch does not list: DATETIME *)
Definition is_zero (f : flexible_type) : outcome bool :=
  match f with
  | FInt i => Ok (i =? 0)
  | FFloat b => Ok (d_eq b 0)
  | FString s => Ok (length s =? 0)%nat
  | FVector v => Ok (length v =? 0)%nat
  | FList l => Ok (length l =? 0)%nat
  | FDict d => Ok (length d =? 0)%nat
  | FImage img => Ok (match m_format img with FORMAT_UNDEFINED => true | _ => false end)
  | FUndefined => Ok true
  | FDateTime _ => Throws
  end.
Definition is_na (f : flexible_type) : bool :=
  match f with FUndefined => true | FFloat b => is_nan b | _ => false end.

(** ** Conversions *)

(** [get_float_visitor]: the stored value as a double; [atof] is the C function *)
Definition get_float_visitor (atof : bytes -> Z) (f : flexible_type) : outcome Z :=
  match f with
  | FUndefined => Ok 0
  | FDateTime dt => Ok (d_of_int (dt_first dt))
  | FInt i => Ok (d_of_int i)
  | FFloat b => Ok b
  | FString s => Ok (atof s)
  | _ => Throws
  end.

(** [push_back(const flexible_type&)] *)
Definition push_back (atof : bytes -> Z) (i f : flexible_type) : outcome flexible_type :=
  match f with
  | FVector v => omap_ok (fun d => FVector (v ++ [d])) (get_float_visitor atof i)
  | FList l => Ok (FList (l ++ [i]))
  | _ => Throws
  end.

Definition ascii_byte (c : Ascii.ascii) : byte := Ascii.byte_of_ascii c.
Definition bytes_of_string (s : string) : bytes := map ascii_byte (String.list_ascii_of_string s).
(** An integer through an ostream: decimal digits *)
Definition tostr_int (i : Z) : bytes := bytes_of_string (pretty i).

(** [std::isspace] in the C locale *)
Definition is_space (c : byte) : bool :=
  let z := byte.unsigned c in (z =? 32) || ((9 <=? z) && (z <=? 13)).
Definition digit_of (c : byte) : option Z :=
  let z := byte.unsigned c in if (48 <=? z) && (z <=? 57) then Some (z - 48) else None.
Fixpoint skip_space (s : bytes) : bytes :=
  match s with c :: s' => if is_space c then skip_space s' else s | [] => [] end.
Fixpoint read_digits (acc : Z) (s : bytes) : Z :=
  match s with
  | c :: s => match digit_of c with Some d => read_digits (10 * acc + d) s | None => acc end
  | [] => acc
  end.
(** [std::atol] of a NUL-terminated string; a value out of range is undefined *)
Definition atol (s : bytes) : outcome Z :=
  let s := skip_space s in
  let z :=
    match s with
    | c :: s' =>
        if byte.unsigned c =? 45 then - read_digits 0 s'
        else if byte.unsigned c =? 43 then read_digits 0 s'
        else read_digits 0 s
    | [] => 0
    end in
  if (- 2 ^ 63 <=? z) && (z <? 2 ^ 63) then Ok z else Undef.

Definition get_datetime_visitor (f : flexible_type) : outcome flex_date_time :=
  match f with
  | FUndefined => Ok (flex_date_time_new 0 0)
  | FInt i => Ok (flex_date_time_new i 0)
  | FDateTime dt => Ok dt
  | FFloat b => omap_ok (fun i => flex_date_time_new i 0) (of_option (d_to_int (d_to_single b)))
  | _ => Throws
  end.

Definition get_int_visitor (f : flexible_type) : outcome Z :=
  match f with
  | FUndefined => Ok 0
  | FInt i => Ok i
  | FDateTime dt => Ok (dt_first dt)
  | FFloat b => of_option (d_to_int b)
  | FString s => atol s
  | _ => Throws
  end.

(** [get_vec_visitor] of an image asserts that it is decoded. *)
Definition image_to_vec (img : image_type) : outcome (list Z) :=
  match m_format img with
  | RAW_ARRAY => Ok (map (fun c => d_of_int (byte.unsigned c)) (m_image_data img))
  | _ => Throws
  end.
Definition get_vec_visitor (f : flexible_type) : outcome (list Z) :=
  match f with
  | FUndefined => Ok []
  | FInt i => Ok [d_of_int i]
  | FFloat b => Ok [b]
  | FVector v => Ok v
  | FDateTime dt => Ok [d_of_int (dt_first dt)]
  | FImage img => image_to_vec img
  | _ => Throws
  end.
Definition get_recursive_visitor (f : flexible_type) : outcome (list flexible_type) :=
  match f with
  | FUndefined => Ok []
  | FDateTime dt => Ok [FFloat (d_of_int (dt_first dt))]
  | FInt _ | FFloat _ | FString _ => Ok [f]
  | FVector v => Ok (map FFloat v)
  | FList l => Ok l
  | _ => Throws
  end.
Definition get_dict_visitor (f : flexible_type) : outcome (list (flexible_type * flexible_type)) :=
  match f with FUndefined => Ok [] | FDict d => Ok d | _ => Throws end.
Definition get_img_visitor (f : flexible_type) : outcome image_type :=
  match f with FUndefined => Ok image_type_default | FImage i => Ok i | _ => Throws end.

Section strings.
(** [std::ostream] formatting of a double; a point in time of the boost
    library, its epoch, the addition of a [boost::posix_time::seconds] and
    the rendering as an ISO string *)
Context (fmt_double : Z -> bytes) {ptime : Type} (time_t_epoch : ptime)
  (add_seconds : ptime -> Z -> ptime) (to_iso_string : ptime -> bytes).

Definition max_int32 : Z := 2 ^ 31 - 1.
Definition min_int32 : Z := - 2 ^ 31 + 1.

(** [my_from_time_t]: the argument of [seconds] is a 32-bit integer, so a
    large offset is added in steps.  [None] only when the fuel runs out. *)
Fixpoint from_time_loop (fuel : nat) (accum : ptime) (offset : Z) : option ptime :=
  if offset <? min_int32 then
    match fuel with
    | O => None
    | S fuel => from_time_loop fuel (add_seconds accum min_int32) (offset - min_int32)
    end
  else if max_int32 <? offset then
    match fuel with
    | O => None
    | S fuel => from_time_loop fuel (add_seconds accum max_int32) (offset - max_int32)
    end
  else Some (add_seconds accum offset).
Definition my_from_time_t (offset : Z) : option ptime :=
  from_time_loop (Z.to_nat (Z.abs offset / max_int32)) time_t_epoch offset.

Definition date_time_to_string (i : flex_date_time) : bytes :=
  match my_from_time_t (dt_first i + dt_second i * 1800) with
  | Some t => to_iso_string t
  | None => []
  end.

Definition quoted (f : flexible_type) (s : bytes) : bytes :=
  match get_type f with STRING => [Byte.x22] ++ s ++ [Byte.x22] | _ => s end.

(** Elements separated by [sep] *)
Fixpoint join (sep : bytes) (l : list bytes) : bytes :=
  match l with
  | [] => []
  | [x] => x
  | x :: l => x ++ sep ++ join sep l
  end.

Fixpoint get_string_visitor (f : flexible_type) : bytes :=
  match f with
  | FUndefined => []
  | FFloat b => fmt_double b
  | FInt i => tostr_int i
  | FDateTime dt => date_time_to_string dt
  | FString s => s
  | FVector v =>
      bytes_of_string "[" ++ join (bytes_of_string " ") (map fmt_double v) ++ bytes_of_string "]"
  | FList l =>
      bytes_of_string "[" ++
      join (bytes_of_string ",") (map (fun x => quoted x (get_string_visitor x)) l) ++
      bytes_of_string "]"
  | FDict d =>
      bytes_of_string "{" ++
      join (bytes_of_string ", ")
        (map (fun kv => quoted kv.1 (get_string_visitor kv.1) ++ bytes_of_string ":" ++
                        quoted kv.2 (get_string_visitor kv.2)) d) ++
      bytes_of_string "}"
  | FImage img =>
      bytes_of_string "Height: " ++ tostr_int (Z.of_nat (m_height img)) ++
      bytes_of_string " Width: " ++ tostr_int (Z.of_nat (m_width img))
  end.

(** [soft_assign]: [t] keeps its type and takes the value of [u] *)
Definition soft_assignment_visitor (t u : flexible_type) : outcome flexible_type :=
  match t, u with
  | FDateTime a, FInt i => Ok (FDateTime (mk_dt (signed 56 i) (dt_second a)))
  | FInt _, FDateTime dt => Ok (FInt (dt_first dt))
  | FFloat _, FDateTime dt => Ok (FFloat (d_of_int (dt_first dt)))
  | FDateTime a, FFloat b =>
      omap_ok (fun i => FDateTime (mk_dt (signed 56 i) (dt_second a))) (of_option (d_to_int b))
  | FDateTime _, FDateTime _ | FInt _, FInt _ | FFloat _, FFloat _ => Ok u
  | FInt _, FFloat b => omap_ok FInt (of_option (d_to_int b))
  | FFloat _, FInt i => Ok (FFloat (d_of_int i))
  | FString _, _ => Ok (FString (get_string_visitor u))
  | FVector _, FVector _ | FList _, FList _ | FDict _, FDict _ | FUndefined, FUndefined => Ok u
  | FVector _, FImage img => omap_ok FVector (image_to_vec img)
  | FList _, FVector v => Ok (FList (map FFloat v))
  | _, _ => Throws
  end.
End strings.

(** ** Ordering: both operators come from one three-way comparison *)

Inductive rel3 := Less | Greater | Neither.
Definition flip (r : rel3) : rel3 :=
  match r with Less => Greater | Greater => Less | Neither => Neither end.
Definition is_less (r : rel3) : bool := match r with Less => true | _ => false end.
Definition is_greater (r : rel3) : bool := match r with Greater => true | _ => false end.

Definition rel_of (lt gt : bool) : rel3 := if lt then Less else if gt then Greater else Neither.
Definition dcmp (a b : Z) : rel3 := rel_of (d_lt a b) (d_gt a b).
Definition zcmp (a b : Z) : rel3 := rel_of (a <? b) (b <? a).
Definition scmp (a b : bytes) : rel3 := rel_of (bytes_lt a b) (bytes_lt b a).

(** The lexicographic comparison of two sequences *)
Fixpoint lex {A} (f : A -> A -> outcome rel3) (a b : list A) : outcome rel3 :=
  match a, b with
  | [], [] => Ok Neither
  | [], _ :: _ => Ok Less
  | _ :: _, [] => Ok Greater
  | x :: a, y :: b =>
      match f x y with Ok Neither => lex f a b | r => r end
  end.

Definition vcmp (a b : list Z) : outcome rel3 := lex (fun x y => Ok (dcmp x y)) a b.

Fixpoint cmp3 (t u : flexible_type) : outcome rel3 :=
  match t, u with
  | FFloat a, FFloat b => Ok (dcmp a b)
  | FInt a, FInt b => Ok (zcmp a b)
  | FDateTime a, FInt b => Ok (zcmp (dt_first a) b)
  | FInt a, FDateTime b => Ok (zcmp a (dt_first b))
  | FDateTime a, FDateTime b => Ok (zcmp (dt_first a) (dt_first b))
  | FInt a, FFloat b => Ok (dcmp (d_of_int a) b)
  | FFloat a, FInt b => Ok (dcmp a (d_of_int b))
  | FString a, FString b => Ok (scmp a b)
  | FVector a, FVector b => vcmp a b
  | FList a, FList b => lex cmp3 a b
  | _, _ => Throws
  end.

Lemma d_lt_gt_excl a b : d_lt a b = true -> d_gt a b = false.
Proof.
  unfold d_lt, d_gt, SpecFloat.SFltb. rewrite (SFcompare_swap (of_bits a) (of_bits b)).
  by destruct (SpecFloat.SFcompare _ _) as [[]|].
Qed.

Lemma bytes_lt_excl a b : bytes_lt a b = true -> bytes_lt b a = false.
Proof.
  revert b. induction a as [|x a IH]; intros [|y b]; try done. cbn.
  zcases; try lia; try done. apply IH.
Qed.

Lemma rel_of_less lt gt : is_less (rel_of lt gt) = lt.
Proof. by destruct lt, gt. Qed.
Lemma rel_of_greater lt gt : (lt = true -> gt = false) -> is_greater (rel_of lt gt) = gt.
Proof. destruct lt, gt; auto. intros H. by rewrite H. Qed.
Lemma rel_of_flip lt gt : (lt = true -> gt = false) -> rel_of gt lt = flip (rel_of lt gt).
Proof. destruct lt, gt; auto. intros H. by specialize (H eq_refl). Qed.

Lemma dcmp_flip a b : dcmp b a = flip (dcmp a b).
Proof. apply (rel_of_flip (d_lt a b) (d_gt a b)), d_lt_gt_excl. Qed.
Lemma zcmp_flip a b : zcmp b a = flip (zcmp a b).
Proof. apply rel_of_flip. zcases; done || lia. Qed.
Lemma scmp_flip a b : scmp b a = flip (scmp a b).
Proof. apply rel_of_flip, bytes_lt_excl. Qed.

Lemma dcmp_sides a b : d_lt a b = is_less (dcmp a b) /\ d_gt a b = is_greater (dcmp a b).
Proof. unfold dcmp. by rewrite rel_of_less, rel_of_greater by apply d_lt_gt_excl. Qed.
Lemma zcmp_sides a b : (a <? b) = is_less (zcmp a b) /\ (b <? a) = is_greater (zcmp a b).
Proof. unfold zcmp. by rewrite rel_of_less, rel_of_greater by (zcases; done || lia). Qed.
Lemma scmp_sides a b : bytes_lt a b = is_less (scmp a b) /\ bytes_lt b a = is_greater (scmp a b).
Proof. unfold scmp. by rewrite rel_of_less, rel_of_greater by apply bytes_lt_excl. Qed.

Lemma vcmp_sides a b :
  Ok (vec_lt a b) = omap_ok is_less (vcmp a b) /\ Ok (vec_gt a b) = omap_ok is_greater (vcmp a b).
Proof.
  unfold vcmp. revert b. induction a as [|x a IH]; intros [|y b]; try done. cbn.
  destruct (dcmp_sides x y) as [-> ->]. destruct (dcmp x y); cbn; auto.
Qed.

Lemma lex_flip {A} (f : A -> A -> outcome rel3) a b :
  Forall (fun x => forall y, f y x = omap_ok flip (f x y)) a ->
  lex f b a = omap_ok flip (lex f a b).
Proof.
  intros H. revert b. induction H as [|x a Hx _ IH]; intros [|y b]; try done. cbn.
  rewrite Hx. destruct (f x y) as [[]| |]; cbn; auto.
Qed.

Lemma cmp3_flip t u : cmp3 u t = omap_ok flip (cmp3 t u).
Proof.
  revert u. induction t using flexible_type_nested_ind; intros u; destruct u; try done;
    cbn [cmp3 omap_ok];
    try (apply (f_equal Ok); first [apply dcmp_flip | apply zcmp_flip | apply scmp_flip]).
  - apply lex_flip, Forall_true. intros x y. cbn. f_equal. apply dcmp_flip.
  - by apply lex_flip.
Qed.

(** Both operators are projections of the reference comparison. *)
Lemma compare_cmp3 t u :
  compare true t u = omap_ok is_less (cmp3 t u) /\ compare false t u = omap_ok is_greater (cmp3 t u).
Proof.
  revert u. induction t as [| | | |l H| | | |] using flexible_type_nested_ind; intros u; destruct u; try done;
    cbn [cmp3 compare omap_ok];
    try (split; apply (f_equal Ok); first [apply dcmp_sides | apply zcmp_sides | apply scmp_sides]).
  - apply vcmp_sides.
  - cbn. match goal with b : list flexible_type |- _ => revert b end.
    induction H as [|x l Hx _ IH]; intros [|y b]; try done. cbn.
    destruct (Hx y) as [-> ->]. destruct (cmp3 x y) as [[]| |]; cbn; auto.
Qed.

Lemma lt_gt_swap t u : lt_operator t u = gt_operator u t.
Proof.
  unfold lt_operator, gt_operator.
  destruct (compare_cmp3 t u) as [-> _], (compare_cmp3 u t) as [_ ->]. rewrite (cmp3_flip t u).
  by destruct (cmp3 t u) as [[]| |].
Qed.

(** C33. [operator<] and [operator>] agree on every pair of values, nested lists
    included: [t < u] is [u > t] (and throws exactly when it does), the two are
    never both true, and one throws exactly when the other does. *)
Theorem flexible_type_order t u :
  lt_operator t u = gt_operator u t /\
  ~ (lt_operator t u = Ok true /\ gt_operator t u = Ok true) /\
  (lt_operator t u = Throws <-> gt_operator t u = Throws) /\
  lt_operator t u <> Undef.
Proof.
  unfold lt_operator, gt_operator.
  destruct (compare_cmp3 t u) as [-> ->], (compare_cmp3 u t) as [_ ->].
  rewrite (cmp3_flip t u).
  assert (cmp3 t u <> Undef) as Hu; [|by destruct (cmp3 t u) as [[]| |]; split_and!; try naive_solver].
  revert u. induction t as [| | | |l H| | | |] using flexible_type_nested_ind; intros u; destruct u; try done.
  - cbn. unfold vcmp. match goal with |- lex _ ?a ?b <> _ => generalize b; induction a as [|x a IH] end;
      intros [|y b]; try done. cbn. destruct (dcmp x y); auto.
  - cbn. match goal with b : list flexible_type |- _ => revert b end.
    induction H as [|x l Hx _ IH]; intros [|y b]; try done. cbn. specialize (Hx y).
    destruct (cmp3 x y) as [[]| |]; auto.
Qed.

(** The operand types that the code implements although the table has a 0 *)
Definition undocumented (op : operator) (left right : flex_type_enum) : bool :=
  match op, left, right with
  | OpMinus, DATETIME, INTEGER => true
  | OpLt, VECTOR, VECTOR | OpGt, VECTOR, VECTOR => true
  | OpLt, LIST, LIST | OpGt, LIST, LIST => true
  | _, _, _ => false
  end.

Definition binary (op : operator) (t u : flexible_type) : outcome flexible_type :=
  match op with
  | OpLt => omap_ok (fun b : bool => FInt (if b then 1 else 0)) (lt_operator t u)
  | OpGt => omap_ok (fun b : bool => FInt (if b then 1 else 0)) (gt_operator t u)
  | _ => arithmetic op t u
  end.

(** Operands of vectors that cannot be combined *)
Definition lengths_differ (t u : flexible_type) : Prop :=
  exists v w, t = FVector v /\ u = FVector w /\ length v <> length w.

(** Integer division of [a] by [b] traps: by zero, or the quotient overflows. *)
Definition division_traps (a b : Z) : Prop := b = 0 \/ a = - 2 ^ 63 /\ b = -1.
Definition float_result (op : operator) (a b : Z) : Z :=
  match op with OpPlus => d_add a b | OpMinus => d_sub a b | OpMul => d_mul a b | _ => d_div a b end.
(** The operands for which an operator with an integer on the left is undefined:
    a division that traps; with a double on the right, the quotient, sum,
    difference or product (or, for the remainder, the right operand) is not in
    the range of the integers, or the remainder by it traps. *)
Definition integer_undefined (op : operator) (t u : flexible_type) : Prop :=
  match t, u with
  | FInt a, FInt b => (op = OpDiv \/ op = OpMod) /\ division_traps a b
  | FInt a, FFloat b =>
      match op with
      | OpLt | OpGt | OpEq => False
      | OpMod => forall i, d_to_int b = Some i -> division_traps a i
      | _ => d_to_int (float_result op (d_of_int a) b) = None
      end
  | _, _ => False
  end.

Lemma div_defined_spec a b : div_defined a b = false <-> division_traps a b.
Proof.
  unfold div_defined, division_traps. rewrite andb_false_iff, !negb_false_iff, andb_true_iff.
  by rewrite !Z.eqb_eq.
Qed.

(** How an operator can end: with a value of the type [ty], with an exception
    when [bad], and undefined when [undef] *)
Definition ends (ty : flex_type_enum) (bad undef : Prop) (r : outcome flexible_type) : Prop :=
  (r = Throws <-> bad) /\ (r = Undef <-> undef) /\ (forall v, r = Ok v -> get_type v = ty).

Lemma ends_ok ty (bad undef : Prop) v : ~ bad -> ~ undef -> get_type v = ty -> ends ty bad undef (Ok v).
Proof. intros H1 H2 H3. split_and!; [by split|by split|by intros w [= <-]]. Qed.

Lemma ends_vec_vec f a b (undef : Prop) : ~ undef ->
  ends VECTOR (lengths_differ (FVector a) (FVector b)) undef (vec_vec f a b).
Proof.
  intros Hu. unfold vec_vec, lengths_differ. destruct (Nat.eqb_spec (length a) (length b)) as [E|E].
  - apply ends_ok; [|done|done]. intros (v & w & [= <-] & [= <-] & ?). done.
  - split_and!; [|by split|done]. split; [|done]. intros _. by exists a, b.
Qed.

Lemma ends_int_of_double d (bad : Prop) : ~ bad ->
  ends INTEGER bad (d_to_int d = None) (int_of_double d).
Proof.
  intros Hb. unfold int_of_double. destruct (d_to_int d) as [i|]; cbn; [by apply ends_ok|].
  split_and!; [by split|done|done].
Qed.

Lemma ends_division a b q (bad undef : Prop) : ~ bad -> (undef <-> division_traps a b) ->
  ends INTEGER bad undef (if div_defined a b then Ok (FInt q) else Undef).
Proof.
  intros Hb E. rewrite <- div_defined_spec in E. destruct (div_defined a b).
  - apply ends_ok; [done|by rewrite E|done].
  - split_and!; [by split|by split; [intros _; apply E|]|done].
Qed.

Lemma ends_remainder a d (bad : Prop) : ~ bad ->
  ends INTEGER bad (forall i, d_to_int d = Some i -> division_traps a i)
    (obind (of_option (d_to_int d)) (fun b => if div_defined a b then Ok (FInt (Z.rem a b)) else Undef)).
Proof.
  intros Hb. destruct (d_to_int d) as [i|]; cbn.
  - apply ends_division; [done|]. split; [auto|]. by intros H j [= <-].
  - split_and!; [by split| |done]. by split.
Qed.

Lemma ends_order (r : outcome bool) (bad undef : Prop) : (exists b, r = Ok b) -> ~ bad -> ~ undef ->
  ends INTEGER bad undef (omap_ok (fun b : bool => FInt (if b then 1 else 0)) r).
Proof. intros [b ->] Hb Hu. by apply ends_ok. Qed.



(** The table is complete but for date-time minus integer and the ordering
    of vectors and of lists, which the code supports although the table (and
    its documentation: "will fail") says otherwise. *)
Theorem has_binary_op_complete op t u :
  op <> OpEq -> binary op t u <> Throws ->
  flex_type_has_binary_op (get_type t) (get_type u) op = true \/
  undocumented op (get_type t) (get_type u) = true.
Proof.
  intros Hop H. destruct op; try done; destruct t, u; cbn in *; try done; auto.
Qed.

(** [soft_assign] keeps the type of its target, and throws exactly when
    [flex_type_is_convertible] says the source type does not convert, or for an
    image assigned to an image (which the table allows), or for an image that
    is not decoded assigned to a vector. *)
Theorem soft_assign_convertible {ptime : Type} fmt (epoch : ptime) add iso t u :
  match soft_assignment_visitor fmt epoch add iso t u with
  | Ok r => get_type r = get_type t /\ flex_type_is_convertible (get_type u) (get_type t) = true
  | Undef => flex_type_is_convertible (get_type u) (get_type t) = true
  | Throws => flex_type_is_convertible (get_type u) (get_type t) = false \/
              get_type t = IMAGE /\ get_type u = IMAGE \/
              exists v img, t = FVector v /\ u = FImage img /\ is_decoded img = false
  end.
Proof.
  destruct t, u; cbn [soft_assignment_visitor]; auto.
  all: try (destruct (d_to_int _); cbn; by auto).
  unfold image_to_vec. destruct img as [? ? ? ? ? []]; cbn; auto; right; right; eauto.
Qed.

(** ** Equality *)

(** Values that are equal to themselves: no NaN and no image inside *)
Fixpoint regular (f : flexible_type) : bool :=
  match f with
  | FFloat b => negb (is_nan b)
  | FVector v => forallb (fun b => negb (is_nan b)) v
  | FList l => forallb regular l
  | FDict d => forallb (fun kv => regular kv.1 && regular kv.2) d
  | FImage _ => false
  | _ => true
  end.

Lemma of_bits_nan b : is_nan b = false -> of_bits b <> SpecFloat.S754_nan.
Proof.
  unfold is_nan, of_bits. destruct (exponent_of b =? 2047).
  - by destruct (mantissa_of b =? 0).
  - intros _. destruct (exponent_of b =? 0); [by destruct (mantissa_of b)|].
    by destruct (mantissa_of b + 2 ^ 52).
Qed.

Lemma d_eq_refl b : is_nan b = false -> d_eq b b = true.
Proof. intros H. unfold d_eq, SpecFloat.SFeqb. by rewrite SFcompare_refl by (by apply of_bits_nan). Qed.

Lemma vec_eq_refl v : forallb (fun b => negb (is_nan b)) v = true -> vec_eq v v = true.
Proof.
  induction v as [|b v IH]; [done|]. cbn. rewrite !andb_true_iff, negb_true_iff. intros [Hb Hv].
  split; [by apply d_eq_refl | auto].
Qed.

(** Every value without a NaN or an image inside is equal to itself under
    [operator==], dictionaries and nested lists included. *)
Theorem approx_equal_refl f : regular f = true -> approx_equal f f = true.
Proof.
  induction f as [| | | |l H|d H| | |] using flexible_type_nested_ind; cbn; intros Hr; try done.
  - apply Z.eqb_refl.
  - apply d_eq_refl. by apply negb_true_iff.
  - by apply bool_decide_eq_true.
  - by apply vec_eq_refl.
  - induction H as [|x l Hx _ IH]; [done|]. cbn in Hr. apply andb_prop in Hr as [Hr Hrs].
    rewrite Hx by done. cbn. by apply IH.
  - induction H as [|[k v] d [Hk Hv] _ IH]; [done|]. cbn in Hr, Hk, Hv.
    apply andb_prop in Hr as [Hr Hrs]. apply andb_prop in Hr as [Hrk Hrv].
    cbn. rewrite Hk, Hv by done. cbn. by apply IH.
  - apply Z.eqb_refl.
Qed.

(** [identical] is stricter than [operator==]: identical values are equal. *)
Theorem identical_approx_equal t u : identical t u = true -> approx_equal t u = true.
Proof.
  destruct t as [| | | |a|a| | |], u as [| | | |b|b| | |]; try done; cbn.
  - revert b. induction a as [|x a IH]; intros [|y b]; try done. cbn. intros H.
    apply andb_prop in H as [-> H]. cbn. by apply IH.
  - revert b. induction a as [|[k v] a IH]; intros [|[k' v'] b]; try done. cbn. intros H.
    apply andb_prop in H as [H1 H]. rewrite H1. by apply IH.
Qed.

(** ** Dictionaries *)

Lemma dict_update_find d s v :
  (exists d', dict_update d s v = Some d' /\ dict_find d' s = Some v /\ length d' = length d /\
              map fst d' = map fst d) \/
  (dict_update d s v = None /\ dict_find d s = None).
Proof.
  induction d as [|[k w] d IH]; [by right|]. cbn. destruct (approx_equal k s) eqn:E.
  - left. eexists. split; [done|]. cbn. by rewrite E.
  - destruct IH as [(d' & -> & Hf & Hl & Hm)|[-> ->]]; [|by right].
    left. eexists. split; [done|]. cbn. rewrite E, Hf, Hl, Hm. done.
Qed.

Lemma remove_first_find d s :
  match remove_first (fun kv => approx_equal kv.1 s) d with
  | Some d' => dict_find d s <> None /\ S (length d') = length d
  | None => dict_find d s = None
  end.
Proof.
  induction d as [|[k w] d IH]; [done|]. cbn. destruct (approx_equal k s); [done|].
  destruct (remove_first _ d); cbn; [|done]. destruct IH as [? <-]. done.
Qed.

(** Dictionary access: assigning through [dict_at] and reading back gives
    the assigned value and keeps the keys, in order; a missing key throws in
    both; [erase] drops one pair exactly when the key is found. *)
Theorem dict_access d s v :
  match dict_assign (FDict d) s v with
  | Ok f => dict_at f s = Ok v /\ size f = size (FDict d) /\
            exists d', f = FDict d' /\ map fst d' = map fst d
  | _ => dict_at (FDict d) s = Throws
  end /\
  exists f, erase (FDict d) s = Ok f /\
    (size f + (if bool_decide (dict_find d s = None) then 0 else 1))%nat = size (FDict d).
Proof.
  split.
  - cbn. destruct (dict_update_find d s v) as [(d' & -> & Hf & Hl & Hm)|[-> ->]]; cbn; [|done].
    rewrite Hf. split_and!; [done|done|]. by exists d'.
  - eexists. split; [done|]. cbn. pose proof (remove_first_find d s) as H.
    destruct (remove_first _ d) as [d'|].
    + destruct H as [Hn <-]. rewrite bool_decide_eq_false_2 by done. lia.
    + rewrite bool_decide_eq_true_2 by done. lia.
Qed.

(** ** Dates *)

(** [from_time_loop] adds the whole offset, in pieces that fit 32 bits. *)
Lemma from_time_loop_spec {ptime : Type} (add_seconds : ptime -> Z -> ptime) fuel accum offset :
  (forall t a b, add_seconds (add_seconds t a) b = add_seconds t (a + b)) ->
  Z.abs offset / max_int32 <= Z.of_nat fuel ->
  from_time_loop add_seconds fuel accum offset = Some (add_seconds accum offset).
Proof.
  intros Hadd. revert accum offset. assert (0 < max_int32) by (unfold max_int32; lia).
  assert (forall z, max_int32 <= z -> 0 < z / max_int32 /\ (z - max_int32) / max_int32 = z / max_int32 - 1) as Hdiv.
  { intros z Hz. split; [apply Z.div_str_pos; lia|].
    replace (z - max_int32) with (z + (-1) * max_int32) by lia. rewrite Z.div_add by lia. lia. }
  induction fuel as [|fuel IH]; intros accum offset Hf; cbn [from_time_loop];
    (destruct (Z.ltb_spec offset min_int32); [|destruct (Z.ltb_spec max_int32 offset); [|done]]).
  all: destruct (Hdiv (Z.abs offset)) as [Hpos Hsub]; [unfold max_int32, min_int32 in *; lia|].
  1, 2: lia.
  - rewrite IH; [by rewrite Hadd; do 2 f_equal; lia|].
    replace (Z.abs (offset - min_int32)) with (Z.abs offset - max_int32)
      by (unfold max_int32, min_int32 in *; lia). lia.
  - rewrite IH; [by rewrite Hadd; do 2 f_equal; lia|].
    replace (Z.abs (offset - max_int32)) with (Z.abs offset - max_int32) by lia. lia.
Qed.

(** [my_from_time_t] terminates for every offset and yields the epoch plus
    the whole offset, given that adding durations to a point in time is
    additive. *)
Theorem my_from_time_t_correct {ptime : Type} (epoch : ptime) (add_seconds : ptime -> Z -> ptime) offset :
  (forall t a b, add_seconds (add_seconds t a) b = add_seconds t (a + b)) ->
  my_from_time_t epoch add_seconds offset = Some (add_seconds epoch offset).
Proof.
  intros Hadd. apply from_time_loop_spec; [done|].
  rewrite Z2Nat.id; [done|]. apply Z.div_pos; unfold max_int32; lia.
Qed.
