(* ===== verification/FlexHeap.v ===== *)
(** The storage of [flexible_type]: reference-counted, copy-on-write payloads
    ([flexible_type/flexible_type.hpp]).

    A [flexible_type] object is sixteen bytes: a type tag and a union that holds
    a number or the address of a heap block, which is a pair of a reference
    count and a payload.  The state is the objects the program has in scope and
    the heap; a reference to an object is the name of a variable or a position
    in the payload of a list.  An access to a block that was freed, or whose
    payload is of another type, is a fault.

    Addresses are integers; the allocator is a parameter that returns an address
    that is not in use.  Reference counts are 64 bits wide.  One thread at a
    time runs: the atomic counters are read and written in single steps. *)
From Stdlib Require Import ZArith Lia List Bool.
From stdpp Require Import prelude fin_maps gmap.
From S2P Require Import Prelude.
From S2P Require Import Archive.
From S2P Require Import FlexibleType.
From S2P Require Import FlexibleOps.

Inductive fault := UseAfterFree | WrongType | OutOfBounds | NoFuel.
Inductive res (A : Type) := Fine (x : A) | Bad (f : fault).
Arguments Fine {A} x.
Arguments Bad {A} f.
#[export] Instance res_bind : MBind res :=
  fun A B k m => match m with Fine x => k x | Bad f => Bad f end.
#[export] Instance res_ret : MRet res := fun A x => Fine x.

(** ** Objects and blocks *)

(** [stored_type], and the eight bytes of the union [val] *)
Record cell := Cell { stored_type : flex_type_enum; word : Z }.
#[export] Instance cell_eq_dec : EqDecision cell.
Proof. solve_decision. Defined.

(** What the pointers of the union point to, without the count *)
Inductive payload :=
| PString (s : bytes)
| PVector (v : list Z)
| PList (l : list cell)
| PDict (d : list (cell * cell))
| PImage (img : image_type).

(** [std::pair<atomic<size_t>, T>] *)
Record block := Block { first : Z; second : payload }.
Abbreviation heap := (gmap Z block).

Definition payload_type (p : payload) : flex_type_enum :=
  match p with
  | PString _ => STRING | PVector _ => VECTOR | PList _ => LIST | PDict _ => DICT
  | PImage _ => IMAGE
  end.

(** The objects inside a payload, in the order in which they are destroyed *)
Definition cells (p : payload) : list cell :=
  match p with
  | PList l => l
  | PDict d => concat (map (fun kv => [kv.2; kv.1]) d)
  | _ => []
  end.

(** The types whose union member is a pointer *)
Definition is_ptr (c : cell) : bool :=
  match stored_type c with
  | STRING | VECTOR | LIST | DICT | IMAGE => true
  | _ => false
  end.

(** [val.strval], ..., [val.imgval], followed *)
Definition deref (h : heap) (ty : flex_type_enum) (l : Z) : res block :=
  match h !! l with
  | None => Bad UseAfterFree
  | Some b => if decide (payload_type (second b) = ty) then Fine b else Bad WrongType
  end.

Definition incref (h : heap) (c : cell) : res heap :=
  if is_ptr c then
    b ← deref h (stored_type c) (word c);
    Fine (<[word c := Block (u64 (first b + 1)) (second b)]> h)
  else Fine h.

Fixpoint incref_all (cs : list cell) (h : heap) : res heap :=
  match cs with
  | [] => Fine h
  | c :: cs => h ← incref h c; incref_all cs h
  end.

(** [delete] destroys the objects of the payload, each of which is a [reset()],
    and then frees the block.  Every nested deletion is of another block, so the
    number of blocks is fuel enough. *)
Fixpoint destroy_all (decref : heap -> cell -> res heap) (cs : list cell) (h : heap) : res heap :=
  match cs with
  | [] => Fine h
  | c :: cs => h ← decref h c; destroy_all decref cs h
  end.
Fixpoint decref_fuel (n : nat) (h : heap) (c : cell) : res heap :=
  match n with
  | O => Bad NoFuel
  | S n =>
      if is_ptr c then
        b ← deref h (stored_type c) (word c);
        let k := u64 (first b - 1) in
        let h := <[word c := Block k (second b)]> h in
        if k =? 0 then
          h ← destroy_all (decref_fuel n) (cells (second b)) h;
          Fine (delete (word c) h)
        else Fine h
      else Fine h
  end.
Definition decref (h : heap) (c : cell) : res heap := decref_fuel (S (base.size h)) h c.

Section Operations.
Variable malloc : heap -> Z.
Variable atof : bytes -> Z.

(** The copy of the pair copies the payload, and with it its objects. *)
Definition ensure_unique (h : heap) (c : cell) : res (heap * cell) :=
  if is_ptr c then
    b ← deref h (stored_type c) (word c);
    if first b =? 1 then Fine (h, c)
    else
      let p := malloc h in
      h ← incref_all (cells (second b)) h;
      h ← decref (<[p := Block 1 (second b)]> h) c;
      Fine (h, Cell (stored_type c) p)
  else Fine (h, c).

(** The value-initialized payload of a type *)
Definition new_payload (ty : flex_type_enum) : payload :=
  match ty with
  | STRING => PString []
  | VECTOR => PVector []
  | LIST => PList []
  | DICT => PDict []
  | _ => PImage image_type_default
  end.
Definition reset_to (h : heap) (c : cell) (target_type : flex_type_enum) : res (heap * cell) :=
  h ← decref h c;
  match target_type with
  | STRING | VECTOR | LIST | DICT | IMAGE =>
      let p := malloc h in
      Fine (<[p := Block 1 (new_payload target_type)]> h, Cell target_type p)
  | DATETIME => Fine (h, Cell DATETIME (dt_to_word (flex_date_time_new 0 0)))
  | _ => Fine (h, Cell target_type 0)
  end.
Definition reset_cell (h : heap) (c : cell) : res (heap * cell) :=
  h ← decref h c; Fine (h, Cell INTEGER 0).

(** ** References *)

Record state := State { vars : gmap nat cell; mem : heap }.
Inductive lvalue := LVar (x : nat) | LElem (l : Z) (i : nat).
#[export] Instance lvalue_eq_dec : EqDecision lvalue.
Proof. solve_decision. Defined.

Definition with_mem (st : state) (h : heap) : state := State (vars st) h.
Definition with_var (st : state) (x : nat) (c : cell) (h : heap) : state :=
  State (<[x := c]> (vars st)) h.

Definition load (st : state) (r : lvalue) : res cell :=
  match r with
  | LVar x => match vars st !! x with Some c => Fine c | None => Bad UseAfterFree end
  | LElem l i =>
      b ← deref (mem st) LIST l;
      match cells (second b) !! i with Some c => Fine c | None => Bad OutOfBounds end
  end.
Definition store (st : state) (r : lvalue) (c : cell) : res state :=
  match r with
  | LVar x => Fine (State (<[x := c]> (vars st)) (mem st))
  | LElem l i =>
      b ← deref (mem st) LIST l;
      match second b with
      | PList cs =>
          if (i <? length cs)%nat then
            Fine (with_mem st (<[l := Block (first b) (PList (<[i := c]> cs))]> (mem st)))
          else Bad OutOfBounds
      | _ => Bad WrongType
      end
  end.

(** [operator()(size_t) const], which throws ([None]) when the object is not a
    list, and a chain of such calls *)
Definition call_const (st : state) (r : lvalue) (i : nat) : res (option lvalue) :=
  c ← load st r;
  match stored_type c with
  | LIST =>
      b ← deref (mem st) LIST (word c);
      if (i <? length (cells (second b)))%nat then Fine (Some (LElem (word c) i))
      else Bad OutOfBounds
  | _ => Fine None
  end.
Fixpoint resolve (st : state) (r : lvalue) (path : list nat) : res (option lvalue) :=
  match path with
  | [] => Fine (Some r)
  | i :: path =>
      o ← call_const st r i;
      match o with Some r => resolve st r path | None => Fine None end
  end.

(** ** Assignment *)

(** [operator=(const flexible_type&)]: the old value is released before the new
    one is read. *)
Definition copy_assign (st : state) (this other : lvalue) : res state :=
  if decide (other = this) then Fine st
  else
    old ← load st this;
    h ← decref (mem st) old;
    let st := with_mem st h in
    c ← load st other;
    st ← store st this c;
    h ← incref (mem st) c;
    Fine (with_mem st h).

(** [operator=(flexible_type&&)]: the source keeps its union as an integer. *)
Definition move_assign (st : state) (this other : lvalue) : res state :=
  if decide (other = this) then Fine st
  else
    old ← load st this;
    h ← decref (mem st) old;
    let st := with_mem st h in
    c ← load st other;
    st ← store st this c;
    store st other (Cell INTEGER (word c)).

Definition swap (st : state) (this b : lvalue) : res state :=
  c ← load st this;
  d ← load st b;
  st ← store st this d;
  store st b c.

(** ** Operations on a variable *)

(** Assigning to the payload that the cell points to *)
Definition set_payload (h : heap) (c : cell) (p : payload) : res heap :=
  b ← deref h (payload_type p) (word c);
  Fine (<[word c := Block (first b) p]> h).

(** [operator=(const T&)] and [operator=(T&&)] for the types that hold no other
    [flexible_type]: [reset(desired_type)], then [mutable_get<T>() = other] *)
Definition assign (st : state) (x : nat) (other : flexible_type) : res state :=
  c ← load st (LVar x);
  '(h, c) ← reset_to (mem st) c (get_type other);
  '(h, c) ← ensure_unique h c;
  match other with
  | FInt i => Fine (with_var st x (Cell (stored_type c) (u64 i)) h)
  | FFloat b => Fine (with_var st x (Cell (stored_type c) b) h)
  | FDateTime dt => Fine (with_var st x (Cell (stored_type c) (dt_to_word dt)) h)
  | FString s => h ← set_payload h c (PString s); Fine (with_var st x c h)
  | FVector v => h ← set_payload h c (PVector v); Fine (with_var st x c h)
  | FImage img => h ← set_payload h c (PImage img); Fine (with_var st x c h)
  | FUndefined => Fine (with_var st x c h)
  | _ => Bad WrongType
  end.

(** [(flex_float)i] on an object: the visitor reads the string payload *)
Definition cell_to_float (h : heap) (c : cell) : res (outcome Z) :=
  match stored_type c with
  | INTEGER => Fine (get_float_visitor atof (FInt (i64 (word c))))
  | FLOAT => Fine (get_float_visitor atof (FFloat (word c)))
  | DATETIME => Fine (get_float_visitor atof (FDateTime (dt_of_word (word c))))
  | UNDEFINED => Fine (get_float_visitor atof FUndefined)
  | STRING =>
      b ← deref h STRING (word c);
      match second b with
      | PString s => Fine (get_float_visitor atof (FString s))
      | _ => Bad WrongType
      end
  | _ => Fine Throws
  end.

(** The operations below return whether they threw.  [FLEX_TYPE_ASSERT] fails
    after [ensure_unique] has run. *)
Definition push_back_float (st : state) (x : nat) (i : Z) : res (state * bool) :=
  c ← load st (LVar x);
  '(h, c) ← ensure_unique (mem st) c;
  let st := with_var st x c h in
  match stored_type c with
  | VECTOR =>
      b ← deref h VECTOR (word c);
      match second b with
      | PVector v => h ← set_payload h c (PVector (v ++ [i])); Fine (with_mem st h, false)
      | _ => Bad WrongType
      end
  | LIST =>
      b ← deref h LIST (word c);
      match second b with
      | PList cs => h ← set_payload h c (PList (cs ++ [Cell FLOAT i])); Fine (with_mem st h, false)
      | _ => Bad WrongType
      end
  | _ => Fine (st, true)
  end.

Definition push_back (st : state) (x : nat) (i : lvalue) : res (state * bool) :=
  c ← load st (LVar x);
  '(h, c) ← ensure_unique (mem st) c;
  let st := with_var st x c h in
  match stored_type c with
  | VECTOR =>
      b ← deref h VECTOR (word c);
      e ← load st i;
      d ← cell_to_float h e;
      match second b, d with
      | PVector v, Ok d =>
          h ← set_payload h c (PVector (v ++ [d])); Fine (with_mem st h, false)
      | PVector _, _ => Fine (st, true)
      | _, _ => Bad WrongType
      end
  | LIST =>
      b ← deref h LIST (word c);
      e ← load st i;
      h ← incref h e;
      match second b with
      | PList cs => h ← set_payload h c (PList (cs ++ [e])); Fine (with_mem st h, false)
      | _ => Bad WrongType
      end
  | _ => Fine (st, true)
  end.

(** A list that shrinks destroys its last objects; one that grows gets default
    objects, integers 0. *)
Definition resize (st : state) (x : nat) (s : nat) : res (state * bool) :=
  c ← load st (LVar x);
  '(h, c) ← ensure_unique (mem st) c;
  let st := with_var st x c h in
  match stored_type c with
  | VECTOR =>
      b ← deref h VECTOR (word c);
      match second b with
      | PVector v => h ← set_payload h c (PVector (list.resize s 0 v)); Fine (with_mem st h, false)
      | _ => Bad WrongType
      end
  | LIST =>
      b ← deref h LIST (word c);
      match second b with
      | PList cs =>
          h ← set_payload h c (PList (list.resize s (Cell INTEGER 0) cs));
          h ← destroy_all decref (drop s cs) h;
          Fine (with_mem st h, false)
      | _ => Bad WrongType
      end
  | _ => Fine (st, true)
  end.

Definition clear (st : state) (x : nat) : res (state * bool) :=
  c ← load st (LVar x);
  match stored_type c with
  | VECTOR | LIST | DICT =>
      '(h, c) ← reset_to (mem st) c (stored_type c); Fine (with_var st x c h, false)
  | _ => Fine (st, true)
  end.

(** [operator[](size_t)], assigned to *)
Definition index_assign (st : state) (x : nat) (index : nat) (d : Z) : res (state * bool) :=
  c ← load st (LVar x);
  '(h, c) ← ensure_unique (mem st) c;
  let st := with_var st x c h in
  match stored_type c with
  | VECTOR =>
      b ← deref h VECTOR (word c);
      match second b with
      | PVector v =>
          if (index <? length v)%nat then
            h ← set_payload h c (PVector (<[index := d]> v)); Fine (with_mem st h, false)
          else Bad OutOfBounds
      | _ => Bad WrongType
      end
  | FLOAT => if (index =? 0)%nat then Fine (with_var st x (Cell FLOAT d) h, false) else Fine (st, true)
  | _ => Fine (st, true)
  end.

(** [operator()(size_t)], which calls [array_at], assigned to *)
Definition array_at (st : state) (x : nat) (index : nat) : res (state * lvalue) :=
  c ← load st (LVar x);
  '(h, c) ← ensure_unique (mem st) c;
  b ← deref h LIST (word c);
  if (index <? length (cells (second b)))%nat then Fine (with_var st x c h, LElem (word c) index)
  else Bad OutOfBounds.
Definition call_assign (st : state) (x : nat) (index : nat) (other : lvalue) : res (state * bool) :=
  c ← load st (LVar x);
  '(h, c) ← ensure_unique (mem st) c;
  let st := with_var st x c h in
  match stored_type c with
  | LIST =>
      '(st, r) ← array_at st x index;
      st ← copy_assign st r other;
      Fine (st, false)
  | _ => Fine (st, true)
  end.

(** ** Programs *)

(** A source operand: a variable, indexed through constant references *)
Definition source : Type := nat * list nat.

Inductive op :=
| Construct (x : nat)
| ConstructType (x : nat) (ty : flex_type_enum)
| CopyConstruct (x : nat) (other : source)
| MoveConstruct (x : nat) (other : nat)
| Destroy (x : nat)
| Reset (x : nat)
| ResetTo (x : nat) (ty : flex_type_enum)
| Assign (x : nat) (v : flexible_type)
| CopyAssign (x : nat) (other : source)
| MoveAssign (x : nat) (other : nat)
| Swap (x y : nat)
| PushBackFloat (x : nat) (i : Z)
| PushBack (x : nat) (i : source)
| Resize (x : nat) (s : nat)
| Clear (x : nat)
| IndexAssign (x : nat) (index : nat) (d : Z)
| CallAssign (x : nat) (index : nat) (other : source).

(** The operand is evaluated first; when that throws nothing else happens. *)
Definition with_source (st : state) (s : source) (k : lvalue -> res (state * bool))
    : res (state * bool) :=
  o ← resolve st (LVar s.1) s.2;
  match o with Some r => k r | None => Fine (st, true) end.
Definition done_ (m : res state) : res (state * bool) := st ← m; Fine (st, false).

Definition new_var (st : state) (x : nat) (c : cell) : state := with_var st x c (mem st).

Definition exec (o : op) (st : state) : res (state * bool) :=
  match o with
  | Construct x => Fine (new_var st x (Cell INTEGER 0), false)
  | ConstructType x ty =>
      '(h, c) ← reset_to (mem st) (Cell INTEGER 0) ty; Fine (with_var st x c h, false)
  | CopyConstruct x other =>
      with_source st other (fun r =>
        done_ (copy_assign (new_var st x (Cell INTEGER 0)) (LVar x) r))
  | MoveConstruct x y =>
      c ← load st (LVar y);
      done_ (store (new_var st x c) (LVar y) (Cell INTEGER (word c)))
  | Destroy x =>
      c ← load st (LVar x);
      '(h, _) ← reset_cell (mem st) c;
      Fine (State (delete x (vars st)) h, false)
  | Reset x =>
      c ← load st (LVar x); '(h, c) ← reset_cell (mem st) c; Fine (with_var st x c h, false)
  | ResetTo x ty =>
      c ← load st (LVar x); '(h, c) ← reset_to (mem st) c ty; Fine (with_var st x c h, false)
  | Assign x v => done_ (assign st x v)
  | CopyAssign x other => with_source st other (fun r => done_ (copy_assign st (LVar x) r))
  | MoveAssign x y => done_ (move_assign st (LVar x) (LVar y))
  | Swap x y => done_ (swap st (LVar x) (LVar y))
  | PushBackFloat x i => push_back_float st x i
  | PushBack x i => with_source st i (push_back st x)
  | Resize x s => resize st x s
  | Clear x => clear st x
  | IndexAssign x index d => index_assign st x index d
  | CallAssign x index other => with_source st other (call_assign st x index)
  end.

Fixpoint exec_all (ops : list op) (st : state) : res state :=
  match ops with
  | [] => Fine st
  | o :: ops => r ← exec o st; exec_all ops r.1
  end.
End Operations.

(** ** The value of an object *)

(** Nested lists need one unit of fuel per level. *)
Fixpoint value (n : nat) (h : heap) (c : cell) : option flexible_type :=
  match n with
  | O => None
  | S n =>
      match stored_type c with
      | INTEGER => Some (FInt (i64 (word c)))
      | FLOAT => Some (FFloat (word c))
      | DATETIME => Some (FDateTime (dt_of_word (word c)))
      | UNDEFINED => Some FUndefined
      | ty =>
          b ← h !! word c;
          match ty, second b with
          | STRING, PString s => Some (FString s)
          | VECTOR, PVector v => Some (FVector v)
          | IMAGE, PImage img => Some (FImage img)
          | LIST, PList l => FList <$> mapM (value n h) l
          | DICT, PDict d =>
              FDict <$> mapM (fun kv => k ← value n h kv.1; v ← value n h kv.2; Some (k, v)) d
          | _, _ => None
          end
      end
  end.
