(* ===== verification/FlexHeapCorrect.v ===== *)
(** Memory safety and value semantics of the reference-counted storage of
    [flexible_type]: the counts are exact, no operation touches freed memory,
    nothing leaks, and sharing is not observable. *)
From Stdlib Require Import ZArith Lia List Bool Permutation.
From stdpp Require Import prelude fin_maps gmap.
From S2P Require Import Prelude.
From S2P Require Import Archive.
From S2P Require Import FlexibleType.
From S2P Require Import FlexibleOps.
From S2P Require Import FlexHeap.

(** ** Counting references *)

Definition ptr_to (l : Z) (c : cell) : Prop := is_ptr c = true /\ word c = l.
#[export] Instance ptr_to_dec l c : Decision (ptr_to l c).
Proof. unfold ptr_to. apply _. Defined.
Definition cnt (l : Z) (cs : list cell) : Z := Z.of_nat (length (filter (ptr_to l) cs)).

(** A block whose count is zero is being deleted: its objects are on the list
    of objects that remain to be destroyed. *)
Definition block_cells (b : block) : list cell := if first b =? 0 then [] else cells (second b).
Definition live_cells (h : heap) : list cell := (map_to_list h).*2 ≫= block_cells.
Definition valid (h : heap) (c : cell) : Prop :=
  is_ptr c = true -> exists b, h !! word c = Some b /\ payload_type (second b) = stored_type c.

Record counted (h : heap) (roots : list cell) : Prop := {
  ct_count l b : h !! l = Some b -> first b = cnt l (roots ++ live_cells h);
  ct_valid c : c ∈ roots ++ live_cells h -> valid h c;
  ct_bound : Z.of_nat (length (roots ++ live_cells h)) < 2 ^ 64
}.

Lemma cnt_app l cs ds : cnt l (cs ++ ds) = cnt l cs + cnt l ds.
Proof. unfold cnt. rewrite filter_app, length_app. lia. Qed.
Lemma cnt_cons l c cs : cnt l (c :: cs) = (if decide (ptr_to l c) then 1 else 0) + cnt l cs.
Proof. unfold cnt. rewrite filter_cons. case_decide; cbn [length]; lia. Qed.
Lemma cnt_nil l : cnt l [] = 0.
Proof. done. Qed.
Lemma cnt_nonneg l cs : 0 <= cnt l cs.
Proof. unfold cnt. lia. Qed.
Lemma cnt_le l cs : cnt l cs <= Z.of_nat (length cs).
Proof. unfold cnt. pose proof (length_filter (ptr_to l) cs). lia. Qed.
Lemma cnt_perm l cs ds : cs ≡ₚ ds -> cnt l cs = cnt l ds.
Proof. intros E. unfold cnt. by rewrite E. Qed.
#[export] Instance cnt_proper l : Proper (Permutation ==> eq) (cnt l).
Proof. intros ? ?. apply cnt_perm. Qed.
Lemma cnt_pos l c cs : c ∈ cs -> ptr_to l c -> 0 < cnt l cs.
Proof.
  intros (a & b & ->)%list_elem_of_split Hp.
  rewrite cnt_app, cnt_cons. rewrite decide_True by done.
  pose proof (cnt_nonneg l a). pose proof (cnt_nonneg l b). lia.
Qed.
Lemma cnt_ex l cs : 0 < cnt l cs -> exists c, c ∈ cs /\ ptr_to l c.
Proof.
  unfold cnt. destruct (filter (ptr_to l) cs) as [|c r] eqn:E; [done|]. intros _.
  exists c. assert (c ∈ filter (ptr_to l) cs) as [? ?]%list_elem_of_filter by (rewrite E; left). done.
Qed.
Create Rewrite HintDb cnt.
#[export] Hint Rewrite cnt_app cnt_cons cnt_nil : cnt.

(** ** The heap as a bag of objects *)

Lemma live_cells_insert h l b :
  live_cells (<[l := b]> h) ≡ₚ block_cells b ++ live_cells (delete l h).
Proof.
  unfold live_cells. rewrite <- insert_delete_eq.
  rewrite map_to_list_insert by apply lookup_delete_eq. done.
Qed.
Lemma live_cells_delete h l b :
  h !! l = Some b -> live_cells h ≡ₚ block_cells b ++ live_cells (delete l h).
Proof. intros H. by rewrite <- live_cells_insert, insert_id. Qed.
Lemma live_cells_elem h c :
  c ∈ live_cells h <-> exists l b, h !! l = Some b /\ first b <> 0 /\ c ∈ cells (second b).
Proof.
  unfold live_cells. rewrite list_elem_of_bind. split.
  - intros (b & Hc & ([l b'] & -> & Hb)%list_elem_of_fmap). apply elem_of_map_to_list in Hb.
    exists l, b'. cbn in *. unfold block_cells in Hc. destruct (Z.eqb_spec (first b') 0); [set_solver|done].
  - intros (l & b & Hb & H0 & Hc). exists b. split.
    + unfold block_cells. by destruct (Z.eqb_spec (first b) 0).
    + apply list_elem_of_fmap. exists (l, b). split; [done|]. by apply elem_of_map_to_list.
Qed.

Lemma counted_perm h r r' : r ≡ₚ r' -> counted h r -> counted h r'.
Proof.
  intros E [C V B]. split.
  - intros l b Hb. rewrite (C l b Hb). apply cnt_perm. by rewrite E.
  - intros c Hc. apply V. by rewrite E.
  - by rewrite <- E.
Qed.

(** Only the count of a block changes. *)
Lemma valid_recount h l b k c :
  h !! l = Some b -> valid h c -> valid (<[l := Block k (second b)]> h) c.
Proof.
  intros Hb Hv Hp. destruct (Hv Hp) as (b' & Hb' & Ht). destruct (decide (l = word c)) as [->|Hne].
  - exists (Block k (second b)). rewrite lookup_insert_eq. by simplify_eq.
  - exists b'. by rewrite lookup_insert_ne by done.
Qed.

Lemma counted_recount h r r' l b k Y :
  counted h r -> h !! l = Some b -> r' ++ live_cells (<[l := Block k (second b)]> h) ≡ₚ Y ->
  k = cnt l Y -> (forall l', l' <> l -> cnt l' Y = cnt l' (r ++ live_cells h)) ->
  (forall c, c ∈ Y -> valid h c) -> Z.of_nat (length Y) < 2 ^ 64 ->
  counted (<[l := Block k (second b)]> h) r'.
Proof.
  intros [C V B] Hb E Hk Hc Hv Hl. split.
  - intros l' b' Hb'. rewrite (cnt_perm l' _ _ E). destruct (decide (l' = l)) as [->|Hne].
    + rewrite lookup_insert_eq in Hb'. by simplify_eq.
    + rewrite lookup_insert_ne in Hb' by done. rewrite Hc by done. by apply C.
  - intros c Hin. apply valid_recount; [done|]. apply Hv. by rewrite <- E.
  - by rewrite E.
Qed.

(** ** Releasing a reference *)

(** [h'] is what a release leaves of [h]: payloads do not change, and blocks
    that are being deleted are left alone. *)
Record shrinks (h h' : heap) : Prop := {
  sh_back l b' : h' !! l = Some b' ->
    exists b, h !! l = Some b /\ second b' = second b /\ (first b' = 0 -> first b = 0) /\
      first b' <= first b;
  sh_dead l b : h !! l = Some b -> first b = 0 -> h' !! l = Some b
}.

Lemma shrinks_refl h : shrinks h h.
Proof. split; eauto 6 using Z.le_refl. Qed.
Lemma shrinks_trans h1 h2 h3 : shrinks h1 h2 -> shrinks h2 h3 -> shrinks h1 h3.
Proof.
  intros [B1 D1] [B2 D2]. split.
  - intros l b (b2 & Hb2 & Hs2 & Hz2 & ?)%B2. destruct (B1 _ _ Hb2) as (b1 & Hb1 & Hs1 & Hz1 & ?).
    exists b1. split_and!; [done|congruence|auto|lia].
  - intros l b Hb H0. by apply D2; [apply D1|].
Qed.

Definition live_blocks (h : heap) : gset Z := dom (filter (fun kv => first kv.2 <> 0) h).
Lemma live_blocks_elem h l : l ∈ live_blocks h <-> exists b, h !! l = Some b /\ first b <> 0.
Proof.
  unfold live_blocks. rewrite elem_of_dom. unfold is_Some.
  split; intros (b & Hb); exists b; by rewrite map_lookup_filter_Some in *.
Qed.
Lemma shrinks_live h h' : shrinks h h' -> live_blocks h' ⊆ live_blocks h.
Proof.
  intros [B D] l. rewrite !live_blocks_elem. intros (b' & Hb' & H0).
  destruct (B _ _ Hb') as (b & Hb & _). exists b. split; [done|]. intros E.
  rewrite (D _ _ Hb E) in Hb'. by simplify_eq.
Qed.

Lemma counted_drop h c r : is_ptr c = false -> counted h (c :: r) -> counted h r.
Proof.
  intros Hp [C V B]. split.
  - intros l b Hb. rewrite (C l b Hb). cbn [app]. rewrite cnt_cons, decide_False by (intros []; congruence).
    done.
  - intros c' Hc'. apply V. by right.
  - cbn [app length] in B. lia.
Qed.

Lemma counted_lookup h c r : is_ptr c = true -> counted h (c :: r) ->
  exists b, h !! word c = Some b /\ payload_type (second b) = stored_type c /\
    first b = 1 + cnt (word c) (r ++ live_cells h) /\ 0 < first b < 2 ^ 64.
Proof.
  intros Hp [C V B]. destruct (V c ltac:(left) Hp) as (b & Hb & Ht). exists b.
  pose proof (C _ _ Hb) as E. cbn [app] in E. rewrite cnt_cons, decide_True in E by done.
  pose proof (cnt_nonneg (word c) (r ++ live_cells h)).
  pose proof (cnt_le (word c) (r ++ live_cells h)). cbn [app length] in B.
  split_and!; (done || lia).
Qed.

(** One reference less; the objects of a block that dies join those that remain
    to be destroyed. *)
Lemma counted_dec h c r b :
  is_ptr c = true -> counted h (c :: r) -> h !! word c = Some b ->
  counted (<[word c := Block (first b - 1) (second b)]> h)
    ((if first b - 1 =? 0 then cells (second b) else []) ++ r).
Proof.
  intros Hp Hc Hb. destruct (counted_lookup h c r Hp Hc) as (b' & Hb' & Ht & Hk & Hr).
  rewrite Hb in Hb'. injection Hb' as <-. pose proof (ct_bound _ _ Hc) as B. cbn [app length] in B.
  apply counted_recount with (c :: r) (r ++ live_cells h); [done|done| |lia| | |lia].
  - rewrite live_cells_insert, (live_cells_delete h _ _ Hb). unfold block_cells. cbn [first second].
    rewrite (proj2 (Z.eqb_neq (first b) 0)) by lia. destruct (_ =? 0); solve_Permutation.
  - intros l' Hne. cbn [app]. rewrite cnt_cons, decide_False by (intros []; congruence). done.
  - intros c' Hc'. apply (ct_valid _ _ Hc). by right.
Qed.

Lemma counted_free h l b r : h !! l = Some b -> first b = 0 -> counted h r -> counted (delete l h) r.
Proof.
  intros Hb H0 [C V B]. assert (live_cells h ≡ₚ live_cells (delete l h)) as E.
  { rewrite (live_cells_delete h l b Hb). unfold block_cells. by rewrite H0. }
  split.
  - intros l' b' [_ Hb']%lookup_delete_Some. rewrite <- E. by apply C.
  - intros c. rewrite <- E. intros Hc Hp. destruct (V c Hc Hp) as (b' & Hb' & Ht). exists b'.
    rewrite lookup_delete_ne; [done|]. intros ->.
    pose proof (cnt_pos (word c) c _ Hc ltac:(done)). rewrite <- (C _ _ Hb) in *. lia.
  - by rewrite <- E.
Qed.

Lemma shrinks_dec h l b : h !! l = Some b -> 0 < first b ->
  (first b - 1 <> 0 -> shrinks h (<[l := Block (first b - 1) (second b)]> h)) /\
  (forall h', shrinks (<[l := Block 0 (second b)]> h) h' -> shrinks h (delete l h')).
Proof.
  intros Hb Hpos. split.
  - intros Hk. split.
    + intros l' b' [[-> <-]|[Hne Hb']]%lookup_insert_Some; [|exists b'; auto using Z.le_refl].
      exists b. split_and!; [done|done|cbn; lia..].
    + intros l' b' Hb' H0. rewrite lookup_insert_ne; [done|]. intros ->. simplify_eq. lia.
  - intros h' [S D]. split.
    + intros l' b' [Hne Hb']%lookup_delete_Some. destruct (S _ _ Hb') as (b0 & Hb0 & Hs & Hz & ?).
      rewrite lookup_insert_ne in Hb0 by done. by exists b0.
    + intros l' b' Hb' H0. assert (l <> l') by (intros ->; simplify_eq; lia).
      rewrite lookup_delete_ne by done. apply D; [|done]. by rewrite lookup_insert_ne.
Qed.

Lemma live_blocks_dead h l b p : h !! l = Some b -> first b <> 0 ->
  (base.size (live_blocks (<[l := Block 0 p]> h)) < base.size (live_blocks h))%nat.
Proof.
  intros Hb H0. apply subset_size. split.
  - intros l'. rewrite !live_blocks_elem. intros (b' & Hb' & H0').
    apply lookup_insert_Some in Hb' as [[-> <-]|[? ?]]; [done|by exists b'].
  - intros Hs. assert (l ∈ live_blocks (<[l := Block 0 p]> h)) as (b' & Hb' & H0')%live_blocks_elem.
    { apply Hs, live_blocks_elem. by exists b. }
    rewrite lookup_insert_eq in Hb'. by simplify_eq.
Qed.

Lemma destroy_all_spec dec n :
  (forall h c r, counted h (c :: r) -> (base.size (live_blocks h) < n)%nat ->
     exists h', dec h c = Fine h' /\ counted h' r /\ shrinks h h') ->
  forall cs h r, counted h (cs ++ r) -> (base.size (live_blocks h) < n)%nat ->
    exists h', destroy_all dec cs h = Fine h' /\ counted h' r /\ shrinks h h'.
Proof.
  intros Hdec. induction cs as [|c cs IH]; intros h r Hc Hn; cbn [destroy_all].
  - exists h. eauto using shrinks_refl.
  - destruct (Hdec h c (cs ++ r) Hc Hn) as (h1 & -> & Hc1 & Hs1). cbn.
    destruct (IH h1 r Hc1) as (h2 & -> & Hc2 & Hs2).
    { pose proof (subseteq_size _ _ (shrinks_live _ _ Hs1)). lia. }
    exists h2. eauto using shrinks_trans.
Qed.

Lemma deref_fine h ty l b : h !! l = Some b -> payload_type (second b) = ty -> deref h ty l = Fine b.
Proof. intros Hb Ht. unfold deref. rewrite Hb. by rewrite decide_True. Qed.

Lemma decref_fuel_spec n : forall h c r, counted h (c :: r) ->
  (base.size (live_blocks h) < n)%nat ->
  exists h', decref_fuel n h c = Fine h' /\ counted h' r /\ shrinks h h'.
Proof.
  induction n as [|n IH]; intros h c r Hc Hn; [lia|]. cbn [decref_fuel].
  destruct (is_ptr c) eqn:Hp; [|exists h; eauto using shrinks_refl, counted_drop].
  destruct (counted_lookup h c r Hp Hc) as (b & Hb & Ht & _ & Hr).
  rewrite (deref_fine _ _ _ _ Hb Ht). cbn. rewrite (wrap_small 64) by (unfold is_u; lia).
  pose proof (counted_dec h c r b Hp Hc Hb) as Hd.
  destruct (shrinks_dec h _ b Hb ltac:(lia)) as [Hs1 Hs2].
  destruct (Z.eqb_spec (first b - 1) 0) as [E|E]; [|eauto].
  rewrite E in *. destruct (destroy_all_spec _ n IH _ _ _ Hd) as (h2 & -> & Hc2 & Hsh).
  { pose proof (live_blocks_dead h (word c) b (second b) Hb ltac:(lia)). lia. }
  cbn. exists (delete (word c) h2). split_and!; [done| |auto].
  apply counted_free with (Block 0 (second b)); [|done|done]. apply (sh_dead _ _ Hsh); [apply lookup_insert_eq|done].
Qed.

Lemma live_blocks_size h : (base.size (live_blocks h) <= base.size h)%nat.
Proof.
  unfold live_blocks. rewrite <- (size_dom (D := gset Z) h). apply subseteq_size, dom_filter_subseteq.
Qed.

Lemma decref_spec h c r : counted h (c :: r) ->
  exists h', decref h c = Fine h' /\ counted h' r /\ shrinks h h'.
Proof. intros. apply decref_fuel_spec; [done|]. pose proof (live_blocks_size h). lia. Qed.
Lemma destroy_all_decref cs h r : counted h (cs ++ r) ->
  exists h', destroy_all decref cs h = Fine h' /\ counted h' r /\ shrinks h h'.
Proof.
  intros. apply (destroy_all_spec decref (S (base.size h))); [|done|pose proof (live_blocks_size h); lia].
  intros. by apply decref_spec.
Qed.

(** ** Values *)

Definition denotes (h : heap) (c : cell) (v : flexible_type) : Prop := exists n, value n h c = Some v.

(** [closed S h h']: the blocks in [S] have the same payloads in both heaps, and
    only point to blocks in [S].  The objects [cs] mean the same in both heaps
    when all they point to is in such a set. *)
Definition closed (S : Z -> Prop) (h h' : heap) : Prop :=
  forall l, S l -> exists b b', h !! l = Some b /\ h' !! l = Some b' /\ second b' = second b /\
    forall c, c ∈ cells (second b) -> is_ptr c = true -> S (word c).
Definition agrees (cs : list cell) (h h' : heap) : Prop :=
  exists S, closed S h h' /\ forall c, c ∈ cs -> is_ptr c = true -> S (word c).

Lemma agrees_sub cs ds h h' : ds ⊆ cs -> agrees cs h h' -> agrees ds h h'.
Proof. intros Hs (S & Hc & Hr). exists S. split; [done|]. intros c Hc'. by apply Hr, Hs. Qed.
Lemma agrees_trans cs h1 h2 h3 : agrees cs h1 h2 -> agrees cs h2 h3 -> agrees cs h1 h3.
Proof.
  intros (S & HS & Hr) (T & HT & Hr'). exists (fun l => S l /\ T l). split; [|by auto].
  intros l [Hl Hl']. destruct (HS l Hl) as (b1 & b2 & Hb1 & Hb2 & E & Hc).
  destruct (HT l Hl') as (b2' & b3 & Hb2' & Hb3 & E' & Hc'). rewrite Hb2 in Hb2'. injection Hb2' as <-.
  exists b1, b3. split_and!; [done|done|congruence|]. intros c Hin Hp. split; [by apply Hc|].
  apply Hc'; [|done]. by rewrite E.
Qed.

Lemma dict_cells d kv : kv ∈ d -> kv.1 ∈ cells (PDict d) /\ kv.2 ∈ cells (PDict d).
Proof.
  intros Hin. cbn. split; apply list_elem_of_In, in_concat;
    (exists [kv.2; kv.1]; split; [by apply in_map_iff; exists kv; split; [|apply list_elem_of_In]|]);
    cbn; auto.
Qed.

Lemma value_closed S h h' : closed S h h' ->
  forall n c, (is_ptr c = true -> S (word c)) -> value n h' c = value n h c.
Proof.
  intros HS. induction n as [|n IH]; [done|]. intros [ty l] Hl. cbn [value stored_type word].
  destruct ty; try done; destruct (HS l (Hl eq_refl)) as (b & b' & Hb & Hb' & E & Hc);
    rewrite Hb, Hb'; cbn [mbind option_bind]; rewrite E; destruct (second b) as [| |cs|d|]; try done.
  - f_equal. apply Forall_mapM_ext, Forall_forall. intros c Hin. apply IH. by apply Hc.
  - f_equal. apply Forall_mapM_ext, Forall_forall. intros kv Hin.
    destruct (dict_cells d kv Hin) as [H1 H2].
    by rewrite (IH kv.1 (Hc _ H1)), (IH kv.2 (Hc _ H2)).
Qed.
Lemma agrees_value cs h h' n c : agrees cs h h' -> c ∈ cs -> value n h' c = value n h c.
Proof. intros (S & HS & Hr) Hin. eapply value_closed; [done|]. by apply Hr. Qed.
Lemma agrees_denotes cs h h' c v : agrees cs h h' -> c ∈ cs -> denotes h c v -> denotes h' c v.
Proof. intros Ha Hin [n Hn]. exists n. by rewrite (agrees_value cs h h'). Qed.

Lemma mapM_mono {A B} (f g : A -> option B) l k :
  (forall x y, f x = Some y -> g x = Some y) -> mapM f l = Some k -> mapM g l = Some k.
Proof.
  intros Hfg. rewrite !mapM_Some. intros H. eapply Forall2_impl; [done|]. eauto.
Qed.
Lemma value_mono n m h c v : (n <= m)%nat -> value n h c = Some v -> value m h c = Some v.
Proof.
  revert m c v. induction n as [|n IH]; [done|]. intros [|m] [ty l] v Hm; [lia|].
  cbn [value stored_type word].
  destruct ty; try done; destruct (h !! l) as [b|]; cbn [mbind option_bind]; try done;
    destruct (second b) as [| |cs|d|]; try done.
  - intros (vs & E & ->)%fmap_Some. apply fmap_Some. exists vs. split; [|done].
    eapply mapM_mono; [|done]. intros; eapply IH; [lia|done].
  - intros (vs & E & ->)%fmap_Some. apply fmap_Some. exists vs. split; [|done].
    eapply mapM_mono; [|done]. intros kv y.
    intros (k & Ek & (w & Ew & [= <-])%bind_Some)%bind_Some.
    rewrite (IH m _ _ ltac:(lia) Ek). cbn. by rewrite (IH m _ _ ltac:(lia) Ew).
Qed.
Lemma denotes_fun h c v w : denotes h c v -> denotes h c w -> v = w.
Proof.
  intros [n Hn] [m Hm].
  pose proof (value_mono n (n `max` m) h c v ltac:(lia) Hn).
  pose proof (value_mono m (n `max` m) h c w ltac:(lia) Hm). congruence.
Qed.

(** Fuel enough for all of a list *)
Lemma denotes_all h cs vs : Forall2 (denotes h) cs vs -> exists n, mapM (value n h) cs = Some vs.
Proof.
  induction 1 as [|c v cs vs [n Hn] _ [m Hm]]; [by exists O|]. exists (n `max` m)%nat. cbn.
  rewrite (value_mono n (n `max` m) h c v ltac:(lia) Hn). cbn.
  erewrite mapM_mono; [done| |exact Hm]. intros x y. apply value_mono. lia.
Qed.
Lemma denotes_dict_all h d : (forall c, c ∈ cells (PDict d) -> exists v, denotes h c v) ->
  exists n vs, mapM (fun kv => k ← value n h kv.1; v ← value n h kv.2; Some (k, v)) d = Some vs.
Proof.
  induction d as [|[k w] d IH]; intros Hd; [by exists O, []|].
  destruct (Hd w) as (vw & n1 & Hn1); [left|]. destruct (Hd k) as (vk & n2 & Hn2); [right; left|].
  destruct IH as (n3 & vs & Hn3); [intros c Hc; apply Hd; by do 2 right|].
  assert (exists n, n1 <= n /\ n2 <= n /\ n3 <= n)%nat as (n & ? & ? & ?)
    by (exists (n1 + n2 + n3)%nat; lia).
  exists n, ((vk, vw) :: vs). cbn.
  rewrite (value_mono n2 n h k vk ltac:(lia) Hn2). cbn. rewrite (value_mono n1 n h w vw ltac:(lia) Hn1). cbn.
  erewrite mapM_mono; [done| |exact Hn3]. intros kv y (a & Ea & (e & Ee & [= <-])%bind_Some)%bind_Some.
  rewrite (value_mono n3 n _ _ _ ltac:(lia) Ea). cbn. by rewrite (value_mono n3 n _ _ _ ltac:(lia) Ee).
Qed.

Lemma denotes_list h l k cs vs :
  h !! l = Some (Block k (PList cs)) -> Forall2 (denotes h) cs vs -> denotes h (Cell LIST l) (FList vs).
Proof.
  intros Hl [n Hn]%denotes_all. exists (S n). cbn. rewrite Hl. cbn. by rewrite Hn.
Qed.
Lemma denotes_list_inv h l v : denotes h (Cell LIST l) v ->
  exists k cs vs, h !! l = Some (Block k (PList cs)) /\ v = FList vs /\ Forall2 (denotes h) cs vs.
Proof.
  intros [[|n] Hn]; [done|]. cbn in Hn. apply bind_Some in Hn as ([k p] & Hb & Hn). cbn in Hn.
  destruct p as [| |cs|d|]; try done. apply fmap_Some in Hn as (vs & Hm & ->).
  exists k, cs, vs. split_and!; [done|done|]. apply mapM_Some in Hm.
  eapply Forall2_impl; [done|]. intros c w Hw. by exists n.
Qed.

Lemma denotes_block h l b :
  h !! l = Some b -> (forall c, c ∈ cells (second b) -> exists v, denotes h c v) ->
  exists v, denotes h (Cell (payload_type (second b)) l) v.
Proof.
  intros Hb Hc. destruct b as [k [s|v|cs|d|img]]; cbn [second payload_type] in *;
    try (eexists; exists 1%nat; cbn; by rewrite Hb).
  - cbn in Hc. assert (exists vs, Forall2 (denotes h) cs vs) as [vs Hvs].
    { clear Hb. induction cs as [|c cs IH]; [by exists []|].
      destruct (Hc c ltac:(left)) as [v Hv]. destruct IH as [vs Hvs]; [intros c' ?; apply Hc; by right|].
      exists (v :: vs). by constructor. }
    exists (FList vs). eapply denotes_list; eauto.
  - destruct (denotes_dict_all h d Hc) as (n & vs & Hn). exists (FDict vs), (S n). cbn.
    rewrite Hb. cbn. by rewrite Hn.
Qed.

(** ** Well-formed heaps *)

(** No block is being deleted, and no block contains itself: every block has a
    value. *)
Definition alive (h : heap) : Prop := forall l b, h !! l = Some b -> first b <> 0.
Definition grounded (h : heap) : Prop :=
  forall l b, h !! l = Some b -> exists v, denotes h (Cell (payload_type (second b)) l) v.
Record wf (h : heap) (r : list cell) : Prop := {
  wf_counted : counted h r;
  wf_alive : alive h;
  wf_grounded : grounded h
}.

Lemma wf_perm h r r' : r ≡ₚ r' -> wf h r -> wf h r'.
Proof. intros E [C A G]. split; [by eapply counted_perm|done..]. Qed.

Lemma alive_cells h l b c :
  alive h -> h !! l = Some b -> c ∈ cells (second b) -> c ∈ live_cells h.
Proof. intros Ha Hb Hc. apply live_cells_elem. exists l, b. eauto. Qed.

Lemma wf_valid h r c : wf h r -> c ∈ r -> valid h c.
Proof. intros [C _ _] Hc. apply (ct_valid _ _ C). by apply elem_of_app; left. Qed.
Lemma wf_valid_cell h r l b c : wf h r -> h !! l = Some b -> c ∈ cells (second b) -> valid h c.
Proof.
  intros [C A _] Hb Hc. apply (ct_valid _ _ C). apply elem_of_app. right. by eapply alive_cells.
Qed.
Lemma grounded_cell h c : grounded h -> valid h c -> exists v, denotes h c v.
Proof.
  intros G Hv. destruct c as [ty l].
  destruct ty; try (by eexists; exists 1%nat);
  destruct (Hv eq_refl) as (b & Hb & Ht); cbn in Ht; rewrite <- Ht; by apply G.
Qed.

(** All of a well-formed heap is closed. *)
Lemma wf_closed h r h' : wf h r ->
  (forall l b, h !! l = Some b -> exists b', h' !! l = Some b' /\ second b' = second b) ->
  closed (fun l => is_Some (h !! l)) h h'.
Proof.
  intros Hw Hs l [b Hb]. destruct (Hs l b Hb) as (b' & Hb' & E). exists b, b'. split_and!; try done.
  intros c Hc Hp. destruct (wf_valid_cell _ _ _ _ _ Hw Hb Hc Hp) as (b1 & -> & _). done.
Qed.

Lemma agrees_refl h r : wf h r -> agrees r h h.
Proof.
  intros Hw. exists (fun l => is_Some (h !! l)). split; [eapply wf_closed; eauto|].
  intros c Hc Hp. destruct (wf_valid _ _ _ Hw Hc Hp) as (b & -> & _). done.
Qed.

(** ** Operations on well-formed heaps *)

(** The number of objects there are *)
Definition weight (h : heap) (r : list cell) : Z := Z.of_nat (length (r ++ live_cells h)).

Lemma shrinks_weight h h' : shrinks h h' -> (length (live_cells h') <= length (live_cells h))%nat.
Proof.
  revert h. induction h' as [|l b' m Hl IH] using map_ind; intros h [B D].
  { unfold live_cells at 1. rewrite map_to_list_empty. cbn. lia. }
  destruct (B l b' (lookup_insert_eq _ _ _)) as (b & Hb & Hs & _ & _).
  rewrite live_cells_insert, (live_cells_delete h l b Hb), delete_id, !length_app by done.
  assert (length (block_cells b') <= length (block_cells b))%nat.
  { unfold block_cells. rewrite Hs. destruct (Z.eqb_spec (first b) 0) as [E|]; [|destruct (_ =? _); cbn; lia].
    pose proof (D l b Hb E) as Eb. rewrite lookup_insert_eq in Eb. injection Eb as ->.
    rewrite E. cbn. lia. }
  assert (shrinks (delete l h) m) as Hd%IH; [|lia]. split.
  - intros l' b0 Hb0. assert (l <> l') by (intros ->; congruence).
    destruct (B l' b0) as (b1 & Hb1 & H1); [by rewrite lookup_insert_ne|].
    exists b1. by rewrite lookup_delete_ne.
  - intros l' b0 [Hne Hb0]%lookup_delete_Some H0.
    pose proof (D l' b0 Hb0 H0) as E. by rewrite lookup_insert_ne in E.
Qed.

Lemma decref_wf h c r : wf h (c :: r) ->
  exists h', decref h c = Fine h' /\ wf h' r /\ agrees r h h' /\ shrinks h h' /\
    weight h' r < weight h (c :: r).
Proof.
  intros [C A G]. destruct (decref_spec h c r C) as (h' & E & C' & Hs). exists h'.
  assert (alive h') as A'.
  { intros l b' Hb'. destruct (sh_back _ _ Hs _ _ Hb') as (b & Hb & _ & Hz & _).
    intros E0. by eapply A; [|apply Hz]. }
  assert (closed (fun l => is_Some (h' !! l)) h h') as HS.
  { intros l [b' Hb']. destruct (sh_back _ _ Hs _ _ Hb') as (b & Hb & E2 & _).
    exists b, b'. split_and!; try done. intros c' Hc' Hp. rewrite <- E2 in Hc'.
    destruct (ct_valid _ _ C' c') as (b1 & -> & _); [|done|done].
    apply elem_of_app. right. by eapply alive_cells. }
  assert (weight h' r < weight h (c :: r)).
  { unfold weight. pose proof (shrinks_weight _ _ Hs). rewrite !length_app. cbn [length]. lia. }
  split_and!; try done.
  - split; [done..|]. intros l b' Hb'. destruct (sh_back _ _ Hs _ _ Hb') as (b & Hb & E2 & _).
    destruct (G l b Hb) as (v & n & Hn). exists v, n. rewrite E2.
    rewrite (value_closed _ _ _ HS); [done|]. by exists b'.
  - exists (fun l => is_Some (h' !! l)). split; [done|]. intros c' Hc' Hp.
    destruct (ct_valid _ _ C' c') as (b1 & -> & _); [by apply elem_of_app; left|done|done].
Qed.

(** Same payloads: reference counts do not matter for values. *)
Lemma wf_recount h r l b k r' : wf h r -> h !! l = Some b -> k <> 0 ->
  counted (<[l := Block k (second b)]> h) r' ->
  wf (<[l := Block k (second b)]> h) r' /\ agrees r h (<[l := Block k (second b)]> h).
Proof.
  intros Hw Hb Hk Hc.
  assert (closed (fun l => is_Some (h !! l)) h (<[l := Block k (second b)]> h)) as HS.
  { eapply wf_closed; [done|]. intros l' b' Hb'. destruct (decide (l' = l)) as [->|Hne].
    - exists (Block k (second b)). rewrite lookup_insert_eq. by simplify_eq.
    - exists b'. by rewrite lookup_insert_ne. }
  split.
  - split; [done| |].
    + intros l' b' [[_ <-]|[_ Hb']]%lookup_insert_Some; [done|]. by apply (wf_alive _ _ Hw l').
    + assert (forall l0 b0, h !! l0 = Some b0 -> exists v,
        denotes (<[l := Block k (second b)]> h) (Cell (payload_type (second b0)) l0) v) as Hg.
      { intros l0 b0 Hb0. destruct (wf_grounded _ _ Hw l0 b0 Hb0) as (v & n & Hn). exists v, n.
        rewrite (value_closed _ _ _ HS); [done|]. by exists b0. }
      intros l' b' [[<- <-]|[_ Hb']]%lookup_insert_Some; [by apply (Hg l b)|by apply Hg].
  - exists (fun l => is_Some (h !! l)). split; [done|]. intros c Hc' Hp.
    destruct (wf_valid _ _ _ Hw Hc' Hp) as (b' & -> & _). done.
Qed.

Lemma incref_wf h c r : wf h r -> valid h c -> weight h r + 1 < 2 ^ 64 ->
  exists h', incref h c = Fine h' /\ wf h' (c :: r) /\ agrees r h h' /\
    weight h' (c :: r) = weight h r + 1 /\
    (forall l, second <$> h' !! l = second <$> h !! l).
Proof.
  intros Hw Hv Hb. unfold incref. destruct (is_ptr c) eqn:Hp.
  - destruct (Hv Hp) as (b & Hl & Ht). rewrite (deref_fine _ _ _ _ Hl Ht). cbn.
    destruct Hw as [C A G]. pose proof (ct_count _ _ C _ _ Hl) as Hk. pose proof (A _ _ Hl) as H0.
    pose proof (cnt_nonneg (word c) (r ++ live_cells h)). pose proof (cnt_le (word c) (r ++ live_cells h)).
    unfold weight in Hb. rewrite (wrap_small 64) by (unfold is_u; lia).
    assert (live_cells (<[word c := Block (first b + 1) (second b)]> h) ≡ₚ live_cells h) as E.
    { rewrite live_cells_insert, (live_cells_delete h _ _ Hl). unfold block_cells. cbn [first second].
      rewrite !(proj2 (Z.eqb_neq _ 0)) by lia. done. }
    destruct (wf_recount h r (word c) b (first b + 1) (c :: r)) as [W' Ha]; [done|done|lia| |].
    { apply counted_recount with r (c :: r ++ live_cells h); [done|done| | | | |].
      - cbn [app]. by rewrite E.
      - rewrite cnt_cons, decide_True by done. lia.
      - intros l' Hne. rewrite cnt_cons, decide_False by (intros []; congruence). lia.
      - intros c' [->|Hc']%elem_of_cons; [done|]. by apply (ct_valid _ _ C).
      - cbn [length]. lia. }
    eexists. split_and!; [done|done|done| |].
    + unfold weight. rewrite E. cbn [app length]. lia.
    + intros l. destruct (decide (l = word c)) as [->|Hne].
      * by rewrite lookup_insert_eq, Hl.
      * by rewrite lookup_insert_ne.
  - exists h. assert (weight h (c :: r) = weight h r + 1) by (unfold weight; cbn [app length]; lia).
    pose proof (agrees_refl h r Hw). destruct Hw as [[C V B] A G]. split_and!; try done.
    split; [|done..]. split.
    + intros l b Hl. rewrite (C l b Hl). cbn [app]. by rewrite cnt_cons, decide_False by (intros []; congruence).
    + intros c' [->|Hc']%elem_of_cons; auto.
    + unfold weight in *. lia.
Qed.

Definition same_payloads (h h' : heap) : Prop := forall l, second <$> h' !! l = second <$> h !! l.

Lemma same_valid h h' c : same_payloads h h' -> valid h c -> valid h' c.
Proof.
  intros E Hv Hp. destruct (Hv Hp) as (b & Hb & Ht). specialize (E (word c)). rewrite Hb in E.
  destruct (h' !! word c) as [b'|]; [|done]. cbn in E. injection E as E. exists b'. by rewrite E.
Qed.

Lemma incref_all_wf cs h r : wf h r -> (forall c, c ∈ cs -> valid h c) ->
  weight h r + Z.of_nat (length cs) < 2 ^ 64 ->
  exists h', incref_all cs h = Fine h' /\ wf h' (cs ++ r) /\ agrees r h h' /\
    weight h' (cs ++ r) = weight h r + Z.of_nat (length cs) /\ same_payloads h h'.
Proof.
  revert h r. induction cs as [|c cs IH]; intros h r Hw Hv Hb; cbn [incref_all length] in *.
  - exists h. split_and!; try done; [by apply agrees_refl|cbn [app]; lia].
  - destruct (incref_wf h c r Hw) as (h1 & -> & W1 & A1 & E1 & S1); [apply Hv; left|lia|]. cbn [mbind res_bind].
    destruct (IH h1 (c :: r) W1) as (h2 & -> & W2 & A2 & E2 & S2).
    + intros c' Hc'. apply (same_valid h); [done|]. apply Hv. by right.
    + lia.
    + assert (cs ++ c :: r ≡ₚ (c :: cs) ++ r) as E by (symmetry; apply Permutation_middle).
      exists h2. split_and!; [done|by eapply wf_perm| | |].
      * eapply agrees_trans; [done|]. eapply agrees_sub; [|done]. set_solver.
      * unfold weight in *. rewrite <- E, E2. lia.
      * intros l. by rewrite S2.
Qed.

Lemma value_same n h h' ty l l' b b' :
  h !! l = Some b -> h' !! l' = Some b' -> second b' = second b -> is_ptr (Cell ty l) = true ->
  agrees (cells (second b)) h h' -> value n h' (Cell ty l') = value n h (Cell ty l).
Proof.
  intros Hb Hb' E Hp Ha. destruct n as [|n]; [done|]. cbn [value stored_type word].
  destruct ty; try done; rewrite Hb, Hb'; cbn [mbind option_bind]; rewrite E;
    destruct (second b) as [| |cs|d|]; try done; f_equal; apply Forall_mapM_ext, Forall_forall.
  - intros c Hin. by eapply agrees_value.
  - intros kv Hin. destruct (dict_cells d kv Hin) as [H1 H2].
    by rewrite !(agrees_value _ _ _ _ _ Ha).
Qed.

(** A new block takes over objects that were outside the heap. *)
Lemma alloc_wf h r p pl : wf h (cells pl ++ r) -> h !! p = None -> weight h (cells pl ++ r) + 1 < 2 ^ 64 ->
  let h' := <[p := Block 1 pl]> h in
  wf h' (Cell (payload_type pl) p :: r) /\ agrees (cells pl ++ r) h h' /\
  weight h' (Cell (payload_type pl) p :: r) = weight h (cells pl ++ r) + 1.
Proof.
  intros Hw Hp Hb h'. pose proof Hw as [C A G]. set (c := Cell (payload_type pl) p).
  assert (is_ptr c = true) as Hc by (by destruct pl).
  assert ((c :: r) ++ live_cells h' ≡ₚ c :: (cells pl ++ r) ++ live_cells h) as E.
  { unfold h'. cbn [app]. rewrite live_cells_insert, delete_id by done. cbn. solve_Permutation. }
  assert (closed (fun l => is_Some (h !! l)) h h') as HS.
  { eapply wf_closed; [done|]. intros l b Hl. exists b. unfold h'. by rewrite lookup_insert_ne by congruence. }
  assert (forall c', valid h c' -> valid h' c') as HV.
  { intros c' Hv Hp'. destruct (Hv Hp') as (b & Hl & Ht). exists b. unfold h'.
    by rewrite lookup_insert_ne by congruence. }
  assert (agrees (cells pl ++ r) h h') as Ha.
  { exists (fun l => is_Some (h !! l)). split; [done|]. intros c' Hc' Hp'.
    destruct (wf_valid _ _ _ Hw Hc' Hp') as (b & -> & _). done. }
  split_and!; [|done|unfold weight; rewrite E; cbn [length]; lia]. split.
  - split.
    + intros l b. unfold h' at 1. rewrite E, cnt_cons. intros [[<- <-]|[Hne Hl]]%lookup_insert_Some.
      * rewrite decide_True by done. destruct (Z.eq_dec (cnt p ((cells pl ++ r) ++ live_cells h)) 0) as [->|Hn]; [done|].
        pose proof (cnt_nonneg p ((cells pl ++ r) ++ live_cells h)).
        destruct (cnt_ex p ((cells pl ++ r) ++ live_cells h)) as (c' & Hc' & Hp' & E'); [lia|].
        destruct (ct_valid _ _ C c' Hc' Hp') as (b' & Hb' & _). congruence.
      * rewrite decide_False by (intros []; cbn in *; congruence). by rewrite (ct_count _ _ C l b Hl).
    + intros c'. rewrite E. intros [->|Hc']%elem_of_cons; [|by apply HV, (ct_valid _ _ C)].
      intros _. exists (Block 1 pl). unfold h'. by rewrite lookup_insert_eq.
    + rewrite E. unfold weight in Hb. cbn [length]. lia.
  - intros l b [[<- <-]|[Hne Hl]]%lookup_insert_Some; [done|]. by apply (A l).
  - intros l b [[<- <-]|[Hne Hl]]%lookup_insert_Some.
    + apply denotes_block; [apply lookup_insert_eq|]. cbn. intros c' Hc'.
      destruct (grounded_cell h c' G) as (v & Hv).
      { apply (wf_valid _ _ _ Hw). by apply elem_of_app; left. }
      exists v. eapply agrees_denotes; [done|by apply elem_of_app; left|done].
    + destruct (G l b Hl) as (v & n & Hn). exists v, n. rewrite (value_closed _ _ _ HS); [done|].
      by exists b.
Qed.

(** An object that holds the only reference to its block: no other object can
    see a change of the payload. *)
Definition unique (h : heap) (c : cell) : Prop := is_ptr c = true ->
  exists b, h !! word c = Some b /\ first b = 1 /\ payload_type (second b) = stored_type c.

Lemma unique_others h c r b c' : wf h (c :: r) -> is_ptr c = true -> h !! word c = Some b -> first b = 1 ->
  c' ∈ r ++ live_cells h -> is_ptr c' = true -> word c' <> word c.
Proof.
  intros [C _ _] Hp Hb H1 Hc' Hp' E.
  destruct (counted_lookup h c r Hp C) as (b' & Hb' & _ & Hk & _). simplify_eq.
  pose proof (cnt_pos (word c) c' _ Hc' ltac:(done)). lia.
Qed.

(** The only owner of a block can give the block up, keeping its objects. *)
Lemma dealloc_wf h c r b : wf h (c :: r) -> is_ptr c = true -> h !! word c = Some b -> first b = 1 ->
  let h' := delete (word c) h in
  wf h' (cells (second b) ++ r) /\ agrees (cells (second b) ++ r) h h' /\
  weight h' (cells (second b) ++ r) + 1 = weight h (c :: r).
Proof.
  intros Hw Hp Hb H1 h'. pose proof Hw as [C A G].
  assert (c :: (cells (second b) ++ r) ++ live_cells h' ≡ₚ (c :: r) ++ live_cells h) as E.
  { cbn [app]. constructor. rewrite (live_cells_delete h _ _ Hb). unfold block_cells. rewrite H1. cbn.
    solve_Permutation. }
  assert (forall c', c' ∈ (cells (second b) ++ r) ++ live_cells h' -> c' ∈ r ++ live_cells h) as Hsub.
  { intros c' Hc'. apply Permutation_cons_inv in E. by rewrite <- E. }
  set (S := fun l => is_Some (h' !! l)).
  assert (forall c', c' ∈ r ++ live_cells h -> is_ptr c' = true -> S (word c')) as HrS.
  { intros c' Hc' Hp'. pose proof (unique_others h c r b c' Hw Hp Hb H1 Hc' Hp').
    destruct (ct_valid _ _ C c') as (b' & Hb' & _); [cbn [app]; by right|done|].
    exists b'. unfold h'. by rewrite lookup_delete_ne. }
  assert (closed S h h') as HS.
  { intros l [b' Hl]. pose proof Hl as [_ Hl']%lookup_delete_Some. exists b', b'. split_and!; try done.
    intros c' Hc'. apply HrS, elem_of_app. right. by eapply alive_cells. }
  split_and!.
  - split.
    + split.
      * intros l b' [Hne Hl]%lookup_delete_Some. rewrite (ct_count _ _ C l b' Hl), <- E, cnt_cons.
        rewrite decide_False by (intros []; congruence). done.
      * intros c' Hc' Hp'. destruct (ct_valid _ _ C c') as (b' & Hb' & Ht);
          [cbn [app]; right; by apply Hsub|done|].
        exists b'. unfold h'. rewrite lookup_delete_ne; [done|].
        intros E'. by eapply unique_others; [done..|apply Hsub; done|done|].
      * pose proof (ct_bound _ _ C) as B. rewrite <- E in B. cbn [length] in B. lia.
    + intros l b' [_ Hl]%lookup_delete_Some. by apply (A l).
    + intros l b' Hl. pose proof Hl as [_ Hl']%lookup_delete_Some. destruct (G l b' Hl') as (v & n & Hn).
      exists v, n. rewrite (value_closed _ _ _ HS); [done|]. by exists b'.
  - exists S. split; [done|]. intros c' Hc'. apply HrS, Hsub. by apply elem_of_app; left.
  - unfold weight. rewrite <- E. cbn [length]. lia.
Qed.

(** Writing the payload is giving the block up and allocating it again. *)
Lemma write_wf h c r b p r' : wf h (c :: r) -> is_ptr c = true -> h !! word c = Some b -> first b = 1 ->
  payload_type p = stored_type c -> cells p ++ r' ≡ₚ cells (second b) ++ r ->
  let h' := <[word c := Block (first b) p]> h in
  wf h' (c :: r') /\ agrees (cells (second b) ++ r) h h' /\ weight h' (c :: r') = weight h (c :: r) /\
  unique h' c.
Proof.
  intros Hw Hp Hb H1 Ht E h'. destruct (dealloc_wf h c r b Hw Hp Hb H1) as (W1 & A1 & E1).
  pose proof (ct_bound _ _ (wf_counted _ _ Hw)) as B. fold (weight h (c :: r)) in B.
  assert (weight (delete (word c) h) (cells p ++ r') = weight (delete (word c) h) (cells (second b) ++ r)) as EW
    by (unfold weight; by rewrite E).
  destruct (alloc_wf (delete (word c) h) r' (word c) p) as (W2 & A2 & E2);
    [by eapply wf_perm|apply lookup_delete_eq|lia|].
  rewrite insert_delete_eq in W2, A2, E2. rewrite <- H1 in W2 at 1. rewrite <- H1 in A2 at 1.
  rewrite <- H1 in E2 at 1. fold h' in W2, A2, E2.
  assert (Cell (payload_type p) (word c) = c) as Ec by (destruct c; cbn in *; by rewrite Ht).
  rewrite Ec in W2, E2. split_and!; [done| |lia|].
  - eapply agrees_trans; [done|]. eapply agrees_sub; [|done]. intros c'. by rewrite E.
  - intros _. exists (Block (first b) p). unfold h'. by rewrite lookup_insert_eq.
Qed.

(** ** States *)

Definition roots (st : state) : list cell := (map_to_list (vars st)).*2.
(** The objects other than the variable [x] *)
Definition rest (st : state) (x : nat) : list cell := (map_to_list (delete x (vars st))).*2.
Definition ok (st : state) : Prop := wf (mem st) (roots st).
Definition abs (st : state) (A : gmap nat flexible_type) : Prop :=
  forall x, option_Forall2 (denotes (mem st)) (vars st !! x) (A !! x).

Lemma roots_var st x c : vars st !! x = Some c -> roots st ≡ₚ c :: rest st x.
Proof.
  intros Hx. unfold roots, rest. rewrite <- (insert_delete_id (vars st) x c Hx) at 1.
  by rewrite map_to_list_insert by apply lookup_delete_eq.
Qed.
Lemma roots_with_var st x c h : roots (with_var st x c h) ≡ₚ c :: rest st x.
Proof.
  unfold roots, rest, with_var. cbn [vars]. rewrite <- insert_delete_eq.
  by rewrite map_to_list_insert by apply lookup_delete_eq.
Qed.
Lemma rest_new st x : vars st !! x = None -> rest st x = roots st.
Proof. intros Hx. unfold rest, roots. by rewrite delete_id. Qed.
Lemma rest_elem st x y c : x <> y -> vars st !! y = Some c -> c ∈ rest st x.
Proof.
  intros Hne Hy. apply list_elem_of_fmap. exists (y, c). split; [done|].
  apply elem_of_map_to_list. by rewrite lookup_delete_ne.
Qed.

Lemma abs_set st x c h A v : abs st A -> agrees (rest st x) (mem st) h -> denotes h c v ->
  abs (with_var st x c h) (<[x := v]> A).
Proof.
  intros Ha Hag Hd y. cbn [vars mem with_var]. destruct (decide (x = y)) as [<-|Hne].
  - rewrite !lookup_insert_eq. by constructor.
  - rewrite !lookup_insert_ne by done. specialize (Ha y).
    destruct (vars st !! y) as [c'|] eqn:Hy; inversion Ha as [? v' Hd'|]; constructor.
    eapply agrees_denotes; [done| |done]. by eapply rest_elem.
Qed.
(** The shape of every operation on [x]: the other objects keep their values. *)
Lemma set_var st x c h A v : abs st A -> wf h (c :: rest st x) -> agrees (rest st x) (mem st) h ->
  denotes h c v -> ok (with_var st x c h) /\ abs (with_var st x c h) (<[x := v]> A).
Proof.
  intros Ha Hw Hag Hd. split; [|by apply abs_set].
  by eapply wf_perm; [symmetry; apply roots_with_var|].
Qed.
Lemma delete_var st x h A : abs st A -> wf h (rest st x) -> agrees (rest st x) (mem st) h ->
  ok (State (delete x (vars st)) h) /\ abs (State (delete x (vars st)) h) (delete x A).
Proof.
  intros Ha Hw Hag. split; [done|]. intros y. cbn [vars mem]. destruct (decide (x = y)) as [<-|Hne].
  - rewrite !lookup_delete_eq. by constructor.
  - rewrite !lookup_delete_ne by done. specialize (Ha y).
    destruct (vars st !! y) as [c'|] eqn:Hy; inversion Ha as [? v' Hd'|]; constructor.
    eapply agrees_denotes; [done| |done]. by eapply rest_elem.
Qed.

Lemma abs_lookup st A x v : abs st A -> A !! x = Some v ->
  exists c, vars st !! x = Some c /\ denotes (mem st) c v.
Proof. intros Ha Hx. specialize (Ha x). rewrite Hx in Ha. inversion Ha. eauto. Qed.
Lemma abs_none st A x : abs st A -> A !! x = None -> vars st !! x = None.
Proof. intros Ha Hx. specialize (Ha x). rewrite Hx in Ha. by inversion Ha. Qed.

Lemma denotes_type h c v : denotes h c v -> stored_type c = get_type v.
Proof.
  intros [[|n] Hn]; [done|]. destruct c as [ty l]. cbn in *.
  destruct ty; simplify_eq; try done; apply bind_Some in Hn as ([k p] & _ & Hn); cbn in Hn;
    destruct p; simplify_eq; try done; by apply fmap_Some in Hn as (? & _ & ->).
Qed.

Lemma denotes_valid h c v : denotes h c v -> valid h c.
Proof.
  intros [[|n] Hn] Hp; [done|]. destruct c as [ty l]. cbn in *.
  destruct ty; try done; apply bind_Some in Hn as (b & Hb & Hn); exists b; (split; [done|]);
    by destruct (second b).
Qed.

(** *** Sources *)

Fixpoint at_path (v : flexible_type) (path : list nat) : outcome flexible_type :=
  match path with
  | [] => Ok v
  | i :: path => obind (FlexibleOps.array_at v i) (fun w => at_path w path)
  end.

Lemma array_at_denotes h l v i : denotes h (Cell LIST l) v -> FlexibleOps.array_at v i <> Undef ->
  exists k cs c w, h !! l = Some (Block k (PList cs)) /\ cs !! i = Some c /\ denotes h c w /\
    FlexibleOps.array_at v i = Ok w.
Proof.
  intros (k & cs & vs & Hl & -> & Hvs)%denotes_list_inv Hu. cbn in *.
  destruct (vs !! i) as [w|] eqn:Hw; [|done].
  destruct (Forall2_lookup_r _ _ _ _ _ Hvs Hw) as (c & Hc & Hd). by exists k, cs, c, w.
Qed.

Lemma resolve_spec st h' path : forall r c v, load st r = Fine c -> denotes (mem st) c v ->
  agrees [c] (mem st) h' -> at_path v path <> Undef ->
  (at_path v path = Throws /\ resolve st r path = Fine None) \/
  exists r' c' w, at_path v path = Ok w /\ resolve st r path = Fine (Some r') /\
    load st r' = Fine c' /\ denotes (mem st) c' w /\ agrees [c'] (mem st) h' /\
    (r' = r \/ exists l i, r' = LElem l i /\ forall V, load (State V h') r' = Fine c').
Proof.
  induction path as [|i path IH]; intros r c v Hl Hd Hag Hu; cbn [at_path resolve] in *.
  { right. exists r, c, v. by split_and!; try done; left. }
  unfold call_const. rewrite Hl. cbn [mbind res_bind]. pose proof (denotes_type _ _ _ Hd) as Ht.
  destruct (decide (stored_type c = LIST)) as [El|Hn].
  2:{ left. rewrite Ht in *. by destruct v. }
  rewrite El. destruct c as [ty l]. cbn [stored_type word] in *. clear Ht. subst ty.
  destruct (array_at_denotes _ _ _ i Hd) as (k & cs & e & w & Hb & He & Hde & Ea).
  { intros E. by rewrite E in Hu. }
  rewrite Ea in *. cbn [obind] in *. erewrite deref_fine by done. cbn [mbind res_bind second cells].
  pose proof (lookup_lt_Some _ _ _ He). rewrite (proj2 (Nat.ltb_lt _ _)) by done.
  destruct Hag as (S & HS & HrS). destruct (HS l (HrS (Cell LIST l) ltac:(left) eq_refl)) as (b & b' & Hb1 & Hb' & E & Hcl).
  rewrite Hb in Hb1. injection Hb1 as <-. cbn in E, Hcl. assert (e ∈ cs) by (by eapply list_elem_of_lookup_2).
  destruct (IH (LElem l i) e w) as [?|(r' & c' & u & E1 & E2 & E3 & E4 & E6 & E7)]; try done.
  - cbn. erewrite deref_fine by done. cbn. by rewrite He.
  - exists S. split; [done|]. intros c' ->%list_elem_of_singleton. by apply Hcl.
  - by left.
  - right. exists r', c', u. split_and!; try done. right. destruct E7 as [->|?]; [|done].
    exists l, i. split; [done|]. intros V. cbn in E3. erewrite deref_fine in E3 by done. cbn in E3. rewrite He in E3. injection E3 as <-.
    cbn [load mem]. rewrite (deref_fine _ _ _ b' Hb') by (by rewrite E). cbn. rewrite E. cbn. by rewrite He.
Qed.

Section Allocator.
Context (malloc : heap -> Z) (malloc_fresh : forall h, h !! malloc h = None).

Lemma cells_weight h r l b : alive h -> h !! l = Some b ->
  Z.of_nat (length r) + Z.of_nat (length (cells (second b))) <= weight h r.
Proof.
  intros A Hb. unfold weight. rewrite (live_cells_delete h l b Hb). unfold block_cells.
  rewrite (proj2 (Z.eqb_neq _ _) (A _ _ Hb)), !length_app. lia.
Qed.

Lemma ensure_unique_wf h c r : wf h (c :: r) -> 2 * weight h (c :: r) < 2 ^ 64 ->
  exists h' c', ensure_unique malloc h c = Fine (h', c') /\ wf h' (c' :: r) /\ agrees r h h' /\
    stored_type c' = stored_type c /\ (forall n, value n h' c' = value n h c) /\ unique h' c' /\
    weight h' (c' :: r) <= 2 * weight h (c :: r).
Proof.
  intros Hw Hb. unfold ensure_unique.
  assert (0 <= weight h (c :: r)) by (unfold weight; lia).
  assert (agrees r h h) as Hrefl.
  { eapply agrees_sub; [|by apply agrees_refl]. set_solver. }
  destruct (is_ptr c) eqn:Hp.
  2:{ exists h, c. split_and!; try done; [|lia]. intros ?. congruence. }
  destruct (wf_valid _ _ _ Hw ltac:(left) Hp) as (b & Hl & Ht).
  rewrite (deref_fine _ _ _ _ Hl Ht). cbn [mbind res_bind].
  destruct (Z.eqb_spec (first b) 1) as [H1|H1].
  { exists h, c. split_and!; try done; [|lia]. intros _. by exists b. }
  pose proof (cells_weight h (c :: r) _ b (wf_alive _ _ Hw) Hl) as Hcw. cbn [length] in Hcw.
  destruct (incref_all_wf (cells (second b)) h (c :: r) Hw) as (h1 & -> & W1 & A1 & E1 & S1).
  { intros c' Hc'. by eapply wf_valid_cell. }
  { lia. }
  cbn [mbind res_bind]. assert (h1 !! malloc h = None) as Hf.
  { pose proof (S1 (malloc h)) as E. rewrite malloc_fresh in E. by destruct (h1 !! malloc h). }
  destruct (alloc_wf h1 (c :: r) (malloc h) (second b) W1 Hf ltac:(lia)) as (W2 & A2 & E2).
  set (h2 := <[malloc h := Block 1 (second b)]> h1) in *. set (c' := Cell (payload_type (second b)) (malloc h)) in *.
  destruct (decref_wf h2 c (c' :: r)) as (h3 & -> & W3 & A3 & Sh & E3).
  { eapply wf_perm; [|exact W2]. apply perm_swap. }
  cbn [mbind res_bind]. exists h3, c'. assert (weight h2 (c :: c' :: r) = weight h2 (c' :: c :: r)) as E4.
  { unfold weight. cbn [app length]. lia. }
  assert (agrees (c :: r) h h2) as A4.
  { eapply agrees_trans; [done|]. eapply agrees_sub; [|done]. set_solver. }
  split_and!; [by rewrite <- Ht|done| |by rewrite <- Ht| | |lia].
  - eapply agrees_trans; [eapply agrees_sub; [|exact A4]|eapply agrees_sub; [|exact A3]]; set_solver.
  - intros n. rewrite (agrees_value _ _ _ _ _ A3) by left. destruct c as [ty l]. cbn [stored_type word] in *.
    unfold c'. rewrite Ht. eapply value_same; [done|apply lookup_insert_eq|done|done|].
    destruct A4 as (S & HS & HrS). exists S. split; [done|].
    destruct (HS l (HrS _ ltac:(left) Hp)) as (b1 & b2 & Hb1 & _ & _ & Hcl). simplify_eq. done.
  - intros Hp'. destruct (wf_valid _ _ _ W3 ltac:(left) Hp') as (b3 & Hb3 & Ht3). exists b3.
    destruct (sh_back _ _ Sh _ _ Hb3) as (b2 & Hb2 & _ & _ & Hle). cbn [word c'] in *.
    unfold h2 in Hb2. rewrite lookup_insert_eq in Hb2. injection Hb2 as <-.
    destruct (counted_lookup h3 c' r Hp' (wf_counted _ _ W3)) as (b4 & Hb4 & _ & _ & Hk). cbn [word c'] in *.
    simplify_eq. split_and!; [done|cbn in Hle; lia|done].
Qed.

(** ** Reset *)

Lemma denotes_new h p ty : h !! p = Some (Block 1 (new_payload ty)) -> is_ptr (Cell ty p) = true ->
  denotes h (Cell ty p) (reset ty).
Proof. intros Hp Ht. exists 1%nat. by destruct ty; try done; cbn; rewrite Hp. Qed.

Lemma reset_to_wf h c r ty : wf h (c :: r) -> weight h (c :: r) + 1 < 2 ^ 64 ->
  exists h' c', reset_to malloc h c ty = Fine (h', c') /\ wf h' (c' :: r) /\ agrees r h h' /\
    denotes h' c' (reset ty) /\ unique h' c' /\ stored_type c' = ty.
Proof.
  intros Hw Hb. unfold reset_to.
  destruct (decref_wf h c r Hw) as (h1 & -> & W1 & A1 & _ & E1). cbn [mbind res_bind].
  destruct (is_ptr (Cell ty 0)) eqn:Hp.
  - assert (cells (new_payload ty) = [] /\ payload_type (new_payload ty) = ty) as [Ec Ep] by (by destruct ty).
    destruct (alloc_wf h1 r (malloc h1) (new_payload ty)) as (W2 & A2 & _);
      [by rewrite Ec|done|rewrite Ec; cbn [app]; lia|]. rewrite Ec in A2. cbn [app] in A2. rewrite Ep in W2.
    exists (<[malloc h1 := Block 1 (new_payload ty)]> h1), (Cell ty (malloc h1)).
    split_and!; [by destruct ty|done|by eapply agrees_trans| | |done].
    + apply denotes_new; [apply lookup_insert_eq|by destruct ty].
    + intros _. exists (Block 1 (new_payload ty)). by rewrite lookup_insert_eq.
  - set (c' := Cell ty (if decide (ty = DATETIME) then dt_to_word (flex_date_time_new 0 0) else 0)).
    assert (is_ptr c' = false) as Hp' by (by destruct ty).
    exists h1, c'. split_and!; [by destruct ty| |done| |intros ?; congruence|done].
    + destruct (incref_wf h1 c' r) as (h2 & E2 & W2 & _); [done|intros ?; congruence|lia|].
      unfold incref in E2. rewrite Hp' in E2. by injection E2 as <-.
    + exists 1%nat. by destruct ty.
Qed.

Lemma wf_scalar h c c' r : is_ptr c' = false -> wf h (c :: r) -> is_ptr c = false -> wf h (c' :: r).
Proof.
  intros Hp' Hw Hp. destruct Hw as [C A G]. split; [|done..]. destruct C as [C V B]. split.
  - intros l b Hl. rewrite (C l b Hl). cbn [app].
    rewrite !cnt_cons, !decide_False by (intros []; congruence). done.
  - intros e [->|He]%elem_of_cons; [intros ?; congruence|]. apply V. by right.
  - done.
Qed.
End Allocator.
