(* ===== verification/FlexHeapSteps.v ===== *)
(** Programs over [flexible_type] objects: the reference-counted storage refines
    the view in which every variable holds a value of its own. *)
From Stdlib Require Import ZArith Lia List Bool Permutation.
From stdpp Require Import prelude fin_maps gmap.
From S2P Require Import Prelude.
From S2P Require Import Archive.
From S2P Require Import FlexibleType.
From S2P Require Import FlexibleOps.
From S2P Require Import FlexHeap.
From S2P Require Import FlexHeapCorrect.

(** ** The value-level meaning of a program *)

Section Spec.
Variable atof : bytes -> Z.

Definition on (A : gmap nat flexible_type) (x : nat) (f : flexible_type -> outcome flexible_type)
    : gmap nat flexible_type * bool :=
  match A !! x with
  | Some v => match f v with Ok w => (<[x := w]> A, false) | _ => (A, true) end
  | None => (A, true)
  end.
Definition from (A : gmap nat flexible_type) (s : source)
    (k : flexible_type -> gmap nat flexible_type * bool) : gmap nat flexible_type * bool :=
  match A !! s.1 with
  | Some v => match at_path v s.2 with Ok w => k w | _ => (A, true) end
  | None => (A, true)
  end.

(** Each variable holds a value of its own.  [stale] is the integer that an
    object is left with when its value is moved away. *)
Definition abs_exec (stale : Z) (o : op) (A : gmap nat flexible_type)
    : gmap nat flexible_type * bool :=
  match o with
  | Construct x | Reset x => (<[x := flex_default]> A, false)
  | ConstructType x ty | ResetTo x ty => (<[x := reset ty]> A, false)
  | CopyConstruct x s | CopyAssign x s => from A s (fun w => (<[x := w]> A, false))
  | MoveConstruct x y | MoveAssign x y =>
      if decide (x = y) then (A, false)
      else from A (y, []) (fun w => (<[y := FInt stale]> (<[x := w]> A), false))
  | Destroy x => (delete x A, false)
  | Assign x v => (<[x := v]> A, false)
  | Swap x y => from A (x, []) (fun v => from A (y, []) (fun w => (<[y := v]> (<[x := w]> A), false)))
  | PushBackFloat x i => on A x (FlexibleOps.push_back_float i)
  | PushBack x s => from A s (fun w => on A x (FlexibleOps.push_back atof w))
  | Resize x s => on A x (FlexibleOps.resize s)
  | Clear x => on A x FlexibleOps.clear
  | IndexAssign x index d => on A x (FlexibleOps.index_assign index d)
  | CallAssign x index s => from A s (fun w => on A x (array_assign index w))
  end.

(** What C++ asks of the program: objects are alive, indices are in range, and
    an operand is not inside the object that is assigned to or appended to. *)
Definition assignable (v : flexible_type) : Prop :=
  match v with
  | FInt i => is_s 64 i
  | FDateTime dt => dt_valid dt
  | FList _ | FDict _ => False
  | _ => True
  end.
Definition readable (A : gmap nat flexible_type) (s : source) : Prop :=
  exists v, A !! s.1 = Some v /\ at_path v s.2 <> Undef.
Definition enabled (o : op) (A : gmap nat flexible_type) : Prop :=
  match o with
  | Construct x | ConstructType x _ => A !! x = None
  | CopyConstruct x s => A !! x = None /\ readable A s
  | MoveConstruct x y => A !! x = None /\ is_Some (A !! y)
  | Destroy x | Reset x | ResetTo x _ | PushBackFloat x _ | Clear x => is_Some (A !! x)
  | Resize x s => is_Some (A !! x) /\ Z.of_nat s < 2 ^ 60
  | Assign x v => is_Some (A !! x) /\ assignable v
  | CopyAssign x s => is_Some (A !! x) /\ readable A s /\ (x <> s.1 \/ s.2 = [])
  | MoveAssign x y | Swap x y => is_Some (A !! x) /\ is_Some (A !! y)
  | PushBack x s => is_Some (A !! x) /\ readable A s /\ x <> s.1
  | IndexAssign x index d => exists v, A !! x = Some v /\ FlexibleOps.index_assign index d v <> Undef
  | CallAssign x index s =>
      (exists v, A !! x = Some v /\ forall l, v = FList l -> (index < length l)%nat) /\
      readable A s /\ x <> s.1
  end.
End Spec.

(** ** Frame properties: a release does not touch a block it cannot reach *)

Lemma destroy_all_frame dec1 dec2 L b :
  (forall h c h', h !! L = None -> dec1 h c = Fine h' ->
     dec2 (<[L := b]> h) c = Fine (<[L := b]> h') /\ h' !! L = None) ->
  forall cs h h', h !! L = None -> destroy_all dec1 cs h = Fine h' ->
    destroy_all dec2 cs (<[L := b]> h) = Fine (<[L := b]> h') /\ h' !! L = None.
Proof.
  intros Hd. induction cs as [|c cs IH]; intros h h' HL E; cbn [destroy_all] in *; [by simplify_eq|].
  destruct (dec1 h c) as [h1|] eqn:E1; [|done]. cbn in E.
  destruct (Hd _ _ _ HL E1) as [-> HL1]. cbn. by apply IH.
Qed.

Lemma decref_fuel_frame L b n : forall m h c h', (n <= m)%nat -> h !! L = None ->
  decref_fuel n h c = Fine h' ->
  decref_fuel m (<[L := b]> h) c = Fine (<[L := b]> h') /\ h' !! L = None.
Proof.
  induction n as [|n IH]; intros [|m] h c h' Hm HL E; try done; [lia|]. cbn [decref_fuel] in *.
  destruct (is_ptr c); [|by simplify_eq].
  destruct (deref h (stored_type c) (word c)) as [b0|] eqn:Ed; [|done]. cbn in E.
  assert (word c <> L) as Hne by (intros <-; unfold deref in Ed; by rewrite HL in Ed).
  assert (deref (<[L := b]> h) (stored_type c) (word c) = Fine b0) as ->.
  { unfold deref in *. by rewrite lookup_insert_ne. }
  cbn. rewrite insert_insert_ne by done.
  destruct (u64 (first b0 - 1) =? 0); [|simplify_eq; by rewrite lookup_insert_ne].
  match type of E with (_ ← ?t; _) = _ => destruct t as [h2|] eqn:E2; [|done] end. cbn in E.
  injection E as <-. eapply (destroy_all_frame (decref_fuel n) (decref_fuel m) L b) in E2 as [E2 HL2].
  - rewrite E2. cbn. rewrite delete_insert_ne by done. by rewrite lookup_delete_ne.
  - intros. apply IH; [lia|done..].
  - by rewrite lookup_insert_ne.
Qed.

Lemma decref_frame L b h c h' : h !! L = None -> decref h c = Fine h' ->
  decref (<[L := b]> h) c = Fine (<[L := b]> h') /\ h' !! L = None.
Proof.
  intros HL. apply decref_fuel_frame; [|done]. rewrite map_size_insert_None by done. lia.
Qed.
Lemma incref_frame L b h c h' : h !! L = None -> incref h c = Fine h' ->
  incref (<[L := b]> h) c = Fine (<[L := b]> h') /\ h' !! L = None.
Proof.
  intros HL. unfold incref. destruct (is_ptr c); [|by intros [= ->]].
  unfold deref. destruct (h !! word c) as [b0|] eqn:Hb; [|done].
  assert (word c <> L) by (intros <-; congruence).
  rewrite lookup_insert_ne, Hb by done. case_decide; [|done]. cbn. intros [= <-].
  rewrite insert_insert_ne by done. by rewrite lookup_insert_ne.
Qed.

(** ** One operation *)

(** Far fewer objects than there are addresses *)
Definition fits (st : state) : Prop := weight (mem st) (roots st) < 2 ^ 60.

Lemma weight_perm h r r' : r ≡ₚ r' -> weight h r = weight h r'.
Proof. intros E. unfold weight. by rewrite E. Qed.
Lemma weight_nonneg h r : 0 <= weight h r.
Proof. unfold weight. lia. Qed.

Lemma load_var st x c : vars st !! x = Some c -> load st (LVar x) = Fine c.
Proof. intros Hx. cbn. by rewrite Hx. Qed.

Lemma with_var_twice st x c c' h h' : with_var (with_var st x c h) x c' h' = with_var st x c' h'.
Proof. unfold with_var. cbn [vars]. by rewrite insert_insert_eq. Qed.
Lemma ok_var st x c : ok st -> vars st !! x = Some c -> wf (mem st) (c :: rest st x).
Proof. intros Hok Hx. eapply wf_perm; [by apply roots_var|done]. Qed.
Lemma fits_var st x c : fits st -> vars st !! x = Some c -> weight (mem st) (c :: rest st x) < 2 ^ 60.
Proof. intros Hf Hx. by rewrite <- (weight_perm _ _ _ (roots_var st x c Hx)). Qed.

Lemma wf_push_scalar h r c : is_ptr c = false -> weight h r + 1 < 2 ^ 64 -> wf h r -> wf h (c :: r).
Proof.
  intros Hp Hb Hw. destruct (incref_wf h c r Hw) as (h' & E & W & _); [intros ?; congruence|done|].
  unfold incref in E. rewrite Hp in E. by injection E as <-.
Qed.

Lemma set_payload_fine h c b p : h !! word c = Some b -> payload_type (second b) = payload_type p ->
  set_payload h c p = Fine (<[word c := Block (first b) p]> h).
Proof. intros Hb Ht. unfold set_payload. by rewrite (deref_fine _ _ _ _ Hb Ht). Qed.

Section Steps.
Context (malloc : heap -> Z) (malloc_fresh : forall h, h !! malloc h = None) (atof : bytes -> Z).

(** The operation runs without a fault and does on values what [abs_exec] says. *)
Definition simulated (o : op) (st : state) (A : gmap nat flexible_type) : Prop :=
  exists st' stale, exec malloc atof o st = Fine (st', (abs_exec atof stale o A).2) /\
    ok st' /\ abs st' (abs_exec atof stale o A).1.

(** *** Scalars, reset and destruction *)

Lemma step_new st A x c v : ok st -> fits st -> abs st A -> A !! x = None ->
  is_ptr c = false -> denotes (mem st) c v ->
  ok (new_var st x c) /\ abs (new_var st x c) (<[x := v]> A).
Proof.
  intros Hok Hf Ha Hx Hp Hd. apply (abs_none st) in Hx; [|done]. apply set_var; [done| | |done].
  - rewrite rest_new by done. apply wf_push_scalar; [done| |done]. unfold fits in Hf. lia.
  - rewrite rest_new by done. by apply agrees_refl.
Qed.

Lemma step_construct st A x : ok st -> fits st -> abs st A -> enabled (Construct x) A ->
  simulated (Construct x) st A.
Proof.
  intros Hok Hf Ha He. exists (new_var st x (Cell INTEGER 0)), 0. split; [done|].
  apply step_new; try done. by exists 1%nat.
Qed.

Lemma step_construct_type st A x ty : ok st -> fits st -> abs st A -> enabled (ConstructType x ty) A ->
  simulated (ConstructType x ty) st A.
Proof.
  intros Hok Hf Ha Hx. cbn in Hx. apply (abs_none st) in Hx; [|done].
  destruct (reset_to_wf malloc malloc_fresh (mem st) (Cell INTEGER 0) (roots st) ty) as (h & c & E & W & Ag & D & _).
  { apply wf_push_scalar; [done| |done]. unfold fits in Hf. lia. }
  { unfold fits, weight in *. cbn [app length]. lia. }
  exists (with_var st x c h), 0. cbn [exec]. rewrite E. split; [done|].
  apply set_var; rewrite ?rest_new; done.
Qed.

Lemma step_reset_to st A x ty : ok st -> fits st -> abs st A -> enabled (ResetTo x ty) A ->
  simulated (ResetTo x ty) st A.
Proof.
  intros Hok Hf Ha [v Hx]. destruct (abs_lookup st A x v Ha Hx) as (c & Hc & _).
  destruct (reset_to_wf malloc malloc_fresh (mem st) c (rest st x) ty) as (h & c' & E & W & Ag & D & _);
    [by apply ok_var|pose proof (fits_var st x c Hf Hc); lia|].
  exists (with_var st x c' h), 0. cbn [exec]. rewrite (load_var st x c Hc). cbn [mbind res_bind]. rewrite E. split; [done|].
  by apply set_var.
Qed.

Lemma step_reset st A x : ok st -> fits st -> abs st A -> enabled (Reset x) A -> simulated (Reset x) st A.
Proof.
  intros Hok Hf Ha [v Hx]. destruct (abs_lookup st A x v Ha Hx) as (c & Hc & _).
  destruct (decref_wf (mem st) c (rest st x)) as (h & E & W & Ag & _ & Ew); [by apply ok_var|].
  pose proof (fits_var st x c Hf Hc).
  exists (with_var st x (Cell INTEGER 0) h), 0. cbn [exec]. rewrite (load_var st x c Hc). cbn [mbind res_bind].
  unfold reset_cell. rewrite E. split; [done|]. apply set_var; try done; [|by exists 1%nat].
  apply wf_push_scalar; [done|lia|done].
Qed.

Lemma step_destroy st A x : ok st -> abs st A -> enabled (Destroy x) A -> simulated (Destroy x) st A.
Proof.
  intros Hok Ha [v Hx]. destruct (abs_lookup st A x v Ha Hx) as (c & Hc & _).
  destruct (decref_wf (mem st) c (rest st x)) as (h & E & W & Ag & _); [by apply ok_var|].
  exists (State (delete x (vars st)) h), 0. cbn [exec]. rewrite (load_var st x c Hc). cbn [mbind res_bind].
  unfold reset_cell. rewrite E. split; [done|]. by apply delete_var.
Qed.

(** *** Assignment of a value *)

Lemma ensure_unique_id h c : unique h c -> ensure_unique malloc h c = Fine (h, c).
Proof.
  intros Hu. unfold ensure_unique. destruct (is_ptr c) eqn:Hp; [|done].
  destruct (Hu Hp) as (b & Hb & H1 & Ht). rewrite (deref_fine _ _ _ _ Hb Ht). cbn [mbind res_bind].
  by rewrite H1.
Qed.

Ltac flat_payload :=
  lazymatch goal with
  | |- cells ?p = [] => by destruct p
  | |- denotes _ _ _ => exists 1%nat; cbn; by rewrite lookup_insert_eq
  end.

(** A payload without objects is overwritten. *)
Lemma write_flat st A x c h v p b : abs st A -> wf h (c :: rest st x) -> agrees (rest st x) (mem st) h ->
  is_ptr c = true -> h !! word c = Some b -> first b = 1 -> payload_type (second b) = stored_type c ->
  payload_type p = stored_type c -> cells p = [] -> cells (second b) = [] ->
  denotes (<[word c := Block (first b) p]> h) c v ->
  exists h', set_payload h c p = Fine h' /\ ok (with_var st x c h') /\ abs (with_var st x c h') (<[x := v]> A).
Proof.
  intros Ha W Ag Hp Hb H1 Hb' Ht Ec Eb D. eexists. split; [apply set_payload_fine; [done|congruence]|].
  destruct (write_wf h c (rest st x) b p (rest st x)) as (W' & Ag' & _); [done..|by rewrite Ec, Eb|].
  apply set_var; try done. eapply agrees_trans; [done|]. by rewrite Eb in Ag'.
Qed.

Lemma step_assign st A x v : ok st -> fits st -> abs st A -> enabled (Assign x v) A ->
  simulated (Assign x v) st A.
Proof.
  intros Hok Hf Ha [[v0 Hx] Hv]. destruct (abs_lookup st A x v0 Ha Hx) as (c & Hc & _).
  pose proof (fits_var st x c Hf Hc).
  destruct (reset_to_wf malloc malloc_fresh (mem st) c (rest st x) (get_type v))
    as (h & c' & E & W & Ag & D & U & Et); [by apply ok_var|lia|].
  assert (exists st', assign malloc st x v = Fine st' /\ ok st' /\ abs st' (<[x := v]> A)) as (st' & E' & Hok' & Ha').
  2:{ exists st', 0. cbn [exec]. unfold done_. by rewrite E'. }
  unfold assign. rewrite (load_var st x c Hc). cbn [mbind res_bind]. rewrite E.
  cbn [mbind res_bind]. rewrite (ensure_unique_id h c' U). cbn [mbind res_bind].
  destruct c' as [ty l]. cbn [stored_type] in Et. subst ty. cbn [stored_type].
  destruct v as [i|bits|s|w|ls|d|dt| |img]; cbn [get_type assignable] in *; try done.
  - eexists. split; [done|]. apply set_var; [done|by eapply wf_scalar; [|exact W|]|done|].
    exists 1%nat. cbn. rewrite signed_wrap; done.
  - eexists. split; [done|]. apply set_var; [done|by eapply wf_scalar; [|exact W|]|done|]. by exists 1%nat.
  - destruct (U eq_refl) as (b & Hb & H1 & Hb'). cbn [word] in Hb.
    destruct (write_flat st A x (Cell STRING l) h (FString s) (PString s) b) as (h' & -> & R);
      try (done || flat_payload). eauto.
  - destruct (U eq_refl) as (b & Hb & H1 & Hb'). cbn [word] in Hb.
    destruct (write_flat st A x (Cell VECTOR l) h (FVector w) (PVector w) b) as (h' & -> & R);
      try (done || flat_payload). eauto.
  - eexists. split; [done|]. apply set_var; [done|by eapply wf_scalar; [|exact W|]|done|].
    exists 1%nat. cbn. by rewrite dt_word_roundtrip.
  - eexists. split; [done|]. by apply set_var.
  - destruct (U eq_refl) as (b & Hb & H1 & Hb'). cbn [word] in Hb.
    destruct (write_flat st A x (Cell IMAGE l) h (FImage img) (PImage img) b) as (h' & -> & R);
      try (done || flat_payload). eauto.
Qed.

(** *** Copy, move and swap *)

(** The source operand [s] does not live in [x]: whatever happens to [x], it can
    still be read and keeps its value. *)
Lemma source_ok st A s x : ok st -> abs st A -> readable A s -> x <> s.1 ->
  exists v, A !! s.1 = Some v /\
  ((at_path v s.2 = Throws /\ resolve st (LVar s.1) s.2 = Fine None) \/
   exists r e w, at_path v s.2 = Ok w /\ resolve st (LVar s.1) s.2 = Fine (Some r) /\
     denotes (mem st) e w /\ r <> LVar x /\
     forall h' V, agrees (rest st x) (mem st) h' -> V !! s.1 = vars st !! s.1 ->
       load (State V h') r = Fine e /\ agrees [e] (mem st) h').
Proof.
  intros Hok Ha (v & Hv & Hu) Hne. exists v. split; [done|].
  destruct (abs_lookup st A _ v Ha Hv) as (c & Hc & Hd). pose proof (rest_elem st x _ c Hne Hc) as Hin.
  assert (forall h', agrees (rest st x) (mem st) h' -> agrees [c] (mem st) h') as Hsub.
  { intros h'. apply agrees_sub. intros c' ->%list_elem_of_singleton. done. }
  assert (agrees (rest st x) (mem st) (mem st)) as Hrefl.
  { eapply agrees_sub; [|by apply agrees_refl]. intros e ([z e'] & -> & Hz)%list_elem_of_fmap.
    apply elem_of_map_to_list, lookup_delete_Some in Hz as [_ Hz]. apply list_elem_of_fmap.
    exists (z, e'). split; [done|]. by apply elem_of_map_to_list. }
  destruct (resolve_spec st (mem st) s.2 (LVar s.1) c v) as [?|(r & e & w & E1 & E2 & E3 & E4 & _ & E5)];
    [by apply load_var|done|by apply Hsub|done|by left|].
  right. exists r, e, w. split_and!; try done.
  { destruct E5 as [->|(l & i & -> & _)]; [|done]. congruence. }
  intros h' V Hag HV.
  destruct (resolve_spec st h' s.2 (LVar s.1) c v) as [[? ?]|(r' & e' & w' & E1' & E2' & E3' & _ & Hag' & E5')];
    [by apply load_var|done|by apply Hsub|done|congruence|].
  rewrite E2 in E2'. injection E2' as <-. rewrite E3 in E3'. injection E3' as <-. split; [|done].
  destruct E5' as [->|(l & i & -> & El)]; [|done]. cbn in *. by rewrite HV.
Qed.

Lemma copy_assign_step st x c A r e w : wf (mem st) (c :: rest st x) -> vars st !! x = Some c -> abs st A ->
  weight (mem st) (c :: rest st x) < 2 ^ 62 -> r <> LVar x -> denotes (mem st) e w ->
  (forall h', agrees (rest st x) (mem st) h' ->
     load (with_mem st h') r = Fine e /\ agrees [e] (mem st) h') ->
  exists st', copy_assign st (LVar x) r = Fine st' /\ ok st' /\ abs st' (<[x := w]> A).
Proof.
  intros W Hx Ha Hf Hr Hd Hs. unfold copy_assign. rewrite decide_False by done.
  rewrite (load_var st x c Hx). cbn [mbind res_bind].
  destruct (decref_wf (mem st) c (rest st x) W) as (h1 & -> & W1 & A1 & _ & E1). cbn [mbind res_bind].
  destruct (Hs h1 A1) as [-> Ae]. cbn [mbind res_bind store].
  assert (denotes h1 e w) as Hd1 by (eapply agrees_denotes; [done|left|done]).
  destruct (incref_wf h1 e (rest st x) W1) as (h2 & E2 & W2 & A2 & _); [by eapply denotes_valid|lia|].
  cbn [mem with_mem vars]. rewrite E2. cbn [mbind res_bind]. eexists. split; [done|].
  assert (agrees (rest st x) (mem st) h2) as A3 by (by eapply agrees_trans).
  destruct (Hs h2 A3) as [_ Ae2]. apply (set_var st x e h2); try done. by eapply agrees_denotes; [|left|].
Qed.

Lemma step_copy_assign st A x s : ok st -> fits st -> abs st A -> enabled (CopyAssign x s) A ->
  simulated (CopyAssign x s) st A.
Proof.
  intros Hok Hf Ha ([v0 Hx] & Hr & Hal). destruct (abs_lookup st A x v0 Ha Hx) as (c & Hc & Hd).
  destruct (decide (x = s.1)) as [E|Hne].
  - destruct Hal as [?|E2]; [done|]. destruct s as [y p]. cbn in *. subst y p.
    exists st, 0. unfold exec, with_source, abs_exec, from. cbn [fst snd resolve mbind res_bind]. unfold copy_assign.
    rewrite decide_True by done. cbn. rewrite Hx. cbn. split_and!; try done. by rewrite insert_id.
  - destruct (source_ok st A s x Hok Ha Hr Hne) as (v & Hv & [[E1 E2]|(r & e & w & E1 & E2 & Hde & Hrx & Hl)]).
    + exists st, 0. unfold exec, with_source, abs_exec, from. rewrite E2, Hv, E1. done.
    + destruct (copy_assign_step st x c A r e w) as (st' & E & Hok' & Ha'); try done; [by apply ok_var| | |].
      { pose proof (fits_var st x c Hf Hc). lia. }
      { intros h' Hag. by apply Hl. }
      exists st', 0. unfold exec, with_source, abs_exec, from, done_. rewrite E2, Hv, E1. cbn. by rewrite E.
Qed.

Lemma step_copy_construct st A x s : ok st -> fits st -> abs st A -> enabled (CopyConstruct x s) A ->
  simulated (CopyConstruct x s) st A.
Proof.
  intros Hok Hf Ha (Hx & Hr). assert (x <> s.1) as Hne by (destruct Hr as (? & ? & _); congruence).
  destruct (source_ok st A s x Hok Ha Hr Hne) as (v & Hv & [[E1 E2]|(r & e & w & E1 & E2 & Hde & Hrx & Hl)]).
  - exists st, 0. unfold exec, with_source, abs_exec, from. rewrite E2, Hv, E1. done.
  - set (st0 := new_var st x (Cell INTEGER 0)).
    assert (vars st0 !! x = Some (Cell INTEGER 0)) as Hx0 by apply lookup_insert_eq.
    assert (rest st0 x = rest st x) as Er.
    { unfold rest, st0, new_var, with_var. cbn [vars]. by rewrite delete_insert_eq. }
    destruct (step_new st A x (Cell INTEGER 0) flex_default) as [Hok0 Ha0]; try done; [by exists 1%nat|].
    destruct (copy_assign_step st0 x (Cell INTEGER 0) _ r e w (ok_var st0 x _ Hok0 Hx0) Hx0 Ha0)
      as (st' & E & Hok' & Ha'); try done.
    { rewrite Er, rest_new by (by eapply abs_none). unfold fits, weight in *. cbn [app length mem st0 new_var with_var]. lia. }
    { rewrite Er. intros h' Hag. apply Hl; [done|]. cbn. by rewrite lookup_insert_ne. }
    rewrite insert_insert_eq in Ha'.
    exists st', 0. unfold exec, with_source, abs_exec, from, done_. rewrite E2, Hv, E1. cbn. fold st0. by rewrite E.
Qed.

Lemma rest_swap st x y c h : x <> y -> vars st !! y = Some c -> rest (with_var st x c h) y ≡ₚ rest st x.
Proof.
  intros Hne Hy. unfold rest, with_var. cbn [vars]. rewrite delete_insert_ne by done.
  rewrite <- insert_delete_eq, map_to_list_insert by apply lookup_delete_eq.
  rewrite delete_delete. rewrite <- (insert_delete_id (delete x (vars st)) y c) at 2
    by (by rewrite lookup_delete_ne).
  by rewrite map_to_list_insert by apply lookup_delete_eq.
Qed.

Lemma move_step st x y c h A w : x <> y -> vars st !! y = Some c -> wf h (rest st x) ->
  agrees (rest st x) (mem st) h -> weight h (rest st x) + 1 < 2 ^ 64 -> abs st A -> A !! y = Some w ->
  let st' := State (<[y := Cell INTEGER (word c)]> (<[x := c]> (vars st))) h in
  ok st' /\ abs st' (<[y := FInt (i64 (word c))]> (<[x := w]> A)).
Proof.
  intros Hne Hy W Ag Hb Ha Hw st'. pose proof (rest_elem st x y c Hne Hy) as Hin.
  destruct (abs_lookup st A y w Ha Hw) as (c' & Hc' & Hd). rewrite Hy in Hc'. injection Hc' as <-.
  set (st1 := with_var st x c h).
  assert (abs st1 (<[x := w]> A)) as Ha1 by (apply abs_set; [done|done|by eapply agrees_denotes]).
  pose proof (rest_swap st x y c h Hne Hy) as Er. fold st1 in Er.
  assert (wf h (rest st1 y)) as W1 by (eapply wf_perm; [symmetry; exact Er|done]).
  apply (set_var st1 y (Cell INTEGER (word c)) h); [done| |by apply agrees_refl|by exists 1%nat].
  apply wf_push_scalar; [done| |done]. by rewrite (weight_perm _ _ _ Er).
Qed.

Lemma step_move_assign st A x y : ok st -> fits st -> abs st A -> enabled (MoveAssign x y) A ->
  simulated (MoveAssign x y) st A.
Proof.
  intros Hok Hf Ha ([v Hx] & [w Hy]). destruct (abs_lookup st A x v Ha Hx) as (c & Hc & Hd).
  destruct (abs_lookup st A y w Ha Hy) as (d & Hd' & _). destruct (decide (x = y)) as [<-|Hne].
  { exists st, 0. unfold exec, done_, move_assign, abs_exec. by rewrite !decide_True by done. }
  destruct (decref_wf (mem st) c (rest st x)) as (h1 & E1 & W1 & A1 & _ & Ew); [by apply ok_var|].
  pose proof (fits_var st x c Hf Hc).
  destruct (move_step st x y d h1 A w) as [Hok' Ha']; try done; [lia|].
  eexists _, (i64 (word d)). unfold exec, done_, move_assign, abs_exec. rewrite !decide_False by congruence.
  rewrite (load_var st x c Hc). cbn [mbind res_bind]. rewrite E1. cbn [mbind res_bind].
  cbn [load with_mem vars mem]. rewrite Hd'. cbn. unfold from. cbn. rewrite Hy. done.
Qed.

Lemma step_move_construct st A x y : ok st -> fits st -> abs st A -> enabled (MoveConstruct x y) A ->
  simulated (MoveConstruct x y) st A.
Proof.
  intros Hok Hf Ha (Hx & [w Hy]). assert (x <> y) as Hne by congruence.
  destruct (abs_lookup st A y w Ha Hy) as (d & Hd' & _). pose proof (abs_none _ _ _ Ha Hx) as Hx'.
  destruct (move_step st x y d (mem st) A w) as [Hok' Ha']; try done.
  { by rewrite rest_new. }
  { rewrite rest_new by done. by apply agrees_refl. }
  { rewrite rest_new by done. unfold fits in Hf. lia. }
  eexists _, (i64 (word d)). unfold exec, done_, abs_exec. rewrite !decide_False by congruence.
  rewrite (load_var st y d Hd'). cbn. unfold from. cbn. rewrite Hy. done.
Qed.

Lemma step_swap st A x y : ok st -> abs st A -> enabled (Swap x y) A -> simulated (Swap x y) st A.
Proof.
  intros Hok Ha ([v Hx] & [w Hy]). destruct (abs_lookup st A x v Ha Hx) as (c & Hc & Hdc).
  destruct (abs_lookup st A y w Ha Hy) as (d & Hd & Hdd).
  eexists _, 0. unfold exec, done_, swap, abs_exec, from. rewrite (load_var st x c Hc), (load_var st y d Hd).
  cbn. rewrite Hx, Hy. split; [done|]. cbn. destruct (decide (x = y)) as [<-|Hne].
  { assert (c = d) as <- by congruence. assert (v = w) as <- by congruence.
    rewrite !insert_insert_eq, !insert_id by done. by destruct st. }
  pose proof (rest_swap st x y d (mem st) Hne Hd) as Er. set (st1 := with_var st x d (mem st)) in *.
  pose proof (ok_var st x c Hok Hc) as W.
  assert (agrees (rest st x) (mem st) (mem st)) as Hag.
  { eapply agrees_sub; [|by apply agrees_refl]. set_solver. }
  apply (set_var st1 y c (mem st)).
  - by apply abs_set.
  - eapply wf_perm; [|exact W]. by rewrite Er.
  - eapply agrees_sub; [|exact Hag]. intros e. by rewrite Er.
  - done.
Qed.

(** *** In-place modification *)

Lemma prepare st A x v : ok st -> fits st -> abs st A -> A !! x = Some v ->
  exists c h c', load st (LVar x) = Fine c /\ ensure_unique malloc (mem st) c = Fine (h, c') /\
    wf h (c' :: rest st x) /\ agrees (rest st x) (mem st) h /\ unique h c' /\ denotes h c' v /\
    stored_type c' = get_type v /\ weight h (c' :: rest st x) < 2 ^ 61 /\
    ok (with_var st x c' h) /\ abs (with_var st x c' h) A.
Proof.
  intros Hok Hf Ha Hx. destruct (abs_lookup st A x v Ha Hx) as (c & Hc & [n Hn]).
  pose proof (fits_var st x c Hf Hc).
  destruct (ensure_unique_wf malloc malloc_fresh (mem st) c (rest st x)) as (h & c' & E & W & Ag & Et & Ev & U & Ew);
    [by apply ok_var|lia|].
  assert (denotes h c' v) as Hd by (exists n; by rewrite Ev).
  destruct (set_var st x c' h A v) as [Hok' Ha']; try done. rewrite insert_id in Ha' by done.
  exists c, h, c'. split_and!; try done; [by apply load_var|by apply denotes_type in Hd|lia].
Qed.

Lemma denotes_vec_inv h l v : denotes h (Cell VECTOR l) (FVector v) ->
  exists k, h !! l = Some (Block k (PVector v)).
Proof.
  intros [[|n] Hn]; [done|]. cbn in Hn. apply bind_Some in Hn as ([k p] & Hb & Hn). cbn in Hn.
  destruct p; simplify_eq. by exists k.
Qed.

(** Replacing the vector of a vector object *)
Lemma modify_vec st A x c h v w : abs st A -> wf h (c :: rest st x) -> agrees (rest st x) (mem st) h ->
  unique h c -> stored_type c = VECTOR -> denotes h c (FVector v) ->
  exists k h', deref h VECTOR (word c) = Fine (Block k (PVector v)) /\
    set_payload h c (PVector w) = Fine h' /\
    ok (with_var st x c h') /\ abs (with_var st x c h') (<[x := FVector w]> A).
Proof.
  intros Ha W Ag U Et Hd. destruct c as [ty l]. cbn [stored_type] in Et. subst ty. cbn [word].
  destruct (denotes_vec_inv h l v Hd) as [k Hk]. destruct (U eq_refl) as (b & Hb & H1 & Ht). cbn [word] in Hb.
  rewrite Hk in Hb. injection Hb as <-.
  destruct (write_flat st A x (Cell VECTOR l) h (FVector w) (PVector w) (Block k (PVector v)))
    as (h' & E & R); try (done || flat_payload).
  exists k, h'. split; [by apply deref_fine|done].
Qed.

Lemma agrees_payloads h h' r cs : wf h r -> same_payloads h h' -> (forall c, c ∈ cs -> valid h c) ->
  agrees cs h h'.
Proof.
  intros W E Hv. exists (fun l => is_Some (h !! l)). split.
  - eapply wf_closed; [done|]. intros l b Hb. specialize (E l). rewrite Hb in E.
    destruct (h' !! l) as [b'|]; [|done]. cbn in E. injection E as E. by exists b'.
  - intros c Hc Hp. destruct (Hv c Hc Hp) as (b & -> & _). done.
Qed.

Lemma incref_other h e h' l : incref h e = Fine h' -> (is_ptr e = true -> word e <> l) -> h' !! l = h !! l.
Proof.
  unfold incref. intros E Hne. destruct (is_ptr e); [|by simplify_eq].
  destruct (deref _ _ _); [|done]. cbn in E. injection E as <-. by rewrite lookup_insert_ne by auto.
Qed.

Lemma unique_list h c vs : unique h c -> stored_type c = LIST -> denotes h c (FList vs) ->
  exists cs, h !! word c = Some (Block 1 (PList cs)) /\ Forall2 (denotes h) cs vs.
Proof.
  intros U Et Hd. destruct c as [ty l]. cbn [stored_type word] in *. subst ty.
  destruct (denotes_list_inv h l _ Hd) as (k & cs & vs' & Hk & [= <-] & Hf).
  destruct (U eq_refl) as (b & Hb & H1 & _). cbn [word] in Hb. rewrite Hk in Hb. injection Hb as <-.
  cbn in H1. subst k. by exists cs.
Qed.
Lemma Forall2_denotes h h' cs vs : agrees cs h h' -> Forall2 (denotes h) cs vs -> Forall2 (denotes h') cs vs.
Proof.
  intros Ha H. apply Forall2_same_length_lookup in H as [Hl H]. apply Forall2_same_length_lookup.
  split; [done|]. intros i c v Hc Hv. eapply agrees_denotes; [done|by eapply list_elem_of_lookup_2|by eauto].
Qed.
Lemma Forall2_valid h cs vs c : Forall2 (denotes h) cs vs -> c ∈ cs -> valid h c.
Proof.
  intros Hf [i Hi]%list_elem_of_lookup. destruct (Forall2_lookup_l _ _ _ _ _ Hf Hi) as (v & _ & Hd).
  by eapply denotes_valid.
Qed.

(** Appending the object [e] to a list object *)
Lemma append_list st A x c h vs e w : abs st A -> wf h (c :: rest st x) -> agrees (rest st x) (mem st) h ->
  unique h c -> stored_type c = LIST -> denotes h c (FList vs) -> denotes h e w ->
  (is_ptr e = true -> word e <> word c) -> weight h (c :: rest st x) + 1 < 2 ^ 64 ->
  exists cs h1 h2, deref h LIST (word c) = Fine (Block 1 (PList cs)) /\ incref h e = Fine h1 /\
    set_payload h1 c (PList (cs ++ [e])) = Fine h2 /\
    ok (with_var st x c h2) /\ abs (with_var st x c h2) (<[x := FList (vs ++ [w])]> A).
Proof.
  intros Ha W Ag U Et Hd He Hne Hb. destruct (unique_list h c vs U Et Hd) as (cs & Hk & Hf).
  destruct (incref_wf h e _ W) as (h1 & E1 & W1 & A1 & _ & S1); [by eapply denotes_valid|done|].
  assert (h1 !! word c = Some (Block 1 (PList cs))) as Hk1 by (by rewrite (incref_other h e h1)).
  assert (is_ptr c = true) as Hp by (unfold is_ptr; by rewrite Et).
  destruct (write_wf h1 c (e :: rest st x) (Block 1 (PList cs)) (PList (cs ++ [e])) (rest st x)) as (W2 & A2 & _ & _);
    [by eapply wf_perm; [apply perm_swap|]|done..| |].
  { cbn [cells second]. by rewrite <- app_assoc. }
  assert (agrees (cs ++ [e]) h h1) as A3.
  { eapply agrees_payloads; [done|done|]. intros c' [Hc'| ->%list_elem_of_singleton]%elem_of_app;
      [by eapply Forall2_valid|by eapply denotes_valid]. }
  eexists cs, h1, _. split; [by apply deref_fine|]. split; [done|]. split; [by apply set_payload_fine|].
  apply set_var; [done|done| |].
  - eapply agrees_trans; [done|]. eapply agrees_trans; [eapply agrees_sub; [|exact A1]|eapply agrees_sub; [|exact A2]];
      cbn [cells second]; set_solver.
  - destruct c as [ty l]; cbn [stored_type word] in *; subst ty. eapply denotes_list; [apply lookup_insert_eq|].
    eapply Forall2_denotes; [eapply agrees_sub; [|exact A2]; cbn [cells second]; set_solver|].
    eapply Forall2_denotes; [exact A3|]. by apply Forall2_app; [|constructor].
Qed.

Lemma step_push_back_float st A x i : ok st -> fits st -> abs st A -> enabled (PushBackFloat x i) A ->
  simulated (PushBackFloat x i) st A.
Proof.
  intros Hok Hf Ha [v Hx]. destruct (prepare st A x v Hok Hf Ha Hx)
    as (c & h & c' & El & Eu & W & Ag & U & Hd & Et & Ew & Hok1 & Ha1).
  unfold simulated, exec, push_back_float, abs_exec, on. rewrite El. cbn [mbind res_bind]. rewrite Eu.
  cbn [mbind res_bind]. rewrite Hx, Et.
  destruct v as [| | |v|vs| | | |]; cbn [get_type FlexibleOps.push_back_float];
    try (exists (with_var st x c' h), 0; done).
  - destruct (modify_vec st A x c' h v (v ++ [i])) as (k & h' & -> & E & R1 & R2); try done.
    cbn. rewrite E. by exists (with_var st x c' h'), 0.
  - destruct (append_list st A x c' h vs (Cell FLOAT i) (FFloat i)) as (cs & h1 & h2 & -> & E1 & E2 & R1 & R2);
      try done; [by exists 1%nat|lia|].
    injection E1 as <-. cbn. rewrite E2. by exists (with_var st x c' h2), 0.
Qed.

Lemma load_elem st x c h r e : r <> LVar x -> alive h -> load (with_var st x c h) r = Fine e ->
  e ∈ rest st x ++ live_cells h.
Proof.
  intros Hr Hal E. apply elem_of_app. destruct r as [y|l i]; cbn in E.
  - left. assert (x <> y) as Hne by congruence. rewrite lookup_insert_ne in E by done.
    destruct (vars st !! y) as [d|] eqn:Hy; [|done]. injection E as <-. by eapply rest_elem.
  - right. unfold deref in E. destruct (h !! l) as [b|] eqn:Hb; [|done]. case_decide; [|done]. cbn in E.
    destruct (cells (second b) !! i) as [d|] eqn:Hd; [|done]. injection E as <-.
    eapply alive_cells; [done|done|]. by eapply list_elem_of_lookup_2.
Qed.

Lemma cell_to_float_spec h e w : denotes h e w ->
  cell_to_float atof h e = Fine (get_float_visitor atof w).
Proof.
  intros [[|n] Hn]; [done|]. destruct e as [ty l]. cbn in *. unfold cell_to_float. cbn [stored_type word].
  destruct ty; simplify_eq; try done; apply bind_Some in Hn as ([k p] & Hb & Hn); cbn in Hn;
    destruct p; simplify_eq; try done; try (by apply fmap_Some in Hn as (? & _ & ->)).
  by rewrite (deref_fine _ _ _ _ Hb).
Qed.

Lemma step_push_back st A x s : ok st -> fits st -> abs st A -> enabled (PushBack x s) A ->
  simulated (PushBack x s) st A.
Proof.
  intros Hok Hf Ha ([v Hx] & Hr & Hne).
  destruct (source_ok st A s x Hok Ha Hr Hne) as (v0 & Hv & [[E1 E2]|(r & e & w & E1 & E2 & Hde & Hrx & Hl)]).
  { exists st, 0. unfold exec, with_source, abs_exec, from. by rewrite E2, Hv, E1. }
  destruct (prepare st A x v Hok Hf Ha Hx) as (c & h & c' & El & Eu & W & Ag & U & Hd & Et & Ew & Hok1 & Ha1).
  destruct (Hl h (<[x := c']> (vars st)) Ag) as [Ele Age]; [by rewrite lookup_insert_ne|].
  assert (denotes h e w) as Hde' by (eapply agrees_denotes; [done|left|done]).
  assert (exists st', push_back malloc atof st x r = Fine (st', (on A x (FlexibleOps.push_back atof w)).2) /\
    ok st' /\ abs st' (on A x (FlexibleOps.push_back atof w)).1) as (st' & E & R).
  2:{ exists st', 0. unfold exec, with_source, abs_exec, from. rewrite E2, Hv, E1. done. }
  unfold push_back, on. rewrite El. cbn [mbind res_bind]. rewrite Eu. cbn [mbind res_bind].
  change (State (<[x := c']> (vars st)) h) with (with_var st x c' h) in Ele. rewrite Hx, Et.
  destruct v as [| | |v|vs| | | |]; cbn [get_type FlexibleOps.push_back];
    try (exists (with_var st x c' h); done).
  - destruct (get_float_visitor atof w) as [d| |] eqn:Ef; cbn [omap_ok].
    + destruct (modify_vec st A x c' h v (v ++ [d])) as (k & h' & -> & E & R1 & R2); try done.
      cbn [mbind res_bind]. rewrite Ele. cbn [mbind res_bind]. rewrite (cell_to_float_spec h e w Hde'), Ef.
      cbn [mbind res_bind second]. rewrite E. by exists (with_var st x c' h').
    + destruct (modify_vec st A x c' h v v) as (k & h' & -> & E & R1 & R2); try done.
      cbn [mbind res_bind]. rewrite Ele. cbn [mbind res_bind]. rewrite (cell_to_float_spec h e w Hde'), Ef.
      by exists (with_var st x c' h).
    + by destruct w.
  - destruct (append_list st A x c' h vs e w) as (cs & h1 & h2 & -> & E3 & E4 & R1 & R2); try done; [|lia|].
    { intros Hp. assert (is_ptr c' = true) as Hp' by (unfold is_ptr; by rewrite Et).
      destruct (U Hp') as (b & Hb & H1 & _). eapply unique_others; try done.
      eapply load_elem; [done|by apply W|done]. }
    cbn [mbind res_bind]. rewrite Ele. cbn [mbind res_bind]. rewrite E3. cbn [mbind res_bind second].
    rewrite E4. by exists (with_var st x c' h2).
Qed.

Lemma step_clear st A x : ok st -> fits st -> abs st A -> enabled (Clear x) A -> simulated (Clear x) st A.
Proof.
  intros Hok Hf Ha [v Hx]. destruct (abs_lookup st A x v Ha Hx) as (c & Hc & Hd).
  pose proof (fits_var st x c Hf Hc). pose proof (denotes_type _ _ _ Hd) as Et.
  destruct (reset_to_wf malloc malloc_fresh (mem st) c (rest st x) (stored_type c))
    as (h & c' & E & W & Ag & D & _); [by apply ok_var|lia|].
  destruct (set_var st x c' h A (reset (stored_type c))) as [Hok' Ha']; try done.
  unfold simulated, exec, clear, abs_exec, on, FlexibleOps.clear. rewrite (load_var st x c Hc), Hx.
  cbn [mbind res_bind]. rewrite E, Et in *. destruct v; cbn [get_type];
    try (exists st, 0; done); by exists (with_var st x c' h), 0.
Qed.

Lemma step_index_assign st A x i d : ok st -> fits st -> abs st A -> enabled (IndexAssign x i d) A ->
  simulated (IndexAssign x i d) st A.
Proof.
  intros Hok Hf Ha (v & Hx & Hu). destruct (prepare st A x v Hok Hf Ha Hx)
    as (c & h & c' & El & Eu & W & Ag & U & Hd & Et & Ew & Hok1 & Ha1).
  unfold simulated, exec, index_assign, abs_exec, on. rewrite El. cbn [mbind res_bind]. rewrite Eu.
  cbn [mbind res_bind]. rewrite Hx, Et.
  destruct v as [|f| |v| | | | |]; cbn [get_type FlexibleOps.index_assign] in *;
    try (exists (with_var st x c' h), 0; done).
  - destruct (i =? 0)%nat; [|by exists (with_var st x c' h), 0].
    destruct (set_var st x (Cell FLOAT d) h A (FFloat d)) as [Hok' Ha']; try done; [|by exists 1%nat|].
    { eapply wf_scalar; [done|exact W|]. unfold is_ptr. by rewrite Et. }
    exists (with_var st x (Cell FLOAT d) h), 0. rewrite with_var_twice. done.
  - destruct (i <? length v)%nat eqn:Ei; [|done].
    destruct (modify_vec st A x c' h v (<[i := d]> v)) as (k & h' & -> & E & R1 & R2); try done.
    cbn [mbind res_bind second]. rewrite Ei, E. by exists (with_var st x c' h'), 0.
Qed.

Lemma wf_push_scalars n h r c : is_ptr c = false -> weight h r + Z.of_nat n < 2 ^ 64 -> wf h r ->
  wf h (replicate n c ++ r).
Proof.
  intros Hp. induction n as [|n IH]; intros Hb Hw; [done|]. cbn [replicate app].
  apply wf_push_scalar; [done| |apply IH; [lia|done]].
  unfold weight in *. rewrite !length_app, length_replicate in *. lia.
Qed.

Lemma destroy_all_wf cs h r : wf h (cs ++ r) ->
  exists h', destroy_all decref cs h = Fine h' /\ wf h' r /\ agrees r h h'.
Proof.
  revert h. induction cs as [|c cs IH]; intros h W; cbn [destroy_all].
  - exists h. split_and!; [done|done|by apply agrees_refl].
  - destruct (decref_wf h c (cs ++ r) W) as (h1 & -> & W1 & A1 & _). cbn [mbind res_bind].
    destruct (IH h1 W1) as (h2 & -> & W2 & A2). exists h2. split_and!; [done|done|].
    eapply agrees_trans; [|done]. eapply agrees_sub; [|done]. set_solver.
Qed.

Lemma resize_list st A x c h vs s : abs st A -> wf h (c :: rest st x) -> agrees (rest st x) (mem st) h ->
  unique h c -> stored_type c = LIST -> denotes h c (FList vs) ->
  weight h (c :: rest st x) + Z.of_nat s < 2 ^ 64 ->
  exists cs h1 h2, deref h LIST (word c) = Fine (Block 1 (PList cs)) /\
    set_payload h c (PList (list.resize s (Cell INTEGER 0) cs)) = Fine h1 /\
    destroy_all decref (drop s cs) h1 = Fine h2 /\
    ok (with_var st x c h2) /\ abs (with_var st x c h2) (<[x := FList (list.resize s flex_default vs)]> A).
Proof.
  intros Ha W Ag U Et Hd Hb. destruct (unique_list h c vs U Et Hd) as (cs & Hk & Hf).
  assert (is_ptr c = true) as Hp by (unfold is_ptr; by rewrite Et).
  set (z := Cell INTEGER 0). set (n := (s - length cs)%nat).
  assert (wf h (c :: replicate n z ++ rest st x)) as W1.
  { eapply wf_perm; [symmetry; apply Permutation_middle|]. apply wf_push_scalars; [done|lia|done]. }
  destruct (write_wf h c (replicate n z ++ rest st x) (Block 1 (PList cs)) (PList (list.resize s z cs))
    (drop s cs ++ rest st x)) as (W2 & A2 & _); [done..| |].
  { cbn [cells second]. rewrite resize_spec. fold n. rewrite <- (take_drop s cs) at 3. solve_Permutation. }
  destruct (destroy_all_wf (drop s cs) (<[word c := Block 1 (PList (list.resize s z cs))]> h) (c :: rest st x))
    as (h2 & E2 & W3 & A3); [by eapply wf_perm; [apply Permutation_middle|]|].
  cbn [first cells second] in A2.
  eexists cs, _, h2. split; [by apply deref_fine|]. split; [by apply set_payload_fine|]. split; [done|].
  set (h1 := <[word c := Block 1 (PList (list.resize s z cs))]> h) in *.
  assert (h1 !! word c = Some (Block 1 (PList (list.resize s z cs)))) as Hk1 by apply lookup_insert_eq.
  clearbody h1.
  apply set_var; [done|done| |].
  - eapply agrees_trans; [done|]. eapply agrees_trans; [eapply agrees_sub; [|exact A2]|eapply agrees_sub; [|exact A3]];
      set_solver.
  - eapply agrees_denotes; [exact A3|left|]. destruct c as [ty l]. cbn [stored_type word] in *. subst ty.
    eapply denotes_list; [exact Hk1|]. rewrite !resize_spec, <- (Forall2_length _ _ _ Hf).
    apply Forall2_app; [apply Forall2_take|apply Forall2_replicate; by exists 1%nat].
    eapply Forall2_denotes; [|done]. eapply agrees_sub; [|exact A2]. set_solver.
Qed.

Lemma step_resize st A x s : ok st -> fits st -> abs st A -> enabled (Resize x s) A ->
  simulated (Resize x s) st A.
Proof.
  intros Hok Hf Ha [[v Hx] Hs]. destruct (prepare st A x v Hok Hf Ha Hx)
    as (c & h & c' & El & Eu & W & Ag & U & Hd & Et & Ew & Hok1 & Ha1).
  unfold simulated, exec, resize, abs_exec, on. rewrite El. cbn [mbind res_bind]. rewrite Eu.
  cbn [mbind res_bind]. rewrite Hx, Et.
  destruct v as [| | |v|vs| | | |]; cbn [get_type FlexibleOps.resize];
    try (exists (with_var st x c' h), 0; done).
  - destruct (modify_vec st A x c' h v (list.resize s 0 v)) as (k & h' & -> & E & R1 & R2); try done.
    cbn [mbind res_bind second]. rewrite E. by exists (with_var st x c' h'), 0.
  - destruct (resize_list st A x c' h vs s) as (cs & h1 & h2 & -> & E1 & E2 & R1 & R2); try done; [lia|].
    cbn [mbind res_bind second]. rewrite E1. cbn [mbind res_bind]. rewrite E2.
    by exists (with_var st x c' h2), 0.
Qed.

(** *** Assignment to an element *)

Lemma agrees_insert h r L b : wf h r -> h !! L = None -> agrees r h (<[L := b]> h).
Proof.
  intros W HL. exists (fun l => is_Some (h !! l)). split.
  - eapply wf_closed; [done|]. intros l b' Hl. exists b'. by rewrite lookup_insert_ne by congruence.
  - intros c Hc Hp. destruct (wf_valid _ _ _ W Hc Hp) as (b' & -> & _). done.
Qed.

Lemma lookup_others {A} (l : list A) i j a : l !! j = Some a -> j <> i -> a ∈ take i l ++ drop (S i) l.
Proof.
  intros Hj Hne. apply elem_of_app. destruct (decide (j < i)%nat).
  - left. apply (list_elem_of_lookup_2 _ j). by rewrite lookup_take_lt by lia.
  - right. apply (list_elem_of_lookup_2 _ (j - S i)). rewrite lookup_drop. by replace (S i + (j - S i))%nat with j by lia.
Qed.

Lemma assign_element st A x c h vs i r e w : abs st A -> wf h (c :: rest st x) ->
  agrees (rest st x) (mem st) h -> unique h c -> stored_type c = LIST -> denotes h c (FList vs) ->
  (i < length vs)%nat -> weight h (c :: rest st x) < 2 ^ 62 -> denotes (mem st) e w ->
  (forall h', agrees (rest st x) (mem st) h' ->
     load (State (<[x := c]> (vars st)) h') r = Fine e /\ agrees [e] (mem st) h') ->
  exists h', copy_assign (with_var st x c h) (LElem (word c) i) r = Fine (with_var st x c h') /\
    ok (with_var st x c h') /\ abs (with_var st x c h') (<[x := FList (<[i := w]> vs)]> A).
Proof.
  intros Ha W Ag U Et Hd Hi Hb Hde Hs. destruct (unique_list h c vs U Et Hd) as (cs & Hk & Hf).
  assert (is_ptr c = true) as Hp by (unfold is_ptr; by rewrite Et).
  pose proof (Forall2_length _ _ _ Hf) as Hlen. set (L := word c) in *.
  destruct (lookup_lt_is_Some_2 cs i ltac:(lia)) as [old Hold].
  set (cs' := take i cs ++ drop (S i) cs).
  assert (cs ≡ₚ old :: cs') as Ecs by (rewrite <- (take_drop_middle _ _ _ Hold) at 1; symmetry; apply Permutation_middle).
  assert (<[i := e]> cs ≡ₚ e :: cs') as Ecs2
    by (rewrite insert_take_drop by lia; symmetry; apply Permutation_middle).
  destruct (dealloc_wf h c (rest st x) _ W Hp Hk eq_refl) as (W0 & A0 & E0). cbn [cells second] in W0, A0, E0.
  set (h0 := delete (word c) h) in *. assert (h = <[L := Block 1 (PList cs)]> h0) as Eh
    by (symmetry; by apply insert_delete_id). assert (h0 !! L = None) as HL0 by apply lookup_delete_eq.
  destruct (decref_wf h0 old (cs' ++ rest st x)) as (h1 & E1 & W1 & A1 & _ & Ew1).
  { eapply wf_perm; [|exact W0]. by rewrite Ecs. }
  destruct (decref_frame L (Block 1 (PList cs)) h0 old h1 HL0 E1) as [E1' HL1].
  assert (agrees (rest st x) (mem st) h0) as Ag0.
  { eapply agrees_trans; [done|]. eapply agrees_sub; [|exact A0]. set_solver. }
  assert (agrees (rest st x) (mem st) h1) as Ag1.
  { eapply agrees_trans; [done|]. eapply agrees_sub; [|exact A1]. set_solver. }
  destruct (Hs h1 Ag1) as [_ Ae1]. assert (denotes h1 e w) as Hd1 by (eapply agrees_denotes; [done|left|done]).
  rewrite (weight_perm h0 (old :: cs' ++ rest st x) (cs ++ rest st x)) in Ew1 by (by rewrite Ecs).
  destruct (incref_wf h1 e _ W1) as (h2 & E2 & W2 & A2 & Ew2 & S2); [by eapply denotes_valid|lia|].
  set (p := PList (<[i := e]> cs)).
  destruct (incref_frame L (Block 1 p) h1 e h2 HL1 E2) as [E2' HL2].
  assert (e :: cs' ++ rest st x ≡ₚ cells p ++ rest st x) as Ep by (unfold p; cbn [cells]; by rewrite Ecs2).
  destruct (alloc_wf h2 (rest st x) L p) as (W3 & A3 & _);
    [by eapply wf_perm|done|rewrite <- (weight_perm _ _ _ Ep); lia|].
  exists (<[L := Block 1 p]> h2). split.
  - unfold copy_assign. rewrite decide_False.
    2:{ intros ->. destruct (Hs h0 Ag0) as [Hl _]. cbn in Hl. unfold deref in Hl. by rewrite HL0 in Hl. }
    cbn [load with_var vars mem]. rewrite (deref_fine _ _ _ _ Hk) by done. cbn [mbind res_bind cells second].
    rewrite Hold. cbn [mbind res_bind]. rewrite Eh, E1'. cbn [mbind res_bind].
    destruct (Hs (<[L := Block 1 (PList cs)]> h1)) as [Hl _].
    { eapply agrees_trans; [exact Ag1|]. eapply agrees_sub; [|by apply agrees_insert]. set_solver. }
    unfold with_mem. cbn [with_var vars mem]. rewrite Hl. cbn [mbind res_bind store mem].
    rewrite (deref_fine _ _ _ (Block 1 (PList cs))) by (done || apply lookup_insert_eq). cbn [mbind res_bind second first].
    rewrite (proj2 (Nat.ltb_lt _ _)) by lia. cbn [mbind res_bind with_mem mem vars].
    rewrite insert_insert_eq. fold p. rewrite E2'. done.
  - assert (Cell (payload_type p) L = c) as Ec by (unfold L; destruct c; cbn in *; by rewrite Et).
    rewrite Ec in W3. apply set_var; [done|done| |].
    + eapply agrees_trans; [exact Ag1|]. eapply agrees_trans; [eapply agrees_sub; [|exact A2]|eapply agrees_sub; [|exact A3]];
        set_solver.
    + rewrite <- Ec. eapply denotes_list; [apply lookup_insert_eq|].
      apply (Forall2_denotes h2); [eapply agrees_sub; [|exact A3]; set_solver|].
      apply Forall2_same_length_lookup. split; [by rewrite !length_insert|]. intros j d u Hj Hu.
      destruct (decide (j = i)) as [->|Hne].
      * rewrite list_lookup_insert_eq in Hj by lia. rewrite list_lookup_insert_eq in Hu by lia. simplify_eq.
        eapply agrees_denotes; [|left|exact Hd1]. eapply agrees_payloads; [exact W1|done|].
        intros d' ->%list_elem_of_singleton. by eapply denotes_valid.
      * rewrite list_lookup_insert_ne in Hj by done. rewrite list_lookup_insert_ne in Hu by done.
        pose proof (lookup_others cs i j d Hj Hne) as Hin.
        fold cs' in Hin. apply (agrees_denotes (cs' ++ rest st x) h1 h2); [done|by apply elem_of_app; left|].
        apply (agrees_denotes (cs' ++ rest st x) h0 h1); [done|by apply elem_of_app; left|].
        apply (agrees_denotes (cs ++ rest st x) h h0);
          [done|apply elem_of_app; left; by eapply list_elem_of_lookup_2|].
        apply Forall2_same_length_lookup in Hf as [_ Hf]. by eapply Hf.
Qed.

Lemma step_call_assign st A x i s : ok st -> fits st -> abs st A -> enabled (CallAssign x i s) A ->
  simulated (CallAssign x i s) st A.
Proof.
  intros Hok Hf Ha ((v & Hx & Hi) & Hr & Hne).
  destruct (source_ok st A s x Hok Ha Hr Hne) as (v0 & Hv & [[E1 E2]|(r & e & w & E1 & E2 & Hde & Hrx & Hl)]).
  { exists st, 0. unfold exec, with_source, abs_exec, from. by rewrite E2, Hv, E1. }
  destruct (prepare st A x v Hok Hf Ha Hx) as (c & h & c' & El & Eu & W & Ag & U & Hd & Et & Ew & Hok1 & Ha1).
  unfold simulated, exec, with_source, abs_exec, from. rewrite E2, Hv, E1. cbn [mbind res_bind].
  unfold call_assign, on. rewrite El. cbn [mbind res_bind]. rewrite Eu. cbn [mbind res_bind]. rewrite Hx, Et.
  destruct v as [| | | |vs| | | |]; cbn [get_type array_assign]; try (exists (with_var st x c' h), 0; done).
  pose proof (Hi vs eq_refl) as Hi'.
  destruct (assign_element st A x c' h vs i r e w) as (h' & E & R1 & R2); try done; [lia| |].
  { intros h' Hag. apply Hl; [done|]. by rewrite lookup_insert_ne. }
  destruct (unique_list h c' vs U Et Hd) as (cs & Hk & Hf2).
  unfold array_at. rewrite (load_var _ x c') by apply lookup_insert_eq. cbn [mbind res_bind mem with_var].
  rewrite (ensure_unique_id h c' U). cbn [mbind res_bind]. rewrite (deref_fine _ _ _ _ Hk) by done.
  cbn [mbind res_bind cells second]. rewrite (Forall2_length _ _ _ Hf2), (proj2 (Nat.ltb_lt _ _) Hi').
  cbn [mbind res_bind]. rewrite with_var_twice, E. by exists (with_var st x c' h'), 0.
Qed.

Lemma step_simulated o st A : ok st -> fits st -> abs st A -> enabled o A -> simulated o st A.
Proof.
  intros Hok Hf Ha He. destruct o;
    eauto using step_construct, step_construct_type, step_copy_construct, step_move_construct, step_destroy,
      step_reset, step_reset_to, step_assign, step_copy_assign, step_move_assign, step_swap,
      step_push_back_float, step_push_back, step_resize, step_clear, step_index_assign, step_call_assign.
Qed.
End Steps.

(** ** Programs *)

(** Every operation is permitted, whatever integers moves leave behind. *)
Fixpoint legal (atof : bytes -> Z) (ops : list op) (A : gmap nat flexible_type) : Prop :=
  match ops with
  | [] => True
  | o :: ops => enabled o A /\ forall stale, legal atof ops (abs_exec atof stale o A).1
  end.

(** The runs of a program over values *)
Inductive value_run (atof : bytes -> Z) :
    list op -> gmap nat flexible_type -> gmap nat flexible_type -> Prop :=
| run_nil A : value_run atof [] A A
| run_cons stale o ops A A' : value_run atof ops (abs_exec atof stale o A).1 A' ->
    value_run atof (o :: ops) A A'.

(** The program never has more objects than the bound on the way. *)
Fixpoint stays_small (malloc : heap -> Z) (atof : bytes -> Z) (ops : list op) (st : state) : Prop :=
  fits st /\
  match ops with
  | [] => True
  | o :: ops => forall st' t, exec malloc atof o st = Fine (st', t) -> stays_small malloc atof ops st'
  end.

Lemma exec_all_simulated malloc atof ops : (forall h, h !! malloc h = None) ->
  forall st A, ok st -> abs st A -> legal atof ops A -> stays_small malloc atof ops st ->
  exists st' A', exec_all malloc atof ops st = Fine st' /\ ok st' /\ abs st' A' /\ value_run atof ops A A'.
Proof.
  intros Hm. induction ops as [|o ops IH]; intros st A Hok Ha Hl Hs.
  - exists st, A. split_and!; try done. constructor.
  - destruct Hl as [He Hl], Hs as [Hf Hs].
    destruct (step_simulated malloc Hm atof o st A Hok Hf Ha He) as (st1 & stale & E & Hok1 & Ha1).
    destruct (IH st1 _ Hok1 Ha1 (Hl stale) (Hs _ _ E)) as (st' & A' & E' & Hok' & Ha' & Hr).
    exists st', A'. cbn [exec_all]. rewrite E. split_and!; try done. by econstructor.
Qed.

Definition init : state := State ∅ ∅.
Lemma init_ok : ok init.
Proof. split; [split|..]; try (by intros ? ?); [set_solver|done]. Qed.
Lemma init_abs : abs init ∅.
Proof. intros x. by constructor. Qed.

(** *** No leak *)

Lemma fuel_bound h (m : heap) :
  (forall l b, m !! l = Some b -> exists v, denotes h (Cell (payload_type (second b)) l) v) ->
  exists N, forall l b, m !! l = Some b -> is_Some (value N h (Cell (payload_type (second b)) l)).
Proof.
  induction m as [|l b m Hl IH] using map_ind; intros Hd; [by exists O|].
  destruct IH as [N HN].
  { intros l' b' Hb'. apply Hd. rewrite lookup_insert_ne; [done|]. intros ->. congruence. }
  destruct (Hd l b (lookup_insert_eq _ _ _)) as (v & n & Hn). exists (N + n)%nat.
  intros l' b' [[<- <-]|[_ Hb']]%lookup_insert_Some.
  - exists v. eapply value_mono; [|done]. lia.
  - destruct (HN l' b' Hb') as [w Hw]. exists w. eapply value_mono; [|done]. lia.
Qed.

(** The value of a block needs more fuel than that of the blocks in it. *)
Lemma value_parent n h l b c : h !! l = Some b -> c ∈ cells (second b) -> value n h c = None ->
  value (S n) h (Cell (payload_type (second b)) l) = None.
Proof.
  intros Hb Hc Hn. cbn [value stored_type word]. destruct b as [k [s|v|cs|d|img]]; cbn [payload_type second cells] in *;
    try (by apply elem_of_nil in Hc); rewrite Hb; cbn [mbind option_bind second]; apply fmap_None, mapM_None, Exists_exists.
  - by exists c.
  - apply list_elem_of_In, in_concat in Hc as (l' & (kv & <- & Hin)%in_map_iff & Hc).
    exists kv. split; [by apply list_elem_of_In|]. destruct Hc as [<-|[<-|[]]].
    + rewrite Hn. by destruct (value n h kv.1).
    + by rewrite Hn.
Qed.

Lemma no_leak h : wf h [] -> h = ∅.
Proof.
  intros [C A G]. destruct (fuel_bound h h G) as [N HN]. apply map_empty. intros l.
  destruct (h !! l) as [b0|] eqn:Hl; [|done]. exfalso.
  assert (forall n, exists l b, h !! l = Some b /\ value n h (Cell (payload_type (second b)) l) = None) as Hall.
  { induction n as [|n (l1 & b1 & Hb1 & Hn)]; [by exists l, b0|].
    pose proof (ct_count _ _ C l1 b1 Hb1) as Hk. pose proof (A l1 b1 Hb1). cbn [app] in Hk.
    destruct (cnt_ex l1 (live_cells h)) as (c & Hc & Hp & Hw); [pose proof (cnt_nonneg l1 (live_cells h)); lia|].
    pose proof Hc as (l2 & b2 & Hb2 & _ & Hc2)%live_cells_elem. exists l2, b2. split; [done|].
    eapply value_parent; [done|done|]. destruct (ct_valid _ _ C c Hc Hp) as (b3 & Hb3 & Ht).
    rewrite Hw, Hb1 in Hb3. injection Hb3 as <-. destruct c as [ty w]. cbn in *. by subst. }
  destruct (Hall N) as (l1 & b1 & Hb1 & Hn). destruct (HN l1 b1 Hb1) as [v Hv]. congruence.
Qed.

Lemma abs_fun st A A' : abs st A -> abs st A' -> A = A'.
Proof.
  intros H H'. apply map_eq. intros x. specialize (H x). specialize (H' x).
  destruct H as [c v Hv|]; inversion H' as [? w Hw|]; [|done]. f_equal. by eapply denotes_fun.
Qed.

(** C4. The storage of [flexible_type] is memory safe.  Take any program of
    constructions, copies, moves, swaps, resets, assignments, in-place
    modifications and destructions in which every object is used between its
    construction and its destruction, every index (of an element that is read or
    written) is in range, no object is assigned, or gets pushed back or stored
    into it, an element of itself or itself (a plain copy of itself to itself is
    allowed), a resize is to fewer than 2^60 elements, an assigned number or date
    is one the type can hold, whole lists and dictionaries are only copied or
    moved from another object, and there are always fewer than 2^60 references.
    Then, whatever free addresses the allocator returns, no freed or mistyped
    block is ever accessed; afterwards every block is referenced, its count is
    exactly the number of objects that point to it, and every pointer is to a
    block of its type.  When no object is left, no block is. *)
Theorem flexible_type_memory_safe malloc atof ops :
  (forall h, h !! malloc h = None) -> legal atof ops ∅ -> stays_small malloc atof ops init ->
  exists st, exec_all malloc atof ops init = Fine st /\
    (forall l b, mem st !! l = Some b ->
       0 < first b /\ first b = cnt l (roots st ++ live_cells (mem st))) /\
    (forall c, c ∈ roots st ++ live_cells (mem st) -> valid (mem st) c) /\
    (vars st = ∅ -> mem st = ∅).
Proof.
  intros Hm Hl Hs.
  destruct (exec_all_simulated malloc atof ops Hm init ∅ init_ok init_abs Hl Hs) as (st & A & E & Hok & _ & _).
  exists st. pose proof Hok as [C Al G]. split_and!; [done| |by apply C|].
  - intros l b Hb. pose proof (ct_count _ _ C l b Hb) as Hk. pose proof (Al l b Hb).
    pose proof (cnt_nonneg l (roots st ++ live_cells (mem st))). split; [lia|done].
  - intros Hv. apply no_leak. unfold ok, roots in Hok. by rewrite Hv in Hok.
Qed.

(** C5. Sharing is invisible.  After a program as in [flexible_type_memory_safe]
    (objects alive, indices in range, no object given an element of itself or
    itself but for a plain copy to itself, resizes and references below 2^60,
    assigned values that fit, lists and dictionaries copied or moved from other
    objects) every variable has exactly the value it has in a run of the program
    in which each variable holds a value of its own and copies are independent,
    for some choice of the integers that moved-from objects are left with. *)
Theorem flexible_type_value_semantics malloc atof ops :
  (forall h, h !! malloc h = None) -> legal atof ops ∅ -> stays_small malloc atof ops init ->
  exists st A, exec_all malloc atof ops init = Fine st /\ value_run atof ops ∅ A /\
    abs st A /\ (forall A', abs st A' -> A' = A).
Proof.
  intros Hm Hl Hs.
  destruct (exec_all_simulated malloc atof ops Hm init ∅ init_ok init_abs Hl Hs) as (st & A & E & _ & Ha & Hr).
  exists st, A. split_and!; [done|done|done|]. intros A' Ha'. by eapply abs_fun.
Qed.

(** C37. Assigning an element of a list to the variable that holds the list reads
    freed memory when the list is not shared: the old value is released, and the
    list with it, before the element is read. *)
Theorem own_element_assign_faults malloc atof st x l cs i :
  ok st -> vars st !! x = Some (Cell LIST l) -> mem st !! l = Some (Block 1 (PList cs)) ->
  (i < length cs)%nat ->
  exec malloc atof (CopyAssign x (x, [i])) st = Bad UseAfterFree.
Proof.
  intros Hok Hx Hl Hi. unfold exec, with_source. cbn [fst snd resolve]. unfold call_const.
  rewrite (load_var st x _ Hx). cbn [mbind res_bind stored_type word]. rewrite (deref_fine _ _ _ _ Hl) by done.
  cbn [mbind res_bind cells second]. rewrite (proj2 (Nat.ltb_lt _ _)) by done. cbn [mbind res_bind].
  unfold copy_assign. rewrite decide_False by done. rewrite (load_var st x _ Hx). cbn [mbind res_bind].
  destruct (decref_wf (mem st) _ (rest st x) (ok_var st x _ Hok Hx)) as (h & E & _). rewrite E.
  unfold decref in E. cbn [decref_fuel is_ptr stored_type word] in E. rewrite (deref_fine _ _ _ _ Hl) in E by done.
  cbn [mbind res_bind first second] in E. change (u64 (1 - 1) =? 0) with true in E. cbv iota in E.
  destruct (destroy_all _ _ _) as [h'|]; [|done]. injection E as <-.
  cbn [mbind res_bind load with_mem mem]. unfold deref. by rewrite lookup_delete_eq.
Qed.

(** Appending a list to itself leaks: the list then contains a reference to
    itself, and when the variable is destroyed the block stays behind with a
    count of one that only its own element accounts for. *)
Theorem self_push_back_leaks malloc atof st A x vs : (forall h, h !! malloc h = None) ->
  ok st -> fits st -> abs st A -> A !! x = Some (FList vs) ->
  exists st1 st2 L cs, exec malloc atof (PushBack x (x, [])) st = Fine (st1, false) /\
    exec malloc atof (Destroy x) st1 = Fine (st2, false) /\
    mem st2 !! L = Some (Block 1 (PList (cs ++ [Cell LIST L]))) /\
    forall y c, vars st2 !! y = Some c -> ~ ptr_to L c.
Proof.
  intros Hm Hok Hf Ha Hx. destruct (prepare malloc Hm st A x _ Hok Hf Ha Hx)
    as (c & h & [ty L] & El & Eu & W & Ag & U & Hd & Et & Ew & _). cbn in Et. subst ty.
  destruct (unique_list h _ vs U eq_refl Hd) as (cs & Hk & _). cbn [word] in Hk.
  set (h1 := <[L := Block 2 (PList (cs ++ [Cell LIST L]))]> h).
  exists (with_var st x (Cell LIST L) h1), (State (delete x (vars st)) (<[L := Block 1 (PList (cs ++ [Cell LIST L]))]> h)).
  exists L, cs. split_and!.
  - unfold exec, with_source. cbn [fst snd resolve mbind res_bind]. unfold push_back. rewrite El.
    cbn [mbind res_bind]. rewrite Eu. cbn [mbind res_bind stored_type word]. rewrite (deref_fine _ _ _ _ Hk) by done.
    cbn [mbind res_bind second]. rewrite (load_var _ x (Cell LIST L)) by apply lookup_insert_eq.
    cbn [mbind res_bind]. unfold incref. cbn [is_ptr stored_type word]. rewrite (deref_fine _ _ _ _ Hk) by done.
    cbn [mbind res_bind first second]. unfold set_payload. cbn [word payload_type].
    rewrite (deref_fine _ _ _ (Block (u64 (1 + 1)) (PList cs))) by (done || apply lookup_insert_eq).
    cbn [mbind res_bind]. by rewrite insert_insert_eq.
  - unfold exec. rewrite (load_var _ x (Cell LIST L)) by apply lookup_insert_eq. cbn [mbind res_bind mem with_var].
    unfold reset_cell, decref. cbn [decref_fuel is_ptr stored_type word].
    rewrite (deref_fine _ _ _ (Block 2 (PList (cs ++ [Cell LIST L])))) by (done || apply lookup_insert_eq).
    cbn [mbind res_bind first second]. change (u64 (2 - 1)) with 1. cbn [Z.eqb mbind res_bind].
    unfold h1. rewrite insert_insert_eq. cbn [vars with_var]. by rewrite delete_insert_eq.
  - apply lookup_insert_eq.
  - cbn [vars]. intros y c0 [Hne Hy]%lookup_delete_Some [Hp Hw].
    eapply (unique_others h (Cell LIST L) (rest st x) _ c0 W eq_refl Hk eq_refl); [|done|done].
    apply elem_of_app. left. by eapply rest_elem.
Qed.

(** A program with sharing, nesting, mutation and destruction, run with an
    allocator that returns an unused address *)
Definition test_malloc (h : heap) : Z := fresh (dom h : gset Z).
Lemma test_malloc_fresh h : h !! test_malloc h = None.
Proof. apply (not_elem_of_dom (D := gset Z)). unfold test_malloc. apply is_fresh. Qed.
Definition test_program : list op :=
  [ConstructType 0 LIST; PushBackFloat 0 7; CopyConstruct 1 (0%nat, []); PushBack 1 (0%nat, []);
   CallAssign 1 0 (0%nat, [0%nat]); Destroy 0].

Ltac run_small :=
  repeat (split; [vm_compute; reflexivity|];
    let E := fresh in intros ? ? E; vm_compute in E; injection E as <- <-);
  split; [vm_compute; reflexivity|exact I].

Lemma test_small : stays_small test_malloc (fun _ => 0) (test_program ++ [Destroy 1]) init.
Proof. unfold test_program. cbn [app]. run_small. Qed.
Lemma test_legal : legal (fun _ => 0) (test_program ++ [Destroy 1]) ∅.
Proof.
  unfold test_program. cbn [app legal]. repeat (split; [|intros ?]); try done; cbn [abs_exec fst];
    try (vm_compute; by eexists).
  all: repeat split; try (vm_compute; by eexists); try done.
  vm_compute. eexists. split; [reflexivity|]. intros l [= <-]. cbn. lia.
Qed.

Lemma flexible_type_memory_safe_witness :
  exists st, exec_all test_malloc (fun _ => 0) (test_program ++ [Destroy 1]) init = Fine st /\
    vars st = ∅ /\ mem st = ∅.
Proof.
  destruct (flexible_type_memory_safe test_malloc (fun _ => 0) (test_program ++ [Destroy 1])
    test_malloc_fresh test_legal test_small) as (st & E & _ & _ & Hleak).
  exists st. assert (vars st = ∅) as Hv; [|by auto].
  revert E. vm_compute. by intros [= <-].
Defined.

Lemma flexible_type_value_semantics_witness :
  exists st A, exec_all test_malloc (fun _ => 0) (test_program ++ [Destroy 1]) init = Fine st /\
    value_run (fun _ => 0) (test_program ++ [Destroy 1]) ∅ A /\ abs st A.
Proof.
  destruct (flexible_type_value_semantics test_malloc (fun _ => 0) (test_program ++ [Destroy 1])
    test_malloc_fresh test_legal test_small) as (st & A & E & R & H & _).
  by exists st, A.
Defined.

(** A list of one integer in variable 0 *)
Definition list_state : state :=
  State {[ 0%nat := Cell LIST 5 ]} {[ 5 := Block 1 (PList [Cell INTEGER 3]) ]}.
Lemma list_state_ok : ok list_state.
Proof.
  apply (set_var init 0 (Cell LIST 5) {[ 5 := Block 1 (PList [Cell INTEGER 3]) ]} ∅ (FList [FInt 3]) init_abs).
  - apply (alloc_wf ∅ [] 5 (PList [Cell INTEGER 3])); [|done|done].
    apply wf_push_scalar; [done|done|apply init_ok].
  - exists (fun _ => False). split; [by intros ?|]. intros c Hc. by apply elem_of_nil in Hc.
  - by exists 2%nat.
Qed.

Lemma own_element_assign_faults_witness :
  exec test_malloc (fun _ => 0) (CopyAssign 0 (0%nat, [0%nat])) list_state = Bad UseAfterFree.
Proof.
  apply (own_element_assign_faults test_malloc (fun _ => 0) list_state 0 5 [Cell INTEGER 3] 0);
    [apply list_state_ok|reflexivity|reflexivity|cbn; lia].
Defined.
