(* ===== verification/GroupbyOps.v ===== *)
(** The group-by aggregators: the model of
    [sframe/groupby_aggregate_operators.hpp] and of the interface
    [sframe/group_aggregate_value.hpp].

    One Module per aggregator class; its private members are the record [t] and
    its virtual functions the definitions of the same name.  The class
    [Aggregate] is the virtual interface; each aggregator is an instance, and
    [builtin] is the pointer to the base class, with its dynamic dispatch (a
    [dynamic_cast] to another class throws).  [quantile] is not modelled (its
    state is a quantile sketch), nor are the printable names.  The assertions [DASSERT] are disabled in a
    release build. *)
From Stdlib Require Import ZArith Lia List Bool String Sorting.Sorted.
From Stdlib Require Import Floats.SpecFloat.
From stdpp Require Import prelude.
From coqutil Require Import Byte.
From S2P Require Import Prelude.
From S2P Require Import Double.
From S2P Require Import Archive.
From S2P Require Import Serialization.
From S2P Require Import FlexibleType.
From S2P Require Import FlexibleOps.

#[local] Abbreviation flex_save := FlexibleType.save.
#[local] Abbreviation flex_load := FlexibleType.load.

(** [group_aggregate_value] *)
Class Aggregate (A : Type) := {
  new_instance : A -> A;
  add_element : A -> list flexible_type -> outcome A;
  add_element_simple : A -> flexible_type -> outcome A;
  partial_finalize : A -> A;
  combine : A -> A -> outcome A;
  emit : A -> outcome flexible_type;
  support_type : A -> flex_type_enum -> bool;
  set_input_types : A -> list flex_type_enum -> outcome (flex_type_enum * A);
  agg_save : A -> writer;
  agg_load : A -> reader A
}.

(** The default [add_element] and [set_input_types] of the base class *)
Definition add_element_default {A} (simple : A -> flexible_type -> outcome A)
    (a : A) (values : list flexible_type) : outcome A :=
  match values with v :: _ => simple a v | [] => Undef end.
Definition set_input_types_default {A} (set : A -> flex_type_enum -> outcome (flex_type_enum * A))
    (a : A) (types : list flex_type_enum) : outcome (flex_type_enum * A) :=
  match types with ty :: _ => set a ty | [] => Undef end.

Definition is_undefined (f : flexible_type) : bool := bool_decide (get_type f = UNDEFINED).
(** [flex == FLEX_UNDEFINED] *)
Definition eq_undefined (f : flexible_type) : bool := approx_equal f FUndefined.

(** Integer or float *)
Definition numeric (ty : flex_type_enum) : bool :=
  match ty with INTEGER | FLOAT => true | _ => false end.

Definition d_sqrt (a : Z) : Z := to_bits (SFsqrt prec emax (of_bits a)).

Module vector_sum.
Record t := mk { value : flexible_type; failure : bool; init : bool }.
Definition new : t := mk (reset VECTOR) false false.
Definition new_instance (_ : t) : t := new.
Definition add_element_simple (a : t) (flex : flexible_type) : outcome t :=
  if negb (failure a) && negb (is_undefined flex) then
    if negb (init a) then Ok (mk flex (failure a) true)
    else if negb (size flex =? size (value a))%nat then Ok (mk (value a) true (init a))
    else omap_ok (fun v => mk v (failure a) (init a)) (plus_equal_operator (value a) flex)
  else Ok a.
Definition combine (a other : t) : outcome t :=
  if negb (failure other) && negb (failure a) then
    if negb (init a) then Ok other
    else if init other then
      if negb (size (value a) =? size (value other))%nat then Ok (mk (value a) true (init a))
      else omap_ok (fun v => mk v (failure a) (init a)) (plus_equal_operator (value a) (value other))
    else Ok a
  else Ok a.
Definition emit (a : t) : outcome flexible_type :=
  if failure a then Ok FUndefined else Ok (value a).
Definition support_type (_ : t) (ty : flex_type_enum) : bool := bool_decide (ty = VECTOR).
Definition set_input_type (a : t) (ty : flex_type_enum) : outcome (flex_type_enum * t) := Ok (ty, a).
Definition save (a : t) : writer :=
  flex_save (value a) >>> bool_save (init a) >>> bool_save (failure a).
Definition load (_ : t) : reader t :=
  v <- flex_load ;; i <- bool_load ;; f <- bool_load ;; rret (mk v f i).
End vector_sum.

Module sum.
Record t := mk { value : flexible_type }.
Definition new : t := mk flex_default.
Definition set_input_type (_ : t) (ty : flex_type_enum) : outcome (flex_type_enum * t) :=
  Ok (ty, mk (reset ty)).
Definition new_instance (a : t) : t := mk (reset (get_type (value a))).
Definition add_element_simple (a : t) (flex : flexible_type) : outcome t :=
  if negb (is_undefined flex) then omap_ok mk (plus_equal_operator (value a) flex) else Ok a.
Definition combine (a other : t) : outcome t :=
  omap_ok mk (plus_equal_operator (value a) (value other)).
Definition emit (a : t) : outcome flexible_type := Ok (value a).
Definition support_type (_ : t) (ty : flex_type_enum) : bool := numeric ty.
Definition save (a : t) : writer := flex_save (value a).
Definition load (_ : t) : reader t := v <- flex_load ;; rret (mk v).
End sum.

(** [min] and [max] differ in the comparison that replaces the kept value:
    [value > flex] for [min], [value < flex] for [max]. *)
Module extremum.
Record t := mk { value : flexible_type; init : bool }.
Definition new : t := mk flex_default false.
Definition set_input_type (a : t) (ty : flex_type_enum) : outcome (flex_type_enum * t) :=
  Ok (ty, mk (reset ty) (init a)).
Definition new_instance (a : t) : t := mk (reset (get_type (value a))) false.
Definition add_element_simple (replaces : flexible_type -> flexible_type -> outcome bool)
    (a : t) (flex : flexible_type) : outcome t :=
  if negb (is_undefined flex) then
    if negb (init a) then Ok (mk flex true)
    else obind (replaces (value a) flex) (fun r => Ok (if (r : bool) then mk flex (init a) else a))
  else Ok a.
Definition combine (replaces : flexible_type -> flexible_type -> outcome bool)
    (a other : t) : outcome t :=
  if init other then
    if negb (init a) then Ok (mk (value other) true)
    else obind (replaces (value a) (value other)) (fun r =>
         Ok (if (r : bool) then mk (value other) (init a) else a))
  else Ok a.
Definition emit (a : t) : outcome flexible_type := Ok (value a).
Definition support_type (_ : t) (ty : flex_type_enum) : bool := numeric ty.
Definition save (a : t) : writer := flex_save (value a) >>> bool_save (init a).
Definition load (_ : t) : reader t := v <- flex_load ;; i <- bool_load ;; rret (mk v i).
End extremum.

Definition min_replaces : flexible_type -> flexible_type -> outcome bool := gt_operator.
Definition max_replaces : flexible_type -> flexible_type -> outcome bool := lt_operator.
Definition min_add_element_simple : extremum.t -> flexible_type -> outcome extremum.t :=
  extremum.add_element_simple min_replaces.
Definition min_combine : extremum.t -> extremum.t -> outcome extremum.t := extremum.combine min_replaces.
Definition max_add_element_simple : extremum.t -> flexible_type -> outcome extremum.t :=
  extremum.add_element_simple max_replaces.
Definition max_combine : extremum.t -> extremum.t -> outcome extremum.t := extremum.combine max_replaces.

(** [argmin] and [argmax], likewise; a row is the compared value followed by the
    value of the supporting column. *)
Module arg_extremum.
Record t := mk { vec_value : list flexible_type; init : bool }.
Definition new : t := mk [] false.
Definition new_instance (_ : t) : t := new.
(** [vec_value[0]] compared with [values[0]] *)
Definition replaces_first (replaces : flexible_type -> flexible_type -> outcome bool)
    (a : t) (values : list flexible_type) : outcome bool :=
  match vec_value a, values with
  | x :: _, y :: _ => replaces x y
  | _, _ => Undef
  end.
Definition add_element (replaces : flexible_type -> flexible_type -> outcome bool)
    (a : t) (values : list flexible_type) : outcome t :=
  match values with
  | [] => Undef
  | v :: _ =>
      if negb (is_undefined v) then
        if negb (init a) then Ok (mk values true)
        else obind (replaces_first replaces a values) (fun r =>
             Ok (if (r : bool) then mk values (init a) else a))
      else Ok a
  end.
Definition add_element_simple (_ : t) (_ : flexible_type) : outcome t := Throws.
Definition combine (replaces : flexible_type -> flexible_type -> outcome bool)
    (a other : t) : outcome t :=
  if init other then
    if negb (init a) then Ok (mk (vec_value other) true)
    else obind (replaces_first replaces a (vec_value other)) (fun r =>
         Ok (if (r : bool) then mk (vec_value other) (init a) else a))
  else Ok a.
Definition emit (a : t) : outcome flexible_type := of_option (vec_value a !! 1%nat).
Definition support_type (_ : t) (ty : flex_type_enum) : bool := numeric ty.
Definition set_input_types (a : t) (types : list flex_type_enum) : outcome (flex_type_enum * t) :=
  omap_ok (fun ty => (ty, a)) (of_option (types !! 1%nat)).
Definition save (a : t) : writer := vector_save flex_save (vec_value a) >>> bool_save (init a).
Definition load (_ : t) : reader t :=
  v <- vector_load flex_load ;; i <- bool_load ;; rret (mk v i).
End arg_extremum.

Definition argmin_add_element : arg_extremum.t -> list flexible_type -> outcome arg_extremum.t :=
  arg_extremum.add_element min_replaces.
Definition argmin_combine : arg_extremum.t -> arg_extremum.t -> outcome arg_extremum.t :=
  arg_extremum.combine min_replaces.
Definition argmax_add_element : arg_extremum.t -> list flexible_type -> outcome arg_extremum.t :=
  arg_extremum.add_element max_replaces.
Definition argmax_combine : arg_extremum.t -> arg_extremum.t -> outcome arg_extremum.t :=
  arg_extremum.combine max_replaces.

Module count.
Record t := mk { value : Z }.
Definition new : t := mk 0.
Definition new_instance (_ : t) : t := new.
Definition add_element_simple (a : t) (_ : flexible_type) : outcome t := Ok (mk (u64 (value a + 1))).
Definition combine (a other : t) : outcome t := Ok (mk (u64 (value a + value other))).
Definition emit (a : t) : outcome flexible_type := Ok (FInt (i64 (value a))).
Definition support_type (_ : t) (_ : flex_type_enum) : bool := true.
Definition set_input_types (a : t) (_ : list flex_type_enum) : outcome (flex_type_enum * t) :=
  Ok (INTEGER, a).
Definition save (a : t) : writer := pod_save 8 (value a).
Definition load (_ : t) : reader t := v <- pod_load 8 ;; rret (mk v).
End count.

Module vector_average.
Record t := mk { value : flexible_type; init : bool; failure : bool; count : Z }.
Definition new : t := mk (reset VECTOR) false false 0.
Definition new_instance (_ : t) : t := new.
(** [value += (flex - value) / double(count)], with the count already advanced *)
Definition mean_step (value flex : flexible_type) (count : Z) : outcome flexible_type :=
  obind (arithmetic OpMinus flex value) (fun d =>
  obind (arithmetic OpDiv d (FFloat (d_of_int count))) (fun q =>
  plus_equal_operator value q)).
Definition add_element_simple (a : t) (flex : flexible_type) : outcome t :=
  if negb (failure a) && negb (is_undefined flex) then
    if negb (init a) then Ok (mk flex true (failure a) (u64 (count a + 1)))
    else if negb (size flex =? size (value a))%nat then Ok (mk (value a) (init a) true (count a))
    else
      let count' := u64 (count a + 1) in
      omap_ok (fun v => mk v (init a) (failure a) count') (mean_step (value a) flex count')
  else Ok a.
(** [((value * count) + (other.value * other.count)) / (count + other.count)]; a
    count is converted to an integer [flexible_type] *)
Definition weighted_mean (v w : flexible_type) (n m : Z) : outcome flexible_type :=
  obind (arithmetic OpMul v (FInt (i64 n))) (fun x =>
  obind (arithmetic OpMul w (FInt (i64 m))) (fun y =>
  obind (arithmetic OpPlus x y) (fun s =>
  arithmetic OpDiv s (FInt (i64 (n + m)))))).
Definition combine (a other : t) : outcome t :=
  if negb (failure other) && negb (failure a) then
    if negb (init a) then Ok other
    else if init other then
      if negb (size (value a) =? size (value other))%nat then Ok (mk (value a) (init a) true (count a))
      else omap_ok (fun v => mk v (init a) (failure a) (u64 (count a + count other)))
             (weighted_mean (value a) (value other) (count a) (count other))
    else Ok a
  else Ok a.
Definition emit (a : t) : outcome flexible_type :=
  if failure a then Ok FUndefined else Ok (value a).
Definition support_type (_ : t) (ty : flex_type_enum) : bool := bool_decide (ty = VECTOR).
Definition set_input_type (a : t) (ty : flex_type_enum) : outcome (flex_type_enum * t) := Ok (ty, a).
Definition save (a : t) : writer :=
  flex_save (value a) >>> pod_save 8 (count a) >>> bool_save (init a) >>> bool_save (failure a).
Definition load (_ : t) : reader t :=
  v <- flex_load ;; c <- pod_load 8 ;; i <- bool_load ;; f <- bool_load ;; rret (mk v i f c).
End vector_average.

Module average.
Record t := mk { value : Z; count : Z }.
Definition new : t := mk 0 0.
Definition new_instance (_ : t) : t := new.
Definition add_element_simple (atof : bytes -> Z) (a : t) (flex : flexible_type) : outcome t :=
  if negb (eq_undefined flex) then
    obind (get_float_visitor atof flex) (fun d =>
    let count' := u64 (count a + 1) in
    Ok (mk (d_add (value a) (d_div (d_sub d (value a)) (d_of_int count'))) count'))
  else Ok a.
Definition combine (a other : t) : outcome t :=
  let total := u64 (count a + count other) in
  if 0 <? total then
    Ok (mk (d_div (d_add (d_mul (value a) (d_of_int (count a)))
                         (d_mul (value other) (d_of_int (count other))))
                  (d_of_int total)) total)
  else Ok a.
Definition emit (a : t) : outcome flexible_type := Ok (FFloat (value a)).
Definition support_type (_ : t) (ty : flex_type_enum) : bool := numeric ty.
Definition set_input_type (a : t) (_ : flex_type_enum) : outcome (flex_type_enum * t) := Ok (FLOAT, a).
Definition save (a : t) : writer := pod_save 8 (value a) >>> pod_save 8 (count a).
Definition load (_ : t) : reader t := v <- pod_load 8 ;; c <- pod_load 8 ;; rret (mk v c).
End average.

(** [variance], and [stdv] which only changes what is emitted *)
Module variance.
Record t := mk { count : Z; mean : Z; M2 : Z }.
Definition new : t := mk 0 0 0.
Definition new_instance (_ : t) : t := new.
Definition add_element_simple (atof : bytes -> Z) (a : t) (flex : flexible_type) : outcome t :=
  if negb (eq_undefined flex) then
    obind (get_float_visitor atof flex) (fun d =>
    let count' := u64 (count a + 1) in
    let delta := d_sub d (mean a) in
    let mean' := d_add (mean a) (d_div delta (d_of_int count')) in
    Ok (mk count' mean' (d_add (M2 a) (d_mul delta (d_sub d mean')))))
  else Ok a.
Definition combine (a other : t) : outcome t :=
  let total := u64 (count a + count other) in
  let delta := d_sub (mean other) (mean a) in
  Ok (mk total
        (d_div (d_add (d_mul (mean a) (d_of_int (count a))) (d_mul (mean other) (d_of_int (count other))))
               (d_of_int total))
        (d_add (M2 a)
           (d_add (M2 other)
              (d_div (d_mul (d_mul (d_mul delta delta) (d_of_int (count other))) (d_of_int (count a)))
                     (d_of_int total))))).
Definition emit (a : t) : outcome flexible_type :=
  if count a <=? 1 then Ok (FFloat 0) else Ok (FFloat (d_div (M2 a) (d_of_int (count a)))).
Definition stdv_emit (a : t) : outcome flexible_type :=
  obind (emit a) (fun v => match v with FFloat b => Ok (FFloat (d_sqrt b)) | _ => Throws end).
Definition support_type (_ : t) (ty : flex_type_enum) : bool := numeric ty.
Definition set_input_type (a : t) (_ : flex_type_enum) : outcome (flex_type_enum * t) := Ok (FLOAT, a).
Definition save (a : t) : writer := pod_save 8 (count a) >>> pod_save 8 (mean a) >>> pod_save 8 (M2 a).
Definition load (_ : t) : reader t :=
  c <- pod_load 8 ;; m <- pod_load 8 ;; s <- pod_load 8 ;; rret (mk c m s).
End variance.

(** [std::map<flexible_type, flexible_type>], ordered by [operator<]: the
    elements in key order.  [insert] keeps an element whose key is present. *)
Abbreviation flex_map := (list (flexible_type * flexible_type)).
Fixpoint map_insert (kv : flexible_type * flexible_type) (m : flex_map) : outcome flex_map :=
  match m with
  | [] => Ok [kv]
  | kv0 :: m' =>
      obind (lt_operator kv.1 kv0.1) (fun before =>
      if (before : bool) then Ok (kv :: m) else
      obind (lt_operator kv0.1 kv.1) (fun after =>
      if (after : bool) then omap_ok (cons kv0) (map_insert kv m') else Ok m))
  end.
Fixpoint map_insert_all (kvs m : flex_map) : outcome flex_map :=
  match kvs with [] => Ok m | kv :: kvs => obind (map_insert kv m) (map_insert_all kvs) end.

Module zip_dict.
Record t := mk { m_value : flex_map; m_missing_value : bool }.
Definition new : t := mk [] false.
Definition new_instance (_ : t) : t := new.
Definition add_element (a : t) (values : list flexible_type) : outcome t :=
  match values with
  | k :: v :: _ =>
      if negb (is_undefined k) then
        omap_ok (fun m => mk m (m_missing_value a)) (map_insert (k, v) (m_value a))
      else Ok (mk (m_value a) true)
  | _ => Undef
  end.
Definition add_element_simple (_ : t) (_ : flexible_type) : outcome t := Throws.
Definition combine (a v : t) : outcome t :=
  let missing := m_missing_value a || m_missing_value v in
  if negb missing then
    omap_ok (fun m => mk m missing) (map_insert_all (m_value v) (m_value a))
  else Ok (mk (m_value a) missing).
Definition emit (a : t) : outcome flexible_type :=
  if m_missing_value a && (length (m_value a) =? 0)%nat then Ok (FDict [])
  else Ok (FDict (m_value a)).
Definition support_type (_ : t) (_ : flex_type_enum) : bool := true.
Definition set_input_types (a : t) (_ : list flex_type_enum) : outcome (flex_type_enum * t) :=
  Ok (DICT, a).
Definition save (a : t) : writer :=
  bool_save (m_missing_value a) >>>
  serialize_iterator_n (pair_save flex_save flex_save) (m_value a) (length (m_value a)).
Definition load (_ : t) : reader t :=
  missing <- bool_load ;;
  m <- deserialize_iterator (pair_load flex_load flex_load)
         (fun kv om => obind om (map_insert kv)) (Ok []) ;;
  match m with Ok m => rret (mk m missing) | _ => rfail end.
End zip_dict.

(** The elements of a list converted one by one *)
Fixpoint convert_all {A} (f : flexible_type -> outcome A) (l : list flexible_type) : outcome (list A) :=
  match l with
  | [] => Ok []
  | x :: l => obind (f x) (fun y => omap_ok (cons y) (convert_all f l))
  end.

Module zip_list.
Record t := mk { m_value : list flexible_type; m_missing_value : bool; m_is_float : bool }.
(** [m_is_float] is not initialized before [set_input_types] *)
Definition new (m_is_float : bool) : t := mk [] false m_is_float.
Definition new_instance (a : t) : t := new (m_is_float a).
Definition add_element_simple (a : t) (flex : flexible_type) : outcome t :=
  if eq_undefined flex then Ok (mk (m_value a) true (m_is_float a))
  else Ok (mk (m_value a ++ [flex]) (m_missing_value a) (m_is_float a)).
Definition combine (a v : t) : outcome t :=
  Ok (mk (m_value a ++ m_value v) (m_missing_value a || m_missing_value v) (m_is_float a)).
Definition emit (atof : bytes -> Z) (a : t) : outcome flexible_type :=
  if m_missing_value a && (length (m_value a) =? 0)%nat then
    Ok (if m_is_float a then FVector [] else FList [])
  else if m_is_float a then omap_ok FVector (convert_all (get_float_visitor atof) (m_value a))
  else Ok (FList (m_value a)).
Definition support_type (_ : t) (_ : flex_type_enum) : bool := true.
Definition set_input_types (a : t) (types : list flex_type_enum) : outcome (flex_type_enum * t) :=
  match types with
  | [] => Undef
  | ty :: _ =>
      if bool_decide (ty = FLOAT) then Ok (VECTOR, mk (m_value a) (m_missing_value a) true)
      else Ok (LIST, mk (m_value a) (m_missing_value a) false)
  end.
Definition save (a : t) : writer :=
  bool_save (m_missing_value a) >>> bool_save (m_is_float a) >>> vector_save flex_save (m_value a).
Definition load (_ : t) : reader t :=
  missing <- bool_load ;; f <- bool_load ;; v <- vector_load flex_load ;; rret (mk v missing f).
End zip_list.

Module select_one.
Record t := mk { m_value : flexible_type; m_has_value : bool }.
Definition new : t := mk flex_default false.
Definition new_instance (_ : t) : t := new.
Definition add_element_simple (a : t) (flex : flexible_type) : outcome t :=
  if negb (m_has_value a) then Ok (mk flex true) else Ok a.
Definition combine (a _other : t) : outcome t := Ok a.
Definition emit (a : t) : outcome flexible_type := Ok (m_value a).
Definition support_type (_ : t) (_ : flex_type_enum) : bool := true.
Definition set_input_type (a : t) (ty : flex_type_enum) : outcome (flex_type_enum * t) := Ok (ty, a).
Definition save (a : t) : writer := bool_save (m_has_value a) >>> flex_save (m_value a).
Definition load (_ : t) : reader t := h <- bool_load ;; v <- flex_load ;; rret (mk v h).
End select_one.

(** ** The interface *)

(** A pointer to a built-in aggregator: the tag is its dynamic type. *)
Inductive builtin :=
| AVectorSum (a : vector_sum.t) | ASum (a : sum.t) | AMin (a : extremum.t) | AMax (a : extremum.t)
| AArgmin (a : arg_extremum.t) | AArgmax (a : arg_extremum.t) | ACount (a : count.t)
| AVectorAverage (a : vector_average.t) | AAverage (a : average.t) | AVariance (a : variance.t)
| AStdv (a : variance.t) | AZipDict (a : zip_dict.t) | AZipList (a : zip_list.t)
| ASelectOne (a : select_one.t).

Section aggregates.
(** [atof] of the C library *)
Context (atof : bytes -> Z).

Definition builtin_new_instance (b : builtin) : builtin :=
  match b with
  | AVectorSum a => AVectorSum (vector_sum.new_instance a)
  | ASum a => ASum (sum.new_instance a)
  | AMin a => AMin (extremum.new_instance a)
  | AMax a => AMax (extremum.new_instance a)
  | AArgmin a => AArgmin (arg_extremum.new_instance a)
  | AArgmax a => AArgmax (arg_extremum.new_instance a)
  | ACount a => ACount (count.new_instance a)
  | AVectorAverage a => AVectorAverage (vector_average.new_instance a)
  | AAverage a => AAverage (average.new_instance a)
  | AVariance a => AVariance (variance.new_instance a)
  | AStdv a => AStdv (variance.new_instance a)
  | AZipDict a => AZipDict (zip_dict.new_instance a)
  | AZipList a => AZipList (zip_list.new_instance a)
  | ASelectOne a => ASelectOne (select_one.new_instance a)
  end.

Definition builtin_add_element_simple (b : builtin) (flex : flexible_type) : outcome builtin :=
  match b with
  | AVectorSum a => omap_ok AVectorSum (vector_sum.add_element_simple a flex)
  | ASum a => omap_ok ASum (sum.add_element_simple a flex)
  | AMin a => omap_ok AMin (min_add_element_simple a flex)
  | AMax a => omap_ok AMax (max_add_element_simple a flex)
  | AArgmin a => omap_ok AArgmin (arg_extremum.add_element_simple a flex)
  | AArgmax a => omap_ok AArgmax (arg_extremum.add_element_simple a flex)
  | ACount a => omap_ok ACount (count.add_element_simple a flex)
  | AVectorAverage a => omap_ok AVectorAverage (vector_average.add_element_simple a flex)
  | AAverage a => omap_ok AAverage (average.add_element_simple atof a flex)
  | AVariance a => omap_ok AVariance (variance.add_element_simple atof a flex)
  | AStdv a => omap_ok AStdv (variance.add_element_simple atof a flex)
  | AZipDict a => omap_ok AZipDict (zip_dict.add_element_simple a flex)
  | AZipList a => omap_ok AZipList (zip_list.add_element_simple a flex)
  | ASelectOne a => omap_ok ASelectOne (select_one.add_element_simple a flex)
  end.

Definition builtin_add_element (b : builtin) (values : list flexible_type) : outcome builtin :=
  match b with
  | AArgmin a => omap_ok AArgmin (argmin_add_element a values)
  | AArgmax a => omap_ok AArgmax (argmax_add_element a values)
  | AZipDict a => omap_ok AZipDict (zip_dict.add_element a values)
  | _ => add_element_default builtin_add_element_simple b values
  end.

Definition builtin_combine (b other : builtin) : outcome builtin :=
  match b, other with
  | AVectorSum a, AVectorSum o => omap_ok AVectorSum (vector_sum.combine a o)
  | ASum a, ASum o => omap_ok ASum (sum.combine a o)
  | AMin a, AMin o => omap_ok AMin (min_combine a o)
  | AMax a, AMax o => omap_ok AMax (max_combine a o)
  | AArgmin a, AArgmin o => omap_ok AArgmin (argmin_combine a o)
  | AArgmax a, AArgmax o => omap_ok AArgmax (argmax_combine a o)
  | ACount a, ACount o => omap_ok ACount (count.combine a o)
  | AVectorAverage a, AVectorAverage o => omap_ok AVectorAverage (vector_average.combine a o)
  | AAverage a, AAverage o => omap_ok AAverage (average.combine a o)
  | AVariance a, (AVariance o | AStdv o) => omap_ok AVariance (variance.combine a o)
  | AStdv a, (AVariance o | AStdv o) => omap_ok AStdv (variance.combine a o)
  | AZipDict a, AZipDict o => omap_ok AZipDict (zip_dict.combine a o)
  | AZipList a, AZipList o => omap_ok AZipList (zip_list.combine a o)
  | ASelectOne a, _ => omap_ok ASelectOne (match other with
                                            | ASelectOne o => select_one.combine a o
                                            | _ => Ok a
                                            end)
  | _, _ => Throws
  end.

Definition builtin_emit (b : builtin) : outcome flexible_type :=
  match b with
  | AVectorSum a => vector_sum.emit a
  | ASum a => sum.emit a
  | AMin a | AMax a => extremum.emit a
  | AArgmin a | AArgmax a => arg_extremum.emit a
  | ACount a => count.emit a
  | AVectorAverage a => vector_average.emit a
  | AAverage a => average.emit a
  | AVariance a => variance.emit a
  | AStdv a => variance.stdv_emit a
  | AZipDict a => zip_dict.emit a
  | AZipList a => zip_list.emit atof a
  | ASelectOne a => select_one.emit a
  end.

Definition builtin_support_type (b : builtin) (ty : flex_type_enum) : bool :=
  match b with
  | AVectorSum a => vector_sum.support_type a ty
  | ASum a => sum.support_type a ty
  | AMin a | AMax a => extremum.support_type a ty
  | AArgmin a | AArgmax a => arg_extremum.support_type a ty
  | ACount a => count.support_type a ty
  | AVectorAverage a => vector_average.support_type a ty
  | AAverage a => average.support_type a ty
  | AVariance a | AStdv a => variance.support_type a ty
  | AZipDict a => zip_dict.support_type a ty
  | AZipList a => zip_list.support_type a ty
  | ASelectOne a => select_one.support_type a ty
  end.

Definition builtin_set_input_types (b : builtin) (types : list flex_type_enum)
    : outcome (flex_type_enum * builtin) :=
  let wrap {A} (c : A -> builtin) := omap_ok (fun r : flex_type_enum * A => (r.1, c r.2)) in
  match b with
  | AVectorSum a => wrap AVectorSum (set_input_types_default vector_sum.set_input_type a types)
  | ASum a => wrap ASum (set_input_types_default sum.set_input_type a types)
  | AMin a => wrap AMin (set_input_types_default extremum.set_input_type a types)
  | AMax a => wrap AMax (set_input_types_default extremum.set_input_type a types)
  | AArgmin a => wrap AArgmin (arg_extremum.set_input_types a types)
  | AArgmax a => wrap AArgmax (arg_extremum.set_input_types a types)
  | ACount a => wrap ACount (count.set_input_types a types)
  | AVectorAverage a =>
      wrap AVectorAverage (set_input_types_default vector_average.set_input_type a types)
  | AAverage a => wrap AAverage (set_input_types_default average.set_input_type a types)
  | AVariance a => wrap AVariance (set_input_types_default variance.set_input_type a types)
  | AStdv a => wrap AStdv (set_input_types_default variance.set_input_type a types)
  | AZipDict a => wrap AZipDict (zip_dict.set_input_types a types)
  | AZipList a => wrap AZipList (zip_list.set_input_types a types)
  | ASelectOne a => wrap ASelectOne (set_input_types_default select_one.set_input_type a types)
  end.

Definition builtin_save (b : builtin) : writer :=
  match b with
  | AVectorSum a => vector_sum.save a
  | ASum a => sum.save a
  | AMin a | AMax a => extremum.save a
  | AArgmin a | AArgmax a => arg_extremum.save a
  | ACount a => count.save a
  | AVectorAverage a => vector_average.save a
  | AAverage a => average.save a
  | AVariance a | AStdv a => variance.save a
  | AZipDict a => zip_dict.save a
  | AZipList a => zip_list.save a
  | ASelectOne a => select_one.save a
  end.

Definition builtin_load (b : builtin) : reader builtin :=
  let wrap {A} (c : A -> builtin) (l : reader A) := (x <- l ;; rret (c x)) in
  match b with
  | AVectorSum a => wrap AVectorSum (vector_sum.load a)
  | ASum a => wrap ASum (sum.load a)
  | AMin a => wrap AMin (extremum.load a)
  | AMax a => wrap AMax (extremum.load a)
  | AArgmin a => wrap AArgmin (arg_extremum.load a)
  | AArgmax a => wrap AArgmax (arg_extremum.load a)
  | ACount a => wrap ACount (count.load a)
  | AVectorAverage a => wrap AVectorAverage (vector_average.load a)
  | AAverage a => wrap AAverage (average.load a)
  | AVariance a => wrap AVariance (variance.load a)
  | AStdv a => wrap AStdv (variance.load a)
  | AZipDict a => wrap AZipDict (zip_dict.load a)
  | AZipList a => wrap AZipList (zip_list.load a)
  | ASelectOne a => wrap ASelectOne (select_one.load a)
  end.

#[export] Instance builtin_aggregate : Aggregate builtin := {
  new_instance := builtin_new_instance;
  add_element := builtin_add_element;
  add_element_simple := builtin_add_element_simple;
  partial_finalize := fun b => b;
  combine := builtin_combine;
  emit := builtin_emit;
  support_type := builtin_support_type;
  set_input_types := builtin_set_input_types;
  agg_save := builtin_save;
  agg_load := builtin_load
}.
End aggregates.

(** ** Column values and their order

    What [std::sort], [std::map] and the extremum aggregators rely on: on the
    values of one column, [operator<] is a strict weak order.  For doubles this
    needs the column to be free of NaN. *)
Definition col_dom (ty : flex_type_enum) (f : flexible_type) : Prop :=
  flex_ok f /\
  match ty, f with
  | INTEGER, FInt _ | STRING, FString _ => True
  | FLOAT, FFloat b => is_nan b = false
  | _, _ => False
  end.

Definition flt (x y : flexible_type) : bool :=
  match lt_operator x y with Ok b => b | _ => false end.

(** A strict weak order on the elements that satisfy [D] *)
Class StrictWeak {T} (D : T -> Prop) (r : T -> T -> bool) : Prop := {
  sw_irrefl x : D x -> r x x = false;
  sw_trans x y z : D x -> D y -> D z -> r x y = true -> r y z = true -> r x z = true;
  sw_split x y z : D x -> D y -> D z -> r x z = true -> r x y = true \/ r y z = true
}.

Lemma bytes_lt_irrefl s : bytes_lt s s = false.
Proof. induction s; cbn; [done|]. by rewrite Z.ltb_irrefl. Qed.

Lemma bytes_lt_trans x y z : bytes_lt x y = true -> bytes_lt y z = true -> bytes_lt x z = true.
Proof.
  revert y z. induction x as [|a x IH]; intros [|b y] [|c z]; cbn; try done.
  zcases; try lia; try done. intros. by eapply IH.
Qed.

Lemma bytes_lt_split x y z : bytes_lt x z = true -> bytes_lt x y = true \/ bytes_lt y z = true.
Proof.
  revert y z. induction x as [|a x IH]; intros [|b y] [|c z]; cbn; auto.
  zcases; try lia; eauto.
Qed.

Lemma flt_dom ty x y : col_dom ty x -> col_dom ty y -> lt_operator x y = Ok (flt x y).
Proof. intros [_ Hx] [_ Hy]. destruct ty, x; try done; by destruct y. Qed.

#[export] Instance col_dom_order ty : StrictWeak (col_dom ty) flt.
Proof.
  split.
  - intros x [Hk Hx]. destruct ty, x; try done; unfold flt; cbn in *; zcases; try lia; try done.
    + by rewrite d_lt_key, Z.ltb_irrefl by done.
    + apply bytes_lt_irrefl.
  - intros x y z [Kx Hx] [Ky Hy] [Kz Hz]. destruct ty, x; try done; destruct y; try done; destruct z; try done; unfold flt; cbn in *.
    + zcases; lia || done.
    + rewrite !d_lt_key by done. zcases; lia || done.
    + apply bytes_lt_trans.
  - intros x y z [Kx Hx] [Ky Hy] [Kz Hz]. destruct ty, x; try done; destruct y; try done; destruct z; try done; unfold flt; cbn in *.
    + zcases; try lia; auto.
    + rewrite !d_lt_key by done. zcases; try lia; auto.
    + apply bytes_lt_split.
Qed.

(** The converse of a strict weak order is one. *)
#[export] Instance flip_order {T} (D : T -> Prop) r : StrictWeak D r -> StrictWeak D (fun x y => r y x).
Proof.
  intros [H1 H2 H3]. split; eauto. intros x y z Dx Dy Dz H. destruct (H3 z y x Dz Dy Dx H); auto.
Qed.

(** ** Merging partial aggregates *)

(** How the container feeds the columns of one row to an aggregator: with no
    column it adds the value 0. *)
Definition feed {A} `{Aggregate A} (a : A) (vals : list flexible_type) : outcome A :=
  match vals with
  | [] => add_element_simple a (FInt 0)
  | [v] => add_element_simple a v
  | _ => add_element a vals
  end.
Fixpoint feed_all {A} `{Aggregate A} (a : A) (rows : list (list flexible_type)) : outcome A :=
  match rows with
  | [] => Ok a
  | vals :: rows => obind (feed a vals) (fun a => feed_all a rows)
  end.

(** What an aggregator promises to the container, for the rows that satisfy
    [ok]: adding rows does not fail, combining the aggregates of two non-empty
    sequences of rows gives the aggregate of their concatenation, and an
    aggregate survives serialization into a fresh instance. *)
Class Mergeable {A} `{Aggregate A} (proto : A) (ok : list flexible_type -> Prop) : Prop := {
  merge_total rows : Forall ok rows -> exists a, feed_all (new_instance proto) rows = Ok a;
  merge_combine xs ys a b :
    xs <> [] -> ys <> [] -> Forall ok xs -> Forall ok ys ->
    feed_all (new_instance proto) xs = Ok a -> feed_all (new_instance proto) ys = Ok b ->
    exists c, feed_all (new_instance proto) (xs ++ ys) = Ok c /\
      combine (partial_finalize a) (partial_finalize b) = Ok (partial_finalize c);
  merge_codec rows a :
    rows <> [] -> Forall ok rows -> fits_size (length rows) ->
    feed_all (new_instance proto) rows = Ok a ->
    codec agg_save (agg_load (new_instance proto)) (partial_finalize a)
}.

Lemma feed_all_app {A} `{Aggregate A} (a b : A) xs ys :
  feed_all a xs = Ok b -> feed_all a (xs ++ ys) = feed_all b ys.
Proof.
  revert a. induction xs as [|x xs IH]; intros a; cbn; [by intros [= ->]|].
  destruct (feed a x); cbn; try done. apply IH.
Qed.

(** An aggregator is mergeable when its states represent the elements of a
    monoid: a row is an element, adding it multiplies from the right, and
    combining multiplies.  [J] holds of the products of one or more rows;
    [weight] bounds what the serialized state counts. *)
Section monoid.
Context {A} `{Aggregate A} (proto : A) (ok : list flexible_type -> Prop).
Context {S : Type} (unit : S) (op : S -> S -> S) (inj : list flexible_type -> S) (rep : S -> A).
Context (J : S -> Prop) (weight : S -> nat).
Hypothesis op_assoc : forall x y z, J x -> J y -> J z -> op (op x y) z = op x (op y z).
Hypothesis op_unit : forall x, J x -> op unit x = x.
Hypothesis J_inj : forall row, ok row -> J (inj row).
Hypothesis J_op : forall x y, J x -> J y -> J (op x y).
Hypothesis weight_op : forall x y, (weight (op x y) <= weight x + weight y)%nat.
Hypothesis weight_inj : forall row, (weight (inj row) <= 1)%nat.
Hypothesis rep_new : new_instance proto = rep unit.
Hypothesis rep_feed : forall x row, x = unit \/ J x -> ok row -> feed (rep x) row = Ok (rep (op x (inj row))).
Hypothesis rep_combine : forall x y, J x -> J y ->
  combine (partial_finalize (rep x)) (partial_finalize (rep y)) = Ok (partial_finalize (rep (op x y))).
Hypothesis rep_codec : forall x, J x -> fits_size (weight x) ->
  codec agg_save (agg_load (new_instance proto)) (partial_finalize (rep x)).

Definition product (x : S) (rows : list (list flexible_type)) : S :=
  fold_left (fun x row => op x (inj row)) rows x.

Lemma feed_all_product x rows : x = unit \/ J x -> Forall ok rows ->
  feed_all (rep x) rows = Ok (rep (product x rows)).
Proof.
  intros Hx Hr. revert x Hx. induction Hr as [|row rows Hrow Hrows IH]; intros x Hx; [done|].
  cbn [feed_all]. rewrite rep_feed by done. cbn [obind]. apply IH. right.
  destruct Hx as [->|Hx]; [rewrite op_unit by auto|]; auto.
Qed.

Lemma product_J x rows : J x -> Forall ok rows -> J (product x rows).
Proof. intros Hx Hr. revert x Hx. induction Hr as [|row rows Hrow Hrows IH]; intros x Hx; [done|]. apply IH. auto. Qed.

Lemma product_op x y rows : J x -> J y -> Forall ok rows -> product (op x y) rows = op x (product y rows).
Proof.
  intros Hx Hy Hr. revert y Hy. induction Hr as [|row rows Hrow Hrows IH]; intros y Hy; cbn; [done|].
  rewrite op_assoc by auto. apply IH. auto.
Qed.

(** The product of a non-empty sequence of rows does not involve the unit. *)
Lemma product_cons row rows : ok row -> product unit (row :: rows) = product (inj row) rows.
Proof. intros. cbn. by rewrite op_unit by auto. Qed.

Lemma product_unit_J rows : rows <> [] -> Forall ok rows -> J (product unit rows).
Proof.
  destruct rows as [|row rows]; [done|]. intros _ Hr. apply Forall_cons in Hr as [Hrow Hr].
  rewrite product_cons by done. apply product_J; auto.
Qed.

Lemma product_weight x rows : (weight (product x rows) <= weight x + length rows)%nat.
Proof.
  revert x. induction rows as [|row rows IH]; intros x; cbn; [lia|].
  pose proof (IH (op x (inj row))) as Hw. pose proof (weight_op x (inj row)). pose proof (weight_inj row).
  unfold product in Hw. cbn in Hw. lia.

Qed.

Lemma monoid_mergeable : Mergeable proto ok.
Proof.
  split.
  - intros rows Hr. rewrite rep_new, feed_all_product by auto. eauto.
  - intros xs ys a b Nx Ny Hx Hy. rewrite rep_new, !feed_all_product by auto. intros [= <-] [= <-].
    rewrite feed_all_product by (auto; by apply Forall_app). eexists; split; [done|].
    pose proof (product_unit_J xs Nx Hx) as Jx.
    rewrite rep_combine by auto using product_unit_J. do 3 f_equal.
    unfold product at 3. rewrite fold_left_app. fold (product unit xs).
    destruct ys as [|y ys]; [done|]. apply Forall_cons in Hy as [Hy Hys].
    rewrite product_cons by done. symmetry. apply product_op; auto.
  - intros rows a Nr Hr Hn Ha. rewrite rep_new, feed_all_product in Ha by auto. injection Ha as <-.
    destruct rows as [|row rows]; [done|]. apply Forall_cons in Hr as [Hrow Hr].
    rewrite product_cons by done.
    apply rep_codec; [apply product_J; auto|]. pose proof (product_weight (inj row) rows).
    pose proof (weight_inj row). unfold fits_size in *. cbn in Hn. lia.
Qed.
End monoid.

(** ** The aggregators that merge *)

Lemma i64_assoc x y z : i64 (i64 (x + y) + z) = i64 (x + i64 (y + z)).
Proof.
  unfold signed. fold (i64 (x + y)) (i64 (y + z)).
  enough (u64 (i64 (x + y) + z) = u64 (x + i64 (y + z))) as -> by done.
  rewrite <- wrap_add_l, <- (wrap_add_r _ x), !wrap_signed by lia.
  by rewrite wrap_add_l, wrap_add_r, Z.add_assoc.
Qed.

Lemma u64_assoc x y z : u64 (u64 (x + y) + z) = u64 (x + u64 (y + z)).
Proof. by rewrite wrap_add_l, wrap_add_r, Z.add_assoc. Qed.

(** The rows an aggregator is fed, for which its partial results merge: the
    columns have the type the aggregator was set to, [ty] is the type of the
    compared column of [argmin] and [argmax] and of the keys of a dictionary,
    and missing values are allowed where the aggregator skips them. *)
Definition opt_dom (ty : flex_type_enum) (f : flexible_type) : Prop := f = FUndefined \/ col_dom ty f.
Definition row_ok (ty : flex_type_enum) (b : builtin) (row : list flexible_type) : Prop :=
  match b with
  | ASum a => get_type (sum.value a) = INTEGER /\ exists v, row = [v] /\ opt_dom INTEGER v
  | AMin a | AMax a =>
      exists v, row = [v] /\ opt_dom (get_type (extremum.value a)) v
  | AArgmin _ | AArgmax _ => exists k v, row = [k; v] /\ opt_dom ty k /\ flex_ok v
  | ACount _ => True
  | AZipDict _ => exists k v, row = [k; v] /\ col_dom ty k /\ flex_ok v
  | AZipList _ | ASelectOne _ => exists v, row = [v] /\ flex_ok v
  | _ => False
  end.

(** Decoding the fields one after the other, from the codecs of the fields *)
Ltac parse_fields :=
  first [ apply parses_ret
        | eapply parses_bind_nil; [eassumption|]; apply parses_ret
        | eapply parses_bind; [eassumption|]; parse_fields ].
Ltac emit_fields := first [ eassumption | apply emits_seq; [eassumption|]; emit_fields ].
Ltac fields_codec := eexists; split; [emit_fields|]; eapply parses_bind_nil; [parse_fields | apply parses_ret].

Lemma wrap_codec {A} (save : A -> writer) (load : reader A) (c : A -> builtin) (s : builtin -> writer) x :
  s (c x) = save x -> codec save load x -> codec s (y <- load ;; rret (c y)) (c x).
Proof.
  intros E (bs & He & Hp). exists bs. rewrite E. split; [done|].
  eapply parses_bind_nil; [done | apply parses_ret].
Qed.

Lemma mergeable_none {A} `{Aggregate A} (proto : A) ok : (forall row, ~ ok row) -> Mergeable proto ok.
Proof.
  intros Hn. assert (forall rows, Forall ok rows -> rows = []) as Hr.
  { intros [|row rows] Hf; [done|]. apply Forall_cons in Hf as [Hf _]. by destruct (Hn row). }
  split; intros.
  - rewrite (Hr rows) by done. by eexists.
  - by destruct (Hr xs).
  - by destruct (Hr rows).
Qed.

(** [pick]: the element that survives a comparison, with no element as unit *)
Definition pick {T} (r : T -> T -> bool) (x y : option T) : option T :=
  match x, y with
  | None, _ => y
  | _, None => x
  | Some a, Some b => if r a b then y else x
  end.

Lemma pick_assoc {T} (D : T -> Prop) r `{!StrictWeak D r} x y z :
  (forall a, x = Some a -> D a) -> (forall a, y = Some a -> D a) -> (forall a, z = Some a -> D a) ->
  pick r (pick r x y) z = pick r x (pick r y z).
Proof.
  intros Hx Hy Hz. destruct x as [x|], y as [y|], z as [z|]; cbn; try done.
  2: by destruct (r x y).
  specialize (Hx x eq_refl). specialize (Hy y eq_refl). specialize (Hz z eq_refl).
  destruct (r x y) eqn:E1, (r y z) eqn:E2; cbn; rewrite ?E1, ?E2; try done.
  - by rewrite (sw_trans x y z) by done.
  - destruct (r x z) eqn:E3; [|done].
    destruct (sw_split x y z Hx Hy Hz E3); congruence.
Qed.

Lemma pick_dom {T} (D : T -> Prop) r x y :
  (forall a, x = Some a -> D a) -> (forall a, y = Some a -> D a) -> forall a, pick r x y = Some a -> D a.
Proof. intros Hx Hy a. destruct x, y; cbn; try case_match; intros [= <-]; auto. Qed.

(** *** Insertion into an ordered map

    [ins] is [map_insert] on keys that compare.  Inserting the elements of a map
    has the effect of the insertions that built it. *)
Section ordered_map.
Context (D : flexible_type -> Prop) (r : flexible_type -> flexible_type -> bool) `{!StrictWeak D r}.

Fixpoint ins (kv : flexible_type * flexible_type) (m : flex_map) : flex_map :=
  match m with
  | [] => [kv]
  | kv0 :: m' => if r kv.1 kv0.1 then kv :: m else if r kv0.1 kv.1 then kv0 :: ins kv m' else m
  end.
Definition ins_all (kvs m : flex_map) : flex_map := fold_left (fun m kv => ins kv m) kvs m.
Definition keys_in (m : flex_map) : Prop := Forall (fun kv => D kv.1) m.
Definition key_lt (a b : flexible_type * flexible_type) : Prop := r a.1 b.1 = true.

Lemma sw_asym x y : D x -> D y -> r x y = true -> r y x = false.
Proof.
  intros Hx Hy H. destruct (r y x) eqn:E; [|done].
  pose proof (sw_trans x y x Hx Hy Hx H E). by rewrite sw_irrefl in *.
Qed.

Lemma keys_in_ins kv m : D kv.1 -> keys_in m -> keys_in (ins kv m).
Proof.
  intros Hk. induction 1 as [|kv0 m H0 Hm IH]; cbn; [by constructor|].
  repeat case_match; by repeat constructor.
Qed.
Lemma keys_in_ins_all kvs m : keys_in kvs -> keys_in m -> keys_in (ins_all kvs m).
Proof. intros Hs. revert m. induction Hs; intros m Hm; cbn; auto using keys_in_ins. Qed.

Lemma ins_sorted kv m : D kv.1 -> keys_in m ->
  StronglySorted key_lt m -> StronglySorted key_lt (ins kv m).
Proof.
  intros Hk Hm. induction 1 as [|kv0 m Hs IH Hlt]; cbn; [by repeat constructor|].
  apply Forall_cons in Hm as [H0 Hm].
  destruct (r kv.1 kv0.1) eqn:E1; [|destruct (r kv0.1 kv.1) eqn:E2].
  - constructor; [by constructor|]. constructor; [done|].
    rewrite Forall_forall in *. intros x Hx. unfold key_lt.
    eapply (sw_trans _ kv0.1); try done; [by apply (Hm x)|by apply (Hlt x)].
  - constructor; [auto|]. clear IH Hs. induction m as [|kv1 m IH]; cbn; [by constructor|].
    apply Forall_cons in Hlt as [L1 Hlt], Hm as [H1 Hm]. repeat case_match; auto.
  - by constructor.
Qed.

Ltac decide_r := repeat match goal with
  | H : r ?x ?y = _ |- context [r ?x ?y] => rewrite H
  | H : r ?x ?y = true |- context [r ?y ?x] => rewrite (sw_asym x y) by done
  end.

Lemma sw_equiv_l x y z : D x -> D y -> D z -> r x y = false -> r y x = false -> r x z = r y z.
Proof.
  intros Hx Hy Hz E1 E2. destruct (r x z) eqn:E3, (r y z) eqn:E4; try done.
  - destruct (sw_split x y z Hx Hy Hz E3); congruence.
  - destruct (sw_split y x z Hy Hx Hz E4); congruence.
Qed.
Lemma sw_equiv_r x y z : D x -> D y -> D z -> r x y = false -> r y x = false -> r z x = r z y.
Proof.
  intros Hx Hy Hz E1 E2. destruct (r z x) eqn:E3, (r z y) eqn:E4; try done.
  - destruct (sw_split z y x Hz Hy Hx E3); congruence.
  - destruct (sw_split z x y Hz Hx Hy E4); congruence.
Qed.

(** Insertions of keys that differ commute. *)
Lemma ins_comm a b m : D a.1 -> D b.1 -> keys_in m -> r a.1 b.1 = true ->
  ins a (ins b m) = ins b (ins a m).
Proof.
  intros Ha Hb Hm Hab. pose proof (sw_asym _ _ Ha Hb Hab) as Hba.
  induction Hm as [|c m Hc Hm IH]; cbn; [by rewrite Hab, Hba|].
  destruct (r a.1 c.1) eqn:Eac, (r b.1 c.1) eqn:Ebc; cbn; decide_r; try done.
  - destruct (r c.1 b.1) eqn:Ecb; cbn; decide_r; cbn; decide_r; done.
  - pose proof (sw_trans _ _ _ Ha Hb Hc Hab Ebc). congruence.
  - destruct (r c.1 a.1) eqn:Eca; cbn; decide_r.
    + pose proof (sw_trans _ _ _ Hc Ha Hb Eca Hab) as Ecb. decide_r. cbn. decide_r. by rewrite IH.
    + rewrite (sw_equiv_l a.1 c.1 b.1) in Hab by done. decide_r. cbn. by decide_r.
Qed.

(** An insertion of a key that was just inserted does nothing. *)
Lemma ins_idem a b m : D a.1 -> D b.1 -> keys_in m -> r a.1 b.1 = false -> r b.1 a.1 = false ->
  ins a (ins b m) = ins b m.
Proof.
  intros Ha Hb Hm E1 E2. induction Hm as [|c m Hc Hm IH]; cbn; [by rewrite E1, E2|].
  pose proof (sw_equiv_l a.1 b.1 c.1 Ha Hb Hc E1 E2) as L.
  pose proof (sw_equiv_r a.1 b.1 c.1 Ha Hb Hc E1 E2) as R.
  destruct (r b.1 c.1) eqn:Ebc; cbn; rewrite ?E1, ?E2; [done|].
  destruct (r c.1 b.1) eqn:Ecb; cbn; rewrite L, R, ?Ebc; rewrite ?IH; done.
Qed.

Lemma ins_all_swap a L m : D a.1 -> keys_in L -> keys_in m ->
  Forall (fun b => r a.1 b.1 = true \/ r b.1 a.1 = true) L ->
  ins_all L (ins a m) = ins a (ins_all L m).
Proof.
  intros Ha HL. revert m. induction HL as [|b L Hb HL IH]; intros m Hm Hd; [done|].
  apply Forall_cons in Hd as [Hab Hd]. cbn.
  replace (ins b (ins a m)) with (ins a (ins b m)); [apply IH; auto using keys_in_ins|].
  destruct Hab; [|symmetry]; by apply ins_comm.
Qed.

Lemma ins_all_ins a L m : D a.1 -> keys_in L -> keys_in m -> StronglySorted key_lt L ->
  ins_all (ins a L) m = ins a (ins_all L m).
Proof.
  intros Ha HL Hm Hs. revert m Hm. induction Hs as [|b L Hs IH Hlt]; intros m Hm; [done|].
  pose proof HL as HL'. apply Forall_cons in HL' as [Hb HL']. cbn [ins].
  destruct (r a.1 b.1) eqn:Eab; [|destruct (r b.1 a.1) eqn:Eba].
  - cbn [ins_all fold_left]. apply (ins_all_swap a (b :: L)); try done. constructor; [by left|].
    unfold keys_in in HL'. rewrite Forall_forall in *. intros x Hx. left.
    eapply (sw_trans _ b.1); try done; [by apply (HL' x)|by apply (Hlt x)].
  - cbn. apply IH; auto using keys_in_ins.
  - cbn. fold (ins_all L (ins b m)). rewrite <- (ins_all_swap a) by
      (auto using keys_in_ins; unfold keys_in in HL'; rewrite Forall_forall in *; intros x Hx; left;
       rewrite (sw_equiv_l a.1 b.1) by (auto; by apply (HL' x)); by apply (Hlt x)).
    by rewrite ins_idem.
Qed.

Lemma ins_all_spec s : keys_in s -> StronglySorted key_lt (ins_all s []) /\
  forall m, keys_in m -> ins_all (ins_all s []) m = ins_all s m.
Proof.
  induction s as [|kv s IH] using rev_ind; intros Hs; [split; [constructor | done]|].
  apply Forall_app in Hs as [Hs Hkv]. apply Forall_cons in Hkv as [Hkv _].
  destruct (IH Hs) as [Hsort Hall]. assert (keys_in (ins_all s [])) by (apply keys_in_ins_all; [done | constructor]).
  assert (forall m, ins_all (s ++ [kv]) m = ins kv (ins_all s m)) as E.
  { intros m. unfold ins_all. by rewrite fold_left_app. }
  rewrite !E. split; [by apply ins_sorted|]. intros m Hm. rewrite E, ins_all_ins by done. by rewrite Hall.
Qed.

Lemma ins_all_sub (P : flexible_type * flexible_type -> Prop) s m :
  Forall P s -> Forall P m ->
  Forall P (ins_all s m) /\ (length (ins_all s m) <= length s + length m)%nat.
Proof.
  intros Hs. revert m. induction Hs as [|kv s Hkv Hs IH]; intros m Hm; cbn; [by split|].
  assert (Forall P (ins kv m) /\ (length (ins kv m) <= S (length m))%nat) as [Hi Hl].
  { induction Hm as [|kv0 m H0 Hm IHm]; cbn; [split; [by constructor|lia]|].
    destruct IHm. repeat case_match; cbn; (split; [by repeat constructor | lia]). }
  destruct (IH _ Hi) as [? ?]. fold (ins_all s (ins kv m)). split; [done|lia].
Qed.
End ordered_map.

Lemma map_insert_ins ty kv m : col_dom ty kv.1 -> keys_in (col_dom ty) m ->
  map_insert kv m = Ok (ins flt kv m).
Proof.
  intros Hk. induction 1 as [|kv0 m H0 Hm IH]; cbn; [done|].
  rewrite !(flt_dom ty) by done. cbn. destruct (flt kv.1 kv0.1); [done|].
  destruct (flt kv0.1 kv.1); [|done]. by rewrite IH.
Qed.

Lemma map_insert_all_ins ty kvs m : keys_in (col_dom ty) kvs -> keys_in (col_dom ty) m ->
  map_insert_all kvs m = Ok (ins_all flt kvs m).
Proof.
  intros Hk. revert m. induction Hk as [|kv kvs Hkv Hk IH]; intros m Hm; [done|].
  cbn. rewrite (map_insert_ins ty) by done. cbn. apply IH. by apply keys_in_ins.
Qed.

Section instances.
Context (atof : bytes -> Z) (ty : flex_type_enum).
#[local] Existing Instance builtin_aggregate.
#[local] Abbreviation mergeable b := (@Mergeable builtin (builtin_aggregate atof) b (row_ok ty b)).

Lemma sum_mergeable a : mergeable (ASum a).
Proof.
  destruct (decide (get_type (sum.value a) = INTEGER)) as [Ea|Ea].
  2: { apply mergeable_none. by intros row [? _]. }
  apply (monoid_mergeable _ _ 0 (fun x y => i64 (x + y))
           (fun row => match row with [FInt i] => i | _ => 0 end)
           (fun z => ASum (sum.mk (FInt z))) (is_s 64) (fun _ => 0%nat)); try (intros; cbn; lia).
  - intros. apply i64_assoc.
  - intros. by apply signed_small.
  - intros row (_ & v & -> & [->|[Hv Hd]]); [done|]. by destruct v.
  - intros. by apply signed_range.
  - cbn. unfold sum.new_instance. by rewrite Ea.
  - intros x row Hx (_ & v & -> & [->|[Hv Hd]]).
    + cbn. rewrite Z.add_0_r, signed_small; try done. by destruct Hx as [->|].
    + by destruct v.
  - done.
  - intros x Hx _. apply (wrap_codec sum.save); [done|].
    destruct (codec_at (FInt x) Hx) as (b & He & Hp). exists b. split; [done|].
    eapply parses_bind_nil; [done | apply parses_ret].
Qed.

Lemma count_mergeable a : mergeable (ACount a).
Proof.
  apply (monoid_mergeable _ _ 0 (fun x y => u64 (x + y)) (fun _ => 1)
           (fun z => ACount (count.mk z)) (is_u 64) (fun _ => 0%nat)); try (intros; cbn; lia).
  - intros. apply u64_assoc.
  - intros. by apply wrap_small.
  - done.
  - intros. by apply wrap_range.
  - done.
  - intros x row _ _. by destruct row as [|v [|w row]].
  - done.
  - intros x Hx _. apply (wrap_codec count.save); [done|].
    destruct (codec_at (Codec := pod_codec 8) x Hx) as (b & He & Hp). exists b. split; [done|].
    eapply parses_bind_nil; [done | apply parses_ret].
Qed.

(** [min] and [max] keep the element that survives the comparisons. *)
Lemma extremum_mergeable c replaces r a :
  StrictWeak (col_dom (get_type (extremum.value a))) r ->
  (forall x y, col_dom (get_type (extremum.value a)) x -> col_dom (get_type (extremum.value a)) y ->
     replaces x y = Ok (r x y)) ->
  (forall v, row_ok ty (c v) = row_ok ty (AMin v)) ->
  (forall v, builtin_new_instance (c v) = c (extremum.new_instance v)) ->
  (forall v flex, builtin_add_element_simple atof (c v) flex =
     omap_ok c (extremum.add_element_simple replaces v flex)) ->
  (forall v w, builtin_combine (c v) (c w) = omap_ok c (extremum.combine replaces v w)) ->
  (forall v, builtin_save (c v) = extremum.save v) ->
  (forall v, builtin_load (c v) = (x <- extremum.load v ;; rret (c x))) ->
  mergeable (c a).
Proof.
  intros Hr Hrep Hrow Hnew Hadd Hcomb Hsave Hload. set (t := get_type (extremum.value a)) in *.
  assert (forall v, flex_ok (reset (get_type v))) as Hreset.
  { intros v. by destruct v; cbn. }
  rewrite Hrow.
  apply (monoid_mergeable _ _ None (pick r)
           (fun row => match row with [v] => if is_undefined v then None else Some v | _ => None end)
           (fun o => c (match o with Some v => extremum.mk v true | None => extremum.mk (reset t) false end))
           (fun o => forall v, o = Some v -> col_dom t v) (fun _ => 0%nat)); try (intros; cbn; lia).
  - intros. by apply (pick_assoc (col_dom t)).
  - done.
  - intros row (v & -> & [->|Hv]) w; cbn; [done|]. case_match; [done|]. by intros [= <-].
  - intros x y. apply pick_dom.
  - apply Hnew.
  - intros x row Hx (v & -> & Hv). cbn [feed]. cbn [add_element_simple builtin_aggregate].
    rewrite Hadd. unfold extremum.add_element_simple.
    destruct (is_undefined v) eqn:Eu; cbn [negb].
    { by destruct x. }
    assert (col_dom t v) as Hd by (by destruct Hv as [->|]).
    destruct x as [x|]; cbn [extremum.init extremum.value negb pick omap_ok]; [|done].
    rewrite Hrep; [|by destruct Hx as [|Hx]; [done|apply Hx] | done].
    cbn. by destruct (r x v).
  - intros x y Hx Hy. cbn. rewrite Hcomb. unfold extremum.combine.
    destruct x as [x|], y as [y|]; cbn [extremum.init extremum.value negb pick omap_ok]; try done.
    rewrite Hrep by auto. cbn. by destruct (r x y).
  - intros x Hx _. cbn [agg_save agg_load partial_finalize new_instance builtin_aggregate].
    rewrite Hnew, Hload. eapply wrap_codec; [apply Hsave|].
    set (s := match x with Some v => _ | None => _ end).
    assert (flex_ok (extremum.value s)) as Hs.
    { destruct x as [x|]; cbn; [by apply Hx | apply Hreset]. }
    destruct (codec_at _ Hs) as (b1 & E1 & P1), (codec_at (extremum.init s) I) as (b2 & E2 & P2).
    exists (b1 ++ b2). split; [by apply emits_seq|]. destruct s; cbn in *. parse_fields.
Qed.

Lemma min_mergeable a : mergeable (AMin a).
Proof.
  apply (extremum_mergeable AMin min_replaces (fun x y => flt y x)); try done.
  - apply flip_order, _.
  - intros x y Hx Hy. unfold min_replaces. rewrite <- (flt_dom (get_type (extremum.value a))) by done.
    symmetry. apply lt_gt_swap.
Qed.

Lemma max_mergeable a : mergeable (AMax a).
Proof.
  apply (extremum_mergeable AMax max_replaces flt); try done; [apply _|].
  intros x y Hx Hy. by apply (flt_dom (get_type (extremum.value a))).
Qed.

(** [argmin] and [argmax]: the rows are compared by their first element. *)
Definition arg_row (row : list flexible_type) : option (list flexible_type) :=
  match row with
  | k :: _ => if is_undefined k then None else Some row
  | [] => None
  end.
Definition arg_dom (row : list flexible_type) : Prop :=
  exists k v, row = [k; v] /\ col_dom ty k /\ flex_ok v.
Definition arg_rel (r : flexible_type -> flexible_type -> bool) (x y : list flexible_type) : bool :=
  match x, y with a :: _, b :: _ => r a b | _, _ => false end.

Lemma arg_order r : StrictWeak (col_dom ty) r -> StrictWeak arg_dom (arg_rel r).
Proof.
  intros [H1 H2 H3]. split.
  - intros x (k & v & -> & Hk & _). by apply H1.
  - intros x y z (k1 & v1 & -> & ? & _) (k2 & v2 & -> & ? & _) (k3 & v3 & -> & ? & _). by apply H2.
  - intros x y z (k1 & v1 & -> & ? & _) (k2 & v2 & -> & ? & _) (k3 & v3 & -> & ? & _). by apply H3.
Qed.

Lemma arg_mergeable c replaces r a :
  StrictWeak (col_dom ty) r ->
  (forall x y, col_dom ty x -> col_dom ty y -> replaces x y = Ok (r x y)) ->
  (forall v, row_ok ty (c v) = row_ok ty (AArgmin v)) ->
  (forall v, builtin_new_instance (c v) = c arg_extremum.new) ->
  (forall v row, builtin_add_element atof (c v) row = omap_ok c (arg_extremum.add_element replaces v row)) ->
  (forall v w, builtin_combine (c v) (c w) = omap_ok c (arg_extremum.combine replaces v w)) ->
  (forall v, builtin_save (c v) = arg_extremum.save v) ->
  (forall v, builtin_load (c v) = (x <- arg_extremum.load v ;; rret (c x))) ->
  mergeable (c a).
Proof.
  intros Hr Hrep Hrow Hnew Hadd Hcomb Hsave Hload. rewrite Hrow.
  apply (monoid_mergeable _ _ None (pick (arg_rel r)) arg_row
           (fun o => c (match o with Some v => arg_extremum.mk v true | None => arg_extremum.new end))
           (fun o => forall v, o = Some v -> arg_dom v) (fun _ => 0%nat)); try (intros; cbn; lia).
  - pose proof (arg_order r Hr). intros. by apply (pick_assoc arg_dom).
  - done.
  - intros row (k & v & -> & [->|Hk] & Hv) w; cbn; [done|]. case_match; [done|]. intros [= <-].
    by exists k, v.
  - intros x y. apply pick_dom.
  - apply Hnew.
  - intros x row Hx (k & v & -> & Hk & Hv). cbn [feed add_element builtin_aggregate].
    rewrite Hadd. unfold arg_extremum.add_element, arg_row.
    destruct (is_undefined k) eqn:Eu; cbn [negb]; [by destruct x|].
    assert (col_dom ty k) as Hd by (by destruct Hk as [->|]).
    destruct x as [x|]; cbn [arg_extremum.init negb pick omap_ok]; [|done].
    destruct Hx as [|Hx]; [done|]. destruct (Hx x eq_refl) as (k' & v' & -> & Hk' & _).
    cbn. rewrite Hrep by done. cbn. by destruct (r k' k).
  - intros x y Hx Hy. cbn. rewrite Hcomb. unfold arg_extremum.combine.
    destruct x as [x|], y as [y|]; cbn [arg_extremum.init arg_extremum.new negb pick omap_ok]; try done.
    destruct (Hx x eq_refl) as (k & v & -> & Hk & _), (Hy y eq_refl) as (k' & v' & -> & Hk' & _).
    cbn. rewrite Hrep by done. cbn. by destruct (r k k').
  - intros x Hx _. cbn [agg_save agg_load partial_finalize new_instance builtin_aggregate].
    rewrite Hnew, Hload. eapply wrap_codec; [apply Hsave|].
    set (s := match x with Some v => _ | None => _ end).
    assert (fits_size (length (arg_extremum.vec_value s)) /\ Forall flex_ok (arg_extremum.vec_value s)) as Hs.
    { destruct x as [x|]; cbn; [|done]. destruct (Hx x eq_refl) as (k & v & -> & [Hk _] & Hv). by repeat constructor. }
    destruct (codec_at (Codec := vector_codec _ _ _) _ Hs) as (b1 & E1 & P1),
      (codec_at (arg_extremum.init s) I) as (b2 & E2 & P2).
    exists (b1 ++ b2). split; [by apply emits_seq|]. destruct s; cbn in *. parse_fields.
Qed.

Lemma argmin_mergeable a : mergeable (AArgmin a).
Proof.
  apply (arg_mergeable AArgmin min_replaces (fun x y => flt y x)); try done.
  - apply flip_order, _.
  - intros x y Hx Hy. unfold min_replaces. rewrite <- (flt_dom ty) by done. symmetry. apply lt_gt_swap.
Qed.

Lemma argmax_mergeable a : mergeable (AArgmax a).
Proof.
  apply (arg_mergeable AArgmax max_replaces flt); try done; [apply _|].
  intros x y Hx Hy. by apply (flt_dom ty).
Qed.

Lemma zip_list_mergeable a : mergeable (AZipList a).
Proof.
  apply (monoid_mergeable _ _ ([], false) (fun x y => (x.1 ++ y.1, x.2 || y.2))
           (fun row => match row with [v] => if eq_undefined v then ([], true) else ([v], false) | _ => ([], false) end)
           (fun s => AZipList (zip_list.mk s.1 s.2 (zip_list.m_is_float a)))
           (fun s => Forall flex_ok s.1) (fun s => length s.1)).
  - intros [x1 x2] [y1 y2] [z1 z2] _ _ _. cbn. by rewrite app_assoc, orb_assoc.
  - by intros [x1 x2].
  - intros row (v & -> & Hv). case_match; by repeat constructor.
  - intros x y Hx Hy. by apply Forall_app.
  - intros x y. cbn. by rewrite length_app.
  - intros [|v [|w row]]; cbn; try lia. case_match; cbn; lia.
  - done.
  - intros [x1 x2] row _ (v & -> & Hv). cbn. unfold zip_list.add_element_simple.
    destruct (eq_undefined v); cbn; [by rewrite app_nil_r, orb_true_r | by rewrite orb_false_r].
  - done.
  - intros [x1 x2] Hx Hn. apply (wrap_codec zip_list.save); [done|].
    destruct (codec_at (Codec := vector_codec _ _ _) x1 (conj Hn Hx)) as (b3 & E3 & P3),
      (codec_at x2 I) as (b1 & E1 & P1), (codec_at (zip_list.m_is_float a) I) as (b2 & E2 & P2).
    exists (b1 ++ b2 ++ b3). split; [emit_fields | cbn; parse_fields].
Qed.

Lemma select_one_mergeable a : mergeable (ASelectOne a).
Proof.
  apply (monoid_mergeable _ _ None (fun x y => match x with Some _ => x | None => y end)
           (fun row => match row with [v] => Some v | _ => None end)
           (fun o => ASelectOne (match o with Some v => select_one.mk v true | None => select_one.new end))
           (fun o => exists v, o = Some v /\ flex_ok v) (fun _ => 0%nat)); try (intros; cbn; lia).
  - by intros x y z (? & -> & _).
  - done.
  - intros row (v & -> & Hv). by exists v.
  - by intros x y (? & -> & ?) _; eexists.
  - done.
  - intros x row _ (v & -> & Hv). by destruct x.
  - by intros x y (? & -> & _) (? & -> & _).
  - intros x (v & -> & Hv) _. apply (wrap_codec select_one.save); [done|].
    destruct (codec_at true I) as (b1 & E1 & P1), (codec_at v Hv) as (b2 & E2 & P2).
    exists (b1 ++ b2). split; [emit_fields | parse_fields].
Qed.

Lemma zip_dict_mergeable a : mergeable (AZipDict a).
Proof.
  set (J := fun s : flex_map => Forall (fun kv => col_dom ty kv.1 /\ flex_ok kv.2) s).
  assert (forall s, J s -> keys_in (col_dom ty) s) as HJ.
  { intros s Hs. eapply Forall_impl; [exact Hs | by intros ? []]. }
  assert (forall s, J s -> keys_in (col_dom ty) (ins_all flt s [])) as HJa.
  { intros s Hs. apply keys_in_ins_all; [by apply HJ | constructor]. }
  apply (monoid_mergeable _ _ [] (++)
           (fun row => match row with [k; v] => [(k, v)] | _ => [] end)
           (fun s => AZipDict (zip_dict.mk (ins_all flt s []) false)) J length).
  - intros. by rewrite app_assoc.
  - done.
  - intros row (k & v & -> & Hk & Hv). by apply Forall_singleton.
  - intros. by apply Forall_app.
  - intros. by rewrite length_app.
  - intros [|k [|v [|w row]]]; cbn; lia.
  - done.
  - intros s row Hs (k & v & -> & Hk & Hv). assert (J s) as Js by (destruct Hs as [->|]; [constructor | done]).
    cbn. unfold zip_dict.add_element. assert (is_undefined k = false) as -> by (destruct Hk; by destruct ty, k).
    cbn [negb zip_dict.m_value]. rewrite (map_insert_ins ty) by auto. unfold ins_all. by rewrite fold_left_app.
  - intros x y Hx Hy. cbn. unfold zip_dict.combine. cbn [zip_dict.m_missing_value orb negb zip_dict.m_value].
    rewrite (map_insert_all_ins ty) by auto. cbn.
    rewrite (proj2 (ins_all_spec (col_dom ty) flt y (HJ y Hy))) by auto.
    unfold ins_all. by rewrite fold_left_app.
  - intros s Hs Hn. apply (wrap_codec zip_dict.save); [done|].
    destruct (codec_at false I) as (b1 & E1 & P1).
    destruct (ins_all_sub flt _ s [] Hs) as [Hf Hl]; [constructor|].
    destruct (deserialize_iterator_spec (pair_save FlexibleType.save FlexibleType.save) (pair_load FlexibleType.load FlexibleType.load)
       (fun kv om => obind om (map_insert kv)) (Ok []) (ins_all flt s [])) as (b2 & E2 & P2).
    { unfold fits_size in *. cbn in Hl. lia. }
    { eapply Forall_impl; [exact Hf|]. intros [k v] [[Hk _] Hv]. apply codec_pair; by apply codec_at. }
    exists (b1 ++ b2). split; [emit_fields|].
    assert (forall l m, keys_in (col_dom ty) l -> keys_in (col_dom ty) m ->
      fold_left (fun om kv => obind om (map_insert kv)) l (Ok m) = Ok (ins_all flt l m)) as Hfold.
    { intros l m Hk. revert m. induction Hk as [|kv l Hkv Hk IH]; intros m Hm; [done|].
      cbn. rewrite (map_insert_ins ty) by done. apply IH. by apply keys_in_ins. }
    rewrite Hfold, (proj2 (ins_all_spec (col_dom ty) flt s (HJ s Hs))) in P2 by (auto; constructor).
    eapply parses_bind; [done|]. eapply parses_bind_nil; [done|]. apply parses_ret.
Qed.

(** Every built-in aggregator that does not compute with rounded doubles. *)
Lemma builtin_mergeable b : mergeable b.
Proof.
  destruct b; auto using sum_mergeable, min_mergeable, max_mergeable, argmin_mergeable, argmax_mergeable,
    count_mergeable, zip_dict_mergeable, zip_list_mergeable, select_one_mergeable;
    apply mergeable_none; by intros row [].
Qed.
End instances.

(** C29. Partial aggregates merge.  For sums of integers, minima and maxima (of
    integers, strings, or doubles without NaN), argmin and argmax (of values of
    one such type), counts, dictionaries whose keys are not missing, not NaN and
    all integers, all doubles or all strings, lists and select-one, over rows
    whose values are well formed, of the type the aggregator was set to, or
    missing, where the aggregator skips them: splitting the rows in two non-empty
    parts (the second of fewer than 2^64 rows), aggregating each part and
    combining gives the state that aggregating all rows in order gives; nothing
    throws, and the state of the second part is read back unchanged from its
    serialized form. *)
Theorem aggregator_merge atof ty proto xs ys :
  xs <> [] -> ys <> [] -> Forall (row_ok ty proto) xs -> Forall (row_ok ty proto) ys ->
  fits_size (length ys) ->
  exists a b c, feed_all (H := builtin_aggregate atof) (builtin_new_instance proto) xs = Ok a /\
    feed_all (H := builtin_aggregate atof) (builtin_new_instance proto) ys = Ok b /\
    builtin_combine a b = Ok c /\
    feed_all (H := builtin_aggregate atof) (builtin_new_instance proto) (xs ++ ys) = Ok c /\
    codec builtin_save (builtin_load (builtin_new_instance proto)) b.
Proof.
  intros Nx Ny Hx Hy Hn. destruct (builtin_mergeable atof ty proto) as [Ht Hc Hs].
  destruct (Ht xs Hx) as [a Ha], (Ht ys Hy) as [b Hb].
  destruct (Hc xs ys a b Nx Ny Hx Hy Ha Hb) as (c & Hc1 & Hc2).
  exists a, b, c. split_and!; try done. by apply (Hs ys).
Qed.

Lemma aggregator_merge_witness :
  exists a b c, feed_all (H := builtin_aggregate (fun _ => 0)) (AArgmax arg_extremum.new)
      [[FInt 3; FString [Byte.x61]]; [FUndefined; FInt 0]] = Ok a /\
    feed_all (H := builtin_aggregate (fun _ => 0)) (AArgmax arg_extremum.new) [[FInt 5; FInt 7]] = Ok b /\
    builtin_combine a b = Ok c /\
    feed_all (H := builtin_aggregate (fun _ => 0)) (AArgmax arg_extremum.new)
      ([[FInt 3; FString [Byte.x61]]; [FUndefined; FInt 0]] ++ [[FInt 5; FInt 7]]) = Ok c /\
    codec builtin_save (builtin_load (AArgmax arg_extremum.new)) b.
Proof.
  apply (aggregator_merge (fun _ => 0) INTEGER (AArgmax arg_extremum.new)); try done.
  all: repeat (apply Forall_cons; split; [|try apply Forall_nil_2]); cbn; do 2 eexists;
    (split; [done|]); (split; [|done]); first [by right | by left].
Defined.

(** [vector_sum] loses a failure when partial results are combined: summing
    vectors of different lengths makes the result UNDEFINED, and it does when
    the rows are added one by one, but if the mismatch happens in a part that is
    combined into another part, that part is ignored and its rows are missing
    from the emitted sum. *)
Theorem vector_sum_failure_lost atof v w u : length w <> length u ->
  let run rows := feed_all (H := builtin_aggregate atof) (AVectorSum vector_sum.new)
                    (map (fun x => [FVector x]) rows) in
  exists a b c d, run [v] = Ok a /\ run [w; u] = Ok b /\ run [v; w; u] = Ok d /\
    builtin_combine a b = Ok c /\ builtin_emit atof c = Ok (FVector v) /\
    builtin_emit atof b = Ok FUndefined /\ builtin_emit atof d = Ok FUndefined.
Proof.
  intros Hne run.
  assert (forall x y, vector_sum.add_element_simple (vector_sum.mk (FVector x) false true) (FVector y) =
    Ok (if (length y =? length x)%nat then vector_sum.mk (FVector (zip_with d_add x y)) false true
        else vector_sum.mk (FVector x) true true)) as Hnext.
  { intros x y. unfold vector_sum.add_element_simple. cbn -[is_undefined].
    change (is_undefined (FVector y)) with false. cbn. rewrite (Nat.eqb_sym (length y)). unfold vec_vec.
    by destruct (length x =? length y)%nat. }
  assert ((length u =? length w)%nat = false) as E by (apply Nat.eqb_neq; congruence).
  exists (AVectorSum (vector_sum.mk (FVector v) false true)), (AVectorSum (vector_sum.mk (FVector w) true true)),
    (AVectorSum (vector_sum.mk (FVector v) false true)).
  assert (exists x, run [v; w; u] = Ok (AVectorSum (vector_sum.mk x true true))) as [x Hx].
  { unfold run. cbn [map feed_all feed add_element_simple builtin_aggregate builtin_add_element_simple].
    change (vector_sum.add_element_simple vector_sum.new (FVector v)) with (Ok (vector_sum.mk (FVector v) false true)).
    cbn [omap_ok obind builtin_add_element_simple]. rewrite Hnext. cbn [omap_ok obind].
    destruct (Nat.eqb_spec (length w) (length v)) as [Ew|Ew]; cbn [builtin_add_element_simple]; [|by eexists].
    rewrite Hnext, length_zip_with, <- Ew, Nat.min_id, E. by eexists. }
  eexists. split_and!; [done| |exact Hx|done..].
  unfold run. cbn [map feed_all feed add_element_simple builtin_aggregate builtin_add_element_simple].
  change (vector_sum.add_element_simple vector_sum.new (FVector w)) with (Ok (vector_sum.mk (FVector w) false true)).
  cbn [omap_ok obind builtin_add_element_simple]. by rewrite Hnext, E.
Qed.

(** [variance] (and so [stdv]) does not survive empty parts: combining two
    parts whose values are all missing divides zero by zero, and whatever part is
    combined after that, the emitted variance is NaN; [average] guards against
    this case. *)
Theorem variance_empty_nan atof x : 1 < variance.count x < 2 ^ 64 ->
  variance.add_element_simple atof variance.new FUndefined = Ok variance.new /\
  exists e s, variance.combine variance.new variance.new = Ok e /\
    variance.combine e x = Ok s /\ variance.emit s = Ok (FFloat quiet_nan).
Proof.
  intros Hx. split; [done|].
  assert (variance.combine variance.new variance.new = Ok (variance.mk 0 quiet_nan quiet_nan)) as E by (by vm_compute).
  exists (variance.mk 0 quiet_nan quiet_nan). eexists. split_and!; [done|done|].
  unfold variance.emit. cbn [variance.count variance.M2]. rewrite wrap_small by (unfold is_u; lia).
  destruct (Z.leb_spec (0 + variance.count x) 1); [lia|].
  (* a NaN operand makes every operation a NaN *)
  reflexivity.
Qed.

(** [zip_dict] drops entries: once a part has met a missing key, the entries
    of the part combined into it are not inserted, while adding the same rows one
    by one keeps them all. *)
Theorem zip_dict_missing_drops atof k k' v v' w : k < k' ->
  let run := feed_all (H := builtin_aggregate atof) (AZipDict zip_dict.new) in
  exists a b c d, run [[FInt k; v]] = Ok a /\ run [[FUndefined; w]; [FInt k'; v']] = Ok b /\
    run [[FInt k; v]; [FUndefined; w]; [FInt k'; v']] = Ok d /\ builtin_combine a b = Ok c /\
    builtin_emit atof c = Ok (FDict [(FInt k, v)]) /\
    builtin_emit atof d = Ok (FDict [(FInt k, v); (FInt k', v')]).
Proof.
  intros Hk run.
  assert (map_insert (FInt k', v') [(FInt k, v)] = Ok [(FInt k, v); (FInt k', v')]) as Hins.
  { cbn. by rewrite (proj2 (Z.ltb_ge k' k)), (proj2 (Z.ltb_lt k k')) by lia. }
  exists (AZipDict (zip_dict.mk [(FInt k, v)] false)), (AZipDict (zip_dict.mk [(FInt k', v')] true)),
    (AZipDict (zip_dict.mk [(FInt k, v)] true)), (AZipDict (zip_dict.mk [(FInt k, v); (FInt k', v')] true)).
  split_and!; try done. unfold run. cbn [feed_all feed add_element builtin_aggregate builtin_add_element].
  change (zip_dict.add_element zip_dict.new [FInt k; v]) with (Ok (zip_dict.mk [(FInt k, v)] false)).
  cbn [omap_ok obind builtin_add_element]. unfold zip_dict.add_element.
  change (is_undefined FUndefined) with true.
  cbn [negb omap_ok obind builtin_add_element zip_dict.m_value]. unfold zip_dict.add_element.
  change (is_undefined (FInt k')) with false. cbn [negb zip_dict.m_value]. by rewrite Hins.
Qed.
