(* ===== verification/Groupby.v ===== *)
(** The external group-by: the model of [sframe/groupby_aggregate_impl.hpp] and
    [.cpp].

    A [group_aggregate_container] hashes each row by its key columns into a
    segment, aggregates it in memory, and writes the sorted partial aggregates
    of a segment as a chunk whenever the segment holds [max_buffer_size] hash
    values.  At the end the chunks of each segment are merged with a priority
    queue, and the partial aggregates of equal keys are combined.  The rows are
    added one after the other: an [add] is atomic here (in the code it runs
    under the locks of its segment).  The sarray that buffers the chunks is the
    list of the strings written to each segment. *)
From Stdlib Require Import ZArith Lia List Bool String Sorting.Sorted.
From stdpp Require Import prelude gmap.
From coqutil Require Import Byte.
From S2P Require Import Prelude.
From S2P Require Import Double.
From S2P Require Import Archive.
From S2P Require Import Serialization.
From S2P Require Import FlexibleType.
From S2P Require Import FlexibleOps.
From S2P Require Import GroupbyOps.

#[local] Abbreviation flex_save := FlexibleType.save.
#[local] Abbreviation flex_load := FlexibleType.load.
Abbreviation row := (list flexible_type).

(** ** Outcomes in sequence *)

Fixpoint ofold {A B} (f : A -> B -> outcome A) (a : A) (l : list B) : outcome A :=
  match l with [] => Ok a | x :: l => obind (f a x) (fun a => ofold f a l) end.
Fixpoint omap {A B} (f : A -> outcome B) (l : list A) : outcome (list B) :=
  match l with
  | [] => Ok []
  | x :: l => obind (f x) (fun y => omap_ok (cons y) (omap f l))
  end.
Fixpoint ozip {A B C} (f : A -> B -> outcome C) (l : list A) (k : list B) : outcome (list C) :=
  match l, k with
  | x :: l, y :: k => obind (f x y) (fun z => omap_ok (cons z) (ozip f l k))
  | _, _ => Ok []
  end.

(** [flexible_type_vector_equality(a, alen, b, blen)], with the lists cut to
    their lengths *)
Fixpoint flexible_type_vector_equality (a b : row) : bool :=
  match a, b with
  | [], [] => true
  | x :: a, y :: b =>
      if negb (bool_decide (get_type x = get_type y)) then false
      else if is_undefined x && is_undefined y then flexible_type_vector_equality a b
      else if negb (approx_equal x y) then false
      else flexible_type_vector_equality a b
  | _, _ => false
  end.

(** The loop of [flexible_type_vector_lt]; reading past the end of [b] is
    undefined. *)
Fixpoint vector_lt_loop (a b : row) : outcome bool :=
  match a, b with
  | [], _ => Ok false
  | _ :: _, [] => Undef
  | x :: a, y :: b =>
      if type_code (get_type x) <? type_code (get_type y) then Ok true
      else if type_code (get_type y) <? type_code (get_type x) then Ok false
      else if is_undefined x && is_undefined y then vector_lt_loop a b
      else
        obind (lt_operator x y) (fun less =>
        if (less : bool) then Ok true else
        obind (gt_operator x y) (fun greater =>
        if (greater : bool) then Ok false else vector_lt_loop a b))
  end.
Definition flexible_type_vector_lt (a b : row) : outcome bool :=
  if (length a <? length b)%nat then Ok true else vector_lt_loop a b.

(** [std::sort]: insertion sort; a comparison that throws aborts it *)
Fixpoint sort_insert {A} (lt : A -> A -> outcome bool) (x : A) (l : list A) : outcome (list A) :=
  match l with
  | [] => Ok [x]
  | y :: l' =>
      obind (lt y x) (fun b => if (b : bool) then omap_ok (cons y) (sort_insert lt x l') else Ok (x :: l))
  end.
Fixpoint sort_by {A} (lt : A -> A -> outcome bool) (l : list A) : outcome (list A) :=
  match l with [] => Ok [] | x :: l => obind (sort_by lt l) (sort_insert lt x) end.

Section groupby.
Context {A : Type} {AA : Aggregate A}.
(** [flexible_type::hash] and [hash64_combine] *)
Context (hash : flexible_type -> Z) (hash64_combine : Z -> Z -> Z).

(** [group_descriptor] *)
Record group_descriptor := mk_desc { column_numbers : list nat; aggregator : A }.

(** [groupby_element] *)
Record groupby_element := mk_elem { key : row; values : list A; hash_val : Z }.

Definition hash_key (k : row) : Z := fold_left (fun ret f => hash64_combine ret (hash f)) k 0.

(** [groupby_element(group_key, group_desc)], through [init] *)
Definition elem_init (group_key : row) (group_desc : list group_descriptor) : groupby_element :=
  mk_elem group_key (map (fun d => new_instance (aggregator d)) group_desc) (hash_key group_key).

Definition elem_save (e : groupby_element) : writer :=
  vector_save flex_save (key e) >>> wfor agg_save (values e).
Fixpoint load_values (group_desc : list group_descriptor) : reader (list A) :=
  match group_desc with
  | [] => rret []
  | d :: group_desc =>
      v <- agg_load (new_instance (aggregator d)) ;; vs <- load_values group_desc ;; rret (v :: vs)
  end.
Definition elem_load (group_desc : list group_descriptor) : reader groupby_element :=
  k <- vector_load flex_load ;; vs <- load_values group_desc ;; rret (mk_elem k vs (hash_key k)).

Definition elem_lt (a b : groupby_element) : outcome bool :=
  if negb (hash_val a =? hash_val b) then Ok (hash_val a <? hash_val b)
  else flexible_type_vector_lt (key a) (key b).
Definition elem_eq (a b : groupby_element) : bool :=
  if negb (hash_val a =? hash_val b) then false else flexible_type_vector_equality (key a) (key b).
Definition elem_gt (a b : groupby_element) : outcome bool :=
  if negb (hash_val a =? hash_val b) then Ok (hash_val b <? hash_val a)
  else omap_ok (fun l => negb l && negb (flexible_type_vector_equality (key a) (key b)))
         (flexible_type_vector_lt (key a) (key b)).

(** [operator+=] *)
Definition elem_combine (a other : groupby_element) : outcome groupby_element :=
  omap_ok (fun vs => mk_elem (key a) vs (hash_val a)) (ozip combine (values a) (values other)).

(** The columns an aggregator reads; a column past the end of the row is
    UNDEFINED *)
Definition project (d : group_descriptor) (val : row) : list flexible_type :=
  map (fun c => default FUndefined (val !! c)) (column_numbers d).
(** [groupby_element::add_element] *)
Definition elem_add (val : row) (group_desc : list group_descriptor) (e : groupby_element)
    : outcome groupby_element :=
  omap_ok (fun vs => mk_elem (key e) vs (hash_val e))
    (ozip (fun d v => feed v (project d val)) group_desc (values e)).

(** ** The container *)

(** [segment_information] *)
Record segment := mk_seg {
  elements : gmap Z (list groupby_element);   (** the in-memory aggregates, by hash *)
  outiter : list bytes;                       (** what was written to the segment *)
  chunk_size : list nat
}.
Definition seg_new : segment := mk_seg ∅ [] [].

Record container := mk_cont {
  group_descriptors : list group_descriptor;
  max_buffer_size : nat;
  segments : list segment
}.
(** The constructor, and [define_group] for each descriptor *)
Definition cont_new (max_buffer_size num_segments : nat) : container :=
  mk_cont [] max_buffer_size (replicate num_segments seg_new).
Definition define_group (columns : list nat) (agg : A) (c : container) : container :=
  mk_cont (group_descriptors c ++ [mk_desc columns agg]) (max_buffer_size c) (segments c).

(** The first element of the bucket with this key gets the row, or a new one *)
Fixpoint bucket_add (val k : row) (descs : list group_descriptor) (bucket : list groupby_element)
    : outcome (list groupby_element) :=
  match bucket with
  | [] => omap_ok (fun e => [e]) (elem_add val descs (elem_init k descs))
  | e :: bucket =>
      if flexible_type_vector_equality (key e) k then
        omap_ok (fun e => e :: bucket) (elem_add val descs e)
      else omap_ok (cons e) (bucket_add val k descs bucket)
  end.

(** [oarc << item] into the buffer of an emptied archive *)
Definition elem_string (e : groupby_element) : outcome bytes :=
  match to_bytes elem_save e with Some b => Ok b | None => Throws end.

(** The buckets in the order of their hashes *)
Definition hash_order (m : gmap Z (list groupby_element)) : outcome (list (Z * list groupby_element)) :=
  sort_by (fun x y => Ok (x.1 <? y.1)) (map_to_list m).
Definition flush_segment (s : segment) : outcome segment :=
  if (base.size (elements s) =? 0)%nat then Ok s
  else
    obind (hash_order (elements s)) (fun local_ordered_by_hash =>
    obind (omap (fun b => if (1 <? length b.2)%nat then sort_by elem_lt b.2 else Ok b.2) local_ordered_by_hash) (fun sorted =>
    let local_sorted :=
      map (fun e => mk_elem (key e) (map partial_finalize (values e)) (hash_val e)) (concat sorted) in
    obind (omap elem_string local_sorted) (fun strings =>
    Ok (mk_seg ∅ (outiter s ++ strings) (chunk_size s ++ [length local_sorted]))))).

Definition seg_add (val k : row) (h : Z) (descs : list group_descriptor) (max_buffer_size : nat)
    (s : segment) : outcome segment :=
  obind (bucket_add val k descs (default [] (elements s !! h))) (fun bucket =>
  let s := mk_seg (<[h := bucket]> (elements s)) (outiter s) (chunk_size s) in
  if (max_buffer_size <=? base.size (elements s))%nat then flush_segment s else Ok s).

Definition add (num_keys : nat) (c : container) (val : row) : outcome container :=
  let k := take num_keys val in
  let h := hash_key k in
  let target := Z.to_nat (h mod Z.of_nat (length (segments c))) in
  match segments c !! target with
  | None => Undef
  | Some s =>
      omap_ok (fun s => mk_cont (group_descriptors c) (max_buffer_size c) (<[target := s]> (segments c)))
        (seg_add val k h (group_descriptors c) (max_buffer_size c) s)
  end.

(** ** Merging the chunks of a segment *)

(** The readers of the chunks: the strings of the segment, cut by the sizes *)
Fixpoint split_chunks (sizes : list nat) (strings : list bytes) : list (list bytes) :=
  match sizes with
  | [] => []
  | n :: sizes => take n strings :: split_chunks sizes (drop n strings)
  end.

(** [std::pair<groupby_element, size_t>::operator<]; [std::greater] is its converse *)
Definition pq_less (x y : groupby_element * nat) : outcome bool :=
  obind (elem_lt x.1 y.1) (fun l => if (l : bool) then Ok true else
  obind (elem_lt y.1 x.1) (fun g => if (g : bool) then Ok false else Ok (x.2 <? y.2)%nat)).
(** [std::pop_heap]: a least element and the others *)
Fixpoint pop_heap (best : groupby_element * nat) (pq : list (groupby_element * nat))
    : outcome ((groupby_element * nat) * list (groupby_element * nat)) :=
  match pq with
  | [] => Ok (best, [])
  | x :: pq =>
      obind (pq_less x best) (fun b =>
      if (b : bool) then omap_ok (fun r => (r.1, best :: r.2)) (pop_heap x pq)
      else omap_ok (fun r => (r.1, x :: r.2)) (pop_heap best pq))
  end.

(** [groupby_element(chunks[id].next(), group_descriptors)] pushed on the queue,
    if the chunk has a next element *)
Definition refill (descs : list group_descriptor) (id : nat)
    (st : list (groupby_element * nat) * list (list bytes))
    : outcome (list (groupby_element * nat) * list (list bytes)) :=
  match st.2 !! id with
  | Some (s :: rest) =>
      match of_bytes (elem_load descs) s with
      | Some e => Ok ((e, id) :: st.1, <[id := rest]> st.2)
      | None => Throws
      end
  | _ => Ok st
  end.

(** One element off the queue, its chunk advanced *)
Definition pop_refill (descs : list group_descriptor) (x : groupby_element * nat)
    (pq : list (groupby_element * nat)) (chunks : list (list bytes))
    : outcome (groupby_element * (list (groupby_element * nat) * list (list bytes))) :=
  obind (pop_heap x pq) (fun r =>
  omap_ok (fun st => (r.1.1, st)) (refill descs r.1.2 (r.2, chunks))).

(** The front of the heap: a least element *)
Definition front (x : groupby_element * nat) (pq : list (groupby_element * nat)) : outcome groupby_element :=
  omap_ok (fun r => r.1.1) (pop_heap x pq).

(** The inner loop: combine the elements equal to [cur].  [None] inside is a
    lack of fuel. *)
Fixpoint combine_equal (fuel : nat) (descs : list group_descriptor) (cur : groupby_element)
    (st : list (groupby_element * nat) * list (list bytes))
    : outcome (option (groupby_element * (list (groupby_element * nat) * list (list bytes)))) :=
  match st.1 with
  | [] => Ok (Some (cur, st))
  | x :: pq =>
      obind (front x pq) (fun top =>
      if elem_eq top cur then
        match fuel with
        | O => Ok None
        | S fuel =>
            obind (pop_refill descs x pq st.2) (fun r =>
            obind (elem_combine cur r.1) (fun cur => combine_equal fuel descs cur r.2))
        end
      else Ok (Some (cur, st)))
  end.

(** The emitted row: the key, then the aggregated values *)
Definition elem_emit (e : groupby_element) : outcome row :=
  omap_ok (fun vs => key e ++ vs) (omap emit (values e)).

Fixpoint merge_loop (fuel : nat) (descs : list group_descriptor)
    (st : list (groupby_element * nat) * list (list bytes)) : outcome (option (list row)) :=
  match st.1 with
  | [] => Ok (Some [])
  | x :: pq =>
      match fuel with
      | O => Ok None
      | S fuel =>
          obind (pop_refill descs x pq st.2) (fun r =>
          obind (combine_equal fuel descs r.1 r.2) (fun m =>
          match m with
          | None => Ok None
          | Some (cur, st) =>
              obind (elem_emit cur) (fun out =>
              omap_ok (fun rest => match rest with Some rest => Some (out :: rest) | None => None end)
                (merge_loop fuel descs st))
          end))
      end
  end.

(** One element from each chunk that has one *)
Fixpoint fill_queue (descs : list group_descriptor) (ids : list nat)
    (st : list (groupby_element * nat) * list (list bytes))
    : outcome (list (groupby_element * nat) * list (list bytes)) :=
  match ids with
  | [] => Ok st
  | id :: ids => obind (refill descs id st) (fill_queue descs ids)
  end.

Definition group_and_write_segment (descs : list group_descriptor) (s : segment)
    : outcome (option (list row)) :=
  let chunks := split_chunks (chunk_size s) (outiter s) in
  obind (fill_queue descs (seq 0 (length chunks)) ([], chunks)) (fun st =>
  merge_loop (length (outiter s)) descs st).

(** The rows of each output segment *)
Definition group_and_write (c : container) : outcome (list (option (list row))) :=
  obind (omap flush_segment (segments c)) (fun segs =>
  omap (group_and_write_segment (group_descriptors c)) segs).

(** The container part of [groupby_aggregate]: add every row, then write *)
Definition run_groupby (descs : list group_descriptor) (num_keys max_buffer_size num_segments : nat)
    (rows : list row) : outcome (list (option (list row))) :=
  obind (ofold (add num_keys)
           (fold_left (fun c d => define_group (column_numbers d) (aggregator d) c) descs
              (cont_new max_buffer_size num_segments)) rows)
    group_and_write.
End groupby.
