(* ===== verification/GroupbyCorrect.v ===== *)
(** Correctness of the external group-by of [Groupby]: whatever the hash
    function, the number of segments and the buffer size, the output holds one
    row per distinct key, with the aggregates of all the rows of that key.  The
    proof uses the aggregators only through the interface [Mergeable]. *)
From Stdlib Require Import ZArith Lia List Bool String Sorting.Sorted Sorting.Permutation.
From stdpp Require Import prelude gmap.
From coqutil Require Import Byte.
From S2P Require Import Prelude.
From S2P Require Import Double.
From S2P Require Import Archive.
From S2P Require Import Serialization.
From S2P Require Import FlexibleType.
From S2P Require Import FlexibleOps.
From S2P Require Import GroupbyOps.
From S2P Require Import Groupby.

(** ** Strict total orders given by a boolean function *)
Class StrictTotal {T} (D : T -> Prop) (r : T -> T -> bool) : Prop := {
  st_irrefl x : D x -> r x x = false;
  st_trans x y z : D x -> D y -> D z -> r x y = true -> r y z = true -> r x z = true;
  st_total x y : D x -> D y -> r x y = false -> r y x = false -> x = y
}.

Arguments st_irrefl {T} D r {_} x _.
Arguments st_trans {T} D r {_} x y z _ _ _ _ _.
Arguments st_total {T} D r {_} x y _ _ _ _.

Lemma st_asym {T} (D : T -> Prop) r `{!StrictTotal D r} x y : D x -> D y -> r x y = true -> r y x = false.
Proof.
  intros Hx Hy H. destruct (r y x) eqn:E; [|done].
  pose proof (st_trans D r x y x Hx Hy Hx H E). by rewrite (st_irrefl D r) in *.
Qed.

(** Lexicographic comparison of lists of the same length *)
Fixpoint lex_lt {T} (r : T -> T -> bool) (a b : list T) : bool :=
  match a, b with
  | x :: a, y :: b => if r x y then true else if r y x then false else lex_lt r a b
  | _, _ => false
  end.

Lemma lex_total {T} (D : T -> Prop) r n : StrictTotal D r ->
  StrictTotal (fun l => length l = n /\ Forall D l) (lex_lt r).
Proof.
  intros H. split.
  - intros x [_ Hx]. induction Hx as [|a x Ha _ IH]; cbn; [done|]. by rewrite (st_irrefl D r).
  - intros x y z [Lx Hx] [Ly Hy] [Lz Hz]. revert y z n Lx Ly Lz Hy Hz.
    induction Hx as [|a x Ha Hx IH]; intros y z n Lx Ly Lz Hy Hz; [by destruct y|].
    destruct Hy as [|b y Hb Hy], Hz as [|c z Hc Hz]; try done. cbn in *.
    destruct (r a b) eqn:Eab, (r b c) eqn:Ebc.
    + by rewrite (st_trans D r a b c).
    + destruct (r c b) eqn:Ecb; [done|]. rewrite <- (st_total D r b c) by done. by rewrite Eab.
    + destruct (r b a) eqn:Eba; [done|]. rewrite (st_total D r a b) by done. by rewrite Ebc.
    + destruct (r b a) eqn:Eba; [done|]. destruct (r c b) eqn:Ecb; [done|].
      rewrite (st_total D r a b), (st_total D r b c), (st_irrefl D r) by done.
      intros. apply (IH y z (pred n)); auto; lia.
  - intros x y [Lx Hx] [Ly Hy]. revert y n Lx Ly Hy.
    induction Hx as [|a x Ha Hx IH]; intros y n Lx Ly Hy; [by destruct y; cbn in *; subst|].
    destruct Hy as [|b y Hb Hy]; cbn in *; [lia|].
    destruct (r a b) eqn:Eab, (r b a) eqn:Eba; try done.
    intros. f_equal; [by apply (st_total D r)|]. apply (IH y (pred n)); auto; lia.
Qed.

(** ** Keys *)

(** The key columns: integers, strings and missing values *)
Definition key_cell (f : flexible_type) : Prop :=
  flex_ok f /\ match f with FUndefined | FInt _ | FString _ => True | _ => False end.

Definition cell_lt (x y : flexible_type) : bool :=
  match x, y with
  | FInt a, FInt b => a <? b
  | FString a, FString b => bytes_lt a b
  | _, _ => type_code (get_type x) <? type_code (get_type y)
  end.

Lemma bytes_lt_total x y : bytes_lt x y = false -> bytes_lt y x = false -> x = y.
Proof.
  revert y. induction x as [|a x IH]; intros [|b y]; cbn; try done.
  zcases; try done; try lia. intros. f_equal; [|by apply IH].
  apply byte.unsigned_inj. lia.
Qed.

#[export] Instance cell_total : StrictTotal key_cell cell_lt.
Proof.
  split.
  - intros x [_ Hx]. destruct x; cbn; try done; [apply Z.ltb_irrefl | apply bytes_lt_irrefl].
  - intros x y z [_ Hx] [_ Hy] [_ Hz]. destruct x; try done; destruct y; try done; destruct z; try done; cbn.
    + zcases; lia || done.
    + apply bytes_lt_trans.
  - intros x y [_ Hx] [_ Hy]. destruct x; try done; destruct y; try done; cbn.
    + zcases; try done. intros. f_equal. lia.
    + intros. f_equal. by apply bytes_lt_total.
Qed.

Lemma cell_eq x y : key_cell x -> get_type x = get_type y ->
  is_undefined x && is_undefined y = false -> approx_equal x y = true <-> x = y.
Proof.
  intros [_ Hx]. destruct x; try done; destruct y; try done; cbn; intros _ _.
  - rewrite Z.eqb_eq. split; congruence.
  - rewrite bool_decide_eq_true. split; congruence.
Qed.

Lemma key_eq a b : Forall key_cell a -> flexible_type_vector_equality a b = true <-> a = b.
Proof.
  intros Ha. revert b. induction Ha as [|x a Hx Ha IH]; intros [|y b]; try done.
  cbn. destruct (decide (get_type x = get_type y)) as [E|E].
  - rewrite bool_decide_true by done. cbn. destruct (is_undefined x && is_undefined y) eqn:Eu.
    + rewrite IH by done. apply andb_prop in Eu as [Ux Uy].
      destruct x; try done; destruct y; try done. split; congruence.
    + pose proof (cell_eq x y Hx E Eu) as Hc. destruct (approx_equal x y); cbn.
      * rewrite IH by done. rewrite (proj1 Hc) by done. split; congruence.
      * split; [done|]. intros [= -> ->]. by destruct Hc as [_ ->].
  - rewrite bool_decide_false by done. split; [done|]. intros [= -> ->]. done.
Qed.

Lemma key_lt a b : length a = length b -> Forall key_cell a -> Forall key_cell b ->
  flexible_type_vector_lt a b = Ok (lex_lt cell_lt a b).
Proof.
  intros El Ha Hb. unfold flexible_type_vector_lt. destruct (Nat.ltb_spec (length a) (length b)); [lia|].
  clear H. revert b El Hb. induction Ha as [|x a Hx Ha IH]; intros b El Hb; destruct Hb as [|y b Hy Hb]; try done.
  cbn in El. assert (vector_lt_loop a b = Ok (lex_lt cell_lt a b)) as E by (apply IH; [lia|done]).
  destruct Hx as [_ Hx], Hy as [_ Hy]. destruct x; try done; destruct y; try done; cbn; rewrite ?E; try done.
  all: repeat case_match; done.
Qed.

(** ** Sorting *)

Lemma sort_insert_spec {T} (lt : T -> T -> outcome bool) r (D : T -> Prop) `{!StrictTotal D r} x l :
  (forall a b, D a -> D b -> lt a b = Ok (r a b)) -> D x -> Forall D l ->
  Forall (fun y => r x y = true \/ r y x = true) l -> StronglySorted (fun a b => r a b = true) l ->
  exists l', sort_insert lt x l = Ok l' /\ l' ≡ₚ x :: l /\ StronglySorted (fun a b => r a b = true) l'.
Proof.
  intros Hlt Hx Hl Hne Hs. induction Hs as [|y l Hs IH Hy]; cbn.
  { exists [x]. by repeat constructor. }
  apply Forall_cons in Hl as [Dy Hl], Hne as [Ny Hne]. rewrite Hlt by done. cbn.
  destruct (r y x) eqn:E.
  - destruct (IH Hl Hne) as (l' & -> & Hp & Hs'). exists (y :: l'). split_and!; [done| |].
    + etransitivity; [apply perm_skip, Hp | apply perm_swap].
    + constructor; [done|]. rewrite Hp. by constructor.
  - destruct Ny as [Ny|]; [|congruence]. exists (x :: y :: l). split_and!; [done|done|].
    constructor; [by constructor|]. constructor; [done|]. rewrite Forall_forall in *.
    intros z Hz. eapply (st_trans D r x y z); auto.
Qed.

Lemma sort_by_spec {T} (lt : T -> T -> outcome bool) r (D : T -> Prop) `{!StrictTotal D r} l :
  (forall a b, D a -> D b -> lt a b = Ok (r a b)) -> Forall D l -> NoDup l ->
  exists l', sort_by lt l = Ok l' /\ l' ≡ₚ l /\ StronglySorted (fun a b => r a b = true) l'.
Proof.
  intros Hlt Hl. induction Hl as [|x l Hx Hl IH]; intros Hnd; cbn.
  { exists []. by repeat constructor. }
  apply NoDup_cons in Hnd as [Hni Hnd]. destruct (IH Hnd) as (l' & -> & Hp & Hs). cbn.
  destruct (sort_insert_spec lt r D x l') as (l'' & -> & Hp' & Hs'); try done.
  - by rewrite Hp.
  - rewrite Hp. rewrite Forall_forall in *. intros y Hy.
    destruct (r x y) eqn:E1; [by left|]. destruct (r y x) eqn:E2; [by right|].
    destruct Hni. by rewrite (st_total D r x y) by auto.
  - exists l''. split_and!; [done| |done]. etransitivity; [exact Hp' | by apply perm_skip].
Qed.

Section correct.
Context {A : Type} {AA : Aggregate A}.
Context (hash : flexible_type -> Z) (hash64_combine : Z -> Z -> Z).
Context (descs : list (@group_descriptor A)) (nk : nat).
Context (ok : @group_descriptor A -> list flexible_type -> Prop).
Hypothesis mergeable : forall d, d ∈ descs -> Mergeable (aggregator d) (ok d).

#[local] Abbreviation group_descriptor := (@group_descriptor A).
#[local] Abbreviation elem := (@groupby_element A).
#[local] Abbreviation H := (hash_key hash hash64_combine).
#[local] Abbreviation load_elem := (elem_load hash hash64_combine descs).

(** A key, and a row whose columns the aggregators accept *)
Definition key_ok (k : row) : Prop := length k = nk /\ Forall key_cell k.
Definition row_valid (r : row) : Prop :=
  key_ok (take nk r) /\ forall d, d ∈ descs -> ok d (project d r).

(** [e] holds the aggregates of the rows [rs] for the key [k]. *)
Definition repr (e : elem) (k : row) (rs : list row) : Prop :=
  key e = k /\ hash_val e = H k /\
  Forall2 (fun d a => feed_all (new_instance (aggregator d)) (map (project d) rs) = Ok a) descs (values e).
Definition finalize (e : elem) : elem := mk_elem (key e) (map partial_finalize (values e)) (hash_val e).
(** The same after [partial_finalize] *)
Definition reprf (e : elem) (k : row) (rs : list row) : Prop := exists e0, repr e0 k rs /\ e = finalize e0.

(** ** The operations of an element *)

Lemma rows_ok d rs : d ∈ descs -> Forall row_valid rs -> Forall (ok d) (map (project d) rs).
Proof. intros Hd Hr. apply Forall_map. eapply Forall_impl; [exact Hr|]. intros r [_ Hk]. by apply Hk. Qed.

Lemma elem_init_repr k : repr (elem_init hash hash64_combine k descs) k [].
Proof.
  split_and!; [done|done|]. cbn. clear mergeable. induction descs as [|d ds IH]; constructor; auto.
Qed.

Lemma ozip_total {T U V} (f : T -> U -> outcome V) (P : T -> U -> Prop) (Q : T -> V -> Prop) l k :
  Forall2 P l k -> (forall x y, x ∈ l -> P x y -> exists z, f x y = Ok z /\ Q x z) ->
  exists m, ozip f l k = Ok m /\ Forall2 Q l m.
Proof.
  intros Hf. induction Hf as [|x y l k Hxy Hf IH]; intros Hstep; [by exists []|].
  destruct (Hstep x y) as (z & Ez & Hz); [left|done|].
  destruct IH as (m & Em & Hm); [intros; apply Hstep; [by right|done]|].
  exists (z :: m). cbn. rewrite Ez. cbn. rewrite Em. by split; [|constructor].
Qed.

Lemma elem_add_repr e k rs r : repr e k rs -> Forall row_valid rs -> row_valid r ->
  exists e', elem_add r descs e = Ok e' /\ repr e' k (rs ++ [r]).
Proof.
  intros (Ek & Eh & Hv) Hrs Hr. unfold elem_add.
  destruct (ozip_total (fun d v => feed v (project d r)) _
    (fun d a => feed_all (new_instance (aggregator d)) (map (project d) (rs ++ [r])) = Ok a) _ _ Hv)
    as (vs & -> & Hvs).
  - intros d a Hd Ha. destruct (mergeable d Hd) as [Ht _ _].
    destruct (Ht (map (project d) (rs ++ [r]))) as [a' Ha'].
    { apply rows_ok; [done|]. apply Forall_app. by rewrite Forall_singleton. }
    exists a'. split; [|done]. rewrite map_app, (feed_all_app _ _ _ _ Ha) in Ha'.
    cbn in Ha'. by destruct (feed a (project d r)).
  - eexists. split; [done|]. by split_and!.
Qed.

Lemma elem_combine_repr e e' k rs rs' : reprf e k rs -> reprf e' k rs' ->
  rs <> [] -> rs' <> [] -> Forall row_valid rs -> Forall row_valid rs' ->
  exists e'', elem_combine e e' = Ok e'' /\ reprf e'' k (rs ++ rs').
Proof.
  intros (a & (Ek & Eh & Ha) & ->) (b & (_ & _ & Hb) & ->) Nr Nr' Hr Hr'.
  unfold elem_combine, finalize. cbn [values key hash_val].
  assert (exists vs, ozip combine (map partial_finalize (values a)) (map partial_finalize (values b)) =
            Ok (map partial_finalize vs) /\
          Forall2 (fun d c => feed_all (new_instance (aggregator d)) (map (project d) (rs ++ rs')) = Ok c) descs vs)
    as (vs & -> & Hvs).
  { assert (forall ds, (forall d, d ∈ ds -> d ∈ descs) -> forall va vb,
      Forall2 (fun d a => feed_all (new_instance (aggregator d)) (map (project d) rs) = Ok a) ds va ->
      Forall2 (fun d a => feed_all (new_instance (aggregator d)) (map (project d) rs') = Ok a) ds vb ->
      exists vs, ozip combine (map partial_finalize va) (map partial_finalize vb) = Ok (map partial_finalize vs) /\
        Forall2 (fun d c => feed_all (new_instance (aggregator d)) (map (project d) (rs ++ rs')) = Ok c) ds vs)
      as Hall; [|by apply Hall].
    induction ds as [|d ds IH]; intros Hds va vb Hva Hvb; inversion Hva; inversion Hvb; subst; [by exists []|].
    destruct (IH (fun d Hd => Hds d (list_elem_of_further _ _ _ Hd)) _ _ ltac:(eassumption) ltac:(eassumption))
      as (vs & Evs & Hvs).
    assert (d ∈ descs) as Hd by (apply Hds; left). destruct (mergeable d Hd) as [_ Hc _].
    edestruct (Hc (map (project d) rs) (map (project d) rs')) as (c & Ec & Hcc);
      [ by destruct rs | by destruct rs' | by apply rows_ok | by apply rows_ok | eassumption | eassumption |].
    exists (c :: vs). cbn. rewrite Hcc. cbn. rewrite Evs. split; [done|].
    constructor; [by rewrite map_app | done]. }
  eexists. split; [done|]. exists (mk_elem k vs (H k)). split; [by split_and!|].
  by rewrite Ek, Eh.
Qed.

Lemma elem_codec e k rs : reprf e k rs -> key_ok k -> rs <> [] -> Forall row_valid rs ->
  fits_size nk -> fits_size (length rs) -> codec elem_save load_elem e.
Proof.
  intros (a & (Ek & Eh & Ha) & ->) [Lk Hk] Nr Hr Hnk Hn. unfold elem_save, elem_load, finalize.
  assert (exists bs, emits (wfor agg_save (map partial_finalize (values a))) bs /\
            parses (load_values descs) bs (map partial_finalize (values a))) as (b2 & E2 & P2).
  { assert (forall ds, (forall d, d ∈ ds -> d ∈ descs) -> forall va,
      Forall2 (fun d a => feed_all (new_instance (aggregator d)) (map (project d) rs) = Ok a) ds va ->
      exists bs, emits (wfor agg_save (map partial_finalize va)) bs /\
        parses (load_values ds) bs (map partial_finalize va)) as Hall; [|by apply Hall].
    induction ds as [|d ds IH]; intros Hds va Hva; inversion Hva; subst; cbn.
    { exists []. split; [apply emits_nil | apply parses_ret]. }
    destruct (IH (fun d Hd => Hds d (list_elem_of_further _ _ _ Hd)) _ ltac:(eassumption)) as (bs & Ebs & Pbs).
    assert (d ∈ descs) as Hd by (apply Hds; left). destruct (mergeable d Hd) as [_ _ Hc].
    edestruct (Hc (map (project d) rs)) as (b & Eb & Pb);
      [by destruct rs | by apply rows_ok | by rewrite length_map | eassumption |].
    exists (b ++ bs). split; [by apply emits_seq|].
    eapply parses_bind; [done|]. eapply parses_bind_nil; [done|]. apply parses_ret. }
  rewrite <- Ek in Hk, Lk.
  destruct (codec_at (Codec := vector_codec _ _ _) (key a)) as (b1 & E1 & P1).
  { split; [by rewrite Lk|]. eapply Forall_impl; [exact Hk|]. by intros f []. }
  exists (b1 ++ b2). cbn [key values]. split; [by apply emits_seq|].
  eapply parses_bind; [done|]. eapply parses_bind_nil; [done|]. rewrite Eh, <- Ek. apply parses_ret.
Qed.

(** ** Order of the elements *)

Definition kl (a b : row) : bool := if H a =? H b then lex_lt cell_lt a b else H a <? H b.

#[local] Instance kl_total : StrictTotal key_ok kl.
Proof.
  pose proof (lex_total key_cell cell_lt nk cell_total) as L. unfold kl. split.
  - intros x Hx. rewrite Z.eqb_refl. by apply (st_irrefl _ _ (StrictTotal := L)).
  - intros x y z Hx Hy Hz. pose proof (st_trans _ _ (StrictTotal := L) x y z Hx Hy Hz). zcases; try lia; done.
  - intros x y Hx Hy. pose proof (st_total _ _ (StrictTotal := L) x y Hx Hy). zcases; try lia; try done; auto.
Qed.

Lemma elem_lt_kl (a b : elem) : key_ok (key a) -> key_ok (key b) -> hash_val a = H (key a) -> hash_val b = H (key b) ->
  elem_lt a b = Ok (kl (key a) (key b)).
Proof.
  intros [La Ha] [Lb Hb] Ea Eb. unfold elem_lt, kl. rewrite Ea, Eb.
  destruct (Z.eqb_spec (H (key a)) (H (key b))); cbn; [|done]. apply key_lt; congruence.
Qed.

Lemma elem_eq_key (a b : elem) : key_ok (key a) -> hash_val a = H (key a) -> hash_val b = H (key b) ->
  elem_eq a b = true <-> key a = key b.
Proof.
  intros [La Ha] Ea Eb. unfold elem_eq. rewrite Ea, Eb, <- key_eq by done.
  destruct (Z.eqb_spec (H (key a)) (H (key b))) as [|N]; cbn; [done|]. split; [done|].
  rewrite key_eq by done. congruence.
Qed.

(** ** The in-memory aggregates of a segment

    [f k] are the rows with key [k] that the memory holds. *)
Definition elem_ok (f : row -> list row) (e : elem) : Prop :=
  key_ok (key e) /\ f (key e) <> [] /\ repr e (key e) (f (key e)).
Definition mem_inv (m : gmap Z (list elem)) (f : row -> list row) : Prop :=
  (forall h b, m !! h = Some b -> NoDup (map key b) /\ Forall (elem_ok f) b /\
     Forall (fun e => H (key e) = h) b) /\
  (forall k, f k <> [] -> exists b, m !! H k = Some b /\ k ∈ map key b).

Definition upd (f : row -> list row) (r : row) (k : row) : list row :=
  if flexible_type_vector_equality (take nk r) k then f k ++ [r] else f k.

Lemma upd_same f r : Forall key_cell (take nk r) -> upd f r (take nk r) = f (take nk r) ++ [r].
Proof. intros Hk. unfold upd. by rewrite (proj2 (key_eq _ _ Hk)). Qed.
Lemma upd_other f r k : Forall key_cell (take nk r) -> k <> take nk r -> upd f r k = f k.
Proof.
  intros Hk Hne. unfold upd. destruct (flexible_type_vector_equality (take nk r) k) eqn:E; [|done].
  apply key_eq in E; congruence.
Qed.

Lemma elem_ok_upd f r e : Forall key_cell (take nk r) -> key e <> take nk r ->
  elem_ok f e -> elem_ok (upd f r) e.
Proof. intros Hk Hne (H1 & H2 & H3). unfold elem_ok. by rewrite upd_other. Qed.

Lemma bucket_add_spec f b r : row_valid r -> (forall k, Forall row_valid (f k)) ->
  Forall (elem_ok f) b -> NoDup (map key b) -> (take nk r ∉ map key b -> f (take nk r) = []) ->
  exists b', bucket_add hash hash64_combine r (take nk r) descs b = Ok b' /\
    Forall (elem_ok (upd f r)) b' /\ NoDup (map key b') /\
    (forall k, k ∈ map key b' <-> k = take nk r \/ k ∈ map key b).
Proof.
  intros Hr Hf Hb Hnd Hnew. pose proof Hr as [[Lk Hk] _]. set (k := take nk r) in *.
  induction Hb as [|e b He Hb IH]; cbn.
  - destruct (elem_add_repr (elem_init hash hash64_combine k descs) k [] r) as (e & -> & He);
      [apply elem_init_repr | constructor | done |].
    exists [e]. pose proof He as (Ek & _). cbn [omap_ok]. split_and!; [done| |repeat constructor; set_solver|].
    + apply Forall_singleton. unfold elem_ok. rewrite Ek. fold k. unfold k at 2 3 4. rewrite upd_same by done.
      fold k. rewrite Hnew by set_solver. by split_and!.
    + cbn. rewrite Ek. set_solver.
  - cbn in Hnd. apply NoDup_cons in Hnd as [Hni Hnd]. pose proof He as (Ke & Ne & Re).
    destruct (flexible_type_vector_equality (key e) k) eqn:E.
    + apply key_eq in E; [|by destruct Ke].
      destruct (elem_add_repr e (key e) (f (key e)) r) as (e' & -> & He'); [done..|].
      pose proof He' as (Ek' & _). cbn [omap_ok]. exists (e' :: b). split_and!; [done| | |].
      * constructor.
        { unfold elem_ok. rewrite Ek', E. unfold k at 2 3 4. rewrite upd_same by done. fold k.
          rewrite <- E. split_and!; [done| |done]. by destruct (f (key e)). }
        rewrite Forall_forall in *. intros x Hx. apply elem_ok_upd; [done| |auto].
        fold k. rewrite <- E. intros Ex. apply Hni. rewrite <- Ex. by apply list_elem_of_fmap_2.
      * cbn. rewrite Ek'. by constructor.
      * cbn. rewrite Ek', E. set_solver.
    + assert (key e <> k) as Hne. { intros Ee. rewrite (proj2 (key_eq (key e) k (proj2 Ke)) Ee) in E. done. }
      destruct IH as (b' & -> & Hb' & Hnd' & Hin); [done| |].
      { intros Hni'. apply Hnew. cbn. set_solver. }
      exists (e :: b'). cbn [omap_ok]. split_and!; [done| | |].
      * constructor; [by apply elem_ok_upd|done].
      * cbn. constructor; [|done]. rewrite Hin. set_solver.
      * intros x. cbn. rewrite !elem_of_cons, Hin. tauto.
Qed.

Lemma mem_add m f r : mem_inv m f -> row_valid r -> (forall k, Forall row_valid (f k)) ->
  exists b', bucket_add hash hash64_combine r (take nk r) descs (default [] (m !! H (take nk r))) = Ok b' /\
    mem_inv (<[H (take nk r) := b']> m) (upd f r).
Proof.
  intros [Hm Hc] Hr Hf. set (k := take nk r). pose proof Hr as [[Lk Hk] _].
  assert (NoDup (map key (default [] (m !! H k))) /\ Forall (elem_ok f) (default [] (m !! H k)) /\
          Forall (fun e => H (key e) = H k) (default [] (m !! H k))) as (Hnd & Hb & Hh).
  { destruct (m !! H k) as [b|] eqn:Eb; cbn; [by apply Hm | by repeat constructor]. }
  destruct (bucket_add_spec f (default [] (m !! H k)) r) as (b' & Eb' & Hb' & Hnd' & Hin); try done.
  { intros Hni. destruct (f (take nk r)) eqn:Ef; [done|]. destruct Hni.
    destruct (Hc k) as (b & Eb & Hkb); [unfold k; by rewrite Ef|]. by rewrite Eb. }
  exists b'. split; [done|]. split.
  - intros h b. destruct (decide (h = H k)) as [->|Hne].
    + rewrite lookup_insert_eq. intros [= <-]. split_and!; [done|done|].
      rewrite Forall_forall in *. intros e He. apply (list_elem_of_fmap_2 key) in He. apply Hin in He as [->|He]; [done|].
      apply list_elem_of_fmap in He as (e' & -> & He'). by apply Hh.
    + rewrite lookup_insert_ne by done. intros Eb. destruct (Hm h b Eb) as (H1 & H2 & H3).
      split_and!; [done| |done]. rewrite Forall_forall in *. intros e He. apply elem_ok_upd; [done| |auto].
      intros Ek. apply Hne. by rewrite <- (H3 e He), Ek.
  - intros k' Hk'. destruct (flexible_type_vector_equality k k') eqn:E.
    + apply key_eq in E; [|done]. subst k'. exists b'. rewrite lookup_insert_eq. split; [done|]. apply Hin. by left.
    + assert (k' <> k) as Hne. { intros ->. by rewrite (proj2 (key_eq k k Hk) eq_refl) in E. }
      rewrite upd_other in Hk' by done. destruct (Hc k' Hk') as (b & Eb & Hkb).
      destruct (decide (H k' = H k)) as [EH|NH].
      * exists b'. rewrite EH, lookup_insert_eq. split; [done|]. apply Hin. right. by rewrite <- EH, Eb.
      * exists b. by rewrite lookup_insert_ne.
Qed.

(** ** Chunks *)

Definition sorted_keys (es : list elem) : Prop := StronglySorted (fun a b => kl a b = true) (map key es).
Definition elem_okf (f : row -> list row) (e : elem) : Prop :=
  key_ok (key e) /\ f (key e) <> [] /\ reprf e (key e) (f (key e)).
Definition chunk_ok (ch : list elem) (f : row -> list row) : Prop :=
  sorted_keys ch /\ Forall (elem_okf f) ch /\ (forall k, f k <> [] -> k ∈ map key ch).

Lemma omap_total {T U} (f : T -> outcome U) (P : T -> U -> Prop) l :
  (forall x, x ∈ l -> exists y, f x = Ok y /\ P x y) -> exists l', omap f l = Ok l' /\ Forall2 P l l'.
Proof.
  induction l as [|x l IH]; intros Hl; [by exists []|].
  destruct (Hl x) as (y & Ey & Hy); [left|]. destruct IH as (l' & El & Hl'); [intros; apply Hl; by right|].
  exists (y :: l'). cbn. rewrite Ey. cbn. rewrite El. by split; [|constructor].
Qed.

Lemma hash_order_spec (m : gmap Z (list elem)) :
  exists l, hash_order m = Ok l /\ l ≡ₚ map_to_list m /\
    StronglySorted (fun a b => (a.1 <? b.1) = true) l.
Proof.
  unfold hash_order.
  assert (StrictTotal (fun x => x ∈ map_to_list m) (fun x y : Z * list elem => x.1 <? y.1)) as Hst.
  { split.
    - intros. apply Z.ltb_irrefl.
    - intros x y z _ _ _. zcases; lia || done.
    - intros [h b] [h' b'] Hx Hy. cbn. zcases; try done. intros _ _. assert (h = h') as -> by lia.
      rewrite elem_of_map_to_list in Hx, Hy. congruence. }
  apply (sort_by_spec _ _ _ (StrictTotal0 := Hst)); [done| |apply NoDup_map_to_list].
  by apply Forall_forall.
Qed.

Lemma bucket_sort_spec f b : Forall (elem_ok f) b -> NoDup (map key b) ->
  exists b', (if (1 <? length b)%nat then sort_by elem_lt b else Ok b) = Ok b' /\ b' ≡ₚ b /\ sorted_keys b'.
Proof.
  intros Hb Hnd. destruct (Nat.ltb_spec 1 (length b)) as [Hl|Hl].
  2: { exists b. split_and!; [done|done|]. unfold sorted_keys. destruct b as [|e [|e' b]]; cbn in *; [constructor| |lia].
       repeat constructor. }
  assert (StrictTotal (fun e => e ∈ b) (fun x y : elem => kl (key x) (key y))) as Hst.
  { rewrite Forall_forall in Hb. split.
    - intros x Hx. apply (st_irrefl key_ok kl). by apply Hb.
    - intros x y z Hx Hy Hz. apply (st_trans key_ok kl); by apply Hb.
    - intros x y Hx Hy E1 E2.
      assert (key x = key y) as Ek by (apply (st_total key_ok kl); try done; by apply Hb).
      apply list_elem_of_lookup in Hx as [i Hi], Hy as [j Hj].
      assert (i = j) as ->; [|congruence]. eapply (NoDup_lookup (map key b)); [done| |].
      + rewrite list_lookup_fmap, Hi. done.
      + rewrite list_lookup_fmap, Hj. cbn. by rewrite Ek. }
  destruct (sort_by_spec elem_lt _ _ (StrictTotal0 := Hst) b) as (b' & -> & Hp & Hs).
  - rewrite Forall_forall in Hb. intros x y Hx Hy.
    destruct (Hb x Hx) as (Kx & _ & _ & Hhx & _), (Hb y Hy) as (Ky & _ & _ & Hhy & _). by apply elem_lt_kl.
  - by apply Forall_forall.
  - eapply NoDup_fmap_1, Hnd.
  - exists b'. split_and!; [done|done|]. unfold sorted_keys. clear -Hs.
    induction Hs as [|e b' Hs IH He]; cbn; constructor; [done|]. by apply Forall_map.
Qed.

Lemma sorted_app {T} (r : T -> T -> Prop) l1 l2 : StronglySorted r l1 -> StronglySorted r l2 ->
  (forall x y, x ∈ l1 -> y ∈ l2 -> r x y) -> StronglySorted r (l1 ++ l2).
Proof.
  intros H1 H2 H12. induction H1 as [|x l1 H1 IH Hx]; cbn; [done|]. constructor.
  - apply IH. intros. apply H12; [by right|done].
  - apply Forall_app. split; [done|]. apply Forall_forall. intros. apply H12; [left|done].
Qed.

Lemma concat_sorted (l : list (Z * list elem)) bs :
  StronglySorted (fun a b => (a.1 <? b.1) = true) l ->
  Forall (fun hb => Forall (fun e => H (key e) = hb.1) hb.2) l ->
  Forall2 (fun hb b => b ≡ₚ hb.2 /\ sorted_keys b) l bs -> sorted_keys (concat bs).
Proof.
  intros Hs Hh Hf. revert Hs Hh. induction Hf as [|[h b0] b l bs [Hp Hb] Hf IH]; intros Hs Hh; [constructor|].
  inversion Hs as [|? ? Hs' Hlt]; subst. apply Forall_cons in Hh as [Hh Hhs]. cbn in *.
  unfold sorted_keys. rewrite map_app. apply sorted_app; [done | by apply IH |].
  intros x y Hx Hy. apply list_elem_of_fmap in Hx as (e & -> & He), Hy as (e' & -> & He').
  rewrite Hp in He. rewrite Forall_forall in Hh. rewrite Forall_forall in Hhs. rewrite Forall_forall in Hlt. pose proof (Hh e He) as Ee.
  apply list_elem_of_In, in_concat in He' as (b' & Hb' & He'). apply list_elem_of_In in Hb', He'.
  apply list_elem_of_lookup in Hb' as [i Hi].
  destruct (Forall2_lookup_r _ _ _ _ _ Hf Hi) as ([h' b0'] & Hl & Hp' & _). cbn in Hp'.
  apply list_elem_of_lookup_2 in Hl. pose proof (Hlt _ Hl) as Hlt'. pose proof (Hhs _ Hl) as Hh'. cbn in *.
  rewrite Forall_forall in Hh'. rewrite Hp' in He'. pose proof (Hh' e' He'). unfold kl. zcases; lia || done.
Qed.

Lemma finalize_ok f e : elem_ok f e -> elem_okf f (finalize e).
Proof. intros (H1 & H2 & H3). split_and!; [done|done|]. by exists e. Qed.

Definition strings_of : list elem -> list bytes -> Prop :=
  Forall2 (fun e s => to_bytes elem_save e = Some s /\ of_bytes load_elem s = Some e).

Hypothesis nk_fits : fits_size nk.

Definition rows_fine (f : row -> list row) : Prop :=
  forall k, Forall row_valid (f k) /\ fits_size (length (f k)).

Lemma elem_strings f es : rows_fine f -> Forall (elem_okf f) es ->
  exists ss, omap elem_string es = Ok ss /\ strings_of es ss.
Proof.
  intros Hf Hes. apply omap_total. rewrite Forall_forall in Hes. intros e He.
  destruct (Hes e He) as (Hk & Hn & Hr). destruct (Hf (key e)) as [Hv Hs].
  destruct (codec_roundtrip elem_save load_elem e []) as (bs & E1 & E2); [by eapply elem_codec|].
  exists bs. unfold elem_string. rewrite E1. split; [done|]. split; [done|]. by rewrite app_nil_r in E2.
Qed.

(** ** Flushing a segment *)

Lemma flush_memory m f : mem_inv m f -> rows_fine f ->
  exists l sorted ss, hash_order m = Ok l /\
    omap (fun b : Z * list elem => if (1 <? length b.2)%nat then sort_by elem_lt b.2 else Ok b.2) l = Ok sorted /\
    chunk_ok (map finalize (concat sorted)) f /\
    omap elem_string (map finalize (concat sorted)) = Ok ss /\ strings_of (map finalize (concat sorted)) ss.
Proof.
  intros [Hm Hc] Hf. destruct (hash_order_spec m) as (l & El & Hp & Hs).
  assert (forall h b, (h, b) ∈ l -> m !! h = Some b) as Hl.
  { intros h b Hb. by rewrite Hp, elem_of_map_to_list in Hb. }
  destruct (omap_total (fun b : Z * list elem => if (1 <? length b.2)%nat then sort_by elem_lt b.2 else Ok b.2)
    (fun hb b => b ≡ₚ hb.2 /\ sorted_keys b) l) as (sorted & Es & Hsorted).
  { intros [h b] Hb. destruct (Hm h b (Hl h b Hb)) as (Hnd & Hok & _). cbn. by eapply bucket_sort_spec. }
  assert (forall e, e ∈ concat sorted -> elem_ok f e) as Hall.
  { intros e He. apply list_elem_of_In, in_concat in He as (b & Hb & He). apply list_elem_of_In in Hb, He.
    apply list_elem_of_lookup in Hb as [i Hi]. destruct (Forall2_lookup_r _ _ _ _ _ Hsorted Hi) as ([h b0] & Hi' & Hp' & _).
    apply list_elem_of_lookup_2 in Hi'. destruct (Hm h b0 (Hl _ _ Hi')) as (_ & Hok & _).
    rewrite Forall_forall in Hok. apply Hok. by rewrite <- Hp'. }
  assert (chunk_ok (map finalize (concat sorted)) f) as Hch.
  { split_and!.
    - unfold sorted_keys. rewrite map_map. apply (concat_sorted l); [done| |done].
      apply Forall_forall. intros [h b] Hb. by apply (Hm h b (Hl h b Hb)).
    - apply Forall_map, Forall_forall. intros e He. by apply finalize_ok, Hall.
    - intros k Hk. destruct (Hc k Hk) as (b & Eb & Hkb). rewrite map_map.
      assert ((H k, b) ∈ l) as Hb by (by rewrite Hp, elem_of_map_to_list).
      apply list_elem_of_lookup in Hb as [i Hi]. destruct (Forall2_lookup_l _ _ _ _ _ Hsorted Hi) as (b' & Hi' & Hp' & _).
      cbn in Hp'. apply list_elem_of_fmap in Hkb as (e & -> & He). apply list_elem_of_fmap. exists e. split; [done|].
      apply list_elem_of_In, in_concat. exists b'. split; apply list_elem_of_In; [by eapply list_elem_of_lookup_2 | by rewrite Hp']. }
  destruct (elem_strings f (map finalize (concat sorted))) as (ss & Ess & Hss); [done|by destruct Hch as (_ & ? & _)|].
  by exists l, sorted, ss.
Qed.

(** ** The invariant of a segment: [rs] are the rows added to it *)

Definition rows_of (k : row) (rs : list row) : list row :=
  List.filter (fun r => flexible_type_vector_equality (take nk r) k) rs.

Definition seg_inv (s : @segment A) (rs : list row) : Prop :=
  exists chs fs f sss,
    Forall2 chunk_ok chs fs /\ mem_inv (elements s) f /\
    Forall2 strings_of chs sss /\ outiter s = concat sss /\ chunk_size s = map length sss /\
    forall k, concat (map (fun g : row -> list row => g k) fs) ++ f k = rows_of k rs.

Lemma rows_of_fine k rs : Forall row_valid rs -> fits_size (length rs) ->
  Forall row_valid (rows_of k rs) /\ fits_size (length (rows_of k rs)).
Proof.
  intros Hv Hn. split.
  - rewrite Forall_forall in *. intros r Hr. apply Hv. apply list_elem_of_In in Hr.
    apply list_elem_of_In. by apply filter_In in Hr as [? _].
  - pose proof (filter_length_le (fun r => flexible_type_vector_equality (take nk r) k) rs).
    unfold fits_size, rows_of in *. lia.
Qed.

Lemma seg_new_inv : seg_inv seg_new [].
Proof.
  exists [], [], (fun _ => []), []. split_and!; try constructor; try done.
Qed.

Lemma flush_segment_spec s rs : seg_inv s rs -> Forall row_valid rs -> fits_size (length rs) ->
  exists s', flush_segment s = Ok s' /\ seg_inv s' rs /\ elements s' = ∅.
Proof.
  intros (chs & fs & f & sss & Hch & Hmem & Hstr & Eo & Ec & Hrows) Hv Hn.
  assert (rows_fine f) as Hf.
  { intros k. destruct (rows_of_fine k rs Hv Hn) as [Hv' Hn']. rewrite <- Hrows in Hv', Hn'.
    apply Forall_app in Hv' as [_ Hv']. split; [done|]. unfold fits_size in *. rewrite length_app in Hn'. lia. }
  unfold flush_segment. destruct (Nat.eqb_spec (base.size (elements s)) 0) as [E|E].
  { apply map_size_empty_inv in E. exists s. split_and!; [done| |done]. by exists chs, fs, f, sss. }
  destruct (flush_memory _ f Hmem Hf) as (l & sorted & ss & -> & Es & Hc & Ess & Hss).
  cbn [obind]. rewrite Es. cbn [obind]. unfold finalize in Ess at 1. rewrite Ess. cbn [obind].
  eexists. split; [done|]. split; [|done].
  exists (chs ++ [map finalize (concat sorted)]), (fs ++ [f]), (fun _ => []), (sss ++ [ss]).
  cbn [elements outiter chunk_size]. split_and!.
  - by apply Forall2_app; [|constructor].
  - split; [|done]. intros h b. by rewrite lookup_empty.
  - by apply Forall2_app; [|constructor].
  - rewrite concat_app, Eo. cbn. by rewrite app_nil_r.
  - rewrite map_app, Ec. cbn. do 2 f_equal. exact (Forall2_length _ _ _ Hss).
  - intros k. rewrite map_app, concat_app. cbn. by rewrite !app_nil_r.
Qed.

Lemma rows_of_snoc k rs r : rows_of k (rs ++ [r]) =
  rows_of k rs ++ (if flexible_type_vector_equality (take nk r) k then [r] else []).
Proof. unfold rows_of. rewrite List.filter_app. cbn. by case_match. Qed.

Lemma seg_add_spec s rs r max : seg_inv s rs -> Forall row_valid rs -> row_valid r ->
  fits_size (length (rs ++ [r])) ->
  exists s', seg_add hash hash64_combine r (take nk r) (H (take nk r)) descs max s = Ok s' /\
    seg_inv s' (rs ++ [r]).
Proof.
  intros (chs & fs & f & sss & Hch & Hmem & Hstr & Eo & Ec & Hrows) Hv Hr Hn.
  assert (forall k, Forall row_valid (f k)) as Hf.
  { intros k. destruct (rows_of_fine k rs Hv) as [Hv' _].
    { unfold fits_size in *. rewrite length_app in Hn. lia. }
    rewrite <- Hrows in Hv'. by apply Forall_app in Hv' as [_ ?]. }
  destruct (mem_add (elements s) f r Hmem Hr Hf) as (b' & Eb & Hmem'). unfold seg_add. rewrite Eb. cbn [obind].
  set (s1 := mk_seg _ _ _).
  assert (seg_inv s1 (rs ++ [r])) as Hs1.
  { exists chs, fs, (upd f r), sss. split_and!; try done. intros k. rewrite rows_of_snoc, <- Hrows.
    unfold upd. case_match; [by rewrite app_assoc | by rewrite app_nil_r]. }
  destruct (max <=? _)%nat; [|by exists s1].
  destruct (flush_segment_spec s1 (rs ++ [r])) as (s' & Es & Hs' & _); try done.
  - apply Forall_app. by rewrite Forall_singleton.
  - by exists s'.
Qed.

(** ** Merging the chunks

    [C] are the elements not yet popped, chunk by chunk; the first [j] chunks
    have their head in the queue [pq] and the rest of their strings in [css]. *)
Definition pq_rel (j : nat) (pq : list (elem * nat)) (css : list (list bytes)) (C : list (list elem)) : Prop :=
  NoDup pq /\ (forall e i, (e, i) ∈ pq <-> (i < j)%nat /\ exists c, C !! i = Some (e :: c)) /\
  length css = length C /\
  (forall i c, C !! i = Some c -> exists ss, css !! i = Some ss /\
     strings_of (if (i <? j)%nat then tail c else c) ss).

Definition total (C : list (list elem)) : nat := length (concat C).

Lemma fill_queue_spec C css n j pq : pq_rel j pq css C -> (j + n)%nat = length C ->
  exists pq' css', fill_queue hash hash64_combine descs (seq j n) (pq, css) = Ok (pq', css') /\
    pq_rel (length C) pq' css' C.
Proof.
  revert j pq css. induction n as [|n IH]; intros j pq css Hrel Hj; cbn.
  { exists pq, css. split; [done|]. by replace (length C) with j by lia. }
  destruct Hrel as (Hnd & Hpq & Hlen & Hcss).
  destruct (lookup_lt_is_Some_2 C j) as [c Hc]; [lia|].
  destruct (Hcss j c Hc) as (ss & Hss & Hstr). rewrite Nat.ltb_irrefl in Hstr.
  unfold refill. cbn [fst snd]. rewrite Hss. inversion Hstr as [|e s c' ss' [_ He] Hstr']; subst.
  - cbn [obind]. apply IH; [|lia]. split_and!; [done| |done|].
    + intros e i. rewrite Hpq. split; intros [Hi (c' & Hc')]; (split; [|eauto]).
      * lia.
      * destruct (decide (i = j)) as [->|]; [congruence|lia].
    + intros i c' Hc'. destruct (decide (i = j)) as [->|Hne].
      * exists []. split; [done|]. rewrite Hc in Hc'. injection Hc' as <-. destruct (j <? S j)%nat; constructor.
      * destruct (Hcss i c' Hc') as (ss' & ? & ?). exists ss'. split; [done|].
        destruct (Nat.ltb_spec i j), (Nat.ltb_spec i (S j)); try done; lia.
  - rewrite He. cbn [obind]. apply IH; [|lia]. split_and!.
    + constructor; [|done]. rewrite Hpq. intros [? _]. lia.
    + intros e' i. rewrite elem_of_cons, Hpq. split.
      * intros [[= -> ->]|[Hi Hex]]; [|split; [lia|done]]. split; [lia|eauto].
      * intros [Hi (c'' & Hc'')]. destruct (decide (i = j)) as [->|]; [left; congruence | right].
        split; [lia|eauto].
    + by rewrite length_insert.
    + intros i c'' Hc''. destruct (decide (i = j)) as [->|Hne].
      * exists ss'. rewrite list_lookup_insert_eq by (rewrite Hlen; lia). split; [done|].
        rewrite Hc in Hc''. injection Hc'' as <-. destruct (Nat.ltb_spec j (S j)); [done|lia].
      * destruct (Hcss i c'' Hc'') as (ss'' & ? & ?). exists ss''. rewrite list_lookup_insert_ne by done.
        split; [done|]. destruct (Nat.ltb_spec i j), (Nat.ltb_spec i (S j)); try done; lia.
Qed.

(** The order of the queue: by key, then by chunk *)
Definition pq_lt (x y : elem * nat) : bool :=
  if kl (key x.1) (key y.1) then true else if kl (key y.1) (key x.1) then false else (x.2 <? y.2)%nat.
Definition in_order (e : elem) : Prop := key_ok (key e) /\ hash_val e = H (key e).

Lemma pq_less_lt x y : in_order x.1 -> in_order y.1 -> pq_less x y = Ok (pq_lt x y).
Proof.
  intros [Kx Hx] [Ky Hy]. unfold pq_less, pq_lt. rewrite !elem_lt_kl by done. cbn.
  destruct (kl (key x.1) (key y.1)); [done|]. cbn. by destruct (kl (key y.1) (key x.1)).
Qed.

Lemma pq_lt_trans x y z : in_order x.1 -> in_order y.1 -> in_order z.1 ->
  pq_lt x y = true -> pq_lt y z = true -> pq_lt x z = true.
Proof.
  intros [Kx _] [Ky _] [Kz _]. unfold pq_lt.
  pose proof (st_trans key_ok kl (key x.1) (key y.1) (key z.1) Kx Ky Kz) as T1.
  destruct (kl (key x.1) (key y.1)) eqn:E1, (kl (key y.1) (key z.1)) eqn:E2.
  - by rewrite T1.
  - destruct (kl (key z.1) (key y.1)) eqn:E3; [done|].
    assert (key y.1 = key z.1) as <- by (by apply (st_total key_ok kl)). by rewrite E1.
  - destruct (kl (key y.1) (key x.1)) eqn:E3; [done|].
    assert (key x.1 = key y.1) as -> by (by apply (st_total key_ok kl)). by rewrite E2.
  - destruct (kl (key y.1) (key x.1)) eqn:E3; [done|]. destruct (kl (key z.1) (key y.1)) eqn:E4; [done|].
    assert (key x.1 = key y.1) as -> by (by apply (st_total key_ok kl)). rewrite E2, E4.
    intros ?%Nat.ltb_lt ?%Nat.ltb_lt. apply Nat.ltb_lt. lia.
Qed.

Lemma pq_lt_irrefl x : in_order x.1 -> pq_lt x x = false.
Proof. intros [Kx _]. unfold pq_lt. rewrite (st_irrefl key_ok kl) by done. apply Nat.ltb_irrefl. Qed.

Lemma kl_cases a b : key_ok a -> key_ok b ->
  (kl a b = true /\ kl b a = false) \/ a = b \/ (kl b a = true /\ kl a b = false).
Proof.
  intros Ha Hb. destruct (kl a b) eqn:E1.
  - left. split; [done|]. by apply (st_asym key_ok kl).
  - destruct (kl b a) eqn:E2; [by right; right|]. right; left. by apply (st_total key_ok kl).
Qed.

Lemma pq_lt_split x y z : in_order x.1 -> in_order y.1 -> in_order z.1 ->
  pq_lt x z = true -> pq_lt x y = true \/ pq_lt y z = true.
Proof.
  intros [Kx _] [Ky _] [Kz _]. unfold pq_lt.
  pose proof (st_trans key_ok kl (key z.1) (key y.1) (key x.1) Kz Ky Kx) as T.
  destruct (kl_cases (key x.1) (key y.1) Kx Ky) as [[E1 E2]|[E1|[E1 E2]]]; rewrite ?E1, ?E2; auto.
  - rewrite !(st_irrefl key_ok kl) by done.
    destruct (kl_cases (key y.1) (key z.1) Ky Kz) as [[E3 E4]|[E3|[E3 E4]]]; rewrite ?E3, ?E4; try (by auto).
    rewrite !(st_irrefl key_ok kl) by done. rewrite !Nat.ltb_lt. lia.
  - destruct (kl_cases (key y.1) (key z.1) Ky Kz) as [[E3 E4]|[E3|[E3 E4]]]; rewrite ?E3, ?E4; auto.
    + rewrite <- E3, E1, E2. done.
    + rewrite (T E3 E1), (st_asym key_ok kl (key z.1) (key x.1)) by auto. done.
Qed.

Lemma pop_heap_spec x pq : in_order x.1 -> Forall (fun y => in_order y.1) pq ->
  exists m rest, pop_heap x pq = Ok (m, rest) /\ m :: rest ≡ₚ x :: pq /\
    Forall (fun y => pq_lt y m = false) rest.
Proof.
  intros Hx Hpq. revert x Hx. induction Hpq as [|y pq Hy Hpq IH]; intros x Hx; cbn.
  { exists x, []. by repeat constructor. }
  assert (forall z m rest, in_order z.1 -> m :: rest ≡ₚ z :: pq ->
    Forall (fun y => pq_lt y m = false) rest -> in_order m.1 /\ pq_lt z m = false) as Hm.
  { intros z m rest Hz Hp Hl. split.
    - assert (m ∈ z :: pq) as Hin by (rewrite <- Hp; left). rewrite elem_of_cons in Hin.
      destruct Hin as [->|Hin]; [done|]. rewrite Forall_forall in Hpq. by apply Hpq.
    - assert (z ∈ m :: rest) as Hin by (rewrite Hp; left). rewrite elem_of_cons in Hin.
      destruct Hin as [->|Hin]; [by apply pq_lt_irrefl|]. rewrite Forall_forall in Hl. by apply Hl. }
  rewrite pq_less_lt by done. cbn. destruct (pq_lt y x) eqn:E.
  - destruct (IH y Hy) as (m & rest & -> & Hp & Hl). exists m, (x :: rest). cbn. split_and!; [done| |].
    + etransitivity; [apply perm_swap|]. by apply perm_skip.
    + constructor; [|done]. destruct (pq_lt x m) eqn:E'; [|done].
      destruct (Hm y m rest Hy Hp Hl) as [Om Em]. by rewrite (pq_lt_trans y x m) in Em.
  - destruct (IH x Hx) as (m & rest & -> & Hp & Hl). exists m, (y :: rest). cbn. split_and!; [done| |].
    + etransitivity; [apply perm_swap|]. etransitivity; [by apply perm_skip|]. apply perm_swap.
    + constructor; [|done]. destruct (pq_lt y m) eqn:E'; [|done].
      destruct (Hm x m rest Hx Hp Hl) as [Om Em].
      destruct (pq_lt_split y x m); try done; congruence.
Qed.

Lemma okf_in_order f e : elem_okf f e -> in_order e.
Proof. intros (Hk & _ & (e0 & (Ek & Eh & _) & ->)). by split. Qed.

Lemma pop_refill_spec C x pq css : Forall (Forall in_order) C -> pq_rel (length C) (x :: pq) css C ->
  exists e i c pq' css', C !! i = Some (e :: c) /\ front x pq = Ok e /\
    pop_refill hash hash64_combine descs x pq css = Ok (e, (pq', css')) /\
    pq_rel (length C) pq' css' (<[i := c]> C) /\
    (forall j e' c', C !! j = Some (e' :: c') -> kl (key e) (key e') = true \/ (key e = key e' /\ (i <= j)%nat)).
Proof.
  intros HC (Hnd & Hpq & Hlen & Hcss).
  assert (forall y, y ∈ x :: pq -> in_order y.1) as Ho.
  { intros [e i] Hy. apply Hpq in Hy as [_ (c & Hc)]. apply list_elem_of_lookup_2 in Hc.
    rewrite Forall_forall in HC. specialize (HC _ Hc). by apply Forall_cons in HC as [? _]. }
  destruct (pop_heap_spec x pq) as ([e i] & rest & Epop & Hp & Hleast).
  { apply Ho. left. } { apply Forall_forall. intros. apply Ho. by right. }
  assert ((e, i) ∈ x :: pq) as Hm by (rewrite <- Hp; left).
  apply Hpq in Hm as [Hi (c & Hc)]. exists e, i, c.
  assert (NoDup ((e, i) :: rest)) as Hnd' by (by rewrite Hp). apply NoDup_cons in Hnd' as [Hni Hnd'].
  assert (forall e' j, (e', j) ∈ rest <-> j <> i /\ exists c', C !! j = Some (e' :: c')) as Hrest.
  { intros e' j. split.
    - intros Hin. assert ((e', j) ∈ x :: pq) as Hin' by (rewrite <- Hp; by right). apply Hpq in Hin' as [_ (c' & Hc')].
      split; [|eauto]. intros ->. rewrite Hc in Hc'. injection Hc' as -> ->. done.
    - intros [Hne (c' & Hc')]. assert ((e', j) ∈ x :: pq) as Hin.
      { apply Hpq. split; [by eapply lookup_lt_Some | eauto]. }
      rewrite <- Hp, elem_of_cons in Hin. destruct Hin as [[= -> ->]|]; done. }
  destruct (Hcss i (e :: c) Hc) as (ss & Hss & Hstr). destruct (Nat.ltb_spec i (length C)); [|lia]. cbn [tail] in Hstr.
  assert (forall j e' c', C !! j = Some (e' :: c') ->
    kl (key e) (key e') = true \/ (key e = key e' /\ (i <= j)%nat)) as Hmin.
  { intros j e' c' Hc'. destruct (decide (j = i)) as [->|Hne]; [rewrite Hc in Hc'; injection Hc' as -> ->; by right|].
    assert ((e', j) ∈ rest) as Hin by (apply Hrest; eauto). rewrite Forall_forall in Hleast.
    pose proof (Hleast _ Hin) as Hl. unfold pq_lt in Hl. cbn in Hl.
    assert (in_order e /\ in_order e') as [[Ke _] [Ke' _]].
    { split; [apply (Ho (e, i)) | apply (Ho (e', j))]; rewrite <- Hp; [left | by right]. }
    destruct (kl_cases (key e) (key e') Ke Ke') as [[E _]|[E|[E1 E2]]]; [by left| |].
    - right. split; [done|]. rewrite E, (st_irrefl key_ok kl) in Hl by done. apply Nat.ltb_ge in Hl. lia.
    - by rewrite E1 in Hl. }
  unfold front, pop_refill, refill. rewrite Epop. cbn [omap_ok obind fst snd]. rewrite Hss.
  inversion Hstr as [|e' s c' ss' [_ He] Hstr' ]; subst.
  - exists rest, css. split_and!; try done. split_and!; [done| |by rewrite length_insert|].
    + intros e' j. rewrite Hrest. destruct (decide (j = i)) as [->|Hne].
      * rewrite list_lookup_insert_eq by done. split; [by intros []|]. by intros [_ (? & ?)].
      * rewrite list_lookup_insert_ne by done. split; [|by intros [_ ?]].
        intros [_ (c' & Hc')]. split; [by eapply lookup_lt_Some | eauto].
    + intros j c' Hc'. destruct (decide (j = i)) as [->|Hne].
      * rewrite list_lookup_insert_eq in Hc' by done. injection Hc' as <-. exists []. split; [done|].
        case_match; constructor.
      * rewrite list_lookup_insert_ne in Hc' by done. by apply Hcss.
  - rewrite He. cbn. exists ((e', i) :: rest), (<[i := ss']> css). split_and!; try done. split_and!.
    + constructor; [|done]. rewrite Hrest. by intros [? _].
    + intros e2 j. rewrite elem_of_cons, Hrest. destruct (decide (j = i)) as [->|Hne].
      * rewrite list_lookup_insert_eq by done. split.
        { intros [[= ->]|[? _]]; [|done]. eauto. }
        { intros [_ (? & [= -> ->])]. by left. }
      * rewrite list_lookup_insert_ne by done. split.
        { intros [[= -> ->]|[_ (c2 & Hc2)]]; [done|]. split; [by eapply lookup_lt_Some | eauto]. }
        { intros [_ ?]. by right. }
    + by rewrite !length_insert.
    + intros j c2 Hc2. destruct (decide (j = i)) as [->|Hne].
      * rewrite list_lookup_insert_eq in Hc2 by done. injection Hc2 as <-. exists ss'.
        rewrite list_lookup_insert_eq by (by rewrite Hlen). split; [done|].
        destruct (Nat.ltb_spec i (length C)); [done|lia].
      * rewrite list_lookup_insert_ne in Hc2 by done. rewrite list_lookup_insert_ne by done. by apply Hcss.
Qed.

(** ** The rows the chunks hold

    [gs] gives, chunk by chunk, the rows of each key. *)
Definition all_rows (gs : list (row -> list row)) (k : row) : list row :=
  concat (map (fun g : row -> list row => g k) gs).
Definition drop_key (k : row) (g : row -> list row) (k' : row) : list row :=
  if flexible_type_vector_equality k k' then [] else g k'.

Lemma drop_key_same k g : Forall key_cell k -> drop_key k g k = [].
Proof. intros Hk. unfold drop_key. by rewrite (proj2 (key_eq k k Hk)). Qed.
Lemma drop_key_other k g k' : Forall key_cell k -> k' <> k -> drop_key k g k' = g k'.
Proof.
  intros Hk Hne. unfold drop_key. destruct (flexible_type_vector_equality k k') eqn:E; [|done].
  apply key_eq in E; congruence.
Qed.

Lemma key_dec k k' : Forall key_cell k -> k' = k \/ k' <> k.
Proof.
  intros Hk. pose proof (key_eq k k' Hk) as E. destruct (flexible_type_vector_equality k k').
  - left. symmetry. by apply E.
  - right. intros ->. by pose proof (proj2 E eq_refl).
Qed.

Lemma chunk_ok_ext c g g' : (forall k, g k = g' k) -> chunk_ok c g -> chunk_ok c g'.
Proof.
  intros E (Hs & Ho & Hk). split_and!; [done| |].
  - eapply Forall_impl; [exact Ho|]. intros e. unfold elem_okf. by rewrite E.
  - intros k. rewrite <- E. apply Hk.
Qed.

(** A chunk whose keys are all after [k] has no rows for [k]. *)
Lemma chunk_after c g k : key_ok k -> chunk_ok c g ->
  match c with [] => True | e :: _ => kl k (key e) = true end -> g k = [].
Proof.
  intros Hk (Hs & Ho & Hc) Hhd. destruct (g k) as [|r rs] eqn:Eg; [done|]. exfalso.
  destruct c as [|e c]; [specialize (Hc k); rewrite Eg in Hc; set_solver|].
  assert (k ∈ map key (e :: c)) as Hin by (apply Hc; by rewrite Eg).
  assert (kl k k = true) as Hkk; [|by rewrite (st_irrefl key_ok kl) in Hkk].
  cbn in Hin. rewrite elem_of_cons in Hin. destruct Hin as [->|Hin]; [done|].
  apply Forall_cons in Ho as [He _]. inversion Hs as [|? ? _ Hlt]; subst. rewrite Forall_forall in Hlt.
  apply (st_trans key_ok kl k (key e) k); auto. by destruct He.
Qed.

Lemma chunk_pop e c g : chunk_ok (e :: c) g -> chunk_ok c (drop_key (key e) g).
Proof.
  intros (Hs & Ho & Hc). apply Forall_cons in Ho as [He Ho]. pose proof He as ([_ Hk] & _).
  inversion Hs as [|? ? Hs' Hlt]; subst.
  assert (forall k, k ∈ map key c -> k <> key e) as Hne.
  { intros k Hin ->. rewrite Forall_forall in Hlt. pose proof (Hlt _ Hin) as Hl. cbn in Hl.
    rewrite (st_irrefl key_ok kl) in Hl; [done|]. by destruct He. }
  split_and!; [done| |].
  - rewrite Forall_forall in *. intros e' He'. destruct (Ho e' He') as (H1 & H2 & H3).
    unfold elem_okf. rewrite drop_key_other by (done || by apply Hne, list_elem_of_fmap_2). by split_and!.
  - intros k Hk'. destruct (flexible_type_vector_equality (key e) k) eqn:E.
    + unfold drop_key in Hk'. by rewrite E in Hk'.
    + unfold drop_key in Hk'. rewrite E in Hk'. specialize (Hc k Hk'). cbn in Hc.
      rewrite elem_of_cons in Hc. destruct Hc as [->|]; [|done]. by rewrite (proj2 (key_eq _ _ Hk)) in E.
Qed.

Lemma all_rows_insert gs i g g' k : gs !! i = Some g ->
  (forall j h, (j < i)%nat -> gs !! j = Some h -> h k = []) -> g' k = [] ->
  all_rows gs k = g k ++ all_rows (<[i := g']> gs) k.
Proof.
  unfold all_rows. revert i. induction gs as [|h gs IH]; intros [|i] Hi Hlow Hg'; try done; cbn in *.
  - injection Hi as ->. by rewrite Hg'.
  - rewrite (Hlow 0%nat h) by (done || lia). cbn. apply IH; [done| |done].
    intros j h' Hj Hh'. apply (Hlow (S j)); [lia|done].
Qed.

Lemma all_rows_drop gs k k' : Forall key_cell k -> all_rows (map (drop_key k) gs) k' =
  if flexible_type_vector_equality k k' then [] else all_rows gs k'.
Proof.
  intros Hk. unfold all_rows, drop_key. rewrite map_map.
  destruct (flexible_type_vector_equality k k'); [|done]. by induction gs.
Qed.

Lemma total_pop C i e c : C !! i = Some (e :: c) -> total C = S (total (<[i := c]> C)).
Proof.
  revert i. unfold total. induction C as [|c' C IH]; intros [|i] Hi; try done.
  - by injection Hi as ->.
  - change (<[S i := c]> (c' :: C)) with (c' :: <[i := c]> C).
    rewrite !concat_cons, !length_app, (IH i Hi). lia.
Qed.

(** An element below the head of every chunk is below all their elements. *)
Lemma heads_least C gs (e : elem) : Forall2 chunk_ok C gs -> key_ok (key e) ->
  (forall j e' c', C !! j = Some (e' :: c') -> kl (key e) (key e') = true \/ key e = key e') ->
  forall c e', c ∈ C -> e' ∈ c -> kl (key e') (key e) = false.
Proof.
  intros HC Hk Hmin c1 e1 Hc1 He1. apply list_elem_of_lookup in Hc1 as [j Hj].
  destruct (Forall2_lookup_l _ _ _ _ _ HC Hj) as (g1 & _ & (Hs1 & Ho1 & _)).
  destruct c1 as [|e2 c1]; [set_solver|]. rewrite Forall_forall in Ho1.
  pose proof (Ho1 e1 He1) as (K1 & _). pose proof (Ho1 e2 ltac:(left)) as (K2 & _).
  inversion Hs1 as [|? ? _ Hl]; subst. rewrite Forall_forall in Hl.
  assert (e1 = e2 \/ kl (key e2) (key e1) = true) as H21.
  { rewrite elem_of_cons in He1. destruct He1 as [->|He1]; [by left | right]. by apply Hl, list_elem_of_fmap_2. }
  destruct (Hmin j e2 c1 Hj) as [Hlt|Heq], H21 as [->|H21].
  - by apply (st_asym key_ok kl).
  - apply (st_asym key_ok kl); [done..|]. by apply (st_trans key_ok kl _ (key e2)).
  - rewrite Heq. by apply (st_irrefl key_ok kl).
  - rewrite Heq. by apply (st_asym key_ok kl).
Qed.

(** One pop, with the rows it takes *)
Lemma pop_step C gs x pq css : Forall2 chunk_ok C gs -> pq_rel (length C) (x :: pq) css C ->
  exists e g gs' C' pq' css', front x pq = Ok e /\
    pop_refill hash hash64_combine descs x pq css = Ok (e, (pq', css')) /\
    pq_rel (length C') pq' css' C' /\ Forall2 chunk_ok C' gs' /\ total C = S (total C') /\
    elem_okf g e /\ all_rows gs (key e) = g (key e) ++ all_rows gs' (key e) /\
    (forall k, k <> key e -> all_rows gs' k = all_rows gs k) /\
    (forall c e', c ∈ C -> e' ∈ c -> kl (key e') (key e) = false) /\ (exists c, c ∈ C /\ e ∈ c) /\
    (forall c', c' ∈ C' -> exists c, c ∈ C /\ forall e', e' ∈ c' -> e' ∈ c).
Proof.
  intros HC Hrel.
  assert (forall c g, chunk_ok c g -> Forall in_order c) as Hord.
  { intros c g (_ & Ho & _). eapply Forall_impl; [exact Ho|]. apply okf_in_order. }
  destruct (pop_refill_spec C x pq css) as (e & i & c & pq' & css' & Hi & Hfr & Hpop & Hrel' & Hmin); [|done|].
  { apply Forall_forall. intros c Hc. apply list_elem_of_lookup in Hc as [j Hj].
    destruct (Forall2_lookup_l _ _ _ _ _ HC Hj) as (g & _ & Hg). by eapply Hord. }
  destruct (Forall2_lookup_l _ _ _ _ _ HC Hi) as (g & Hgi & Hg).
  pose proof Hg as (Hs & Ho & _). apply Forall_cons in Ho as [He _]. pose proof He as (Hk & _).
  exists e, g, (<[i := drop_key (key e) g]> gs), (<[i := c]> C), pq', css'.
  split_and!; try done.
  - by rewrite length_insert.
  - apply Forall2_insert; [done | by apply chunk_pop].
  - by eapply total_pop.
  - apply all_rows_insert; [done| |apply drop_key_same, Hk]. intros j h Hj Hh.
    destruct (Forall2_lookup_r _ _ _ _ _ HC Hh) as (c' & Hc' & Hch). apply (chunk_after c'); [done|done|].
    destruct c' as [|e' c']; [done|]. destruct (Hmin j e' c' Hc') as [|[_ ?]]; [done|lia].
  - intros k Hne. unfold all_rows. f_equal. apply list_eq. intros j. rewrite !list_lookup_fmap.
    destruct (decide (j = i)) as [->|Hji]; [|by rewrite list_lookup_insert_ne].
    rewrite list_lookup_insert_eq by (by eapply lookup_lt_Some). rewrite Hgi. cbn.
    by rewrite drop_key_other by (done || apply Hk).
  - apply (heads_least C gs e HC Hk). intros j e' c' Hj. destruct (Hmin j e' c' Hj) as [|[? _]]; auto.
  - exists (e :: c). split; [by eapply list_elem_of_lookup_2 | left].
  - intros c' Hc'. apply list_elem_of_lookup in Hc' as [j Hj]. destruct (decide (j = i)) as [->|Hne].
    + rewrite list_lookup_insert_eq in Hj by (by eapply lookup_lt_Some). injection Hj as <-.
      exists (e :: c). split; [by eapply list_elem_of_lookup_2 | intros; by right].
    + rewrite list_lookup_insert_ne in Hj by done. exists c'. split; [by eapply list_elem_of_lookup_2 | done].
Qed.

(** No rows for a key that comes before the head of every chunk *)
Lemma all_rows_none C gs k : key_ok k -> Forall2 chunk_ok C gs ->
  (forall c e, c ∈ C -> e ∈ c -> kl k (key e) = true) -> all_rows gs k = [].
Proof.
  intros Hk HC Hall. unfold all_rows. induction HC as [|c g C gs Hc HC IH]; cbn; [done|].
  rewrite IH by (intros; eapply Hall; [by right|done]).
  rewrite (chunk_after c g k Hk Hc); [done|]. destruct c as [|e c]; [done|]. apply (Hall (e :: c)); left.
Qed.

Lemma pq_empty C css : pq_rel (length C) [] css C -> forall c e, c ∈ C -> e ∈ c -> False.
Proof.
  intros (_ & Hpq & _) c e Hc He. apply list_elem_of_lookup in Hc as [i Hi]. destruct c as [|e' c]; [set_solver|].
  assert ((e', i) ∈ []) as Hin; [|set_solver]. apply Hpq. split; [by eapply lookup_lt_Some | eauto].
Qed.

Lemma elem_at_least C gs (e e' : elem) c k : Forall2 chunk_ok C gs -> key_ok (key e) -> key_ok k -> c ∈ C -> e' ∈ c ->
  kl (key e') (key e) = false -> kl (key e) k = false -> key e <> k -> kl k (key e') = true.
Proof.
  intros HC He Hk Hc He' H1 H2 Hne. apply list_elem_of_lookup in Hc as [i Hi].
  destruct (Forall2_lookup_l _ _ _ _ _ HC Hi) as (g & _ & (_ & Ho & _)). rewrite Forall_forall in Ho.
  destruct (Ho e' He') as (K' & _). destruct (kl_cases k (key e) Hk He) as [[E _]|[E|[E _]]]; [|congruence..].
  destruct (kl_cases (key e) (key e') He K') as [[E' _]|[E'|[E' _]]]; [|by rewrite <- E'|congruence].
  by apply (st_trans key_ok kl k (key e)).
Qed.

Definition fine (gs : list (row -> list row)) : Prop := forall k, Forall row_valid (all_rows gs k).

(** Changing the rows of one key *)
Lemma fine_step gs gs' k : Forall key_cell k -> fine gs -> Forall row_valid (all_rows gs' k) ->
  (forall k', k' <> k -> all_rows gs' k' = all_rows gs k') -> fine gs'.
Proof. intros Hk Hf Hv Ho k'. destruct (key_dec k k' Hk) as [->|Hne]; [done|]. by rewrite Ho. Qed.

Lemma all_rows_empty C gs css k : Forall2 chunk_ok C gs -> pq_rel (length C) [] css C -> all_rows gs k = [].
Proof.
  intros HC Hrel. pose proof (pq_empty _ _ Hrel) as He. clear Hrel. unfold all_rows.
  induction HC as [|c g C gs (_ & _ & Hc) HC IH]; cbn; [done|].
  rewrite IH by (intros; eapply He; [by right|done]).
  destruct c as [|e c]; [|by destruct (He (e :: c) e); left].
  destruct (g k) eqn:Eg; [done|]. specialize (Hc k). rewrite Eg in Hc. set_solver.
Qed.

Lemma combine_equal_spec fuel : forall C gs pq css cur k acc,
  Forall2 chunk_ok C gs -> pq_rel (length C) pq css C -> (total C <= fuel)%nat -> fine gs ->
  reprf cur k acc -> key_ok k -> acc <> [] -> Forall row_valid acc ->
  (forall c e, c ∈ C -> e ∈ c -> kl (key e) k = false) ->
  exists cur' C' gs' pq' css',
    combine_equal hash hash64_combine fuel descs cur (pq, css) = Ok (Some (cur', (pq', css'))) /\
    reprf cur' k (acc ++ all_rows gs k) /\ Forall2 chunk_ok C' gs' /\ pq_rel (length C') pq' css' C' /\
    (total C' <= total C)%nat /\ all_rows gs' k = [] /\ (forall k', k' <> k -> all_rows gs' k' = all_rows gs k').
Proof.
  induction fuel as [|fuel IH]; intros C gs pq css cur k acc HC Hrel Hfuel Hfine Hcur Hk Hacc Hv Hmin.
  all: destruct pq as [|x pq]; cbn [combine_equal fst snd].
  1, 3: assert (all_rows gs k = []) as E by (by eapply all_rows_empty);
    exists cur, C, gs, [], css; rewrite E, app_nil_r; by split_and!.
  all: destruct (pop_step C gs x pq css HC Hrel)
    as (e & g & gs' & C' & pq' & css' & Hfr & Hpop & Hrel' & HC' & Htot & He & Hrows & Hother & Hleast & (c1 & Hc1 & He1) & Hsub).
  - lia.
  - rewrite Hfr. cbn [obind]. pose proof He as (Ke & Ne & Re).
    pose proof (okf_in_order g e He) as [_ Hhe]. pose proof Hcur as (c0 & (Ek0 & Eh0 & _) & Ec0).
    assert (key cur = k /\ hash_val cur = H k) as [Ek Eh] by (by rewrite Ec0).
    destruct (elem_eq e cur) eqn:Eeq.
    + apply elem_eq_key in Eeq; [|done|done|by rewrite Ek]. rewrite Ek in Eeq. rewrite Eeq in *.
      rewrite Hpop. cbn [obind fst snd].
      assert (Forall row_valid (g k) /\ fine gs') as [Hg Hfine'].
      { pose proof (Hfine k) as Hfk. rewrite Hrows in Hfk. apply Forall_app in Hfk as [? Hfk]. split; [done|].
        by apply (fine_step gs gs' k (proj2 Hk)). }
      destruct (elem_combine_repr cur e k acc (g k) Hcur Re) as (cur1 & -> & Hcur1); [done..|]. cbn [obind].
      destruct (IH C' gs' pq' css' cur1 k (acc ++ g k)) as (cur' & C2 & gs2 & pq2 & css2 & E2 & R2 & H2 & Rel2 & T2 & N2 & O2);
        try done; [lia | by destruct acc | by apply Forall_app | |].
      { intros c e' Hc' He'. destruct (Hsub c Hc') as (c2 & Hc2 & Hin). eauto. }
      exists cur', C2, gs2, pq2, css2. split_and!; try done; [|lia|].
      * by rewrite Hrows, app_assoc.
      * intros k' Hne. by rewrite O2, Hother.
    + assert (key e <> k) as Hne.
      { intros E. rewrite (proj2 (elem_eq_key e cur Ke Hhe ltac:(by rewrite Ek))) in Eeq; congruence. }
      assert (all_rows gs k = []) as E.
      { apply (all_rows_none C gs k Hk HC). intros c e' Hc He'.
        apply (elem_at_least C gs e e' c k); try done; [by eapply Hleast|].
        destruct (kl_cases (key e) k Ke Hk) as [[E _]|[E|[_ E]]]; [|done|done].
        rewrite (Hmin c1 e Hc1 He1) in E. done. }
      exists cur, C, gs, (x :: pq), css. rewrite E, app_nil_r. by split_and!.
Qed.

(** ** The reference: one row per key, all its rows aggregated at once *)

Definition spec_value (rs : list row) (d : group_descriptor) : outcome flexible_type :=
  obind (feed_all (new_instance (aggregator d)) (map (project d) rs)) (fun a => emit (partial_finalize a)).
Definition spec_row (k : row) (rs : list row) : outcome row :=
  omap_ok (fun vs => k ++ vs) (omap (spec_value rs) descs).

Lemma elem_emit_spec e k rs : reprf e k rs -> elem_emit e = spec_row k rs.
Proof.
  intros (a & (Ek & _ & Ha) & ->). unfold elem_emit, spec_row, finalize. cbn [key values]. rewrite Ek. f_equal.
  clear -Ha. induction Ha as [|d v ds vs Hd Ha IH]; cbn; [done|].
  unfold spec_value at 1. rewrite Hd. cbn. by rewrite IH.
Qed.

Lemma merge_loop_spec fuel : forall C gs pq css,
  Forall2 chunk_ok C gs -> pq_rel (length C) pq css C -> (total C <= fuel)%nat -> fine gs ->
  (forall k, all_rows gs k <> [] -> exists out, spec_row k (all_rows gs k) = Ok out) ->
  exists ks outs, merge_loop hash hash64_combine fuel descs (pq, css) = Ok (Some outs) /\ NoDup ks /\
    (forall k, k ∈ ks <-> all_rows gs k <> []) /\ Forall2 (fun k out => spec_row k (all_rows gs k) = Ok out) ks outs.
Proof.
  induction fuel as [|fuel IH]; intros C gs pq css HC Hrel Hfuel Hfine Hspec.
  all: destruct pq as [|x pq]; cbn [merge_loop fst snd].
  1, 3: exists [], []; split_and!; [done|apply NoDup_nil_2| |constructor]; intros k;
    rewrite (all_rows_empty C gs css k HC Hrel); split; [set_solver | done].
  all: destruct (pop_step C gs x pq css HC Hrel)
    as (e & g & gs' & C' & pq' & css' & _ & Hpop & Hrel' & HC' & Htot & He & Hrows & Hother & Hleast & _ & Hsub).
  { lia. }
  rewrite Hpop. cbn [obind fst snd]. pose proof He as (Ke & Ne & Re).
  assert (Forall row_valid (g (key e)) /\ fine gs') as [Hg Hfine'].
  { pose proof (Hfine (key e)) as Hfk. rewrite Hrows in Hfk. apply Forall_app in Hfk as [? Hfk]. split; [done|].
    by apply (fine_step gs gs' (key e) (proj2 Ke)). }
  destruct (combine_equal_spec fuel C' gs' pq' css' e (key e) (g (key e)))
    as (cur & C2 & gs2 & pq2 & css2 & -> & Hcur & HC2 & Hrel2 & Ht2 & Hnil & Hoth2); try done; [lia| |].
  { intros c e' Hc' He'. destruct (Hsub c Hc') as (c2 & Hc2 & Hin). eauto. }
  rewrite <- Hrows in Hcur. cbn [obind]. rewrite (elem_emit_spec _ _ _ Hcur).
  destruct (Hspec (key e)) as [out Eout]. { rewrite Hrows. by destruct (g (key e)). }
  rewrite Eout. cbn [obind].
  assert (forall k, k <> key e -> all_rows gs2 k = all_rows gs k) as Hsame.
  { intros k Hne. by rewrite Hoth2, Hother. }
  assert (forall k, all_rows gs2 k <> [] -> k <> key e) as Hnk by (intros k Hk ->; done).
  destruct (IH C2 gs2 pq2 css2) as (ks & outs & -> & Hnd & Hks & Houts); [done|done|lia| | |].
  { apply (fine_step gs gs2 (key e) (proj2 Ke) Hfine); [by rewrite Hnil; constructor | done]. }
  { intros k Hk. rewrite Hsame in Hk |- * by auto. by apply Hspec. }
  exists (key e :: ks), (out :: outs). cbn [omap_ok]. split_and!; [done| | |].
  - constructor; [|done]. rewrite Hks. by intros ?.
  - intros k. rewrite elem_of_cons, Hks. split.
    + intros [->|Hk]; [rewrite Hrows; by destruct (g (key e))|]. rewrite <- Hsame by auto. done.
    + intros Hk. destruct (key_dec (key e) k (proj2 Ke)) as [->|Hne]; [by left | right]. by rewrite Hsame.
  - constructor; [done|]. apply Forall2_same_length_lookup_2; [by eapply Forall2_length|]. intros i k o Hk Ho.
    pose proof (Forall2_lookup_lr _ _ _ _ _ _ Houts Hk Ho) as Hko. cbn in Hko.
    rewrite Hsame in Hko; [done|]. apply Hnk, Hks. by eapply list_elem_of_lookup_2.
Qed.

Lemma split_chunks_concat (sss : list (list bytes)) : split_chunks (map length sss) (concat sss) = sss.
Proof.
  induction sss as [|ss sss IH]; cbn; [done|]. by rewrite take_app_length, drop_app_length, IH.
Qed.

(** The output of a segment to which the rows [rs] were added *)
Definition segment_output (rs : list row) (ks outs : list row) : Prop :=
  NoDup ks /\ (forall k, k ∈ ks <-> rows_of k rs <> []) /\
  Forall2 (fun k out => spec_row k (rows_of k rs) = Ok out) ks outs.

Lemma group_segment_spec s rs : seg_inv s rs -> elements s = ∅ -> Forall row_valid rs ->
  fits_size (length rs) ->
  (forall k, rows_of k rs <> [] -> exists out, spec_row k (rows_of k rs) = Ok out) ->
  exists ks outs, group_and_write_segment hash hash64_combine descs s = Ok (Some outs) /\ segment_output rs ks outs.
Proof.
  intros (chs & fs & f & sss & Hch & [_ Hmem] & Hstr & Eo & Ec & Hrows) Hempty Hv Hn Hspec.
  assert (forall k, all_rows fs k = rows_of k rs) as Hall.
  { intros k. rewrite <- Hrows. fold (all_rows fs k). destruct (f k) eqn:Ef; [by rewrite app_nil_r|].
    destruct (Hmem k) as (b & Eb & _); [by rewrite Ef|]. by rewrite Hempty, lookup_empty in Eb. }
  unfold group_and_write_segment. rewrite Ec, Eo, split_chunks_concat.
  destruct (fill_queue_spec chs sss (length sss) 0 []) as (pq & css & -> & Hrel).
  { split_and!; [apply NoDup_nil_2| |symmetry; by eapply Forall2_length|].
    - intros e i. split; [set_solver|]. intros [? _]. lia.
    - intros i c Hc. destruct (Forall2_lookup_l _ _ _ _ _ Hstr Hc) as (ss & Hss & Hc'). by exists ss. }
  { symmetry. by eapply Forall2_length. }
  cbn [obind]. destruct (merge_loop_spec (length (concat sss)) chs fs pq css) as (ks & outs & E & Hnd & Hks & Houts).
  - done.
  - done.
  - unfold total. clear -Hstr. induction Hstr as [|c ss chs sss Hc Hstr IH]; [done|].
    cbn. rewrite !length_app. pose proof (Forall2_length _ _ _ Hc). lia.
  - intros k. rewrite Hall. by apply rows_of_fine.
  - intros k. rewrite Hall. apply Hspec.
  - exists ks, outs. split; [done|]. split_and!; [done| |].
    + intros k. by rewrite Hks, Hall.
    + eapply Forall2_impl; [exact Houts|]. intros k out. cbn. by rewrite Hall.
Qed.

(** ** The container *)
Context (n max_buffer : nat).
Hypothesis n_pos : (0 < n)%nat.

Definition target (k : row) : nat := Z.to_nat (H k mod Z.of_nat n).
Definition seg_rows (i : nat) (rows : list row) : list row :=
  List.filter (fun r => target (take nk r) =? i)%nat rows.

Lemma target_lt k : (target k < n)%nat.
Proof. unfold target. pose proof (Z.mod_pos_bound (H k) (Z.of_nat n)). lia. Qed.

Lemma rows_of_seg i k rows : Forall row_valid rows ->
  rows_of k (seg_rows i rows) = if (target k =? i)%nat then rows_of k rows else [].
Proof.
  intros Hv. unfold rows_of, seg_rows. induction Hv as [|r rows [[_ Hk] _] Hv IH]; cbn; [by case_match|].
  destruct (flexible_type_vector_equality (take nk r) k) eqn:E.
  - apply key_eq in E; [|done]. rewrite E. destruct (target k =? i)%nat; cbn; [|done].
    rewrite (proj2 (key_eq _ _ Hk)) by done. by rewrite IH.
  - destruct (target (take nk r) =? i)%nat; cbn; [by rewrite E|done].
Qed.

Lemma seg_rows_fine i rows : Forall row_valid rows -> fits_size (length rows) ->
  Forall row_valid (seg_rows i rows) /\ fits_size (length (seg_rows i rows)).
Proof.
  intros Hv Hn. split.
  - rewrite Forall_forall in *. intros r Hr. apply Hv. apply list_elem_of_In in Hr. apply list_elem_of_In.
    by apply filter_In in Hr as [? _].
  - pose proof (filter_length_le (fun r => target (take nk r) =? i)%nat rows). unfold fits_size, seg_rows in *. lia.
Qed.

Definition cont_inv (c : @container A) (rows : list row) : Prop :=
  group_descriptors c = descs /\ length (segments c) = n /\
  forall i s, segments c !! i = Some s -> seg_inv s (seg_rows i rows).

Lemma add_spec c rows r : cont_inv c rows -> Forall row_valid rows -> row_valid r ->
  fits_size (length (rows ++ [r])) ->
  exists c', add hash hash64_combine nk c r = Ok c' /\ cont_inv c' (rows ++ [r]).
Proof.
  intros (Hd & Hl & Hs) Hv Hr Hn. unfold add. rewrite Hl. fold (target (take nk r)).
  destruct (lookup_lt_is_Some_2 (segments c) (target (take nk r))) as [s Es]; [rewrite Hl; apply target_lt|].
  rewrite Es. destruct (seg_rows_fine (target (take nk r)) (rows ++ [r])) as [Hv' Hn']; [by apply Forall_app; rewrite Forall_singleton|done|].
  assert (forall i, seg_rows i (rows ++ [r]) = seg_rows i rows ++ (if (target (take nk r) =? i)%nat then [r] else [])) as Esnoc.
  { intros i. unfold seg_rows. rewrite List.filter_app. cbn. by case_match. }
  rewrite Esnoc, Nat.eqb_refl in Hv', Hn'. apply Forall_app in Hv' as [Hv' _].
  destruct (seg_add_spec s (seg_rows (target (take nk r)) rows) r (max_buffer_size c)) as (s' & E & Hs'); auto.
  rewrite Hd, E. eexists. split; [done|]. split_and!; [done|by cbn; rewrite length_insert|].
  intros i s2. cbn [segments]. rewrite Esnoc. destruct (decide (i = target (take nk r))) as [->|Hne].
  - rewrite list_lookup_insert_eq by (by eapply lookup_lt_Some). intros [= <-]. by rewrite Nat.eqb_refl.
  - rewrite list_lookup_insert_ne by done. intros E2. rewrite (proj2 (Nat.eqb_neq _ _)) by done.
    rewrite app_nil_r. by apply Hs.
Qed.

Lemma add_all_spec c done_rows rows : cont_inv c done_rows -> Forall row_valid (done_rows ++ rows) ->
  fits_size (length (done_rows ++ rows)) ->
  exists c', ofold (add hash hash64_combine nk) c rows = Ok c' /\ cont_inv c' (done_rows ++ rows).
Proof.
  revert c done_rows. induction rows as [|r rows IH]; intros c dr Hc Hv Hn; cbn.
  { exists c. by rewrite app_nil_r. }
  rewrite (cons_middle r dr rows), app_assoc in Hv, Hn |- *.
  pose proof Hv as Hv'. apply Forall_app in Hv' as [Hv' _]. pose proof Hv' as Hv2.
  apply Forall_app in Hv2 as [Hdr Hr]. apply Forall_cons in Hr as [Hr _].
  destruct (add_spec c dr r) as (c' & -> & Hc'); try done.
  { unfold fits_size in *. rewrite length_app in Hn. lia. }
  cbn. by apply IH.
Qed.

Lemma define_groups_spec c ds : group_descriptors (fold_left (fun c d => define_group (column_numbers d) (aggregator d) c) ds c) =
    group_descriptors c ++ ds /\
  segments (fold_left (fun c d => define_group (column_numbers d) (aggregator d) c) ds c) = @segments A c.
Proof.
  revert c. induction ds as [|d ds IH]; intros c; cbn; [by rewrite app_nil_r|].
  destruct (IH (define_group (column_numbers d) (aggregator d) c)) as [-> ->]. cbn.
  rewrite <- app_assoc. by destruct d.
Qed.

(** ** The whole group-by *)

(** The distinct keys, in order of first appearance *)
Fixpoint nub (ks : list row) : list row :=
  match ks with
  | [] => []
  | k :: ks => k :: List.filter (fun k' => negb (flexible_type_vector_equality k k')) (nub ks)
  end.
Definition reference (rows : list row) : outcome (list row) :=
  omap (fun k => spec_row k (rows_of k rows)) (nub (map (take nk) rows)).

Lemma nub_spec ks : Forall (Forall key_cell) ks -> NoDup (nub ks) /\ forall k, k ∈ nub ks <-> k ∈ ks.
Proof.
  induction 1 as [|k ks Hk Hks [IHn IHe]]; cbn; [split; [apply NoDup_nil_2 | done]|].
  assert (forall k', k' ∈ List.filter (fun k' => negb (flexible_type_vector_equality k k')) (nub ks) <->
            k' ∈ ks /\ k' <> k) as Hf.
  { intros k'. rewrite list_elem_of_In, filter_In, <- list_elem_of_In, IHe, negb_true_iff.
    pose proof (key_eq k k' Hk) as E. destruct (flexible_type_vector_equality k k').
    - split; [by intros []|]. intros [_ Hne]. destruct Hne. symmetry. by apply E.
    - split; intros [? ?]; split; try done. intros ->. by pose proof (proj2 E eq_refl). }
  split.
  - constructor; [rewrite Hf; by intros []|]. by apply NoDup_ListNoDup, List.NoDup_filter, NoDup_ListNoDup.
  - intros k'. rewrite !elem_of_cons, Hf. destruct (key_dec k k' Hk); intuition congruence.
Qed.

Lemma rows_of_nonempty k rows : Forall row_valid rows -> rows_of k rows <> [] <-> k ∈ map (take nk) rows.
Proof.
  intros Hv. unfold rows_of. induction Hv as [|r rows [[_ Hk] _] Hv IH]; cbn; [set_solver|].
  rewrite elem_of_cons, <- IH. pose proof (key_eq (take nk r) k Hk) as E.
  destruct (flexible_type_vector_equality (take nk r) k).
  - split; [|done]. intros _. left. symmetry. by apply E.
  - split; [by right|]. intros [->|]; [by pose proof (proj2 E eq_refl)|done].
Qed.

(** Results of one function on permuted arguments are permuted. *)
Lemma results_permuted {T U} (f : T -> outcome U) l l' r r' :
  Forall2 (fun x y => f x = Ok y) l r -> Forall2 (fun x y => f x = Ok y) l' r' -> l ≡ₚ l' -> r ≡ₚ r'.
Proof.
  set (g := fun x => match f x with Ok y => [y] | _ => [] end).
  assert (forall l r, Forall2 (fun x y => f x = Ok y) l r -> r = flat_map g l) as Hg.
  { induction 1 as [|x y k s Hxy Hf IH]; cbn; [done|]. unfold g at 1. by rewrite Hxy, IH. }
  intros H1 H2 Hp. rewrite (Hg _ _ H1), (Hg _ _ H2). by apply Permutation_flat_map.
Qed.

Lemma omap_forall2 {T U} (f : T -> outcome U) l r : omap f l = Ok r -> Forall2 (fun x y => f x = Ok y) l r.
Proof.
  revert r. induction l as [|x l IH]; intros r; cbn; [by intros [= <-]|].
  destruct (f x) eqn:E; try done. cbn. destruct (omap f l); try done. intros [= <-]. by constructor; [|apply IH].
Qed.

Lemma segment_targets rows i ks outs : Forall row_valid rows -> segment_output (seg_rows i rows) ks outs ->
  (forall k, k ∈ ks <-> k ∈ map (take nk) rows /\ target k = i) /\
  Forall2 (fun k out => spec_row k (rows_of k rows) = Ok out) ks outs.
Proof.
  intros Hv (_ & Hks & Houts).
  assert (forall k, k ∈ ks <-> k ∈ map (take nk) rows /\ target k = i) as Hmem.
  { intros k. rewrite Hks, rows_of_seg, <- (rows_of_nonempty k rows) by done.
    destruct (Nat.eqb_spec (target k) i); [tauto|]. split; [done|]. by intros [_ ?]. }
  split; [done|]. apply Forall2_same_length_lookup_2; [by eapply Forall2_length|]. intros j k o Hk Ho.
  pose proof (Forall2_lookup_lr _ _ _ _ _ _ Houts Hk Ho) as E. cbn in E.
  rewrite rows_of_seg in E by done. apply list_elem_of_lookup_2, Hmem in Hk as [_ Hk].
  by rewrite Hk, Nat.eqb_refl in E.
Qed.

(** The keys of all segments together *)
Lemma concat_keys (rows : list row) (kss : list (list row)) i :
  (forall j ks, kss !! j = Some ks -> NoDup ks /\
     forall k, k ∈ ks <-> k ∈ map (take nk) rows /\ target k = (i + j)%nat) ->
  NoDup (concat kss) /\
  forall k, k ∈ concat kss <-> k ∈ map (take nk) rows /\ (i <= target k < i + length kss)%nat.
Proof.
  revert i. induction kss as [|ks kss IH]; intros i Hk; cbn.
  { split; [apply NoDup_nil_2|]. intros k. split; [set_solver|]. intros [_ ?]. lia. }
  destruct (Hk 0%nat ks eq_refl) as [Hnd Hks]. destruct (IH (S i)) as [IHn IHk].
  { intros j ks' Hj. destruct (Hk (S j) ks' Hj) as [? E]. split; [done|]. intros k. rewrite E.
    by replace (i + S j)%nat with (S i + j)%nat by lia. }
  split.
  - apply NoDup_app. split_and!; [done| |done]. intros k Hin. rewrite IHk. apply Hks in Hin. lia.
  - intros k. rewrite elem_of_app, Hks, IHk. split.
    + intros [[? ?]|[? ?]]; (split; [done|lia]).
    + intros [? ?]. destruct (decide (target k = i)); [left; split; [done|lia] | right; split; [done|lia]].
Qed.

(** An operation on every segment, with what it establishes of each *)
Lemma omap_segments {T U} (f : T -> outcome U) (P : nat -> T -> Prop) (Q : nat -> U -> Prop) l :
  (forall i s, P i s -> exists s', f s = Ok s' /\ Q i s') ->
  (forall i s, l !! i = Some s -> P i s) ->
  exists l', omap f l = Ok l' /\ length l' = length l /\ forall i s, l' !! i = Some s -> Q i s.
Proof.
  revert P Q. induction l as [|s l IH]; intros P Q Hf Hl; [by exists []|].
  destruct (Hf 0%nat s (Hl 0%nat s eq_refl)) as (s' & E & Hs').
  destruct (IH (fun i => P (S i)) (fun i => Q (S i))) as (l' & E' & Hlen & Hl'); [auto..|].
  exists (s' :: l'). cbn. rewrite E. cbn. rewrite E'. cbn. split_and!; [done|lia|].
  intros [|i] s0 Hi; cbn in Hi; [by injection Hi as <-|]. by apply Hl'.
Qed.

Lemma choose_outputs {T U} (R : nat -> T -> U -> Prop) (os : list (option U)) :
  (forall i o, os !! i = Some o -> exists out ks, o = Some out /\ R i ks out) ->
  exists outs kss, os = map Some outs /\ length kss = length os /\
    forall i out ks, outs !! i = Some out -> kss !! i = Some ks -> R i ks out.
Proof.
  revert R. induction os as [|o os IH]; intros R Hos; [by exists [], []|].
  destruct (Hos 0%nat o eq_refl) as (out & ks & -> & H0).
  destruct (IH (fun i => R (S i))) as (outs & kss & -> & Hl & Hall); [intros i; apply (Hos (S i))|].
  exists (out :: outs), (ks :: kss). split_and!; [done|cbn; lia|].
  intros [|i] out' ks' Ho Hk; cbn in *; [by simplify_eq | eauto].
Qed.

Lemma group_and_write_spec c rows : cont_inv c rows -> Forall row_valid rows -> fits_size (length rows) ->
  (forall k, k ∈ map (take nk) rows -> exists out, spec_row k (rows_of k rows) = Ok out) ->
  exists outs kss, group_and_write hash hash64_combine c = Ok (map Some outs) /\
    length outs = n /\ length kss = n /\
    forall i out ks, outs !! i = Some out -> kss !! i = Some ks -> segment_output (seg_rows i rows) ks out.
Proof.
  intros (Hd & Hl & Hseg) Hv Hn Hspec. unfold group_and_write.
  destruct (omap_segments flush_segment (fun i s => seg_inv s (seg_rows i rows))
    (fun i s => seg_inv s (seg_rows i rows) /\ elements s = ∅) (segments c)) as (segs & -> & Hls & Hsegs); [|done|].
  { intros i s Hs. destruct (seg_rows_fine i rows Hv Hn). by apply flush_segment_spec. }
  cbn [obind]. rewrite Hd.
  destruct (omap_segments (group_and_write_segment hash hash64_combine descs)
    (fun i s => seg_inv s (seg_rows i rows) /\ elements s = ∅)
    (fun i o => exists out ks, o = Some out /\ segment_output (seg_rows i rows) ks out) segs) as (os & -> & Hlo & Hos); [|done|].
  { intros i s [Hs He]. destruct (seg_rows_fine i rows Hv Hn).
    destruct (group_segment_spec s (seg_rows i rows)) as (ks & out & E & Hout); try done; [|by exists (Some out); eauto].
    intros k. rewrite rows_of_seg by done. case_match; [|done]. intros Hk. by apply Hspec, rows_of_nonempty. }
  destruct (choose_outputs (fun i ks out => segment_output (seg_rows i rows) ks out) os Hos)
    as (outs & kss & -> & Hk & Hall).
  rewrite length_map in *. exists outs, kss. split_and!; [done|congruence|congruence|done].
Qed.

Lemma Forall2_concat {T U} (R : T -> U -> Prop) l k : Forall2 (Forall2 R) l k -> Forall2 R (concat l) (concat k).
Proof. induction 1; cbn; [constructor | by apply Forall2_app]. Qed.

Lemma run_groupby_spec rows ref : Forall row_valid rows -> fits_size (length rows) -> reference rows = Ok ref ->
  exists outs, run_groupby hash hash64_combine descs nk max_buffer n rows = Ok (map Some outs) /\
    length outs = n /\ concat outs ≡ₚ ref.
Proof.
  intros Hv Hn Href. unfold run_groupby.
  destruct (define_groups_spec (cont_new max_buffer n) descs) as [Ed Es]. cbn in Ed, Es.
  destruct (add_all_spec (fold_left (fun c d => define_group (column_numbers d) (aggregator d) c) descs
                            (cont_new max_buffer n)) [] rows) as (c & -> & Hc); [|done|done|].
  { split_and!; [done|by rewrite Es, length_replicate|]. intros i s. rewrite Es, lookup_replicate.
    intros [-> _]. apply seg_new_inv. }
  cbn [obind app] in *. pose proof (omap_forall2 _ _ _ Href) as Href2.
  destruct (nub_spec (map (take nk) rows)) as [Hnub Hnubk].
  { apply Forall_map. eapply Forall_impl; [exact Hv|]. by intros r [[_ ?] _]. }
  destruct (group_and_write_spec c rows) as (outs & kss & -> & Hlo & Hlk & Hall); try done.
  { intros k Hk. apply Hnubk in Hk. apply list_elem_of_lookup in Hk as [j Hj].
    destruct (Forall2_lookup_l _ _ _ _ _ Href2 Hj) as (out & _ & Hout). by exists out. }
  exists outs. split_and!; [done|done|].
  assert (forall i ks, kss !! i = Some ks -> exists out, outs !! i = Some out /\
    segment_output (seg_rows i rows) ks out) as Hk.
  { intros i ks Hi. destruct (lookup_lt_is_Some_2 outs i) as [out Ho].
    { rewrite Hlo, <- Hlk. by eapply lookup_lt_Some. } eauto. }
  destruct (concat_keys rows kss 0) as [Hnd Hkeys].
  { intros i ks Hi. destruct (Hk i ks Hi) as (out & _ & Ho). split; [by destruct Ho|].
    by apply (segment_targets rows i ks out). }
  apply (results_permuted (fun k => spec_row k (rows_of k rows)) (concat kss) (nub (map (take nk) rows))); [|done|].
  - apply Forall2_concat. apply Forall2_same_length_lookup_2; [congruence|]. intros i ks out Hi Ho.
    by apply (segment_targets rows i), Hall.
  - apply NoDup_Permutation; [done|done|]. intros k. rewrite Hnubk, Hkeys. pose proof (target_lt k).
    split; [by intros []|]. intros ?. split; [done|lia].
Qed.
End correct.

(** C7. The group-by is correct against the interface of its aggregators: for
    any hash function, any positive number of segments and any buffer size,
    adding the rows one by one, spilling sorted chunks of partial aggregates and
    merging them yields exactly the rows of the reference, which aggregates all
    the rows of each distinct key at once; the merge never runs out of fuel.
    Keys are integers, strings or missing values. *)
Theorem groupby_correct {A : Type} {AA : Aggregate A} (hash : flexible_type -> Z) (hash64_combine : Z -> Z -> Z)
    (descs : list (@group_descriptor A)) (num_keys max_buffer_size num_segments : nat)
    (ok : @group_descriptor A -> list flexible_type -> Prop) rows ref :
  (forall d, d ∈ descs -> Mergeable (aggregator d) (ok d)) ->
  (0 < num_segments)%nat -> fits_size num_keys -> fits_size (length rows) ->
  Forall (row_valid descs num_keys ok) rows ->
  reference descs num_keys rows = Ok ref ->
  exists outs, run_groupby hash hash64_combine descs num_keys max_buffer_size num_segments rows =
      Ok (map Some outs) /\ length outs = num_segments /\ concat outs ≡ₚ ref.
Proof. intros. by eapply run_groupby_spec. Qed.

(** A group-by of five rows into two segments that spills after every hash value *)
Definition sample_descs : list (@group_descriptor builtin) :=
  [mk_desc [] (ACount count.new); mk_desc [1%nat] (ASum sum.new); mk_desc [1%nat] (AMin extremum.new);
   mk_desc [1%nat; 0%nat] (AArgmax arg_extremum.new); mk_desc [0%nat; 1%nat] (AZipDict zip_dict.new)].
Definition sample_rows : list row :=
  [[FInt 1; FInt 10]; [FInt 4; FInt 20]; [FInt 1; FInt (-3)]; [FInt 4; FInt 5]; [FInt 1; FInt 7]].

Lemma groupby_correct_witness :
  exists outs, run_groupby (AA := builtin_aggregate (fun _ => 0)) (fun f => match f with FInt i => i | _ => 0 end) Z.add
      sample_descs 1 1 2 sample_rows = Ok (map Some outs) /\ length outs = 2%nat /\
    concat outs ≡ₚ [[FInt 1; FInt 3; FInt 14; FInt (-3); FInt 1; FDict [(FInt 1, FInt 10)]];
                    [FInt 4; FInt 2; FInt 25; FInt 5; FInt 4; FDict [(FInt 4, FInt 20)]]].
Proof.
  apply (groupby_correct (AA := builtin_aggregate (fun _ => 0)) _ _ sample_descs 1 1 2
           (fun d => row_ok INTEGER (aggregator d))); try done; [|lia|].
  - intros d _. apply builtin_mergeable.
  - repeat (apply Forall_cons; split; [|try apply Forall_nil_2]).
    all: split; [by repeat constructor|]; apply Forall_forall;
      repeat (apply Forall_cons; split; [|try apply Forall_nil_2]); cbn; try done.
    all: first [ split; [done|] | idtac ]; repeat eexists; first [ by right | by left | done ].
Defined.
