(* ===== verification/StringEscape.v ===== *)
(** String escaping: the model of [flexible_type/string_escape.cpp].

    [escape_string] writes through a pointer into a buffer it has resized, and
    [unescape_string] rewrites its argument in place with a read and a write
    index; both are modelled on the buffer, with an access outside it as
    [None].  [escaped] and [unescaped] are the reference functions on lists. *)
From Stdlib Require Import ZArith Lia List Bool.
From Stdlib Require Strings.Byte.
From stdpp Require Import prelude.
From coqutil Require Import Byte.
From S2P Require Import Prelude.
From S2P Require Import Archive.

Definition c_nul : byte := Byte.x00.
Definition c_bs : byte := Byte.x08.
Definition c_tab : byte := Byte.x09.
Definition c_nl : byte := Byte.x0a.
Definition c_cr : byte := Byte.x0d.
Definition c_dquote : byte := Byte.x22.
Definition c_quote : byte := Byte.x27.
Definition c_slash : byte := Byte.x2f.
Definition c_backslash : byte := Byte.x5c.
Definition c_b : byte := Byte.x62.
Definition c_n : byte := Byte.x6e.
Definition c_r : byte := Byte.x72.
Definition c_t : byte := Byte.x74.
Definition c_u : byte := Byte.x75.
Definition c_x : byte := Byte.x78.

Definition beq (a b : byte) : bool := bool_decide (a = b).

(** A pointer into a buffer: [( *cur_out++ ) = c] *)
Definition put (c : byte) (st : bytes * nat) : option (bytes * nat) :=
  let '(buf, pos) := st in
  if (pos <? length buf)%nat then Some (<[pos := c]> buf, S pos) else None.

Fixpoint puts (cs : bytes) (st : bytes * nat) : option (bytes * nat) :=
  match cs with
  | [] => Some st
  | c :: cs => match put c st with Some st => puts cs st | None => None end
  end.

(** The characters the switch emits for [c]; [next] is [val\[i+1\]] if it exists *)
Definition escape_one (escape_char : byte) (double_quote : bool) (c : byte) (next : option byte) : bytes :=
  if beq c c_quote then [escape_char; c_quote]
  else if beq c c_dquote then (if double_quote then [c_dquote; c_dquote] else [escape_char; c_dquote])
  else if beq c c_backslash then
    (if match next with Some n => beq n c_u || beq n c_x | None => false end
     then [c] else [escape_char; c_backslash])
  else if beq c c_tab then [escape_char; c_t]
  else if beq c c_bs then [escape_char; c_b]
  else if beq c c_cr then [escape_char; c_r]
  else if beq c c_nl then [escape_char; c_n]
  else if beq c c_nul then [escape_char; c_nul]
  else [c].

(** The loop over [val] from the current position on *)
Fixpoint escape_loop (escape_char : byte) (double_quote : bool) (val : bytes) (st : bytes * nat)
    : option (bytes * nat) :=
  match val with
  | [] => Some st
  | c :: val =>
      match puts (escape_one escape_char double_quote c (head val)) st with
      | Some st => escape_loop escape_char double_quote val st
      | None => None
      end
  end.

(** Returns the buffer and [output_len]. *)
Definition escape_string (val : bytes) (escape_char quote_char : byte)
    (use_quote_char double_quote : bool) (output : bytes) : option (bytes * nat) :=
  let output :=
    if (length output <? 2 + 2 * length val)%nat then resize (2 + 2 * length val) c_nul output
    else output in
  let quote := if use_quote_char then [quote_char] else [] in
  match puts quote (output, 0%nat) with
  | None => None
  | Some st =>
      match escape_loop escape_char double_quote val st with
      | None => None
      | Some st => puts quote st
      end
  end.

(** What an escape sequence stands for; [None] when the switch has no case *)
Definition unescape_char (echar : byte) : option byte :=
  if beq echar c_quote then Some c_quote
  else if beq echar c_dquote then Some c_dquote
  else if beq echar c_backslash then Some c_backslash
  else if beq echar c_slash then Some c_slash
  else if beq echar c_t then Some c_tab
  else if beq echar c_b then Some c_bs
  else if beq echar c_r then Some c_cr
  else if beq echar c_n then Some c_nl
  else None.

(** One iteration: the buffer and the two indexes *)
Definition unescape_step (escape_char : byte) (cal : bytes) (i o : nat) : option (bytes * nat * nat) :=
  match cal !! i with
  | None => None
  | Some c =>
      let '(w, i') :=
        if beq c escape_char then
          match cal !! S i with
          | Some echar =>
              match unescape_char echar with Some w => (w, S i) | None => (c, i) end
          | None => (c, i)
          end
        else (c, i) in
      match put w (cal, o) with
      | Some (cal, o) => Some (cal, S i', o)
      | None => None
      end
  end.

(** [while (in != cal.length())], then [cal.resize(out)] *)
Fixpoint unescape_loop (fuel : nat) (escape_char : byte) (cal : bytes) (i o : nat) : option bytes :=
  if (i =? length cal)%nat then Some (take o cal)
  else
    match fuel with
    | O => None
    | S fuel =>
        match unescape_step escape_char cal i o with
        | Some (cal, i, o) => unescape_loop fuel escape_char cal i o
        | None => None
        end
    end.
Definition unescape_string (cal : bytes) (escape_char : byte) : option bytes :=
  unescape_loop (length cal) escape_char cal 0 0.

(** ** Reference functions *)

Fixpoint escaped (escape_char : byte) (double_quote : bool) (val : bytes) : bytes :=
  match val with
  | [] => []
  | c :: val =>
      escape_one escape_char double_quote c (head val) ++ escaped escape_char double_quote val
  end.

Fixpoint unescaped (escape_char : byte) (s : bytes) : bytes :=
  match s with
  | [] => []
  | c :: s1 =>
      match s1 with
      | echar :: s2 =>
          if beq c escape_char then
            match unescape_char echar with
            | Some w => w :: unescaped escape_char s2
            | None => c :: unescaped escape_char s1
            end
          else c :: unescaped escape_char s1
      | [] => [c]
      end
  end.

(** ** The buffer versions compute the reference functions *)

Lemma puts_spec cs buf pos :
  (pos + length cs <= length buf)%nat ->
  puts cs (buf, pos) =
    Some (take pos buf ++ cs ++ drop (pos + length cs) buf, (pos + length cs)%nat).
Proof.
  revert buf pos. induction cs as [|c cs IH]; intros buf pos H; cbn [puts length] in *.
  - rewrite Nat.add_0_r. cbn [app]. by rewrite take_drop.
  - unfold put. destruct (Nat.ltb_spec pos (length buf)); [|lia].
    rewrite IH by (rewrite length_insert; lia). f_equal. f_equal; [|lia].
    rewrite drop_insert_lt by lia.
    replace (S pos + length cs)%nat with (pos + S (length cs))%nat by lia.
    rewrite (take_S_r _ _ c) by (rewrite list_lookup_insert_eq; done).
    rewrite take_insert_ge by lia. by rewrite <- app_assoc.
Qed.

Lemma escape_one_length e dq c n : (1 <= length (escape_one e dq c n) <= 2)%nat.
Proof. unfold escape_one. repeat case_match; cbn; lia. Qed.

Lemma escaped_length e dq val : (length (escaped e dq val) <= 2 * length val)%nat.
Proof.
  induction val as [|c val IH]; cbn [escaped length]; [lia|]. rewrite length_app.
  pose proof (escape_one_length e dq c (head val)). lia.
Qed.

Lemma puts_app a b st : puts (a ++ b) st = match puts a st with Some st => puts b st | None => None end.
Proof.
  revert st. induction a as [|c a IH]; intros st; [done|]. cbn. destruct (put c st); [apply IH|done].
Qed.

Lemma escape_loop_puts e dq val st : escape_loop e dq val st = puts (escaped e dq val) st.
Proof.
  revert st. induction val as [|c val IH]; intros st; [done|]. cbn [escape_loop escaped].
  rewrite puts_app. destruct (puts _ st); [apply IH|done].
Qed.

Lemma escape_string_spec val e (q : byte) (uq dq : bool) output :
  let quote := if uq then [q] else [] in
  exists buf len, escape_string val e q uq dq output = Some (buf, len) /\
    take len buf = quote ++ escaped e dq val ++ quote /\
    (len <= 2 + 2 * length val)%nat /\ (len <= length buf)%nat.
Proof.
  intros quote. unfold escape_string. set (out := if (_ <? _)%nat then _ else output).
  assert (2 + 2 * length val <= length out)%nat as Hout.
  { unfold out. destruct (Nat.ltb_spec (length output) (2 + 2 * length val)); [|done].
    rewrite length_resize. lia. }
  pose proof (escaped_length e dq val) as Hesc.
  assert (length quote <= 1)%nat by (unfold quote; destruct uq; cbn; lia). fold quote.
  assert (puts (quote ++ escaped e dq val ++ quote) (out, 0%nat) =
          match puts quote (out, 0%nat) with
          | Some st => match escape_loop e dq val st with Some st => puts quote st | None => None end
          | None => None
          end) as <-.
  { rewrite puts_app. destruct (puts quote _); [|done]. by rewrite puts_app, escape_loop_puts. }
  set (all := quote ++ escaped e dq val ++ quote).
  assert (length all <= 2 + 2 * length val)%nat as Hall by (unfold all; rewrite !length_app; lia).
  rewrite puts_spec by lia. do 2 eexists. split; [done|].
  rewrite take_0, Nat.add_0_l. cbn [app]. rewrite take_app_length. split_and!; [done|done|].
  rewrite length_app, length_drop. lia.
Qed.

(** [escape_string] never writes outside its buffer, and the first
    [output_len] characters of the buffer are the quoted, escaped string, of
    length at most [2 + 2 * val.size()]. *)
Theorem escape_string_correct val e (q : byte) (uq dq : bool) output :
  let quote := if uq then [q] else [] in
  exists buf len, escape_string val e q uq dq output = Some (buf, len) /\
    take len buf = quote ++ escaped e dq val ++ quote /\
    (len <= 2 + 2 * length val)%nat /\ (len <= length buf)%nat.
Proof. apply escape_string_spec. Qed.

Lemma escape_string_buf val e q output :
  exists buf len, escape_string val e q false false output = Some (buf, len) /\
    take len buf = escaped e false val.
Proof.
  destruct (escape_string_spec val e q false false output) as (buf & len & E & Ht & _).
  exists buf, len. split; [done|]. by rewrite Ht, app_nil_r.
Qed.

(** The write index never passes the read index, so the characters still to be
    read are the original ones. *)
Lemma unescape_loop_spec e fuel cal i o :
  (o <= i <= length cal)%nat -> (length cal <= fuel + i)%nat ->
  unescape_loop fuel e cal i o = Some (take o cal ++ unescaped e (drop i cal)).
Proof.
  revert cal i o. induction fuel as [|fuel IH]; intros cal i o Hi Hf; cbn [unescape_loop];
    destruct (Nat.eqb_spec i (length cal)) as [E|E]; try lia.
  1, 2: rewrite E, drop_all; cbn; by rewrite app_nil_r.
  unfold unescape_step. destruct (lookup_lt_is_Some_2 cal i ltac:(lia)) as [c Hc]. rewrite Hc.
  assert (forall w i', (i' = i \/ i' = S i) -> (i' < length cal)%nat ->
    match put w (cal, o) with
    | Some (cal, o) => unescape_loop fuel e cal (S i') o
    | None => None
    end = Some (take o cal ++ w :: unescaped e (drop (S i') cal))) as Hput.
  { intros w i' Hi' Hl. unfold put. destruct (Nat.ltb_spec o (length cal)); [|lia].
    rewrite IH by (rewrite length_insert; lia).
    rewrite drop_insert_lt by lia. rewrite (take_S_r _ _ w) by (rewrite list_lookup_insert_eq; done).
    rewrite take_insert_ge by lia. by rewrite <- app_assoc. }
  assert (drop i cal = c :: drop (S i) cal) as Ed by (by apply drop_S).
  assert (forall w i', (i' = i \/ i' = S i) -> (i' < length cal)%nat ->
    match match put w (cal, o) with Some (cal, o) => Some (cal, S i', o) | None => None end with
    | Some (cal, i, o) => unescape_loop fuel e cal i o
    | None => None
    end = Some (take o cal ++ w :: unescaped e (drop (S i') cal))) as Hstep.
  { intros w i' H1 H2. rewrite <- Hput by done. by destruct (put w (cal, o)) as [[]|]. }
  rewrite Ed. cbn [unescaped]. destruct (drop (S i) cal) as [|echar rest] eqn:Er.
  - assert (cal !! S i = None) as ->.
    { apply lookup_ge_None_2. apply (f_equal length) in Er. rewrite length_drop in Er. cbn in Er. lia. }
    assert (unescaped e (drop (S i) cal) = []) as E0 by (by rewrite Er).
    destruct (beq c e); rewrite Hstep by (auto; lia); by rewrite E0.
  - assert (cal !! S i = Some echar) as Hs.
    { rewrite <- (Nat.add_0_r (S i)), <- lookup_drop, Er. done. }
    pose proof (lookup_lt_Some _ _ _ Hs) as Hlt.
    assert (drop (S (S i)) cal = rest) as Er2.
    { replace (S (S i)) with (S i + 1)%nat by lia. by rewrite <- drop_drop, Er. }
    rewrite Hs. destruct (beq c e); [destruct (unescape_char echar)|].
    + rewrite Hstep by (auto; lia). by rewrite Er2.
    + rewrite Hstep by (auto; lia). by rewrite Er.
    + rewrite Hstep by (auto; lia). by rewrite Er.
Qed.

Lemma unescape_string_spec s e : unescape_string s e = Some (unescaped e s).
Proof. unfold unescape_string. rewrite unescape_loop_spec by lia. by rewrite take_0, drop_0. Qed.

(** C34. [unescape_string] terminates, stays within its buffer, and although it
    overwrites the string it is reading it computes the reference function. *)
Theorem unescape_string_correct s e : unescape_string s e = Some (unescaped e s).
Proof. apply unescape_string_spec. Qed.

Lemma unescaped_cons e c s :
  unescaped e (c :: s) =
  match s with
  | [] => [c]
  | echar :: s2 =>
      if beq c e then
        match unescape_char echar with
        | Some w => w :: unescaped e s2
        | None => c :: unescaped e s
        end
      else c :: unescaped e s
  end.
Proof. by destruct s. Qed.

Lemma beq_spec a b : reflect (a = b) (beq a b).
Proof. unfold beq. apply bool_decide_reflect. Qed.

(** An escape sequence is undone, whatever follows. *)
Lemma unescaped_seq e echar w rest :
  unescape_char echar = Some w -> unescaped e (e :: echar :: rest) = w :: unescaped e rest.
Proof. intros H. rewrite unescaped_cons. destruct (beq_spec e e); [by rewrite H|done]. Qed.

(** A character that is not the escape character is copied. *)
Lemma unescaped_copy e c rest : c <> e -> unescaped e (c :: rest) = c :: unescaped e rest.
Proof. intros H. rewrite unescaped_cons. destruct rest; [done|]. by destruct (beq_spec c e). Qed.

Lemma unescaped_escaped e val :
  c_nul ∉ val -> (e = c_backslash \/ e ∉ val) -> unescaped e (escaped e false val) = val.
Proof.
  induction val as [|c val IH]; intros Hn He; [done|].
  apply not_elem_of_cons in Hn as [Hc Hn].
  assert (e = c_backslash \/ c <> e /\ e ∉ val) as He'.
  { destruct He as [->|He]; [by left|]. apply not_elem_of_cons in He as [? ?]. auto. }
  specialize (IH Hn ltac:(tauto)). cbn [escaped]. unfold escape_one.
  destruct (beq_spec c c_quote) as [->|H1]; [cbn [app]; rewrite (unescaped_seq _ _ c_quote) by done; by rewrite IH|].
  destruct (beq_spec c c_dquote) as [->|H2]; [cbn [app]; rewrite (unescaped_seq _ _ c_dquote) by done; by rewrite IH|].
  destruct (beq_spec c c_backslash) as [->|H3].
  { destruct val as [|n val]; cbn [head].
    - cbn [app]. rewrite (unescaped_seq _ _ c_backslash) by done. by rewrite IH.
    - destruct (beq_spec n c_u) as [->|Hu]; [|destruct (beq_spec n c_x) as [->|Hx]]; cbn [orb].
      3: cbn [app]; rewrite (unescaped_seq _ _ c_backslash) by done; by rewrite IH.
      all: cbn [app]; destruct He' as [->|[Hce _]]; [|rewrite unescaped_copy by done; by rewrite IH].
      all: match goal with |- unescaped _ (_ :: ?s) = _ => rewrite (unescaped_cons _ _ s) end.
      1: change (escaped c_backslash false (c_u :: val)) with (c_u :: escaped c_backslash false val) in *.
      2: change (escaped c_backslash false (c_x :: val)) with (c_x :: escaped c_backslash false val) in *.
      all: destruct (beq_spec c_backslash c_backslash); [|done]; cbn [unescape_char]; by rewrite <- IH. }
  destruct (beq_spec c c_tab) as [->|H4]; [cbn [app]; rewrite (unescaped_seq _ _ c_tab) by done; by rewrite IH|].
  destruct (beq_spec c c_bs) as [->|H5]; [cbn [app]; rewrite (unescaped_seq _ _ c_bs) by done; by rewrite IH|].
  destruct (beq_spec c c_cr) as [->|H6]; [cbn [app]; rewrite (unescaped_seq _ _ c_cr) by done; by rewrite IH|].
  destruct (beq_spec c c_nl) as [->|H7]; [cbn [app]; rewrite (unescaped_seq _ _ c_nl) by done; by rewrite IH|].
  destruct (beq_spec c c_nul) as [->|H8]; [done|]. cbn [app].
  rewrite unescaped_copy, IH; [done|]. destruct He' as [->|[? _]]; done.
Qed.

(** Unescaping undoes escaping (without quotes and without quote doubling)
    for every string without NUL characters, with the backslash as escape
    character or with any character that does not occur in the string. *)
Theorem escape_unescape_roundtrip val e q output :
  c_nul ∉ val -> (e = c_backslash \/ e ∉ val) ->
  exists buf len, escape_string val e q false false output = Some (buf, len) /\
    unescape_string (take len buf) e = Some val.
Proof.
  intros Hn He. destruct (escape_string_buf val e q output) as (buf & len & E & Ht).
  exists buf, len. split; [done|]. rewrite Ht, unescape_string_spec. by rewrite unescaped_escaped.
Qed.

(** A NUL character does not survive: [escape_string] writes it as an escape
    sequence that [unescape_string] has no case for, so the escape character
    stays in the result. *)
Theorem escape_nul_not_undone q output :
  exists buf len, escape_string [c_nul] c_backslash q false false output = Some (buf, len) /\
    unescape_string (take len buf) c_backslash = Some [c_backslash; c_nul].
Proof.
  destruct (escape_string_buf [c_nul] c_backslash q output) as (buf & len & E & Ht).
  exists buf, len. split; [done|]. by rewrite Ht, unescape_string_spec.
Qed.
