(* ===== verification/Csv.v ===== *)
(** Reading and writing rows of CSV files: the line tokenizer
    ([sframe/csv_line_tokenizer.hpp], [.cpp]) and the writer
    ([sframe/csv_writer.hpp], [.cpp]).

    A [const char*] is a position in the characters from it to the end of the
    storage it points into; reading past the end is [None].  The tokenizer is
    the loop over a state of a position, a mode, two flags and the field
    buffer, whose old contents stay behind the current field; the three
    callbacks that it is a template over act on a state of their own.

    The value parser, built from Boost Spirit grammars, is a record of
    functions: each gets the characters it may read and returns a value, whether
    it succeeded and how far it advanced. *)
From Stdlib Require Import ZArith Lia List Bool.
From stdpp Require Import prelude.
From coqutil Require Import Byte.
From S2P Require Import Prelude.
From S2P Require Import Archive.
From S2P Require Import FlexibleType.
From S2P Require Import FlexibleOps.
From S2P Require Import StringEscape.

Definition c_space : byte := Byte.x20.
Definition c_comma : byte := Byte.x2c.
Definition c_hash : byte := Byte.x23.
Definition c_colon : byte := Byte.x3a.
Definition c_lbracket : byte := Byte.x5b.
Definition c_rbracket : byte := Byte.x5d.
Definition c_lbrace : byte := Byte.x7b.
Definition c_rbrace : byte := Byte.x7d.

(** [std::isspace] in the C locale *)
Definition isspace (c : byte) : bool :=
  let n := byte.unsigned c in (n =? 32) || ((9 <=? n) && (n <=? 13)).

(** ** The tokenizer object *)

Record csv_line_tokenizer := {
  preserve_quoting : bool;
  escape_char : byte;
  skip_initial_space : bool;
  delimiter : bytes;
  comment_char : byte;
  double_quote : bool;
  quote_char : byte;
  na_values : list bytes;
  delimiter_is_new_line : bool;
  delimiter_is_space : bool;
  delimiter_first_character : byte;
  delimiter_is_singlechar : bool
}.

(** The default member initializers *)
Definition csv_line_tokenizer_new : csv_line_tokenizer :=
  {| preserve_quoting := false; escape_char := c_backslash; skip_initial_space := true;
     delimiter := [c_comma]; comment_char := c_hash; double_quote := false; quote_char := c_dquote;
     na_values := []; delimiter_is_new_line := false; delimiter_is_space := false;
     delimiter_first_character := c_nul; delimiter_is_singlechar := false |}.

(** [None] when the delimiter is empty, which throws *)
Definition init (t : csv_line_tokenizer) : option csv_line_tokenizer :=
  match delimiter t with
  | [] => None
  | c :: _ =>
      Some {| preserve_quoting := preserve_quoting t; escape_char := escape_char t;
              skip_initial_space := skip_initial_space t; delimiter := delimiter t;
              comment_char := comment_char t; double_quote := double_quote t;
              quote_char := quote_char t; na_values := na_values t;
              delimiter_is_new_line :=
                bool_decide (delimiter t = [c_nl]) || bool_decide (delimiter t = [c_cr]) ||
                bool_decide (delimiter t = [c_cr; c_nl]);
              delimiter_is_space := forallb isspace (delimiter t);
              delimiter_first_character := c;
              delimiter_is_singlechar := (length (delimiter t) =? 1)%nat |}
  end.

(** What the tokenizer uses of [flexible_type_parser] *)
Record flexible_type_parser := {
  int_parse : bytes -> flexible_type * bool * nat;
  double_parse : bytes -> flexible_type * bool * nat;
  vector_parse : bytes -> flexible_type * bool * nat;
  dict_parse : bytes -> flexible_type * bool * nat;
  recursive_parse : bytes -> flexible_type * bool * nat;
  general_flexible_type_parse : bytes -> flexible_type * bool * nat
}.

(** [field_buffer.resize(1024)] of the constructor *)
Definition field_buffer_new : bytes := replicate 1024 c_nul.

(** ** Values *)

(** [while(len > 0 && buf\[len - 1\] == ' ') len--;] *)
Fixpoint rtrim (buf : bytes) (len : nat) : option nat :=
  match len with
  | O => Some O
  | S n => match buf !! n with
           | None => None
           | Some c => if beq c c_space then rtrim buf n else Some len
           end
  end.

(** [strncmp(a, b, n) == 0] *)
Fixpoint strncmp_eq (a b : bytes) (n : nat) : bool :=
  match n, a, b with
  | S n, x :: a, y :: b => if beq x y then (if beq x c_nul then true else strncmp_eq a b n) else false
  | S _, [], [] => true
  | S _, x :: _, [] | S _, [], x :: _ => beq x c_nul
  | O, _, _ => true
  end.

Definition is_string (f : flexible_type) : bool :=
  match get_type f with STRING => true | _ => false end.

(** The quotes around a string field go, and escapes are undone. *)
Definition parse_string (t : csv_line_tokenizer) (buf : bytes) (len : nat) : option flexible_type :=
  let quoted :=
    (2 <=? len)%nat &&
    match buf !! (len - 1)%nat with Some c => beq c c_dquote | None => false end &&
    match buf !! 0%nat with Some c => beq c c_dquote | None => false end in
  let s := if quoted then take (len - 2) (drop 1 buf) else take len buf in
  match unescape_string s (escape_char t) with
  | Some s => Some (FString s)
  | None => None
  end.

(** Missing values, looked for at the position the parser left *)
Definition process_missing (t : csv_line_tokenizer) (buf : bytes) (len : nat) (out : flexible_type)
    (parse_success : bool) : option (bool * flexible_type) :=
  match na_values t with
  | [] => Some (parse_success, out)
  | _ =>
      if (negb parse_success && negb (is_string out)) || (parse_success && is_string out) then
        match rtrim buf len with
        | None => None
        | Some len =>
            if existsb (fun na => (length na =? len)%nat && strncmp_eq buf na len) (na_values t)
            then Some (true, reset UNDEFINED)
            else Some (parse_success, out)
        end
      else Some (parse_success, out)
  end.

(** Returns the success, the new value of [out] and the advance of [*buf]. *)
Definition parse_as (t : csv_line_tokenizer) (p : flexible_type_parser) (buf : bytes) (len : nat)
    (out : flexible_type) : option (bool * flexible_type * nat) :=
  let finish (r : flexible_type * bool * nat) :=
    let '(out, parse_success, adv) := r in
    match process_missing t (drop adv buf) len out parse_success with
    | Some (ok, out) => Some (ok, out, adv)
    | None => None
    end in
  match get_type out with
  | INTEGER => finish (int_parse p (take len buf))
  | FLOAT => finish (double_parse p (take len buf))
  | VECTOR => finish (vector_parse p (take len buf))
  | STRING =>
      match rtrim buf len with
      | None => None
      | Some len =>
          match parse_string t buf len with
          | None => None
          | Some out =>
              match process_missing t buf len out true with
              | Some (ok, out) => Some (ok, out, O)
              | None => None
              end
          end
      end
  | DICT => finish (dict_parse p (take len buf))
  | LIST => finish (recursive_parse p (take len buf))
  | UNDEFINED => finish (general_flexible_type_parse p (take len buf))
  | _ => Some (false, out, O)
  end.

(** ** The state machine *)

Inductive tokenizer_state := START_FIELD | IN_FIELD | IN_QUOTED_FIELD.

Section Impl.
Context {S : Type}.
Variable t : csv_line_tokenizer.
(** [add_token(buf, len)]; the storage from [buf] on *)
Variable add_token : S -> bytes -> nat -> option (bool * S).
(** [lookahead(&buf, bufend)]; also returns the advance of [buf] *)
Variable lookahead : S -> bytes -> nat -> option (bool * nat * S).
Variable canceltoken : S -> S.
Variable str : bytes.
Variable len : nat.

Record tstate := mk_tstate {
  buf : nat;                      (** [buf - str] *)
  state : tokenizer_state;
  start_field_with_delimiter_encountered : bool;
  escape_sequence : bool;
  field_buffer : bytes;
  field_buffer_len : nat;
  cb : S
}.

(** How an iteration ends: at the bottom of the loop (and with [keep_parsing] or
    not), with [continue], or with [good = false] *)
Inductive step_result := Next (keep_parsing : bool) (s : tstate) | Continue (s : tstate) | Failed (s : tstate).

Definition set_buf (n : nat) (s : tstate) : tstate :=
  mk_tstate n (state s) (start_field_with_delimiter_encountered s) (escape_sequence s)
    (field_buffer s) (field_buffer_len s) (cb s).
Definition set_state (st : tokenizer_state) (s : tstate) : tstate :=
  mk_tstate (buf s) st (start_field_with_delimiter_encountered s) (escape_sequence s)
    (field_buffer s) (field_buffer_len s) (cb s).
Definition set_flag (b : bool) (s : tstate) : tstate :=
  mk_tstate (buf s) (state s) b (escape_sequence s) (field_buffer s) (field_buffer_len s) (cb s).
Definition set_escape (b : bool) (s : tstate) : tstate :=
  mk_tstate (buf s) (state s) (start_field_with_delimiter_encountered s) b
    (field_buffer s) (field_buffer_len s) (cb s).
Definition set_cb (c : S) (s : tstate) : tstate :=
  mk_tstate (buf s) (state s) (start_field_with_delimiter_encountered s) (escape_sequence s)
    (field_buffer s) (field_buffer_len s) c.

Definition BEGIN_FIELD (s : tstate) : tstate :=
  mk_tstate (buf s) (state s) (start_field_with_delimiter_encountered s) (escape_sequence s)
    (field_buffer s) 0 (cb s).
Definition PUSH_CHAR (c : byte) (s : tstate) : option tstate :=
  let fb :=
    if (length (field_buffer s) <=? field_buffer_len s)%nat
    then list.resize (length (field_buffer s) * 2) c_nul (field_buffer s) else field_buffer s in
  match put c (fb, field_buffer_len s) with
  | None => None
  | Some (fb, n) =>
      Some (mk_tstate (buf s) (state s) (start_field_with_delimiter_encountered s)
              (beq c (escape_char t)) fb n (cb s))
  end.
(** [false] when the token is refused *)
Definition END_FIELD (s : tstate) : option (bool * tstate) :=
  match add_token (cb s) (field_buffer s) (field_buffer_len s) with
  | None => None
  | Some (ok, c) => Some (ok, if ok then BEGIN_FIELD (set_cb c s) else set_cb c s)
  end.

Definition test_is_delimiter (c : nat) : bool :=
  if (len <? c + length (delimiter t))%nat then false
  else bool_decide (take (length (delimiter t)) (drop c str) = delimiter t).
Definition DELIMITER_TEST (pos : nat) : option bool :=
  match str !! pos with
  | None => None
  | Some c => Some (beq c (delimiter_first_character t) &&
                    (delimiter_is_singlechar t || test_is_delimiter pos))
  end.

(** [while( *buf == ' ') ++buf;] *)
Fixpoint skip_spaces (rest : bytes) (pos : nat) : option nat :=
  match rest with
  | [] => None
  | c :: rest => if beq c c_space then skip_spaces rest (pos + 1) else Some pos
  end.

(** The label REGULAR_CHARACTER *)
Definition regular_character (c : byte) (s : tstate) : option step_result :=
  match PUSH_CHAR c (set_flag false s) with
  | Some s => Some (Next true (set_state IN_FIELD s))
  | None => None
  end.

(** A field that starts with a bracket; [s] is past it *)
Definition bracket_field (c : byte) (s : tstate) : option step_result :=
  let prev := buf s in
  let start := (prev - 1)%nat in
  let s := set_flag false s in
  match lookahead (cb s) (drop start str) (len - start) with
  | None => None
  | Some (true, adv, cb') =>
      let s := set_cb cb' s in
      match skip_spaces (drop (start + adv) str) (start + adv) with
      | None => None
      | Some pos =>
          if (pos =? len)%nat then Some (Continue (set_buf pos s))
          else
            match DELIMITER_TEST pos with
            | None => None
            | Some true =>
                Some (Continue (set_buf (pos + length (delimiter t)) (set_flag true s)))
            | Some false =>
                if delimiter_is_space t then Some (Continue (set_buf pos s))
                else regular_character c (set_buf prev (set_cb (canceltoken (cb s)) s))
            end
      end
  | Some (false, _, cb') => regular_character c (set_buf prev (set_cb cb' s))
  end.

Definition start_field (c : byte) (is_delimiter : bool) (s : tstate) : option step_result :=
  if beq c (quote_char t) then
    match PUSH_CHAR c (BEGIN_FIELD (set_flag false s)) with
    | Some s => Some (Next true (set_state (if preserve_quoting t then IN_FIELD else IN_QUOTED_FIELD) s))
    | None => None
    end
  else if beq c c_space && skip_initial_space t then Some (Next true s)
  else if is_delimiter then
    match END_FIELD (BEGIN_FIELD (set_flag true s)) with
    | Some (true, s) => Some (Next true s)
    | Some (false, s) => Some (Failed s)
    | None => None
    end
  else if beq c (comment_char t) then Some (Next false (set_flag false s))
  else if beq c c_lbracket || beq c c_lbrace then bracket_field c s
  else regular_character c s.

Definition in_field (c : byte) (is_delimiter : bool) (s : tstate) : option step_result :=
  if is_delimiter then
    match END_FIELD s with
    | Some (true, s) => Some (Next true (set_state START_FIELD (set_flag true s)))
    | Some (false, s) => Some (Failed s)
    | None => None
    end
  else if beq c (comment_char t) then
    match END_FIELD s with
    | Some (true, s) => Some (Next false (set_state START_FIELD s))
    | Some (false, s) => Some (Failed s)
    | None => None
    end
  else
    match PUSH_CHAR c s with Some s => Some (Next true s) | None => None end.

Definition in_quoted_field (c : byte) (s : tstate) : option step_result :=
  if beq c (quote_char t) && negb (escape_sequence s) then
    if double_quote t && (buf s + 1 <? len)%nat &&
       match str !! buf s with Some d => beq d (quote_char t) | None => false end
    then
      match PUSH_CHAR c s with Some s => Some (Next true (set_buf (buf s + 1) s)) | None => None end
    else
      match PUSH_CHAR c s with Some s => Some (Next true (set_state IN_FIELD s)) | None => None end
  else
    match PUSH_CHAR c s with Some s => Some (Next true s) | None => None end.

(** One iteration of the loop: the delimiter is skipped up to its last
    character, whatever the state. *)
Definition iteration (s : tstate) : option step_result :=
  match DELIMITER_TEST (buf s) with
  | None => None
  | Some is_delimiter =>
      let reset_escape_sequence := escape_sequence s in
      let pos := if is_delimiter then (buf s + length (delimiter t) - 1)%nat else buf s in
      match str !! pos with
      | None => None
      | Some c =>
          let s := set_buf (pos + 1) s in
          let r :=
            match state s with
            | START_FIELD => start_field c is_delimiter s
            | IN_FIELD => in_field c is_delimiter s
            | IN_QUOTED_FIELD => in_quoted_field c s
            end in
          match r with
          | Some (Next k s) => Some (Next k (if reset_escape_sequence then set_escape false s else s))
          | r => r
          end
      end
  end.

(** After the loop *)
Definition cleanup (s : tstate) : option (bool * tstate) :=
  match state s with
  | START_FIELD =>
      if start_field_with_delimiter_encountered s then
        match add_token (cb s) [] 0 with Some (ok, c) => Some (ok, set_cb c s) | None => None end
      else Some (true, s)
  | _ =>
      match add_token (cb s) (field_buffer s) (field_buffer_len s) with
      | Some (ok, c) => Some (ok, set_cb c s)
      | None => None
      end
  end.

(** [while(keep_parsing && buf != bufend)].  Out of fuel is [None].  Every
    iteration advances, but for one in which the lookahead takes a field without
    a character. *)
Fixpoint tokenize_loop (fuel : nat) (s : tstate) : option (bool * tstate) :=
  if (buf s =? len)%nat then cleanup s
  else
    match fuel with
    | O => None
    | Datatypes.S fuel =>
        match iteration s with
        | None => None
        | Some (Failed s) => Some (false, s)
        | Some (Next false s) => cleanup s
        | Some (Next true s) | Some (Continue s) => tokenize_loop fuel s
        end
    end.

Definition tokenize_line_impl (fuel : nat) (fb : bytes) (c : S) : option (bool * tstate) :=
  let s := mk_tstate 0 START_FIELD false false fb 0 c in
  if delimiter_is_new_line t then
    match add_token c str len with Some (_, c) => Some (true, set_cb c s) | None => None end
  else tokenize_loop fuel s.
End Impl.
Arguments tstate S : clear implicits.
Arguments step_result S : clear implicits.

(** ** The three interfaces *)

(** [std::string(prevbuf, *buf - prevbuf)] after a bracketed value was parsed *)
Definition bracketed (p : flexible_type_parser) (buf : bytes) (n : nat) : option (bytes * nat) :=
  let '(_, adv) := general_flexible_type_parse p (take n buf) in
  if (adv =? 0)%nat then None else Some (take adv buf, adv).

(** Every token is passed to [fn]. *)
Definition tokenize_line_fn {S} (t : csv_line_tokenizer) (p : flexible_type_parser)
    (fn : S -> bytes -> bool * S) (str : bytes) (len : nat) (fb : bytes) (c : S)
    : option (bool * tstate S) :=
  tokenize_line_impl t
    (fun c buf n => Some (fn c (take n buf)))
    (fun c buf n =>
       match bracketed p buf n with
       | Some (v, adv) => Some (true, adv, (fn c v).2)
       | None => Some (false, 0%nat, c)
       end)
    (fun c => c) str len len fb c.

(** The tokens are collected, without trailing spaces. *)
Definition tokenize_line_strings (t : csv_line_tokenizer) (p : flexible_type_parser)
    (str : bytes) (len : nat) (fb : bytes) : option (bool * tstate (list bytes)) :=
  tokenize_line_impl t
    (fun output buf n =>
       match rtrim buf n with
       | Some n => Some (true, output ++ [take n buf])
       | None => None
       end)
    (fun output buf n =>
       match bracketed p buf n with
       | Some (v, adv) => Some (true, adv, output ++ [v])
       | None => Some (false, 0%nat, output)
       end)
    (fun output => output) str len len fb [].

(** The tokens are parsed as the types of [output]; [ctr] counts them. *)
Definition typed_add_token (t : csv_line_tokenizer) (p : flexible_type_parser) (permit_undefined : bool)
    (s : nat * list flexible_type) (buf : bytes) (n : nat) : option (bool * (nat * list flexible_type)) :=
  let '(ctr, output) := s in
  match output !! ctr with
  | None =>
      if delimiter_is_space t then Some (forallb (fun c => beq c c_space) (take n buf), s)
      else Some (false, s)
  | Some out =>
      if (n =? 0)%nat && permit_undefined && negb (is_string out) then
        Some (true, (S ctr, <[ctr := reset UNDEFINED]> output))
      else
        match parse_as t p buf n out with
        | None => None
        | Some (success, out, _) =>
            Some (success, (if success then S ctr else ctr, <[ctr := out]> output))
        end
  end.
Definition typed_lookahead (t : csv_line_tokenizer) (p : flexible_type_parser)
    (s : nat * list flexible_type) (buf : bytes) (n : nat)
    : option (bool * nat * (nat * list flexible_type)) :=
  let '(ctr, output) := s in
  match output !! ctr with
  | None => Some (false, 0%nat, s)
  | Some out =>
      if is_string out then
        match bracketed p buf n with
        | Some (v, adv) =>
            match unescape_string v (escape_char t) with
            | Some v => Some (true, adv, (S ctr, <[ctr := FString v]> output))
            | None => None
            end
        | None => Some (false, 0%nat, s)
        end
      else
        match parse_as t p buf n out with
        | None => None
        | Some (success, out, adv) =>
            Some (success, adv, (if success then S ctr else ctr, <[ctr := out]> output))
        end
  end.
(** Returns the number of values parsed, 0 on failure, and [output].  The fuel
    is one unit per character, and one per column for the fields that the
    lookahead takes without a character. *)
Definition tokenize_line (t : csv_line_tokenizer) (p : flexible_type_parser) (permit_undefined : bool)
    (str : bytes) (len : nat) (fb : bytes) (output : list flexible_type)
    : option (nat * list flexible_type * bytes) :=
  match tokenize_line_impl t (typed_add_token t p permit_undefined) (typed_lookahead t p)
          (fun s => (pred s.1, s.2)) str len (len + length output) fb (0%nat, output) with
  | None => None
  | Some (success, s) =>
      Some (if success then (cb s).1 else 0%nat, (cb s).2, field_buffer s)
  end.

(** ** The writer *)

Record csv_writer := {
  w_delimiter : bytes;
  w_escape_char : byte;
  w_double_quote : bool;
  w_quote_char : byte;
  w_use_quote_char : bool
}.
Definition csv_writer_new : csv_writer :=
  {| w_delimiter := [c_comma]; w_escape_char := c_backslash; w_double_quote := false;
     w_quote_char := c_dquote; w_use_quote_char := true |}.

Section Writer.
Variable w : csv_writer.
(** [std::string(val)] of a number or a vector *)
Variable to_string : flexible_type -> bytes.

(** The characters written, and the escape buffer the writer keeps *)
Fixpoint csv_print (val : flexible_type) (escape_buffer : bytes) : option (bytes * bytes) :=
  match val with
  | FInt _ | FFloat _ | FVector _ => Some (to_string val, escape_buffer)
  | FString s =>
      match escape_string s (w_escape_char w) (w_quote_char w) (w_use_quote_char w)
              (w_double_quote w) escape_buffer with
      | Some (b, n) => Some (take n b, b)
      | None => None
      end
  | FList l =>
      let fix elements (l : list flexible_type) (b : bytes) : option (bytes * bytes) :=
        match l with
        | [] => Some ([], b)
        | x :: l =>
            match csv_print x b with
            | None => None
            | Some (o, b) =>
                match elements l b with
                | None => None
                | Some (o', b) => Some (o ++ (match l with [] => [] | _ => [c_comma] end) ++ o', b)
                end
            end
        end in
      match elements l escape_buffer with
      | Some (o, b) => Some ([c_lbracket] ++ o ++ [c_rbracket], b)
      | None => None
      end
  | FDict d =>
      let fix elements (d : list (flexible_type * flexible_type)) (b : bytes) : option (bytes * bytes) :=
        match d with
        | [] => Some ([], b)
        | (k, v) :: d =>
            match csv_print k b with
            | None => None
            | Some (o1, b) =>
                match csv_print v b with
                | None => None
                | Some (o2, b) =>
                    match elements d b with
                    | None => None
                    | Some (o', b) =>
                        Some (o1 ++ [c_colon] ++ o2 ++ (match d with [] => [] | _ => [c_comma] end) ++ o', b)
                    end
                end
            end
        end in
      match elements d escape_buffer with
      | Some (o, b) => Some ([c_lbrace] ++ o ++ [c_rbrace], b)
      | None => None
      end
  | _ => Some ([], escape_buffer)
  end.

(** The cells of a row, delimiters after all but the last *)
Fixpoint write_cells (row : list flexible_type) (b : bytes) : option (bytes * bytes) :=
  match row with
  | [] => Some ([], b)
  | x :: row =>
      match csv_print x b with
      | None => None
      | Some (o, b) =>
          match write_cells row b with
          | None => None
          | Some (o', b) => Some (o ++ (match row with [] => [] | _ => w_delimiter w end) ++ o', b)
          end
      end
  end.
Definition write (row : list flexible_type) (b : bytes) : option (bytes * bytes) :=
  match write_cells row b with Some (o, b) => Some (o ++ [c_nl], b) | None => None end.

Fixpoint verbatim_cells (row : list bytes) : bytes :=
  match row with
  | [] => []
  | x :: row => x ++ (match row with [] => [] | _ => w_delimiter w end) ++ verbatim_cells row
  end.
Definition write_verbatim (row : list bytes) : bytes := verbatim_cells row ++ [c_nl].
End Writer.
