(* ===== verification/CsvCorrect.v ===== *)
(** Correctness of the CSV tokenizer and writer: the tokenizer stays within the
    line and terminates, and it reads back the rows that the writer wrote. *)
From Stdlib Require Import ZArith Lia List Bool.
From stdpp Require Import prelude.
From coqutil Require Import Byte.
From S2P Require Import Prelude.
From S2P Require Import Archive.
From S2P Require Import FlexibleType.
From S2P Require Import FlexibleOps.
From S2P Require Import StringEscape.
From S2P Require Import Csv.

(** ** Bounds and termination *)

(** The object after [init()] *)
Definition initialised (t : csv_line_tokenizer) : Prop :=
  delimiter t <> [] /\ delimiter_first_character t = hd c_nul (delimiter t) /\
  delimiter_is_singlechar t = (length (delimiter t) =? 1)%nat.
Lemma init_initialised t0 t : init t0 = Some t -> initialised t.
Proof. unfold init. intros E. case_match; [done|]. injection E as <-. unfold initialised. cbn. by destruct (delimiter t0); simplify_eq. Qed.

Section Bounds.
Context {S : Type} (t : csv_line_tokenizer).
Context (add_token : S -> bytes -> nat -> option (bool * S)).
Context (lookahead : S -> bytes -> nat -> option (bool * nat * S)).
Context (canceltoken : S -> S) (str : bytes) (len : nat) (terminator : byte).
Context (Ht : initialised t).
(** An invariant of the callbacks *)
Context (I : S -> Prop).
(** How many fields the lookahead can still take *)
Context (rank : S -> nat).
Context (Hcancel : forall s, I s -> I (canceltoken s) /\ (rank (canceltoken s) <= Datatypes.S (rank s))%nat).
Context (Hadd : forall s b n, I s -> (n <= length b)%nat ->
  exists ok s', add_token s b n = Some (ok, s') /\ I s' /\ (rank s' <= rank s)%nat).
Context (Hlook : forall s b n, I s -> (n <= length b)%nat ->
  exists ok adv s', lookahead s b n = Some (ok, adv, s') /\ I s' /\ (rank s' <= rank s)%nat /\
    (ok = true -> (adv <= n)%nat /\ (rank s' < rank s)%nat)).
(** The line is followed by a character that is not a space. *)
Context (Hend : str !! len = Some terminator) (Hspace : terminator <> c_space).

Definition in_bounds (s : tstate S) : Prop :=
  (buf s <= len)%nat /\ (0 < length (field_buffer s))%nat /\
  (field_buffer_len s <= length (field_buffer s))%nat /\ I (cb s).

Lemma push_char_bounds c s : in_bounds s -> exists s', PUSH_CHAR t c s = Some s' /\ in_bounds s' /\
  buf s' = buf s /\ state s' = state s /\
  start_field_with_delimiter_encountered s' = start_field_with_delimiter_encountered s /\
  escape_sequence s' = beq c (escape_char t) /\ cb s' = cb s /\
  field_buffer_len s' = (field_buffer_len s + 1)%nat /\
  take (field_buffer_len s') (field_buffer s') = take (field_buffer_len s) (field_buffer s) ++ [c].
Proof.
  intros (Hb & Hf & Hl & HI). unfold PUSH_CHAR. set (fb := if (_ <=? _)%nat then _ else _).
  assert (field_buffer_len s < length fb)%nat as Hlt.
  { unfold fb. destruct (Nat.leb_spec (length (field_buffer s)) (field_buffer_len s)); [|lia].
    rewrite length_resize. lia. }
  assert (take (field_buffer_len s) fb = take (field_buffer_len s) (field_buffer s)) as Et.
  { unfold fb. destruct (Nat.leb_spec (length (field_buffer s)) (field_buffer_len s)); [|done].
    rewrite resize_spec, (take_ge (field_buffer s)) by lia. by rewrite take_app_le by lia. }
  unfold put. rewrite (proj2 (Nat.ltb_lt _ _)) by done. eexists. split; [done|]. cbn.
  split_and!; try done; [unfold in_bounds; cbn; rewrite !length_insert; split_and!; (done || lia)|lia|].
  rewrite (take_S_r _ _ c) by (by rewrite list_lookup_insert_eq). rewrite take_insert_ge by lia. by rewrite Et.
Qed.

Lemma delimiter_test_bounds pos : (pos < len)%nat -> exists b, DELIMITER_TEST t str len pos = Some b /\
  (b = true -> (pos + length (delimiter t) <= len)%nat).
Proof.
  intros Hp. unfold DELIMITER_TEST.
  destruct (lookup_lt_is_Some_2 str pos) as [c ->]; [apply lookup_lt_Some in Hend; lia|].
  eexists. split; [done|]. intros [_ [H|H]%orb_true_iff]%andb_true_iff.
  - destruct Ht as (_ & _ & E). rewrite E in H. apply Nat.eqb_eq in H. lia.
  - unfold test_is_delimiter in H. destruct (Nat.ltb_spec len (pos + length (delimiter t))); [done|lia].
Qed.

Lemma skip_spaces_bounds n pos : (pos + n = len)%nat ->
  exists pos', skip_spaces (drop pos str) pos = Some pos' /\ (pos <= pos' <= len)%nat.
Proof.
  revert pos. induction n as [|n IH]; intros pos Hp.
  - replace pos with len by lia. rewrite (drop_S _ _ _ Hend). cbn. destruct (beq_spec terminator c_space); [done|].
    exists len. split; [done|lia].
  - destruct (lookup_lt_is_Some_2 str pos) as [c Hc]; [apply lookup_lt_Some in Hend; lia|].
    rewrite (drop_S _ _ _ Hc). cbn. destruct (beq c c_space).
    + replace (pos + 1)%nat with (Datatypes.S pos) by lia. destruct (IH (Datatypes.S pos) ltac:(lia)) as (p & E & ?).
      exists p. split; [done|lia].
    + exists pos. split; [done|lia].
Qed.

(** What is left: characters, and fields that the lookahead can take *)
Definition remaining (s : tstate S) : nat := len - buf s + rank (cb s).

(** What an iteration leaves: a state in bounds, with less left than [m] *)
Definition good_result (m : nat) (r : option (step_result S)) : Prop :=
  match r with
  | Some (Next true s) | Some (Continue s) => in_bounds s /\ (remaining s < m)%nat
  | Some (Next false s) => in_bounds s
  | Some (Failed s) => I (cb s)
  | None => False
  end.

Lemma regular_bounds m c s : in_bounds s -> (remaining s < m)%nat ->
  good_result m (regular_character t c s).
Proof.
  intros Hb Hp. unfold regular_character.
  destruct (push_char_bounds c (set_flag false s) Hb) as (s' & -> & Hb' & E & _ & _ & _ & Ec & _). cbn.
  split; [done|]. unfold remaining in *. cbn in *. by rewrite E, Ec.
Qed.

Lemma bracket_bounds c s m : in_bounds s -> (0 < buf s)%nat ->
  (m = len - (buf s - 1) + rank (cb s))%nat ->
  good_result m (bracket_field t lookahead canceltoken str len c s).
Proof.
  intros Hb H0 ->. pose proof (lookup_lt_Some _ _ _ Hend) as Hlen. pose proof Hb as (Hb1 & Hb2 & Hb3 & HI).
  unfold bracket_field. cbn [cb set_flag]. set (start := (buf s - 1)%nat).
  destruct (Hlook (cb s) (drop start str) (len - start) HI) as (ok & adv & s' & -> & HI' & Hle & Hadv).
  { rewrite length_drop. lia. }
  destruct ok; [|by apply regular_bounds; [split_and!|unfold remaining; cbn; lia]].
  destruct (Hadv eq_refl) as [Ha Hlt].
  destruct (skip_spaces_bounds (len - (start + adv)) (start + adv) ltac:(lia)) as (p & -> & Hp1).
  destruct (Nat.eqb_spec p len) as [->|Hne]; [split; [by split_and!|unfold remaining; cbn; lia]|].
  destruct (delimiter_test_bounds p ltac:(lia)) as (b & -> & Hd). destruct b.
  - specialize (Hd eq_refl). split; [split_and!; cbn; try done; lia|unfold remaining; cbn; lia].
  - destruct (delimiter_is_space t).
    + split; [split_and!; cbn; try done; lia|unfold remaining; cbn; lia].
    + destruct (Hcancel s' HI') as [HIc Hr].
      apply regular_bounds; [by split_and!|unfold remaining; cbn; lia].
Qed.

Lemma end_field_bounds s : in_bounds s -> exists ok s', END_FIELD add_token s = Some (ok, s') /\
  I (cb s') /\ (ok = true -> in_bounds s' /\ (remaining s' <= remaining s)%nat).
Proof.
  intros (H1 & H2 & H3 & HI). unfold END_FIELD.
  destruct (Hadd (cb s) (field_buffer s) (field_buffer_len s) HI H3) as (ok & c & -> & HI' & Hr).
  do 2 eexists. split; [done|]. split; [by destruct ok|]. intros ->. split; [|unfold remaining; cbn; lia].
  split_and!; cbn; (done || lia).
Qed.

Lemma push_char_remaining c s : in_bounds s -> exists s', PUSH_CHAR t c s = Some s' /\ in_bounds s' /\
  remaining s' = remaining s /\ buf s' = buf s /\ cb s' = cb s.
Proof.
  intros Hb. destruct (push_char_bounds c s Hb) as (s' & E & Hb' & Eb & _ & _ & _ & Ec & _).
  exists s'. split_and!; try done. unfold remaining. by rewrite Eb, Ec.
Qed.

(** The cases of an iteration, from the state [s] past the character *)
Lemma start_field_bounds c d s m : in_bounds s -> (0 < buf s)%nat -> (remaining s < m)%nat ->
  (d = false -> m = len - (buf s - 1) + rank (cb s))%nat ->
  good_result m (start_field t add_token lookahead canceltoken str len c d s).
Proof.
  intros Hb H0 Hm Hd. pose proof Hb as (? & ? & ? & ?). unfold start_field.
  destruct (beq c (quote_char t)).
  { destruct (push_char_remaining c (BEGIN_FIELD (set_flag false s))) as (s2 & -> & Hb2 & E & _).
    { split_and!; cbn; try done; lia. }
    split; [done|]. unfold remaining in *. cbn in *. lia. }
  destruct (beq c c_space && skip_initial_space t); [by split|]. destruct d.
  - destruct (end_field_bounds (BEGIN_FIELD (set_flag true s))) as (ok & s2 & -> & HIs & Hok).
    { split_and!; cbn; try done; lia. }
    destruct ok; [|done]. destruct (Hok eq_refl) as [? E]. split; [done|]. unfold remaining in *. cbn in *. lia.
  - destruct (beq c (comment_char t)); [done|].
    destruct (_ || _); [apply bracket_bounds; auto|by apply regular_bounds].
Qed.

Lemma in_field_bounds c d s m : in_bounds s -> (remaining s < m)%nat ->
  good_result m (in_field t add_token c d s).
Proof.
  intros Hb Hm. unfold in_field. destruct (end_field_bounds s Hb) as (ok & s2 & E & HIs & Hok). rewrite E.
  destruct d.
  - destruct ok; [|done]. destruct (Hok eq_refl) as [? E2]. split; [done|]. unfold remaining in *. cbn in *. lia.
  - destruct (beq c (comment_char t)); [destruct ok; [by apply Hok|done]|].
    destruct (push_char_remaining c s Hb) as (s3 & -> & Hb3 & E3 & _). split; [done|]. lia.
Qed.

Lemma in_quoted_field_bounds c s m : in_bounds s -> (remaining s < m)%nat ->
  good_result m (in_quoted_field t str len c s).
Proof.
  intros Hb Hm. unfold in_quoted_field.
  destruct (push_char_remaining c s Hb) as (s3 & -> & Hb3 & E3 & Eb & Ec).
  destruct (beq c (quote_char t) && _); [|split; [done|lia]].
  destruct (double_quote t && (buf s + 1 <? len)%nat && _) eqn:E4.
  - apply andb_true_iff in E4 as [[_ E4%Nat.ltb_lt]%andb_true_iff _]. destruct Hb3 as (? & ? & ? & ?).
    split; [split_and!; cbn; try done; lia|]. unfold remaining in *. cbn. rewrite Ec. lia.
  - split; [done|]. unfold remaining in *. cbn. lia.
Qed.

Lemma iteration_bounds s : in_bounds s -> (buf s < len)%nat ->
  good_result (remaining s) (iteration t add_token lookahead canceltoken str len s).
Proof.
  intros Hb Hlt. unfold iteration. destruct (delimiter_test_bounds (buf s) Hlt) as (d & -> & Hd).
  set (pos := if d then _ else _).
  assert (buf s <= pos < len)%nat as Hpos.
  { unfold pos. destruct d; [|lia]. specialize (Hd eq_refl). destruct Ht as [Hne _].
    destruct (delimiter t); [done|]. cbn [length] in *. lia. }
  destruct (lookup_lt_is_Some_2 str pos) as [c ->]; [apply lookup_lt_Some in Hend; lia|].
  set (s1 := set_buf (pos + 1) s).
  assert (in_bounds s1) as Hb1 by (destruct Hb as (? & ? & ? & ?); split_and!; cbn; try done; lia).
  assert (remaining s1 < remaining s)%nat as Hlt1 by (unfold remaining; cbn; lia).
  assert (forall r, good_result (remaining s) r -> good_result (remaining s)
    match r with
    | Some (Next k s2) => Some (Next k (if escape_sequence s then set_escape false s2 else s2))
    | r => r
    end) as Hreset.
  { intros [[k s2|s2|s2]|] Hr; try done. destruct (escape_sequence s), k; exact Hr. }
  apply Hreset. clear Hreset. change (state s1) with (state s). destruct (state s).
  - apply start_field_bounds; [done|cbn; lia|done|]. intros ->. unfold remaining, pos. cbn. lia.
  - by apply in_field_bounds.
  - by apply in_quoted_field_bounds.
Qed.

Definition total (r : option (bool * tstate S)) : Prop :=
  exists ok s, r = Some (ok, s) /\ I (cb s).

Lemma cleanup_bounds s : in_bounds s -> total (cleanup add_token s).
Proof.
  intros (H1 & H2 & H3 & HI). unfold cleanup.
  destruct (Hadd (cb s) (field_buffer s) (field_buffer_len s) HI H3) as (ok & c & -> & HI1 & _).
  destruct (Hadd (cb s) [] 0 HI ltac:(cbn; lia)) as (ok' & c' & -> & HI2 & _).
  unfold total. destruct (state s); [case_match|..]; do 2 eexists; (split; [done|]); done.
Qed.

Lemma tokenize_loop_bounds fuel : forall s, in_bounds s -> (remaining s <= fuel)%nat ->
  total (tokenize_loop t add_token lookahead canceltoken str len fuel s).
Proof.
  induction fuel as [|fuel IH]; intros s Hb Hf; cbn [tokenize_loop];
    destruct (Nat.eqb_spec (buf s) len) as [E|E]; try by apply cleanup_bounds.
  - destruct Hb as (? & _). unfold remaining in Hf. lia.
  - pose proof (iteration_bounds s Hb) as Hi. destruct Hb as (Hb1 & _). specialize (Hi ltac:(lia)).
    destruct (iteration _ _ _ _ _ _ _) as [[[] s'|s'|s']|]; try done.
    + destruct Hi as [? ?]. apply IH; [done|lia].
    + by apply cleanup_bounds.
    + destruct Hi as [? ?]. apply IH; [done|lia].
    + by exists false, s'.
Qed.

Lemma tokenize_impl_bounds fb c : I c -> (0 < length fb)%nat ->
  total (tokenize_line_impl t add_token lookahead canceltoken str len (len + rank c) fb c).
Proof.
  intros HI Hf. unfold tokenize_line_impl. destruct (delimiter_is_new_line t).
  - destruct (Hadd c str len HI) as (ok & c' & -> & HI' & _); [apply lookup_lt_Some in Hend; lia|].
    by do 2 eexists.
  - apply tokenize_loop_bounds; [|unfold remaining; cbn; lia]. split_and!; cbn; (done || lia).
Qed.
End Bounds.

(** ** The typed interface *)

(** What the tokenizer relies on: a parser does not read past its input. *)
Definition stays_within (f : bytes -> flexible_type * bool * nat) : Prop :=
  forall b v ok adv, f b = (v, ok, adv) -> (adv <= length b)%nat.
Definition parser_ok (p : flexible_type_parser) : Prop :=
  stays_within (int_parse p) /\ stays_within (double_parse p) /\ stays_within (vector_parse p) /\
  stays_within (dict_parse p) /\ stays_within (recursive_parse p) /\
  stays_within (general_flexible_type_parse p).

Lemma rtrim_le b n : (n <= length b)%nat -> exists m, rtrim b n = Some m /\ (m <= n)%nat.
Proof.
  induction n as [|n IH]; intros Hn; cbn [rtrim]; [by exists O|].
  destruct (lookup_lt_is_Some_2 b n) as [c ->]; [lia|]. destruct (beq c c_space).
  - destruct IH as (m & -> & ?); [lia|]. exists m. split; [done|lia].
  - by exists (S n).
Qed.

Section Typed.
Context (t : csv_line_tokenizer) (p : flexible_type_parser) (Hna : na_values t = []).

Lemma process_missing_none b n out ok : process_missing t b n out ok = Some (ok, out).
Proof. unfold process_missing. by rewrite Hna. Qed.

Lemma parse_string_total b n : exists s, parse_string t b n = Some (FString s).
Proof. unfold parse_string. rewrite unescape_string_spec. eauto. Qed.

Lemma parse_as_total b n out : (n <= length b)%nat -> parser_ok p ->
  exists ok out' adv, parse_as t p b n out = Some (ok, out', adv) /\
    (ok = true -> is_string out = false -> (adv <= n)%nat).
Proof.
  intros Hn (H1 & H2 & H3 & H4 & H5 & H6). unfold parse_as.
  assert (forall f, stays_within f -> exists ok out' adv,
    (let '(out, parse_success, adv) := f (take n b) in
     match process_missing t (drop adv b) n out parse_success with
     | Some (ok, out) => Some (ok, out, adv)
     | None => None
     end) = Some (ok, out', adv) /\
    (ok = true -> is_string out = false -> (adv <= n)%nat)) as Hfin.
  { intros f Hf. destruct (f (take n b)) as [[v ok] adv] eqn:E. rewrite process_missing_none.
    exists ok, v, adv. split; [done|]. intros _ _. pose proof (Hf _ _ _ _ E) as Ha.
    rewrite length_take in Ha. lia. }
  unfold is_string in *. destruct (get_type out); try (by apply Hfin).
  - destruct (rtrim_le b n Hn) as (m & -> & _). destruct (parse_string_total b m) as (s & ->).
    rewrite process_missing_none. do 3 eexists. by split.
  - do 3 eexists. split; [done|]. done.
  - do 3 eexists. split; [done|]. done.
Qed.

Definition columns (k : nat) (s : nat * list flexible_type) : Prop := length s.2 = k /\ (s.1 <= k)%nat.
(** The columns that have no value yet *)
Definition columns_left (k : nat) (s : nat * list flexible_type) : nat := k - s.1.

Lemma typed_add_total pu k s b n : parser_ok p -> columns k s -> (n <= length b)%nat ->
  exists ok s', typed_add_token t p pu s b n = Some (ok, s') /\ columns k s' /\
    (columns_left k s' <= columns_left k s)%nat.
Proof.
  intros Hp [Hk Hc] Hn. destruct s as [ctr output]. unfold typed_add_token. cbn in *.
  unfold columns_left. cbn [fst].
  destruct (output !! ctr) as [out|] eqn:Ho; [|by case_match; do 2 eexists].
  apply lookup_lt_Some in Ho. destruct (_ && negb _).
  - do 2 eexists. split; [done|]. split; [|cbn; lia]. split; cbn; [by rewrite length_insert|lia].
  - destruct (parse_as_total b n out Hn Hp) as (ok & out' & adv & -> & _). do 2 eexists. split; [done|].
    split; [|cbn; destruct ok; lia]. split; cbn; [by rewrite length_insert|]. destruct ok; lia.
Qed.

Lemma typed_lookahead_total k s b n : parser_ok p -> columns k s -> (n <= length b)%nat ->
  exists ok adv s', typed_lookahead t p s b n = Some (ok, adv, s') /\ columns k s' /\
    (columns_left k s' <= columns_left k s)%nat /\
    (ok = true -> (adv <= n)%nat /\ (columns_left k s' < columns_left k s)%nat).
Proof.
  intros Hp [Hk Hc] Hn. destruct s as [ctr output]. unfold typed_lookahead, columns_left. cbn in *.
  destruct (output !! ctr) as [out|] eqn:Ho; [|by do 3 eexists]. apply lookup_lt_Some in Ho.
  assert (forall v c, (c <= k)%nat -> columns k (c, <[ctr := v]> output)) as Hcol.
  { intros v c ?. split; cbn; [by rewrite length_insert|done]. }
  destruct (is_string out) eqn:Hs.
  - unfold bracketed. destruct (general_flexible_type_parse p (take n b)) as [[v ok] adv] eqn:E.
    destruct Hp as (_ & _ & _ & _ & _ & Hg). pose proof (Hg _ _ _ _ E) as Ha. rewrite length_take in Ha.
    destruct (Nat.eqb_spec adv 0); [by do 3 eexists|]. rewrite unescape_string_spec.
    do 3 eexists. split; [done|]. split; [apply Hcol; lia|]. cbn. lia.
  - destruct (parse_as_total b n out Hn Hp) as (ok & out' & adv & -> & Hadv). do 3 eexists. split; [done|].
    split; [apply Hcol; destruct ok; lia|]. cbn. split; [destruct ok; lia|]. intros ->. split; [auto|lia].
Qed.
End Typed.

(** C36. Tokenizing a line into typed columns terminates and reads only the line
    and the character after it, whatever the line, the delimiter (an empty one
    is refused at initialisation) and the other options, when no missing-value strings are set, the character after the line
    is not a space, the field buffer is not empty at first, and the value
    parsers advance no further than the end of their input (they may succeed
    without taking a character): the loop advances at every iteration, by a
    character or by a column, the field buffer grows as needed, and the result
    never has more values than columns. *)
Theorem tokenize_line_total t0 t p pu str len term fb output :
  init t0 = Some t -> na_values t = [] -> parser_ok p ->
  str !! len = Some term -> term <> c_space -> (0 < length fb)%nat ->
  exists n output' fb', tokenize_line t p pu str len fb output = Some (n, output', fb') /\
    length output' = length output /\ (n <= length output)%nat.
Proof.
  intros Hi Hna Hp Hend Hsp Hfb. unfold tokenize_line.
  destruct (tokenize_impl_bounds t (typed_add_token t p pu) (typed_lookahead t p) (fun s => (pred s.1, s.2))
    str len term (init_initialised t0 t Hi) (columns (length output)) (columns_left (length output))) with fb (0%nat, output) as (ok & s & E & HI);
    try done.
  - intros s [? ?]. unfold columns_left. split; [split|]; cbn; [done|lia|lia].
  - intros s b n Hs Hn. by apply typed_add_total.
  - intros s b n Hs Hn. by apply typed_lookahead_total.
  - split; cbn; lia.
  - unfold columns_left in E. cbn [fst] in E. rewrite Nat.sub_0_r in E. rewrite E.
    destruct HI as [H1 H2]. do 3 eexists. split; [done|]. split; [done|]. destruct ok; lia.
Qed.

(** ** Fields *)

(** Scanning the inside of a quoted field: [None] when it ends there, else
    whether the next character is escaped *)
Fixpoint qscan (e q : byte) (esc : bool) (cs : bytes) : option bool :=
  match cs with
  | [] => Some esc
  | c :: cs => if beq c q && negb esc then None else qscan e q (if esc then false else beq c e) cs
  end.

Lemma qscan_app e q esc cs ds : qscan e q esc (cs ++ ds) =
  match qscan e q esc cs with Some esc => qscan e q esc ds | None => None end.
Proof.
  revert esc. induction cs as [|c cs IH]; intros esc; [done|]. cbn [app qscan]. by destruct (_ && _).
Qed.

(** A plain character, or an escape sequence *)
Lemma escape_one_scan c n : c <> c_backslash ->
  qscan c_backslash c_dquote false (escape_one c_backslash false c n) = Some false.
Proof. intros Hc. by destruct c. Qed.

(** What [escape_string] puts between the quotes stays between them. *)
Lemma escaped_scan val : qscan c_backslash c_dquote false (escaped c_backslash false val) = Some false.
Proof.
  induction val as [|c val IH]; [done|]. cbn [escaped].
  destruct (beq_spec c c_backslash) as [->|Hc]; [|by rewrite qscan_app, escape_one_scan].
  unfold escape_one. change (beq c_backslash c_quote) with false. change (beq c_backslash c_dquote) with false.
  change (beq c_backslash c_backslash) with true. cbv iota. destruct val as [|n val]; [done|]. cbn [head].
  destruct (beq_spec n c_u) as [->|Hu]; [|destruct (beq_spec n c_x) as [->|Hx]].
  - change (escaped c_backslash false (c_u :: val)) with (c_u :: escaped c_backslash false val) in *. exact IH.
  - change (escaped c_backslash false (c_x :: val)) with (c_x :: escaped c_backslash false val) in *. exact IH.
  - by rewrite qscan_app.
Qed.

Section Fields.
Context {S : Type} (t : csv_line_tokenizer) (d : byte).
Context (add_token : S -> bytes -> nat -> option (bool * S)).
Context (lookahead : S -> bytes -> nat -> option (bool * nat * S)).
Context (canceltoken : S -> S) (str : bytes) (len : nat).
Context (Hd : delimiter t = [d]) (Hfirst : delimiter_first_character t = d) (Hsingle : delimiter_is_singlechar t = true).
Context (Hdq : double_quote t = false) (Hpq : preserve_quoting t = false).
Context (Hdquote : d <> quote_char t).
Context (Hlen : (len <= length str)%nat).

#[local] Abbreviation loop := (tokenize_loop t add_token lookahead canceltoken str len).

(** [s] is at [pos] in mode [st] with [content] in the field buffer. *)
Record at_ (s : tstate S) (pos : nat) (st : tokenizer_state) (content : bytes) (c : S) : Prop := {
  at_buf : buf s = pos;
  at_state : state s = st;
  at_len : field_buffer_len s = length content;
  at_content : take (length content) (field_buffer s) = content;
  at_fits : (length content <= length (field_buffer s))%nat;
  at_room : (0 < length (field_buffer s))%nat;
  at_cb : cb s = c
}.

Lemma delimiter_test_single pos c : str !! pos = Some c -> DELIMITER_TEST t str len pos = Some (beq c d).
Proof. intros E. unfold DELIMITER_TEST. rewrite E, Hfirst, Hsingle. by rewrite andb_true_r. Qed.

Lemma push_at s pos st content c x : at_ s pos st content c ->
  exists s', PUSH_CHAR t x s = Some s' /\ at_ s' pos st (content ++ [x]) c /\
    escape_sequence s' = beq x (escape_char t) /\
    start_field_with_delimiter_encountered s' = start_field_with_delimiter_encountered s.
Proof.
  intros [E1 E2 E3 E4 E5 E6 E7].
  destruct (push_char_bounds t (buf s) (fun _ => True) x s) as (s' & -> & (_ & B2 & B3 & _) & F1 & F2 & F3 & F4 & F5 & F6 & F7).
  { split_and!; lia || done. }
  exists s'. split_and!; try done. rewrite E3, E4 in F7. rewrite F6, E3 in *. split; try congruence.
  - rewrite length_app. cbn. lia.
  - rewrite length_app. cbn [length]. done.
  - rewrite length_app. cbn [length]. lia.
Qed.

(** Any change of position, mode and flags keeps the buffer. *)
Lemma at_change s pos st content c pos' st' s' : at_ s pos st content c -> buf s' = pos' -> state s' = st' ->
  field_buffer s' = field_buffer s -> field_buffer_len s' = field_buffer_len s -> cb s' = cb s ->
  at_ s' pos' st' content c.
Proof. intros [E1 E2 E3 E4 E5 E6 E7] F1 F2 F3 F4 F5. split; congruence. Qed.

Lemma iter_unfold s c : buf s <> len -> str !! buf s = Some c ->
  iteration t add_token lookahead canceltoken str len s =
  match match state s with
        | START_FIELD => start_field t add_token lookahead canceltoken str len c (beq c d) (set_buf (buf s + 1) s)
        | IN_FIELD => in_field t add_token c (beq c d) (set_buf (buf s + 1) s)
        | IN_QUOTED_FIELD => in_quoted_field t str len c (set_buf (buf s + 1) s)
        end with
  | Some (Next k s') => Some (Next k (if escape_sequence s then set_escape false s' else s'))
  | r => r
  end.
Proof.
  intros Hne Hc. unfold iteration. rewrite (delimiter_test_single _ c Hc). rewrite Hd. cbn [length].
  replace (if beq c d then (buf s + 1 - 1)%nat else buf s) with (buf s) by (destruct (beq c d); lia).
  rewrite Hc. change (state (set_buf (buf s + 1) s)) with (state s).
  match goal with |- match ?m with _ => _ end = _ => by destruct m as [[]|] end.
Qed.

(** The text at a position *)
Definition text (pos : nat) (cs : bytes) : Prop :=
  (pos + length cs <= len)%nat /\ take (length cs) (drop pos str) = cs.
Lemma text_cons pos x cs : text pos (x :: cs) -> (pos < len)%nat /\ str !! pos = Some x /\ text (pos + 1) cs.
Proof.
  intros [Hp Hs]. cbn [length] in *. destruct (drop pos str) as [|y rest] eqn:Ed; [done|].
  cbn [take] in Hs. injection Hs as -> Hs. split_and!; [lia| |split; [lia|]].
  - by rewrite <- (Nat.add_0_r pos), <- lookup_drop, Ed.
  - rewrite <- drop_drop, Ed. done.
Qed.
Lemma text_app pos cs ds : text pos (cs ++ ds) -> text pos cs /\ text (pos + length cs) ds.
Proof.
  revert pos. induction cs as [|x cs IH]; intros pos Ht.
  - split; [split; cbn; [destruct Ht; lia|done]|]. cbn. by rewrite Nat.add_0_r.
  - destruct (text_cons _ _ _ Ht) as (Hp & Hx & Ht'). destruct (IH _ Ht') as [[H1 H2] H3].
    cbn [length]. replace (pos + Datatypes.S (length cs))%nat with (pos + 1 + length cs)%nat by lia.
    split; [|done]. split; [cbn [length]; lia|]. cbn [length]. rewrite (drop_S _ _ _ Hx). cbn [take].
    replace (Datatypes.S pos) with (pos + 1)%nat by lia. by rewrite H2.
Qed.

(** One iteration that goes on *)
Lemma loop_next n s pos st content c x s' : at_ s pos st content c -> (pos < len)%nat -> str !! pos = Some x ->
  match st with
  | START_FIELD => start_field t add_token lookahead canceltoken str len x (beq x d) (set_buf (pos + 1) s)
  | IN_FIELD => in_field t add_token x (beq x d) (set_buf (pos + 1) s)
  | IN_QUOTED_FIELD => in_quoted_field t str len x (set_buf (pos + 1) s)
  end = Some (Next true s') ->
  loop (Datatypes.S n) s = loop n (if escape_sequence s then set_escape false s' else s').
Proof.
  intros Hat Hp Hx E. pose proof (at_buf _ _ _ _ _ Hat) as Eb. cbn [tokenize_loop].
  rewrite Eb, (proj2 (Nat.eqb_neq _ _)) by lia. rewrite (iter_unfold s x) by (rewrite Eb; (lia || done)).
  by rewrite (at_state _ _ _ _ _ Hat), Eb, E.
Qed.

Lemma at_advance s pos st content c pos' : at_ s pos st content c -> at_ (set_buf pos' s) pos' st content c.
Proof. intros Hat. eapply at_change; [exact Hat|..]; try apply Hat; done. Qed.
Lemma at_reset s pos st content c (b : bool) :
  at_ s pos st content c -> at_ (if b then set_escape false s else s) pos st content c.
Proof. intros Hat. destruct b; [|done]. eapply at_change; [exact Hat|..]; try apply Hat; done. Qed.

(** The characters of an unquoted field *)
Lemma loop_plain cs : forall n s pos content c,
  at_ s pos IN_FIELD content c -> text pos cs -> Forall (fun x => x <> d /\ x <> comment_char t) cs ->
  exists s', loop (length cs + n) s = loop n s' /\ at_ s' (pos + length cs) IN_FIELD (content ++ cs) c.
Proof.
  induction cs as [|x cs IH]; intros n s pos content c Hat Htx Hall.
  - exists s. cbn. by rewrite Nat.add_0_r, app_nil_r.
  - apply Forall_cons in Hall as [[Hxd Hxc] Hall]. destruct (text_cons _ _ _ Htx) as (Hp & Hx & Htx').
    destruct (push_at _ (pos + 1) IN_FIELD content c x (at_advance _ _ _ _ _ (pos + 1) Hat)) as (s1 & E1 & Hat1 & _).
    destruct (IH n _ (pos + 1)%nat (content ++ [x]) c (at_reset _ _ _ _ _ (escape_sequence s) Hat1) Htx' Hall)
      as (s3 & E3 & Hat3).
    exists s3. rewrite <- app_assoc in Hat3. cbn [app length Nat.add] in *.
    replace (pos + Datatypes.S (length cs))%nat with (pos + 1 + length cs)%nat by lia. split; [|done].
    rewrite <- E3. eapply loop_next; [done|lia|done|]. unfold in_field.
    destruct (beq_spec x d); [done|]. destruct (beq_spec x (comment_char t)); [done|]. by rewrite E1.
Qed.

(** The inside of a quoted field *)
Lemma loop_quoted cs : forall n s pos content c esc,
  at_ s pos IN_QUOTED_FIELD content c -> text pos cs ->
  qscan (escape_char t) (quote_char t) (escape_sequence s) cs = Some esc ->
  exists s', loop (length cs + n) s = loop n s' /\ escape_sequence s' = esc /\
    at_ s' (pos + length cs) IN_QUOTED_FIELD (content ++ cs) c.
Proof.
  induction cs as [|x cs IH]; intros n s pos content c esc Hat Htx Hq.
  - exists s. cbn in *. rewrite Nat.add_0_r, app_nil_r. by simplify_eq.
  - destruct (text_cons _ _ _ Htx) as (Hp & Hx & Htx'). cbn [qscan] in Hq.
    destruct (beq x (quote_char t) && negb (escape_sequence s)) eqn:Eq; [done|].
    destruct (push_at _ (pos + 1) _ content c x (at_advance _ _ _ _ _ (pos + 1) Hat)) as (s1 & E1 & Hat1 & He & _).
    destruct (IH n _ (pos + 1)%nat (content ++ [x]) c esc (at_reset _ _ _ _ _ (escape_sequence s) Hat1) Htx')
      as (s3 & E3 & He3 & Hat3).
    { rewrite <- Hq. f_equal. by destruct (escape_sequence s). }
    exists s3. rewrite <- app_assoc in Hat3. cbn [app length Nat.add] in *.
    replace (pos + Datatypes.S (length cs))%nat with (pos + 1 + length cs)%nat by lia. split; [|done].
    rewrite <- E3. eapply loop_next; [done|lia|done|]. unfold in_quoted_field.
    change (escape_sequence (set_buf (pos + 1) s)) with (escape_sequence s). by rewrite Eq, E1.
Qed.

(** The text of a field that is not empty *)
Definition plain_field (enc : bytes) : Prop :=
  exists x cs, enc = x :: cs /\ x ∉ [quote_char t; c_space; c_lbracket; c_lbrace] /\
    Forall (fun x => x <> d /\ x <> comment_char t) enc.
Definition quoted_field (enc : bytes) : Prop :=
  exists body, enc = quote_char t :: body ++ [quote_char t] /\
    qscan (escape_char t) (quote_char t) false body = Some false.

Lemma run_plain n s pos c enc : at_ s pos START_FIELD [] c -> text pos enc -> plain_field enc ->
  exists s', loop (length enc + n) s = loop n s' /\ at_ s' (pos + length enc) IN_FIELD enc c.
Proof.
  intros Hat Htx (x & cs & -> & Hx & [[Hxd Hxc] Hall]%Forall_cons).
  destruct (text_cons _ _ _ Htx) as (Hp & Hsx & Htx').
  destruct (push_at (set_flag false (set_buf (pos + 1) s)) (pos + 1) START_FIELD [] c x) as (s1 & E1 & Hat1 & _).
  { by eapply at_change; [exact Hat|..]; try apply Hat. }
  assert (at_ (if escape_sequence s then set_escape false (set_state IN_FIELD s1) else set_state IN_FIELD s1)
    (pos + 1) IN_FIELD [x] c) as Hat2.
  { apply at_reset. eapply at_change; [exact Hat1|..]; try apply Hat1; done. }
  destruct (loop_plain cs n _ (pos + 1)%nat [x] c Hat2 Htx' Hall) as (s3 & E3 & Hat3). exists s3. cbn [length].
  replace (pos + Datatypes.S (length cs))%nat with (pos + 1 + length cs)%nat by lia. split; [|done].
  rewrite <- E3. cbn [Nat.add]. eapply loop_next; [done|lia|done|]. unfold start_field.
  rewrite !not_elem_of_cons in Hx. destruct Hx as (Hq & Hsp & Hb1 & Hb2 & _).
  repeat match goal with |- context [beq x ?y] => destruct (beq_spec x y); [done|] end.
  cbn [andb orb]. unfold regular_character. by rewrite E1.
Qed.

Lemma run_quoted n s pos c enc : at_ s pos START_FIELD [] c -> escape_sequence s = false ->
  quote_char t <> escape_char t -> text pos enc -> quoted_field enc ->
  exists s', loop (length enc + n) s = loop n s' /\ at_ s' (pos + length enc) IN_FIELD enc c.
Proof.
  intros Hat Hes Hqe Htx (body & -> & Hq). set (q := quote_char t) in *.
  destruct (text_cons _ _ _ Htx) as (Hp & Hsx & Htx'). apply text_app in Htx' as [Htb Htq].
  destruct (push_at (BEGIN_FIELD (set_flag false (set_buf (pos + 1) s))) (pos + 1) START_FIELD [] c q)
    as (s1 & E1 & Hat1 & He1 & _).
  { destruct Hat. split; cbn; try done; lia. }
  destruct (loop_quoted body (1 + n) (set_state IN_QUOTED_FIELD s1) (pos + 1)%nat [q] c false) as (s2 & E2 & He2 & Hat2);
    [by eapply at_change; [exact Hat1|..]; try apply Hat1|done| |].
  { cbn [escape_sequence set_state]. rewrite He1. by destruct (beq_spec q (escape_char t)). }
  destruct (text_cons _ _ _ Htq) as (Hp2 & Hsq & _).
  destruct (push_at _ (pos + 1 + length body + 1) _ _ c q (at_advance _ _ _ _ _ (pos + 1 + length body + 1) Hat2))
    as (s3 & E3 & Hat3 & _).
  exists (set_state IN_FIELD s3). cbn [length]. rewrite length_app. cbn [length].
  replace (pos + Datatypes.S (length body + 1))%nat with (pos + 1 + length body + 1)%nat by lia.
  replace (q :: body ++ [q]) with (([q] ++ body) ++ [q]) by done. split.
  - transitivity (loop (length body + (1 + n)) (set_state IN_QUOTED_FIELD s1)).
    + replace (Datatypes.S (length body + 1) + n)%nat with (Datatypes.S (length body + (1 + n))) by lia.
      rewrite (loop_next _ s pos START_FIELD [] c q (set_state IN_QUOTED_FIELD s1)); try done; [by rewrite Hes|].
      unfold start_field. destruct (beq_spec q (quote_char t)); [|done]. by rewrite E1, Hpq.
    + rewrite E2. cbn [Nat.add]. rewrite (loop_next _ s2 _ IN_QUOTED_FIELD _ c q (set_state IN_FIELD s3) Hat2); try done.
      * by rewrite He2.
      * unfold in_quoted_field. change (escape_sequence (set_buf _ s2)) with (escape_sequence s2).
        rewrite He2, Hdq. destruct (beq_spec q (quote_char t)); [|done]. cbn [andb negb]. by rewrite E3.
  - eapply at_change; [exact Hat3|..]; try apply Hat3; done.
Qed.

Context (Hdspace : d <> c_space) (Hqe : quote_char t <> escape_char t).

Definition field_text (enc : bytes) : Prop := enc = [] \/ plain_field enc \/ quoted_field enc.
(** The callback takes the token [enc] from [c] to [c']. *)
Definition takes (enc : bytes) (c c' : S) : Prop :=
  forall fb, (length enc <= length fb)%nat -> take (length enc) fb = enc ->
    add_token c fb (length enc) = Some (true, c').

(** At the beginning of a field *)
Definition at_start (s : tstate S) (pos : nat) (c : S) : Prop :=
  at_ s pos START_FIELD [] c /\ escape_sequence s = false.

Lemma run_field n s pos c enc : at_start s pos c -> text pos enc -> plain_field enc \/ quoted_field enc ->
  exists s', loop (length enc + n) s = loop n s' /\ at_ s' (pos + length enc) IN_FIELD enc c.
Proof. intros [Hat He] Ht [H|H]; [by apply run_plain|by apply run_quoted]. Qed.

Lemma end_field_at s pos st enc c c' : at_ s pos st enc c -> takes enc c c' ->
  exists s', END_FIELD add_token s = Some (true, s') /\ at_ s' pos st [] c' /\
    escape_sequence s' = escape_sequence s /\
    start_field_with_delimiter_encountered s' = start_field_with_delimiter_encountered s.
Proof.
  intros [E1 E2 E3 E4 E5 E6 E7] Hta. unfold END_FIELD. rewrite E7, E3, (Hta (field_buffer s)) by done.
  eexists. split; [done|]. split_and!; try done. split; cbn; try done. lia.
Qed.

Lemma field_delim n s pos c c' enc : at_start s pos c -> text pos (enc ++ [d]) -> field_text enc -> takes enc c c' ->
  exists s', loop (length enc + 1 + n) s = loop n s' /\ at_start s' (pos + length enc + 1) c' /\
    start_field_with_delimiter_encountered s' = true.
Proof.
  intros Hst [Hte Htd]%text_app Hf Hta. destruct (text_cons _ _ _ Htd) as (Hp & Hx & _).
  assert (beq d d = true) as Hdd by (by destruct (beq_spec d d)).
  destruct Hf as [->|Hf].
  - cbn [length Nat.add] in *. rewrite Nat.add_0_r in *. destruct Hst as [Hat Hes].
    destruct (end_field_at (BEGIN_FIELD (set_flag true (set_buf (pos + 1) s))) (pos + 1) START_FIELD [] c c')
      as (s1 & E1 & Hat1 & He1 & Hf1); [|done|].
    { eapply at_change; [exact Hat|..]; try apply Hat; try done. cbn. symmetry. apply Hat. }
    exists s1. split_and!; [|split; [done|cbn in He1; congruence]|done].
    rewrite (loop_next n s pos START_FIELD [] c d s1 Hat); [by rewrite Hes|lia|done|].
    unfold start_field. destruct (beq_spec d (quote_char t)); [done|]. destruct (beq_spec d c_space); [done|].
    cbn [andb]. by rewrite Hdd, E1.
  - destruct (run_field (1 + n) s pos c enc Hst Hte Hf) as (s1 & E1 & Hat1). rewrite <- Nat.add_assoc, E1.
    destruct (end_field_at _ (pos + length enc + 1) IN_FIELD enc c c' (at_advance _ _ _ _ _ _ Hat1) Hta)
      as (s2 & E2 & Hat2 & He2 & _).
    set (s3 := set_state START_FIELD (set_flag true s2)).
    exists (if escape_sequence s1 then set_escape false s3 else s3). split_and!.
    + apply (loop_next n s1 _ IN_FIELD enc c d s3 Hat1); [lia|done|].
      unfold in_field. by rewrite Hdd, E2.
    + split; [|destruct (escape_sequence s1) eqn:E; [done|cbn; by rewrite He2]].
      apply at_reset. eapply at_change; [exact Hat2|..]; try apply Hat2; done.
    + by destruct (escape_sequence s1).
Qed.

Lemma field_end s pos c c' enc : at_start s pos c -> text pos enc -> (pos + length enc = len)%nat ->
  field_text enc -> (enc <> [] \/ start_field_with_delimiter_encountered s = true) -> takes enc c c' ->
  exists s', loop (length enc) s = Some (true, s') /\ cb s' = c'.
Proof.
  intros Hst Hte Hend [->|Hf] Hne Hta.
  - destruct Hne as [?|Hflag]; [done|]. destruct Hst as [[E1 E2 E3 E4 E5 E6 E7] _].
    cbn [length Nat.add tokenize_loop] in *. rewrite E1, (proj2 (Nat.eqb_eq _ _)) by lia.
    unfold cleanup. rewrite E2, Hflag, E7. pose proof (Hta [] ltac:(done) ltac:(done)) as Ht0. cbn [length] in Ht0.
    rewrite Ht0. by eexists.
  - destruct (run_field 0 s pos c enc Hst Hte Hf) as (s1 & E & [E1 E2 E3 E4 E5 E6 E7]).
    rewrite Nat.add_0_r in E. rewrite E. cbn [tokenize_loop]. rewrite E1, (proj2 (Nat.eqb_eq _ _)) by lia.
    unfold cleanup. rewrite E2, E7, E3. rewrite Hta by done. by eexists.
Qed.

(** The callback takes a row of tokens. *)
Inductive takes_all : list bytes -> S -> S -> Prop :=
| takes_nil c : takes_all [] c c
| takes_cons enc encs c c1 c' : takes enc c c1 -> takes_all encs c1 c' -> takes_all (enc :: encs) c c'.

Fixpoint row_text (encs : list bytes) : bytes :=
  match encs with
  | [] => []
  | enc :: encs => enc ++ (match encs with [] => [] | _ => [d] end) ++ row_text encs
  end.

Lemma run_row encs : forall s pos c c', encs <> [] -> at_start s pos c -> text pos (row_text encs) ->
  (pos + length (row_text encs) = len)%nat -> Forall field_text encs ->
  (encs <> [[]] \/ start_field_with_delimiter_encountered s = true) -> takes_all encs c c' ->
  exists s', loop (length (row_text encs)) s = Some (true, s') /\ cb s' = c'.
Proof.
  induction encs as [|enc encs IH]; intros s pos c c' Hn Hst Htx Hend Hall Hne Hta; [done|].
  inversion Hta as [|? ? ? c1 ? H1 H2]; subst. apply Forall_cons in Hall as [Hf Hall].
  destruct encs as [|e2 encs].
  - inversion H2; subst. cbn [row_text] in *. rewrite !app_nil_r in *. eapply field_end; try done.
    destruct Hne as [?|?]; [left; congruence|by right].
  - change (row_text (enc :: e2 :: encs)) with (enc ++ [d] ++ row_text (e2 :: encs)) in *.
    set (tl := row_text (e2 :: encs)) in *. rewrite app_assoc in Htx.
    destruct (text_app _ _ _ Htx) as [Htx1 Htx2].
    assert (length (enc ++ [d]) = length enc + 1)%nat as El1 by (by rewrite length_app).
    assert (length (enc ++ [d] ++ tl) = length enc + 1 + length tl)%nat as El
      by (rewrite !length_app; cbn [length]; lia).
    rewrite El in *. rewrite El1 in Htx2.
    destruct (field_delim (length tl) s pos c c1 enc Hst Htx1 Hf H1) as (s1 & E1 & Hst1 & Hf1).
    destruct (IH s1 (pos + length enc + 1)%nat c1 c') as (s' & E' & Hcb); try done.
    + by rewrite <- Nat.add_assoc.
    + fold tl. lia.
    + by right.
    + exists s'. split; [|done]. by rewrite E1.
Qed.

(** More fuel than is needed changes nothing. *)
Lemma loop_more m n : forall s r, loop n s = Some r -> loop (n + m) s = Some r.
Proof.
  induction n as [|n IH]; intros s r; cbn [tokenize_loop Nat.add].
  - destruct m; cbn [tokenize_loop]; by destruct (_ =? _)%nat.
  - destruct (_ =? _)%nat; [done|]. destruct (iteration _ _ _ _ _ _ s) as [[[] s1|s1|s1]|]; auto.
Qed.

Lemma tokenize_row more encs fb c c' : delimiter_is_new_line t = false -> (0 < length fb)%nat -> encs <> [] ->
  str = row_text encs ++ drop len str -> length (row_text encs) = len -> Forall field_text encs ->
  encs <> [[]] -> takes_all encs c c' ->
  exists s', tokenize_line_impl t add_token lookahead canceltoken str len (len + more) fb c = Some (true, s') /\
    cb s' = c'.
Proof.
  intros Hnl Hfb Hn Hs Hl Hall Hne Hta. unfold tokenize_line_impl. rewrite Hnl.
  destruct (run_row encs (mk_tstate 0 START_FIELD false false fb 0 c) 0 c c') as (s' & E & Hcb); try done.
  - split; [|done]. split; cbn; try done; lia.
  - split; [lia|]. rewrite drop_0, Hs. by rewrite take_app_length.
  - by left.
  - rewrite Hl in E. exists s'. split; [by apply loop_more|done].
Qed.
End Fields.

(** ** Rows written and read back *)

(** A tokenizer and a writer that agree: backslash escapes, double quotes, a
    one-character delimiter, no missing-value strings *)
Record agree (t : csv_line_tokenizer) (w : csv_writer) (d : byte) : Prop := {
  ag_delimiter : delimiter t = [d] /\ w_delimiter w = [d];
  ag_escape : escape_char t = c_backslash /\ w_escape_char w = c_backslash;
  ag_quote : quote_char t = c_dquote /\ w_quote_char w = c_dquote /\ w_use_quote_char w = true;
  ag_double : double_quote t = false /\ w_double_quote w = false;
  ag_preserve : preserve_quoting t = false;
  ag_na : na_values t = [];
  ag_char : d ∉ [c_dquote; c_space; c_nl; c_cr]
}.

(** The column that reads the value [v] back: a string without NUL from a
    string column, a number from a column of its type if its digits parse, a
    missing value from any other column *)
Definition cell_ok (t : csv_line_tokenizer) (p : flexible_type_parser) (to_string : flexible_type -> bytes)
    (d : byte) (v column : flexible_type) : Prop :=
  match v with
  | FString s => is_string column = true /\ c_nul ∉ s
  | FInt _ => get_type column = INTEGER /\ plain_field t d (to_string v) /\
              exists adv, int_parse p (to_string v) = (v, true, adv)
  | FFloat _ => get_type column = FLOAT /\ plain_field t d (to_string v) /\
                exists adv, double_parse p (to_string v) = (v, true, adv)
  | FUndefined => is_string column = false
  | _ => False
  end.

(** The characters of one cell *)
Definition cell_text (to_string : flexible_type -> bytes) (v : flexible_type) : bytes :=
  match v with
  | FString s => c_dquote :: escaped c_backslash false s ++ [c_dquote]
  | FUndefined => []
  | _ => to_string v
  end.

Section RoundTrip.
Context (t0 t : csv_line_tokenizer) (w : csv_writer) (d : byte) (p : flexible_type_parser).
Context (to_string : flexible_type -> bytes) (Hi : init t0 = Some t) (Hag : agree t w d).

Lemma print_cell v column b : cell_ok t p to_string d v column ->
  exists b', csv_print w to_string v b = Some (cell_text to_string v, b').
Proof.
  destruct Hag as [[_ _] [_ He] (_ & Hq & Hu) [_ Hd] _ _ _].
  intros Hc. destruct v; try done; cbn [csv_print cell_text]; try (by eexists).
  rewrite He, Hq, Hu, Hd. destruct (escape_string_spec s c_backslash c_dquote true false b) as (b' & n & -> & -> & _).
  by exists b'.
Qed.

Lemma write_row row columns : Forall2 (cell_ok t p to_string d) row columns -> forall b,
  exists b', write_cells w to_string row b = Some (row_text d (map (cell_text to_string) row), b').
Proof.
  induction 1 as [|v col row columns Hv Hrow IH]; intros b; [by exists b|]. cbn [write_cells map row_text].
  destruct (print_cell v col b Hv) as (b1 & ->). destruct (IH b1) as (b2 & ->). exists b2.
  rewrite (proj2 (ag_delimiter _ _ _ Hag)). by destruct row.
Qed.

Lemma cell_field v column : cell_ok t p to_string d v column -> field_text t d (cell_text to_string v).
Proof.
  intros Hc. destruct Hag as [_ [He _] (Hq & _) _ _ _ _]. destruct v; try done; cbn [cell_text].
  - right; left. apply Hc.
  - right; left. apply Hc.
  - right; right. exists (escaped c_backslash false s). rewrite Hq, He. split; [done|]. apply escaped_scan.
  - by left.
Qed.

Lemma rtrim_last b n c : b !! n = Some c -> c <> c_space -> rtrim b (S n) = Some (S n).
Proof. intros E Hc. cbn [rtrim]. rewrite E. by destruct (beq_spec c c_space). Qed.

(** The quotes go and the escapes are undone. *)
Lemma parse_quoted b s : let enc := c_dquote :: escaped c_backslash false s ++ [c_dquote] in
  c_nul ∉ s -> take (length enc) b = enc ->
  exists n, length enc = S (S n) /\ rtrim b (length enc) = Some (length enc) /\
    parse_string t b (length enc) = Some (FString s).
Proof.
  intros enc Hn Hb. set (body := escaped c_backslash false s) in *.
  assert (length enc = S (S (length body))) as El by (unfold enc; cbn [length]; rewrite length_app; cbn; lia).
  assert (forall i, (i < length enc)%nat -> b !! i = enc !! i) as Hlk.
  { intros i Hlt. rewrite <- Hb. by rewrite lookup_take_lt. }
  assert (b !! S (length body) = Some c_dquote) as Hlast.
  { rewrite Hlk by lia. change ((body ++ [c_dquote]) !! length body = Some c_dquote). by apply list_lookup_middle. }
  assert (b !! 0%nat = Some c_dquote) as Hfst by (by rewrite Hlk by lia).
  exists (length body). split; [done|]. split; [rewrite El; by eapply rtrim_last|].
  unfold parse_string. rewrite El. cbn [Nat.leb]. replace (S (S (length body)) - 1)%nat with (S (length body)) by lia.
  rewrite Hlast, Hfst. cbn [andb]. change (beq c_dquote c_dquote) with true. cbn [andb].
  replace (S (S (length body)) - 2)%nat with (length body) by lia.
  assert (take (length body) (drop 1 b) = body) as ->.
  { rewrite take_drop_commute. replace (1 + length body)%nat with (S (length body)) by lia.
    replace (take (S (length body)) b) with (take (S (length body)) enc).
    - unfold enc. cbn. by rewrite take_app_length.
    - rewrite <- Hb, take_take. f_equal. lia. }
  destruct Hag as [_ [He _] _ _ _ _ _]. rewrite He, unescape_string_spec.
  unfold body. by rewrite unescaped_escaped by auto.
Qed.

Lemma cell_takes v column ctr output : cell_ok t p to_string d v column -> output !! ctr = Some column ->
  takes (typed_add_token t p true) (cell_text to_string v) (ctr, output) (S ctr, <[ctr := v]> output).
Proof.
  intros Hc Ho fb Hl Hfb. unfold typed_add_token. rewrite Ho. pose proof (ag_na _ _ _ Hag) as Hna.
  destruct v as [i|x|s| | | | | |]; try done; cbn [cell_ok cell_text] in *.
  1, 2: destruct Hc as (Hty & (y & cs & Ety & _) & [adv Hp]);
    rewrite (proj2 (Nat.eqb_neq (length (to_string _)) 0)) by (by rewrite Ety);
    cbn [andb]; unfold parse_as; rewrite Hty, Hfb, Hp; cbv zeta; by rewrite process_missing_none.
  - destruct Hc as (Hty & Hn). rewrite Hty, andb_false_r.
    destruct (parse_quoted fb s Hn Hfb) as (n & _ & Hr & Hps). unfold parse_as.
    unfold is_string in Hty. destruct (get_type column); try done.
    rewrite Hr, Hps. by rewrite process_missing_none.
  - cbn [length]. by rewrite Hc.
Qed.

Lemma row_takes row columns : Forall2 (cell_ok t p to_string d) row columns -> forall done rest,
  takes_all (typed_add_token t p true) (map (cell_text to_string) row)
    (length done, done ++ columns ++ rest) (length (done ++ row), done ++ row ++ rest).
Proof.
  induction 1 as [|v col row columns Hv _ IH]; intros done rest; cbn [map].
  - rewrite app_nil_r. constructor.
  - econstructor; [by apply (cell_takes v col); [|apply list_lookup_middle]|].
    specialize (IH (done ++ [v]) rest). rewrite <- !app_assoc in IH. cbn [app] in IH.
    rewrite length_app in IH. cbn [length] in IH. rewrite Nat.add_1_r in IH.
    cbn [app]. rewrite insert_app_r_alt, Nat.sub_diag by lia. cbn. exact IH.
Qed.

Lemma row_text_ne row columns : Forall2 (cell_ok t p to_string d) row columns -> row <> [FUndefined] ->
  map (cell_text to_string) row <> [[]].
Proof.
  intros H Hr. destruct H as [|v col row columns Hv Hrow]; [done|]. cbn [map]. intros E.
  injection E as E1 E2. destruct row; [|done]. destruct v; try done; cbn in *;
    destruct Hv as (_ & (y & cs & Ety & _) & _); congruence.
Qed.
End RoundTrip.

(** C6. A row written by the CSV writer is read back by the tokenizer.  The writer
    and the tokenizer have the same delimiter, of one character that is not a
    double quote, space, line feed or carriage return; both escape with
    a backslash and quote with double quotes, the writer always quoting, without
    quote doubling; the tokenizer does not preserve quoting, has no
    missing-value strings and permits UNDEFINED values, and its field buffer is
    not empty at first.  Then
    strings in string columns (with any quotes, delimiters, escapes and line
    breaks in them, but no NUL), integers and doubles in columns of their type,
    and missing values in columns that are not of type string all come back as
    they were, where the printed form of a number is not empty, does not begin
    with a quote, space, bracket or brace, has neither the delimiter nor the comment
    character in it, and is parsed to the number by the number parser.  The
    exceptions are the empty row and the row that consists of a single missing
    value, which are empty lines. *)
Theorem csv_roundtrip t0 t w d p to_string row columns b fb :
  init t0 = Some t -> agree t w d -> Forall2 (cell_ok t p to_string d) row columns ->
  row <> [] -> row <> [FUndefined] -> (0 < length fb)%nat ->
  exists line b' fb', write w to_string row b = Some (line ++ [c_nl], b') /\
    tokenize_line t p true (line ++ [c_nl]) (length line) fb columns = Some (length row, row, fb').
Proof.
  intros Hi Hag Hrow Hne Hnu Hfb. destruct (write_row t w d p to_string Hag row columns Hrow b) as (b' & Ew).
  set (line := row_text d (map (cell_text to_string) row)) in *.
  exists line, b'. unfold write. rewrite Ew. unfold tokenize_line.
  pose proof Hag as [[Hd _] [He _] (Hq & _) [Hdq _] Hpq Hna Hch]. rewrite !not_elem_of_cons in Hch.
  destruct Hch as (H1 & H2 & H3 & H4 & _).
  assert (initialised t) as (_ & Hfirst & Hsing) by (by eapply init_initialised). rewrite Hd in Hfirst, Hsing.
  assert (delimiter_is_new_line t = false) as Hnl.
  { revert Hi Hd. unfold init. destruct (delimiter t0) as [|c ds] eqn:E; [done|]. intros [= <-]. cbn. rewrite <- E.
    intros Ed. rewrite !bool_decide_eq_false_2 by congruence. done. }
  destruct (tokenize_row t d (typed_add_token t p true) (typed_lookahead t p) (fun s => (pred s.1, s.2))
    (line ++ [c_nl]) (length line) Hd Hfirst Hsing Hdq Hpq ltac:(congruence) ltac:(rewrite length_app; cbn; lia)
    H2 ltac:(rewrite Hq, He; done) (length columns)
    (map (cell_text to_string) row) fb (0%nat, columns) (length row, row)) as (s & -> & Ecb); try done.
  - by destruct row.
  - rewrite drop_app_length. done.
  - apply Forall_map, Forall_forall. intros v Hv. apply list_elem_of_lookup in Hv as [i Hv].
    destruct (Forall2_lookup_l _ _ _ _ _ Hrow Hv) as (col & _ & Hc). by eapply cell_field.
  - by eapply row_text_ne.
  - pose proof (row_takes t w d p to_string Hag row columns Hrow [] []) as Ht. by rewrite !app_nil_r in Ht.
  - eexists. split; [done|]. by rewrite Ecb.
Qed.

(** A parser of one digit, a tokenizer and a row for it *)
Definition test_parser : flexible_type_parser :=
  let none (b : bytes) := (FUndefined, false, 0%nat) in
  {| int_parse := fun b => if beq (hd c_nul b) Byte.x35 then (FInt 5, true, 1%nat) else (FUndefined, false, 0%nat);
     double_parse := none; vector_parse := none; dict_parse := none; recursive_parse := none;
     general_flexible_type_parse := fun b => (FUndefined, true, Nat.min 3 (length b)) |}.
Lemma test_parser_ok : parser_ok test_parser.
Proof.
  assert (stays_within (fun b => (FUndefined, false, 0%nat))) as Hnone by (intros b v ok adv [= <- <- <-]; lia).
  split_and!; try exact Hnone.
  - intros b v ok adv. cbn. destruct (beq_spec (hd c_nul b) Byte.x35) as [E|]; intros [= <- <- <-]; [|lia].
    destruct b; [done|]. cbn. lia.
  - intros b v ok adv E. assert (adv = Nat.min 3 (length b)) as -> by (exact (eq_sym (f_equal snd E))). lia.
Qed.
Definition set_delimiter (d : bytes) (t : csv_line_tokenizer) : csv_line_tokenizer :=
  {| preserve_quoting := preserve_quoting t; escape_char := escape_char t;
     skip_initial_space := skip_initial_space t; delimiter := d; comment_char := comment_char t;
     double_quote := double_quote t; quote_char := quote_char t; na_values := na_values t;
     delimiter_is_new_line := false; delimiter_is_space := false;
     delimiter_first_character := c_nul; delimiter_is_singlechar := false |}.
Definition test_tokenizer (d : bytes) : csv_line_tokenizer :=
  default csv_line_tokenizer_new (init (set_delimiter d csv_line_tokenizer_new)).
Definition test_row : list flexible_type :=
  [FString [Byte.x61; c_comma; c_dquote; c_backslash; c_nl]; FInt 5; FUndefined].

Lemma tokenize_line_total_witness :
  exists n output' fb', tokenize_line (test_tokenizer [c_comma]) test_parser true
    [c_lbracket; c_space; c_dquote; c_comma; c_nl] 4 field_buffer_new [FString []; FInt 0] = Some (n, output', fb') /\
    length output' = 2%nat /\ (n <= 2)%nat.
Proof.
  apply (tokenize_line_total (set_delimiter [c_comma] csv_line_tokenizer_new) (test_tokenizer [c_comma]) test_parser true
    [c_lbracket; c_space; c_dquote; c_comma; c_nl] 4 c_nl field_buffer_new [FString []; FInt 0]);
    [reflexivity|reflexivity|apply test_parser_ok|reflexivity|discriminate|cbn; lia].
Defined.

Lemma csv_roundtrip_witness :
  exists line b' fb', write csv_writer_new (fun _ => [Byte.x35]) test_row [] = Some (line ++ [c_nl], b') /\
    tokenize_line (test_tokenizer [c_comma]) test_parser true (line ++ [c_nl]) (length line) field_buffer_new
      [FString []; FInt 0; FInt 0] = Some (3%nat, test_row, fb').
Proof.
  apply (csv_roundtrip (set_delimiter [c_comma] csv_line_tokenizer_new) (test_tokenizer [c_comma]) csv_writer_new c_comma
    test_parser (fun _ => [Byte.x35]) test_row [FString []; FInt 0; FInt 0] [] field_buffer_new);
    [reflexivity| | |discriminate|discriminate|cbn; lia].
  - split; try done. apply (bool_decide_eq_true_1 (c_comma ∉ [c_dquote; c_space; c_nl; c_cr])). reflexivity.
  - unfold test_row. constructor; [|constructor; [|constructor; [|constructor]]]; cbn [cell_ok].
    + split; [reflexivity|]. apply (bool_decide_eq_true_1 (c_nul ∉ [Byte.x61; c_comma; c_dquote; c_backslash; c_nl])). reflexivity.
    + split; [reflexivity|]. split; [|by exists 1%nat]. exists Byte.x35, []. split; [reflexivity|].
      split; [apply (bool_decide_eq_true_1 (Byte.x35 ∉ [c_dquote; c_space; c_lbracket; c_lbrace])); reflexivity|].
      constructor; [|constructor]. split; discriminate.
    + reflexivity.
Defined.

(** With a delimiter of more than one character the tokenizer corrupts quoted
    fields: it skips to the last character of every delimiter, inside quotes
    too, so that a string that contains the delimiter is read back without its
    first character. *)
Theorem csv_long_delimiter_lost p to_string :
  let w := {| w_delimiter := [c_colon; c_colon]; w_escape_char := c_backslash; w_double_quote := false;
              w_quote_char := c_dquote; w_use_quote_char := true |} in
  let s := [Byte.x61; c_colon; c_colon; Byte.x62] in
  exists line b' fb', write w to_string [FString s] [] = Some (line ++ [c_nl], b') /\
    tokenize_line (test_tokenizer [c_colon; c_colon]) p true (line ++ [c_nl]) (length line) field_buffer_new [FString []] =
      Some (1%nat, [FString [Byte.x61; c_colon; Byte.x62]], fb').
Proof.
  intros w s. exists ([c_dquote] ++ s ++ [c_dquote]). do 2 eexists. split; vm_compute; reflexivity.
Qed.

(** In the interface that collects strings a token that starts with a bracket
    is reported twice when more text follows the bracketed value: the token of
    the lookahead is not taken back. *)
Theorem csv_cancelled_token_kept p v ok :
  let line := [c_lbracket; Byte.x31; c_rbracket; Byte.x78] in
  general_flexible_type_parse p line = (v, ok, 3%nat) ->
  option_map (fun r => (r.1, cb r.2))
    (tokenize_line_strings (test_tokenizer [c_comma]) p (line ++ [c_nl]) 4 field_buffer_new) =
  Some (true, [[c_lbracket; Byte.x31; c_rbracket]; line]).
Proof.
  intros line Hp. unfold tokenize_line_strings.
  match goal with |- context [tokenize_line_impl ?t0 ?add ?lk ?cn] => set (t := t0); set (look := lk); set (add_ := add) end.
  set (str := line ++ [c_nl]). set (tok := [c_lbracket; Byte.x31; c_rbracket]).
  assert (look [] (drop 0 str) (4 - 0)%nat = Some (true, 3%nat, [tok])) as E.
  { unfold look, bracketed. change (take (4 - 0) (drop 0 str)) with line. by rewrite Hp. }
  clearbody look. unfold tokenize_line_impl. change (delimiter_is_new_line t) with false. cbv iota.
  set (s1 := mk_tstate 1 IN_FIELD false false (<[0%nat := c_lbracket]> field_buffer_new) 1 [tok]).
  assert (iteration t add_ look (fun output => output) str 4 (mk_tstate 0 START_FIELD false false field_buffer_new 0 []) =
    Some (Next true s1)) as E1.
  { unfold iteration. cbn [buf escape_sequence]. change (DELIMITER_TEST t str 4 0) with (Some false). cbv iota.
    change (str !! 0%nat) with (Some c_lbracket). cbv iota. cbn [state set_buf Nat.add]. unfold start_field.
    change (beq c_lbracket (quote_char t)) with false. change (beq c_lbracket (comment_char t)) with false.
    change (beq c_lbracket c_space && skip_initial_space t) with false.
    change (beq c_lbracket c_lbracket || beq c_lbracket c_lbrace) with true. cbv iota.
    unfold bracket_field, set_flag, set_buf. cbv beta zeta.
    cbn [cb buf state start_field_with_delimiter_encountered escape_sequence field_buffer field_buffer_len].
    change (1 - 1)%nat with 0%nat. rewrite E.
    vm_compute. reflexivity. }
  cbn [tokenize_loop buf Nat.eqb]. rewrite E1. vm_compute. reflexivity.
Qed.
