(* ===== verification/SFrame.v ===== *)
(** SFrames: the model of [sframe/sframe.hpp] and [.cpp], and of the segment
    layouts of [sframe/sframe_reader.cpp] and [sframe/sarray_reader.hpp].

    A column is an [sarray]: its segments, each a list of values, and its type.  A
    frame that is open for reading is the record [sframe] and one that is open
    for writing the record [writer]; [inited] and [writing] tell the two apart in
    the code.  A frame shares its columns with the frames made from it; a column
    never changes once it is closed, so that sharing is not observable.  The
    files behind a frame, its index file and its metadata are not modelled. *)
From Stdlib Require Import ZArith Lia List Bool.
From stdpp Require Import prelude strings pretty.
From S2P Require Import Prelude.
From S2P Require Import Archive.
From S2P Require Import FlexibleType.
From S2P Require Import FlexibleOps.

Abbreviation row := (list flexible_type).

Module SFrame.

(** ** Columns *)

Record sarray := mk_sarray { segments : list (list flexible_type); sa_type : flex_type_enum }.
Definition sa_values (a : sarray) : list flexible_type := concat (segments a).
Definition segment_sizes (a : sarray) : list nat := map length (segments a).
Definition sa_size (a : sarray) : nat := sum_list (segment_sizes a).
(** [sarray::append]: the segments of the other column follow, and the type is
    the one of the first *)
Definition sa_append (a other : sarray) : sarray :=
  mk_sarray (segments a ++ segments other) (sa_type a).

(** ** Frames open for reading *)

Record sframe := mk_sframe { columns : list sarray; column_names : list string; nrows : nat }.
(** The default constructor, and the state [reset] leaves *)
Definition empty_frame : sframe := mk_sframe [] [] 0.

Definition num_columns (sf : sframe) : nat := length (columns sf).
Definition num_rows (sf : sframe) : nat := nrows sf.
Definition column_name (sf : sframe) (i : nat) : outcome string :=
  match column_names sf !! i with Some n => Ok n | None => Throws end.
Definition column_type (sf : sframe) (i : nat) : outcome flex_type_enum :=
  match columns sf !! i with Some c => Ok (sa_type c) | None => Throws end.
Definition column_types (sf : sframe) : list flex_type_enum := map sa_type (columns sf).
Definition contains (names : list string) (n : string) : bool := existsb (String.eqb n) names.
Definition contains_column (sf : sframe) (n : string) : bool := contains (column_names sf) n.
Fixpoint find_name (names : list string) (n : string) : option nat :=
  match names with
  | [] => None
  | m :: names => if String.eqb m n then Some O else option_map S (find_name names n)
  end.
Definition column_index (sf : sframe) (n : string) : outcome nat :=
  match find_name (column_names sf) n with Some i => Ok i | None => Throws end.
Definition num_segments (sf : sframe) : nat :=
  match columns sf with [] => 0 | c :: _ => length (segments c) end.
Definition segment_length (sf : sframe) (i : nat) : outcome nat :=
  match columns sf with [] => Ok 0%nat | c :: _ => of_option (segment_sizes c !! i) end.

(** [generate_valid_column_name]: the loop over [number]; a fuel of one more than
    the number of names is enough, since one of that many names is free *)
Fixpoint free_name (fuel : nat) (names : list string) (name : string) (number : nat) : option string :=
  match fuel with
  | O => None
  | S fuel =>
      let non_conflict_name := (name +:+ pretty number)%string in
      if contains names non_conflict_name then free_name fuel names name (S number)
      else Some non_conflict_name
  end.
Definition generate_valid_column_name (names : list string) (column_name : string) : option string :=
  let name := if String.eqb column_name "" then ("X" +:+ pretty (length names + 1)%nat)%string
              else column_name in
  if contains names name then free_name (S (length names)) names (name +:+ ".") 1 else Some name.

(** [std::set(names).size() == names.size()] *)
Fixpoint all_unique (names : list string) : bool :=
  match names with [] => true | n :: names => negb (contains names n) && all_unique names end.

(** The loop that fills up the column names of [k] columns; [names] are the ones
    given so far *)
Fixpoint read_names (k : nat) (given names : list string) : option (list string) :=
  match k with
  | O => Some names
  | S k =>
      n ← generate_valid_column_name names (default "" (head given));
      read_names k (tail given) (names ++ [n])
  end.

(** [create_arrays_for_reading] from columns, as called by the constructor *)
Definition create_arrays_for_reading (new_columns : list sarray) (given : list string)
    (fail_on_column_names : bool) : outcome sframe :=
  match new_columns with
  | [] => Ok empty_frame
  | c :: _ =>
      _ <-? assert (forallb (fun d => (sa_size d =? sa_size c)%nat) new_columns);
      _ <-? assert (negb fail_on_column_names || all_unique given);
      names <-? of_option (read_names (length new_columns) given []);
      Ok (mk_sframe new_columns names (sa_size c))
  end.

Definition select_column (sf : sframe) (column_id : nat) : outcome sarray :=
  match columns sf !! column_id with Some c => Ok c | None => Throws end.
Definition select_columns (sf : sframe) (names : list string) : outcome sframe :=
  cols <-? otraverse (fun n => i <-? column_index sf n; of_option (columns sf !! i)) names;
  create_arrays_for_reading cols names true.

Definition add_column (sf : sframe) (sarr : sarray) (name : string) : outcome sframe :=
  if (num_columns sf =? 0)%nat then create_arrays_for_reading [sarr] [name] true
  else
    _ <-? assert (num_rows sf =? sa_size sarr)%nat;
    _ <-? assert (negb (contains_column sf name));
    tmp <-? of_option (generate_valid_column_name (column_names sf) name);
    create_arrays_for_reading (columns sf ++ [sarr]) (column_names sf ++ [tmp]) true.

Definition set_column_name (sf : sframe) (i : nat) (name : string) : outcome sframe :=
  _ <-? assert (i <? num_columns sf)%nat;
  Ok (mk_sframe (columns sf) (<[i := name]> (column_names sf)) (nrows sf)).
Definition remove_column (sf : sframe) (i : nat) : outcome sframe :=
  _ <-? assert (i <? num_columns sf)%nat;
  create_arrays_for_reading (delete i (columns sf)) (delete i (column_names sf)) true.

(** [std::swap(v[i], v[j])] *)
Definition swap_at {A} (i j : nat) (l : list A) : outcome (list A) :=
  match l !! i, l !! j with Some x, Some y => Ok (<[j := x]> (<[i := y]> l)) | _, _ => Undef end.
Definition swap_columns (sf : sframe) (column_1 column_2 : nat) : outcome sframe :=
  _ <-? assert (column_1 <? num_columns sf)%nat;
  _ <-? assert (column_2 <? num_columns sf)%nat;
  cols <-? swap_at column_1 column_2 (columns sf);
  names <-? swap_at column_1 column_2 (column_names sf);
  create_arrays_for_reading cols names true.

(** [while (contains_column(tmp)) tmp += "__"] *)
Fixpoint tmp_name (fuel : nat) (names : list string) (tmp : string) : option string :=
  if contains names tmp then
    match fuel with O => None | S fuel => tmp_name fuel names (tmp +:+ "__") end
  else Some tmp.
Definition replace_column (sf : sframe) (sarr : sarray) (name : string) : outcome sframe :=
  _ <-? assert (contains_column sf name);
  tmp <-? of_option (tmp_name (length (column_names sf)) (column_names sf) ("__" +:+ name +:+ "__"));
  newsf <-? add_column sf sarr tmp;
  oldidx <-? column_index newsf name;
  newidx <-? column_index newsf tmp;
  newsf <-? swap_columns newsf oldidx newidx;
  newsf <-? remove_column newsf newidx;
  set_column_name newsf oldidx name.

(** [append]: the two frames are inited; an empty one has no columns *)
Definition append (sf other : sframe) : outcome sframe :=
  _ <-? assert (length (column_names sf) =? length (column_names other))%nat;
  _ <-? assert (bool_decide (column_names sf = column_names other));
  _ <-? assert (bool_decide (column_types sf = column_types other));
  Ok (mk_sframe (zip_with sa_append (columns sf) (columns other)) (column_names sf)
        (nrows sf + nrows other)).

(** ** Readers *)

(** Row [j]: the [j]th value of each column *)
Definition row_at (sf : sframe) (j : nat) : option row := mapM (fun c => sa_values c !! j) (columns sf).
Definition read_rows (sf : sframe) (start last : nat) : option (list row) :=
  mapM (row_at sf) (seq start (last - start)).

(** The bounds of segments of the given lengths *)
Fixpoint cut_lengths (start : nat) (lens : list nat) : list (nat * nat) :=
  match lens with [] => [] | n :: lens => (start, (start + n)%nat) :: cut_lengths (start + n) lens end.
(** The bounds of [n] segments of even length *)
Definition cut_even (total n : nat) : list (nat * nat) :=
  map (fun i => ((i * total) / n, ((i + 1) * total) / n)%nat) (seq 0 n).
Definition read_segments (sf : sframe) (bounds : list (nat * nat)) : outcome (list (list row)) :=
  of_option (mapM (fun b => read_rows sf b.1 b.2) bounds).

(** The rows of each segment of a reader: with the layout of the first column,
    with a number of even segments, and with given lengths *)
Definition get_reader_lengths (sf : sframe) (lens : list nat) : outcome (list (list row)) :=
  _ <-? assert (sum_list lens =? num_rows sf)%nat;
  read_segments sf (cut_lengths 0 lens).
Definition get_reader (sf : sframe) : outcome (list (list row)) :=
  match columns sf with
  | [] => Ok []
  | c :: _ =>
      _ <-? assert (forallb (fun d => (sum_list (segment_sizes c) =? sa_size d)%nat) (columns sf));
      read_segments sf (cut_lengths 0 (segment_sizes c))
  end.
Definition get_reader_even (sf : sframe) (n : nat) : outcome (list (list row)) :=
  match columns sf with
  | [] => Ok []
  | _ => _ <-? assert (0 <? n)%nat; read_segments sf (cut_even (num_rows sf) n)
  end.

(** ** Frames open for writing *)

(** [data] has, for each column, the values written to each segment *)
Record writer := mk_writer {
  w_names : list string;
  w_types : list flex_type_enum;
  w_segments : nat;
  data : list (list (list flexible_type))
}.

(** The loop of [create_arrays_for_writing] over the column names *)
Fixpoint write_names (unique fail : bool) (given names : list string) : outcome (list string) :=
  match given with
  | [] => Ok names
  | g :: given =>
      n <-? (if String.eqb g "" || negb unique then of_option (generate_valid_column_name names g) else Ok g);
      _ <-? assert (negb (fail && negb (String.eqb g "") && negb (String.eqb n g)));
      write_names unique fail given (names ++ [n])
  end.
Definition open_for_write (given : list string) (column_types : list flex_type_enum) (nsegments : nat)
    (fail_on_column_names : bool) : outcome writer :=
  _ <-? assert (length given =? length column_types)%nat;
  names <-? write_names (all_unique given) fail_on_column_names given [];
  Ok (mk_writer names column_types nsegments (replicate (length given) (replicate nsegments []))).

Section writing.
Context (fmt_double : Z -> bytes) {ptime : Type} (time_t_epoch : ptime)
  (add_seconds : ptime -> Z -> ptime) (to_iso_string : ptime -> bytes).

Definition bad_type (v : flexible_type) (ty : flex_type_enum) : bool :=
  negb (bool_decide (get_type v = UNDEFINED)) && negb (bool_decide (ty = UNDEFINED)) &&
  negb (bool_decide (get_type v = ty)).
Definition convert (v : flexible_type) (ty : flex_type_enum) : outcome flexible_type :=
  if bad_type v ty then
    if flex_type_is_convertible (get_type v) ty
    then soft_assignment_visitor fmt_double time_t_epoch add_seconds to_iso_string (reset ty) v
    else Throws
  else Ok v.
(** The values of a row with the types of their columns; a value past the last
    column has no type *)
Fixpoint convert_row (val : row) (ctypes : list flex_type_enum) : outcome row :=
  match val, ctypes with
  | [], _ => Ok []
  | _ :: _, [] => Undef
  | v :: val, ty :: ctypes => x <-? convert v ty; omap_ok (cons x) (convert_row val ctypes)
  end.

(** [write_segment] of a row: each value goes to its column; the columns that the
    row does not reach get none *)
Fixpoint write_values (segmentid : nat) (val : row) (data : list (list (list flexible_type)))
    : outcome (list (list (list flexible_type))) :=
  match val, data with
  | [], _ => Ok data
  | _ :: _, [] => Undef
  | v :: val, col :: data =>
      match col !! segmentid with
      | Some seg => omap_ok (cons (<[segmentid := seg ++ [v]]> col)) (write_values segmentid val data)
      | None => Undef
      end
  end.

(** An assignment to the output iterator of a segment: from an lvalue, and from
    an rvalue, which checks the length of the row *)
Definition write (segmentid : nat) (val : row) (w : writer) : outcome writer :=
  newval <-? convert_row val (w_types w);
  omap_ok (mk_writer (w_names w) (w_types w) (w_segments w)) (write_values segmentid newval (data w)).
Definition write_move (segmentid : nat) (val : row) (w : writer) : outcome writer :=
  _ <-? assert (length val =? length (w_types w))%nat;
  write segmentid val w.
End writing.

(** [get_output_iterator] asserts that the segment exists, if there are any *)
Definition valid_segment (w : writer) (segmentid : nat) : bool :=
  (segmentid <? w_segments w)%nat || (w_segments w =? 0)%nat.

(** [close]: the frame can be read from then on *)
Definition close (w : writer) : sframe :=
  mk_sframe (zip_with mk_sarray (data w) (w_types w)) (w_names w)
    (match data w with [] => 0%nat | col :: _ => sum_list (map length col) end).

End SFrame.
