(* ===== verification/SFrameCorrect.v ===== *)
(** The invariant of a frame, the effect of the column operations, and the round
    trip of rows through a frame that is written, closed and read. *)
From Stdlib Require Import ZArith Lia List Bool.
From stdpp Require Import prelude strings pretty.
From S2P Require Import Prelude.
From S2P Require Import Archive.
From S2P Require Import FlexibleType.
From S2P Require Import FlexibleOps.
From S2P Require Import SFrame.
Import SFrame.

(** ** Column names *)

Lemma contains_spec names n : contains names n = true <-> n ∈ names.
Proof.
  unfold contains. rewrite existsb_exists. split.
  - intros (m & Hm & E). apply String.eqb_eq in E as ->. by apply list_elem_of_In.
  - intros H. exists n. split; [by apply list_elem_of_In | apply String.eqb_refl].
Qed.
Lemma contains_false names n : contains names n = false <-> n ∉ names.
Proof. rewrite <- contains_spec. by destruct (contains names n). Qed.

Lemma all_unique_spec names : all_unique names = true <-> NoDup names.
Proof.
  induction names as [|n names IH]; cbn; [split; [constructor|done]|].
  rewrite andb_true_iff, IH, NoDup_cons, negb_true_iff, contains_false. done.
Qed.

(** A search among names that are pairwise different finds a free one within one
    more step than there are names. *)
Lemma search_free (names : list string) (f : nat -> string) k fuel :
  (forall i j, f i = f j -> i = j) -> (length names < fuel)%nat ->
  exists i, (k <= i < k + fuel)%nat /\ f i ∉ names.
Proof.
  intros Hinj Hf. destruct (decide (Forall (fun i => f i ∈ names) (seq k fuel))) as [Hall|Hn].
  - assert (NoDup (map f (seq k fuel))) as Hd.
    { apply NoDup_fmap_2_strong; [intros i j _ _; apply Hinj|]. apply NoDup_seq. }
    assert (length (map f (seq k fuel)) <= length names)%nat as Hle.
    { apply submseteq_length. apply NoDup_submseteq; [done|]. intros x Hx.
      apply list_elem_of_fmap in Hx as (i & -> & Hi). rewrite Forall_forall in Hall. by apply Hall. }
    rewrite length_map, length_seq in Hle. lia.
  - apply not_Forall_Exists in Hn; [|intros ?; apply _]. apply Exists_exists in Hn as (i & Hi & Hn).
    apply elem_of_seq in Hi. eauto.
Qed.

Lemma string_app_inj_r (s a b : string) : (s +:+ a)%string = (s +:+ b)%string -> a = b.
Proof. induction s; cbn; [done|]. intros [= E]. auto. Qed.

Lemma string_app_assoc (s t u : string) : ((s +:+ t) +:+ u = s +:+ t +:+ u)%string.
Proof. induction s as [|c s IH]; [done|]. change (String c ((s +:+ t) +:+ u) = String c (s +:+ t +:+ u))%string. by rewrite IH. Qed.

Lemma free_name_spec fuel : forall names name k i, (k <= i < k + fuel)%nat ->
  (name +:+ pretty i)%string ∉ names ->
  exists n, free_name fuel names name k = Some n /\ n ∉ names /\ exists j, n = (name +:+ pretty (j : nat))%string.
Proof.
  induction fuel as [|fuel IH]; intros names name k i Hi Hn; [lia|]. cbn [free_name].
  destruct (contains names (name +:+ pretty k)) eqn:E.
  - apply contains_spec in E. destruct (decide (i = k)) as [->|]; [done|].
    apply (IH _ _ _ i); [lia|done].
  - apply contains_false in E. eauto.
Qed.

Lemma append_nonempty_l (s t : string) : s <> ""%string -> (s +:+ t)%string <> ""%string.
Proof. by destruct s. Qed.

(** A valid column name always exists: it is new and not empty, and it is the
    name asked for if that is not empty and not taken. *)
Lemma generate_valid_spec names x :
  exists n, generate_valid_column_name names x = Some n /\ n ∉ names /\ n <> ""%string /\
    (x <> ""%string -> x ∉ names -> n = x).
Proof.
  unfold generate_valid_column_name. set (name := if String.eqb x "" then _ else x).
  assert (name <> ""%string) as Hne.
  { unfold name. destruct (String.eqb_spec x ""); [by apply append_nonempty_l | done]. }
  assert (x <> ""%string -> name = x) as Hx by (unfold name; destruct (String.eqb_spec x ""); congruence).
  destruct (contains names name) eqn:E.
  - apply contains_spec in E.
    destruct (search_free names (fun i => (name +:+ "." +:+ pretty i)%string) 1 (S (length names))) as (i & Hi & Hf).
    { intros i j Hij. apply string_app_inj_r, string_app_inj_r in Hij. by apply (inj pretty) in Hij. }
    { lia. }
    destruct (free_name_spec (S (length names)) names (name +:+ ".") 1 i Hi) as (n & -> & Hn & j & ->).
    { by rewrite string_app_assoc. }
    eexists. split_and!; [done|done| |].
    + do 2 apply append_nonempty_l. done.
    + intros Hx1 Hx2. rewrite Hx in E by done. done.
  - apply contains_false in E. exists name. auto.
Qed.

(** The names of a frame: pairwise different and not empty *)
Definition names_ok (names : list string) : Prop := NoDup names /\ Forall (fun n => n <> ""%string) names.

Lemma names_ok_snoc names n : names_ok names -> n ∉ names -> n <> ""%string -> names_ok (names ++ [n]).
Proof.
  intros [Hd Hf] Hn Hne. split.
  - apply NoDup_app. split_and!; [done| |apply NoDup_singleton]. intros x Hx ->%list_elem_of_singleton. done.
  - apply Forall_app. auto.
Qed.

Lemma read_names_ok k : forall given names, names_ok names ->
  exists names', read_names k given names = Some names' /\ names_ok names' /\ length names' = (length names + k)%nat.
Proof.
  induction k as [|k IH]; intros given names Hok; cbn [read_names]; [exists names; split_and!; auto; lia|].
  destruct (generate_valid_spec names (default "" (head given))) as (n & -> & Hn & Hne & _). cbn [mbind option_bind].
  destruct (IH (tail given) (names ++ [n])) as (names' & -> & Hok' & Hl); [by apply names_ok_snoc|].
  exists names'. rewrite length_app in Hl. cbn in Hl. split_and!; auto. lia.
Qed.

(** Good names are kept. *)
Lemma read_names_same given : forall names, names_ok (names ++ given) ->
  read_names (length given) given names = Some (names ++ given).
Proof.
  induction given as [|g given IH]; intros names Hok; cbn [read_names length]; [by rewrite app_nil_r|].
  cbn [default head tail].
  destruct (generate_valid_spec names g) as (n & E & _ & _ & Hsame). cbn. rewrite E.
  destruct Hok as [Hd Hf]. rewrite Hsame; cbn [mbind option_bind].
  - rewrite IH; [by rewrite <- app_assoc|]. by rewrite <- app_assoc.
  - apply Forall_app in Hf as [_ Hf]. by inversion Hf.
  - apply NoDup_app in Hd as (_ & Hd & _). intros Hin. apply (Hd g Hin). left.
Qed.

(** ** The invariant *)

(** A value of its column's type, or UNDEFINED *)
Definition typed_value (ty : flex_type_enum) (v : flexible_type) : Prop := bad_type v ty = false.
Definition typed_column (c : sarray) : Prop := Forall (typed_value (sa_type c)) (sa_values c).

Record wf (sf : sframe) : Prop := {
  wf_size : Forall (fun c => sa_size c = nrows sf) (columns sf);
  wf_length : length (column_names sf) = length (columns sf);
  wf_names : names_ok (column_names sf);
  wf_empty : columns sf = [] -> nrows sf = 0%nat;
  wf_types : Forall typed_column (columns sf)
}.

Lemma names_ok_nil : names_ok [].
Proof. split; constructor. Qed.

Lemma wf_empty_frame : wf empty_frame.
Proof. split; cbn; auto using names_ok_nil. Qed.

Lemma create_arrays_wf cols given fail sf : Forall typed_column cols ->
  create_arrays_for_reading cols given fail = Ok sf -> wf sf /\ columns sf = cols.
Proof.
  intros Ht. unfold create_arrays_for_reading. destruct cols as [|c cols].
  { intros [= <-]. split; [apply wf_empty_frame|done]. }
  destruct (forallb _ (c :: cols)) eqn:E; [|done]. destruct (negb fail || _); [|done].
  destruct (read_names_ok (length (c :: cols)) given [] names_ok_nil) as (names & -> & Hok & Hl).
  intros [= <-]. split; [|done]. split; cbn [columns column_names nrows]; try done.
  rewrite forallb_forall in E. apply Forall_forall. intros d Hd.
  apply Nat.eqb_eq, E. by apply list_elem_of_In.
Qed.

(** Columns of one length under good names make a frame. *)
Lemma create_arrays_same c cols names fail :
  Forall (fun d => sa_size d = sa_size c) (c :: cols) -> names_ok names -> length names = length (c :: cols) ->
  create_arrays_for_reading (c :: cols) names fail = Ok (mk_sframe (c :: cols) names (sa_size c)).
Proof.
  intros Hs Hok Hl. unfold create_arrays_for_reading.
  replace (forallb _ (c :: cols)) with true; cycle 1.
  { symmetry. apply forallb_forall. intros d Hd. apply Nat.eqb_eq.
    rewrite Forall_forall in Hs. apply Hs. by apply list_elem_of_In. }
  rewrite (proj2 (all_unique_spec names)) by apply Hok. rewrite orb_true_r. cbn [obind assert].
  rewrite <- Hl, (read_names_same names []) by done. done.
Qed.

(** ** Rows *)

(** Column [i] of a list of rows *)
Definition col_of (i : nat) (rs : list row) : list flexible_type :=
  map (fun r => default FUndefined (r !! i)) rs.

(** The rows of a frame are [rs]: every column has its values. *)
Record has_rows (sf : sframe) (rs : list row) : Prop := {
  hr_count : length rs = nrows sf;
  hr_width : Forall (fun r => length r = num_columns sf) rs;
  hr_values : map sa_values (columns sf) = map (fun i => col_of i rs) (seq 0 (num_columns sf))
}.

Lemma mapM_Some_1 {A B} (f : A -> option B) (g : A -> B) l :
  (forall x, x ∈ l -> f x = Some (g x)) -> mapM f l = Some (map g l).
Proof.
  induction l as [|x l IH]; intros H; [done|]. cbn. rewrite H by left. cbn.
  rewrite IH; [done|]. intros y Hy. apply H. by right.
Qed.

Lemma map_lookup_seq {A} (d : A) l : map (fun i => default d (l !! i)) (seq 0 (length l)) = l.
Proof.
  apply list_eq. intros i. rewrite list_lookup_fmap.
  destruct (decide (i < length l)%nat).
  - rewrite lookup_seq_lt by done. cbn. by destruct (lookup_lt_is_Some_2 l i l0) as [x ->].
  - rewrite lookup_seq_ge, lookup_ge_None_2 by lia. done.
Qed.

Lemma row_at_spec sf rs j r : has_rows sf rs -> rs !! j = Some r -> row_at sf j = Some r.
Proof.
  intros [_ Hw Hv] Hj. unfold row_at.
  assert (mapM (fun c => sa_values c !! j) (columns sf) = mapM (fun vs : list flexible_type => vs !! j) (map sa_values (columns sf))) as ->.
  { generalize (columns sf). induction l as [|c l IH]; cbn; [done|]. by rewrite IH. }
  rewrite Hv. rewrite Forall_forall in Hw.
  assert (length r = num_columns sf) as Hr by (apply Hw; by eapply list_elem_of_lookup_2).
  assert (forall l, mapM (fun vs : list flexible_type => vs !! j) (map (fun i => col_of i rs) l)
                    = Some (map (fun i => default FUndefined (r !! i)) l)) as ->.
  { assert (forall i, col_of i rs !! j = Some (default FUndefined (r !! i))) as Hc.
    { intros i. unfold col_of. by rewrite list_lookup_fmap, Hj. }
    induction l as [|i l IH]; [done|]. cbn. rewrite Hc. cbn. by rewrite IH. }
  by rewrite <- Hr, map_lookup_seq.
Qed.

Lemma read_rows_spec sf rs a b : has_rows sf rs -> (b <= length rs)%nat ->
  read_rows sf a b = Some (take (b - a) (drop a rs)).
Proof.
  intros Hr Hb. unfold read_rows.
  rewrite (mapM_Some_1 _ (fun j => default [] (rs !! j))).
  - f_equal. apply list_eq. intros i. rewrite list_lookup_fmap.
    destruct (decide (i < b - a)%nat).
    + rewrite lookup_seq_lt, lookup_take_lt, lookup_drop by done. cbn.
      destruct (lookup_lt_is_Some_2 rs (a + i)) as [x ->]; [lia|done].
    + rewrite lookup_seq_ge, lookup_take_ge by lia. done.
  - intros j Hj. apply elem_of_seq in Hj. destruct (lookup_lt_is_Some_2 rs j) as [r Hj']; [lia|].
    rewrite Hj'. by apply (row_at_spec sf rs).
Qed.

(** Cuts a list into pieces of the given lengths *)
Fixpoint pieces {A} (lens : list nat) (l : list A) : list (list A) :=
  match lens with [] => [] | n :: lens => take n l :: pieces lens (drop n l) end.
Lemma concat_pieces {A} lens (l : list A) : sum_list lens = length l -> concat (pieces lens l) = l.
Proof.
  revert l. induction lens as [|n lens IH]; intros l Hl; cbn in *; [by destruct l|].
  rewrite IH; [apply take_drop|]. rewrite length_drop. lia.
Qed.
Lemma length_pieces {A} lens (l : list A) : length (pieces lens l) = length lens.
Proof. revert l. induction lens; intros l; cbn; auto. Qed.
Lemma pieces_concat {A} (ls : list (list A)) : pieces (map length ls) (concat ls) = ls.
Proof.
  induction ls as [|l ls IH]; cbn; [done|]. by rewrite take_app_length, drop_app_length, IH.
Qed.

Lemma read_segments_lengths sf rs lens : has_rows sf rs -> forall start,
  (start + sum_list lens <= length rs)%nat ->
  read_segments sf (cut_lengths start lens) = Ok (pieces lens (drop start rs)).
Proof.
  intros Hr. unfold read_segments.
  assert (forall start, (start + sum_list lens <= length rs)%nat ->
    mapM (fun b => read_rows sf b.1 b.2) (cut_lengths start lens) = Some (pieces lens (drop start rs))) as H.
  { induction lens as [|n lens IH]; intros start Hs; cbn [cut_lengths mapM pieces]; [done|]. cbn in Hs.
    cbn -[read_rows]. rewrite (read_rows_spec sf rs) by (done || lia). cbn -[read_rows]. rewrite IH by lia. cbn.
    by replace (start + n - start)%nat with n by lia; rewrite drop_drop. }
  intros start Hs. by rewrite H.
Qed.

(** The readers of a frame: the rows cut into segments of the lengths asked for,
    of the lengths of the first column, or into [n] segments. *)
Lemma get_reader_lengths_spec sf rs lens : has_rows sf rs -> sum_list lens = length rs ->
  get_reader_lengths sf lens = Ok (pieces lens rs).
Proof.
  intros Hr Hl. unfold get_reader_lengths, num_rows. rewrite <- (hr_count _ _ Hr), Hl, Nat.eqb_refl. cbn [assert obind].
  rewrite (read_segments_lengths sf rs) by (done || lia). by rewrite drop_0.
Qed.

Lemma get_reader_even_spec sf rs n : has_rows sf rs -> (0 < n)%nat -> columns sf <> [] ->
  exists segs, get_reader_even sf n = Ok segs /\ length segs = n /\ concat segs = rs.
Proof.
  intros Hr Hn Hne. unfold get_reader_even, num_rows. rewrite <- (hr_count _ _ Hr).
  destruct (columns sf) as [|c cs] eqn:E; [done|]. rewrite (proj2 (Nat.ltb_lt 0 n)) by done. cbn [assert obind].
  set (total := length rs). set (cut := fun i => ((i * total) / n)%nat).
  assert (forall i, (i <= n)%nat -> (cut i <= total)%nat) as Hcut.
  { intros i Hi. unfold cut. apply Nat.Div0.div_le_upper_bound. nia. }
  assert (forall i, (cut i <= cut (S i))%nat) as Hmono.
  { intros i. unfold cut. apply Nat.Div0.div_le_mono. lia. }
  assert (cut n = total) as Hlast by (unfold cut; rewrite Nat.mul_comm; apply Nat.div_mul; lia).
  exists (map (fun i => take (cut (S i) - cut i) (drop (cut i) rs)) (seq 0 n)).
  split_and!.
  - unfold read_segments, cut_even.
    erewrite (mapM_Some_1 _ (fun b => take (b.2 - b.1) (drop b.1 rs))).
    + cbn. f_equal. rewrite map_map. apply map_ext. intros i. cbn [fst snd]. unfold cut. by rewrite (Nat.add_1_r i).
    + intros b Hb. apply list_elem_of_fmap in Hb as (i & -> & Hi). apply elem_of_seq in Hi. cbn [fst snd].
      apply read_rows_spec; [done|]. fold total. rewrite Nat.add_1_r. apply Hcut. lia.
  - by rewrite length_map, length_seq.
  - assert (forall k, (k <= n)%nat -> concat (map (fun i => take (cut (S i) - cut i) (drop (cut i) rs)) (seq 0 k)) = take (cut k) rs) as H.
    { induction k as [|k IH]; intros Hk; [by unfold cut; rewrite Nat.mul_0_l, Nat.Div0.div_0_l|].
      rewrite seq_S, map_app, concat_app, IH by lia. cbn [map concat]. rewrite app_nil_r.
      rewrite Nat.add_0_l. pose proof (Hmono k).
      replace (cut (S k)) with (cut k + (cut (S k) - cut k))%nat at 2 by lia. by rewrite take_take_drop. }
    rewrite H, Hlast by done. by apply take_ge.
Qed.

(** ** Writing *)

Lemma soft_assign_type fmt {ptime} (e : ptime) add iso t u r :
  soft_assignment_visitor fmt e add iso t u = Ok r -> get_type r = get_type t.
Proof.
  assert (forall A (f : A -> flexible_type) ty m, (forall x, get_type (f x) = ty) -> omap_ok f m = Ok r -> get_type r = ty) as Hm.
  { intros A f ty m Hf. destruct m; [|discriminate..]. intros [= <-]. apply Hf. }
  destruct t, u; cbn [soft_assignment_visitor]; intros H;
    first [discriminate H | (eapply Hm; [|exact H]; intros; reflexivity) | (injection H as <-; reflexivity)].
Qed.

Lemma get_type_reset ty : get_type (reset ty) = ty.
Proof. by destruct ty. Qed.

Section writing.
Context (fmt_double : Z -> bytes) {ptime : Type} (time_t_epoch : ptime)
  (add_seconds : ptime -> Z -> ptime) (to_iso_string : ptime -> bytes).
Abbreviation convert := (convert fmt_double time_t_epoch add_seconds to_iso_string).
Abbreviation convert_row := (convert_row fmt_double time_t_epoch add_seconds to_iso_string).
Abbreviation write := (write fmt_double time_t_epoch add_seconds to_iso_string).

Lemma convert_typed v ty v' : convert v ty = Ok v' -> typed_value ty v'.
Proof.
  unfold SFrame.convert, typed_value. destruct (bad_type v ty) eqn:E; [|by intros [= <-]].
  destruct (flex_type_is_convertible _ _); [|done]. intros Hs%soft_assign_type.
  unfold bad_type. rewrite Hs, get_type_reset, (bool_decide_true (ty = ty)) by done. by rewrite andb_false_r.
Qed.
Lemma convert_row_typed val : forall ctypes val', convert_row val ctypes = Ok val' ->
  length val = length ctypes -> length val' = length ctypes /\ Forall2 typed_value ctypes val'.
Proof.
  induction val as [|v val IH]; intros ctypes val' H Hl; destruct ctypes as [|ty ctypes]; try done.
  { injection H as <-. auto. }
  cbn in H. destruct (convert v ty) as [x| |] eqn:E; try done. cbn in H.
  destruct (convert_row val ctypes) as [r| |] eqn:Er; try done. injection H as <-.
  destruct (IH ctypes r Er) as [Hlr Hr]; [by injection Hl|].
  split; [cbn; congruence|]. constructor; [by eapply convert_typed|done].
Qed.
(** Values that already have the types of their columns are written as they are. *)
Lemma convert_row_same val ctypes : Forall2 typed_value ctypes val -> convert_row val ctypes = Ok val.
Proof.
  induction 1 as [|ty v ctypes val Hv _ IH]; [done|]. cbn. unfold SFrame.convert. rewrite Hv. cbn.
  by rewrite IH.
Qed.

(** What has been written to a frame: [segs] are the rows of each segment. *)
Record holds (w : writer) (segs : list (list row)) : Prop := {
  ho_segments : length segs = w_segments w;
  ho_data : data w = map (fun i => map (col_of i) segs) (seq 0 (length (w_types w)));
  ho_typed : Forall (Forall (fun r => Forall2 typed_value (w_types w) r)) segs
}.

Lemma col_of_snoc i rs r : col_of i (rs ++ [r]) = col_of i rs ++ [default FUndefined (r !! i)].
Proof. unfold col_of. by rewrite map_app. Qed.

Lemma write_values_spec s segs rs val : segs !! s = Some rs -> forall pre,
  write_values s val (map (fun i => map (col_of i) segs) (seq (length pre) (length val))) =
  Ok (map (fun i => map (col_of i) (<[s := rs ++ [pre ++ val]]> segs)) (seq (length pre) (length val))).
Proof.
  intros Hs. induction val as [|v val IH]; intros pre; [done|]. cbn [length seq map write_values].
  assert (map (col_of (length pre)) segs !! s = Some (col_of (length pre) rs)) as ->.
  { by rewrite list_lookup_fmap, Hs. }
  specialize (IH (pre ++ [v])). rewrite length_app in IH. cbn in IH. rewrite Nat.add_1_r, <- app_assoc in IH. cbn in IH.
  rewrite IH. cbn. f_equal. f_equal.
  rewrite (list_fmap_insert (col_of (length pre)) segs). f_equal.
  rewrite col_of_snoc. by rewrite list_lookup_middle.
Qed.

Lemma write_spec w segs s rs val val' : holds w segs -> segs !! s = Some rs ->
  length val = length (w_types w) -> convert_row val (w_types w) = Ok val' ->
  exists w', write s val w = Ok w' /\ holds w' (<[s := rs ++ [val']]> segs) /\
    w_types w' = w_types w /\ w_names w' = w_names w.
Proof.
  intros [Hseg Hd Ht] Hs Hl Hc. destruct (convert_row_typed _ _ _ Hc Hl) as [Hl' Hty].
  unfold SFrame.write. rewrite Hc, Hd, <- Hl'. cbn [obind].
  pose proof (write_values_spec s segs rs val' Hs []) as Hw. cbn [length app] in Hw. rewrite Hw. cbn [omap_ok].
  eexists. split; [done|]. split; [|done]. split; cbn [w_segments w_types data].
  - by rewrite length_insert.
  - by rewrite <- Hl'.
  - apply Forall_insert; [done|]. apply Forall_app. split; [|by auto].
    rewrite Forall_forall in Ht. apply Ht. by eapply list_elem_of_lookup_2.
Qed.

Lemma open_for_write_holds given types n fail w : open_for_write given types n fail = Ok w ->
  holds w (replicate n []) /\ w_types w = types /\ length (w_names w) = length types /\
  write_names (all_unique given) fail given [] = Ok (w_names w).
Proof.
  unfold open_for_write. destruct (Nat.eqb_spec (length given) (length types)) as [El|]; [|done]. cbn [assert obind].
  destruct (write_names _ _ _ _) as [names| |] eqn:E; try done. intros [= <-]. cbn [w_types w_names].
  assert (forall g acc r, write_names (all_unique given) fail g acc = Ok r -> length r = (length acc + length g)%nat) as Hln.
  { induction g as [|x g IH]; intros acc r; cbn [write_names]; [intros [= <-]; cbn; lia|].
    match goal with |- obind ?m _ = _ -> _ => destruct m as [y| |] end; try done. cbn [obind].
    destruct (assert _); try done. cbn [obind]. intros ->%IH. rewrite length_app. cbn. lia. }
  apply Hln in E as El'. cbn in El'. split; [|split_and!; [done|lia|done]].
  split; cbn [w_segments data w_types].
  - by rewrite length_replicate.
  - rewrite <- El. clear El El'. generalize 0%nat. induction (length given) as [|k IH]; intros i; [done|]. cbn [replicate seq map].
    rewrite (IH (S i)). f_equal. clear. induction n as [|n IH]; [done|]. cbn. by rewrite <- IH.
  - apply Forall_replicate. constructor.
Qed.

Lemma sa_values_data i segs : concat (map (col_of i) segs) = col_of i (concat segs).
Proof. unfold col_of. induction segs as [|rs segs IH]; [done|]. cbn. by rewrite map_app, <- IH. Qed.

Lemma zip_with_map_seq {A B C} (f : B -> A -> C) (g : nat -> B) (l : list A) k :
  zip_with f (map g (seq k (length l))) l = imap (fun i x => f (g (k + i)%nat) x) l.
Proof.
  revert k. induction l as [|x l IH]; intros k; [done|]. cbn. rewrite Nat.add_0_r. f_equal.
  rewrite IH. apply imap_ext. intros i y _. cbn. do 2 f_equal. lia.
Qed.

Lemma sum_lengths {A} (ls : list (list A)) : sum_list (map length ls) = length (concat ls).
Proof. induction ls as [|l ls IH]; [done|]. cbn. by rewrite length_app, IH. Qed.

Lemma columns_close w segs : holds w segs ->
  columns (close w) = imap (fun i ty => mk_sarray (map (col_of i) segs) ty) (w_types w).
Proof. intros [_ Hd _]. cbn. rewrite Hd. apply zip_with_map_seq. Qed.

Lemma num_columns_close w segs : holds w segs -> num_columns (close w) = length (w_types w).
Proof. intros H. unfold num_columns. by rewrite (columns_close w segs), length_imap. Qed.

(** The rows of a closed frame are the rows that were written, segment by
    segment. *)
Lemma close_rows w segs : holds w segs -> w_types w <> [] ->
  has_rows (close w) (concat segs) /\
  (forall c, head (columns (close w)) = Some c -> segment_sizes c = map length segs).
Proof.
  intros H Hne. pose proof (columns_close w segs H) as Hc. pose proof (num_columns_close w segs H) as Hn.
  destruct H as [Hs Hd Ht]. split; [split|].
  - cbn [close nrows]. rewrite Hd. destruct (w_types w); [done|]. cbn [length seq map].
    rewrite map_map, <- sum_lengths. f_equal. apply map_ext. intros rs. unfold col_of. by rewrite length_map.
  - rewrite Hn. apply Forall_concat. eapply Forall_impl; [exact Ht|]. intros rs Hrs.
    eapply Forall_impl; [exact Hrs|]. intros r Hr. symmetry. by eapply Forall2_length.
  - rewrite Hn, Hc. apply list_eq. intros i. rewrite !list_lookup_fmap, list_lookup_imap.
    destruct (w_types w !! i) as [ty|] eqn:E.
    + rewrite lookup_seq_lt by (by eapply lookup_lt_Some). cbn. f_equal. apply sa_values_data.
    + by rewrite lookup_seq_ge by (by apply lookup_ge_None_1).
  - intros c. rewrite Hc. destruct (w_types w); [done|]. cbn. intros [= <-]. unfold segment_sizes. cbn.
    rewrite map_map. apply map_ext. intros rs. unfold col_of. by rewrite length_map.
Qed.

(** Assignments to the output iterators, in the order in which they happen *)
Fixpoint write_all (ops : list (nat * row)) (w : writer) : outcome writer :=
  match ops with [] => Ok w | (s, r) :: ops => w <-? write s r w; write_all ops w end.

(** The rows of segment [s] among the writes *)
Definition rows_for (s : nat) (ops : list (nat * row)) : list row :=
  map snd (List.filter (fun o => (o.1 =? s)%nat) ops).

Lemma write_all_spec ops ops' : forall w segs, holds w segs ->
  Forall (fun o => (o.1 < w_segments w)%nat /\ length o.2 = length (w_types w)) ops ->
  Forall2 (fun o o' => o'.1 = o.1 /\ convert_row o.2 (w_types w) = Ok o'.2) ops ops' ->
  exists w', write_all ops w = Ok w' /\ holds w' (imap (fun s rs => rs ++ rows_for s ops') segs) /\
    w_types w' = w_types w /\ w_names w' = w_names w.
Proof.
  revert ops'. induction ops as [|[s r] ops IH]; intros ops' w segs Hw Ho Hc; inversion Hc; subst.
  { exists w. split_and!; try done. replace (imap _ segs) with segs; [done|].
    apply list_eq. intros i. rewrite list_lookup_imap. destruct (segs !! i); cbn; [by rewrite app_nil_r|done]. }
  apply Forall_cons in Ho as [[Hs Hr] Ho]. destruct y as [s' r']. cbn [fst snd] in *.
  match goal with H : s' = s /\ _ |- _ => destruct H as [-> Hcr] end.
  destruct (lookup_lt_is_Some_2 segs s) as [rs Hrs]; [rewrite (ho_segments _ _ Hw); lia|].
  destruct (write_spec w segs s rs r r' Hw Hrs Hr Hcr) as (w1 & E1 & Hw1 & Et & En).
  cbn [write_all]. rewrite E1. cbn [obind].
  assert (w_segments w1 = w_segments w) as Es.
  { rewrite <- (ho_segments _ _ Hw1), <- (ho_segments _ _ Hw). by rewrite length_insert. }
  destruct (IH l' w1 _ Hw1) as (w' & -> & Hw' & Et' & En'); [by rewrite Es, Et | by rewrite Et|].
  exists w'. split_and!; [done| |congruence..].
  replace (imap _ segs) with (imap (fun k rows => rows ++ rows_for k l') (<[s:=rs ++ [r']]> segs)); [done|].
  apply list_eq. intros i. rewrite !list_lookup_imap.
  destruct (decide (i = s)) as [->|Hne].
  - rewrite list_lookup_insert_eq, Hrs by (by eapply lookup_lt_Some). cbn. unfold rows_for. cbn.
    rewrite Nat.eqb_refl. cbn. by rewrite <- app_assoc.
  - rewrite list_lookup_insert_ne by done. destruct (segs !! i); cbn; [|done].
    unfold rows_for. cbn. by rewrite (proj2 (Nat.eqb_neq s i)).
Qed.

Lemma imap_replicate_nil {A} n (f : nat -> list A) :
  imap (fun s rs => rs ++ f s) (replicate n []) = map f (seq 0 n).
Proof.
  apply list_eq. intros i. rewrite list_lookup_imap, list_lookup_fmap.
  destruct (decide (i < n)%nat).
  - by rewrite lookup_replicate_2, lookup_seq_lt by done.
  - rewrite lookup_seq_ge, lookup_ge_None_2 by (rewrite ?length_replicate; lia). done.
Qed.

Lemma get_reader_close w segs : holds w segs -> w_types w <> [] -> get_reader (close w) = Ok segs.
Proof.
  intros H Hne. destruct (close_rows w segs H Hne) as [Hr Hc].
  pose proof (columns_close w segs H) as Ecol. unfold get_reader.
  destruct (columns (close w)) as [|c cs] eqn:E.
  { destruct (w_types w); done. }
  rewrite (Hc c eq_refl).
  replace (forallb _ _) with true; cycle 1.
  { symmetry. apply forallb_forall. intros d Hd. apply Nat.eqb_eq. rewrite Ecol in Hd.
    apply list_elem_of_In, list_elem_of_lookup in Hd as [i Hd]. rewrite list_lookup_imap in Hd.
    destruct (w_types w !! i); [|done]. injection Hd as <-. unfold sa_size, segment_sizes. cbn.
    rewrite map_map. f_equal. apply map_ext. intros rs. unfold col_of. by rewrite length_map. }
  cbn [assert obind]. rewrite (read_segments_lengths _ _ _ Hr) by (rewrite sum_lengths; lia).
  by rewrite drop_0, pieces_concat.
Qed.
End writing.

(** C14. What is written to a frame is read from it: open a frame of at least
    one column for writing with [n] segments and write rows as wide as the frame
    to its segments, in any interleaving.  If every value has the type of its column, is UNDEFINED or
    converts to that type, the writes succeed, and a reader of the closed frame
    returns for each segment the converted rows in the order they were written to
    it, while a reader of [k] even segments returns all the rows in that order cut
    into [k] parts. *)
Theorem sframe_write_read fmt_double ptime (epoch : ptime) add_seconds to_iso_string
    given types n fail w ops ops' :
  open_for_write given types n fail = Ok w -> types <> [] ->
  Forall (fun o => (o.1 < n)%nat /\ length o.2 = length types) ops ->
  Forall2 (fun o o' => o'.1 = o.1 /\
    convert_row fmt_double epoch add_seconds to_iso_string o.2 types = Ok o'.2) ops ops' ->
  exists w', write_all fmt_double epoch add_seconds to_iso_string ops w = Ok w' /\
    let segs := map (fun s => rows_for s ops') (seq 0 n) in
    get_reader (close w') = Ok segs /\
    forall k, (0 < k)%nat -> exists parts, get_reader_even (close w') k = Ok parts /\
      length parts = k /\ concat parts = concat segs.
Proof.
  intros Ho Hne Hops Hconv. destruct (open_for_write_holds _ _ _ _ _ Ho) as (Hw & <- & _ & _).
  assert (w_segments w = n) as Hn by (rewrite <- (ho_segments _ _ Hw); apply length_replicate).
  destruct (write_all_spec fmt_double epoch add_seconds to_iso_string ops ops' w _ Hw) as (w' & E & Hw' & Et & _);
    [by rewrite Hn | done|].
  rewrite imap_replicate_nil in Hw'. exists w'. split; [done|]. intros segs. rewrite <- Et in Hne.
  split; [by apply get_reader_close|]. intros k Hk.
  apply get_reader_even_spec; [by apply close_rows|done|].
  rewrite (columns_close w' _ Hw'). by destruct (w_types w').
Qed.

Lemma sframe_write_read_witness :
  exists w, open_for_write ["a"; "b"]%string [INTEGER; FLOAT] 2 true = Ok w /\
  exists w', write_all (fun _ => []) tt (fun u _ => u) (fun _ => [])
      [(1%nat, [FInt 1; FUndefined]); (0%nat, [FInt 2; FInt 0]); (1%nat, [FInt 3; FFloat 5])] w = Ok w' /\
    let segs := map (fun s => rows_for s [(1%nat, [FInt 1; FUndefined]); (0%nat, [FInt 2; FFloat 0]); (1%nat, [FInt 3; FFloat 5])])
      (seq 0 2) in
    get_reader (close w') = Ok segs /\
    forall k, (0 < k)%nat -> exists parts, get_reader_even (close w') k = Ok parts /\
      length parts = k /\ concat parts = concat segs.
Proof.
  eexists. split; [vm_compute; reflexivity|].
  apply (sframe_write_read (fun _ => []) unit tt (fun u _ => u) (fun _ => []) ["a"; "b"]%string [INTEGER; FLOAT] 2 true);
    [vm_compute; reflexivity | done | |].
  - repeat (apply Forall_cons; split; [split; [apply Nat.ltb_lt; reflexivity | reflexivity]|]). apply Forall_nil_2.
  - repeat (apply Forall2_cons_2; [split; [reflexivity|vm_compute; reflexivity]|]). apply Forall2_nil_2.
Defined.

(** ** The operations preserve the invariant *)

Lemma write_names_ok unique fail given : forall names r,
  Forall (fun n => n <> ""%string) given -> names_ok names ->
  (unique = true -> NoDup (names ++ given)) ->
  write_names unique fail given names = Ok r -> names_ok r.
Proof.
  induction given as [|g given IH]; intros names r Hne Hok Hu; cbn [write_names]; [by intros [= <-]|].
  apply Forall_cons in Hne as [Hg Hne]. rewrite (proj2 (String.eqb_neq g "")) by done. cbn [orb].
  destruct (generate_valid_spec names g) as (n & E & Hn & Hnn & _). rewrite E.
  destruct unique; cbn [negb of_option obind].
  - destruct (assert _); try done. cbn [obind]. specialize (Hu eq_refl).
    apply IH; [done| |by rewrite <- app_assoc].
    apply names_ok_snoc; [done| |done]. apply NoDup_app in Hu as (_ & Hu & _). intros Hin. apply (Hu g Hin). left.
  - destruct (assert _); try done. cbn [obind]. apply IH; [done|by apply names_ok_snoc|done].
Qed.

Lemma holds_wf w segs : holds w segs -> names_ok (w_names w) -> length (w_names w) = length (w_types w) ->
  wf (close w).
Proof.
  intros H Hn Hl. pose proof (columns_close w segs H) as Hc. split.
  - apply Forall_forall. intros c Hin. destruct (decide (w_types w = [])) as [E|E].
    { rewrite Hc, E in Hin. by apply not_elem_of_nil in Hin. }
    destruct (close_rows w segs H E) as [Hr _]. rewrite <- (hr_count _ _ Hr). unfold sa_size, segment_sizes.
    rewrite Hc in Hin. apply list_elem_of_lookup in Hin as [i Hi]. rewrite list_lookup_imap in Hi.
    destruct (w_types w !! i); [|done]. injection Hi as <-. cbn [segments].
    rewrite sum_lengths, sa_values_data. unfold col_of. by rewrite length_map.
  - by rewrite Hc, length_imap.
  - done.
  - intros E. rewrite Hc in E. destruct H as [_ Hd _]. destruct (w_types w); [|done]. cbn [close nrows]. by rewrite Hd.
  - apply Forall_forall. intros c Hin. rewrite Hc in Hin. apply list_elem_of_lookup in Hin as [i Hi].
    rewrite list_lookup_imap in Hi. destruct (w_types w !! i) as [ty|] eqn:E; [|done]. injection Hi as <-.
    unfold typed_column, sa_values. cbn [segments sa_type]. rewrite sa_values_data.
    destruct H as [_ _ Ht]. unfold col_of. apply Forall_map, Forall_concat.
    eapply Forall_impl; [exact Ht|]. intros rs Hrs. eapply Forall_impl; [exact Hrs|]. intros r Hr. cbn.
    destruct (Forall2_lookup_l _ _ _ _ _ Hr E) as (v & -> & Hv). done.
Qed.

Lemma otraverse_Ok {A B} (f : A -> outcome B) (P : B -> Prop) l r :
  (forall x y, f x = Ok y -> P y) -> otraverse f l = Ok r -> Forall P r.
Proof.
  intros Hf. revert r. induction l as [|x l IH]; intros r; cbn; [intros [= <-]; constructor|].
  destruct (f x) as [y| |] eqn:E; try done. cbn. destruct (otraverse f l) as [ys| |]; try done. intros [= <-]. eauto.
Qed.

Lemma swap_at_perm {A} i j (l l' : list A) : swap_at i j l = Ok l' -> l' ≡ₚ l.
Proof.
  unfold swap_at. destruct (l !! i) as [x|] eqn:Ei; [|done]. destruct (l !! j) as [y|] eqn:Ej; [|done].
  intros [= <-]. destruct (decide (i = j)) as [->|Hne].
  - assert (x = y) as -> by congruence. rewrite list_insert_insert_eq. by rewrite list_insert_id.
  - apply Permutation_inj. split; [by rewrite !length_insert|].
    exists (fun k => if decide (k = i) then j else if decide (k = j) then i else k). split.
    + intros a b. repeat case_decide; congruence.
    + intros k. repeat case_decide; subst.
      * rewrite list_lookup_insert_ne, list_lookup_insert_eq by (done || by eapply lookup_lt_Some). done.
      * rewrite list_lookup_insert_eq; [done|]. rewrite length_insert. by eapply lookup_lt_Some.
      * by rewrite !list_lookup_insert_ne by done.
Qed.

Lemma wf_append sf other sf' : wf sf -> wf other -> append sf other = Ok sf' -> wf sf'.
Proof.
  intros [Hs Hl Hn He Ht] [Hs' Hl' _ He' Ht']. unfold append.
  destruct (_ =? _)%nat; [|done]. case_bool_decide as En; [|done]. case_bool_decide as Et; [|done].
  intros [= <-]. assert (length (columns sf) = length (columns other)) as Elen by congruence.
  assert (forall c, c ∈ zip_with sa_append (columns sf) (columns other) ->
    exists a b, a ∈ columns sf /\ b ∈ columns other /\ sa_type a = sa_type b /\ c = sa_append a b) as Hz.
  { intros c Hin. apply list_elem_of_lookup in Hin as [i Hi].
    apply lookup_zip_with_Some in Hi as (a & b & -> & Ha & Hb). exists a, b.
    split_and!; [by eapply list_elem_of_lookup_2..| |done].
    unfold column_types in Et. apply (f_equal (fun l => l !! i)) in Et.
    rewrite !list_lookup_fmap, Ha, Hb in Et. by injection Et. }
  rewrite Forall_forall in Hs, Hs', Ht, Ht'.
  split; cbn [columns column_names nrows]; try done.
  - apply Forall_forall. intros c (a & b & Ha & Hb & _ & ->)%Hz. rewrite <- (Hs a Ha), <- (Hs' b Hb).
    unfold sa_size, segment_sizes. cbn. by rewrite !sum_lengths, concat_app, length_app.
  - rewrite length_zip_with, <- Elen. lia.
  - intros E. destruct (columns sf), (columns other); try done. by rewrite He, He'.
  - apply Forall_forall. intros c (a & b & Ha & Hb & Ety & ->)%Hz. unfold typed_column, sa_values. cbn.
    rewrite concat_app. apply Forall_app. split; [by apply Ht|]. rewrite Ety. by apply Ht'.
Qed.

Lemma wf_rename sf i name sf' : wf sf -> name <> ""%string -> (forall j, j <> i -> column_names sf !! j <> Some name) ->
  set_column_name sf i name = Ok sf' -> wf sf'.
Proof.
  intros [Hs Hl [Hd Hf] He Ht] Hne Hfresh. unfold set_column_name. destruct (_ <? _)%nat; [|done].
  intros [= <-]. split; cbn; try done; [by rewrite length_insert|]. split.
  - apply NoDup_alt. intros a b x Ha Hb.
    destruct (decide (i = a)) as [<-|Hia], (decide (i = b)) as [<-|Hib]; [done| | |].
    + rewrite list_lookup_insert_ne in Hb by done. apply list_lookup_insert_Some in Ha as [(_ & <- & _)|[? _]]; [|done].
      exfalso. by apply (Hfresh b).
    + rewrite list_lookup_insert_ne in Ha by done. apply list_lookup_insert_Some in Hb as [(_ & <- & _)|[? _]]; [|done].
      exfalso. by apply (Hfresh a).
    + rewrite list_lookup_insert_ne in Ha, Hb by done. by apply (NoDup_lookup _ _ _ _ Hd Ha Hb).
  - by apply Forall_insert.
Qed.

(** ** Replacing a column *)

Lemma create_arrays_ok cols names fail n : cols <> [] -> Forall (fun c => sa_size c = n) cols ->
  names_ok names -> length names = length cols ->
  create_arrays_for_reading cols names fail = Ok (mk_sframe cols names n).
Proof.
  intros Hne Hs Hok Hl. destruct cols as [|c cols]; [done|]. pose proof Hs as Hs'. apply Forall_cons in Hs' as [<- _].
  by apply create_arrays_same.
Qed.

Lemma find_name_Some names n i : find_name names n = Some i -> names !! i = Some n.
Proof.
  revert i. induction names as [|m names IH]; intros i; cbn; [done|].
  destruct (String.eqb_spec m n) as [->|]; [by intros [= <-]|].
  destruct (find_name names n); cbn; [|done]. intros [= <-]. by apply IH.
Qed.
Lemma find_name_elem names n : n ∈ names -> exists i, find_name names n = Some i.
Proof.
  induction names as [|m names IH]; intros Hn; [by apply not_elem_of_nil in Hn|]. cbn.
  destruct (String.eqb_spec m n); [eauto|]. apply elem_of_cons in Hn as [|Hn]; [congruence|].
  destruct (IH Hn) as [i ->]. cbn. eauto.
Qed.
Lemma find_name_app names n extra i : find_name names n = Some i -> find_name (names ++ extra) n = Some i.
Proof.
  revert i. induction names as [|m names IH]; intros i; cbn; [done|]. destruct (String.eqb m n); [done|].
  destruct (find_name names n) as [j|]; cbn; [|done]. intros [= <-]. by rewrite (IH j).
Qed.
Lemma find_name_new names n : n ∉ names -> find_name (names ++ [n]) n = Some (length names).
Proof.
  induction names as [|m names IH]; intros Hn; cbn; [by rewrite String.eqb_refl|].
  apply not_elem_of_cons in Hn as [Hm Hn]. rewrite (proj2 (String.eqb_neq m n)) by done. by rewrite IH.
Qed.

Lemma tmp_name_spec fuel : forall names tmp i, (i <= fuel)%nat ->
  Nat.iter i (fun s => s +:+ "__")%string tmp ∉ names ->
  exists t, tmp_name fuel names tmp = Some t /\ t ∉ names /\ (tmp <> ""%string -> t <> ""%string).
Proof.
  induction fuel as [|fuel IH]; intros names tmp i Hi Hn; cbn [tmp_name];
    destruct (contains names tmp) eqn:E; try (apply contains_false in E; eauto); apply contains_spec in E.
  - assert (i = 0%nat) as -> by lia. done.
  - destruct i as [|i]; [done|]. rewrite Nat.iter_succ_r in Hn.
    destruct (IH names (tmp +:+ "__") i ltac:(lia) Hn) as (t & -> & Ht & Hne). exists t. split_and!; try done.
    intros Htmp. by apply Hne, append_nonempty_l.
Qed.

Lemma length_append (s t : string) : String.length (s +:+ t) = (String.length s + String.length t)%nat.
Proof. induction s as [|c s IH]; [done|]. change (S (String.length (s +:+ t)) = S (String.length s + String.length t))%nat. by rewrite IH. Qed.

Lemma tmp_name_ok names tmp : tmp <> ""%string ->
  exists t, tmp_name (length names) names tmp = Some t /\ t ∉ names /\ t <> ""%string.
Proof.
  intros Hne. destruct (search_free names (fun i => Nat.iter i (fun s => s +:+ "__")%string tmp) 0 (S (length names))) as (i & Hi & Hn).
  - assert (forall i, String.length (Nat.iter i (fun s => s +:+ "__")%string tmp) = (String.length tmp + 2 * i)%nat) as Hlen.
    { induction i as [|i IH]; [cbn; lia|]. rewrite Nat.iter_succ, length_append, IH. cbn. lia. }
    intros a b E. apply (f_equal String.length) in E. rewrite !Hlen in E. lia.
  - lia.
  - destruct (tmp_name_spec (length names) names tmp i ltac:(lia) Hn) as (t & ? & ? & ?). eauto.
Qed.

Lemma swap_at_last {A} i (l : list A) x y : l !! i = Some x ->
  swap_at i (length l) (l ++ [y]) = Ok (<[i := y]> l ++ [x]).
Proof.
  intros Hi. pose proof (lookup_lt_Some _ _ _ Hi) as Hlt. unfold swap_at.
  rewrite lookup_app_l, Hi, list_lookup_middle by done. f_equal.
  rewrite insert_app_l by done. rewrite <- (length_insert l i y) at 1. by rewrite insert_app_r_alt, Nat.sub_diag.
Qed.

Lemma swap_at_length {A} i j (l l' : list A) : swap_at i j l = Ok l' -> length l' = length l.
Proof. intros E%swap_at_perm. by apply Permutation_length. Qed.

(** The part of the invariant that the shape of a frame depends on *)
Record shaped (cols : list sarray) (names : list string) (n : nat) : Prop := {
  sh_size : Forall (fun c => sa_size c = n) cols;
  sh_length : length names = length cols;
  sh_names : names_ok names
}.

Lemma create_arrays_shaped cols names fail n : cols <> [] -> shaped cols names n ->
  create_arrays_for_reading cols names fail = Ok (mk_sframe cols names n).
Proof. intros Hne [Hs Hl Hn]. by apply create_arrays_ok. Qed.

Lemma shaped_snoc cols names n c name : shaped cols names n -> sa_size c = n -> name ∉ names -> name <> ""%string ->
  shaped (cols ++ [c]) (names ++ [name]) n.
Proof.
  intros [Hs Hl Hn] Hc Hin Hne. split; [|by rewrite !length_app, Hl|by apply names_ok_snoc].
  apply Forall_app. auto.
Qed.
Lemma shaped_init cols names n c name : shaped (cols ++ [c]) (names ++ [name]) n -> shaped cols names n.
Proof.
  intros [Hs Hl [Hd Hf]]. apply Forall_app in Hs as [Hs _]. apply Forall_app in Hf as [Hf _].
  apply NoDup_app in Hd as [Hd _]. rewrite !length_app in Hl. cbn in Hl. split; [done|lia|done].
Qed.
Lemma shaped_swap cols names n i j cols' names' : shaped cols names n ->
  swap_at i j cols = Ok cols' -> swap_at i j names = Ok names' -> shaped cols' names' n.
Proof.
  intros [Hs Hl [Hd Hf]] Ec%swap_at_perm En%swap_at_perm. split; [by rewrite Ec|by rewrite Ec, En|].
  unfold names_ok. by rewrite En.
Qed.

Lemma add_column_spec cols names n c name : cols <> [] -> shaped cols names n -> sa_size c = n ->
  name ∉ names -> name <> ""%string ->
  add_column (mk_sframe cols names n) c name = Ok (mk_sframe (cols ++ [c]) (names ++ [name]) n).
Proof.
  intros Hne Hsh Hc Hin Hnn. unfold add_column, num_columns, num_rows, contains_column. cbn [columns column_names nrows].
  rewrite (proj2 (Nat.eqb_neq _ 0)) by (by destruct cols). rewrite Hc, Nat.eqb_refl, (proj2 (contains_false _ name)) by done.
  cbn [assert obind negb]. destruct (generate_valid_spec names name) as (t & -> & _ & _ & Ht).
  rewrite (Ht Hnn Hin). cbn [of_option obind]. apply create_arrays_shaped; [by destruct cols|by apply shaped_snoc].
Qed.

Lemma swap_columns_last cols names n i c name c' name' : shaped (cols ++ [c']) (names ++ [name']) n ->
  cols !! i = Some c -> names !! i = Some name ->
  swap_columns (mk_sframe (cols ++ [c']) (names ++ [name']) n) i (length cols) =
  Ok (mk_sframe (<[i := c']> cols ++ [c]) (<[i := name']> names ++ [name]) n).
Proof.
  intros Hsh Hc Hn. pose proof (lookup_lt_Some _ _ _ Hc) as Hlt. pose proof (sh_length _ _ _ (shaped_init _ _ _ _ _ Hsh)) as Hl.
  unfold swap_columns, num_columns. cbn [columns column_names]. rewrite length_app. cbn [length].
  rewrite (proj2 (Nat.ltb_lt i _)), (proj2 (Nat.ltb_lt _ (_ + 1))) by lia. cbn [assert obind].
  pose proof (swap_at_last i cols c c' Hc) as E1. pose proof (swap_at_last i names name name' Hn) as E2. rewrite Hl in E2.
  rewrite E1, E2. cbn [obind]. apply create_arrays_shaped; [by destruct (<[i:=c']> cols)|].
  by eapply shaped_swap.
Qed.

Lemma remove_column_last cols names n c name : cols <> [] -> shaped (cols ++ [c]) (names ++ [name]) n ->
  remove_column (mk_sframe (cols ++ [c]) (names ++ [name]) n) (length cols) = Ok (mk_sframe cols names n).
Proof.
  intros Hne Hsh. pose proof (shaped_init _ _ _ _ _ Hsh) as Hsh'.
  assert (forall A (l : list A) x, delete (length l) (l ++ [x]) = l) as Hdel.
  { clear. intros A l x. rewrite delete_take_drop, take_app_length.
    by rewrite drop_ge, app_nil_r by (rewrite length_app; cbn; lia). }
  unfold remove_column, num_columns. cbn [columns column_names]. rewrite length_app, (proj2 (Nat.ltb_lt _ _)) by (cbn; lia).
  cbn [assert obind]. rewrite Hdel. rewrite <- (sh_length _ _ _ Hsh'), Hdel. by apply create_arrays_shaped.
Qed.

Lemma replace_column_spec sf c name i : wf sf -> sa_size c = nrows sf -> find_name (column_names sf) name = Some i ->
  replace_column sf c name = Ok (mk_sframe (<[i := c]> (columns sf)) (column_names sf) (nrows sf)).
Proof.
  intros [Hs Hl Hn _ _] Hc Hi. destruct sf as [cols names n]. cbn [columns column_names nrows] in *.
  assert (shaped cols names n) as Hsh by done. pose proof (find_name_Some _ _ _ Hi) as Hname.
  assert (i < length cols)%nat as Hlt by (rewrite <- Hl; by eapply lookup_lt_Some).
  destruct (lookup_lt_is_Some_2 cols i Hlt) as [old Hold].
  assert (cols <> []) as Hne by (intros ->; cbn in Hlt; lia).
  unfold replace_column, contains_column. cbn [column_names].
  rewrite (proj2 (contains_spec names name)) by (by eapply list_elem_of_lookup_2). cbn [assert obind].
  destruct (tmp_name_ok names ("__" +:+ name +:+ "__")) as (tmp & -> & Htmp & Htne); [done|]. cbn [of_option obind].
  rewrite add_column_spec by done. cbn [obind]. unfold column_index. cbn [column_names].
  rewrite (find_name_app _ _ _ i Hi), find_name_new, Hl by done. cbn [obind].
  assert (shaped (cols ++ [c]) (names ++ [tmp]) n) as Hsh1 by (by apply shaped_snoc).
  rewrite (swap_columns_last cols names n i old name) by done. cbn [obind].
  assert (shaped (<[i:=c]> cols ++ [old]) (<[i:=tmp]> names ++ [name]) n) as Hsh2.
  { eapply (shaped_swap _ _ _ i (length cols)); [exact Hsh1|by apply swap_at_last|]. rewrite <- Hl. by apply swap_at_last. }
  rewrite <- (length_insert cols i c), remove_column_last; [|by destruct i, cols|done].
  cbn [obind]. unfold set_column_name, num_columns. cbn [columns column_names nrows].
  rewrite length_insert, (proj2 (Nat.ltb_lt _ _)) by done. cbn [assert obind].
  rewrite list_insert_insert_eq. by rewrite (list_insert_id names i name).
Qed.

(** ** Frames *)

(** The frames a program can build: from columns, by writing rows, and by the
    operations on frames; a column that is added is one that was written. *)
Inductive built : sframe -> Prop :=
| built_columns cols given fail sf :
    Forall typed_column cols -> create_arrays_for_reading cols given fail = Ok sf -> built sf
| built_written fmt_double ptime (epoch : ptime) add_seconds to_iso_string given types n fail w ops w' :
    Forall (fun g => g <> ""%string) given -> open_for_write given types n fail = Ok w ->
    Forall (fun o => (o.1 < n)%nat /\ length o.2 = length types) ops ->
    write_all fmt_double epoch add_seconds to_iso_string ops w = Ok w' -> built (close w')
| built_select sf names sf' : built sf -> select_columns sf names = Ok sf' -> built sf'
| built_add sf c name sf' : built sf -> typed_column c -> add_column sf c name = Ok sf' -> built sf'
| built_remove sf i sf' : built sf -> remove_column sf i = Ok sf' -> built sf'
| built_swap sf i j sf' : built sf -> swap_columns sf i j = Ok sf' -> built sf'
| built_replace sf c name sf' : built sf -> typed_column c -> replace_column sf c name = Ok sf' -> built sf'
| built_append sf other sf' : built sf -> built other -> append sf other = Ok sf' -> built sf'
| built_rename sf i name sf' : built sf -> name <> ""%string ->
    (forall j, j <> i -> column_names sf !! j <> Some name) -> set_column_name sf i name = Ok sf' -> built sf'.

(** Writes that succeed are writes of rows that convert. *)
Lemma write_all_converts fmt_double ptime (epoch : ptime) add_seconds to_iso_string ops : forall w w',
  write_all fmt_double epoch add_seconds to_iso_string ops w = Ok w' ->
  exists ops', Forall2 (fun o o' => o'.1 = o.1 /\
    convert_row fmt_double epoch add_seconds to_iso_string o.2 (w_types w) = Ok o'.2) ops ops'.
Proof.
  induction ops as [|[s r] ops IH]; intros w w'; cbn [write_all]; [exists []; constructor|].
  unfold write at 1. destruct (convert_row _ _ _ _ r (w_types w)) as [r'| |] eqn:E; try done. cbn [obind].
  destruct (write_values s r' (data w)) as [d| |]; try done. cbn [omap_ok obind]. intros (ops' & H)%IH.
  exists ((s, r') :: ops'). constructor; [done|exact H].
Qed.

Lemma add_column_wf sf c name sf' : wf sf -> typed_column c -> add_column sf c name = Ok sf' -> wf sf'.
Proof.
  intros Hwf Hc. unfold add_column. destruct (_ =? 0)%nat.
  { intros H. apply create_arrays_wf in H as [? _]; auto. }
  destruct (_ =? _)%nat; [|done]. destruct (negb _); [|done]. cbn [assert obind].
  destruct (generate_valid_column_name _ _); [|done]. cbn [of_option obind].
  intros H. apply create_arrays_wf in H as [? _]; [done|]. apply Forall_app. split; [apply Hwf|auto].
Qed.

Lemma replace_column_wf sf c name sf' : wf sf -> typed_column c -> replace_column sf c name = Ok sf' -> wf sf'.
Proof.
  intros Hwf Hc H. destruct (find_name (column_names sf) name) as [i|] eqn:Hi.
  - pose proof (find_name_Some _ _ _ Hi) as Hn. destruct (decide (sa_size c = nrows sf)) as [Es|Es].
    + rewrite (replace_column_spec sf c name i) in H by done. injection H as <-. destruct Hwf as [Hs Hl Hok He Ht].
      split; cbn; try done; [by apply Forall_insert|by rewrite length_insert| |by apply Forall_insert].
      intros E. apply He. apply (f_equal length) in E. rewrite length_insert in E. by destruct (columns sf).
    + exfalso. revert H. unfold replace_column. destruct (contains_column sf name); [|done]. cbn [assert obind].
      destruct (tmp_name _ _ _) as [tmp|]; [|done]. cbn [of_option obind]. unfold add_column, num_columns, num_rows.
      rewrite (proj2 (Nat.eqb_neq _ 0)); cycle 1.
      { rewrite <- (wf_length _ Hwf). apply lookup_lt_Some in Hn. lia. }
      by rewrite (proj2 (Nat.eqb_neq _ _)) by congruence.
  - exfalso. revert H. unfold replace_column, contains_column. destruct (contains (column_names sf) name) eqn:E; [|done].
    apply contains_spec, find_name_elem in E as [i E]. congruence.
Qed.



(** C27. [replace_column] changes one column and nothing else: for a column of the
    frame and a new column of the same length, its sequence of adding the new
    column under a temporary name, swapping, removing the old column and renaming
    succeeds, and the new column stands at the place of the old one, under its
    name, among the same columns. *)
Theorem replace_column_correct sf c name i :
  wf sf -> sa_size c = nrows sf -> find_name (column_names sf) name = Some i ->
  replace_column sf c name = Ok (mk_sframe (<[i := c]> (columns sf)) (column_names sf) (nrows sf)).
Proof. apply replace_column_spec. Qed.

Lemma replace_column_correct_witness :
  let c := mk_sarray [[FInt 1]] INTEGER in let d := mk_sarray [[FString []]] STRING in
  replace_column (mk_sframe [c; c] ["a"; "__a__"]%string 1) d "a" = Ok (mk_sframe [d; c] ["a"; "__a__"]%string 1).
Proof.
  intros c d. apply (replace_column_correct (mk_sframe [c; c] ["a"; "__a__"]%string 1) d "a" 0); try reflexivity.
  split; cbn; try done.
  - repeat constructor.
  - split; [|repeat constructor; done]. apply all_unique_spec. reflexivity.
  - repeat constructor.
Defined.

(** [open_for_write] does not keep column names unique: when the names given
    are pairwise different, a name is generated for an empty one and the others
    are taken over without being compared with it, so that a frame with an empty
    name followed by the name that is generated for it gets two columns of that
    name, even with [fail_on_column_names]. *)
Theorem open_for_write_duplicates types n : length types = 2%nat ->
  exists w, open_for_write [""; "X1"]%string types n true = Ok w /\ w_names w = ["X1"; "X1"]%string /\ ~ wf (close w).
Proof.
  intros Hl. destruct types as [|a [|b [|]]]; try done. eexists. split_and!; [reflexivity|reflexivity|].
  intros [_ _ [Hd _] _ _]. apply all_unique_spec in Hd. done.
Qed.
