(* ===== verification/Join.v ===== *)
(** Joins: the model of [sframe/join_impl.hpp], [sframe/join_impl.cpp] and
    [sframe/join.cpp].

    A GRACE hash join splits both frames into partitions by the hash of their
    join columns, each row serialized into a string, loads one partition of the
    left frame at a time into a hash table, and looks up the rows of the same
    partition of the right frame in it.

    Threads: while a frame is partitioned, several threads read their own segments
    of it and write rows to shared partitions, one row at a time under a lock; the
    order in which they get to write is an argument, a list of thread numbers.
    While the right partition is looked up, each thread writes to a segment of
    the output of its own and the table is only read, except for the marks, which
    are only ever set; the threads are run one after the other.  The number of
    processors and the order in which an [unordered_map] is traversed are
    arguments. *)
From Stdlib Require Import ZArith Lia List Bool.
From stdpp Require Import prelude gmap strings.
From S2P Require Import Prelude.
From S2P Require Import Archive.
From S2P Require Import Serialization.
From S2P Require Import FlexibleType.
From S2P Require Import Hash.
From S2P Require Import FlexibleOps.
From S2P Require Import SFrame.
Import SFrame.

Inductive join_type_t := INNER_JOIN | LEFT_JOIN | RIGHT_JOIN | FULL_JOIN.

(** ** The hash table *)

Record hash_join_row := mk_group { rows : list row; matched : bool }.
Definition empty_vt : hash_join_row := mk_group [] false.
Record join_hash_table := mk_table {
  hash_table : gmap Z (list hash_join_row);
  hash_positions : list nat
}.
Definition table_new (hp : list nat) : join_hash_table := mk_table ∅ hp.

(** The loop of [join_values_equal] over the pairs of positions *)
Fixpoint values_equal (own other_positions : list nat) (r other : row) : outcome bool :=
  match own, other_positions with
  | i :: own, j :: other_positions =>
      match r !! i, other !! j with
      | Some x, Some y => if approx_equal x y then values_equal own other_positions r other else Ok false
      | _, _ => Undef
      end
  | _, _ => Ok true
  end.
Definition join_values_equal (t : join_hash_table) (r other : row) (positions : list nat) : outcome bool :=
  if (length positions =? 0)%nat then Ok ((length r =? 0)%nat && (length other =? 0)%nat)
  else
    _ <-? assert (length (hash_positions t) =? length positions)%nat;
    values_equal (hash_positions t) positions r other.

(** The first row of a group; a group is never empty *)
Definition first_row (g : hash_join_row) : outcome row :=
  match rows g with r :: _ => Ok r | [] => Throws end.

(** The groups with the same hash: the row joins the group with its key, or is
    the first of a new one *)
Fixpoint add_to_groups (t : join_hash_table) (r : row) (gs : list hash_join_row)
    : outcome (bool * list hash_join_row) :=
  match gs with
  | [] => Ok (true, [mk_group [r] false])
  | g :: gs =>
      r0 <-? first_row g;
      eq <-? join_values_equal t r0 r (hash_positions t);
      if (eq : bool) then Ok (false, mk_group (rows g ++ [r]) (matched g) :: gs)
      else omap_ok (fun p => (p.1, g :: p.2)) (add_to_groups t r gs)
  end.
Definition add_row (t : join_hash_table) (r : row) : outcome (bool * join_hash_table) :=
  the_hash_key <-? of_option (compute_hash_from_row r (hash_positions t));
  match hash_table t !! the_hash_key with
  | None =>
      Ok (true, mk_table (<[the_hash_key := [mk_group [r] false]]> (hash_table t)) (hash_positions t))
  | Some gs =>
      _ <-? assert (0 <? length gs)%nat;
      p <-? add_to_groups t r gs;
      Ok (p.1, mk_table (<[the_hash_key := p.2]> (hash_table t)) (hash_positions t))
  end.

(** The group that matches a row, and the groups with it marked *)
Fixpoint match_groups (t : join_hash_table) (r : row) (positions : list nat) (mark : bool)
    (gs : list hash_join_row) : outcome (hash_join_row * list hash_join_row) :=
  match gs with
  | [] => Ok (empty_vt, [])
  | g :: gs =>
      r0 <-? of_option (head (rows g));
      eq <-? join_values_equal t r0 r positions;
      if (eq : bool) then
        let g := if mark then mk_group (rows g) true else g in Ok (g, g :: gs)
      else omap_ok (fun p => (p.1, g :: p.2)) (match_groups t r positions mark gs)
  end.
Definition get_matching_rows (t : join_hash_table) (r : row) (positions : list nat) (mark : bool)
    : outcome (hash_join_row * join_hash_table) :=
  the_hash_key <-? of_option (compute_hash_from_row r positions);
  match hash_table t !! the_hash_key with
  | None => Ok (empty_vt, t)
  | Some gs =>
      p <-? match_groups t r positions mark gs;
      Ok (p.1, mk_table (<[the_hash_key := p.2]> (hash_table t)) (hash_positions t))
  end.

(** ** The executor *)

Record executor := mk_exec {
  left_frame : sframe;
  right_frame : sframe;
  left_join_positions : list nat;
  right_join_positions : list nat;
  max_buffer_size : nat;
  left_join : bool;
  right_join : bool;
  reverse_output_column_order : bool
}.
Definition get_num_cells (sf : sframe) : nat := num_rows sf * num_columns sf.

(** [_right_to_left_join_positions]: the constructor asserts that the keys are
    pairwise different *)
Definition right_to_left (ex : executor) : list (nat * nat) :=
  zip (right_join_positions ex) (left_join_positions ex).
Definition is_right_key (ex : executor) (j : nat) : bool := existsb (Nat.eqb j) (right_join_positions ex).
Definition left_position (ex : executor) (j : nat) : option nat :=
  option_map snd (List.find (fun p => (p.1 =? j)%nat) (right_to_left ex)).

Definition hash_join_executor (l r : sframe) (lp rp : list nat) (join_type : join_type_t)
    (max_buffer_size : nat) : outcome executor :=
  let lj := match join_type with LEFT_JOIN | FULL_JOIN => true | _ => false end in
  let rj := match join_type with RIGHT_JOIN | FULL_JOIN => true | _ => false end in
  let ex :=
    if (get_num_cells r <? get_num_cells l)%nat then
      let differ := negb (Bool.eqb lj rj) in
      mk_exec r l rp lp max_buffer_size (if differ then negb lj else lj) (if differ then negb rj else rj) true
    else mk_exec l r lp rp max_buffer_size lj rj false in
  _ <-? assert (length (left_join_positions ex) =? length (right_join_positions ex))%nat;
  _ <-? assert (bool_decide (NoDup (right_join_positions ex)));
  Ok ex.

(** ** Partitioning *)

(** The rows of the segments in the order in which the threads get to handle
    them: [sched] lists the threads; a thread that is done is passed over, and what
    is left when the list ends is handled thread by thread. *)
Fixpoint interleave {A} (sched : list nat) (segs : list (list A)) : list A :=
  match sched with
  | [] => concat segs
  | i :: sched =>
      match segs !! i with
      | Some (r :: rs) => r :: interleave sched (<[i := rs]> segs)
      | _ => interleave sched segs
      end
  end.

Definition choose_number_of_grace_partitions (ex : executor) (sf : sframe) : outcome nat :=
  if (max_buffer_size ex =? 0)%nat then Undef
  else Ok (get_num_cells sf / max_buffer_size ex + 1)%nat.

Section conversions.
(** The parameters of the conversion of a value to the type of its column *)
Context (fmt_double : Z -> bytes) {ptime : Type} (time_t_epoch : ptime)
  (add_seconds : ptime -> Z -> ptime) (to_iso_string : ptime -> bytes).
Abbreviation write := (write fmt_double time_t_epoch add_seconds to_iso_string).
Abbreviation write_move := (write_move fmt_double time_t_epoch add_seconds to_iso_string).

Definition pack_row (r : row) : outcome bytes := of_option (to_bytes (wfor FlexibleType.save) r).
Definition unpack_row (val : bytes) (num_cols : nat) : outcome row :=
  of_option (of_bytes (rrepeat num_cols FlexibleType.load) val).

Fixpoint write_partitions (join_col_nums : list nat) (num_partitions : nat) (rs : list row) (w : writer)
    : outcome writer :=
  match rs with
  | [] => Ok w
  | r :: rs =>
      hash_val <-? of_option (compute_hash_from_row r join_col_nums);
      s <-? pack_row r;
      w <-? write_move (Z.to_nat (hash_val mod Z.of_nat num_partitions)) [FString s] w;
      write_partitions join_col_nums num_partitions rs w
  end.
Definition grace_partition_frame (cpu_count : nat) (sched : list nat) (sf : sframe)
    (join_col_nums : list nat) (num_partitions : nat) : outcome sframe :=
  if (num_partitions =? 1)%nat then Ok sf
  else if (num_partitions <? 1)%nat then Throws
  else
    w <-? open_for_write ["data"]%string [STRING] num_partitions true;
    rdr <-? get_reader_even sf cpu_count;
    omap_ok close (write_partitions join_col_nums num_partitions (interleave sched rdr) w).

(** ** Joining *)

(** [init_result_frame]: the columns of the left frame and the columns of the
    right one that are not join columns *)
Definition right_values {A} (ex : executor) (l : list A) : list A :=
  map snd (List.filter (fun p => negb (is_right_key ex p.1)) (zip (seq 0 (length l)) l)).
Definition result_segments (cpu_count : nat) (ex : executor) : nat :=
  Nat.max (num_segments (left_frame ex))
    (Nat.max (num_segments (right_frame ex)) (cpu_count * Nat.max 1 (Nat.log2 cpu_count))).
Definition init_result_frame (cpu_count : nat) (ex : executor) : outcome writer :=
  open_for_write (column_names (left_frame ex) ++ right_values ex (column_names (right_frame ex)))
    (column_types (left_frame ex) ++ right_values ex (column_types (right_frame ex)))
    (result_segments cpu_count ex) false.
(** [_changed_dup_names]: for each column that comes from the right frame, its
    name there, if the result frame has it under a name of another length *)
Definition changed_dup_names (ex : executor) (w : writer) : list (option string) :=
  if reverse_output_column_order ex then
    zip_with (fun n n' => if (String.length n =? String.length n')%nat then None else Some n')
      (drop (num_columns (left_frame ex)) (w_names w)) (right_values ex (column_names (right_frame ex)))
  else [].

(** [std::copy(l.begin(), l.end(), r.begin())] *)
Definition copy_onto (l r : row) : outcome row :=
  if (length l <=? length r)%nat then Ok (l ++ drop (length l) r) else Undef.

(** The first loop of [merge_rows_for_output]: row [i] is copied onto row [i] of
    the output, [left_repeats] times *)
Fixpoint emit_left (left_repeats : nat) (left_rows rows_to_emit : list row) : outcome (list row) :=
  match left_rows, rows_to_emit with
  | [], _ => Ok rows_to_emit
  | l :: left_rows, r :: rows_to_emit =>
      x <-? (if (left_repeats =? 0)%nat then Ok r else copy_onto l r);
      omap_ok (cons x) (emit_left left_repeats left_rows rows_to_emit)
  | _ :: _, [] => if (left_repeats =? 0)%nat then Ok [] else Undef
  end.

(** The values of a right row into an output row: [j] is the column and [at_] the
    place of the next value that is not a join column; without left rows the join
    columns are taken from the right *)
Fixpoint emit_values (ex : executor) (no_left : bool) (j at_ : nat) (r out : row) : outcome row :=
  match r with
  | [] => Ok out
  | v :: r =>
      match left_position ex j with
      | None =>
          if (at_ <? length out)%nat
          then emit_values ex no_left (S j) (S at_) r (<[at_ := v]> out) else Undef
      | Some i =>
          if no_left then
            if (i <? length out)%nat then emit_values ex no_left (S j) at_ r (<[i := v]> out) else Undef
          else emit_values ex no_left (S j) at_ r out
      end
  end.
Fixpoint emit_right (ex : executor) (no_left : bool) (num_values : nat) (right_rows rows_to_emit : list row)
    : outcome (list row) :=
  match right_rows, rows_to_emit with
  | [], _ => Ok rows_to_emit
  | r :: right_rows, out :: rows_to_emit =>
      x <-? emit_values ex no_left 0 (length out - num_values) r out;
      omap_ok (cons x) (emit_right ex no_left num_values right_rows rows_to_emit)
  | _ :: _, [] => Undef
  end.

(** The rows that [merge_rows_for_output] emits; [ncols] is the number of columns
    of the result.  The second loop goes over the right rows [right_repeats]
    times. *)
Definition merge_rows_for_output (ex : executor) (ncols : nat) (left_rows right_rows : list row)
    : outcome (list row) :=
  let L := length left_rows in let R := length right_rows in
  if (L =? 0)%nat && (R =? 0)%nat then Ok []
  else
    let num_emitted_rows := if (L * R =? 0)%nat then Nat.max L R else (L * R)%nat in
    let rows_to_emit := replicate num_emitted_rows (replicate ncols FUndefined) in
    rows_to_emit <-?
      (if (0 <? L)%nat then
         r <-? emit_left (num_emitted_rows / L) left_rows rows_to_emit;
         _ <-? assert (L =? length rows_to_emit)%nat;
         Ok r
       else Ok rows_to_emit);
    match right_rows with
    | [] => Ok rows_to_emit
    | r0 :: _ =>
        let right_repeats := (num_emitted_rows / R)%nat in
        _ <-? assert (length (right_join_positions ex) <=? length r0)%nat;
        let num_values := (length r0 - length (right_join_positions ex))%nat in
        r <-? emit_right ex (L =? 0)%nat num_values
                (concat (replicate right_repeats right_rows)) rows_to_emit;
        _ <-? assert (right_repeats * R =? length rows_to_emit)%nat;
        Ok r
    end.

Fixpoint write_rows (segment : nat) (rs : list row) (w : writer) : outcome writer :=
  match rs with [] => Ok w | r :: rs => w <-? write segment r w; write_rows segment rs w end.

(** A row of a partition, or of an unpartitioned frame *)
Definition get_row (partitioned : bool) (num_cols : nat) (r : row) : outcome row :=
  if partitioned then
    match r with FString s :: _ => unpack_row s num_cols | _ => Throws end
  else Ok r.

(** Loads a partition of the left frame *)
Fixpoint load_table (partitioned : bool) (num_cols : nat) (rs : list row) (t : join_hash_table)
    : outcome join_hash_table :=
  match rs with
  | [] => Ok t
  | r :: rs =>
      r <-? get_row partitioned num_cols r;
      p <-? add_row t r;
      load_table partitioned num_cols rs p.2
  end.

(** Looks up a logical segment of a partition of the right frame *)
Fixpoint probe (ex : executor) (partitioned : bool) (segment : nat) (rs : list row)
    (t : join_hash_table) (w : writer) : outcome (join_hash_table * writer) :=
  match rs with
  | [] => Ok (t, w)
  | r :: rs =>
      r <-? get_row partitioned (num_columns (right_frame ex)) r;
      p <-? get_matching_rows t r (right_join_positions ex) true;
      w <-? (if (0 <? length (rows p.1))%nat || right_join ex then
               out <-? merge_rows_for_output ex (length (w_types w)) (rows p.1) [r];
               write_rows segment out w
             else Ok w);
      probe ex partitioned segment rs p.2 w
  end.
Fixpoint probe_all (ex : executor) (partitioned : bool) (segment : nat) (segs : list (list row))
    (t : join_hash_table) (w : writer) : outcome (join_hash_table * writer) :=
  match segs with
  | [] => Ok (t, w)
  | rs :: segs =>
      p <-? probe ex partitioned segment rs t w;
      probe_all ex partitioned (S segment) segs p.1 p.2
  end.

(** The groups of the table that no row matched, for a left join; [seg_cntr] is
    not advanced, so that all go to the first segment *)
Fixpoint emit_unmatched (ex : executor) (gs : list hash_join_row) (w : writer) : outcome writer :=
  match gs with
  | [] => Ok w
  | g :: gs =>
      w <-? (if negb (matched g) then
               out <-? merge_rows_for_output ex (length (w_types w)) (rows g) [];
               if (w_segments w =? 0)%nat then Undef else write_rows (0 mod w_segments w) out w
             else Ok w);
      emit_unmatched ex gs w
  end.

Definition MIN_SEGMENT_LENGTH : nat := 1024.
(** The sizes of the logical segments of a right partition: [n] sizes, the
    leftovers in the first *)
Fixpoint split_sizes (n : nat) (elements_per elements_left : nat) : list nat * nat :=
  match n with
  | O => ([], elements_left)
  | S n =>
      if (elements_per <=? elements_left)%nat then
        let p := split_sizes n elements_per (elements_left - elements_per) in (elements_per :: p.1, p.2)
      else if (MIN_SEGMENT_LENGTH <? elements_left)%nat then
        let p := split_sizes n elements_per 0 in (elements_left :: p.1, p.2)
      else let p := split_sizes n elements_per elements_left in (0%nat :: p.1, p.2)
  end.
Definition logical_sizes (n elements : nat) : outcome (list nat) :=
  if (n =? 0)%nat then Undef
  else
    let p := split_sizes n (elements / n) elements in
    Ok (match p.1 with s :: sizes => (s + p.2)%nat :: sizes | [] => [] end).

(** The order in which the table is traversed *)
Context (traverse : gmap Z (list hash_join_row) -> list (Z * list hash_join_row)).

(** The loop over the partitions *)
Fixpoint join_partitions (ex : executor) (partitioned : bool) (left_segs : list (list row))
    (right_segs : list (list (list row))) (w : writer) : outcome writer :=
  match left_segs, right_segs with
  | ls :: left_segs, rs :: right_segs =>
      cur_ht <-? load_table partitioned (num_columns (left_frame ex)) ls (table_new (left_join_positions ex));
      p <-? probe_all ex partitioned 0 rs cur_ht w;
      w <-? (if left_join ex then emit_unmatched ex (concat (map snd (traverse (hash_table p.1)))) p.2 else Ok p.2);
      join_partitions ex partitioned left_segs right_segs w
  | _, _ => Ok w
  end.

(** Cuts a list into parts of [n] elements *)
Fixpoint chunks {A} (fuel n : nat) (l : list A) : list (list A) :=
  match fuel with O => [] | S fuel => take n l :: chunks fuel n (drop n l) end.

(** ** The order of the columns of the result *)

(** [while (swapped_columns[cur_column_idx].use_count() != 0) ++cur_column_idx] *)
Fixpoint next_hole {A} (fuel : nat) (arr : list (option A)) (cur : nat) : outcome nat :=
  match fuel with
  | O => Undef
  | S fuel =>
      match arr !! cur with
      | Some (Some _) => next_hole fuel arr (S cur)
      | Some None => Ok cur
      | None => Undef
      end
  end.
(** The loops that fill up the columns: each column goes to the next place that
    is free *)
Fixpoint fill_columns {A} (items : list A) (cur : nat) (arr : list (option A)) : outcome (nat * list (option A)) :=
  match items with
  | [] => Ok (cur, arr)
  | x :: items =>
      cur <-? next_hole (S (length arr)) arr cur;
      fill_columns items (S cur) (<[cur := Some x]> arr)
  end.

(** The places of the join columns *)
Fixpoint place_keys {A} (keys : list (nat * A)) (arr : list (option A)) : outcome (list (option A)) :=
  match keys with
  | [] => Ok arr
  | (i, x) :: keys =>
      if (i <? length arr)%nat then place_keys keys (<[i := Some x]> arr) else Undef
  end.
Definition key_columns (ex : executor) (result : sframe) : outcome (list (nat * (sarray * string))) :=
  otraverse (fun p => c <-? select_column result p.2;
                      n <-? column_name (right_frame ex) p.1; Ok (p.1, (c, n))) (right_to_left ex).
Definition right_columns (ex : executor) (result : sframe) (changed : list (option string))
    : list (sarray * string) :=
  zip_with (fun p c => (p.1, match c with Some n => n | None => p.2 end))
    (drop (num_columns (left_frame ex)) (zip (columns result) (column_names result))) changed.
Definition left_columns (ex : executor) (result : sframe) : list (sarray * string) :=
  map snd (List.filter (fun p => negb (existsb (Nat.eqb p.1) (left_join_positions ex)))
    (zip (seq 0 (num_columns (left_frame ex))) (zip (columns result) (column_names result)))).

Definition swap_result (ex : executor) (result : sframe) (changed : list (option string)) : outcome sframe :=
  keys <-? key_columns ex result;
  arr <-? place_keys keys (replicate (num_columns result) None);
  p <-? fill_columns (right_columns ex result changed) 0 arr;
  p <-? fill_columns (left_columns ex result) p.1 p.2;
  cols <-? of_option (mapM id p.2);
  create_arrays_for_reading (map fst cols) (map snd cols) false.

Definition grace_hash_join (cpu_count : nat) (sched_left sched_right : list nat) (ex : executor) : outcome sframe :=
  left_partitions <-? choose_number_of_grace_partitions ex (left_frame ex);
  right_partitions <-? choose_number_of_grace_partitions ex (right_frame ex);
  let num_partitions := Nat.min left_partitions right_partitions in
  let partitioned := negb (num_partitions =? 1)%nat in
  grace_left <-? grace_partition_frame cpu_count sched_left (left_frame ex) (left_join_positions ex) num_partitions;
  grace_right <-? grace_partition_frame cpu_count sched_right (right_frame ex) (right_join_positions ex) num_partitions;
  w <-? init_result_frame cpu_count ex;
  _ <-? assert (num_rows grace_left =? num_rows (left_frame ex))%nat;
  _ <-? assert (num_rows grace_right =? num_rows (right_frame ex))%nat;
  _ <-? assert (negb partitioned || (num_segments grace_left =? num_segments grace_right)%nat);
  let segs := if partitioned then num_segments grace_left else 1%nat in
  lengths <-? (if partitioned then otraverse (segment_length grace_right) (seq 0 segs)
               else Ok [num_rows grace_right]);
  sizes <-? omap_ok (@concat nat) (otraverse (logical_sizes (w_segments w)) lengths);
  _ <-? assert (length sizes =? segs * w_segments w)%nat;
  l_rdr <-? (if partitioned then get_reader grace_left else get_reader_even grace_left segs);
  r_rdr <-? get_reader_lengths grace_right sizes;
  w' <-? join_partitions ex partitioned l_rdr (chunks segs (w_segments w) r_rdr) w;
  let result := close w' in
  if reverse_output_column_order ex then swap_result ex result (changed_dup_names ex w) else Ok result.

(** ** The entry point *)

Definition lower (c : Ascii.ascii) : Ascii.ascii :=
  let n := Ascii.N_of_ascii c in
  if (65 <=? n)%N && (n <=? 90)%N then Ascii.ascii_of_N (n + 32) else c.
Fixpoint to_lower (s : string) : string :=
  match s with EmptyString => EmptyString | String c s => String (lower c) (to_lower s) end.
Definition join_type_of (s : string) : outcome join_type_t :=
  let s := to_lower s in
  if String.eqb s "outer" then Ok FULL_JOIN else if String.eqb s "left" then Ok LEFT_JOIN
  else if String.eqb s "right" then Ok RIGHT_JOIN else if String.eqb s "inner" then Ok INNER_JOIN
  else Throws.

(** [join]: [join_columns] is a [std::map] from left to right column names, in the
    order of its keys *)
Definition join (cpu_count : nat) (sched_left sched_right : list nat) (sf_left sf_right : sframe)
    (join_type : string) (join_columns : list (string * string)) (max_buffer_size : nat) : outcome sframe :=
  _ <-? assert (negb (num_rows sf_left =? 0)%nat && negb (num_columns sf_left =? 0)%nat);
  _ <-? assert (negb (num_rows sf_right =? 0)%nat && negb (num_columns sf_right =? 0)%nat);
  positions <-? otraverse (fun p =>
    i <-? column_index sf_left p.1; j <-? column_index sf_right p.2;
    ti <-? column_type sf_left i; tj <-? column_type sf_right j;
    _ <-? assert (bool_decide (ti = tj)); Ok (i, j)) join_columns;
  in_join_type <-? join_type_of join_type;
  ex <-? hash_join_executor sf_left sf_right (map fst positions) (map snd positions) in_join_type max_buffer_size;
  grace_hash_join cpu_count sched_left sched_right ex.
End conversions.
