(* ===== verification/JoinCorrect.v ===== *)
(** Correctness of the hash table and of the join of one partition: the rows that
    are written are the rows of the relational join, in some order. *)
From Stdlib Require Import ZArith Lia List Bool.
From stdpp Require Import prelude gmap strings.
From S2P Require Import Prelude.
From S2P Require Import Archive.
From S2P Require Import Serialization.
From S2P Require Import FlexibleType.
From S2P Require Import Hash.
From S2P Require Import FlexibleOps.
From S2P Require Import SFrame.
From S2P Require Import SFrameCorrect.
From S2P Require Import Join.
Import SFrame.

(** ** Lists *)

Lemma existsb_map {A B} (f : B -> bool) (g : A -> B) l : existsb f (map g l) = existsb (fun x => f (g x)) l.
Proof. induction l; cbn; congruence. Qed.

Lemma Permutation_filter {A} (f : A -> bool) l l' : l ≡ₚ l' -> List.filter f l ≡ₚ List.filter f l'.
Proof.
  induction 1 as [|x l l' _ IH|x y l|l1 l2 l3 _ IH1 _ IH2]; cbn; [done| | |by etrans].
  - destruct (f x); [by constructor|done].
  - destruct (f x), (f y); try done. constructor.
Qed.

Lemma concat_map_app {A B} (f g : A -> list B) l :
  concat (map (fun i => f i ++ g i) l) ≡ₚ concat (map f l) ++ concat (map g l).
Proof.
  induction l as [|x l IH]; [done|]. cbn. rewrite IH, <- !app_assoc. apply Permutation_app_head.
  rewrite !app_assoc. apply Permutation_app_tail, Permutation_app_comm.
Qed.

(** A list is the concatenation of its parts. *)
Lemma partition_perm {A} (part : A -> nat) n l : Forall (fun x => part x < n)%nat l ->
  concat (map (fun i => List.filter (fun x => (part x =? i)%nat) l) (seq 0 n)) ≡ₚ l.
Proof.
  induction 1 as [|x l Hx _ IH].
  { cbn. assert (forall k m, concat (map (fun _ : nat => @nil A) (seq k m)) = []) as H; [|by rewrite H].
    intros k m. revert k. induction m; intros k; cbn; auto. }
  transitivity (concat (map (fun i => (if (part x =? i)%nat then [x] else []) ++ List.filter (fun y => (part y =? i)%nat) l) (seq 0 n))).
  { apply reflexive_eq. f_equal. apply map_ext. intros i. cbn. by destruct (part x =? i)%nat. }
  rewrite concat_map_app, IH.
  assert (forall k m, (k <= part x < k + m)%nat -> concat (map (fun i => if (part x =? i)%nat then [x] else []) (seq k m)) = [x]) as Hone; [|rewrite Hone by lia; done].
  intros k m. revert k. induction m as [|m IHm]; intros k Hk; [lia|]. cbn. destruct (Nat.eqb_spec (part x) k) as [<-|Hne]; cbn.
  - f_equal. clear. assert (forall k m, (part x < k)%nat -> concat (map (fun i => if (part x =? i)%nat then [x] else []) (seq k m)) = []) as H; [|apply H; lia].
    intros k m'. revert k. induction m' as [|m' IH]; intros k Hk; [done|]. cbn. rewrite (proj2 (Nat.eqb_neq _ _)) by lia. apply IH. lia.
  - apply IHm. lia.
Qed.

(** ** Keys *)

(** The values of a row at some positions *)
Definition project (positions : list nat) (r : row) : row := map (fun i => default FUndefined (r !! i)) positions.

(** The comparison of two keys, value by value *)
Fixpoint keys_eq (k k' : row) : bool :=
  match k, k' with
  | x :: k, y :: k' => approx_equal x y && keys_eq k k'
  | _, _ => true
  end.

Lemma compute_hash_project r positions : Forall (fun i => i < length r)%nat positions ->
  compute_hash_from_row r positions = Some (hash_key (project positions r)).
Proof.
  unfold compute_hash_from_row, hash_key. generalize 0 as h.
  induction positions as [|i positions IH]; intros h Hp; [done|].
  apply Forall_cons in Hp as [Hi Hp]. cbn [fold_left project map]. destruct (lookup_lt_is_Some_2 r i Hi) as [x ->].
  cbn [mbind option_bind]. by apply IH.
Qed.

Lemma values_equal_project own other r r' :
  Forall (fun i => i < length r)%nat own -> Forall (fun i => i < length r')%nat other -> length own = length other ->
  values_equal own other r r' = Ok (keys_eq (project own r) (project other r')).
Proof.
  revert other. induction own as [|i own IH]; intros [|j other] Ho Ho' Hl; try done. cbn [values_equal project map keys_eq].
  apply Forall_cons in Ho as [Hi Ho]. apply Forall_cons in Ho' as [Hj Ho'].
  destruct (lookup_lt_is_Some_2 r i Hi) as [x ->], (lookup_lt_is_Some_2 r' j Hj) as [y ->]. cbn [from_option id].
  destruct (approx_equal x y); [|done]. cbn [andb]. apply IH; [done..|]. by injection Hl.
Qed.

(** ** Groups of rows *)

Section table.
(** The values in the join columns: two of them that compare equal are the same
    value. *)
Context (dom : flexible_type -> Prop)
  (dom_eq : forall x y, dom x -> dom y -> approx_equal x y = true -> x = y).

Lemma keys_eq_same k k' : length k = length k' -> Forall dom k -> Forall dom k' -> keys_eq k k' = true -> k = k'.
Proof.
  revert k'. induction k as [|x k IH]; intros [|y k'] Hl Hk Hk'; try done. cbn.
  apply Forall_cons in Hk as [Hx Hk]. apply Forall_cons in Hk' as [Hy Hk'].
  intros [E1 E2]%andb_true_iff. f_equal; [by apply dom_eq|]. apply IH; auto.
Qed.

Context (lp : list nat) (lp_ne : lp <> []).

(** The rows of the left frame *)
Definition good_left (l : row) : Prop := Forall (fun i => i < length l)%nat lp /\ Forall dom (project lp l).
Abbreviation lkey := (project lp).
(** A key of a row of the right frame *)
Definition good_key (k : row) : Prop := length k = length lp /\ Forall dom k.

Lemma length_lkey l : length (lkey l) = length lp.
Proof. apply length_map. Qed.
Lemma good_lkey l : good_left l -> good_key (lkey l).
Proof. intros [_ H]. split; [apply length_lkey|done]. Qed.

Lemma keys_eq_good k k' : good_key k -> good_key k' -> keys_eq k k' = true -> k = k'.
Proof. intros [? ?] [? ?]. apply keys_eq_same; [congruence|done..]. Qed.

Definition gkey (g : hash_join_row) : row := lkey (default [] (head (rows g))).
Record group_ok (h : Z) (g : hash_join_row) : Prop := {
  go_ne : rows g <> [];
  go_rows : Forall (fun l => good_left l /\ lkey l = gkey g) (rows g);
  go_hash : hash_key (gkey g) = h
}.
(** No two keys of the list compare equal, the earlier on the left. *)
Fixpoint distinct (ks : list row) : Prop :=
  match ks with [] => True | k :: ks => Forall (fun k' => keys_eq k k' = false) ks /\ distinct ks end.
Record bucket_ok (h : Z) (gs : list hash_join_row) : Prop := {
  bo_ne : gs <> [];
  bo_groups : Forall (group_ok h) gs;
  bo_distinct : distinct (map gkey gs)
}.

Lemma group_ok_head h g : group_ok h g -> exists r0 rest, rows g = r0 :: rest /\ good_left r0 /\ lkey r0 = gkey g.
Proof.
  intros [Hne Hr _]. destruct (rows g) as [|r0 rest] eqn:E; [done|]. apply Forall_cons in Hr as [[? ?] _]. eauto.
Qed.
Lemma group_ok_key h g : group_ok h g -> good_key (gkey g).
Proof. intros H. destruct (group_ok_head h g H) as (r0 & _ & _ & Hg & <-). by apply good_lkey. Qed.

Lemma join_values_equal_spec t r0 r positions : hash_positions t = lp -> good_left r0 ->
  Forall (fun i => i < length r)%nat positions -> length positions = length lp ->
  join_values_equal t r0 r positions = Ok (keys_eq (lkey r0) (project positions r)).
Proof.
  intros Ht [Hr0 _] Hr Hl. unfold join_values_equal. rewrite Ht, Hl.
  rewrite (proj2 (Nat.eqb_neq _ 0)) by (by destruct lp). rewrite Nat.eqb_refl. cbn [assert obind].
  by apply values_equal_project.
Qed.

(** ** Adding a row *)

Lemma add_to_groups_cases t l h gs : hash_positions t = lp -> good_left l -> Forall (group_ok h) gs ->
  (exists gs1 g gs2, gs = gs1 ++ g :: gs2 /\ keys_eq (gkey g) (lkey l) = true /\
     add_to_groups t l gs = Ok (false, gs1 ++ mk_group (rows g ++ [l]) (matched g) :: gs2)) \/
  (Forall (fun g => keys_eq (gkey g) (lkey l) = false) gs /\
   add_to_groups t l gs = Ok (true, gs ++ [mk_group [l] false])).
Proof.
  intros Ht Hl Hg. induction Hg as [|g gs Hg Hgs IH]; [by right|]. cbn [add_to_groups].
  destruct (group_ok_head h g Hg) as (r0 & rest & Er & Hr0 & Ek). unfold first_row. rewrite Er. cbn [obind].
  rewrite (join_values_equal_spec t r0 l (hash_positions t)) by (rewrite ?Ht; done || apply Hl). rewrite Ht, Ek. cbn [obind].
  destruct (keys_eq (gkey g) (lkey l)) eqn:E.
  - left. exists [], g, gs. rewrite Er. done.
  - destruct IH as [(gs1 & g' & gs2 & -> & E' & ->)|[Hf ->]].
    + left. exists (g :: gs1), g', gs2. done.
    + right. split; [by constructor|done].
Qed.

Lemma distinct_snoc ks k : distinct ks -> Forall (fun k' => keys_eq k' k = false) ks -> distinct (ks ++ [k]).
Proof.
  induction ks as [|k0 ks IH]; cbn; [auto|]. intros [H1 H2] [H3 H4]%Forall_cons. split; [|by apply IH].
  apply Forall_app. auto.
Qed.

Lemma gkey_extend g l b : rows g <> [] -> gkey (mk_group (rows g ++ [l]) b) = gkey g.
Proof. unfold gkey. cbn. by destruct (rows g). Qed.

Lemma add_to_groups_spec t l h gs : hash_positions t = lp -> good_left l -> hash_key (lkey l) = h ->
  Forall (group_ok h) gs -> distinct (map gkey gs) -> Forall (fun g => matched g = false) gs ->
  exists b gs', add_to_groups t l gs = Ok (b, gs') /\ bucket_ok h gs' /\
    concat (map rows gs') ≡ₚ concat (map rows gs) ++ [l] /\ Forall (fun g => matched g = false) gs'.
Proof.
  intros Ht Hl Hh Hg Hd Hm. destruct (add_to_groups_cases t l h gs Ht Hl Hg) as [(gs1 & g & gs2 & -> & E & ->)|[Hf ->]].
  - apply Forall_app in Hg as [Hg1 [Hg Hg2]%Forall_cons]. apply Forall_app in Hm as [Hm1 [Hm Hm2]%Forall_cons].
    pose proof (gkey_extend g l (matched g) (go_ne _ _ Hg)) as Ek.
    assert (gkey g = lkey l) as El by (apply keys_eq_good; [by eapply group_ok_key|by apply good_lkey|done]).
    do 2 eexists. split; [done|]. split_and!.
    + split; [by destruct gs1| |].
      * apply Forall_app. split; [done|]. constructor; [|done]. destruct Hg as [Hne Hr Hk]. split; [by destruct (rows g)| |by rewrite Ek].
        rewrite Ek. cbn [rows]. apply Forall_app. split; [done|]. repeat constructor; done || apply Hl.
      * rewrite map_app in Hd |- *. cbn [map] in Hd |- *. by rewrite Ek.
    + rewrite !map_app, !concat_app. cbn [map concat rows]. rewrite <- !app_assoc.
      apply Permutation_app_head. apply Permutation_app_head. apply Permutation_app_comm.
    + apply Forall_app. auto.
  - do 2 eexists. split; [done|]. split_and!.
    + split; [by destruct gs| |].
      * apply Forall_app. split; [done|]. constructor; [|done]. split; cbn; [done| |done]. repeat constructor; apply Hl || done.
      * rewrite map_app. apply distinct_snoc; [done|]. by apply Forall_map.
    + rewrite map_app, concat_app. done.
    + apply Forall_app. auto.
Qed.

(** ** The table *)

Definition all_groups (m : gmap Z (list hash_join_row)) : list hash_join_row := concat (map snd (map_to_list m)).

Lemma all_groups_insert m h gs : all_groups (<[h := gs]> m) ≡ₚ gs ++ all_groups (delete h m).
Proof.
  unfold all_groups. rewrite <- insert_delete_eq. rewrite map_to_list_insert by apply lookup_delete_eq. done.
Qed.
Lemma all_groups_lookup m h gs : m !! h = Some gs -> all_groups m ≡ₚ gs ++ all_groups (delete h m).
Proof. intros H. rewrite <- (insert_id m h gs H) at 1. apply all_groups_insert. Qed.

(** The table holds the rows [ls], and the rows with the keys [ks] have been
    looked up. *)
Record table_ok (t : join_hash_table) (ls ks : list row) : Prop := {
  to_positions : hash_positions t = lp;
  to_buckets : forall h gs, hash_table t !! h = Some gs -> bucket_ok h gs;
  to_rows : concat (map rows (all_groups (hash_table t))) ≡ₚ ls;
  to_marks : Forall (fun g => matched g = existsb (keys_eq (gkey g)) ks) (all_groups (hash_table t))
}.

Lemma table_new_ok : table_ok (table_new lp) [] [].
Proof. split; cbn; [done| |done|constructor]. intros h gs. by rewrite lookup_empty. Qed.

Lemma add_row_spec t ls l : table_ok t ls [] -> good_left l ->
  exists b t', add_row t l = Ok (b, t') /\ table_ok t' (ls ++ [l]) [].
Proof.
  intros [Hp Hb Hr Hm] Hl. unfold add_row. rewrite Hp, (compute_hash_project l lp) by apply Hl. cbn [of_option obind].
  set (h := hash_key (lkey l)). destruct (hash_table t !! h) as [gs|] eqn:E.
  - destruct (Hb h gs E) as [Hne Hg Hd]. rewrite (proj2 (Nat.ltb_lt 0 _)) by (destruct gs; [done|cbn; lia]). cbn [assert obind].
    rewrite (all_groups_lookup _ h gs E) in Hr, Hm. apply Forall_app in Hm as [Hm Hm'].
    destruct (add_to_groups_spec t l h gs Hp Hl eq_refl Hg Hd Hm) as (b & gs' & -> & Hb' & Hr' & Hm2). cbn [obind fst snd].
    do 2 eexists. split; [done|]. split; cbn [hash_table hash_positions]; [done| | |].
    + intros h' gs2 Hl'. apply lookup_insert_Some in Hl' as [[<- <-]|[_ Hl']]; [done|by apply Hb].
    + rewrite all_groups_insert, map_app, concat_app, Hr'. rewrite map_app, concat_app in Hr. rewrite <- Hr.
      rewrite <- !app_assoc. apply Permutation_app_head, Permutation_app_comm.
    + rewrite all_groups_insert. apply Forall_app. auto.
  - do 2 eexists. split; [done|]. split; cbn [hash_table hash_positions]; [done| | |].
    + intros h' gs2 Hl'. apply lookup_insert_Some in Hl' as [[<- <-]|[_ Hl']]; [|by apply Hb].
      split; [done| |by split]. constructor; [|done]. split; cbn; [done| |done]. repeat constructor; apply Hl || done.
    + rewrite all_groups_insert, delete_id, map_app, concat_app by done. cbn. rewrite Hr. apply Permutation_cons_append.
    + rewrite all_groups_insert, delete_id by done. constructor; done.
Qed.

(** ** Looking up a row *)

(** A group after a row with key [k] was looked up, and its rows if it matches *)
Definition mark_if (k : row) (g : hash_join_row) : hash_join_row :=
  if keys_eq (gkey g) k then mk_group (rows g) true else g.
Definition rows_if (k : row) (g : hash_join_row) : list row := if keys_eq (gkey g) k then rows g else [].

Lemma no_match k gs : Forall (fun g => keys_eq (gkey g) k = false) gs ->
  map (mark_if k) gs = gs /\ concat (map (rows_if k) gs) = [].
Proof.
  induction 1 as [|g gs Hg _ [IH1 IH2]]; [done|]. cbn. unfold mark_if at 1, rows_if at 1. by rewrite Hg, IH1, IH2.
Qed.

(** Of the groups of a bucket at most one has the key. *)
Lemma one_match h g gs k : good_key k -> group_ok h g -> Forall (group_ok h) gs -> distinct (map gkey (g :: gs)) ->
  keys_eq (gkey g) k = true -> Forall (fun g' => keys_eq (gkey g') k = false) gs.
Proof.
  intros Hk Hg Hgs [Hd _] E. rewrite Forall_map in Hd.
  assert (gkey g = k) as <- by (apply keys_eq_good; [by eapply group_ok_key|done|done]).
  apply Forall_forall. intros g' Hin. destruct (keys_eq (gkey g') (gkey g)) eqn:E'; [|done].
  rewrite Forall_forall in Hd, Hgs. specialize (Hd g' Hin). cbn in Hd.
  assert (gkey g' = gkey g) as E2 by (apply keys_eq_good; [by eapply group_ok_key, Hgs|done|done]).
  rewrite E2 in Hd. congruence.
Qed.

Lemma match_groups_spec t r positions h gs : hash_positions t = lp ->
  Forall (fun i => i < length r)%nat positions -> good_key (project positions r) ->
  Forall (group_ok h) gs -> distinct (map gkey gs) ->
  exists g, match_groups t r positions true gs = Ok (g, map (mark_if (project positions r)) gs) /\
    rows g = concat (map (rows_if (project positions r)) gs).
Proof.
  intros Ht Hr Hk Hg. induction Hg as [|g gs Hg Hgs IH]; intros Hd; [by eexists|].
  cbn [match_groups]. destruct (group_ok_head h g Hg) as (r0 & rest & Er & Hr0 & Ek).
  assert (head (rows g) = Some r0) as -> by (by rewrite Er). cbn [of_option obind].
  rewrite (join_values_equal_spec t r0 r positions) by (done || (destruct Hk as [Hk' _]; unfold project in Hk'; by rewrite length_map in Hk')).
  rewrite Ek. cbn [obind]. cbn [map concat]. unfold mark_if at 1, rows_if at 1.
  destruct (keys_eq (gkey g) (project positions r)) eqn:E.
  - destruct (no_match (project positions r) gs) as [-> ->]; [by eapply (one_match h g)|].
    eexists. split; [done|]. by rewrite app_nil_r.
  - destruct (IH (proj2 Hd)) as (g' & -> & Er'). cbn [omap_ok fst snd]. eexists. split; [done|done].
Qed.

Lemma gkey_mark k g : gkey (mark_if k g) = gkey g.
Proof. unfold mark_if. by destruct (keys_eq _ _). Qed.
Lemma rows_mark k g : rows (mark_if k g) = rows g.
Proof. unfold mark_if. by destruct (keys_eq _ _). Qed.

Lemma bucket_ok_mark k h gs : bucket_ok h gs -> bucket_ok h (map (mark_if k) gs).
Proof.
  intros [Hne Hg Hd]. split; [by destruct gs| |].
  - apply Forall_map. eapply Forall_impl; [exact Hg|]. intros g [H1 H2 H3].
    split; unfold compose; rewrite ?rows_mark, ?gkey_mark; done.
  - rewrite map_map. erewrite map_ext; [exact Hd|]. intros g. apply gkey_mark.
Qed.

(** The rows that match a key, group by group *)
Lemma filter_groups k gs : (forall g, g ∈ gs -> exists h, group_ok h g) ->
  List.filter (fun l => keys_eq (lkey l) k) (concat (map rows gs)) = concat (map (rows_if k) gs).
Proof.
  intros Hg. induction gs as [|g gs IH]; [done|]. cbn [map concat]. rewrite List.filter_app, IH by (intros g' ?; apply Hg; by right).
  f_equal. destruct (Hg g) as [h [_ Hr _]]; [left|]. unfold rows_if. destruct (keys_eq (gkey g) k) eqn:E.
  - induction Hr as [|l ls [_ El] _ IH']; [done|]. cbn. by rewrite El, E, IH'.
  - induction Hr as [|l ls [_ El] _ IH']; [done|]. cbn. by rewrite El, E, IH'.
Qed.

Lemma all_groups_elem m g : g ∈ all_groups m -> exists h gs, m !! h = Some gs /\ g ∈ gs.
Proof.
  unfold all_groups. intros Hin%list_elem_of_In. apply in_concat in Hin as (gs & Hg & Hin).
  apply list_elem_of_In, list_elem_of_fmap in Hg as ([h gs'] & -> & Hg). apply elem_of_map_to_list in Hg.
  exists h, gs'. split; [done|]. by apply list_elem_of_In.
Qed.

Lemma get_matching_rows_spec t ls ks r positions : table_ok t ls ks ->
  Forall (fun i => i < length r)%nat positions -> good_key (project positions r) ->
  exists g t', get_matching_rows t r positions true = Ok (g, t') /\
    rows g ≡ₚ List.filter (fun l => keys_eq (lkey l) (project positions r)) ls /\
    table_ok t' ls (ks ++ [project positions r]).
Proof.
  intros [Hp Hb Hr Hm] Hpos Hk. set (k := project positions r) in *.
  assert (forall g, g ∈ all_groups (hash_table t) -> exists h gs, hash_table t !! h = Some gs /\ group_ok h g) as Hgs.
  { intros g (h & gs & Hl & Hin)%all_groups_elem. exists h, gs. split; [done|].
    destruct (Hb h gs Hl) as [_ Hg _]. rewrite Forall_forall in Hg. auto. }
  assert (List.filter (fun l => keys_eq (lkey l) k) ls ≡ₚ concat (map (rows_if k) (all_groups (hash_table t)))) as Hf.
  { rewrite <- (filter_groups k) by (intros g (h & gs & _ & ?)%Hgs; eauto). apply Permutation_filter. by symmetry. }
  (* a group that matches is in the bucket of the key *)
  assert (forall g, g ∈ all_groups (delete (hash_key k) (hash_table t)) -> keys_eq (gkey g) k = false) as Hother.
  { intros g (h & gs & Hl & Hin)%all_groups_elem. apply lookup_delete_Some in Hl as [Hne Hl].
    destruct (Hb h gs Hl) as [_ Hg _]. rewrite Forall_forall in Hg. specialize (Hg g Hin).
    destruct (keys_eq (gkey g) k) eqn:E; [|done]. apply keys_eq_good in E; [|by eapply group_ok_key|done].
    destruct Hg as [_ _ Hh]. congruence. }
  unfold get_matching_rows. rewrite (compute_hash_project r positions) by done. fold k. cbn [of_option obind].
  apply Forall_forall in Hother. destruct (no_match k _ Hother) as [Hmark Hnone].
  destruct (hash_table t !! hash_key k) as [gs|] eqn:E.
  - destruct (Hb _ gs E) as [Hne Hg Hd].
    destruct (match_groups_spec t r positions _ gs Hp Hpos Hk Hg Hd) as (g & -> & Hrows). fold k in Hrows |- *. cbn [obind fst snd].
    rewrite (all_groups_lookup _ _ gs E) in Hr, Hm, Hf. rewrite map_app, concat_app, Hnone, app_nil_r in Hf.
    do 2 eexists. split; [done|]. split; [by rewrite Hrows, Hf|].
    split; cbn [hash_table hash_positions]; [done| | |].
    + intros h' gs2 Hl. apply lookup_insert_Some in Hl as [[<- <-]|[_ Hl]]; [by apply bucket_ok_mark; split|by apply Hb].
    + rewrite all_groups_insert, <- Hmark, <- map_app, map_map. rewrite <- Hr.
      erewrite (map_ext (fun g => rows (mark_if k g))); [done|]. intros g'. apply rows_mark.
    + rewrite all_groups_insert, <- Hmark, <- map_app, Forall_map. eapply Forall_impl; [exact Hm|]. intros g' Hg'.
      unfold compose. rewrite gkey_mark, existsb_app, <- Hg'. cbn. rewrite orb_false_r. unfold mark_if.
      destruct (keys_eq (gkey g') k); cbn; [by rewrite orb_true_r|by rewrite orb_false_r].
  - rewrite delete_id in Hmark, Hnone, Hother by done. do 2 eexists. split; [done|]. split; [cbn; by rewrite Hf, Hnone|].
    split; [done|done|done|]. rewrite <- Hmark, Forall_map. eapply Forall_impl; [exact Hm|]. intros g' Hg'.
    unfold compose. rewrite gkey_mark, existsb_app, <- Hg'. cbn. rewrite orb_false_r. unfold mark_if.
    destruct (keys_eq (gkey g') k); cbn; [by rewrite orb_true_r|by rewrite orb_false_r].
Qed.

(** The rows whose groups were never marked are the rows that match no key. *)
Lemma unmatched_rows t ls ks : table_ok t ls ks ->
  concat (map rows (List.filter (fun g => negb (matched g)) (all_groups (hash_table t)))) ≡ₚ
  List.filter (fun l => negb (existsb (keys_eq (lkey l)) ks)) ls.
Proof.
  intros [Hp Hb Hr Hm]. rewrite <- (Permutation_filter _ _ _ Hr).
  assert (forall g, g ∈ all_groups (hash_table t) -> exists h, group_ok h g) as Hgs.
  { intros g (h & gs & Hl & Hin)%all_groups_elem. exists h. destruct (Hb h gs Hl) as [_ Hg _].
    rewrite Forall_forall in Hg. auto. }
  clear Hr. induction Hm as [|g gs Hg _ IH]; [done|]. cbn [List.filter map concat]. rewrite List.filter_app.
  specialize (IH ltac:(intros; apply Hgs; by right)). destruct (Hgs g) as [h [_ Hrows _]]; [left|].
  assert (List.filter (fun l => negb (existsb (keys_eq (lkey l)) ks)) (rows g) = if negb (matched g) then rows g else []) as ->.
  { rewrite Hg. clear -Hrows. induction Hrows as [|l ls' [_ El] _ IH']; [by destruct (negb _)|]. cbn. rewrite El, IH'.
    by destruct (negb _). }
  destruct (negb (matched g)); cbn [map concat]; by rewrite IH.
Qed.
End table.

(** ** The rows of the result *)

Section merge.
Context (ex : executor) (nl nr : nat).
Abbreviation lp := (left_join_positions ex).
Abbreviation rp := (right_join_positions ex).
(** The join positions of an executor *)
Record positions_ok : Prop := {
  po_length : length lp = length rp;
  po_left : Forall (fun i => i < nl)%nat lp;
  po_right : Forall (fun j => j < nr)%nat rp;
  po_left_nodup : NoDup lp;
  po_right_nodup : NoDup rp
}.
Context (Hpos : positions_ok).

Lemma is_right_key_spec j : is_right_key ex j = true <-> j ∈ rp.
Proof.
  unfold is_right_key. rewrite existsb_exists. split.
  - intros (x & Hx & E). apply Nat.eqb_eq in E as ->. by apply list_elem_of_In.
  - intros H. exists j. split; [by apply list_elem_of_In|apply Nat.eqb_refl].
Qed.

Lemma find_zip (ks vs : list nat) j : length vs = length ks ->
  option_map snd (List.find (fun p => (p.1 =? j)%nat) (zip ks vs)) = None <-> j ∉ ks.
Proof.
  revert vs. induction ks as [|k ks IH]; intros [|v vs] Hl; try done; cbn.
  { split; [intros _; apply not_elem_of_nil|done]. }
  rewrite not_elem_of_cons. destruct (Nat.eqb_spec k j) as [->|Hne]; cbn; [split; [done|by intros [? _]]|].
  rewrite IH by (by injection Hl). split; [intros ?; split; congruence|by intros [_ ?]].
Qed.
Lemma find_zip_Some (ks vs : list nat) j i : length vs = length ks -> NoDup ks ->
  option_map snd (List.find (fun p => (p.1 =? j)%nat) (zip ks vs)) = Some i <->
  exists k, ks !! k = Some j /\ vs !! k = Some i.
Proof.
  revert vs. induction ks as [|k ks IH]; intros [|v vs] Hl Hd; try done; cbn.
  { split; [done|]. by intros (k & Hk & _). }
  apply NoDup_cons in Hd as [Hk Hd]. destruct (Nat.eqb_spec k j) as [->|Hne]; cbn.
  - split; [intros [= <-]; by exists 0%nat|]. intros ([|n] & Hn & Hv); cbn in *; [congruence|].
    exfalso. apply Hk. by eapply list_elem_of_lookup_2.
  - rewrite IH by (done || by injection Hl). split; [intros (n & ? & ?); by exists (S n)|].
    intros ([|n] & Hn & Hv); cbn in *; [congruence|eauto].
Qed.

Lemma left_position_None j : left_position ex j = None <-> is_right_key ex j = false.
Proof.
  unfold left_position, right_to_left. rewrite find_zip by (apply po_length, Hpos).
  rewrite <- is_right_key_spec. by destruct (is_right_key ex j).
Qed.
Lemma left_position_Some j i : left_position ex j = Some i <-> exists k, rp !! k = Some j /\ lp !! k = Some i.
Proof. apply find_zip_Some; [apply po_length, Hpos|apply po_right_nodup, Hpos]. Qed.

(** The values from column [j] on that are not join columns *)
Definition rvals {A} (j : nat) (r : list A) : list A :=
  map snd (List.filter (fun p => negb (is_right_key ex p.1)) (zip (seq j (length r)) r)).
Lemma right_values_rvals {A} (r : list A) : right_values ex r = rvals 0 r.
Proof. done. Qed.
Lemma rvals_cons {A} j (v : A) r :
  rvals j (v :: r) = if is_right_key ex j then rvals (S j) r else v :: rvals (S j) r.
Proof. unfold rvals. cbn. by destruct (is_right_key ex j). Qed.

(** The join columns of a right row written over a left row *)
Fixpoint put_keys (j : nat) (r A : row) : row :=
  match r with
  | [] => A
  | v :: r => match left_position ex j with Some i => put_keys (S j) r (<[i := v]> A) | None => put_keys (S j) r A end
  end.

Lemma emit_values_spec no_left r : forall j A C U, length A = nl -> (length (rvals j r) <= length U)%nat ->
  emit_values ex no_left j (nl + length C) r (A ++ C ++ U) =
  Ok ((if no_left then put_keys j r A else A) ++ C ++ rvals j r ++ drop (length (rvals j r)) U).
Proof.
  induction r as [|v r IH]; intros j A C U HA HU.
  { cbn. rewrite drop_0. by destruct no_left. }
  cbn [emit_values put_keys]. rewrite rvals_cons in HU |- *.
  destruct (left_position ex j) as [i|] eqn:E.
  - assert (is_right_key ex j = true) as Ek.
    { destruct (is_right_key ex j) eqn:Ek; [done|]. apply left_position_None in Ek. congruence. }
    rewrite Ek in HU |- *. destruct no_left; [|by apply (IH (S j))].
    apply left_position_Some in E as (k & _ & Hi). pose proof (po_left Hpos) as Hl.
    assert (i < nl)%nat as Hi' by (by eapply Forall_lookup_1 in Hl).
    rewrite (proj2 (Nat.ltb_lt i _)) by (rewrite length_app; lia).
    rewrite insert_app_l by lia. apply (IH (S j)); [by rewrite length_insert|done].
  - apply left_position_None in E. rewrite E in HU |- *. destruct U as [|u U]; [cbn in HU; lia|].
    rewrite (proj2 (Nat.ltb_lt _ _)) by (rewrite !length_app; cbn; lia).
    assert (<[(nl + length C)%nat := v]> (A ++ C ++ u :: U) = A ++ (C ++ [v]) ++ U) as ->.
    { rewrite <- HA, insert_app_r. rewrite <- (Nat.add_0_r (length C)), insert_app_r. cbn. by rewrite <- app_assoc. }
    specialize (IH (S j) A (C ++ [v]) U HA ltac:(cbn in HU; lia)). rewrite length_app in IH. cbn [length] in IH.
    replace (S (nl + length C)) with (nl + (length C + 1))%nat by lia. rewrite IH. cbn. by rewrite <- !app_assoc.
Qed.

(** The number of columns of the right frame that are not join columns *)
Definition nv : nat := nr - length rp.
Definition right_row (r : row) : Prop := length r = nr.
Definition left_row (l : row) : Prop := length l = nl.

Lemma length_rvals {A} (r : list A) : length r = nr -> length (rvals 0 r) = nv.
Proof.
  intros Hr. unfold rvals, nv. rewrite length_map.
  assert (forall (l : list nat) (r : list A), length l = length r ->
    length (List.filter (fun p : nat * A => negb (is_right_key ex p.1)) (zip l r)) =
    length (List.filter (fun j => negb (is_right_key ex j)) l)) as Hz.
  { induction l as [|j l IH]; intros [|x r'] E; try done. cbn. injection E as E.
    destruct (negb (is_right_key ex j)); cbn; by rewrite IH. }
  rewrite Hz by (by rewrite length_seq). rewrite Hr.
  assert (List.filter (is_right_key ex) (seq 0 nr) ≡ₚ rp) as Hp.
  { apply NoDup_Permutation; [apply NoDup_ListNoDup, List.NoDup_filter, NoDup_ListNoDup, NoDup_seq|apply po_right_nodup, Hpos|].
    intros j. rewrite list_elem_of_In, filter_In, <- list_elem_of_In, elem_of_seq, is_right_key_spec.
    split; [by intros [_ ?]|]. intros Hj. split; [|done]. pose proof (po_right Hpos) as Hf. rewrite Forall_forall in Hf.
    specialize (Hf j Hj). lia. }
  apply Permutation_length in Hp. pose proof (List.filter_length (is_right_key ex) (seq 0 nr)) as Hsum.
  rewrite length_seq in Hsum. lia.
Qed.

(** A pair of rows that match, and rows that match none *)
Definition both (l r : row) : row := l ++ rvals 0 r.
Definition left_only (l : row) : row := l ++ replicate nv FUndefined.
Definition right_only (r : row) : row := put_keys 0 r (replicate nl FUndefined) ++ rvals 0 r.

Lemma emit_left_spec ls : Forall left_row ls ->
  emit_left 1 ls (replicate (length ls) (replicate (nl + nv) FUndefined)) = Ok (map left_only ls).
Proof.
  induction 1 as [|l ls Hl _ IH]; [done|]. cbn [length replicate emit_left]. cbn [Nat.eqb]. unfold copy_onto.
  rewrite length_replicate, Hl, (proj2 (Nat.leb_le _ _)) by lia. cbn [obind]. rewrite IH. cbn [omap_ok map].
  unfold left_only. rewrite drop_replicate. by replace (nl + nv - nl)%nat with nv by lia.
Qed.

Lemma emit_right_spec no_left r outs : right_row r ->
  Forall (fun out => length out = (nl + nv)%nat) outs ->
  emit_right ex no_left nv (replicate (length outs) r) outs =
  Ok (map (fun out => (if no_left then put_keys 0 r (take nl out) else take nl out) ++ rvals 0 r) outs).
Proof.
  intros Hr. induction 1 as [|out outs Ho _ IH]; [done|]. cbn [length replicate emit_right map].
  rewrite Ho, Nat.add_sub.
  pose proof (emit_values_spec no_left r 0 (take nl out) [] (drop nl out)) as E. cbn [length app] in E.
  rewrite Nat.add_0_r, take_drop in E. rewrite E.
  - cbn [obind]. rewrite IH. cbn [omap_ok]. rewrite drop_ge, app_nil_r; [done|]. rewrite length_drop, length_rvals by done. lia.
  - rewrite length_take. lia.
  - rewrite length_drop, length_rvals by done. lia.
Qed.

Lemma concat_replicate_one {A} n (x : A) : concat (replicate n [x]) = replicate n x.
Proof. induction n; cbn; by f_equal. Qed.

Lemma positions_le r : right_row r -> (length rp <= length r)%nat.
Proof.
  intros Hr. rewrite Hr. rewrite <- (length_seq nr 0). apply submseteq_length, NoDup_submseteq; [apply Hpos|].
  intros j Hj. apply elem_of_seq. pose proof (po_right Hpos) as Hf. rewrite Forall_forall in Hf. specialize (Hf j Hj). lia.
Qed.

(** The three uses of [merge_rows_for_output]: the rows that match a right row,
    a right row without match, and left rows without match *)
Lemma merge_both ls r : ls <> [] -> Forall left_row ls -> right_row r ->
  merge_rows_for_output ex (nl + nv) ls [r] = Ok (map (fun l => both l r) ls).
Proof.
  intros Hne Hl Hr. unfold merge_rows_for_output. cbn [length].
  assert (0 < length ls)%nat as Hpos' by (destruct ls; [done|cbn; lia]).
  rewrite andb_false_r, Nat.mul_1_r, (proj2 (Nat.eqb_neq (length ls) 0)), (proj2 (Nat.ltb_lt 0 _)) by lia.
  rewrite Nat.div_same, emit_left_spec by (done || lia). cbn [obind].
  rewrite length_replicate, Nat.eqb_refl. cbn [assert obind].
  rewrite (proj2 (Nat.leb_le _ _)) by (by apply positions_le). cbn [assert obind].
  rewrite Nat.div_1_r, concat_replicate_one. fold nv. rewrite Hr. fold nv.
  rewrite <- (length_map left_only ls) at 1. rewrite emit_right_spec; [|done|].
  - cbn [obind]. rewrite length_map, Nat.mul_1_r, Nat.eqb_refl. cbn [assert obind]. f_equal. rewrite map_map.
    apply map_ext_in. intros l Hin. rewrite Forall_forall in Hl. specialize (Hl l ltac:(by apply list_elem_of_In)).
    unfold left_only, both. by rewrite take_app_length'.
  - apply Forall_map. eapply Forall_impl; [exact Hl|]. intros l Hll. unfold compose, left_only. by rewrite length_app, length_replicate, Hll.
Qed.

Lemma merge_right r : right_row r -> merge_rows_for_output ex (nl + nv) [] [r] = Ok [right_only r].
Proof.
  intros Hr. unfold merge_rows_for_output. cbn [length Nat.eqb andb Nat.mul Nat.max Nat.ltb Nat.leb obind].
  rewrite (proj2 (Nat.leb_le _ _)) by (by apply positions_le). cbn [assert obind]. rewrite Nat.div_same by lia.
  rewrite concat_replicate_one, Hr. fold nv.
  pose proof (emit_right_spec true r [replicate (nl + nv) FUndefined] Hr) as E. cbn [length replicate] in E |- *. rewrite E.
  - cbn [obind map]. cbn [length Nat.mul Nat.add Nat.eqb assert obind]. unfold right_only.
    by rewrite take_replicate, Nat.min_l by lia.
  - repeat constructor. by rewrite length_replicate.
Qed.

Lemma merge_left ls : ls <> [] -> Forall left_row ls ->
  merge_rows_for_output ex (nl + nv) ls [] = Ok (map left_only ls).
Proof.
  intros Hne Hl. unfold merge_rows_for_output. cbn [length].
  assert (0 < length ls)%nat as Hpos' by (destruct ls; [done|cbn; lia]).
  rewrite (proj2 (Nat.eqb_neq (length ls) 0)) by lia. cbn [andb]. rewrite Nat.mul_0_r, Nat.max_0_r. cbn [Nat.eqb].
  rewrite (proj2 (Nat.ltb_lt 0 _)) by lia. rewrite Nat.div_same, emit_left_spec by (done || lia). cbn [obind].
  by rewrite length_replicate, Nat.eqb_refl.
Qed.
End merge.

(** ** Types of the result *)

Section types.
Context (ex : executor) (nl nr : nat) (Hpos : positions_ok ex nl nr).
Context (ltys rtys : list flex_type_enum) (Hnl : length ltys = nl) (Hnr : length rtys = nr).
(** A join column has one type in both frames. *)
Context (Hkeys : Forall2 (fun i j => ltys !! i = rtys !! j) (left_join_positions ex) (right_join_positions ex)).
Abbreviation row_typed tys := (Forall2 typed_value tys).

Lemma undefined_typed ty : typed_value ty FUndefined.
Proof. done. Qed.
Lemma replicate_typed tys : row_typed tys (replicate (length tys) FUndefined).
Proof. induction tys; constructor; [apply undefined_typed|done]. Qed.

Lemma rvals_typed j tys r : row_typed tys r -> row_typed (rvals ex j tys) (rvals ex j r).
Proof.
  intros H. revert j. induction H as [|ty v tys r Hv _ IH]; intros j; [constructor|]. rewrite !rvals_cons.
  destruct (is_right_key ex j); [done|]. by constructor.
Qed.

Lemma put_keys_typed r : forall j A, (forall k v i ty, r !! k = Some v -> left_position ex (j + k) = Some i ->
    ltys !! i = Some ty -> typed_value ty v) ->
  row_typed ltys A -> row_typed ltys (put_keys ex j r A).
Proof.
  induction r as [|v r IH]; intros j A Hr HA; [done|]. cbn [put_keys].
  assert (forall A', row_typed ltys A' -> row_typed ltys (put_keys ex (S j) r A')) as IH'.
  { intros A' HA'. apply IH; [|done]. intros k v' i ty Hk. rewrite Nat.add_succ_comm. by apply (Hr (S k)). }
  destruct (left_position ex j) as [i|] eqn:E; apply IH'; [|done].
  destruct (ltys !! i) as [ty|] eqn:Ei.
  - apply Forall2_same_length_lookup_2; [rewrite length_insert; by eapply Forall2_length|].
    intros k ty' x Hk Hx. destruct (decide (i = k)) as [<-|Hne].
    + rewrite list_lookup_insert_eq in Hx; [|by erewrite <- Forall2_length; [eapply lookup_lt_Some|]].
      injection Hx as <-. apply (Hr 0%nat v i ty'); [done|by rewrite Nat.add_0_r|done].
    + rewrite list_lookup_insert_ne in Hx by done. by eapply Forall2_lookup_lr.
  - rewrite list_insert_ge; [done|]. erewrite <- Forall2_length; [|done]. by apply lookup_ge_None_1.
Qed.

Lemma both_typed l r : row_typed ltys l -> row_typed rtys r -> row_typed (ltys ++ rvals ex 0 rtys) (both ex l r).
Proof. intros Hl Hr. apply Forall2_app; [done|by apply rvals_typed]. Qed.
Lemma left_only_typed l : row_typed ltys l -> row_typed (ltys ++ rvals ex 0 rtys) (left_only ex nr l).
Proof.
  intros Hl. apply Forall2_app; [done|]. rewrite <- (length_rvals ex nl nr Hpos rtys Hnr). apply replicate_typed.
Qed.
Lemma right_only_typed r : row_typed rtys r -> row_typed (ltys ++ rvals ex 0 rtys) (right_only ex nl r).
Proof.
  intros Hr. apply Forall2_app; [|by apply rvals_typed]. apply put_keys_typed; [|rewrite <- Hnl; apply replicate_typed].
  intros k v i ty Hk Hp Hi. apply (left_position_Some ex nl nr Hpos) in Hp as (n & Hn1 & Hn2). cbn in Hn1.
  assert (ltys !! i = rtys !! k) as E by (by eapply (Forall2_lookup_lr _ _ _ n) in Hkeys).
  rewrite Hi in E. by eapply Forall2_lookup_lr.
Qed.
End types.

(** ** Writing rows *)

Lemma concat_insert_app {A} (segs : list (list A)) s old rs : segs !! s = Some old ->
  concat (<[s := old ++ rs]> segs) ≡ₚ concat segs ++ rs.
Proof.
  revert s. induction segs as [|x segs IH]; intros [|s] Hs; cbn in *; try done.
  - injection Hs as ->. rewrite <- !app_assoc. apply Permutation_app_head, Permutation_app_comm.
  - rewrite (IH s Hs). by rewrite app_assoc.
Qed.

Section write_rows.
Context (fmt_double : Z -> bytes) {ptime : Type} (time_t_epoch : ptime)
  (add_seconds : ptime -> Z -> ptime) (to_iso_string : ptime -> bytes).
Abbreviation write_rows := (write_rows fmt_double time_t_epoch add_seconds to_iso_string).

(** The frame [w], of column types [tys] and [n] segments, holds the rows [out] in
    some order. *)
Definition wrote (tys : list flex_type_enum) (names : list string) (n : nat) (w : writer) (out : list row) : Prop :=
  exists segs, holds w segs /\ w_types w = tys /\ w_names w = names /\ length segs = n /\ concat segs ≡ₚ out.

Lemma wrote_perm tys names n w out out' : wrote tys names n w out -> out ≡ₚ out' -> wrote tys names n w out'.
Proof. intros (segs & H1 & H2 & H3 & H4 & H5) Hp. exists segs. split_and!; try done. by rewrite H5. Qed.
Lemma wrote_segments tys names n w out : wrote tys names n w out -> w_segments w = n.
Proof. intros (segs & H1 & _ & _ & H4 & _). by rewrite <- (ho_segments _ _ H1). Qed.

Lemma write_rows_spec tys names n s rs : (s < n)%nat -> Forall (Forall2 typed_value tys) rs -> forall w out,
  wrote tys names n w out -> exists w', write_rows s rs w = Ok w' /\ wrote tys names n w' (out ++ rs).
Proof.
  intros Hs. induction 1 as [|r rs Hr _ IH]; intros w out Hw.
  { exists w. by rewrite app_nil_r. }
  destruct Hw as (segs & Hh & Ht & Hn & Hl & Hp). cbn [Join.write_rows].
  destruct (lookup_lt_is_Some_2 segs s) as [old Hold]; [lia|].
  destruct (write_spec fmt_double time_t_epoch add_seconds to_iso_string w segs s old r r Hh Hold) as (w1 & -> & Hh1 & Ht1 & Hn1).
  { rewrite Ht. symmetry. by eapply Forall2_length. }
  { rewrite Ht. by apply convert_row_same. }
  cbn [obind]. destruct (IH w1 (out ++ [r])) as (w2 & -> & Hw2).
  - exists (<[s := old ++ [r]]> segs). split_and!; [done|congruence|congruence|by rewrite length_insert|].
    by rewrite (concat_insert_app _ _ _ _ Hold), Hp.
  - exists w2. split; [done|]. by rewrite <- app_assoc in Hw2.
Qed.
End write_rows.

(** ** Joining one partition *)

Section join_one.
Context (fmt_double : Z -> bytes) {ptime : Type} (time_t_epoch : ptime)
  (add_seconds : ptime -> Z -> ptime) (to_iso_string : ptime -> bytes).
Context (dom : flexible_type -> Prop)
  (dom_eq : forall x y, dom x -> dom y -> approx_equal x y = true -> x = y).
Context (ex : executor) (ltys rtys : list flex_type_enum).
Abbreviation nl := (length ltys).
Abbreviation nr := (length rtys).
Abbreviation lp := (left_join_positions ex).
Abbreviation rp := (right_join_positions ex).
Context (Hpos : positions_ok ex nl nr) (lp_ne : lp <> [])
  (Hkeys : Forall2 (fun i j => ltys !! i = rtys !! j) lp rp).
Context (Hlcols : num_columns (left_frame ex) = nl) (Hrcols : num_columns (right_frame ex) = nr).
Abbreviation tys := (ltys ++ rvals ex 0 rtys).

(** Rows of the two frames *)
Definition lrow (l : row) : Prop := Forall2 typed_value ltys l /\ Forall dom (project lp l).
Definition rrow (r : row) : Prop := Forall2 typed_value rtys r /\ Forall dom (project rp r).

Lemma lrow_good l : lrow l -> left_row nl l /\ good_left dom lp l.
Proof.
  intros [Ht Hd]. pose proof (Forall2_length _ _ _ Ht) as Hl. split; [by symmetry|]. split; [|done].
  rewrite <- Hl. apply Hpos.
Qed.
Lemma rrow_good r : rrow r -> right_row nr r /\ Forall (fun j => j < length r)%nat rp /\ good_key dom lp (project rp r).
Proof.
  intros [Ht Hd]. pose proof (Forall2_length _ _ _ Ht) as Hl. split_and!; [by symmetry|rewrite <- Hl; apply Hpos|].
  split; [|done]. unfold project. rewrite length_map. symmetry. apply Hpos.
Qed.

(** Two rows join. *)
Definition joins (l r : row) : bool := keys_eq (project lp l) (project rp r).

(** What a right row contributes, given the left rows that join it *)
Definition right_output (r : row) (ms : list row) : list row :=
  match ms with
  | [] => if right_join ex then [right_only ex nl r] else []
  | _ => map (fun l => both ex l r) ms
  end.

(** What one partition contributes *)
Definition join_lists (ls rs : list row) : list row :=
  flat_map (fun r => right_output r (List.filter (fun l => joins l r) ls)) rs ++
  (if left_join ex then map (left_only ex nr) (List.filter (fun l => negb (existsb (joins l) rs)) ls) else []).

(** The rows of a segment, serialized or not *)
Definition decodes (partitioned : bool) (n : nat) (raws rs : list row) : Prop :=
  Forall2 (fun raw r => get_row partitioned n raw = Ok r) raws rs.

Lemma load_table_spec p raws ls : decodes p nl raws ls -> Forall lrow ls -> forall t ls0,
  table_ok dom lp t ls0 [] ->
  exists t', load_table p (num_columns (left_frame ex)) raws t = Ok t' /\ table_ok dom lp t' (ls0 ++ ls) [].
Proof.
  rewrite Hlcols. induction 1 as [|raw l raws ls Hg _ IH]; intros Hls t ls0 Ht; cbn [load_table].
  { exists t. by rewrite app_nil_r. }
  apply Forall_cons in Hls as [Hl Hls]. rewrite Hg. cbn [obind].
  destruct (add_row_spec dom dom_eq lp lp_ne t ls0 l Ht) as (b & t1 & -> & Ht1); [by apply lrow_good|]. cbn [obind snd].
  destruct (IH Hls t1 _ Ht1) as (t2 & -> & Ht2). exists t2. split; [done|]. by rewrite <- app_assoc in Ht2.
Qed.

Lemma right_output_perm r ms ms' : ms ≡ₚ ms' -> right_output r ms ≡ₚ right_output r ms'.
Proof.
  intros Hp. unfold right_output. destruct ms as [|m ms], ms' as [|m' ms']; [done| | |].
  - by apply Permutation_nil_cons in Hp.
  - symmetry in Hp. by apply Permutation_nil_cons in Hp.
  - by apply Permutation_map.
Qed.

Lemma filter_lrow f ls : Forall lrow ls -> Forall lrow (List.filter f ls).
Proof. intros H. rewrite Forall_forall in H |- *. intros l Hl. apply H. apply list_elem_of_In, filter_In in Hl as [? _]. by apply list_elem_of_In. Qed.

Lemma right_output_typed r ms : Forall lrow ms -> rrow r -> Forall (Forall2 typed_value tys) (right_output r ms).
Proof.
  intros Hm [Hr _]. unfold right_output. destruct ms as [|m ms].
  - destruct (right_join ex); [|constructor]. constructor; [|constructor]. by apply (right_only_typed ex nl nr).
  - apply Forall_map. eapply Forall_impl; [exact Hm|]. intros l [Hl _]. by apply both_typed.
Qed.

(** Looking up one right row and writing its output *)
Lemma probe_row names n s t ls ks w out r : (s < n)%nat -> Forall lrow ls -> rrow r ->
  table_ok dom lp t ls ks -> wrote tys names n w out ->
  exists g t', get_matching_rows t r rp true = Ok (g, t') /\ table_ok dom lp t' ls (ks ++ [project rp r]) /\
  exists w', (if (0 <? length (rows g))%nat || right_join ex then
     o <-? merge_rows_for_output ex (length (w_types w)) (rows g) [r];
     write_rows fmt_double time_t_epoch add_seconds to_iso_string s o w else Ok w) = Ok w' /\
    wrote tys names n w' (out ++ right_output r (List.filter (fun l => joins l r) ls)).
Proof.
  intros Hs Hls Hr Ht Hw. destruct (rrow_good r Hr) as (Hrr & Hrp & Hk).
  destruct (get_matching_rows_spec dom dom_eq lp lp_ne t ls ks r rp Ht Hrp Hk) as (g & t' & -> & Hg & Ht').
  exists g, t'. split; [done|]. split; [done|].
  assert (Forall lrow (rows g)) as Hgl by (rewrite Hg; by apply filter_lrow).
  assert (Forall (left_row nl) (rows g)) as Hgw by (eapply Forall_impl; [exact Hgl|]; intros l; apply lrow_good).
  assert (length (w_types w) = (nl + nv ex nr)%nat) as Hlen.
  { destruct Hw as (segs & _ & -> & _). by rewrite length_app, (length_rvals ex nl nr). }
  destruct (write_rows_spec fmt_double time_t_epoch add_seconds to_iso_string tys names n s (right_output r (rows g)) Hs
    (right_output_typed r _ Hgl Hr) w out Hw) as (w' & Ew & Hw').
  exists w'. split; [|by eapply wrote_perm; [exact Hw'|]; apply Permutation_app_head, right_output_perm].
  rewrite Hlen. unfold right_output in Ew. destruct (rows g) as [|l0 ms] eqn:E.
  - cbn [length Nat.ltb Nat.leb orb]. destruct (right_join ex); [|done].
    rewrite (merge_right ex nl nr) by done. by cbn [obind].
  - cbn [length Nat.ltb Nat.leb orb]. rewrite (merge_both ex nl nr) by done. by cbn [obind].
Qed.

Lemma probe_spec p names n s raws rs : (s < n)%nat -> decodes p nr raws rs -> Forall rrow rs -> forall t ls ks w out,
  Forall lrow ls -> table_ok dom lp t ls ks -> wrote tys names n w out ->
  exists t' w', probe fmt_double time_t_epoch add_seconds to_iso_string ex p s raws t w = Ok (t', w') /\
    table_ok dom lp t' ls (ks ++ map (project rp) rs) /\
    wrote tys names n w' (out ++ flat_map (fun r => right_output r (List.filter (fun l => joins l r) ls)) rs).
Proof.
  intros Hs. induction 1 as [|raw r raws rs Hg _ IH]; intros Hrs t ls ks w out Hls Ht Hw; cbn [probe].
  { exists t, w. cbn. by rewrite !app_nil_r. }
  apply Forall_cons in Hrs as [Hr Hrs]. rewrite Hrcols, Hg. cbn [obind].
  destruct (probe_row names n s t ls ks w out r Hs Hls Hr Ht Hw) as (g & t1 & -> & Ht1 & w1 & E & Hw1).
  cbn [obind fst snd]. rewrite E. cbn [obind].
  destruct (IH Hrs t1 ls _ w1 _ Hls Ht1 Hw1) as (t2 & w2 & -> & Ht2 & Hw2). exists t2, w2. split; [done|].
  cbn [map flat_map]. by rewrite <- app_assoc in Ht2, Hw2.
Qed.

Lemma probe_all_spec p names n rawss rss : Forall2 (decodes p nr) rawss rss -> Forall (Forall rrow) rss ->
  forall s t ls ks w out, (s + length rawss <= n)%nat ->
  Forall lrow ls -> table_ok dom lp t ls ks -> wrote tys names n w out ->
  exists t' w', probe_all fmt_double time_t_epoch add_seconds to_iso_string ex p s rawss t w = Ok (t', w') /\
    table_ok dom lp t' ls (ks ++ map (project rp) (concat rss)) /\
    wrote tys names n w' (out ++ flat_map (fun r => right_output r (List.filter (fun l => joins l r) ls)) (concat rss)).
Proof.
  induction 1 as [|raws rs rawss rss Hd _ IH]; intros Hrs s t ls ks w out Hs Hls Ht Hw; cbn [probe_all].
  { exists t, w. cbn. by rewrite !app_nil_r. }
  apply Forall_cons in Hrs as [Hr Hrs]. cbn [length] in Hs.
  destruct (probe_spec p names n s raws rs ltac:(lia) Hd Hr t ls ks w out Hls Ht Hw) as (t1 & w1 & -> & Ht1 & Hw1).
  cbn [obind fst snd].
  destruct (IH Hrs (S s) t1 ls _ w1 _ ltac:(lia) Hls Ht1 Hw1) as (t2 & w2 & -> & Ht2 & Hw2). exists t2, w2. split; [done|].
  cbn [concat]. rewrite map_app, flat_map_app. by rewrite <- app_assoc in Ht2, Hw2.
Qed.

Lemma emit_unmatched_spec names n gs : (0 < n)%nat ->
  Forall (fun g => rows g <> [] /\ Forall lrow (rows g)) gs -> forall w out, wrote tys names n w out ->
  exists w', emit_unmatched fmt_double time_t_epoch add_seconds to_iso_string ex gs w = Ok w' /\
    wrote tys names n w' (out ++ map (left_only ex nr) (concat (map rows (List.filter (fun g => negb (matched g)) gs)))).
Proof.
  intros Hn. induction 1 as [|g gs [Hne Hg] _ IH]; intros w out Hw; cbn [emit_unmatched].
  { exists w. cbn. by rewrite app_nil_r. }
  cbn [List.filter]. destruct (negb (matched g)); [|by apply IH].
  assert (length (w_types w) = (nl + nv ex nr)%nat) as ->.
  { destruct Hw as (segs & _ & -> & _). by rewrite length_app, (length_rvals ex nl nr). }
  rewrite (merge_left ex nl nr); [|done|]; cycle 1.
  { eapply Forall_impl; [exact Hg|]. intros l. apply lrow_good. }
  cbn [obind]. rewrite (wrote_segments _ _ _ _ _ Hw), (proj2 (Nat.eqb_neq n 0)), Nat.Div0.mod_0_l by lia.
  destruct (write_rows_spec fmt_double time_t_epoch add_seconds to_iso_string tys names n 0 (map (left_only ex nr) (rows g)) Hn) with (w := w) (out := out)
    as (w1 & -> & Hw1); [|done|].
  { apply Forall_map. eapply Forall_impl; [exact Hg|]. intros l [Hl _]. by apply (left_only_typed ex nl nr). }
  cbn [obind]. destruct (IH w1 _ Hw1) as (w2 & -> & Hw2). exists w2. split; [done|].
  cbn [map concat]. rewrite map_app. by rewrite <- app_assoc in Hw2.
Qed.

Context (traverse : gmap Z (list hash_join_row) -> list (Z * list hash_join_row))
  (traverse_perm : forall m, traverse m ≡ₚ map_to_list m).

(** The join of one partition *)
Lemma join_partition p names n raws ls rawss rss w out :
  (0 < n)%nat -> (length rawss <= n)%nat -> decodes p nl raws ls -> Forall lrow ls ->
  Forall2 (decodes p nr) rawss rss -> Forall (Forall rrow) rss -> wrote tys names n w out ->
  exists t t' w1 w', load_table p (num_columns (left_frame ex)) raws (table_new lp) = Ok t /\
    probe_all fmt_double time_t_epoch add_seconds to_iso_string ex p 0 rawss t w = Ok (t', w1) /\
    (if left_join ex then emit_unmatched fmt_double time_t_epoch add_seconds to_iso_string ex
       (concat (map snd (traverse (hash_table t')))) w1 else Ok w1) = Ok w' /\
    wrote tys names n w' (out ++ join_lists ls (concat rss)).
Proof.
  intros Hn Hle Hd Hls Hds Hrs Hw.
  destruct (load_table_spec p raws ls Hd Hls _ [] (table_new_ok dom lp)) as (t & -> & Ht).
  destruct (probe_all_spec p names n rawss rss Hds Hrs 0 t ls [] w out) as (t' & w1 & E1 & Ht' & Hw1); [lia|done..|].
  cbn [app] in Ht'. exists t, t', w1. destruct (left_join ex) eqn:Elj; cycle 1.
  { exists w1. split_and!; try done. unfold join_lists. by rewrite Elj, app_nil_r. }
  assert (concat (map snd (traverse (hash_table t'))) ≡ₚ all_groups (hash_table t')) as Hgs.
  { unfold all_groups. by rewrite (traverse_perm (hash_table t')). }
  assert (Forall (fun g => rows g <> [] /\ Forall lrow (rows g)) (concat (map snd (traverse (hash_table t'))))) as Hok.
  { rewrite Hgs. apply Forall_forall. intros g Hin. split.
    - apply all_groups_elem in Hin as (h & gs & Hl & Hin). destruct (to_buckets _ _ _ _ _ Ht' h gs Hl) as [_ Hg _].
      rewrite Forall_forall in Hg. by destruct (Hg g Hin).
    - pose proof (to_rows _ _ _ _ _ Ht') as Hr. rewrite <- Hr in Hls. rewrite Forall_concat, Forall_map in Hls.
      rewrite Forall_forall in Hls. by apply Hls. }
  destruct (emit_unmatched_spec names n _ Hn Hok w1 _ Hw1) as (w2 & E2 & Hw2). exists w2. split_and!; try done.
  eapply wrote_perm; [exact Hw2|]. unfold join_lists. rewrite Elj, <- app_assoc.
  do 2 apply Permutation_app_head. apply Permutation_map.
  rewrite (Permutation_filter _ _ _ Hgs), (unmatched_rows dom lp t' ls _ Ht').
  erewrite filter_ext; [reflexivity|]. intros l. by rewrite existsb_map.
Qed.

Lemma join_partitions_spec p names n rawls lss : (0 < n)%nat ->
  Forall2 (decodes p nl) rawls lss -> Forall (Forall lrow) lss -> forall rawrs rsss,
  length rawls = length rawrs ->
  Forall2 (Forall2 (decodes p nr)) rawrs rsss -> Forall (Forall (Forall rrow)) rsss ->
  Forall (fun s => length s <= n)%nat rawrs -> forall w out, wrote tys names n w out ->
  exists w', join_partitions fmt_double time_t_epoch add_seconds to_iso_string traverse ex p rawls rawrs w = Ok w' /\
    wrote tys names n w' (out ++ concat (zip_with (fun ls rss => join_lists ls (concat rss)) lss rsss)).
Proof.
  intros Hn. induction 1 as [|raws ls rawls lss Hd _ IH]; intros Hls rawrs rsss Hlen Hr Hrs Hle w out Hw.
  { destruct rawrs; [|done]. exists w. cbn. by rewrite app_nil_r. }
  destruct Hr as [|rawss rss rawrs rsss Hds Hr]; [done|]. apply Forall_cons in Hls as [Hl Hls].
  apply Forall_cons in Hrs as [Hr1 Hrs]. apply Forall_cons in Hle as [Hle1 Hle]. injection Hlen as Hlen. cbn [join_partitions].
  destruct (join_partition p names n raws ls rawss rss w out Hn Hle1 Hd Hl Hds Hr1 Hw) as (t & t' & w1 & w2 & -> & E1 & E2 & Hw2).
  cbn [obind]. rewrite E1. cbn [obind fst snd]. rewrite E2. cbn [obind].
  destruct (IH Hls rawrs rsss Hlen Hr Hrs Hle w2 _ Hw2) as (w3 & -> & Hw3). exists w3. split; [done|].
  cbn [zip_with concat]. by rewrite <- app_assoc in Hw3.
Qed.

(** ** Partitions *)

Lemma join_lists_perm ls ls' rs rs' : ls ≡ₚ ls' -> rs ≡ₚ rs' -> join_lists ls rs ≡ₚ join_lists ls' rs'.
Proof.
  intros Hl Hr. unfold join_lists. apply Permutation_app.
  - transitivity (flat_map (fun r => right_output r (List.filter (fun l => joins l r) ls')) rs).
    + clear Hr. induction rs as [|r rs IH]; [done|]. cbn. apply Permutation_app; [|done].
      by apply right_output_perm, Permutation_filter.
    + by apply Permutation_flat_map.
  - destruct (left_join ex); [|done]. apply Permutation_map.
    rewrite (Permutation_filter _ _ _ Hl). erewrite filter_ext; [reflexivity|]. intros l. cbn. f_equal.
    apply eq_true_iff_eq. rewrite !existsb_exists. split; intros (r & Hin & Hj); exists r; split; try done.
    + by apply (Permutation_in _ Hr).
    + symmetry in Hr. by apply (Permutation_in _ Hr).
Qed.

(** Rows that join are in the same partition, so that the partitions can be
    joined one by one. *)
Lemma join_lists_partition (pl pr : row -> nat) n ls rs :
  Forall (fun l => pl l < n)%nat ls -> Forall (fun r => pr r < n)%nat rs ->
  (forall l r, l ∈ ls -> r ∈ rs -> joins l r = true -> pl l = pr r) ->
  join_lists ls rs ≡ₚ
  concat (map (fun i => join_lists (List.filter (fun l => (pl l =? i)%nat) ls) (List.filter (fun r => (pr r =? i)%nat) rs)) (seq 0 n)).
Proof.
  intros Hl Hr Hj. unfold join_lists. rewrite concat_map_app. apply Permutation_app.
  - set (f := fun r => right_output r (List.filter (fun l => joins l r) ls)).
    transitivity (flat_map f (concat (map (fun i => List.filter (fun r => (pr r =? i)%nat) rs) (seq 0 n)))).
    { apply Permutation_flat_map. symmetry. by apply partition_perm. }
    apply reflexive_eq. rewrite flat_map_concat_map, concat_map, map_map, <- flat_map_concat_map.
    induction (seq 0 n) as [|i l IH]; [done|]. cbn. rewrite concat_app. f_equal; [|done].
    rewrite flat_map_concat_map. f_equal. apply map_ext_in. intros r [Hin Hi]%filter_In. apply Nat.eqb_eq in Hi.
    unfold f. f_equal. clear IH. induction ls as [|l0 ls IH]; [done|]. cbn.
    assert (List.filter (fun l => joins l r) ls = List.filter (fun l => joins l r) (List.filter (fun l => (pl l =? i)%nat) ls)) as IH'.
    { apply IH; [by inversion Hl|]. intros l' r' Hl' Hr'. apply Hj; [by right|done]. }
    rewrite IH'. destruct (joins l0 r) eqn:E.
    + rewrite (Hj l0 r), Hi, Nat.eqb_refl; [|left|by apply list_elem_of_In|done]. cbn. by rewrite E.
    + destruct (pl l0 =? i)%nat; cbn; by rewrite ?E.
  - destruct (left_join ex); cycle 1.
    { assert (forall l : list nat, concat (map (fun _ => @nil row) l) = []) as ->; [|done]. induction l; cbn; auto. }
    transitivity (map (left_only ex nr) (List.filter (fun l => negb (existsb (joins l) rs)) (concat (map (fun i => List.filter (fun l => (pl l =? i)%nat) ls) (seq 0 n))))).
    { apply Permutation_map, Permutation_filter. symmetry. by apply partition_perm. }
    apply reflexive_eq. induction (seq 0 n) as [|i l IH]; [done|]. cbn. rewrite List.filter_app, map_app. f_equal; [|done].
    f_equal. apply filter_ext_in. intros l0 [Hin Hi]%filter_In. apply Nat.eqb_eq in Hi. f_equal.
    apply eq_true_iff_eq. rewrite !existsb_exists. split; intros (r & Hr' & E); exists r; (split; [|done]).
    + apply filter_In. split; [done|]. apply Nat.eqb_eq. rewrite <- Hi. symmetry. apply Hj; [by apply list_elem_of_In..|done].
    + by apply filter_In in Hr' as [? _].
Qed.
End join_one.
