(* ===== verification/JoinGrace.v ===== *)
(** Correctness of the partitioning of the frames and of the loop over the
    partitions: the frame that a join writes holds the rows of the relational join
    of the rows of the two frames. *)
From Stdlib Require Import ZArith Lia List Bool.
From stdpp Require Import prelude gmap strings.
From S2P Require Import Prelude.
From S2P Require Import Archive.
From S2P Require Import Serialization.
From S2P Require Import FlexibleType.
From S2P Require Import Hash.
From S2P Require Import FlexibleOps.
From S2P Require Import SFrame.
From S2P Require Import SFrameCorrect.
From S2P Require Import Join.
From S2P Require Import JoinCorrect.
Import SFrame.

(** ** Logical segments *)

Lemma split_sizes_spec n per elements : (n * per <= elements)%nat ->
  split_sizes n per elements = (replicate n per, (elements - n * per)%nat).
Proof.
  revert elements. induction n as [|n IH]; intros elements H; cbn [split_sizes replicate].
  { by rewrite Nat.sub_0_r. }
  rewrite (proj2 (Nat.leb_le per elements)) by (cbn in H; lia). rewrite IH by (cbn in H; lia). cbn. f_equal. lia.
Qed.

Lemma logical_sizes_spec n elements : (0 < n)%nat ->
  exists sizes, logical_sizes n elements = Ok sizes /\ length sizes = n /\ sum_list sizes = elements.
Proof.
  intros Hn. unfold logical_sizes. rewrite (proj2 (Nat.eqb_neq n 0)) by lia.
  assert (n * (elements / n) <= elements)%nat as Hle by (apply Nat.Div0.mul_div_le).
  rewrite split_sizes_spec by done. destruct n as [|n]; [lia|]. cbn [replicate fst snd]. eexists. split; [done|]. cbn [length].
  rewrite length_replicate. split; [done|].
  assert (forall k x, sum_list (replicate k x) = (k * x)%nat) as Hs by (induction k; intros x; cbn; auto).
  set (per := (elements / S n)%nat) in *. change (per + (elements - S n * per) + sum_list (replicate n per) = elements)%nat.
  rewrite Hs. lia.
Qed.

Lemma otraverse_sizes n lens : (0 < n)%nat ->
  exists sss, otraverse (logical_sizes n) lens = Ok sss /\ Forall (fun s => length s = n) sss /\ map sum_list sss = lens.
Proof.
  intros Hn. induction lens as [|e lens (sss & IH & Hl & Hs)]; [by exists []|].
  destruct (logical_sizes_spec n e Hn) as (s & E & Hls & Hss). exists (s :: sss). cbn [otraverse]. rewrite E. cbn [obind].
  rewrite IH. cbn. split_and!; [done|by constructor|by rewrite Hss, Hs].
Qed.

Lemma pieces_app {A} s1 s2 (l : list A) : pieces (s1 ++ s2) l = pieces s1 l ++ pieces s2 (drop (sum_list s1) l).
Proof.
  revert l. induction s1 as [|n s1 IH]; intros l; cbn; [by rewrite drop_0|]. rewrite IH. by rewrite drop_drop.
Qed.
Lemma pieces_take {A} s (l : list A) k : (sum_list s <= k)%nat -> pieces s (take k l) = pieces s l.
Proof.
  revert l k. induction s as [|n s IH]; intros l k Hk; [done|]. cbn in *. f_equal.
  - by rewrite take_take, Nat.min_l by lia.
  - rewrite <- (IH (drop n l) (k - n)%nat) by lia. by rewrite skipn_firstn_comm.
Qed.

(** The logical segments of the reader, part by part *)
Lemma chunks_pieces {A} n sss (l : list A) : Forall (fun s => length s = n) sss ->
  chunks (length sss) n (pieces (concat sss) l) = zip_with pieces sss (pieces (map sum_list sss) l).
Proof.
  intros H. revert l. induction H as [|s sss Hs _ IH]; intros l; [done|]. cbn [length concat chunks map pieces zip_with].
  rewrite pieces_app. assert (length (pieces s l) = n) as Hl by (by rewrite length_pieces).
  rewrite take_app_length', drop_app_length' by done. f_equal; [|apply IH].
  symmetry. by apply pieces_take.
Qed.

(** ** Serialized rows *)

Definition packed (r : row) : row := [FString (default [] (to_bytes (wfor FlexibleType.save) r))].

Lemma pack_row_spec r : Forall flex_ok r ->
  exists s, pack_row r = Ok s /\ packed r = [FString s] /\ unpack_row s (length r) = Ok r.
Proof.
  intros Hr. assert (codec (wfor FlexibleType.save) (rrepeat (length r) FlexibleType.load) r) as Hc.
  { destruct (codec_elements FlexibleType.save FlexibleType.load r) as (bs & He & Hp & _); [|by exists bs].
    eapply Forall_impl; [exact Hr|]. intros x Hx. by apply flex_codec. }
  destruct Hc as (bs & He & Hp). unfold pack_row, packed.
  rewrite (emits_to_bytes _ _ bs He). exists bs. split_and!; [done..|].
  unfold unpack_row. by rewrite <- (app_nil_r bs), (parses_of_bytes _ bs [] r).
Qed.

Lemma get_row_packed r n : Forall flex_ok r -> length r = n -> get_row true n (packed r) = Ok r.
Proof. intros Hr <-. destruct (pack_row_spec r Hr) as (s & _ & -> & Hu). done. Qed.

Lemma interleave_perm {A} sched : forall segs : list (list A), interleave sched segs ≡ₚ concat segs.
Proof.
  induction sched as [|i sched IH]; intros segs; [done|]. cbn [interleave].
  destruct (segs !! i) as [[|r rs]|] eqn:E; [apply IH| |apply IH].
  rewrite IH. clear IH. revert i E. induction segs as [|seg segs IH]; intros [|i] E; cbn in *; try done.
  - by injection E as ->.
  - rewrite <- (IH i E). apply Permutation_middle.
Qed.

(** ** Partitioning *)

Section grace.
Context (fmt_double : Z -> bytes) {ptime : Type} (time_t_epoch : ptime)
  (add_seconds : ptime -> Z -> ptime) (to_iso_string : ptime -> bytes).
Abbreviation write_all := (write_all fmt_double time_t_epoch add_seconds to_iso_string).

(** The partition of a row *)
Definition part_of (positions : list nat) (n : nat) (r : row) : nat :=
  Z.to_nat (hash_key (project positions r) mod Z.of_nat n).
Lemma part_of_lt positions n r : (0 < n)%nat -> (part_of positions n r < n)%nat.
Proof. intros Hn. unfold part_of. pose proof (Z.mod_pos_bound (hash_key (project positions r)) (Z.of_nat n)). lia. Qed.

(** A row that can be serialized and has the join columns *)
Definition storable (positions : list nat) (r : row) : Prop :=
  Forall flex_ok r /\ Forall (fun i => i < length r)%nat positions.

Lemma write_types s v w w' : write fmt_double time_t_epoch add_seconds to_iso_string s v w = Ok w' -> w_types w' = w_types w.
Proof.
  unfold write. destruct (convert_row _ _ _ _ _ _); try done. cbn [obind].
  destruct (write_values _ _ _); try done. by intros [= <-].
Qed.

Lemma write_partitions_eq positions n rs : Forall (storable positions) rs -> forall w, w_types w = [STRING] ->
  write_partitions fmt_double time_t_epoch add_seconds to_iso_string positions n rs w =
  write_all (map (fun r => (part_of positions n r, packed r)) rs) w.
Proof.
  induction 1 as [|r rs [Hok Hp] _ IH]; intros w Hw; [done|]. cbn [write_partitions map SFrameCorrect.write_all].
  rewrite (compute_hash_project r positions Hp). cbn [of_option obind].
  destruct (pack_row_spec r Hok) as (s & -> & -> & _). cbn [obind]. fold (part_of positions n r).
  unfold write_move. rewrite Hw. cbn [length Nat.eqb assert obind].
  destruct (write _ _ _ _ (part_of positions n r) [FString s] w) as [w1| |] eqn:E; try done. cbn [obind].
  apply IH. by rewrite (write_types _ _ _ _ E).
Qed.

Lemma rows_for_map positions n i rs :
  rows_for i (map (fun r => (part_of positions n r, packed r)) rs) =
  map packed (List.filter (fun r => (part_of positions n r =? i)%nat) rs).
Proof.
  unfold rows_for. induction rs as [|r rs IH]; [done|]. cbn. destruct (part_of positions n r =? i)%nat; cbn; by rewrite IH.
Qed.

(** The parts of a list of rows *)
Definition parts (positions : list nat) (n : nat) (rs : list row) : list (list row) :=
  map (fun i => List.filter (fun r => (part_of positions n r =? i)%nat) rs) (seq 0 n).
Lemma length_parts positions n rs : length (parts positions n rs) = n.
Proof. unfold parts. by rewrite length_map, length_seq. Qed.
Lemma concat_parts positions n rs : (0 < n)%nat -> concat (parts positions n rs) ≡ₚ rs.
Proof. intros Hn. apply partition_perm. apply Forall_forall. intros r _. by apply part_of_lt. Qed.

(** What the join reads of a partitioned frame: its segments are the serialized
    parts of the rows, in some order. *)
Record partition_of (positions : list nat) (n : nat) (sf gf : sframe) (rs' : list row) : Prop := {
  pf_reader : get_reader gf = Ok (map (map packed) (parts positions n rs'));
  pf_rows : has_rows gf (concat (map (map packed) (parts positions n rs')));
  pf_segments : num_segments gf = n;
  pf_lengths : forall i, (i < n)%nat -> segment_length gf i = of_option (map length (parts positions n rs') !! i);
  pf_count : num_rows gf = num_rows sf
}.

Lemma grace_partition_spec cpu sched sf positions n rs : (0 < cpu)%nat -> (1 < n)%nat ->
  has_rows sf rs -> columns sf <> [] -> Forall (storable positions) rs ->
  exists gf rs', grace_partition_frame fmt_double time_t_epoch add_seconds to_iso_string cpu sched sf positions n = Ok gf /\
    rs' ≡ₚ rs /\ partition_of positions n sf gf rs'.
Proof.
  intros Hcpu Hn Hr Hne Hs. unfold grace_partition_frame.
  rewrite (proj2 (Nat.eqb_neq n 1)), (proj2 (Nat.ltb_ge n 1)) by lia.
  destruct (open_for_write ["data"]%string [STRING] n true) as [w| |] eqn:Ew; try done. cbn [obind].
  destruct (open_for_write_holds _ _ _ _ _ Ew) as (Hw & Ht & _ & _).
  destruct (get_reader_even_spec sf rs cpu Hr Hcpu Hne) as (segs & -> & _ & Hc). cbn [obind].
  set (rs' := interleave sched segs). assert (rs' ≡ₚ rs) as Hp by (unfold rs'; rewrite interleave_perm; by rewrite Hc).
  rewrite write_partitions_eq by (done || by rewrite Hp).
  assert (w_segments w = n) as Hseg by (rewrite <- (ho_segments _ _ Hw); apply length_replicate).
  assert (Forall (storable positions) rs') as Hs' by (by rewrite Hp).
  destruct (write_all_spec fmt_double time_t_epoch add_seconds to_iso_string
    (map (fun r => (part_of positions n r, packed r)) rs') (map (fun r => (part_of positions n r, packed r)) rs') w _ Hw)
    as (w' & -> & Hw' & Ht' & _).
  { apply Forall_map, Forall_forall. intros r _. rewrite Ht, Hseg. split; [apply part_of_lt; lia|done]. }
  { apply Forall_Forall2_diag, Forall_map, Forall_forall. intros r _. by rewrite Ht. }
  rewrite imap_replicate_nil in Hw'. erewrite map_ext in Hw'; [|intros i; apply rows_for_map].
  assert (map (fun i => map packed (List.filter (fun r => (part_of positions n r =? i)%nat) rs')) (seq 0 n) =
    map (map packed) (parts positions n rs')) as Epart by (unfold parts; by rewrite map_map).
  rewrite Epart in Hw'. assert (w_types w' <> []) as Hne' by (rewrite Ht', Ht; done).
  destruct (close_rows w' _ Hw' Hne') as [Hrows Hsizes]. cbn [omap_ok].
  exists (close w'), rs'. split_and!; [done|done|].
  pose proof (columns_close w' _ Hw') as Hcol. rewrite Ht', Ht in Hcol.
  assert (columns (close w') = [mk_sarray (map (col_of 0) (map (map packed) (parts positions n rs'))) STRING]) as Hcol' by exact Hcol.
  split; [by apply get_reader_close|done| | |].
  - unfold num_segments. rewrite Hcol'. cbn. by rewrite !length_map, length_parts.
  - intros i Hi. unfold segment_length. rewrite Hcol'. f_equal. unfold segment_sizes. cbn [segments].
    rewrite !map_map. f_equal. apply map_ext. intros l. unfold col_of. by rewrite !length_map.
  - unfold num_rows. rewrite <- (hr_count _ _ Hrows), <- (hr_count _ _ Hr).
    rewrite <- concat_map, length_map. by rewrite (concat_parts positions n rs') by lia; rewrite Hp.
Qed.
End grace.

(** ** The join *)

Lemma rows_typed sf rs : wf sf -> has_rows sf rs -> Forall (Forall2 typed_value (column_types sf)) rs.
Proof.
  intros Hwf Hr. apply Forall_forall. intros r Hin.
  assert (length r = num_columns sf) as Hl by (pose proof (hr_width _ _ Hr) as Hw; rewrite Forall_forall in Hw; by apply Hw).
  apply Forall2_same_length_lookup_2; [unfold column_types; by rewrite length_map|].
  intros i ty v Hty Hv. unfold column_types in Hty. rewrite list_lookup_fmap in Hty.
  destruct (columns sf !! i) as [c|] eqn:Ec; [|done]. injection Hty as <-.
  pose proof (wf_types _ Hwf) as Ht. eapply Forall_lookup_1 in Ht; [|exact Ec]. unfold typed_column in Ht.
  assert (sa_values c = col_of i rs) as Ev.
  { pose proof (hr_values _ _ Hr) as Hv'. apply (f_equal (fun l => l !! i)) in Hv'. rewrite !list_lookup_fmap, Ec in Hv'.
    rewrite lookup_seq_lt in Hv' by (by eapply lookup_lt_Some). by injection Hv'. }
  rewrite Ev in Ht. unfold col_of in Ht. rewrite Forall_map, Forall_forall in Ht. specialize (Ht r Hin).
  unfold compose in Ht. by rewrite Hv in Ht.
Qed.

Lemma write_names_total unique given : forall names, exists r, write_names unique false given names = Ok r.
Proof.
  induction given as [|g given IH]; intros names; cbn [write_names]; [by eexists|].
  destruct (generate_valid_spec names g) as (n & -> & _). destruct (String.eqb g "" || negb unique); cbn [of_option obind assert negb andb]; apply IH.
Qed.

Lemma pieces_map {A B} (f : A -> B) s l : pieces s (map f l) = map (map f) (pieces s l).
Proof.
  revert l. induction s as [|n s IH]; intros l; [done|]. cbn. rewrite firstn_map, skipn_map. by rewrite IH.
Qed.

Lemma zip_with_pieces_concat {A} (sss : list (list nat)) (ls : list (list A)) : map sum_list sss = map length ls ->
  map (@concat A) (zip_with pieces sss ls) = ls.
Proof.
  revert ls. induction sss as [|s sss IH]; intros [|l ls] E; try done. cbn in *. injection E as E1 E2.
  by rewrite concat_pieces, IH.
Qed.

Lemma Forall_pieces {A} (P : A -> Prop) s l : Forall P l -> Forall (Forall P) (pieces s l).
Proof.
  revert l. induction s as [|n s IH]; intros l Hl; cbn; constructor; [by apply Forall_take|]. by apply IH, Forall_drop.
Qed.

Section join.
Context (fmt_double : Z -> bytes) {ptime : Type} (time_t_epoch : ptime)
  (add_seconds : ptime -> Z -> ptime) (to_iso_string : ptime -> bytes).
Context (traverse : gmap Z (list hash_join_row) -> list (Z * list hash_join_row))
  (traverse_perm : forall m, traverse m ≡ₚ map_to_list m).
Context (dom : flexible_type -> Prop)
  (dom_eq : forall x y, dom x -> dom y -> approx_equal x y = true -> x = y).
Context (ex : executor) (ls rs : list row).
Abbreviation ltys := (column_types (left_frame ex)).
Abbreviation rtys := (column_types (right_frame ex)).
Abbreviation nl := (length ltys).
Abbreviation nr := (length rtys).
Abbreviation lp := (left_join_positions ex).
Abbreviation rp := (right_join_positions ex).
Abbreviation tys := (ltys ++ rvals ex 0 rtys).

(** An executor that can run: good frames with the rows [ls] and [rs], and join
    columns of the same types with values from [dom] *)
Record runnable : Prop := {
  rn_left : wf (left_frame ex);
  rn_right : wf (right_frame ex);
  rn_left_rows : has_rows (left_frame ex) ls;
  rn_right_rows : has_rows (right_frame ex) rs;
  rn_positions : positions_ok ex nl nr;
  rn_some : lp <> [];
  rn_types : Forall2 (fun i j => ltys !! i = rtys !! j) lp rp;
  rn_left_keys : Forall (fun l => Forall dom (project lp l)) ls;
  rn_right_keys : Forall (fun r => Forall dom (project rp r)) rs;
  rn_left_ok : Forall (Forall flex_ok) ls;
  rn_right_ok : Forall (Forall flex_ok) rs;
  rn_buffer : (0 < max_buffer_size ex)%nat
}.
Context (Hrun : runnable).

Lemma ncols_types sf : num_columns sf = length (column_types sf).
Proof. unfold column_types. by rewrite length_map. Qed.

Lemma all_lrow : Forall (lrow dom ex ltys) ls.
Proof.
  apply Forall_and. split; [|apply Hrun]. apply rows_typed; apply Hrun.
Qed.
Lemma all_rrow : Forall (rrow dom ex rtys) rs.
Proof. apply Forall_and. split; [|apply Hrun]. apply rows_typed; apply Hrun. Qed.

Lemma left_storable : Forall (storable lp) ls.
Proof.
  apply Forall_and. split; [apply Hrun|]. pose proof (hr_width _ _ (rn_left_rows Hrun)) as Hw. rewrite ncols_types in Hw.
  eapply Forall_impl; [exact Hw|]. intros l Hl. rewrite Hl. apply (po_left _ _ _ (rn_positions Hrun)).
Qed.
Lemma right_storable : Forall (storable rp) rs.
Proof.
  apply Forall_and. split; [apply Hrun|]. pose proof (hr_width _ _ (rn_right_rows Hrun)) as Hw. rewrite ncols_types in Hw.
  eapply Forall_impl; [exact Hw|]. intros l Hl. rewrite Hl. apply (po_right _ _ _ (rn_positions Hrun)).
Qed.

Lemma columns_ne : columns (left_frame ex) <> [] /\ columns (right_frame ex) <> [].
Proof.
  pose proof (rn_some Hrun) as Hne. destruct (rn_positions Hrun) as [Hl Hpl Hpr _ _]. unfold column_types in *. rewrite !length_map in *.
  destruct lp as [|i lp']; [done|]. destruct rp as [|j rp']; [done|].
  apply Forall_cons in Hpl as [Hi _]. apply Forall_cons in Hpr as [Hj _].
  split; intros E; rewrite E in *; cbn in *; lia.
Qed.

(** Rows that join are in the same partition. *)
Lemma joins_same_part n l r : lrow dom ex ltys l -> rrow dom ex rtys r -> joins ex l r = true ->
  part_of lp n l = part_of rp n r.
Proof.
  intros [_ Hl] [_ Hr] Hj. unfold part_of. do 2 f_equal. f_equal.
  apply (keys_eq_same dom dom_eq); [|done..]. unfold project. rewrite !length_map. apply (rn_positions Hrun).
Qed.

Lemma join_parts n ls' rs' : (0 < n)%nat -> ls' ≡ₚ ls -> rs' ≡ₚ rs ->
  concat (zip_with (join_lists ex ltys rtys) (parts lp n ls') (parts rp n rs')) ≡ₚ join_lists ex ltys rtys ls rs.
Proof.
  intros Hn Hl Hr. rewrite <- (join_lists_perm ex ltys rtys ls' ls rs' rs) by done.
  rewrite (join_lists_partition ex ltys rtys (part_of lp n) (part_of rp n) n ls' rs').
  - unfold parts. generalize (seq 0 n). induction l as [|i l IH]; [done|]. cbn. by rewrite IH.
  - apply Forall_forall. intros. by apply part_of_lt.
  - apply Forall_forall. intros. by apply part_of_lt.
  - intros l r Hin Hin'. pose proof all_lrow as H1. pose proof all_rrow as H2. rewrite <- Hl in H1. rewrite <- Hr in H2.
    rewrite Forall_forall in H1, H2. by apply joins_same_part; auto.
Qed.

Lemma decodes_packed n xs : Forall (fun r => Forall flex_ok r /\ length r = n) xs -> decodes true n (map packed xs) xs.
Proof.
  induction 1 as [|r xs [Hr Hl] _ IH]; [constructor|]. constructor; [by apply get_row_packed|exact IH].
Qed.
Lemma decodes_id n xs : decodes false n xs xs.
Proof. apply Forall_Forall2_diag, Forall_forall. done. Qed.

Lemma Forall_parts (P : row -> Prop) positions n xs : Forall P xs -> Forall (Forall P) (parts positions n xs).
Proof.
  intros H. unfold parts. apply Forall_map, Forall_forall. intros i _. unfold compose.
  rewrite Forall_forall in H |- *. intros x Hx. apply H. apply list_elem_of_In, filter_In in Hx as [? _]. by apply list_elem_of_In.
Qed.

Lemma init_result_spec cpu : (0 < cpu)%nat ->
  exists w, init_result_frame cpu ex = Ok w /\ (0 < w_segments w)%nat /\
    wrote tys (w_names w) (w_segments w) w [] /\
    write_names (all_unique (column_names (left_frame ex) ++ rvals ex 0 (column_names (right_frame ex)))) false
      (column_names (left_frame ex) ++ rvals ex 0 (column_names (right_frame ex))) [] = Ok (w_names w).
Proof.
  intros Hcpu. unfold init_result_frame. rewrite !right_values_rvals. set (names := column_names (left_frame ex) ++ _).
  assert (length names = length tys) as Hl.
  { unfold names. rewrite !length_app. rewrite (wf_length _ (rn_left Hrun)), <- (ncols_types (left_frame ex)).
    f_equal. rewrite !(length_rvals ex nl nr (rn_positions Hrun)); [done|done|].
    by rewrite (wf_length _ (rn_right Hrun)), <- ncols_types. }
  destruct (open_for_write names tys (result_segments cpu ex) false) as [w| |] eqn:E; cycle 1.
  { exfalso. revert E. unfold open_for_write. rewrite Hl, Nat.eqb_refl. cbn [assert obind].
    by destruct (write_names_total (all_unique names) names []) as [r ->]. }
  { exfalso. revert E. unfold open_for_write. rewrite Hl, Nat.eqb_refl. cbn [assert obind].
    by destruct (write_names_total (all_unique names) names []) as [r ->]. }
  destruct (open_for_write_holds _ _ _ _ _ E) as (Hw & Ht & _ & Hn). exists w. split; [done|].
  assert (w_segments w = result_segments cpu ex) as Hseg by (rewrite <- (ho_segments _ _ Hw); apply length_replicate).
  split; [rewrite Hseg; unfold result_segments; nia|]. split; [|done].
  exists (replicate (result_segments cpu ex) []). split_and!; try done; [by rewrite length_replicate|].
  apply reflexive_eq. generalize (result_segments cpu ex). induction n; cbn; auto.
Qed.

Lemma partitions_spec : exists n, (0 < n)%nat /\
  exists nleft nright, choose_number_of_grace_partitions ex (left_frame ex) = Ok nleft /\
    choose_number_of_grace_partitions ex (right_frame ex) = Ok nright /\ Nat.min nleft nright = n.
Proof.
  unfold choose_number_of_grace_partitions. pose proof (rn_buffer Hrun). rewrite (proj2 (Nat.eqb_neq _ 0)) by lia.
  eexists. split; [|do 2 eexists; split_and!; done]. lia.
Qed.

Lemma otraverse_lengths gf n lens : length lens = n ->
  (forall i, (i < n)%nat -> segment_length gf i = of_option (lens !! i)) -> otraverse (segment_length gf) (seq 0 n) = Ok lens.
Proof.
  intros <-. assert (forall pre suf, (forall i, (i < length (pre ++ suf))%nat -> segment_length gf i = of_option ((pre ++ suf) !! i)) ->
    otraverse (segment_length gf) (seq (length pre) (length suf)) = Ok suf) as H; [|intros Hs; by apply (H [])].
  intros pre suf. revert pre. induction suf as [|x suf IH]; intros pre Hs; [done|]. cbn [length seq otraverse].
  rewrite Hs by (rewrite length_app; cbn; lia). rewrite list_lookup_middle by done. cbn [of_option obind].
  specialize (IH (pre ++ [x])). rewrite (length_app pre [x]) in IH. cbn [length] in IH. rewrite (Nat.add_1_r (length pre)) in IH. rewrite IH; [done|]. by rewrite <- app_assoc.
Qed.

Abbreviation join_partitions := (join_partitions fmt_double time_t_epoch add_seconds to_iso_string traverse).

(** The loop over the partitions of partitioned frames *)
Lemma join_partitioned n k w ls' rs' sss names : (0 < n)%nat -> (0 < k)%nat -> ls' ≡ₚ ls -> rs' ≡ₚ rs ->
  Forall (fun s => length s = k) sss -> map sum_list sss = map length (parts rp n rs') -> wrote tys names k w [] ->
  exists w', join_partitions ex true (map (map packed) (parts lp n ls'))
      (zip_with pieces sss (map (map packed) (parts rp n rs'))) w = Ok w' /\
    wrote tys names k w' (join_lists ex ltys rtys ls rs).
Proof.
  intros Hn Hk Hl Hr Hsss Hsum Hw.
  assert (length sss = n) as Hlen.
  { apply (f_equal length) in Hsum. by rewrite !length_map, length_parts in Hsum. }
  pose proof all_lrow as H1. pose proof all_rrow as H2. rewrite <- Hl in H1. rewrite <- Hr in H2.
  assert (Forall (fun l => Forall flex_ok l /\ length l = nl) ls') as Hl'.
  { rewrite Hl. apply Forall_and. split; [apply Hrun|]. rewrite <- ncols_types. apply (hr_width _ _ (rn_left_rows Hrun)). }
  assert (Forall (fun r => Forall flex_ok r /\ length r = nr) rs') as Hr'.
  { rewrite Hr. apply Forall_and. split; [apply Hrun|]. rewrite <- ncols_types. apply (hr_width _ _ (rn_right_rows Hrun)). }
  destruct (join_partitions_spec fmt_double time_t_epoch add_seconds to_iso_string dom dom_eq ex ltys rtys
    (rn_positions Hrun) (rn_some Hrun) (rn_types Hrun) (ncols_types _) (ncols_types _) traverse traverse_perm
    true names k (map (map packed) (parts lp n ls')) (parts lp n ls') Hk) with
    (rawrs := zip_with pieces sss (map (map packed) (parts rp n rs'))) (rsss := zip_with pieces sss (parts rp n rs')) (w := w) (out := @nil row)
    as (w' & E & Hw').
  - apply Forall_parts with (positions := lp) (n := n) in Hl'. induction Hl' as [|x xs Hx _ IH]; constructor; [by apply decodes_packed|exact IH].
  - by apply Forall_parts.
  - by rewrite length_zip_with, !length_map, !length_parts, Hlen, Nat.min_id.
  - apply Forall_parts with (positions := rp) (n := n) in Hr'. clear -Hr'. revert sss.
    induction Hr' as [|x xs Hx _ IH]; intros [|s sss]; cbn; try constructor; [|apply IH].
    rewrite pieces_map. apply (Forall_pieces _ s) in Hx. clear -Hx.
    induction Hx as [|y ys Hy _ IH']; constructor; [by apply decodes_packed|exact IH'].
  - apply Forall_parts with (positions := rp) (n := n) in H2. clear -H2. revert sss.
    induction H2 as [|x xs Hx _ IH]; intros [|s sss]; cbn; try constructor; [by apply Forall_pieces|apply IH].
  - clear -Hsss. revert Hsss. generalize (map (map packed) (parts rp n rs')). intros l H. revert l.
    induction H as [|s sss Hs _ IH]; intros [|x xs]; cbn; constructor; [|apply IH]. by rewrite length_pieces, Hs.
  - exact Hw.
  - exists w'. split; [exact E|]. eapply wrote_perm; [exact Hw'|]. cbn [app].
    rewrite <- (join_parts n ls' rs' Hn Hl Hr). apply reflexive_eq. f_equal.
    rewrite <- (zip_with_pieces_concat sss (parts rp n rs') Hsum) at 2.
    rewrite zip_with_fmap_r. done.
Qed.

(** The join of frames that are not partitioned *)
Lemma join_unpartitioned k w sizes names : (0 < k)%nat -> length sizes = k -> sum_list sizes = length rs ->
  wrote tys names k w [] ->
  exists w', join_partitions ex false [ls] [pieces sizes rs] w = Ok w' /\ wrote tys names k w' (join_lists ex ltys rtys ls rs).
Proof.
  intros Hk Hl Hs Hw. pose proof all_lrow as H1. pose proof all_rrow as H2.
  destruct (join_partitions_spec fmt_double time_t_epoch add_seconds to_iso_string dom dom_eq ex ltys rtys
    (rn_positions Hrun) (rn_some Hrun) (rn_types Hrun) (ncols_types _) (ncols_types _) traverse traverse_perm
    false names k [ls] [ls] Hk) with (rawrs := [pieces sizes rs]) (rsss := [pieces sizes rs]) (w := w) (out := @nil row)
    as (w' & E & Hw').
  - constructor; [apply decodes_id|constructor].
  - by constructor.
  - done.
  - constructor; [|constructor]. apply Forall_Forall2_diag, Forall_forall. intros. apply decodes_id.
  - constructor; [|constructor]. by apply Forall_pieces.
  - constructor; [|constructor]. rewrite length_pieces. lia.
  - exact Hw.
  - exists w'. split; [exact E|]. cbn in Hw'. by rewrite concat_pieces, app_nil_r in Hw'.
Qed.

Lemma right_length : length rs = num_rows (right_frame ex).
Proof. apply (hr_count _ _ (rn_right_rows Hrun)). Qed.

(** What a join writes, before the columns are put in order *)
Lemma grace_core cpu sched_left sched_right : (0 < cpu)%nat ->
  exists w w', init_result_frame cpu ex = Ok w /\
    wrote tys (w_names w) (w_segments w) w' (join_lists ex ltys rtys ls rs) /\
    grace_hash_join fmt_double time_t_epoch add_seconds to_iso_string traverse cpu sched_left sched_right ex =
      (if reverse_output_column_order ex then swap_result ex (close w') (changed_dup_names ex w) else Ok (close w')).
Proof.
  intros Hcpu. destruct (init_result_spec cpu Hcpu) as (w & Ew & Hseg & Hw & _).
  destruct partitions_spec as (n & Hn & n1 & n2 & E1 & E2 & Emin). destruct columns_ne as [Hcl Hcr].
  exists w. unfold grace_hash_join. rewrite E1, E2. cbn [obind]. rewrite Emin.
  destruct (Nat.eqb_spec n 1) as [->|Hn1]; cbn [negb].
  - unfold grace_partition_frame. cbn [Nat.eqb obind]. rewrite Ew. cbn [obind]. rewrite !Nat.eqb_refl. cbn [assert obind orb negb].
    destruct (logical_sizes_spec (w_segments w) (num_rows (right_frame ex)) Hseg) as (sizes & Es & Hl & Hs).
    cbn [otraverse]. rewrite Es. cbn [obind omap_ok concat]. rewrite app_nil_r, Hl, Nat.mul_1_l, Nat.eqb_refl. cbn [assert obind].
    destruct (get_reader_even_spec (left_frame ex) ls 1 (rn_left_rows Hrun) ltac:(lia) Hcl) as (segs & -> & Hl1 & Hc1). cbn [obind].
    destruct segs as [|seg [|]]; try done. cbn in Hc1. rewrite app_nil_r in Hc1. subst seg.
    rewrite <- right_length in Hs. rewrite (get_reader_lengths_spec _ rs sizes (rn_right_rows Hrun) Hs). cbn [obind chunks].
    rewrite take_ge by (rewrite length_pieces; lia).
    destruct (join_unpartitioned (w_segments w) w sizes (w_names w) Hseg Hl Hs Hw) as (w' & -> & Hw'). cbn [obind].
    by exists w'.
  - destruct (grace_partition_spec fmt_double time_t_epoch add_seconds to_iso_string cpu sched_left (left_frame ex) lp n ls Hcpu ltac:(lia)
      (rn_left_rows Hrun) Hcl left_storable) as (gl & ls' & -> & Hpl & Hgl). cbn [obind].
    destruct (grace_partition_spec fmt_double time_t_epoch add_seconds to_iso_string cpu sched_right (right_frame ex) rp n rs Hcpu ltac:(lia)
      (rn_right_rows Hrun) Hcr right_storable) as (gr & rs' & -> & Hpr & Hgr). cbn [obind].
    rewrite Ew. cbn [obind]. destruct Hgl as [Hlr _ Hls _ Hlc], Hgr as [_ Hrr Hrs Hrl Hrc].
    rewrite Hlc, Hrc, !Nat.eqb_refl, Hls, Hrs, Nat.eqb_refl. cbn [assert obind orb].
    rewrite (otraverse_lengths gr n (map length (parts rp n rs'))) by (done || by rewrite length_map, length_parts). cbn [obind].
    destruct (otraverse_sizes (w_segments w) (map length (parts rp n rs')) Hseg) as (sss & -> & Hsl & Hss). cbn [obind omap_ok].
    assert (length sss = n) as Hsn by (apply (f_equal length) in Hss; by rewrite !length_map, length_parts in Hss).
    assert (length (concat sss) = (n * w_segments w)%nat) as ->.
    { rewrite <- Hsn. clear -Hsl. induction Hsl as [|s sss Hs _ IH]; [done|]. cbn. rewrite length_app, Hs, IH. lia. }
    rewrite Nat.eqb_refl, Hlr. cbn [assert obind].
    assert (sum_list (concat sss) = length (concat (map (map packed) (parts rp n rs')))) as Hsum.
    { assert (forall l : list (list nat), sum_list (concat l) = sum_list (map sum_list l)) as Hc.
      { induction l as [|s l IH]; [done|]. cbn. rewrite sum_list_with_app. by rewrite <- IH. }
      rewrite Hc, Hss, <- concat_map, length_map, sum_lengths. done. }
    rewrite (get_reader_lengths_spec gr _ _ Hrr Hsum). cbn [obind].
    rewrite <- Hsn, chunks_pieces by done. rewrite Hsn.
    assert (pieces (map sum_list sss) (concat (map (map packed) (parts rp n rs'))) = map (map packed) (parts rp n rs')) as ->.
    { rewrite Hss. rewrite <- (pieces_concat (map (map packed) (parts rp n rs'))) at 2. f_equal.
      rewrite map_map. apply map_ext. intros l. by rewrite length_map. }
    destruct (join_partitioned n (w_segments w) w ls' rs' sss (w_names w) Hn Hseg Hpl Hpr Hsl Hss Hw) as (w' & -> & Hw'). cbn [obind].
    by exists w'.
Qed.
End join.
