(* ===== verification/JoinOrder.v ===== *)
(** The order of the columns of a joined frame, and the correctness of a join:
    whatever frame is the smaller, the result is the relational join of the two
    frames with the columns of the left one first. *)
From Stdlib Require Import ZArith Lia List Bool.
From stdpp Require Import prelude gmap strings pretty.
From S2P Require Import Prelude.
From S2P Require Import Archive.
From S2P Require Import Serialization.
From S2P Require Import FlexibleType.
From S2P Require Import Hash.
From S2P Require Import FlexibleOps.
From S2P Require Import SFrame.
From S2P Require Import SFrameCorrect.
From S2P Require Import Join.
From S2P Require Import JoinCorrect.
From S2P Require Import JoinGrace.
Import SFrame.

(** ** Filling up the free places *)

Fixpoint fill_holes {A} (arr : list (option A)) (items : list A) : list (option A) :=
  match arr with
  | [] => []
  | Some x :: arr => Some x :: fill_holes arr items
  | None :: arr =>
      match items with x :: items => Some x :: fill_holes arr items | [] => None :: fill_holes arr [] end
  end.
Definition holes {A} (arr : list (option A)) : nat := length (List.filter (fun o => match o with None => true | _ => false end) arr).
Abbreviation full arr := (Forall (fun o => is_Some o) arr).

Lemma fill_holes_full {A} (pre arr : list (option A)) items : full pre ->
  fill_holes (pre ++ arr) items = pre ++ fill_holes arr items.
Proof. induction 1 as [|o pre [x ->] _ IH]; [done|]. cbn. by rewrite IH. Qed.

Lemma fill_holes_nil {A} (arr : list (option A)) : fill_holes arr [] = arr.
Proof. induction arr as [|[y|] arr IH]; cbn; by rewrite ?IH. Qed.

Lemma first_hole {A} (arr : list (option A)) : (0 < holes arr)%nat ->
  exists pre post, arr = pre ++ None :: post /\ full pre.
Proof.
  induction arr as [|[x|] arr IH]; intros H; [cbn in H; lia| |by exists [], arr].
  destruct (IH H) as (pre & post & -> & Hp). exists (Some x :: pre), post. split; [done|]. constructor; [by eexists|done].
Qed.

Lemma next_hole_spec {A} fuel (pre post : list (option A)) : full pre -> forall cur, (cur <= length pre)%nat ->
  (length pre < fuel + cur)%nat -> next_hole fuel (pre ++ None :: post) cur = Ok (length pre).
Proof.
  intros Hp. induction fuel as [|fuel IH]; intros cur Hc Hf; [lia|]. cbn [next_hole].
  destruct (decide (cur = length pre)) as [->|Hne]; [by rewrite list_lookup_middle|].
  rewrite lookup_app_l by lia. destruct (lookup_lt_is_Some_2 pre cur) as [o Ho]; [lia|]. rewrite Ho.
  pose proof (Forall_lookup_1 _ _ _ _ Hp Ho) as [x ->]. apply IH; lia.
Qed.

Lemma holes_app {A} (a b : list (option A)) : holes (a ++ b) = (holes a + holes b)%nat.
Proof. unfold holes. by rewrite List.filter_app, length_app. Qed.
Lemma holes_full {A} (a : list (option A)) : full a -> holes a = 0%nat.
Proof. unfold holes. induction 1 as [|o a [x ->] _ IH]; done. Qed.
Lemma length_fill_holes {A} (arr : list (option A)) items : length (fill_holes arr items) = length arr.
Proof. revert items. induction arr as [|[x|] arr IH]; intros [|y items]; cbn; auto. Qed.

(** The loop puts the items into the free places, in order. *)
Lemma fill_columns_spec {A} (items : list A) : forall cur arr, (length items <= holes arr)%nat ->
  full (take cur arr) -> (cur <= length arr)%nat ->
  exists cur', fill_columns items cur arr = Ok (cur', fill_holes arr items) /\
    full (take cur' (fill_holes arr items)) /\ (cur' <= length arr)%nat.
Proof.
  induction items as [|x items IH]; intros cur arr Hh Hf Hc; cbn [fill_columns].
  { exists cur. by rewrite fill_holes_nil. }
  cbn [length] in Hh. destruct (first_hole arr) as (pre & post & -> & Hp); [lia|].
  assert (cur <= length pre)%nat as Hcp.
  { destruct (decide (cur <= length pre)%nat) as [|Hn]; [done|]. exfalso.
    assert (take cur (pre ++ None :: post) !! length pre = Some None) as Hl.
    { rewrite lookup_take_lt by lia. by apply list_lookup_middle. }
    by pose proof (Forall_lookup_1 _ _ _ _ Hf Hl) as [? ?]. }
  rewrite next_hole_spec by (done || (rewrite length_app; cbn; lia)). cbn [obind].
  assert (<[length pre := Some x]> (pre ++ None :: post) = (pre ++ [Some x]) ++ post) as ->.
  { rewrite <- (Nat.add_0_r (length pre)), insert_app_r. cbn. by rewrite <- app_assoc. }
  assert (full (pre ++ [Some x])) as Hp' by (apply Forall_app; split; [done|repeat constructor; by eexists]).
  rewrite holes_app in Hh. rewrite holes_full in Hh by done. cbn in Hh.
  destruct (IH (S (length pre)) ((pre ++ [Some x]) ++ post)) as (cur' & -> & Hf' & Hc').
  - rewrite holes_app, holes_full by done. unfold holes in *. cbn in Hh. lia.
  - rewrite take_app_le by (rewrite length_app; cbn; lia). by apply Forall_take.
  - rewrite !length_app. cbn. lia.
  - exists cur'. rewrite !fill_holes_full in * by done. cbn [fill_holes]. rewrite <- app_assoc in Hf' |- *. cbn [app] in *.
    split_and!; [done..|]. rewrite !length_app in *. cbn in *. lia.
Qed.

Lemma fill_holes_app {A} (a b : list (option A)) i1 i2 : length i1 = holes a ->
  fill_holes (a ++ b) (i1 ++ i2) = fill_holes a i1 ++ fill_holes b i2.
Proof.
  revert i1. induction a as [|[x|] a IH]; intros i1 Hl; cbn in *; [by destruct i1| |].
  - by rewrite IH.
  - destruct i1 as [|y i1]; [done|]. cbn. rewrite IH by (by injection Hl). done.
Qed.
Lemma fill_holes_twice {A} (a : list (option A)) i1 i2 : (length i1 <= holes a)%nat ->
  fill_holes (fill_holes a i1) i2 = fill_holes a (i1 ++ i2).
Proof.
  revert i1. induction a as [|[x|] a IH]; intros i1 Hl; cbn in *; [done|by rewrite IH|].
  destruct i1 as [|y i1]; cbn.
  - rewrite (fill_holes_nil a). destruct i2; [by rewrite fill_holes_nil|done].
  - rewrite IH; [done|]. cbn in Hl. unfold holes. lia.
Qed.
Lemma fill_holes_none {A} m (items : list A) : length items = m -> fill_holes (replicate m None) items = map Some items.
Proof. intros <-. induction items as [|x items IH]; [done|]. cbn. by rewrite IH. Qed.

Lemma fill_holes_map {A B} (f : A -> B) arr items :
  fill_holes (map (option_map f) arr) (map f items) = map (option_map f) (fill_holes arr items).
Proof.
  revert items. induction arr as [|[x|] arr IH]; intros items; cbn; [done|by rewrite IH|].
  destruct items as [|y items]; cbn; [by rewrite <- (IH [])|by rewrite IH].
Qed.
Lemma holes_map {A B} (f : A -> B) arr : holes (map (option_map f) arr) = holes arr.
Proof. unfold holes. induction arr as [|[x|] arr IH]; cbn; [done|done|by rewrite IH]. Qed.

(** All places are taken when there are enough items. *)
Lemma fill_holes_all {A} (arr : list (option A)) items : length items = holes arr ->
  exists r, fill_holes arr items = map Some r.
Proof.
  revert items. induction arr as [|[x|] arr IH]; intros items Hl; cbn; [by exists []| |].
  - destruct (IH items Hl) as [r ->]. by exists (x :: r).
  - destruct items as [|y items]; [done|]. destruct (IH items) as [r ->]; [by injection Hl|]. by exists (y :: r).
Qed.

Lemma drop_zip {A B} n (l : list A) (k : list B) : drop n (zip l k) = zip (drop n l) (drop n k).
Proof.
  revert l k. induction n as [|n IH]; intros [|x l] [|y k]; try done; cbn; [by destruct (drop n l)|apply IH].
Qed.

(** The values of a list at the places that a test selects *)
Lemma filter_zip_seq {A} (d : A) (f : nat -> bool) n (l : list A) : (n <= length l)%nat ->
  map snd (List.filter (fun p => f p.1) (zip (seq 0 n) l)) = map (fun i => default d (l !! i)) (List.filter f (seq 0 n)).
Proof.
  assert (forall n (pre suf : list A), l = pre ++ suf -> (n <= length suf)%nat ->
    map snd (List.filter (fun p => f p.1) (zip (seq (length pre) n) suf)) =
    map (fun i => default d (l !! i)) (List.filter f (seq (length pre) n))) as Hs; [|by apply (Hs n [])].
  clear n. induction n as [|n IH]; intros pre suf E Hn; [done|]. destruct suf as [|x suf]; [cbn in Hn; lia|].
  specialize (IH (pre ++ [x]) suf). rewrite length_app, Nat.add_1_r, <- app_assoc in IH. specialize (IH E ltac:(cbn in Hn; lia)).
  cbn [seq zip zip_with List.filter fst]. destruct (f _); [|exact IH]. cbn [map snd]. f_equal; [|exact IH].
  rewrite E, list_lookup_middle by done. done.
Qed.

(** ** The order of the columns *)

Section order.
Context (ex : executor) (nl nr : nat) (Hpos : positions_ok ex nl nr).
Abbreviation lp := (left_join_positions ex).
Abbreviation rp := (right_join_positions ex).
Abbreviation nv := (nv ex nr).

(** The columns of the left frame that are not join columns *)
Definition left_rest : list nat := List.filter (fun i => negb (existsb (Nat.eqb i) lp)) (seq 0 nl).
(** The places of the join columns: the left column at each place *)
Definition key_places : list (option nat) := map (left_position ex) (seq 0 nr) ++ replicate (nl - length lp) None.

Lemma length_left_rest : length left_rest = (nl - length lp)%nat.
Proof.
  unfold left_rest. assert (List.filter (fun i => existsb (Nat.eqb i) lp) (seq 0 nl) ≡ₚ lp) as Hp.
  { apply NoDup_Permutation; [apply NoDup_ListNoDup, List.NoDup_filter, NoDup_ListNoDup, NoDup_seq|apply Hpos|].
    intros i. rewrite list_elem_of_In, filter_In, <- list_elem_of_In, elem_of_seq, existsb_exists. split.
    - intros (_ & x & Hx & E). apply Nat.eqb_eq in E as ->. by apply list_elem_of_In.
    - intros Hi. split; [|exists i; split; [by apply list_elem_of_In|apply Nat.eqb_refl]].
      pose proof (po_left _ _ _ Hpos) as Hf. rewrite Forall_forall in Hf. specialize (Hf i Hi). lia. }
  apply Permutation_length in Hp.
  pose proof (List.filter_length (fun i => existsb (Nat.eqb i) lp) (seq 0 nl)) as Hsum. rewrite length_seq in Hsum. lia.
Qed.

Lemma positions_le_left : (length lp <= nl)%nat.
Proof.
  rewrite <- (length_seq nl 0). apply submseteq_length, NoDup_submseteq; [apply Hpos|].
  intros i Hi. apply elem_of_seq. pose proof (po_left _ _ _ Hpos) as Hf. rewrite Forall_forall in Hf. specialize (Hf i Hi). lia.
Qed.
Lemma positions_le_right : (length rp <= nr)%nat.
Proof.
  rewrite <- (length_seq nr 0). apply submseteq_length, NoDup_submseteq; [apply Hpos|].
  intros i Hi. apply elem_of_seq. pose proof (po_right _ _ _ Hpos) as Hf. rewrite Forall_forall in Hf. specialize (Hf i Hi). lia.
Qed.
Lemma length_key_places : length key_places = (nl + nv)%nat.
Proof.
  unfold key_places, JoinCorrect.nv. rewrite length_app, length_map, length_seq, length_replicate.
  pose proof positions_le_left. pose proof positions_le_right. rewrite <- (po_length _ _ _ Hpos) in *. lia.
Qed.

Lemma holes_left_position {A} (j : nat) (r : list A) : holes (map (left_position ex) (seq j (length r))) = length (rvals ex j r).
Proof.
  revert j. induction r as [|v r IH]; intros j; [done|]. rewrite rvals_cons. cbn [length seq map].
  destruct (left_position ex j) as [i|] eqn:E.
  - destruct (is_right_key ex j) eqn:Ek; [|apply (left_position_None ex nl nr Hpos) in Ek; congruence]. apply IH.
  - apply (left_position_None ex nl nr Hpos) in E. rewrite E. unfold holes. cbn. f_equal. apply IH.
Qed.
Lemma holes_keys : holes (map (left_position ex) (seq 0 nr)) = nv.
Proof.
  rewrite <- (length_seq nr 0) at 1. rewrite (holes_left_position 0 (seq 0 nr)).
  apply (length_rvals ex nl nr Hpos). apply length_seq.
Qed.

(** [place_keys] makes these places. *)
Lemma place_keys_spec {A} (f : nat * nat -> A) (keys : list (nat * nat)) arr : NoDup (map fst keys) ->
  Forall (fun p => p.1 < length arr)%nat keys ->
  place_keys (map (fun p => (p.1, f p)) keys) arr =
  Ok (imap (fun j o => match List.find (fun p => (p.1 =? j)%nat) keys with Some p => Some (f p) | None => o end) arr).
Proof.
  revert arr. induction keys as [|[k v] keys IH]; intros arr Hd Hf; cbn [map place_keys fst snd].
  { f_equal. apply list_eq. intros i. rewrite list_lookup_imap. by destruct (arr !! i). }
  apply NoDup_cons in Hd as [Hk Hd]. apply Forall_cons in Hf as [Hi Hf]. cbn in Hi.
  rewrite (proj2 (Nat.ltb_lt k _)) by done. rewrite IH; [|done|by rewrite length_insert]. f_equal.
  apply list_eq. intros i. rewrite !list_lookup_imap. cbn [List.find fst].
  destruct (Nat.eqb_spec k i) as [->|Hne].
  - rewrite list_lookup_insert_eq by done. destruct (lookup_lt_is_Some_2 arr i Hi) as [o ->]. cbn.
    destruct (List.find _ keys) as [p|] eqn:E; [|done]. exfalso. apply find_some in E as [Hin E]. apply Nat.eqb_eq in E.
    apply Hk. rewrite <- E. apply list_elem_of_fmap. exists p. split; [done|]. by apply list_elem_of_In.
  - by rewrite list_lookup_insert_ne.
Qed.

Lemma imap_key_places {A} (f : nat * nat -> A) :
  imap (fun j o => match List.find (fun p => (p.1 =? j)%nat) (right_to_left ex) with Some p => Some (f p) | None => o end)
    (replicate (nl + nv) None) =
  map (fun j => option_map (fun i => f (j, i)) (left_position ex j)) (seq 0 nr) ++ replicate (nl - length lp) None.
Proof.
  apply list_eq. intros i. rewrite list_lookup_imap. pose proof length_key_places as Hlen. unfold key_places in Hlen.
  rewrite length_app, length_map, length_seq, length_replicate in Hlen.
  destruct (decide (i < nl + nv)%nat) as [Hi|Hi]; cycle 1.
  { rewrite !lookup_ge_None_2; [done|rewrite length_app, length_map, length_seq, length_replicate; lia|rewrite length_replicate; lia]. }
  rewrite lookup_replicate_2 by done. cbn.
  assert (match List.find (fun p => (p.1 =? i)%nat) (right_to_left ex) with Some p => Some (f p) | None => None end =
    option_map (fun k => f (i, k)) (left_position ex i)) as ->.
  { unfold left_position. destruct (List.find _ _) as [[a b]|] eqn:E; [|done]. apply find_some in E as [_ E].
    apply Nat.eqb_eq in E. cbn in E. by subst. }
  destruct (decide (i < nr)%nat).
  - rewrite lookup_app_l by (rewrite length_map, length_seq; lia). rewrite list_lookup_fmap, lookup_seq_lt by done. done.
  - rewrite lookup_app_r by (rewrite length_map, length_seq; lia). rewrite length_map, length_seq.
    assert (left_position ex i = None) as ->.
    { apply (left_position_None ex nl nr Hpos). destruct (is_right_key ex i) eqn:E; [|done]. apply is_right_key_spec in E.
      pose proof (po_right _ _ _ Hpos) as Hf. rewrite Forall_forall in Hf. specialize (Hf i E). lia. }
    rewrite lookup_replicate_2; [done|]. lia.
Qed.

(** The column of the result at each place of the frame with the columns in
    order *)
Definition first_part : list (option nat) := fill_holes (map (left_position ex) (seq 0 nr)) (seq nl nv).
Lemma arrangement : fill_holes key_places (seq nl nv ++ left_rest) = first_part ++ map Some left_rest.
Proof.
  unfold key_places. rewrite fill_holes_app by (by rewrite holes_keys, length_seq). f_equal.
  apply fill_holes_none, length_left_rest.
Qed.
Lemma arrangement_all : exists perm, first_part = map Some perm /\ length perm = nr.
Proof.
  destruct (fill_holes_all (map (left_position ex) (seq 0 nr)) (seq nl nv)) as [perm E]; [by rewrite length_seq, holes_keys|].
  exists perm. split; [done|]. apply (f_equal length) in E. rewrite length_fill_holes, !length_map, length_seq in E. done.
Qed.

Lemma arrangement_bound perm : first_part = map Some perm -> Forall (fun i => i < nl + nv)%nat (perm ++ left_rest).
Proof.
  intros E. apply Forall_app. split.
  - assert (forall arr items, Forall (fun o => match o with Some i => i < nl + nv | None => True end)%nat arr ->
      Forall (fun i => i < nl + nv)%nat items -> Forall (fun o => match o with Some i => i < nl + nv | None => True end)%nat (fill_holes arr items)) as H.
    { induction arr as [|[x|] arr IH]; intros items Ha Hi; cbn; [constructor| |].
      - apply Forall_cons in Ha as [? ?]. constructor; auto.
      - apply Forall_cons in Ha as [_ Ha]. destruct items as [|y items]; [constructor; auto|].
        apply Forall_cons in Hi as [? ?]. constructor; auto. }
    assert (Forall (fun o => match o with Some i => i < nl + nv | None => True end)%nat (map Some perm)) as Hp.
    { rewrite <- E. apply H.
      - apply Forall_map, Forall_forall. intros j _. unfold compose. destruct (left_position ex j) as [i|] eqn:Ei; [|done].
        apply (left_position_Some ex nl nr Hpos) in Ei as (k & _ & Hi). pose proof (po_left _ _ _ Hpos) as Hl.
        eapply Forall_lookup_1 in Hl; [|exact Hi]. cbn in Hl. lia.
      - apply Forall_forall. intros i Hi. apply elem_of_seq in Hi. lia. }
    rewrite Forall_map in Hp. exact Hp.
  - unfold left_rest. apply Forall_forall. intros i Hi. apply list_elem_of_In, filter_In in Hi as [Hi _].
    apply in_seq in Hi. lia.
Qed.

(** Filling the places of the join columns of a row with its other columns gives
    the row. *)
Lemma fill_same {A} (r : list A) (f : nat -> A) : forall j, (forall k v, r !! k = Some v -> is_right_key ex (j + k) = true -> f (j + k)%nat = v) ->
  fill_holes (map (fun j => option_map (fun _ => f j) (left_position ex j)) (seq j (length r))) (rvals ex j r) = map Some r.
Proof.
  induction r as [|v r IH]; intros j Hf; [done|]. cbn [length seq map]. rewrite rvals_cons.
  assert (fill_holes (map (fun j => option_map (fun _ => f j) (left_position ex j)) (seq (S j) (length r))) (rvals ex (S j) r) = map Some r) as IH'.
  { apply IH. intros k x Hk. rewrite Nat.add_succ_comm. by apply (Hf (S k)). }
  destruct (left_position ex j) as [i|] eqn:E; cbn [option_map fill_holes].
  - assert (is_right_key ex j = true) as Ek.
    { destruct (is_right_key ex j) eqn:Ek; [done|]. apply (left_position_None ex nl nr Hpos) in Ek. congruence. }
    rewrite Ek, IH'. do 2 f_equal. rewrite <- (Nat.add_0_r j). apply (Hf 0%nat v); [done|by rewrite Nat.add_0_r].
  - apply (left_position_None ex nl nr Hpos) in E. by rewrite E, IH'.
Qed.
Lemma holes_option_map {A B C} (f : A -> B -> C) (g : A -> option B) l :
  holes (map (fun j => option_map (f j) (g j)) l) = holes (map g l).
Proof. unfold holes. induction l as [|j l IH]; [done|]. cbn. destruct (g j); cbn; by rewrite IH. Qed.
Lemma holes_replicate {A} n : holes (replicate n (@None A)) = n.
Proof. unfold holes. induction n as [|n IH]; cbn; by rewrite ?IH. Qed.

(** The loops of the reordering: the join columns go to their places, the others
    of the right frame between them, and the others of the left frame follow. *)
Lemma arrange_spec {A B} (f : nat * nat -> A) (rc lc : list A) (k : list A -> outcome B) :
  length rc = nv -> length lc = (nl - length lp)%nat ->
  exists first, fill_holes (map (fun j => option_map (fun i => f (j, i)) (left_position ex j)) (seq 0 nr)) rc = map Some first /\
  (arr <-? place_keys (map (fun p => (p.1, f p)) (right_to_left ex)) (replicate (nl + nv) None);
   p <-? fill_columns rc 0 arr; p <-? fill_columns lc p.1 p.2; cols <-? of_option (mapM id p.2); k cols) = k (first ++ lc).
Proof.
  intros Hrc Hlc. set (arr := map _ (seq 0 nr)).
  assert (holes arr = nv) as Hh by (unfold arr; by rewrite (holes_option_map (fun j i => f (j, i))), holes_keys).
  destruct (fill_holes_all arr rc) as [first Ef]; [lia|]. exists first. split; [done|].
  rewrite (place_keys_spec f); cycle 1.
  { unfold right_to_left. assert (map fst (zip rp lp) = rp) as -> by (apply fst_zip; by rewrite (po_length _ _ _ Hpos)). apply (po_right_nodup _ _ _ Hpos). }
  { rewrite length_replicate. apply Forall_forall. intros [j i] Hin. apply elem_of_zip_l in Hin. cbn.
    pose proof (po_right _ _ _ Hpos) as Hr. rewrite Forall_forall in Hr. specialize (Hr j Hin). cbn in Hr.
    pose proof positions_le_left. pose proof (po_length _ _ _ Hpos). unfold JoinCorrect.nv. lia. }
  rewrite imap_key_places. cbn [obind]. fold arr.
  destruct (fill_columns_spec rc 0 (arr ++ replicate (nl - length lp) None)) as (c1 & -> & Hc1 & Hle1);
    [rewrite holes_app; lia|constructor|lia|].
  cbn [obind fst snd]. pose proof (fill_holes_app arr (replicate (nl - length lp) None) rc [] ltac:(lia)) as Ea.
  rewrite app_nil_r, fill_holes_nil, Ef in Ea. rewrite Ea in Hc1 |- *.
  assert (full (map Some first)) as Hfull by (apply Forall_map, Forall_forall; intros; by eexists).
  destruct (fill_columns_spec lc c1 (map Some first ++ replicate (nl - length lp) None)) as (c2 & -> & _);
    [rewrite holes_app, (holes_full (map Some first)), holes_replicate by done; lia|done|..].
  { rewrite <- Ea, length_fill_holes. done. }
  cbn [obind snd]. rewrite fill_holes_full, fill_holes_none, <- map_app by done.
  assert (forall l : list A, mapM id (map Some l) = Some l) as Hm by (induction l as [|x l IH]; cbn; by rewrite ?IH).
  by rewrite Hm.
Qed.

(** The values of a row at the columns that are not in [ps] *)
Definition others {A} (ps : list nat) (r : list A) : list A :=
  map snd (List.filter (fun p => negb (existsb (Nat.eqb p.1) ps)) (zip (seq 0 (length r)) r)).

Lemma others_lookup {A} (d : A) (r : list A) : length r = nl ->
  map (fun i => default d (r !! i)) left_rest = others lp r.
Proof. intros Hr. unfold left_rest, others. by rewrite (filter_zip_seq d (fun i => negb (existsb (Nat.eqb i) lp))), Hr. Qed.

(** Column [i] of the result comes to the place that the order of the columns
    gives it. *)
Definition rearrange {A} (d : A) (perm : list nat) (x : list A) : list A :=
  map (fun i => default d (x !! i)) (perm ++ left_rest).

Lemma rearrange_first {A} (d : A) perm (x y : list A) : first_part = map Some perm -> length x = nl -> length y = nv ->
  map Some (map (fun i => default d ((x ++ y) !! i)) perm) =
  fill_holes (map (fun j => option_map (fun i => default d (x !! i)) (left_position ex j)) (seq 0 nr)) y.
Proof.
  intros Hp Hx Hy. set (g := fun i => default d ((x ++ y) !! i)).
  assert (map Some (map g perm) = map (option_map g) (map Some perm)) as -> by (rewrite !map_map; done).
  rewrite <- Hp. unfold first_part. rewrite <- fill_holes_map. f_equal.
  - rewrite map_map. apply map_ext. intros j. destruct (left_position ex j) as [i|] eqn:Ei; [|done]. cbn. f_equal.
    apply (left_position_Some ex nl nr Hpos) in Ei as (k & _ & Hi). unfold g. rewrite lookup_app_l; [done|].
    pose proof (po_left _ _ _ Hpos) as Hl. eapply Forall_lookup_1 in Hl; [|exact Hi]. cbn in Hl. lia.
  - rewrite <- Hy. apply list_eq. intros k. rewrite list_lookup_fmap. destruct (decide (k < length y)%nat) as [Hk|Hk].
    + rewrite lookup_seq_lt by done. cbn. unfold g. rewrite lookup_app_r by lia. rewrite Hx.
      replace (nl + k - nl)%nat with k by lia. by destruct (lookup_lt_is_Some_2 y k Hk) as [v ->].
    + rewrite !lookup_ge_None_2; [done|lia|rewrite length_seq; lia].
Qed.
Lemma rearrange_rest {A} (d : A) (x y : list A) : length x = nl ->
  map (fun i => default d ((x ++ y) !! i)) left_rest = others lp x.
Proof.
  intros Hx. rewrite <- (others_lookup d) by done. apply map_ext_in. intros i Hi. unfold left_rest in Hi.
  apply filter_In in Hi as [Hi _]. apply in_seq in Hi. rewrite lookup_app_l by lia. done.
Qed.

(** A row that has the join columns of [r] on the left and the other ones on the
    right is rearranged into [r] and the other columns of the left. *)
Lemma rearrange_same {A} (d : A) perm (x r : list A) : first_part = map Some perm -> length x = nl -> length r = nr ->
  (forall i j v, left_position ex j = Some i -> r !! j = Some v -> x !! i = Some v) ->
  rearrange d perm (x ++ rvals ex 0 r) = r ++ others lp x.
Proof.
  intros Hp Hx Hr Hk. unfold rearrange. rewrite map_app, rearrange_rest by done. f_equal.
  apply (inj (map Some)). rewrite (rearrange_first d perm x _ Hp Hx); [|by apply (length_rvals ex nl nr Hpos)].
  rewrite <- Hr. etrans; [|apply (fill_same r (fun j => match left_position ex j with Some i => default d (x !! i) | None => d end) 0)].
  - f_equal. apply map_ext. intros j. by destruct (left_position ex j).
  - cbn. intros k v Hv Hkey. destruct (left_position ex k) as [i|] eqn:E.
    + by rewrite (Hk i k v E Hv).
    + apply (left_position_None ex nl nr Hpos) in E. congruence.
Qed.

(** The keys of a row of the left at the places of the join columns *)
Lemma rearrange_alone {A} (d : A) perm (x : list A) : first_part = map Some perm -> length x = nl ->
  rearrange d perm (x ++ replicate nv d) =
  map (fun j => match left_position ex j with Some i => default d (x !! i) | None => d end) (seq 0 nr) ++ others lp x.
Proof.
  intros Hp Hx. unfold rearrange. rewrite map_app, rearrange_rest by done. f_equal.
  apply (inj (map Some)). rewrite (rearrange_first d perm x _ Hp Hx) by apply length_replicate.
  rewrite <- holes_keys. generalize (seq 0 nr). induction l as [|j l IH]; [done|]. cbn [map].
  destruct (left_position ex j) as [i|] eqn:E; cbn; f_equal; exact IH.
Qed.
End order.

(** ** Names *)

Lemma length_generate names g n : generate_valid_column_name names g = Some n -> g <> ""%string ->
  n = g \/ (String.length g < String.length n)%nat.
Proof.
  unfold generate_valid_column_name. intros E Hg. rewrite (proj2 (String.eqb_neq g "")) in E by done.
  destruct (contains names g); [|injection E as <-; by left]. right.
  assert (forall fuel k, free_name fuel names (g +:+ ".") k = Some n -> exists i, n = ((g +:+ ".") +:+ pretty (i : nat))%string) as H.
  { induction fuel as [|fuel IH]; intros k; cbn [free_name]; [done|]. destruct (contains _ _); [apply IH|]. intros [= <-]. eauto. }
  apply H in E as [i ->]. rewrite !length_append. cbn. lia.
Qed.

(** The names a frame that is written gets, when the names asked for are not
    empty: each is the one asked for or longer, and the first ones are kept if
    they are good. *)
Lemma write_names_shape u given : forall names r, Forall (fun g => g <> ""%string) given ->
  write_names u false given names = Ok r ->
  exists ext, r = names ++ ext /\ Forall2 (fun g n => n = g \/ String.length g < String.length n)%nat given ext.
Proof.
  induction given as [|g given IH]; intros names r Hne; cbn [write_names].
  { intros [= <-]. exists []. by rewrite app_nil_r. }
  apply Forall_cons in Hne as [Hg Hne]. rewrite (proj2 (String.eqb_neq g "")) by done. cbn [orb].
  destruct (generate_valid_spec names g) as (n & E & _). rewrite E.
  assert (exists m, (if negb u then of_option (Some n) else Ok g) = Ok m /\ (m = g \/ String.length g < String.length m)%nat) as (m & -> & Hm).
  { destruct u; cbn; [by exists g; auto|]. exists n. split; [done|]. by apply (length_generate names). }
  cbn [obind andb negb assert]. intros H. apply IH in H as (ext & -> & Hext); [|done]. exists (m :: ext).
  rewrite <- app_assoc. split; [done|]. by constructor.
Qed.

Lemma write_names_prefix u g1 g2 : forall names r, names_ok (names ++ g1) ->
  write_names u false (g1 ++ g2) names = Ok r -> exists ext, r = names ++ g1 ++ ext.
Proof.
  induction g1 as [|g g1 IH]; intros names r Hok; cbn [app write_names].
  { clear Hok. revert names r. induction g2 as [|g g2 IH]; intros names r; cbn [write_names].
    { intros [= <-]. exists []. by rewrite app_nil_r. }
    match goal with |- obind ?m _ = _ -> _ => destruct m as [n| |] end; try done. cbn [obind andb negb assert].
    intros H. apply IH in H as [ext ->]. exists (n :: ext). by rewrite <- app_assoc. }
  pose proof Hok as [Hd Hf]. apply Forall_app in Hf as [_ [Hg _]%Forall_cons].
  rewrite (proj2 (String.eqb_neq g "")) by done. cbn [orb].
  destruct (generate_valid_spec names g) as (n & E & _ & _ & Hs). rewrite E.
  assert (n = g) as ->.
  { apply Hs; [done|]. apply NoDup_app in Hd as (_ & Hd & _). intros Hin. apply (Hd g Hin). left. }
  assert ((if negb u then of_option (Some g) else Ok g) = Ok g) as -> by (by destruct u). cbn [obind andb negb assert].
  intros H. apply IH in H as [ext ->]; [|by rewrite <- app_assoc]. exists ext. by rewrite <- app_assoc.
Qed.

(** A frame that is written gets the names that a frame made from columns gets. *)
Lemma write_names_read given r : Forall (fun g => g <> ""%string) given ->
  write_names (all_unique given) false given [] = Ok r -> read_names (length given) given [] = Some r.
Proof.
  intros Hne. destruct (all_unique given) eqn:Eu.
  - apply all_unique_spec in Eu. intros H. rewrite (read_names_same given []) by done. f_equal.
    destruct (write_names_prefix true given [] [] r) as [ext Er]; [done|by rewrite app_nil_r|].
    destruct (write_names_shape true given [] r Hne H) as (ext' & -> & Hext). cbn in Er |- *.
    apply Forall2_length in Hext. rewrite Er in Hext |- *. rewrite length_app in Hext.
    destruct ext; [by rewrite app_nil_r|cbn in Hext; lia].
  - clear Eu. revert Hne. generalize (@nil string) as names. induction given as [|g given IH]; intros names Hne; cbn [write_names read_names length].
    { by intros [= <-]. }
    apply Forall_cons in Hne as [Hg Hne]. rewrite orb_true_r. cbn [default head tail].
    change (id g) with g.
    destruct (generate_valid_spec names g) as (n & -> & _). cbn [of_option obind andb negb assert mbind option_bind]. by apply IH.
Qed.

(** ** The columns of the result in order *)

Section swap.
Context (dom : flexible_type -> Prop) (ex : executor) (ls rs : list row) (Hrun : runnable dom ex ls rs).
Abbreviation ltys := (column_types (left_frame ex)).
Abbreviation rtys := (column_types (right_frame ex)).
Abbreviation nl := (length ltys).
Abbreviation nr := (length rtys).
Abbreviation nv := (nv ex nr).
Abbreviation lp := (left_join_positions ex).
Abbreviation rp := (right_join_positions ex).
Abbreviation tys := (ltys ++ rvals ex 0 rtys).
Abbreviation lnames := (column_names (left_frame ex)).
Abbreviation rnames := (column_names (right_frame ex)).
Let Hpos : positions_ok ex nl nr := rn_positions _ _ _ _ Hrun.

Lemma length_lnames : length lnames = nl.
Proof. by rewrite (wf_length _ (rn_left _ _ _ _ Hrun)), <- ncols_types. Qed.
Lemma length_rnames : length rnames = nr.
Proof. by rewrite (wf_length _ (rn_right _ _ _ _ Hrun)), <- ncols_types. Qed.

(** A frame with the columns of the result, which were given their names on
    opening *)
Context (result : sframe) (names : list string).
Context (Hcols : length (columns result) = (nl + nv)%nat) (Hnames : column_names result = names)
  (Hgiven : write_names (all_unique (lnames ++ rvals ex 0 rnames)) false (lnames ++ rvals ex 0 rnames) [] = Ok names).

Definition column_at (i : nat) : sarray := default (mk_sarray [] UNDEFINED) (columns result !! i).

Lemma given_nonempty : Forall (fun g => g <> ""%string) (lnames ++ rvals ex 0 rnames).
Proof.
  apply Forall_app. split; [apply (wf_names _ (rn_left _ _ _ _ Hrun))|].
  pose proof (proj2 (wf_names _ (rn_right _ _ _ _ Hrun))) as Hf. revert Hf. generalize 0%nat rnames.
  intros j l Hf. revert j. induction Hf as [|g l Hg _ IH]; intros j; [constructor|]. rewrite rvals_cons.
  destruct (is_right_key ex j); [|constructor]; auto.
Qed.

(** The names of the left frame are kept, and the other ones are the names of the
    right frame or longer. *)
Lemma given_names : exists ext, names = lnames ++ ext /\
  Forall2 (fun g n => n = g \/ String.length g < String.length n)%nat (rvals ex 0 rnames) ext.
Proof.
  destruct (write_names_prefix (all_unique (lnames ++ rvals ex 0 rnames)) lnames (rvals ex 0 rnames) [] names) as [ext E]; [apply (wf_names _ (rn_left _ _ _ _ Hrun))|exact Hgiven|].
  exists ext. split; [done|]. destruct (write_names_shape _ _ _ _ given_nonempty Hgiven) as (ext' & E' & Hf).
  cbn in E, E'. subst ext'. rewrite E in Hf. apply Forall2_app_inv in Hf as [_ Hf]; done.
Qed.

Lemma key_columns_spec : key_columns ex result =
  Ok (map (fun p => (p.1, (column_at p.2, default ""%string (rnames !! p.1)))) (right_to_left ex)).
Proof.
  unfold key_columns, select_column, column_name, column_at. assert (Forall (fun p => p.1 < nr /\ p.2 < nl)%nat (right_to_left ex)) as Hf.
  { unfold right_to_left. pose proof (po_left _ _ _ Hpos) as Hl. pose proof (po_right _ _ _ Hpos) as Hr. clear -Hl Hr. revert Hl.
    generalize lp. induction Hr as [|j rp' Hj _ IH]; intros lp' Hl; [constructor|]. destruct Hl; constructor; [done|by apply IH]. }
  induction Hf as [|[j i] l [Hj Hi] _ IH]; [done|]. cbn [otraverse map fst snd] in *.
  rewrite <- length_rnames in Hj.
  destruct (lookup_lt_is_Some_2 (columns result) i) as [c ->]; [lia|]. destruct (lookup_lt_is_Some_2 rnames j Hj) as [n ->].
  cbn [obind default id]. by rewrite IH.
Qed.

Lemma right_columns_spec w : w_names w = names -> reverse_output_column_order ex = true ->
  map fst (right_columns ex result (changed_dup_names ex w)) = drop nl (columns result) /\
  map snd (right_columns ex result (changed_dup_names ex w)) = rvals ex 0 rnames.
Proof.
  intros Hw Hrev. unfold right_columns, changed_dup_names. rewrite Hrev, Hw, right_values_rvals, Hnames.
  destruct given_names as (ext & -> & Hf). rewrite ncols_types.
  rewrite drop_zip, drop_app_length' by (by rewrite length_lnames).
  assert (length (drop nl (columns result)) = length ext) as Hl.
  { rewrite length_drop, Hcols, <- (Forall2_length _ _ _ Hf), (length_rvals ex nl nr Hpos) by apply length_rnames. lia. }
  revert Hl Hf. generalize (drop nl (columns result)) (rvals ex 0 rnames). clear. intros cs gs Hl Hf. revert cs Hl.
  induction Hf as [|g n gs ext Hn _ IH]; intros [|c cs] Hl; try done. injection Hl as Hl. destruct (IH cs Hl) as [IH1 IH2].
  cbn. rewrite IH1, IH2. split; [done|]. f_equal. destruct (Nat.eqb_spec (String.length n) (String.length g)) as [E|E]; [|done].
  destruct Hn as [->|Hn]; [done|lia].
Qed.

Lemma left_columns_spec : left_columns ex result =
  map (fun i => (column_at i, default ""%string (lnames !! i))) (left_rest ex nl).
Proof.
  unfold left_columns, left_rest. rewrite ncols_types, Hnames. destruct given_names as (ext & -> & _).
  assert (nl <= length (zip (columns result) (lnames ++ ext)))%nat as Hle.
  { rewrite length_zip_with, length_app, length_lnames. lia. }
  rewrite (filter_zip_seq (mk_sarray [] UNDEFINED, ""%string) (fun i => negb (existsb (Nat.eqb i) lp))) by done.
  apply map_ext_in. intros i [Hi _]%filter_In. apply in_seq in Hi. unfold column_at.
  destruct (lookup_lt_is_Some_2 (columns result) i) as [c Hc]; [lia|].
  destruct (lookup_lt_is_Some_2 lnames i) as [n Hn]; [rewrite length_lnames; lia|]. rewrite Hc, Hn.
  erewrite (proj2 (lookup_zip_Some _ _ i c n)); [done|]. split; [done|]. by apply lookup_app_l_Some.
Qed.

(** The columns come in the order of [rearrange], with the names of the right
    frame and the other names of the left one. *)
Lemma swap_columns_spec w perm : w_names w = names -> reverse_output_column_order ex = true ->
  first_part ex nl nr = map Some perm ->
  swap_result ex result (changed_dup_names ex w) =
  create_arrays_for_reading (map column_at (perm ++ left_rest ex nl)) (rnames ++ others lp lnames) false.
Proof.
  intros Hw Hrev Hperm. destruct (right_columns_spec w Hw Hrev) as [Hfst Hsnd].
  unfold swap_result. rewrite key_columns_spec. cbn [obind]. unfold num_columns at 1. rewrite Hcols.
  set (rc := right_columns _ _ _) in *. assert (length rc = nv) as Hrc.
  { rewrite <- (length_map fst), Hfst, length_drop, Hcols. lia. }
  destruct (arrange_spec ex nl nr Hpos (fun p : nat * nat => (column_at p.2, default ""%string (rnames !! p.1))) rc (left_columns ex result)
    (fun cols => create_arrays_for_reading (map fst cols) (map snd cols) false)) as (first & Ef & ->).
  { exact Hrc. }
  { rewrite left_columns_spec, length_map. apply (length_left_rest ex nl nr Hpos). }
  rewrite !map_app, left_columns_spec, !map_map. cbn [fst snd].
  f_equal; f_equal; [..|by apply (others_lookup ex nl), length_lnames]; apply (inj (map Some)).
  - transitivity (map (option_map fst) (map Some first)); [by rewrite !map_map|].
    rewrite <- Ef, <- fill_holes_map, map_map, Hfst.
    transitivity (map (option_map column_at) (map Some perm)); [|by rewrite !map_map].
    rewrite <- Hperm. unfold first_part. rewrite <- fill_holes_map, map_map. f_equal.
    + apply map_ext. intros j. by destruct (left_position ex j).
    + apply list_eq. intros k. rewrite lookup_drop, list_lookup_fmap. destruct (decide (k < nv)%nat).
      * rewrite lookup_seq_lt by done. cbn. unfold column_at. by destruct (lookup_lt_is_Some_2 (columns result) (nl + k)) as [c ->]; [lia|].
      * rewrite !lookup_ge_None_2; [done|rewrite length_seq; lia|lia].
  - transitivity (map (option_map snd) (map Some first)); [by rewrite !map_map|].
    rewrite <- Ef, <- fill_holes_map, map_map, Hsnd.
    pose proof (fill_same ex nl nr Hpos rnames (fun j => default ""%string (rnames !! j)) 0) as Hs. rewrite length_rnames in Hs.
    rewrite <- Hs; [|intros k v Hv _; cbn; by rewrite Hv]. f_equal. apply map_ext. intros j. by destruct (left_position ex j).
Qed.
End swap.
