(* ===== verification/JoinSpec.v ===== *)
(** What a join is to give: the relational join of the rows of two frames, with
    the columns of the left one first, and that [join] gives it whatever frame
    is the smaller and however many partitions there are. *)
From Stdlib Require Import ZArith Lia List Bool.
From stdpp Require Import prelude gmap strings pretty.
From S2P Require Import Prelude.
From S2P Require Import Archive.
From S2P Require Import Serialization.
From S2P Require Import FlexibleType.
From S2P Require Import Hash.
From S2P Require Import FlexibleOps.
From S2P Require Import SFrame.
From S2P Require Import SFrameCorrect.
From S2P Require Import Join.
From S2P Require Import JoinCorrect.
From S2P Require Import JoinGrace.
From S2P Require Import JoinOrder.
Import SFrame.

(** ** The relational join *)

(** The pairs that match, then what is alone on the left and on the right, if it
    is wanted *)
Definition relational {A B C} (m : A -> B -> bool) (pair : A -> B -> C) (left_alone : A -> C) (right_alone : B -> C)
    (lj rj : bool) (ls : list A) (rs : list B) : list C :=
  flat_map (fun l => map (pair l) (List.filter (m l) rs)) ls ++
  (if lj then map left_alone (List.filter (fun l => negb (existsb (m l) rs)) ls) else []) ++
  (if rj then map right_alone (List.filter (fun r => negb (existsb (fun l => m l r) ls)) rs) else []).

Lemma flat_map_app_perm {A C} (f g : A -> list C) l : flat_map (fun x => f x ++ g x) l ≡ₚ flat_map f l ++ flat_map g l.
Proof. rewrite !flat_map_concat_map. apply concat_map_app. Qed.
Lemma flat_map_nil {A C} (l : list A) : flat_map (fun _ => @nil C) l = [].
Proof. induction l; cbn; auto. Qed.

Lemma flat_map_swap {A B C} (m : A -> B -> bool) (pair : A -> B -> C) ls rs :
  flat_map (fun l => map (pair l) (List.filter (m l) rs)) ls ≡ₚ
  flat_map (fun r => map (fun l => pair l r) (List.filter (fun l => m l r) ls)) rs.
Proof.
  induction ls as [|l ls IH]; cbn [flat_map].
  { cbn. by rewrite flat_map_nil. }
  rewrite IH. transitivity (flat_map (fun r => (if m l r then [pair l r] else []) ++
    map (fun l => pair l r) (List.filter (fun l => m l r) ls)) rs).
  - rewrite flat_map_app_perm. apply Permutation_app_tail. clear IH. apply reflexive_eq.
    induction rs as [|r rs IH]; [done|]. cbn. destruct (m l r); cbn; by rewrite IH.
  - apply reflexive_eq, flat_map_ext. intros r. cbn. by destruct (m l r).
Qed.

(** The two sides of a join can be exchanged. *)
Lemma relational_sym {A B C} m (pair : A -> B -> C) lo ro lj rj ls rs :
  relational m pair lo ro lj rj ls rs ≡ₚ relational (fun r l => m l r) (fun r l => pair l r) ro lo rj lj rs ls.
Proof.
  unfold relational. rewrite flat_map_swap. apply Permutation_app_head. apply Permutation_app_comm.
Qed.

Lemma relational_map {A B C D} (f : C -> D) m (pair : A -> B -> C) lo ro lj rj ls rs :
  map f (relational m pair lo ro lj rj ls rs) =
  relational m (fun l r => f (pair l r)) (fun l => f (lo l)) (fun r => f (ro r)) lj rj ls rs.
Proof.
  unfold relational. rewrite !map_app. f_equal; [|by destruct lj, rj; cbn; rewrite ?map_map].
  rewrite !flat_map_concat_map, concat_map, !map_map. f_equal. apply map_ext. intros l. by rewrite map_map.
Qed.

Lemma relational_ext {A B C} m m' (pair pair' : A -> B -> C) lo lo' ro ro' lj rj ls rs :
  (forall l r, l ∈ ls -> r ∈ rs -> m l r = m' l r) ->
  (forall l r, l ∈ ls -> r ∈ rs -> m l r = true -> pair l r = pair' l r) ->
  (forall l, l ∈ ls -> lo l = lo' l) -> (forall r, r ∈ rs -> ro r = ro' r) ->
  relational m pair lo ro lj rj ls rs = relational m' pair' lo' ro' lj rj ls rs.
Proof.
  intros Hm Hp Hl Hr. unfold relational. setoid_rewrite list_elem_of_In in Hm. setoid_rewrite list_elem_of_In in Hp.
  setoid_rewrite list_elem_of_In in Hl. setoid_rewrite list_elem_of_In in Hr. f_equal; [|f_equal].
  - rewrite !flat_map_concat_map. f_equal. apply map_ext_in. intros l Hin.
    rewrite <- (filter_ext_in (m l) (m' l)) by auto. apply map_ext_in. intros r [Hin' E]%filter_In. auto.
  - destruct lj; [|done]. rewrite (filter_ext_in _ (fun l => negb (existsb (m' l) rs))).
    + apply map_ext_in. intros l [Hin _]%filter_In. auto.
    + intros l Hin. f_equal. apply eq_true_iff_eq. rewrite !existsb_exists.
      split; intros (r & Hin' & E); exists r; (split; [done|]); [rewrite <- Hm|rewrite Hm]; auto.
  - destruct rj; [|done]. rewrite (filter_ext_in _ (fun r => negb (existsb (fun l => m' l r) ls))).
    + apply map_ext_in. intros r [Hin _]%filter_In. auto.
    + intros r Hin. f_equal. apply eq_true_iff_eq. rewrite !existsb_exists.
      split; intros (l & Hin' & E); exists l; (split; [done|]); [rewrite <- Hm|rewrite Hm]; auto.
Qed.

(** The output of the executor is the relational join. *)
Lemma join_lists_relational ex ltys rtys ls rs :
  join_lists ex ltys rtys ls rs ≡ₚ
  relational (joins ex) (both ex) (left_only ex (length rtys)) (right_only ex (length ltys)) (left_join ex) (right_join ex) ls rs.
Proof.
  unfold join_lists, relational. rewrite flat_map_swap.
  transitivity ((flat_map (fun r => map (fun l => both ex l r) (List.filter (fun l => joins ex l r) ls)) rs ++
    (if right_join ex then map (right_only ex (length ltys)) (List.filter (fun r => negb (existsb (fun l => joins ex l r) ls)) rs) else [])) ++
    (if left_join ex then map (left_only ex (length rtys)) (List.filter (fun l => negb (existsb (joins ex l) rs)) ls) else [])).
  - apply Permutation_app_tail. transitivity (flat_map (fun r => map (fun l => both ex l r) (List.filter (fun l => joins ex l r) ls) ++
      (if right_join ex && negb (existsb (fun l => joins ex l r) ls) then [right_only ex (length ltys) r] else [])) rs).
    + apply reflexive_eq, flat_map_ext. intros r. unfold right_output.
      assert (existsb (fun l => joins ex l r) ls = negb (length (List.filter (fun l => joins ex l r) ls) =? 0)%nat) as ->.
      { induction ls as [|l ls' IH]; [done|]. cbn. by destruct (joins ex l r). }
      destruct (List.filter _ ls); cbn; [|by rewrite andb_false_r, app_nil_r]. by destruct (right_join ex).
    + rewrite flat_map_app_perm. apply Permutation_app_head, reflexive_eq. destruct (right_join ex); cbn [andb]; [|by rewrite flat_map_nil].
      induction rs as [|r rs' IH]; [done|]. cbn. rewrite IH. by destruct (existsb _ ls).
  - rewrite <- app_assoc. apply Permutation_app_head, Permutation_app_comm.
Qed.

(** ** The rows of a join *)

(** The values of the columns [from] of a row at the places [to] of a row of [n]
    missing values *)
Definition place_key (to from : list nat) (n : nat) (r : row) : row :=
  map (fun i => match List.find (fun p => (p.1 =? i)%nat) (zip to from) with
                | Some p => default FUndefined (r !! p.2) | None => FUndefined end) (seq 0 n).

(** The join of the rows [ls], of [nl] columns, with the rows [rs], of [nr]
    columns, where the columns [lp] of the left are equal to the columns [rp] of
    the right *)
Definition join_rows (lp rp : list nat) (nl nr : nat) (lj rj : bool) (ls rs : list row) : list row :=
  relational (fun l r => keys_eq (project lp l) (project rp r))
    (fun l r => l ++ others rp r)
    (fun l => l ++ replicate (nr - length rp) FUndefined)
    (fun r => place_key lp rp nl r ++ others rp r) lj rj ls rs.

Section right_only.
Context (ex : executor) (nl nr : nat) (Hpos : positions_ok ex nl nr).
Abbreviation lp := (left_join_positions ex).
Abbreviation rp := (right_join_positions ex).

Definition right_position (i : nat) : option nat := option_map snd (List.find (fun p => (p.1 =? i)%nat) (zip lp rp)).
Lemma right_position_Some i j : right_position i = Some j <-> left_position ex j = Some i.
Proof.
  unfold right_position. rewrite (find_zip_Some lp rp i j), (left_position_Some ex nl nr Hpos);
    [|by rewrite (po_length _ _ _ Hpos)|apply (po_left_nodup _ _ _ Hpos)].
  split; intros (k & ? & ?); by exists k.
Qed.

Lemma put_keys_lookup r : forall j A i, put_keys ex j r A !! i =
  match right_position i with
  | Some p => if decide (j <= p /\ i < length A)%nat then match r !! (p - j)%nat with Some v => Some v | None => A !! i end else A !! i
  | None => A !! i
  end.
Proof.
  induction r as [|v r IH]; intros j A i; cbn [put_keys].
  { destruct (right_position i) as [p|]; [|done]. by case_decide. }
  destruct (left_position ex j) as [i'|] eqn:E.
  - apply right_position_Some in E. rewrite IH, length_insert. destruct (decide (i' = i)) as [->|Hne].
    + rewrite E. rewrite decide_False by lia. rewrite Nat.sub_diag. cbn.
      case_decide; [by rewrite list_lookup_insert_eq by lia|]. rewrite list_insert_ge; [done|lia].
    + rewrite list_lookup_insert_ne by done. destruct (right_position i) as [p|] eqn:Ep; [|done].
      assert (p <> j). { intros ->. apply right_position_Some in Ep. apply right_position_Some in E. congruence. }
      destruct (decide (j <= p /\ i < length A)%nat), (decide (S j <= p /\ i < length A)%nat); try lia; [|done].
      by replace (p - j)%nat with (S (p - S j)) by lia.
  - rewrite IH. destruct (right_position i) as [p|] eqn:Ep; [|done].
    assert (p <> j). { intros ->. apply right_position_Some in Ep. congruence. }
    destruct (decide (j <= p /\ i < length A)%nat), (decide (S j <= p /\ i < length A)%nat); try lia; [|done].
    by replace (p - j)%nat with (S (p - S j)) by lia.
Qed.

Lemma put_keys_place r : put_keys ex 0 r (replicate nl FUndefined) = place_key lp rp nl r.
Proof.
  apply list_eq. intros i. rewrite put_keys_lookup, length_replicate. unfold place_key. rewrite list_lookup_fmap.
  fold (right_position i). destruct (decide (i < nl)%nat) as [Hi|Hi]; cycle 1.
  { rewrite (lookup_ge_None_2 (seq 0 nl)) by (rewrite length_seq; lia). rewrite (lookup_ge_None_2 (replicate _ _)) by (rewrite length_replicate; lia).
    destruct (right_position i); [|done]. rewrite decide_False by lia. done. }
  rewrite lookup_seq_lt, lookup_replicate_2 by done. cbn. unfold right_position.
  destruct (List.find _ _) as [[a b]|]; [|done]. cbn. rewrite decide_True by lia. rewrite Nat.sub_0_r. by destruct (r !! b).
Qed.

Lemma place_key_lookup r i : (i < nl)%nat -> place_key lp rp nl r !! i =
  Some (match right_position i with Some j => default FUndefined (r !! j) | None => FUndefined end).
Proof.
  intros Hi. unfold place_key. rewrite list_lookup_fmap, lookup_seq_lt by done. cbn. unfold right_position.
  by destruct (List.find _ _).
Qed.

(** The other columns of a row that has only join columns *)
Lemma place_key_others r : others lp (place_key lp rp nl r) = replicate (nl - length lp) FUndefined.
Proof.
  rewrite <- (others_lookup ex nl FUndefined) by (unfold place_key; by rewrite length_map, length_seq).
  rewrite <- (length_left_rest ex nl nr Hpos).
  assert (Forall (fun i => default FUndefined (place_key lp rp nl r !! i) = FUndefined) (left_rest ex nl)) as Hf.
  { apply Forall_forall. intros i Hi. unfold left_rest in Hi. apply list_elem_of_In, filter_In in Hi as [Hi Hk].
    apply in_seq in Hi. rewrite place_key_lookup by lia. destruct (right_position i) as [j|] eqn:E; [|done].
    apply right_position_Some in E. apply (left_position_Some ex nl nr Hpos) in E as (k & _ & Hk').
    apply negb_true_iff in Hk. exfalso. apply not_true_iff_false in Hk. apply Hk, existsb_exists. exists i.
    split; [|apply Nat.eqb_refl]. apply list_elem_of_In. by eapply list_elem_of_lookup_2. }
  clear -Hf. induction Hf as [|i l E _ IH]; [done|]. cbn. by rewrite E, IH.
Qed.
End right_only.

(** ** The result of an executor *)

Lemma col_types_close w segs : holds w segs -> column_types (close w) = w_types w.
Proof.
  intros H. unfold column_types. rewrite (columns_close w segs H). apply list_eq. intros i.
  rewrite list_lookup_fmap, list_lookup_imap. by destruct (w_types w !! i).
Qed.
Lemma wrote_close tys names n w out : tys <> [] -> wrote tys names n w out ->
  exists rows, has_rows (close w) rows /\ rows ≡ₚ out /\ column_types (close w) = tys /\ column_names (close w) = names.
Proof.
  intros Hne (segs & Hh & Ht & Hn & _ & Hp). exists (concat segs). rewrite <- Ht in Hne.
  split_and!; [by apply close_rows|done|by rewrite (col_types_close w segs)|done].
Qed.

(** A row of the rows of a frame, at the columns in another order *)
Lemma has_rows_rearrange result rows order :
  has_rows result rows -> Forall (fun i => i < num_columns result)%nat order -> order <> [] ->
  let cols := map (column_at result) order in
  Forall (fun c => sa_size c = nrows result) cols /\
  forall names, has_rows (mk_sframe cols names (nrows result)) (map (fun r => map (fun i => default FUndefined (r !! i)) order) rows).
Proof.
  intros [Hc Hw Hv] Ho Hne cols.
  assert (forall i, (i < num_columns result)%nat -> sa_values (column_at result i) = col_of i rows) as Hcol.
  { intros i Hi. unfold column_at. destruct (lookup_lt_is_Some_2 (columns result) i Hi) as [c Ec]. rewrite Ec. cbn.
    assert (map sa_values (columns result) !! i = Some (sa_values c)) as E1 by (by rewrite list_lookup_fmap, Ec).
    rewrite Hv, list_lookup_fmap, lookup_seq_lt in E1 by done. by injection E1 as <-. }
  split.
  - unfold cols. apply Forall_map. eapply Forall_impl; [exact Ho|]. intros i Hi. unfold compose, sa_size, segment_sizes.
    rewrite sum_lengths. fold (sa_values (column_at result i)). rewrite Hcol by done. unfold col_of. by rewrite length_map.
  - intros names. split; cbn; [by rewrite length_map| |].
    + apply Forall_map, Forall_forall. intros r _. unfold compose, num_columns, cols. cbn. by rewrite !length_map.
    + unfold num_columns. cbn. unfold cols. rewrite map_map, length_map. apply list_eq. intros k.
      rewrite !list_lookup_fmap. destruct (order !! k) as [i|] eqn:Ei; cycle 1.
      { rewrite lookup_ge_None_2; [done|]. rewrite length_seq. by apply lookup_ge_None_1. }
      rewrite lookup_seq_lt by (by eapply lookup_lt_Some). cbn. f_equal. rewrite Hcol by (by eapply Forall_lookup_1 in Ho).
      unfold col_of. rewrite map_map. apply map_ext. intros r. by rewrite list_lookup_fmap, Ei.
Qed.

Section result.
Context (fmt_double : Z -> bytes) {ptime : Type} (time_t_epoch : ptime)
  (add_seconds : ptime -> Z -> ptime) (to_iso_string : ptime -> bytes).
Context (traverse : gmap Z (list hash_join_row) -> list (Z * list hash_join_row))
  (traverse_perm : forall m, traverse m ≡ₚ map_to_list m).
Context (dom : flexible_type -> Prop)
  (dom_eq : forall x y, dom x -> dom y -> approx_equal x y = true -> x = y).
Abbreviation grace_hash_join := (grace_hash_join fmt_double time_t_epoch add_seconds to_iso_string traverse).

(** The frame [sf] holds the rows [out], in some order, in columns of the types
    [tys], with the names [given] as far as they are good. *)
Record joined (sf : sframe) (out : list row) (tys : list flex_type_enum) (given : list string) : Prop := {
  jo_rows : exists rows, has_rows sf rows /\ rows ≡ₚ out;
  jo_types : column_types sf = tys;
  jo_names : read_names (length given) given [] = Some (column_names sf)
}.

Section executor.
Context (ex : executor) (ls rs : list row) (Hrun : runnable dom ex ls rs).
Abbreviation ltys := (column_types (left_frame ex)).
Abbreviation rtys := (column_types (right_frame ex)).
Abbreviation nl := (length ltys).
Abbreviation nr := (length rtys).
Abbreviation lp := (left_join_positions ex).
Abbreviation rp := (right_join_positions ex).
Let Hpos : positions_ok ex nl nr := rn_positions _ _ _ _ Hrun.

Lemma types_ne : ltys ++ rvals ex 0 rtys <> [].
Proof.
  pose proof (columns_ne _ _ _ _ Hrun) as [Hne _]. unfold column_types. by destruct (columns (left_frame ex)).
Qed.

Lemma left_width l : l ∈ ls -> length l = nl.
Proof.
  intros Hl. pose proof (hr_width _ _ (rn_left_rows _ _ _ _ Hrun)) as Hw. rewrite Forall_forall in Hw.
  rewrite (Hw l Hl). apply ncols_types.
Qed.
Lemma right_width r : r ∈ rs -> length r = nr.
Proof.
  intros Hr. pose proof (hr_width _ _ (rn_right_rows _ _ _ _ Hrun)) as Hw. rewrite Forall_forall in Hw.
  rewrite (Hw r Hr). apply ncols_types.
Qed.

(** A frame in its own order *)
Lemma grace_straight cpu sched_left sched_right : (0 < cpu)%nat -> reverse_output_column_order ex = false ->
  exists sf, grace_hash_join cpu sched_left sched_right ex = Ok sf /\
    joined sf (join_rows lp rp nl nr (left_join ex) (right_join ex) ls rs) (ltys ++ others rp rtys)
      (column_names (left_frame ex) ++ others rp (column_names (right_frame ex))).
Proof.
  intros Hcpu Hrev.
  destruct (grace_core fmt_double time_t_epoch add_seconds to_iso_string traverse traverse_perm dom dom_eq ex ls rs Hrun cpu sched_left sched_right Hcpu)
    as (w & w' & Ew & Hw' & ->). rewrite Hrev. exists (close w'). split; [done|].
  destruct (init_result_spec dom ex ls rs Hrun cpu Hcpu) as (w0 & Ew0 & _ & _ & Hnames).
  rewrite Ew in Ew0. injection Ew0 as <-.
  destruct (wrote_close _ _ _ _ _ types_ne Hw') as (rows & Hrows & Hp & Ht & Hn). split; [|exact Ht|].
  - exists rows. split; [done|]. rewrite Hp, join_lists_relational. apply reflexive_eq. unfold join_rows.
    apply relational_ext; try done. intros r Hr. unfold right_only. by rewrite (put_keys_place ex nl nr Hpos).
  - rewrite Hn. apply write_names_read; [|exact Hnames]. apply (given_nonempty dom ex ls rs Hrun).
Qed.

(** A join column has the same values in both frames, where the rows match. *)
Lemma joins_keys l r : l ∈ ls -> r ∈ rs -> joins ex l r = true ->
  forall i j v, left_position ex j = Some i -> r !! j = Some v -> l !! i = Some v.
Proof.
  intros Hl Hr Hj i j v Hp Hv. pose proof (rn_left_keys _ _ _ _ Hrun) as Hlk. pose proof (rn_right_keys _ _ _ _ Hrun) as Hrk.
  rewrite Forall_forall in Hlk, Hrk.
  apply (keys_eq_same dom dom_eq) in Hj; [|unfold project; rewrite !length_map; apply (po_length _ _ _ Hpos)|auto..].
  apply (left_position_Some ex nl nr Hpos) in Hp as (k & Hk1 & Hk2).
  assert (project lp l !! k = Some (default FUndefined (l !! i))) as E1 by (unfold project; by rewrite list_lookup_fmap, Hk2).
  rewrite Hj in E1. unfold project in E1. rewrite list_lookup_fmap, Hk1 in E1. cbn in E1. rewrite Hv in E1. injection E1 as E1.
  destruct (lookup_lt_is_Some_2 l i) as [v' Hv'].
  { rewrite (left_width l Hl). pose proof (po_left _ _ _ Hpos) as Hf. by eapply Forall_lookup_1 in Hf. }
  rewrite Hv' in E1 |- *. cbn in E1. by subst.
Qed.

Lemma matches_sym l r : l ∈ ls -> r ∈ rs ->
  joins ex l r = keys_eq (project rp r) (project lp l).
Proof.
  intros Hl Hr. pose proof (rn_left_keys _ _ _ _ Hrun) as Hlk. pose proof (rn_right_keys _ _ _ _ Hrun) as Hrk.
  rewrite Forall_forall in Hlk, Hrk. pose proof (po_length _ _ _ Hpos). unfold joins. apply eq_true_iff_eq. split; intros E.
  - pose proof E as E'. apply (keys_eq_same dom dom_eq) in E'; [|unfold project; by rewrite !length_map|auto..]. by rewrite E' in E |- *.
  - pose proof E as E'. apply (keys_eq_same dom dom_eq) in E'; [|unfold project; by rewrite !length_map|auto..]. by rewrite E' in E |- *.
Qed.

(** The rows of an executor that exchanged the frames, with the columns in order *)
Lemma rearrange_rows perm : first_part ex nl nr = map Some perm ->
  map (rearrange ex nl FUndefined perm) (join_lists ex ltys rtys ls rs) ≡ₚ
  join_rows rp lp nr nl (right_join ex) (left_join ex) rs ls.
Proof.
  intros Hperm. rewrite join_lists_relational, relational_map, relational_sym. apply reflexive_eq. unfold join_rows.
  apply relational_ext.
  - intros r l Hr Hl. by apply matches_sym.
  - intros r l Hr Hl Hj. apply (rearrange_same ex nl nr Hpos); [done|by apply left_width|by apply right_width|by apply joins_keys].
  - intros r Hr. unfold right_only. rewrite (put_keys_place ex nl nr Hpos).
    assert (length (place_key lp rp nl r) = nl) as Hlen by (unfold place_key; by rewrite length_map, length_seq).
    rewrite (rearrange_same ex nl nr Hpos); [|done|done|by apply right_width|].
    + f_equal. apply (place_key_others ex nl nr Hpos).
    + intros i j v Hp Hv. assert (i < nl)%nat as Hi.
      { apply (left_position_Some ex nl nr Hpos) in Hp as (k & _ & Hk). pose proof (po_left _ _ _ Hpos) as Hf.
        by eapply Forall_lookup_1 in Hf. }
      rewrite (place_key_lookup ex nl r i Hi). apply (right_position_Some ex nl nr Hpos) in Hp. by rewrite Hp, Hv.
  - intros l Hl. etrans; [apply (rearrange_alone ex nl nr Hpos FUndefined perm l Hperm (left_width l Hl))|]. f_equal.
    unfold place_key. apply map_ext. intros j. unfold left_position, right_to_left. by destruct (List.find _ _).
Qed.

Lemma order_ne perm : length perm = nr -> perm ++ left_rest ex nl <> [].
Proof.
  intros Hl E. apply (f_equal length) in E. rewrite length_app, Hl in E. cbn in E.
  pose proof (columns_ne _ _ _ _ Hrun) as [_ Hne]. unfold column_types in E. rewrite length_map in E.
  destruct (columns (right_frame ex)); [done|cbn in E; lia].
Qed.

Lemma types_keys : forall i j v, left_position ex j = Some i -> rtys !! j = Some v -> ltys !! i = Some v.
Proof.
  intros i j v Hp Hv. apply (left_position_Some ex nl nr Hpos) in Hp as (k & Hk1 & Hk2).
  rewrite <- Hv. pose proof (rn_types _ _ _ _ Hrun) as Hk. by eapply (Forall2_lookup_lr _ _ _ k) in Hk.
Qed.

(** An executor that exchanged the frames *)
Lemma grace_swapped cpu sched_left sched_right : (0 < cpu)%nat -> reverse_output_column_order ex = true ->
  exists sf, grace_hash_join cpu sched_left sched_right ex = Ok sf /\
    joined sf (join_rows rp lp nr nl (right_join ex) (left_join ex) rs ls) (rtys ++ others lp ltys)
      (column_names (right_frame ex) ++ others lp (column_names (left_frame ex))).
Proof.
  intros Hcpu Hrev.
  destruct (grace_core fmt_double time_t_epoch add_seconds to_iso_string traverse traverse_perm dom dom_eq ex ls rs Hrun cpu sched_left sched_right Hcpu)
    as (w & w' & Ew & Hw' & ->). rewrite Hrev.
  destruct (init_result_spec dom ex ls rs Hrun cpu Hcpu) as (w0 & Ew0 & _ & _ & Hnames).
  rewrite Ew in Ew0. injection Ew0 as <-.
  destruct (wrote_close _ _ _ _ _ types_ne Hw') as (rows & Hrows & Hp & Ht & Hn).
  destruct (arrangement_all ex nl nr Hpos) as (perm & Hperm & Hlen).
  assert (length (columns (close w')) = (nl + nv ex nr)%nat) as Hcols.
  { change (length (columns (close w'))) with (num_columns (close w')). rewrite ncols_types, Ht, length_app.
    by rewrite (length_rvals ex nl nr Hpos). }
  rewrite (swap_columns_spec dom ex ls rs Hrun (close w') (w_names w) Hcols Hn Hnames w perm eq_refl Hrev Hperm).
  pose proof (arrangement_bound ex nl nr Hpos perm Hperm) as Hbound. rewrite <- Hcols in Hbound.
  destruct (has_rows_rearrange (close w') rows (perm ++ left_rest ex nl) Hrows Hbound (order_ne perm Hlen)) as [Hsize Hrows'].
  set (given := column_names (right_frame ex) ++ _).
  assert (length given = length (map (column_at (close w')) (perm ++ left_rest ex nl))) as Hgl.
  { unfold given. rewrite length_map, !length_app, Hlen, (length_rnames dom ex ls rs Hrun).
    rewrite <- (others_lookup ex nl ""%string), length_map; [done|]. apply (length_lnames dom ex ls rs Hrun). }
  destruct (read_names_ok (length given) given [] names_ok_nil) as (names & En & _).
  assert (exists c cs, map (column_at (close w')) (perm ++ left_rest ex nl) = c :: cs /\ sa_size c = nrows (close w')) as (c & cs & Ec & Hc).
  { pose proof (order_ne perm Hlen) as Hne. destruct (perm ++ left_rest ex nl) as [|i order]; [done|].
    do 2 eexists. split; [reflexivity|]. by apply Forall_cons in Hsize as [? _]. }
  exists (mk_sframe (map (column_at (close w')) (perm ++ left_rest ex nl)) names (nrows (close w'))). split.
  - unfold create_arrays_for_reading. rewrite Ec in Hsize, Hgl |- *. rewrite (proj2 (forallb_forall _ _)); cycle 1.
    { intros d Hd. apply Nat.eqb_eq. rewrite Hc. rewrite Forall_forall in Hsize. apply Hsize. by apply list_elem_of_In. }
    cbn [assert obind negb orb]. rewrite <- Hgl, En. cbn. by rewrite Hc.
  - split; [|..|exact En].
    + eexists. split; [apply Hrows'|]. rewrite <- (rearrange_rows perm Hperm). by apply Permutation_map.
    + unfold column_types at 1. cbn. rewrite map_map.
      rewrite <- (rearrange_same ex nl nr Hpos UNDEFINED perm ltys rtys Hperm eq_refl eq_refl types_keys).
      unfold rearrange. rewrite <- Ht. apply map_ext. intros i. unfold column_at, column_types. rewrite list_lookup_fmap.
      by destruct (columns (close w') !! i).
Qed.
End executor.
End result.

(** ** The entry point *)

(** Two frames with the rows [ls] and [rs] that can be joined at the columns [lp]
    of the left and [rp] of the right: the columns are different ones, of the
    same types, and two of their values that compare equal are the same. *)
Record joinable (l r : sframe) (ls rs : list row) (join_columns : list (string * string)) (lp rp : list nat) : Prop := {
  ja_left : wf l;
  ja_right : wf r;
  ja_left_rows : has_rows l ls;
  ja_right_rows : has_rows r rs;
  ja_left_some : ls <> [];
  ja_right_some : rs <> [];
  ja_some : join_columns <> [];
  ja_left_columns : Forall2 (fun p i => column_index l p.1 = Ok i) join_columns lp;
  ja_right_columns : Forall2 (fun p j => column_index r p.2 = Ok j) join_columns rp;
  ja_left_nodup : NoDup lp;
  ja_right_nodup : NoDup rp;
  ja_types : Forall2 (fun i j => column_types l !! i = column_types r !! j) lp rp;
  ja_keys : let values := concat (map (project lp) ls ++ map (project rp) rs) in
    forall x y, x ∈ values -> y ∈ values -> approx_equal x y = true -> x = y;
  ja_left_ok : Forall (Forall flex_ok) ls;
  ja_right_ok : Forall (Forall flex_ok) rs
}.

Section joinable.
Context (l r : sframe) (ls rs : list row) (join_columns : list (string * string)) (lp rp : list nat).
Context (Hja : joinable l r ls rs join_columns lp rp).

Definition key_value (x : flexible_type) : Prop := x ∈ concat (map (project lp) ls ++ map (project rp) rs).

Lemma column_index_lt sf n i : wf sf -> column_index sf n = Ok i -> (i < length (column_types sf))%nat.
Proof.
  intros Hwf H. unfold column_index in H. destruct (find_name _ _) as [k|] eqn:E; [|done]. injection H as ->.
  apply find_name_Some, lookup_lt_Some in E. rewrite (wf_length _ Hwf) in E. unfold column_types. by rewrite length_map.
Qed.
Lemma positions_length : length lp = length rp.
Proof. by rewrite <- (Forall2_length _ _ _ (ja_left_columns _ _ _ _ _ _ _ Hja)), <- (Forall2_length _ _ _ (ja_right_columns _ _ _ _ _ _ _ Hja)). Qed.
Lemma positions_bound :
  Forall (fun i => i < length (column_types l))%nat lp /\ Forall (fun j => j < length (column_types r))%nat rp.
Proof.
  split; eapply Forall2_Forall_r; [apply (ja_left_columns _ _ _ _ _ _ _ Hja)| |apply (ja_right_columns _ _ _ _ _ _ _ Hja)|];
    apply Forall_forall; intros p _ i Hi; eapply column_index_lt; try exact Hi; apply Hja.
Qed.
Lemma positions_some : lp <> [] /\ rp <> [].
Proof.
  pose proof (ja_some _ _ _ _ _ _ _ Hja) as Hne.
  pose proof (Forall2_length _ _ _ (ja_left_columns _ _ _ _ _ _ _ Hja)) as E1.
  pose proof (Forall2_length _ _ _ (ja_right_columns _ _ _ _ _ _ _ Hja)) as E2.
  split; intros E; rewrite E in *; apply Hne; by apply length_zero_iff_nil.
Qed.
Lemma keys_left : Forall (fun x => Forall key_value (project lp x)) ls.
Proof.
  apply Forall_forall. intros x Hx. apply Forall_forall. intros v Hv. apply list_elem_of_In, in_concat.
  exists (project lp x). split; [|by apply list_elem_of_In]. apply in_or_app. left. by apply in_map, list_elem_of_In.
Qed.
Lemma keys_right : Forall (fun x => Forall key_value (project rp x)) rs.
Proof.
  apply Forall_forall. intros x Hx. apply Forall_forall. intros v Hv. apply list_elem_of_In, in_concat.
  exists (project rp x). split; [|by apply list_elem_of_In]. apply in_or_app. right. by apply in_map, list_elem_of_In.
Qed.

(** The positions that [join] looks up *)
Lemma join_positions :
  otraverse (fun p => i <-? column_index l p.1; j <-? column_index r p.2;
    ti <-? column_type l i; tj <-? column_type r j; _ <-? assert (bool_decide (ti = tj)); Ok (i, j)) join_columns = Ok (zip lp rp).
Proof.
  pose proof (ja_left_columns _ _ _ _ _ _ _ Hja) as Hl. pose proof (ja_right_columns _ _ _ _ _ _ _ Hja) as Hr.
  pose proof (ja_types _ _ _ _ _ _ _ Hja) as Ht. pose proof (ja_left _ _ _ _ _ _ _ Hja) as Hwl. pose proof (ja_right _ _ _ _ _ _ _ Hja) as Hwr.
  clear Hja. unfold column_type. revert rp Hr Ht. induction Hl as [|p i ps lp' Hi _ IH]; intros js Hr Ht.
  { by inversion Hr; subst. }
  inversion Hr as [|? j ? js' Hj Hr']; subst. inversion Ht as [|? ? ? ? E Ht']; subst.
  cbn [otraverse]. rewrite Hi, Hj. cbn [obind]. pose proof (column_index_lt _ _ _ Hwl Hi) as Hil.
  unfold column_types in E, Hil. rewrite !list_lookup_fmap in E. rewrite length_map in Hil.
  destruct (lookup_lt_is_Some_2 (columns l) i Hil) as [c Ec]. rewrite Ec in E |- *. destruct (columns r !! j) as [d|]; [|done].
  cbn in E. injection E as E. cbn [obind]. rewrite bool_decide_true by done. cbn [assert obind]. by rewrite (IH _ Hr' Ht').
Qed.
End joinable.

(** The executor that is made is one that can run. *)
Lemma executor_spec l r ls rs join_columns lp rp ty buffer : joinable l r ls rs join_columns lp rp -> (0 < buffer)%nat ->
  let lj := match ty with LEFT_JOIN | FULL_JOIN => true | _ => false end in
  let rj := match ty with RIGHT_JOIN | FULL_JOIN => true | _ => false end in
  (hash_join_executor l r lp rp ty buffer = Ok (mk_exec l r lp rp buffer lj rj false) /\
   runnable (key_value ls rs lp rp) (mk_exec l r lp rp buffer lj rj false) ls rs) \/
  (hash_join_executor l r lp rp ty buffer = Ok (mk_exec r l rp lp buffer rj lj true) /\
   runnable (key_value ls rs lp rp) (mk_exec r l rp lp buffer rj lj true) rs ls).
Proof.
  intros Hja Hbuf lj rj. pose proof (positions_length _ _ _ _ _ _ _ Hja) as Hlen.
  destruct (positions_bound _ _ _ _ _ _ _ Hja) as [Hbl Hbr]. destruct (positions_some _ _ _ _ _ _ _ Hja) as [Hnl Hnr].
  pose proof (ja_left_nodup _ _ _ _ _ _ _ Hja) as Hdl. pose proof (ja_right_nodup _ _ _ _ _ _ _ Hja) as Hdr.
  unfold hash_join_executor. fold lj rj. destruct (get_num_cells r <? get_num_cells l)%nat; [right|left]; split.
  - cbn [left_join_positions right_join_positions]. rewrite Hlen, Nat.eqb_refl, bool_decide_true by done. cbn [assert obind].
    by destruct lj, rj.
  - split; cbn; try apply Hja; try done; [|by apply keys_right|by apply keys_left].
    apply Forall2_flip. eapply Forall2_impl; [apply Hja|]. done.
  - cbn [left_join_positions right_join_positions]. rewrite Hlen, Nat.eqb_refl, bool_decide_true by done. done.
  - split; cbn; try apply Hja; try done; [by apply keys_left|by apply keys_right].
Qed.

(** C8. A join of two frames, inner, left, right or outer, gives the relational
    join of their rows: each pair of rows that compare equal at the join columns,
    with the columns of the left and then the other columns of the right, and, as
    the kind of join asks, the rows of the left and of the right that match
    nothing, with missing values; the join columns of a row that is only on the
    right are put at the places of the left.  The columns have the types and the
    names of the two frames.  The frames satisfy the invariant of frames
    ([wf]), both have rows, and their values fit their types; there is at least
    one pair of join columns, no column of the left and none of the right is in
    two pairs, and the columns of a pair have the same type; and two values in the
    join columns that compare equal are the same value, which leaves out zeros of
    both signs.  This holds for every positive buffer size (and so every number
    of partitions), positive number of processors, schedule of the threads that
    partition, traversal order of the table, and whichever frame is the larger, in
    which case the frames are exchanged and the columns put in order
    afterwards. *)
Theorem join_correct fmt_double ptime (epoch : ptime) add_seconds to_iso_string traverse
    cpu sched_left sched_right l r ls rs jt ty join_columns lp rp buffer :
  (forall m, traverse m ≡ₚ map_to_list m) -> (0 < cpu)%nat -> (0 < buffer)%nat ->
  joinable l r ls rs join_columns lp rp -> join_type_of jt = Ok ty ->
  exists sf, join fmt_double epoch add_seconds to_iso_string traverse cpu sched_left sched_right l r jt join_columns buffer = Ok sf /\
    joined sf
      (join_rows lp rp (num_columns l) (num_columns r)
        (match ty with LEFT_JOIN | FULL_JOIN => true | _ => false end)
        (match ty with RIGHT_JOIN | FULL_JOIN => true | _ => false end) ls rs)
      (column_types l ++ others rp (column_types r)) (column_names l ++ others rp (column_names r)).
Proof.
  intros Htr Hcpu Hbuf Hja Hty. unfold join.
  assert (forall sf xs, has_rows sf xs -> xs <> [] -> (num_rows sf =? 0)%nat = false) as Hrow.
  { intros sf xs [Hc _ _] Hne. apply Nat.eqb_neq. unfold num_rows. rewrite <- Hc. by destruct xs. }
  assert (forall sf (ps : list nat), ps <> [] -> Forall (fun i => i < length (column_types sf))%nat ps -> (num_columns sf =? 0)%nat = false) as Hcol.
  { intros sf ps Hne Hf. apply Nat.eqb_neq. rewrite ncols_types. destruct Hf; [done|lia]. }
  destruct (positions_bound _ _ _ _ _ _ _ Hja) as [Hbl Hbr]. destruct (positions_some _ _ _ _ _ _ _ Hja) as [Hnl Hnr].
  rewrite (Hrow l ls), (Hrow r rs), (Hcol l lp), (Hcol r rp) by (done || apply Hja). cbn [negb andb assert obind].
  rewrite (join_positions l r ls rs join_columns lp rp Hja), Hty. cbn [obind].
  pose proof (positions_length _ _ _ _ _ _ _ Hja) as Hlen.
  assert (map fst (zip lp rp) = lp) as -> by (apply fst_zip; lia). assert (map snd (zip lp rp) = rp) as -> by (apply snd_zip; lia).
  rewrite !ncols_types.
  destruct (executor_spec l r ls rs join_columns lp rp ty buffer Hja Hbuf) as [[-> Hrun]|[-> Hrun]]; cbn [obind].
  - by apply (grace_straight fmt_double epoch add_seconds to_iso_string traverse Htr _ (ja_keys _ _ _ _ _ _ _ Hja) _ _ _ Hrun).
  - by apply (grace_swapped fmt_double epoch add_seconds to_iso_string traverse Htr _ (ja_keys _ _ _ _ _ _ _ Hja) _ _ _ Hrun).
Qed.

(** Two frames of two columns each, with one row that matches *)
Definition example_left : sframe :=
  mk_sframe [mk_sarray [[FInt 1; FInt 2]; [FInt 3]] INTEGER; mk_sarray [[FInt 10; FInt 20]; [FInt 30]] INTEGER]
    ["k"; "v"]%string 3.
Definition example_right : sframe :=
  mk_sframe [mk_sarray [[FInt 2; FInt 4]] INTEGER; mk_sarray [[FInt 7; FInt 8]] INTEGER] ["k"; "v"]%string 2.
Definition example_left_rows : list row := [[FInt 1; FInt 10]; [FInt 2; FInt 20]; [FInt 3; FInt 30]].
Definition example_right_rows : list row := [[FInt 2; FInt 7]; [FInt 4; FInt 8]].

Lemma example_wf : wf example_left /\ wf example_right.
Proof.
  split; (split; cbn; [by repeat constructor|done|split; [by apply all_unique_spec|by repeat constructor]|done|by repeat constructor]).
Qed.
Lemma example_rows : has_rows example_left example_left_rows /\ has_rows example_right example_right_rows.
Proof. split; (split; [done|by repeat constructor|done]). Qed.

Lemma join_correct_witness :
  exists sf, join (fun _ => []) tt (fun u _ => u) (fun _ => []) map_to_list 2 [1%nat; 0%nat] [] example_left example_right
      "Outer" [("k", "k")]%string 2 = Ok sf /\
    joined sf (join_rows [0%nat] [0%nat] 2 2 true true example_left_rows example_right_rows)
      ([INTEGER; INTEGER] ++ others [0%nat] [INTEGER; INTEGER]) (["k"; "v"]%string ++ others [0%nat] ["k"; "v"]%string).
Proof.
  apply (join_correct (fun _ => []) unit tt (fun u _ => u) (fun _ => []) map_to_list 2 [1%nat; 0%nat] [] example_left example_right
    example_left_rows example_right_rows "Outer" FULL_JOIN [("k", "k")]%string [0%nat] [0%nat] 2); [done|lia|lia| |reflexivity].
  split; [by apply example_wf|by apply example_wf|by apply example_rows|by apply example_rows| | | | | | | | | | |].
  1-3: done.
  1-2: by repeat constructor.
  1-2: apply NoDup_singleton.
  - by repeat constructor.
  - intros values x y Hx Hy. rewrite list_elem_of_In in Hx, Hy. cbn in Hx, Hy.
    repeat match goal with H : _ \/ _ |- _ => destruct H | H : False |- _ => destruct H end; by subst.
  - by repeat constructor.
  - by repeat constructor.
Defined.

(** The frame that is looked up in the table must not have a join column
    twice, which the constructor checks, but nobody checks the other one: when
    the left frame is the larger, joining two of its columns with the same column
    of the right goes past the end of the columns of the result; when it is the
    smaller, the same join is refused. *)
Theorem join_repeated_column traverse :
  let column n x := mk_sarray [replicate n x] INTEGER in
  let run n m := join (fun _ => []) tt (fun u _ => u) (fun _ => []) traverse 2 [] []
    (mk_sframe [column n (FInt 1); column n (FInt 1)] ["a"; "b"]%string n) (mk_sframe [column m (FInt 1)] ["x"]%string m)
    "inner" [("a", "x"); ("b", "x")]%string 100 in
  run 4%nat 1%nat = Undef /\ run 1%nat 4%nat = Throws.
Proof. split; vm_compute; reflexivity. Qed.

(** Zeros of the two signs are equal as values, but their hashes differ, and a
    join does not find one with the other. *)
Theorem join_signed_zero traverse :
  let zero := FFloat 0 in let minus_zero := FFloat 9223372036854775808 in
  let frame v n := mk_sframe [mk_sarray [[v]] FLOAT; mk_sarray [[FInt 1]] INTEGER] ["k"; n]%string 1 in
  let run v := join (fun _ => []) tt (fun u _ => u) (fun _ => []) traverse 2 [] []
    (frame v "x"%string) (frame zero "y"%string) "inner" [("k", "k")]%string 100 in
  approx_equal zero minus_zero = true /\
  omap_ok num_rows (run zero) = Ok 1%nat /\ omap_ok num_rows (run minus_zero) = Ok 0%nat.
Proof. split_and!; vm_compute; reflexivity. Qed.
