(* ===== verification/BlockStore.v ===== *)
(** SArray storage, version 2: the model of [sframe/sarray_v2_block_writer.hpp]
    and [.cpp], [sframe/sarray_v2_block_manager.hpp] and [.cpp], the group writer
    of [sframe/sarray_file_format_v2.hpp], and the file names of
    [sframe/sarray_index_file.cpp].

    The group writer buffers the cells of each column of each segment and hands
    full blocks to the block writer, which encodes, compresses and pads them and
    keeps their metadata for the footer of the segment file.  The block manager
    reads footers and blocks back and shares the metadata of a segment among all
    the columns opened on it, with a reference count.

    The file system is the map [files] from file names to contents.  A segment
    file is written when it is closed.  LZ4, the padding of a struct and the
    conversion of a float out of range are parameters. *)
From Stdlib Require Import ZArith Lia List Bool.
From Stdlib Require Import Floats.SpecFloat.
From stdpp Require Import prelude gmap strings pretty.
From coqutil Require Import Byte Word.LittleEndianList.
From S2P Require Import Prelude.
From S2P Require Import Archive.
From S2P Require Import Serialization.
From S2P Require Import FlexibleType.
From S2P Require Import TypeEncoding.
From S2P Require Import FlexibleOps.

Abbreviation files := (gmap bytes bytes).

(** ** Constants of [sframe_constants.cpp] *)

Definition SARRAY_WRITER_MIN_ELEMENTS_PER_BLOCK : Z := 8.
Definition SARRAY_WRITER_INITAL_ELEMENTS_PER_BLOCK : Z := 16.

(** The ones that can be changed at run time *)
Record settings := mk_settings {
  SFRAME_DEFAULT_BLOCK_SIZE : Z;
  SFRAME_WRITER_MAX_BUFFERED_CELLS : Z;
  SFRAME_WRITER_MAX_BUFFERED_CELLS_PER_BLOCK : Z;
  SFRAME_MAX_BLOCKS_IN_CACHE : Z
}.
Definition default_settings : settings :=
  mk_settings (64 * 1024) (32 * 1024 * 1024) (256 * 1024) 32.

(** ** What the code relies on *)

(** [LZ4_compress(data, buffer, size)] gives the compressed bytes;
    [LZ4_decompress_safe(data, buffer, size, n)] the bytes it writes to a buffer
    of [n] bytes. *)
Definition LZ4_MAX_INPUT_SIZE : Z := 2113929216.
Class Lz4 := {
  LZ4_compress : bytes -> bytes;
  LZ4_decompress_safe : bytes -> nat -> bytes
}.
(** Its documented behaviour *)
Class Lz4Laws (L : Lz4) : Prop := {
  lz4_roundtrip b : Z.of_nat (length b) <= LZ4_MAX_INPUT_SIZE ->
    LZ4_decompress_safe (LZ4_compress b) (length b) = b
}.
Class Platform := {
  struct_padding : block_info -> bytes;      (** the last 6 bytes of a [block_info] *)
  length_struct_padding b : length (struct_padding b) = 6%nat;
  bad_conversion : spec_float -> Z           (** a float that does not fit in a [size_t] *)
}.

(** ** Single precision *)

Definition f32_of_size (z : Z) : spec_float := binary_normalize 24 128 z 0 false.
Definition f32_mul (a b : spec_float) : spec_float := SFmul 24 128 a b.
Definition f32_div (a b : spec_float) : spec_float := SFdiv 24 128 a b.
Definition f32_lt (a b : spec_float) : bool := SFltb a b.
(** [0.9f] *)
Definition COMPRESSION_DISABLE_THRESHOLD : spec_float := S754_finite false 15099494 (-24).

(** [(size_t) f]: truncation *)
Definition f32_to_size `{Platform} (f : spec_float) : Z :=
  match f with
  | S754_zero _ => 0
  | S754_finite false p e =>
      let z := if 0 <=? e then Zpos p * 2 ^ e else Zpos p / 2 ^ (- e) in
      if z <? 2 ^ 64 then z else u64 (bad_conversion f)
  | _ => u64 (bad_conversion f)
  end.

(** ** File names *)

(** [std::to_string(size_t)] *)
Definition to_string (n : nat) : bytes := bytes_of_string (pretty n).

(** [strm.fill('0'); strm.width(4); strm << n] *)
Definition to_string_4 (n : nat) : bytes :=
  let s := to_string n in replicate (4 - length s) Byte.x30 ++ s.

Fixpoint scan_digits (acc : Z) (s : bytes) : Z * bytes :=
  match s with
  | c :: s' => match digit_of c with Some d => scan_digits (10 * acc + d) s' | None => (acc, s) end
  | [] => (acc, s)
  end.

(** [strtol(s, &end, 10)]: the value, whether it set ERANGE, and what is left
    from [end] on; with no digits nothing is consumed *)
Definition strtol (s : bytes) : Z * bool * bytes :=
  let s1 := skip_space s in
  let '(neg, s2) := match s1 with
                    | Byte.x2d :: t => (true, t)
                    | Byte.x2b :: t => (false, t)
                    | _ => (false, s1)
                    end in
  match s2 with
  | c :: _ =>
      match digit_of c with
      | None => (0, false, s)
      | Some _ =>
          let '(v, rest) := scan_digits 0 s2 in
          let v := if neg : bool then - v else v in
          if v <? - 2 ^ 63 then (- 2 ^ 63, true, rest)
          else if 2 ^ 63 <=? v then (2 ^ 63 - 1, true, rest)
          else (v, false, rest)
      end
  | [] => (0, false, s)
  end.

(** [boost::algorithm::trim] *)
Definition trim (s : bytes) : bytes := rev (skip_space (rev (skip_space s))).

Definition c_colon : byte := Byte.x3a.

(** [fname.substr(0, sep)] and [fname.substr(sep + 1)] for the last [':'] *)
Fixpoint split_last_colon (s : bytes) : option (bytes * bytes) :=
  match s with
  | [] => None
  | c :: s =>
      match split_last_colon s with
      | Some (a, b) => Some (c :: a, b)
      | None => if decide (c = c_colon) then Some ([], s) else None
      end
  end.

Definition no_column : Z := 2 ^ 64 - 1.

Definition parse_v2_segment_filename (fname : bytes) : bytes * Z :=
  let fname := trim fname in
  match split_last_colon fname with
  | None => (fname, no_column)
  | Some (front, trailing_str) =>
      let '(parsed_column_id, erange, endp) := strtol trailing_str in
      if negb erange && bool_decide (endp = []) then (front, u64 parsed_column_id)
      else (fname, no_column)
  end.

(** ** Index information *)

Record index_file_information := mk_index {
  index_file : bytes;
  version : Z;
  nsegments : nat;
  segment_sizes : list Z;
  segment_files : list bytes
}.
Definition index_default : index_file_information := mk_index [] (-1) 0 [] [].

Record group_index_file_information := mk_group {
  group_index_file : bytes;
  g_version : Z;
  g_nsegments : nat;
  g_segment_files : list bytes;
  g_columns : list index_file_information
}.

(** [name + ":" + std::to_string(col)] *)
Definition column_name_of (name : bytes) (col : nat) : bytes := name ++ c_colon :: to_string col.

(** ** The block writer *)

Module BlockWriter.

(** An output file is its name and what has been written to it. *)
Record block_writer := mk {
  m_output_files : list (option (bytes * bytes));
  m_output_bytes_written : list Z;
  m_blocks : list (list (list block_info));
  m_index_info : group_index_file_information
}.
Definition new : block_writer := mk [] [] [] (mk_group [] 0 0 [] []).

Definition init_column (name : bytes) (n : nat) (files : list bytes) (col : nat)
    (c : index_file_information) : index_file_information :=
  mk_index (column_name_of name col) 2 n (list.resize n 0 (segment_sizes c))
    (map (fun f => column_name_of f col) files).

Definition init (index_file : bytes) (num_segments num_columns : nat) (w : block_writer) : block_writer :=
  let info := m_index_info w in
  let files := list.resize num_segments [] (g_segment_files info) in
  mk (list.resize num_segments None (m_output_files w))
     (list.resize num_segments 0 (m_output_bytes_written w))
     (map (list.resize num_columns []) (list.resize num_segments [] (m_blocks w)))
     (mk_group index_file 2 num_segments files
        (imap (init_column index_file num_segments files)
           (list.resize num_columns index_default (g_columns info)))).

Definition set_segment_file (segmentid : nat) (filename : bytes) (col : nat) (c : index_file_information)
    : index_file_information :=
  mk_index (index_file c) (version c) (nsegments c) (segment_sizes c)
    (<[segmentid := column_name_of filename col]> (segment_files c)).

(** [open_segment]; the failure to open a file for writing is not modelled *)
Definition open_segment (segmentid : nat) (filename : bytes) (w : block_writer) : outcome block_writer :=
  let info := m_index_info w in
  if negb (segmentid <? g_nsegments info)%nat then Throws else
  match m_output_files w !! segmentid with
  | None => Undef
  | Some (Some _) => Throws
  | Some None =>
      Ok (mk (<[segmentid := Some (filename, [])]> (m_output_files w))
             (m_output_bytes_written w) (m_blocks w)
             (mk_group (group_index_file info) (g_version info) (g_nsegments info)
                (<[segmentid := filename]> (g_segment_files info))
                (imap (set_segment_file segmentid filename) (g_columns info))))
  end.

Definition add_size (segment_id : nat) (n : nat) (c : index_file_information) : index_file_information :=
  mk_index (index_file c) (version c) (nsegments c)
    (alter (fun s => u64 (s + Z.of_nat n)) segment_id (segment_sizes c)) (segment_files c).

Section writing.
Context `{L : Lz4, P : Platform}.

(** The bytes to write and the metadata: compressed if that has a benefit *)
Definition compress_block (data : bytes) (block : block_info) : bytes * block_info :=
  let cbuffer := LZ4_compress data in
  let clen := Z.of_nat (length cbuffer) in
  if f32_lt (f32_of_size clen) (f32_mul COMPRESSION_DISABLE_THRESHOLD (f32_of_size (bi_block_size block)))
  then (cbuffer, mk_info (bi_offset block) clen (bi_block_size block) (bi_num_elem block)
                   (Z.lor (bi_flags block) LZ4_COMPRESSION) (bi_content_type block))
  else (data, mk_info (bi_offset block) (bi_block_size block) (bi_block_size block) (bi_num_elem block)
                (Z.land (bi_flags block) (u64 (Z.lnot LZ4_COMPRESSION))) (bi_content_type block)).

Definition padding_of (n : nat) : nat := ((n + 4095) / 4096 * 4096 - n)%nat.

Definition set_offset (o : Z) (b : block_info) : block_info :=
  mk_info o (bi_length b) (bi_block_size b) (bi_num_elem b) (bi_flags b) (bi_content_type b).

(** [write_block]; [data] is the buffer of [block.block_size] bytes.  Writing to
    a disk that is full is not modelled. *)
Definition write_block (segment_id column_id : nat) (data : bytes) (block : block_info) (w : block_writer)
    : outcome (nat * block_writer) :=
  let '(buffer_to_write, block) := compress_block data block in
  let padding := padding_of (length buffer_to_write) in
  let info := m_index_info w in
  match m_output_files w !! segment_id, m_output_bytes_written w !! segment_id,
        m_blocks w !! segment_id, g_columns info !! column_id with
  | Some (Some (name, contents)), Some written, Some seg, Some col =>
      match seg !! column_id with
      | None => Undef
      | Some column =>
          let block := set_offset written block in
          Ok (length buffer_to_write,
              mk (<[segment_id := Some (name, contents ++ buffer_to_write ++ replicate padding Byte.x00)]>
                    (m_output_files w))
                 (<[segment_id := u64 (written + Z.of_nat (length buffer_to_write + padding))]>
                    (m_output_bytes_written w))
                 (<[segment_id := <[column_id := column ++ [block]]> seg]> (m_blocks w))
                 (mk_group (group_index_file info) (g_version info) (g_nsegments info) (g_segment_files info)
                    (<[column_id := add_size segment_id (bi_num_elem block) col]> (g_columns info))))
      end
  | _, _, _, _ => Undef
  end.

(** [write_typed_block]; a buffer of the pool is empty: [release_buffer] clears it *)
Definition write_typed_block (segment_id column_id : nat) (data : list flexible_type) (block : block_info)
    (w : block_writer) : outcome (nat * block_writer) :=
  match typed_encode data block (oarchive_vec []) with
  | None => Throws
  | Some (block, oarc) => write_block segment_id column_id (oa_data oarc) block w
  end.

(** [write_block<T>]: direct serialization of a vector *)
Definition write_block_of {T} (save_T : T -> writer) (segment_id column_id : nat) (data : list T)
    (block : block_info) (w : block_writer) : outcome (nat * block_writer) :=
  match vector_save save_T data (oarchive_vec []) with
  | None => Throws
  | Some oarc =>
      write_block segment_id column_id (oa_data oarc)
        (set_num_elem (length data) (set_block_size (ooff oarc) block)) w
  end.

(** The memory of a [block_info] *)
Definition block_info_bytes (b : block_info) : bytes :=
  le_split 8 (bi_offset b) ++ le_split 8 (bi_length b) ++ le_split 8 (bi_block_size b) ++
  le_split 8 (Z.of_nat (bi_num_elem b)) ++ le_split 8 (bi_flags b) ++ le_split 2 (bi_content_type b) ++
  struct_padding b.

(** [oarc << m_blocks[segment_id]]; [block_info] is a POD, so a vector of it is
    its size and its memory *)
Definition blocks_save (blocks : list (list block_info)) : writer :=
  vector_save (fun column => size_save (length column) >>>
                             write (concat (map block_info_bytes column))) blocks.

(** [emit_footer] and [close_segment] *)
Definition close_segment (segment_id : nat) (w : block_writer) (fs : files)
    : outcome (block_writer * files) :=
  match m_output_files w !! segment_id, m_blocks w !! segment_id with
  | Some (Some (name, contents)), Some seg =>
      match blocks_save seg oarchive_new with
      | None => Undef
      | Some oarc =>
          let contents := contents ++ oa_data oarc ++ le_split 8 (Z.of_nat (ooff oarc)) in
          Ok (mk (<[segment_id := None]> (m_output_files w)) (m_output_bytes_written w) (m_blocks w)
                (m_index_info w),
              <[name := contents]> fs)
      end
  | _, _ => Undef
  end.
End writing.
End BlockWriter.

(** ** The group writer *)

Module GroupWriter.

Record column_buffer := mk_buffer {
  segment_data : list (list flexible_type);
  elements_before_flush : Z;
  total_bytes_written : Z;
  total_elements_written : Z
}.
Definition buffer_default : column_buffer :=
  mk_buffer [] SARRAY_WRITER_INITAL_ELEMENTS_PER_BLOCK 0 0.

Record group_writer := mk {
  m_array_open : bool;
  m_nsegments : nat;
  m_writer : BlockWriter.block_writer;
  m_column_buffers : list column_buffer
}.
Definition new : group_writer := mk false 0 BlockWriter.new [].
Definition set_writer (w : BlockWriter.block_writer) (g : group_writer) : group_writer :=
  mk (m_array_open g) (m_nsegments g) w (m_column_buffers g).
Definition set_buffers (b : list column_buffer) (g : group_writer) : group_writer :=
  mk (m_array_open g) (m_nsegments g) (m_writer g) b.

(** [index_file.substr(0, length() - 5)] and the segment number *)
Definition segment_name (index_file : bytes) (segmentid : nat) : bytes :=
  take (Z.to_nat (u64 (Z.of_nat (length index_file) - 5))) index_file ++
  Byte.x2e :: to_string_4 segmentid.

Definition open_segment (segmentid : nat) (g : group_writer) : outcome group_writer :=
  if negb (m_array_open g) then Throws else
  let index_file := group_index_file (BlockWriter.m_index_info (m_writer g)) in
  omap_ok (fun w => set_writer w g)
    (BlockWriter.open_segment segmentid (segment_name index_file segmentid) (m_writer g)).

Definition open (index_file : bytes) (segments_to_create columns_to_create : nat) (g : group_writer)
    : outcome group_writer :=
  let segments_to_create := if (columns_to_create =? 0)%nat then 0%nat else segments_to_create in
  let g := mk true segments_to_create
             (BlockWriter.init index_file segments_to_create columns_to_create (m_writer g))
             (map (fun c => mk_buffer (list.resize segments_to_create [] (segment_data c))
                              (elements_before_flush c) (total_bytes_written c) (total_elements_written c))
                (list.resize columns_to_create buffer_default (m_column_buffers g))) in
  ofold open_segment (seq 0 segments_to_create) g.

Section writing.
Context `{L : Lz4, P : Platform} (cfg : settings).

(** The estimate of the number of elements before the next flush *)
Definition next_flush (nsegments ncolumns : nat) (bytes_written elements_written : Z) : Z :=
  let e := f32_to_size (f32_div (f32_of_size (SFRAME_DEFAULT_BLOCK_SIZE cfg))
             (f32_div (f32_of_size (u64 (bytes_written + 1))) (f32_of_size (u64 (elements_written + 1))))) in
  let e := Z.max e SARRAY_WRITER_MIN_ELEMENTS_PER_BLOCK in
  let e := Z.min e (SFRAME_WRITER_MAX_BUFFERED_CELLS cfg / Z.of_nat (nsegments * ncolumns)) in
  Z.min e (SFRAME_WRITER_MAX_BUFFERED_CELLS_PER_BLOCK cfg).

Definition flush_block (columnid segmentid : nat) (g : group_writer) : outcome group_writer :=
  match m_column_buffers g !! columnid with
  | None => Undef
  | Some colbuf =>
      match segment_data colbuf !! segmentid with
      | None => Undef
      | Some [] => Ok g
      | Some data =>
          obind (BlockWriter.write_typed_block segmentid columnid data block_info_default (m_writer g))
            (fun '(ret, w) =>
               let total_bytes := u64 (total_bytes_written colbuf + Z.of_nat ret) in
               let total_elements := u64 (total_elements_written colbuf + Z.of_nat (length data)) in
               let colbuf := mk_buffer (<[segmentid := []]> (segment_data colbuf))
                               (next_flush (m_nsegments g) (length (m_column_buffers g))
                                  total_bytes total_elements)
                               total_bytes total_elements in
               Ok (set_buffers (<[columnid := colbuf]> (m_column_buffers g)) (set_writer w g)))
      end
  end.

(** [write_segment(columnid, segmentid, t)] *)
Definition write_cell (columnid segmentid : nat) (t : flexible_type) (g : group_writer)
    : outcome group_writer :=
  match m_column_buffers g !! columnid with
  | None => Undef
  | Some colbuf =>
      match segment_data colbuf !! segmentid with
      | None => Undef
      | Some data =>
          let data := data ++ [t] in
          let g := set_buffers (<[columnid := mk_buffer (<[segmentid := data]> (segment_data colbuf))
                                   (elements_before_flush colbuf) (total_bytes_written colbuf)
                                   (total_elements_written colbuf)]> (m_column_buffers g)) g in
          if elements_before_flush colbuf <=? Z.of_nat (length data)
          then flush_block columnid segmentid g else Ok g
      end
  end.

(** [write_segment(segmentid, v)]: a row *)
Definition write_row (segmentid : nat) (v : list flexible_type) (g : group_writer) : outcome group_writer :=
  ofold (fun '(i, t) => write_cell i segmentid t) (zip (seq 0 (length v)) v) g.

Definition close_one (i : nat) (s : group_writer * files) : outcome (group_writer * files) :=
  obind (ofold (fun j => flush_block j i) (seq 0 (length (m_column_buffers s.1))) s.1)
    (fun g => omap_ok (fun '(w, fs) => (set_writer w g, fs))
                (BlockWriter.close_segment i (m_writer g) s.2)).
Definition close (g : group_writer) (fs : files) : outcome (group_writer * files) :=
  if negb (m_array_open g) then Throws else
  let g := mk false (m_nsegments g) (m_writer g) (m_column_buffers g) in
  ofold close_one (seq 0 (m_nsegments g)) (g, fs).
End writing.

Definition get_index_info (g : group_writer) : group_index_file_information :=
  BlockWriter.m_index_info (m_writer g).
Definition num_segments (g : group_writer) : outcome nat :=
  if m_array_open g then Ok (m_nsegments g) else Throws.
Definition num_columns (g : group_writer) : outcome nat :=
  if m_array_open g then Ok (length (m_column_buffers g)) else Throws.
End GroupWriter.

(** ** The block manager *)

Definition column_address : Type := nat * nat.
Definition block_address : Type := nat * nat * nat.

Module BlockManager.

(** The file handles, their pool and the I/O locks only decide which handle
    reads the file and are left out. *)
Record segment := mk_segment {
  segment_file : bytes;
  file_size : Z;
  inited : bool;
  blocks : list (list block_info);
  reference_count : Z
}.
Record block_manager := mk {
  segment_id_counter : nat;
  m_segments : gmap nat segment;
  m_file_to_segments : gmap bytes nat
}.
Definition new : block_manager := mk 0 ∅ ∅.

(** The memory of a [block_info] read back *)
Definition block_info_of_bytes (b : bytes) : block_info :=
  let word i := le_combine (take 8 (drop (8 * i) b)) in
  mk_info (word 0%nat) (word 1%nat) (word 2%nat) (Z.to_nat (word 3%nat)) (word 4%nat)
    (le_combine (take 2 (drop 40 b))).
Fixpoint block_infos_of_bytes (n : nat) (b : bytes) : list block_info :=
  match n with
  | O => []
  | S n => block_info_of_bytes (take 48 b) :: block_infos_of_bytes n (drop 48 b)
  end.
(** [iarc >> seg->blocks] *)
Definition blocks_load : reader (list (list block_info)) :=
  vector_load (n <- size_load ;; b <- read (48 * n) ;; rret (block_infos_of_bytes n b)).

(** [init_segment] on the contents of the file.  A file too short for its footer
    leaves the stream in a failed state and the metadata indeterminate. *)
Definition init_segment (contents : bytes) (seg : segment) : outcome segment :=
  if inited seg then Ok seg else
  let filesize := Z.of_nat (length contents) in
  if filesize <? 8 then Undef else
  let footer_size := le_combine (drop (Z.to_nat (filesize - 8)) contents) in
  if filesize <? footer_size + 8 then Undef else
  match blocks_load (iarchive_buf (drop (Z.to_nat (filesize - footer_size - 8)) contents)) with
  | None => Undef
  | Some (blocks, _) =>
      Ok (mk_segment (segment_file seg) filesize true blocks (reference_count seg))
  end.

(** [open_column]: the manager is changed also when the file cannot be opened *)
Definition add_reference (segment_id : nat) (column_id : nat) (m : block_manager)
    : outcome column_address * block_manager :=
  match m_segments m !! segment_id with
  | None => (Throws, m)
  | Some seg =>
      (Ok (segment_id, column_id),
       mk (segment_id_counter m)
          (<[segment_id := mk_segment (segment_file seg) (file_size seg) (inited seg) (blocks seg)
                             (u64 (reference_count seg + 1))]> (m_segments m))
          (m_file_to_segments m))
  end.

Definition open_column (fs : files) (column_file : bytes) (m : block_manager)
    : outcome column_address * block_manager :=
  let '(fname, col) := parse_v2_segment_filename column_file in
  let column_id := Z.to_nat (if col =? no_column then 0 else col) in
  match m_file_to_segments m !! fname with
  | Some segment_id => add_reference segment_id column_id m
  | None =>
      let segment_id := segment_id_counter m in
      let seg := mk_segment fname 0 false [] 0 in
      let m := mk (S segment_id) (<[segment_id := seg]> (m_segments m))
                  (<[fname := segment_id]> (m_file_to_segments m)) in
      match fs !! fname with
      | None => (Throws, m)
      | Some contents =>
          match init_segment contents seg with
          | Ok seg =>
              add_reference segment_id column_id
                (mk (segment_id_counter m) (<[segment_id := seg]> (m_segments m)) (m_file_to_segments m))
          | Throws => (Throws, m)
          | Undef => (Undef, m)
          end
      end
  end.

Definition close_column (addr : column_address) (m : block_manager) : outcome block_manager :=
  match m_segments m !! addr.1 with
  | None => Throws
  | Some seg =>
      let count := u64 (reference_count seg - 1) in
      if count =? 0 then
        Ok (mk (segment_id_counter m) (delete addr.1 (m_segments m))
               (delete (segment_file seg) (m_file_to_segments m)))
      else
        Ok (mk (segment_id_counter m)
               (<[addr.1 := mk_segment (segment_file seg) (file_size seg) (inited seg) (blocks seg) count]>
                  (m_segments m))
               (m_file_to_segments m))
  end.

Definition num_blocks_in_column (addr : column_address) (m : block_manager) : outcome nat :=
  match m_segments m !! addr.1 with
  | None => Undef
  | Some seg =>
      match blocks seg !! addr.2 with
      | None => Throws
      | Some column => Ok (length column)
      end
  end.

Definition get_block_info (addr : block_address) (m : block_manager) : outcome block_info :=
  let '(segment_id, column_id, block_id) := addr in
  of_option (seg ← m_segments m !! segment_id; column ← blocks seg !! column_id; column !! block_id).

Section reading.
Context `{L : Lz4}.

(** The bytes of a block of a file; [None]: the read goes past the end *)
Definition load_block (contents : bytes) (info : block_info) : option bytes :=
  let offset := Z.to_nat (bi_offset info) in
  let len := Z.to_nat (bi_length info) in
  if (offset + len <=? length contents)%nat then
    let ret := take len (drop offset contents) in
    if Z.land (bi_flags info) LZ4_COMPRESSION =? 0 then Some ret
    else let n := Z.to_nat (bi_block_size info) in
         Some (list.resize n Byte.x00 (LZ4_decompress_safe ret n))
  else None.

(** [read_block]: [None] is the empty pointer *)
Definition read_block (fs : files) (addr : block_address) (m : block_manager)
    : outcome (option (bytes * block_info)) :=
  obind (get_block_info addr m) (fun info =>
  match m_segments m !! addr.1.1 with
  | None => Undef
  | Some seg =>
      match fs !! segment_file seg with
      | None => Throws
      | Some contents =>
          Ok (match load_block contents info with Some ret => Some (ret, info) | None => None end)
      end
  end).

(** [read_typed_block]: whether it succeeded, and the values *)
Definition read_typed_block (fs : files) (addr : block_address) (ret : list flexible_type)
    (m : block_manager) : outcome (bool * list flexible_type) :=
  obind (read_block fs addr m) (fun r =>
  match r with
  | None => Ok (false, ret)
  | Some (read_buffer, info) => of_option (typed_decode info read_buffer ret)
  end).
End reading.
End BlockManager.
