(* ===== verification/BlockManagerCorrect.v ===== *)
(** The block manager is correct: it keeps one segment per file, shares it among
    the columns opened on the file, counts the references, and forgets the
    segment when the last one is closed.

    [holds fs m h] is the set of states the manager can reach: [m] is the manager
    after some opens and closes on the files [fs], and [h] the columns that are
    open, with their files.  The theorems are by induction on it. *)
From Stdlib Require Import ZArith Lia List Bool Permutation.
From stdpp Require Import prelude gmap.
From coqutil Require Import Byte Word.LittleEndianList.
From S2P Require Import Prelude.
From S2P Require Import Archive.
From S2P Require Import FlexibleType.
From S2P Require Import TypeEncoding.
From S2P Require Import FlexibleOps.
From S2P Require Import BlockStore.
Import BlockManager.

(** ** Reachable states *)

Abbreviation handle := (bytes * column_address)%type.

(** The footer of the file can be read, and gives these blocks *)
Definition readable (file : bytes) (seg : list (list block_info)) : Prop :=
  forall name, exists size, init_segment file (mk_segment name 0 false [] 0) = Ok (mk_segment name size true seg 0).

Inductive holds (fs : files) : block_manager -> list handle -> Prop :=
| holds_new : holds fs new []
| holds_open m h name f col file seg addr m' :
    holds fs m h -> parse_v2_segment_filename name = (f, col) -> fs !! f = Some file -> readable file seg ->
    Z.of_nat (length h) < 2 ^ 64 - 1 ->
    open_column fs name m = (Ok addr, m') -> holds fs m' ((f, addr) :: h)
| holds_close m h h' f addr m' :
    holds fs m h -> h ≡ₚ (f, addr) :: h' -> close_column addr m = Ok m' -> holds fs m' h'.

(** How many columns of a file are open *)
Definition references (f : bytes) (h : list handle) : nat := length (filter (fun p => p.1 = f) h).

#[local] Arguments references : simpl never.

Lemma references_cons f p h :
  references f (p :: h) = ((if decide (p.1 = f) then 1 else 0) + references f h)%nat.
Proof. unfold references. rewrite filter_cons. by destruct (decide (p.1 = f)). Qed.
Lemma references_perm f h h' : h ≡ₚ h' -> references f h = references f h'.
Proof. intros E. unfold references. by rewrite E. Qed.
Lemma references_le f h : (references f h <= length h)%nat.
Proof. apply length_filter. Qed.
Lemma references_pos f h : (0 < references f h)%nat <-> exists a, (f, a) ∈ h.
Proof.
  unfold references. split.
  - destruct (filter _ h) as [|[f' a] l] eqn:E; [cbn; lia|]. intros _. exists a.
    assert ((f', a) ∈ filter (fun p : handle => p.1 = f) h) as Hin by (rewrite E; left).
    apply list_elem_of_filter in Hin as [<- Hin]. done.
  - intros [a Hin]. assert ((f, a) ∈ filter (fun p : handle => p.1 = f) h) as H.
    { by apply list_elem_of_filter. }
    destruct (filter _ h); [by apply elem_of_nil in H|cbn; lia].
Qed.

(** ** The invariant *)

(** A segment of the manager: it is the one of its file, and is counted right *)
Record segment_inv (fs : files) (m : block_manager) (h : list handle) (id : nat) (s : segment) : Prop := {
  si_file : m_file_to_segments m !! segment_file s = Some id;
  si_id : (id < segment_id_counter m)%nat;
  si_inited : inited s = true;
  si_blocks : exists file, fs !! segment_file s = Some file /\ readable file (blocks s);
  si_count : reference_count s = Z.of_nat (references (segment_file s) h);
  si_used : (0 < references (segment_file s) h)%nat
}.
Record manager_inv (fs : files) (m : block_manager) (h : list handle) : Prop := {
  mi_segments : forall id s, m_segments m !! id = Some s -> segment_inv fs m h id s;
  mi_files : forall f id, m_file_to_segments m !! f = Some id ->
    exists s, m_segments m !! id = Some s /\ segment_file s = f;
  mi_handles : forall f a, (f, a) ∈ h -> m_file_to_segments m !! f = Some a.1
}.

(** The segment that [open_column] makes sure of *)
Lemma readable_inj file seg seg' : readable file seg -> readable file seg' -> seg = seg'.
Proof. intros H H'. destruct (H []) as [s E], (H' []) as [s' E']. rewrite E in E'. by injection E'. Qed.

Definition count_up (s : segment) : segment :=
  mk_segment (segment_file s) (file_size s) (inited s) (blocks s) (u64 (reference_count s + 1)).

(** Opening adds one reference and keeps the segments that are there. *)
Lemma add_reference_inv fs m h f id col s m0 : manager_inv fs m0 h ->
  (forall f', f' <> f -> m_file_to_segments m !! f' = m_file_to_segments m0 !! f') ->
  (forall id', id' <> id -> m_segments m !! id' = m_segments m0 !! id') ->
  (segment_id_counter m0 <= segment_id_counter m)%nat ->
  (forall id', m_file_to_segments m0 !! f = Some id' -> id' = id) ->
  (forall s', m_segments m0 !! id = Some s' -> segment_file s' = f) ->
  m_segments m !! id = Some s -> m_file_to_segments m !! f = Some id -> (id < segment_id_counter m)%nat ->
  segment_file s = f -> inited s = true -> (exists file, fs !! f = Some file /\ readable file (blocks s)) ->
  reference_count s = Z.of_nat (references f h) -> Z.of_nat (length h) < 2 ^ 64 - 1 ->
  add_reference id col m = (Ok (id, col), mk (segment_id_counter m) (<[id := count_up s]> (m_segments m))
                                             (m_file_to_segments m)) /\
  manager_inv fs (mk (segment_id_counter m) (<[id := count_up s]> (m_segments m)) (m_file_to_segments m))
    ((f, (id, col)) :: h).
Proof.
  intros [H1 H2 H3] Hf Hs Hc Hid Hsf Es Ef Hlt Esf Hin Hfile Hcnt Hh. unfold add_reference. rewrite Es.
  split; [done|]. pose proof (references_le f h) as Hle. split.
  - intros id' s' E. cbn in E. apply lookup_insert_Some in E as [[<- <-]|[Hne E]].
    + unfold count_up. split; cbn; rewrite ?Esf; try done.
      * rewrite Hcnt, references_cons, decide_True by done. rewrite wrap_small; [lia|]. split; lia.
      * rewrite references_cons, decide_True by done. lia.
    + rewrite Hs in E by done. destruct (H1 id' s' E) as [G1 G2 G3 G4 G5 G6].
      assert (segment_file s' <> f) as Hne'. { intros E'. rewrite E' in G1. by apply Hne, eq_sym, Hid. }
      split; cbn; [by rewrite Hf|lia|done|done|..]; rewrite references_cons, decide_False by (cbn; congruence); done.
  - intros f' id' E. cbn in *. destruct (decide (f' = f)) as [->|Hne].
    + rewrite Ef in E. injection E as <-. exists (count_up s). by rewrite lookup_insert_eq.
    + rewrite Hf in E by done. destruct (H2 f' id' E) as (s' & Es' & Esf').
      destruct (decide (id' = id)) as [->|Hne']; [by rewrite (Hsf s' Es') in Esf'|].
      exists s'. rewrite lookup_insert_ne by done. by rewrite Hs.
  - intros f' a Hin'. cbn. apply elem_of_cons in Hin' as [E|Hin']; [by injection E as -> ->|].
    destruct (decide (f' = f)) as [->|Hne]; [|rewrite Hf by done; auto].
    rewrite Ef. specialize (H3 f a Hin'). by rewrite (Hid _ H3).
Qed.

(** What opening a column of a readable file does *)
Lemma open_column_inv fs m h name f col file seg : manager_inv fs m h ->
  parse_v2_segment_filename name = (f, col) -> fs !! f = Some file -> readable file seg ->
  Z.of_nat (length h) < 2 ^ 64 - 1 ->
  exists id m' s, open_column fs name m = (Ok (id, Z.to_nat (if col =? no_column then 0 else col)), m') /\
    manager_inv fs m' ((f, (id, Z.to_nat (if col =? no_column then 0 else col))) :: h) /\
    m_segments m' !! id = Some s /\ blocks s = seg.
Proof.
  intros Hinv Hp Hfile Hrd Hh. unfold open_column. rewrite Hp. cbv zeta. set (c := Z.to_nat _).
  destruct (m_file_to_segments m !! f) as [id|] eqn:Ef.
  - destruct (mi_files _ _ _ Hinv f id Ef) as (s & Es & Esf).
    destruct (mi_segments _ _ _ Hinv id s Es) as [G1 G2 G3 G4 G5 G6]. rewrite Esf in *.
    destruct (add_reference_inv fs m h f id c s m Hinv) as [E Hinv']; try done.
    { intros id' E. congruence. } { intros s' E. congruence. }
    do 3 eexists. split; [exact E|]. split; [exact Hinv'|]. cbn. rewrite lookup_insert_eq. split; [done|].
    destruct G4 as (file' & Ef' & Hrd'). rewrite Hfile in Ef'. injection Ef' as <-.
    exact (readable_inj _ _ _ Hrd' Hrd).
  - rewrite Hfile. destruct (Hrd f) as (size & ->). set (s := mk_segment f size true seg 0).
    set (m1 := mk _ _ _). set (id := segment_id_counter m).
    assert (m_segments m !! id = None) as Hnone.
    { destruct (m_segments m !! id) as [s'|] eqn:E; [|done].
      pose proof (si_id _ _ _ _ _ (mi_segments _ _ _ Hinv id s' E)). unfold id in *. lia. }
    assert (references f h = 0)%nat as H0.
    { destruct (references f h) eqn:E; [done|].
      assert (0 < references f h)%nat as Hpos by lia. apply references_pos in Hpos as [a Hin].
      apply (mi_handles _ _ _ Hinv) in Hin. congruence. }
    destruct (add_reference_inv fs m1 h f id c s m Hinv) as [E Hinv']; try done.
    + intros f' Hne. unfold m1. cbn. by rewrite lookup_insert_ne.
    + intros id' Hne. unfold m1. cbn. by rewrite !lookup_insert_ne.
    + unfold m1. cbn. lia.
    + intros id' E. congruence.
    + intros s' E. congruence.
    + unfold m1. cbn. by rewrite lookup_insert_eq.
    + unfold m1. cbn. by rewrite lookup_insert_eq.
    + unfold m1, id. cbn. lia.
    + by exists file.
    + by rewrite H0.
    + do 3 eexists. split; [exact E|]. split; [exact Hinv'|]. cbn. by rewrite lookup_insert_eq.
Qed.

(** What closing a column that is open does *)
Lemma close_column_inv fs m h f addr : manager_inv fs m ((f, addr) :: h) -> Z.of_nat (length h) < 2 ^ 64 - 1 ->
  exists m', close_column addr m = Ok m' /\ manager_inv fs m' h.
Proof.
  intros Hinv Hh. pose proof (mi_handles _ _ _ Hinv f addr ltac:(left)) as Ef.
  destruct (mi_files _ _ _ Hinv f _ Ef) as (s & Es & Esf).
  destruct (mi_segments _ _ _ Hinv _ s Es) as [G1 G2 G3 G4 G5 G6]. unfold close_column. rewrite Es.
  rewrite Esf in *. rewrite references_cons, decide_True in G5, G6 by done.
  pose proof (references_le f h) as Hle. rewrite G5.
  assert (u64 (Z.of_nat (1 + references f h) - 1) = Z.of_nat (references f h)) as ->.
  { rewrite wrap_small; [lia|]. split; lia. }
  assert (forall id s', id <> addr.1 -> m_segments m !! id = Some s' -> segment_file s' <> f /\
            references (segment_file s') ((f, addr) :: h) = references (segment_file s') h) as Hother.
  { intros id s' Hne E. assert (segment_file s' <> f) as Hne'.
    { intros E'. destruct (mi_segments _ _ _ Hinv _ s' E) as [K _]. rewrite E', Ef in K. congruence. }
    split; [done|]. rewrite references_cons, decide_False; [done|]. cbn. congruence. }
  destruct (Z.eqb_spec (Z.of_nat (references f h)) 0) as [E0|Hne0].
  - eexists; split; [reflexivity|]. split; cbn.
    + intros id s' E. apply lookup_delete_Some in E as [Hne E].
      destruct (Hother id s' ltac:(congruence) E) as [Hf Hr].
      destruct (mi_segments _ _ _ Hinv _ s' E) as [K1 K2 K3 K4 K5 K6]. rewrite Hr in *.
      split; cbn; try done. by rewrite lookup_delete_ne by congruence.
    + intros f' id E. apply lookup_delete_Some in E as [Hne E].
      destruct (mi_files _ _ _ Hinv _ _ E) as (s' & E' & <-). exists s'. split; [|done].
      rewrite lookup_delete_ne; [done|]. intros <-. congruence.
    + intros f' a Hin. rewrite lookup_delete_ne.
      * apply (mi_handles _ _ _ Hinv). by right.
      * intros <-. assert (0 < references f h)%nat; [|lia]. apply references_pos. by exists a.
  - eexists; split; [reflexivity|]. split; cbn.
    + intros id s' E. apply lookup_insert_Some in E as [[<- <-]|[Hne E]].
      * split; cbn; rewrite ?Esf; try done. lia.
      * destruct (Hother id s' ltac:(congruence) E) as [Hf Hr].
        destruct (mi_segments _ _ _ Hinv _ s' E) as [K1 K2 K3 K4 K5 K6]. rewrite Hr in *. by split.
    + intros f' id E. destruct (mi_files _ _ _ Hinv _ _ E) as (s' & E' & <-).
      destruct (decide (id = addr.1)) as [->|Hne].
      * eexists. rewrite lookup_insert_eq. split; [reflexivity|]. cbn. congruence.
      * exists s'. by rewrite lookup_insert_ne.
    + intros f' a Hin. apply (mi_handles _ _ _ Hinv). by right.
Qed.

Lemma manager_inv_perm fs m h h' : h ≡ₚ h' -> manager_inv fs m h -> manager_inv fs m h'.
Proof.
  intros E [H1 H2 H3]. split; [|done|].
  - intros id s Es. destruct (H1 id s Es) as [G1 G2 G3 G4 G5 G6].
    by split; rewrite <- ?(references_perm _ _ _ E).
  - intros f a Hin. apply H3. by rewrite E.
Qed.

Lemma holds_inv fs m h : holds fs m h -> manager_inv fs m h /\ Z.of_nat (length h) < 2 ^ 64.
Proof.
  induction 1 as [|m h name f col file seg addr m' H [IH Hl] Hp Hf Hrd Hlt E|m h h' f addr m' H [IH Hl] Hperm E].
  - split; [|done]. split; [done|done|]. intros f a Hin. by apply elem_of_nil in Hin.
  - destruct (open_column_inv fs m h name f col file seg IH Hp Hf Hrd Hlt) as (id & m1 & s & E1 & Hinv & _).
    rewrite E1 in E. injection E as <- <-. split; [done|]. cbn [length]. lia.
  - apply (manager_inv_perm _ _ _ _ Hperm) in IH. pose proof (Permutation_length Hperm) as Hlen. cbn in Hlen.
    destruct (close_column_inv fs m h' f addr IH ltac:(lia)) as (m1 & E1 & Hinv).
    rewrite E1 in E. injection E as <-. split; [done|lia].
Qed.

(** ** Theorems *)

(** C11. The block manager's bookkeeping, in every state that is reached from a new
    manager by opens that succeed, of columns of files with a readable footer and
    never 2^64 at a time, and by closes of open columns (a state after an open
    that failed is not one of these: see [failed_open_sticks]): each open
    column leads to the segment of its file, with the blocks of the file's
    footer and a reference count equal to the number of open columns on the
    file; two open columns share a segment exactly when they are of one file;
    when no column is open nothing is kept; and closing an open column, and
    opening a column of a readable file while fewer than 2^64 - 1 are open,
    succeed and lead to such a state again. *)
Theorem manager_bookkeeping fs m h : holds fs m h ->
  (forall f a, (f, a) ∈ h -> exists s file, m_segments m !! a.1 = Some s /\ segment_file s = f /\
     fs !! f = Some file /\ readable file (blocks s) /\ reference_count s = Z.of_nat (references f h)) /\
  (forall f a f' a', (f, a) ∈ h -> (f', a') ∈ h -> f = f' <-> a.1 = a'.1) /\
  (h = [] -> m_segments m = ∅ /\ m_file_to_segments m = ∅) /\
  (forall f a h', h ≡ₚ (f, a) :: h' -> exists m', close_column a m = Ok m' /\ holds fs m' h') /\
  (forall name f col file seg, parse_v2_segment_filename name = (f, col) -> fs !! f = Some file ->
     readable file seg -> Z.of_nat (length h) < 2 ^ 64 - 1 ->
     exists a m', open_column fs name m = (Ok a, m') /\ holds fs m' ((f, a) :: h)).
Proof.
  intros Hm. destruct (holds_inv _ _ _ Hm) as [Hinv Hl]. split_and!.
  - intros f a Hin. pose proof (mi_handles _ _ _ Hinv f a Hin) as Ef.
    destruct (mi_files _ _ _ Hinv f _ Ef) as (s & Es & Esf).
    destruct (mi_segments _ _ _ Hinv _ s Es) as [_ _ _ (file & G1 & G2) G3 _]. rewrite Esf in *.
    by exists s, file.
  - intros f a f' a' H H'. pose proof (mi_handles _ _ _ Hinv f a H) as E.
    pose proof (mi_handles _ _ _ Hinv f' a' H') as E'. split; [intros ->; congruence|]. intros Ea.
    rewrite Ea in E. destruct (mi_files _ _ _ Hinv _ _ E) as (s & Es & <-).
    destruct (mi_files _ _ _ Hinv _ _ E') as (s' & Es' & <-). congruence.
  - intros ->. assert (forall id, m_segments m !! id = None) as Hnone.
    { intros id. destruct (m_segments m !! id) as [s|] eqn:E; [|done].
      pose proof (si_used _ _ _ _ _ (mi_segments _ _ _ Hinv id s E)) as Hu. unfold references in Hu. cbn in Hu. lia. }
    split; apply map_eq; intros i; rewrite lookup_empty; [done|].
    destruct (m_file_to_segments m !! i) as [id|] eqn:E; [|done].
    destruct (mi_files _ _ _ Hinv i id E) as (s & Es & _). by rewrite Hnone in Es.
  - intros f a h' Hp. apply (manager_inv_perm _ _ _ _ Hp) in Hinv. rewrite (Permutation_length Hp) in Hl. cbn in Hl.
    destruct (close_column_inv fs m h' f a Hinv ltac:(lia)) as (m' & E & _). exists m'.
    split; [done|]. by eapply holds_close.
  - intros name f col file seg Hn Hf Hrd Hlt.
    destruct (open_column_inv fs m h name f col file seg Hinv Hn Hf Hrd Hlt) as (id & m' & s & E & _).
    eexists _, m'. split; [exact E|]. by eapply holds_open.
Qed.

(** A file of two columns without blocks, opened once and closed again *)
Definition two_columns : bytes := le_split 8 2 ++ replicate 16 Byte.x00 ++ le_split 8 24.

Lemma two_columns_readable : readable two_columns [[]; []].
Proof. intros name. exists 32. reflexivity. Qed.

Lemma manager_bookkeeping_witness : exists a m m',
  open_column {[ [Byte.x61] := two_columns ]} [Byte.x61; Byte.x3a; Byte.x31] new = (Ok a, m) /\
  (exists s, m_segments m !! a.1 = Some s /\ reference_count s = 1) /\
  close_column a m = Ok m' /\ m_segments m' = ∅.
Proof.
  destruct (manager_bookkeeping {[ [Byte.x61] := two_columns ]} new [] (holds_new _)) as (_ & _ & _ & _ & Hopen).
  destruct (Hopen [Byte.x61; Byte.x3a; Byte.x31] [Byte.x61] 1 two_columns [[]; []] eq_refl eq_refl
    two_columns_readable ltac:(done)) as (a & m & Eo & Hm).
  destruct (manager_bookkeeping _ m _ Hm) as (Hb & _ & _ & Hclose & _).
  destruct (Hb [Byte.x61] a ltac:(left)) as (s & _ & Es & _ & _ & _ & Er).
  destruct (Hclose [Byte.x61] a [] ltac:(done)) as (m' & Ec & Hm').
  destruct (manager_bookkeeping _ m' [] Hm') as (_ & _ & He & _ & _). destruct (He eq_refl) as [He' _].
  exists a, m, m'. split; [exact Eo|]. split; [|split; [exact Ec|exact He']].
  exists s. split; [exact Es|]. rewrite Er. reflexivity.
Defined.

(** Opening a readable file and closing an open column always succeed. *)
Lemma holds_open_ok fs m h name f col file seg : holds fs m h ->
  parse_v2_segment_filename name = (f, col) -> fs !! f = Some file -> readable file seg ->
  Z.of_nat (length h) < 2 ^ 64 - 1 ->
  exists id m' s, open_column fs name m = (Ok (id, Z.to_nat (if col =? no_column then 0 else col)), m') /\
    holds fs m' ((f, (id, Z.to_nat (if col =? no_column then 0 else col))) :: h) /\
    m_segments m' !! id = Some s /\ blocks s = seg /\ segment_file s = f.
Proof.
  intros H Hp Hf Hrd Hlt. destruct (holds_inv _ _ _ H) as [Hinv _].
  destruct (open_column_inv fs m h name f col file seg Hinv Hp Hf Hrd Hlt) as (id & m' & s & E & Hinv' & Es & Eb).
  exists id, m', s. split_and!; [done|by eapply holds_open|done|done|].
  pose proof (mi_handles _ _ _ Hinv' f _ ltac:(left)) as Ef. cbn in Ef.
  destruct (mi_files _ _ _ Hinv' _ _ Ef) as (s' & Es' & <-). congruence.
Qed.

Lemma holds_close_ok fs m h f addr : holds fs m ((f, addr) :: h) ->
  exists m', close_column addr m = Ok m' /\ holds fs m' h.
Proof.
  intros H. destruct (holds_inv _ _ _ H) as [Hinv Hl]. cbn [length] in Hl.
  destruct (close_column_inv fs m h f addr Hinv ltac:(lia)) as (m' & E & _).
  exists m'. split; [done|]. by eapply holds_close.
Qed.
