(* ===== verification/BlockReader.v ===== *)
(** Reading an SArray: the model of [sframe/sarray_v2_encoded_block.hpp] and
    [.cpp], the reader of [sframe/sarray_file_format_v2.hpp] for columns of
    [flexible_type], [sframe/sarray_reader_buffer.hpp] and the iterator of
    [sframe/sarray_reader.hpp].

    The reader keeps one cache entry per block, each under a spin lock of its
    own.  The operations on a reader are actions: they give an effect and the
    reader afterwards, also when they throw or block.  A read is one critical
    section per block it touches, [read_block_rows]; the theorems hold for any
    interleaving of these.  The random numbers of the evictions are part of the
    state. *)
From Stdlib Require Import ZArith Lia List Bool.
From stdpp Require Import prelude gmap.
From S2P Require Import Prelude.
From S2P Require Import Archive.
From S2P Require Import DenseBitset.
From S2P Require Import FlexibleType.
From S2P Require Import TypeEncoding.
From S2P Require Import FlexibleOps.
From S2P Require Import BlockStore.

(** ** Encoded blocks *)

(** A block that is held encoded; [None]: no data *)
Record encoded_block := mk_encoded {
  eb_info : block_info;
  eb_data : option bytes
}.
Definition encoded_new : encoded_block := mk_encoded block_info_default None.
Definition encoded_init (info : block_info) (data : bytes) : encoded_block := mk_encoded info (Some data).
Definition encoded_release (b : encoded_block) : encoded_block := encoded_new.

(** A range over a block.  Its coroutine runs the streaming decoder, which stops
    in its callback whenever a request is served; [rg_pending] holds the values
    the decoder has still to pass to the callback. *)
Record encoded_block_range := mk_range {
  rg_block : encoded_block;
  coroutine_started : bool;
  rg_pending : list flexible_type
}.
Definition range_of (b : encoded_block) : encoded_block_range := mk_range b false [].
Definition range_release (r : encoded_block_range) : encoded_block_range :=
  mk_range (mk_encoded (eb_info (rg_block r)) None) (coroutine_started r) [].

(** [call_source], up to serving the request *)
Definition call_source (r : encoded_block_range) : outcome (list flexible_type) :=
  if coroutine_started r then Ok (rg_pending r) else
  match eb_data (rg_block r) with
  | None => Undef
  | Some data => omap_ok snd (of_option (typed_decode_stream_callback (eb_info (rg_block r)) data))
  end.

Definition skip (n : nat) (r : encoded_block_range) : outcome encoded_block_range :=
  if (n =? 0)%nat then Ok r else
  omap_ok (fun pending => mk_range (rg_block r) true (drop n pending)) (call_source r).

(** [fill_buffer], which is [decode_to]: the values written to the target *)
Definition decode_to (num_elem : nat) (r : encoded_block_range)
    : outcome (list flexible_type * encoded_block_range) :=
  if (num_elem =? 0)%nat then Ok ([], r) else
  omap_ok (fun pending => (take num_elem pending, mk_range (rg_block r) true (drop num_elem pending)))
    (call_source r).

Module BlockReader.

(** ** State *)

Record cache_entry := mk_entry {
  locked : bool;
  buffer_start_row : nat;
  is_encoded : bool;
  has_data : bool;
  buffer : option (list flexible_type);
  encoded_buffer : encoded_block;
  encoded_buffer_reader : encoded_block_range
}.
Definition entry_default : cache_entry :=
  mk_entry false 0 false false None encoded_new (range_of encoded_new).
Definition set_locked (b : bool) (c : cache_entry) : cache_entry :=
  mk_entry b (buffer_start_row c) (is_encoded c) (has_data c) (buffer c) (encoded_buffer c)
    (encoded_buffer_reader c).

Record reader := mk {
  m_index_info : index_file_information;
  m_num_rows : nat;
  m_block_list : list block_address;
  m_start_row : list nat;
  m_segment_list : list column_address;
  m_used_cache_entries : DenseBitset.dense_bitset;
  m_cache_size : Z;
  m_cache : list cache_entry;
  random : list nat
}.
Definition new (random : list nat) : reader :=
  mk index_default 0 [] [] [] DenseBitset.empty_bitset 0 [] random.

Definition set_cache (c : list cache_entry) (r : reader) : reader :=
  mk (m_index_info r) (m_num_rows r) (m_block_list r) (m_start_row r) (m_segment_list r)
    (m_used_cache_entries r) (m_cache_size r) c (random r).
Definition set_used (u : DenseBitset.dense_bitset) (n : Z) (r : reader) : reader :=
  mk (m_index_info r) (m_num_rows r) (m_block_list r) (m_start_row r) (m_segment_list r)
    u n (m_cache r) (random r).
Definition set_random (l : list nat) (r : reader) : reader :=
  mk (m_index_info r) (m_num_rows r) (m_block_list r) (m_start_row r) (m_segment_list r)
    (m_used_cache_entries r) (m_cache_size r) (m_cache r) l.

(** ** Actions *)

(** A value, an exception, undefined behaviour, or a spin lock that is held *)
Inductive effect (A : Type) := Value (x : A) | Raises | Undefined | Spins.
#[global] Arguments Value {A} x.
#[global] Arguments Raises {A}.
#[global] Arguments Undefined {A}.
#[global] Arguments Spins {A}.

Definition action (A : Type) : Type := reader -> effect A * reader.
Definition ret {A} (x : A) : action A := fun r => (Value x, r).
Definition bind {A B} (m : action A) (k : A -> action B) : action B :=
  fun r => match m r with
           | (Value x, r) => k x r
           | (Raises, r) => (Raises, r)
           | (Undefined, r) => (Undefined, r)
           | (Spins, r) => (Spins, r)
           end.
Definition lift {A} (o : outcome A) : action A :=
  fun r => match o with Ok x => (Value x, r) | Throws => (Raises, r) | Undef => (Undefined, r) end.
Definition lift_opt {A} (o : option A) : action A := lift (of_option o).
Definition get {A} (f : reader -> A) : action A := fun r => (Value (f r), r).
Definition modify (f : reader -> reader) : action unit := fun r => (Value tt, f r).

Declare Scope action_scope.
Delimit Scope action_scope with act.
Notation "x <- m ;; k" := (bind m (fun x => k))
  (at level 100, m at next level, right associativity) : action_scope.
Notation "m ;;; k" := (bind m (fun _ => k)) (at level 100, right associativity) : action_scope.
Open Scope action_scope.

Definition get_entry (i : nat) : action cache_entry :=
  r <- get m_cache ;; lift_opt (r !! i).
Definition set_entry (i : nat) (c : cache_entry) : action unit :=
  modify (fun r => set_cache (<[i := c]> (m_cache r)) r).

(** [cache.lock.lock()] and [cache.lock.unlock()] *)
Definition lock (i : nat) : action unit :=
  c <- get_entry i ;;
  if locked c then (fun r => (Spins, r)) else set_entry i (set_locked true c).
Definition unlock (i : nat) : action unit := c <- get_entry i ;; set_entry i (set_locked false c).

(** ** The cache *)

Definition release_cache (i : nat) : action unit :=
  c <- get_entry i ;;
  if has_data c then
    set_entry i (mk_entry (locked c) (buffer_start_row c) (is_encoded c) false None
                   (encoded_release (encoded_buffer c)) (range_release (encoded_buffer_reader c))) ;;;
    used <- get m_used_cache_entries ;;
    size <- get m_cache_size ;;
    u <- lift_opt (DenseBitset.clear_bit used i) ;;
    modify (set_used u.2 (u64 (size - 1)))
  else ret tt.

(** [fast_uniform(0, n - 1)] *)
Definition fast_uniform (n : nat) : action nat :=
  l <- get random ;;
  match l with
  | [] => ret 0%nat
  | x :: l => modify (set_random l) ;;; ret (x mod n)%nat
  end.

(** The block that the search from [b] finds *)
Definition pick (used : DenseBitset.dense_bitset) (b : nat) : option nat :=
  here ← DenseBitset.get used b;
  if here : bool then Some b else
  next ← DenseBitset.next_bit used b;
  match next with
  | Some b => Some b
  | None =>
      first ← DenseBitset.get used 0;
      if first : bool then Some 0%nat else
      next ← DenseBitset.next_bit used 0;
      Some (default 0%nat next)
  end.

Definition try_evict_something_from_cache : action unit :=
  cache <- get m_cache ;;
  b <- fast_uniform (length cache) ;;
  used <- get m_used_cache_entries ;;
  b <- lift_opt (pick used b) ;;
  c <- get_entry b ;;
  if locked c then ret tt
  else set_entry b (set_locked true c) ;;; release_cache b ;;; unlock b.

Fixpoint evict_loop (max_blocks : Z) (num_to_evict : nat) : action unit :=
  match num_to_evict with
  | O => ret tt
  | S n =>
      size <- get m_cache_size ;;
      if max_blocks <? size then try_evict_something_from_cache ;;; evict_loop max_blocks n else ret tt
  end.

Section reading.
Context `{L : Lz4} (cfg : settings) (fs : files) (m : BlockManager.block_manager).

Definition fetch_cache_from_file (i : nat) : action unit :=
  c <- get_entry i ;;
  set_entry i (mk_entry (locked c) (buffer_start_row c) (is_encoded c) (has_data c) None
                 (encoded_buffer c) (encoded_buffer_reader c)) ;;;
  block_list <- get m_block_list ;;
  block_addr <- lift_opt (block_list !! i) ;;
  b <- lift (BlockManager.read_block fs block_addr m) ;;
  match b with
  | None => lift Throws
  | Some (data, info) =>
      start_row <- get m_start_row ;;
      start <- lift_opt (start_row !! i) ;;
      let eb := encoded_init info data in
      set_entry i (mk_entry (locked c) start true true None eb (range_of eb)) ;;;
      used <- get m_used_cache_entries ;;
      present <- lift_opt (DenseBitset.get used i) ;;
      size <- get m_cache_size ;;
      u <- lift_opt (DenseBitset.set_bit used i) ;;
      let size := if present : bool then size else u64 (size + 1) in
      modify (set_used u.2 size) ;;;
      let max_blocks := SFRAME_MAX_BLOCKS_IN_CACHE cfg in
      evict_loop max_blocks (Z.to_nat (signed 32 (signed 32 size - max_blocks)))
  end.

Definition ensure_cache_decoded (i : nat) : action unit :=
  c <- get_entry i ;;
  if is_encoded c then
    data <- lift_opt (eb_data (encoded_buffer c)) ;;
    decoded <- lift_opt (typed_decode (eb_info (encoded_buffer c)) data []) ;;
    start_row <- get m_start_row ;;
    start <- lift_opt (start_row !! i) ;;
    set_entry i (mk_entry (locked c) start false (has_data c) (Some decoded.2)
                   (encoded_release (encoded_buffer c)) (range_release (encoded_buffer_reader c)))
  else ret tt.

(** [out_obj[output_idx++] = v] for each value *)
Definition write_at (out_obj : list flexible_type) (output_idx : nat) (vals : list flexible_type)
    : option (list flexible_type) :=
  if (output_idx + length vals <=? length out_obj)%nat
  then Some (take output_idx out_obj ++ vals ++ drop (output_idx + length vals) out_obj)
  else None.

(** The copying loop, from [cache.buffer] at [first - start] on *)
Definition copy_rows (buf : option (list flexible_type)) (start first last : nat)
    : option (list flexible_type) :=
  b ← buf; mapM (fun j => b !! (j - start)%nat) (seq first (last - first)).

(** The parts of one iteration of [fetch_rows_from_cache]: fetch the block if it is
    not there; move a range that lags behind on to row [first] *)
Definition load_entry (i first : nat) : action unit :=
  c <- get_entry i ;;
  (if has_data c then ret tt else fetch_cache_from_file i) ;;;
  c <- get_entry i ;;
  if (buffer_start_row c <? first)%nat && is_encoded c then
    rd <- lift (skip (first - buffer_start_row c) (encoded_buffer_reader c)) ;;
    set_entry i (mk_entry (locked c) first (is_encoded c) (has_data c) (buffer c) (encoded_buffer c) rd)
  else ret tt.

(** A sequential read: rows [first] to [last - 1] from the range, or from the
    decoded block *)
Definition sequential_read (i start first last output_idx : nat) (out_obj : list flexible_type)
    (c : cache_entry) : action (nat * list flexible_type) :=
  if is_encoded c then
    let num_elem := (last - first)%nat in
    d <- lift (decode_to num_elem (encoded_buffer_reader c)) ;;
    out <- lift_opt (write_at out_obj output_idx d.1) ;;
    set_entry i (mk_entry (locked c) last (is_encoded c) (has_data c) (buffer c) (encoded_buffer c) d.2) ;;;
    ret ((output_idx + num_elem)%nat, out)
  else
    vals <- lift_opt (copy_rows (buffer c) start first last) ;;
    out <- lift_opt (write_at out_obj output_idx vals) ;;
    ret ((output_idx + length vals)%nat, out).

(** A read that is not sequential: decode the block, and copy *)
Definition random_read (i start first last output_idx : nat) (out_obj : list flexible_type)
    : action (nat * list flexible_type) :=
  ensure_cache_decoded i ;;;
  c <- get_entry i ;;
  vals <- lift_opt (copy_rows (buffer c) start first last) ;;
  out <- lift_opt (write_at out_obj output_idx vals) ;;
  ret ((output_idx + length vals)%nat, out).

(** One iteration of [fetch_rows_from_cache]: the rows of block [i] *)
Definition read_block_rows (fetch_start fetch_end i : nat) (s : nat * list flexible_type)
    : action (nat * list flexible_type) :=
  start_row <- get m_start_row ;;
  start <- lift_opt (start_row !! i) ;;
  next <- lift_opt (start_row !! S i) ;;
  let first := Nat.max fetch_start start in
  let last := Nat.min fetch_end next in
  lock i ;;;
  load_entry i first ;;;
  c <- get_entry i ;;
  s <- (if (buffer_start_row c =? first)%nat then
          s <- sequential_read i start first last s.1 s.2 c ;;
          (if (last =? next)%nat then release_cache i else ret tt) ;;;
          ret s
        else random_read i start first last s.1 s.2) ;;
  unlock i ;;;
  ret s.

(** [std::lower_bound(m_start_row.begin(), m_start_row.end(), row)] *)
Fixpoint lower_bound (l : list nat) (row : nat) : nat :=
  match l with
  | [] => 0
  | x :: l => if (x <? row)%nat then S (lower_bound l row) else 0
  end.

(** [size_t] results: [m_block_list.size() - 1] of an empty list wraps *)
Definition block_offset_containing_row (r : reader) (row : nat) : option nat :=
  let blocknum := lower_bound (m_start_row r) row in
  if (blocknum <? length (m_block_list r))%nat then
    s ← m_start_row r !! blocknum;
    if (s =? row)%nat then Some blocknum
    else if (blocknum =? 0)%nat then None else Some (blocknum - 1)%nat
  else if (length (m_block_list r) =? 0)%nat then None else Some (length (m_block_list r) - 1)%nat.

Fixpoint read_blocks (fetch_start fetch_end : nat) (l : list nat) (s : nat * list flexible_type)
    : action (nat * list flexible_type) :=
  match l with
  | [] => ret s
  | i :: l => s <- read_block_rows fetch_start fetch_end i s ;; read_blocks fetch_start fetch_end l s
  end.

Definition fetch_rows_from_cache (fetch_start fetch_end : nat) (out_obj : list flexible_type)
    : action (list flexible_type) :=
  r <- get (fun r => r) ;;
  start_offset <- lift_opt (block_offset_containing_row r fetch_start) ;;
  end_offset <- lift_opt (block_offset_containing_row r (fetch_end - 1)) ;;
  let n := (end_offset + 1 - start_offset)%nat in
  s <- read_blocks fetch_start fetch_end (seq start_offset n) (0%nat, out_obj) ;;
  ret s.2.

(** [read_rows]; [must_cancel] is what [cppipc::must_cancel()] returns *)
Definition read_rows (must_cancel : bool) (row_start row_end : nat) (out_obj : list flexible_type)
    : action (nat * list flexible_type) :=
  num_rows <- get m_num_rows ;;
  let row_end := if (num_rows <? row_end)%nat then num_rows else row_end in
  if (row_end <=? row_start)%nat then ret (0%nat, []) else
  out <- fetch_rows_from_cache row_start row_end
          (list.resize (row_end - row_start) flex_default out_obj) ;;
  if must_cancel then lift Throws else ret (length out, out).
End reading.

(** ** Opening and closing *)

Definition size_n (n : nat) : nat := Z.to_nat (u64 (Z.of_nat n)).

(** The blocks of one column address: the loop over [j] *)
Fixpoint add_blocks (m : BlockManager.block_manager) (addr : column_address) (js : list nat)
    (row_count : nat) (starts : list nat) (addrs : list block_address)
    : outcome (nat * list nat * list block_address) :=
  match js with
  | [] => Ok (row_count, starts, addrs)
  | j :: js =>
      let blockaddr := (addr.1, addr.2, j) in
      obind (BlockManager.get_block_info blockaddr m) (fun info =>
      add_blocks m addr js (size_n (row_count + bi_num_elem info)) (starts ++ [row_count])
        (addrs ++ [blockaddr]))
  end.

(** What [open] has collected so far *)
Record opening := mk_opening {
  op_segments : list column_address;
  op_row_count : nat;
  op_starts : list nat;
  op_addrs : list block_address
}.

(** The loop over the segment files *)
Fixpoint open_segments (fs : files) (segment_files : list bytes) (s : opening) (m : BlockManager.block_manager)
    : outcome unit * opening * BlockManager.block_manager :=
  match segment_files with
  | [] => (Ok tt, s, m)
  | f :: segment_files =>
      match BlockManager.open_column fs f m with
      | (Ok columnaddr, m) =>
          let s := mk_opening (op_segments s ++ [columnaddr]) (op_row_count s) (op_starts s) (op_addrs s) in
          match obind (BlockManager.num_blocks_in_column columnaddr m) (fun nblocks =>
                add_blocks m columnaddr (seq 0 nblocks) (op_row_count s) (op_starts s) (op_addrs s)) with
          | Ok (row_count, starts, addrs) =>
              open_segments fs segment_files (mk_opening (op_segments s) row_count starts addrs) m
          | Throws => (Throws, s, m)
          | Undef => (Undef, s, m)
          end
      | (Throws, m) => (Throws, s, m)
      | (Undef, m) => (Undef, s, m)
      end
  end.

Fixpoint close_columns (l : list column_address) (m : BlockManager.block_manager)
    : outcome BlockManager.block_manager :=
  match l with
  | [] => Ok m
  | a :: l => obind (BlockManager.close_column a m) (close_columns l)
  end.

Definition close (r : reader) (m : BlockManager.block_manager) : outcome (reader * BlockManager.block_manager) :=
  omap_ok (fun m =>
    (mk (m_index_info r) (m_num_rows r) (m_block_list r) (m_start_row r) [] (m_used_cache_entries r)
       (m_cache_size r) [] (random r), m))
    (close_columns (m_segment_list r) m).

(** [m_used_cache_entries.resize(n); m_used_cache_entries.clear()] *)
Definition used_entries (n : nat) (u : DenseBitset.dense_bitset) : option DenseBitset.dense_bitset :=
  match DenseBitset.resize n u with Some u => Some (DenseBitset.clear u) | None => None end.

Definition open (fs : files) (index : index_file_information) (r : reader) (m : BlockManager.block_manager)
    : outcome unit * reader * BlockManager.block_manager :=
  match close r m with
  | Throws => (Throws, r, m)
  | Undef => (Undef, r, m)
  | Ok (r, m) =>
      match open_segments fs (segment_files index) (mk_opening [] 0 [] []) m with
      | (Ok _, s, m) =>
          let num_rows := size_n (sum_list (map Z.to_nat (segment_sizes index))) in
          match used_entries (length (op_addrs s)) (m_used_cache_entries r) with
          | None => (Undef, r, m)
          | Some u =>
              (if (num_rows =? op_row_count s)%nat then Ok tt else Throws,
               mk index num_rows (op_addrs s) (op_starts s ++ [num_rows]) (op_segments s) u (m_cache_size r)
                 (replicate (length (op_addrs s)) entry_default) (random r), m)
          end
      | (o, s, m) =>
          (o, mk index 0 (op_addrs s) (op_starts s) (op_segments s) (m_used_cache_entries r) (m_cache_size r)
                [] (random r), m)
      end
  end.

Definition num_segments (r : reader) : nat := nsegments (m_index_info r).
Definition segment_size (r : reader) (segmentid : nat) : outcome Z :=
  of_option (segment_sizes (m_index_info r) !! segmentid).
End BlockReader.

(** ** The reader buffer *)

(** What the buffer needs from its source: the number of rows, and reads that may
    change the source *)
Class RowSource (S : Type) := {
  source_size : S -> nat;
  source_read : nat -> nat -> list flexible_type -> S -> option (list flexible_type * S)
}.

Module ReaderBuffer.

(** Subtraction of [size_t]s *)
Definition size_sub (a b : nat) : nat := Z.to_nat (u64 (Z.of_nat a - Z.of_nat b)).

Section buffer.
Context {Src : Type} `{RowSource Src}.

Record sarray_reader_buffer := mk {
  m_buffer : list flexible_type;
  m_reader : Src;
  m_buffer_pos : nat;
  m_original_row_start : nat;
  m_row_start : nat;
  m_row_end : nat;
  m_buffer_size : nat;
  m_iter : nat
}.

Definition init (reader : Src) (row_start row_end internal_buffer_size : nat) : sarray_reader_buffer :=
  mk [] reader 0 row_start row_start (Nat.min row_end (source_size reader)) internal_buffer_size row_start.

Definition refill (b : sarray_reader_buffer) : option sarray_reader_buffer :=
  let size_of_refill := Nat.min (size_sub (m_row_end b) (m_row_start b)) (m_buffer_size b) in
  match source_read (m_row_start b) (m_row_start b + size_of_refill) (m_buffer b) (m_reader b) with
  | None => None
  | Some (buf, reader) =>
      Some (mk buf reader (m_buffer_pos b) (m_original_row_start b) (m_row_start b + size_of_refill)
              (m_row_end b) (m_buffer_size b) (m_iter b))
  end.

Definition has_next (b : sarray_reader_buffer) : bool := (m_iter b <? m_row_end b)%nat.

(** [next]; [None] is a failed read or an access past the end of the buffer *)
Definition next (b : sarray_reader_buffer) : option (flexible_type * sarray_reader_buffer) :=
  match (if (m_buffer_pos b =? length (m_buffer b))%nat then
           match refill b with
           | None => None
           | Some b => Some (mk (m_buffer b) (m_reader b) 0 (m_original_row_start b) (m_row_start b)
                               (m_row_end b) (m_buffer_size b) (m_iter b))
           end
         else Some b) with
  | None => None
  | Some b =>
      match m_buffer b !! m_buffer_pos b with
      | None => None
      | Some v =>
          Some (v, mk (m_buffer b) (m_reader b) (m_buffer_pos b + 1) (m_original_row_start b)
                     (m_row_start b) (m_row_end b) (m_buffer_size b) (m_iter b + 1))
      end
  end.

Definition size (b : sarray_reader_buffer) : nat := size_sub (m_row_end b) (m_original_row_start b).

Definition clear (b : sarray_reader_buffer) : sarray_reader_buffer :=
  mk [] (m_reader b) 0 (m_original_row_start b) (m_original_row_start b) (m_row_end b) (m_buffer_size b)
    (m_original_row_start b).

(** [while (has_next()) f(next())]: the values, with a fuel *)
Fixpoint drain (fuel : nat) (b : sarray_reader_buffer) : option (list flexible_type * sarray_reader_buffer) :=
  if has_next b then
    match fuel with
    | O => None
    | S fuel =>
        match next b with
        | None => None
        | Some (v, b) =>
            match drain fuel b with
            | None => None
            | Some (l, b) => Some (v :: l, b)
            end
        end
    end
  else Some ([], b).

(** [sarray_iterator]: the element it points to, its position and the number of
    elements *)
Record sarray_iterator := mk_iterator {
  it_reader : sarray_reader_buffer;
  current_element : flexible_type;
  current_element_counter : nat;
  num_elements : nat
}.
Definition it_begin (b : sarray_reader_buffer) : option sarray_iterator :=
  let num_elements := size b in
  if (0 <? num_elements)%nat then
    match next b with None => None | Some (v, b) => Some (mk_iterator b v 0 num_elements) end
  else Some (mk_iterator b flex_default 0 num_elements).
Definition it_incr (i : sarray_iterator) : option sarray_iterator :=
  if has_next (it_reader i) then
    match next (it_reader i) with
    | None => None
    | Some (v, b) => Some (mk_iterator b v (current_element_counter i + 1) (num_elements i))
    end
  else Some (mk_iterator (it_reader i) (current_element i) (num_elements i) (num_elements i)).

(** [while (iter != end) { f(deref iter); ++iter; }] *)
Fixpoint it_loop (fuel : nat) (i : sarray_iterator) : option (list flexible_type) :=
  if (current_element_counter i =? num_elements i)%nat then Some [] else
  match fuel with
  | O => None
  | S fuel =>
      match it_incr i with
      | None => None
      | Some j => match it_loop fuel j with None => None | Some l => Some (current_element i :: l) end
      end
  end.
End buffer.
End ReaderBuffer.
