(* ===== verification/BlockStoreCorrect.v ===== *)
(** The block writer, the group writer and the block manager are correct: file
    names, the layout of a segment file, what the writers leave in it, and the
    sharing of segments by the manager. *)
From Stdlib Require Import ZArith Lia List Bool.
From Stdlib Require Import Floats.SpecFloat.
From stdpp Require Import prelude gmap strings pretty.
From coqutil Require Import Byte Word.LittleEndianList.
From S2P Require Import Prelude.
From S2P Require Import Archive.
From S2P Require Import Serialization.
From S2P Require Import FlexibleType.
From S2P Require Import TypeEncoding.
From S2P Require Import FlexibleOps.
From S2P Require Import BlockStore.

(** ** File names *)

Definition is_digit (c : byte) : Prop := digit_of c <> None.

Lemma pretty_char_digit (x : N) : (x < 10)%N ->
  digit_of (ascii_byte (pretty_N_char x)) = Some (Z.of_N x).
Proof.
  intros H. assert (x = 0 \/ x = 1 \/ x = 2 \/ x = 3 \/ x = 4 \/ x = 5 \/ x = 6 \/ x = 7 \/ x = 8 \/ x = 9)%N
    as Hx by lia. repeat destruct Hx as [->|Hx]; [..|subst]; reflexivity.
Qed.

Lemma scan_pretty_go (x : N) s :
  scan_digits 0 (bytes_of_string (pretty_N_go x s)) = scan_digits (Z.of_N x) (bytes_of_string s).
Proof.
  revert s. induction (N.lt_wf_0 x) as [x _ IH]; intros s.
  destruct (decide (x = 0)%N) as [->|Hx]; [by rewrite pretty_N_go_0|].
  rewrite pretty_N_go_step, IH by (lia || (apply N.div_lt; lia)).
  cbn [bytes_of_string String.list_ascii_of_string map scan_digits].
  rewrite pretty_char_digit by (apply N.mod_lt; lia). f_equal.
  rewrite N2Z.inj_div, N2Z.inj_mod. cbn. dlia.
Qed.

Lemma digits_pretty_go (x : N) s : Forall is_digit (bytes_of_string s) ->
  Forall is_digit (bytes_of_string (pretty_N_go x s)).
Proof.
  revert s. induction (N.lt_wf_0 x) as [x _ IH]; intros s Hs.
  destruct (decide (x = 0)%N) as [->|Hx]; [by rewrite pretty_N_go_0|].
  rewrite pretty_N_go_step by lia. apply IH; [apply N.div_lt; lia|]. constructor; [|done].
  unfold is_digit. by rewrite pretty_char_digit by (apply N.mod_lt; lia).
Qed.

Lemma scan_to_string n : scan_digits 0 (to_string n) = (Z.of_nat n, []).
Proof.
  unfold to_string, pretty, pretty_nat, pretty, pretty_N. destruct (decide _) as [E|E].
  - by replace n with 0%nat by lia.
  - rewrite scan_pretty_go. cbn. by rewrite nat_N_Z.
Qed.

Lemma digits_to_string n : Forall is_digit (to_string n).
Proof.
  unfold to_string, pretty, pretty_nat, pretty, pretty_N. destruct (decide _) as [E|E].
  - repeat constructor. discriminate.
  - by apply digits_pretty_go.
Qed.

Lemma to_string_nil n : to_string n <> [].
Proof.
  intros E. pose proof (scan_to_string n) as H. rewrite E in H. injection H as H.
  replace n with 0%nat in E by lia. discriminate E.
Qed.

Lemma scan_to_string_4 n : scan_digits 0 (to_string_4 n) = (Z.of_nat n, []).
Proof.
  unfold to_string_4. induction (4 - length (to_string n))%nat as [|k IH]; [apply scan_to_string|exact IH].
Qed.

Lemma segment_name_inj f i j :
  GroupWriter.segment_name f i = GroupWriter.segment_name f j -> i = j.
Proof.
  unfold GroupWriter.segment_name. intros E. apply app_inv_head in E. injection E as E.
  apply (f_equal (scan_digits 0)) in E. rewrite !scan_to_string_4 in E. injection E as E. lia.
Qed.

Lemma digit_not_space c : is_digit c -> is_space c = false /\ c <> c_colon.
Proof.
  unfold is_digit, is_space, digit_of. intros H. split; [|by intros ->].
  destruct (_ && _) eqn:E in H; [|done]. apply andb_prop in E as [E1 E2].
  apply Z.leb_le in E1, E2. apply orb_false_iff. split; [|apply andb_false_iff; right]; zcases; lia.
Qed.

Lemma digit_not_sign c : is_digit c -> c <> Byte.x2d /\ c <> Byte.x2b.
Proof. intros H. by split; intros ->. Qed.

(** A digit string is a number to [strtol]. *)
Lemma strtol_to_string n : Z.of_nat n < 2 ^ 63 -> strtol (to_string n) = (Z.of_nat n, false, []).
Proof.
  intros Hn. pose proof (digits_to_string n) as Hd. pose proof (scan_to_string n) as Hs.
  pose proof (to_string_nil n) as Hne. destruct (to_string n) as [|c l]; [done|].
  inversion_clear Hd as [|? ? Hc _]. destruct (digit_not_space c Hc) as [Hsp _].
  destruct (digit_not_sign c Hc) as [H1 H2]. unfold strtol. cbn [skip_space]. rewrite Hsp.
  assert (forall t, match c with Byte.x2d => (true, t) | Byte.x2b => (false, t) | _ => (false, c :: l) end
                    = (false, c :: l)) as Em by (intros t; by destruct c).
  rewrite (Em l). clear Em. unfold is_digit in Hc. destruct (digit_of c) as [z|] eqn:Ez; [|done].
  rewrite Hs. zcases; try lia. done.
Qed.

Lemma skip_space_front s : (forall c t, s = c :: t -> is_space c = false) -> skip_space s = s.
Proof. destruct s as [|c t]; intros H; [done|]. cbn. by rewrite (H c t eq_refl). Qed.

Lemma split_colon_digits s t : Forall is_digit t -> split_last_colon (s ++ c_colon :: t) = Some (s, t).
Proof.
  intros Ht. assert (split_last_colon t = None) as E.
  { induction Ht as [|c t Hc _ IH]; [done|]. cbn. rewrite IH, decide_False; [done|].
    by apply digit_not_space. }
  induction s as [|c s IH]; cbn; [|by rewrite IH]. by rewrite E, decide_True.
Qed.

(** A name that [trim] leaves alone at its front *)
Definition plain_name (f : bytes) : Prop := forall c t, f = c :: t -> is_space c = false.

Lemma trim_column_name f col : plain_name f -> trim (column_name_of f col) = column_name_of f col.
Proof.
  intros Hf. unfold trim. rewrite (skip_space_front (column_name_of f col)).
  2: { intros c t E. destruct f as [|c' f]; injection E as <- _; [done|]. by eapply Hf. }
  rewrite skip_space_front; [apply rev_involutive|]. intros c t E.
  pose proof (Forall_rev (digits_to_string col)) as Hd. pose proof (to_string_nil col) as Hne.
  unfold column_name_of in E. rewrite rev_app_distr in E. cbn [rev] in E.
  destruct (rev (to_string col)) as [|c' l] eqn:El.
  - apply (f_equal (@rev _)) in El. by rewrite rev_involutive in El.
  - injection E as -> _. inversion_clear Hd as [|? ? Hc _]. by apply digit_not_space.
Qed.

(** File names of columns read back: [parse_v2_segment_filename] recovers the
    segment file and the column number from the names the writer gives out. *)
Theorem parse_column_name f col : plain_name f -> Z.of_nat col < 2 ^ 63 ->
  parse_v2_segment_filename (column_name_of f col) = (f, Z.of_nat col).
Proof.
  intros Hf Hc. unfold parse_v2_segment_filename. rewrite trim_column_name by done.
  unfold column_name_of. rewrite split_colon_digits by apply digits_to_string.
  rewrite strtol_to_string by done. cbn. rewrite wrap_small; [done|]. split; lia.
Qed.

(** ** The footer of a segment file *)

Definition info_ok (b : block_info) : Prop :=
  is_u 64 (bi_offset b) /\ is_u 64 (bi_length b) /\ is_u 64 (bi_block_size b) /\
  fits_size (bi_num_elem b) /\ is_u 64 (bi_flags b) /\ is_u 16 (bi_content_type b).

Lemma drop_le_split n k t r : drop (n + k) (le_split n t ++ r) = drop k r.
Proof. rewrite <- drop_drop. by rewrite drop_app_length' by (by rewrite length_le_split). Qed.
Lemma take_split_word n t r : take n (le_split n t ++ r) = le_split n t.
Proof. by rewrite take_app_length' by (by rewrite length_le_split). Qed.

Section footer.
Context `{P : Platform}.

Lemma length_block_info_bytes b : length (BlockWriter.block_info_bytes b) = 48%nat.
Proof.
  unfold BlockWriter.block_info_bytes. rewrite !length_app, !length_le_split, length_struct_padding. done.
Qed.

Lemma block_info_of_bytes_spec b : info_ok b ->
  BlockManager.block_info_of_bytes (BlockWriter.block_info_bytes b) = b.
Proof.
  intros (H1 & H2 & H3 & H4 & H5 & H6). unfold BlockManager.block_info_of_bytes, BlockWriter.block_info_bytes.
  change (8 * 0)%nat with 0%nat. change (8 * 1)%nat with (8 + 0)%nat.
  change (8 * 2)%nat with (8 + (8 + 0))%nat. change (8 * 3)%nat with (8 + (8 + (8 + 0)))%nat.
  change (8 * 4)%nat with (8 + (8 + (8 + (8 + 0))))%nat.
  change 40%nat with (8 + (8 + (8 + (8 + (8 + 0)))))%nat.
  rewrite !drop_le_split, !drop_0, !take_split_word.
  assert (is_u (8 * Z.of_nat 8) (Z.of_nat (bi_num_elem b))) by (split; [lia|exact H4]).
  rewrite !le_combine_split_small by done. rewrite Nat2Z.id. by destruct b.
Qed.

Lemma block_infos_of_bytes_spec l : Forall info_ok l ->
  BlockManager.block_infos_of_bytes (length l) (concat (map BlockWriter.block_info_bytes l)) = l.
Proof.
  induction 1 as [|b l Hb _ IH]; [done|]. cbn [length map concat BlockManager.block_infos_of_bytes].
  rewrite take_app_length', drop_app_length', IH, block_info_of_bytes_spec; auto using length_block_info_bytes.
Qed.

Lemma length_infos_bytes l : length (concat (map BlockWriter.block_info_bytes l)) = (48 * length l)%nat.
Proof.
  induction l as [|b l IH]; [done|]. cbn [map concat length]. rewrite length_app, length_block_info_bytes, IH.
  lia.
Qed.

(** The metadata of a segment that fits the format *)
Definition footer_ok (seg : list (list block_info)) : Prop :=
  fits_size (length seg) /\ Forall (fun column => fits_size (length column) /\ Forall info_ok column) seg.

Lemma blocks_codec seg : footer_ok seg ->
  exists bs, emits (BlockWriter.blocks_save seg) bs /\ parses BlockManager.blocks_load bs seg.
Proof.
  intros [Hn Hl]. apply codec_vector; [done|]. eapply Forall_impl; [exact Hl|]. cbn. intros column [Hc Hi].
  eexists; split; [apply emits_seq; [apply emits_size|apply emits_write]|].
  eapply parses_bind; [by apply parses_size|].
  eapply parses_bind_nil; [apply parses_read_n, length_infos_bytes|].
  rewrite block_infos_of_bytes_spec by done. apply parses_ret.
Qed.

Lemma blocks_emits seg : exists bs, emits (BlockWriter.blocks_save seg) bs.
Proof.
  eexists. apply emits_seq; [apply emits_size|].
  apply emits_for. intros column _. apply emits_seq; [apply emits_size|apply emits_write].
Qed.

(** What [close_segment] appends to the blocks of a file, [init_segment] reads
    back, whatever the blocks are. *)
Lemma footer_roundtrip seg contents : footer_ok seg -> Z.of_nat (length contents) < 2 ^ 63 ->
  exists bs o, BlockWriter.blocks_save seg oarchive_new = Some o /\ oa_data o = bs /\ ooff o = length bs /\
    (Z.of_nat (length bs) < 2 ^ 63 -> forall s, BlockManager.inited s = false ->
       exists size, BlockManager.init_segment (contents ++ bs ++ le_split 8 (Z.of_nat (length bs))) s =
         Ok (BlockManager.mk_segment (BlockManager.segment_file s) size true seg
               (BlockManager.reference_count s))).
Proof.
  intros Hok Hc. destruct (blocks_codec seg Hok) as (bs & He & Hp).
  destruct (He _ oarchive_new_wf) as (o & E & Hw & Hd & Hs). cbn in Hd. exists bs, o.
  assert (ooff o = length bs) as Hoff.
  { rewrite <- Hd. symmetry. apply oa_data_length; [done|]. unfold is_stream in Hs. cbn in Hs.
    by destruct (out o). }
  split_and!; [done|done|done|]. intros Hb s Hi. eexists. unfold BlockManager.init_segment. rewrite Hi.
  rewrite !length_app, length_le_split. set (k := length bs) in *. set (n := length contents) in *.
  destruct (Z.ltb_spec (Z.of_nat (n + (k + 8))) 8); [lia|].
  replace (Z.to_nat (Z.of_nat (n + (k + 8)) - 8)) with (n + k)%nat by lia.
  assert (drop (n + k) (contents ++ bs ++ le_split 8 (Z.of_nat k)) = le_split 8 (Z.of_nat k)) as ->.
  { rewrite <- drop_drop. rewrite drop_app_length' by done. by rewrite drop_app_length' by done. }
  rewrite le_combine_split_small by (split; cbn; lia).
  destruct (Z.ltb_spec (Z.of_nat (n + (k + 8))) (Z.of_nat k + 8)); [lia|].
  replace (Z.to_nat (Z.of_nat (n + (k + 8)) - Z.of_nat k - 8)) with n by lia.
  rewrite drop_app_length' by done.
  by rewrite (Hp (iarchive_buf (bs ++ _)) _ (Nat.le_0_l _) eq_refl).
Qed.
End footer.

(** ** Blocks in a segment file *)

(** Everything the decoders look at in the metadata *)
Definition same_decoding (a b : block_info) : Prop :=
  bi_num_elem a = bi_num_elem b /\
  Z.land (bi_flags a) IS_FLEXIBLE_TYPE = Z.land (bi_flags b) IS_FLEXIBLE_TYPE /\
  Z.land (bi_flags a) MULTIPLE_TYPE_BLOCK = Z.land (bi_flags b) MULTIPLE_TYPE_BLOCK.

Lemma same_decoding_typed a b raw ret : same_decoding a b ->
  typed_decode a raw ret = typed_decode b raw ret /\
  typed_decode_stream_callback a raw = typed_decode_stream_callback b raw.
Proof.
  intros (Hn & Hf & Hm). unfold typed_decode, typed_decode_stream_callback, decode_block, stream_block.
  by rewrite Hn, Hf, Hm.
Qed.

(** The file holds this block: its metadata is sound and leads both decoders to
    the values *)
Definition holds_block `{Lz4} (contents : bytes) (info : block_info) (data : list flexible_type) : Prop :=
  data <> [] /\ bi_num_elem info = length data /\ info_ok info /\
  exists raw, BlockManager.load_block contents info = Some raw /\
    forall ret, typed_decode info raw ret = Some (true, data) /\
                typed_decode_stream_callback info raw = Some (true, stream_expected data).

(** LZ4 accepts the size of the block. *)
Definition lz4_accepts (info : block_info) : Prop := bi_block_size info <= LZ4_MAX_INPUT_SIZE.
(** The counters of the decoders, of 31 bits the smallest, can count the block. *)
Definition countable (info : block_info) : Prop := Z.of_nat (bi_num_elem info) < 2 ^ 31.
Definition small_block (info : block_info) : Prop := lz4_accepts info /\ countable info.

(** The blocks of a column in a file, when the file is smaller than 2^63 bytes,
    LZ4 accepts every block and the decoders can count it *)
Definition stored `{Lz4} (contents : bytes) (column : list block_info) (chunks : list (list flexible_type))
    : Prop :=
  length column = length chunks /\
  (Z.of_nat (length contents) < 2 ^ 63 -> Forall small_block column ->
   Forall2 (holds_block contents) column chunks).

Section blocks.
Context `{L : Lz4, LL : !Lz4Laws L, P : Platform}.

Lemma load_block_app contents more info raw :
  BlockManager.load_block contents info = Some raw ->
  BlockManager.load_block (contents ++ more) info = Some raw.
Proof.
  unfold BlockManager.load_block. rewrite length_app. intros E.
  destruct (Nat.leb_spec (Z.to_nat (bi_offset info) + Z.to_nat (bi_length info)) (length contents)); [|done].
  destruct (Nat.leb_spec (Z.to_nat (bi_offset info) + Z.to_nat (bi_length info))
              (length contents + length more)); [|lia].
  rewrite drop_app_le, take_app_le; [exact E|..]; rewrite ?length_drop; lia.
Qed.

Lemma holds_block_app contents more info data :
  holds_block contents info data -> holds_block (contents ++ more) info data.
Proof.
  intros (H1 & H2 & H3 & raw & Hr & H). split_and!; try done. exists raw. auto using load_block_app.
Qed.

Lemma stored_app contents more column chunks :
  stored contents column chunks -> stored (contents ++ more) column chunks.
Proof.
  intros [Hl H]. split; [done|]. rewrite length_app. intros Hc Hs.
  eapply Forall2_impl; [apply H; [lia|done]|]. intros. by apply holds_block_app.
Qed.

Lemma stored_snoc contents column chunks info data :
  stored contents column chunks ->
  (Z.of_nat (length contents) < 2 ^ 63 -> small_block info -> holds_block contents info data) ->
  stored contents (column ++ [info]) (chunks ++ [data]).
Proof.
  intros [Hl H] Hi. split; [by rewrite !length_app, Hl|]. intros Hc [Hs Hs']%Forall_app.
  apply Forall_inv in Hs'. apply Forall2_app; [by apply H|]. constructor; [by apply Hi|constructor].
Qed.

(** The fields that [typed_encode] leaves alone *)
Lemma typed_encode_fields data block o info o' : typed_encode data block o = Some (info, o') ->
  bi_content_type info = bi_content_type block /\
  exists f, (f = 0 \/ f = MULTIPLE_TYPE_BLOCK) /\
    bi_flags info = Z.lor (Z.lor (bi_flags block) IS_FLEXIBLE_TYPE) f.
Proof.
  unfold typed_encode. destruct (encode_block data) as [[m w]|]; [|done].
  destruct (w o) as [o1|]; [|done]. intros [= <- <-]. split; [by destruct m|].
  destruct m; [exists MULTIPLE_TYPE_BLOCK|exists 0]; (split; [by auto|]); [done|].
  by rewrite Z.lor_0_r.
Qed.

(** What [write_block] stores for a buffer that is the encoding of [block] *)
Lemma compress_block_spec data block buf info :
  BlockWriter.compress_block data block = (buf, info) -> bi_block_size block = Z.of_nat (length data) ->
  same_decoding info block /\ bi_length info = Z.of_nat (length buf) /\
  bi_block_size info = bi_block_size block /\ bi_content_type info = bi_content_type block /\
  (bi_flags info = Z.lor (bi_flags block) 1 \/ bi_flags info = Z.land (bi_flags block) (2 ^ 64 - 2)) /\
  (small_block info -> forall pre post o, o = Z.of_nat (length pre) ->
     BlockManager.load_block (pre ++ buf ++ post) (BlockWriter.set_offset o info) = Some data).
Proof.
  intros E Hb. unfold BlockWriter.compress_block in E. unfold small_block, lz4_accepts.
  destruct (f32_lt _ _); injection E as <- <-; cbn [bi_length bi_block_size bi_content_type bi_flags].
  - split_and!; try done.
    + split_and!; [done|..]; cbn [bi_flags]; rewrite Z.land_lor_distr_l; apply Z.lor_0_r.
    + by left.
    + intros [Hs _] pre post o ->. unfold BlockManager.load_block. cbn [bi_offset bi_length BlockWriter.set_offset].
      rewrite !Nat2Z.id, !length_app. destruct (Nat.leb_spec (length pre + length (LZ4_compress data))
        (length pre + (length (LZ4_compress data) + length post))); [|lia].
      rewrite drop_app_length, take_app_length. cbn [bi_flags bi_block_size BlockWriter.set_offset].
      replace (Z.land (Z.lor (bi_flags block) LZ4_COMPRESSION) LZ4_COMPRESSION) with 1.
      2: { rewrite Z.lor_comm, Z.land_comm. unfold LZ4_COMPRESSION. apply Z.bits_inj'. intros i Hi.
           rewrite Z.land_spec, Z.lor_spec. by destruct (Z.testbit 1 i). }
      rewrite Hb, Nat2Z.id, lz4_roundtrip by lia. cbn. by rewrite resize_all.
  - split_and!; try done.
    + split_and!; [done|..]; cbn [bi_flags]; rewrite <- Z.land_assoc; done.
    + by right.
    + intros Hs pre post o ->. unfold BlockManager.load_block. cbn [bi_offset bi_length BlockWriter.set_offset].
      rewrite Hb, !Nat2Z.id, !length_app. destruct (Nat.leb_spec (length pre + length data)
        (length pre + (length data + length post))); [|lia].
      rewrite drop_app_length, take_app_length. cbn [bi_flags BlockWriter.set_offset]. by rewrite <- Z.land_assoc, Z.land_0_r.
Qed.

Lemma flags_range info f : f = 0 \/ f = MULTIPLE_TYPE_BLOCK ->
  bi_flags info = Z.lor (Z.lor (Z.lor 0 IS_FLEXIBLE_TYPE) f) 1 \/
  bi_flags info = Z.land (Z.lor (Z.lor 0 IS_FLEXIBLE_TYPE) f) (2 ^ 64 - 2) -> is_u 64 (bi_flags info).
Proof. intros [-> | ->] [-> | ->]; done. Qed.

Lemma padding_spec n : exists q, (n + BlockWriter.padding_of n = 4096 * q)%nat /\
  (BlockWriter.padding_of n < 4096)%nat.
Proof.
  unfold BlockWriter.padding_of. exists ((n + 4095) / 4096)%nat.
  pose proof (Nat.div_mod_eq (n + 4095) 4096). pose proof (Nat.mod_upper_bound (n + 4095) 4096). lia.
Qed.

(** One typed block through the encoder and the compressor *)
Lemma write_typed_spec data : block_ok data -> data <> [] ->
  exists info0 o buf info, typed_encode data block_info_default (oarchive_vec []) = Some (info0, o) /\
    BlockWriter.compress_block (oa_data o) info0 = (buf, info) /\ bi_num_elem info = length data /\
    forall pre post, Z.of_nat (length (pre ++ buf ++ post)) < 2 ^ 63 -> small_block info ->
      holds_block (pre ++ buf ++ post) (BlockWriter.set_offset (u64 (Z.of_nat (length pre))) info) data.
Proof.
  intros Hok Hne. destruct (typed_encode_spec data block_info_default (oarchive_vec []) Hok)
    as (info0 & o & bs & E & Hw & Hd & Hn & Hbs & Hdec); [split; cbn; lia|done|].
  cbn in Hd. destruct (BlockWriter.compress_block (oa_data o) info0) as [buf info] eqn:Ec.
  assert (bi_block_size info0 = Z.of_nat (length (oa_data o))) as Hsz.
  { rewrite Hbs. f_equal. symmetry. apply oa_data_length; [done|].
    unfold typed_encode in E. destruct (encode_block data) as [[mu w]|] eqn:Eb; [|done].
    destruct (block_codec data Hok) as (m' & w' & bs' & Eb' & He & _). rewrite Eb in Eb'. injection Eb' as <- <-.
    destruct (He (oarchive_vec []) ltac:(split; cbn; lia)) as (o' & Ew & _ & _ & Hst). rewrite Ew in E.
    injection E as _ <-. unfold is_stream in Hst. cbn in Hst. by destruct (out o'). }
  destruct (compress_block_spec _ _ _ _ Ec Hsz) as (Hsame & Hlen & Hbsz & Hct & Hfl & Hload).
  destruct (typed_encode_fields _ _ _ _ _ E) as (Hct0 & f & Hf & Hfl0).
  pose proof (proj1 Hsame) as Hne0. exists info0, o, buf, info. split_and!; [done|done|congruence|].
  intros pre post Hlt Hsm. rewrite !length_app in Hlt.
  assert (u64 (Z.of_nat (length pre)) = Z.of_nat (length pre)) as -> by (apply wrap_small; split; lia).
  split_and!; [done|cbn; congruence| |].
  - destruct Hsm as [Hsm _]. unfold lz4_accepts, LZ4_MAX_INPUT_SIZE in Hsm. rewrite Hbsz in *.
    split_and!; cbn [bi_offset bi_length bi_block_size bi_num_elem bi_flags bi_content_type BlockWriter.set_offset].
    + split; lia.
    + rewrite Hlen. split; lia.
    + rewrite Hbsz, Hsz in *. split; lia.
    + rewrite Hne0, Hn. apply Hok.
    + eapply flags_range; [exact Hf|]. rewrite Hfl0 in Hfl. exact Hfl.
    + by rewrite Hct, Hct0.
  - exists (oa_data o). split; [by apply Hload|]. intros ret.
    destruct (same_decoding_typed (BlockWriter.set_offset (Z.of_nat (length pre)) info) info0 (oa_data o) ret)
      as [-> ->]; [exact Hsame|].
    rewrite Hd. destruct (Hdec [] ret) as [H1 H2]. rewrite app_nil_r in H1, H2.
    assert (count31 data) as Hc by (destruct Hsm as [_ Hc]; unfold countable, count31 in *; congruence).
    split; [apply H1; unfold count32, count31 in *; lia|by apply H2].
Qed.
End blocks.

(** ** A compressor to evaluate with *)

(** Leaves out the zeros at the end *)
Fixpoint strip_zeros (b : bytes) : bytes :=
  match b with
  | [] => []
  | c :: b =>
      match strip_zeros b with
      | [] => if decide (c = Byte.x00) then [] else [c]
      | s => c :: s
      end
  end.
Lemma strip_zeros_spec b : list.resize (length b) Byte.x00 (strip_zeros b) = b.
Proof.
  induction b as [|c b IH]; [done|]. cbn [strip_zeros length]. destruct (strip_zeros b) as [|c' s] eqn:E.
  - destruct (decide (c = Byte.x00)) as [->|Hc].
    + rewrite resize_nil. cbn. f_equal. by rewrite <- resize_nil.
    + cbn. by f_equal.
  - cbn. by f_equal.
Qed.
Definition sample_lz4 : Lz4 :=
  {| LZ4_compress := strip_zeros; LZ4_decompress_safe b n := list.resize n Byte.x00 b |}.
Lemma sample_lz4_laws : Lz4Laws sample_lz4.
Proof. constructor. intros b _. apply strip_zeros_spec. Qed.
Lemma length_sample_padding (b : block_info) : length (replicate 6 Byte.xcc) = 6%nat.
Proof. done. Qed.
Definition sample_platform : Platform :=
  {| struct_padding _ := replicate 6 Byte.xcc; length_struct_padding := length_sample_padding;
     bad_conversion _ := 0 |}.
