(* ===== verification/BlockGroupCorrect.v ===== *)
(** The group writer is correct: after any writes and a [close], every segment
    file holds, column by column, exactly the cells written to it.

    The proofs look at a writer through views, one per quantity and position (the
    file of a segment, the blocks, the size and the buffer of a cell); each
    operation changes the views at one position and keeps the others. *)
From Stdlib Require Import ZArith Lia List Bool.
From stdpp Require Import prelude gmap.
From coqutil Require Import Byte Word.LittleEndianList.
From S2P Require Import Prelude.
From S2P Require Import Archive.
From S2P Require Import Serialization.
From S2P Require Import FlexibleType.
From S2P Require Import TypeEncoding.
From S2P Require Import FlexibleOps.
From S2P Require Import BlockStore.
From S2P Require Import BlockStoreCorrect.

(** ** Views *)

Definition wfile (w : BlockWriter.block_writer) (s : nat) : option (option (bytes * bytes)) :=
  BlockWriter.m_output_files w !! s.
Definition wwritten (w : BlockWriter.block_writer) (s : nat) : option Z :=
  BlockWriter.m_output_bytes_written w !! s.
Definition wcolumn (w : BlockWriter.block_writer) (s c : nat) : option (list block_info) :=
  BlockWriter.m_blocks w !! s ≫= fun seg => seg !! c.
Definition wsize (w : BlockWriter.block_writer) (s c : nat) : option Z :=
  g_columns (BlockWriter.m_index_info w) !! c ≫= fun col => segment_sizes col !! s.
Definition column_static (c : index_file_information) : bytes * Z * nat * list bytes :=
  (index_file c, version c, nsegments c, segment_files c).
Definition wstatic (w : BlockWriter.block_writer) :=
  let i := BlockWriter.m_index_info w in
  (group_index_file i, g_version i, g_nsegments i, g_segment_files i, map column_static (g_columns i),
   map length (BlockWriter.m_blocks w), map (fun c => length (segment_sizes c)) (g_columns i)).

(** The views outside one cell are the same *)
Definition wframe (s c : nat) (w w' : BlockWriter.block_writer) : Prop :=
  (forall s', s' <> s -> wfile w' s' = wfile w s' /\ wwritten w' s' = wwritten w s' /\
     BlockWriter.m_blocks w' !! s' = BlockWriter.m_blocks w !! s') /\
  (forall s' c', s' <> s \/ c' <> c -> wcolumn w' s' c' = wcolumn w s' c' /\ wsize w' s' c' = wsize w s' c') /\
  wstatic w' = wstatic w.

Lemma alter_lookup_same {A} (f : A -> A) (l : list A) i x : l !! i = Some x -> alter f i l !! i = Some (f x).
Proof. intros E. by rewrite list_lookup_alter, decide_True, E. Qed.

Lemma map_insert_same {A B} (f : A -> B) (l : list A) i x y :
  l !! i = Some x -> f y = f x -> map f (<[i := y]> l) = map f l.
Proof.
  intros E Hf. change (f <$> <[i := y]> l = f <$> l). rewrite list_fmap_insert, Hf. apply list_insert_id.
  by rewrite list_lookup_fmap, E.
Qed.

Section writer.
Context `{L : Lz4, LL : !Lz4Laws L, P : Platform}.

Lemma write_block_views s c data block w name contents written column size :
  wfile w s = Some (Some (name, contents)) -> wwritten w s = Some written ->
  wcolumn w s c = Some column -> wsize w s c = Some size ->
  let '(buf, info) := BlockWriter.compress_block data block in
  exists w', BlockWriter.write_block s c data block w = Ok (length buf, w') /\
    let more := buf ++ replicate (BlockWriter.padding_of (length buf)) Byte.x00 in
    wfile w' s = Some (Some (name, contents ++ more)) /\
    wwritten w' s = Some (u64 (written + Z.of_nat (length more))) /\
    wcolumn w' s c = Some (column ++ [BlockWriter.set_offset written info]) /\
    wsize w' s c = Some (u64 (size + Z.of_nat (bi_num_elem info))) /\ wframe s c w w'.
Proof.
  unfold wframe, wfile, wwritten, wcolumn, wsize. intros Ef Ew Ec Es.
  destruct (BlockWriter.m_blocks w !! s) as [seg|] eqn:Eb; [|done]. cbn in Ec.
  destruct (g_columns (BlockWriter.m_index_info w) !! c) as [col|] eqn:Eg; [|done]. cbn in Es.
  destruct (BlockWriter.compress_block data block) as [buf info] eqn:Eq.
  unfold BlockWriter.write_block. rewrite Eq, Ef, Ew, Eb, Eg, Ec.
  eexists; split; [reflexivity|].
  pose proof (lookup_lt_Some _ _ _ Ef). pose proof (lookup_lt_Some _ _ _ Ew).
  pose proof (lookup_lt_Some _ _ _ Eb). pose proof (lookup_lt_Some _ _ _ Ec).
  pose proof (lookup_lt_Some _ _ _ Eg).
  cbn [BlockWriter.m_output_files BlockWriter.m_output_bytes_written BlockWriter.m_blocks
       BlockWriter.m_index_info g_columns]. split_and!.
  - by rewrite list_lookup_insert_eq.
  - rewrite list_lookup_insert_eq by done. by rewrite length_app, length_replicate.
  - rewrite list_lookup_insert_eq by done. cbn. by rewrite list_lookup_insert_eq.
  - rewrite list_lookup_insert_eq by done. cbn. by erewrite alter_lookup_same by done.
  - intros s' Hs. cbn. by rewrite !list_lookup_insert_ne by done.
  - intros s' c' Hsc. cbn. split.
    + destruct (decide (s' = s)) as [->|Hs].
      * rewrite list_lookup_insert_eq, Eb by done. cbn. rewrite list_lookup_insert_ne; [done|].
        destruct Hsc; congruence.
      * by rewrite list_lookup_insert_ne by done.
    + destruct (decide (c' = c)) as [->|Hc].
      * rewrite list_lookup_insert_eq, Eg by done. cbn. rewrite list_lookup_alter_ne; [done|].
        destruct Hsc; congruence.
      * by rewrite list_lookup_insert_ne by done.
  - unfold wstatic. cbn [BlockWriter.m_index_info BlockWriter.m_blocks g_columns group_index_file g_version
      g_nsegments g_segment_files].
    rewrite (map_insert_same column_static _ c col) by done.
    rewrite (map_insert_same (fun c => length (segment_sizes c)) _ c col) by (done || apply length_alter).
    by rewrite (map_insert_same length _ s seg) by (done || apply length_insert).
Qed.

(** ** Views of a group writer *)

Definition vbuf (g : GroupWriter.group_writer) (s c : nat) : option (list flexible_type) :=
  GroupWriter.m_column_buffers g !! c ≫= fun b => GroupWriter.segment_data b !! s.
Definition gstatic (g : GroupWriter.group_writer) :=
  (GroupWriter.m_nsegments g, length (GroupWriter.m_column_buffers g), GroupWriter.m_array_open g,
   map (fun b => length (GroupWriter.segment_data b)) (GroupWriter.m_column_buffers g),
   wstatic (GroupWriter.m_writer g)).

Definition gframe (s c : nat) (g g' : GroupWriter.group_writer) : Prop :=
  wframe s c (GroupWriter.m_writer g) (GroupWriter.m_writer g') /\
  (forall s' c', s' <> s \/ c' <> c -> vbuf g' s' c' = vbuf g s' c') /\ gstatic g' = gstatic g.

Lemma vbuf_insert g s c colbuf buf w e t n :
  GroupWriter.m_column_buffers g !! c = Some colbuf -> (s < length (GroupWriter.segment_data colbuf))%nat ->
  let g' := GroupWriter.set_buffers
    (<[c := GroupWriter.mk_buffer (<[s := buf]> (GroupWriter.segment_data colbuf)) e t n]>
       (GroupWriter.m_column_buffers g)) (GroupWriter.set_writer w g) in
  vbuf g' s c = Some buf /\ (forall s' c', s' <> s \/ c' <> c -> vbuf g' s' c' = vbuf g s' c') /\
  (wstatic w = wstatic (GroupWriter.m_writer g) -> gstatic g' = gstatic g).
Proof.
  intros Ec Hs g'. pose proof (lookup_lt_Some _ _ _ Ec). unfold g', vbuf, gstatic. cbn. split_and!.
  - rewrite list_lookup_insert_eq by done. cbn. by rewrite list_lookup_insert_eq.
  - intros s' c' Hsc. destruct (decide (c' = c)) as [->|Hc].
    + rewrite list_lookup_insert_eq, Ec by done. cbn. rewrite list_lookup_insert_ne; [done|].
      destruct Hsc; congruence.
    + by rewrite list_lookup_insert_ne by done.
  - intros ->. rewrite length_insert. erewrite map_insert_same; [done|done|]. cbn. by rewrite length_insert.
Qed.

Lemma vbuf_column g s c buf : vbuf g s c = Some buf -> exists colbuf,
  GroupWriter.m_column_buffers g !! c = Some colbuf /\ GroupWriter.segment_data colbuf !! s = Some buf.
Proof. unfold vbuf. destruct (_ !! c) as [b|]; [|done]. cbn. eauto. Qed.

Context (cfg : settings).

(** The whole effect of a flush *)
Lemma flush_views s c g name contents column size buf :
  wfile (GroupWriter.m_writer g) s = Some (Some (name, contents)) ->
  wwritten (GroupWriter.m_writer g) s = Some (u64 (Z.of_nat (length contents))) ->
  wcolumn (GroupWriter.m_writer g) s c = Some column -> wsize (GroupWriter.m_writer g) s c = Some size ->
  vbuf g s c = Some buf -> block_ok buf -> buf <> [] ->
  exists g' more info, GroupWriter.flush_block cfg c s g = Ok g' /\
    wfile (GroupWriter.m_writer g') s = Some (Some (name, contents ++ more)) /\
    wwritten (GroupWriter.m_writer g') s = Some (u64 (Z.of_nat (length (contents ++ more)))) /\
    wcolumn (GroupWriter.m_writer g') s c = Some (column ++ [info]) /\
    wsize (GroupWriter.m_writer g') s c = Some (u64 (size + Z.of_nat (length buf))) /\
    vbuf g' s c = Some [] /\ gframe s c g g' /\ (exists q, length more = (4096 * q)%nat) /\
    (Z.of_nat (length (contents ++ more)) < 2 ^ 63 -> small_block info ->
     holds_block (contents ++ more) info buf).
Proof.
  intros Ef Ew Ec Es Eb Hok Hne. destruct (vbuf_column _ _ _ _ Eb) as (colbuf & Ecb & Esd).
  destruct (write_typed_spec buf Hok Hne) as (info0 & o & raw & info & Et & Ecomp & Hn & Hholds).
  pose proof (write_block_views s c (oa_data o) info0 _ _ _ _ _ _ Ef Ew Ec Es) as Hwb.
  rewrite Ecomp in Hwb. destruct Hwb as (w' & Ewb & H1 & H2 & H3 & H4 & Hfr).
  set (more := raw ++ replicate (BlockWriter.padding_of (length raw)) Byte.x00) in *.
  unfold GroupWriter.flush_block. rewrite Ecb, Esd. destruct buf as [|v buf']; [done|].
  unfold BlockWriter.write_typed_block. rewrite Et, Ewb. cbn [obind].
  destruct (vbuf_insert g s c colbuf [] w'
    (GroupWriter.next_flush cfg (GroupWriter.m_nsegments g) (length (GroupWriter.m_column_buffers g))
       (u64 (GroupWriter.total_bytes_written colbuf + Z.of_nat (length raw)))
       (u64 (GroupWriter.total_elements_written colbuf + Z.of_nat (length (v :: buf')))))
    (u64 (GroupWriter.total_bytes_written colbuf + Z.of_nat (length raw)))
    (u64 (GroupWriter.total_elements_written colbuf + Z.of_nat (length (v :: buf')))) Ecb
    (lookup_lt_Some _ _ _ Esd)) as (Hb1 & Hb2 & Hb3).
  do 3 eexists. split; [reflexivity|]. split_and!; [exact H1| |exact H3| |exact Hb1| | |].
  - cbn. rewrite H2, wrap_add_l. do 2 f_equal. rewrite length_app. lia.
  - cbn. by rewrite H4, Hn.
  - split_and!; [exact Hfr|exact Hb2|]. apply Hb3, Hfr.
  - destruct (padding_spec (length raw)) as (q & Hq & _). exists q.
    unfold more. rewrite length_app, length_replicate. lia.
  - intros Hlt Hsm. by apply Hholds.
Qed.
End writer.

(** ** The invariant of a group writer *)

(** A segment file that is complete: its footer leads to blocks that hold these
    columns *)
Definition file_holds `{Lz4} (file : bytes) (cols : list (list flexible_type)) : Prop :=
  exists seg,
    (forall name, exists size,
       BlockManager.init_segment file (BlockManager.mk_segment name 0 false [] 0) =
       Ok (BlockManager.mk_segment name size true seg 0)) /\
    Forall2 (fun column cells => exists chunks, cells = concat chunks /\ Forall2 (holds_block file) column chunks)
      seg cols.

Lemma vector_total_app a b : vector_total (a ++ b) = (vector_total a + vector_total b)%nat.
Proof.
  unfold vector_total, present. by rewrite List.filter_app, map_app, sum_list_with_app.
Qed.

Lemma block_ok_app a b : block_ok (a ++ b) -> block_ok a /\ block_ok b.
Proof.
  intros (H1 & H2 & H3). apply Forall_app in H1 as [H1 H1']. rewrite length_app in H2.
  rewrite vector_total_app in H3. unfold fits_size in *. split; split_and!; try done; unfold fits_size; lia.
Qed.

(** A sequence of cells to write: column, segment and value; and what it writes
    to one cell of the array *)
Abbreviation writes := (list (nat * nat * flexible_type)).
Definition cells (ops : writes) (c s : nat) : list flexible_type :=
  omap (fun '(c', s', t) => if decide (c' = c /\ s' = s) then Some t else None) ops.
Definition write_cells `{Lz4, Platform} (cfg : settings) (ops : writes) (g : GroupWriter.group_writer)
    : outcome GroupWriter.group_writer :=
  ofold (fun '(c, s, t) => GroupWriter.write_cell cfg c s t) ops g.

(** Creating an array: [open], the writes, and [close] *)
Definition write_array `{Lz4, Platform} (cfg : settings) (index : bytes) (n k : nat) (ops : writes) (fs : files)
    : outcome (GroupWriter.group_writer * files) :=
  obind (GroupWriter.open index n k GroupWriter.new) (fun g =>
  obind (write_cells cfg ops g) (fun g => GroupWriter.close cfg g fs)).

Section group.
Context `{L : Lz4, LL : !Lz4Laws L, P : Platform} (cfg : settings) (index : bytes) (n k : nat).
Abbreviation name := (GroupWriter.segment_name index).
Abbreviation log := (nat -> nat -> list flexible_type).

Definition cell_inv (g : GroupWriter.group_writer) (l : list flexible_type) (s c : nat) (contents : bytes)
    : Prop :=
  exists column chunks buf, wcolumn (GroupWriter.m_writer g) s c = Some column /\ vbuf g s c = Some buf /\
    wsize (GroupWriter.m_writer g) s c = Some (u64 (Z.of_nat (length (concat chunks)))) /\
    l = concat chunks ++ buf /\ Forall (fun ch => ch <> []) chunks /\ stored contents column chunks.

Definition open_inv (l : log) (g : GroupWriter.group_writer) (s : nat) : Prop :=
  exists contents, wfile (GroupWriter.m_writer g) s = Some (Some (name s, contents)) /\
    wwritten (GroupWriter.m_writer g) s = Some (u64 (Z.of_nat (length contents))) /\
    (exists q, length contents = (4096 * q)%nat) /\
    forall c, (c < k)%nat -> cell_inv g (l c s) s c contents.

(** What never changes between [open] and [close] *)
Definition the_static (opened : bool) :=
  (n, k, opened, replicate k n,
   (index, 2, n, map name (seq 0 n),
    map (fun c => (column_name_of index c, 2, n, map (fun s => column_name_of (name s) c) (seq 0 n))) (seq 0 k),
    replicate n k, replicate k n)).

Definition ginv (opened : bool) (lo : nat) (l : log) (g : GroupWriter.group_writer) : Prop :=
  gstatic g = the_static opened /\ forall s, (lo <= s < n)%nat -> open_inv l g s.

Lemma open_inv_frame l s c s' g g' : gframe s c g g' -> s' <> s -> open_inv l g s' -> open_inv l g' s'.
Proof.
  intros ((Hf & Hc & _) & Hb & _) Hs (contents & H1 & H2 & H3 & H4).
  destruct (Hf s' Hs) as (E1 & E2 & _). exists contents. rewrite E1, E2. split_and!; try done.
  intros c' Hc'. destruct (H4 c' Hc') as (column & chunks & buf & G1 & G2 & G3 & G4).
  exists column, chunks, buf. destruct (Hc s' c') as [-> ->]; [by left|]. rewrite Hb by by left. done.
Qed.

Lemma gframe_refl s c g : gframe s c g g.
Proof. by repeat split. Qed.

(** A flush moves the buffered cells of one column of one segment to its file. *)
Lemma flush_inv opened lo l g s c : ginv opened lo l g -> (lo <= s < n)%nat -> (c < k)%nat ->
  block_ok (l c s) ->
  exists g', GroupWriter.flush_block cfg c s g = Ok g' /\ ginv opened lo l g' /\ vbuf g' s c = Some [] /\
    gframe s c g g'.
Proof.
  intros [Hst Hall] Hs Hc Hok. destruct (Hall s Hs) as (contents & Hf & Hw & (q & Hq) & Hcells).
  destruct (Hcells c Hc) as (column & chunks & buf & H1 & H2 & H3 & H4 & Hne & H5).
  destruct (decide (buf = [])) as [->|Hb].
  { exists g. split_and!; [|by split|done|apply gframe_refl].
    unfold GroupWriter.flush_block. destruct (vbuf_column _ _ _ _ H2) as (cb & -> & ->). done. }
  assert (block_ok buf) as Hok' by (rewrite H4 in Hok; by destruct (block_ok_app _ _ Hok)).
  destruct (flush_views cfg s c g _ _ _ _ _ Hf Hw H1 H3 H2 Hok' Hb)
    as (g' & more & info & E & F1 & F2 & F3 & F4 & F5 & Hfr & (q' & Hq') & Hh).
  exists g'. split_and!; [done| |done|done]. split; [by rewrite (proj2 (proj2 Hfr))|].
  intros s' Hs'. destruct (decide (s' = s)) as [->|Hne']; [|by eapply open_inv_frame; eauto].
  exists (contents ++ more). split_and!; [done|done| |].
  { exists (q + q')%nat. rewrite length_app. lia. }
  intros c' Hc'. destruct (decide (c' = c)) as [->|Hcc].
  - exists (column ++ [info]), (chunks ++ [buf]), []. split_and!; [done|done| | | |].
    + rewrite F4, wrap_add_l, concat_app, length_app. cbn. rewrite app_nil_r. do 2 f_equal. lia.
    + rewrite concat_app. cbn. by rewrite !app_nil_r.
    + apply Forall_app. by split; [|constructor].
    + apply stored_snoc; [by apply stored_app|done].
  - destruct (Hcells c' Hc') as (column' & chunks' & buf' & G1 & G2 & G3 & G4 & G5 & G6).
    destruct Hfr as ((_ & Hfc & _) & Hfb & _). exists column', chunks', buf'.
    destruct (Hfc s c') as [-> ->]; [by right|]. rewrite Hfb by by right.
    split_and!; try done. by apply stored_app.
Qed.

(** One more cell in the log *)
Definition log_add (c s : nat) (t : flexible_type) (l : log) : log :=
  fun c' s' => if decide (c' = c /\ s' = s) then l c s ++ [t] else l c' s'.

Lemma write_cell_inv l g s c t : ginv true 0 l g -> (s < n)%nat -> (c < k)%nat -> block_ok (l c s ++ [t]) ->
  exists g', GroupWriter.write_cell cfg c s t g = Ok g' /\ ginv true 0 (log_add c s t l) g'.
Proof.
  intros [Hst Hall] Hs Hc Hok. destruct (Hall s ltac:(lia)) as (contents & Hf & Hw & Hq & Hcells).
  destruct (Hcells c Hc) as (column & chunks & buf & H1 & H2 & H3 & H4 & Hne & H5).
  destruct (vbuf_column _ _ _ _ H2) as (cb & Ecb & Esd).
  unfold GroupWriter.write_cell. rewrite Ecb, Esd.
  set (g1 := GroupWriter.set_buffers _ g).
  destruct (vbuf_insert g s c cb (buf ++ [t]) (GroupWriter.m_writer g) (GroupWriter.elements_before_flush cb)
    (GroupWriter.total_bytes_written cb) (GroupWriter.total_elements_written cb) Ecb
    (lookup_lt_Some _ _ _ Esd)) as (B1 & B2 & B3).
  assert (GroupWriter.set_buffers (GroupWriter.m_column_buffers g1) (GroupWriter.set_writer (GroupWriter.m_writer g) g)
          = g1) as Eg1 by (by unfold g1).
  change (vbuf g1 s c = Some (buf ++ [t])) in B1.
  change (forall s' c', s' <> s \/ c' <> c -> vbuf g1 s' c' = vbuf g s' c') in B2.
  assert (gframe s c g g1) as Hfr by (split_and!; [by repeat split|exact B2|by apply B3]).
  assert (ginv true 0 (log_add c s t l) g1) as Hinv.
  { split; [by rewrite (proj2 (proj2 Hfr))|]. intros s' Hs'. destruct (decide (s' = s)) as [->|Hne'].
    - exists contents. split_and!; try done. intros c' Hc'. unfold log_add.
      destruct (decide (c' = c /\ s = s)) as [[-> _]|Hcc].
      + exists column, chunks, (buf ++ [t]). split_and!; try done. by rewrite H4, app_assoc.
      + destruct (Hcells c' Hc') as (column' & chunks' & buf' & G1 & G2 & G3 & G4).
        exists column', chunks', buf'. rewrite B2; [done|]. right. intros ->. by apply Hcc.
    - pose proof (open_inv_frame l s c s' g g1 Hfr Hne' (Hall s' Hs')) as (cs & K1 & K2 & K3 & K4).
      exists cs. split_and!; try done. intros c' Hc'. unfold log_add. rewrite decide_False by (by intros [_ ?]).
      by apply K4. }
  destruct (_ <=? _); [|by exists g1].
  destruct (flush_inv true 0 _ g1 s c Hinv) as (g' & E & Hg & _); [lia|done| |by exists g'].
  unfold log_add. by rewrite decide_True by done.
Qed.

(** ** Closing *)

(** A segment that has been closed: its file, and its sizes in the index *)
Definition closed_inv (l : log) (fs : files) (w : BlockWriter.block_writer) (s : nat) : Prop :=
  exists file seg, fs !! name s = Some file /\ BlockWriter.m_blocks w !! s = Some seg /\
    (Z.of_nat (length file) < 2 ^ 63 -> Forall (Forall small_block) seg ->
     file_holds file (map (fun c => l c s) (seq 0 k))) /\
    forall c, (c < k)%nat -> wsize w s c = Some (u64 (Z.of_nat (length (l c s)))).

Lemma closed_inv_frame l fs s c s' w w' : wframe s c w w' -> s' <> s ->
  closed_inv l fs w s' -> closed_inv l fs w' s'.
Proof.
  intros (Hf & Hc & _) Hs (file & seg & H1 & H2 & H3 & H4). exists file, seg.
  destruct (Hf s' Hs) as (_ & _ & ->). split_and!; try done.
  intros c' Hc'. destruct (Hc s' c') as [_ ->]; [by left|]. auto.
Qed.

(** Flushing the columns [js] of segment [s], one after the other *)
Lemma flush_all lo l s js : (lo <= s < n)%nat -> (forall c, (c < k)%nat -> block_ok (l c s)) ->
  Forall (fun c => c < k)%nat js -> forall g, ginv false lo l g ->
  exists g', ofold (fun j => GroupWriter.flush_block cfg j s) js g = Ok g' /\ ginv false lo l g' /\
    (forall c, c ∈ js \/ vbuf g s c = Some [] -> vbuf g' s c = Some []) /\
    forall s' fs, s' <> s -> closed_inv l fs (GroupWriter.m_writer g) s' ->
                  closed_inv l fs (GroupWriter.m_writer g') s'.
Proof.
  intros Hs Hok. induction 1 as [|c js Hc Hjs IH]; intros g Hg.
  { exists g. split_and!; try done. intros c [H|H]; [by apply elem_of_nil in H|done]. }
  destruct (flush_inv false lo l g s c Hg Hs Hc (Hok c Hc)) as (g1 & E & Hg1 & Hv & Hfr).
  destruct (IH g1 Hg1) as (g' & E' & Hg' & Hv' & Hcl). exists g'. cbn. rewrite E. cbn.
  split_and!; [done|done| |].
  - intros c' H. apply Hv'. destruct (decide (c' = c)) as [->|Hne]; [by right|].
    destruct H as [H|H]; [apply elem_of_cons in H as [H|H]; [done|by left]|]. right.
    destruct Hfr as (_ & -> & _); [done|by right].
  - intros s' fs Hne H. apply Hcl; [done|]. eapply closed_inv_frame; [apply Hfr|done|done].
Qed.

Lemma blocks_of_views w s : (s < n)%nat -> wstatic w = (the_static false).2 ->
  (forall c, (c < k)%nat -> exists column, wcolumn w s c = Some column) ->
  exists seg, BlockWriter.m_blocks w !! s = Some seg /\ length seg = k /\
    forall c, wcolumn w s c = seg !! c.
Proof.
  intros Hs Hst Hc. injection Hst as _ _ _ _ _ Hb _.
  assert ((map length (BlockWriter.m_blocks w)) !! s = Some k) as Hk.
  { rewrite Hb. by apply lookup_replicate. }
  change (map length ?l) with (length <$> l) in Hk. rewrite list_lookup_fmap in Hk.
  unfold wcolumn. destruct (BlockWriter.m_blocks w !! s) as [seg|] eqn:E; [|done].
  exists seg. injection Hk as Hk. done.
Qed.

(** The metadata of stored blocks fits the footer. *)
Lemma stored_footer contents column chunks : stored contents column chunks ->
  Z.of_nat (length contents) < 2 ^ 63 -> Forall small_block column ->
  Forall (fun ch => ch <> []) chunks -> fits_size (length (concat chunks)) ->
  fits_size (length column) /\ Forall info_ok column.
Proof.
  intros [Hl H] Hlt Hsm Hne Hfit. split.
  - rewrite Hl. unfold fits_size in *. assert (length chunks <= length (concat chunks))%nat; [|lia].
    clear -Hne. induction Hne as [|ch chunks Hc _ IH]; [done|]. cbn. rewrite length_app.
    destruct ch; [done|]. cbn. lia.
  - specialize (H Hlt Hsm). clear -H. induction H as [|i d column chunks (_ & _ & Hi & _) _ IH]; by constructor.
Qed.

Lemma closed_file_holds l g s contents seg o : BlockWriter.m_blocks (GroupWriter.m_writer g) !! s = Some seg ->
  length seg = k -> (forall c, wcolumn (GroupWriter.m_writer g) s c = seg !! c) ->
  (forall c, (c < k)%nat -> cell_inv g (l c s) s c contents) -> Z.of_nat k < 2 ^ 63 ->
  (forall c, (c < k)%nat -> block_ok (l c s)) -> (forall c, (c < k)%nat -> vbuf g s c = Some []) ->
  BlockWriter.blocks_save seg oarchive_new = Some o ->
  let file := contents ++ oa_data o ++ le_split 8 (Z.of_nat (ooff o)) in
  Z.of_nat (length file) < 2 ^ 63 -> Forall (Forall small_block) seg ->
  file_holds file (map (fun c => l c s) (seq 0 k)).
Proof.
  intros Eseg Hlen Hcol Hcells Hk Hok Hbuf Eo file Hlt Hsm.
  assert (forall c column, seg !! c = Some column -> exists chunks, l c s = concat chunks /\
            Forall (fun ch => ch <> []) chunks /\ stored contents column chunks) as Hst.
  { intros c column Ec. assert (c < k)%nat as Hc by (rewrite <- Hlen; by eapply lookup_lt_Some).
    destruct (Hcells c Hc) as (column' & chunks & buf & H1 & H2 & _ & H4 & H5 & H6).
    rewrite Hcol, Ec in H1. injection H1 as <-. rewrite Hbuf in H2 by done. injection H2 as <-.
    rewrite app_nil_r in H4. eauto. }
  unfold file in Hlt. rewrite !length_app in Hlt.
  assert (footer_ok seg) as Hfok.
  { split; [rewrite Hlen; unfold fits_size; lia|]. apply Forall_lookup_2. intros c column Ec.
    destruct (Hst c column Ec) as (chunks & H1 & H2 & H3).
    eapply stored_footer; [exact H3|lia| |exact H2|].
    - by eapply Forall_lookup_1 in Hsm.
    - rewrite <- H1. apply Hok. rewrite <- Hlen. by eapply lookup_lt_Some. }
  destruct (footer_roundtrip seg contents Hfok) as (bs & o' & Eo' & Hd & Hoff & Hinit); [lia|].
  rewrite Eo in Eo'. injection Eo' as <-. exists seg. split.
  - intros nm. unfold file. rewrite Hd, Hoff. apply Hinit; [|done]. rewrite Hd in Hlt. lia.
  - apply Forall2_same_length_lookup. split; [by rewrite length_map, length_seq|].
    intros c column cells Ec El. destruct (Hst c column Ec) as (chunks & H1 & H2 & [_ H3]).
    change (map ?f ?x) with (f <$> x) in El. rewrite list_lookup_fmap in El.
    apply fmap_Some in El as (c' & Ec' & ->). apply lookup_seq in Ec' as [-> _].
    exists chunks. split; [done|]. eapply Forall2_impl.
    + apply H3; [lia|]. by eapply Forall_lookup_1 in Hsm.
    + intros i d Hh. by apply holds_block_app.
Qed.

Lemma close_segment_inv l g fs s : ginv false s l g -> (s < n)%nat -> Z.of_nat k < 2 ^ 63 ->
  (forall c, (c < k)%nat -> block_ok (l c s)) -> (forall c, (c < k)%nat -> vbuf g s c = Some []) ->
  (forall s', (s' < s)%nat -> closed_inv l fs (GroupWriter.m_writer g) s') ->
  exists w fs', BlockWriter.close_segment s (GroupWriter.m_writer g) fs = Ok (w, fs') /\
    ginv false (S s) l (GroupWriter.set_writer w g) /\
    (forall s', (s' < S s)%nat -> closed_inv l fs' w s').
Proof.
  intros [Hst Hall] Hs Hk Hok Hbuf Hclosed. destruct (Hall s ltac:(lia)) as (contents & Hf & Hw & _ & Hcells).
  destruct (blocks_of_views (GroupWriter.m_writer g) s Hs) as (seg & Eseg & Hlen & Hcol).
  { exact (f_equal snd Hst). }
  { intros c Hc. destruct (Hcells c Hc) as (column & _ & _ & -> & _). eauto. }
  unfold wfile in Hf. unfold BlockWriter.close_segment. rewrite Hf, Eseg.
  destruct (blocks_emits seg) as (bs0 & He). destruct (He _ oarchive_new_wf) as (o & Eo & _). rewrite Eo.
  do 2 eexists. split; [reflexivity|]. set (file := contents ++ _). split.
  { split; [exact Hst|]. intros s' Hs'. destruct (Hall s' ltac:(lia)) as (cs & K1 & K2 & K3 & K4).
    exists cs. split_and!; try done. unfold wfile in *. cbn. by rewrite list_lookup_insert_ne by lia. }
  intros s' Hs'. destruct (decide (s' = s)) as [->|Hne].
  - exists file, seg. split_and!; [by rewrite lookup_insert_eq|done| |].
    + intros Hlt Hsm. by apply (closed_file_holds l g s contents seg o).
    + intros c Hc. destruct (Hcells c Hc) as (column & chunks & buf & _ & H2 & H3 & H4 & _).
      rewrite Hbuf in H2 by done. injection H2 as <-. rewrite app_nil_r in H4. by rewrite H4.
  - destruct (Hclosed s' ltac:(lia)) as (f' & seg' & H1 & H2 & H3 & H4). exists f', seg'. split_and!; try done.
    rewrite lookup_insert_ne; [done|]. intros E. by apply segment_name_inj in E.
Qed.

(** [close]: every segment is flushed and written, in order *)
Lemma close_loop l todo : Z.of_nat k < 2 ^ 63 ->
  (forall s c, (s < n)%nat -> (c < k)%nat -> block_ok (l c s)) ->
  forall lo g fs, todo = seq lo (n - lo) -> (lo <= n)%nat -> ginv false lo l g ->
    (forall s, (s < lo)%nat -> closed_inv l fs (GroupWriter.m_writer g) s) ->
  exists g' fs', ofold (GroupWriter.close_one cfg) todo (g, fs) = Ok (g', fs') /\
    gstatic g' = the_static false /\ forall s, (s < n)%nat -> closed_inv l fs' (GroupWriter.m_writer g') s.
Proof.
  intros Hk Hok. induction todo as [|i todo IH]; intros lo g fs Eis Hlo Hg Hcl.
  { assert (lo = n) as -> by (destruct (n - lo)%nat eqn:E; [lia|done]). exists g, fs. by destruct Hg. }
  destruct (n - lo)%nat as [|m] eqn:Em; [done|]. cbn in Eis. injection Eis as -> ->.
  cbn [ofold]. unfold GroupWriter.close_one at 1. cbn [fst snd].
  assert (length (GroupWriter.m_column_buffers g) = k) as ->.
  { destruct Hg as [Hst _]. by injection Hst as _ ? _. }
  destruct (flush_all lo l lo (seq 0 k) ltac:(lia) (fun c => Hok lo c ltac:(lia))) with (g := g)
    as (g1 & -> & Hg1 & Hv & Hfr); [apply Forall_seq; lia|done|]. cbn [obind].
  destruct (close_segment_inv l g1 fs lo Hg1) as (w & fs1 & E & Hg2 & Hcl2); [lia|done| | | |].
  { intros c Hc. apply Hok; [lia|done]. }
  { intros c Hc. apply Hv. left. apply elem_of_seq. lia. }
  { intros s Hs. apply Hfr; [lia|auto]. }
  rewrite E. cbn [omap_ok obind]. apply (IH (S lo)); [|lia|done|done].
  by replace (n - S lo)%nat with m by lia.
Qed.

(** ** Opening *)

Definition filled {A} (f : nat -> A) (d : A) (i : nat) : list A := map f (seq 0 i) ++ replicate (n - i) d.

Lemma filled_n {A} (f : nat -> A) d : filled f d n = map f (seq 0 n).
Proof. unfold filled. by rewrite Nat.sub_diag, app_nil_r. Qed.
Lemma filled_S {A} (f : nat -> A) d i : (i < n)%nat -> <[i := f i]> (filled f d i) = filled f d (S i).
Proof.
  intros Hi. unfold filled. rewrite insert_app_r_alt by (by rewrite length_map, length_seq).
  rewrite length_map, length_seq, Nat.sub_diag. replace (n - i)%nat with (S (n - S i)) by lia.
  rewrite seq_S, map_app, <- app_assoc. done.
Qed.
Lemma filled_lookup {A} (f : nat -> A) d i : (i < n)%nat -> filled f d i !! i = Some d.
Proof.
  intros Hi. unfold filled. rewrite lookup_app_r by (by rewrite length_map, length_seq).
  rewrite length_map, length_seq, Nat.sub_diag. apply lookup_replicate_2. lia.
Qed.

Lemma imap_map_seq {A B} (f : nat -> A -> B) (g : nat -> A) m :
  imap f (map g (seq 0 m)) = map (fun c => f c (g c)) (seq 0 m).
Proof.
  apply list_eq. intros i. rewrite list_lookup_imap.
  change (map g (seq 0 m)) with (g <$> seq 0 m). change (map ?h (seq 0 m)) with (h <$> seq 0 m).
  rewrite !list_lookup_fmap. destruct (seq 0 m !! i) as [c|] eqn:E; [|done].
  apply lookup_seq in E as [-> _]. done.
Qed.

Lemma replicate_map_seq {A} (x : A) m : replicate m x = map (fun _ => x) (seq 0 m).
Proof.
  generalize 0%nat. induction m as [|m IH]; intros lo; [done|]. cbn. by rewrite (IH (S lo)).
Qed.

#[local] Arguments column_name_of : simpl never.
#[local] Arguments Nat.ltb : simpl never.

(** The writer after [i] segments have been opened *)
Definition opening_writer (i : nat) : BlockWriter.block_writer :=
  BlockWriter.mk (filled (fun s => Some (name s, [])) None i) (replicate n 0) (replicate n (replicate k []))
    (mk_group index 2 n (filled name [] i)
       (map (fun c => mk_index (column_name_of index c) 2 n (replicate n 0)
                        (filled (fun s => column_name_of (name s) c) (column_name_of [] c) i)) (seq 0 k))).
Definition opening_group (i : nat) : GroupWriter.group_writer :=
  GroupWriter.mk true n (opening_writer i)
    (replicate k (GroupWriter.mk_buffer (replicate n []) SARRAY_WRITER_INITAL_ELEMENTS_PER_BLOCK 0 0)).

Lemma open_segment_at i : (i < n)%nat ->
  GroupWriter.open_segment i (opening_group i) = Ok (opening_group (S i)).
Proof.
  intros Hi. unfold GroupWriter.open_segment, BlockWriter.open_segment. cbn.
  rewrite (proj2 (Nat.ltb_lt i n)), filled_lookup by done. cbn.
  unfold GroupWriter.set_writer, opening_group, opening_writer. cbn. do 3 f_equal.
  - exact (filled_S (fun s => Some (name s, [])) None i Hi).
  - f_equal; [exact (filled_S name [] i Hi)|]. rewrite imap_map_seq. apply map_ext. intros c.
    unfold BlockWriter.set_segment_file. cbn. f_equal.
    exact (filled_S (fun s => column_name_of (name s) c) _ i Hi).
Qed.

Lemma open_group : (0 < k)%nat ->
  GroupWriter.open index n k GroupWriter.new = Ok (opening_group n).
Proof.
  intros Hk. unfold GroupWriter.open. rewrite (proj2 (Nat.eqb_neq k 0)) by lia.
  assert (GroupWriter.mk true n (BlockWriter.init index n k (GroupWriter.m_writer GroupWriter.new))
    (map (fun c => GroupWriter.mk_buffer (list.resize n [] (GroupWriter.segment_data c))
            (GroupWriter.elements_before_flush c) (GroupWriter.total_bytes_written c)
            (GroupWriter.total_elements_written c))
       (list.resize k GroupWriter.buffer_default (GroupWriter.m_column_buffers GroupWriter.new)))
    = opening_group 0) as ->.
  { unfold opening_group, opening_writer, BlockWriter.init. cbn. rewrite !resize_nil, !Nat.sub_0_r. f_equal.
    - f_equal.
      + change (map ?f (replicate ?m ?x)) with (f <$> replicate m x). by rewrite fmap_replicate, resize_nil.
      + f_equal. rewrite (replicate_map_seq index_default), imap_map_seq. apply map_ext. intros c.
        unfold BlockWriter.init_column. cbn. rewrite resize_nil. f_equal.
        change (map ?f (replicate ?m ?x)) with (f <$> replicate m x). by rewrite fmap_replicate.
    - change (map ?f (replicate ?m ?x)) with (f <$> replicate m x). rewrite fmap_replicate. cbn.
      by rewrite resize_nil. }
  assert (forall lo m, (lo + m = n)%nat ->
    ofold GroupWriter.open_segment (seq lo m) (opening_group lo) = Ok (opening_group n)) as H.
  { intros lo m. revert lo. induction m as [|m IH]; intros lo E; [by replace lo with n by lia|].
    cbn [seq ofold]. rewrite open_segment_at by lia. cbn [obind]. apply IH. lia. }
  by apply H.
Qed.

Lemma opening_inv : ginv true 0 (fun _ _ => []) (opening_group n).
Proof.
  split.
  - unfold gstatic, the_static, wstatic, opening_group, opening_writer. cbn.
    rewrite length_replicate, !filled_n.
    rewrite !map_map. cbn. rewrite (replicate_map_seq n k).
    assert (forall A B (f : A -> B) m x, map f (replicate m x) = replicate m (f x)) as Hr.
    { intros. apply (fmap_replicate f). }
    rewrite !Hr. cbn [GroupWriter.segment_data]. rewrite !length_replicate, <- !(replicate_map_seq n k).
    rewrite (map_ext (fun c => column_static (mk_index (column_name_of index c) 2 n (replicate n 0)
        (filled (fun s => column_name_of (name s) c) (column_name_of [] c) n)))
      (fun c => (column_name_of index c, 2, n, map (fun s => column_name_of (name s) c) (seq 0 n)))).
    2: { intros c. unfold column_static. cbn [index_file version nsegments segment_files]. by rewrite filled_n. }
    done.
  - intros s Hs. exists []. unfold wfile, wwritten, wcolumn, vbuf, wsize. cbn. rewrite filled_n.
    split_and!; [|by rewrite lookup_replicate_2 by lia|by exists 0%nat|].
    + change (map ?f (seq 0 n)) with (f <$> seq 0 n). rewrite list_lookup_fmap.
      by rewrite (proj2 (lookup_seq 0 n s s)) by lia.
    + intros c Hc. exists [], [], []. unfold wcolumn, vbuf, wsize. cbn.
      rewrite !lookup_replicate_2 by lia. cbn. rewrite !lookup_replicate_2 by lia.
      change (map ?f (seq 0 k)) with (f <$> seq 0 k). rewrite list_lookup_fmap.
      rewrite (proj2 (lookup_seq 0 k c c)) by lia. cbn. rewrite lookup_replicate_2 by lia.
      split_and!; done.
Qed.

(** ** Writing *)

Lemma ginv_ext opened lo l l' g : (forall c s, l c s = l' c s) -> ginv opened lo l g -> ginv opened lo l' g.
Proof.
  intros E [H1 H2]. split; [done|]. intros s Hs. destruct (H2 s Hs) as (cs & G1 & G2 & G3 & G4).
  exists cs. split_and!; try done. intros c Hc. rewrite <- E. auto.
Qed.

Lemma write_cells_inv ops : Forall (fun '(c, s, _) => c < k /\ s < n)%nat ops ->
  forall l g, (forall c s, block_ok (l c s ++ cells ops c s)) -> ginv true 0 l g ->
  exists g', write_cells cfg ops g = Ok g' /\ ginv true 0 (fun c s => l c s ++ cells ops c s) g'.
Proof.
  induction 1 as [|[[c s] t] ops [Hc Hs] _ IH]; intros l g Hok Hg.
  { exists g. split; [done|]. eapply ginv_ext; [|done]. intros. cbn. by rewrite app_nil_r. }
  assert (forall c' s', l c' s' ++ cells ((c, s, t) :: ops) c' s' = log_add c s t l c' s' ++ cells ops c' s')
    as Hl.
  { intros c' s'. unfold log_add. cbn. destruct (decide (c = c' /\ s = s')) as [[-> ->]|Hne].
    - rewrite decide_True by done. by rewrite <- app_assoc.
    - rewrite decide_False by (intros [-> ->]; by apply Hne). done. }
  destruct (write_cell_inv l g s c t Hg Hs Hc) as (g1 & E & Hg1).
  { specialize (Hok c s). rewrite Hl in Hok. apply block_ok_app in Hok as [Hok _]. unfold log_add in Hok.
    by rewrite decide_True in Hok by done. }
  destruct (IH (log_add c s t l) g1) as (g' & E' & Hg'); [intros; rewrite <- Hl; apply Hok|exact Hg1|].
  exists g'. unfold write_cells in *. cbn. rewrite E. split; [exact E'|].
  eapply ginv_ext; [|exact Hg']. intros. by rewrite Hl.
Qed.

(** The index information of the closed array *)
Definition index_of_column (ops : writes) (c : nat) : index_file_information :=
  mk_index (column_name_of index c) 2 n
    (map (fun s => u64 (Z.of_nat (length (cells ops c s)))) (seq 0 n))
    (map (fun s => column_name_of (name s) c) (seq 0 n)).
Definition index_of_array (ops : writes) : group_index_file_information :=
  mk_group index 2 n (map name (seq 0 n)) (map (index_of_column ops) (seq 0 k)).

Lemma index_from_views ops w : wstatic w = (the_static false).2 ->
  (forall s c, (s < n)%nat -> (c < k)%nat -> wsize w s c = Some (u64 (Z.of_nat (length (cells ops c s))))) ->
  BlockWriter.m_index_info w = index_of_array ops.
Proof.
  intros Hst Hsz. unfold wstatic in Hst. destruct (BlockWriter.m_index_info w) as [gi gv gn gf cols] eqn:Ei.
  cbn in Hst. injection Hst as -> -> -> -> Hcols _ Hlen. unfold index_of_array. f_equal.
  assert (length cols = k) as Hk by (apply (f_equal length) in Hcols; by rewrite !length_map, length_seq in Hcols).
  apply list_eq. intros c. destruct (decide (c < k)%nat) as [Hc|Hc].
  2: { by rewrite !lookup_ge_None_2 by (rewrite ?length_map, ?length_seq; lia). }
  rewrite map_seq_lookup by done. destruct (lookup_lt_is_Some_2 cols c) as [col Ecol]; [lia|]. rewrite Ecol.
  f_equal. assert (map column_static cols !! c = Some (column_static col)) as E1.
  { change (map ?f cols) with (f <$> cols). by rewrite list_lookup_fmap, Ecol. }
  rewrite Hcols, map_seq_lookup in E1 by done. injection E1 as E1 E2 E3 E4.
  assert (map (fun c => length (segment_sizes c)) cols !! c = Some (length (segment_sizes col))) as E5.
  { change (map ?f cols) with (f <$> cols). by rewrite list_lookup_fmap, Ecol. }
  rewrite Hlen, lookup_replicate_2 in E5 by done. injection E5 as E5.
  destruct col as [ifile ver ns sizes sfiles]. cbn in *. subst. unfold index_of_column. f_equal.
  apply list_eq. intros s. destruct (decide (s < length sizes)%nat) as [Hs|Hs].
  2: { by rewrite !lookup_ge_None_2 by (rewrite ?length_map, ?length_seq; lia). }
  rewrite map_seq_lookup by lia. specialize (Hsz s c ltac:(lia) Hc). unfold wsize in Hsz. rewrite Ei in Hsz. cbn in Hsz.
  by rewrite Ecol in Hsz.
Qed.

(** The whole life of the array *)
Lemma write_array_spec ops fs : (0 < k)%nat -> Z.of_nat k < 2 ^ 63 ->
  Forall (fun '(c, s, _) => c < k /\ s < n)%nat ops -> (forall c s, block_ok (cells ops c s)) ->
  exists g fs', write_array cfg index n k ops fs = Ok (g, fs') /\
    GroupWriter.get_index_info g = index_of_array ops /\
    forall s, (s < n)%nat -> exists file seg,
      fs' !! name s = Some file /\ BlockWriter.m_blocks (GroupWriter.m_writer g) !! s = Some seg /\
      (Z.of_nat (length file) < 2 ^ 63 -> Forall (Forall small_block) seg ->
       file_holds file (map (fun c => cells ops c s) (seq 0 k))).
Proof.
  intros Hk Hk' Hops Hok. unfold write_array. rewrite open_group by done. cbn [obind].
  destruct (write_cells_inv ops Hops (fun _ _ => []) (opening_group n)) as (g1 & -> & [Hst Hinv]);
    [done|apply opening_inv|]. cbn [obind]. unfold GroupWriter.close.
  assert (GroupWriter.m_array_open g1 = true /\ GroupWriter.m_nsegments g1 = n) as [-> En].
  { split; [apply (f_equal (fun x => x.1.1.2) Hst)|apply (f_equal (fun x => x.1.1.1.1) Hst)]. }
  cbn [negb GroupWriter.m_nsegments]. rewrite En.
  set (g2 := GroupWriter.mk _ _ _ _).
  destruct (close_loop (cells ops) (seq 0 n) Hk' (fun s c _ _ => Hok c s) 0 g2 fs)
    as (g3 & fs' & E & Hst3 & Hcl); [by rewrite Nat.sub_0_r|lia| |lia|].
  { split; [|exact Hinv]. unfold g2. rewrite <- En.
    exact (f_equal (fun x => (x.1.1.1.1, x.1.1.1.2, false, x.1.2, x.2)) Hst). }
  exists g3, fs'. split_and!; [exact E| |].
  - unfold GroupWriter.get_index_info. apply index_from_views; [exact (f_equal snd Hst3)|].
    intros s c Hs Hc. destruct (Hcl s Hs) as (_ & _ & _ & _ & _ & H). auto.
  - intros s Hs. destruct (Hcl s Hs) as (file & seg & H1 & H2 & H3 & _). by exists file, seg.
Qed.
End group.

(** ** The memory of the writer *)

(** The cells that are held in memory *)
Definition buffered (g : GroupWriter.group_writer) : nat :=
  sum_list (map (fun b => sum_list (map length (GroupWriter.segment_data b))) (GroupWriter.m_column_buffers g)).

Lemma sum_list_bound (l : list nat) (b : Z) : 0 <= b -> Forall (fun x => Z.of_nat x <= b) l ->
  Z.of_nat (sum_list l) <= Z.of_nat (length l) * b.
Proof.
  intros Hb. induction 1 as [|x l Hx _ IH]; [done|].
  change (sum_list (x :: l)) with (x + sum_list l)%nat. cbn [length]. lia.
Qed.

Section memory.
Context `{L : Lz4, P : Platform} (cfg : settings) (n k : nat) (B : Z).
Context (HB : SARRAY_WRITER_INITAL_ELEMENTS_PER_BLOCK <= B)
        (HB' : Z.min (SFRAME_WRITER_MAX_BUFFERED_CELLS cfg / Z.of_nat (n * k))
                 (SFRAME_WRITER_MAX_BUFFERED_CELLS_PER_BLOCK cfg) <= B).

Definition buffer_inv (b : GroupWriter.column_buffer) : Prop :=
  GroupWriter.elements_before_flush b <= B /\ length (GroupWriter.segment_data b) = n /\
  Forall (fun d => Z.of_nat (length d) < B) (GroupWriter.segment_data b).
Definition memory_inv (g : GroupWriter.group_writer) : Prop :=
  GroupWriter.m_nsegments g = n /\ length (GroupWriter.m_column_buffers g) = k /\
  Forall buffer_inv (GroupWriter.m_column_buffers g).

Lemma next_flush_le x y : GroupWriter.next_flush cfg n k x y <= B.
Proof. unfold GroupWriter.next_flush. lia. Qed.

Lemma write_cell_memory c s t g g' : memory_inv g -> GroupWriter.write_cell cfg c s t g = Ok g' -> memory_inv g'.
Proof.
  intros (Hn & Hk & Hb). unfold GroupWriter.write_cell.
  destruct (_ !! c) as [cb|] eqn:Ec; [|done]. destruct (_ !! s) as [data|] eqn:Es; [|done].
  destruct (Forall_lookup_1 _ _ _ _ Hb Ec) as (He & Hl & Hd).
  pose proof (lookup_lt_Some _ _ _ Ec) as Hc. pose proof (lookup_lt_Some _ _ _ Es) as Hs.
  destruct (Z.leb_spec (GroupWriter.elements_before_flush cb) (Z.of_nat (length (data ++ [t])))) as [Hle|Hlt].
  - unfold GroupWriter.flush_block. cbn [GroupWriter.set_buffers GroupWriter.m_column_buffers].
    rewrite list_lookup_insert_eq by done. cbn [GroupWriter.segment_data]. rewrite list_lookup_insert_eq by done.
    destruct (data ++ [t]) as [|v l] eqn:El; [by destruct data|].
    destruct (BlockWriter.write_typed_block _ _ _ _ _) as [[ret w]| |]; [|done|done]. cbn [obind]. intros [= <-].
    unfold memory_inv. cbn. rewrite !length_insert. split_and!; [done|done|].
    rewrite list_insert_insert_eq. apply Forall_insert; [done|]. split_and!; cbn.
    + rewrite Hn, Hk. apply next_flush_le.
    + by rewrite !length_insert.
    + rewrite list_insert_insert_eq. apply Forall_insert; [done|]. cbn.
      unfold SARRAY_WRITER_INITAL_ELEMENTS_PER_BLOCK in HB. lia.
  - intros [= <-]. unfold memory_inv. cbn. rewrite length_insert. split_and!; [done|done|].
    apply Forall_insert; [done|]. split_and!; cbn; [done|by rewrite length_insert|].
    apply Forall_insert; [done|]. lia.
Qed.

Lemma write_cells_memory ops g g' : memory_inv g -> write_cells cfg ops g = Ok g' -> memory_inv g'.
Proof.
  unfold write_cells. revert g. induction ops as [|[[c s] t] ops IH]; intros g Hg; cbn; [by intros [= <-]|].
  destruct (GroupWriter.write_cell cfg c s t g) as [g1| |] eqn:E; [|done|done]. cbn.
  apply IH. by eapply write_cell_memory.
Qed.

(** The memory of a new array *)
Lemma opening_memory index : memory_inv (opening_group index n k n).
Proof.
  unfold memory_inv, opening_group. cbn. rewrite length_replicate. split_and!; [done|done|].
  apply Forall_replicate. split_and!; cbn; [done|by rewrite length_replicate|].
  apply Forall_replicate. unfold SARRAY_WRITER_INITAL_ELEMENTS_PER_BLOCK in HB. cbn. lia.
Qed.

Lemma memory_bound g : memory_inv g -> Z.of_nat (buffered g) <= Z.of_nat k * (Z.of_nat n * B).
Proof.
  intros (_ & <- & Hb). unfold SARRAY_WRITER_INITAL_ELEMENTS_PER_BLOCK in HB. unfold buffered.
  rewrite <- (length_map (fun b => sum_list (map length (GroupWriter.segment_data b)))).
  apply sum_list_bound; [lia|]. apply Forall_map. eapply Forall_impl; [exact Hb|]. cbn. intros b (_ & <- & Hd).
  rewrite <- (length_map length (GroupWriter.segment_data b)). apply sum_list_bound; [lia|].
  apply Forall_map. eapply Forall_impl; [exact Hd|]. cbn. lia.
Qed.
End memory.

(** ** The size of the blocks *)

(** No block holds more values than the decoders can count, when the settings
    bound the cells that are buffered for a block. *)
Section counted.
Context `{L : Lz4, P : Platform} (cfg : settings) (n k : nat) (B : Z).
Context (HB : SARRAY_WRITER_INITAL_ELEMENTS_PER_BLOCK <= B)
        (HB' : SFRAME_WRITER_MAX_BUFFERED_CELLS_PER_BLOCK cfg <= B) (HB31 : B < 2 ^ 31).

Definition counted (w : BlockWriter.block_writer) : Prop :=
  Forall (Forall (Forall countable)) (BlockWriter.m_blocks w).
Definition buffers_le (g : GroupWriter.group_writer) : Prop :=
  Forall (fun b => Forall (fun d => Z.of_nat (length d) <= B) (GroupWriter.segment_data b))
    (GroupWriter.m_column_buffers g).

Lemma write_typed_counted s c data w r w' : Z.of_nat (length data) < 2 ^ 31 -> counted w ->
  BlockWriter.write_typed_block s c data block_info_default w = Ok (r, w') -> counted w'.
Proof.
  intros Hd Hw. unfold BlockWriter.write_typed_block, typed_encode.
  destruct (encode_block data) as [[m e]|]; [|done]. destruct (e _) as [o|]; [|done].
  set (info := set_block_size _ _).
  assert (bi_num_elem info = length data) as Hn by (by destruct m). clearbody info.
  unfold BlockWriter.write_block. destruct (BlockWriter.compress_block (oa_data o) info) as [buf i] eqn:Ec.
  assert (countable i) as Hi.
  { unfold countable. unfold BlockWriter.compress_block in Ec.
    destruct (f32_lt _ _); injection Ec as _ <-; cbn; lia. }
  destruct (_ !! s) as [[[name contents]|]|]; try done. destruct (_ !! s) as [written|]; [|done].
  destruct (BlockWriter.m_blocks w !! s) as [seg|] eqn:Es; [|done].
  destruct (_ !! c) as [col|]; [|done]. destruct (seg !! c) as [column|] eqn:Ecol; [|done].
  intros [= <- <-]. unfold counted in *. cbn. pose proof (Forall_lookup_1 _ _ _ _ Hw Es) as Hseg.
  apply Forall_insert; [done|]. apply Forall_insert; [done|]. apply Forall_app. split.
  - by apply (Forall_lookup_1 _ _ _ _ Hseg Ecol).
  - by constructor.
Qed.

Lemma flush_counted c s g g' : buffers_le g -> counted (GroupWriter.m_writer g) ->
  GroupWriter.flush_block cfg c s g = Ok g' -> buffers_le g' /\ counted (GroupWriter.m_writer g').
Proof.
  intros Hb Hw. unfold GroupWriter.flush_block. destruct (_ !! c) as [cb|] eqn:Ec; [|done].
  destruct (_ !! s) as [data|] eqn:Es; [|done]. pose proof (Forall_lookup_1 _ _ _ _ Hb Ec) as Hcb.
  pose proof (Forall_lookup_1 _ _ _ _ Hcb Es) as Hd. cbv beta in Hd, Hcb.
  destruct data as [|v l]; [by intros [= <-]|].
  destruct (BlockWriter.write_typed_block _ _ _ _ _) as [[r w]| |] eqn:Ew; [|done|done]. cbn [obind].
  intros [= <-]. split.
  - unfold buffers_le. cbn. apply Forall_insert; [done|]. apply Forall_insert; [done|].
    unfold SARRAY_WRITER_INITAL_ELEMENTS_PER_BLOCK in HB. cbn. lia.
  - eapply write_typed_counted; [|exact Hw|exact Ew]. lia.
Qed.

Lemma memory_buffers_le g : memory_inv n k B g -> buffers_le g.
Proof.
  intros (_ & _ & H). eapply Forall_impl; [exact H|]. intros b (_ & _ & Hd).
  eapply Forall_impl; [exact Hd|]. intros d. cbv beta. lia.
Qed.

Lemma write_cells_counted ops g g' : memory_inv n k B g -> counted (GroupWriter.m_writer g) ->
  write_cells cfg ops g = Ok g' -> memory_inv n k B g' /\ counted (GroupWriter.m_writer g').
Proof.
  assert (Z.min (SFRAME_WRITER_MAX_BUFFERED_CELLS cfg / Z.of_nat (n * k))
            (SFRAME_WRITER_MAX_BUFFERED_CELLS_PER_BLOCK cfg) <= B) as HBm by lia.
  unfold write_cells. revert g. induction ops as [|[[c s] t] ops IH]; intros g Hg Hw; cbn [ofold].
  { by intros [= <-]. }
  destruct (GroupWriter.write_cell cfg c s t g) as [g1| |] eqn:E; [|done|done]. cbn [obind].
  pose proof (write_cell_memory cfg n k B HB HBm _ _ _ _ _ Hg E) as Hg1. apply IH; [done|].
  apply memory_buffers_le in Hg as Hle. destruct Hg as (_ & _ & Hb).
  unfold GroupWriter.write_cell in E. destruct (_ !! c) as [cb|] eqn:Ec; [|done].
  destruct (_ !! s) as [data|] eqn:Es; [|done].
  destruct (_ <=? _); [|by injection E as <-]. eapply flush_counted; [ | |exact E]; [|exact Hw].
  apply Forall_insert; [done|]. cbn. pose proof (Forall_lookup_1 _ _ _ _ Hle Ec) as Hcb.
  apply Forall_insert; [done|]. destruct (Forall_lookup_1 _ _ _ _ Hb Ec) as (_ & _ & Hd).
  pose proof (Forall_lookup_1 _ _ _ _ Hd Es). cbv beta in *. rewrite length_app. cbn. lia.
Qed.

Lemma flushes_counted i js g g' : buffers_le g -> counted (GroupWriter.m_writer g) ->
  ofold (fun j => GroupWriter.flush_block cfg j i) js g = Ok g' ->
  buffers_le g' /\ counted (GroupWriter.m_writer g').
Proof.
  revert g. induction js as [|j js IH]; intros g Hb Hw; cbn [ofold]; [by intros [= <-]|].
  destruct (GroupWriter.flush_block cfg j i g) as [g1| |] eqn:E; [|done|done]. cbn [obind].
  destruct (flush_counted _ _ _ _ Hb Hw E). by apply IH.
Qed.

Lemma close_counted todo g fs g' fs' : buffers_le g -> counted (GroupWriter.m_writer g) ->
  ofold (GroupWriter.close_one cfg) todo (g, fs) = Ok (g', fs') -> counted (GroupWriter.m_writer g').
Proof.
  revert g fs. induction todo as [|i todo IH]; intros g fs Hb Hw; cbn [ofold]; [by intros [= <- <-]|].
  destruct (GroupWriter.close_one cfg i (g, fs)) as [[g1 fs1]| |] eqn:E; [|done|done]. cbn [obind].
  unfold GroupWriter.close_one in E. cbn [fst snd] in E.
  destruct (ofold _ _ g) as [g0| |] eqn:E0; [|done|done]. cbn [obind] in E.
  destruct (flushes_counted _ _ _ _ Hb Hw E0) as [Hb0 Hw0].
  unfold BlockWriter.close_segment in E. destruct (_ !! i) as [[[name contents]|]|]; try done.
  destruct (_ !! i) as [seg|]; [|done]. destruct (BlockWriter.blocks_save _ _) as [o|]; [|done].
  injection E as <- <-. by apply IH.
Qed.
End counted.

(** Every block of a new array can be counted by the decoders. *)
Lemma write_array_counted `{Lz4, Platform} cfg index n k ops fs g fs' : (0 < k)%nat ->
  SFRAME_WRITER_MAX_BUFFERED_CELLS_PER_BLOCK cfg < 2 ^ 31 ->
  write_array cfg index n k ops fs = Ok (g, fs') -> counted (GroupWriter.m_writer g).
Proof.
  intros Hk Hcfg. unfold write_array. rewrite open_group by done. cbn [obind].
  destruct (write_cells cfg ops _) as [g1| |] eqn:E; [|done|done]. cbn [obind].
  set (B := Z.max SARRAY_WRITER_INITAL_ELEMENTS_PER_BLOCK (SFRAME_WRITER_MAX_BUFFERED_CELLS_PER_BLOCK cfg)).
  assert (SARRAY_WRITER_INITAL_ELEMENTS_PER_BLOCK <= B /\
          SFRAME_WRITER_MAX_BUFFERED_CELLS_PER_BLOCK cfg <= B /\ B < 2 ^ 31) as (HB & HB' & HB31).
  { unfold B, SARRAY_WRITER_INITAL_ELEMENTS_PER_BLOCK. lia. }
  destruct (write_cells_counted cfg n k B HB HB' HB31 ops _ _ (opening_memory cfg n k B HB ltac:(lia) index)
              ltac:(unfold counted; cbn; apply Forall_replicate, Forall_replicate, Forall_nil_2) E) as [Hm Hc].
  unfold GroupWriter.close. destruct (GroupWriter.m_array_open g1); [|done]. cbn [negb].
  apply (close_counted cfg B HB HB31); [|done]. by apply memory_buffers_le in Hm.
Qed.

(** C13. However much is written, the writer never holds more cells in memory than
    SFRAME_WRITER_MAX_BUFFERED_CELLS, or than the initial 16 of every column of
    every segment where those are more: the estimate of the block size, which
    is computed in single precision, cannot push it further. *)
Theorem buffered_cells_bounded `{Lz4, Platform} cfg index n k ops g0 g : (0 < k)%nat ->
  GroupWriter.open index n k GroupWriter.new = Ok g0 -> write_cells cfg ops g0 = Ok g ->
  Z.of_nat (buffered g) <= Z.max (SFRAME_WRITER_MAX_BUFFERED_CELLS cfg)
    (SARRAY_WRITER_INITAL_ELEMENTS_PER_BLOCK * Z.of_nat (n * k)).
Proof.
  intros Hk Hopen Hw. rewrite open_group in Hopen by done. injection Hopen as <-.
  set (B := Z.max SARRAY_WRITER_INITAL_ELEMENTS_PER_BLOCK
              (SFRAME_WRITER_MAX_BUFFERED_CELLS cfg / Z.of_nat (n * k))).
  assert (memory_inv n k B g) as Hg.
  { eapply (write_cells_memory cfg n k B); [unfold B; lia|unfold B; lia| |exact Hw].
    apply (opening_memory cfg); unfold B; lia. }
  apply (memory_bound cfg) in Hg; [|unfold B; lia..].
  transitivity (Z.of_nat (n * k) * B); [lia|]. unfold B, SARRAY_WRITER_INITAL_ELEMENTS_PER_BLOCK.
  destruct (Z.max_spec 16 (SFRAME_WRITER_MAX_BUFFERED_CELLS cfg / Z.of_nat (n * k))) as [[_ ->]|[_ ->]]; [|lia].
  pose proof (Z.mul_div_le (SFRAME_WRITER_MAX_BUFFERED_CELLS cfg) (Z.of_nat (n * k))).
  destruct (n * k)%nat eqn:E; lia.
Qed.

Lemma buffered_cells_bounded_witness : exists g0 g,
  GroupWriter.open [Byte.x61] 1 1 GroupWriter.new = Ok g0 /\
  @write_cells sample_lz4 sample_platform default_settings [(0, 0, FInt 7); (0, 0, FUndefined)]%nat g0 = Ok g /\
  Z.of_nat (buffered g) <= Z.max (256 * 1024) 16.
Proof.
  eexists _, _. split; [reflexivity|]. split; [reflexivity|].
  refine (@buffered_cells_bounded sample_lz4 sample_platform default_settings [Byte.x61] 1 1
    [(0, 0, FInt 7); (0, 0, FUndefined)]%nat _ _ _ eq_refl eq_refl). lia.
Defined.
