(* ===== verification/BlockReaderCorrect.v ===== *)
(** The reader of an SArray is correct: whatever was read before, in whatever
    order, by however many readers of the same cache, and whichever blocks were
    evicted, a read returns the rows asked for.

    [runs a r Q]: the action [a] from [r] gives a value, and [Q] holds of it and
    of the reader afterwards. *)
From Stdlib Require Import ZArith Lia List Bool.
From stdpp Require Import prelude gmap.
From coqutil Require Import Byte Word.LittleEndianList.
From S2P Require Import Prelude.
From S2P Require Import Archive.
From S2P Require Import DenseBitset.
From S2P Require Import FlexibleType.
From S2P Require Import TypeEncoding.
From S2P Require Import FlexibleOps.
From S2P Require Import BlockStore.
From S2P Require Import BlockReader.
Import BlockReader.

(** ** Actions that succeed *)

Definition runs {A} (a : action A) (r : reader) (Q : A -> reader -> Prop) : Prop :=
  exists x r', a r = (Value x, r') /\ Q x r'.

Section runs.
Context {A B : Type}.

Lemma runs_ret (x : A) r (Q : A -> reader -> Prop) : Q x r -> runs (ret x) r Q.
Proof. intros H. by exists x, r. Qed.
Lemma runs_bind (m : action A) (k : A -> action B) r P Q :
  runs m r P -> (forall x r', P x r' -> runs (k x) r' Q) -> runs (bind m k) r Q.
Proof.
  intros (x & r' & E & Hx) Hk. destruct (Hk x r' Hx) as (y & r'' & E' & Hy).
  exists y, r''. unfold bind. by rewrite E.
Qed.
Lemma runs_mono (m : action A) r (P Q : A -> reader -> Prop) :
  runs m r P -> (forall x r', P x r' -> Q x r') -> runs m r Q.
Proof. intros (x & r' & E & Hx) H. exists x, r'. auto. Qed.
Lemma runs_get (f : reader -> A) (k : A -> action B) r Q : runs (k (f r)) r Q -> runs (bind (get f) k) r Q.
Proof. done. Qed.
Lemma runs_lift (o : outcome A) x (k : A -> action B) r Q :
  o = Ok x -> runs (k x) r Q -> runs (bind (lift o) k) r Q.
Proof. intros -> H. exact H. Qed.
Lemma runs_lift_opt (o : option A) x (k : A -> action B) r Q :
  o = Some x -> runs (k x) r Q -> runs (bind (lift_opt o) k) r Q.
Proof. intros -> H. exact H. Qed.
Lemma runs_modify (f : reader -> reader) (k : unit -> action B) r Q :
  runs (k tt) (f r) Q -> runs (bind (modify f) k) r Q.
Proof. done. Qed.
Lemma runs_assoc {C} (m : action A) (k : A -> action B) (k' : B -> action C) r Q :
  runs (bind m (fun x => bind (k x) k')) r Q -> runs (bind (bind m k) k') r Q.
Proof.
  intros (x & r' & E & H). exists x, r'. split; [|done]. rewrite <- E. unfold bind.
  by destruct (m r) as [[]].
Qed.
Lemma runs_ret_bind (x : A) (k : A -> action B) r Q : runs (k x) r Q -> runs (bind (ret x) k) r Q.
Proof. done. Qed.
Lemma runs_entry i c (k : cache_entry -> action B) r Q : m_cache r !! i = Some c ->
  runs (k c) r Q -> runs (bind (get_entry i) k) r Q.
Proof.
  intros E (y & r' & E' & H). exists y, r'. split; [|done]. unfold bind, get_entry, get, lift_opt, lift, of_option.
  cbn. unfold bind. cbn. by rewrite E.
Qed.
End runs.

(** ** Rows *)

(** Rows [lo] to [hi - 1] *)
Definition slice {A} (lo hi : nat) (l : list A) : list A := take (hi - lo) (drop lo l).

Lemma length_slice {A} lo hi (l : list A) : (hi <= length l)%nat -> length (slice lo hi l) = (hi - lo)%nat.
Proof. intros H. unfold slice. rewrite length_take, length_drop. lia. Qed.
Lemma slice_app {A} a b c (l : list A) : (a <= b <= c)%nat -> slice a b l ++ slice b c l = slice a c l.
Proof.
  intros H. unfold slice. assert (drop b l = drop (b - a) (drop a l)) as -> by (rewrite drop_drop; f_equal; lia).
  rewrite take_take_drop. f_equal. lia.
Qed.
Lemma slice_nil {A} a (l : list A) : slice a a l = [].
Proof. unfold slice. by rewrite Nat.sub_diag. Qed.

(** The first row of block [i] *)
Definition start_of (chunks : list (list flexible_type)) (i : nat) : nat := length (concat (take i chunks)).
Definition starts_of (chunks : list (list flexible_type)) : list nat :=
  map (start_of chunks) (seq 0 (S (length chunks))).

Lemma start_of_S chunks i chunk : chunks !! i = Some chunk ->
  start_of chunks (S i) = (start_of chunks i + length chunk)%nat.
Proof.
  intros E. unfold start_of. rewrite (take_S_r _ _ _ E), concat_app, length_app. cbn. by rewrite app_nil_r.
Qed.
Lemma starts_lookup chunks i : (i <= length chunks)%nat -> starts_of chunks !! i = Some (start_of chunks i).
Proof.
  intros H. unfold starts_of. change (map ?f ?l) with (f <$> l). rewrite list_lookup_fmap.
  by rewrite (proj2 (lookup_seq 0 (S (length chunks)) i i)) by lia.
Qed.
Lemma start_of_all chunks : start_of chunks (length chunks) = length (concat chunks).
Proof. unfold start_of. by rewrite take_ge. Qed.

Lemma slice_chunk chunks i chunk a b : chunks !! i = Some chunk ->
  (start_of chunks i <= a)%nat -> (b <= start_of chunks (S i))%nat ->
  slice a b (concat chunks) = take (b - a) (drop (a - start_of chunks i) chunk).
Proof.
  intros E Ha Hb. rewrite (start_of_S _ _ _ E) in Hb. unfold start_of, slice in *.
  rewrite <- (take_drop_middle _ _ _ E) at 1. rewrite concat_app. cbn.
  set (front := concat (take i chunks)) in *.
  replace (drop a (front ++ chunk ++ concat (drop (S i) chunks)))
    with (drop (a - length front) (chunk ++ concat (drop (S i) chunks))).
  2: { replace a with (length front + (a - length front))%nat at 2 by lia.
       by rewrite <- drop_drop, drop_app_length. }
  destruct (Nat.le_gt_cases b a) as [Hle|Hlt].
  { by replace (b - a)%nat with 0%nat by lia. }
  rewrite drop_app_le by lia. rewrite take_app_le; [done|]. rewrite length_drop. lia.
Qed.

(** ** The invariant of the cache *)

(** Both decoders read these values from the bytes of a block *)
Definition decodes (info : block_info) (raw : bytes) (chunk : list flexible_type) : Prop :=
  forall ret, typed_decode info raw ret = Some (true, chunk) /\
              typed_decode_stream_callback info raw = Some (true, stream_expected chunk).

Lemma stream_extra chunk : exists extra, stream_expected chunk = chunk ++ extra.
Proof. unfold stream_expected. destruct (_ && _); [eauto|exists []]. by rewrite app_nil_r. Qed.

Section cache.
Context (chunks : list (list flexible_type)) (segs : list column_address).

(** What an entry that has data holds: the block decoded, or encoded with a range
    that has read up to [buffer_start_row] *)
Definition entry_data (i : nat) (c : cache_entry) : Prop :=
  exists chunk, chunks !! i = Some chunk /\
  if is_encoded c then
    (start_of chunks i <= buffer_start_row c <= start_of chunks (S i))%nat /\
    exists info raw, encoded_buffer c = mk_encoded info (Some raw) /\ decodes info raw chunk /\
      let rd := encoded_buffer_reader c in
      if coroutine_started rd
      then exists extra, rg_pending rd = drop (buffer_start_row c - start_of chunks i) (chunk ++ extra)
      else rg_block rd = encoded_buffer c /\ buffer_start_row c = start_of chunks i
  else buffer c = Some chunk /\ buffer_start_row c = start_of chunks i.
Definition entry_inv (i : nat) (c : cache_entry) : Prop := has_data c = true -> entry_data i c.

Record rinv (addrs : list block_address) (r : reader) : Prop := {
  ri_addrs : m_block_list r = addrs;
  ri_segments : m_segment_list r = segs;
  ri_starts : m_start_row r = starts_of chunks;
  ri_rows : m_num_rows r = length (concat chunks);
  ri_cache : length (m_cache r) = length chunks;
  ri_used : DenseBitset.wf (m_used_cache_entries r) /\
            DenseBitset.len (m_used_cache_entries r) = length chunks;
  ri_entries : forall i c, m_cache r !! i = Some c -> entry_inv i c
}.

Definition locks (r : reader) : list bool := map locked (m_cache r).

(** The reader still satisfies its invariant, and neither a lock nor the entry of
    block [i] has changed *)
Definition keeps (addrs : list block_address) (i : nat) (r r' : reader) : Prop :=
  rinv addrs r' /\ locks r' = locks r /\ m_cache r' !! i = m_cache r !! i.

Context (addrs : list block_address).

Lemma set_entry_rinv r i c : rinv addrs r -> entry_inv i c ->
  rinv addrs (set_cache (<[i := c]> (m_cache r)) r).
Proof.
  intros [H1 H1' H2 H3 H4 H5 H6] Hc. split; cbn; try done; [by rewrite length_insert|].
  intros j c' E. apply list_lookup_insert_Some in E as [(<- & <- & _)|[_ E]]; [done|auto].
Qed.

Lemma set_used_rinv r u z : rinv addrs r -> DenseBitset.wf u -> DenseBitset.len u = length chunks ->
  rinv addrs (set_used u z r).
Proof. intros [H1 H1' H2 H3 H4 H5 H6] Hu Hl. by split. Qed.
Lemma set_random_rinv r l : rinv addrs r -> rinv addrs (set_random l r).
Proof. intros [H1 H1' H2 H3 H4 H5 H6]. by split. Qed.

Lemma locks_insert r i c c' : m_cache r !! i = Some c -> locked c' = locked c ->
  map locked (<[i := c']> (m_cache r)) = locks r.
Proof.
  intros E Hl. change (locked <$> <[i := c']> (m_cache r) = locked <$> m_cache r).
  rewrite list_fmap_insert, Hl. apply list_insert_id. by rewrite list_lookup_fmap, E.
Qed.

Lemma update_bit b (v : bool) r : rinv addrs r -> (b < length chunks)%nat ->
  exists x u, (if v then DenseBitset.set_bit else DenseBitset.clear_bit) (m_used_cache_entries r) b = Some (x, u) /\
    DenseBitset.wf u /\ DenseBitset.len u = length chunks.
Proof.
  intros Hr Hb. destruct (ri_used _ _ Hr) as [Hw Hl].
  destruct (DenseBitset.exec_refines (DenseBitset.OSet b v) (m_used_cache_entries r) Hw)
    as (u & E & Hu & Hlu & _); [cbn; lia|].
  cbn [DenseBitset.spec_len] in Hlu. exists (DenseBitset.bit (m_used_cache_entries r) b), u.
  split_and!; [by destruct v|done|lia].
Qed.

(** ** Releasing and evicting *)

Lemma release_cache_spec b r c : rinv addrs r -> m_cache r !! b = Some c ->
  runs (release_cache b) r (fun _ r' => rinv addrs r' /\ locks r' = locks r /\
    forall j, j <> b -> m_cache r' !! j = m_cache r !! j).
Proof.
  intros Hr Ec. assert (b < length chunks)%nat as Hb.
  { rewrite <- (ri_cache _ _ Hr). by eapply lookup_lt_Some. }
  unfold release_cache. eapply runs_entry; [exact Ec|]. destruct (has_data c); [|by apply runs_ret].
  apply runs_modify. apply runs_get. apply runs_get.
  set (r1 := set_cache _ r).
  assert (rinv addrs r1) as Hr1 by (apply set_entry_rinv; [done|discriminate]).
  destruct (update_bit b false r1 Hr1 Hb) as (x & u & E & Hu & Hl).
  eapply runs_lift_opt; [exact E|]. eexists _, _. split; [reflexivity|]. split_and!.
  - by apply set_used_rinv.
  - unfold locks, r1. cbn. by erewrite locks_insert.
  - intros j Hj. unfold r1. cbn. by rewrite list_lookup_insert_ne.
Qed.

Lemma next_bit_in used b : DenseBitset.wf used -> (b < DenseBitset.len used)%nat ->
  exists o, DenseBitset.next_bit used b = Some o /\ forall j, o = Some j -> (j < DenseBitset.len used)%nat.
Proof.
  intros Hw Hb. destruct (DenseBitset.next_in_spec (fun w => w) used b) as (o & E & Hl).
  - intros w Hin. eapply Forall_forall in Hin; [exact Hin|]. apply Hw.
  - rewrite (DenseBitset.wf_arrlen _ Hw). pose proof (DenseBitset.words_for_bounds (DenseBitset.len used)). lia.
  - exists o. split; [exact E|]. intros j ->. destruct Hl as (_ & Hj & _).
    destruct (Nat.lt_ge_cases j (DenseBitset.len used)) as [|Hge]; [done|].
    pose proof (DenseBitset.wf_trailing _ Hw j Hge) as Ht. unfold DenseBitset.bit in Ht. congruence.
Qed.

Lemma pick_in used b : DenseBitset.wf used -> (b < DenseBitset.len used)%nat ->
  exists j, pick used b = Some j /\ (j < DenseBitset.len used)%nat.
Proof.
  intros Hw Hb. unfold pick. rewrite (DenseBitset.get_spec used b) by done. cbn [mbind option_bind].
  destruct (DenseBitset.bit used b); [eauto|].
  destruct (next_bit_in used b Hw Hb) as (o & -> & Ho). cbn [mbind option_bind]. destruct o as [j|]; [eauto|].
  rewrite DenseBitset.get_spec by (done || lia). cbn [mbind option_bind].
  destruct (DenseBitset.bit used 0); [exists 0%nat; split; [done|lia]|].
  destruct (next_bit_in used 0 Hw) as (o & -> & Ho'); [lia|]. exists (default 0%nat o).
  split; [done|]. destruct o as [j|]; cbn; [auto|lia].
Qed.

(** An eviction while the lock of block [i] is held leaves that block alone. *)
Lemma try_evict_spec i c r : rinv addrs r -> m_cache r !! i = Some c -> locked c = true ->
  runs try_evict_something_from_cache r (fun _ r' => keeps addrs i r r').
Proof.
  intros Hr Ei Hlk. assert (i < length chunks)%nat as Hi.
  { rewrite <- (ri_cache _ _ Hr). by eapply lookup_lt_Some. }
  unfold try_evict_something_from_cache. apply runs_get.
  eapply (runs_bind _ _ _ (fun b r' => (b < length chunks)%nat /\ rinv addrs r' /\ m_cache r' = m_cache r)).
  { unfold fast_uniform. apply runs_get. rewrite (ri_cache _ _ Hr). destruct (random r) as [|x l].
    - apply runs_ret. split_and!; [lia|done|done].
    - apply runs_modify, runs_ret. split_and!; [apply Nat.mod_upper_bound; lia|by apply set_random_rinv|done]. }
  intros b r1 (Hb & Hr1 & Ec). apply runs_get. destruct (ri_used _ _ Hr1) as [Hw Hl].
  destruct (pick_in _ b Hw) as (j & Ej & Hj); [lia|]. eapply runs_lift_opt; [exact Ej|].
  destruct (lookup_lt_is_Some_2 (m_cache r1) j) as [cj Ecj]; [rewrite (ri_cache _ _ Hr1); lia|].
  eapply runs_entry; [exact Ecj|]. destruct (locked cj) eqn:Elk.
  { apply runs_ret. split_and!; [done|unfold locks; by rewrite Ec|by rewrite Ec]. }
  assert (j <> i) as Hne by (intros ->; rewrite Ec in Ecj; congruence).
  apply runs_modify. set (r2 := set_cache _ r1).
  assert (m_cache r2 !! j = Some (set_locked true cj)) as E2.
  { unfold r2. cbn. rewrite list_lookup_insert_eq; [done|]. by eapply lookup_lt_Some. }
  assert (rinv addrs r2) as Hr2.
  { apply set_entry_rinv; [done|]. exact (ri_entries _ _ Hr1 j cj Ecj). }
  eapply runs_bind; [exact (release_cache_spec j r2 _ Hr2 E2)|]. intros _ r3 (Hr3 & Hl3 & Hc3).
  destruct (lookup_lt_is_Some_2 (m_cache r3) j) as [c3 Ec3]; [rewrite (ri_cache _ _ Hr3); lia|].
  unfold unlock. eapply runs_entry; [exact Ec3|]. eexists _, _. split; [reflexivity|]. split_and!.
  - apply set_entry_rinv; [done|]. exact (ri_entries _ _ Hr3 j c3 Ec3).
  - unfold locks in *. cbn. change (map locked (<[j:=set_locked false c3]> (m_cache r3)))
      with (locked <$> <[j:=set_locked false c3]> (m_cache r3)).
    rewrite list_fmap_insert. change (locked <$> m_cache r3) with (map locked (m_cache r3)). rewrite Hl3.
    unfold r2. cbn. change (map locked (<[j:=set_locked true cj]> (m_cache r1)))
      with (locked <$> <[j:=set_locked true cj]> (m_cache r1)).
    rewrite list_fmap_insert, list_insert_insert_eq, Ec.
    apply list_insert_id. rewrite list_lookup_fmap, <- Ec, Ecj. cbn. by rewrite Elk.
  - cbn. rewrite list_lookup_insert_ne by done. rewrite Hc3 by done. unfold r2. cbn.
    by rewrite list_lookup_insert_ne, Ec by done.
Qed.

Lemma keeps_trans i r1 r2 r3 : keeps addrs i r1 r2 -> keeps addrs i r2 r3 -> keeps addrs i r1 r3.
Proof. intros (H1 & H2 & H3) (H4 & H5 & H6). split_and!; [done|congruence|congruence]. Qed.

Lemma evict_loop_spec i c n max_blocks : forall r, rinv addrs r -> m_cache r !! i = Some c ->
  locked c = true -> runs (evict_loop max_blocks n) r (fun _ r' => keeps addrs i r r').
Proof.
  induction n as [|n IH]; intros r Hr Ei Hlk; [by apply runs_ret|]. cbn. apply runs_get.
  destruct (_ <? _); [|by apply runs_ret].
  eapply runs_bind; [exact (try_evict_spec i c r Hr Ei Hlk)|]. intros [] r1 H1.
  eapply (runs_mono _ _ (fun _ r' => keeps addrs i r1 r')); [apply IH; [apply H1|by rewrite (proj2 (proj2 H1))|done]|].
  intros _ r2 H2. by eapply keeps_trans.
Qed.
End cache.

(** ** Reading a block *)

Section reading.
Context `{L : Lz4} (cfg : settings) (fs : files) (m : BlockManager.block_manager).
Context (chunks : list (list flexible_type)) (segs : list column_address) (addrs : list block_address).

(** The block manager leads every address to its block *)
Definition source_ok : Prop :=
  length addrs = length chunks /\ Forall (fun ch => ch <> []) chunks /\
  forall i addr chunk, addrs !! i = Some addr -> chunks !! i = Some chunk ->
    exists raw info, BlockManager.read_block fs addr m = Ok (Some (raw, info)) /\ decodes info raw chunk.
Context (Hsrc : source_ok).

(** The lock of block [i] is held, and the others are as in [r] *)
Definition held (i : nat) (r r' : reader) : Prop :=
  rinv chunks segs addrs r' /\ locks r' = <[i := true]> (locks r) /\ (i < length chunks)%nat.

Lemma held_entry i r r' : held i r r' -> exists c, m_cache r' !! i = Some c /\ locked c = true /\ entry_inv chunks i c.
Proof.
  intros (Hr & Hl & Hi). destruct (lookup_lt_is_Some_2 (m_cache r') i) as [c Ec].
  { rewrite (ri_cache _ _ _ _ Hr). done. }
  exists c. split_and!; [done| |by eapply ri_entries].
  assert (locks r' !! i = Some (locked c)) as E.
  { unfold locks. change (map locked ?l) with (locked <$> l). by rewrite list_lookup_fmap, Ec. }
  assert (length (locks r) = length chunks) as Hlen.
  { apply (f_equal length) in Hl. rewrite length_insert in Hl. rewrite <- Hl. unfold locks. rewrite length_map.
    apply Hr. }
  rewrite Hl, list_lookup_insert_eq in E by lia. congruence.
Qed.

Lemma held_set i c r r' : held i r r' -> locked c = true -> entry_inv chunks i c ->
  held i r (set_cache (<[i := c]> (m_cache r')) r').
Proof.
  intros H Hc Hinv. destruct (held_entry _ _ _ H) as (c0 & E0 & Hc0 & _). destruct H as (Hr & Hl & Hi).
  split_and!; [by apply set_entry_rinv| |done]. rewrite <- Hl. unfold locks at 1. cbn.
  apply (locks_insert r' i c0 c E0). congruence.
Qed.

Lemma held_keeps i r r1 r2 : held i r r1 -> keeps chunks segs addrs i r1 r2 -> held i r r2.
Proof. intros (H1 & H2 & H3) (G1 & G2 & _). split_and!; [done|congruence|done]. Qed.

Lemma held_release i r r' : held i r r' -> runs (release_cache i) r' (fun _ r'' => held i r r'').
Proof.
  intros H. destruct (held_entry _ _ _ H) as (c & E & _ & _). destruct H as (Hr & Hl & Hi).
  eapply runs_mono; [exact (release_cache_spec chunks segs addrs i r' c Hr E)|]. intros _ r'' (H1 & H2 & _).
  split_and!; [done|congruence|done].
Qed.

Lemma lock_spec i c r : rinv chunks segs addrs r -> m_cache r !! i = Some c -> locked c = false ->
  runs (lock i) r (fun _ r' => held i r r').
Proof.
  intros Hr Ec Hl. unfold lock. eapply runs_entry; [exact Ec|]. rewrite Hl.
  eexists _, _. split; [reflexivity|]. split_and!.
  - apply set_entry_rinv; [done|]. exact (ri_entries _ _ _ _ Hr i c Ec).
  - unfold locks. cbn. change (map locked (<[i:=set_locked true c]> (m_cache r)))
      with (locked <$> <[i:=set_locked true c]> (m_cache r)). by rewrite list_fmap_insert.
  - rewrite <- (ri_cache _ _ _ _ Hr). by eapply lookup_lt_Some.
Qed.

Lemma unlock_spec i r r' : locks r !! i = Some false -> held i r r' ->
  runs (unlock i) r' (fun _ r'' => rinv chunks segs addrs r'' /\ locks r'' = locks r).
Proof.
  intros Hl H. destruct (held_entry _ _ _ H) as (c & Ec & _ & Hinv). destruct H as (Hr & Hlk & _).
  unfold unlock. eapply runs_entry; [exact Ec|]. eexists _, _. split; [reflexivity|]. split.
  - by apply set_entry_rinv.
  - unfold locks in *. cbn. change (map locked (<[i:=set_locked false c]> (m_cache r')))
      with (locked <$> <[i:=set_locked false c]> (m_cache r')).
    rewrite list_fmap_insert. change (locked <$> m_cache r') with (map locked (m_cache r')).
    rewrite Hlk, list_insert_insert_eq. by apply list_insert_id.
Qed.

(** A freshly fetched entry *)
Lemma fresh_entry i info raw chunk : chunks !! i = Some chunk -> decodes info raw chunk ->
  entry_inv chunks i (mk_entry true (start_of chunks i) true true None (encoded_init info raw)
                        (range_of (encoded_init info raw))).
Proof.
  intros E Hd _. exists chunk. split; [done|]. cbn. rewrite (start_of_S _ _ _ E). split; [lia|].
  exists info, raw. by split_and!.
Qed.

Lemma fetch_spec i r r' : held i r r' ->
  runs (fetch_cache_from_file cfg fs m i) r' (fun _ r'' => held i r r'' /\
    exists c, m_cache r'' !! i = Some c /\ locked c = true /\ has_data c = true /\ entry_data chunks i c).
Proof.
  intros H. destruct (held_entry _ _ _ H) as (c & Ec & Hc & Hinv).
  destruct Hsrc as (Hlen & _ & Hblk). pose proof H as (Hr & _ & Hi).
  destruct (lookup_lt_is_Some_2 chunks i Hi) as [chunk Ech].
  destruct (lookup_lt_is_Some_2 addrs i) as [addr Ea]; [lia|].
  destruct (Hblk i addr chunk Ea Ech) as (raw & info & Erd & Hdec).
  unfold fetch_cache_from_file. eapply runs_entry; [exact Ec|]. apply runs_modify, runs_get.
  cbn [m_block_list set_cache]. rewrite (ri_addrs _ _ _ _ Hr). eapply runs_lift_opt; [exact Ea|].
  eapply runs_lift; [exact Erd|]. cbn beta iota. apply runs_get. cbn [m_start_row set_cache].
  rewrite (ri_starts _ _ _ _ Hr). eapply runs_lift_opt; [apply starts_lookup; lia|].
  apply runs_modify. cbn [m_cache set_cache]. rewrite list_insert_insert_eq, Hc.
  set (e := mk_entry true _ _ _ _ _ _).
  change (set_cache (<[i:=e]> (m_cache r')) (set_cache ?x r')) with (set_cache (<[i:=e]> (m_cache r')) r').
  pose proof (fresh_entry i info raw chunk Ech Hdec : entry_inv chunks i e) as He.
  pose proof (held_set i e r r' H eq_refl He) as H1. set (r1 := set_cache _ r') in *.
  assert (m_cache r1 !! i = Some e) as Ee.
  { unfold r1. cbn. rewrite list_lookup_insert_eq; [done|]. by eapply lookup_lt_Some. }
  destruct (ri_used _ _ _ _ (proj1 H1)) as [Hw Hl]. apply runs_get.
  eapply runs_lift_opt; [apply DenseBitset.get_spec; [exact Hw|lia]|]. apply runs_get.
  destruct (update_bit chunks segs addrs i true r1 (proj1 H1) Hi) as (x & u & Eu & Hu & Hlu).
  eapply runs_lift_opt; [exact Eu|]. apply runs_modify. set (r2 := set_used _ _ r1).
  assert (rinv chunks segs addrs r2) as Hr2 by (apply set_used_rinv; [apply H1|done|done]).
  eapply runs_mono; [apply (evict_loop_spec chunks segs addrs i e); [done|exact Ee|done]|].
  intros [] r3 Hk. split.
  - eapply held_keeps; [|exact Hk]. destruct H1 as (_ & H1 & _). by split_and!.
  - exists e. split_and!; [|done|done|by apply He]. rewrite (proj2 (proj2 Hk)). exact Ee.
Qed.

(** ** The encoded range *)

Lemma call_source_spec i c chunk : chunks !! i = Some chunk -> has_data c = true -> is_encoded c = true ->
  entry_data chunks i c -> exists extra, call_source (encoded_buffer_reader c) =
    Ok (drop (buffer_start_row c - start_of chunks i) (chunk ++ extra)).
Proof.
  intros E _ He (chunk' & E' & H). rewrite E in E'. injection E' as <-. rewrite He in H.
  destruct H as (_ & info & raw & Eb & Hd & H). unfold call_source. cbv zeta in H.
  destruct (coroutine_started (encoded_buffer_reader c)).
  - destruct H as (extra & ->). by exists extra.
  - destruct H as [-> ->]. rewrite Eb. cbn. destruct (stream_extra chunk) as (extra & Es). exists extra.
    destruct (Hd []) as [_ ->]. cbn. by rewrite Nat.sub_diag, Es.
Qed.

(** An entry whose range has moved on to row [row] *)
Lemma moved_entry i c chunk row rd extra : chunks !! i = Some chunk -> is_encoded c = true ->
  entry_data chunks i c -> (start_of chunks i <= row <= start_of chunks (S i))%nat ->
  coroutine_started rd = true -> rg_pending rd = drop (row - start_of chunks i) (chunk ++ extra) ->
  entry_data chunks i (mk_entry (locked c) row (is_encoded c) (has_data c) (buffer c) (encoded_buffer c) rd).
Proof.
  intros E He (chunk' & E' & H) Hrow Hs Hp. rewrite E in E'. injection E' as <-. rewrite He in *.
  destruct H as (_ & info & raw & Eb & Hd & _). exists chunk. split; [done|]. cbn. split; [done|].
  exists info, raw. split_and!; [done|done|]. rewrite Hs. eauto.
Qed.

(** ** Copying rows *)

Lemma copy_loop (b : list flexible_type) s n : forall f, (s <= f)%nat -> (f - s + n <= length b)%nat ->
  mapM (fun j => b !! (j - s)%nat) (seq f n) = Some (take n (drop (f - s) b)).
Proof.
  induction n as [|n IH]; intros f Hf Hn; [done|]. cbn [seq mapM].
  destruct (lookup_lt_is_Some_2 b (f - s)) as [v Ev]; [lia|]. rewrite Ev. cbn.
  rewrite IH by lia. cbn. rewrite (drop_S _ _ _ Ev). cbn.
  by replace (S f - s)%nat with (S (f - s)) by lia.
Qed.

Lemma copy_rows_spec i chunk f l : chunks !! i = Some chunk -> (start_of chunks i <= f)%nat -> (f <= l)%nat ->
  (l <= start_of chunks (S i))%nat ->
  copy_rows (Some chunk) (start_of chunks i) f l = Some (slice f l (concat chunks)).
Proof.
  intros E Hf Hfl Hl. unfold copy_rows. cbn. pose proof (start_of_S _ _ _ E).
  rewrite copy_loop by lia. by rewrite (slice_chunk chunks i chunk f l E).
Qed.

Lemma rows_in i chunk f l : chunks !! i = Some chunk -> (l <= start_of chunks (S i))%nat ->
  length (slice f l (concat chunks)) = (l - f)%nat.
Proof.
  intros E Hl. apply length_slice. transitivity (start_of chunks (S i)); [done|].
  unfold start_of. rewrite <- (take_drop (S i) chunks) at 2. rewrite concat_app, length_app. lia.
Qed.

Lemma write_at_spec out idx vals : (idx + length vals <= length out)%nat ->
  write_at out idx vals = Some (take idx out ++ vals ++ drop (idx + length vals) out).
Proof. intros H. unfold write_at. by rewrite (proj2 (Nat.leb_le _ _) H). Qed.

(** Decoding the entry when the access is not sequential *)
Lemma ensure_spec i r r' chunk c : chunks !! i = Some chunk -> held i r r' -> m_cache r' !! i = Some c ->
  locked c = true -> entry_data chunks i c ->
  runs (ensure_cache_decoded i) r' (fun _ r'' => held i r r'' /\
    exists c', m_cache r'' !! i = Some c' /\ buffer c' = Some chunk).
Proof.
  intros E H Ec Hlk (chunk' & E' & Hd). rewrite E in E'. injection E' as <-.
  unfold ensure_cache_decoded. eapply runs_entry; [exact Ec|]. destruct (is_encoded c) eqn:He.
  - destruct Hd as (_ & info & raw & Eb & Hdec & _). rewrite Eb. cbn [eb_data eb_info].
    eapply runs_lift_opt; [reflexivity|]. eapply runs_lift_opt; [apply Hdec|]. apply runs_get.
    rewrite (ri_starts _ _ _ _ (proj1 H)). destruct H as (Hr & H).
    eapply runs_lift_opt; [apply starts_lookup; lia|]. eexists _, _. split; [reflexivity|]. split.
    + apply held_set; [by split|done|]. intros _. exists chunk. by split_and!.
    + eexists. split; [cbn; apply list_lookup_insert_eq; by eapply lookup_lt_Some|reflexivity].
  - apply runs_ret. split; [done|]. exists c. by split; [|apply Hd].
Qed.

(** The part of the critical section that copies, once the entry is there and a
    range that lags behind has been moved on *)
Definition row_result (idx f l : nat) (out : list flexible_type) : nat * list flexible_type :=
  ((idx + (l - f))%nat, take idx out ++ slice f l (concat chunks) ++ drop (idx + (l - f)) out).

Lemma decode_rows i chunk c f l : chunks !! i = Some chunk -> has_data c = true -> is_encoded c = true ->
  entry_data chunks i c -> buffer_start_row c = f -> (f < l)%nat -> (l <= start_of chunks (S i))%nat ->
  exists d, decode_to (l - f) (encoded_buffer_reader c) = Ok d /\ d.1 = slice f l (concat chunks) /\
    entry_data chunks i (mk_entry (locked c) l (is_encoded c) (has_data c) (buffer c) (encoded_buffer c) d.2).
Proof.
  intros E Hdata He Hent Hbsr Hfl Hl. pose proof (start_of_S _ _ _ E) as HS.
  assert (start_of chunks i <= f)%nat as Hf.
  { destruct Hent as (chunk' & _ & H). rewrite He in H. destruct H as [H _]. lia. }
  destruct (call_source_spec i c chunk E Hdata He Hent) as (extra & Ecs).
  unfold decode_to. rewrite (proj2 (Nat.eqb_neq (l - f) 0)) by lia. rewrite Ecs, Hbsr. cbn [omap_ok].
  eexists. split; [reflexivity|]. split.
  - cbn. rewrite (slice_chunk chunks i chunk f l E) by lia. rewrite drop_app_le by lia.
    rewrite take_app_le; [done|]. rewrite length_drop. lia.
  - eapply moved_entry; [exact E|done|done|lia|done|]. cbn. rewrite drop_drop.
    do 2 f_equal. lia.
Qed.

Lemma sequential_rows i chunk r r' c f l idx out : chunks !! i = Some chunk -> held i r r' ->
  m_cache r' !! i = Some c -> locked c = true -> has_data c = true -> entry_data chunks i c ->
  buffer_start_row c = f -> (f < l)%nat -> (l <= start_of chunks (S i))%nat ->
  (idx + (l - f) <= length out)%nat ->
  runs (sequential_read i (start_of chunks i) f l idx out c) r' (fun s r'' => s = row_result idx f l out /\ held i r r'').
Proof.
  intros E H Ec Hlk Hdata Hent Hbsr Hfl Hl Hout. unfold sequential_read. pose proof (rows_in i chunk f l E Hl) as Hlen.
  destruct (is_encoded c) eqn:He.
  - destruct (decode_rows i chunk c f l E Hdata He Hent Hbsr Hfl Hl) as (d & Ed & Hd1 & Hd2).
    eapply runs_lift; [exact Ed|]. rewrite Hd1.
    eapply runs_lift_opt; [apply write_at_spec; lia|]. apply runs_modify, runs_ret. rewrite Hlen.
    split; [done|]. rewrite <- He. apply held_set; [done|done|]. by intros _.
  - destruct Hent as (chunk' & E' & Hd). rewrite E in E'. injection E' as <-. rewrite He in Hd.
    destruct Hd as [-> Hst]. eapply runs_lift_opt; [apply (copy_rows_spec i chunk); [done|lia|lia|lia]|].
    eapply runs_lift_opt; [apply write_at_spec; lia|]. apply runs_ret. by rewrite Hlen.
Qed.

(** ** One block *)

(** The entry once data is there and a range that lags behind has moved on *)
Definition ready (i f : nat) (r r' : reader) : Prop :=
  held i r r' /\ exists c, m_cache r' !! i = Some c /\ locked c = true /\ has_data c = true /\
    entry_data chunks i c.

Lemma load_entry_spec i f r r' chunk : chunks !! i = Some chunk -> held i r r' ->
  (start_of chunks i <= f <= start_of chunks (S i))%nat ->
  runs (load_entry cfg fs m i f) r' (fun _ r'' => ready i f r r'').
Proof.
  intros E H Hf. destruct (held_entry _ _ _ H) as (c & Ec & Hlk & Hinv).
  unfold load_entry. eapply runs_entry; [exact Ec|].
  eapply (runs_bind _ _ _ (fun _ r1 => ready i f r r1)).
  { destruct (has_data c) eqn:Hd; [|by apply fetch_spec]. apply runs_ret. split; [done|]. exists c. auto. }
  intros [] r1 (H1 & c1 & Ec1 & Hlk1 & Hd1 & He1). eapply runs_entry; [exact Ec1|].
  destruct (Nat.ltb_spec (buffer_start_row c1) f) as [Hlt|Hge]; [|apply runs_ret; split; [done|by exists c1]].
  destruct (is_encoded c1) eqn:Henc; [|apply runs_ret; split; [done|by exists c1]]. cbn [andb].
  destruct (call_source_spec i c1 chunk E Hd1 Henc He1) as (extra & Ecs).
  assert (start_of chunks i <= buffer_start_row c1)%nat as Hb.
  { destruct He1 as (? & _ & Hx). rewrite Henc in Hx. destruct Hx as [Hx _]. lia. }
  eapply runs_lift.
  { unfold skip. rewrite (proj2 (Nat.eqb_neq (f - buffer_start_row c1) 0)) by lia. rewrite Ecs. reflexivity. }
  eexists _, _. split; [reflexivity|].
  set (c2 := mk_entry _ _ _ _ _ _ _).
  assert (entry_data chunks i c2) as He2.
  { unfold c2. rewrite <- Henc. eapply moved_entry; [exact E|done|done|done|done|]. cbn. rewrite drop_drop.
    do 2 f_equal. lia. }
  split; [apply held_set; [done|done|by intros _]|]. exists c2. split_and!; [|done|done|done].
  cbn. apply list_lookup_insert_eq. by eapply lookup_lt_Some.
Qed.

Lemma read_block_rows_spec a b i chunk c idx out r : chunks !! i = Some chunk -> rinv chunks segs addrs r ->
  m_cache r !! i = Some c -> locked c = false ->
  let f := Nat.max a (start_of chunks i) in
  let l := Nat.min b (start_of chunks (S i)) in
  (f < l)%nat -> (idx + (l - f) <= length out)%nat ->
  runs (read_block_rows cfg fs m a b i (idx, out)) r
    (fun s r' => s = row_result idx f l out /\ rinv chunks segs addrs r' /\ locks r' = locks r).
Proof.
  intros E Hr Ec Hlk f l Hfl Hout. assert (i < length chunks)%nat as Hi by (by eapply lookup_lt_Some).
  unfold read_block_rows. apply runs_get. rewrite (ri_starts _ _ _ _ Hr).
  eapply runs_lift_opt; [apply starts_lookup; lia|]. eapply runs_lift_opt; [apply starts_lookup; lia|].
  cbv zeta. fold f l.
  eapply runs_bind; [exact (lock_spec i c r Hr Ec Hlk)|]. intros [] r1 H1.
  pose proof (rows_in i chunk f l E ltac:(lia)) as Hlen.
  assert (locks r !! i = Some false) as Hlkr.
  { unfold locks. change (map locked ?x) with (locked <$> x). by rewrite list_lookup_fmap, Ec, <- Hlk. }
  eapply runs_bind; [exact (load_entry_spec i f r r1 chunk E H1 ltac:(lia))|].
  intros [] r2 (H2 & c2 & Ec2 & Hlk2 & Hd2 & He2). eapply runs_entry; [exact Ec2|]. cbn [fst snd].
  eapply (runs_bind _ _ _ (fun s r' => s = row_result idx f l out /\ held i r r')).
  { destruct (Nat.eqb_spec (buffer_start_row c2) f) as [Hseq|Hrnd].
    - eapply runs_bind; [apply (sequential_rows i chunk r); eauto; lia|]. intros s r3 [-> H3].
      eapply (runs_bind _ _ _ (fun _ r' => held i r r')); [|intros [] r4 H4; by apply runs_ret].
      destruct (_ =? _)%nat; [by apply held_release|by apply runs_ret].
    - unfold random_read. eapply runs_bind; [by apply (ensure_spec i r r2 chunk c2)|].
      intros [] r3 (H3 & c3 & Ec3 & Eb). eapply runs_entry; [exact Ec3|]. rewrite Eb.
      eapply runs_lift_opt; [apply (copy_rows_spec i chunk); [done|lia|lia|lia]|].
      eapply runs_lift_opt; [apply write_at_spec; lia|]. apply runs_ret. by rewrite Hlen. }
  intros s r3 [-> H3]. eapply runs_bind; [by apply unlock_spec|]. intros [] r4 H4. by apply runs_ret.
Qed.

(** ** Which blocks *)

Lemma start_of_mono i j : (i <= j)%nat -> (start_of chunks i <= start_of chunks j)%nat.
Proof.
  intros H. unfold start_of. replace j with (i + (j - i))%nat by lia.
  rewrite <- take_take_drop, concat_app, length_app. lia.
Qed.

Lemma start_of_lt i : (i < length chunks)%nat -> (start_of chunks i < start_of chunks (S i))%nat.
Proof.
  intros H. destruct (lookup_lt_is_Some_2 _ _ H) as [ch E]. rewrite (start_of_S _ _ _ E).
  destruct Hsrc as (_ & Hne & _). pose proof (Forall_lookup_1 _ _ _ _ Hne E). destruct ch; [done|]. cbn. lia.
Qed.

Lemma lower_bound_spec l row : let j := lower_bound l row in
  (j <= length l)%nat /\ (forall i x, (i < j)%nat -> l !! i = Some x -> (x < row)%nat) /\
  (forall x, l !! j = Some x -> (row <= x)%nat).
Proof.
  induction l as [|y l IH]; [split_and!; [done|cbn; lia|done]|]. cbv zeta in *. cbn [lower_bound length].
  destruct (Nat.ltb_spec y row) as [Hlt|Hge].
  - destruct IH as (H1 & H2 & H3). split_and!; [lia| |done].
    intros [|i] x Hi; cbn; [by intros [= <-]|]. apply H2. lia.
  - split_and!; [lia|intros; lia|]. by intros x [= <-].
Qed.

(** The block search finds the block that contains the row. *)
Lemma block_offset_spec r row : rinv chunks segs addrs r -> (row < length (concat chunks))%nat ->
  exists i, block_offset_containing_row r row = Some i /\ (i < length chunks)%nat /\
    (start_of chunks i <= row < start_of chunks (S i))%nat.
Proof.
  intros Hr Hrow. unfold block_offset_containing_row. rewrite (ri_starts _ _ _ _ Hr), (ri_addrs _ _ _ _ Hr).
  destruct Hsrc as (-> & _ & _). set (n := length chunks).
  destruct (lower_bound_spec (starts_of chunks) row) as (H1 & H2 & H3).
  set (j := lower_bound (starts_of chunks) row) in *. clearbody j.
  assert (forall k, (k < j)%nat -> (k <= n)%nat -> (start_of chunks k < row)%nat) as Hlo.
  { intros k Hk Hkn. apply (H2 k); [done|]. by apply starts_lookup. }
  assert (j <= n)%nat as Hj.
  { destruct (Nat.le_gt_cases j n) as [|Hgt]; [done|]. specialize (Hlo n Hgt ltac:(lia)).
    unfold n in Hlo. rewrite start_of_all in Hlo. lia. }
  specialize (H3 _ (starts_lookup chunks j Hj)). destruct (Nat.ltb_spec j n) as [Hlt|Hge].
  - rewrite starts_lookup by done. cbn [mbind option_bind]. destruct (Nat.eqb_spec (start_of chunks j) row) as [<-|Hne].
    + exists j. split_and!; [done|done|lia|]. by apply start_of_lt.
    + destruct (Nat.eqb_spec j 0) as [->|Hj0]; [change (start_of chunks 0) with 0%nat in *; lia|].
      exists (j - 1)%nat. split_and!; [done|lia| |].
      * specialize (Hlo (j - 1)%nat ltac:(lia) ltac:(lia)). lia.
      * replace (S (j - 1)) with j by lia. lia.
  - assert (n <> 0)%nat as Hn.
    { intros E. unfold n in E. apply length_zero_iff_nil in E. rewrite E in Hrow. cbn in Hrow. lia. }
    destruct (Nat.eqb_spec n 0); [done|]. exists (n - 1)%nat. split_and!; [done|lia| |].
    + specialize (Hlo (n - 1)%nat ltac:(lia) ltac:(lia)). lia.
    + replace (S (n - 1)) with n by lia. unfold n. by rewrite start_of_all.
Qed.

(** ** One request among many *)

Abbreviation rows := (concat chunks).

(** A request for rows [a] to [b - 1] that has still to visit the blocks [todo] *)
Definition request_inv (a b : nat) (todo : list nat) (s : nat * list flexible_type) : Prop :=
  (b <= length rows)%nat /\ length s.2 = (b - a)%nat /\ (a + s.1 <= b)%nat /\
  take s.1 s.2 = slice a (a + s.1) rows /\
  exists i, todo = seq i (length todo) /\ (i + length todo <= length chunks)%nat /\
    (forall j, (i <= j < i + length todo)%nat ->
       Nat.max a (start_of chunks j) < Nat.min b (start_of chunks (S j)))%nat /\
    (if (length todo =? 0)%nat then a + s.1 = b
     else a + s.1 = Nat.max a (start_of chunks i) /\ b <= start_of chunks (i + length todo))%nat.

Lemma request_step a b i todo s r : request_inv a b (i :: todo) s -> rinv chunks segs addrs r ->
  locks r = replicate (length chunks) false ->
  runs (read_block_rows cfg fs m a b i s) r (fun s' r' => request_inv a b todo s' /\
    rinv chunks segs addrs r' /\ locks r' = replicate (length chunks) false).
Proof.
  intros (Hb & Hlen & Hle & Htk & i0 & Hseq & Hin & Hint & Hpos) Hr Hlk. destruct s as [idx out].
  cbn [fst snd length] in *. injection Hseq as <- Hseq. cbn [Nat.eqb] in Hpos. destruct Hpos as [Hidx Hend].
  destruct (lookup_lt_is_Some_2 chunks i) as [chunk Ech]; [lia|].
  destruct (lookup_lt_is_Some_2 (m_cache r) i) as [c Ec]; [rewrite (ri_cache _ _ _ _ Hr); lia|].
  assert (locked c = false) as Hc.
  { assert (locks r !! i = Some (locked c)) as El.
    { unfold locks. change (map locked ?x) with (locked <$> x). by rewrite list_lookup_fmap, Ec. }
    rewrite Hlk, lookup_replicate_2 in El by lia. by injection El. }
  pose proof (Hint i ltac:(lia)) as Hi.
  set (f := Nat.max a (start_of chunks i)) in *. set (l := Nat.min b (start_of chunks (S i))) in *.
  eapply runs_mono; [apply (read_block_rows_spec a b i chunk c idx out r Ech Hr Ec Hc)|].
  { exact Hi. } { fold f l. lia. }
  intros s' r' (-> & Hr' & Hlk'). fold f l. unfold row_result.
  pose proof (rows_in i chunk f l Ech ltac:(lia)) as Hsl.
  split_and!; [|done|congruence]. split_and!; cbn [fst snd]; [done| |lia| |].
  - rewrite !length_app, length_take, length_drop, Hsl. lia.
  - rewrite app_assoc, take_app_le.
    2: { rewrite length_app, length_take, Hsl. lia. }
    rewrite take_ge by (rewrite length_app, length_take, Hsl; lia). rewrite Htk, Hidx.
    rewrite slice_app by lia. f_equal. lia.
  - exists (S i). split_and!; [done|lia| |].
    + intros j Hj. apply Hint. lia.
    + destruct (Nat.eqb_spec (length todo) 0) as [E0|Hne].
      * rewrite E0 in Hend. replace (i + 1)%nat with (S i) in Hend by lia. lia.
      * pose proof (Hint (S i) ltac:(lia)). replace (S i + length todo)%nat with (i + S (length todo))%nat by lia.
        lia.
Qed.

(** A request at its start *)
Lemma request_start a b i e out : (a < b <= length rows)%nat -> length out = (b - a)%nat ->
  (e < length chunks)%nat -> (start_of chunks i <= a < start_of chunks (S i))%nat ->
  (start_of chunks e <= b - 1 < start_of chunks (S e))%nat ->
  request_inv a b (seq i (e + 1 - i)) (0%nat, out).
Proof.
  intros Hab Hlen He Hi Hbe.
  assert (i <= e)%nat as Hie.
  { destruct (Nat.le_gt_cases i e) as [|Hgt]; [done|]. pose proof (start_of_mono (S e) i ltac:(lia)). lia. }
  split_and!; cbn [fst snd]; [lia|done|lia|by rewrite Nat.add_0_r, slice_nil|].
  exists i. rewrite length_seq. split_and!; [done|lia| |].
  - intros j Hj. pose proof (start_of_lt j ltac:(lia)). pose proof (start_of_mono j e ltac:(lia)).
    pose proof (start_of_mono (S i) (S j) ltac:(lia)). lia.
  - destruct (Nat.eqb_spec (e + 1 - i) 0); [lia|]. split; [lia|].
    replace (i + (e + 1 - i))%nat with (S e) by lia. lia.
Qed.

Lemma request_done a b s : request_inv a b [] s -> s.2 = slice a b rows.
Proof.
  intros (Hb & Hlen & Hle & Htk & i & _ & _ & _ & Hpos). cbn in Hpos. rewrite <- Hpos, <- Htk.
  symmetry. apply take_ge. lia.
Qed.

Lemma read_blocks_spec a b todo : forall s r, request_inv a b todo s -> rinv chunks segs addrs r ->
  locks r = replicate (length chunks) false ->
  runs (read_blocks cfg fs m a b todo s) r (fun s' r' => s'.2 = slice a b rows /\
    rinv chunks segs addrs r' /\ locks r' = replicate (length chunks) false).
Proof.
  induction todo as [|i todo IH]; intros s r Hq Hr Hlk.
  - apply runs_ret. split; [by apply request_done|done].
  - cbn. eapply runs_bind; [by apply request_step|]. intros s' r' (Hq' & Hr' & Hlk'). by apply IH.
Qed.

Lemma read_rows_slice a b out r : rinv chunks segs addrs r -> locks r = replicate (length chunks) false ->
  runs (read_rows cfg fs m false a b out) r (fun s r' => s.2 = slice a (Nat.min b (length rows)) rows /\
    s.1 = length s.2 /\ rinv chunks segs addrs r' /\ locks r' = replicate (length chunks) false).
Proof.
  intros Hr Hlk. unfold read_rows. apply runs_get. rewrite (ri_rows _ _ _ _ Hr).
  assert ((if (length rows <? b)%nat then length rows else b) = Nat.min b (length rows)) as ->.
  { destruct (Nat.ltb_spec (length rows) b); lia. }
  set (b' := Nat.min b (length rows)). destruct (Nat.leb_spec b' a) as [Hle|Hlt].
  { apply runs_ret. cbn. unfold slice. by replace (b' - a)%nat with 0%nat by lia. }
  eapply (runs_bind _ _ _ (fun o r' => o = slice a b' rows /\ rinv chunks segs addrs r' /\
    locks r' = replicate (length chunks) false)).
  { unfold fetch_rows_from_cache. apply runs_get.
    destruct (block_offset_spec r a Hr ltac:(lia)) as (i & Ei & Hi & Hai).
    destruct (block_offset_spec r (b' - 1) Hr ltac:(lia)) as (e & Ee & He & Hbe).
    eapply runs_lift_opt; [exact Ei|]. eapply runs_lift_opt; [exact Ee|].
    eapply runs_bind.
    - apply (read_blocks_spec a b'); [|done|done]. apply request_start; [lia|apply length_resize|done|done|done].
    - intros s r' H. apply runs_ret. exact H. }
  intros o r' (-> & Hr' & Hlk'). apply runs_ret. by split_and!.
Qed.

(** Several requests on one reader, taking turns block by block *)
Record request := mk_request { rq_a : nat; rq_b : nat; rq_todo : list nat; rq_state : nat * list flexible_type }.
Definition start_request (r : reader) (a b : nat) (out : list flexible_type) : option request :=
  i ← block_offset_containing_row r a; e ← block_offset_containing_row r (b - 1);
  Some (mk_request a b (seq i (e + 1 - i)) (0%nat, list.resize (b - a) flex_default out)).
Definition turn (k : nat) (reqs : list request) : action (list request) :=
  match reqs !! k with
  | Some (mk_request a b (i :: todo) s) =>
      s <- read_block_rows cfg fs m a b i s ;; ret (<[k := mk_request a b todo s]> reqs)
  | _ => ret reqs
  end.
Fixpoint turns (schedule : list nat) (reqs : list request) : action (list request) :=
  match schedule with
  | [] => ret reqs
  | k :: schedule => reqs <- turn k reqs ;; turns schedule reqs
  end.

(** Every turn does one block of its request. *)
Lemma turn_progress k reqs r reqs' r' i q : turn k reqs r = (Value reqs', r') -> reqs !! i = Some q ->
  exists q', reqs' !! i = Some q' /\ rq_todo q' = drop (if decide (i = k) then 1 else 0) (rq_todo q).
Proof.
  unfold turn. intros E Hi. destruct (decide (i = k)) as [->|Hne].
  - rewrite Hi in E. destruct q as [a b [|j todo] s]; [injection E as <- <-; by exists (mk_request a b [] s)|].
    unfold bind in E. destruct (read_block_rows _ _ _ _ _ _ _ _) as [[s'| | |] r1]; [|done..].
    injection E as <- <-. eexists. rewrite list_lookup_insert_eq by (by eapply lookup_lt_Some). done.
  - destruct (reqs !! k) as [[a b [|j todo] s]|]; [by injection E as <- <-; exists q| |by injection E as <- <-; exists q].
    unfold bind in E. destruct (read_block_rows _ _ _ _ _ _ _ _) as [[s'| | |] r1]; [|done..].
    injection E as <- <-. exists q. by rewrite list_lookup_insert_ne by congruence.
Qed.

Lemma turns_progress schedule : forall reqs r reqs' r' i q, turns schedule reqs r = (Value reqs', r') ->
  reqs !! i = Some q ->
  exists q', reqs' !! i = Some q' /\ rq_todo q' = drop (length (filter (eq i) schedule)) (rq_todo q).
Proof.
  induction schedule as [|k schedule IH]; intros reqs r reqs' r' i q E Hi; cbn [turns] in E.
  { injection E as <- <-. by exists q. }
  unfold bind in E. destruct (turn k reqs r) as [[reqs1| | |] r1] eqn:E1; [|done..].
  destruct (turn_progress k reqs r reqs1 r1 i q E1 Hi) as (q1 & Hi1 & Ht1).
  destruct (IH reqs1 r1 reqs' r' i q1 E Hi1) as (q' & Hi' & Ht). exists q'. split; [done|].
  rewrite Ht, Ht1, drop_drop, filter_cons. destruct (decide (i = k)); [|done]. cbn. done.
Qed.

Lemma turns_spec schedule : forall reqs r, rinv chunks segs addrs r -> locks r = replicate (length chunks) false ->
  Forall (fun q => request_inv (rq_a q) (rq_b q) (rq_todo q) (rq_state q)) reqs ->
  runs (turns schedule reqs) r (fun reqs' r' => rinv chunks segs addrs r' /\
    locks r' = replicate (length chunks) false /\
    Forall2 (fun q q' => rq_a q' = rq_a q /\ rq_b q' = rq_b q /\
                         request_inv (rq_a q') (rq_b q') (rq_todo q') (rq_state q')) reqs reqs').
Proof.
  induction schedule as [|k schedule IH]; intros reqs r Hr Hlk Hq.
  { apply runs_ret. split_and!; [done|done|]. induction Hq; constructor; auto. }
  cbn. eapply (runs_bind _ _ _ (fun reqs1 r1 => rinv chunks segs addrs r1 /\
    locks r1 = replicate (length chunks) false /\
    Forall2 (fun q q' => rq_a q' = rq_a q /\ rq_b q' = rq_b q /\
                         request_inv (rq_a q') (rq_b q') (rq_todo q') (rq_state q')) reqs reqs1)).
  - assert (Forall2 (fun q q' => rq_a q' = rq_a q /\ rq_b q' = rq_b q /\
      request_inv (rq_a q') (rq_b q') (rq_todo q') (rq_state q')) reqs reqs) as Hrefl.
    { clear -Hq. induction Hq; constructor; auto. }
    unfold turn. destruct (reqs !! k) as [[a b [|i todo] s]|] eqn:Ek; [by apply runs_ret| |by apply runs_ret].
    pose proof (Forall_lookup_1 _ _ _ _ Hq Ek) as Hk. cbn in Hk.
    eapply runs_bind; [exact (request_step a b i todo s r Hk Hr Hlk)|]. intros s' r1 (Hk' & Hr1 & Hlk1).
    apply runs_ret. split_and!; [done|done|]. rewrite <- (list_insert_id _ _ _ Ek) at 1.
    by apply Forall2_insert.
  - intros reqs1 r1 (Hr1 & Hlk1 & H1). eapply runs_mono; [apply (IH reqs1 r1 Hr1 Hlk1)|].
    + clear -H1. induction H1 as [|q q' l l' (_ & _ & H) _ IH]; by constructor.
    + intros reqs2 r2 (Hr2 & Hlk2 & H2). split_and!; [done|done|].
      clear -H1 H2. revert reqs2 H2. induction H1 as [|q q1 l l1 (E1 & E2 & _) _ IH]; intros l2 H2;
        inversion H2 as [|? q2 ? l2' (E3 & E4 & H) ?]; subst; constructor; [|auto].
      split_and!; [congruence|congruence|done].
Qed.
End reading.

(** ** The reader buffer *)

(** What the buffer relies on: the source has these rows, and goes on having them *)
Class RowSourceLaws {S} `{RowSource S} (valid : S -> Prop) (rows : list flexible_type) : Prop := {
  source_size_rows s : valid s -> source_size s = length rows;
  source_read_rows s a b out : valid s -> (a <= b <= length rows)%nat ->
    exists s', source_read a b out s = Some (slice a b rows, s') /\ valid s'
}.

Module ReaderBufferCorrect.
Import ReaderBuffer.
Section buffer.
Context {Src : Type} `{RS : RowSource Src} {valid : Src -> Prop} {rows : list flexible_type}
  `{RL : !RowSourceLaws valid rows}.

Abbreviation buffer := (sarray_reader_buffer (Src := Src)).

(** The buffer holds the rows up to [m_row_start], and [m_iter] is the next one *)
Record buffer_inv (b : buffer) : Prop := {
  bi_valid : valid (m_reader b);
  bi_size : (0 < m_buffer_size b)%nat;
  bi_end : (m_row_start b <= m_row_end b <= length rows)%nat;
  bi_fits : Z.of_nat (length rows) < 2 ^ 64;
  bi_pos : (m_buffer_pos b <= length (m_buffer b) <= m_row_start b)%nat;
  bi_iter : (m_iter b + (length (m_buffer b) - m_buffer_pos b) = m_row_start b)%nat;
  bi_buffer : m_buffer b = slice (m_row_start b - length (m_buffer b)) (m_row_start b) rows
}.

Definition same_range (b b' : buffer) : Prop :=
  m_row_end b' = m_row_end b /\ m_original_row_start b' = m_original_row_start b /\
  m_buffer_size b' = m_buffer_size b.

Lemma size_sub_le a b : (b <= a)%nat -> Z.of_nat a < 2 ^ 64 -> size_sub a b = (a - b)%nat.
Proof. intros H Ha. unfold size_sub. rewrite wrap_small; [lia|]. split; lia. Qed.

Lemma slice_lookup lo hi j : (lo <= j < hi)%nat -> slice lo hi rows !! (j - lo)%nat = rows !! j.
Proof. intros H. unfold slice. rewrite lookup_take_lt, lookup_drop by lia. f_equal. lia. Qed.

Lemma next_spec b : buffer_inv b -> has_next b = true ->
  exists v b', next b = Some (v, b') /\ rows !! m_iter b = Some v /\ buffer_inv b' /\
    m_iter b' = S (m_iter b) /\ same_range b b'.
Proof.
  intros [H1 H2 H3 H4 H5 H6 H7] Hn. unfold has_next in Hn. apply Nat.ltb_lt in Hn. unfold next.
  destruct (lookup_lt_is_Some_2 rows (m_iter b)) as [v Ev]; [lia|].
  destruct (Nat.eqb_spec (m_buffer_pos b) (length (m_buffer b))) as [Epos|Hpos].
  - unfold refill. rewrite size_sub_le by lia.
    assert (exists k, k = Nat.min (m_row_end b - m_row_start b) (m_buffer_size b)) as [k Ek] by eauto.
    rewrite <- Ek. assert (0 < k <= m_row_end b - m_row_start b)%nat as Hk by lia. clear Ek.
    destruct (source_read_rows (m_reader b) (m_row_start b) (m_row_start b + k) (m_buffer b) H1 ltac:(lia))
      as (s' & -> & Hs'). cbn [m_buffer m_buffer_pos].
    assert (m_iter b = m_row_start b) as Ei by lia.
    pose proof (length_slice (m_row_start b) (m_row_start b + k) rows ltac:(lia)) as Hl.
    pose proof (slice_lookup (m_row_start b) (m_row_start b + k) (m_iter b) ltac:(lia)) as El.
    rewrite Ei, Nat.sub_diag in El. rewrite Ei in Ev. rewrite El, Ev.
    do 2 eexists. split; [reflexivity|]. rewrite Ei. split_and!; [done| |cbn; lia|done].
    split; cbn; rewrite ?Hl; try done; try lia. 
    by replace (m_row_start b + k - (m_row_start b + k - m_row_start b))%nat with (m_row_start b) by lia.
  - assert (m_buffer b !! m_buffer_pos b = Some v) as ->.
    { rewrite H7. rewrite <- Ev. rewrite <- (slice_lookup (m_row_start b - length (m_buffer b)) (m_row_start b)) by lia.
      f_equal. lia. }
    do 2 eexists. split; [reflexivity|]. split_and!; [done| |cbn; lia|done].
    split; cbn; try done; lia.
Qed.

Lemma init_inv s a e k : valid s -> (a <= Nat.min e (length rows))%nat -> (0 < k)%nat ->
  Z.of_nat (length rows) < 2 ^ 64 -> buffer_inv (init s a e k).
Proof.
  intros Hs Ha Hk Hf. split; cbn; try done; rewrite ?(source_size_rows s Hs); try lia.
  by replace (a - (a - 0))%nat with 0%nat by lia.
Qed.

Lemma slice_cons a e v : rows !! a = Some v -> (a < e)%nat -> slice a e rows = v :: slice (S a) e rows.
Proof.
  intros E H. unfold slice. rewrite (drop_S _ _ _ E). replace (e - a)%nat with (S (e - S a)) by lia. done.
Qed.

(** Draining the buffer visits the rest of the range, in order. *)
Lemma drain_spec fuel : forall b, buffer_inv b -> (m_row_end b - m_iter b <= fuel)%nat ->
  exists b', drain fuel b = Some (slice (m_iter b) (m_row_end b) rows, b') /\ buffer_inv b' /\ same_range b b'.
Proof.
  induction fuel as [|fuel IH]; intros b Hb Hf; cbn [drain]; destruct (has_next b) eqn:Hn;
    pose proof Hn as Hn'; unfold has_next in Hn'; rewrite ?Nat.ltb_lt, ?Nat.ltb_ge in Hn'; try lia.
  1, 3: exists b; unfold slice; replace (m_row_end b - m_iter b)%nat with 0%nat by lia;
    (split; [done|split; [done|by split_and!]]).
  destruct (next_spec b Hb Hn) as (v & b1 & -> & Ev & Hb1 & Hi & Hs).
  destruct (IH b1 Hb1) as (b2 & -> & Hb2 & Hs2); [rewrite (proj1 Hs), Hi; lia|].
  exists b2. rewrite (slice_cons _ _ _ Ev Hn'), Hi, (proj1 Hs). split_and!; [done|done|].
  destruct Hs as (? & ? & ?), Hs2 as (? & ? & ?). split_and!; congruence.
Qed.

Lemma clear_inv b : buffer_inv b -> (m_original_row_start b <= m_row_end b)%nat -> buffer_inv (clear b).
Proof.
  intros [H1 H2 H3 H4 H5 H6 H7] Ho. split; cbn; try done; try lia.
  by replace (m_original_row_start b - (m_original_row_start b - 0))%nat with 0%nat by lia.
Qed.

(** The iterator visits the same rows. *)
Definition iterator_inv (i : sarray_iterator (Src := Src)) : Prop :=
  buffer_inv (it_reader i) /\ (current_element_counter i < num_elements i)%nat /\
  m_iter (it_reader i) = (m_original_row_start (it_reader i) + current_element_counter i + 1)%nat /\
  m_row_end (it_reader i) = (m_original_row_start (it_reader i) + num_elements i)%nat /\
  rows !! (m_original_row_start (it_reader i) + current_element_counter i)%nat = Some (current_element i).

Lemma it_loop_spec fuel : forall i, iterator_inv i -> (num_elements i - current_element_counter i <= fuel)%nat ->
  it_loop fuel i = Some (slice (m_original_row_start (it_reader i) + current_element_counter i)
                           (m_row_end (it_reader i)) rows).
Proof.
  induction fuel as [|fuel IH]; intros i (Hb & Hlt & Hi & He & Hv) Hf; [lia|]. cbn [it_loop].
  destruct (Nat.eqb_spec (current_element_counter i) (num_elements i)); [lia|].
  rewrite (slice_cons _ _ _ Hv) by lia. unfold it_incr. destruct (has_next (it_reader i)) eqn:Hn.
  - destruct (next_spec _ Hb Hn) as (v & b' & -> & Ev & Hb' & Hi' & Hr1 & Hr2 & Hr3).
    unfold has_next in Hn. apply Nat.ltb_lt in Hn. rewrite IH.
    + cbn. rewrite Hr1, Hr2. do 3 f_equal. lia.
    + split_and!; cbn; rewrite ?Hr2; [done|lia|lia|lia|]. rewrite <- Ev. f_equal. lia.
    + cbn. lia.
  - unfold has_next in Hn. apply Nat.ltb_ge in Hn.
    assert (S (m_original_row_start (it_reader i) + current_element_counter i) = m_row_end (it_reader i)) as E by lia.
    rewrite E, slice_nil. destruct fuel as [|fuel]; cbn; rewrite Nat.eqb_refl; done.
Qed.
End buffer.
End ReaderBufferCorrect.
