(* ===== verification/BlockArrayCorrect.v ===== *)
(** The storage of an SArray from end to end: what the group writer puts into its
    files, a reader opened on the index of a column gives back; and what the
    storage does when something fails. *)
From Stdlib Require Import ZArith Lia List Bool Permutation.
From stdpp Require Import prelude gmap.
From coqutil Require Import Byte Word.LittleEndianList.
From S2P Require Import Prelude.
From S2P Require Import Archive.
From S2P Require Import Serialization.
From S2P Require Import DenseBitset.
From S2P Require Import FlexibleType.
From S2P Require Import TypeEncoding.
From S2P Require Import FlexibleOps.
From S2P Require Import BlockStore.
From S2P Require Import BlockStoreCorrect.
From S2P Require Import BlockGroupCorrect.
From S2P Require Import BlockManagerCorrect.
From S2P Require Import BlockReader.
From S2P Require Import BlockReaderCorrect.
Import BlockReader.

(** ** Opening a reader *)

Section opening.
Context `{L : Lz4} (fs : files).

(** The address leads, through an open column, to a block of a file that holds
    the chunk *)
Definition leads_to (hs : list handle) (addr : block_address) (chunk : list flexible_type) : Prop :=
  exists f file seg column info, (f, addr.1) ∈ hs /\ fs !! f = Some file /\ readable file seg /\
    seg !! addr.1.2 = Some column /\ column !! addr.2 = Some info /\ holds_block file info chunk.

Lemma leads_to_weaken hs hs' addr chunk : (forall p, p ∈ hs -> p ∈ hs') ->
  leads_to hs addr chunk -> leads_to hs' addr chunk.
Proof. intros H (f & file & seg & column & info & Hin & G). exists f, file, seg, column, info. auto. Qed.

(** As long as the column is open, the manager finds the block, whatever else is
    opened and closed. *)
Lemma leads_to_read hs m addr chunk : holds fs m hs -> leads_to hs addr chunk ->
  (exists info, BlockManager.get_block_info addr m = Ok info /\ bi_num_elem info = length chunk) /\
  exists raw info, BlockManager.read_block fs addr m = Ok (Some (raw, info)) /\ decodes info raw chunk.
Proof.
  intros H (f & file & seg & column & info & Hin & Ef & Hrd & Ec & Ei & Hb).
  destruct (holds_inv _ _ _ H) as [Hinv _]. pose proof (mi_handles _ _ _ Hinv f _ Hin) as Eid.
  destruct (mi_files _ _ _ Hinv f _ Eid) as (s & Es & Esf).
  destruct (si_blocks _ _ _ _ _ (mi_segments _ _ _ Hinv _ s Es)) as (file' & Ef' & Hrd').
  rewrite Esf, Ef in Ef'. injection Ef' as <-. pose proof (readable_inj _ _ _ Hrd' Hrd) as Eb.
  destruct addr as [[id c] j]. cbn in *.
  assert (BlockManager.get_block_info (id, c, j) m = Ok info) as Hg.
  { unfold BlockManager.get_block_info. rewrite Es. cbn. rewrite Eb, Ec. cbn. by rewrite Ei. }
  destruct Hb as (_ & Hn & _ & raw & Hraw & Hdec). split; [by exists info|].
  exists raw, info. unfold BlockManager.read_block. rewrite Hg. cbn. by rewrite Es, Esf, Ef, Hraw.
Qed.

(** What [open] has collected after some blocks *)
Definition opening_inv (m : BlockManager.block_manager) (hs h : list handle) (done : list (list flexible_type))
    (starts : list nat) (addrs : list block_address) (row_count : nat) : Prop :=
  holds fs m (hs ++ h) /\ starts = map (start_of done) (seq 0 (length done)) /\
  row_count = length (concat done) /\ Forall2 (leads_to hs) addrs done.

Lemma starts_snoc done chunk :
  map (start_of (done ++ [chunk])) (seq 0 (length (done ++ [chunk]))) =
  map (start_of done) (seq 0 (length done)) ++ [length (concat done)].
Proof.
  rewrite length_app. cbn [length]. rewrite Nat.add_1_r, seq_S, map_app. cbn. f_equal.
  - apply map_ext_in. intros i Hi%in_seq. unfold start_of. by rewrite take_app_le by lia.
  - unfold start_of. by rewrite take_app_length.
Qed.

Lemma size_n_small n : fits_size n -> size_n n = n.
Proof. intros H. unfold size_n. rewrite wrap_small; [apply Nat2Z.id|]. split; [lia|exact H]. Qed.

(** The blocks of one column *)
Lemma add_blocks_spec m hs h f addr file seg column chunks : (f, addr) ∈ hs -> fs !! f = Some file ->
  readable file seg -> seg !! addr.2 = Some column -> Forall2 (holds_block file) column chunks ->
  forall k done starts addrs rc, opening_inv m hs h (done ++ take k chunks) starts addrs rc ->
    fits_size (length (concat (done ++ chunks))) -> (k <= length chunks)%nat ->
  exists rc' starts' addrs', add_blocks m addr (seq k (length chunks - k)) rc starts addrs =
    Ok (rc', starts', addrs') /\ opening_inv m hs h (done ++ chunks) starts' addrs' rc'.
Proof.
  intros Hin Ef Hrd Ec Hall k done. pose proof (Forall2_length _ _ _ Hall) as Hlen.
  remember (length chunks - k)%nat as n eqn:En. revert k En.
  induction n as [|n IH]; intros k En starts addrs rc Hinv Hfit Hk.
  { exists rc, starts, addrs. split; [done|]. by rewrite take_ge in Hinv by lia. }
  destruct (lookup_lt_is_Some_2 chunks k) as [chunk Ech]; [lia|].
  destruct (Forall2_lookup_r _ _ _ _ _ Hall Ech) as (info & Ei & Hb).
  destruct Hinv as (Hm & Est & Erc & Hads). cbn [seq add_blocks].
  assert (leads_to hs (addr.1, addr.2, k) chunk) as Hlead.
  { exists f, file, seg, column, info. cbn. destruct addr. by split_and!. }
  destruct (leads_to_read (hs ++ h) m (addr.1, addr.2, k) chunk Hm) as [(info' & -> & Hn) _].
  { eapply leads_to_weaken; [|exact Hlead]. intros p Hp. apply elem_of_app. by left. }
  cbn [obind]. apply (IH (S k)); [lia| |done|lia].
  assert (done ++ take (S k) chunks = (done ++ take k chunks) ++ [chunk]) as Eq.
  { by rewrite (take_S_r _ _ _ Ech), app_assoc. }
  rewrite Eq. split_and!; [done| | |].
  - by rewrite starts_snoc, Est, Erc.
  - rewrite Erc, Hn, (concat_app (done ++ take k chunks) [chunk]), length_app. cbn [concat]. rewrite app_nil_r.
    apply size_n_small. unfold fits_size in *. eapply Z.le_lt_trans; [|exact Hfit].
    rewrite <- (take_drop_middle _ _ _ Ech) at 2. rewrite !concat_app, !length_app. cbn. rewrite length_app. lia.
  - apply Forall2_app; [done|]. by constructor.
Qed.

(** The files of the segments of a column and the chunks they hold *)
Definition column_file (c : nat) (f : bytes) (chunks : list (list flexible_type)) : Prop :=
  plain_name f /\ exists file seg column, fs !! f = Some file /\ readable file seg /\
    seg !! c = Some column /\ Forall2 (holds_block file) column chunks.

Lemma open_segments_spec c : Z.of_nat c < 2 ^ 63 -> forall names parts, Forall2 (column_file c) names parts ->
  forall s m hs h done, opening_inv m hs h done (op_starts s) (op_addrs s) (op_row_count s) ->
    op_segments s = map snd (reverse hs) ->
    fits_size (length (concat (done ++ concat parts))) ->
    Z.of_nat (length hs + length h + length names) < 2 ^ 64 - 1 ->
  exists s' m' hs', open_segments fs (map (fun f => column_name_of f c) names) s m = (Ok tt, s', m') /\
    op_segments s' = map snd (reverse hs') /\ length hs' = (length hs + length names)%nat /\
    opening_inv m' hs' h (done ++ concat parts) (op_starts s') (op_addrs s') (op_row_count s').
Proof.
  intros Hc names parts Hall. induction Hall as [|f chunks names parts Hcol Hall IH];
    intros s m hs h done Hinv Hseg Hfit Hlen.
  { exists s, m, hs. cbn. rewrite app_nil_r, Nat.add_0_r. by split_and!. }
  destruct Hcol as (Hplain & file & seg & column & Ef & Hrd & Ec & Hb). destruct Hinv as (Hm & Est & Erc & Hads).
  cbn [length] in Hlen. destruct (holds_open_ok fs m (hs ++ h) (column_name_of f c) f (Z.of_nat c) file seg Hm)
    as (id & m1 & sg & Eo & Hm1 & Es & Eb & _); [by apply parse_column_name|done|done|rewrite length_app; lia|].
  rewrite (proj2 (Z.eqb_neq (Z.of_nat c) no_column)) in Eo, Hm1 by (unfold no_column; lia).
  rewrite Nat2Z.id in Eo, Hm1. cbn [map open_segments]. rewrite Eo.
  unfold BlockManager.num_blocks_in_column. cbn [fst snd]. rewrite Es, Eb, Ec. cbn [obind op_row_count op_starts op_addrs].
  set (hs1 := (f, (id, c)) :: hs).
  destruct (add_blocks_spec m1 hs1 h f (id, c) file seg column chunks ltac:(left) Ef Hrd Ec Hb 0 done
    (op_starts s) (op_addrs s) (op_row_count s)) as (rc & starts & addrs & Ea & Hinv1).
  { rewrite take_0, app_nil_r. split_and!; [exact Hm1|done|done|].
    eapply Forall2_impl; [exact Hads|]. intros. eapply leads_to_weaken; [|done]. intros p Hp. by right. }
  { unfold fits_size in *. eapply Z.le_lt_trans; [|exact Hfit]. cbn [concat].
    rewrite !concat_app, !length_app. lia. }
  { lia. }
  rewrite Nat.sub_0_r in Ea. rewrite (Forall2_length _ _ _ Hb), Ea. cbn [op_segments].
  destruct (IH (mk_opening (op_segments s ++ [(id, c)]) rc starts addrs) m1 hs1 h (done ++ chunks))
    as (s' & m' & hs' & E & E1 & E2 & Hinv'); [done| | | |].
  { cbn [op_segments]. rewrite Hseg. unfold hs1. by rewrite reverse_cons, map_app. }
  { cbn [concat] in Hfit. by rewrite app_assoc in Hfit. }
  { unfold hs1. cbn [length]. lia. }
  exists s', m', hs'. cbn [concat length] in *. rewrite app_assoc.
  split_and!; [exact E|done|unfold hs1 in E2; cbn in E2; lia|done].
Qed.

Lemma close_columns_spec m hs h : holds fs m (hs ++ h) ->
  exists m', close_columns (map snd (reverse hs)) m = Ok m' /\ holds fs m' h.
Proof.
  rewrite <- (reverse_involutive hs) at 1. generalize (reverse hs). clear hs. intros l. revert m.
  induction l as [|[f a] l IH]; intros m Hm; [by exists m|].
  rewrite reverse_cons, <- app_assoc in Hm. cbn [app] in Hm.
  destruct (holds_inv _ _ _ Hm) as [Hinv Hl].
  assert (reverse l ++ (f, a) :: h ≡ₚ (f, a) :: (reverse l ++ h)) as Hp by (symmetry; apply Permutation_middle).
  pose proof (Permutation_length Hp) as Hpl. cbn [length] in Hpl.
  destruct (close_column_inv fs m (reverse l ++ h) f a) as (m1 & E & _).
  { by apply (manager_inv_perm _ _ _ _ Hp). }
  { lia. }
  cbn [map snd close_columns]. rewrite E. cbn. apply IH. by eapply holds_close.
Qed.

(** A reader that is open on these chunks, and the columns it holds *)
Record reader_on (chunks : list (list flexible_type)) (hs : list handle) (r : reader) : Prop := {
  ro_inv : rinv chunks (map snd (reverse hs)) (m_block_list r) r;
  ro_locks : locks r = replicate (length chunks) false;
  ro_blocks : Forall2 (leads_to hs) (m_block_list r) chunks
}.

(** Opening a reader, which may be open on another column *)
Lemma open_spec c names parts index r0 hs0 h m : Z.of_nat c < 2 ^ 63 -> Forall2 (column_file c) names parts ->
  segment_files index = map (fun f => column_name_of f c) names ->
  sum_list (map Z.to_nat (segment_sizes index)) = length (concat (concat parts)) ->
  fits_size (length (concat (concat parts))) -> Z.of_nat (length h + length names) < 2 ^ 64 - 1 ->
  DenseBitset.wf (m_used_cache_entries r0) -> m_segment_list r0 = map snd (reverse hs0) ->
  holds fs m (hs0 ++ h) ->
  exists r m' hs, open fs index r0 m = (Ok tt, r, m') /\ holds fs m' (hs ++ h) /\
    reader_on (concat parts) hs r /\ m_index_info r = index.
Proof.
  intros Hc Hall Efiles Esum Hfit Hlen Hw Hseg0 Hm. unfold open, close. rewrite Hseg0.
  destruct (close_columns_spec m hs0 h Hm) as (m1 & -> & Hm1). cbn [omap_ok]. rewrite Efiles.
  destruct (open_segments_spec c Hc names parts Hall (mk_opening [] 0 [] []) m1 [] h [])
    as (s & m' & hs & -> & Eseg & _ & Hm' & Est & Erc & Hads); [by split_and!|done|done|cbn; lia|].
  cbn [app] in *. set (chunks := concat parts) in *.
  unfold used_entries. cbn [m_used_cache_entries].
  destruct (DenseBitset.resize_spec (m_used_cache_entries r0) (length (op_addrs s)) Hw) as (u & -> & Hu & Hlu & _).
  rewrite Esum, size_n_small, Erc, Nat.eqb_refl by done.
  do 3 eexists. split; [reflexivity|]. split; [exact Hm'|]. split; [|done].
  pose proof (Forall2_length _ _ _ Hads) as Hl. rewrite Hl in *.
  destruct (DenseBitset.clear_spec u Hu) as (Hcw & Hcl & _). split.
  - split; try done.
    + cbn [m_start_row]. unfold starts_of. rewrite Est, seq_S, map_app. cbn [map Nat.add]. by rewrite start_of_all.
    + apply length_replicate.
    + intros i e Ee. apply lookup_replicate in Ee as [-> _]. discriminate.
  - unfold locks. cbn. change (map locked ?l) with (locked <$> l). by rewrite fmap_replicate.
  - done.
Qed.

(** An open reader finds its blocks in every later state of the manager in which
    its columns are still open. *)
Lemma reader_source chunks hs h r m : reader_on chunks hs r -> Forall (fun ch => ch <> []) chunks ->
  holds fs m (hs ++ h) -> source_ok fs m chunks (m_block_list r).
Proof.
  intros [_ _ Hb] Hne Hm. split_and!; [by eapply Forall2_length|done|].
  intros i addr chunk Ea Ec. destruct (Forall2_lookup_l _ _ _ _ _ Hb Ea) as (chunk' & Ec' & Hl).
  rewrite Ec in Ec'. injection Ec' as <-. eapply (leads_to_read (hs ++ h) m); [done|].
  eapply leads_to_weaken; [|exact Hl]. intros p Hp. apply elem_of_app. by left.
Qed.

(** Closing gives the columns back. *)
Lemma close_spec chunks hs h r m : reader_on chunks hs r -> holds fs m (hs ++ h) ->
  exists r' m', close r m = Ok (r', m') /\ holds fs m' h /\ m_segment_list r' = [].
Proof.
  intros [Hi _ _] Hm. unfold close. rewrite (ri_segments _ _ _ _ Hi).
  destruct (close_columns_spec m hs h Hm) as (m' & -> & Hm'). do 2 eexists. by split_and!.
Qed.

Lemma read_rows_keeps cfg m chunks hs h r a b out : reader_on chunks hs r -> Forall (fun ch => ch <> []) chunks ->
  holds fs m (hs ++ h) ->
  runs (read_rows cfg fs m false a b out) r (fun s r' =>
    s = (length s.2, slice a (Nat.min b (length (concat chunks))) (concat chunks)) /\ reader_on chunks hs r').
Proof.
  intros Hr Hne Hm. pose proof (reader_source chunks hs h r m Hr Hne Hm) as Hsrc. destruct Hr as [Hi Hl Hb].
  eapply runs_mono; [exact (read_rows_slice cfg fs m chunks _ _ Hsrc a b out r Hi Hl)|].
  intros [n vals] r' (E1 & E2 & Hi' & Hl'). cbn in E1, E2. subst. split; [done|].
  pose proof (ri_addrs _ _ _ _ Hi') as Ea. split; [by rewrite Ea|done|by rewrite Ea].
Qed.
End opening.

(** ** From the writer to the reader *)

(** The limits of the format: the size of a file, and what LZ4 accepts *)
Definition within_limits (index : bytes) (n : nat) (g : GroupWriter.group_writer) (fs : files) : Prop :=
  forall s file seg, (s < n)%nat -> fs !! GroupWriter.segment_name index s = Some file ->
    BlockWriter.m_blocks (GroupWriter.m_writer g) !! s = Some seg ->
    Z.of_nat (length file) < 2 ^ 63 /\ Forall (Forall lz4_accepts) seg.

(** The same, to evaluate *)
Definition in_limits (index : bytes) (n : nat) (g : GroupWriter.group_writer) (fs : files) : bool :=
  forallb (fun s =>
    match fs !! GroupWriter.segment_name index s, BlockWriter.m_blocks (GroupWriter.m_writer g) !! s with
    | Some file, Some seg => (Z.of_nat (length file) <? 2 ^ 63) &&
        forallb (forallb (fun info => bi_block_size info <=? LZ4_MAX_INPUT_SIZE)) seg
    | _, _ => true
    end) (seq 0 n).
Lemma in_limits_spec index n g fs : in_limits index n g fs = true -> within_limits index n g fs.
Proof.
  intros H s file seg Hs Ef Eb. unfold in_limits in H. rewrite forallb_forall in H.
  specialize (H s ltac:(apply in_seq; lia)). rewrite Ef, Eb in H. apply andb_prop in H as [H1 H2].
  split; [lia|]. apply Forall_forall. intros column Hc%list_elem_of_In. rewrite forallb_forall in H2.
  specialize (H2 column Hc). rewrite forallb_forall in H2. apply Forall_forall. intros i Hi%list_elem_of_In.
  specialize (H2 i Hi). unfold lz4_accepts. lia.
Qed.

(** Column [c] of the array: its cells, segment after segment *)
Definition column_of (ops : writes) (n c : nat) : list flexible_type := concat (map (cells ops c) (seq 0 n)).

Lemma plain_segment_name index s : plain_name index -> plain_name (GroupWriter.segment_name index s).
Proof.
  intros Hp c t E. unfold GroupWriter.segment_name in E. destruct (Z.to_nat _) as [|j].
  - cbn in E. by injection E as <- _.
  - destruct index as [|c' index]; cbn in E; injection E as <- _; [done|]. by eapply Hp.
Qed.

Lemma sum_sizes (l : list (list flexible_type)) : fits_size (length (concat l)) ->
  sum_list (map Z.to_nat (map (fun x => u64 (Z.of_nat (length x))) l)) = length (concat l).
Proof.
  induction l as [|x l IH]; intros H; [done|]. cbn [map concat] in *. rewrite length_app in *.
  change (sum_list (?a :: ?l)) with (a + sum_list l)%nat. unfold fits_size in *. rewrite IH by lia.
  rewrite wrap_small by (split; lia). lia.
Qed.

Lemma parts_of_files `{Lz4} fs index n k ops g c : (c < k)%nat -> plain_name index ->
  within_limits index n g fs -> counted (GroupWriter.m_writer g) ->
  (forall s, (s < n)%nat -> exists file seg,
    fs !! GroupWriter.segment_name index s = Some file /\
    BlockWriter.m_blocks (GroupWriter.m_writer g) !! s = Some seg /\
    (Z.of_nat (length file) < 2 ^ 63 -> Forall (Forall small_block) seg ->
     file_holds file (map (fun c => cells ops c s) (seq 0 k)))) ->
  exists parts, Forall2 (column_file fs c) (map (GroupWriter.segment_name index) (seq 0 n)) parts /\
    concat (concat parts) = column_of ops n c /\ Forall (fun ch => ch <> []) (concat parts).
Proof.
  intros Hc Hp Hlim Hcount Hfiles. unfold column_of.
  assert (forall todo, Forall (fun s => s < n)%nat todo -> exists parts,
    Forall2 (column_file fs c) (map (GroupWriter.segment_name index) todo) parts /\
    concat (concat parts) = concat (map (cells ops c) todo) /\ Forall (fun ch => ch <> []) (concat parts)) as Hind.
  { induction 1 as [|s todo Hs _ (parts & H1 & H2 & H3)]; [by exists []|].
    destruct (Hfiles s Hs) as (file & seg & Ef & Eb & Hh).
    destruct (Hlim s file seg Hs Ef Eb) as [Hl Hlz].
    assert (Forall (Forall small_block) seg) as Hsm.
    { pose proof (Forall_lookup_1 _ _ _ _ Hcount Eb) as Hct. clear -Hlz Hct.
      induction Hlz as [|col seg Hcol _ IH]; [done|]. apply Forall_cons in Hct as [Hct ?].
      constructor; [|by apply IH]. by apply Forall_and. }
    destruct (Hh Hl Hsm) as (seg' & Hrd & Hcols).
    assert (map (fun c => cells ops c s) (seq 0 k) !! c = Some (cells ops c s)) as Ec.
    { by rewrite (map_seq_lookup (fun c => cells ops c s)). }
    destruct (Forall2_lookup_r _ _ _ _ _ Hcols Ec) as (column & Ecol & chunks & Echunks & Hb).
    exists (chunks :: parts). cbn [map concat]. split_and!.
    - constructor; [|done]. split; [by apply plain_segment_name|]. by exists file, seg', column.
    - by rewrite concat_app, H2, <- Echunks.
    - apply Forall_app. split; [|done]. clear -Hb. induction Hb as [|i d l l' (Hd & _) _ IH]; by constructor. }
  apply Hind, Forall_seq. lia.
Qed.

(** What may be written: cells of the array, with well-formed values, fewer than
    2^64 of them and of the elements of their vectors *)
Definition writes_ok (n k : nat) (ops : writes) : Prop :=
  Forall (fun '(c, s, v) => (c < k /\ s < n)%nat /\ flex_ok v) ops /\
  fits_size (length ops) /\ fits_size (vector_total (map snd ops)).

Lemma vector_total_cons v l : vector_total (v :: l) = (vector_total [v] + vector_total l)%nat.
Proof. apply (vector_total_app [v] l). Qed.

Lemma cells_cons c' s' v ops c s : cells ((c', s', v) :: ops) c s =
  if decide (c' = c /\ s' = s) then v :: cells ops c s else cells ops c s.
Proof. cbn. by destruct (decide _). Qed.

Lemma writes_ok_cells n k ops c s : writes_ok n k ops -> block_ok (cells ops c s).
Proof.
  intros (H1 & H2 & H3). unfold fits_size in *. split_and!; unfold fits_size.
  - clear -H1. induction H1 as [|[[c' s'] v] ops [_ Hv] _ IH]; [by constructor|]. cbn.
    destruct (decide _); [by constructor|done].
  - eapply Z.le_lt_trans; [|exact H2]. apply Nat2Z.inj_le. clear.
    induction ops as [|[[c' s'] v] ops IH]; [done|]. rewrite cells_cons. destruct (decide _); cbn [length]; lia.
  - eapply Z.le_lt_trans; [|exact H3]. apply Nat2Z.inj_le. clear.
    induction ops as [|[[c' s'] v] ops IH]; [done|]. cbn [map snd]. rewrite vector_total_cons, cells_cons.
    destruct (decide _); [rewrite (vector_total_cons v (cells ops c s))|]; lia.
Qed.

Lemma column_length ops c l : NoDup l ->
  (length (concat (map (cells ops c) l)) <= length ops)%nat.
Proof.
  intros Hl. induction ops as [|[[c' s'] v] ops IH].
  { clear. induction l as [|s l IH]; [done|exact IH]. }
  assert (length (concat (map (cells ((c', s', v) :: ops) c) l)) <=
          S (length (concat (map (cells ops c) l))))%nat as H; [|cbn [length]; lia].
  assert (forall l, s' ∉ l -> map (cells ((c', s', v) :: ops) c) l = map (cells ops c) l) as Hout.
  { intros l' Hn. apply map_ext_in. intros s Hin%list_elem_of_In. rewrite cells_cons, decide_False; [done|].
    intros [_ ->]. done. }
  clear IH. induction Hl as [|s l Hn Hl IH]; [cbn; lia|]. cbn [map concat]. rewrite !length_app.
  destruct (decide (c' = c /\ s' = s)) as [[-> ->]|Hne].
  - rewrite Hout, cells_cons, decide_True by done. cbn [length]. lia.
  - rewrite cells_cons, decide_False by done. lia.
Qed.

Lemma writes_ok_column n k ops c m : writes_ok n k ops -> fits_size (length (column_of ops m c)).
Proof.
  intros (_ & H & _). unfold fits_size in *. eapply Z.le_lt_trans; [|exact H]. apply Nat2Z.inj_le.
  apply column_length, NoDup_seq.
Qed.

(** A sequence of reads, each into a vector that the caller passes *)
Fixpoint read_all `{Lz4} (cfg : settings) (fs : files) (m : BlockManager.block_manager)
    (reads : list (nat * nat * list flexible_type)) : action (list (nat * list flexible_type)) :=
  match reads with
  | [] => ret []
  | (a, b, out) :: reads =>
      bind (read_rows cfg fs m false a b out) (fun x => bind (read_all cfg fs m reads) (fun l => ret (x :: l)))
  end.

(** What the reads should give, from the values of the column *)
Definition expected (l : list flexible_type) (a b : nat) : nat * list flexible_type :=
  let vals := slice a (Nat.min b (length l)) l in (length vals, vals).

Section storage.
Context `{L : Lz4, LL : !Lz4Laws L, P : Platform} (cfg : settings).
Context (Hcfg : SFRAME_WRITER_MAX_BUFFERED_CELLS_PER_BLOCK cfg < 2 ^ 31).

(** The array exists, and any column of it can be opened in any state of the
    manager. *)
Lemma array_opened index n k ops fs : (0 < k)%nat -> Z.of_nat k < 2 ^ 63 -> plain_name index ->
  writes_ok n k ops ->
  exists g fs', write_array cfg index n k ops fs = Ok (g, fs') /\ (within_limits index n g fs' ->
    forall c, (c < k)%nat -> exists idx chunks, g_columns (GroupWriter.get_index_info g) !! c = Some idx /\
      concat chunks = column_of ops n c /\ Forall (fun ch => ch <> []) chunks /\
      forall m hs0 h r0, holds fs' m (hs0 ++ h) -> Z.of_nat (length h + n) < 2 ^ 64 - 1 ->
        DenseBitset.wf (m_used_cache_entries r0) -> m_segment_list r0 = map snd (reverse hs0) ->
      exists r m' hs, open fs' idx r0 m = (Ok tt, r, m') /\ holds fs' m' (hs ++ h) /\
        reader_on fs' chunks hs r).
Proof.
  intros Hk Hk' Hp Hok. pose proof (fun c => writes_ok_column n k ops c n Hok) as Hfit.
  destruct (write_array_spec cfg index n k ops fs Hk Hk') as (g & fs' & E & Ei & Hfiles).
  { eapply Forall_impl; [apply Hok|]. by intros [[c s] v] [H _]. }
  { intros c s. by eapply writes_ok_cells. } exists g, fs'. split; [done|]. intros Hlim c Hc.
  destruct (parts_of_files fs' index n k ops g c Hc Hp Hlim
    (write_array_counted _ _ _ _ _ _ _ _ Hk Hcfg E) Hfiles) as (parts & Hparts & Hconcat & Hne).
  exists (index_of_column index n ops c), (concat parts). rewrite Ei. split_and!; [|done|done|].
  { unfold index_of_array. cbn. by rewrite map_seq_lookup. }
  intros m hs0 h r0 Hm Hlen Hw Hs.
  destruct (open_spec fs' c (map (GroupWriter.segment_name index) (seq 0 n)) parts
    (index_of_column index n ops c) r0 hs0 h m) as (r & m' & hs & Eo & Hm' & Hr & _); try done.
  - lia.
  - cbn. by rewrite map_map.
  - rewrite Hconcat. pose proof (sum_sizes (map (cells ops c) (seq 0 n)) (Hfit c)) as Esum.
    rewrite !map_map in Esum. unfold index_of_column. cbn [segment_sizes]. rewrite map_map. exact Esum.
  - by rewrite Hconcat.
  - by rewrite length_map, length_seq.
  - by exists r, m', hs.
Qed.

(** C9. Round trip of an array through its files.  Take any sequence of writes of
    well-formed values to the columns and segments of a new array of at least one
    and fewer than 2^63 columns, whose index name does not begin with white space,
    fewer than 2^64 values and elements of vectors in all, and settings that allow
    fewer than 2^31 cells in a block (the default is 262144).  Then writing them
    and [close] succeed, and if the files are smaller than 2^63 bytes, LZ4
    accepts the size of every block and undoes its compression, a reader can be
    opened on any column, with the block manager in any state that is reached by
    opens that succeed and by closes (not after an open that failed), as long as
    the open columns and the segments together are fewer than 2^64 - 1; and it
    returns for every sequence of
    reads exactly the rows asked for, in order, cut off at the end of the column,
    whatever the random evictions and whatever other columns are opened, with
    success, and closed meanwhile. *)
Theorem array_roundtrip index n k ops fs : (0 < k)%nat -> Z.of_nat k < 2 ^ 63 -> plain_name index ->
  writes_ok n k ops ->
  exists g fs', write_array cfg index n k ops fs = Ok (g, fs') /\ (within_limits index n g fs' ->
    forall c, (c < k)%nat -> exists idx, g_columns (GroupWriter.get_index_info g) !! c = Some idx /\
      forall m h random, holds fs' m h -> Z.of_nat (length h + n) < 2 ^ 64 - 1 ->
      exists r m' hs, open fs' idx (new random) m = (Ok tt, r, m') /\ holds fs' m' (hs ++ h) /\
        m_num_rows r = length (column_of ops n c) /\
        forall m'' h'' reads, holds fs' m'' (hs ++ h'') -> exists r',
          read_all cfg fs' m'' reads r =
            (Value (map (fun '(a, b, _) => expected (column_of ops n c) a b) reads), r')).
Proof.
  intros Hk Hk' Hp Hok. destruct (array_opened index n k ops fs Hk Hk' Hp Hok)
    as (g & fs' & E & Hopen). exists g, fs'. split; [done|]. intros Hlim c Hc.
  destruct (Hopen Hlim c Hc) as (idx & chunks & Ei & Econ & Hne & H). exists idx. split; [done|].
  intros m h random Hm Hlen.
  destruct (H m [] h (new random) Hm Hlen DenseBitset.wf_empty_bitset eq_refl) as (r & m' & hs & Eo & Hm' & Hr).
  exists r, m', hs. split_and!; [done|done| |].
  { rewrite (ri_rows _ _ _ _ (ro_inv _ _ _ _ Hr)). by rewrite Econ. }
  clear Eo. intros m'' h'' reads Hm''. revert r Hr. induction reads as [|[[a b] out] reads IH]; intros r Hr.
  { by exists r. }
  destruct (read_rows_keeps fs' cfg m'' chunks hs h'' r a b out Hr Hne Hm'') as ([len vals] & r1 & E1 & Ev & Hr1).
  destruct (IH r1 Hr1) as (r2 & E2). exists r2. cbn [read_all map]. unfold bind. rewrite E1, E2.
  injection Ev as -> ->. unfold expected. by rewrite Econ.
Qed.
End storage.

(** A small array: two segments, two columns, one of them of several types *)
Definition sample_index : bytes := [Byte.x74; Byte.x2e; Byte.x73; Byte.x69; Byte.x64; Byte.x78].
Definition sample_writes : writes :=
  [(0, 1, FInt 7); (0, 0, FInt 5); (1, 0, FString [Byte.x61]); (0, 0, FInt (-1)); (1, 1, FUndefined);
   (1, 0, FInt 1)]%nat.

Lemma sample_writes_ok : writes_ok 2 2 sample_writes.
Proof. split_and!; [by repeat constructor|done|done]. Qed.

Lemma sample_in_limits :
  match @write_array sample_lz4 sample_platform default_settings sample_index 2 2 sample_writes ∅ with
  | Ok (g, fs) => in_limits sample_index 2 g fs
  | _ => false
  end = true.
Proof. vm_compute. reflexivity. Qed.

Lemma array_roundtrip_witness :
  exists g fs' idx r m' r',
    @write_array sample_lz4 sample_platform default_settings sample_index 2 2 sample_writes ∅ =
      Ok (g, fs') /\
    g_columns (GroupWriter.get_index_info g) !! 1%nat = Some idx /\
    open fs' idx (new [3; 1]%nat) BlockManager.new = (Ok tt, r, m') /\
    @read_all sample_lz4 default_settings fs' m' [(1, 9, []); (0, 2, [])]%nat r =
      (Value [(2%nat, [FInt 1; FUndefined]); (2%nat, [FString [Byte.x61]; FInt 1])], r').
Proof.
  destruct (@array_roundtrip sample_lz4 sample_lz4_laws sample_platform default_settings eq_refl
    sample_index 2 2 sample_writes ∅ ltac:(lia) ltac:(done)) as (g & fs' & E & H).
  - by intros c t [= <- _].
  - apply sample_writes_ok.
  - exists g, fs'. assert (within_limits sample_index 2 g fs') as Hlim.
    { apply in_limits_spec. pose proof sample_in_limits as Hs. by rewrite E in Hs. }
    destruct (H Hlim 1%nat ltac:(lia)) as (idx & Ei & H1).
    destruct (H1 BlockManager.new [] [3; 1]%nat (holds_new _) ltac:(done)) as (r & m' & hs & Eo & Hm & _ & H2).
    destruct (H2 m' [] [(1, 9, []); (0, 2, [])]%nat Hm) as (r' & Er).
    exists idx, r, m', r'. split_and!; [exact E|exact Ei|exact Eo|exact Er].
Defined.

(** ** Several readers *)

(** C10. Reads on one reader by several threads, which take turns at the critical
    sections in any order, do not disturb each other, and every turn brings its
    request one block further: a request has its rows as soon as it has had as
    many turns as it has blocks, whatever the other requests did in between. *)
Theorem concurrent_reads `{L : Lz4} cfg fs m chunks hs h r reqs schedule :
  reader_on fs chunks hs r -> Forall (fun ch => ch <> []) chunks -> holds fs m (hs ++ h) ->
  (forall q, q ∈ reqs -> exists a b out, (a < b <= length (concat chunks))%nat /\
     start_request r a b out = Some q) ->
  exists reqs' r', turns cfg fs m schedule reqs r = (Value reqs', r') /\ reader_on fs chunks hs r' /\
    forall i q, reqs !! i = Some q -> (length (rq_todo q) <= length (filter (eq i) schedule))%nat ->
      exists q', reqs' !! i = Some q' /\ rq_todo q' = [] /\
        (rq_state q').2 = slice (rq_a q) (rq_b q) (concat chunks).
Proof.
  intros Hr Hne Hm Hreqs. pose proof (reader_source fs chunks hs h r m Hr Hne Hm) as Hsrc.
  destruct Hr as [Hi Hl Hb].
  assert (Forall (fun q => request_inv chunks (rq_a q) (rq_b q) (rq_todo q) (rq_state q)) reqs) as Hq.
  { apply Forall_forall. intros q Hin. destruct (Hreqs q Hin) as (a & b & out & Hab & E).
    unfold start_request in E.
    destruct (block_offset_spec fs m chunks _ _ Hsrc r a Hi ltac:(lia)) as (i & Ei & _ & Hai).
    destruct (block_offset_spec fs m chunks _ _ Hsrc r (b - 1) Hi ltac:(lia)) as (e & Ee & He & Hbe).
    rewrite Ei, Ee in E. cbn in E. injection E as <-. cbn.
    apply (request_start fs m chunks (m_block_list r) Hsrc); [done|apply length_resize|done|done|done]. }
  destruct (turns_spec cfg fs m chunks _ _ Hsrc schedule reqs r Hi Hl Hq)
    as (reqs' & r' & E & Hi' & Hl' & Hall).
  exists reqs', r'. split; [done|]. pose proof (ri_addrs _ _ _ _ Hi') as Ea.
  split; [split; [by rewrite Ea|done|by rewrite Ea]|].
  intros i q Eq Hturns. destruct (turns_progress cfg fs m schedule reqs r reqs' r' i q E Eq) as (q' & Eq' & Hdone).
  rewrite drop_ge in Hdone by done. exists q'. split_and!; [done|done|].
  destruct (Forall2_lookup_lr _ _ _ _ _ _ Hall Eq Eq') as (Ea' & Eb' & Hinv).
  rewrite Hdone in Hinv. apply request_done in Hinv. by rewrite Hinv, Ea', Eb'.
Qed.

(** A reader on the second column of the sample array *)
Lemma sample_reader : exists fs m chunks hs r, concat chunks = [FString [Byte.x61]; FInt 1; FUndefined] /\
  Forall (fun ch => ch <> []) chunks /\ holds fs m (hs ++ []) /\ @reader_on sample_lz4 fs chunks hs r.
Proof.
  destruct (@array_opened sample_lz4 sample_lz4_laws sample_platform default_settings eq_refl
    sample_index 2 2 sample_writes ∅ ltac:(lia) ltac:(done)) as (g & fs & E & H).
  { by intros c t [= <- _]. }
  { apply sample_writes_ok. }
  destruct H with (c := 1%nat) as (idx & chunks & _ & Ec & Hne & H1); [|lia|].
  { apply in_limits_spec. pose proof sample_in_limits as Hs. by rewrite E in Hs. }
  destruct (H1 BlockManager.new [] [] (new []) (holds_new _) ltac:(done) DenseBitset.wf_empty_bitset eq_refl)
    as (r & m & hs & _ & Hm & Hr).
  exists fs, m, chunks, hs, r. by split_and!.
Qed.

Lemma concurrent_reads_witness : exists fs m chunks r q1 q2 reqs' r',
  concat chunks = [FString [Byte.x61]; FInt 1; FUndefined] /\
  start_request r 0 3 [] = Some q1 /\ start_request r 1 2 [] = Some q2 /\
  @turns sample_lz4 default_settings fs m [0; 1; 0; 1]%nat [q1; q2] r = (Value reqs', r') /\
  exists q', reqs' !! 1%nat = Some q' /\ rq_todo q' = [] /\ (rq_state q').2 = [FInt 1].
Proof.
  destruct sample_reader as (fs & m & chunks & hs & r & Ec & Hne & Hm & Hr).
  assert (forall a b out, (a < b <= 3)%nat -> exists q, start_request r a b out = Some q /\
    rq_a q = a /\ rq_b q = b /\ (b = S a -> length (rq_todo q) = 1%nat)) as Hstart.
  { intros a b out Hab. pose proof (reader_source fs chunks hs [] r m Hr Hne Hm) as Hsrc. destruct Hr as [Hi _ _].
    destruct (block_offset_spec fs m chunks _ _ Hsrc r a Hi) as (i & Ei & _); [rewrite Ec; cbn; lia|].
    destruct (block_offset_spec fs m chunks _ _ Hsrc r (b - 1) Hi) as (e & Ee & _); [rewrite Ec; cbn; lia|].
    unfold start_request. rewrite Ei, Ee. eexists. split_and!; [done..|]. intros ->. cbn.
    rewrite length_seq. replace (S a - 1)%nat with a in Ee by lia. rewrite Ei in Ee. injection Ee as ->. lia. }
  destruct (Hstart 0 3 [])%nat as (q1 & E1 & _); [lia|].
  destruct (Hstart 1 2 [])%nat as (q2 & E2 & Ea & Eb & Et); [lia|].
  destruct (concurrent_reads default_settings fs m chunks hs [] r [q1; q2] [0; 1; 0; 1]%nat Hr Hne Hm)
    as (reqs' & r' & E & _ & H).
  { intros q [->| [-> | []%elem_of_nil]%elem_of_cons]%elem_of_cons.
    - exists 0%nat, 3%nat, []. rewrite Ec. cbn. split; [lia|done].
    - exists 1%nat, 2%nat, []. rewrite Ec. cbn. split; [lia|done]. }
  exists fs, m, chunks, r, q1, q2, reqs', r'. split_and!; try done.
  destruct (H 1%nat q2 eq_refl) as (q' & Eq' & Hd & Hv).
  { rewrite Et by done. vm_compute. lia. }
  exists q'. rewrite Hv, Ea, Eb, Ec. by split_and!.
Defined.

(** ** The reader as a source of rows *)

#[export] Instance reader_source_ops `{Lz4} (cfg : settings) (fs : files) (m : BlockManager.block_manager)
  : RowSource reader := {
  source_size r := m_num_rows r;
  source_read a b out r :=
    match read_rows cfg fs m false a b out r with (Value (_, vals), r') => Some (vals, r') | _ => None end
}.

Lemma reader_source_laws `{L : Lz4} cfg fs m chunks hs h : Forall (fun ch => ch <> []) chunks ->
  holds fs m (hs ++ h) ->
  RowSourceLaws (H := reader_source_ops cfg fs m) (reader_on fs chunks hs) (concat chunks).
Proof.
  intros Hne Hm. split.
  - intros r Hr. apply (ri_rows _ _ _ _ (ro_inv _ _ _ _ Hr)).
  - intros r a b out Hr Hab. cbn [source_read reader_source_ops].
    destruct (read_rows_keeps fs cfg m chunks hs h r a b out Hr Hne Hm) as ([n vals] & r' & -> & [= -> ->] & Hr').
    exists r'. by rewrite Nat.min_l by lia.
Qed.

(** C12. The buffer in front of a reader, and the iterator on it.  The reader is
    open on a column of fewer than 2^64 rows, the block manager in a state
    reached by opens that succeed and by closes, the range begins at or before
    its end, which is cut off at the end of the column, and the buffer size is
    positive.  Whatever that size, [has_next]/[next] visit the rows of the range
    one by one in order and then stop, [clear] starts the same range again, and
    an iterator that goes from [begin] to [end] visits the same rows. *)
Theorem buffered_iteration `{L : Lz4} cfg fs m chunks hs h r first last size :
  reader_on fs chunks hs r -> Forall (fun ch => ch <> []) chunks -> holds fs m (hs ++ h) ->
  (0 < size)%nat -> (first <= Nat.min last (length (concat chunks)))%nat -> fits_size (length (concat chunks)) ->
  let RS := reader_source_ops cfg fs m in
  let rows := slice first (Nat.min last (length (concat chunks))) (concat chunks) in
  let b := ReaderBuffer.init r first last size in
  (exists b', ReaderBuffer.drain (length rows) b = Some (rows, b') /\
     exists b'', ReaderBuffer.drain (length rows) (ReaderBuffer.clear b') = Some (rows, b'')) /\
  exists i, ReaderBuffer.it_begin b = Some i /\ ReaderBuffer.it_loop (length rows) i = Some rows.
Proof.
  intros Hr Hne Hm Hsize Hrange Hfit RS rows b.
  pose proof (reader_source_laws cfg fs m chunks hs h Hne Hm) as RL.
  set (e := Nat.min last (length (concat chunks))) in *.
  assert (length rows = e - first)%nat as Hlen by (apply length_slice; lia).
  pose proof (ReaderBufferCorrect.init_inv r first last size Hr Hrange Hsize Hfit) as Hb. fold b in Hb.
  assert (ReaderBuffer.m_row_end b = e) as He.
  { unfold b. cbn. unfold e. by rewrite (ri_rows _ _ _ _ (ro_inv _ _ _ _ Hr)). }
  assert (ReaderBuffer.m_iter b = first) as Hi by done.
  split.
  - destruct (ReaderBufferCorrect.drain_spec (length rows) b Hb) as (b' & E & Hb' & Hs1 & Hs2 & _).
    { rewrite He, Hi. lia. }
    rewrite He, Hi in E. exists b'. split; [exact E|].
    assert (ReaderBuffer.m_original_row_start b' = first) as Ho by (rewrite Hs2; done).
    rewrite He in Hs1.
    destruct (ReaderBufferCorrect.drain_spec (length rows) (ReaderBuffer.clear b')) as (b'' & E' & _).
    + apply ReaderBufferCorrect.clear_inv; [done|lia].
    + cbn. lia.
    + exists b''. rewrite E'. cbn [ReaderBuffer.clear ReaderBuffer.m_iter ReaderBuffer.m_row_end].
      by rewrite Ho, Hs1.
  - unfold ReaderBuffer.it_begin.
    assert (ReaderBuffer.size b = e - first)%nat as ->.
    { unfold ReaderBuffer.size. rewrite He. apply ReaderBufferCorrect.size_sub_le; [done|].
      unfold fits_size in Hfit. unfold e. lia. }
    destruct (Nat.ltb_spec 0 (e - first)) as [Hpos|Hzero].
    + destruct (ReaderBufferCorrect.next_spec b Hb) as (v & b1 & En & Ev & Hb1 & Hi1 & Hs1 & Hs2 & _).
      { unfold ReaderBuffer.has_next. rewrite He, Hi. apply Nat.ltb_lt. lia. }
      rewrite En. eexists. split; [reflexivity|].
      rewrite (ReaderBufferCorrect.it_loop_spec (length rows)).
      * cbn. rewrite Hs2, Hs1, He, Nat.add_0_r. done.
      * unfold ReaderBufferCorrect.iterator_inv. cbn. rewrite Hs2, Hs1, He, Hi1, Hi.
        change (ReaderBuffer.m_original_row_start b) with first. rewrite Hi in Ev.
        split_and!; [done|lia|lia|lia|by rewrite Nat.add_0_r].
      * cbn. lia.
    + eexists. split; [reflexivity|]. replace (e - first)%nat with 0%nat by lia.
      assert (rows = []) as -> by (apply length_zero_iff_nil; lia). done.
Qed.

Lemma buffered_iteration_witness : exists fs m r b',
  let RS := @reader_source_ops sample_lz4 default_settings fs m in
  ReaderBuffer.drain 2 (ReaderBuffer.init r 1 9 1) = Some ([FInt 1; FUndefined], b').
Proof.
  destruct sample_reader as (fs & m & chunks & hs & r & Ec & Hne & Hm & Hr).
  destruct (buffered_iteration default_settings fs m chunks hs [] r 1 9 1 Hr Hne Hm) as [(b' & E & _) _];
    [lia|rewrite Ec; cbn; lia|by rewrite Ec|].
  rewrite Ec in E. exists fs, m, r, b'. exact E.
Defined.

(** ** Failures *)

(** An open that fails is remembered.  [open_column] enters the file into its
    tables before it has read the footer; if the file cannot be opened, the
    exception leaves the entry behind, and from then on the file opens without
    an error but without any column, also once it is there. *)
Theorem failed_open_sticks fs name m f col : parse_v2_segment_filename name = (f, col) ->
  BlockManager.m_file_to_segments m !! f = None -> fs !! f = None ->
  exists m1, BlockManager.open_column fs name m = (Throws, m1) /\
    forall fs', exists addr m2, BlockManager.open_column fs' name m1 = (Ok addr, m2) /\
      BlockManager.num_blocks_in_column addr m2 = Throws.
Proof.
  intros Hp Hnone Hf. unfold BlockManager.open_column. rewrite Hp, Hnone, Hf.
  eexists. split; [reflexivity|]. intros fs'. cbn. rewrite lookup_insert_eq. unfold BlockManager.add_reference.
  cbn. rewrite lookup_insert_eq. do 2 eexists. split; [reflexivity|].
  unfold BlockManager.num_blocks_in_column. cbn. by rewrite lookup_insert_eq.
Qed.

(** C40. A block that cannot be read locks itself: the exception leaves
    [fetch_rows_from_cache] with the spin lock of the block held, so the next
    read of that block spins forever. *)
Theorem failed_read_spins `{Lz4} cfg fs m r i c addr start next a b s : m_cache r !! i = Some c ->
  locked c = false -> has_data c = false -> m_block_list r !! i = Some addr ->
  m_start_row r !! i = Some start -> m_start_row r !! S i = Some next ->
  BlockManager.read_block fs addr m = Ok None ->
  exists r', read_block_rows cfg fs m a b i s r = (Raises, r') /\
    forall a' b' s', read_block_rows cfg fs m a' b' i s' r' = (Spins, r').
Proof.
  intros Ec Hl Hd Ea Es En Er. pose proof (lookup_lt_Some _ _ _ Ec) as Hlt.
  unfold read_block_rows, load_entry, lock, fetch_cache_from_file, get_entry, set_entry, modify, get, bind,
    lift_opt, lift, of_option. cbn.
  rewrite Es, En, Ec, Hl. cbn. rewrite list_lookup_insert_eq by done. cbn. rewrite Hd. cbn.
  rewrite list_lookup_insert_eq by done. cbn. rewrite Ea, Er. eexists. split; [reflexivity|].
  intros a' b' s'. cbn. rewrite Es, En. cbn. rewrite list_insert_insert_eq, list_lookup_insert_eq by done. done.
Qed.

(** A reader on a file whose block was cut off *)
Definition cut_info : block_info := mk_info 0 8 8 1 IS_FLEXIBLE_TYPE 0.
Definition cut_manager : BlockManager.block_manager :=
  BlockManager.mk 1 {[ 0%nat := BlockManager.mk_segment sample_index 0 true [[cut_info]] 1 ]}
    {[ sample_index := 0%nat ]}.
Definition cut_reader : reader :=
  mk index_default 1 [(0, 0, 0)]%nat [0; 1]%nat [(0, 0)]%nat (DenseBitset.mk [0] 1) 0 [entry_default] [].

Lemma failed_read_spins_witness : exists r',
  @read_block_rows sample_lz4 default_settings {[ sample_index := [] ]} cut_manager 0 1 0 (0%nat, [FUndefined])
    cut_reader = (Raises, r') /\
  @read_block_rows sample_lz4 default_settings {[ sample_index := [] ]} cut_manager 0 1 0 (0%nat, [FUndefined])
    r' = (Spins, r').
Proof.
  destruct (@failed_read_spins sample_lz4 default_settings {[ sample_index := [] ]} cut_manager cut_reader 0
    entry_default (0, 0, 0)%nat 0 1 0 1 (0%nat, [FUndefined])) as (r' & E & H);
    [reflexivity|reflexivity|reflexivity|reflexivity|reflexivity|reflexivity|by vm_compute|].
  exists r'. split; [exact E|apply H].
Defined.

(** [LZ4_compress] returns 0 for data it does not accept; the block writer takes
    that for a very good compression and writes nothing. *)
Lemma rejected_block_lost `{Lz4} data block :
  LZ4_compress data = [] -> bi_block_size block = LZ4_MAX_INPUT_SIZE + 1 ->
  let '(buf, info) := BlockWriter.compress_block data block in buf = [] /\ bi_length info = 0.
Proof. intros E Eb. unfold BlockWriter.compress_block. rewrite E, Eb. by vm_compute. Qed.
