(* ===== verification/Sketches.v ===== *)
(** Sketches of a stream of values: the model of [sketches/countmin.hpp],
    [sketches/countsketch.hpp] and [sketches/hyperloglog.hpp].

    The sketches are templates over the type of the values, which they only ever
    hash: [std::hash<T>] is an argument.  So are the random seeds that a sketch
    draws when it is made.  A counter is a number of 64 bits, an access outside
    a table is undefined. *)
From Stdlib Require Import ZArith Lia List Bool.
From Stdlib Require Import Floats.SpecFloat.
From stdpp Require Import prelude sorting.
From S2P Require Import Prelude.
From S2P Require Import Double.
From S2P Require Import Hash.

(** ** Tables of counters *)

(** [counts[j][b] = f(counts[j][b])] *)
Definition bump (j b : nat) (f : Z -> Z) (counts : list (list Z)) : outcome (list (list Z)) :=
  row <-? of_option (counts !! j);
  c <-? of_option (row !! b);
  Ok (<[j := <[b := f c]> row]> counts).

Definition count_at (counts : list (list Z)) (j b : nat) : outcome Z :=
  row <-? of_option (counts !! j);
  of_option (row !! b).

(** [1 << num_bits] in an [int], undefined into or past the sign bit, and the
    assertion on it *)
Definition bins_of (num_bits : Z) : outcome Z :=
  if (num_bits <? 0) || (31 <=? num_bits) then Undef else
  let num_bins := Z.shiftl 1 num_bits in
  _ <-? assert (16 <=? num_bins);
  Ok num_bins.

(** [density]: the share of the counters that are not zero *)
Definition density (num_hash : nat) (num_bins : Z) (counts : list (list Z)) : Z :=
  d_div (d_of_int (Z.of_nat (length (filter (fun c => c <> 0) (concat counts)))))
        (d_of_int (u64 (Z.of_nat num_hash * num_bins))).

(** ** countmin *)

Module CountMin.

Record countmin := mk {
  num_hash : nat;
  num_bits : Z;
  num_bins : Z;
  seeds : list Z;
  counts : list (list Z)
}.

Definition with_counts (s : countmin) (c : list (list Z)) : countmin :=
  mk (num_hash s) (num_bits s) (num_bins s) (seeds s) c.

(** The constructor; [drawn] are the [depth] random numbers *)
Definition new (bits : Z) (drawn : list Z) : outcome countmin :=
  bins <-? bins_of bits;
  Ok (mk (length drawn) bits bins drawn (replicate (length drawn) (replicate (Z.to_nat bins) 0))).

Section values.
Context {T : Type} (std_hash : T -> Z).

Definition bin_of (num_bins : Z) (t : T) (seed : Z) : nat :=
  Z.to_nat (hash64_int (Z.lxor seed (hash64_int (std_hash t))) mod num_bins).

Definition add (t : T) (count : Z) (s : countmin) : outcome countmin :=
  omap_ok (with_counts s)
    (ofold (fun j cs =>
       seed <-? of_option (seeds s !! j);
       bump j (bin_of (num_bins s) t seed) (fun c => u64 (c + count)) cs)
     (seq 0 (num_hash s)) (counts s)).

Definition estimate (t : T) (s : countmin) : outcome Z :=
  ofold (fun j E =>
    seed <-? of_option (seeds s !! j);
    c <-? count_at (counts s) j (bin_of (num_bins s) t seed);
    Ok (if c <? E then c else E))
  (seq 0 (num_hash s)) (2 ^ 64 - 1).
End values.

Definition combine (other s : countmin) : outcome countmin :=
  _ <-? assert (num_bins s =? num_bins other);
  _ <-? assert (num_hash s =? num_hash other)%nat;
  omap_ok (with_counts s)
    (ofold (fun j cs =>
       ofold (fun b cs =>
         o <-? count_at (counts other) j b;
         bump j b (fun c => u64 (c + o)) cs)
       (seq 0 (Z.to_nat (num_bins s))) cs)
     (seq 0 (num_hash s)) (counts s)).
End CountMin.

(** ** countsketch *)

Module CountSketch.

Record countsketch := mk {
  num_hash : nat;
  num_bits : Z;
  num_bins : Z;
  seeds : list Z;
  seeds_binary : list Z;
  counts : list (list Z)
}.

Definition with_counts (s : countsketch) (c : list (list Z)) : countsketch :=
  mk (num_hash s) (num_bits s) (num_bins s) (seeds s) (seeds_binary s) c.

(** The constructor; [drawn] are the pairs of random numbers, in the order drawn *)
Definition new (bits : Z) (drawn : list (Z * Z)) : outcome countsketch :=
  bins <-? bins_of bits;
  Ok (mk (length drawn) bits bins (map fst drawn) (map snd drawn)
         (replicate (length drawn) (replicate (Z.to_nat bins) 0))).

Section values.
Context {T : Type} (std_hash : T -> Z).

Definition bin_of (num_bins : Z) (t : T) (seed : Z) : nat :=
  Z.to_nat (hash64_int (Z.lxor seed (hash64_int (std_hash t))) mod num_bins).

(** The trailing bit of a hash as 1 or -1 *)
Definition sign_of (t : T) (seed : Z) : Z :=
  2 * Z.land (hash64_int (Z.lxor seed (hash64_int (std_hash t)))) 1 - 1.

Definition add (t : T) (count : Z) (s : countsketch) : outcome countsketch :=
  omap_ok (with_counts s)
    (ofold (fun j cs =>
       seed_binary <-? of_option (seeds_binary s !! j);
       seed <-? of_option (seeds s !! j);
       bump j (bin_of (num_bins s) t seed) (fun c => i64 (c + i64 (sign_of t seed_binary * i64 count))) cs)
     (seq 0 (num_hash s)) (counts s)).

Definition row_estimates (t : T) (s : countsketch) : outcome (list Z) :=
  otraverse (fun j =>
    seed_binary <-? of_option (seeds_binary s !! j);
    seed <-? of_option (seeds s !! j);
    c <-? count_at (counts s) j (bin_of (num_bins s) t seed);
    Ok (i64 (sign_of t seed_binary * c)))
  (seq 0 (num_hash s)).

(** [std::nth_element] leaves at a position the element that sorting would put
    there. *)
Definition estimate (t : T) (s : countsketch) : outcome Z :=
  estimates <-? row_estimates t s;
  of_option (merge_sort Z.le estimates !! (length estimates / 2)%nat).
End values.

Definition combine (other s : countsketch) : outcome countsketch :=
  _ <-? assert (num_bins s =? num_bins other);
  _ <-? assert (num_hash s =? num_hash other)%nat;
  omap_ok (with_counts s)
    (ofold (fun j cs =>
       ofold (fun b cs =>
         o <-? count_at (counts other) j b;
         bump j b (fun c => i64 (c + o)) cs)
       (seq 0 (Z.to_nat (num_bins s))) cs)
     (seq 0 (num_hash s)) (counts s)).
End CountSketch.

(** ** hyperloglog *)

Module HyperLogLog.

Record hyperloglog := mk {
  m_b : Z;
  m_m : Z;
  m_alpha : Z;
  m_buckets : list Z
}.

(** The constants, as doubles *)
Definition decimal (num den : Z) : Z := d_div (d_of_int num) (d_of_int den).
Definition alpha_of (m : Z) : Z :=
  if m =? 16 then decimal 673 1000
  else if m =? 32 then decimal 697 1000
  else if m =? 64 then decimal 709 1000
  else d_div (decimal 7213 10000) (d_add (d_of_int 1) (d_div (decimal 1079 1000) (d_of_int m))).

Definition new (b : Z) : outcome hyperloglog :=
  m <-? bins_of b;
  Ok (mk b m (alpha_of m) (replicate (Z.to_nat m) 0)).

(** [__builtin_clz] is defined on [unsigned int] and not at 0: the argument is
    cut down to 32 bits. *)
Definition builtin_clz (h : Z) : outcome Z :=
  let h := u32 h in if h =? 0 then Undef else Ok (32 - bit_length h).

(** The position that a hash contributes, an [unsigned char] *)
Definition position (h : Z) : outcome Z :=
  if h =? 0 then Ok 8 else z <-? builtin_clz h; Ok (u8 (1 + z)).

Section values.
Context {T : Type} (std_hash : T -> Z).

Definition hash_of (t : T) : Z := hash64_int (hash64_int (std_hash t)).

Definition add (t : T) (s : hyperloglog) : outcome hyperloglog :=
  let h := hash_of t in
  let index := Z.to_nat (Z.shiftr h (64 - m_b s)) in
  pos <-? position h;
  old <-? of_option (m_buckets s !! index);
  Ok (mk (m_b s) (m_m s) (m_alpha s) (<[index := Z.max old pos]> (m_buckets s))).
End values.

Definition combine (other s : hyperloglog) : outcome hyperloglog :=
  _ <-? assert (length (m_buckets s) =? length (m_buckets other))%nat;
  omap_ok (mk (m_b s) (m_m s) (m_alpha s))
    (ofold (fun i bs =>
       o <-? of_option (m_buckets other !! i);
       b <-? of_option (bs !! i);
       Ok (<[i := Z.max b o]> bs))
     (seq 0 (length (m_buckets s))) (m_buckets s)).

(** [std::pow(2.0, -(double) x)], which is exact, and [std::log], an argument *)
Definition pow2_neg (x : Z) : Z := to_bits (binary_normalize prec emax 1 (- x) false).

Definition estimate (log : Z -> Z) (s : hyperloglog) : Z :=
  let E := foldl (fun E x => d_add E (pow2_neg x)) (d_of_int 0) (m_buckets s) in
  let m := d_of_int (m_m s) in
  let E := d_div (d_mul (d_mul (m_alpha s) m) m) E in
  if negb (d_gt E (d_mul (decimal 5 2) m)) && negb (is_nan E) then
    let zero_count := Z.of_nat (length (filter (fun i => i = 0) (m_buckets s))) in
    if zero_count =? 0 then E else d_mul m (log (d_div m (d_of_int zero_count)))
  else E.

(** [error_bound]; [std::sqrt] is an argument *)
Definition error_bound (log sqrt : Z -> Z) (s : hyperloglog) : Z :=
  d_div (d_mul (estimate log s) (decimal 26 25)) (sqrt (d_of_int (m_m s))).
End HyperLogLog.
