(* ===== verification/SketchesCorrect.v ===== *)
(** The sketches of [Sketches] are correct: their state is a function of the
    stream alone, merging two sketches is sketching both streams, and what the
    estimates promise. *)
From Stdlib Require Import ZArith Lia List Bool.
From stdpp Require Import prelude sorting.
From S2P Require Import Prelude.
From S2P Require Import Double.
From S2P Require Import Hash.
From S2P Require Import Sketches.

(** ** Tables *)

(** The table with [f j b] in row [j] and column [b] *)
Definition table (d n : nat) (f : nat -> nat -> Z) : list (list Z) :=
  map (fun j => map (f j) (seq 0 n)) (seq 0 d).

Lemma table_row d n f j : (j < d)%nat -> table d n f !! j = Some (map (f j) (seq 0 n)).
Proof. intros Hj. exact (map_seq_lookup (fun j => map (f j) (seq 0 n)) d j Hj). Qed.

Lemma count_at_table d n f j b : (j < d)%nat -> (b < n)%nat -> count_at (table d n f) j b = Ok (f j b).
Proof. intros Hj Hb. unfold count_at. rewrite table_row by done. cbn [of_option obind]. by rewrite map_seq_lookup. Qed.

Lemma map_seq_ext {A} (f g : nat -> A) n : (forall i, (i < n)%nat -> f i = g i) -> map f (seq 0 n) = map g (seq 0 n).
Proof. intros H. apply map_ext_in. intros i Hi%in_seq. apply H. lia. Qed.

Lemma table_ext d n f g : (forall j b, (j < d)%nat -> (b < n)%nat -> f j b = g j b) -> table d n f = table d n g.
Proof. intros H. apply map_seq_ext. intros j Hj. apply map_seq_ext. intros b Hb. by apply H. Qed.

Lemma map_seq_insert {A} (f : nat -> A) n i x :
  <[i := x]> (map f (seq 0 n)) = map (fun k => if decide (k = i) then x else f k) (seq 0 n).
Proof.
  apply list_eq. intros k. destruct (Nat.lt_ge_cases k n) as [Hk|Hk].
  - rewrite map_seq_lookup by done. destruct (decide (k = i)) as [->|Hne].
    + apply list_lookup_insert_eq. by rewrite length_map, length_seq.
    + rewrite list_lookup_insert_ne by done. by rewrite map_seq_lookup.
  - rewrite !lookup_ge_None_2; [done| |]; rewrite ?length_insert, length_map, length_seq; lia.
Qed.

Lemma bump_table d n f j b g : (j < d)%nat -> (b < n)%nat ->
  bump j b g (table d n f) =
    Ok (table d n (fun j' b' => if decide (j' = j /\ b' = b) then g (f j b) else f j' b')).
Proof.
  intros Hj Hb. unfold bump. rewrite table_row by done. cbn [of_option obind].
  rewrite map_seq_lookup by done. cbn [of_option obind]. f_equal. rewrite map_seq_insert.
  unfold table. rewrite (map_seq_insert (fun j => map (f j) (seq 0 n))). apply map_seq_ext. intros j' _.
  destruct (decide (j' = j)) as [->|Hne].
  - apply map_seq_ext. intros b' _. destruct (decide (b' = b)) as [->|Hne]; [by rewrite decide_True|].
    rewrite decide_False; [done|tauto].
  - apply map_seq_ext. intros b' _. rewrite decide_False; [done|tauto].
Qed.

(** One counter of every row *)
Lemma bump_rows d n f (body : nat -> list (list Z) -> outcome (list (list Z))) (b : nat -> nat) (g : nat -> Z -> Z) :
  (forall j cs, (j < d)%nat -> body j cs = bump j (b j) (g j) cs) -> (forall j, (j < d)%nat -> (b j < n)%nat) ->
  ofold body (seq 0 d) (table d n f) =
    Ok (table d n (fun j k => if decide (k = b j) then g j (f j k) else f j k)).
Proof.
  intros Hbody Hb.
  set (I m := table d n (fun j k => if decide ((j < m)%nat /\ k = b j) then g j (f j k) else f j k)).
  assert (table d n f = I 0%nat) as ->.
  { apply table_ext. intros j k _ _. rewrite decide_False; [done|lia]. }
  rewrite (ofold_seq body I).
  - f_equal. apply table_ext. intros j k Hj _. cbn. repeat case_decide; done || tauto.
  - intros i Hi. rewrite Hbody by lia. unfold I. rewrite bump_table by (try apply Hb; lia).
    f_equal. apply table_ext. intros j k _ _. destruct (decide (j = i)) as [->|Hne];
      repeat case_decide; try done; destruct_and?; subst; tauto || lia.
Qed.

(** Every counter, by a loop in a loop *)
Lemma bump_all d n f (body : nat -> nat -> list (list Z) -> outcome (list (list Z))) (g : nat -> nat -> Z -> Z) :
  (forall j b cs, (j < d)%nat -> (b < n)%nat -> body j b cs = bump j b (g j b) cs) ->
  ofold (fun j => ofold (body j) (seq 0 n)) (seq 0 d) (table d n f) =
    Ok (table d n (fun j b => g j b (f j b))).
Proof.
  intros Hbody.
  set (I m := table d n (fun j b => if decide (j < m)%nat then g j b (f j b) else f j b)).
  assert (table d n f = I 0%nat) as ->.
  { apply table_ext. intros j k _ _. rewrite decide_False; [done|lia]. }
  rewrite (ofold_seq _ I).
  - f_equal. apply table_ext. intros j k Hj _. by rewrite decide_True by lia.
  - intros i Hi.
    set (J m := table d n (fun j b =>
      if decide ((j < i)%nat \/ j = i /\ (b < m)%nat) then g j b (f j b) else f j b)).
    assert (I i = J 0%nat) as ->.
    { apply table_ext. intros j b _ _. repeat case_decide; try done; lia. }
    rewrite (ofold_seq _ J).
    + f_equal. apply table_ext. intros j b _ Hb. repeat case_decide; try done; lia.
    + intros b Hb. rewrite Hbody by lia. unfold J. rewrite bump_table by lia. f_equal. apply table_ext.
      intros j k _ _. repeat case_decide; try done; destruct_and?; subst; lia.
Qed.

(** The weight of the elements of a stream that satisfy [p] *)
Definition weight {T} (p : T -> bool) (adds : list (T * Z)) : Z :=
  foldr (fun x s => (if p x.1 then x.2 else 0) + s) 0 adds.

Lemma weight_app {T} (p : T -> bool) l1 l2 : weight p (l1 ++ l2) = weight p l1 + weight p l2.
Proof. induction l1 as [|x l1 IH]; [done|]. cbn. fold (weight p l1) (weight p (l1 ++ l2)). rewrite IH. lia. Qed.
Lemma weight_one {T} (p : T -> bool) x c : weight p [(x, c)] = if p x then c else 0.
Proof. cbn. lia. Qed.

Definition counted {T} (adds : list (T * Z)) : Prop := Forall (fun x => 0 <= x.2) adds.

Lemma weight_mono {T} (p q : T -> bool) adds : counted adds -> (forall x, p x = true -> q x = true) ->
  0 <= weight p adds <= weight q adds.
Proof.
  intros H Hpq. induction H as [|[x c] l Hc _ IH]; [done|]. cbn in *. fold (weight p l) (weight q l) in *.
  specialize (Hpq x). destruct (p x), (q x); try lia.
Qed.

Lemma new_table d n : replicate d (replicate n 0) = table d n (fun _ _ => 0).
Proof.
  assert (forall {A} (x : A) m, replicate m x = map (fun _ => x) (seq 0 m)) as H.
  { intros A x m. apply list_eq. intros i. destruct (Nat.lt_ge_cases i m) as [Hi|Hi].
    - rewrite (lookup_replicate_2 _ _ _ Hi). by rewrite map_seq_lookup.
    - rewrite !lookup_ge_None_2; [done| |]; rewrite ?length_map, ?length_seq, ?length_replicate; lia. }
  rewrite H. apply map_seq_ext. intros j _. apply H.
Qed.

Lemma bins_of_ok bits : 4 <= bits < 31 -> bins_of bits = Ok (2 ^ bits).
Proof.
  intros Hb. unfold bins_of. destruct (Z.ltb_spec bits 0), (Z.leb_spec 31 bits); try lia. cbn [orb].
  rewrite Z.shiftl_mul_pow2, Z.mul_1_l by lia. unfold assert.
  pose proof (Z.pow_le_mono_r 2 4 bits). destruct (Z.leb_spec 16 (2 ^ bits)); [done|lia].
Qed.

(** ** countmin *)

Module CountMinCorrect.
Import CountMin.

Section countmin.
Context {T : Type} `{EqDecision T} (std_hash : T -> Z) (bits : Z) (drawn : list Z).
Hypothesis Hbits : 4 <= bits < 31.

Definition run (adds : list (T * Z)) (s : countmin) : outcome countmin :=
  ofold (fun x => add std_hash x.1 x.2) adds s.

(** The column of a value in row [j] *)
Definition col (j : nat) (t : T) : nat := bin_of std_hash (2 ^ bits) t (default 0 (drawn !! j)).

Lemma col_lt j t : (col j t < Z.to_nat (2 ^ bits))%nat.
Proof.
  unfold col, bin_of. assert (0 < 2 ^ bits) as Hpos by (apply Z.pow_pos_nonneg; lia).
  pose proof (Z.mod_pos_bound (hash64_int (Z.lxor (default 0 (drawn !! j)) (hash64_int (std_hash t)))) _ Hpos). lia.
Qed.

(** The sketch of a stream, as a function of the stream *)
Definition sketch (adds : list (T * Z)) : countmin :=
  mk (length drawn) bits (2 ^ bits) drawn
     (table (length drawn) (Z.to_nat (2 ^ bits)) (fun j b => u64 (weight (fun x => col j x =? b)%nat adds))).

Lemma new_sketch : new bits drawn = Ok (sketch []).
Proof. unfold new. rewrite bins_of_ok by done. cbn [obind]. by rewrite new_table. Qed.

Lemma seed_at j : (j < length drawn)%nat -> drawn !! j = Some (default 0 (drawn !! j)).
Proof. intros Hj. by destruct (lookup_lt_is_Some_2 drawn j Hj) as [x ->]. Qed.

Lemma add_sketch t c adds : add std_hash t c (sketch adds) = Ok (sketch (adds ++ [(t, c)])).
Proof.
  unfold add. cbn [seeds num_bins num_hash counts sketch].
  rewrite (bump_rows _ _ _ _ (fun j => col j t) (fun _ x => u64 (x + c))).
  - cbn [omap_ok]. unfold with_counts, sketch. cbn [num_hash num_bits num_bins seeds]. do 2 f_equal.
    apply table_ext. intros j b _ _. rewrite weight_app, weight_one.
    destruct (Nat.eqb_spec (col j t) b) as [->|Hne].
    + rewrite decide_True by done. by rewrite wrap_add_l.
    + rewrite decide_False by congruence. by rewrite Z.add_0_r.
  - intros j cs Hj. rewrite seed_at by done. done.
  - intros j _. apply col_lt.
Qed.

Lemma run_sketch adds : forall done, run adds (sketch done) = Ok (sketch (done ++ adds)).
Proof.
  induction adds as [|[t c] adds IH]; intros l; [by rewrite app_nil_r|].
  cbn [run ofold]. rewrite add_sketch. cbn [obind]. unfold run in IH. rewrite IH, <- app_assoc. done.
Qed.

Lemma combine_sketch l1 l2 : combine (sketch l2) (sketch l1) = Ok (sketch (l1 ++ l2)).
Proof.
  unfold combine. cbn [num_bins num_hash sketch counts]. rewrite Z.eqb_refl, Nat.eqb_refl. cbn [assert obind].
  rewrite (bump_all _ _ _ _ (fun j b x => u64 (x + u64 (weight (fun t => col j t =? b)%nat l2)))).
  - cbn [omap_ok]. unfold with_counts, sketch. cbn [num_hash num_bits num_bins seeds]. do 2 f_equal.
    apply table_ext. intros j b _ _. by rewrite weight_app, wrap_add_l, wrap_add_r.
  - intros j b cs Hj Hb. by rewrite count_at_table.
Qed.

(** The estimate is the least of the counters of the value. *)
Definition least (l : list Z) : Z := foldl (fun E c => if c <? E then c else E) (2 ^ 64 - 1) l.

Lemma estimate_sketch t adds :
  estimate std_hash t (sketch adds) =
    Ok (least (map (fun j => u64 (weight (fun x => col j x =? col j t)%nat adds)) (seq 0 (length drawn)))).
Proof.
  unfold estimate. cbn [seeds num_bins num_hash counts sketch].
  set (v j := u64 (weight (fun x => col j x =? col j t)%nat adds)).
  set (I m := least (map v (seq 0 m))). change (2 ^ 64 - 1) with (I 0%nat).
  rewrite (ofold_seq _ I); [done|]. intros j Hj. rewrite seed_at by lia. cbn [of_option obind].
  fold (col j t). rewrite count_at_table by (apply col_lt || lia). cbn [obind]. unfold I.
  rewrite seq_S, map_app. unfold least. rewrite foldl_app. done.
Qed.

Lemma least_spec l : least l <= 2 ^ 64 - 1 /\ (forall x, x ∈ l -> least l <= x) /\
  (least l = 2 ^ 64 - 1 \/ least l ∈ l).
Proof.
  induction l as [|x l IH] using rev_ind; [split_and!; [done|by intros x []%elem_of_nil|by left]|].
  unfold least. rewrite foldl_app. fold (least l). cbn. destruct IH as (H1 & H2 & H3).
  zcases; split_and!; try lia.
  - intros y [Hy|Hy]%elem_of_app; [specialize (H2 y Hy); lia|]. apply list_elem_of_singleton in Hy. lia.
  - right. apply elem_of_app. right. by apply list_elem_of_singleton.
  - intros y [Hy|Hy]%elem_of_app; [by apply H2|]. apply list_elem_of_singleton in Hy. lia.
  - destruct H3 as [->|H3]; [by left|]. right. apply elem_of_app. by left.
Qed.
End countmin.
End CountMinCorrect.

(** ** countsketch *)

Module CountSketchCorrect.
Import CountSketch.

Section countsketch.
Context {T : Type} `{EqDecision T} (std_hash : T -> Z) (bits : Z) (drawn : list (Z * Z)).
Hypothesis Hbits : 4 <= bits < 31.

Definition run (adds : list (T * Z)) (s : countsketch) : outcome countsketch :=
  ofold (fun x => add std_hash x.1 x.2) adds s.

Definition col (j : nat) (t : T) : nat := bin_of std_hash (2 ^ bits) t (default (0, 0) (drawn !! j)).1.
Definition sign (j : nat) (t : T) : Z := sign_of std_hash t (default (0, 0) (drawn !! j)).2.

Lemma cs_col_lt j t : (col j t < Z.to_nat (2 ^ bits))%nat.
Proof.
  unfold col, bin_of. assert (0 < 2 ^ bits) as Hpos by (apply Z.pow_pos_nonneg; lia).
  pose proof (Z.mod_pos_bound (hash64_int (Z.lxor (default (0, 0) (drawn !! j)).1 (hash64_int (std_hash t)))) _ Hpos).
  lia.
Qed.

Lemma sign_cases j t : sign j t = 1 \/ sign j t = -1.
Proof.
  unfold sign, sign_of. set (h := hash64_int _). assert (Z.land h 1 = h mod 2) as -> by (apply (land_low h 1); lia).
  pose proof (Z.mod_pos_bound h 2). lia.
Qed.

(** The signed weight of the elements that fall into column [b] of row [j] *)
Definition cell (j b : nat) (adds : list (T * Z)) : Z :=
  weight (fun x => col j x =? b)%nat (map (fun x => (x.1, sign j x.1 * x.2)) adds).

Definition sketch (adds : list (T * Z)) : countsketch :=
  mk (length drawn) bits (2 ^ bits) (map fst drawn) (map snd drawn)
     (table (length drawn) (Z.to_nat (2 ^ bits)) (fun j b => i64 (cell j b adds))).

Lemma cs_new_sketch : new bits drawn = Ok (sketch []).
Proof. unfold new. rewrite bins_of_ok by done. cbn [obind]. by rewrite new_table. Qed.

Lemma seeds_at j : (j < length drawn)%nat ->
  map fst drawn !! j = Some (default (0, 0) (drawn !! j)).1 /\ map snd drawn !! j = Some (default (0, 0) (drawn !! j)).2.
Proof.
  intros Hj. change (map fst drawn) with (fst <$> drawn). change (map snd drawn) with (snd <$> drawn).
  rewrite !list_lookup_fmap. by destruct (lookup_lt_is_Some_2 drawn j Hj) as [x ->].
Qed.

Lemma cs_add_sketch t c adds : add std_hash t c (sketch adds) = Ok (sketch (adds ++ [(t, c)])).
Proof.
  unfold add. cbn [seeds seeds_binary num_bins num_hash counts sketch].
  rewrite (bump_rows _ _ _ _ (fun j => col j t) (fun j x => i64 (x + i64 (sign j t * i64 c)))).
  - cbn [omap_ok]. unfold with_counts, sketch. cbn [num_hash num_bits num_bins seeds seeds_binary]. do 2 f_equal.
    apply table_ext. intros j b _ _. unfold cell. rewrite map_app, weight_app. cbn [map fst snd]. rewrite weight_one.
    destruct (Nat.eqb_spec (col j t) b) as [->|Hne].
    + rewrite decide_True by done. by rewrite signed_mul_r, signed_add_r, signed_add_l by lia.
    + rewrite decide_False by congruence. by rewrite Z.add_0_r.
  - intros j cs Hj. destruct (seeds_at j Hj) as [-> ->]. done.
  - intros j _. apply cs_col_lt.
Qed.

Lemma cs_run_sketch adds : forall l, run adds (sketch l) = Ok (sketch (l ++ adds)).
Proof.
  induction adds as [|[t c] adds IH]; intros l; [by rewrite app_nil_r|].
  cbn [run ofold]. rewrite cs_add_sketch. cbn [obind]. unfold run in IH. rewrite IH, <- app_assoc. done.
Qed.

Lemma cs_combine_sketch l1 l2 : combine (sketch l2) (sketch l1) = Ok (sketch (l1 ++ l2)).
Proof.
  unfold combine. cbn [num_bins num_hash sketch counts]. rewrite Z.eqb_refl, Nat.eqb_refl. cbn [assert obind].
  rewrite (bump_all _ _ _ _ (fun j b x => i64 (x + i64 (cell j b l2)))).
  - cbn [omap_ok]. unfold with_counts, sketch. cbn [num_hash num_bits num_bins seeds seeds_binary]. do 2 f_equal.
    apply table_ext. intros j b _ _. unfold cell. by rewrite map_app, weight_app, signed_add_l, signed_add_r.
  - intros j b cs Hj Hb. by rewrite count_at_table.
Qed.

(** What row [j] says about [t] *)
Lemma row_estimates_sketch t adds : row_estimates std_hash t (sketch adds) =
  Ok (map (fun j => i64 (sign j t * i64 (cell j (col j t) adds))) (seq 0 (length drawn))).
Proof.
  unfold row_estimates. cbn [seeds seeds_binary num_bins num_hash counts sketch].
  assert (forall js, Forall (fun j => (j < length drawn)%nat) js ->
    otraverse (fun j => seed_binary <-? of_option (map snd drawn !! j);
      seed <-? of_option (map fst drawn !! j);
      c <-? count_at (table (length drawn) (Z.to_nat (2 ^ bits)) (fun j b => i64 (cell j b adds))) j
              (bin_of std_hash (2 ^ bits) t seed);
      Ok (i64 (sign_of std_hash t seed_binary * c))) js =
    Ok (map (fun j => i64 (sign j t * i64 (cell j (col j t) adds))) js)) as H.
  { intros js Hjs. induction Hjs as [|j js Hj _ IH]; [done|]. cbn [otraverse map].
    destruct (seeds_at j Hj) as [-> ->]. cbn [of_option obind]. fold (col j t). fold (sign j t).
    rewrite count_at_table by (done || apply cs_col_lt). cbn [obind]. by rewrite IH. }
  apply H. apply Forall_forall. intros j Hj%elem_of_seq. lia.
Qed.

(** No other value of the stream shares the counter of [t] in row [j]. *)
Definition isolated (adds : list (T * Z)) (t : T) (j : nat) : Prop :=
  Forall (fun x => col j x.1 = col j t -> x.1 = t) adds.
#[global] Instance isolated_dec adds t j : Decision (isolated adds t j).
Proof. apply Forall_dec. intros x. solve_decision. Defined.

Lemma isolated_row adds t j : isolated adds t j -> is_s 64 (weight (fun x => bool_decide (x = t)) adds) ->
  i64 (sign j t * i64 (cell j (col j t) adds)) = weight (fun x => bool_decide (x = t)) adds.
Proof.
  intros Hi Hs. assert (cell j (col j t) adds = sign j t * weight (fun x => bool_decide (x = t)) adds) as ->.
  { unfold cell. clear Hs. induction Hi as [|[x c] l Hx _ IH]; [by rewrite Z.mul_0_r|]. cbn in *.
    unfold weight in *. rewrite IH, Z.mul_add_distr_l. f_equal. case_bool_decide as E.
    - subst. by rewrite Nat.eqb_refl.
    - destruct (Nat.eqb_spec (col j x) (col j t)); [tauto|lia]. }
  rewrite signed_mul_r, Z.mul_assoc by lia. destruct (sign_cases j t) as [-> | ->]; by rewrite Z.mul_1_l, signed_small.
Qed.
End countsketch.

(** The median of a list, more than half of which is [v] *)
Lemma sorted_around l1 (x : Z) l2 : StronglySorted Z.le (l1 ++ x :: l2) ->
  Forall (fun y => y <= x) l1 /\ Forall (fun y => x <= y) l2.
Proof.
  induction l1 as [|y l1 IH]; cbn; intros H; inversion H as [|? ? Hs Hf]; subst; [by split|].
  destruct (IH Hs) as [H1 H2]. split; [|done]. constructor; [|done].
  rewrite Forall_app, Forall_cons in Hf. tauto.
Qed.

Lemma filter_empty {A} (P : A -> Prop) `{forall x, Decision (P x)} l : Forall (fun x => ~ P x) l -> filter P l = [].
Proof. intros Hl. induction Hl as [|x l Hx _ IH]; [done|]. by rewrite filter_cons_False. Qed.

Lemma median_majority (l : list Z) v : (length l < 2 * length (filter (fun x => x = v) l))%nat ->
  merge_sort Z.le l !! (length l / 2)%nat = Some v.
Proof.
  intros Hv. pose proof (merge_sort_Permutation Z.le l) as Hp. pose proof (StronglySorted_merge_sort Z.le l) as Hs.
  set (m := merge_sort Z.le l) in *. rewrite <- Hp in Hv. clearbody m.
  assert (length l = length m) as Hlen by (by rewrite Hp). rewrite Hlen in *. clear Hp Hlen l.
  pose proof (length_filter (fun x => x = v) m) as Hle.
  set (k := (length m / 2)%nat). assert (2 * k <= length m < 2 * k + 2)%nat as Hk.
  { pose proof (Nat.div_mod_eq (length m) 2). pose proof (Nat.mod_upper_bound (length m) 2). unfold k. lia. }
  clearbody k.
  destruct (lookup_lt_is_Some_2 m k) as [x Hx]; [lia|]. rewrite Hx. f_equal.
  assert (filter (fun x => x = v) m = filter (fun x => x = v) (take k m) ++ filter (fun x => x = v) (x :: drop (S k) m))
    as Hf by (by rewrite <- filter_app, take_drop_middle).
  rewrite <- (take_drop_middle m k x Hx) in Hs. destruct (sorted_around _ _ _ Hs) as [H1 H2].
  rewrite Hf, length_app, filter_cons in Hv.
  pose proof (length_filter (fun x => x = v) (take k m)) as Ht.
  pose proof (length_filter (fun x => x = v) (drop (S k) m)) as Hd.
  rewrite length_take in Ht. rewrite length_drop in Hd.
  destruct (decide (x = v)) as [|Hne]; [done|].
  destruct (Z.lt_trichotomy x v) as [Hlt|[|Hgt]]; [|done|].
  - rewrite (filter_empty _ (take k m)) in Hv; [cbn in Hv; lia|].
    eapply Forall_impl; [exact H1|]. cbn. lia.
  - rewrite (filter_empty _ (drop (S k) m)) in Hv; [cbn in Hv; lia|]. eapply Forall_impl; [exact H2|]. cbn. lia.
Qed.
End CountSketchCorrect.

(** ** hyperloglog *)

Module HyperLogLogCorrect.
Import HyperLogLog.

Lemma hash64_int_range v : is_u 64 (hash64_int v).
Proof.
  unfold hash64_int, SimpleIntegerHash64. apply (bij_range _ bij64_murmur_mix).
  apply lxor_range; [lia|by apply wrap_range|done].
Qed.

(** What a hash contributes, when that is defined *)
Definition rank_of (h : Z) : Z := match position h with Ok p => p | _ => 0 end.

Lemma rank_of_range h : 0 <= rank_of h < 256.
Proof.
  unfold rank_of, position. destruct (h =? 0); [done|]. unfold builtin_clz. destruct (u32 h =? 0); cbn; [lia|].
  apply (wrap_range 8). lia.
Qed.

Section hyperloglog.
Context {T : Type} (std_hash : T -> Z) (b : Z).
Hypothesis Hb : 4 <= b < 31.

Definition run (l : list T) (s : hyperloglog) : outcome hyperloglog := ofold (add std_hash) l s.
Definition index_of (t : T) : nat := Z.to_nat (Z.shiftr (hash_of std_hash t) (64 - b)).
Definition defined (t : T) : Prop := position (hash_of std_hash t) <> Undef.

Lemma index_lt t : (index_of t < Z.to_nat (2 ^ b))%nat.
Proof.
  unfold index_of, hash_of. pose proof (hash64_int_range (hash64_int (std_hash t))) as Hr. unfold is_u in Hr.
  set (h := hash64_int _) in *. rewrite Z.shiftr_div_pow2 by lia.
  assert (0 < 2 ^ (64 - b)) by (apply Z.pow_pos_nonneg; lia).
  assert (2 ^ 64 = 2 ^ (64 - b) * 2 ^ b) as E by (rewrite <- Z.pow_add_r by lia; f_equal; lia).
  assert (h / 2 ^ (64 - b) < 2 ^ b) by (apply Z.div_lt_upper_bound; lia).
  assert (0 <= h / 2 ^ (64 - b)) by (apply Z.div_pos; lia). lia.
Qed.

(** The greatest contribution to bucket [i] *)
Definition top (i : nat) (l : list T) : Z :=
  foldr (fun t m => if (index_of t =? i)%nat then Z.max (rank_of (hash_of std_hash t)) m else m) 0 l.

Lemma top_le i l m :
  top i l <= m <-> 0 <= m /\ forall t, t ∈ l -> index_of t = i -> rank_of (hash_of std_hash t) <= m.
Proof.
  induction l as [|t l IH]; cbn; [split; [|tauto]; intros; split; [done|by intros ? []%elem_of_nil]|].
  fold (top i l). destruct (Nat.eqb_spec (index_of t) i) as [E|E].
  - rewrite Z.max_lub_iff, IH. split.
    + intros (H1 & H2 & H3). split; [done|]. intros t' [->|Hin]%elem_of_cons; auto.
    + intros (H1 & H2). split_and!; [apply H2; [by left|done]|done|]. intros t' Hin. apply H2. by right.
  - rewrite IH. split; intros (H1 & H2); (split; [done|]); intros t'.
    + intros [->|Hin]%elem_of_cons; [done|auto].
    + intros Hin. apply H2. by right.
Qed.

Lemma top_same i l l' : (forall t, t ∈ l <-> t ∈ l') -> top i l = top i l'.
Proof.
  intros H. apply Z.le_antisymm; apply top_le.
  - pose proof (proj1 (top_le i l' (top i l')) ltac:(lia)) as [H1 H2]. split; [done|]. intros t Hin. apply H2. by apply H.
  - pose proof (proj1 (top_le i l (top i l)) ltac:(lia)) as [H1 H2]. split; [done|]. intros t Hin. apply H2. by apply H.
Qed.
Lemma top_app i l l' : top i (l ++ l') = Z.max (top i l) (top i l').
Proof.
  apply Z.le_antisymm.
  - apply top_le. pose proof (proj1 (top_le i l (top i l)) ltac:(lia)) as [H1 H2].
    pose proof (proj1 (top_le i l' (top i l')) ltac:(lia)) as [H3 H4].
    split; [lia|]. intros t [Hin|Hin]%elem_of_app E; [specialize (H2 t Hin E)|specialize (H4 t Hin E)]; lia.
  - pose proof (proj1 (top_le i (l ++ l') (top i (l ++ l'))) ltac:(lia)) as [H1 H2].
    apply Z.max_lub; apply top_le; (split; [done|]); intros t Hin; apply H2; apply elem_of_app; auto.
Qed.

Definition sketch (l : list T) : hyperloglog :=
  mk b (2 ^ b) (alpha_of (2 ^ b)) (map (fun i => top i l) (seq 0 (Z.to_nat (2 ^ b)))).

Lemma hll_new_sketch : new b = Ok (sketch []).
Proof.
  unfold new. rewrite bins_of_ok by done. cbn [obind]. unfold sketch. do 2 f_equal.
  pose proof (new_table 1 (Z.to_nat (2 ^ b))) as E. unfold table in E. cbn [seq map replicate] in E. by injection E.
Qed.

Lemma hll_add_sketch t l : defined t -> add std_hash t (sketch l) = Ok (sketch (l ++ [t])).
Proof.
  intros Hd. unfold add. cbn [m_b m_m m_alpha m_buckets sketch]. fold (index_of t).
  unfold defined in Hd. destruct (position (hash_of std_hash t)) as [p| |] eqn:Ep; [|by destruct (hash_of std_hash t =? 0) eqn:E; unfold position in Ep; rewrite E in Ep; [|unfold builtin_clz in Ep; destruct (_ =? _)]|done].
  cbn [obind]. rewrite map_seq_lookup by apply index_lt. cbn [of_option obind]. unfold sketch. do 2 f_equal.
  rewrite map_seq_insert. apply map_seq_ext. intros i _. rewrite top_app. cbn [top foldr].
  assert (rank_of (hash_of std_hash t) = p) as Er by (unfold rank_of; by rewrite Ep).
  pose proof (rank_of_range (hash_of std_hash t)).
  assert (0 <= top i l) by (by apply (top_le i l)).
  destruct (decide (i = index_of t)) as [->|Hne].
  - rewrite Nat.eqb_refl, Er. lia.
  - destruct (Nat.eqb_spec (index_of t) i); [congruence|lia].
Qed.

Lemma hll_run_sketch l : Forall defined l -> forall l0, run l (sketch l0) = Ok (sketch (l0 ++ l)).
Proof.
  intros H. induction H as [|t l Ht _ IH]; intros l0; [by rewrite app_nil_r|].
  cbn [run ofold]. rewrite hll_add_sketch by done. cbn [obind]. unfold run in IH. by rewrite IH, <- app_assoc.
Qed.

Lemma sketch_same l l' : (forall t, t ∈ l <-> t ∈ l') -> sketch l = sketch l'.
Proof. intros H. unfold sketch. f_equal. apply map_seq_ext. intros i _. by apply top_same. Qed.

Lemma hll_combine_sketch l l' : combine (sketch l') (sketch l) = Ok (sketch (l ++ l')).
Proof.
  unfold combine. cbn [m_b m_m m_alpha m_buckets sketch]. rewrite !length_map, Nat.eqb_refl. cbn [assert obind].
  rewrite length_seq. set (n := Z.to_nat (2 ^ b)).
  set (I m := map (fun i => if decide (i < m)%nat then top i (l ++ l') else top i l) (seq 0 n)).
  assert (map (fun i => top i l) (seq 0 n) = I 0%nat) as ->.
  { apply map_seq_ext. intros i _. by rewrite decide_False by lia. }
  rewrite (ofold_seq _ I).
  - cbn [omap_ok]. unfold sketch. do 2 f_equal. apply map_seq_ext. intros i Hi. by rewrite decide_True by lia.
  - intros i Hi. rewrite map_seq_lookup by lia. cbn [of_option obind]. unfold I at 1.
    rewrite map_seq_lookup by lia. cbn [of_option obind]. rewrite decide_False by lia. f_equal.
    unfold I. rewrite map_seq_insert. apply map_seq_ext. intros k _. rewrite <- top_app.
    repeat case_decide; subst; try done; lia.
Qed.
End hyperloglog.
End HyperLogLogCorrect.

(** ** Theorems *)

(** C24. The count-min sketch of a stream of non-negative weights of a total below
    2^64 - 1, with 2^4 to 2^30 counters in a row, never counts a value too low,
    and counts it too high only by the values that share its counter in every
    row: the estimate is at most the weight of the values that share the counter
    in any one row.  Merging the sketches of two streams made with the same seeds
    gives the sketch of both.  (At a total of 2^64 the counters wrap around:
    [count_min_wraps].) *)
Theorem count_min_correct {T} `{EqDecision T} (std_hash : T -> Z) bits seeds adds :
  4 <= bits < 31 -> counted adds -> weight (fun _ => true) adds < 2 ^ 64 - 1 ->
  exists s0 s, CountMin.new bits seeds = Ok s0 /\ CountMinCorrect.run std_hash adds s0 = Ok s /\
    (forall t, exists E, CountMin.estimate std_hash t s = Ok E /\
       weight (fun x => bool_decide (x = t)) adds <= E /\
       forall j, (j < length seeds)%nat ->
         E <= weight (fun x => CountMinCorrect.col std_hash bits seeds j x =?
                               CountMinCorrect.col std_hash bits seeds j t)%nat adds) /\
    (forall adds' s', CountMinCorrect.run std_hash adds' s0 = Ok s' -> exists s'',
       CountMin.combine s' s = Ok s'' /\ CountMinCorrect.run std_hash (adds ++ adds') s0 = Ok s'').
Proof.
  intros Hb Hc Hw. exists (CountMinCorrect.sketch std_hash bits seeds []), (CountMinCorrect.sketch std_hash bits seeds adds).
  split; [by apply CountMinCorrect.new_sketch|]. split; [by apply CountMinCorrect.run_sketch|]. split.
  - intros t. eexists. split; [by apply CountMinCorrect.estimate_sketch|].
    assert (forall j, u64 (weight (fun x => CountMinCorrect.col std_hash bits seeds j x =?
        CountMinCorrect.col std_hash bits seeds j t)%nat adds) =
      weight (fun x => CountMinCorrect.col std_hash bits seeds j x =? CountMinCorrect.col std_hash bits seeds j t)%nat adds)
      as Hsmall.
    { intros j. apply wrap_small.
      pose proof (weight_mono (fun x => CountMinCorrect.col std_hash bits seeds j x =?
        CountMinCorrect.col std_hash bits seeds j t)%nat (fun _ => true) adds Hc ltac:(done)). split; lia. }
    match goal with |- context [CountMinCorrect.least ?v] => set (l := v) end.
    destruct (CountMinCorrect.least_spec l) as (H1 & H2 & H3). split.
    + destruct H3 as [-> | H3].
      { pose proof (weight_mono (fun x => bool_decide (x = t)) (fun _ => true) adds Hc ltac:(done)). lia. }
      apply list_elem_of_fmap in H3 as (j & -> & _). rewrite Hsmall. apply weight_mono; [done|].
      intros x. rewrite bool_decide_eq_true. intros ->. apply Nat.eqb_refl.
    + intros j Hj. rewrite <- Hsmall. apply H2. apply list_elem_of_fmap. exists j. split; [done|].
      apply elem_of_seq. lia.
  - intros adds' s' Hr. rewrite CountMinCorrect.run_sketch in Hr by done. injection Hr as <-.
    eexists. split; [by apply CountMinCorrect.combine_sketch|]. by rewrite CountMinCorrect.run_sketch.
Qed.

Lemma count_min_correct_witness : exists s0 s E,
  CountMin.new 4 [1; 2] = Ok s0 /\ CountMinCorrect.run id [(5, 3); (7, 1); (5, 2)] s0 = Ok s /\
  CountMin.estimate id 5 s = Ok E /\ 5 <= E.
Proof.
  destruct (count_min_correct id 4 [1; 2] [(5, 3); (7, 1); (5, 2)]) as (s0 & s & H1 & H2 & H3 & _);
    [done|by repeat constructor|done|].
  destruct (H3 5) as (E & HE & Hle & _). exists s0, s, E. by split_and!.
Defined.

(** The counters hold 64 bits: adding a value twice with the weight 2^63 brings
    all its counters back to 0. *)
Lemma count_min_wraps : exists s0 s,
  CountMin.new 4 [1; 2] = Ok s0 /\ CountMinCorrect.run id [(5, 2 ^ 63); (5, 2 ^ 63)] s0 = Ok s /\
  CountMin.estimate id 5 s = Ok 0.
Proof. eexists _, _. repeat (split; [vm_compute; reflexivity|]). vm_compute. reflexivity. Qed.

(** The seeds of a sketch are drawn at random, and [combine] does not compare
    them: merging two sketches that were made separately loses counts. *)
Theorem count_min_combine_seeds : exists s0 s1 s s',
  CountMin.new 4 [1] = Ok s0 /\ CountMin.new 4 [2] = Ok s1 /\
  CountMin.add id 5 3 s1 = Ok s /\ CountMin.combine s s0 = Ok s' /\ CountMin.estimate id 5 s' = Ok 0.
Proof. eexists _, _, _, _. repeat (split; [vm_compute; reflexivity|]). vm_compute. reflexivity. Qed.

(** The count sketch: merging is sketching both streams, and the estimate is
    exact for a value that shares its counter with no other value in more than
    half of the rows. *)
Theorem count_sketch_correct {T} `{EqDecision T} (std_hash : T -> Z) bits seeds adds : 4 <= bits < 31 ->
  exists s0 s, CountSketch.new bits seeds = Ok s0 /\ CountSketchCorrect.run std_hash adds s0 = Ok s /\
    (forall t, is_s 64 (weight (fun x => bool_decide (x = t)) adds) ->
       (length seeds < 2 * length (filter (CountSketchCorrect.isolated std_hash bits seeds adds t) (seq 0 (length seeds))))%nat ->
       CountSketch.estimate std_hash t s = Ok (weight (fun x => bool_decide (x = t)) adds)) /\
    (forall adds' s', CountSketchCorrect.run std_hash adds' s0 = Ok s' -> exists s'',
       CountSketch.combine s' s = Ok s'' /\ CountSketchCorrect.run std_hash (adds ++ adds') s0 = Ok s'').
Proof.
  intros Hb. exists (CountSketchCorrect.sketch std_hash bits seeds []), (CountSketchCorrect.sketch std_hash bits seeds adds).
  split; [by apply CountSketchCorrect.cs_new_sketch|]. split; [by apply CountSketchCorrect.cs_run_sketch|]. split.
  - intros t Hs Hmost. unfold CountSketch.estimate. rewrite CountSketchCorrect.row_estimates_sketch by done. cbn [obind].
    rewrite CountSketchCorrect.median_majority with (v := weight (fun x => bool_decide (x = t)) adds); [done|].
    rewrite length_map, length_seq. eapply Nat.lt_le_trans; [exact Hmost|]. apply Nat.mul_le_mono_l.
    generalize (seq 0 (length seeds)). intros js. induction js as [|j js IH]; [done|]. cbn [map].
    rewrite !filter_cons. destruct (decide (CountSketchCorrect.isolated std_hash bits seeds adds t j)) as [Hi|Hi].
    + rewrite decide_True by (by apply CountSketchCorrect.isolated_row). cbn [length]. lia.
    + destruct (decide _); cbn [length]; lia.
  - intros adds' s' Hr. rewrite CountSketchCorrect.cs_run_sketch in Hr by done. injection Hr as <-.
    eexists. split; [by apply CountSketchCorrect.cs_combine_sketch|]. by rewrite CountSketchCorrect.cs_run_sketch.
Qed.

(** C25. The hyperloglog sketch of a stream depends only on the set of its values,
    not on their order or how often they occur, and merging the sketches of two
    streams gives the sketch of both; as long as no hash of a value is one
    whose lower half is zero. *)
Theorem hyperloglog_correct {T} (std_hash : T -> Z) b l : 4 <= b < 31 ->
  Forall (HyperLogLogCorrect.defined std_hash) l ->
  exists s0 s, HyperLogLog.new b = Ok s0 /\ HyperLogLogCorrect.run std_hash l s0 = Ok s /\
    (forall l', (forall t, t ∈ l <-> t ∈ l') -> HyperLogLogCorrect.run std_hash l' s0 = Ok s) /\
    (forall l' s', Forall (HyperLogLogCorrect.defined std_hash) l' ->
       HyperLogLogCorrect.run std_hash l' s0 = Ok s' -> exists s'',
       HyperLogLog.combine s' s = Ok s'' /\ HyperLogLogCorrect.run std_hash (l ++ l') s0 = Ok s'').
Proof.
  intros Hb Hl. exists (HyperLogLogCorrect.sketch std_hash b []), (HyperLogLogCorrect.sketch std_hash b l).
  split; [by apply HyperLogLogCorrect.hll_new_sketch|]. split; [by apply HyperLogLogCorrect.hll_run_sketch|]. split.
  - intros l' E. rewrite HyperLogLogCorrect.hll_run_sketch; [|done|].
    + f_equal. symmetry. by apply HyperLogLogCorrect.sketch_same.
    + rewrite Forall_forall in Hl |- *. intros t Hin. apply Hl. by apply E.
  - intros l' s' Hl' Hr. rewrite HyperLogLogCorrect.hll_run_sketch in Hr by done. injection Hr as <-.
    eexists. split; [by apply HyperLogLogCorrect.hll_combine_sketch|]. rewrite HyperLogLogCorrect.hll_run_sketch; [done|done|].
    by apply Forall_app.
Qed.

Lemma hyperloglog_correct_witness : exists s0 s,
  HyperLogLog.new 4 = Ok s0 /\ HyperLogLogCorrect.run id [5; 7; 5] s0 = Ok s /\
  HyperLogLogCorrect.run id [7; 5] s0 = Ok s.
Proof.
  destruct (hyperloglog_correct id 4 [5; 7; 5]) as (s0 & s & H1 & H2 & H3 & _);
    [done|repeat constructor; unfold HyperLogLogCorrect.defined; vm_compute; discriminate|].
  exists s0, s. split_and!; [done|done|]. apply H3. intros t. rewrite !elem_of_cons. tauto.
Defined.

(** The position is taken from the lower half of the hash, although the hash has
    64 bits: it is at most 32, and a value whose hash ends in 32 zeros makes
    [add] undefined.  There is such a value among the integers. *)
Theorem hyperloglog_lower_half h : is_u 64 h -> h <> 0 ->
  (u32 h = 0 -> HyperLogLog.position h = Undef) /\
  (u32 h <> 0 -> exists p, HyperLogLog.position h = Ok p /\ 1 <= p <= 32 /\
     forall h', is_u 64 h' -> h' <> 0 -> u32 h' = u32 h -> HyperLogLog.position h' = Ok p).
Proof.
  intros Hh Hne. unfold HyperLogLog.position, HyperLogLog.builtin_clz. rewrite (proj2 (Z.eqb_neq h 0)) by done.
  split; [by intros ->|]. intros Hu. rewrite (proj2 (Z.eqb_neq (u32 h) 0)) by done. cbn [obind].
  pose proof (wrap_range 32 h ltac:(lia)) as Hr. unfold is_u in Hr.
  pose proof (proj1 (bit_length_bound (u32 h) 32 ltac:(lia) ltac:(lia)) ltac:(lia)).
  assert (1 <= bit_length (u32 h)).
  { unfold bit_length. zcases; [done|]. pose proof (Z.log2_nonneg (u32 h)). lia. }
  assert (u8 (1 + (32 - bit_length (u32 h))) = 33 - bit_length (u32 h)) as -> by (rewrite wrap_small; [lia|split; lia]).
  eexists. split_and!; [done|lia|lia|]. intros h' _ Hne' E. rewrite (proj2 (Z.eqb_neq h' 0)) by done. rewrite E.
  rewrite (proj2 (Z.eqb_neq (u32 h) 0)) by done. cbn [obind]. rewrite wrap_small; [f_equal; lia|split; lia].
Qed.

Theorem hyperloglog_undefined_value : exists v, is_u 64 v /\ HyperLogLog.position (HyperLogLog.hash_of id v) = Undef.
Proof.
  assert (forall y, is_u 64 y -> exists x, is_u 64 x /\ hash64_int x = y) as Hsurj.
  { intros y Hy. destruct (bij_surj _ bij64_murmur_mix y Hy) as (z & Hz & <-).
    destruct (bij_surj _ (bij64_xor k0 ltac:(done)) z Hz) as (x & Hx & <-). exists x. split; [done|].
    unfold hash64_int, SimpleIntegerHash64. by rewrite wrap_small. }
  destruct (Hsurj (2 ^ 32) ltac:(done)) as (y & Hy & Ey). destruct (Hsurj y Hy) as (x & Hx & Ex).
  exists x. split; [done|]. unfold HyperLogLog.hash_of. cbn [id]. by rewrite Ex, Ey.
Qed.
