(* ===== verification/SpaceSaving.v ===== *)
(** The frequent elements of a stream: the model of
    [sketches/space_saving.hpp].

    The sketch keeps its counters in heap-allocated entries, which are reached in
    two ways: through [m_heap], a binary heap by the count, with positions from 1
    and a NULL in front, and through [m_value_to_heap_element], a hash map from
    the hash of an element to a linked list of the entries with that hash.  The
    state has the entries in a store of their own, by their address; the
    allocator is an argument.  The hash map is the finite map it implements.
    Reading a NULL or freed pointer, or past the end of a vector, is undefined.

    [std::hash<T>] is an argument. *)
From Stdlib Require Import ZArith Lia List Bool.
From stdpp Require Import prelude gmap.
From S2P Require Import Prelude.
From S2P Require Import Double.

Abbreviation addr := nat.

Record heap_entry (T : Type) := mk_entry {
  element : T;
  count : Z;
  error : Z;
  heap_position : nat;
  next : option addr
}.
Arguments mk_entry {T}.
Arguments element {T}.
Arguments count {T}.
Arguments error {T}.
Arguments heap_position {T}.
Arguments next {T}.

Record space_saving (T : Type) := mk {
  entries : gmap addr (heap_entry T);
  m_heap : list (option addr);
  m_value_to_heap_element : gmap Z addr;
  m_max_capacity : Z;
  m_size : Z;
  m_epsilon : Z
}.
Arguments mk {T}.
Arguments entries {T}.
Arguments m_heap {T}.
Arguments m_value_to_heap_element {T}.
Arguments m_max_capacity {T}.
Arguments m_size {T}.
Arguments m_epsilon {T}.

Section space_saving.
Context {T : Type} `{EqDecision T} (std_hash : T -> Z) (alloc : gset addr -> addr).

Implicit Types (s : space_saving T) (e : heap_entry T) (t : T).

(** ** Memory *)

Definition with_entries (es : gmap addr (heap_entry T)) s : space_saving T :=
  mk es (m_heap s) (m_value_to_heap_element s) (m_max_capacity s) (m_size s) (m_epsilon s).
Definition with_heap (h : list (option addr)) s : space_saving T :=
  mk (entries s) h (m_value_to_heap_element s) (m_max_capacity s) (m_size s) (m_epsilon s).
Definition with_map (m : gmap Z addr) s : space_saving T :=
  mk (entries s) (m_heap s) m (m_max_capacity s) (m_size s) (m_epsilon s).
Definition with_capacity (c : Z) s : space_saving T :=
  mk (entries s) (m_heap s) (m_value_to_heap_element s) c (m_size s) (m_epsilon s).
Definition with_size (n : Z) s : space_saving T :=
  mk (entries s) (m_heap s) (m_value_to_heap_element s) (m_max_capacity s) n (m_epsilon s).

Definition load (p : addr) s : outcome (heap_entry T) := of_option (entries s !! p).
Definition modify (p : addr) (f : heap_entry T -> heap_entry T) s : outcome (space_saving T) :=
  e <-? load p s;
  Ok (with_entries (<[p := f e]> (entries s)) s).

Definition set_position (i : nat) e : heap_entry T := mk_entry (element e) (count e) (error e) i (next e).
Definition set_next (n : option addr) e : heap_entry T :=
  mk_entry (element e) (count e) (error e) (heap_position e) n.
Definition set_counts (c err : Z) e : heap_entry T := mk_entry (element e) c err (heap_position e) (next e).
Definition set_element t e : heap_entry T := mk_entry t (count e) (error e) (heap_position e) (next e).

(** [m_heap[i]], dereferenced *)
Definition heap_at (i : nat) s : outcome addr := of_option (mjoin (m_heap s !! i)).
(** [m_heap[i] = p] *)
Definition heap_put (i : nat) (p : addr) s : outcome (space_saving T) :=
  if (i <? length (m_heap s))%nat then Ok (with_heap (<[i := Some p]> (m_heap s)) s) else Undef.

(** ** Entries by value *)

Fixpoint find_in (fuel : nat) t (val : option addr) s : outcome (option addr) :=
  match val, fuel with
  | None, _ => Ok None
  | Some p, O => Undef
  | Some p, S fuel => e <-? load p s; if decide (element e = t) then Ok (Some p) else find_in fuel t (next e) s
  end.

Definition value_to_heap_element t s : outcome (option addr) :=
  match m_value_to_heap_element s !! std_hash t with
  | None => Ok None
  | Some val =>
      e <-? load val s;
      if decide (element e = t) then Ok (Some val) else find_in (S (size (entries s))) t (Some val) s
  end.

Fixpoint erase_loop (fuel : nat) (hashval : Z) (t : addr) (prev val : option addr) s : outcome (space_saving T) :=
  match val, fuel with
  | None, _ => Ok s
  | Some v, O => Undef
  | Some v, S fuel =>
      e <-? load v s;
      if decide (v = t) then
        match prev with
        | None =>
            match next e with
            | None => Ok (with_map (delete hashval (m_value_to_heap_element s)) s)
            | Some n => Ok (with_map (<[hashval := n]> (m_value_to_heap_element s)) s)
            end
        | Some pr => modify pr (set_next (next e)) s
        end
      else erase_loop fuel hashval t (Some v) (next e) s
  end.

Definition value_to_heap_element_erase (t : addr) s : outcome (space_saving T) :=
  et <-? load t s;
  let hashval := std_hash (element et) in
  match m_value_to_heap_element s !! hashval with
  | None => Ok s
  | Some val =>
      e <-? load val s;
      if decide (val = t /\ next e = None) then Ok (with_map (delete hashval (m_value_to_heap_element s)) s)
      else erase_loop (S (size (entries s))) hashval t None (Some val) s
  end.

Definition value_to_heap_element_insert (t : addr) s : outcome (space_saving T) :=
  et <-? load t s;
  let hashval := std_hash (element et) in
  s <-? modify t (set_next (m_value_to_heap_element s !! hashval)) s;
  Ok (with_map (<[hashval := t]> (m_value_to_heap_element s)) s).

(** ** The heap *)

Fixpoint bubble_up_loop (fuel : nat) (cur_count : Z) (idx : nat) s : outcome (nat * space_saving T) :=
  match fuel with
  | O => Undef
  | S fuel =>
      if (1 <? idx)%nat then
        let compareidx := (idx / 2)%nat in
        parent <-? heap_at compareidx s;
        e <-? load parent s;
        if cur_count <? count e then
          s <-? heap_put idx parent s;
          s <-? modify parent (set_position idx) s;
          bubble_up_loop fuel cur_count compareidx s
        else Ok (idx, s)
      else Ok (idx, s)
  end.

Definition heap_bubble_up (idx : nat) s : outcome (space_saving T) :=
  cur <-? heap_at idx s;
  e <-? load cur s;
  r <-? bubble_up_loop (S idx) (count e) idx s;
  s <-? heap_put r.1 cur r.2;
  modify cur (set_position r.1) s.

(** The smaller child of position [idx] *)
Definition smaller_child (idx : nat) s : outcome nat :=
  let left_child_idx := (idx * 2)%nat in
  let right_child_idx := (idx * 2 + 1)%nat in
  if (right_child_idx <? length (m_heap s))%nat then
    l <-? heap_at left_child_idx s; el <-? load l s;
    r <-? heap_at right_child_idx s; er <-? load r s;
    Ok (if count er <? count el then right_child_idx else left_child_idx)
  else Ok left_child_idx.

Fixpoint bubble_down_loop (fuel : nat) (cur_count : Z) (idx : nat) s : outcome (nat * space_saving T) :=
  match fuel with
  | O => Undef
  | S fuel =>
      if (idx * 2 <? length (m_heap s))%nat then
        j <-? smaller_child idx s;
        child <-? heap_at j s;
        e <-? load child s;
        if count e <? cur_count then
          s <-? heap_put idx child s;
          s <-? modify child (set_position idx) s;
          bubble_down_loop fuel cur_count j s
        else Ok (idx, s)
      else Ok (idx, s)
  end.

Definition heap_bubble_down (idx : nat) s : outcome (space_saving T) :=
  cur <-? heap_at idx s;
  e <-? load cur s;
  r <-? bubble_down_loop (length (m_heap s)) (count e) idx s;
  s <-? heap_put r.1 cur r.2;
  modify cur (set_position r.1) s.

(** [std::swap] of the first and the last entry, and the deletion of the last *)
Definition delete_heap_top s : outcome (space_saving T) :=
  let n := length (m_heap s) in
  if (2 <? n)%nat then
    first <-? heap_at 1 s;
    last <-? heap_at (n - 1) s;
    s <-? heap_put (n - 1) first s;
    s <-? heap_put 1 last s;
    s <-? modify last (set_position 1) s;
    s <-? value_to_heap_element_erase first s;
    let s := with_heap (take (n - 1) (m_heap s)) s in
    let s := with_entries (delete first (entries s)) s in
    heap_bubble_down 1 s
  else if (n =? 2)%nat then
    first <-? heap_at 1 s;
    Ok (with_map ∅ (with_heap (take 1 (m_heap s)) (with_entries (delete first (entries s)) s)))
  else Ok s.

(** ** Operations *)

Definition add_impl t (cnt err : Z) s : outcome (space_saving T) :=
  found <-? value_to_heap_element t s;
  s <-? match found with
        | Some p =>
            s <-? modify p (fun e => set_counts (u64 (count e + cnt)) (u64 (error e + err)) e) s;
            e <-? load p s;
            heap_bubble_down (heap_position e) s
        | None =>
            let n := length (m_heap s) in
            if Z.of_nat n <=? m_max_capacity s then
              let p := alloc (dom (entries s)) in
              let s := with_entries (<[p := mk_entry t cnt err n None]> (entries s)) s in
              let s := with_heap (m_heap s ++ [Some p]) s in
              s <-? value_to_heap_element_insert p s;
              heap_bubble_up n s
            else
              head <-? heap_at 1 s;
              s <-? value_to_heap_element_erase head s;
              s <-? modify head (fun e => set_counts (u64 (count e + cnt)) (u64 (count e + err)) (set_element t e)) s;
              s <-? value_to_heap_element_insert head s;
              heap_bubble_down 1 s
        end;
  Ok (with_size (u64 (m_size s + cnt)) s).

Definition add t (cnt : Z) s : outcome (space_saving T) := add_impl t cnt 0 s.

(** [initialize]: the entries are deleted; the NULL in front of the heap stays or is made. *)
Definition capacity_of (epsilon : Z) : outcome Z :=
  of_option (d_to_size (d_add (d_ceil (d_div (d_of_int 1) epsilon)) (d_of_int 1))).

Definition initialize (epsilon : Z) s : outcome (space_saving T) :=
  capacity <-? capacity_of epsilon;
  Ok (mk (foldr delete (entries s) (omap id (m_heap s))) (list.resize 1 None (m_heap s)) ∅ capacity 0 epsilon).

(** The constructor *)
Definition new (epsilon : Z) : outcome (space_saving T) := initialize epsilon (mk ∅ [] ∅ 0 0 0).

(** [c >= m_epsilon * m_size], in doubles *)
Definition reaches (c : Z) s : bool :=
  let threshold := d_mul (m_epsilon s) (d_of_int (m_size s)) in
  d_gt (d_of_int c) threshold || d_eq (d_of_int c) threshold.

Definition collect (keep : heap_entry T -> bool) s : outcome (list (T * Z)) :=
  omap_ok (@concat _) (otraverse (fun c =>
    match c with
    | None => Ok []
    | Some p => e <-? load p s; Ok (if keep e then [(element e, count e)] else [])
    end) (m_heap s)).

Definition frequent_items s : outcome (list (T * Z)) := collect (fun e => reaches (count e) s) s.
Definition guaranteed_frequent_items s : outcome (list (T * Z)) :=
  collect (fun e => reaches (u64 (count e - error e)) s) s.

Definition combine (other s : space_saving T) : outcome (space_saving T) :=
  let s := with_capacity (u64 (m_max_capacity s + m_max_capacity other)) s in
  s <-? ofold (fun c s =>
          match c with
          | None => Ok s
          | Some p => e <-? load p other; add_impl (element e) (count e) (error e) s
          end) (m_heap other) s;
  let s := with_capacity (u64 (m_max_capacity s - m_max_capacity other)) s in
  if Z.of_nat (length (m_heap s)) <=? u64 (m_max_capacity s + 1) then Ok s else
  let items_to_delete := Z.to_nat (u64 (Z.of_nat (length (m_heap s)) - m_max_capacity s)) in
  ofold (fun _ s => delete_heap_top s) (seq 0 items_to_delete) s.
End space_saving.
