(* ===== verification/SpaceSavingCorrect.v ===== *)
(** The sketch of [SpaceSaving] keeps its memory in order: the heap, the hash map
    and the positions agree, no freed entry is reached and none is lost; and its
    counts bound the true ones. *)
From Stdlib Require Import ZArith Lia List Bool.
From stdpp Require Import prelude gmap.
From S2P Require Import Prelude.
From S2P Require Import Double.
From S2P Require Import Rounding.
From S2P Require Import SpaceSaving.

(** ** Binary heaps

    [k i] is the key at position [i] of a heap of positions 1 to [n - 1].  While an
    element moves, its position is a hole. *)
Definition ordered (n : nat) (k : nat -> Z) : Prop := forall i, (2 <= i < n)%nat -> k (i / 2)%nat <= k i.

Definition holed (n : nat) (k : nat -> Z) (idx : nat) : Prop :=
  (forall i, (2 <= i < n)%nat -> i <> idx -> (i / 2)%nat <> idx -> k (i / 2)%nat <= k i) /\
  (forall i, (2 <= i < n)%nat -> (i / 2)%nat = idx -> (2 <= idx)%nat -> k (idx / 2)%nat <= k i).

Definition key_set (k : nat -> Z) (idx : nat) (c : Z) (i : nat) : Z := if decide (i = idx) then c else k i.

Lemma key_set_same k idx c : key_set k idx c idx = c.
Proof. unfold key_set. by rewrite decide_True. Qed.
Lemma key_set_ne k idx c i : i <> idx -> key_set k idx c i = k i.
Proof. intros H. unfold key_set. by rewrite decide_False. Qed.

Lemma half_lt i : (2 <= i)%nat -> (1 <= i / 2 < i)%nat.
Proof.
  intros Hi. pose proof (Nat.div_mod_eq i 2). pose proof (Nat.mod_upper_bound i 2). lia.
Qed.
Lemma child_of i j : (1 <= j)%nat -> (i / 2 = j)%nat <-> i = (j * 2)%nat \/ i = (j * 2 + 1)%nat.
Proof.
  intros Hj. pose proof (Nat.div_mod_eq i 2). pose proof (Nat.mod_upper_bound i 2). split; [lia|].
  intros [->| ->]; [by rewrite Nat.div_mul|]. by rewrite Nat.add_comm, Nat.div_add.
Qed.

Lemma ordered_holed n k idx c : ordered n k -> holed n (key_set k idx c) idx.
Proof.
  intros H. split.
  - intros i Hi H1 H2. rewrite !key_set_ne by done. by apply H.
  - intros i Hi <- H2. pose proof (half_lt i ltac:(lia)). pose proof (half_lt _ H2). rewrite !key_set_ne by lia.
    etransitivity; [apply H; lia|apply H; lia].
Qed.

Lemma heap_up_step n k idx c : holed n k idx -> (forall i, (2 <= i < n)%nat -> (i / 2)%nat = idx -> c <= k i) ->
  (2 <= idx < n)%nat -> c < k (idx / 2)%nat ->
  holed n (key_set k idx (k (idx / 2)%nat)) (idx / 2) /\
  (forall i, (2 <= i < n)%nat -> (i / 2)%nat = (idx / 2)%nat -> c <= key_set k idx (k (idx / 2)%nat) i).
Proof.
  intros [H1 H2] Hc Hidx Hlt. pose proof (half_lt idx ltac:(lia)) as Hh. split; [split|].
  - intros i Hi Hne Hne2. destruct (decide (i = idx)) as [->|Hni]; [done|].
    rewrite (key_set_ne _ _ _ i) by done. destruct (decide ((i / 2)%nat = idx)) as [E|Hni2].
    + rewrite E, key_set_same. apply H2; lia.
    + rewrite key_set_ne by done. by apply H1.
  - intros i Hi E Hge. pose proof (half_lt (idx / 2) Hge). rewrite (key_set_ne _ _ _ (idx / 2 / 2)) by lia.
    assert (k (idx / 2 / 2)%nat <= k (idx / 2)%nat) as Hg by (apply H1; lia).
    destruct (decide (i = idx)) as [->|Hni]; [by rewrite key_set_same|]. rewrite key_set_ne by done.
    etransitivity; [exact Hg|]. rewrite <- E. apply H1; lia.
  - intros i Hi E. destruct (decide (i = idx)) as [->|Hni]; [rewrite key_set_same; lia|].
    rewrite key_set_ne by done. assert (k (i / 2)%nat <= k i) by (apply H1; lia). rewrite E in *. lia.
Qed.

Lemma heap_up_done n k idx c : holed n k idx -> (forall i, (2 <= i < n)%nat -> (i / 2)%nat = idx -> c <= k i) ->
  (1 <= idx)%nat -> ((2 <= idx)%nat -> k (idx / 2)%nat <= c) -> ordered n (key_set k idx c).
Proof.
  intros [H1 H2] Hc Hidx Hp i Hi. pose proof (half_lt i ltac:(lia)).
  destruct (decide (i = idx)) as [->|Hni].
  - rewrite key_set_same, key_set_ne by lia. apply Hp. lia.
  - rewrite (key_set_ne _ _ _ i) by done. destruct (decide ((i / 2)%nat = idx)) as [E|Hni2].
    + rewrite E, key_set_same. by apply Hc.
    + rewrite key_set_ne by done. by apply H1.
Qed.

(** [j] is a child of [idx], with the smaller key. *)
Lemma heap_down_step n k idx j c : holed n k idx -> ((2 <= idx)%nat -> k (idx / 2)%nat <= c) ->
  (1 <= idx)%nat -> (2 <= j < n)%nat -> (j / 2)%nat = idx ->
  (forall i, (2 <= i < n)%nat -> (i / 2)%nat = idx -> k j <= k i) -> k j < c ->
  holed n (key_set k idx (k j)) j /\ ((2 <= j)%nat -> key_set k idx (k j) (j / 2)%nat <= c).
Proof.
  intros [H1 H2] Hc Hidx Hj Ej Hmin Hlt. pose proof (half_lt j ltac:(lia)). split; [split|].
  - intros i Hi Hne Hne2. pose proof (half_lt i ltac:(lia)). destruct (decide (i = idx)) as [->|Hni].
    + rewrite key_set_same, key_set_ne by lia. apply H2; [done|done|lia].
    + rewrite (key_set_ne _ _ _ i) by done. destruct (decide ((i / 2)%nat = idx)) as [E|Hni2].
      * rewrite E, key_set_same. by apply Hmin.
      * rewrite key_set_ne by done. by apply H1.
  - intros i Hi E Hge. pose proof (half_lt i ltac:(lia)). rewrite Ej, key_set_same.
    rewrite key_set_ne by lia. rewrite <- E. apply H1; lia.
  - intros _. rewrite Ej, key_set_same. lia.
Qed.

(** The first key of a heap is the least. *)
Lemma heap_first n k : ordered n k -> forall i, (1 <= i < n)%nat -> k 1%nat <= k i.
Proof.
  intros H i. induction i as [i IH] using lt_wf_ind. intros Hi.
  destruct (decide (i = 1%nat)) as [->|Hne]; [done|]. pose proof (half_lt i ltac:(lia)).
  etransitivity; [apply (IH (i / 2)%nat); lia|apply H; lia].
Qed.

(** ** The heap of entries *)

Section heap.
Context {T : Type} `{EqDecision T} (std_hash : T -> Z) (alloc : gset addr -> addr).
Implicit Types (s : space_saving T) (e : heap_entry T) (es : gmap addr (heap_entry T)) (h : list (option addr)).

(** The entries without their positions *)
Definition data e : T * Z * Z * option addr := (element e, count e, error e, next e).
Definition same_data es es' : Prop := forall p, data <$> es !! p = data <$> es' !! p.

Definition key es h (i : nat) : Z :=
  match mjoin (h !! i) with Some p => match es !! p with Some e => count e | None => 0 end | None => 0 end.

Lemma same_data_refl es : same_data es es.
Proof. done. Qed.
Lemma same_data_trans es1 es2 es3 : same_data es1 es2 -> same_data es2 es3 -> same_data es1 es3.
Proof. intros H1 H2 p. by rewrite H1. Qed.
Lemma same_data_sym es1 es2 : same_data es1 es2 -> same_data es2 es1.
Proof. intros H p. by rewrite H. Qed.
Lemma same_data_lookup es es' p e : same_data es es' -> es !! p = Some e ->
  exists e', es' !! p = Some e' /\ data e' = data e.
Proof.
  intros H E. specialize (H p). rewrite E in H. cbn in H. destruct (es' !! p) as [e'|]; [|done].
  injection H as H. exists e'. split; [done|]. unfold data. congruence.
Qed.
Lemma same_data_position es p e i : es !! p = Some e -> same_data es (<[p := set_position i e]> es).
Proof.
  intros E q. destruct (decide (q = p)) as [->|]; [by rewrite lookup_insert_eq, E|by rewrite lookup_insert_ne].
Qed.

(** Every position but the hole at [idx] has its entry, and every entry but
    [cur] its position. *)
Record placed (es : gmap addr (heap_entry T)) (h : list (option addr)) (idx : nat) (cur : addr) : Prop := {
  pl_front : h !! 0%nat = Some None;
  pl_hole : (1 <= idx < length h)%nat;
  pl_cur : is_Some (es !! cur);
  pl_at i : (1 <= i < length h)%nat -> i <> idx ->
    exists p e, h !! i = Some (Some p) /\ p <> cur /\ es !! p = Some e /\ heap_position e = i;
  pl_back p e : es !! p = Some e -> p <> cur -> heap_position e <> idx /\ h !! heap_position e = Some (Some p)
}.

(** Nothing is out of its place. *)
Record heap_ok (es : gmap addr (heap_entry T)) (h : list (option addr)) : Prop := {
  hk_front : h !! 0%nat = Some None;
  hk_at i : (1 <= i < length h)%nat -> exists p e, h !! i = Some (Some p) /\ es !! p = Some e /\ heap_position e = i;
  hk_back p e : es !! p = Some e -> h !! heap_position e = Some (Some p)
}.

Lemma heap_ok_placed es h idx cur : heap_ok es h -> h !! idx = Some (Some cur) -> placed es h idx cur.
Proof.
  intros [H1 H2 H3] Hc. assert (1 <= idx < length h)%nat as Hidx.
  { split; [|by eapply lookup_lt_Some]. destruct idx; [congruence|lia]. }
  destruct (H2 idx Hidx) as (p & e & E1 & E2 & E3). rewrite Hc in E1. injection E1 as <-.
  split; [done|done|by exists e| |].
  - intros i Hi Hne. destruct (H2 i Hi) as (q & eq0 & F1 & F2 & F3). exists q, eq0. split_and!; try done.
    intros ->. rewrite E2 in F2. injection F2 as <-. congruence.
  - intros q eq0 Eq Hne. pose proof (H3 q eq0 Eq) as Hq. split; [|done]. intros E. rewrite E, Hc in Hq. congruence.
Qed.

(** Moving the entry at position [j] into the hole *)
Lemma placed_move es h idx cur j q eq : placed es h idx cur -> j <> idx -> h !! j = Some (Some q) -> es !! q = Some eq ->
  (1 <= j)%nat -> placed (<[q := set_position idx eq]> es) (<[idx := Some q]> h) j cur.
Proof.
  intros [H1 H2 H3 H4 H5] Hne Hj Hq Hj1. pose proof (lookup_lt_Some _ _ _ Hj) as Hjl.
  destruct (H4 j ltac:(lia) Hne) as (q' & eq' & F1 & F2 & F3 & F4). rewrite Hj in F1. injection F1 as <-.
  rewrite Hq in F3. injection F3 as <-. split.
  - rewrite list_lookup_insert_ne; [done|]. lia.
  - rewrite length_insert. lia.
  - rewrite lookup_insert_ne by done. done.
  - rewrite length_insert. intros i Hi Hnj. destruct (decide (i = idx)) as [->|Hni].
    + exists q, (set_position idx eq). rewrite list_lookup_insert_eq by lia. rewrite lookup_insert_eq. done.
    + destruct (H4 i Hi Hni) as (p & e & G1 & G2 & G3 & G4). exists p, e. rewrite list_lookup_insert_ne by done.
      split_and!; try done. rewrite lookup_insert_ne; [done|]. intros <-. rewrite Hq in G3. injection G3 as <-. congruence.
  - intros p e Ep Hpc. destruct (decide (p = q)) as [->|Hpq].
    + rewrite lookup_insert_eq in Ep. injection Ep as <-. cbn. split; [done|]. apply list_lookup_insert_eq. lia.
    + rewrite lookup_insert_ne in Ep by done. destruct (H5 p e Ep Hpc) as [G1 G2].
      split; [intros E; rewrite E in G2; congruence|]. by rewrite list_lookup_insert_ne.
Qed.

(** Filling the hole *)
Lemma placed_fill es h idx cur ec : placed es h idx cur -> es !! cur = Some ec ->
  heap_ok (<[cur := set_position idx ec]> es) (<[idx := Some cur]> h).
Proof.
  intros [H1 H2 H3 H4 H5] Hc. split.
  - rewrite list_lookup_insert_ne; [done|]. lia.
  - rewrite length_insert. intros i Hi. destruct (decide (i = idx)) as [->|Hni].
    + exists cur, (set_position idx ec). rewrite list_lookup_insert_eq by lia. by rewrite lookup_insert_eq.
    + destruct (H4 i Hi Hni) as (p & e & G1 & G2 & G3 & G4). exists p, e.
      rewrite list_lookup_insert_ne by done. by rewrite lookup_insert_ne.
  - intros p e Ep. destruct (decide (p = cur)) as [->|Hne].
    + rewrite lookup_insert_eq in Ep. injection Ep as <-. cbn. apply list_lookup_insert_eq. lia.
    + rewrite lookup_insert_ne in Ep by done. destruct (H5 p e Ep Hne) as [G1 G2]. by rewrite list_lookup_insert_ne.
Qed.

Lemma key_move es h idx q eq i : es !! q = Some eq -> (idx < length h)%nat ->
  key (<[q := set_position idx eq]> es) (<[idx := Some q]> h) i = key_set (key es h) idx (count eq) i.
Proof.
  intros Hq Hidx. unfold key_set, key. destruct (decide (i = idx)) as [->|Hne].
  - rewrite list_lookup_insert_eq by done. cbn. by rewrite lookup_insert_eq.
  - rewrite list_lookup_insert_ne by done. destruct (mjoin (h !! i)) as [p|]; [|done].
    destruct (decide (p = q)) as [->|Hpq]; [by rewrite lookup_insert_eq, Hq|by rewrite lookup_insert_ne].
Qed.

Lemma holed_ext n k k' idx : (forall i, k i = k' i) -> holed n k idx -> holed n k' idx.
Proof. intros E [H1 H2]. split; intros; rewrite <- !E; auto. Qed.
Lemma ordered_ext n k k' : (forall i, k i = k' i) -> ordered n k -> ordered n k'.
Proof. intros E H i Hi. rewrite <- !E. by apply H. Qed.

(** Two sketches that differ in the order of the heap alone *)
Record frame (s s' : space_saving T) : Prop := {
  fr_data : same_data (entries s) (entries s');
  fr_length : length (m_heap s') = length (m_heap s);
  fr_map : m_value_to_heap_element s' = m_value_to_heap_element s;
  fr_capacity : m_max_capacity s' = m_max_capacity s;
  fr_size : m_size s' = m_size s;
  fr_epsilon : m_epsilon s' = m_epsilon s
}.
Lemma frame_refl s : frame s s.
Proof. by split. Qed.
Lemma frame_trans s1 s2 s3 : frame s1 s2 -> frame s2 s3 -> frame s1 s3.
Proof. intros [? ? ? ? ? ?] [? ? ? ? ? ?]. split; [by eapply same_data_trans|congruence..]. Qed.

Lemma heap_at_spec s i p : m_heap s !! i = Some (Some p) -> heap_at i s = Ok p.
Proof. intros E. unfold heap_at. by rewrite E. Qed.
Lemma load_spec s p e : entries s !! p = Some e -> load p s = Ok e.
Proof. intros E. unfold load. by rewrite E. Qed.
Lemma heap_put_spec s i p : (i < length (m_heap s))%nat -> heap_put i p s = Ok (with_heap (<[i := Some p]> (m_heap s)) s).
Proof. intros Hi. unfold heap_put. by rewrite (proj2 (Nat.ltb_lt _ _)). Qed.
Lemma modify_spec s p f e : entries s !! p = Some e -> modify p f s = Ok (with_entries (<[p := f e]> (entries s)) s).
Proof. intros E. unfold modify, load. by rewrite E. Qed.

Lemma key_at s i p e : m_heap s !! i = Some (Some p) -> entries s !! p = Some e ->
  key (entries s) (m_heap s) i = count e.
Proof. intros H1 H2. unfold key. rewrite H1. cbn. by rewrite H2. Qed.

(** The move of the entry at position [j] into the hole, in the code *)
Lemma move_spec s idx cur j q e : placed (entries s) (m_heap s) idx cur -> j <> idx -> (1 <= j)%nat ->
  m_heap s !! j = Some (Some q) -> entries s !! q = Some e ->
  exists s', obind (heap_put idx q s) (modify q (set_position idx)) = Ok s' /\
    placed (entries s') (m_heap s') j cur /\ frame s s' /\
    (forall i, key (entries s') (m_heap s') i = key_set (key (entries s) (m_heap s)) idx (count e) i).
Proof.
  intros Hp Hne Hj1 Hj Hq. pose proof (pl_hole _ _ _ _ Hp). rewrite heap_put_spec by lia. cbn [obind].
  erewrite modify_spec by exact Hq. eexists. split; [reflexivity|]. cbn [entries m_heap with_entries with_heap].
  split_and!.
  - by eapply placed_move.
  - split; try done; cbn; [by apply same_data_position|by rewrite length_insert].
  - intros i. apply key_move; [done|lia].
Qed.

Lemma bubble_up_loop_spec c cur fuel : forall idx s, (idx < fuel)%nat ->
  placed (entries s) (m_heap s) idx cur ->
  holed (length (m_heap s)) (key (entries s) (m_heap s)) idx ->
  (forall i, (2 <= i < length (m_heap s))%nat -> (i / 2)%nat = idx -> c <= key (entries s) (m_heap s) i) ->
  exists idx' s', bubble_up_loop fuel c idx s = Ok (idx', s') /\ placed (entries s') (m_heap s') idx' cur /\
    frame s s' /\ ordered (length (m_heap s')) (key_set (key (entries s') (m_heap s')) idx' c).
Proof.
  induction fuel as [|fuel IH]; intros idx s Hfuel Hp Hh Hc; [lia|]. cbn [bubble_up_loop].
  pose proof (pl_hole _ _ _ _ Hp) as Hidx.
  destruct (Nat.ltb_spec 1 idx) as [Hgt|Hle].
  - pose proof (half_lt idx ltac:(lia)) as Hh2.
    destruct (pl_at _ _ _ _ Hp (idx / 2)%nat ltac:(lia) ltac:(lia)) as (q & e & E1 & E2 & E3 & E4).
    rewrite (heap_at_spec s _ q E1). cbn [obind]. rewrite (load_spec s q e E3). cbn [obind].
    pose proof (key_at s _ q e E1 E3) as Ek. destruct (Z.ltb_spec c (count e)) as [Hlt|Hge].
    + destruct (move_spec s idx cur (idx / 2) q e Hp ltac:(lia) ltac:(lia) E1 E3) as (s1 & Em & Hp1 & Hf1 & Hk1).
      destruct (heap_put idx q s) as [s0| |] eqn:Eh; cbn [obind] in Em |- *; try done. rewrite Em. cbn [obind].
      destruct (heap_up_step _ _ idx c Hh Hc ltac:(lia)) as [Hh1 Hc1]; [by rewrite Ek|]. rewrite Ek in Hh1, Hc1.
      destruct (IH (idx / 2)%nat s1) as (idx' & s' & El & Hp' & Hf' & Ho'); [lia|done| | |].
      * rewrite (fr_length _ _ Hf1). by eapply holed_ext; [|exact Hh1].
      * intros i. rewrite (fr_length _ _ Hf1), Hk1. apply Hc1.
      * exists idx', s'. split_and!; [done|done|by eapply frame_trans|done].
    + exists idx, s. split_and!; [done|done|apply frame_refl|]. apply heap_up_done; [done|done|lia|]. intros _. by rewrite Ek.
  - exists idx, s. split_and!; [done|done|apply frame_refl|]. apply heap_up_done; [done|done|lia|lia].
Qed.

Lemma smaller_child_spec s idx cur : placed (entries s) (m_heap s) idx cur -> (idx * 2 < length (m_heap s))%nat ->
  exists j, smaller_child idx s = Ok j /\ (2 <= j < length (m_heap s))%nat /\ (j / 2)%nat = idx /\
    forall i, (2 <= i < length (m_heap s))%nat -> (i / 2)%nat = idx ->
      key (entries s) (m_heap s) j <= key (entries s) (m_heap s) i.
Proof.
  intros Hp Hlt. pose proof (pl_hole _ _ _ _ Hp) as Hidx. unfold smaller_child.
  destruct (Nat.ltb_spec (idx * 2 + 1) (length (m_heap s))) as [Hr|Hr].
  - destruct (pl_at _ _ _ _ Hp (idx * 2)%nat ltac:(lia) ltac:(lia)) as (q & e & E1 & _ & E3 & _).
    destruct (pl_at _ _ _ _ Hp (idx * 2 + 1)%nat ltac:(lia) ltac:(lia)) as (q' & e' & F1 & _ & F3 & _).
    rewrite (heap_at_spec s _ q E1). cbn [obind]. rewrite (load_spec s q e E3). cbn [obind].
    rewrite (heap_at_spec s _ q' F1). cbn [obind]. rewrite (load_spec s q' e' F3). cbn [obind].
    pose proof (key_at s _ q e E1 E3) as Ek. pose proof (key_at s _ q' e' F1 F3) as Fk.
    eexists. split; [reflexivity|]. destruct (Z.ltb_spec (count e') (count e)).
    + split; [lia|]. split; [apply child_of; lia|]. intros i _ [->| ->]%child_of; lia.
    + split; [lia|]. split; [apply child_of; lia|]. intros i _ [->| ->]%child_of; lia.
  - eexists. split; [reflexivity|]. split; [lia|]. split; [apply child_of; lia|].
    intros i Hi [->| ->]%child_of; lia.
Qed.

Lemma bubble_down_loop_spec c cur fuel : forall idx s, (length (m_heap s) < fuel + idx)%nat ->
  placed (entries s) (m_heap s) idx cur ->
  holed (length (m_heap s)) (key (entries s) (m_heap s)) idx ->
  ((2 <= idx)%nat -> key (entries s) (m_heap s) (idx / 2)%nat <= c) ->
  exists idx' s', bubble_down_loop fuel c idx s = Ok (idx', s') /\ placed (entries s') (m_heap s') idx' cur /\
    frame s s' /\ ordered (length (m_heap s')) (key_set (key (entries s') (m_heap s')) idx' c).
Proof.
  induction fuel as [|fuel IH]; intros idx s Hfuel Hp Hh Hc;
    pose proof (pl_hole _ _ _ _ Hp) as Hidx; [lia|]. cbn [bubble_down_loop].
  destruct (Nat.ltb_spec (idx * 2) (length (m_heap s))) as [Hlt|Hge].
  - destruct (smaller_child_spec s idx cur Hp Hlt) as (j & Ej & Hj & Hj2 & Hmin). rewrite Ej. cbn [obind].
    pose proof (half_lt j ltac:(lia)).
    destruct (pl_at _ _ _ _ Hp j ltac:(lia) ltac:(lia)) as (q & e & E1 & _ & E3 & _).
    rewrite (heap_at_spec s _ q E1). cbn [obind]. rewrite (load_spec s q e E3). cbn [obind].
    pose proof (key_at s _ q e E1 E3) as Ek. destruct (Z.ltb_spec (count e) c) as [Hltc|Hgec].
    + destruct (move_spec s idx cur j q e Hp ltac:(lia) ltac:(lia) E1 E3) as (s1 & Em & Hp1 & Hf1 & Hk1).
      destruct (heap_put idx q s) as [s0| |] eqn:Eh; cbn [obind] in Em |- *; try done. rewrite Em. cbn [obind].
      destruct (heap_down_step _ _ idx j c Hh Hc ltac:(lia) Hj Hj2 Hmin) as [Hh1 Hc1]; [by rewrite Ek|].
      rewrite Ek in Hh1, Hc1. destruct (IH j s1) as (idx' & s' & El & Hp' & Hf' & Ho'); [|done| | |].
      * rewrite (fr_length _ _ Hf1). lia.
      * rewrite (fr_length _ _ Hf1). by eapply holed_ext; [|exact Hh1].
      * rewrite Hk1. exact Hc1.
      * exists idx', s'. split_and!; [done|done|by eapply frame_trans|done].
    + exists idx, s. split_and!; [done|done|apply frame_refl|]. apply heap_up_done; [done| |lia|done].
      intros i Hi Ei. specialize (Hmin i Hi Ei). lia.
  - exists idx, s. split_and!; [done|done|apply frame_refl|]. apply heap_up_done; [done| |lia|done].
    intros i Hi [->| ->]%child_of; lia.
Qed.

(** The end of both *)
Lemma hole_filled s0 idx s cur ec : placed (entries s) (m_heap s) idx cur -> entries s !! cur = Some ec -> frame s0 s ->
  ordered (length (m_heap s)) (key_set (key (entries s) (m_heap s)) idx (count ec)) ->
  exists s', obind (heap_put idx cur s) (modify cur (set_position idx)) = Ok s' /\
    heap_ok (entries s') (m_heap s') /\ frame s0 s' /\ ordered (length (m_heap s')) (key (entries s') (m_heap s')).
Proof.
  intros Hp Hc Hf Ho. pose proof (pl_hole _ _ _ _ Hp). rewrite heap_put_spec by lia. cbn [obind].
  erewrite modify_spec by exact Hc. eexists. split; [reflexivity|]. cbn [entries m_heap with_entries with_heap].
  split_and!.
  - by apply placed_fill.
  - eapply frame_trans; [exact Hf|]. split; try done; cbn; [by apply same_data_position|by rewrite length_insert].
  - rewrite length_insert. eapply ordered_ext; [|exact Ho]. intros i. symmetry. apply key_move; [done|lia].
Qed.

Lemma heap_bubble_up_spec s idx cur ec : heap_ok (entries s) (m_heap s) -> m_heap s !! idx = Some (Some cur) ->
  entries s !! cur = Some ec -> holed (length (m_heap s)) (key (entries s) (m_heap s)) idx ->
  (forall i, (2 <= i < length (m_heap s))%nat -> (i / 2)%nat = idx -> count ec <= key (entries s) (m_heap s) i) ->
  exists s', heap_bubble_up idx s = Ok s' /\ heap_ok (entries s') (m_heap s') /\ frame s s' /\
    ordered (length (m_heap s')) (key (entries s') (m_heap s')).
Proof.
  intros Hok Hidx Hec Hh Hc. unfold heap_bubble_up. rewrite (heap_at_spec s _ cur Hidx). cbn [obind].
  rewrite (load_spec s cur ec Hec). cbn [obind].
  destruct (bubble_up_loop_spec (count ec) cur (S idx) idx s) as (idx' & s' & -> & Hp & Hf & Ho);
    [lia|by apply heap_ok_placed|done|done|]. cbn [obind fst snd].
  destruct (same_data_lookup _ _ cur ec (fr_data _ _ Hf) Hec) as (ec' & Hec' & Ed).
  assert (count ec' = count ec) as Ec by (unfold data in Ed; congruence). rewrite <- Ec in Ho.
  by apply (hole_filled s idx' s' cur ec').
Qed.

Lemma heap_bubble_down_spec s idx cur ec : heap_ok (entries s) (m_heap s) -> m_heap s !! idx = Some (Some cur) ->
  entries s !! cur = Some ec -> holed (length (m_heap s)) (key (entries s) (m_heap s)) idx ->
  ((2 <= idx)%nat -> key (entries s) (m_heap s) (idx / 2)%nat <= count ec) ->
  exists s', heap_bubble_down idx s = Ok s' /\ heap_ok (entries s') (m_heap s') /\ frame s s' /\
    ordered (length (m_heap s')) (key (entries s') (m_heap s')).
Proof.
  intros Hok Hidx Hec Hh Hc. unfold heap_bubble_down. rewrite (heap_at_spec s _ cur Hidx). cbn [obind].
  rewrite (load_spec s cur ec Hec). cbn [obind].
  pose proof (heap_ok_placed _ _ _ _ Hok Hidx) as Hpl. pose proof (pl_hole _ _ _ _ Hpl).
  destruct (bubble_down_loop_spec (count ec) cur (length (m_heap s)) idx s) as (idx' & s' & -> & Hp & Hf & Ho);
    [lia|done|done|done|]. cbn [obind fst snd].
  destruct (same_data_lookup _ _ cur ec (fr_data _ _ Hf) Hec) as (ec' & Hec' & Ed).
  assert (count ec' = count ec) as Ec by (unfold data in Ed; congruence). rewrite <- Ec in Ho.
  by apply (hole_filled s idx' s' cur ec').
Qed.

(** ** The lists of entries with the same hash *)

(** The nodes from [v] to before [w] *)
Fixpoint seg es (v : option addr) (l : list addr) (w : option addr) : Prop :=
  match l with
  | [] => v = w
  | p :: l => v = Some p /\ exists e, es !! p = Some e /\ seg es (next e) l w
  end.

Lemma seg_app es l1 : forall v l2 w, seg es v (l1 ++ l2) w <-> exists u, seg es v l1 u /\ seg es u l2 w.
Proof.
  induction l1 as [|p l1 IH]; intros v l2 w; cbn [app seg].
  - split; [by exists v|]. by intros (u & -> & H).
  - split.
    + intros (-> & e & E & H). apply IH in H as (u & H1 & H2). exists u. split; [|done]. split; [done|]. by exists e.
    + intros (u & (-> & e & E & H1) & H2). split; [done|]. exists e. split; [done|]. apply IH. by exists u.
Qed.

Lemma seg_ext es es' l : forall v w, (forall p, p ∈ l -> next <$> es !! p = next <$> es' !! p) ->
  seg es v l w -> seg es' v l w.
Proof.
  induction l as [|p l IH]; intros v w H; [done|]. intros (-> & e & E & Hs). split; [done|].
  pose proof (H p ltac:(left)) as Hp. rewrite E in Hp. cbn in Hp. destruct (es' !! p) as [e'|] eqn:E'; [|done].
  injection Hp as Hp. exists e'. split; [done|]. rewrite <- Hp. apply IH; [|done]. intros q Hq. apply H. by right.
Qed.

Lemma seg_in es l : forall v w p, seg es v l w -> p ∈ l -> is_Some (es !! p).
Proof.
  induction l as [|q l IH]; intros v w p; [by intros _ []%elem_of_nil|].
  intros (_ & e & E & H) [->|Hp]%elem_of_cons; [by exists e|by eapply IH].
Qed.

Lemma seg_length es l v w : seg es v l w -> NoDup l -> (length l <= size es)%nat.
Proof.
  intros Hs Hn. rewrite <- (size_list_to_set (C := gset addr) l Hn), <- (size_dom es).
  apply subseteq_size. intros p Hp. apply elem_of_list_to_set in Hp. apply elem_of_dom. by eapply seg_in.
Qed.

(** Taking a node out of a list *)
Lemma seg_remove es v l1 pr t l2 ep et : seg es v (l1 ++ pr :: t :: l2) None -> NoDup (l1 ++ pr :: t :: l2) ->
  es !! pr = Some ep -> es !! t = Some et -> seg (<[pr := set_next (next et) ep]> es) v (l1 ++ pr :: l2) None.
Proof.
  intros Hs Hn Ep Et. apply seg_app in Hs as (u & H1 & (-> & e & E & (E1 & e' & E' & H2))).
  rewrite Ep in E. injection E as <-. rewrite Et in E'. injection E' as <-.
  apply NoDup_app in Hn as (_ & Hd & Hn). apply NoDup_cons in Hn as [Hpr Hn].
  apply seg_app. exists (Some pr). split.
  - eapply seg_ext; [|exact H1]. intros p Hp. rewrite lookup_insert_ne; [done|]. intros <-. apply (Hd pr Hp). left.
  - split; [done|]. exists (set_next (next et) ep). rewrite lookup_insert_eq. split; [done|]. cbn.
    eapply seg_ext; [|exact H2]. intros p Hp. rewrite lookup_insert_ne; [done|]. intros <-. apply Hpr. by right.
Qed.

(** The lists of the hash map hold the entries of [D], each in the list of its hash. *)
Definition linked es (m : gmap Z addr) (D : addr -> Prop) : Prop := forall hv, exists l,
  seg es (m !! hv) l None /\ NoDup l /\
  forall p, p ∈ l <-> D p /\ exists e, es !! p = Some e /\ std_hash (element e) = hv.

(** The entries but for their links, and but for their links and positions *)
Definition body e : T * Z * Z * nat := (element e, count e, error e, heap_position e).
Definition same_body es es' : Prop := forall p, body <$> es !! p = body <$> es' !! p.

Lemma same_body_lookup es es' p e : same_body es es' -> es !! p = Some e ->
  exists e', es' !! p = Some e' /\ body e' = body e.
Proof.
  intros H E. specialize (H p). rewrite E in H. cbn in H. destruct (es' !! p) as [e'|]; [|done].
  injection H as H. exists e'. split; [done|]. unfold body. congruence.
Qed.
Lemma same_body_refl es : same_body es es.
Proof. done. Qed.
Lemma same_body_sym es1 es2 : same_body es1 es2 -> same_body es2 es1.
Proof. intros H p. by rewrite H. Qed.
Lemma same_body_trans es1 es2 es3 : same_body es1 es2 -> same_body es2 es3 -> same_body es1 es3.
Proof. intros H1 H2 p. by rewrite H1. Qed.
Lemma same_body_next es p e n : es !! p = Some e -> same_body es (<[p := set_next n e]> es).
Proof.
  intros E q. destruct (decide (q = p)) as [->|]; [by rewrite lookup_insert_eq, E|by rewrite lookup_insert_ne].
Qed.

Lemma linked_same_data es es' m D : same_data es es' -> linked es m D -> linked es' m D.
Proof.
  intros Hd H hv. destruct (H hv) as (l & Hs & Hn & Hl). exists l. split_and!; [|done|].
  - eapply seg_ext; [|exact Hs]. intros p _. specialize (Hd p).
    destruct (es !! p), (es' !! p); cbn in *; try done. injection Hd as Hd. unfold data in Hd. congruence.
  - intros p. rewrite Hl. split; intros (HD & e & E & <-); (split; [done|]).
    + destruct (same_data_lookup _ _ _ _ Hd E) as (e' & E' & Ed). exists e'. split; [done|]. unfold data in Ed. congruence.
    + destruct (same_data_lookup _ _ _ _ (same_data_sym _ _ Hd) E) as (e' & E' & Ed). exists e'.
      split; [done|]. unfold data in Ed. congruence.
Qed.

(** Entries that are not linked may change. *)
Lemma linked_others es es' m D : (forall p, D p -> es' !! p = es !! p) -> linked es m D -> linked es' m D.
Proof.
  intros He H hv. destruct (H hv) as (l & Hs & Hn & Hl). exists l. split_and!; [|done|].
  - eapply seg_ext; [|exact Hs]. intros p Hp. apply Hl in Hp as [HD _]. by rewrite He.
  - intros p. rewrite Hl. split; intros (HD & e & E & Eh); (split; [done|]); exists e; (split; [|done]);
      [by rewrite He|by rewrite <- He].
Qed.
Lemma linked_weaken es m (D D' : addr -> Prop) : (forall p, is_Some (es !! p) -> D p <-> D' p) ->
  linked es m D -> linked es m D'.
Proof.
  intros HD H hv. destruct (H hv) as (l & Hs & Hn & Hl). exists l. split_and!; [done|done|].
  intros p. rewrite Hl. split; intros (Hp & e & E & Eh); (split; [|by exists e]); apply (HD p); by try exists e.
Qed.

Lemma find_in_spec t s l : forall fuel v, (length l <= fuel)%nat -> seg (entries s) v l None ->
  exists r, find_in fuel t v s = Ok r /\
    match r with
    | Some p => p ∈ l /\ exists e, entries s !! p = Some e /\ element e = t
    | None => forall p e, p ∈ l -> entries s !! p = Some e -> element e <> t
    end.
Proof.
  induction l as [|p l IH]; intros fuel v Hf Hs.
  - cbn in Hs. subst v. exists None. split; [by destruct fuel|]. by intros p e []%elem_of_nil.
  - destruct Hs as (-> & e & E & Hs). destruct fuel as [|fuel]; [cbn in Hf; lia|]. cbn [find_in].
    rewrite (load_spec s p e E). cbn [obind]. destruct (decide (element e = t)) as [Et|Hne].
    + exists (Some p). split; [done|]. split; [left|by exists e].
    + destruct (IH fuel (next e)) as (r & -> & Hr); [cbn in Hf; lia|done|]. exists r. split; [done|]. destruct r as [q|].
      * destruct Hr as [Hq H]. split; [by right|done].
      * intros q eq0 [->|Hq]%elem_of_cons E'; [congruence|by eapply Hr].
Qed.

Lemma value_to_heap_element_spec t s : linked (entries s) (m_value_to_heap_element s) (fun _ => True) ->
  exists r, value_to_heap_element std_hash t s = Ok r /\
    match r with
    | Some p => exists e, entries s !! p = Some e /\ element e = t
    | None => forall p e, entries s !! p = Some e -> element e <> t
    end.
Proof.
  intros H. destruct (H (std_hash t)) as (l & Hs & Hn & Hl). unfold value_to_heap_element.
  pose proof (seg_length _ _ _ _ Hs Hn) as Hlen.
  assert (forall p e, entries s !! p = Some e -> element e = t -> p ∈ l) as Hin.
  { intros p e E Et. apply Hl. split; [done|]. exists e. by rewrite Et. }
  destruct (find_in_spec t s l (S (size (entries s))) _ ltac:(lia) Hs) as (r & Er & Hr).
  destruct (m_value_to_heap_element s !! std_hash t) as [v|] eqn:Ev.
  - destruct l as [|p l]; [done|]. destruct Hs as ([= <-] & e & E & Hs). rewrite (load_spec s v e E). cbn [obind].
    destruct (decide (element e = t)) as [Et|Hne]; [exists (Some v); split; [done|]; by exists e|].
    exists r. split; [exact Er|]. destruct r as [q|]; [tauto|]. intros q e' E' Et. by apply (Hr q e' (Hin q e' E' Et) E').
  - exists None. split; [done|]. destruct l as [|p l]; [|by destruct Hs]. intros p e E Et.
    by pose proof (Hin p e E Et) as []%elem_of_nil.
Qed.

(** Two sketches that differ in the lists alone *)
Record relinked (s s' : space_saving T) : Prop := {
  rl_body : same_body (entries s) (entries s');
  rl_heap : m_heap s' = m_heap s;
  rl_capacity : m_max_capacity s' = m_max_capacity s;
  rl_size : m_size s' = m_size s;
  rl_epsilon : m_epsilon s' = m_epsilon s
}.

(** [s'] has the list [l] for [hv] instead, and is as [s] elsewhere. *)
Definition list_changed s s' (hv : Z) (l l' : list addr) : Prop :=
  seg (entries s') (m_value_to_heap_element s' !! hv) l' None /\
  (forall k, k <> hv -> m_value_to_heap_element s' !! k = m_value_to_heap_element s !! k) /\
  (forall p, p ∉ l -> entries s' !! p = entries s !! p) /\ relinked s s'.

Lemma erase_loop_spec s hv t et : entries s !! t = Some et -> forall l fuel pre,
  (length l <= fuel)%nat -> seg (entries s) (m_value_to_heap_element s !! hv) (pre ++ l) None -> NoDup (pre ++ l) -> t ∈ l ->
  exists l1 l2 s', l = l1 ++ t :: l2 /\
    erase_loop fuel hv t (last pre) (head l) s = Ok s' /\ list_changed s s' hv (pre ++ l) (pre ++ l1 ++ l2).
Proof.
  intros Et. induction l as [|v l IH]; intros fuel pre Hf Hs Hn Ht; [by apply elem_of_nil in Ht|].
  destruct fuel as [|fuel]; [cbn in Hf; lia|]. cbn [erase_loop head].
  pose proof Hs as Hs0. apply seg_app in Hs0 as (u & Hpre & (-> & e & E & Hrest)).
  rewrite (load_spec s v e E). cbn [obind]. destruct (decide (v = t)) as [->|Hne].
  - rewrite Et in E. injection E as <-. exists [], l. destruct (last pre) as [pr|] eqn:El.
    + assert (exists pre', pre = pre' ++ [pr]) as [pre' ->].
      { destruct pre as [|x pre _] using rev_ind; [done|]. rewrite last_snoc in El. injection El as ->. by exists pre. }
      rewrite <- app_assoc in Hs, Hn. cbn [app] in Hs, Hn.
      assert (is_Some (entries s !! pr)) as [ep Ep].
      { eapply seg_in; [exact Hs|]. apply elem_of_app. right. left. }
      rewrite (modify_spec s pr _ ep Ep). eexists. split; [done|]. split; [reflexivity|]. split; [|split; [|split]].
      * rewrite <- app_assoc. cbn [app]. cbn. by eapply seg_remove.
      * done.
      * cbn. intros p Hp. rewrite lookup_insert_ne; [done|]. intros <-. apply Hp.
        apply elem_of_app. left. apply elem_of_app. right. left.
      * split; try done. cbn. by apply same_body_next.
    + assert (pre = []) as -> by (destruct pre as [|x pre _] using rev_ind; [done|by rewrite last_snoc in El]).
      cbn [app] in *. destruct (next et) as [n|] eqn:En.
      * eexists. split; [done|]. split; [reflexivity|]. split; [|split; [|split]]; cbn.
        -- by rewrite lookup_insert_eq.
        -- intros h Hh. by rewrite lookup_insert_ne.
        -- done.
        -- by split.
      * eexists. split; [done|]. split; [reflexivity|]. split; [|split; [|split]]; cbn.
        -- by rewrite lookup_delete_eq.
        -- intros h Hh. by rewrite lookup_delete_ne.
        -- done.
        -- by split.
  - apply elem_of_cons in Ht as [->|Ht]; [done|].
    destruct (IH fuel (pre ++ [v])) as (l1 & l2 & s' & -> & Ee & Hc); [cbn in Hf; lia|by rewrite <- app_assoc..|done|].
    exists (v :: l1), l2, s'. split; [done|]. rewrite last_snoc in Ee. rewrite <- !app_assoc in Hc. cbn [app] in Hc |- *.
    split; [|exact Hc]. rewrite <- Ee. f_equal. destruct l1 as [|x l1]; cbn [app seg] in Hrest; by destruct Hrest as [-> _].
Qed.

Lemma list_changed_linked s s' hv t et L1 L2 : linked (entries s) (m_value_to_heap_element s) (fun _ => True) ->
  entries s !! t = Some et -> std_hash (element et) = hv ->
  seg (entries s) (m_value_to_heap_element s !! hv) (L1 ++ t :: L2) None -> NoDup (L1 ++ t :: L2) ->
  (forall p, p ∈ L1 ++ t :: L2 <-> exists e, entries s !! p = Some e /\ std_hash (element e) = hv) ->
  list_changed s s' hv (L1 ++ t :: L2) (L1 ++ L2) ->
  linked (entries s') (m_value_to_heap_element s') (fun p => p <> t).
Proof.
  intros Hlk Et Eh Hs Hn Hl (C1 & C2 & C3 & C4) h.
  assert (forall p (h : Z), (exists e, entries s' !! p = Some e /\ std_hash (element e) = h) <->
    exists e, entries s !! p = Some e /\ std_hash (element e) = h) as Hbody.
  { intros p h'. split; intros (e & E & <-).
    - destruct (same_body_lookup _ _ _ _ (same_body_sym _ _ (rl_body _ _ C4)) E) as (e' & E' & Eb). exists e'.
      split; [done|]. unfold body in Eb. congruence.
    - destruct (same_body_lookup _ _ _ _ (rl_body _ _ C4) E) as (e' & E' & Eb). exists e'.
      split; [done|]. unfold body in Eb. congruence. }
  destruct (decide (h = hv)) as [->|Hne].
  - exists (L1 ++ L2). rewrite NoDup_app, NoDup_cons in Hn. destruct Hn as (N1 & N2 & N3 & N4). split; [done|]. split.
    + apply NoDup_app. split_and!; [done| |done]. intros p Hp Hp2. apply (N2 p Hp). by right.
    + intros p. rewrite Hbody, <- Hl, !elem_of_app, elem_of_cons. split.
      * intros [Hp|Hp]; (split; [|tauto]); [intros ->; apply (N2 t Hp); left|intros ->; contradiction].
      * tauto.
  - destruct (Hlk h) as (l & Hs' & Hn' & Hl'). exists l. rewrite C2 by done. split_and!; [|done|].
    + eapply seg_ext; [|exact Hs']. intros p Hp. rewrite C3; [done|]. rewrite Hl. intros (e & E & Eh').
      apply Hl' in Hp as (_ & e' & E' & Eh''). congruence.
    + intros p. rewrite Hbody, Hl'. split; [|tauto]. intros (_ & He). split; [|done]. intros ->.
      destruct He as (e & E & Eh'). congruence.
Qed.

Lemma erase_spec s t et : linked (entries s) (m_value_to_heap_element s) (fun _ => True) -> entries s !! t = Some et ->
  exists s', value_to_heap_element_erase std_hash t s = Ok s' /\ relinked s s' /\
    linked (entries s') (m_value_to_heap_element s') (fun p => p <> t).
Proof.
  intros Hlk Et. unfold value_to_heap_element_erase. rewrite (load_spec s t et Et). cbn [obind].
  destruct (Hlk (std_hash (element et))) as (l & Hs & Hn & Hl).
  assert (t ∈ l) as Ht by (apply Hl; split; [done|]; by exists et).
  pose proof (seg_length _ _ _ _ Hs Hn) as Hlen.
  assert (forall p, p ∈ l <-> exists e, entries s !! p = Some e /\ std_hash (element e) = std_hash (element et)) as Hl'.
  { intros p. rewrite Hl. tauto. }
  destruct (erase_loop_spec s (std_hash (element et)) t et Et l (S (size (entries s))) [] ltac:(lia) Hs Hn Ht)
    as (l1 & l2 & s' & -> & Ee & Hc).
  destruct (m_value_to_heap_element s !! std_hash (element et)) as [v|] eqn:Ev.
  2: { destruct l1; by destruct Hs as [? _]. }
  assert (is_Some (entries s !! v)) as [e E].
  { destruct l1 as [|x l1]; destruct Hs as ([= <-] & e & E & _); by exists e. }
  rewrite (load_spec s v e E). cbn [obind]. destruct (decide (v = t /\ next e = None)) as [[-> En]|_].
  - eexists. split; [reflexivity|]. rewrite Et in E. injection E as <-.
    assert (l1 = [] /\ l2 = []) as [-> ->].
    { destruct l1 as [|x l1].
      - split; [done|]. destruct Hs as (_ & e' & E' & Hs). rewrite Et in E'. injection E' as <-. rewrite En in Hs.
        destruct l2; [done|by destruct Hs].
      - destruct Hs as ([= <-] & _). apply NoDup_cons in Hn as [[] _]. apply elem_of_app. right. left. }
    split; [by split|]. eapply (list_changed_linked s _ (std_hash (element et)) t et [] []); try done; [by rewrite Ev|].
    split; [|split; [|split]]; cbn.
    + by rewrite lookup_delete_eq.
    + intros h Hh. by rewrite lookup_delete_ne.
    + done.
    + by split.
  - assert (erase_loop (S (size (entries s))) (std_hash (element et)) t None (Some v) s = Ok s') as ->.
    { rewrite <- Ee. f_equal. destruct l1 as [|x l1]; by destruct Hs as ([= <-] & _). }
    exists s'. split; [done|]. split; [by destruct Hc as (_ & _ & _ & ?)|].
    eapply (list_changed_linked s s' (std_hash (element et)) t et l1 l2); try done. by rewrite Ev.
Qed.

Lemma insert_spec s t et (D : addr -> Prop) : linked (entries s) (m_value_to_heap_element s) D -> ~ D t ->
  entries s !! t = Some et -> (forall p, is_Some (entries s !! p) -> p <> t -> D p) ->
  exists s', value_to_heap_element_insert std_hash t s = Ok s' /\ relinked s s' /\
    linked (entries s') (m_value_to_heap_element s') (fun _ => True).
Proof.
  intros Hlk Ht Et HD. unfold value_to_heap_element_insert. rewrite (load_spec s t et Et). cbn [obind].
  rewrite (modify_spec s t _ et Et). cbn [obind]. eexists. split; [reflexivity|].
  set (hv := std_hash (element et)). set (es' := <[t := set_next (m_value_to_heap_element s !! hv) et]> (entries s)).
  assert (same_body (entries s) es') as Hb by (by apply same_body_next).
  split; [by split|]. cbn [entries m_value_to_heap_element with_map with_entries].
  assert (linked es' (m_value_to_heap_element s) D) as Hlk'.
  { eapply linked_others; [|exact Hlk]. intros p Hp. unfold es'. rewrite lookup_insert_ne; [done|]. intros <-. contradiction. }
  intros h. destruct (Hlk' h) as (l & Hs & Hn & Hl). destruct (decide (h = hv)) as [->|Hne].
  - exists (t :: l). rewrite lookup_insert_eq. split; [|split].
    + split; [done|]. eexists. split; [apply lookup_insert_eq|]. exact Hs.
    + apply NoDup_cons. split; [|done]. intros Hin. apply Hl in Hin as [? _]. contradiction.
    + intros p. rewrite elem_of_cons, Hl. split.
      * intros [->|[_ He]]; [|tauto]. split; [done|]. eexists. split; [apply lookup_insert_eq|done].
      * intros (_ & e & E & Eh). destruct (decide (p = t)) as [->|Hp]; [by left|right]. split; [|by exists e].
        apply HD; [|done]. unfold es' in E. rewrite lookup_insert_ne in E by done. by exists e.
  - exists l. rewrite lookup_insert_ne by done. split_and!; [done|done|]. intros p. rewrite Hl. split; [tauto|].
    intros (_ & e & E & Eh). split; [|by exists e]. assert (p <> t) as Hp.
    { intros ->. unfold es' in E. rewrite lookup_insert_eq in E. injection E as <-. by apply Hne. }
    apply HD; [|done]. unfold es' in E. rewrite lookup_insert_ne in E by done. by exists e.
Qed.

(** ** The invariant *)

Record ss_ok (s : space_saving T) : Prop := {
  so_heap : heap_ok (entries s) (m_heap s);
  so_ordered : ordered (length (m_heap s)) (key (entries s) (m_heap s));
  so_linked : linked (entries s) (m_value_to_heap_element s) (fun _ => True);
  so_distinct p q e e' : entries s !! p = Some e -> entries s !! q = Some e' -> element e = element e' -> p = q
}.

(** What is counted: the element, the count and the error of every entry *)
Definition tally e : T * Z * Z := (element e, count e, error e).
Definition tallies (es : gmap addr (heap_entry T)) : gmap addr (T * Z * Z) := tally <$> es.

Lemma tallies_lookup es p : tallies es !! p = tally <$> es !! p.
Proof. apply lookup_fmap. Qed.
Lemma tallies_data es es' : same_data es es' -> tallies es = tallies es'.
Proof.
  intros H. apply map_eq. intros p. rewrite !tallies_lookup. specialize (H p).
  destruct (es !! p), (es' !! p); cbn in *; try done. injection H as H. unfold data, tally in *. congruence.
Qed.
Lemma tallies_body es es' : same_body es es' -> tallies es = tallies es'.
Proof.
  intros H. apply map_eq. intros p. rewrite !tallies_lookup. specialize (H p).
  destruct (es !! p), (es' !! p); cbn in *; try done. injection H as H. unfold body, tally in *. congruence.
Qed.

Lemma heap_ok_body es es' h : same_body es es' -> heap_ok es h -> heap_ok es' h.
Proof.
  intros Hb [H1 H2 H3]. split; [done| |].
  - intros i Hi. destruct (H2 i Hi) as (p & e & E1 & E2 & E3).
    destruct (same_body_lookup _ _ _ _ Hb E2) as (e' & E' & Eb). exists p, e'. split_and!; [done|done|].
    unfold body in Eb. congruence.
  - intros p e E. destruct (same_body_lookup _ _ _ _ (same_body_sym _ _ Hb) E) as (e' & E' & Eb).
    unfold body in Eb. injection Eb as _ _ _ <-. by apply H3.
Qed.
Lemma key_tallies es es' h i : tallies es = tallies es' -> key es h i = key es' h i.
Proof.
  intros E. unfold key. destruct (mjoin (h !! i)) as [p|]; [|done].
  apply (f_equal (lookup p)) in E. rewrite !tallies_lookup in E. unfold tally in E.
  destruct (es !! p), (es' !! p); cbn in E; congruence.
Qed.

(** The elements are told apart in the tallies. *)
Definition distinct (m : gmap addr (T * Z * Z)) : Prop :=
  forall p q a b, m !! p = Some a -> m !! q = Some b -> a.1.1 = b.1.1 -> p = q.
Lemma distinct_tallies es : distinct (tallies es) <->
  forall p q e e', es !! p = Some e -> es !! q = Some e' -> element e = element e' -> p = q.
Proof.
  unfold distinct. setoid_rewrite tallies_lookup. split.
  - intros H p q e e' E E' Ee. apply (H p q (tally e) (tally e')); [by rewrite E|by rewrite E'|done].
  - intros H p q a b Ea Eb Eab. apply fmap_Some in Ea as (e & E & ->). apply fmap_Some in Eb as (e' & E' & ->).
    by eapply H.
Qed.

Lemma heap_first_tally s p e : ss_ok s -> entries s !! p = Some e ->
  exists q eq0, m_heap s !! 1%nat = Some (Some q) /\ entries s !! q = Some eq0 /\ count eq0 <= count e.
Proof.
  intros Hok E. pose proof (hk_back _ _ (so_heap _ Hok) p e E) as Hp.
  pose proof (hk_front _ _ (so_heap _ Hok)) as H0.
  assert (1 <= heap_position e < length (m_heap s))%nat as Hpos.
  { split; [|by eapply lookup_lt_Some]. destruct (heap_position e); [congruence|lia]. }
  destruct (hk_at _ _ (so_heap _ Hok) 1%nat) as (q & eq0 & F1 & F2 & _); [lia|]. exists q, eq0. split_and!; [done|done|].
  rewrite <- (key_at s _ q eq0 F1 F2), <- (key_at s _ p e Hp E). by apply (heap_first _ _ (so_ordered _ Hok)).
Qed.

(** What an operation that ends with a bubble needs, and gives *)
Lemma bubble_down_ok s idx cur ec : heap_ok (entries s) (m_heap s) -> m_heap s !! idx = Some (Some cur) ->
  entries s !! cur = Some ec -> holed (length (m_heap s)) (key (entries s) (m_heap s)) idx ->
  ((2 <= idx)%nat -> key (entries s) (m_heap s) (idx / 2)%nat <= count ec) ->
  linked (entries s) (m_value_to_heap_element s) (fun _ => True) -> distinct (tallies (entries s)) ->
  exists s', heap_bubble_down idx s = Ok s' /\ ss_ok s' /\ frame s s'.
Proof.
  intros Hh Hidx Hec Hho Hp Hl Hd.
  destruct (heap_bubble_down_spec s idx cur ec Hh Hidx Hec Hho Hp) as (s' & E & Hh' & Hf & Ho).
  exists s'. split; [done|]. split; [|done]. split; [done|done| |].
  - rewrite (fr_map _ _ Hf). eapply linked_same_data; [|exact Hl]. apply (fr_data _ _ Hf).
  - apply distinct_tallies. by rewrite <- (tallies_data _ _ (fr_data _ _ Hf)).
Qed.
Lemma bubble_up_ok s idx cur ec : heap_ok (entries s) (m_heap s) -> m_heap s !! idx = Some (Some cur) ->
  entries s !! cur = Some ec -> holed (length (m_heap s)) (key (entries s) (m_heap s)) idx ->
  (forall i, (2 <= i < length (m_heap s))%nat -> (i / 2)%nat = idx -> count ec <= key (entries s) (m_heap s) i) ->
  linked (entries s) (m_value_to_heap_element s) (fun _ => True) -> distinct (tallies (entries s)) ->
  exists s', heap_bubble_up idx s = Ok s' /\ ss_ok s' /\ frame s s'.
Proof.
  intros Hh Hidx Hec Hho Hp Hl Hd.
  destruct (heap_bubble_up_spec s idx cur ec Hh Hidx Hec Hho Hp) as (s' & E & Hh' & Hf & Ho).
  exists s'. split; [done|]. split; [|done]. split; [done|done| |].
  - rewrite (fr_map _ _ Hf). eapply linked_same_data; [|exact Hl]. apply (fr_data _ _ Hf).
  - apply distinct_tallies. by rewrite <- (tallies_data _ _ (fr_data _ _ Hf)).
Qed.

(** Changing the counts of one entry *)
Lemma heap_ok_update es h p e e' : heap_ok es h -> es !! p = Some e -> heap_position e' = heap_position e ->
  heap_ok (<[p := e']> es) h.
Proof.
  intros [H1 H2 H3] E Ep. split; [done| |].
  - intros i Hi. destruct (H2 i Hi) as (q & eq0 & F1 & F2 & F3). destruct (decide (q = p)) as [->|Hne].
    + exists p, e'. rewrite lookup_insert_eq. split_and!; [done|done|congruence].
    + exists q, eq0. by rewrite lookup_insert_ne.
  - intros q eq0 Eq. destruct (decide (q = p)) as [->|Hne].
    + rewrite lookup_insert_eq in Eq. injection Eq as <-. rewrite Ep. by apply H3.
    + rewrite lookup_insert_ne in Eq by done. by apply H3.
Qed.
Lemma key_update es h p e e' i : heap_ok es h -> es !! p = Some e ->
  key (<[p := e']> es) h i = key_set (key es h) (heap_position e) (count e') i.
Proof.
  intros Hh E. pose proof (hk_back _ _ Hh p e E) as Hp. unfold key_set, key.
  destruct (decide (i = heap_position e)) as [->|Hne]; [rewrite Hp; cbn; by rewrite lookup_insert_eq|].
  destruct (h !! i) as [[q|]|] eqn:Eq; cbn; try done. rewrite lookup_insert_ne; [done|]. intros <-.
  assert (1 <= i < length h)%nat as Hi.
  { split; [|by eapply lookup_lt_Some]. destruct i; [pose proof (hk_front _ _ Hh); congruence|lia]. }
  destruct (hk_at _ _ Hh i Hi) as (q & eq0 & F1 & F2 & F3). congruence.
Qed.

Lemma linked_update es m D p e e' : linked es m D -> es !! p = Some e -> element e' = element e -> next e' = next e ->
  linked (<[p := e']> es) m D.
Proof.
  intros H E He Hn hv. destruct (H hv) as (l & Hs & Hnd & Hl). exists l. split_and!; [|done|].
  - eapply seg_ext; [|exact Hs]. intros q _. destruct (decide (q = p)) as [->|Hne];
      [by rewrite lookup_insert_eq, E; cbn; rewrite Hn|by rewrite lookup_insert_ne].
  - intros q. rewrite Hl. split; intros (HD & eq0 & Eq & Eh); (split; [done|]).
    + destruct (decide (q = p)) as [->|Hne]; [exists e'; rewrite lookup_insert_eq|exists eq0; by rewrite lookup_insert_ne].
      split; [done|]. congruence.
    + destruct (decide (q = p)) as [->|Hne];
        [exists e; rewrite lookup_insert_eq in Eq; injection Eq as <-|exists eq0; by rewrite lookup_insert_ne in Eq].
      split; [done|]. congruence.
Qed.

Lemma tallies_insert es p e : tallies (<[p := e]> es) = <[p := tally e]> (tallies es).
Proof. apply fmap_insert. Qed.

Lemma distinct_insert (m : gmap addr (T * Z * Z)) p a : distinct m ->
  (forall q b, m !! q = Some b -> q <> p -> b.1.1 <> a.1.1) -> distinct (<[p := a]> m).
Proof.
  intros Hd Ha q r b c Hq Hr Ebc.
  destruct (decide (q = p)) as [->|Hqp], (decide (r = p)) as [->|Hrp]; try done.
  - rewrite lookup_insert_eq in Hq. injection Hq as <-. rewrite lookup_insert_ne in Hr by done. by destruct (Ha r c Hr Hrp).
  - rewrite lookup_insert_eq in Hr. injection Hr as <-. rewrite lookup_insert_ne in Hq by done. by destruct (Ha q b Hq Hqp).
  - rewrite lookup_insert_ne in Hq, Hr by done. by eapply Hd.
Qed.

Definition untracked (m : gmap addr (T * Z * Z)) t : Prop := forall p a, m !! p = Some a -> a.1.1 <> t.

(** What adding does to the tallies: the element is counted, or gets an entry of
    its own, or takes over the first entry of the heap. *)
Inductive added s t (cnt err : Z) s' : Prop :=
| added_counted p c er :
    tallies (entries s) !! p = Some (t, c, er) ->
    tallies (entries s') = <[p := (t, c + cnt, er + err)]> (tallies (entries s)) ->
    length (m_heap s') = length (m_heap s) -> added s t cnt err s'
| added_new p :
    untracked (tallies (entries s)) t -> Z.of_nat (length (m_heap s)) <= m_max_capacity s ->
    tallies (entries s) !! p = None ->
    tallies (entries s') = <[p := (t, cnt, err)]> (tallies (entries s)) ->
    length (m_heap s') = S (length (m_heap s)) -> added s t cnt err s'
| added_renamed p u c er :
    untracked (tallies (entries s)) t -> m_max_capacity s < Z.of_nat (length (m_heap s)) ->
    m_heap s !! 1%nat = Some (Some p) -> tallies (entries s) !! p = Some (u, c, er) ->
    tallies (entries s') = <[p := (t, c + cnt, c + err)]> (tallies (entries s)) ->
    length (m_heap s') = length (m_heap s) -> added s t cnt err s'.

(** No count overflows when [cnt] and [err] are added. *)
Definition room (m : gmap addr (T * Z * Z)) (cnt err : Z) : Prop :=
  forall p u c er, m !! p = Some (u, c, er) -> 0 <= er <= c /\ c + cnt < 2 ^ 64 /\ c + err < 2 ^ 64.

Hypothesis alloc_fresh : forall d, alloc d ∉ d.

Lemma add_counted s p e cnt err : ss_ok s -> entries s !! p = Some e -> 0 <= cnt -> 0 <= err ->
  room (tallies (entries s)) cnt err ->
  exists s', obind (modify p (fun e => set_counts (u64 (count e + cnt)) (u64 (error e + err)) e) s)
               (fun s => obind (load p s) (fun e => heap_bubble_down (heap_position e) s)) = Ok s' /\
    ss_ok s' /\ m_max_capacity s' = m_max_capacity s /\ m_size s' = m_size s /\ m_epsilon s' = m_epsilon s /\
    added s (element e) cnt err s'.
Proof.
  intros [Hh Ho Hl Hd] E Hcnt Herr Hroom.
  assert (tallies (entries s) !! p = Some (element e, count e, error e)) as Ep by (by rewrite tallies_lookup, E).
  destruct (Hroom p _ _ _ Ep) as (R1 & R2 & R3).
  rewrite (modify_spec s p _ e E). cbn [obind]. rewrite !wrap_small by (split; lia).
  set (e' := set_counts (count e + cnt) (error e + err) e).
  assert (load p (with_entries (<[p := e']> (entries s)) s) = Ok e') as ->
    by (unfold load; cbn; by rewrite lookup_insert_eq).
  cbn [obind]. pose proof (hk_back _ _ Hh p e E) as Hpos.
  set (s1 := with_entries (<[p := e']> (entries s)) s).
  assert (forall i, key (entries s1) (m_heap s1) i = key_set (key (entries s) (m_heap s)) (heap_position e) (count e') i)
    as Hk by (intros i; by apply key_update).
  destruct (bubble_down_ok s1 (heap_position e') p e') as (s' & Eb & Hok & Hf).
  - by eapply heap_ok_update.
  - exact Hpos.
  - apply lookup_insert_eq.
  - eapply holed_ext; [intros i; symmetry; apply Hk|]. by apply ordered_holed.
  - change (heap_position e') with (heap_position e). change (count e') with (count e + cnt).
    intros Hge. pose proof (half_lt _ Hge). rewrite Hk, key_set_ne by lia.
    etransitivity; [apply Ho; split; [done|by eapply lookup_lt_Some]|].
    rewrite (key_at s _ p e Hpos E). lia.
  - by eapply linked_update.
  - cbn. rewrite tallies_insert. apply distinct_insert; [by apply distinct_tallies|].
    intros q b Hq Hne Eb. apply Hne. by eapply (proj2 (distinct_tallies (entries s)) Hd); [exact Hq|exact Ep|].
  - exists s'. split; [done|]. split; [done|]. destruct Hf as [F1 F2 F3 F4 F5 F6]. split_and!; try done.
    eapply added_counted; [exact Ep| |by rewrite F2]. rewrite <- (tallies_data _ _ F1). cbn. by rewrite tallies_insert.
Qed.

Lemma add_new s t cnt err : ss_ok s -> untracked (tallies (entries s)) t ->
  Z.of_nat (length (m_heap s)) <= m_max_capacity s ->
  let p := alloc (dom (entries s)) in
  let n := length (m_heap s) in
  exists s', obind (value_to_heap_element_insert std_hash p
                      (with_heap (m_heap s ++ [Some p]) (with_entries (<[p := mk_entry t cnt err n None]> (entries s)) s)))
               (fun s => heap_bubble_up n s) = Ok s' /\
    ss_ok s' /\ m_max_capacity s' = m_max_capacity s /\ m_size s' = m_size s /\ m_epsilon s' = m_epsilon s /\
    added s t cnt err s'.
Proof.
  intros [Hh Ho Hl Hd] Hu Hcap p n.
  assert (entries s !! p = None) as Ep by (apply not_elem_of_dom, alloc_fresh).
  set (e := mk_entry t cnt err n None).
  set (s1 := with_heap (m_heap s ++ [Some p]) (with_entries (<[p := e]> (entries s)) s)).
  assert (1 <= n)%nat as Hn by (pose proof (lookup_lt_Some _ _ _ (hk_front _ _ Hh)); unfold n; lia).
  assert (heap_ok (entries s1) (m_heap s1)) as Hh1.
  { destruct Hh as [H1 H2 H3]. split; cbn [entries m_heap s1 with_heap with_entries].
    - rewrite lookup_app_l; [done|]. fold n. lia.
    - rewrite length_app. cbn [length]. intros i Hi. destruct (decide (i = n)) as [->|Hne].
      + exists p, e. rewrite lookup_app_r, Nat.sub_diag by (unfold n; lia). by rewrite lookup_insert_eq.
      + destruct (H2 i ltac:(unfold n in *; lia)) as (q & eq0 & F1 & F2 & F3). exists q, eq0.
        rewrite lookup_app_l by (unfold n in *; lia). split_and!; [done| |done]. rewrite lookup_insert_ne; [done|congruence].
    - intros q eq0 Eq. destruct (decide (q = p)) as [->|Hne].
      + rewrite lookup_insert_eq in Eq. injection Eq as <-. cbn. by rewrite lookup_app_r, Nat.sub_diag by (unfold n; lia).
      + rewrite lookup_insert_ne in Eq by done. pose proof (H3 q eq0 Eq) as Hq.
        rewrite lookup_app_l; [done|by eapply lookup_lt_Some]. }
  assert (linked (entries s1) (m_value_to_heap_element s1) (fun q => q <> p)) as Hl1.
  { eapply linked_others; [|eapply linked_weaken; [|exact Hl]].
    - intros q Hq. cbn. by rewrite lookup_insert_ne.
    - intros q [eq0 Eq]. split; [intros _ ->; congruence|done]. }
  destruct (insert_spec s1 p e (fun q => q <> p) Hl1 ltac:(tauto)) as (s2 & -> & Hr & Hl2);
    [apply lookup_insert_eq|done|]. cbn [obind].
  destruct Hr as [R1 R2 R3 R4 R5].
  assert (entries s1 !! p = Some e) as E1 by apply lookup_insert_eq.
  destruct (same_body_lookup _ _ _ _ R1 E1) as (e2 & E2 & Eb).
  assert (tallies (entries s2) = <[p := (t, cnt, err)]> (tallies (entries s))) as Et.
  { rewrite <- (tallies_body _ _ R1). cbn. by rewrite tallies_insert. }
  assert (length (m_heap s2) = S n) as Hlen by (rewrite R2; cbn; rewrite length_app; cbn; unfold n; lia).
  assert (forall i, (i < n)%nat -> key (entries s2) (m_heap s2) i = key (entries s) (m_heap s) i) as Hk.
  { intros i Hi. rewrite R2, <- (key_tallies (entries s1)) by (by apply tallies_body). unfold key.
    cbn [m_heap entries s1 with_heap with_entries]. rewrite lookup_app_l by (unfold n in *; lia).
    destruct (m_heap s !! i) as [[q|]|] eqn:Eq; cbn; try done. rewrite lookup_insert_ne; [done|].
    intros <-. assert (1 <= i < length (m_heap s))%nat as Hi2.
    { split; [|unfold n in *; lia]. destruct i; [pose proof (hk_front _ _ Hh); congruence|lia]. }
    destruct (hk_at _ _ Hh i Hi2) as (q & eq0 & F1 & F2 & _). congruence. }
  destruct (bubble_up_ok s2 n p e2) as (s' & Ebu & Hok & Hf).
  - rewrite R2. by eapply heap_ok_body.
  - rewrite R2. cbn. by rewrite lookup_app_r, Nat.sub_diag by (unfold n; lia).
  - exact E2.
  - rewrite Hlen. split.
    + intros i Hi Hne Hne2. pose proof (half_lt i ltac:(lia)). rewrite !Hk by lia. apply Ho. unfold n in *. lia.
    + intros i Hi Ei. pose proof (half_lt i ltac:(lia)). lia.
  - rewrite Hlen. intros i Hi Ei. pose proof (half_lt i ltac:(lia)). lia.
  - exact Hl2.
  - rewrite Et. apply distinct_insert; [by apply distinct_tallies|]. intros q b Hq _. by apply (Hu q b Hq).
  - exists s'. split; [done|]. split; [done|]. destruct Hf as [F1 F2 F3 F4 F5 F6].
    split_and!; [by rewrite F4|by rewrite F5|by rewrite F6|].
    apply (added_new _ _ _ _ _ p); [done|done|by rewrite tallies_lookup, Ep| |by rewrite F2, Hlen].
    by rewrite <- (tallies_data _ _ F1).
Qed.

Lemma add_renamed s t cnt err : ss_ok s -> untracked (tallies (entries s)) t -> 0 <= cnt -> 0 <= err ->
  m_max_capacity s < Z.of_nat (length (m_heap s)) -> 1 <= m_max_capacity s -> room (tallies (entries s)) cnt err ->
  exists s', obind (heap_at 1 s) (fun head => obind (value_to_heap_element_erase std_hash head s) (fun s =>
      obind (modify head (fun e => set_counts (u64 (count e + cnt)) (u64 (count e + err)) (set_element t e)) s) (fun s =>
      obind (value_to_heap_element_insert std_hash head s) (fun s => heap_bubble_down 1 s)))) = Ok s' /\
    ss_ok s' /\ m_max_capacity s' = m_max_capacity s /\ m_size s' = m_size s /\ m_epsilon s' = m_epsilon s /\
    added s t cnt err s'.
Proof.
  intros [Hh Ho Hl Hd] Hu Hcnt Herr Hcap Hc1 Hroom.
  destruct (hk_at _ _ Hh 1%nat ltac:(lia)) as (p & e & Hp & E & Epos).
  assert (tallies (entries s) !! p = Some (element e, count e, error e)) as Ep by (by rewrite tallies_lookup, E).
  destruct (Hroom p _ _ _ Ep) as (Q1 & Q2 & Q3).
  rewrite (heap_at_spec s 1 p Hp). cbn [obind].
  destruct (erase_spec s p e Hl E) as (s1 & -> & Hr1 & Hl1). cbn [obind]. destruct Hr1 as [R1 R2 R3 R4 R5].
  destruct (same_body_lookup _ _ _ _ R1 E) as (e1 & E1 & Eb1).
  assert (count e1 = count e /\ heap_position e1 = heap_position e) as [Ec1 Epos1] by (unfold body in Eb1; split; congruence).
  rewrite (modify_spec s1 p _ e1 E1). cbn [obind]. rewrite Ec1, !wrap_small by (split; lia).
  set (e2 := set_counts (count e + cnt) (count e + err) (set_element t e1)).
  set (s2 := with_entries (<[p := e2]> (entries s1)) s1).
  assert (heap_ok (entries s1) (m_heap s1)) as Hh1 by (rewrite R2; by eapply heap_ok_body).
  assert (heap_ok (entries s2) (m_heap s2)) as Hh2 by (by eapply heap_ok_update).
  assert (linked (entries s2) (m_value_to_heap_element s2) (fun q => q <> p)) as Hl2.
  { eapply linked_others; [|exact Hl1]. intros q Hq. cbn. by rewrite lookup_insert_ne. }
  destruct (insert_spec s2 p e2 (fun q => q <> p) Hl2 ltac:(tauto)) as (s3 & -> & Hr3 & Hl3);
    [apply lookup_insert_eq|done|]. cbn [obind]. destruct Hr3 as [S1 S2 S3 S4 S5].
  assert (entries s2 !! p = Some e2) as E2 by apply lookup_insert_eq.
  destruct (same_body_lookup _ _ _ _ S1 E2) as (e3 & E3 & Eb3).
  assert (tallies (entries s3) = <[p := (t, count e + cnt, count e + err)]> (tallies (entries s))) as Et.
  { rewrite <- (tallies_body _ _ S1). cbn. by rewrite tallies_insert, <- (tallies_body _ _ R1). }
  assert (m_heap s3 = m_heap s) as Ehp by (rewrite S2; exact R2).
  assert (forall i, key (entries s3) (m_heap s3) i = key_set (key (entries s) (m_heap s)) 1 (count e + cnt) i) as Hk.
  { intros i. rewrite S2, <- (key_tallies (entries s2)) by (by apply tallies_body). unfold s2 at 1.
    cbn [entries with_entries]. change (m_heap s2) with (m_heap s1).
    rewrite (key_update _ _ p e1 e2 i Hh1 E1), Epos1, Epos. unfold key_set. case_decide; [done|].
    rewrite R2. symmetry. apply key_tallies. by apply tallies_body. }
  destruct (bubble_down_ok s3 1 p e3) as (s' & Ebu & Hok & Hf).
  - rewrite Ehp, <- R2. change (m_heap s1) with (m_heap s2). by eapply heap_ok_body.
  - by rewrite Ehp.
  - exact E3.
  - eapply holed_ext; [intros i; symmetry; apply Hk|]. rewrite Ehp. by apply ordered_holed.
  - lia.
  - exact Hl3.
  - rewrite Et. apply distinct_insert; [by apply distinct_tallies|]. intros q b Hq _. by apply (Hu q b Hq).
  - exists s'. split; [done|]. split; [done|]. destruct Hf as [F1 F2 F3 F4 F5 F6].
    split_and!; [rewrite F4, S3; exact R3|rewrite F5, S4; exact R4|rewrite F6, S5; exact R5|].
    eapply added_renamed; [done|done|exact Hp|exact Ep| |by rewrite F2, Ehp]. by rewrite <- (tallies_data _ _ F1).
Qed.

Lemma add_impl_spec s t cnt err : ss_ok s -> 0 <= cnt -> 0 <= err -> 1 <= m_max_capacity s ->
  room (tallies (entries s)) cnt err -> 0 <= m_size s -> m_size s + cnt < 2 ^ 64 ->
  exists s', add_impl std_hash alloc t cnt err s = Ok s' /\ ss_ok s' /\
    m_max_capacity s' = m_max_capacity s /\ m_size s' = m_size s + cnt /\ m_epsilon s' = m_epsilon s /\
    added s t cnt err s'.
Proof.
  intros Hok Hcnt Herr Hcap Hroom Hs0 Hs. unfold add_impl.
  assert (forall s1 m, ss_ok s1 -> ss_ok (with_size m s1)) as Hsize by (intros s1 m [? ? ? ?]; by split).
  assert (forall s1 m, added s t cnt err s1 -> added s t cnt err (with_size m s1)) as Hadded.
  { intros s1 m [|p|p u c er]; [by eapply added_counted|by eapply (added_new _ _ _ _ _ p)|by eapply added_renamed]. }
  destruct (value_to_heap_element_spec t s (so_linked _ Hok)) as ([p|] & -> & Hr); cbn [obind].
  - destruct Hr as (e & E & <-). destruct (add_counted s p e cnt err Hok E Hcnt Herr Hroom) as (s' & -> & H1 & H2 & H3 & H4 & H5).
    cbn [obind]. eexists. split; [reflexivity|]. cbn. rewrite H3, wrap_small by (split; lia). split_and!; auto.
  - assert (untracked (tallies (entries s)) t) as Hu.
    { intros p a Ha. rewrite tallies_lookup in Ha. apply fmap_Some in Ha as (e & E & ->). by apply (Hr p e E). }
    destruct (Z.leb_spec (Z.of_nat (length (m_heap s))) (m_max_capacity s)) as [Hle|Hgt].
    + cbv zeta. cbn [m_heap with_entries].
      destruct (add_new s t cnt err Hok Hu Hle) as (s' & -> & H1 & H2 & H3 & H4 & H5).
      cbn [obind]. eexists. split; [reflexivity|]. cbn. rewrite H3, wrap_small by (split; lia). split_and!; auto.
    + destruct (add_renamed s t cnt err Hok Hu Hcnt Herr Hgt Hcap Hroom) as (s' & -> & H1 & H2 & H3 & H4 & H5).
      cbn [obind]. eexists. split; [reflexivity|]. cbn. rewrite H3, wrap_small by (split; lia). split_and!; auto.
Qed.

(** ** Deleting the first entry *)

Lemma delete_heap_top_spec s : ss_ok s -> (2 <= length (m_heap s))%nat ->
  exists s' p, delete_heap_top std_hash s = Ok s' /\ ss_ok s' /\
    m_max_capacity s' = m_max_capacity s /\ m_size s' = m_size s /\ m_epsilon s' = m_epsilon s /\
    S (length (m_heap s')) = length (m_heap s) /\ tallies (entries s') = delete p (tallies (entries s)).
Proof.
  intros [Hh Ho Hl Hd] Hlen. unfold delete_heap_top. pose proof Hh as [H1 H2 H3].
  destruct (H2 1%nat ltac:(lia)) as (p & e & Hp & E & Epos).
  destruct (Nat.ltb_spec 2 (length (m_heap s))) as [Hgt|Hle].
  2: { assert (length (m_heap s) = 2%nat) as Hn by lia. rewrite Hn. rewrite (heap_at_spec s 1 p Hp). cbn [Nat.eqb obind].
    assert (forall q e', entries s !! q = Some e' -> q = p) as Honly.
    { intros q e' Eq. pose proof (H3 q e' Eq) as Hq. pose proof (lookup_lt_Some _ _ _ Hq).
      destruct (heap_position e') as [|[|k]]; [congruence|congruence|lia]. }
    assert (forall q, delete p (entries s) !! q = None) as Hnone.
    { intros q. destruct (decide (q = p)) as [->|Hne]; [apply lookup_delete_eq|]. rewrite lookup_delete_ne by done.
      destruct (entries s !! q) as [e'|] eqn:Eq; [|done]. by apply Honly in Eq. }
    eexists _, p. split; [reflexivity|]. cbn [entries m_heap m_max_capacity m_size m_epsilon with_map with_heap with_entries].
    assert (length (take 1 (m_heap s)) = 1%nat) as Ht by (rewrite length_take; lia).
    split_and!; try done.
    - split; cbn [entries m_heap m_value_to_heap_element with_map with_heap with_entries].
      + split; [by rewrite lookup_take_lt by lia| |]; [rewrite Ht; lia|]. intros q e' Eq. by rewrite Hnone in Eq.
      + intros i. rewrite Ht. lia.
      + intros hv. exists []. rewrite lookup_empty. split; [done|]. split; [constructor|]. intros q. rewrite elem_of_nil.
        split; [done|]. intros (_ & e' & Eq & _). by rewrite Hnone in Eq.
      + intros q r e' e'' Eq. by rewrite Hnone in Eq.
    - by rewrite Ht.
    - apply fmap_delete. }
  set (n := length (m_heap s)) in *.
  destruct (H2 (n - 1)%nat ltac:(lia)) as (q & el & Hq & El & Elpos).
  assert (q <> p) as Hqp by (intros ->; rewrite E in El; injection El as <-; lia).
  rewrite (heap_at_spec s 1 p Hp). cbn [obind]. rewrite (heap_at_spec s (n - 1) q Hq). cbn [obind].
  rewrite heap_put_spec by (fold n; lia). cbn [obind]. rewrite heap_put_spec by (cbn; rewrite length_insert; fold n; lia).
  cbn [obind m_heap with_heap]. rewrite (modify_spec _ q _ el) by done. cbn [obind entries with_heap].
  set (s1 := with_entries _ _).
  assert (linked (entries s1) (m_value_to_heap_element s1) (fun _ => True)) as Hl1.
  { eapply linked_update; [exact Hl|exact El|done|done]. }
  assert (entries s1 !! p = Some e) as E1 by (cbn; by rewrite lookup_insert_ne).
  destruct (erase_spec s1 p e Hl1 E1) as (s2 & -> & [R1 R2 R3 R4 R5] & Hl2). cbn [obind].
  set (s3 := with_entries (delete p (entries s2)) (with_heap (take (n - 1) (m_heap s2)) s2)).
  change (exists s' p0, heap_bubble_down 1 s3 = Ok s' /\ ss_ok s' /\ m_max_capacity s' = m_max_capacity s /\
    m_size s' = m_size s /\ m_epsilon s' = m_epsilon s /\ S (length (m_heap s')) = n /\
    tallies (entries s') = delete p0 (tallies (entries s))).
  assert (m_heap s3 = <[1%nat := Some q]> (take (n - 1) (m_heap s))) as Eheap.
  { cbn [s3 m_heap with_entries with_heap]. rewrite R2. cbn [s1 m_heap with_entries with_heap].
    rewrite take_insert_lt by lia. by rewrite take_insert_ge by lia. }
  assert (length (m_heap s3) = n - 1)%nat as Hlen3 by (rewrite Eheap, length_insert, length_take; fold n; lia).
  assert (tallies (entries s2) = tallies (entries s)) as Et2.
  { rewrite <- (tallies_body _ _ R1). cbn. rewrite tallies_insert. apply insert_id.
    by rewrite tallies_lookup, El. }
  assert (tallies (entries s3) = delete p (tallies (entries s))) as Et.
  { cbn. rewrite <- Et2. apply fmap_delete. }
  assert (forall r e3, entries s3 !! r = Some e3 -> r <> p /\ exists e', entries s !! r = Some e' /\ element e3 = element e' /\
    count e3 = count e' /\ heap_position e3 = if decide (r = q) then 1%nat else heap_position e') as Hent.
  { cbn [s3 entries with_entries with_heap]. intros r e3 Er. apply lookup_delete_Some in Er as [Hrp Er]. split; [done|].
    destruct (same_body_lookup _ _ _ _ (same_body_sym _ _ R1) Er) as (e1 & Er1 & Eb). cbn in Er1. unfold body in Eb.
    destruct (decide (r = q)) as [->|Hrq].
    - rewrite lookup_insert_eq in Er1. injection Er1 as <-. exists el. cbn in Eb. split_and!; [done|congruence..].
    - rewrite lookup_insert_ne in Er1 by done. exists e1. split_and!; [done|congruence..]. }
  assert (forall r e', entries s !! r = Some e' -> r <> p -> exists e3, entries s3 !! r = Some e3) as Hent'.
  { intros r e' Er Hne. assert (is_Some (entries s1 !! r)) as [e1 Er1].
    { cbn. destruct (decide (r = q)) as [->|Hrq]; [by rewrite lookup_insert_eq|rewrite lookup_insert_ne by done; by exists e']. }
    destruct (same_body_lookup _ _ _ _ R1 Er1) as (e3 & Er3 & _). exists e3. cbn. by rewrite lookup_delete_ne. }
  assert (forall i, (2 <= i < n - 1)%nat -> m_heap s3 !! i = m_heap s !! i) as Hat.
  { intros i Hi. rewrite Eheap, list_lookup_insert_ne by lia. by rewrite lookup_take_lt by lia. }
  assert (m_heap s3 !! 1%nat = Some (Some q)) as Hat1.
  { rewrite Eheap. apply list_lookup_insert_eq. rewrite length_take. fold n. lia. }
  assert (forall i, (2 <= i < n - 1)%nat -> exists r e', m_heap s !! i = Some (Some r) /\ entries s !! r = Some e' /\
    r <> p /\ r <> q /\ heap_position e' = i) as Hat2.
  { intros i Hi. destruct (H2 i ltac:(lia)) as (r & e' & F1 & F2 & F3). exists r, e'. split_and!; try done.
    - intros ->. rewrite E in F2. injection F2 as <-. lia.
    - intros ->. rewrite El in F2. injection F2 as <-. lia. }
  assert (heap_ok (entries s3) (m_heap s3)) as Hh3.
  { split.
    - rewrite Eheap, list_lookup_insert_ne by lia. by rewrite lookup_take_lt by lia.
    - rewrite Hlen3. intros i Hi. destruct (decide (i = 1%nat)) as [->|Hi1].
      + destruct (Hent' q el El Hqp) as [e3 Er3]. exists q, e3. split_and!; [done|done|].
        destruct (Hent q e3 Er3) as (_ & e' & _ & _ & _ & ->). by rewrite decide_True.
      + destruct (Hat2 i ltac:(lia)) as (r & e' & F1 & F2 & F3 & F4 & F5). destruct (Hent' r e' F2 F3) as [e3 Er3].
        exists r, e3. rewrite Hat by lia. split_and!; [done|done|].
        destruct (Hent r e3 Er3) as (_ & e'' & F & _ & _ & ->). rewrite decide_False by done. congruence.
    - intros r e3 Er3. destruct (Hent r e3 Er3) as (Hrp & e' & F & _ & _ & ->). destruct (decide (r = q)) as [->|Hrq]; [done|].
      pose proof (H3 r e' F) as Hr. pose proof (lookup_lt_Some _ _ _ Hr) as Hrl. fold n in Hrl.
      rewrite Hat; [done|]. split.
      + destruct (heap_position e') as [|[|k]]; [congruence|congruence|lia].
      + assert (heap_position e' <> n - 1)%nat; [|lia]. intros Ee. rewrite Ee in Hr. congruence. }
  assert (forall i, (2 <= i < n - 1)%nat -> key (entries s3) (m_heap s3) i = key (entries s) (m_heap s) i) as Hk.
  { intros i Hi. destruct (Hat2 i Hi) as (r & e' & F1 & F2 & F3 & F4 & F5). destruct (Hent' r e' F2 F3) as [e3 Er3].
    rewrite (key_at s i r e' F1 F2). rewrite (key_at s3 i r e3); [|by rewrite Hat|done].
    destruct (Hent r e3 Er3) as (_ & e'' & F & _ & -> & _). congruence. }
  destruct (Hent' q el El Hqp) as [e3 Er3].
  destruct (bubble_down_ok s3 1 q e3) as (s' & -> & Hok & [F1 F2 F3 F4 F5 F6]); try done.
  - rewrite Hlen3. split; [|lia]. intros i Hi Hne Hne2. pose proof (half_lt i ltac:(lia)).
    rewrite !Hk by lia. apply Ho. fold n. lia.
  - lia.
  - cbn [s3 entries m_value_to_heap_element with_entries with_heap]. eapply linked_weaken; [|eapply linked_others; [|exact Hl2]].
    + intros r [e' Er]. apply lookup_delete_Some in Er as [Hrp _]. split; [done|by intros _ ->].
    + intros r Hr. by rewrite lookup_delete_ne.
  - rewrite Et. intros r1 r2 a b Ha Hb. apply lookup_delete_Some in Ha as [_ Ha], Hb as [_ Hb].
    by apply (proj2 (distinct_tallies (entries s)) Hd).
  - exists s', p. split; [done|]. split; [done|]. rewrite F4, F5, F6, F2, Hlen3. cbn. rewrite R3, R4, R5.
    split_and!; [done|done|done|lia|]. rewrite <- (tallies_data _ _ F1). exact Et.
Qed.
End heap.
