(* ===== verification/SpaceSavingCount.v ===== *)
(** What the counts of the sketch of [SpaceSaving] say about the stream: the
    frequent elements are all reported, the guaranteed ones are frequent.

    [f] is the number of times each element was added, [n] the total. *)
From Stdlib Require Import ZArith Lia List Bool.
From Stdlib Require Import Floats.SpecFloat.
From stdpp Require Import prelude gmap.
From S2P Require Import Prelude.
From S2P Require Import Double.
From S2P Require Import Rounding.
From S2P Require Import SketchesCorrect.
From S2P Require Import SpaceSaving.
From S2P Require Import SpaceSavingCorrect.

(** ** Comparisons of counts with a threshold *)

Lemma of_bits_sf_ok b : of_bits b <> S754_nan -> sf_ok (of_bits b).
Proof.
  intros Hn. unfold of_bits in *. assert (0 <= mantissa_of b < 2 ^ 52) by (apply Z.mod_pos_bound; lia).
  assert (0 <= exponent_of b < 2048) by (apply Z.mod_pos_bound; lia).
  destruct (Z.eqb_spec (exponent_of b) 2047); [by destruct (mantissa_of b =? 0)|].
  destruct (Z.eqb_spec (exponent_of b) 0) as [E2|E2].
  - destruct (mantissa_of b) as [|p|p]; [done| |lia]. left. lia.
  - destruct (mantissa_of b + 2 ^ 52) as [|p|p] eqn:E; [lia| |lia]. right. lia.
Qed.

Lemma has_value_ok f v : has_value f v -> sf_ok f.
Proof. destruct f as [[]| | |[]]; cbn; try done. tauto. Qed.

Lemma nan_cases f : f = S754_nan \/ f <> S754_nan.
Proof. destruct f; by (left + right). Qed.

(** [count >= threshold] *)
Definition d_ge (a b : Z) : bool := d_gt a b || d_eq a b.

Lemma d_ge_key a b : sf_ok (of_bits a) -> sf_ok (of_bits b) -> d_ge a b = (sf_key (of_bits b) <=? sf_key (of_bits a)).
Proof.
  intros Ha Hb. unfold d_ge, d_gt, d_eq, SFltb, SFeqb. rewrite (SFcompare_key _ _ Hb Ha), (SFcompare_key _ _ Ha Hb).
  generalize (sf_key (of_bits a)) (sf_key (of_bits b)). intros x y. unfold Z.leb. rewrite (Z.compare_antisym y x).
  by destruct (y ?= x).
Qed.
Lemma d_ge_nan a t : of_bits t = S754_nan -> d_ge a t = false.
Proof. intros E. unfold d_ge, d_gt, d_eq. rewrite E. by destruct (of_bits a). Qed.
Lemma key_mono f g v w : has_value f v -> has_value g w -> v <= w -> sf_key f <= sf_key g.
Proof.
  intros Hf Hg Hvw. pose proof (has_value_compare f g v w Hf Hg) as Hc.
  rewrite (SFcompare_key f g (has_value_ok _ _ Hf) (has_value_ok _ _ Hg)) in Hc. injection Hc as Hc.
  clear Hf Hg. revert Hc. generalize (sf_key f) (sf_key g). intros x y Hc. unfold Z.le in *. by rewrite Hc.
Qed.

Lemma d_ge_mono a b t v w : denotes a v -> denotes b w -> v <= w -> d_ge a t = true -> d_ge b t = true.
Proof.
  intros Ha Hb Hvw. destruct (nan_cases (of_bits t)) as [Et|Et]; [rewrite (d_ge_nan a t Et); discriminate|].
  pose proof (of_bits_sf_ok t Et) as Ht.
  rewrite (d_ge_key a t (has_value_ok _ _ Ha) Ht), (d_ge_key b t (has_value_ok _ _ Hb) Ht), !Z.leb_le.
  etransitivity; [eassumption|]. exact (key_mono _ _ _ _ Ha Hb Hvw).
Qed.

Lemma denotes_ge a b v w : denotes a v -> denotes b w -> w <= v -> d_ge a b = true.
Proof.
  intros Ha Hb H. rewrite (d_ge_key a b (has_value_ok _ _ Ha) (has_value_ok _ _ Hb)). apply Z.leb_le.
  exact (key_mono _ _ _ _ Hb Ha H).
Qed.

(** The doubles of the 64-bit integers *)
Lemma count_denotes z : 0 <= z < 2 ^ 64 -> exists v, denotes (d_of_int z) v /\ v = rnd (z * 2 ^ 2200) 1.
Proof.
  intros Hz. exists (rnd (z * 2 ^ 2200) 1). split; [|done]. apply denotes_of_int; [lia|].
  pose proof (rnd_mono (z * 2 ^ 2200) 1 (2 ^ 64 * 2 ^ 2200) 1 ltac:(lia) ltac:(lia)) as H.
  pose proof (rnd_exact 1 (64 + 2200) ltac:(lia) ltac:(lia)) as E. rewrite Z.mul_1_l, Z.pow_add_r in E by lia.
  rewrite E in H. pose proof scale_pos. specialize (H ltac:(nia) ltac:(nia)).
  eapply Z.le_lt_trans; [exact H|]. rewrite (Z.pow_add_r 2 1024) by lia. apply Z.mul_lt_mono_pos_r; [done|]. reflexivity.
Qed.

Section reach.
Context {T : Type}.
Implicit Types (s : space_saving T).

Lemma reaches_mono s a b : 0 <= a -> a <= b -> b < 2 ^ 64 -> reaches a s = true -> reaches b s = true.
Proof.
  intros Ha Hab Hb. destruct (count_denotes a ltac:(lia)) as (v & Hv & Ev), (count_denotes b ltac:(lia)) as (w & Hw & Ew).
  apply (d_ge_mono _ _ _ v w); [done|done|]. subst. pose proof scale_pos. apply rnd_mono; nia.
Qed.
End reach.

(** ** Totals *)

Section count.
Context {T : Type} `{EqDecision T} (std_hash : T -> Z) (alloc : gset addr -> addr).
Hypothesis alloc_fresh : forall d, alloc d ∉ d.
Implicit Types (s : space_saving T) (e : heap_entry T) (m : gmap addr (T * Z * Z)) (f g : T -> Z).

Definition total m : Z := map_fold (fun _ (a : T * Z * Z) z => a.1.2 + z) 0 m.

Lemma total_insert m p a : m !! p = None -> total (<[p := a]> m) = a.1.2 + total m.
Proof. intros H. unfold total. apply (map_fold_insert_L (fun _ (a : T * Z * Z) z => a.1.2 + z)); [|done]. intros. lia. Qed.
Lemma total_delete m p a : m !! p = Some a -> total m = a.1.2 + total (delete p m).
Proof. intros H. rewrite <- (total_insert (delete p m) p a) by apply lookup_delete_eq. by rewrite insert_delete_id. Qed.
Lemma total_replace m p a b : m !! p = Some a -> total (<[p := b]> m) = total m + (b.1.2 - a.1.2).
Proof.
  intros H. rewrite (total_delete m p a H), (total_delete (<[p := b]> m) p b (lookup_insert_eq _ _ _)), delete_insert_eq. lia.
Qed.

Lemma total_at_least m x : (forall p a, m !! p = Some a -> x <= a.1.2) -> Z.of_nat (size m) * x <= total m.
Proof.
  induction m as [|p a m Hp IH] using map_ind; intros H; [done|].
  rewrite total_insert, map_size_insert_None by done.
  pose proof (H p a ltac:(apply lookup_insert_eq)). assert (Z.of_nat (size m) * x <= total m); [|lia].
  apply IH. intros q b Hq. apply (H q b). rewrite lookup_insert_ne; [done|]. congruence.
Qed.
Lemma total_nonneg m : (forall p a, m !! p = Some a -> 0 <= a.1.2) -> 0 <= total m.
Proof. intros H. pose proof (total_at_least m 0 H). lia. Qed.
Lemma count_le_total m p a : (forall p a, m !! p = Some a -> 0 <= a.1.2) -> m !! p = Some a -> a.1.2 <= total m.
Proof.
  intros H Hp. rewrite (total_delete m p a Hp). assert (0 <= total (delete p m)); [|lia].
  apply total_nonneg. intros q b Hq. apply lookup_delete_Some in Hq as [_ Hq]. by eapply H.
Qed.

(** ** Lower bounds *)

(** [f] after [c] occurrences of [t] *)
Definition occurs t (c : Z) f : T -> Z := fun u => f u + if decide (u = t) then c else 0.

Definition lower m f : Prop := forall p u c er, m !! p = Some (u, c, er) -> 0 <= er <= c /\ c - er <= f u.

Lemma lower_mono m f g : (forall u, f u <= g u) -> lower m f -> lower m g.
Proof. intros H Hl p u c er Hp. destruct (Hl p u c er Hp). specialize (H u). lia. Qed.
Lemma lower_counts m f : lower m f -> forall p a, m !! p = Some a -> 0 <= a.1.2.
Proof. intros H p [[u c] er] Hp. destruct (H p u c er Hp). cbn. lia. Qed.
Lemma lower_delete m f p : lower m f -> lower (delete p m) f.
Proof. intros H q u c er Hq. apply lookup_delete_Some in Hq as [_ Hq]. by eapply H. Qed.

Lemma lower_room m f n cnt err : lower m f -> total m <= n -> n + cnt < 2 ^ 64 -> 0 <= err <= cnt -> room m cnt err.
Proof.
  intros H Ht Hn He p u c er Hp. destruct (H p u c er Hp). split; [lia|].
  pose proof (count_le_total m p _ (lower_counts _ _ H) Hp) as Hc. cbn in Hc. lia.
Qed.

Lemma lower_added s t cnt err s' f : lower (tallies (entries s)) f -> (forall u, 0 <= f u) -> 0 <= err <= cnt ->
  added s t cnt err s' -> lower (tallies (entries s')) (occurs t (cnt - err) f).
Proof.
  intros H Hf Hc Ha q u c' er' Hq. unfold occurs.
  destruct Ha as [p c er Hp E _|p Hu _ Hp E _|p v c er Hu _ _ Hp E _]; rewrite E in Hq;
    (destruct (decide (q = p)) as [->|Hne]; [rewrite lookup_insert_eq in Hq; injection Hq as <- <- <-;
       rewrite decide_True by done|rewrite lookup_insert_ne in Hq by done;
       destruct (H q u c' er' Hq); case_decide; lia]).
  - destruct (H p t c er Hp). lia.
  - specialize (Hf t). lia.
  - specialize (Hf t). destruct (H p v c er Hp). lia.
Qed.

Lemma total_added s t cnt err s' : added s t cnt err s' -> total (tallies (entries s')) = total (tallies (entries s)) + cnt.
Proof.
  intros [p c er Hp E _|p _ _ Hp E _|p v c er _ _ _ Hp E _]; rewrite E.
  - rewrite (total_replace _ _ _ _ Hp). cbn. lia.
  - rewrite total_insert by done. cbn. lia.
  - rewrite (total_replace _ _ _ _ Hp). cbn. lia.
Qed.

(** ** The entries in the order of the heap *)

Definition listed (es : gmap addr (heap_entry T)) (h : list (option addr)) : list (addr * heap_entry T) :=
  omap (fun c => p ← c; e ← es !! p; Some (p, e)) h.

Lemma listed_positions es h k :
  (forall i, (i < length h)%nat -> exists p e, h !! i = Some (Some p) /\ es !! p = Some e /\ heap_position e = (k + i)%nat) ->
  heap_position <$> (listed es h).*2 = seq k (length h).
Proof.
  revert k. induction h as [|c h IH]; intros k H; [done|].
  destruct (H 0%nat ltac:(cbn; lia)) as (p & e & [= ->] & Ep & Eh). cbn. rewrite Ep. cbn. f_equal; [lia|].
  apply IH. intros i Hi. destruct (H (S i) ltac:(cbn; lia)) as (q & e' & F1 & F2 & F3). exists q, e'.
  split_and!; [done|done|lia].
Qed.

Lemma listed_spec s : ss_ok std_hash s ->
  NoDup (heap_position <$> (listed (entries s) (m_heap s)).*2) /\
  (forall p e, (p, e) ∈ listed (entries s) (m_heap s) <-> entries s !! p = Some e).
Proof.
  intros [[H1 H2 H3] _ _ _]. split.
  - destruct (m_heap s) as [|c h] eqn:Eh; [constructor|]. injection H1 as ->. cbn. fold (listed (entries s) h).
    rewrite (listed_positions _ h 1); [apply NoDup_seq|]. intros i Hi.
    destruct (H2 (S i) ltac:(cbn; lia)) as (p & e & F1 & F2 & F3). by exists p, e.
  - intros p e. unfold listed. rewrite list_elem_of_omap. split.
    + intros ([q|] & _ & E); [|done]. cbn in E. destruct (entries s !! q) eqn:Eq; [|done]. cbn in E. congruence.
    + intros E. exists (Some p). split; [by eapply list_elem_of_lookup_2, H3|]. cbn. by rewrite E.
Qed.

Lemma listed_elements s : ss_ok std_hash s -> NoDup (element <$> (listed (entries s) (m_heap s)).*2).
Proof.
  intros Hok. destruct (listed_spec s Hok) as [Hn Hl]. rewrite <- list_fmap_compose.
  apply NoDup_fmap_2_strong; [|by do 2 apply NoDup_fmap_1 in Hn].
  intros [p e] [q e'] Hp%Hl Hq%Hl E. cbn in E. pose proof (so_distinct _ _ Hok p q e e' Hp Hq E). congruence.
Qed.
Lemma listed_pointers s : ss_ok std_hash s -> NoDup (listed (entries s) (m_heap s)).*1.
Proof.
  intros Hok. destruct (listed_spec s Hok) as [Hn Hl].
  apply NoDup_fmap_2_strong; [|by do 2 apply NoDup_fmap_1 in Hn]. intros [p e] [q e'] Hp%Hl Hq%Hl. cbn. congruence.
Qed.

Lemma heap_pointers s p : ss_ok std_hash s -> Some p ∈ m_heap s -> is_Some (entries s !! p).
Proof.
  intros [[H1 H2 H3] _ _ _] [i Hi]%list_elem_of_lookup. destruct (H2 i) as (q & e & F1 & F2 & _).
  - split; [destruct i; [congruence|lia]|by eapply lookup_lt_Some].
  - rewrite Hi in F1. injection F1 as <-. by exists e.
Qed.

(** A loop over the heap is a loop over the entries. *)
Lemma listed_ofold {S} (body : heap_entry T -> S -> outcome S) s (st : S) : ss_ok std_hash s ->
  ofold (fun c st => match c with None => Ok st | Some p => e <-? load p s; body e st end) (m_heap s) st =
  ofold body (listed (entries s) (m_heap s)).*2 st.
Proof.
  intros Hok. pose proof (fun p => heap_pointers s p Hok) as Hall.
  revert st Hall. generalize (m_heap s) as h. induction h as [|[p|] h IH]; intros st Hall; [done| |].
  - destruct (Hall p ltac:(left)) as [e Ep]. cbn. rewrite Ep. unfold load. rewrite Ep. cbn.
    destruct (body e st) as [st'| |]; [|done|done]. cbn. apply IH. intros q Hq. apply Hall. by right.
  - cbn. apply IH. intros q Hq. apply Hall. by right.
Qed.

Lemma listed_total (Es : list (addr * heap_entry T)) : forall es f, lower (tallies es) f -> NoDup Es.*1 ->
  (forall p e, (p, e) ∈ Es -> es !! p = Some e) -> foldr Z.add 0 (count <$> Es.*2) <= total (tallies es).
Proof.
  induction Es as [|[p e] Es IH]; intros es f Hl Hn H.
  - apply total_nonneg. by apply (lower_counts _ f).
  - apply NoDup_cons in Hn as [Hp Hn]. pose proof (H p e ltac:(left)) as E. cbn.
    rewrite (total_delete (tallies es) p (tally e)) by (by rewrite tallies_lookup, E). cbn.
    unfold tallies. rewrite <- fmap_delete. apply Z.add_le_mono_l. eapply (IH (delete p es) f); [|done|].
    + unfold tallies. rewrite fmap_delete. by apply lower_delete.
    + intros q e' Hq. rewrite lookup_delete_ne; [apply H; by right|]. intros ->. apply Hp.
      apply list_elem_of_fmap. by exists (q, e').
Qed.

(** What [frequent_items] and [guaranteed_frequent_items] return *)
Lemma collected_items (keep : heap_entry T -> bool) s : ss_ok std_hash s ->
  exists items, collect keep s = Ok items /\ NoDup items.*1 /\
    forall t c, (t, c) ∈ items <-> exists p e, entries s !! p = Some e /\ keep e = true /\ element e = t /\ count e = c.
Proof.
  intros Hok. pose proof (listed_elements s Hok) as Hn. destruct (listed_spec s Hok) as [_ Hl].
  set (L := (listed (entries s) (m_heap s)).*2) in *.
  exists ((fun e => (element e, count e)) <$> filter (fun e => keep e = true) L). split_and!.
  - unfold collect. pose (found := fun c : option addr => match c with
      | Some p => match entries s !! p with Some e => if keep e then [(element e, count e)] else [] | None => [] end
      | None => [] end).
    rewrite (otraverse_map _ found).
    2: { intros [p|] Hp; [|done]. destruct (heap_pointers s p Hok Hp) as [e Ep]. unfold load, found. by rewrite Ep. }
    cbn [omap_ok obind]. f_equal. subst L. generalize (m_heap s) as h. induction h as [|[p|] h IH]; [done| |exact IH].
    cbn [map concat]. rewrite IH. cbn [found listed omap list_omap mbind option_bind].
    destruct (entries s !! p) as [e|]; cbn [mbind option_bind fmap list_fmap app]; [|done].
    destruct (keep e) eqn:Ek; [rewrite filter_cons_True by done|rewrite filter_cons_False by (cbn; by rewrite Ek)]; reflexivity.
  - rewrite <- list_fmap_compose. cbn. eapply sublist_NoDup; [exact Hn|]. apply fmap_sublist, sublist_filter.
  - intros t c. rewrite list_elem_of_fmap. setoid_rewrite list_elem_of_filter. unfold L. setoid_rewrite list_elem_of_fmap. split.
    + intros (e & [= -> ->] & Hk & ([p e'] & -> & Hp%Hl)). by exists p, e'.
    + intros (p & e & E & Hk & <- & <-). exists e. split_and!; [done|done|]. exists (p, e). split; [done|]. by apply Hl.
Qed.

(** ** Safe states *)

Record safe s f : Prop := {
  sf_memory : ss_ok std_hash s;
  sf_lower : lower (tallies (entries s)) f;
  sf_total : total (tallies (entries s)) <= m_size s
}.

Lemma safe_size s f : safe s f -> 0 <= m_size s.
Proof.
  intros [_ H1 H2]. etransitivity; [apply (total_nonneg (tallies (entries s)))|exact H2]. by apply (lower_counts _ f).
Qed.
Lemma safe_mono s f g : (forall u, f u <= g u) -> safe s f -> safe s g.
Proof. intros H [H1 H2 H3]. split; [done|by apply (lower_mono _ f)|done]. Qed.
Lemma safe_capacity s f c : safe s f -> safe (with_capacity c s) f.
Proof. intros [[? ? ? ?] H2 H3]. split; [by split|done|done]. Qed.

Lemma safe_add s f t cnt err : safe s f -> (forall u, 0 <= f u) -> 0 <= err <= cnt -> 1 <= m_max_capacity s ->
  m_size s + cnt < 2 ^ 64 ->
  exists s', add_impl std_hash alloc t cnt err s = Ok s' /\ safe s' (occurs t (cnt - err) f) /\
    m_max_capacity s' = m_max_capacity s /\ m_size s' = m_size s + cnt /\ m_epsilon s' = m_epsilon s /\
    added s t cnt err s'.
Proof.
  intros Hs Hf Hc Hcap Hn. pose proof (safe_size s f Hs). destruct Hs as [H1 H2 H3].
  destruct (add_impl_spec std_hash alloc alloc_fresh s t cnt err) as (s' & E & Hok & E1 & E2 & E3 & Ha);
    [done|lia|lia|lia|by eapply lower_room|done|done|].
  exists s'. split_and!; [done| |done|done|done|done]. split; [done|by eapply lower_added|].
  rewrite (total_added _ _ _ _ _ Ha), E2. lia.
Qed.

(** Deleting entries *)
Lemma safe_deletions f k : forall lo s, safe s f -> (k < length (m_heap s))%nat ->
  exists s', ofold (fun _ s => delete_heap_top std_hash s) (seq lo k) s = Ok s' /\ safe s' f /\
    m_max_capacity s' = m_max_capacity s /\ m_size s' = m_size s /\ m_epsilon s' = m_epsilon s /\
    (length (m_heap s') + k = length (m_heap s))%nat.
Proof.
  induction k as [|k IH]; intros lo s Hs Hk; [exists s; split_and!; try done; lia|].
  destruct Hs as [H1 H2 H3].
  destruct (delete_heap_top_spec std_hash s H1) as (s1 & p & E & Hok & E1 & E2 & E3 & E4 & Et); [lia|].
  assert (safe s1 f) as Hs1.
  { split; [done|rewrite Et; by apply lower_delete|]. rewrite Et, E2. etransitivity; [|exact H3].
    destruct (tallies (entries s) !! p) as [[[u c] er]|] eqn:Ep; [|by rewrite delete_id].
    rewrite (total_delete _ _ _ Ep). destruct (H2 p u c er Ep). cbn. lia. }
  destruct (IH (S lo) s1 Hs1) as (s' & E' & Hs' & F1 & F2 & F3 & F4); [lia|].
  exists s'. cbn [seq ofold]. rewrite E. cbn [obind]. split_and!; [done|done|congruence..|lia].
Qed.

Lemma counts_nonneg (Es : list (heap_entry T)) : (forall e, e ∈ Es -> 0 <= count e) -> 0 <= foldr Z.add 0 (count <$> Es).
Proof.
  induction Es as [|e Es IH]; intros H; [done|]. cbn. pose proof (H e ltac:(left)).
  assert (0 <= foldr Z.add 0 (count <$> Es)); [|lia]. apply IH. intros. apply H. by right.
Qed.

(** Adding the entries of another sketch: each element gains what its entry is
    sure of. *)
Lemma safe_additions (Es : list (heap_entry T)) : forall s f F, safe s f -> (forall u, 0 <= f u <= F u) ->
  (forall e, e ∈ Es -> 0 <= error e <= count e /\ f (element e) + (count e - error e) <= F (element e)) ->
  NoDup (element <$> Es) -> 1 <= m_max_capacity s -> m_size s + foldr Z.add 0 (count <$> Es) < 2 ^ 64 ->
  exists s', ofold (fun e s => add_impl std_hash alloc (element e) (count e) (error e) s) Es s = Ok s' /\ safe s' F /\
    m_max_capacity s' = m_max_capacity s /\ m_size s' = m_size s + foldr Z.add 0 (count <$> Es) /\
    m_epsilon s' = m_epsilon s /\
    Z.of_nat (length (m_heap s')) <= Z.max (Z.of_nat (length (m_heap s))) (m_max_capacity s + 1).
Proof.
  induction Es as [|e Es IH]; intros s f F Hs Hf He Hn Hcap Hsize.
  { exists s. cbn. split_and!; [done| |done|lia|done|lia]. eapply safe_mono; [|exact Hs]. intros u. apply Hf. }
  cbn [fmap list_fmap foldr] in *. apply NoDup_cons in Hn as [Hne Hn].
  assert (0 <= foldr Z.add 0 (count <$> Es)) as Hpos.
  { apply counts_nonneg. intros e' He'. destruct (He e' ltac:(by right)). lia. }
  destruct (He e ltac:(left)) as [He1 He2].
  destruct (safe_add s f (element e) (count e) (error e)) as (s1 & E & Hs1 & E1 & E2 & E3 & Ha);
    [done|intros u; apply Hf|done|done|lia|].
  destruct (IH s1 (occurs (element e) (count e - error e) f) F) as (s' & E' & Hs' & F1 & F2 & F3 & F4); [done| | |done|lia|lia|].
  - intros u. specialize (Hf u). unfold occurs. case_decide; [subst; lia|lia].
  - intros e' He'. destruct (He e' ltac:(by right)) as [H1 H2]. split; [done|]. unfold occurs.
    rewrite decide_False; [lia|]. intros Ee. apply Hne. rewrite <- Ee. apply list_elem_of_fmap. by exists e'.
  - exists s'. cbn [ofold]. rewrite E. cbn [obind]. split_and!; [done|done|congruence|lia|congruence|].
    rewrite E1 in F4. destruct Ha; lia.
Qed.

Definition fits s : Prop := Z.of_nat (length (m_heap s)) <= m_max_capacity s + 1.

Lemma safe_combine s o f g : safe s f -> safe o g -> (forall u, 0 <= f u) -> (forall u, 0 <= g u) ->
  1 <= m_max_capacity s < 2 ^ 62 -> 1 <= m_max_capacity o < 2 ^ 62 -> m_size s + m_size o < 2 ^ 64 ->
  fits s ->
  exists s', combine std_hash alloc o s = Ok s' /\ safe s' (fun u => f u + g u) /\ fits s' /\
    m_max_capacity s' = m_max_capacity s /\ m_size s <= m_size s' <= m_size s + m_size o /\ m_epsilon s' = m_epsilon s.
Proof.
  intros Hs Ho Hf Hg Hcs Hco Hn Hfit. pose proof (safe_size _ _ Hs). pose proof (safe_size _ _ Ho). unfold fits in *.
  pose proof (sf_memory _ _ Ho) as Hok. unfold combine. cbv zeta. rewrite wrap_small by (split; lia).
  rewrite (listed_ofold (fun e s => add_impl std_hash alloc (element e) (count e) (error e) s)) by done.
  set (Es := (listed (entries o) (m_heap o)).*2).
  pose proof (listed_total (listed (entries o) (m_heap o)) _ _ (sf_lower _ _ Ho) (listed_pointers o Hok)
    (fun p e => proj1 (proj2 (listed_spec o Hok) p e))) as Htot. fold Es in Htot. pose proof (sf_total _ _ Ho).
  assert (forall e, e ∈ Es -> 0 <= error e <= count e /\ count e - error e <= g (element e)) as HEs.
  { intros e He. apply list_elem_of_fmap in He as ([p e'] & -> & Hp%(listed_spec o Hok)). cbn in *.
    apply (sf_lower _ _ Ho p). by rewrite tallies_lookup, Hp. }
  destruct (safe_additions Es (with_capacity (m_max_capacity s + m_max_capacity o) s) f (fun u => f u + g u))
    as (s1 & -> & Hs1 & E1 & E2 & E3 & E4).
  - by apply safe_capacity.
  - intros u. specialize (Hf u). specialize (Hg u). lia.
  - intros e He. destruct (HEs e He). split; [done|lia].
  - by apply listed_elements.
  - cbn. lia.
  - cbn. lia.
  - cbn [obind m_max_capacity m_size m_epsilon m_heap with_capacity] in *. rewrite E1.
    assert (0 <= foldr Z.add 0 (count <$> Es)) as Hpos.
    { apply counts_nonneg. intros e He. destruct (HEs e He). lia. }
    replace (m_max_capacity s + m_max_capacity o - m_max_capacity o) with (m_max_capacity s) by lia.
    rewrite (wrap_small 64 (m_max_capacity s)), (wrap_small 64 (m_max_capacity s + 1)) by (split; lia).
    set (s2 := with_capacity (m_max_capacity s) s1). assert (safe s2 (fun u => f u + g u)) as Hs2 by by apply safe_capacity.
    destruct (Z.leb_spec (Z.of_nat (length (m_heap s1))) (m_max_capacity s + 1)) as [Hle|Hgt].
    + exists s2. split_and!; try done; cbn; lia.
    + destruct (safe_deletions _ (Z.to_nat (Z.of_nat (length (m_heap s1)) - m_max_capacity s)) 0 s2 Hs2)
        as (s' & E & Hs' & F1 & F2 & F3 & F4); [cbn; lia|].
      exists s'. cbn [m_max_capacity m_size m_epsilon m_heap s2 with_capacity] in *.
      rewrite wrap_small by (split; lia). split_and!; try done; lia.
Qed.

(** ** The sketches a program builds *)

Lemma initial_ok c eps : ss_ok std_hash (mk ∅ [None] ∅ c 0 eps).
Proof.
  split; cbn.
  - split; [done| |]; cbn; [lia|done].
  - intros i. cbn. lia.
  - intros hv. exists []. rewrite lookup_empty. split; [done|]. split; [constructor|]. intros p. rewrite elem_of_nil.
    split; [done|]. by intros (_ & e & E & _).
  - done.
Qed.

Lemma new_spec eps c : capacity_of eps = Ok c -> new (T := T) eps = Ok (mk ∅ [None] ∅ c 0 eps).
Proof. intros E. unfold new, initialize. by rewrite E. Qed.

Lemma initial_safe c eps : safe (mk ∅ [None] ∅ c 0 eps) (fun _ => 0).
Proof. split; [apply initial_ok|by intros p u n er|done]. Qed.

(** The sketches of the streams with the occurrences [f] and the length [n] *)
Inductive built : space_saving T -> (T -> Z) -> Z -> Prop :=
| built_new eps s : new eps = Ok s -> 1 <= m_max_capacity s < 2 ^ 62 -> built s (fun _ => 0) 0
| built_add s f n t c s' : built s f n -> 0 <= c -> n + c < 2 ^ 64 -> add std_hash alloc t c s = Ok s' ->
    built s' (occurs t c f) (n + c)
| built_combine s f n o g k s' : built s f n -> built o g k -> n + k < 2 ^ 64 -> combine std_hash alloc o s = Ok s' ->
    built s' (fun u => f u + g u) (n + k).

Record sound s f (n : Z) : Prop := {
  sn_safe : safe s f;
  sn_fits : fits s;
  sn_capacity : 1 <= m_max_capacity s < 2 ^ 62;
  sn_size : m_size s <= n;
  sn_bounds u : 0 <= f u <= n;
  sn_length : 0 <= n < 2 ^ 64
}.

Lemma sound_add s f n t c : sound s f n -> 0 <= c -> n + c < 2 ^ 64 ->
  exists s', add std_hash alloc t c s = Ok s' /\ sound s' (occurs t c f) (n + c) /\ added s t c 0 s' /\
    m_size s' = m_size s + c /\ m_max_capacity s' = m_max_capacity s /\ m_epsilon s' = m_epsilon s.
Proof.
  intros [H1 H2 H3 H4 H5 H6] Hc Hn. pose proof (safe_size _ _ H1).
  destruct (safe_add s f t c 0) as (s' & E & Hs & E1 & E2 & E3 & Ha); [done|intros u; apply H5|lia|lia|lia|].
  rewrite Z.sub_0_r in Hs. exists s'. split; [done|]. split; [|done]. split; [done| |lia|lia| |lia].
  - unfold fits in *. destruct Ha; lia.
  - intros u. specialize (H5 u). unfold occurs. case_decide; lia.
Qed.

Lemma sound_combine s f n o g k : sound s f n -> sound o g k -> n + k < 2 ^ 64 ->
  exists s', combine std_hash alloc o s = Ok s' /\ sound s' (fun u => f u + g u) (n + k).
Proof.
  intros [H1 H2 H3 H4 H5 H6] [G1 G2 G3 G4 G5 G6] Hn.
  destruct (safe_combine s o f g H1 G1) as (s' & E & Hs & Hf & E1 & E2 & E3); [intros u; apply H5|intros u; apply G5|done|done|lia|done|].
  exists s'. split; [done|]. split; [done|done|lia|lia| |lia]. intros u. specialize (H5 u). specialize (G5 u). lia.
Qed.

Lemma built_sound s f n : built s f n -> sound s f n.
Proof.
  induction 1 as [eps s E Hc|s f n t c s' _ IH Hc Hn E|s f n o g k s' _ IH _ IH' Hn E].
  - unfold new, initialize in E. destruct (capacity_of eps) as [c| |]; [|done|done]. injection E as <-. cbn in Hc.
    split; [apply initial_safe|unfold fits; cbn; lia|done|done|lia|lia].
  - destruct (sound_add s f n t c IH Hc Hn) as (s1 & E1 & Hs & _). congruence.
  - destruct (sound_combine s f n o g k IH IH' Hn) as (s1 & E1 & Hs). congruence.
Qed.

(** What the entry of an element is sure of, the element has. *)
Lemma sound_guaranteed s f n : sound s f n -> exists items, guaranteed_frequent_items s = Ok items /\ NoDup items.*1 /\
  forall t c, (t, c) ∈ items -> reaches (f t) s = true /\ 0 <= c <= m_size s.
Proof.
  intros [H1 H2 H3 H4 H5 H6]. destruct H1 as [Hok Hl Ht].
  destruct (collected_items (fun e => reaches (u64 (count e - error e)) s) s Hok) as (items & E & Hn & Hi).
  exists items. split_and!; [done|done|]. intros t c (p & e & Ep & Hk & <- & <-)%Hi.
  assert (tallies (entries s) !! p = Some (tally e)) as Ep' by (by rewrite tallies_lookup, Ep).
  destruct (Hl p _ _ _ Ep') as [He1 He2]. pose proof (count_le_total _ p _ (lower_counts _ _ Hl) Ep') as Hc. cbn in Hc.
  split; [|lia]. specialize (H5 (element e)). rewrite wrap_small in Hk by (split; lia).
  eapply reaches_mono; [| | |exact Hk]; lia.
Qed.

(** ** One stream *)

(** If [x] is positive, the sketch is full and no count is below [x]. *)
Definition floor s (x : Z) : Prop := 0 < x ->
  m_max_capacity s < Z.of_nat (length (m_heap s)) /\ forall p a, tallies (entries s) !! p = Some a -> x <= a.1.2.

Record exact s f (n : Z) : Prop := {
  ex_sound : sound s f n;
  ex_size : m_size s = n;
  ex_total : total (tallies (entries s)) = n;
  ex_length : length (m_heap s) = S (size (tallies (entries s)));
  ex_tracked p u c er : tallies (entries s) !! p = Some (u, c, er) -> f u <= c /\ floor s er;
  ex_untracked u : untracked (tallies (entries s)) u -> floor s (f u)
}.

Lemma floor_bound s f n x : exact s f n -> floor s x -> x * m_max_capacity s <= n.
Proof.
  intros H Hx. pose proof (sn_capacity _ _ _ (ex_sound _ _ _ H)). pose proof (sn_length _ _ _ (ex_sound _ _ _ H)).
  destruct (Z.lt_ge_cases 0 x) as [Hp|Hn]; [|nia]. destruct (Hx Hp) as [Hfull Hc].
  pose proof (total_at_least _ x Hc) as Ht. rewrite (ex_total _ _ _ H) in Ht. rewrite (ex_length _ _ _ H) in Hfull. nia.
Qed.

Lemma floor_added s t c s' x : added s t c 0 s' -> 0 <= c -> m_max_capacity s' = m_max_capacity s -> floor s x -> floor s' x.
Proof.
  intros Ha Hc Hcap Hx Hp. destruct (Hx Hp) as [Hf Ht].
  assert (forall p a b, tallies (entries s) !! p = Some a -> a.1.2 <= b.1.2 ->
    tallies (entries s') = <[p := b]> (tallies (entries s)) -> forall q d, tallies (entries s') !! q = Some d -> x <= d.1.2) as Hup.
  { intros p a b Hpa Hab E q d. rewrite E. destruct (decide (q = p)) as [->|Hne].
    - rewrite lookup_insert_eq. intros [= <-]. specialize (Ht p a Hpa). lia.
    - rewrite lookup_insert_ne by done. apply Ht. }
  destruct Ha as [p n er Hpa E El|p _ Hnf _ _ _|p u n er _ _ _ Hpa E El]; [|lia|].
  - rewrite El, Hcap. split; [done|]. by eapply Hup; [exact Hpa| |exact E]; cbn; lia.
  - rewrite El, Hcap. split; [done|]. by eapply Hup; [exact Hpa| |exact E]; cbn; lia.
Qed.

Lemma occurs_ne t c f u : u <> t -> occurs t c f u = f u.
Proof. intros H. unfold occurs. rewrite decide_False by done. lia. Qed.
Lemma occurs_eq t c f : occurs t c f t = f t + c.
Proof. unfold occurs. by rewrite decide_True. Qed.

Lemma exact_tracked s f n t c s' : exact s f n -> added s t c 0 s' -> 0 <= c -> m_max_capacity s' = m_max_capacity s ->
  forall p u d er, tallies (entries s') !! p = Some (u, d, er) -> occurs t c f u <= d /\ floor s' er.
Proof.
  intros H Ha Hc Hcap q u d er Hq. pose proof (fun x => floor_added s t c s' x Ha Hc Hcap) as Hfl.
  pose proof (sf_memory _ _ (sn_safe _ _ _ (ex_sound _ _ _ H))) as Hok.
  assert (forall r a, tallies (entries s) !! r = Some a -> exists e, entries s !! r = Some e /\ a = tally e) as Hent.
  { intros r a Hr. rewrite tallies_lookup in Hr. apply fmap_Some in Hr as (e & E & ->). by exists e. }
  destruct Ha as [p k er0 Hp E _|p Hu Hnf Hp E _|p w k er0 Hu Hf H1 Hp E El]; rewrite E in Hq;
    (destruct (decide (q = p)) as [->|Hne];
      [rewrite lookup_insert_eq in Hq; injection Hq as <- <- <-; rewrite occurs_eq
      |rewrite lookup_insert_ne in Hq by done; destruct (ex_tracked _ _ _ H q u d er Hq) as [G1 G2];
       split; [rewrite occurs_ne; [done|]|by apply Hfl]]).
  - destruct (ex_tracked _ _ _ H p t k er0 Hp) as [G1 G2]. split; [lia|]. apply Hfl. by rewrite Z.add_0_r.
  - intros ->. destruct (Hent q _ Hq) as (e & Ee & Ed), (Hent p _ Hp) as (e' & Ee' & Ed').
    apply Hne. apply (so_distinct _ _ Hok q p e e' Ee Ee'). unfold tally in *. congruence.
  - split; [|intros ?; lia]. pose proof (ex_untracked _ _ _ H t Hu) as Hx. destruct (Z.lt_ge_cases 0 (f t)) as [Hp'|]; [|lia].
    destruct (Hx Hp'). lia.
  - intros ->. by destruct (Hu q _ Hq).
  - assert (floor s k) as Hk.
    { intros _. split; [done|]. intros r a Hr. destruct (Hent r a Hr) as (e & Ee & ->).
      destruct (heap_first_tally _ s r e Hok Ee) as (p' & e' & F1 & F2 & F3). rewrite H1 in F1. injection F1 as <-.
      destruct (Hent p _ Hp) as (e'' & Ee'' & Ed). unfold tally in Ed. cbn. rewrite F2 in Ee''. injection Ee'' as <-. congruence. }
    split; [|apply Hfl; by rewrite Z.add_0_r]. pose proof (ex_untracked _ _ _ H t Hu) as Hx.
    destruct (Z.lt_ge_cases 0 (f t)) as [Hp'|Hp'].
    + destruct (Hx Hp') as [_ Hx2]. specialize (Hx2 p _ Hp). cbn in Hx2. lia.
    + destruct (sf_lower _ _ (sn_safe _ _ _ (ex_sound _ _ _ H)) p w k er0 Hp). lia.
  - intros ->. by destruct (Hu q _ Hq).
Qed.

Lemma exact_untracked s f n t c s' : exact s f n -> added s t c 0 s' -> 0 <= c -> m_max_capacity s' = m_max_capacity s ->
  forall u, untracked (tallies (entries s')) u -> floor s' (occurs t c f u).
Proof.
  intros H Ha Hc Hcap u Hu'. pose proof (fun x => floor_added s t c s' x Ha Hc Hcap) as Hfl.
  assert (u <> t) as Hut.
  { intros ->. destruct Ha as [p k er0 Hp E _|p Hu Hnf Hp E _|p w k er0 Hu Hf H1 Hp E El];
      eapply (Hu' p); [rewrite E; apply lookup_insert_eq|done|rewrite E; apply lookup_insert_eq|done|
      rewrite E; apply lookup_insert_eq|done]. }
  rewrite occurs_ne by done. apply Hfl.
  destruct Ha as [p k er0 Hp E _|p Hu Hnf Hp E _|p w k er0 Hu Hf H1 Hp E El].
  - apply (ex_untracked _ _ _ H). intros q a Hq. destruct (decide (q = p)) as [->|Hne].
    + rewrite Hp in Hq. injection Hq as <-. cbn. congruence.
    + apply (Hu' q a). by rewrite E, lookup_insert_ne.
  - apply (ex_untracked _ _ _ H). intros q a Hq. apply (Hu' q a). rewrite E, lookup_insert_ne; [done|]. congruence.
  - destruct (decide (u = w)) as [->|Huw].
    + destruct (ex_tracked _ _ _ H p w k er0 Hp) as [G1 G2]. intros Hpos. split; [done|]. intros q a Hq.
      pose proof (sf_memory _ _ (sn_safe _ _ _ (ex_sound _ _ _ H))) as Hok.
      rewrite tallies_lookup in Hq. apply fmap_Some in Hq as (e & Ee & ->). cbn.
      destruct (heap_first_tally _ s q e Hok Ee) as (p' & e' & F1 & F2 & F3). rewrite H1 in F1. injection F1 as <-.
      rewrite tallies_lookup, F2 in Hp. injection Hp as _ Ek _. lia.
    + apply (ex_untracked _ _ _ H). intros q a Hq. destruct (decide (q = p)) as [->|Hne].
      * rewrite Hp in Hq. injection Hq as <-. cbn. congruence.
      * apply (Hu' q a). by rewrite E, lookup_insert_ne.
Qed.

Lemma exact_add s f n t c : exact s f n -> 0 <= c -> n + c < 2 ^ 64 ->
  exists s', add std_hash alloc t c s = Ok s' /\ exact s' (occurs t c f) (n + c) /\
    m_max_capacity s' = m_max_capacity s /\ m_epsilon s' = m_epsilon s.
Proof.
  intros H Hc Hn. destruct (sound_add s f n t c (ex_sound _ _ _ H) Hc Hn) as (s' & E & Hs & Ha & E1 & E2 & E3).
  exists s'. split; [done|]. split; [|done]. split.
  - done.
  - rewrite E1. by rewrite (ex_size _ _ _ H).
  - rewrite (total_added _ _ _ _ _ Ha). by rewrite (ex_total _ _ _ H).
  - pose proof (ex_length _ _ _ H) as El. destruct Ha as [p k er0 Hp E' L|p Hu Hnf Hp E' L|p w k er0 Hu Hf H1 Hp E' L];
      rewrite L, E'; [rewrite map_size_insert_Some by (by eexists); done|by rewrite map_size_insert_None, El|
      rewrite map_size_insert_Some by (by eexists); done].
  - by apply (exact_tracked s f n t c).
  - by apply (exact_untracked s f n t c).
Qed.

Definition run (adds : list (T * Z)) s : outcome (space_saving T) :=
  ofold (fun x s => add std_hash alloc x.1 x.2 s) adds s.
Definition occurrences (adds : list (T * Z)) (t : T) : Z := weight (fun u => bool_decide (t = u)) adds.
Definition stream_length (adds : list (T * Z)) : Z := weight (fun _ => true) adds.

Lemma exact_ext s f g n : (forall u, f u = g u) -> exact s f n -> exact s g n.
Proof.
  intros E [[H1 H2 H3 H4 H5 H6] ? ? ? H7 H8]. split; try done.
  - split; try done; [|by intros u; rewrite <- E]. eapply safe_mono; [|done]. intros u. by rewrite E.
  - intros p u c er. rewrite <- E. apply H7.
  - intros u. rewrite <- E. apply H8.
Qed.

Lemma exact_run adds : forall s f n, exact s f n -> counted adds -> n + stream_length adds < 2 ^ 64 ->
  exists s', run adds s = Ok s' /\ exact s' (fun u => f u + occurrences adds u) (n + stream_length adds) /\
    m_max_capacity s' = m_max_capacity s /\ m_epsilon s' = m_epsilon s.
Proof.
  induction adds as [|[t c] adds IH]; intros s f n H Hadds Hn.
  { exists s. split; [done|]. cbn in *. rewrite Z.add_0_r. split; [|done]. eapply exact_ext; [|done]. intros. cbn. lia. }
  apply Forall_cons in Hadds as [Hc Hadds]. cbn in Hc. change (stream_length ((t, c) :: adds)) with (c + stream_length adds) in *.
  pose proof (weight_mono (fun _ => true) (fun _ => true) adds Hadds ltac:(done)) as Hpos.
  change (weight (fun _ => true) adds) with (stream_length adds) in Hpos.
  destruct (exact_add s f n t c H Hc ltac:(lia)) as (s1 & E1 & H1 & E2 & E3).
  destruct (IH s1 _ _ H1 Hadds ltac:(lia)) as (s' & E & H' & F2 & F3).
  exists s'. unfold run in *. cbn [ofold fst snd]. rewrite E1. cbn [obind]. split; [done|].
  split; [|split; congruence]. rewrite Z.add_assoc. eapply exact_ext; [|exact H']. intros u. unfold occurs, occurrences. cbn.
  fold (weight (fun x => bool_decide (u = x)) adds). destruct (decide (u = t)) as [e|e];
    [rewrite (bool_decide_eq_true_2 (u = t) e)|rewrite (bool_decide_eq_false_2 (u = t) e)]; lia.
Qed.

Lemma exact_new c eps : 1 <= c < 2 ^ 62 -> exact (mk ∅ [None] ∅ c 0 eps) (fun _ => 0) 0.
Proof.
  intros Hc. split; try done.
  split; cbn; [apply initial_safe|unfold fits; cbn; lia|done|done|lia|lia].
Qed.
End count.

(** ** The capacity *)

Lemma capacity_enough P W v q k : 0 < W -> P = 2 ^ 50 * W -> W <= v <= P -> P * P * (2 ^ 53 - 1) <= q * v * 2 ^ 53 ->
  q <= k * P -> P < (k + 1) * v.
Proof.
  intros HW -> Hv Hq Hk. set (P := 2 ^ 50 * W) in *.
  assert (q * v <= k * P * v) by nia. assert (P * (8 * P) <= P * (v * 2 ^ 53)) by (apply Z.mul_le_mono_nonneg_l; lia).
  assert (P * P * 2 ^ 53 < P * ((k + 1) * v) * 2 ^ 53) by nia. nia.
Qed.

Lemma scale_split : 2 ^ 2200 = 2 ^ 50 * 2 ^ 2150.
Proof. by rewrite <- Z.pow_add_r by lia. Qed.

(** The quotient [1.0 / epsilon] *)
Lemma inverse_spec eps v : denotes eps v -> 2 ^ 2150 <= v <= 2 ^ 2200 ->
  exists q, denotes (d_div (d_of_int 1) eps) q /\ 0 <= q <= 2 ^ 50 * 2 ^ 2200 /\
    2 ^ 2200 * 2 ^ 2200 * (2 ^ 53 - 1) <= q * v * 2 ^ 53.
Proof.
  intros Hv Hr. pose proof (denotes_of_small 1 ltac:(lia)) as H1.
  pose proof scale_pos as HP. pose proof (pow2_pos 2150 ltac:(lia)) as HW. pose proof scale_split as HS.
  assert (0 < v) as Hv0 by (eapply Z.lt_le_trans; [exact HW|apply Hr]).
  assert (rnd (1 * 2 ^ 2200 * 2 ^ 2200) v <= 2 ^ 50 * 2 ^ 2200) as Hq.
  { pose proof (rnd_exact 1 (50 + 2200) ltac:(lia) ltac:(lia)) as E. rewrite Z.mul_1_l, Z.pow_add_r in E by lia.
    rewrite <- E. clear E. apply rnd_mono; [exact Hv0|lia| |].
    - clear -HP. generalize dependent (2 ^ 2200). intros. nia.
    - destruct Hr as [Hr _]. revert HP HW HS Hr. generalize (2 ^ 2200) (2 ^ 2150). intros P W HP HW -> Hr. nia. }
  assert (2 ^ 1178 <= 1 * 2 ^ 2200 * 2 ^ 2200 / v) as Hbig.
  { apply Z.div_le_lower_bound; [exact Hv0|]. assert (2 ^ 1178 <= 2 ^ 2200) as Hle by (apply Z.pow_le_mono_r; lia).
    pose proof (pow2_pos 1178 ltac:(lia)) as Hp. destruct Hr as [_ Hr]. revert HP Hr Hle Hp.
    generalize (2 ^ 2200) (2 ^ 1178). intros P Q HP Hr Hle Hp. nia. }
  exists (rnd (1 * 2 ^ 2200 * 2 ^ 2200) v). split; [|split].
  - apply denotes_div; [exact H1|exact Hv|exact Hv0| |].
    + right. assert (2 ^ 1178 <= 2 ^ 2200) as Hle by (apply Z.pow_le_mono_r; lia). destruct Hr as [_ Hr].
      revert HP Hr Hle. generalize (2 ^ 2200) (2 ^ 1178). intros P Q HP Hr Hle. nia.
    + eapply Z.le_lt_trans; [exact Hq|]. apply small_below_max. lia.
  - split; [|exact Hq]. apply rnd_nonneg; [exact Hv0|]. clear -HP. generalize dependent (2 ^ 2200). intros. nia.
  - pose proof (rnd_error (1 * 2 ^ 2200 * 2 ^ 2200) v Hv0 Hbig) as [He _]. by rewrite Z.mul_1_l in He at 1.
Qed.

Lemma capacity_spec eps v : denotes eps v -> 2 ^ 2150 <= v <= 2 ^ 2200 ->
  exists c, capacity_of eps = Ok c /\ 1 <= c < 2 ^ 53 /\ 2 ^ 2200 < c * v.
Proof.
  intros Hv Hr. destruct (inverse_spec eps v Hv Hr) as (q & Hq & Hb & He).
  pose proof scale_pos as HP. pose proof (ceiling_spec q) as Hc.
  assert (q < (2 ^ 52 - 1) * 2 ^ 2200) as Hq2 by (clear -HP Hb; generalize dependent (2 ^ 2200); intros; nia).
  assert (0 <= ceiling q < 2 ^ 52) as Hk by (apply (quotient_bounds q (2 ^ 2200)); [exact HP|apply Hb|exact Hc|exact Hq2]).
  exists (ceiling q + 1). split_and!; [|lia|lia|].
  - unfold capacity_of. rewrite (denotes_to_size _ ((ceiling q + 1) * 2 ^ 2200)).
    + by rewrite Z.div_mul by (apply Z.neq_sym, Z.lt_neq, HP).
    + apply denotes_add_small; [|apply denotes_of_small; lia|lia|lia|lia]. apply denotes_ceil; [exact Hq|].
      clear -HP Hq2. generalize dependent (2 ^ 2200). intros. nia.
    + rewrite Z.div_mul by (apply Z.neq_sym, Z.lt_neq, HP). lia.
  - apply (capacity_enough _ (2 ^ 2150) v q); [apply pow2_pos; lia|exact scale_split|exact Hr|exact He|apply Hc].
Qed.

Lemma fraction_bound P v cap x n : 0 <= v -> 0 < x -> x * cap <= n -> P < cap * v -> v * n <= x * P -> False.
Proof. intros Hv Hx Hb Hcv Hf. assert (v * (x * cap) <= v * n) by nia. assert (x * P < x * (cap * v)) by nia. nia. Qed.

Lemma entry_of {T} `{EqDecision T} (s : space_saving T) t :
  (exists p e, entries s !! p = Some e /\ element e = t) \/ untracked (tallies (entries s)) t.
Proof.
  destruct (decide (map_Exists (fun _ e => element e = t) (entries s))) as [(p & e & E & Et)|Hn].
  - left. by exists p, e.
  - right. intros p a Ha. rewrite tallies_lookup in Ha. apply fmap_Some in Ha as (e & E & ->). cbn. intros Et.
    apply Hn. by exists p, e.
Qed.

(** A count that is at least the fraction reaches the threshold. *)
Lemma reaches_spec {T} (s : space_saving T) v c : denotes (m_epsilon s) v -> 0 <= m_size s < 2 ^ 53 -> 0 <= c < 2 ^ 53 ->
  v <= 2 ^ 2200 -> v * m_size s <= c * 2 ^ 2200 -> reaches c s = true.
Proof.
  intros Hv Hn Hc Hr Hle. pose proof scale_pos as HP. pose proof (has_value_nonneg _ _ Hv) as Hv0.
  assert (rnd (v * (m_size s * 2 ^ 2200)) (2 ^ 2200) <= c * 2 ^ 2200) as Hthr.
  { rewrite <- (rnd_small c Hc). apply rnd_mono; [exact HP|lia| |].
    - clear -HP Hv0 Hn. generalize dependent (2 ^ 2200). intros. apply Z.mul_nonneg_nonneg; [exact Hv0|nia].
    - clear -HP Hle. revert HP Hle. generalize (2 ^ 2200). intros P HP Hle. nia. }
  apply (denotes_ge _ _ (c * 2 ^ 2200) (rnd (v * (m_size s * 2 ^ 2200)) (2 ^ 2200))).
  - by apply denotes_of_small.
  - apply denotes_mul; [exact Hv|by apply denotes_of_small|]. eapply Z.le_lt_trans; [exact Hthr|]. by apply small_below_max.
  - exact Hthr.
Qed.

(** ** What the sketch promises *)

(** C21. However a sketch is built, by adding elements and by merging sketches, its
    memory is in order (the heap is ordered and its positions are right, every
    entry is in the list of its hash, no element has two entries), adding and
    merging never reach a null or freed entry, and every element that
    [guaranteed_frequent_items] returns did occur at least [epsilon] times the
    recorded size, which is not above the length of the stream. *)
Theorem space_saving_guaranteed {T} `{EqDecision T} (std_hash : T -> Z) (alloc : gset addr -> addr)
    (s : space_saving T) f n :
  (forall d, alloc d ∉ d) -> built std_hash alloc s f n ->
  ss_ok std_hash s /\ m_size s <= n /\
  (forall t c, 0 <= c -> n + c < 2 ^ 64 -> exists s', add std_hash alloc t c s = Ok s' /\ m_size s' = m_size s + c) /\
  (forall o g k, built std_hash alloc o g k -> n + k < 2 ^ 64 -> exists s', combine std_hash alloc o s = Ok s') /\
  exists items, guaranteed_frequent_items s = Ok items /\ NoDup items.*1 /\
    forall t c, (t, c) ∈ items -> reaches (f t) s = true.
Proof.
  intros Ha Hb. pose proof (built_sound _ _ Ha _ _ _ Hb) as Hs. split_and!.
  - apply (sf_memory _ _ _ (sn_safe _ _ _ _ Hs)).
  - apply (sn_size _ _ _ _ Hs).
  - intros t c Hc Hn. destruct (sound_add _ _ Ha s f n t c Hs Hc Hn) as (s' & E & _ & _ & E1 & _). by exists s'.
  - intros o g k Ho Hn.
    destruct (sound_combine _ _ Ha s f n o g k Hs (built_sound _ _ Ha _ _ _ Ho) Hn) as (s' & E & _). by exists s'.
  - destruct (sound_guaranteed _ s f n Hs) as (items & E & Hn & Hi). exists items. split_and!; [done|done|].
    intros t c Hc. by apply (Hi t c).
Qed.

Definition fresh_addr (d : gset addr) : addr := fresh d.
Definition half_bits : Z := 1022 * 2 ^ 52.

(** The state after a call that is known to return *)
Definition result {A} (d : A) (o : outcome A) : A := match o with Ok x => x | _ => d end.
Definition returns {A} (o : outcome A) : bool := match o with Ok _ => true | _ => false end.
Lemma returns_result {A} (d : A) o : returns o = true -> o = Ok (result d o).
Proof. by destruct o. Qed.

Definition sample_new : space_saving Z := result (mk ∅ [] ∅ 0 0 0) (new half_bits).
Definition sample_add (t c : Z) (s : space_saving Z) : space_saving Z := result s (add id fresh_addr t c s).
Definition sample_other : space_saving Z := sample_add 7 2 sample_new.
Definition sample_merged : space_saving Z :=
  let s := sample_add 4 1 (sample_add 7 5 sample_new) in result s (combine id fresh_addr sample_other s).

Lemma sample_built : built id fresh_addr sample_merged
  (fun u => occurs 4 1 (occurs 7 5 (fun _ => 0)) u + occurs 7 2 (fun _ => 0) u) (6 + 2).
Proof.
  assert (built id fresh_addr sample_new (fun _ => 0) 0) as B0.
  { apply (built_new _ _ half_bits); [apply returns_result; by vm_compute|by vm_compute]. }
  assert (forall s f n t c, built id fresh_addr s f n -> 0 <= c -> n + c < 2 ^ 64 ->
    built id fresh_addr (sample_add t c s) (occurs t c f) (n + c)) as Badd.
  { intros s f n t c B Hc Hn. apply (built_add _ _ s); [done|done|done|]. apply returns_result.
    destruct (sound_add id fresh_addr (fun d => is_fresh d) s f n t c) as (s' & -> & _);
      [by apply (built_sound id fresh_addr (fun d => is_fresh d))|done|done|]. reflexivity. }
  apply (built_combine _ _ (sample_add 4 1 (sample_add 7 5 sample_new)) _ (0 + 5 + 1) sample_other _ (0 + 2)).
  - apply Badd; [by apply Badd|lia|lia].
  - by apply Badd.
  - lia.
  - apply returns_result. by vm_compute.
Qed.

Lemma space_saving_guaranteed_witness :
  built id fresh_addr sample_merged (fun u => occurs 4 1 (occurs 7 5 (fun _ => 0)) u + occurs 7 2 (fun _ => 0) u) (6 + 2) /\
  guaranteed_frequent_items sample_merged = Ok [(7, 7)] /\ ss_ok id sample_merged.
Proof.
  split; [apply sample_built|]. split; [by vm_compute|].
  apply (space_saving_guaranteed id fresh_addr sample_merged _ _ (fun d => is_fresh d) sample_built).
Defined.

(** C20. For an [epsilon] from [2^-50] to 1 and a stream shorter than [2^53], every
    element that occurs and makes up the fraction [epsilon] of the stream is among
    the [frequent_items], each once; the reported count is not below the true one
    and exceeds it by at most the length of the stream over the capacity, which
    is above [1 / epsilon].  ([v] is [epsilon] in units of [2^-2200].) *)
Theorem space_saving_frequent {T} `{EqDecision T} (std_hash : T -> Z) (alloc : gset addr -> addr) eps v adds :
  (forall d, alloc d ∉ d) -> denotes eps v -> 2 ^ 2150 <= v <= 2 ^ 2200 -> counted adds ->
  stream_length adds < 2 ^ 53 ->
  exists (s0 s : space_saving T) cap items, new eps = Ok s0 /\ run std_hash alloc adds s0 = Ok s /\
    m_size s = stream_length adds /\ m_max_capacity s = cap /\ 2 ^ 2200 < cap * v /\
    frequent_items s = Ok items /\ NoDup items.*1 /\
    (forall t, 0 < occurrences adds t -> v * stream_length adds <= occurrences adds t * 2 ^ 2200 ->
      exists c, (t, c) ∈ items) /\
    (forall t c, (t, c) ∈ items -> occurrences adds t <= c /\ (c - occurrences adds t) * cap <= stream_length adds).
Proof.
  intros Ha Hv Hr Hadds Hlen. destruct (capacity_spec eps v Hv Hr) as (cap & Ecap & Hcap & Hcv).
  assert (1 <= cap < 2 ^ 62) as Hcap2 by (clear -Hcap; lia).
  assert (0 + stream_length adds < 2 ^ 64) as Hlen2 by (clear -Hlen; lia).
  destruct (exact_run std_hash alloc Ha adds _ _ _ (exact_new std_hash cap eps Hcap2) Hadds Hlen2) as (s & E & Hex & Em & Ee).
  cbn [m_max_capacity m_epsilon] in Em, Ee. rewrite Z.add_0_l in Hex.
  pose proof (ex_sound _ _ _ _ Hex) as Hs. pose proof (sn_safe _ _ _ _ Hs) as Hsafe.
  pose proof (ex_size _ _ _ _ Hex) as Hsize. pose proof (sn_length _ _ _ _ Hs) as Hn.
  destruct (collected_items std_hash (fun e => reaches (count e) s) s (sf_memory _ _ _ Hsafe)) as (items & Ei & Hnd & Hi).
  exists (mk ∅ [None] ∅ cap 0 eps), s, cap, items.
  split; [by apply new_spec|]. split; [exact E|]. split; [exact Hsize|]. split; [exact Em|]. split; [exact Hcv|].
  split; [exact Ei|]. split; [exact Hnd|]. split.
  - intros t Hpos Hfreq. destruct (entry_of s t) as [(p & e & Ep & Et)|Hu].
    + assert (tallies (entries s) !! p = Some (tally e)) as Ep' by (by rewrite tallies_lookup, Ep).
      destruct (ex_tracked _ _ _ _ Hex p _ _ _ Ep') as [Hle _]. rewrite Z.add_0_l, Et in Hle.
      pose proof (count_le_total _ p _ (lower_counts _ _ (sf_lower _ _ _ Hsafe)) Ep') as Hct.
      rewrite (ex_total _ _ _ _ Hex) in Hct. cbn in Hct.
      exists (count e). apply Hi. exists p, e. split_and!; [exact Ep| |exact Et|reflexivity].
      apply (reaches_spec s v); [by rewrite Ee|lia|lia|apply Hr|]. rewrite Hsize. etransitivity; [exact Hfreq|].
      apply Z.mul_le_mono_nonneg_r; [apply Z.lt_le_incl, scale_pos|exact Hle].
    + pose proof (floor_bound _ _ _ _ _ Hex (ex_untracked _ _ _ _ Hex t Hu)) as Hb. rewrite Em, Z.add_0_l in Hb.
      exfalso. exact (fraction_bound _ _ _ _ _ (has_value_nonneg _ _ Hv) Hpos Hb Hcv Hfreq).
  - intros t c (p & e & Ep & _ & <- & <-)%Hi.
    assert (tallies (entries s) !! p = Some (tally e)) as Ep' by (by rewrite tallies_lookup, Ep).
    destruct (ex_tracked _ _ _ _ Hex p _ _ _ Ep') as [Hle Hfl], (sf_lower _ _ _ Hsafe p _ _ _ Ep') as [He1 He2].
    rewrite Z.add_0_l in Hle, He2. split; [exact Hle|]. pose proof (floor_bound _ _ _ _ _ Hex Hfl) as Hb. rewrite Em in Hb.
    clear -Hb He2 Hcap. nia.
Qed.

Lemma half_denotes : denotes half_bits (2 ^ 2199).
Proof.
  change (canonical (2 ^ 52) (-53) /\ 2 ^ 2199 = Zpos (2 ^ 52) * 2 ^ (-53 + 2200)). split; [right; lia|].
  change (Zpos (2 ^ 52)) with (2 ^ 52). by rewrite <- Z.pow_add_r by lia.
Qed.

Lemma half_scale : 2 ^ 2200 = 2 * 2 ^ 2199.
Proof. by rewrite <- Z.pow_succ_r by lia. Qed.

Lemma space_saving_frequent_witness : exists s0 s cap items,
  new half_bits = Ok s0 /\ run id fresh_addr [(1, 4); (2, 1); (3, 1); (4, 2)] s0 = Ok s /\ m_max_capacity s = cap /\
  frequent_items s = Ok items /\ (exists c, (1, c) ∈ items).
Proof.
  destruct (space_saving_frequent id fresh_addr half_bits (2 ^ 2199) [(1, 4); (2, 1); (3, 1); (4, 2)] (fun d => is_fresh d))
    as (s0 & s & cap & items & E0 & E & _ & Em & _ & Ei & _ & Hfreq & _).
  - exact half_denotes.
  - split; apply Z.pow_le_mono_r; lia.
  - repeat constructor; cbn; lia.
  - reflexivity.
  - exists s0, s, cap, items. split; [exact E0|]. split; [exact E|]. split; [exact Em|]. split; [exact Ei|].
    apply Hfreq; [reflexivity|]. change (2 ^ 2199 * 8 <= 4 * 2 ^ 2200). rewrite (half_scale : 2 ^ 2200 = _).
    rewrite Z.mul_assoc, (Z.mul_comm (2 ^ 2199)). apply Z.le_refl.
Defined.

(** Merging adds nothing for the elements the other sketch no longer tracks: an
    element with 7 of the 13 occurrences is not reported at the fraction 1/2.  A
    merged sketch that was over its capacity is also cut to one entry less than
    the capacity. *)
Definition heavy : space_saving Z := sample_add 1 6 sample_new.
Definition light : space_saving Z := sample_add 4 2 (sample_add 3 2 (sample_add 2 2 (sample_add 1 1 sample_new))).
Definition merged : space_saving Z := result heavy (combine id fresh_addr light heavy).

Theorem combine_loses_frequent :
  combine id fresh_addr light heavy = Ok merged /\
  frequent_items merged = Ok [] /\ m_size merged = 13 /\ reaches 7 merged = true /\
  m_max_capacity merged = 3 /\ size (entries merged) = 2%nat.
Proof. split; [apply returns_result; by vm_compute|]. by vm_compute. Qed.
