(* ===== verification/Sort.v ===== *)
(** Sorting a frame: the model of [unity/query_process/sort.cpp],
    [sort_impl.hpp] and [le_sort.hpp].

    A frame that fits in memory is sorted at once.  Otherwise its rows are
    scattered by their keys to partitions, which are ordered among themselves, as
    the strings of their serialized cells; then each partition is read back,
    sorted and written to its segment of the result.

    Workers scatter in parallel.  [step i] is the next step of worker [i]; what a
    worker does under the mutex of a partition is one step, but for the flags
    [partition_sorted]: they are a [vector<bool>], which packs 64 flags in a word,
    and each partition has a mutex of its own, so that clearing a flag is a load
    and a store of the word with a possible step of another worker in between.  A
    schedule lists the workers in the order of their steps.

    [std::sort], the pivots (the quantiles of a sample of the keys) and the order
    in which the workers write the rows of different segments are arguments. *)
From Stdlib Require Import ZArith Lia List Bool.
From stdpp Require Import prelude list strings.
From S2P Require Import Prelude.
From S2P Require Import Double.
From S2P Require Import Archive.
From S2P Require Import FlexibleType.
From S2P Require Import FlexibleOps.
From S2P Require Import SFrame.
Import SFrame.

(** ** Comparators *)

Definition is_undefined (x : flexible_type) : bool := approx_equal x FUndefined.

(** One column of a comparison: [None] to go on with the next one *)
Definition less_column (ascending : bool) (x y : flexible_type) : outcome (option bool) :=
  if is_undefined x then
    if is_undefined y then Ok None else Ok (Some ascending)
  else if is_undefined y then Ok (Some (negb ascending))
  else
    lt <-? lt_operator x y;
    if (lt : bool) then Ok (Some ascending) else
    gt <-? gt_operator x y;
    if (gt : bool) then Ok (Some (negb ascending)) else Ok None.

(** [less_than_full_function::compare]: all the values, in order *)
Fixpoint compare_loop (sort_orders : list bool) (v1 v2 : row) : outcome bool :=
  match sort_orders with
  | [] => Ok false
  | ascending :: sort_orders =>
      match v1, v2 with
      | x :: v1, y :: v2 =>
          r <-? less_column ascending x y;
          match r with Some b => Ok b | None => compare_loop sort_orders v1 v2 end
      | _, _ => Undef
      end
  end.
Definition less_than_full (sort_orders : list bool) (v1 v2 : row) : outcome bool := compare_loop sort_orders v1 v2.

(** [less_than_partial_function]: the values of the sort columns *)
Fixpoint partial_loop (sort_columns : list nat) (sort_orders : list bool) (v1 v2 : row) : outcome bool :=
  match sort_columns with
  | [] => Ok false
  | column_idx :: sort_columns =>
      match sort_orders, v1 !! column_idx, v2 !! column_idx with
      | ascending :: sort_orders, Some x, Some y =>
          r <-? less_column ascending x y;
          match r with Some b => Ok b | None => partial_loop sort_columns sort_orders v1 v2 end
      | _, _, _ => Undef
      end
  end.
Definition less_than_partial (sort_columns : list nat) (sort_orders : list bool) (v1 v2 : row) : outcome bool :=
  partial_loop sort_columns sort_orders v1 v2.

(** [operator==] of vectors of values *)
Definition keys_equal (a b : row) : bool := list_eq_by approx_equal a b.

(** ** Scattering *)

(** The key of a row: its values at the first columns, as many as there are
    orders; the rest of [sort_keys] stays undefined. *)
Definition sort_keys (sort_columns : list nat) (sort_orders : list bool) (item : row) : outcome row :=
  let num_keys := length sort_orders in
  if (length sort_columns <? num_keys)%nat then Undef else
  keys <-? otraverse (fun c => of_option (item !! c)) (take num_keys sort_columns);
  Ok (keys ++ replicate (length sort_columns - num_keys) FUndefined).

Definition get_list (f : flexible_type) : outcome row := match f with FList l => Ok l | _ => Throws end.

(** The first partition whose key is not below the row's; the last one otherwise *)
Fixpoint find_partition (sort_orders : list bool) (keys : row) (i : nat) (partition_keys : list flexible_type)
    : outcome nat :=
  match partition_keys with
  | [] => Ok i
  | p :: partition_keys =>
      partition_key <-? get_list p;
      if keys_equal keys partition_key then Ok i else
      lt <-? less_than_full sort_orders keys partition_key;
      if (lt : bool) then Ok i else find_partition sort_orders keys (S i) partition_keys
  end.

Definition save_row (item : row) : Archive.writer := wfor save item.
Definition row_string (item : row) : outcome bytes := of_option (to_bytes save_row item).
Definition load_row (num_columns : nat) : reader row := rrepeat num_columns load.
Definition read_row (num_columns : nat) (s : bytes) : outcome row := of_option (of_bytes (load_row num_columns) s).

Record partition := mk_partition {
  first_sort_key : row;
  contents : list bytes;
  size_in_bytes : Z;
  size_in_rows : Z
}.

(** Where a worker is: before its next row, before the mutex of the flags, before
    the store of a flag, before the mutex of the output *)
Inductive phase :=
| Next
| AtFlag (item keys : row) (partition_id : nat)
| Storing (item : row) (partition_id : nat) (word : Z)
| AtOutput (item : row) (partition_id : nat).
Record worker := mk_worker { todo : list row; at_phase : phase }.
Record scatter := mk_scatter { partitions : list partition; flag_words : list Z; workers : list worker }.

Definition with_worker (i : nat) (w : worker) (st : scatter) : scatter :=
  mk_scatter (partitions st) (flag_words st) (<[i := w]> (workers st)).
Definition with_partition (p : nat) (q : partition) (st : scatter) : scatter :=
  mk_scatter (<[p := q]> (partitions st)) (flag_words st) (workers st).
Definition with_word (k : nat) (x : Z) (st : scatter) : scatter :=
  mk_scatter (partitions st) (<[k := x]> (flag_words st)) (workers st).

Definition flag_at (words : list Z) (p : nat) : outcome bool :=
  w <-? of_option (words !! (p / 64)%nat);
  Ok (Z.testbit w (Z.of_nat (p mod 64))).

(** [sorted_mutexes[p]] is held by a worker that is about to store a flag. *)
Definition holds_flag (p : nat) (w : worker) : bool :=
  match at_phase w with Storing _ q _ => (q =? p)%nat | _ => false end.
Definition flag_locked (p : nat) (st : scatter) : bool := existsb (holds_flag p) (workers st).

Section sort.
Context (std_sort : forall A, (A -> A -> outcome bool) -> list A -> outcome (list A)).
Context (sort_columns : list nat) (sort_orders : list bool).

Definition check_flag (i : nat) (w : worker) (item keys : row) (p : nat) (st : scatter) : outcome scatter :=
  if flag_locked p st then Ok st else
  q <-? of_option (partitions st !! p);
  sorted <-? flag_at (flag_words st) p;
  if (sorted : bool) then
    match first_sort_key q with
    | [] =>
        Ok (with_worker i (mk_worker (todo w) (AtOutput item p))
              (with_partition p (mk_partition keys (contents q) (size_in_bytes q) (size_in_rows q)) st))
    | first =>
        if keys_equal first keys then Ok (with_worker i (mk_worker (todo w) (AtOutput item p)) st)
        else
          word <-? of_option (flag_words st !! (p / 64)%nat);
          Ok (with_worker i (mk_worker (todo w) (Storing item p word)) st)
    end
  else Ok (with_worker i (mk_worker (todo w) (AtOutput item p)) st).

Definition write_output (i : nat) (w : worker) (item : row) (p : nat) (st : scatter) : outcome scatter :=
  s <-? row_string item;
  q <-? of_option (partitions st !! p);
  Ok (with_worker i (mk_worker (todo w) Next)
        (with_partition p
           (mk_partition (first_sort_key q) (contents q ++ [s])
              (u64 (size_in_bytes q + Z.of_nat (length s))) (u64 (size_in_rows q + 1))) st)).

Definition step (partition_keys : list flexible_type) (i : nat) (st : scatter) : outcome scatter :=
  w <-? of_option (workers st !! i);
  match at_phase w with
  | Next =>
      match todo w with
      | [] => Ok st
      | item :: rest =>
          keys <-? sort_keys sort_columns sort_orders item;
          p <-? find_partition sort_orders keys 0 partition_keys;
          Ok (with_worker i (mk_worker rest (AtFlag item keys p)) st)
      end
  | AtFlag item keys p => check_flag i w item keys p st
  | Storing item p word =>
      Ok (with_worker i (mk_worker (todo w) (AtOutput item p))
            (with_word (p / 64) (Z.clearbit word (Z.of_nat (p mod 64))) st))
  | AtOutput item p => write_output i w item p st
  end.

Definition finished (st : scatter) : bool :=
  forallb (fun w => match todo w, at_phase w with [], Next => true | _, _ => false end) (workers st).

(** All flags are set in the beginning. *)
Definition start (num_partitions : nat) (inputs : list (list row)) : scatter :=
  mk_scatter (replicate num_partitions (mk_partition [] [] 0 0))
    (replicate ((num_partitions + 63) / 64) (2 ^ 64 - 1))
    (map (fun rows => mk_worker rows Next) inputs).

(** A schedule that ends before all workers have is not one of the program. *)
Definition scatter_partition (partition_keys : list flexible_type) (inputs : list (list row)) (sched : list nat)
    : outcome scatter :=
  st <-? ofold (step partition_keys) sched (start (S (length partition_keys)) inputs);
  if finished st then Ok st else Undef.

Definition fudge_factor (t : flex_type_enum) : Z :=
  match t with STRING => 32 | INTEGER => 4 | FLOAT => 4 | _ => 0 end.
Definition fudge_factor_per_row (types : list flex_type_enum) : Z :=
  let f := foldr (fun t n => fudge_factor t + n) 0 types in if f <? 1 then 1 else f.
Definition partition_sizes (types : list flex_type_enum) (st : scatter) : list Z :=
  map (fun q => u64 (size_in_bytes q + u64 (size_in_rows q * fudge_factor_per_row types))) (partitions st).

(** ** Sorting the partitions *)

Definition sort_one_chunk (rows : list row) : outcome (list row) :=
  std_sort row (less_than_partial sort_columns sort_orders) rows.

(** What is written to the segment of a partition *)
Definition sort_segment (num_columns : nat) (sorted : bool) (q : partition) : outcome (list row) :=
  rows <-? otraverse (read_row num_columns) (contents q);
  if sorted then Ok rows else sort_one_chunk rows.

Definition sort_segments (num_columns : nat) (st : scatter) : outcome (list (list row)) :=
  otraverse (fun x => sorted <-? flag_at (flag_words st) x.1; sort_segment num_columns sorted x.2)
    (zip (seq 0 (length (partitions st))) (partitions st)).

Context (fmt_double : Z -> bytes) {ptime : Type} (time_t_epoch : ptime)
  (add_seconds : ptime -> Z -> ptime) (to_iso_string : ptime -> bytes).

Definition write_rows (ops : list (nat * row)) (w : SFrame.writer) : outcome SFrame.writer :=
  ofold (fun o w => write_move fmt_double time_t_epoch add_seconds to_iso_string o.1 o.2 w) ops w.

(** [eager_sort]: [interleave] is the order in which the rows of the segments
    reach the frame. *)
Definition eager_sort (interleave : list (list row) -> list (nat * row)) (sf : sframe) (st : scatter) : outcome sframe :=
  w <-? open_for_write (column_names sf) (column_types sf) (length (partitions st)) true;
  segs <-? sort_segments (num_columns sf) st;
  w <-? write_rows (interleave segs) w;
  Ok (close w).

Definition sort_sframe_in_memory (sf : sframe) : outcome sframe :=
  rows <-? omap_ok (@concat _) (get_reader_even sf 1);
  rows <-? sort_one_chunk rows;
  w <-? open_for_write (column_names sf) (column_types sf) 1 true;
  w <-? write_rows (map (pair 0%nat) rows) w;
  Ok (close w).
End sort.

(** ** The operation *)

Definition supported_type (t : flex_type_enum) : bool :=
  match t with STRING | INTEGER | FLOAT | DATETIME => true | _ => false end.

Fixpoint sort_column_indexes (sf : sframe) (names : list string) : outcome (list nat) :=
  match names with
  | [] => Ok []
  | n :: names =>
      i <-? column_index sf n;
      t <-? column_type sf i;
      if supported_type t then omap_ok (cons i) (sort_column_indexes sf names) else Throws
  end.

(** The number of partitions, from an estimate of 64 bytes per cell *)
Definition number_of_partitions (cpu_count buffer_size max_segments : Z) (sf : sframe) : outcome Z :=
  let cells := u64 (Z.of_nat (num_rows sf) * Z.of_nat (num_columns sf)) in
  estimated_sframe_size <-? of_option (d_to_size (d_mul (d_of_int cells) (d_of_int 64)));
  num_partitions <-? of_option (d_to_size (d_ceil (d_div (d_mul (d_of_int 1) (d_of_int estimated_sframe_size)) (d_of_int buffer_size))));
  Ok (Z.min (u64 (num_partitions * cpu_count)) max_segments).

Section operation.
Context (std_sort : forall A, (A -> A -> outcome bool) -> list A -> outcome (list A)).
Context (fmt_double : Z -> bytes) {ptime : Type} (time_t_epoch : ptime)
  (add_seconds : ptime -> Z -> ptime) (to_iso_string : ptime -> bytes).
Context (cpu_count buffer_size max_segments : Z).
(** [get_partition_keys], the schedule of the workers and the order of writing *)
Context (get_partition_keys : sframe -> list bool -> nat -> outcome (list flexible_type))
  (sched : list nat) (interleave : list (list row) -> list (nat * row)).

Definition sort (sf : sframe) (sort_column_names : list string) (sort_orders : list bool) : outcome sframe :=
  sort_columns <-? sort_column_indexes sf sort_column_names;
  num_partitions <-? number_of_partitions cpu_count buffer_size max_segments sf;
  if num_partitions <=? cpu_count then
    sort_sframe_in_memory std_sort sort_columns sort_orders fmt_double time_t_epoch add_seconds to_iso_string sf
  else
    keys <-? select_columns sf sort_column_names;
    partition_keys <-? get_partition_keys keys sort_orders (Z.to_nat num_partitions);
    inputs <-? get_reader_even sf (Z.to_nat cpu_count);
    st <-? scatter_partition sort_columns sort_orders partition_keys inputs sched;
    eager_sort std_sort sort_columns sort_orders fmt_double time_t_epoch add_seconds to_iso_string interleave sf st.
End operation.
