(* ===== verification/SortCorrect.v ===== *)
(** Sorting is correct: the result of [Sort.sort] holds the rows of the frame,
    ordered by their keys, whatever the pivots are and however the workers
    interleave, as long as no two of them update the same word of flags at a time
    (and otherwise it need not be ordered).

    The comparators are projections of one three-way comparison of keys.  The
    proofs about scattering follow every row from the input to its partition. *)
From Stdlib Require Import ZArith Lia List Bool Sorted.
From stdpp Require Import prelude list strings sorting.
From coqutil Require Import Byte.
From S2P Require Import Groupby.
From S2P Require Import Prelude.
From S2P Require Import Double.
From S2P Require Import Archive.
From S2P Require Import FlexibleType.
From S2P Require Import FlexibleOps.
From S2P Require Import SFrame.
From S2P Require Import SFrameCorrect.
From S2P Require Import Sort.
Import SFrame.

(** ** Three-way comparisons *)

(** A total preorder on the elements of [D] *)
Record preorder {A} (D : A -> Prop) (f : A -> A -> comparison) : Prop := {
  po_flip x y : D x -> D y -> f y x = CompOpp (f x y);
  po_trans x y z : D x -> D y -> D z -> f x y <> Gt -> f y z <> Gt -> f x z <> Gt
}.
Arguments po_flip {A D f}.
Arguments po_trans {A D f}.

Lemma po_refl {A} (D : A -> Prop) f x : preorder D f -> D x -> f x x = Eq.
Proof. intros H Hx. pose proof (po_flip H x x Hx Hx) as E. by destruct (f x x). Qed.
Lemma po_eq_l {A} (D : A -> Prop) f x y z : preorder D f -> D x -> D y -> D z -> f x y = Eq -> f x z = f y z.
Proof.
  intros H Hx Hy Hz E.
  assert (f y x = Eq) as E' by (rewrite (po_flip H x y), E by done; done).
  pose proof (po_trans H x y z Hx Hy Hz) as H1. pose proof (po_trans H y x z Hy Hx Hz) as H2.
  pose proof (po_trans H z x y Hz Hx Hy) as H3. pose proof (po_trans H z y x Hz Hy Hx) as H4.
  rewrite (po_flip H x z), (po_flip H y z) in H3, H4 by done. rewrite E in *. rewrite E' in *.
  destruct (f x z), (f y z); try done; exfalso; naive_solver.
Qed.

Definition by_order (ascending : bool) (c : comparison) : comparison := if ascending then c else CompOpp c.

Lemma preorder_by_order {A} (D : A -> Prop) f ascending : preorder D f -> preorder D (fun x y => by_order ascending (f x y)).
Proof.
  intros H. destruct ascending; [done|]. split; cbn.
  - intros x y Hx Hy. by rewrite (po_flip H x y).
  - intros x y z Hx Hy Hz. rewrite <- (po_flip H x y), <- (po_flip H y z), <- (po_flip H x z) by done.
    intros H1 H2. by apply (po_trans H z y x).
Qed.

Lemma preorder_Z {A} (D : A -> Prop) (k : A -> Z) : preorder D (fun x y => k x ?= k y).
Proof.
  split.
  - intros x y _ _. apply Z.compare_antisym.
  - intros x y z _ _ _. rewrite !Z.compare_gt_iff. lia.
Qed.

(** ** Values *)

(** What a column of a type that can be sorted holds: no NaN *)
Definition sortable (ty : flex_type_enum) (x : flexible_type) : Prop :=
  match x with
  | FUndefined => True
  | FInt _ => ty = INTEGER
  | FFloat b => ty = FLOAT /\ is_u 64 b /\ is_nan b = false
  | FString _ => ty = STRING
  | FDateTime _ => ty = DATETIME
  | _ => False
  end.

Fixpoint bytes_cmp (s t : bytes) : comparison :=
  match s, t with
  | [], [] => Eq
  | [], _ => Lt
  | _, [] => Gt
  | a :: s, b :: t =>
      match byte.unsigned a ?= byte.unsigned b with Eq => bytes_cmp s t | c => c end
  end.

(** Undefined values come first. *)
Definition value_cmp (x y : flexible_type) : comparison :=
  match x, y with
  | FUndefined, FUndefined => Eq
  | FUndefined, _ => Lt
  | _, FUndefined => Gt
  | FInt a, FInt b => a ?= b
  | FFloat a, FFloat b => d_key a ?= d_key b
  | FDateTime a, FDateTime b => dt_first a ?= dt_first b
  | FString a, FString b => bytes_cmp a b
  | _, _ => Eq
  end.

Lemma bytes_cmp_flip s : forall t, bytes_cmp t s = CompOpp (bytes_cmp s t).
Proof.
  induction s as [|a s IH]; intros [|b t]; cbn; try done. rewrite (Z.compare_antisym (byte.unsigned a)), IH.
  by destruct (byte.unsigned a ?= byte.unsigned b).
Qed.
Lemma bytes_cmp_refl s : bytes_cmp s s = Eq.
Proof. induction s as [|a s IH]; [done|]. cbn. by rewrite Z.compare_refl. Qed.
Lemma bytes_cmp_trans s : forall t u, bytes_cmp s t <> Gt -> bytes_cmp t u <> Gt -> bytes_cmp s u <> Gt.
Proof.
  induction s as [|a s IH]; intros [|b t] [|c u]; cbn; try done.
  destruct (Z.compare_spec (byte.unsigned a) (byte.unsigned b)), (Z.compare_spec (byte.unsigned b) (byte.unsigned c)),
    (Z.compare_spec (byte.unsigned a) (byte.unsigned c)); try lia; try done. apply IH.
Qed.

Lemma bytes_cmp_lt s : forall t, bytes_lt s t = match bytes_cmp s t with Lt => true | _ => false end.
Proof.
  induction s as [|a s IH]; intros [|b t]; cbn; try done. rewrite IH.
  destruct (Z.ltb_spec (byte.unsigned a) (byte.unsigned b)), (Z.ltb_spec (byte.unsigned b) (byte.unsigned a)),
    (Z.compare_spec (byte.unsigned a) (byte.unsigned b)); lia || done.
Qed.

Lemma value_preorder ty : preorder (sortable ty) value_cmp.
Proof.
  split.
  - intros x y Hx Hy. destruct x, y; cbn in *; try done; try apply Z.compare_antisym. apply bytes_cmp_flip.
  - intros x y z Hx Hy Hz. destruct x, y; cbn in *; try done; destruct z; cbn in *; try done;
      try (destruct_and?; congruence); try (rewrite !Z.compare_gt_iff; lia). apply bytes_cmp_trans.
Qed.

Lemma d_eq_key a b : is_u 64 a -> is_u 64 b -> is_nan a = false -> is_nan b = false ->
  d_eq a b = (d_key a =? d_key b).
Proof.
  intros Ha Hb Na Nb. destruct (of_bits_ok a Ha Na) as [Oa Ka], (of_bits_ok b Hb Nb) as [Ob Kb].
  unfold d_eq, SpecFloat.SFeqb. rewrite SFcompare_key, Ka, Kb by done. by rewrite Z.eqb_compare.
Qed.

Lemma value_lt ty x y : sortable ty x -> sortable ty y -> x <> FUndefined -> y <> FUndefined ->
  lt_operator x y = Ok (match value_cmp x y with Lt => true | _ => false end).
Proof.
  intros Hx Hy Nx Ny. destruct x, y; cbn in *; try done; try (destruct_and?; congruence); f_equal; try apply bytes_cmp_lt.
  destruct Hx as (_ & ? & ?), Hy as (_ & ? & ?). by rewrite d_lt_key.
Qed.
Lemma value_gt ty x y : sortable ty x -> sortable ty y -> x <> FUndefined -> y <> FUndefined ->
  gt_operator x y = Ok (match value_cmp x y with Gt => true | _ => false end).
Proof.
  intros Hx Hy Nx Ny. rewrite <- lt_gt_swap, (value_lt ty y x), (po_flip (value_preorder ty) x y) by done.
  by destruct (value_cmp x y).
Qed.
Lemma value_equal ty x y : sortable ty x -> sortable ty y -> approx_equal x y = true -> value_cmp x y = Eq.
Proof.
  intros Hx Hy. destruct x, y; cbn in *; try done.
  - by intros ->%Z.eqb_eq%Z.compare_eq_iff.
  - destruct Hx as (_ & ? & ?), Hy as (_ & ? & ?). rewrite d_eq_key by done. by intros ->%Z.eqb_eq%Z.compare_eq_iff.
  - intros ->%bool_decide_eq_true. apply bytes_cmp_refl.
  - by intros ->%Z.eqb_eq%Z.compare_eq_iff.
Qed.

Lemma is_undefined_spec ty x : sortable ty x -> is_undefined x = true <-> x = FUndefined.
Proof. destruct x; cbn; done. Qed.

Lemma less_column_spec ty ascending x y : sortable ty x -> sortable ty y ->
  less_column ascending x y = Ok (match by_order ascending (value_cmp x y) with Eq => None | Lt => Some true | Gt => Some false end).
Proof.
  intros Hx Hy. unfold less_column.
  destruct (is_undefined x) eqn:Ux, (is_undefined y) eqn:Uy.
  1-3: repeat match goal with
    | H : is_undefined ?x = true |- _ => apply (is_undefined_spec ty) in H; [subst|done]
    end.
  - by destruct ascending.
  - destruct y; cbn in *; try done; by destruct ascending.
  - destruct x; cbn in *; try done; by destruct ascending.
  - assert (x <> FUndefined) by (intros ->; done). assert (y <> FUndefined) by (intros ->; done).
    rewrite (value_lt ty), (value_gt ty) by done. cbn [obind].
    destruct (value_cmp x y); cbn; by destruct ascending.
Qed.

(** ** Keys *)

Definition key_ok (types : list flex_type_enum) (k : row) : Prop := Forall2 sortable types k.

Fixpoint key_cmp (sort_orders : list bool) (k1 k2 : row) : comparison :=
  match sort_orders, k1, k2 with
  | ascending :: sort_orders, x :: k1, y :: k2 =>
      match by_order ascending (value_cmp x y) with Eq => key_cmp sort_orders k1 k2 | c => c end
  | _, _, _ => Eq
  end.

Lemma key_preorder types orders : preorder (key_ok types) (key_cmp orders).
Proof.
  revert orders. induction types as [|ty types IH]; intros orders.
  { split; [intros x y Hx Hy; inversion Hx; inversion Hy; by destruct orders|].
    intros x y z Hx Hy Hz; inversion Hx; inversion Hz; by destruct orders. }
  destruct orders as [|o orders]; [by split|]. pose proof (preorder_by_order _ _ o (value_preorder ty)) as Hv.
  specialize (IH orders). split.
  - intros x y Hx Hy. inversion Hx as [|? a ? k1 Ha Hk1]; inversion Hy as [|? b ? k2 Hb Hk2]; subst. cbn.
    rewrite (po_flip Hv a b) by done. destruct (by_order o (value_cmp a b)); cbn; try done. by apply (po_flip IH).
  - intros x y z Hx Hy Hz. inversion Hx as [|? a ? k1 Ha Hk1]; inversion Hy as [|? b ? k2 Hb Hk2];
      inversion Hz as [|? c ? k3 Hc Hk3]; subst. cbn.
    pose proof (po_trans Hv a b c Ha Hb Hc) as Ht. pose proof (po_trans IH k1 k2 k3 Hk1 Hk2 Hk3) as Ht'.
    destruct (by_order o (value_cmp a b)) eqn:Eab.
    + rewrite (po_eq_l _ _ a b c Hv) by done. by destruct (by_order o (value_cmp b c)).
    + destruct (by_order o (value_cmp b c)) eqn:Ebc; try done.
      * assert (by_order o (value_cmp a c) = Lt) as ->; [|done].
        assert (by_order o (value_cmp c a) = Gt) as E; [|by rewrite (po_flip Hv c a), E].
        rewrite (po_eq_l _ _ c b a Hv) by (try done; by rewrite (po_flip Hv b c), Ebc).
        by rewrite (po_flip Hv a b), Eab.
      * specialize (Ht ltac:(done) ltac:(done)). destruct (by_order o (value_cmp a c)) eqn:Eac; try done.
        exfalso. assert (by_order o (value_cmp a b) = Gt) as E; [|congruence].
        rewrite (po_eq_l _ _ a c b Hv) by done. by rewrite (po_flip Hv b c), Ebc.
    + done.
Qed.

Lemma less_than_full_spec types orders : length types = length orders -> forall k1 k2,
  key_ok types k1 -> key_ok types k2 ->
  less_than_full orders k1 k2 = Ok (match key_cmp orders k1 k2 with Lt => true | _ => false end).
Proof.
  unfold less_than_full. revert orders. induction types as [|ty types IH]; intros [|o orders] Hl k1 k2 H1 H2; try done.
  inversion H1 as [|? a ? l1 Ha Hl1]; inversion H2 as [|? b ? l2 Hb Hl2]; subst. cbn.
  rewrite (less_column_spec ty) by done. cbn [obind].
  destruct (by_order o (value_cmp a b)); [|done|done]. apply IH; [by injection Hl|done|done].
Qed.

Lemma keys_equal_spec types orders : length types = length orders -> forall k1 k2,
  key_ok types k1 -> key_ok types k2 -> keys_equal k1 k2 = true -> key_cmp orders k1 k2 = Eq.
Proof.
  unfold keys_equal. revert orders. induction types as [|ty types IH]; intros [|o orders] Hl k1 k2 H1 H2 E; try done.
  inversion H1 as [|? a ? l1 Ha Hl1]; inversion H2 as [|? b ? l2 Hb Hl2]; subst. cbn in *.
  apply andb_true_iff in E as [E1 E2]. rewrite (value_equal ty a b) by done. destruct o; cbn; apply IH; auto.
Qed.

(** The key of a row *)
Definition key_of (sort_columns : list nat) (item : row) : option row := mapM (fun c => item !! c) sort_columns.

Lemma key_of_length cols item k : key_of cols item = Some k -> length k = length cols.
Proof. intros H. by apply length_mapM in H. Qed.

Lemma sort_keys_spec cols orders item k : length cols = length orders -> key_of cols item = Some k ->
  sort_keys cols orders item = Ok k.
Proof.
  intros Hl Hk. unfold sort_keys. cbv zeta. rewrite <- Hl, Nat.ltb_irrefl, firstn_all, Nat.sub_diag.
  assert (otraverse (fun c => of_option (item !! c)) cols = Ok k) as ->; [|by cbn; rewrite app_nil_r].
  clear Hl. unfold key_of in Hk. apply mapM_Some in Hk. induction Hk as [|c x cols k Hc _ IH]; [done|].
  cbn. rewrite Hc. cbn. by rewrite IH.
Qed.

Lemma less_than_partial_spec cols orders a b ka kb : length cols = length orders ->
  key_of cols a = Some ka -> key_of cols b = Some kb ->
  less_than_partial cols orders a b = less_than_full orders ka kb.
Proof.
  unfold less_than_partial, less_than_full, key_of. intros Hl Ha%mapM_Some Hb%mapM_Some.
  revert orders kb Hl Hb. induction Ha as [|c x cols ka Hc _ IH]; intros [|o orders] kb Hl Hb; try done.
  inversion Hb as [|? y ? kb' Hy Hkb]; subst. cbn. rewrite Hc, Hy.
  destruct (less_column o x y) as [[]| |]; cbn; try done. apply IH; [by injection Hl|done].
Qed.

(** ** Partitions *)

(** The row's partition: its key is not below the keys of the ones before, and
    not above its own. *)
Definition in_partition (orders : list bool) (pivots : list row) (k : row) (p : nat) : Prop :=
  (p <= length pivots)%nat /\
  (forall j q, (j < p)%nat -> pivots !! j = Some q -> key_cmp orders k q <> Lt) /\
  (forall q, pivots !! p = Some q -> key_cmp orders k q <> Gt).

Lemma find_partition_spec types orders k pivots : length types = length orders -> key_ok types k ->
  Forall (key_ok types) pivots -> forall i,
  exists p, find_partition orders k i (map FList pivots) = Ok (i + p)%nat /\ in_partition orders pivots k p.
Proof.
  intros Hl Hk Hp. induction Hp as [|q pivots Hq Hp IH]; intros i; cbn [map find_partition get_list obind].
  { exists 0%nat. rewrite Nat.add_0_r. split; [done|]. split; [done|]. split; [lia|done]. }
  assert (key_cmp orders k q <> Gt -> exists p, Ok i = Ok (i + p)%nat /\ in_partition orders (q :: pivots) k p) as Hhere.
  { intros H. exists 0%nat. rewrite Nat.add_0_r. split; [done|]. split; [cbn; lia|]. split; [lia|]. by intros ? [= <-]. }
  destruct (keys_equal k q) eqn:E; [apply Hhere; by rewrite (keys_equal_spec types)|].
  rewrite (less_than_full_spec types) by done. cbn [obind].
  destruct (key_cmp orders k q) eqn:Ec; [|by apply Hhere|].
  1-2: destruct (IH (S i)) as (p & -> & H1 & H2 & H3); exists (S p); split; [f_equal; lia|]; split; [cbn; lia|];
    split; [|exact H3]; intros [|j] q' Hj; cbn; [intros [= <-]; congruence|apply H2; lia].
Qed.

Lemma partition_order types orders pivots k1 k2 p1 p2 : key_ok types k1 -> key_ok types k2 ->
  Forall (key_ok types) pivots -> in_partition orders pivots k1 p1 -> in_partition orders pivots k2 p2 ->
  (p1 < p2)%nat -> key_cmp orders k1 k2 <> Gt.
Proof.
  intros H1 H2 Hp (_ & _ & Hu) (Hle & Hlo & _) Hlt. pose proof (key_preorder types orders) as Hpo.
  destruct (lookup_lt_is_Some_2 pivots p1) as [q Hq]; [lia|].
  assert (key_ok types q) as Hqok by (rewrite Forall_forall in Hp; apply Hp; by eapply list_elem_of_lookup_2).
  apply (po_trans Hpo k1 q k2); [done..|by apply Hu|]. intros E. apply (Hlo p1 q Hlt Hq). by rewrite (po_flip Hpo q k2), E.
Qed.

(** ** [std::sort] *)

(** What the C++ standard promises: for a strict weak order, a permutation in
    which nothing is below what comes before it *)
Class StdSort (sort : forall A, (A -> A -> outcome bool) -> list A -> outcome (list A)) : Prop :=
  std_sort_spec : forall A (lt : A -> A -> outcome bool) (D : A -> Prop) (f : A -> A -> comparison) (l : list A),
    preorder D f -> (forall a b, D a -> D b -> lt a b = Ok (match f a b with Lt => true | _ => false end)) ->
    Forall D l -> exists l', sort A lt l = Ok l' /\ l' ≡ₚ l /\ StronglySorted (fun a b => f a b <> Gt) l'.

#[export] Instance insertion_sort_std : StdSort (@sort_by).
Proof.
  intros A lt D f l Hpo Hlt Hl. induction Hl as [|x l Hx Hl IH]; [by exists []; repeat constructor|].
  destruct IH as (l' & E & Hp & Hs). cbn [sort_by]. rewrite E. cbn [obind].
  assert (Forall D l') as Hl' by by rewrite Hp.
  assert (exists l'', sort_insert lt x l' = Ok l'' /\ l'' ≡ₚ x :: l' /\ StronglySorted (fun a b => f a b <> Gt) l'')
    as (l'' & -> & Hp' & Hs').
  { clear E Hp. induction Hs as [|y l' Hs IH Hy]; [exists [x]; by repeat constructor|].
    apply Forall_cons in Hl' as [Dy Hl']. cbn [sort_insert]. rewrite Hlt by done. cbn [obind].
    destruct (f y x) eqn:E.
    - exists (x :: y :: l'). split_and!; [done|done|]. constructor; [by constructor|].
      assert (f x y <> Gt) as Hxy by (rewrite (po_flip Hpo y x), E; done). constructor; [done|].
      rewrite Forall_forall in *. intros z Hz. apply (po_trans Hpo x y z); auto.
    - destruct (IH Hl') as (l'' & -> & Hp & Hs'). exists (y :: l''). split_and!; [done| |].
      + rewrite Hp. apply perm_swap.
      + constructor; [done|]. rewrite Hp. constructor; [by rewrite E|done].
    - exists (x :: y :: l'). split_and!; [done|done|]. constructor; [by constructor|].
      assert (f x y <> Gt) as Hxy by (rewrite (po_flip Hpo y x), E; done). constructor; [done|].
      rewrite Forall_forall in *. intros z Hz. apply (po_trans Hpo x y z); auto. }
  exists l''. split_and!; [done| |done]. by rewrite Hp', Hp.
Qed.

(** ** Rows as strings *)

Definition enc_row (item : row) : bytes := concat (map enc item).

Lemma row_string_spec item : row_string item = Ok (enc_row item).
Proof.
  unfold row_string. rewrite (emits_to_bytes save_row item (enc_row item)); [done|].
  apply emits_for. intros f _. apply emits_save.
Qed.

Lemma read_row_spec item : Forall flex_ok item -> read_row (length item) (enc_row item) = Ok item.
Proof.
  intros H. unfold read_row. rewrite <- (app_nil_r (enc_row item)).
  rewrite (parses_of_bytes (load_row (length item)) (enc_row item) [] item); [done|].
  apply parses_repeat. rewrite Forall_forall in H. intros f Hf. by apply parses_load, H.
Qed.

(** ** Scattering *)

Lemma concat_update {A B} (f : A -> list B) (l : list A) i x : l !! i = Some x ->
  exists rest, concat (map f l) ≡ₚ f x ++ rest /\ forall y, concat (map f (<[i := y]> l)) ≡ₚ f y ++ rest.
Proof.
  revert i. induction l as [|z l IH]; intros [|i] H; try done.
  - injection H as ->. by exists (concat (map f l)).
  - destruct (IH i H) as (rest & H1 & H2). exists (f z ++ rest). cbn. split; [|intros y; rewrite H2]; rewrite ?H1;
      rewrite !app_assoc; f_equiv; apply Permutation_app_comm.
Qed.

Section scatter.
Context (types : list flex_type_enum) (sort_columns : list nat) (sort_orders : list bool) (pivots : list row).
Hypothesis types_orders : length types = length sort_orders.
Hypothesis columns_orders : length sort_columns = length sort_orders.
Hypothesis pivots_ok : Forall (key_ok types) pivots.
Implicit Types (st : scatter) (dn : list (list row)) (item : row) (w : worker).

Definition key item : row := default [] (key_of sort_columns item).
Definition row_fine item : Prop :=
  key_of sort_columns item = Some (key item) /\ key_ok types (key item) /\ Forall flex_ok item.

Abbreviation goes_to := (in_partition sort_orders pivots).
Abbreviation scatter_step := (step sort_columns sort_orders (map FList pivots)).

(** The row a worker has in its hands, and all it still has to write *)
Definition held w : list row :=
  match at_phase w with Next => [] | AtFlag item _ _ | Storing item _ _ | AtOutput item _ => [item] end.
Definition pending w : list row := held w ++ todo w.

Definition phase_ok w : Prop :=
  match at_phase w with
  | Next => True
  | AtFlag item keys p => keys = key item /\ goes_to (key item) p
  | Storing item p _ | AtOutput item p => goes_to (key item) p
  end.

(** [dn] has the rows that have been written to each partition. *)
Record inv (rows : list row) st dn : Prop := {
  iv_count : length (partitions st) = S (length pivots);
  iv_contents : Forall2 (fun q rs => contents q = map enc_row rs) (partitions st) dn;
  iv_rows : concat dn ++ concat (map pending (workers st)) ≡ₚ rows;
  iv_where p rs r : dn !! p = Some rs -> r ∈ rs -> goes_to (key r) p;
  iv_phase : Forall phase_ok (workers st);
  iv_words : length (flag_words st) = ((S (length pivots) + 63) / 64)%nat
}.

(** The steps of worker [i], with the rows that are written *)
Inductive stepped (i : nat) st dn st' dn' : Prop :=
| stepped_none : st' = st -> dn' = dn -> stepped i st dn st' dn'
| stepped_next item rest p : workers st !! i = Some (mk_worker (item :: rest) Next) -> goes_to (key item) p ->
    st' = with_worker i (mk_worker rest (AtFlag item (key item) p)) st -> dn' = dn -> stepped i st dn st' dn'
| stepped_first l item p q : workers st !! i = Some (mk_worker l (AtFlag item (key item) p)) -> goes_to (key item) p ->
    flag_locked p st = false -> partitions st !! p = Some q -> flag_at (flag_words st) p = Ok true ->
    first_sort_key q = [] ->
    st' = with_worker i (mk_worker l (AtOutput item p))
            (with_partition p (mk_partition (key item) (contents q) (size_in_bytes q) (size_in_rows q)) st) ->
    dn' = dn -> stepped i st dn st' dn'
| stepped_pass l item p q b : workers st !! i = Some (mk_worker l (AtFlag item (key item) p)) -> goes_to (key item) p ->
    partitions st !! p = Some q -> flag_at (flag_words st) p = Ok b ->
    (b = true -> keys_equal (first_sort_key q) (key item) = true) ->
    st' = with_worker i (mk_worker l (AtOutput item p)) st -> dn' = dn -> stepped i st dn st' dn'
| stepped_load l item p word : workers st !! i = Some (mk_worker l (AtFlag item (key item) p)) -> goes_to (key item) p ->
    flag_locked p st = false -> flag_words st !! (p / 64)%nat = Some word ->
    st' = with_worker i (mk_worker l (Storing item p word)) st -> dn' = dn -> stepped i st dn st' dn'
| stepped_store l item p word : workers st !! i = Some (mk_worker l (Storing item p word)) -> goes_to (key item) p ->
    st' = with_worker i (mk_worker l (AtOutput item p))
            (with_word (p / 64) (Z.clearbit word (Z.of_nat (p mod 64))) st) ->
    dn' = dn -> stepped i st dn st' dn'
| stepped_write l item p q rs : workers st !! i = Some (mk_worker l (AtOutput item p)) -> goes_to (key item) p ->
    partitions st !! p = Some q -> dn !! p = Some rs ->
    st' = with_worker i (mk_worker l Next)
            (with_partition p (mk_partition (first_sort_key q) (contents q ++ [enc_row item])
               (u64 (size_in_bytes q + Z.of_nat (length (enc_row item)))) (u64 (size_in_rows q + 1))) st) ->
    dn' = <[p := rs ++ [item]]> dn -> stepped i st dn st' dn'.

Lemma word_exists rows st dn p : inv rows st dn -> (p <= length pivots)%nat ->
  exists word : Z, flag_words st !! (p / 64)%nat = Some word.
Proof.
  intros H Hp. apply lookup_lt_is_Some_2. rewrite (iv_words _ _ _ H).
  replace (S (length pivots) + 63)%nat with (length pivots + 1 * 64)%nat by lia. rewrite Nat.div_add by lia.
  pose proof (Nat.Div0.div_le_mono p (length pivots) 64 Hp). lia.
Qed.

Lemma pending_fine rows st dn i w item : inv rows st dn -> Forall row_fine rows -> workers st !! i = Some w ->
  item ∈ pending w -> row_fine item.
Proof.
  intros H Hrows Hw Hin. rewrite Forall_forall in Hrows. apply Hrows. rewrite <- (iv_rows _ _ _ H). apply elem_of_app. right.
  apply list_elem_of_In, in_concat. exists (pending w). split; apply list_elem_of_In; [|done].
  apply list_elem_of_fmap. exists w. split; [done|]. by eapply list_elem_of_lookup_2.
Qed.

Lemma step_stepped rows st dn i : inv rows st dn -> Forall row_fine rows -> (i < length (workers st))%nat ->
  exists st' dn', scatter_step i st = Ok st' /\ stepped i st dn st' dn'.
Proof.
  intros H Hrows Hi. destruct (lookup_lt_is_Some_2 _ _ Hi) as [[l ph] Hw].
  pose proof (fun item => pending_fine rows st dn i _ item H Hrows Hw) as Hfine.
  pose proof (Forall_lookup_1 _ _ _ _ (iv_phase _ _ _ H) Hw) as Hph.
  assert (forall k p, goes_to k p -> exists q, partitions st !! p = Some q) as Hpart.
  { intros k p (Hp & _). apply lookup_lt_is_Some_2. rewrite (iv_count _ _ _ H). lia. }
  unfold scatter_step. rewrite Hw. cbn [of_option obind at_phase todo]. destruct ph as [|item keys p|item p word|item p].
  - destruct l as [|item l]; [exists st, dn; split; [done|by apply stepped_none]|].
    destruct (Hfine item ltac:(left)) as (Hk & Hok & _). rewrite (sort_keys_spec _ _ _ _ columns_orders Hk). cbn [obind].
    destruct (find_partition_spec types sort_orders (key item) pivots types_orders Hok pivots_ok 0) as (p & -> & Hp).
    cbn [obind Nat.add]. eexists _, dn. split; [done|]. by eapply stepped_next.
  - destruct Hph as [-> Hp]. unfold check_flag. destruct (flag_locked p st) eqn:El.
    { exists st, dn. split; [done|by apply stepped_none]. }
    destruct (Hpart _ _ Hp) as [q Hq]. rewrite Hq. cbn [of_option obind].
    destruct (word_exists _ _ _ p H (proj1 Hp)) as [word Hword].
    assert (exists b, flag_at (flag_words st) p = Ok b) as [b Hb] by (unfold flag_at; rewrite Hword; by eexists).
    rewrite Hb. cbn [obind]. destruct b.
    + destruct (first_sort_key q) as [|x f] eqn:Ef.
      { eexists _, dn. split; [done|]. by eapply stepped_first. }
      destruct (keys_equal (x :: f) (key item)) eqn:Ek.
      * eexists _, dn. split; [done|]. eapply stepped_pass; try done. by rewrite Ef.
      * rewrite Hword. cbn [of_option obind]. eexists _, dn. split; [done|]. by eapply stepped_load.
    + eexists _, dn. split; [done|]. by eapply stepped_pass.
  - eexists _, dn. split; [done|]. by eapply stepped_store.
  - unfold write_output. rewrite row_string_spec. cbn [obind]. destruct (Hpart _ _ Hph) as [q Hq]. rewrite Hq.
    cbn [of_option obind]. destruct (Forall2_lookup_l _ _ _ _ _ (iv_contents _ _ _ H) Hq) as (rs & Hrs & _).
    eexists _, _. split; [done|]. by eapply stepped_write.
Qed.

Lemma pending_same st i w w' : workers st !! i = Some w -> pending w' = pending w ->
  map pending (<[i := w']> (workers st)) = map pending (workers st).
Proof.
  intros Hw E. change (pending <$> <[i := w']> (workers st) = pending <$> workers st).
  rewrite list_fmap_insert, E. apply list_insert_id. by rewrite list_lookup_fmap, Hw.
Qed.

Lemma inv_stepped rows st dn i st' dn' : inv rows st dn -> stepped i st dn st' dn' -> inv rows st' dn'.
Proof.
  intros [H1 H2 H3 H4 H5 H6] Hs.
  destruct Hs as [-> ->|item rest p Hw Hp -> ->|l item p q Hw Hp _ Hq _ _ -> ->|l item p q b Hw Hp Hq _ _ -> ->|
    l item p word Hw Hp _ _ -> ->|l item p word Hw Hp -> ->|l item p q rs Hw Hp Hq Hrs -> ->]; [done|..];
    (split; cbn [partitions flag_words workers with_worker with_partition with_word];
     [rewrite ?length_insert; done| | |try done|apply Forall_insert; done|rewrite ?length_insert; done]);
    try done; try (by rewrite (pending_same _ _ _ _ Hw)).
  - rewrite <- (list_insert_id dn p (default [] (dn !! p))).
    + apply Forall2_insert; [done|]. destruct (Forall2_lookup_l _ _ _ _ _ H2 Hq) as (rs & -> & E). exact E.
    + destruct (Forall2_lookup_l _ _ _ _ _ H2 Hq) as (rs & E & _). by rewrite E.
  - apply Forall2_insert; [done|]. cbn. rewrite map_app. f_equal.
    destruct (Forall2_lookup_l _ _ _ _ _ H2 Hq) as (rs' & E & E'). congruence.
  - destruct (concat_update pending (workers st) i _ Hw) as (rest & E1 & E2).
    destruct (concat_update id dn p _ Hrs) as (rest' & F1 & F2). rewrite list_fmap_id in F1.
    specialize (F2 (rs ++ [item])). rewrite list_fmap_id in F2. cbn [id] in F1, F2.
    rewrite F2, E2, <- H3, F1, E1. cbn. solve_Permutation.
  - intros p' rs' r. destruct (decide (p' = p)) as [->|Hne].
    + rewrite list_lookup_insert_eq by by eapply lookup_lt_Some. intros [= <-] [Hr| ->%list_elem_of_singleton]%elem_of_app; [by eapply H4|done].
    + rewrite list_lookup_insert_ne by done. apply H4.
Qed.

(** *** The flags *)

Definition storing st (i p : nat) (word : Z) : Prop :=
  exists l item, workers st !! i = Some (mk_worker l (Storing item p word)).

(** No two workers are between the load and the store of the same word. *)
Definition no_overlap st : Prop := forall i j p q a b,
  i <> j -> storing st i p a -> storing st j q b -> (p / 64)%nat <> (q / 64)%nat.

(** The rows whose key has been compared with the first one of the partition *)
Definition checked st dn (p : nat) item : Prop :=
  (exists rs, dn !! p = Some rs /\ item ∈ rs) \/ (exists i l, workers st !! i = Some (mk_worker l (AtOutput item p))).

Record flags_ok st dn : Prop := {
  fl_store i p word : storing st i p word -> flag_words st !! (p / 64)%nat = Some word;
  fl_key p q : partitions st !! p = Some q -> first_sort_key q = [] \/ key_ok types (first_sort_key q);
  fl_first p q item : partitions st !! p = Some q -> flag_at (flag_words st) p = Ok true -> checked st dn p item ->
    key_ok types (first_sort_key q) /\ key_cmp sort_orders (key item) (first_sort_key q) = Eq
}.

Lemma storing_update st i w j p word : storing (with_worker i w st) j p word ->
  (i = j /\ exists item, at_phase w = Storing item p word) \/ (i <> j /\ storing st j p word).
Proof.
  intros (l & item & E). cbn in E. destruct (decide (i = j)) as [->|Hne].
  - left. split; [done|]. destruct (decide (j < length (workers st))%nat).
    + rewrite list_lookup_insert_eq in E by done. injection E as ->. by exists item.
    + apply lookup_lt_Some in E. rewrite length_insert in E. lia.
  - right. rewrite list_lookup_insert_ne in E by done. split; [done|]. by exists l, item.
Qed.

Lemma checked_update st dn i w p item : checked (with_worker i w st) dn p item ->
  checked st dn p item \/ at_phase w = AtOutput item p.
Proof.
  intros [H|(j & l & E)]; [by left; left|]. cbn in E. destruct (decide (i = j)) as [->|Hne].
  - right. destruct (decide (j < length (workers st))%nat).
    + rewrite list_lookup_insert_eq in E by done. by injection E as ->.
    + apply lookup_lt_Some in E. rewrite length_insert in E. lia.
  - left. right. exists j, l. by rewrite list_lookup_insert_ne in E.
Qed.

Lemma flag_at_clear words k word p q : words !! (p / 64)%nat = Some word -> q <> p ->
  k = (p / 64)%nat -> flag_at (<[k := Z.clearbit word (Z.of_nat (p mod 64))]> words) q = flag_at words q.
Proof.
  intros Hw Hne ->. unfold flag_at. destruct (decide ((q / 64)%nat = (p / 64)%nat)) as [E|E].
  - rewrite E, list_lookup_insert_eq, Hw by (by eapply lookup_lt_Some). cbn [of_option obind]. f_equal. apply Z.clearbit_neq.
    intros Em%Nat2Z.inj. apply Hne. pose proof (Nat.div_mod_eq q 64). pose proof (Nat.div_mod_eq p 64). lia.
  - by rewrite list_lookup_insert_ne.
Qed.
Lemma flag_at_cleared words word p : words !! (p / 64)%nat = Some word ->
  flag_at (<[(p / 64)%nat := Z.clearbit word (Z.of_nat (p mod 64))]> words) p = Ok false.
Proof.
  intros Hw. unfold flag_at. rewrite list_lookup_insert_eq by (by eapply lookup_lt_Some). cbn [of_option obind]. f_equal. apply Z.clearbit_eq.
Qed.

Lemma key_cmp_refl item : row_fine item -> key_cmp sort_orders (key item) (key item) = Eq.
Proof. intros (_ & H & _). by apply (po_refl _ _ _ (key_preorder types sort_orders)). Qed.

Lemma flags_stepped rows st dn i st' dn' : inv rows st dn -> Forall row_fine rows -> no_overlap st ->
  flags_ok st dn -> stepped i st dn st' dn' -> flags_ok st' dn'.
Proof.
  intros H Hrows Hno [F1 F2 F3] Hs.
  assert (forall w item, workers st !! i = Some w -> item ∈ pending w -> row_fine item) as Hfine
    by (intros w item; by apply (pending_fine rows st dn i)).
  destruct Hs as [-> ->|item rest p Hw Hp -> ->|l item p q Hw Hp _ Hq Hb Hf -> ->|l item p q b Hw Hp Hq Hb Hk -> ->|
    l item p word Hw Hp _ Hword -> ->|l item p word Hw Hp -> ->|l item p q rs Hw Hp Hq Hrs -> ->]; [done|..].
  - split; [|done|].
    + intros j p' word [[-> (it & [=])]|[_ Hst]]%storing_update. by eapply F1.
    + intros p' q it Hq Hfl [Hc|[=]]%checked_update. by eapply F3.
  - assert (row_fine item) as Hi by (eapply Hfine; [exact Hw|left]). split.
    + intros j p' word [[-> (it & [=])]|[_ Hst]]%storing_update. by eapply F1.
    + cbn [partitions flag_words workers with_worker with_partition with_word]. intros p' q' Hq'. destruct (decide (p' = p)) as [->|Hne].
      * rewrite list_lookup_insert_eq in Hq' by (by eapply lookup_lt_Some). injection Hq' as <-. right. apply Hi.
      * rewrite list_lookup_insert_ne in Hq' by done. by eapply F2.
    + cbn [partitions flag_words workers with_worker with_partition with_word]. intros p' q' it Hq' Hfl Hc%checked_update. destruct (decide (p' = p)) as [->|Hne].
      * rewrite list_lookup_insert_eq in Hq' by (by eapply lookup_lt_Some). injection Hq' as <-. cbn.
        split; [apply Hi|]. destruct Hc as [Hc|[= ->]]; [|by apply key_cmp_refl].
        destruct (F3 p q it Hq Hfl Hc) as [Hko _]. rewrite Hf in Hko.
        assert (sort_orders = []) as ->; [|done]. apply nil_length_inv. rewrite <- types_orders. by apply Forall2_length in Hko.
      * rewrite list_lookup_insert_ne in Hq' by done. destruct Hc as [Hc|[= -> ->]]; [|done]. by eapply F3.
  - assert (row_fine item) as Hi by (eapply Hfine; [exact Hw|left]). split; [|done|].
    + intros j p' word [[-> (it & [=])]|[_ Hst]]%storing_update. by eapply F1.
    + intros p' q' it Hq' Hfl [Hc|[= -> ->]]%checked_update; [by eapply F3|]. cbn [partitions flag_words workers with_worker with_partition with_word] in Hq', Hfl.
      rewrite Hq in Hq'. injection Hq' as <-. rewrite Hb in Hfl. injection Hfl as ->. specialize (Hk eq_refl).
      destruct Hi as (_ & Hi & _). assert (key_ok types (first_sort_key q)) as Hko.
      { destruct (F2 p' q Hq) as [E|]; [|done]. rewrite E in *. destruct (key it); [done|]. discriminate. }
      split; [done|]. rewrite (po_flip (key_preorder types sort_orders) (first_sort_key q) (key it)) by done.
      by rewrite (keys_equal_spec types sort_orders).
  - split; [|done|].
    + intros j p' word' [[-> (it & [= -> -> ->])]|[_ Hst]]%storing_update; [done|]. by eapply F1.
    + intros p' q it Hq Hfl [Hc|[=]]%checked_update. by eapply F3.
  - assert (storing st i p word) as Hst by (by exists l, item). pose proof (F1 i p word Hst) as Hword.
    split; [|done|].
    + intros j p' word' [[-> (it & [=])]|[Hij Hst']]%storing_update. cbn [partitions flag_words workers with_worker with_partition with_word]. rewrite list_lookup_insert_ne; [by eapply F1|].
      by apply (Hno i j p p' word word').
    + cbn [partitions flag_words workers with_worker with_partition with_word]. intros p' q it Hq Hfl Hc%checked_update. destruct (decide (p' = p)) as [->|Hne].
      * by rewrite flag_at_cleared in Hfl.
      * rewrite (flag_at_clear _ _ _ p) in Hfl by done. destruct Hc as [Hc|[= -> ->]]; [|done]. by eapply F3.
  - split.
    + intros j p' word [[-> (it & [=])]|[_ Hst]]%storing_update. by eapply F1.
    + cbn [partitions flag_words workers with_worker with_partition with_word]. intros p' q' Hq'. destruct (decide (p' = p)) as [->|Hne].
      * rewrite list_lookup_insert_eq in Hq' by (by eapply lookup_lt_Some). injection Hq' as <-. cbn [first_sort_key]. by apply (F2 p).
      * rewrite list_lookup_insert_ne in Hq' by done. by eapply F2.
    + cbn [partitions flag_words workers with_worker with_partition with_word]. intros p' q' it Hq' Hfl Hc.
      assert (checked st dn p' it) as Hc'.
      { apply checked_update in Hc as [[(rs' & E & Hin)|Hout]|[=]]; [|by right]. destruct (decide (p' = p)) as [->|Hne].
        - rewrite list_lookup_insert_eq in E by (by eapply lookup_lt_Some). injection E as <-.
          apply elem_of_app in Hin as [Hin| ->%list_elem_of_singleton]; [left; by exists rs|right; by exists i, l].
        - rewrite list_lookup_insert_ne in E by done. left. by exists rs'. }
      destruct (decide (p' = p)) as [->|Hne].
      * rewrite list_lookup_insert_eq in Hq' by (by eapply lookup_lt_Some). injection Hq' as <-. by apply (F3 p q it).
      * rewrite list_lookup_insert_ne in Hq' by done. by eapply F3.
Qed.

(** *** Whole runs *)

Fixpoint clean (sched : list nat) st : Prop :=
  no_overlap st /\
  match sched with [] => True | i :: sched => match scatter_step i st with Ok st' => clean sched st' | _ => True end end.

Lemma clean_start sched st : clean sched st -> no_overlap st.
Proof. by destruct sched; intros []. Qed.

Lemma stepped_workers i st dn st' dn' : stepped i st dn st' dn' -> length (workers st') = length (workers st).
Proof. intros []; subst; cbn; rewrite ?length_insert; done. Qed.

Lemma run_spec rows sched : forall st dn, inv rows st dn -> Forall row_fine rows ->
  Forall (fun i => i < length (workers st))%nat sched ->
  exists st' dn', ofold scatter_step sched st = Ok st' /\ inv rows st' dn' /\
    (flags_ok st dn -> clean sched st -> flags_ok st' dn').
Proof.
  induction sched as [|i sched IH]; intros st dn H Hrows Hs; [by exists st, dn|].
  apply Forall_cons in Hs as [Hi Hs]. destruct (step_stepped rows st dn i H Hrows Hi) as (st1 & dn1 & E & Hst).
  pose proof (inv_stepped _ _ _ _ _ _ H Hst) as H1.
  destruct (IH st1 dn1 H1 Hrows) as (st' & dn' & E' & H' & Hf'); [by rewrite (stepped_workers _ _ _ _ _ Hst)|].
  exists st', dn'. cbn [ofold]. rewrite E. cbn [obind]. split_and!; [done|done|]. cbn [clean]. rewrite E.
  intros Hf [Hno Hc]. apply Hf'; [|done]. by apply (flags_stepped rows st dn i).
Qed.

Lemma start_inv inputs : inv (concat inputs) (start (S (length pivots)) inputs) (replicate (S (length pivots)) []).
Proof.
  split; cbn [start partitions flag_words workers].
  - by rewrite length_replicate.
  - by apply Forall2_replicate.
  - rewrite map_map. cbn [pending held at_phase todo app]. rewrite map_id.
    replace (concat (replicate (S (length pivots)) [])) with (@nil row); [done|].
    generalize (S (length pivots)). induction n as [|n IH]; [done|]. exact IH.
  - intros p rs r Hp Hr. apply lookup_replicate in Hp as [-> _]. by apply not_elem_of_nil in Hr.
  - apply Forall_map, Forall_true. done.
  - by rewrite length_replicate.
Qed.

Lemma start_flags inputs : flags_ok (start (S (length pivots)) inputs) (replicate (S (length pivots)) []).
Proof.
  assert (forall i w, workers (start (S (length pivots)) inputs) !! i = Some w -> at_phase w = Next) as Hw.
  { intros i w E. cbn in E. apply list_lookup_fmap_Some in E as (rs & -> & _). done. }
  split; cbn [start partitions].
  - intros i p word (l & item & E). by apply Hw in E.
  - intros p q E. apply lookup_replicate in E as [-> _]. by left.
  - intros p q item _ _ [(rs & E & Hin)|(i & l & E)]; [|by apply Hw in E].
    apply lookup_replicate in E as [-> _]. by apply not_elem_of_nil in Hin.
Qed.

Lemma finished_spec st : finished st = true -> concat (map pending (workers st)) = [].
Proof.
  unfold finished. induction (workers st) as [|w ws IH]; [done|]. cbn. intros [Hw Hws]%andb_true_iff.
  rewrite IH by done. unfold pending, held. destruct w as [[|x l] []]; done.
Qed.

(** *** Progress *)

Definition phase_work w : nat :=
  match at_phase w with Next => 0 | AtFlag _ _ _ => 3 | Storing _ _ _ => 2 | AtOutput _ _ => 1 end.
Definition worker_work w : nat := 4 * length (todo w) + phase_work w.
Definition work st : nat := sum_list (map worker_work (workers st)).

Lemma sum_list_update {A} (f : A -> nat) (l : list A) i x y : l !! i = Some x ->
  (sum_list (map f (<[i := y]> l)) + f x = sum_list (map f l) + f y)%nat.
Proof.
  revert i. induction l as [|z l IH]; intros [|i] H; try done.
  - injection H as ->. cbn. lia.
  - specialize (IH i H). change (f z + sum_list (map f (<[i := y]> l)) + f x = f z + sum_list (map f l) + f y)%nat. lia.
Qed.

Lemma stepped_work i st dn st' dn' : stepped i st dn st' dn' -> st' = st \/ (work st' < work st)%nat.
Proof.
  intros Hs. unfold work.
  destruct Hs as [->|? ? ? Hw ? ->|? ? ? ? Hw ? ? ? ? ? ->|? ? ? ? ? Hw ? ? ? ? ->|? ? ? ? Hw ? ? ? ->|? ? ? ? Hw ? ->|
    ? ? ? ? ? Hw ? ? ? ->]; [by left|right..];
    cbn [workers with_worker with_partition with_word];
    match goal with |- context [<[i := ?y]> _] => pose proof (sum_list_update worker_work _ _ _ y Hw) as E end;
    unfold worker_work, phase_work in *; cbn [todo at_phase length] in E; lia.
Qed.

(** Unless all have finished, some worker can go on. *)
Lemma run_progress rows st dn : inv rows st dn -> Forall row_fine rows -> finished st = false ->
  exists i st', (i < length (workers st))%nat /\ scatter_step i st = Ok st' /\ (work st' < work st)%nat.
Proof.
  intros H Hrows Hf.
  assert (exists i w, workers st !! i = Some w /\ (todo w <> [] \/ at_phase w <> Next) /\
    ((exists item p word, at_phase w = Storing item p word) \/ forall p, flag_locked p st = false))
    as (i & w & Hw & Hbusy & Hfree).
  { destruct (decide (Exists (fun w => phase_work w = 2%nat) (workers st))) as [He|Hn].
    - apply Exists_exists in He as (w & Hin & E). apply list_elem_of_lookup in Hin as [i Hw]. exists i, w. unfold phase_work in E.
      destruct (at_phase w) eqn:Ep; try done. split; [done|]. split; [by right|]. left. by eexists _, _, _.
    - assert (forall p, flag_locked p st = false) as Hl.
      { intros p. unfold flag_locked. apply not_true_is_false. intros (w & Hin & Hh)%existsb_exists. apply Hn.
        apply Exists_exists. exists w. split; [by apply list_elem_of_In|]. unfold holds_flag, phase_work in *.
        by destruct (at_phase w). }
      assert (exists w, w ∈ workers st /\ (todo w <> [] \/ at_phase w <> Next)) as (w & Hin & Hb).
      { unfold finished in Hf. clear -Hf. induction (workers st) as [|w ws IH]; [done|]. cbn in Hf.
        apply andb_false_iff in Hf as [Hf|Hf].
        - exists w. split; [left|]. destruct (todo w), (at_phase w); auto; by right.
        - destruct (IH Hf) as (w' & Hin & Hb). exists w'. split; [by right|done]. }
      apply list_elem_of_lookup in Hin as [i Hi]. exists i, w. split; [done|]. split; [done|]. by right. }
  exists i. destruct (step_stepped rows st dn i H Hrows) as (st' & dn' & E & Hs); [by eapply lookup_lt_Some|].
  exists st'. split; [by eapply lookup_lt_Some|]. split; [done|].
  destruct (stepped_work _ _ _ _ _ Hs) as [->|]; [|done]. exfalso.
  unfold Sort.step in E. rewrite Hw in E. cbn [of_option obind] in E.
  assert (forall w' : worker, at_phase w' <> at_phase w \/ todo w' <> todo w -> forall st1,
    workers st1 = workers st -> with_worker i w' st1 <> st) as Hne.
  { intros w' Hd st1 E1 E2. apply (f_equal (fun x => workers x !! i)) in E2. cbn in E2.
    rewrite E1, list_lookup_insert_eq, Hw in E2 by (by eapply lookup_lt_Some). injection E2 as ->. naive_solver. }
  destruct w as [l ph]. cbn [at_phase todo] in *. destruct ph as [|item keys p|item p word|item p].
  - destruct l as [|x l]; [naive_solver|]. destruct (sort_keys _ _ x) as [k| |]; try done. cbn [obind] in E.
    destruct (find_partition _ _ _ _) as [p| |]; try done. cbn [obind] in E. injection E as E.
    revert E. apply Hne; [by left|done].
  - destruct Hfree as [(? & ? & ? & [=])|Hfree]. unfold check_flag in E. rewrite Hfree in E.
    destruct (partitions st !! p) as [q|]; [|done]. cbn [of_option obind] in E.
    destruct (flag_at _ p) as [[]| |]; try done; cbn [obind] in E.
    + destruct (first_sort_key q); [injection E as E; revert E; apply Hne; [by left|done]|].
      destruct (keys_equal _ _); [injection E as E; revert E; apply Hne; [by left|done]|].
      destruct (flag_words st !! _); [|done]. cbn [of_option obind] in E. injection E as E. revert E. apply Hne; [by left|done].
    + injection E as E. revert E. apply Hne; [by left|done].
  - injection E as E. revert E. apply Hne; [by left|done].
  - unfold write_output in E. destruct (row_string item); try done. cbn [obind] in E.
    destruct (partitions st !! p); [|done]. cbn [of_option obind] in E. injection E as E. revert E. apply Hne; [by left|done].
Qed.

(** *** Sorting the partitions *)

Definition key_le a b : Prop := key_cmp sort_orders (key a) (key b) <> Gt.

Lemma sort_chunk_spec std_sort `{!StdSort std_sort} rs : Forall row_fine rs ->
  exists out, sort_one_chunk std_sort sort_columns sort_orders rs = Ok out /\ out ≡ₚ rs /\ StronglySorted key_le out.
Proof.
  intros Hf. apply (std_sort_spec row _ row_fine (fun a b => key_cmp sort_orders (key a) (key b))); [| |done].
  - pose proof (key_preorder types sort_orders) as Hpo. split.
    + intros x y (_ & Hx & _) (_ & Hy & _). by apply (po_flip Hpo).
    + intros x y z (_ & Hx & _) (_ & Hy & _) (_ & Hz & _). by apply (po_trans Hpo).
  - intros a b (Ea & Ha & _) (Eb & Hb & _).
    rewrite (less_than_partial_spec _ _ _ _ (key a) (key b)) by done. by apply (less_than_full_spec types).
Qed.

Lemma read_rows_back n rs : Forall row_fine rs -> Forall (fun r => length r = n) rs ->
  otraverse (read_row n) (map enc_row rs) = Ok rs.
Proof.
  intros Hf Hn. induction Hf as [|r rs (_ & _ & Hr) _ IH]; [done|]. apply Forall_cons in Hn as [<- Hn]. cbn.
  rewrite read_row_spec by done. cbn. by rewrite IH.
Qed.

Lemma all_equal_sorted k rs : key_ok types k -> Forall row_fine rs ->
  (forall r, r ∈ rs -> key_cmp sort_orders (key r) k = Eq) -> StronglySorted key_le rs.
Proof.
  intros Hk Hf. pose proof (key_preorder types sort_orders) as Hpo.
  induction Hf as [|r rs (_ & Hr & _) Hf IH]; intros Heq; constructor.
  - apply IH. intros x Hx. apply Heq. by right.
  - rewrite Forall_forall in *. intros x Hx. destruct (Hf x Hx) as (_ & Hx' & _). unfold key_le.
    rewrite (po_eq_l _ _ (key r) k (key x) Hpo), (po_flip Hpo (key x) k) by (try done; apply Heq; left).
    by rewrite Heq by by right.
Qed.

Definition segment_of rs out : Prop := out ≡ₚ rs /\ StronglySorted key_le out.

Lemma sort_segment_spec std_sort `{!StdSort std_sort} st dn n p q rs : flags_ok st dn ->
  partitions st !! p = Some q -> dn !! p = Some rs -> contents q = map enc_row rs ->
  Forall row_fine rs -> Forall (fun r => length r = n) rs -> (exists b, flag_at (flag_words st) p = Ok b) ->
  exists out, obind (flag_at (flag_words st) p) (fun sorted => sort_segment std_sort sort_columns sort_orders n sorted q) = Ok out /\
    segment_of rs out.
Proof.
  intros [_ _ Hfl] Hq Hrs Ec Hf Hn [b Hb]. rewrite Hb. cbn [obind]. unfold sort_segment. rewrite Ec, read_rows_back by done.
  cbn [obind]. destruct b; [|by apply sort_chunk_spec].
  exists rs. split; [done|]. split; [done|]. destruct rs as [|r rs]; [constructor|].
  assert (forall x, x ∈ r :: rs -> key_ok types (first_sort_key q) /\ key_cmp sort_orders (key x) (first_sort_key q) = Eq) as Hall
    by (intros x Hx; apply (Hfl p q x Hq Hb); left; by eexists).
  apply (all_equal_sorted (first_sort_key q)); [apply (Hall r); left|done|]. intros x Hx. by apply Hall.
Qed.

Lemma otraverse_zip {A B C} (f : nat * A -> outcome C) (R : B -> C -> Prop) (l : list A) : forall (m : list B) k,
  length m = length l ->
  (forall i x y, l !! i = Some x -> m !! i = Some y -> exists z, f ((k + i)%nat, x) = Ok z /\ R y z) ->
  exists zs, otraverse f (zip (seq k (length l)) l) = Ok zs /\ Forall2 R m zs.
Proof.
  induction l as [|x l IH]; intros [|y m] k Hl H; try done; [by exists []|]. cbn.
  destruct (H 0%nat x y eq_refl eq_refl) as (z & Ez & Hz). rewrite Nat.add_0_r in Ez. rewrite Ez. cbn [obind].
  destruct (IH m (S k)) as (zs & E & Hzs); [by injection Hl| |].
  - intros i x' y' Hx Hy. replace (S k + i)%nat with (k + S i)%nat by lia. by apply H.
  - rewrite E. exists (z :: zs). split; [done|by constructor].
Qed.

Lemma segments_sorted dn segs : Forall2 segment_of dn segs -> forall k,
  (forall p rs r, dn !! p = Some rs -> r ∈ rs -> goes_to (key r) (k + p)%nat /\ row_fine r) ->
  StronglySorted key_le (concat segs) /\ concat segs ≡ₚ concat dn.
Proof.
  induction 1 as [|rs out dn segs [Hp Hs] H2 IH]; intros k Hwhere; [by split; [constructor|]|]. cbn [concat].
  destruct (IH (S k)) as [IHs IHp].
  { intros p rs' r Hp' Hr. rewrite Nat.add_succ_comm. by apply (Hwhere (S p) rs'). }
  split; [|by rewrite Hp, IHp]. apply StronglySorted_app_2; [|done|done].
  intros x y Hx Hy. rewrite Hp in Hx. rewrite IHp in Hy.
  destruct (Hwhere 0%nat rs x eq_refl Hx) as [Gx (_ & Kx & _)]. rewrite Nat.add_0_r in Gx.
  apply list_elem_of_In, in_concat in Hy as (rs' & Hin%list_elem_of_In & Hy%list_elem_of_In).
  apply list_elem_of_lookup in Hin as [j Hj].
  destruct (Hwhere (S j) rs' y Hj Hy) as [Gy (_ & Ky & _)].
  apply (partition_order types _ pivots _ _ k (k + S j)); try done. lia.
Qed.

(** The result of a run in which the flags are kept *)
Lemma sort_segments_spec std_sort `{!StdSort std_sort} rows st dn n : inv rows st dn -> flags_ok st dn ->
  finished st = true -> Forall row_fine rows -> Forall (fun r => length r = n) rows ->
  exists segs, sort_segments std_sort sort_columns sort_orders n st = Ok segs /\ length segs = length (partitions st) /\
    concat segs ≡ₚ rows /\ StronglySorted key_le (concat segs).
Proof.
  intros H Hfl Hfin Hf Hn. pose proof (iv_rows _ _ _ H) as Hperm. rewrite (finished_spec st Hfin), app_nil_r in Hperm.
  assert (forall p rs, dn !! p = Some rs -> Forall row_fine rs /\ Forall (fun r => length r = n) rs) as Hdn.
  { intros p rs Hp. rewrite !Forall_forall in *. split; intros r Hr; [apply Hf|apply Hn]; rewrite <- Hperm;
      apply list_elem_of_In, in_concat; exists rs; (split; apply list_elem_of_In; [|done]); by eapply list_elem_of_lookup_2. }
  pose proof (Forall2_length _ _ _ (iv_contents _ _ _ H)) as Hlen.
  destruct (otraverse_zip (fun x => obind (flag_at (flag_words st) x.1)
      (fun sorted => sort_segment std_sort sort_columns sort_orders n sorted x.2)) segment_of (partitions st) dn 0)
    as (segs & E & Hs); [done| |].
  - intros p q rs Hq Hrs. destruct (Hdn p rs Hrs) as [Hf' Hn'].
    pose proof (Forall2_lookup_lr _ _ _ _ _ _ (iv_contents _ _ _ H) Hq Hrs).
    apply (sort_segment_spec std_sort st dn n p q rs); try done.
    apply lookup_lt_Some in Hq. rewrite (iv_count _ _ _ H) in Hq.
    destruct (word_exists rows st dn p H ltac:(lia)) as [word Hw]. unfold flag_at. cbn [fst Nat.add]. rewrite Hw. by eexists.
  - exists segs. split; [exact E|]. split; [by rewrite Hlen, (Forall2_length _ _ _ Hs)|].
    destruct (segments_sorted dn segs Hs 0) as [H1 H2]; [|split; [by etransitivity|done]].
    intros p rs r Hp Hr. split; [by apply (iv_where _ _ _ H p rs)|].
    destruct (Hdn p rs Hp) as [Hf' _]. rewrite Forall_forall in Hf'. by apply Hf'.
Qed.
End scatter.
