(* ===== verification/SortSpec.v ===== *)
(** What [Sort.sort] promises, and where it fails: the composition of scattering
    ([SortCorrect]) with the reader and the writer of frames ([SFrameCorrect]). *)
From Stdlib Require Import ZArith Lia List Bool Sorted.
From stdpp Require Import prelude list strings sorting.
From S2P Require Import JoinGrace.
From S2P Require Import Groupby.
From S2P Require Import Prelude.
From S2P Require Import Double.
From S2P Require Import Archive.
From S2P Require Import FlexibleType.
From S2P Require Import FlexibleOps.
From S2P Require Import SFrame.
From S2P Require Import SFrameCorrect.
From S2P Require Import Sort.
From S2P Require Import SortCorrect.
Import SFrame.

(** ** Writing the result *)

Lemma write_names_kept given : Forall (fun n => n <> ""%string) given -> forall names,
  write_names true true given names = Ok (names ++ given).
Proof.
  induction 1 as [|g given Hg _ IH]; intros names; [by rewrite app_nil_r|]. cbn [write_names].
  rewrite (proj2 (String.eqb_neq g "")) by done. cbn [negb orb obind]. rewrite String.eqb_refl. cbn [negb andb assert obind].
  by rewrite IH, <- app_assoc.
Qed.

Lemma open_like sf n : wf sf ->
  exists w, open_for_write (column_names sf) (column_types sf) n true = Ok w /\
    holds w (replicate n []) /\ w_types w = column_types sf /\ w_names w = column_names sf.
Proof.
  intros H. assert (length (column_names sf) = length (column_types sf)) as Hl
    by (unfold column_types; by rewrite length_map, (wf_length _ H)).
  destruct (wf_names _ H) as [Hd Hne].
  destruct (open_for_write (column_names sf) (column_types sf) n true) as [w| |] eqn:E; cycle 1.
  1-2: exfalso; revert E; unfold open_for_write; rewrite Hl, Nat.eqb_refl; cbn [assert obind];
    rewrite (proj2 (all_unique_spec _) Hd), write_names_kept by done; done.
  destruct (open_for_write_holds _ _ _ _ _ E) as (Hw & Ht & _ & Hn). exists w. split_and!; [done|done|done|].
  rewrite (proj2 (all_unique_spec _) Hd), write_names_kept in Hn by done. by injection Hn.
Qed.

Section writing.
Context (fmt_double : Z -> bytes) {ptime : Type} (time_t_epoch : ptime)
  (add_seconds : ptime -> Z -> ptime) (to_iso_string : ptime -> bytes).
Abbreviation writes := (write_rows fmt_double time_t_epoch add_seconds to_iso_string).

Lemma write_rows_all ops : forall w, Forall (fun o => length o.2 = length (w_types w)) ops ->
  writes ops w = write_all fmt_double time_t_epoch add_seconds to_iso_string ops w.
Proof.
  unfold write_rows. induction ops as [|[s r] ops IH]; intros w H; [done|]. apply Forall_cons in H as [Hr H].
  cbn [ofold write_all fst snd] in *. unfold write_move. rewrite Hr, Nat.eqb_refl. cbn [assert obind].
  destruct (SFrame.write _ _ _ _ _ _ _) as [w1| |] eqn:E; [|done|done]. cbn [obind]. apply IH.
  unfold SFrame.write in E. destruct (convert_row _ _ _ _ _ _) as [v| |]; [|done|done]. cbn [obind] in E.
  destruct (write_values _ _ _); [|done|done]. injection E as <-. exact H.
Qed.

(** The frame that holds the rows of [segs] *)
Lemma write_segments sf segs ops : wf sf -> columns sf <> [] ->
  Forall (fun o => (o.1 < length segs)%nat) ops ->
  (forall s, (s < length segs)%nat -> Some (rows_for s ops) = segs !! s) ->
  Forall (Forall2 typed_value (column_types sf)) (map snd ops) ->
  exists w w', open_for_write (column_names sf) (column_types sf) (length segs) true = Ok w /\ writes ops w = Ok w' /\
    has_rows (close w') (concat segs) /\ wf (close w') /\
    column_names (close w') = column_names sf /\ column_types (close w') = column_types sf.
Proof.
  intros Hwf Hne Hs Hsegs Hty. destruct (open_like sf (length segs) Hwf) as (w & Ew & Hw & Et & En).
  assert (w_segments w = length segs) as Hn by (by rewrite <- (ho_segments _ _ Hw), length_replicate).
  assert (Forall (fun o => length o.2 = length (w_types w)) ops) as Hlen.
  { rewrite Et. rewrite Forall_map in Hty. eapply Forall_impl; [exact Hty|]. intros o Ho. symmetry. exact (Forall2_length _ _ _ Ho). }
  destruct (write_all_spec fmt_double time_t_epoch add_seconds to_iso_string ops ops w _ Hw) as (w' & E & Hw' & Et' & En').
  - rewrite Hn. apply Forall_and. by split.
  - rewrite Et. rewrite Forall_map in Hty. clear -Hty. induction Hty as [|o ops Ho _ IH]; constructor; [|done].
    split; [done|]. by apply convert_row_same.
  - rewrite imap_replicate_nil in Hw'.
    assert (map (fun s => rows_for s ops) (seq 0 (length segs)) = segs) as Eseg.
    { apply list_eq. intros s. rewrite list_lookup_fmap. destruct (decide (s < length segs)%nat).
      - rewrite lookup_seq_lt by done. cbn. by apply Hsegs.
      - rewrite lookup_seq_ge by lia. symmetry. apply lookup_ge_None_2. lia. }
    rewrite Eseg in Hw'. exists w, w'. split; [done|]. split; [by rewrite write_rows_all|].
    assert (w_types w' <> []) as Hne'.
    { rewrite Et', Et. unfold column_types. by destruct (columns sf). }
    destruct (close_rows w' segs Hw' Hne') as [Hr _]. split_and!; [done| | |].
    + apply (holds_wf w' segs Hw'); rewrite En', En; [apply (wf_names _ Hwf)|].
      rewrite Et', Et. unfold column_types. by rewrite length_map, (wf_length _ Hwf).
    + cbn. congruence.
    + rewrite <- Et, <- Et'. unfold column_types. rewrite (columns_close w' segs Hw'). apply list_eq. intros i. rewrite list_lookup_fmap, list_lookup_imap.
      by destruct (w_types w' !! i).
Qed.
End writing.

(** ** Frames that can be sorted *)

(** The types of the sort columns *)
Definition key_types (sf : sframe) (cols : list nat) : list flex_type_enum :=
  map (fun c => default UNDEFINED (column_types sf !! c)) cols.

(** The frame [sf] with the rows [rs], without a NaN in the sort columns *)
Record sort_input (sf : sframe) (names : list string) (orders : list bool) (cols : list nat) (rs : list row) : Prop := {
  si_wf : wf sf;
  si_rows : has_rows sf rs;
  si_columns : columns sf <> [];
  si_values : Forall (Forall flex_ok) rs;
  si_indexes : sort_column_indexes sf names = Ok cols;
  si_orders : length names = length orders;
  si_numbers : Forall (fun r => forall c b, c ∈ cols -> r !! c = Some (FFloat b) -> is_nan b = false) rs
}.

Lemma sort_column_indexes_spec sf names : forall cols, sort_column_indexes sf names = Ok cols ->
  length cols = length names /\
  Forall (fun c => exists t, column_types sf !! c = Some t /\ supported_type t = true) cols.
Proof.
  induction names as [|n names IH]; intros cols; cbn [sort_column_indexes]; [intros [= <-]; by split|].
  destruct (column_index sf n) as [i| |]; try done. cbn [obind]. unfold column_type.
  destruct (columns sf !! i) as [c|] eqn:Ec; [|done]. cbn [obind].
  destruct (supported_type (sa_type c)) eqn:Et; [|done].
  destruct (sort_column_indexes sf names) as [l| |]; try done. intros [= <-].
  destruct (IH l eq_refl) as [Hl Hf]. split; [cbn; congruence|]. constructor; [|done].
  exists (sa_type c). unfold column_types. by rewrite list_lookup_fmap, Ec.
Qed.

Lemma sort_input_fine sf names orders cols rs : sort_input sf names orders cols rs ->
  length (key_types sf cols) = length orders /\ length cols = length orders /\
  Forall (row_fine (key_types sf cols) cols) rs /\ Forall (fun r => length r = num_columns sf) rs.
Proof.
  intros [Hwf Hr Hne Hv Hi Ho Hnum]. destruct (sort_column_indexes_spec _ _ _ Hi) as [Hl Hc].
  split; [unfold key_types; rewrite length_map; congruence|]. split; [congruence|]. split; [|apply (hr_width _ _ Hr)].
  pose proof (rows_typed sf rs Hwf Hr) as Ht. rewrite Forall_forall in Hc. rewrite Forall_forall in Ht. rewrite Forall_forall in Hv.
  rewrite Forall_forall in Hnum. apply Forall_forall. intros r Hin.
  specialize (Ht r Hin). specialize (Hv r Hin). specialize (Hnum r Hin).
  assert (exists k, key_of cols r = Some k /\ key_ok (key_types sf cols) k) as (k & Ek & Hk).
  { clear Hi Hl. unfold key_types. induction cols as [|c cols IH]; [exists []; by split; [|constructor]|].
    destruct (Hc c ltac:(left)) as (t & Et & Hs). destruct (Forall2_lookup_l _ _ _ _ _ Ht Et) as (v & Ev & Hty).
    destruct IH as (k & Ek & Hk).
    { intros x b Hx. apply Hnum. by right. }
    { intros x Hx. apply Hc. by right. }
    exists (v :: k). split; [unfold key_of in *; cbn; by rewrite Ev, Ek|]. cbn [map]. rewrite Et. constructor; [|done].
    cbn [default]. assert (flex_ok v) as Hok by (rewrite Forall_forall in Hv; apply Hv; by eapply list_elem_of_lookup_2).
    pose proof (Hnum c) as Hnan. rewrite Ev in Hnan. unfold typed_value, bad_type in Hty.
    destruct v, t; cbn in *; try done. split_and!; [done|done|]. apply Hnan; [left|done]. }
  unfold row_fine, key. rewrite Ek. by split_and!.
Qed.

(** ** The order in which rows are written *)

Definition merges (interleave : list (list row) -> list (nat * row)) : Prop := forall segs,
  Forall (fun o => (o.1 < length segs)%nat) (interleave segs) /\
  forall s, (s < length segs)%nat -> Some (rows_for s (interleave segs)) = segs !! s.

Lemma merges_typed interleave segs (P : row -> Prop) : merges interleave -> Forall P (concat segs) ->
  Forall P (map snd (interleave segs)).
Proof.
  intros Hm Hc. destruct (Hm segs) as [H1 H2]. rewrite Forall_map. rewrite Forall_forall in H1. rewrite Forall_forall in Hc. apply Forall_forall. intros [s r] Hin.
  specialize (H1 _ Hin). cbn in *. specialize (H2 s H1). destruct (segs !! s) as [rs|] eqn:Es; [|done]. injection H2 as H2.
  apply Hc. apply list_elem_of_In, in_concat. exists rs. split; [apply list_elem_of_In; by eapply list_elem_of_lookup_2|].
  rewrite <- H2. unfold rows_for. apply in_map_iff. exists (s, r). split; [done|]. apply filter_In.
  split; [by apply list_elem_of_In|apply Nat.eqb_refl].
Qed.

(** One segment after the other *)
Fixpoint in_order_from (k : nat) (segs : list (list row)) : list (nat * row) :=
  match segs with [] => [] | rs :: segs => map (pair k) rs ++ in_order_from (S k) segs end.
Definition in_order (segs : list (list row)) : list (nat * row) := in_order_from 0 segs.

Lemma rows_for_app s l1 l2 : rows_for s (l1 ++ l2) = rows_for s l1 ++ rows_for s l2.
Proof. unfold rows_for. by rewrite List.filter_app, map_app. Qed.
Lemma rows_for_pair s k rs : rows_for s (map (pair k) rs) = if (k =? s)%nat then rs else [].
Proof. unfold rows_for. induction rs as [|r rs IH]; [by case_match|]. cbn. destruct (k =? s)%nat; cbn; by rewrite IH. Qed.

Lemma in_order_from_spec segs : forall k,
  Forall (fun o => (k <= o.1 < k + length segs)%nat) (in_order_from k segs) /\
  forall s, (s < length segs)%nat -> Some (rows_for (k + s) (in_order_from k segs)) = segs !! s.
Proof.
  induction segs as [|rs segs IH]; intros k; cbn [in_order_from length]; [split; [constructor|lia]|].
  destruct (IH (S k)) as [H1 H2]. split.
  - apply Forall_app. split; [apply Forall_map, Forall_true; cbn; lia|]. eapply Forall_impl; [exact H1|]. cbn. lia.
  - intros s Hs. rewrite rows_for_app, rows_for_pair.
    assert (forall m, (m < S k)%nat -> rows_for m (in_order_from (S k) segs) = []) as Hnone.
    { intros m Hm. clear -H1 Hm. unfold rows_for. induction H1 as [|o l Ho _ IH]; [done|]. cbn.
      rewrite (proj2 (Nat.eqb_neq o.1 m)) by lia. exact IH. }
    destruct s as [|s].
    + rewrite Nat.add_0_r, Nat.eqb_refl, Hnone by lia. by rewrite app_nil_r.
    + rewrite (proj2 (Nat.eqb_neq k (k + S s))) by lia. cbn [app]. rewrite <- Nat.add_succ_comm. apply H2. lia.
Qed.
Lemma in_order_merges : merges in_order.
Proof.
  intros segs. destruct (in_order_from_spec segs 0) as [H1 H2]. split; [|exact H2].
  eapply Forall_impl; [exact H1|]. cbn. lia.
Qed.

(** ** The operation *)

(** A schedule of [dop] workers that lets all of them finish, in which no two
    update a word of flags at a time *)
Definition good_schedule (cols : list nat) (orders : list bool) (pivots : list row) (inputs : list (list row))
    (sched : list nat) : Prop :=
  Forall (fun i => (i < length inputs)%nat) sched /\
  clean cols orders pivots sched (start (S (length pivots)) inputs) /\
  forall st, ofold (step cols orders (map FList pivots)) sched (start (S (length pivots)) inputs) = Ok st ->
    finished st = true.

Section operation.
Context (std_sort : forall A, (A -> A -> outcome bool) -> list A -> outcome (list A)) {Hsort : StdSort std_sort}.
Context (fmt_double : Z -> bytes) {ptime : Type} (time_t_epoch : ptime)
  (add_seconds : ptime -> Z -> ptime) (to_iso_string : ptime -> bytes).

(** The frame that sorting returns *)
Definition sorted_frame (sf : sframe) (cols : list nat) (orders : list bool) (rs : list row) (sf' : sframe) : Prop :=
  wf sf' /\ column_names sf' = column_names sf /\ column_types sf' = column_types sf /\
  exists rs', has_rows sf' rs' /\ rs' ≡ₚ rs /\ StronglySorted (key_le cols orders) rs'.

Lemma in_memory_spec sf names orders cols rs : sort_input sf names orders cols rs ->
  exists sf', sort_sframe_in_memory std_sort cols orders fmt_double time_t_epoch add_seconds to_iso_string sf = Ok sf' /\
    sorted_frame sf cols orders rs sf'.
Proof.
  intros H. destruct (sort_input_fine _ _ _ _ _ H) as (Hlt & Hlc & Hf & _). destruct H as [Hwf Hr Hne _ _ _ _].
  unfold sort_sframe_in_memory. destruct (get_reader_even_spec sf rs 1 Hr ltac:(lia) Hne) as (segs & -> & _ & <-).
  cbn [omap_ok obind].
  destruct (sort_chunk_spec (key_types sf cols) cols orders Hlt Hlc std_sort _ Hf) as (out & -> & Hp & Hs). cbn [obind].
  destruct (write_segments fmt_double time_t_epoch add_seconds to_iso_string sf [out] (map (pair 0%nat) out))
    as (w & w' & Eo & Ew & Hr' & Hwf' & En & Et); [done|done| | | |].
  - apply Forall_map, Forall_true. cbn. lia.
  - intros [|s] Hs'; [|cbn in Hs'; lia]. by rewrite rows_for_pair.
  - rewrite map_map. cbn [snd]. rewrite map_id, Hp. by apply rows_typed.
  - cbn [length] in Eo. rewrite Eo. cbn [obind]. rewrite Ew. cbn [obind]. exists (close w'). split; [done|].
    split_and!; try done. cbn in Hr'. rewrite app_nil_r in Hr'. by exists out.
Qed.

Lemma eager_sort_spec sf names orders cols rs pivots interleave st dn : sort_input sf names orders cols rs ->
  Forall (key_ok (key_types sf cols)) pivots -> merges interleave ->
  inv cols orders pivots rs st dn -> flags_ok (key_types sf cols) cols orders st dn -> finished st = true ->
  exists sf', eager_sort std_sort cols orders fmt_double time_t_epoch add_seconds to_iso_string interleave sf st = Ok sf' /\
    sorted_frame sf cols orders rs sf'.
Proof.
  intros H Hpiv Hm Hinv Hfl Hfin. destruct (sort_input_fine _ _ _ _ _ H) as (Hlt & Hlc & Hf & Hw).
  destruct H as [Hwf Hr Hne _ _ _ _].
  destruct (sort_segments_spec _ cols orders pivots Hlt Hlc Hpiv std_sort rs st dn (num_columns sf) Hinv Hfl Hfin Hf Hw)
    as (segs & Es & Hl & Hp & Hs).
  destruct (write_segments fmt_double time_t_epoch add_seconds to_iso_string sf segs (interleave segs))
    as (w & w' & Ew & Ew' & Hr' & Hwf' & En & Et); [done|done|apply Hm|apply Hm| |].
  - apply merges_typed; [done|]. rewrite Hp. by apply rows_typed.
  - unfold eager_sort. rewrite <- Hl, Ew. cbn [obind]. rewrite Es. cbn [obind]. rewrite Ew'. cbn [obind].
    exists (close w'). split; [done|]. split_and!; try done. by exists (concat segs).
Qed.
End operation.

(** C16. [sort] returns a frame with the same columns and names that holds the rows
    of the frame it is given, in an order in which no key is above the key of a
    later row (undefined values lowest; a column may ascend or descend), both when
    it sorts in memory and when it scatters the rows to partitions; whatever the
    pivots, the number of processors, the interleaving of the workers and the
    order in which the partitions are written, provided that no two workers are
    about to update the same word of [partition_sorted] at a time and that the
    sort columns hold no NaN. *)
Theorem sort_correct std_sort (Hsort : StdSort std_sort) fmt_double ptime (epoch : ptime) add_seconds to_iso_string
    cpu_count buffer_size max_segments get_partition_keys sched interleave sf names orders cols rs n :
  sort_input sf names orders cols rs -> 1 <= cpu_count -> merges interleave ->
  number_of_partitions cpu_count buffer_size max_segments sf = Ok n ->
  (cpu_count < n -> exists keys pivots, select_columns sf names = Ok keys /\
    get_partition_keys keys orders (Z.to_nat n) = Ok (map FList pivots) /\ Forall (key_ok (key_types sf cols)) pivots /\
    forall inputs, get_reader_even sf (Z.to_nat cpu_count) = Ok inputs -> good_schedule cols orders pivots inputs sched) ->
  exists sf', sort std_sort fmt_double epoch add_seconds to_iso_string cpu_count buffer_size max_segments
      get_partition_keys sched interleave sf names orders = Ok sf' /\
    sorted_frame sf cols orders rs sf'.
Proof.
  intros H Hcpu Hm Hn Hbig. unfold sort. rewrite (si_indexes _ _ _ _ _ H), Hn. cbn [obind].
  destruct (Z.leb_spec n cpu_count) as [Hle|Hgt]; [by apply (in_memory_spec std_sort _ _ _ _ _ names)|].
  destruct (Hbig Hgt) as (keys & pivots & -> & Hk & Hpiv & Hgood). cbn [obind]. rewrite Hk. cbn [obind].
  destruct (sort_input_fine _ _ _ _ _ H) as (Hlt & Hlc & Hf & _).
  destruct (get_reader_even_spec sf rs (Z.to_nat cpu_count) (si_rows _ _ _ _ _ H) ltac:(lia) (si_columns _ _ _ _ _ H))
    as (inputs & Ei & Hl & Hc).
  rewrite Ei. cbn [obind]. destruct (Hgood inputs Ei) as (Hsched & Hclean & Hfin).
  unfold scatter_partition. rewrite length_map.
  destruct (run_spec (key_types sf cols) cols orders pivots Hlt Hlc Hpiv rs sched
    (start (S (length pivots)) inputs) (replicate (S (length pivots)) [])) as (st & dn & E & Hinv & Hfl).
  - rewrite <- Hc. apply start_inv.
  - done.
  - cbn [start workers]. by rewrite length_map.
  - rewrite E. cbn [obind]. rewrite (Hfin st E). cbn [obind].
    apply (eager_sort_spec std_sort _ _ _ _ _ names _ _ _ pivots interleave st dn); try done; [|by apply Hfin].
    apply Hfl; [apply start_flags|done].
Qed.

(** ** Checking schedules *)

Definition is_storing (w : worker) : bool := match at_phase w with Storing _ _ _ => true | _ => false end.
Definition one_storing (st : scatter) : bool := (length (List.filter is_storing (workers st)) <=? 1)%nat.

Lemma filter_two {A} (f : A -> bool) (l : list A) : forall i j x y, l !! i = Some x -> l !! j = Some y ->
  f x = true -> f y = true -> i <> j -> (2 <= length (List.filter f l))%nat.
Proof.
  induction l as [|z l IH]; intros [|i] [|j] x y Hi Hj Hx Hy Hne; try done; cbn [List.filter].
  - injection Hi as ->. rewrite Hx. cbn. apply le_n_S.
    assert (In y (List.filter f l)) as Hin by (apply filter_In; split; [apply list_elem_of_In; by eapply list_elem_of_lookup_2|done]).
    destruct (List.filter f l); [done|cbn; lia].
  - injection Hj as ->. rewrite Hy. cbn. apply le_n_S.
    assert (In x (List.filter f l)) as Hin by (apply filter_In; split; [apply list_elem_of_In; by eapply list_elem_of_lookup_2|done]).
    destruct (List.filter f l); [done|cbn; lia].
  - assert (2 <= length (List.filter f l))%nat by (apply (IH i j x y); [done|done|done|done|congruence]).
    destruct (f z); cbn; lia.
Qed.

Lemma one_storing_spec st : one_storing st = true -> no_overlap st.
Proof.
  intros H%Nat.leb_le i j p q a b Hne (l1 & x1 & E1) (l2 & x2 & E2).
  pose proof (filter_two is_storing _ i j _ _ E1 E2 eq_refl eq_refl Hne). lia.
Qed.

(** At most one worker updates flags at a time in the whole run. *)
Fixpoint clean_check (cols : list nat) (orders : list bool) (pivots : list row) (sched : list nat) (st : scatter) : bool :=
  one_storing st &&
  match sched with
  | [] => true
  | i :: sched =>
      match step cols orders (map FList pivots) i st with Ok st' => clean_check cols orders pivots sched st' | _ => true end
  end.
Lemma clean_check_spec cols orders pivots sched : forall st,
  clean_check cols orders pivots sched st = true -> clean cols orders pivots sched st.
Proof.
  induction sched as [|i sched IH]; intros st [H1 H2]%andb_true_iff; cbn [clean]; (split; [by apply one_storing_spec|]); [done|].
  destruct (step _ _ _ i st); [by apply IH|done|done].
Qed.

(** ** Samples *)

Definition sample_frame : sframe := mk_sframe [mk_sarray [[FInt 2; FInt 1]; [FInt 4; FInt 3]] INTEGER] ["x"%string] 4.
Definition sample_rows : list row := [[FInt 2]; [FInt 1]; [FInt 4]; [FInt 3]].
Definition sample_pivots : list row := [[FInt 2]; [FInt 4]; [FInt 9]].
Definition sample_sort (sched : list nat) : outcome sframe :=
  sort (@sort_by) (fun _ => []) tt (fun u _ => u) (fun _ => []) 2 128 128
    (fun _ _ _ => Ok (map FList sample_pivots)) sched in_order sample_frame ["x"%string] [true].

Lemma sample_input : sort_input sample_frame ["x"%string] [true] [0%nat] sample_rows.
Proof.
  split.
  - split; cbn; try done.
    + by repeat constructor.
    + split; [apply NoDup_singleton|by repeat constructor].
    + by repeat constructor.
  - split; cbn; [done|by repeat constructor|done].
  - done.
  - repeat constructor; cbn; lia.
  - reflexivity.
  - done.
  - repeat constructor; intros c b ->%list_elem_of_singleton; done.
Qed.

(** The workers one after the other, and both at once *)
Definition in_turn : list nat := replicate 7 0%nat ++ replicate 7 1%nat.
Definition at_once : list nat := [0; 0; 0; 1; 1; 1; 0; 0; 1; 1; 0; 1; 0; 1; 0; 0; 1; 1]%nat.

Lemma sort_correct_witness : exists sf', sample_sort in_turn = Ok sf' /\
  sorted_frame sample_frame [0%nat] [true] sample_rows sf'.
Proof.
  apply (sort_correct (@sort_by) insertion_sort_std (fun _ => []) unit tt (fun u _ => u) (fun _ => []) 2 128 128
    (fun _ _ _ => Ok (map FList sample_pivots)) in_turn in_order sample_frame ["x"%string] [true] [0%nat] sample_rows 4).
  - exact sample_input.
  - lia.
  - exact in_order_merges.
  - vm_compute. reflexivity.
  - intros _. eexists _, sample_pivots. split; [vm_compute; reflexivity|]. split; [reflexivity|].
    split; [repeat constructor|]. intros inputs E.
    assert (inputs = [[[FInt 2]; [FInt 1]]; [[FInt 4]; [FInt 3]]]) as -> by (vm_compute in E; congruence).
    split; [repeat constructor|]. split; [apply clean_check_spec; vm_compute; reflexivity|].
    intros st Est. vm_compute in Est. injection Est as <-. reflexivity.
Defined.

(** *** The flags of the partitions race *)

(** A worker that has found a row whose key differs from the first key of its
    partition, and is about to clear the flag *)
Record finds_unsorted (st : scatter) (i : nat) (rest : list row) (item keys : row) (p : nat) : Prop := {
  fu_worker : workers st !! i = Some (mk_worker rest (AtFlag item keys p));
  fu_free : flag_locked p st = false;
  fu_flag : flag_at (flag_words st) p = Ok true;
  fu_key : exists q, partitions st !! p = Some q /\ first_sort_key q <> [] /\
             keys_equal (first_sort_key q) keys = false
}.

Lemma flag_stored words w p q : (p / 64 = q / 64)%nat -> (q / 64 < length words)%nat ->
  flag_at (<[(q / 64)%nat := w]> words) p = Ok (Z.testbit w (Z.of_nat (p mod 64))).
Proof. intros E Hl. unfold flag_at. by rewrite E, list_lookup_insert_eq. Qed.

(** Its first step reads the word of the flag. *)
Lemma finds_unsorted_step cols orders pivots st i rest item keys p w :
  finds_unsorted st i rest item keys p -> flag_words st !! (p / 64)%nat = Some w ->
  step cols orders pivots i st = Ok (with_worker i (mk_worker rest (Storing item p w)) st).
Proof.
  intros [Hw Hl Hf (q & Hq & Hne & Hk)] E. unfold step. rewrite Hw. cbn [of_option obind at_phase].
  unfold check_flag. rewrite Hl, Hq, Hf. cbn [of_option obind].
  destruct (first_sort_key q) as [|x l] eqn:Ek; [done|]. by rewrite Hk, E.
Qed.

(** Its second step stores the word with the flag cleared. *)
Lemma storing_step cols orders pivots st i rest item p w :
  workers st !! i = Some (mk_worker rest (Storing item p w)) ->
  step cols orders pivots i st =
  Ok (with_worker i (mk_worker rest (AtOutput item p))
        (with_word (p / 64) (Z.clearbit w (Z.of_nat (p mod 64))) st)).
Proof. intros Hw. unfold step. by rewrite Hw. Qed.

(** A worker that takes its steps for another partition does not get in the way. *)
Lemma flag_locked_other st i w p : flag_locked p st = false -> holds_flag p w = false ->
  flag_locked p (with_worker i w st) = false.
Proof.
  unfold flag_locked. intros H Hw. apply not_true_iff_false. rewrite existsb_exists. intros (x & Hx & Hp).
  apply list_elem_of_In in Hx. cbn in Hx. apply list_elem_of_lookup in Hx as [k Hk].
  apply list_lookup_insert_Some in Hk as [(-> & <- & _)|[_ Hk]]; [congruence|].
  rewrite <- not_true_iff_false, existsb_exists in H. apply H. exists x. split; [|done].
  apply list_elem_of_In. by eapply list_elem_of_lookup_2.
Qed.

Lemma finds_unsorted_other st i w j rest item keys q : i <> j -> holds_flag q w = false ->
  finds_unsorted st j rest item keys q -> finds_unsorted (with_worker i w st) j rest item keys q.
Proof.
  intros Hij Hw [H1 H2 H3 H4]. split; try done; [|by apply flag_locked_other].
  cbn. by rewrite list_lookup_insert_ne.
Qed.

(** C39. The flags of the partitions share 64-bit words, and an update can be lost:
    from every state in which two workers have each found a row whose key
    differs from the first key of its partition, where the flags of the two
    different partitions are in one word, are set, and their locks are free, the
    interleaving in which both read the word before either stores it leaves the
    flag of the first partition set, so that the partition counts as sorted
    although its keys differ, and only the other one cleared; when one worker
    takes its two steps after the other, both flags are cleared. *)
Theorem sort_flags_race cols orders pivots st i j rest1 item1 keys1 p rest2 item2 keys2 q :
  i <> j -> p <> q -> (p / 64 = q / 64)%nat ->
  finds_unsorted st i rest1 item1 keys1 p -> finds_unsorted st j rest2 item2 keys2 q ->
  exists raced ordered,
    ofold (step cols orders pivots) [i; j; i; j] st = Ok raced /\
    flag_at (flag_words raced) p = Ok true /\ flag_at (flag_words raced) q = Ok false /\
    ofold (step cols orders pivots) [i; i; j; j] st = Ok ordered /\
    flag_at (flag_words ordered) p = Ok false /\ flag_at (flag_words ordered) q = Ok false.
Proof.
  intros Hij Hpq Hword H1 H2.
  pose proof (fu_flag _ _ _ _ _ _ H1) as F1. pose proof (fu_flag _ _ _ _ _ _ H2) as F2.
  unfold flag_at in F1, F2. destruct (flag_words st !! (p / 64)%nat) as [w|] eqn:Ew; [|done].
  rewrite <- Hword, Ew in F2. cbn [of_option obind] in F1, F2.
  assert (Z.testbit w (Z.of_nat (p mod 64)) = true /\ Z.testbit w (Z.of_nat (q mod 64)) = true) as [B1 B2]
    by (split; congruence).
  pose proof (lookup_lt_Some _ _ _ Ew) as Hlen.
  pose proof (lookup_lt_Some _ _ _ (fu_worker _ _ _ _ _ _ H1)) as Hi.
  pose proof (lookup_lt_Some _ _ _ (fu_worker _ _ _ _ _ _ H2)) as Hj.
  assert (p mod 64 <> q mod 64)%nat as Hmod.
  { intros E. apply Hpq. rewrite (Nat.div_mod_eq p 64), (Nat.div_mod_eq q 64). lia. }
  assert (forall x w', Z.testbit (Z.clearbit w' (Z.of_nat x)) (Z.of_nat x) = false) as Hclear
    by (intros; apply Z.clearbit_eq).
  assert (forall x y w', x <> y -> Z.testbit (Z.clearbit w' (Z.of_nat x)) (Z.of_nat y) = Z.testbit w' (Z.of_nat y)) as Hkeep
    by (intros; apply Z.clearbit_neq; lia).
  do 2 eexists. cbn [ofold]. rewrite (finds_unsorted_step _ _ _ _ _ _ _ _ _ w H1 Ew). cbn [obind].
  split; [|split; [|split; [|split; [|split]]]].
  - rewrite (finds_unsorted_step _ _ _ _ j rest2 item2 keys2 q w); cycle 1.
    { apply finds_unsorted_other; [done|by apply Nat.eqb_neq|done]. }
    { by rewrite <- Hword. }
    cbn [obind]. rewrite (storing_step _ _ _ _ i rest1 item1 p w); cycle 1.
    { cbn. rewrite list_lookup_insert_ne by done. by apply list_lookup_insert_eq. }
    cbn [obind]. rewrite (storing_step _ _ _ _ j rest2 item2 q w); [reflexivity|].
    cbn. rewrite list_lookup_insert_ne by done. apply list_lookup_insert_eq. by rewrite length_insert.
  - cbn [flag_words with_worker with_word].
    rewrite flag_stored by (rewrite ?length_insert; lia). by rewrite Hkeep, B1 by congruence.
  - cbn [flag_words with_worker with_word].
    rewrite flag_stored by (rewrite ?length_insert; lia). by rewrite Hclear.
  - rewrite (storing_step _ _ _ _ i rest1 item1 p w) by (by apply list_lookup_insert_eq). cbn [obind].
    rewrite (finds_unsorted_step _ _ _ _ j rest2 item2 keys2 q (Z.clearbit w (Z.of_nat (p mod 64)))); cycle 1.
    { apply finds_unsorted_other; [done|done|].
      destruct (finds_unsorted_other st i (mk_worker rest1 (Storing item1 p w)) j rest2 item2 keys2 q Hij
        ltac:(by apply Nat.eqb_neq) H2) as [G1 G2 G3 G4].
      split; [done|done| |done]. cbn [flag_words with_worker with_word].
      rewrite flag_stored by lia. by rewrite Hkeep, B2. }
    { cbn [flag_words with_worker with_word]. rewrite <- Hword. by apply list_lookup_insert_eq. }
    cbn [obind]. rewrite (storing_step _ _ _ _ j rest2 item2 q (Z.clearbit w (Z.of_nat (p mod 64)))); [reflexivity|].
    cbn. apply list_lookup_insert_eq. by rewrite !length_insert.
  - cbn [flag_words with_worker with_word].
    rewrite flag_stored by (rewrite ?length_insert; lia). by rewrite Hkeep, Hclear by congruence.
  - cbn [flag_words with_worker with_word].
    rewrite flag_stored by (rewrite ?length_insert; lia). by rewrite Hclear.
Qed.

(** Two workers on the first two partitions *)
Definition racing : scatter :=
  mk_scatter (replicate 2 (mk_partition [FInt 1] [] 0 0)) [2 ^ 64 - 1]
    [mk_worker [] (AtFlag [FInt 2] [FInt 2] 0); mk_worker [] (AtFlag [FInt 4] [FInt 4] 1)].

Lemma sort_flags_race_witness : exists raced ordered,
  ofold (step [0%nat] [true] []) [0; 1; 0; 1]%nat racing = Ok raced /\
  flag_at (flag_words raced) 0 = Ok true /\ flag_at (flag_words raced) 1 = Ok false /\
  ofold (step [0%nat] [true] []) [0; 0; 1; 1]%nat racing = Ok ordered /\
  flag_at (flag_words ordered) 0 = Ok false /\ flag_at (flag_words ordered) 1 = Ok false.
Proof.
  apply (sort_flags_race [0%nat] [true] [] racing 0 1 [] [FInt 2] [FInt 2] 0 [] [FInt 4] [FInt 4] 1); try lia.
  - reflexivity.
  - split; [reflexivity..|]. by eexists.
  - split; [reflexivity..|]. by eexists.
Defined.

(** What it leads to: a frame that [sort] returns without its rows in order *)
Lemma sort_flags_race_unsorted : exists sf', sort_input sample_frame ["x"%string] [true] [0%nat] sample_rows /\
  sample_sort at_once = Ok sf' /\
  get_reader sf' = Ok [[[FInt 2]; [FInt 1]]; [[FInt 3]; [FInt 4]]; []; []] /\
  ~ StronglySorted (key_le [0%nat] [true]) [[FInt 2]; [FInt 1]; [FInt 3]; [FInt 4]].
Proof.
  eexists. split; [exact sample_input|]. split; [vm_compute; reflexivity|]. split; [vm_compute; reflexivity|].
  intros H. apply StronglySorted_inv in H as [_ H]. apply Forall_cons in H as [H _]. by apply H.
Qed.

(** On a machine with at least [SFRAME_SORT_MAX_SEGMENTS] processors the number of
    partitions never exceeds the number of processors: a frame of any size is
    sorted in memory. *)
Lemma many_processors cpu_count buffer_size max_segments sf n : max_segments <= cpu_count ->
  number_of_partitions cpu_count buffer_size max_segments sf = Ok n -> n <= cpu_count.
Proof.
  intros H. unfold number_of_partitions. destruct (of_option _); try done. cbn [obind].
  destruct (of_option _); try done. cbn [obind]. intros [= <-]. lia.
Qed.

(** ** Termination *)

Lemma step_workers cols orders pivots i st st' : step cols orders pivots i st = Ok st' ->
  length (workers st') = length (workers st).
Proof.
  unfold step. destruct (workers st !! i) as [[l ph]|]; [|done]. cbn [of_option obind at_phase todo].
  destruct ph as [|item keys p|item p word|item p].
  - destruct l as [|item l]; [by intros [= <-]|]. destruct (sort_keys _ _ _); try done. cbn [obind].
    destruct (find_partition _ _ _ _); try done. intros [= <-]. cbn. by rewrite length_insert.
  - unfold check_flag. destruct (flag_locked p st); [by intros [= <-]|]. destruct (partitions st !! p); [|done].
    cbn [of_option obind]. destruct (flag_at _ _) as [[]| |]; try done; cbn [obind].
    + destruct (first_sort_key _); [intros [= <-]; cbn; by rewrite length_insert|].
      destruct (keys_equal _ _); [intros [= <-]; cbn; by rewrite length_insert|].
      destruct (flag_words st !! _); [|done]. intros [= <-]. cbn. by rewrite length_insert.
    + intros [= <-]. cbn. by rewrite length_insert.
  - intros [= <-]. cbn. by rewrite length_insert.
  - unfold write_output. destruct (row_string item); try done. cbn [obind]. destruct (partitions st !! p); [|done].
    intros [= <-]. cbn. by rewrite length_insert.
Qed.

Lemma run_workers cols orders pivots sched : forall st st', ofold (step cols orders pivots) sched st = Ok st' ->
  length (workers st') = length (workers st).
Proof.
  induction sched as [|i sched IH]; intros st st' E; cbn [ofold] in E; [by injection E as ->|].
  destruct (step _ _ _ i st) as [s1| |] eqn:E1; [|done|done]. cbn [obind] in E. rewrite (IH s1 st' E). by eapply step_workers.
Qed.

Lemma completes types cols orders pivots rows : length types = length orders -> length cols = length orders ->
  Forall (key_ok types) pivots -> Forall (row_fine types cols) rows -> forall k st dn,
  (work st <= k)%nat -> inv cols orders pivots rows st dn ->
  exists sched st', Forall (fun i => (i < length (workers st))%nat) sched /\
    ofold (step cols orders (map FList pivots)) sched st = Ok st' /\ finished st' = true.
Proof.
  intros Hl Hc Hp Hf. induction k as [k IH] using lt_wf_ind. intros st dn Hk H.
  destruct (finished st) eqn:E; [by exists [], st|].
  destruct (run_progress types cols orders pivots Hl Hc Hp rows st dn H Hf E) as (i & st1 & Hi & Est & Hw).
  destruct (step_stepped types cols orders pivots Hl Hc Hp rows st dn i H Hf Hi) as (st1' & dn1 & Est' & Hs).
  rewrite Est in Est'. injection Est' as <-. pose proof (inv_stepped _ _ _ _ _ _ _ _ _ H Hs) as H1.
  destruct (IH (work st1) ltac:(lia) st1 dn1 ltac:(lia) H1) as (sched & st' & Hv & Er & Hfin).
  rewrite (step_workers _ _ _ _ _ _ Est) in Hv. exists (i :: sched), st'. split; [by constructor|].
  cbn [ofold]. by rewrite Est.
Qed.

(** C18. Scattering never fails and never gets stuck.  As many sort columns as
    sort orders are given, every row has the sort columns and well-formed values,
    the values there, and those of the pivots, are missing or of the type of
    their column, which is integer, double (not NaN), string or date-time, and
    the schedule names the workers there are.  Then after the schedule every row
    is either written to the partition it belongs to or still to be written,
    once; if a worker has not finished, some worker can take a step that makes
    the work less, and no step increases it, which is four times the number of
    rows in the beginning; and every schedule can be completed. *)
Theorem scatter_terminates types cols orders pivots inputs sched : length types = length orders ->
  length cols = length orders -> Forall (key_ok types) pivots -> Forall (row_fine types cols) (concat inputs) ->
  Forall (fun i => (i < length inputs)%nat) sched ->
  let run := ofold (step cols orders (map FList pivots)) in
  let st0 := start (S (length pivots)) inputs in
  work st0 = (4 * length (concat inputs))%nat /\
  exists st dn, run sched st0 = Ok st /\
    Forall2 (fun q rs => contents q = map enc_row rs) (partitions st) dn /\
    (forall p rs r, dn !! p = Some rs -> r ∈ rs -> in_partition orders pivots (key cols r) p) /\
    concat dn ++ concat (map pending (workers st)) ≡ₚ concat inputs /\
    (forall i, (i < length inputs)%nat -> exists st', step cols orders (map FList pivots) i st = Ok st' /\
       (st' = st \/ (work st' < work st)%nat)) /\
    (finished st = false -> exists i st', (i < length inputs)%nat /\
       step cols orders (map FList pivots) i st = Ok st' /\ (work st' < work st)%nat) /\
    exists rest st', Forall (fun i => (i < length inputs)%nat) rest /\ run (sched ++ rest) st0 = Ok st' /\
      finished st' = true.
Proof.
  intros Hl Hc Hp Hf Hs run st0. split.
  { unfold st0, work, start. cbn [workers]. rewrite map_map. unfold worker_work, phase_work. cbn [todo at_phase].
    clear. induction inputs as [|l ls IH]; [done|]. cbn. rewrite length_app. cbn in IH. lia. }
  assert (length (workers st0) = length inputs) as Hw0 by (unfold st0; cbn; by rewrite length_map).
  destruct (run_spec types cols orders pivots Hl Hc Hp (concat inputs) sched st0 _ (start_inv cols orders pivots inputs) Hf)
    as (st & dn & E & H & _); [by rewrite Hw0|].
  assert (length (workers st) = length inputs) as Hw.
  { rewrite <- Hw0. by eapply run_workers. }
  exists st, dn. split; [exact E|]. split; [apply (iv_contents _ _ _ _ _ _ H)|].
  split; [apply (iv_where _ _ _ _ _ _ H)|]. split; [apply (iv_rows _ _ _ _ _ _ H)|]. rewrite <- Hw. split; [|split].
  - intros i Hi. destruct (step_stepped types cols orders pivots Hl Hc Hp _ st dn i H Hf Hi) as (st' & dn' & E' & Hst).
    exists st'. split; [done|]. by eapply stepped_work.
  - intros Hfin. by apply (run_progress types cols orders pivots Hl Hc Hp (concat inputs) st dn).
  - destruct (completes types cols orders pivots (concat inputs) Hl Hc Hp Hf (work st) st dn ltac:(lia) H) as (rest & st' & Hv & E' & Hfin).
    exists rest, st'. split; [done|]. split; [|done]. unfold run. rewrite ofold_app. unfold run in E. by rewrite E.
Qed.

Lemma scatter_terminates_witness : exists st rest st',
  ofold (step [0%nat] [true] (map FList sample_pivots)) [0; 1; 1; 0; 0]%nat
    (start 4 [[[FInt 2]; [FInt 1]]; [[FInt 4]; [FInt 3]]]) = Ok st /\ finished st = false /\
  ofold (step [0%nat] [true] (map FList sample_pivots)) ([0; 1; 1; 0; 0]%nat ++ rest)
    (start 4 [[[FInt 2]; [FInt 1]]; [[FInt 4]; [FInt 3]]]) = Ok st' /\ finished st' = true.
Proof.
  destruct (sort_input_fine _ _ _ _ _ sample_input) as (H1 & H2 & H3 & _).
  destruct (scatter_terminates (key_types sample_frame [0%nat]) [0%nat] [true] sample_pivots
    [[[FInt 2]; [FInt 1]]; [[FInt 4]; [FInt 3]]] [0; 1; 1; 0; 0]%nat H1 H2)
    as (_ & st & dn & E & _ & _ & _ & _ & _ & rest & st' & _ & E' & Hf).
  - by repeat constructor.
  - exact H3.
  - repeat constructor.
  - exists st, rest, st'. split; [exact E|]. split; [|by split].
    vm_compute in E. injection E as <-. reflexivity.
Defined.
