(* ===== verification/SortGate.v ===== *)
(** How the partitions of a frame are sorted in parallel: the threads of
    [le_sort::sort_and_persist] ([unity/query_process/le_sort.hpp]).

    Each thread takes the next segment.  Before it loads a segment that is not
    sorted yet, it waits until the segment fits in the memory that is left, or,
    if the segment is larger than the whole buffer, until nobody else holds memory.
    The state has what the threads share, the counter of segments and [mem_used],
    and where each thread is.  The steps are the critical sections. *)
From Stdlib Require Import ZArith Lia List Bool Wellfounded.
From stdpp Require Import prelude list.
From S2P Require Import Prelude.

Inductive gthread :=
| Fetching                     (* before [next_segment_to_sort++] *)
| Checking (segment_id : nat)  (* at the condition of the loop, with or before the mutex *)
| Waiting (segment_id : nat)   (* in [mem_threshold_cv.wait] *)
| Sorting (segment_id : nat)   (* reading, sorting and writing the segment *)
| Exited.

Record gate := mk_gate {
  next_segment_to_sort : nat;
  mem_used : Z;
  threads : list gthread;
  written : list nat  (* the segments that have been written *)
}.

Section gate.
Context (partition_sizes : list Z) (partition_sorted : list bool) (buffer_size : Z).

Definition num_segments : nat := length partition_sizes.
Definition size_of (segment_id : nat) : Z := nth segment_id partition_sizes 0.
Definition is_sorted (segment_id : nat) : bool := nth segment_id partition_sorted false.

(** The loop around the wait goes on. *)
Definition must_wait (used : Z) (segment_id : nat) : bool :=
  (buffer_size <? u64 (used + size_of segment_id)) &&
  negb (((buffer_size <? size_of segment_id) && (used =? 0)) || (size_of segment_id =? 0)).

Definition at_thread (i : nat) (t : gthread) (g : gate) : gate :=
  mk_gate (next_segment_to_sort g) (mem_used g) (<[i := t]> (threads g)) (written g).
Definition use_memory (used : Z) (g : gate) : gate :=
  mk_gate (next_segment_to_sort g) used (threads g) (written g).
Definition fetched (g : gate) : gate :=
  mk_gate (S (next_segment_to_sort g)) (mem_used g) (threads g) (written g).
Definition wrote (segment_id : nat) (g : gate) : gate :=
  mk_gate (next_segment_to_sort g) (mem_used g) (threads g) (segment_id :: written g).

(** [signal] wakes one of the waiting threads, if there are any. *)
Inductive signalled (ts : list gthread) : list gthread -> Prop :=
| signal_none : (forall j s, ts !! j <> Some (Waiting s)) -> signalled ts ts
| signal_one j s : ts !! j = Some (Waiting s) -> signalled ts (<[j := Checking s]> ts).

Inductive gate_step : gate -> gate -> Prop :=
| step_exit g i : threads g !! i = Some Fetching -> (num_segments <= next_segment_to_sort g)%nat ->
    gate_step g (at_thread i Exited (fetched g))
| step_copy g i : threads g !! i = Some Fetching -> (next_segment_to_sort g < num_segments)%nat ->
    is_sorted (next_segment_to_sort g) = true ->
    gate_step g (wrote (next_segment_to_sort g) (fetched g))
| step_fetch g i : threads g !! i = Some Fetching -> (next_segment_to_sort g < num_segments)%nat ->
    is_sorted (next_segment_to_sort g) = false ->
    gate_step g (at_thread i (Checking (next_segment_to_sort g)) (fetched g))
| step_wait g i s : threads g !! i = Some (Checking s) -> must_wait (mem_used g) s = true ->
    gate_step g (at_thread i (Waiting s) g)
| step_sort g i s : threads g !! i = Some (Checking s) -> must_wait (mem_used g) s = false ->
    gate_step g (at_thread i (Sorting s) (use_memory (u64 (mem_used g + size_of s)) g))
| step_finish g i s ts : threads g !! i = Some (Sorting s) ->
    signalled (<[i := Fetching]> (threads g)) ts ->
    gate_step g (mk_gate (next_segment_to_sort g) (u64 (mem_used g - size_of s)) ts (s :: written g)).

Definition gate_start (cpu_count : nat) : gate := mk_gate 0 0 (replicate cpu_count Fetching) [].

Definition memory_of (t : gthread) : Z := match t with Sorting s => size_of s | _ => 0 end.
Definition segment_in (t : gthread) : list nat :=
  match t with Checking s | Waiting s | Sorting s => [s] | _ => [] end.
Definition total (f : gthread -> Z) (ts : list gthread) : Z := foldr (fun t z => f t + z) 0 ts.
Definition held (ts : list gthread) : list nat := concat (map segment_in ts).
Arguments total : simpl never.
Arguments held : simpl never.
Definition sum_sizes (l : list nat) : Z := foldr (fun s z => size_of s + z) 0 l.

(** How much a thread has left to do with the segment it has. *)
Definition work_of (t : gthread) : Z :=
  match t with Fetching => 1 | Checking _ => 5 | Waiting _ => 4 | Sorting _ => 3 | Exited => 0 end.
Definition work_left (g : gate) : Z :=
  5 * Z.of_nat (num_segments - next_segment_to_sort g) + total work_of (threads g).

(** A thread of the list and the others. *)
Lemma split_thread (ts : list gthread) i t : ts !! i = Some t ->
  exists l r, ts = l ++ t :: r /\ forall t', <[i := t']> ts = l ++ t' :: r.
Proof.
  intros H. exists (take i ts), (drop (S i) ts). split; [by rewrite take_drop_middle|].
  intros t'. rewrite insert_take_drop; [done|]. by eapply lookup_lt_Some.
Qed.

Lemma total_cons f t l : total f (t :: l) = f t + total f l.
Proof. reflexivity. Qed.
Lemma total_app f l r : total f (l ++ r) = total f l + total f r.
Proof.
  induction l as [|t l IH]; [done|]. change (f t + total f (l ++ r) = f t + total f l + total f r). lia.
Qed.
Lemma total_update f ts i t t' : ts !! i = Some t ->
  total f (<[i := t']> ts) = total f ts - f t + f t'.
Proof. intros (l & r & -> & E)%split_thread. rewrite E, !total_app, !total_cons. lia. Qed.
Lemma total_signalled f ts ts' : (forall s, f (Waiting s) = f (Checking s)) ->
  signalled ts ts' -> total f ts' = total f ts.
Proof. intros Hf [|j s H]; [done|]. rewrite (total_update _ _ _ _ _ H), Hf. lia. Qed.
Lemma work_signalled ts ts' : signalled ts ts' -> total work_of ts' <= total work_of ts + 1.
Proof. intros [|j s H]; [lia|]. rewrite (total_update _ _ _ _ _ H). cbn. lia. Qed.

Lemma held_update ts i t t' : ts !! i = Some t ->
  segment_in t ++ held (<[i := t']> ts) ≡ₚ segment_in t' ++ held ts.
Proof.
  intros (l & r & -> & E)%split_thread. rewrite E. unfold held.
  rewrite !map_app, !concat_app. cbn. solve_Permutation.
Qed.
Lemma held_signalled ts ts' : signalled ts ts' -> held ts' ≡ₚ held ts.
Proof.
  intros [|j s H]; [done|]. pose proof (held_update _ _ _ (Checking s) H) as E. cbn in E.
  by apply Permutation_cons_inv in E.
Qed.

(** A signal changes no thread but one that waits. *)
Lemma signalled_other ts ts' i t : signalled ts ts' -> ts !! i = Some t ->
  (forall s, t <> Waiting s) -> ts' !! i = Some t.
Proof.
  intros [|j s H] Hi Ht; [done|]. rewrite list_lookup_insert_ne; [done|].
  intros ->. rewrite H in Hi. injection Hi as <-. by apply (Ht s).
Qed.

(** ** What holds in every state *)

Hypothesis sizes_nonneg : forall s, 0 <= size_of s.
Hypothesis buffer_nonneg : 0 <= buffer_size.
Hypothesis sizes_small : sum_sizes (seq 0 num_segments) < 2 ^ 64.

Definition is_waiting (t : gthread) : Prop := exists s, t = Waiting s.
#[local] Instance is_waiting_dec t : Decision (is_waiting t).
Proof. destruct t as [|s|s|s|]; [right|right|left; by exists s|right|right]; by intros [? ?]. Defined.
Definition is_busy (t : gthread) : Prop := exists s, t = Sorting s \/ t = Checking s.

(** The memory in use is within the buffer, or it is one segment's. *)
Definition within_buffer (g : gate) : Prop :=
  mem_used g <= buffer_size \/ exists i s, threads g !! i = Some (Sorting s) /\ mem_used g = size_of s.

Record gate_inv (g : gate) : Prop := mk_gate_inv {
  inv_memory : mem_used g = total memory_of (threads g);
  inv_segments : written g ++ held (threads g) ≡ₚ seq 0 (next_segment_to_sort g `min` num_segments);
  inv_awake : Exists is_waiting (threads g) -> Exists is_busy (threads g);
  inv_buffer : within_buffer g;
  inv_exited : Exited ∈ threads g -> (num_segments <= next_segment_to_sort g)%nat
}.

Lemma sum_app l r : sum_sizes (l ++ r) = sum_sizes l + sum_sizes r.
Proof.
  induction l as [|s l IH]; [done|].
  change (size_of s + sum_sizes (l ++ r) = size_of s + sum_sizes l + sum_sizes r). lia.
Qed.
Lemma sum_perm l r : l ≡ₚ r -> sum_sizes l = sum_sizes r.
Proof.
  unfold sum_sizes. induction 1; cbn; lia.
Qed.
Lemma sum_nonneg l : 0 <= sum_sizes l.
Proof.
  induction l as [|s l IH]; [done|]. change (0 <= size_of s + sum_sizes l). pose proof (sizes_nonneg s). lia.
Qed.
Lemma memory_nonneg ts : 0 <= total memory_of ts.
Proof.
  induction ts as [|t ts IH]; [done|]. change (0 <= memory_of t + total memory_of ts).
  enough (0 <= memory_of t) by lia. by destruct t; cbn.
Qed.
Lemma memory_held ts : total memory_of ts <= sum_sizes (held ts).
Proof.
  induction ts as [|t ts IH]; [done|].
  change (memory_of t + total memory_of ts <= sum_sizes (segment_in t ++ held ts)). rewrite sum_app.
  enough (memory_of t <= sum_sizes (segment_in t)) by lia.
  destruct t as [|s|s|s|]; cbn; rewrite ?Z.add_0_r; try done; apply sizes_nonneg.
Qed.

(** The additions of sizes do not wrap. *)
Lemma inv_held_small g : gate_inv g -> sum_sizes (held (threads g)) < 2 ^ 64.
Proof.
  intros [_ Hp _ _ _]. apply sum_perm in Hp. rewrite sum_app in Hp.
  assert (E : seq 0 num_segments = seq 0 (next_segment_to_sort g `min` num_segments) ++
    seq (next_segment_to_sort g `min` num_segments) (num_segments - next_segment_to_sort g `min` num_segments)).
  { rewrite <- seq_app. f_equal. lia. }
  rewrite E, sum_app in sizes_small. pose proof (sum_nonneg (written g)). 
  pose proof (sum_nonneg (seq (next_segment_to_sort g `min` num_segments) (num_segments - next_segment_to_sort g `min` num_segments))).
  lia.
Qed.

(** With a segment that a thread holds and that is not being sorted, there is room
    for its size. *)
Lemma checking_small g i s : gate_inv g -> threads g !! i = Some (Checking s) ->
  u64 (mem_used g + size_of s) = mem_used g + size_of s.
Proof.
  intros Hg Hi. pose proof (inv_held_small g Hg) as Hs. destruct Hg as [Hm _ _ _ _].
  pose proof (memory_held (<[i := Sorting s]> (threads g))) as Hh.
  rewrite (total_update _ _ _ _ _ Hi) in Hh.
  pose proof (held_update _ _ _ (Sorting s) Hi) as E. cbn in E. apply Permutation_cons_inv in E.
  rewrite (sum_perm _ _ E) in Hh. cbn in Hh.
  pose proof (memory_nonneg (threads g)). pose proof (sizes_nonneg s).
  apply wrap_small. unfold is_u. lia.
Qed.

Lemma exists_kept (P : gthread -> Prop) ts i t t' : ts !! i = Some t -> ~ P t ->
  Exists P ts -> Exists P (<[i := t']> ts).
Proof.
  intros (l & r & -> & E)%split_thread Ht. rewrite E, !Exists_app, !Exists_cons. tauto.
Qed.
Lemma exists_before (P : gthread -> Prop) ts i t t' : ts !! i = Some t -> ~ P t' ->
  Exists P (<[i := t']> ts) -> Exists P ts.
Proof.
  intros (l & r & -> & E)%split_thread Ht. rewrite E, !Exists_app, !Exists_cons. tauto.
Qed.
Lemma exists_at (P : gthread -> Prop) ts i t t' : ts !! i = Some t -> P t' -> Exists P (<[i := t']> ts).
Proof. intros (l & r & -> & E)%split_thread Ht. rewrite E, !Exists_app, !Exists_cons. tauto. Qed.
Lemma exited_before (ts : list gthread) i t t' : ts !! i = Some t -> t' <> Exited ->
  Exited ∈ <[i := t']> ts -> Exited ∈ ts.
Proof. intros (l & r & -> & E)%split_thread Ht. rewrite E. set_solver. Qed.
Lemma memory_at ts i t : ts !! i = Some t -> memory_of t <= total memory_of ts.
Proof.
  intros H. pose proof (memory_nonneg (<[i := Fetching]> ts)) as Hn.
  rewrite (total_update _ _ _ _ _ H) in Hn. cbn in Hn. lia.
Qed.

(** Somebody is sorting when a thread has to wait. *)
Lemma must_wait_sorting ts s : must_wait (total memory_of ts) s = true ->
  0 < total memory_of ts.
Proof.
  pose proof (memory_nonneg ts). unfold must_wait. intros [H1 H2]%andb_prop.
  destruct (Z.eqb_spec (total memory_of ts) 0) as [E|]; [|lia].
  rewrite E in *. exfalso. revert H1 H2. pose proof (sizes_nonneg s).
  rewrite Z.add_0_l, andb_true_r. zcases; cbn; try done.
  intros H3. pose proof (Z.mod_le (size_of s) (2 ^ 64)). unfold wrap in *. lia.
Qed.
Lemma somebody_sorts ts : 0 < total memory_of ts -> exists i s, ts !! i = Some (Sorting s).
Proof.
  induction ts as [|t ts IH]; [done|]. change (0 < memory_of t + total memory_of ts -> exists i s, (t :: ts) !! i = Some (Sorting s)).
  intros H. destruct t as [|s|s|s|]; try (by exists 0%nat, s);
    (destruct IH as (i & s' & Hi); [cbn in H; lia|]); by exists (S i), s'.
Qed.

(** A thread that is not sorting moves on, and uses no memory. *)
Lemma moved_within g g' i t t' : threads g !! i = Some t -> memory_of t = 0 -> (forall s, t <> Sorting s) ->
  mem_used g' = mem_used g -> threads g' = <[i := t']> (threads g) -> within_buffer g -> within_buffer g'.
Proof.
  unfold within_buffer. intros Hi _ Ht -> -> [H|(k & s & Hk & Hs)]; [by left|right].
  exists k, s. rewrite list_lookup_insert_ne; [done|]. intros ->. rewrite Hk in Hi. injection Hi as <-. by apply (Ht s).
Qed.

Ltac not_waiting := let H := fresh in first [intros [? [H|H]]; discriminate H | intros [? H]; discriminate H].

Lemma inv_start n : gate_inv (gate_start n).
Proof.
  assert (H : forall k, total memory_of (replicate k Fetching) = 0 /\ held (replicate k Fetching) = []).
  { induction k as [|k [IH1 IH2]]; [done|]. split; [|exact IH2].
    change (0 + total memory_of (replicate k Fetching) = 0). lia. }
  destruct (H n) as [H1 H2]. split; cbn.
  - by rewrite H1.
  - by rewrite H2.
  - intros Hw. apply Exists_exists in Hw as (t & [-> _]%elem_of_replicate & [s Hs]). done.
  - by left.
  - by intros [? _]%elem_of_replicate.
Qed.

Ltac gate_simpl := cbn [at_thread use_memory fetched wrote mem_used threads written next_segment_to_sort].
Lemma inv_exit g i : gate_inv g -> threads g !! i = Some Fetching ->
  (num_segments <= next_segment_to_sort g)%nat -> gate_inv (at_thread i Exited (fetched g)).
Proof.
  intros [Hm Hp Ha Hb He] Hi Hn. split; gate_simpl.
  - rewrite (total_update _ _ _ _ _ Hi). cbn. lia.
  - pose proof (held_update _ _ _ Exited Hi) as E. cbn in E. rewrite E, Hp.
    by replace (S (next_segment_to_sort g) `min` num_segments)%nat
      with (next_segment_to_sort g `min` num_segments)%nat by lia.
  - intros Hw. apply (exists_kept _ _ _ Fetching); [done|not_waiting|]. apply Ha.
    revert Hw. apply (exists_before _ _ _ Fetching); [done|not_waiting].
  - by apply (moved_within g _ i Fetching Exited).
  - lia.
Qed.
Lemma next_segment g : (next_segment_to_sort g < num_segments)%nat ->
  seq 0 (S (next_segment_to_sort g) `min` num_segments) =
  seq 0 (next_segment_to_sort g `min` num_segments) ++ [next_segment_to_sort g].
Proof.
  intros H. replace (S (next_segment_to_sort g) `min` num_segments)%nat
    with (next_segment_to_sort g `min` num_segments + 1)%nat by lia.
  rewrite seq_app. cbn. repeat f_equal. lia.
Qed.
Lemma inv_copy g i : gate_inv g -> threads g !! i = Some Fetching ->
  (next_segment_to_sort g < num_segments)%nat -> gate_inv (wrote (next_segment_to_sort g) (fetched g)).
Proof.
  intros [Hm Hp Ha Hb He] Hi Hn. split; gate_simpl; try done.
  - rewrite next_segment, <- Hp by done. solve_Permutation.
  - intros H. specialize (He H). lia.
Qed.
Lemma inv_fetch g i : gate_inv g -> threads g !! i = Some Fetching ->
  (next_segment_to_sort g < num_segments)%nat ->
  gate_inv (at_thread i (Checking (next_segment_to_sort g)) (fetched g)).
Proof.
  intros [Hm Hp Ha Hb He] Hi Hn. split; gate_simpl.
  - rewrite (total_update _ _ _ _ _ Hi). cbn. lia.
  - pose proof (held_update _ _ _ (Checking (next_segment_to_sort g)) Hi) as E. cbn in E.
    rewrite E, next_segment, <- Hp by done. solve_Permutation.
  - intros _. apply (exists_at _ _ _ Fetching); [done|]. eexists. by right.
  - by apply (moved_within g _ i Fetching (Checking (next_segment_to_sort g))).
  - intros H. apply (exited_before _ _ Fetching) in H; [|done|done]. specialize (He H). lia.
Qed.
Lemma inv_wait g i s : gate_inv g -> threads g !! i = Some (Checking s) ->
  must_wait (mem_used g) s = true -> gate_inv (at_thread i (Waiting s) g).
Proof.
  intros [Hm Hp Ha Hb He] Hi Hn. split; gate_simpl.
  - rewrite (total_update _ _ _ _ _ Hi). cbn. lia.
  - pose proof (held_update _ _ _ (Waiting s) Hi) as E. cbn in E. apply Permutation_cons_inv in E. by rewrite E.
  - intros _. rewrite Hm in Hn. apply must_wait_sorting, somebody_sorts in Hn as (k & s' & Hk).
    apply Exists_exists. exists (Sorting s'). split; [|eexists; by left].
    apply (list_elem_of_lookup_2 _ k). rewrite list_lookup_insert_ne; [done|]. intros ->. by rewrite Hk in Hi.
  - by apply (moved_within g _ i (Checking s) (Waiting s)).
  - intros H. apply He. by apply (exited_before _ _ (Checking s)) in H.
Qed.

(** There is room for a segment that need not wait, or the buffer is empty. *)
Lemma room_within g i s : gate_inv g -> threads g !! i = Some (Checking s) ->
  must_wait (mem_used g) s = false ->
  within_buffer (at_thread i (Sorting s) (use_memory (mem_used g + size_of s) g)).
Proof.
  intros Hg Hi Hn. pose proof (checking_small g i s Hg Hi) as Hu. destruct Hg as [Hm Hp Ha Hb He].
  unfold must_wait in Hn. rewrite Hu in Hn. unfold within_buffer. gate_simpl.
  destruct (Z.ltb_spec buffer_size (mem_used g + size_of s)) as [H1|H1]; [|by left].
  apply negb_false_iff, orb_prop in Hn as [[_ ->%Z.eqb_eq]%andb_prop | E%Z.eqb_eq].
  - right. exists i, s. rewrite list_lookup_insert_eq by (by eapply lookup_lt_Some). done.
  - apply (moved_within g (at_thread i (Sorting s) (use_memory (mem_used g + size_of s) g)) i (Checking s) (Sorting s));
      gate_simpl; try done. lia.
Qed.
Lemma inv_sort g i s : gate_inv g -> threads g !! i = Some (Checking s) ->
  must_wait (mem_used g) s = false ->
  gate_inv (at_thread i (Sorting s) (use_memory (u64 (mem_used g + size_of s)) g)).
Proof.
  intros Hg Hi Hn. rewrite (checking_small g i s Hg Hi). pose proof (room_within g i s Hg Hi Hn) as Hr.
  destruct Hg as [Hm Hp Ha Hb He]. split; gate_simpl; [| | |exact Hr|].
  - rewrite (total_update _ _ _ _ _ Hi), Hm. cbn. lia.
  - pose proof (held_update _ _ _ (Sorting s) Hi) as E. cbn in E. apply Permutation_cons_inv in E. by rewrite E.
  - intros _. apply (exists_at _ _ _ (Checking s)); [done|]. eexists. by left.
  - intros H. apply He. by apply (exited_before _ _ (Checking s)) in H.
Qed.

(** The memory that a finished thread gives back *)
Lemma finish_memory g i s : gate_inv g -> threads g !! i = Some (Sorting s) ->
  u64 (mem_used g - size_of s) = mem_used g - size_of s.
Proof.
  intros Hg Hi. pose proof (inv_held_small g Hg). destruct Hg as [Hm _ _ _ _].
  pose proof (memory_held (threads g)). pose proof (memory_at _ _ _ Hi) as Ha. cbn in Ha.
  pose proof (sizes_nonneg s). apply wrap_small. unfold is_u. lia.
Qed.
Lemma finish_within g i s ts : gate_inv g -> threads g !! i = Some (Sorting s) ->
  signalled (<[i := Fetching]> (threads g)) ts ->
  within_buffer (mk_gate (next_segment_to_sort g) (mem_used g - size_of s) ts (s :: written g)).
Proof.
  intros [Hm Hp Ha Hb He] Hi Hs. pose proof (sizes_nonneg s). unfold within_buffer. gate_simpl.
  destruct Hb as [H1|(k & s' & Hk & H1)]; [left; lia|].
  destruct (decide (k = i)) as [->|Hne].
  - left. rewrite Hk in Hi. injection Hi as ->. lia.
  - assert (Hk' : <[i := Fetching]> (threads g) !! k = Some (Sorting s')) by by rewrite list_lookup_insert_ne.
    pose proof (memory_at _ _ _ Hk') as Hle. rewrite (total_update _ _ _ _ _ Hi) in Hle. cbn in Hle.
    right. exists k, s'. split; [by apply (signalled_other _ _ _ _ Hs)|lia].
Qed.
Lemma inv_finish g i s ts : gate_inv g -> threads g !! i = Some (Sorting s) ->
  signalled (<[i := Fetching]> (threads g)) ts ->
  gate_inv (mk_gate (next_segment_to_sort g) (u64 (mem_used g - size_of s)) ts (s :: written g)).
Proof.
  intros Hg Hi Hs. rewrite (finish_memory g i s Hg Hi). pose proof (finish_within g i s ts Hg Hi Hs) as Hr.
  destruct Hg as [Hm Hp Ha Hb He]. split; gate_simpl; [| | |exact Hr|].
  - rewrite (total_signalled memory_of _ _ (fun _ => eq_refl) Hs), (total_update _ _ _ _ _ Hi), Hm. cbn. lia.
  - rewrite (held_signalled _ _ Hs). pose proof (held_update _ _ _ Fetching Hi) as E. cbn in E.
    rewrite <- Hp, <- E. solve_Permutation.
  - destruct Hs as [Hn|j s' Hj].
    + intros (t & Ht & [s' ->])%Exists_exists. apply list_elem_of_lookup in Ht as [j Hj]. by apply Hn in Hj.
    + intros _. apply (exists_at _ _ _ (Waiting s')); [done|]. eexists. by right.
  - intros H. apply He. destruct Hs as [_|j s' Hj].
    + by apply (exited_before _ _ (Sorting s)) in H.
    + apply (exited_before _ _ (Waiting s')) in H; [|done|done].
      by apply (exited_before _ _ (Sorting s)) in H.
Qed.

Theorem gate_inv_step g g' : gate_inv g -> gate_step g g' -> gate_inv g'.
Proof.
  intros Hg H. destruct H; eauto using inv_exit, inv_copy, inv_fetch, inv_wait, inv_sort, inv_finish.
Qed.
Lemma gate_inv_reachable n g : rtc gate_step (gate_start n) g -> gate_inv g.
Proof.
  intros H. pose proof (inv_start n) as Hi. revert Hi. induction H; eauto using gate_inv_step.
Qed.

(** Every step leaves less work. *)
Lemma work_nonneg ts : 0 <= total work_of ts.
Proof. induction ts as [|t ts IH]; [done|]. rewrite total_cons. destruct t; cbn; lia. Qed.
Lemma work_left_nonneg g : 0 <= work_left g.
Proof. unfold work_left. pose proof (work_nonneg (threads g)). lia. Qed.
Lemma step_work g g' : gate_step g g' -> work_left g' < work_left g.
Proof.
  unfold work_left. intros [g0 i Hi Hn|g0 i Hi Hn Hs|g0 i Hi Hn Hs|g0 i s Hi Hw|g0 i s Hi Hw|g0 i s ts Hi Hs]; gate_simpl;
    try (rewrite (total_update _ _ _ _ _ Hi); cbn; lia).
  - lia.
  - pose proof (work_signalled _ _ Hs) as H. rewrite (total_update _ _ _ _ _ Hi) in H. cbn in H. lia.
Qed.

(** Somebody can go on unless everybody has left. *)
Lemma gate_progress g : gate_inv g -> Exists (fun t => t <> Exited) (threads g) -> exists g', gate_step g g'.
Proof.
  intros Hg Ht. assert (Hgo : Exists (fun t => t <> Exited /\ ~ is_waiting t) (threads g)).
  { apply Exists_exists in Ht as (t & Ht & Hne). destruct t as [|s|s|s|].
    3: { apply Exists_impl with is_busy; [|intros t [s' [-> | ->]]; split; [done|not_waiting|done|not_waiting]].
         apply (inv_awake g Hg), Exists_exists. exists (Waiting s). split; [done|]. by exists s. }
    all: apply Exists_exists; eexists; split; [exact Ht|split; [done|not_waiting]]. }
  apply Exists_exists in Hgo as (t & [i Hi]%list_elem_of_lookup & Hne & Hw).
  destruct t as [|s|s|s|]; [| |by destruct Hw; exists s| |done].
  - destruct (Nat.le_gt_cases num_segments (next_segment_to_sort g)) as [Hn|Hn].
    + eexists. by eapply step_exit.
    + destruct (is_sorted (next_segment_to_sort g)) eqn:E; eexists; [by eapply step_copy|by eapply step_fetch].
  - destruct (must_wait (mem_used g) s) eqn:E; eexists; [by eapply step_wait|by eapply step_sort].
  - destruct (decide (Exists is_waiting (<[i := Fetching]> (threads g)))) as [H|H].
    + apply Exists_exists in H as (t & [j Hj]%list_elem_of_lookup & [s' ->]).
      eexists. eapply step_finish; [done|]. by apply (signal_one _ j s').
    + eexists. eapply step_finish; [done|]. apply signal_none. intros j s' Hj. apply H, Exists_exists.
      exists (Waiting s'). split; [by eapply list_elem_of_lookup_2|]. by exists s'.
Qed.
End gate.

(** ** The threads finish *)

Lemma sum_sizes_all sizes : sum_sizes sizes (seq 0 (num_segments sizes)) = foldr Z.add 0 sizes.
Proof.
  unfold sum_sizes, num_segments. induction sizes as [|z l IH]; [done|].
  cbn. rewrite <- IH, <- seq_shift, foldr_fmap. done.
Qed.
Lemma size_of_nonneg sizes s : Forall (fun z => 0 <= z) sizes -> 0 <= size_of sizes s.
Proof.
  intros H. unfold size_of. destruct (nth_in_or_default s sizes 0) as [Hin| ->]; [|done].
  rewrite Stdlib.Lists.List.Forall_forall in H. by apply H.
Qed.
Lemma signalled_length ts ts' : signalled ts ts' -> length ts' = length ts.
Proof. intros [|j s H]; [done|]. by rewrite length_insert. Qed.
Lemma gate_step_length sizes sorted buffer g g' : gate_step sizes sorted buffer g g' ->
  length (threads g') = length (threads g).
Proof.
  intros H. destruct H; cbn; rewrite ?length_insert; try done.
  erewrite signalled_length by eassumption. by rewrite length_insert.
Qed.
Lemma gate_length sizes sorted buffer n g : rtc (gate_step sizes sorted buffer) (gate_start n) g ->
  length (threads g) = n.
Proof.
  intros H. assert (E : length (threads g) = length (threads (gate_start n))).
  { induction H as [|a b c Hs _ IH]; [done|]. by rewrite IH, (gate_step_length _ _ _ _ _ Hs). }
  rewrite E. apply length_replicate.
Qed.
Lemma work_left_acc sizes sorted buffer g : Acc (fun b a => gate_step sizes sorted buffer a b) g.
Proof.
  apply (Acc_incl _ _ (fun b a => (Z.to_nat (work_left sizes b) < Z.to_nat (work_left sizes a))%nat)).
  - intros b a H%step_work. pose proof (work_left_nonneg sizes b). lia.
  - apply Wf_nat.well_founded_ltof.
Qed.

(** A thread pool in which everybody has left holds nothing. *)
Lemma all_exited_held ts : Forall (eq Exited) ts -> held ts = [].
Proof. induction 1 as [|t ts <- _ IH]; [done|]. exact IH. Qed.

(** C17. The threads of [sort_and_persist] share the memory of the sort buffer without
    a deadlock and sort every partition once: in every state that a positive number of
    threads can reach, by any interleaving, the memory in use is within the buffer or is
    that of one segment; some thread can go on unless all have left; no run goes
    on for ever; and in a state where no thread can go on all of them have left and each
    segment has been written exactly once. *)
Theorem sort_gate_completes sizes sorted buffer cpu_count g :
  (0 < cpu_count)%nat -> 0 <= buffer -> Forall (fun z => 0 <= z) sizes -> foldr Z.add 0 sizes < 2 ^ 64 ->
  rtc (gate_step sizes sorted buffer) (gate_start cpu_count) g ->
  within_buffer sizes buffer g /\
  (Exists (fun t => t <> Exited) (threads g) -> exists g', gate_step sizes sorted buffer g g') /\
  Acc (fun b a => gate_step sizes sorted buffer a b) g /\
  ((forall g', ~ gate_step sizes sorted buffer g g') ->
   Forall (eq Exited) (threads g) /\ written g ≡ₚ seq 0 (num_segments sizes)).
Proof.
  intros Hc Hb Hs Hsum Hr. rewrite <- sum_sizes_all in Hsum.
  assert (Hi : gate_inv sizes buffer g) by (eapply gate_inv_reachable; eauto using size_of_nonneg).
  assert (Hp : Exists (fun t => t <> Exited) (threads g) -> exists g', gate_step sizes sorted buffer g g')
    by (eapply gate_progress; eauto using size_of_nonneg).
  split; [apply Hi|]. split; [exact Hp|]. split; [apply work_left_acc|]. intros Hstop.
  assert (Hall : Forall (eq Exited) (threads g)).
  { apply Stdlib.Lists.List.Forall_forall. intros t Ht. destruct t; try done; destruct Hp as [g' Hg'];
      try (by destruct (Hstop g')); apply Stdlib.Lists.List.Exists_exists; by eexists. }
  split; [done|]. pose proof (inv_segments _ _ _ Hi) as E. rewrite all_exited_held, app_nil_r in E by done.
  rewrite E. f_equiv. apply Nat.min_r, (inv_exited _ _ _ Hi).
  apply gate_length in Hr. destruct (threads g) as [|t ts]; cbn in Hr; [lia|].
  inversion_clear Hall as [|? ? <-]. left.
Qed.

(** The second of two threads waits for the first. *)
Lemma one_waits : rtc (gate_step [3; 5] [false; false] 4) (gate_start 2) (mk_gate 2 3 [Sorting 0; Waiting 1] []).
Proof.
  eapply rtc_l; [apply (step_fetch _ _ _ _ 0); first [reflexivity | cbn; lia]|].
  eapply rtc_l; [apply (step_fetch _ _ _ _ 1); first [reflexivity | cbn; lia]|].
  eapply rtc_l; [by apply (step_sort _ _ _ _ 0 0)|].
  eapply rtc_l; [by apply (step_wait _ _ _ _ 1 1)|]. apply rtc_refl.
Defined.
Lemma sort_gate_completes_witness :
  (0 < 2)%nat /\ 0 <= 4 /\
  exists g', gate_step [3; 5] [false; false] 4 (mk_gate 2 3 [Sorting 0; Waiting 1] []) g'.
Proof.
  split; [lia|]. split; [lia|].
  refine (proj1 (proj2 (sort_gate_completes [3; 5] [false; false] 4 2 _ _ _ _ _ one_waits)) _).
  - lia.
  - lia.
  - repeat (constructor; [lia|]). constructor.
  - reflexivity.
  - apply Exists_cons_hd. discriminate.
Defined.
