(* ===== verification/Hopscotch.v ===== *)
(** Hopscotch hash tables: the model of [graphlab/util/hopscotch_table.hpp] and
    [hopscotch_map.hpp].

    An entry of the table has a datum or not, and a bit field: bit [r] of entry [h] says
    that entry [h + r] has a datum whose hash is [h].  An insertion looks for a free
    entry after the hash of the datum and moves it back by exchanging it with data that may
    lie there, until it is within 31 entries of the hash.  The map on top of
    the table keeps what the table refuses in a [boost::unordered_map], the spill. *)
From Stdlib Require Import ZArith Lia List Bool Floats.SpecFloat Numbers.BinNums.
From stdpp Require Import prelude gmap list.
From S2P Require Import Prelude.
From S2P Require Import Double.
From S2P Require Import BlockStore.

(** ** The table *)

Module Table.

(** [hopscotch_table::next_powerof2] *)
Definition next_powerof2 (val : Z) : Z :=
  let val := u64 (val - 1) in
  let val := Z.lor val (Z.shiftr val 1) in
  let val := Z.lor val (Z.shiftr val 2) in
  let val := Z.lor val (Z.shiftr val 4) in
  let val := Z.lor val (Z.shiftr val 8) in
  let val := Z.lor val (Z.shiftr val 16) in
  let val := Z.lor val (Z.shiftr val 32) in
  u64 (val + 1).

(** The mix of the bits of a hash where the processor has no CRC instruction *)
Definition jenkins_mix (state : Z) : Z :=
  let state := u64 (state + u64 (Z.shiftl state 12)) in
  let state := Z.lxor state (Z.shiftr state 22) in
  let state := u64 (state + u64 (Z.shiftl state 4)) in
  let state := Z.lxor state (Z.shiftr state 9) in
  let state := u64 (state + u64 (Z.shiftl state 10)) in
  let state := Z.lxor state (Z.shiftr state 2) in
  let state := u64 (state + u64 (Z.shiftl state 7)) in
  Z.lxor state (Z.shiftr state 12).

Definition is_some {A} (o : option A) : bool := match o with Some _ => true | None => false end.

Record element (T : Type) := mk_element { hasdata : bool; field : Z; elem : T }.
Arguments mk_element {T} _ _ _.
Arguments hasdata {T} _.
Arguments field {T} _.
Arguments elem {T} _.

Record table (T : Type) := mk_table { data : list (element T); numel : Z; mask : Z }.
Arguments mk_table {T} _ _ _.
Arguments data {T} _.
Arguments numel {T} _.
Arguments mask {T} _.

Section table.
Context {T : Type} (dflt : T) (hashfun : T -> Z) (equalfun : T -> T -> bool).
(** [__builtin_ia32_crc32di(0, state)], where the compiler has it *)
Context (crc32 : option (Z -> Z)).

Definition compute_hash (d : T) : Z :=
  match crc32 with Some f => f (hashfun d) | None => jenkins_mix (hashfun d) end.
Definition target_of (d : T) (t : table T) : nat := Z.to_nat (Z.land (compute_hash d) (mask t)).

(** The constructor *)
Definition new_table (len : Z) : table T :=
  let size := u64 (next_powerof2 len + 32) in
  mk_table (replicate (Z.to_nat size) (mk_element false 0 dflt)) 0 (u64 (size - 32 - 1)).

Definition at_entry (j : nat) (f : element T -> element T) (t : table T) : table T :=
  mk_table (alter f j (data t)) (numel t) (mask t).
Definition set_elem (has : bool) (x : T) (e : element T) : element T := mk_element has (field e) x.
Definition set_field (f : Z) (e : element T) : element T := mk_element (hasdata e) f (elem e).
Definition with_numel (n : Z) (t : table T) : table T := mk_table (data t) n (mask t).

(** [field & ~((uint32_t)1 << r)] *)
Definition clear_bit (f : Z) (r : nat) : Z := Z.ldiff f (Z.shiftl 1 (Z.of_nat r)).
Definition set_bit (f : Z) (r : nat) : Z := Z.lor f (Z.shiftl 1 (Z.of_nat r)).
Definition low_bit (f : Z) : nat := Z.to_nat (ctz f).

(** [find_impl]: the position of the entry, or none for [end()] *)
Fixpoint find_loop (fuel : nat) (key : T) (target : nat) (f : Z) (t : table T) : outcome (option nat) :=
  if f =? 0 then Ok None else
  match fuel with
  | O => Undef
  | S fuel =>
      let r := low_bit f in
      e <-? of_option (data t !! (target + r)%nat);
      if hasdata e && equalfun (elem e) key then Ok (Some (target + r)%nat)
      else find_loop fuel key target (clear_bit f r) t
  end.
Definition find_impl (key : T) (target : nat) (t : table T) : outcome (option nat) :=
  e <-? of_option (data t !! target);
  find_loop 32 key target (field e) t.
Definition find (key : T) (t : table T) : outcome (option nat) := find_impl key (target_of key t) t.

Definition try_find_and_overwrite (newdata : T) (target : nat) (overwrite : bool) (t : table T)
    : outcome (option nat * table T) :=
  iter <-? find_impl newdata target t;
  match iter with
  | Some j => Ok (Some j, if overwrite then at_entry j (fun e => mk_element (hasdata e) (field e) newdata) t else t)
  | None => Ok (None, t)
  end.

(** The first entry without data among the next [n] *)
Fixpoint find_empty (n shift_target : nat) (t : table T) : outcome (option nat) :=
  match n with
  | O => Ok None
  | S n =>
      e <-? of_option (data t !! shift_target);
      if negb (hasdata e) then Ok (Some shift_target) else find_empty n (S shift_target) t
  end.

(** The entry furthest before the free one whose first datum can move there *)
Fixpoint find_hop (i shift_target : nat) (t : table T) : outcome (option (nat * nat)) :=
  match i with
  | O => Ok None
  | S i' =>
      e <-? of_option (data t !! (shift_target - i)%nat);
      if negb (field e =? 0) && (low_bit (field e) <=? i)%nat then Ok (Some (i, low_bit (field e)))
      else find_hop i' shift_target t
  end.

Definition move (shift_target i r : nat) (t : table T) : outcome (nat * table T) :=
  let new_shift_target := (shift_target - i + r)%nat in
  e <-? of_option (data t !! new_shift_target);
  let t := at_entry shift_target (set_elem true (elem e)) t in
  let t := at_entry new_shift_target (set_elem false dflt) t in
  let t := at_entry (shift_target - i) (fun e => set_field (set_bit (clear_bit (field e) r) i) e) t in
  Ok (new_shift_target, t).

Definition far (shift_target target : nat) : bool := 31 <=? u64 (Z.of_nat shift_target - Z.of_nat target).

Fixpoint hop_loop (fuel shift_target target : nat) (t : table T) : outcome (option nat * table T) :=
  if far shift_target target then
    match fuel with
    | O => Undef
    | S fuel =>
        hop <-? find_hop 30 shift_target t;
        match hop with
        | None => Ok (None, t)
        | Some (i, r) =>
            m <-? move shift_target i r t;
            hop_loop fuel m.1 target m.2
        end
    end
  else Ok (Some shift_target, t).

Definition insert_impl (newdata : T) (overwrite : bool) (t : table T) : outcome (option nat * table T) :=
  let target := target_of newdata t in
  ret <-? try_find_and_overwrite newdata target overwrite t;
  match ret.1 with
  | Some j => Ok (Some j, ret.2)
  | None =>
      let limit := Nat.min (length (data t)) (target + 31 * 20) in
      found <-? find_empty (limit - target) target t;
      match found with
      | None => Ok (None, t)
      | Some shift_target =>
          placed <-? hop_loop (length (data t)) shift_target target t;
          match placed.1 with
          | None => Ok (None, placed.2)
          | Some s =>
              let t := at_entry s (set_elem true newdata) placed.2 in
              let t := at_entry target (fun e => set_field (set_bit (field e) (s - target)) e) t in
              Ok (Some s, with_numel (u64 (numel t + 1)) t)
          end
      end
  end.
Definition insert (newdata : T) (t : table T) := insert_impl newdata true t.
Definition insert_do_not_overwrite (newdata : T) (t : table T) := insert_impl newdata false t.

Definition clear (t : table T) : table T :=
  mk_table (map (fun _ => mk_element false 0 dflt) (data t)) 0 (mask t).

(** [erase(iterator)]; a shift by 32 or more is undefined. *)
Definition erase_at (iter : option nat) (t : table T) : outcome (bool * table T) :=
  match iter with
  | None => Ok (false, t)
  | Some j =>
      e <-? of_option (data t !! j);
      let target := target_of (elem e) t in
      let offset := u64 (Z.of_nat j - Z.of_nat target) in
      if 32 <=? offset then Undef else
      let t := with_numel (u64 (numel t - 1)) t in
      let t := at_entry j (set_elem false dflt) t in
      Ok (true, at_entry target (fun e => set_field (clear_bit (field e) (Z.to_nat offset)) e) t)
  end.
Definition erase (key : T) (t : table T) : outcome (bool * table T) :=
  iter <-? find key t;
  erase_at iter t.

Definition count (v : T) (t : table T) : outcome bool := omap_ok (@is_some nat) (find v t).
Definition size (t : table T) : Z := numel t.
Definition capacity (t : table T) : Z := Z.of_nat (length (data t)).
Definition put (v : T) (t : table T) : outcome (bool * table T) :=
  omap_ok (fun r => (is_some r.1, r.2)) (insert_impl v true t).
Definition put_do_not_overwrite (v : T) (t : table T) : outcome (bool * table T) :=
  omap_ok (fun r => (is_some r.1, r.2)) (insert_impl v false t).

(** Iterators: the next entry with data, or the end *)
Fixpoint next_data (n j : nat) (t : table T) : nat :=
  match n with
  | O => j
  | S n => match data t !! j with
           | Some e => if hasdata e then j else next_data n (S j) t
           | None => j
           end
  end.
Definition begin (t : table T) : nat := next_data (length (data t)) 0 t.
Definition increment (j : nat) (t : table T) : nat := next_data (length (data t) - S j) (S j) t.
(** [for (it = begin(); it != end(); ++it)] *)
Fixpoint iterate (fuel j : nat) (t : table T) : list T :=
  match fuel, data t !! j with
  | S fuel, Some e => elem e :: iterate fuel (increment j t) t
  | _, _ => []
  end.
Definition elements (t : table T) : list T := iterate (length (data t)) (begin t) t.
End table.
End Table.

(** ** The map *)

Module Map.
Import Table.

Section map.
Context {K V : Type} `{Countable K} (default_key : K) (mapped_type : V) (hash : K -> Z).
Context (crc32 : option (Z -> Z)).
(** The order in which a [boost::unordered_map] is traversed *)
Context (spill_order : gmap K V -> list (K * V)).

(** [hash_redirect] and [key_equal_redirect] *)
Definition hashfun (v : K * V) : Z := hash v.1.
Definition equalfun (v v2 : K * V) : bool := bool_decide (v.1 = v2.1).
Definition dflt : K * V := (default_key, mapped_type).

Record hmap := mk_map { container : table (K * V); spill : gmap K V }.

(** An iterator: in the table, in the spill, or the end *)
Inductive iterator := InTable (j : nat) | InSpill (k : K) | End.

Definition size (m : hmap) : Z := u64 (Table.size (container m) + Z.of_nat (base.size (spill m))).
Definition capacity (m : hmap) : Z := u64 (Table.capacity (container m) + Z.of_nat (base.size (spill m))).
(** [load_factor() > 0.8]: a [float] compared with a [double] *)
Definition f32_to_double (f : spec_float) : spec_float :=
  match f with S754_finite s m e => binary_normalize prec emax (cond_Zopp s (Zpos m)) e s | _ => f end.
Definition load_factor (m : hmap) : spec_float := f32_div (f32_of_size (size m)) (f32_of_size (capacity m)).
Definition overloaded (m : hmap) : bool :=
  SFltb (of_bits (d_div (d_of_int 8) (d_of_int 10))) (f32_to_double (load_factor m)).

Definition create_new_container (size : Z) : table (K * V) := new_table dflt size.
Definition new : hmap := mk_map (create_new_container 32) ∅.

(** The elements in the order of the iterators *)
Definition elements (m : hmap) : list (K * V) := Table.elements (container m) ++ spill_order (spill m).

(** [unordered_map::insert] keeps the value of a key that is there. *)
Definition spill_insert (v : K * V) (s : gmap K V) : gmap K V :=
  match s !! v.1 with Some _ => s | None => <[v.1 := v.2]> s end.

Definition table_insert := Table.insert dflt hashfun equalfun crc32.
Definition table_find := Table.find hashfun equalfun crc32.
Definition table_erase := Table.erase dflt hashfun equalfun crc32.
Definition table_count := Table.count hashfun equalfun crc32.

Definition rehash_to_new_container (newsize : option Z) (m : hmap) : outcome hmap :=
  let newsize := match newsize with Some n => n | None => u64 (size m * 2) end in
  ofold (fun v m =>
    r <-? table_insert v (container m);
    Ok (match r.1 with
        | None => mk_map r.2 (spill_insert v (spill m))
        | Some _ => mk_map r.2 (spill m)
        end)) (elements m) (mk_map (create_new_container newsize) ∅).

Definition do_insert (v : K * V) (m : hmap) : outcome (iterator * hmap) :=
  r <-? table_insert v (container m);
  match r.1 with
  | Some j => Ok (InTable j, mk_map r.2 (spill m))
  | None =>
      let m := mk_map r.2 (spill m) in
      if overloaded m then
        m <-? rehash_to_new_container None m;
        r <-? table_insert v (container m);
        match r.1 with
        | Some j => Ok (InTable j, mk_map r.2 (spill m))
        | None => Ok (InSpill v.1, mk_map r.2 (spill_insert v (spill m)))
        end
      else Ok (InSpill v.1, mk_map (container m) (spill_insert v (spill m)))
  end.

Definition find (k : K) (m : hmap) : outcome iterator :=
  iter <-? table_find (k, mapped_type) (container m);
  match iter with
  | Some j => Ok (InTable j)
  | None => Ok (match spill m !! k with Some _ => InSpill k | None => End end)
  end.

Definition insert (v : K * V) (m : hmap) : outcome (iterator * bool * hmap) :=
  i <-? find v.1 m;
  match i with
  | End => omap_ok (fun r => (r.1, true, r.2)) (do_insert v m)
  | _ => Ok (i, false, m)
  end.

(** [*iter] and an assignment to [iter->second] *)
Definition deref (i : iterator) (m : hmap) : outcome (K * V) :=
  match i with
  | InTable j => omap_ok elem (of_option (data (container m) !! j))
  | InSpill k => omap_ok (pair k) (of_option (spill m !! k))
  | End => Undef
  end.
Definition assign_second (i : iterator) (x : V) (m : hmap) : outcome hmap :=
  match i with
  | InTable j => Ok (mk_map (at_entry j (fun e => mk_element (hasdata e) (field e) ((elem e).1, x)) (container m)) (spill m))
  | InSpill k => Ok (mk_map (container m) (alter (fun _ => x) k (spill m)))
  | End => Undef
  end.

(** [operator[]]: the place of the value *)
Definition subscript (i : K) (m : hmap) : outcome (iterator * hmap) :=
  iter <-? find i m;
  match iter with End => do_insert (i, mapped_type) m | _ => Ok (iter, m) end.
Definition put (k : K) (v : V) (m : hmap) : outcome hmap :=
  r <-? subscript k m;
  assign_second r.1 v r.2.

Definition count (k : K) (m : hmap) : outcome bool :=
  c <-? table_count (k, mapped_type) (container m);
  Ok (c || is_some (spill m !! k)).

Definition erase (k : K) (m : hmap) : outcome (bool * hmap) :=
  r <-? table_erase (k, mapped_type) (container m);
  if (r.1 : bool) then Ok (true, mk_map r.2 (spill m))
  else Ok (is_some (spill m !! k), mk_map r.2 (delete k (spill m))).

Definition clear (m : hmap) : hmap := mk_map (create_new_container 128) ∅.

Definition rehash (s : Z) (m : hmap) : outcome hmap :=
  if capacity m <? s then rehash_to_new_container (Some s) m else Ok m.

(** The copy constructor replaces the table it makes by a copy; [operator=] does not
    copy the spill. *)
Definition copy (h : hmap) : hmap := mk_map (container h) (spill h).
Definition assign (m other : hmap) : hmap := mk_map (container other) (spill m).

(** [save] writes the size, the capacity and the elements; [load] reads them. *)
Definition saved (m : hmap) : Z * Z * list (K * V) := (size m, capacity m, elements m).
Definition load (c : Z) (vs : list (K * V)) (m : hmap) : outcome hmap :=
  let m := if negb (capacity m =? c) then mk_map (create_new_container c) ∅
           else mk_map (Table.clear dflt (container m)) (spill m) in
  ofold (fun v m => omap_ok snd (insert v m)) vs m.

(** [get]: the flag is [iter == end()]. *)
Definition get (k : K) (m : hmap) : outcome (bool * V) :=
  iter <-? find k m;
  v <-? deref iter m;
  Ok (match iter with End => true | _ => false end, v.2).
End map.
End Map.
