(* ===== verification/HopscotchCorrect.v ===== *)
(** Hopscotch hash tables: the bit fields name the data of each hash, and the map
    refines a finite map. *)
From Stdlib Require Import ZArith Lia List Bool.
From stdpp Require Import prelude gmap list.
From S2P Require Import Prelude.
From S2P Require Import Double.
From S2P Require Import DenseBitset.
From S2P Require Import Hopscotch.
Import Hopscotch.Table.

(** ** Powers of two *)

(** Bit [i] of [w] is set if one of the [n] bits of [v] from [i] on is. *)
Definition covers (n v w : Z) : Prop :=
  forall i, 0 <= i -> Z.testbit w i = true <-> exists j, i <= j < i + n /\ Z.testbit v j = true.
Lemma covers_start v : covers 1 v v.
Proof.
  intros i Hi. split; [intros; exists i; split; [lia|done]|]. intros (j & Hj & H). by replace i with j by lia.
Qed.
Lemma covers_step n v w : 0 < n -> covers n v w -> covers (2 * n) v (Z.lor w (Z.shiftr w n)).
Proof.
  unfold covers. intros Hn H i Hi. rewrite Z.lor_spec, Z.shiftr_spec, orb_true_iff by done. rewrite !H by lia.
  split; [intros [(j & Hj & Hb)|(j & Hj & Hb)]; exists j; split; try done; lia|].
  intros (j & Hj & Hb). destruct (Z.lt_ge_cases j (i + n)); [left|right]; exists j; split; try done; lia.
Qed.
Lemma next_powerof2_spec len : 1 <= len <= 2 ^ 61 -> exists k, 0 <= k <= 61 /\ next_powerof2 len = 2 ^ k.
Proof.
  intros H. unfold next_powerof2. cbv zeta. rewrite (wrap_small 64 (len - 1)) by (unfold is_u; lia).
  pose proof (covers_step 32 _ _ eq_refl (covers_step 16 _ _ eq_refl (covers_step 8 _ _ eq_refl
    (covers_step 4 _ _ eq_refl (covers_step 2 _ _ eq_refl (covers_step 1 _ _ eq_refl (covers_start (len - 1)))))))) as Hc.
  set (w := Z.lor _ (Z.shiftr _ 32)) in *. 
  assert (Hw : w = Z.ones (if len - 1 =? 0 then 0 else Z.log2 (len - 1) + 1)).
  { apply Z.bits_inj'. intros i Hi. apply eq_true_iff_eq. rewrite (Hc i Hi).
    destruct (Z.eqb_spec (len - 1) 0) as [->|Hne].
    - rewrite Z.ones_spec_high by lia. split; [intros (j & _ & Hj); by rewrite Z.bits_0 in Hj|done].
    - rewrite Z.testbit_ones_nonneg, Z.ltb_lt by (pose proof (Z.log2_nonneg (len - 1)); lia). split.
      + intros (j & Hj & Hb). destruct (Z.lt_ge_cases (Z.log2 (len - 1)) j) as [Hlt|]; [|lia].
        by rewrite Z.bits_above_log2 in Hb by lia.
      + intros Hlt. exists (Z.log2 (len - 1)). assert (Z.log2 (len - 1) < 61) by (apply Z.log2_lt_pow2; lia).
        split; [lia|]. apply Z.bit_log2. lia. }
  rewrite Hw. destruct (Z.eqb_spec (len - 1) 0).
  - by exists 0.
  - pose proof (Z.log2_nonneg (len - 1)). assert (Z.log2 (len - 1) < 61) by (apply Z.log2_lt_pow2; lia).
    exists (Z.log2 (len - 1) + 1). split; [lia|]. rewrite Z.ones_equiv.
    replace (Z.pred _ + 1) with (2 ^ (Z.log2 (len - 1) + 1)) by lia. apply wrap_small.
    split; [apply Z.pow_nonneg; lia|apply Z.pow_lt_mono_r; lia].
Qed.

(** ** The two columns of a table *)

Section table.
Context {T : Type} (dflt : T) (hashfun : T -> Z) (equalfun : T -> T -> bool) (crc32 : option (Z -> Z)).
Notation home m x := (Z.to_nat (Z.land (compute_hash hashfun crc32 x) m)).

Definition slot (e : element T) : option T := if hasdata e then Some (elem e) else None.
Definition slots (t : table T) : list (option T) := map slot (data t).
Definition fields (t : table T) : list Z := map field (data t).
(** The data of a table *)
Definition contents (t : table T) : list T := omap id (slots t).

Lemma slots_elem j b x t : slots (at_entry j (set_elem b x) t) = <[j := if b then Some x else None]> (slots t).
Proof.
  unfold slots. cbn. generalize (data t) as l. clear t. intros l. revert j.
  induction l as [|e l IH]; intros [|j]; cbn; [done|done|by destruct b|]. by rewrite <- IH.
Qed.
Lemma fields_elem j b x t : fields (at_entry j (set_elem b x) t) = fields t.
Proof.
  unfold fields. cbn. generalize (data t) as l. clear t. intros l. revert j.
  induction l as [|e l IH]; intros [|j]; cbn; [done|done|done|]. by rewrite <- (IH j).
Qed.
Lemma slots_field j (g : Z -> Z) t : slots (at_entry j (fun e => set_field (g (field e)) e) t) = slots t.
Proof.
  unfold slots. cbn. generalize (data t) as l. clear t. intros l. revert j.
  induction l as [|e l IH]; intros [|j]; cbn; [done|done|done|]. by rewrite <- (IH j).
Qed.
Lemma fields_field j (g : Z -> Z) t : fields (at_entry j (fun e => set_field (g (field e)) e) t) = alter g j (fields t).
Proof.
  unfold fields. cbn. generalize (data t) as l. clear t. intros l. revert j.
  induction l as [|e l IH]; intros [|j]; cbn; [done|done|done|]. by rewrite <- IH.
Qed.

Lemma data_lookup t j e : data t !! j = Some e -> slots t !! j = Some (slot e) /\ fields t !! j = Some (field e).
Proof. intros H. unfold slots, fields. by rewrite !list_lookup_fmap, H. Qed.
Lemma slots_lookup t j s : slots t !! j = Some s -> exists e, data t !! j = Some e /\ slot e = s.
Proof. unfold slots. rewrite list_lookup_fmap. intros (e & -> & ->)%fmap_Some. by exists e. Qed.
Lemma fields_lookup t j f : fields t !! j = Some f -> exists e, data t !! j = Some e /\ field e = f.
Proof. unfold fields. rewrite list_lookup_fmap. intros (e & -> & ->)%fmap_Some. by exists e. Qed.
Lemma lookup_lt (t : table T) j : (j < length (data t))%nat -> exists e, data t !! j = Some e.
Proof. intros H. by apply lookup_lt_is_Some_2 in H. Qed.

(** *** Bits of a field *)

Lemma clear_bit_testbit f r i : Z.testbit (clear_bit f r) (Z.of_nat i) = Z.testbit f (Z.of_nat i) && negb (r =? i)%nat.
Proof.
  unfold clear_bit. rewrite Z.ldiff_spec, Z.shiftl_1_l, Z.pow2_bits_eqb by lia.
  destruct (Nat.eqb_spec r i) as [->|]; [by rewrite Z.eqb_refl|]. destruct (Z.eqb_spec (Z.of_nat r) (Z.of_nat i)); [lia|done].
Qed.
Lemma set_bit_testbit f r i : Z.testbit (set_bit f r) (Z.of_nat i) = Z.testbit f (Z.of_nat i) || (r =? i)%nat.
Proof.
  unfold set_bit. rewrite Z.lor_spec, Z.shiftl_1_l, Z.pow2_bits_eqb by lia.
  destruct (Nat.eqb_spec r i) as [->|]; [by rewrite Z.eqb_refl|]. destruct (Z.eqb_spec (Z.of_nat r) (Z.of_nat i)); [lia|done].
Qed.
(** A field is non-negative with no bit above 30. *)
Definition is_field (f : Z) : Prop := 0 <= f /\ forall i, Z.testbit f (Z.of_nat i) = true -> (i < 31)%nat.
Lemma clear_is_field f r : is_field f -> is_field (clear_bit f r).
Proof.
  intros [H1 H2]. split; [by apply Z.ldiff_nonneg; left|]. intros i. rewrite clear_bit_testbit, andb_true_iff.
  intros [Hi _]. by apply H2.
Qed.
Lemma set_is_field f r : (r < 31)%nat -> is_field f -> is_field (set_bit f r).
Proof.
  intros Hr [H1 H2]. split; [apply Z.lor_nonneg; split; [done|]; rewrite Z.shiftl_1_l; lia|]. intros i.
  rewrite set_bit_testbit, orb_true_iff. intros [Hi| ->%Nat.eqb_eq]; [by apply H2|done].
Qed.
Lemma zero_is_field : is_field 0.
Proof. split; [done|]. intros i Hi. by rewrite Z.bits_0 in Hi. Qed.
Lemma low_bit_spec f : 0 <= f -> f <> 0 -> Z.testbit f (Z.of_nat (low_bit f)) = true /\
  forall i, (i < low_bit f)%nat -> Z.testbit f (Z.of_nat i) = false.
Proof.
  intros H1 H2. destruct (ctz_spec f ltac:(lia)) as (H3 & H4 & H5). unfold low_bit.
  rewrite Z2Nat.id by done. split; [done|]. intros i Hi. apply H5. lia.
Qed.

(** ** The invariant

    [core m sl fl]: with [m] for a mask, the fields [fl] name the data [sl] that have
    their hash at the entry, and each datum is near its hash. *)
Record core (m : Z) (sl : list (option T)) (fl : list Z) : Prop := mk_core {
  core_fields h f : fl !! h = Some f -> is_field f;
  core_bits h f r : fl !! h = Some f ->
    Z.testbit f (Z.of_nat r) = true <-> exists x, sl !! (h + r)%nat = Some (Some x) /\ home m x = h;
  core_near j x : sl !! j = Some (Some x) -> (home m x <= j < home m x + 31)%nat
}.

(** A datum is put in a free entry near its hash. *)
Lemma core_place m sl fl s x : core m sl fl -> sl !! s = Some None ->
  (home m x <= s < home m x + 31)%nat ->
  core m (<[s := Some x]> sl) (alter (fun f => set_bit f (s - home m x)) (home m x) fl).
Proof.
  intros [H1 H2 H3] Hs Hr. assert (Hl : (s < length sl)%nat) by by eapply lookup_lt_Some. split.
  - intros h f. destruct (decide (h = home m x)) as [->|Hne].
    + rewrite list_lookup_alter_eq. intros (f0 & Hf & ->)%fmap_Some. apply set_is_field; [lia|by eapply H1].
    + rewrite list_lookup_alter_ne by done. apply H1.
  - intros h f r. destruct (decide (h = home m x)) as [->|Hne].
    + rewrite list_lookup_alter_eq. intros (f0 & Hf & ->)%fmap_Some. rewrite set_bit_testbit, orb_true_iff, (H2 _ _ _ Hf).
      rewrite Nat.eqb_eq. destruct (decide (home m x + r = s)%nat) as [<-|Hns].
      * rewrite list_lookup_insert_eq by done. split; [intros _; by exists x|intros _; right; lia].
      * rewrite list_lookup_insert_ne by done. split; [intros [Hy|Hy]; [done|lia]|by left].
    + rewrite list_lookup_alter_ne by done. intros Hf. rewrite (H2 _ _ _ Hf).
      destruct (decide (h + r = s)%nat) as [<-|Hns].
      * rewrite list_lookup_insert_eq by done. rewrite Hs. split; [by intros (y & ? & _)|].
        intros (y & [= <-] & Hy). by symmetry in Hy.
      * by rewrite list_lookup_insert_ne.
  - intros j y. destruct (decide (j = s)) as [->|Hne].
    + rewrite list_lookup_insert_eq by done. by intros [= <-].
    + rewrite list_lookup_insert_ne by done. apply H3.
Qed.

(** A datum is removed. *)
Lemma core_remove m sl fl s x : core m sl fl -> sl !! s = Some (Some x) ->
  core m (<[s := None]> sl) (alter (fun f => clear_bit f (s - home m x)) (home m x) fl).
Proof.
  intros [H1 H2 H3] Hs. assert (Hl : (s < length sl)%nat) by by eapply lookup_lt_Some.
  pose proof (H3 _ _ Hs) as Hr. split.
  - intros h f. destruct (decide (h = home m x)) as [->|Hne].
    + rewrite list_lookup_alter_eq. intros (f0 & Hf & ->)%fmap_Some. apply clear_is_field. by eapply H1.
    + rewrite list_lookup_alter_ne by done. apply H1.
  - intros h f r. destruct (decide (h = home m x)) as [->|Hne].
    + rewrite list_lookup_alter_eq. intros (f0 & Hf & ->)%fmap_Some. rewrite clear_bit_testbit, andb_true_iff, (H2 _ _ _ Hf).
      rewrite negb_true_iff, Nat.eqb_neq. destruct (decide (home m x + r = s)%nat) as [<-|Hns].
      * rewrite list_lookup_insert_eq by done. split; [intros [_ Hy]; lia|by intros (y & ? & _)].
      * rewrite list_lookup_insert_ne by done. split; [by intros [Hy _]|intros Hy; split; [done|lia]].
    + rewrite list_lookup_alter_ne by done. intros Hf. rewrite (H2 _ _ _ Hf).
      destruct (decide (h + r = s)%nat) as [<-|Hns].
      * rewrite list_lookup_insert_eq by done. rewrite Hs. split; [|by intros (y & ? & _)].
        intros (y & [= <-] & Hy). by symmetry in Hy.
      * by rewrite list_lookup_insert_ne.
  - intros j y. destruct (decide (j = s)) as [->|Hne].
    + rewrite list_lookup_insert_eq by done. done.
    + rewrite list_lookup_insert_ne by done. apply H3.
Qed.

(** A datum is replaced by one with the same hash. *)
Lemma core_replace m sl fl s x y : core m sl fl -> sl !! s = Some (Some x) -> home m x = home m y ->
  core m (<[s := Some y]> sl) fl.
Proof.
  intros [H1 H2 H3] Hs Hxy. assert (Hl : (s < length sl)%nat) by by eapply lookup_lt_Some. split; [done| |].
  - intros h f r Hf. rewrite (H2 _ _ _ Hf). destruct (decide (h + r = s)%nat) as [<-|Hns].
    + rewrite list_lookup_insert_eq by done. rewrite Hs.
      split; intros (z & [= <-] & Hz); [exists y|exists x]; (split; [done|congruence]).
    + by rewrite list_lookup_insert_ne.
  - intros j z. destruct (decide (j = s)) as [->|Hne].
    + rewrite list_lookup_insert_eq by done. intros [= <-]. rewrite <- Hxy. by apply H3.
    + rewrite list_lookup_insert_ne by done. apply H3.
Qed.

(** *** The data as a multiset *)

Lemma omap_place (sl : list (option T)) s x : sl !! s = Some None ->
  omap id (<[s := Some x]> sl) ≡ₚ x :: omap id sl.
Proof.
  revert s. induction sl as [|o sl IH]; intros [|s] Hs; try done.
  - injection Hs as ->. done.
  - cbn. specialize (IH s Hs). destruct o as [y|]; cbn; [|done]. rewrite IH. apply Permutation_swap.
Qed.
Lemma omap_remove (sl : list (option T)) s x : sl !! s = Some (Some x) ->
  omap id sl ≡ₚ x :: omap id (<[s := None]> sl).
Proof.
  revert s. induction sl as [|o sl IH]; intros [|s] Hs; try done.
  - injection Hs as ->. done.
  - cbn. specialize (IH s Hs). destruct o as [y|]; cbn; [|done]. rewrite IH. apply Permutation_swap.
Qed.
Lemma omap_held (sl : list (option T)) x : x ∈ omap id sl <-> exists s, sl !! s = Some (Some x).
Proof.
  rewrite list_elem_of_omap. split.
  - intros (o & [s Hs]%list_elem_of_lookup & Ho). exists s. cbn in Ho. by subst o.
  - intros [s Hs]. exists (Some x). split; [by eapply list_elem_of_lookup_2|done].
Qed.

(** *** Tables *)

Record table_inv (t : table T) : Prop := mk_table_inv {
  inv_mask : exists k, 0 <= k <= 61 /\ mask t = 2 ^ k - 1 /\ Z.of_nat (length (data t)) = 2 ^ k + 32;
  inv_core : core (mask t) (slots t) (fields t);
  inv_numel : numel t = Z.of_nat (length (contents t))
}.

Lemma table_target_lt t x : table_inv t -> (target_of hashfun crc32 x t + 31 < length (data t))%nat.
Proof.
  intros [(k & Hk & Hm & Hl) _ _]. unfold target_of. rewrite Hm.
  replace (2 ^ k - 1) with (Z.ones k) by (rewrite Z.ones_equiv; lia).
  rewrite Z.land_ones by lia. pose proof (Z.mod_pos_bound (compute_hash hashfun crc32 x) (2 ^ k) ltac:(lia)). lia.
Qed.
Lemma contents_le t : (length (contents t) <= length (data t))%nat.
Proof.
  unfold contents, slots. induction (data t) as [|e l IH]; cbn; [done|]. destruct (slot e); cbn; lia.
Qed.
Lemma numel_small t : table_inv t -> 0 <= numel t < 2 ^ 63.
Proof.
  intros [(k & Hk & Hm & Hl) _ Hn]. pose proof (contents_le t).
  assert (2 ^ k <= 2 ^ 61) by (apply Z.pow_le_mono_r; lia). lia.
Qed.

(** *** Operations *)

Context {K : Type} (key : T -> K).
Hypothesis equalfun_spec : forall x y, equalfun x y = true <-> key x = key y.
Hypothesis hash_key : forall x y, key x = key y -> hashfun x = hashfun y.

Lemma home_key m x y : key x = key y -> home m x = home m y.
Proof. intros E. unfold compute_hash. by rewrite (hash_key _ _ E). Qed.

(** What a search finds *)
Definition found (k : T) (t : table T) (o : option nat) : Prop :=
  match o with
  | Some j => exists x, slots t !! j = Some (Some x) /\ key x = key k
  | None => forall x, x ∈ contents t -> key x <> key k
  end.

Lemma find_loop_spec t k target : table_inv t -> (target + 31 < length (data t))%nat -> forall n f, 0 <= f ->
  (forall r, Z.testbit f (Z.of_nat r) = true -> (31 - n <= r < 31)%nat) ->
  exists o, find_loop equalfun (S n) k target f t = Ok o /\
    match o with
    | Some j => exists x, slots t !! j = Some (Some x) /\ key x = key k
    | None => forall r x, Z.testbit f (Z.of_nat r) = true -> slots t !! (target + r)%nat = Some (Some x) -> key x <> key k
    end.
Proof.
  intros Ht Hlen. induction n as [|n IH]; intros f Hf Hbits.
  all: cbn [find_loop]; destruct (Z.eqb_spec f 0) as [->|Hne];
    [exists None; split; [done|]; intros r x Hr; by rewrite Z.bits_0 in Hr|].
  all: destruct (low_bit_spec f Hf Hne) as [Hb _]; pose proof (Hbits _ Hb) as Hr.
  { lia. }
  destruct (lookup_lt t (target + low_bit f)) as [e He]; [lia|]. rewrite He. cbn [of_option obind].
  destruct (data_lookup _ _ _ He) as [Hs _]. destruct (hasdata e && equalfun (elem e) k) eqn:E.
  - apply andb_prop in E as [E1 E2]. eexists. split; [done|]. exists (elem e). unfold slot in Hs. rewrite E1 in Hs.
    split; [done|]. by apply equalfun_spec.
  - destruct (IH (clear_bit f (low_bit f))) as (o & Ho & Hspec).
    + by apply Z.ldiff_nonneg; left.
    + intros r. rewrite clear_bit_testbit, andb_true_iff, negb_true_iff, Nat.eqb_neq. intros [H1 H2].
      pose proof (Hbits _ H1). destruct (low_bit_spec f Hf Hne) as [_ Hlow].
      destruct (Nat.lt_ge_cases r (low_bit f)) as [Hlt|]; [by rewrite Hlow in H1|lia].
    + exists o. split; [exact Ho|]. destruct o as [j|]; [done|]. intros r x H1 H2.
      destruct (decide (r = low_bit f)) as [->|Hr'].
      * rewrite Hs in H2. unfold slot in H2. destruct (hasdata e); [|done]. injection H2 as <-.
        intros E'. apply equalfun_spec in E'. by rewrite E' in E.
      * apply (Hspec r x); [|done]. rewrite clear_bit_testbit, H1. cbn. apply negb_true_iff, Nat.eqb_neq. done.
Qed.

Lemma find_spec t k : table_inv t -> exists o, Table.find hashfun equalfun crc32 k t = Ok o /\ found k t o.
Proof.
  intros Ht. unfold Table.find, find_impl. pose proof (table_target_lt t k Ht) as Hlen.
  destruct (lookup_lt t (target_of hashfun crc32 k t)) as [e He]; [lia|]. rewrite He. cbn [of_option obind].
  destruct (data_lookup _ _ _ He) as [_ Hf]. destruct (core_fields _ _ _ (inv_core t Ht) _ _ Hf) as [H1 H2].
  destruct (find_loop_spec t k _ Ht Hlen 31 (field e) H1) as (o & Ho & Hspec).
  { intros r Hr. specialize (H2 r Hr). lia. }
  exists o. split; [exact Ho|]. destruct o as [j|]; [done|]. intros x [j Hj]%omap_held E.
  pose proof (core_near _ _ _ (inv_core t Ht) _ _ Hj) as Hn. unfold target_of in *. rewrite (home_key _ _ _ E) in Hn.
  set (h := home (mask t) k) in *. apply (Hspec (j - h)%nat x); [|by replace (h + (j - h))%nat with j by lia|done].
  apply (core_bits _ _ _ (inv_core t Ht) _ _ _ Hf). exists x. replace (h + (j - h))%nat with j by lia.
  split; [done|by apply home_key].
Qed.

Lemma find_empty_spec t : forall n s, (s + n <= length (data t))%nat ->
  exists o, find_empty n s t = Ok o /\
    match o with
    | Some j => (s <= j)%nat /\ slots t !! j = Some None /\ (j = s \/ exists x, slots t !! s = Some (Some x))
    | None => n = 0%nat \/ exists x, slots t !! s = Some (Some x)
    end.
Proof.
  induction n as [|n IH]; intros s Hs; cbn [find_empty]; [by exists None; split; [|left]|].
  destruct (lookup_lt t s) as [e He]; [lia|]. rewrite He. cbn [of_option obind].
  destruct (data_lookup _ _ _ He) as [Hsl _]. unfold slot in Hsl. destruct (hasdata e); cbn [negb].
  - destruct (IH (S s)) as (o & Ho & Hspec); [lia|]. exists o. split; [done|].
    destruct o as [j|]; [split; [lia|]; split; [apply Hspec|]|]; right; by eexists.
  - exists (Some s). split; [done|]. split; [lia|]. split; [done|by left].
Qed.

Lemma far_spec (s target : nat) : (target <= s)%nat -> Z.of_nat s < 2 ^ 62 -> far s target = (31 <=? s - target)%nat.
Proof.
  intros H1 H2. unfold far. rewrite wrap_small by (unfold is_u; lia).
  destruct (Nat.leb_spec 31 (s - target)), (Z.leb_spec 31 (Z.of_nat s - Z.of_nat target)); lia.
Qed.

Lemma find_hop_spec t s : (31 <= s < length (data t))%nat -> forall i, (i <= 30)%nat ->
  exists o, find_hop i s t = Ok o /\
    forall i' r, o = Some (i', r) -> (1 <= i' <= 30)%nat /\ (r <= i')%nat /\
      exists f, fields t !! (s - i')%nat = Some f /\ f <> 0 /\ r = low_bit f.
Proof.
  intros Hs. induction i as [|i IH]; intros Hi; cbn [find_hop]; [by exists None|].
  destruct (lookup_lt t (s - S i)) as [e He]; [lia|]. rewrite He. cbn [of_option obind].
  destruct (negb _ && _) eqn:E.
  - eexists. split; [done|]. intros i' r [= <- <-]. apply andb_prop in E as [E1%negb_true_iff%Z.eqb_neq E2%Nat.leb_le].
    split; [lia|]. split; [done|]. exists (field e). by destruct (data_lookup _ _ _ He).
  - apply IH. lia.
Qed.

Lemma alter_twice (f g : Z -> Z) j (l : list Z) : alter g j (alter f j l) = alter (fun x => g (f x)) j l.
Proof. revert j. induction l as [|x l IH]; intros [|j]; cbn; [done..|]. f_equal. apply IH. Qed.

(** The same data, possibly at other places *)
Definition same_data (t t' : table T) : Prop :=
  mask t' = mask t /\ length (data t') = length (data t) /\ contents t' ≡ₚ contents t.
Lemma table_same_data_refl t : same_data t t.
Proof. done. Qed.
Lemma table_same_data_trans t t' t'' : same_data t t' -> same_data t' t'' -> same_data t t''.
Proof. intros (H1 & H2 & H3) (H4 & H5 & H6). repeat split; [congruence|congruence|]. by rewrite H6. Qed.
Lemma length_at_entry j f (t : table T) : length (data (at_entry j f t)) = length (data t).
Proof. cbn. apply length_alter. Qed.

Lemma table_move_spec t s i f : table_inv t -> slots t !! s = Some None -> (1 <= i <= 30)%nat -> (i <= s)%nat ->
  fields t !! (s - i)%nat = Some f -> f <> 0 -> (low_bit f <= i)%nat ->
  exists t', move dflt s i (low_bit f) t = Ok ((s - i + low_bit f)%nat, t') /\ table_inv t' /\ same_data t t' /\
    (low_bit f < i)%nat /\ slots t' !! (s - i + low_bit f)%nat = Some None.
Proof.
  intros Ht Hs Hi His Hf Hne Hle. pose proof (inv_core t Ht) as Hc. set (r := low_bit f) in *.
  destruct (core_fields _ _ _ Hc _ _ Hf) as [Hpos Hbits].
  destruct (low_bit_spec f Hpos Hne) as [Hb _]. fold r in Hb.
  destruct (proj1 (core_bits _ _ _ Hc _ _ _ Hf) Hb) as (x & Hx & Hhome).
  assert (Hri : (r < i)%nat).
  { destruct (decide (r = i)) as [E|]; [|lia]. rewrite E in Hx. replace (s - i + i)%nat with s in Hx by lia. by rewrite Hs in Hx. }
  destruct (slots_lookup _ _ _ Hx) as (e & He & Hse). unfold move. rewrite He. cbn [of_option obind].
  assert (Ee : elem e = x) by (unfold slot in Hse; destruct (hasdata e); by simplify_eq).
  rewrite Ee. eexists. split; [done|].
  set (t' := at_entry (s - i) _ _).
  assert (Esl : slots t' = <[s := Some x]> (<[(s - i + r)%nat := None]> (slots t))).
  { unfold t'. rewrite (slots_field _ (fun f => set_bit (clear_bit f r) i)), !slots_elem. apply list_insert_insert_ne. lia. }
  assert (Efl : fields t' = alter (fun f => set_bit f i) (s - i)%nat (alter (fun f => clear_bit f r) (s - i)%nat (fields t))).
  { unfold t'. rewrite (fields_field _ (fun f => set_bit (clear_bit f r) i)), !fields_elem. by rewrite alter_twice. }
  assert (Hlen : length (data t') = length (data t)) by (unfold t'; by rewrite !length_at_entry).
  assert (Hs' : <[(s - i + r)%nat := None]> (slots t) !! s = Some None) by by rewrite list_lookup_insert_ne by lia.
  assert (Hcont : contents t' ≡ₚ contents t).
  { unfold contents. rewrite Esl, (omap_place _ _ _ Hs'). symmetry. by apply omap_remove. }
  assert (Hsame : same_data t t') by done.
  split; [split|split; [done|split; [done|]]].
  - change (mask t') with (mask t). rewrite Hlen. apply Ht.
  - change (mask t') with (mask t). rewrite Esl, Efl.
    pose proof (core_remove _ _ _ _ _ Hc Hx) as H1. rewrite Hhome in H1.
    replace (s - i + r - (s - i))%nat with r in H1 by lia.
    pose proof (core_place _ _ _ _ x H1 Hs') as H2. rewrite Hhome in H2.
    replace (s - (s - i))%nat with i in H2 by lia. apply H2. lia.
  - change (numel t') with (numel t). rewrite (inv_numel t Ht). by rewrite Hcont.
  - rewrite Esl, list_lookup_insert_ne by lia. apply list_lookup_insert_eq. by eapply lookup_lt_Some.
Qed.

Lemma lookup_slots_lt t s o : slots t !! s = Some o -> (s < length (data t))%nat.
Proof. intros H%lookup_lt_Some. unfold slots in H. by rewrite length_map in H. Qed.
Lemma length_small t : table_inv t -> Z.of_nat (length (data t)) < 2 ^ 62.
Proof. intros [(k & Hk & _ & ->) _ _]. assert (2 ^ k <= 2 ^ 61) by (apply Z.pow_le_mono_r; lia). lia. Qed.

Lemma hop_loop_spec target : forall fuel t s, table_inv t -> slots t !! s = Some None -> (target <= s < fuel)%nat ->
  exists o t', hop_loop dflt fuel s target t = Ok (o, t') /\ table_inv t' /\ same_data t t' /\
    forall s', o = Some s' -> (target <= s' < target + 31)%nat /\ slots t' !! s' = Some None.
Proof.
  induction fuel as [|fuel IH]; intros t s Ht Hs Hr; [lia|]. cbn [hop_loop].
  pose proof (lookup_slots_lt _ _ _ Hs) as Hlt. pose proof (length_small t Ht).
  rewrite far_spec by lia. destruct (Nat.leb_spec 31 (s - target)).
  2: { eexists _, _. split; [done|]. split; [done|]. split; [apply table_same_data_refl|]. intros s' [= <-]. split; [lia|done]. }
  destruct (find_hop_spec t s) with (i := 30%nat) as (o & -> & Ho); [lia|lia|]. cbn [obind].
  destruct o as [[i r]|]; [|by eexists _, _; split; [done|]; split; [done|]; split; [apply table_same_data_refl|]].
  destruct (Ho i r eq_refl) as (Hi & Hle & f & Hf & Hne & ->).
  destruct (table_move_spec t s i f Ht Hs Hi ltac:(lia) Hf Hne Hle) as (t' & -> & Ht' & Hsame & Hlt' & Hs'). cbn [obind fst snd].
  destruct (IH t' _ Ht' Hs') as (o & t'' & -> & Ht'' & Hsame' & Hspec); [lia|].
  exists o, t''. split; [done|]. split; [done|]. split; [by eapply table_same_data_trans|done].
Qed.

Lemma hop_loop_near fuel t s target : (target <= s < target + 31)%nat -> table_inv t -> (s < length (data t))%nat ->
  hop_loop dflt fuel s target t = Ok (Some s, t).
Proof.
  intros Hr Ht Hs. pose proof (length_small t Ht). destruct fuel; cbn [hop_loop]; rewrite far_spec by lia;
    destruct (Nat.leb_spec 31 (s - target)); (lia || done).
Qed.
Lemma slot_nonempty t s x : slots t !! s = Some (Some x) -> contents t <> [].
Proof. intros H E. assert (Hx : x ∈ contents t) by (apply omap_held; by eexists). by rewrite E in Hx; apply elem_of_nil in Hx. Qed.

(** What an insertion of a new datum does *)
Lemma place_spec t x s : table_inv t -> slots t !! s = Some None ->
  (target_of hashfun crc32 x t <= s < target_of hashfun crc32 x t + 31)%nat ->
  let t' := with_numel (u64 (numel t + 1))
    (at_entry (target_of hashfun crc32 x t) (fun e => set_field (set_bit (field e) (s - target_of hashfun crc32 x t)) e)
      (at_entry s (set_elem true x) t)) in
  table_inv t' /\ mask t' = mask t /\ contents t' ≡ₚ x :: contents t /\ slots t' !! s = Some (Some x).
Proof.
  intros Ht Hs Hr t'. set (h := target_of hashfun crc32 x t) in *.
  assert (Esl : slots t' = <[s := Some x]> (slots t)).
  { change (slots t') with (slots (at_entry h (fun e => set_field (set_bit (field e) (s - h)) e) (at_entry s (set_elem true x) t))).
    by rewrite (slots_field _ (fun f => set_bit f (s - h))), slots_elem. }
  assert (Efl : fields t' = alter (fun f => set_bit f (s - h)) h (fields t)).
  { change (fields t') with (fields (at_entry h (fun e => set_field (set_bit (field e) (s - h)) e) (at_entry s (set_elem true x) t))).
    by rewrite (fields_field _ (fun f => set_bit f (s - h))), fields_elem. }
  assert (Hcont : contents t' ≡ₚ x :: contents t) by (unfold contents; rewrite Esl; by apply omap_place).
  assert (Hlen : length (data t') = length (data t)) by (unfold t'; cbn; by rewrite !length_alter).
  split; [|split; [done|split; [done|]]].
  - split; [change (mask t') with (mask t); rewrite Hlen; apply Ht| |].
    + change (mask t') with (mask t). rewrite Esl, Efl. by apply (core_place _ _ _ _ _ (inv_core t Ht)).
    + change (numel t') with (u64 (numel t + 1)). pose proof (numel_small t Ht). rewrite wrap_small by (unfold is_u; lia).
      rewrite (inv_numel t Ht), (Permutation_length Hcont). cbn. lia.
  - rewrite Esl. apply list_lookup_insert_eq. by eapply lookup_lt_Some.
Qed.

Lemma at_entry_ext j (f g : element T -> element T) t e : data t !! j = Some e -> f e = g e ->
  at_entry j f t = at_entry j g t.
Proof.
  intros He E. unfold at_entry. f_equal. apply list_alter_ext; [|done]. intros e' He'. rewrite He in He'. by injection He' as <-.
Qed.

(** A datum is overwritten by one with the same key. *)
Lemma overwrite_spec t j x y : table_inv t -> slots t !! j = Some (Some y) -> key y = key x ->
  let t' := at_entry j (set_elem true x) t in
  table_inv t' /\ mask t' = mask t /\ slots t' !! j = Some (Some x) /\
  exists rest, contents t ≡ₚ y :: rest /\ contents t' ≡ₚ x :: rest.
Proof.
  intros Ht Hj E t'. assert (Hlt : (j < length (slots t))%nat) by by eapply lookup_lt_Some.
  assert (Esl : slots t' = <[j := Some x]> (slots t)) by apply slots_elem.
  assert (Hrest : contents t' ≡ₚ x :: omap id (<[j := None]> (slots t))).
  { unfold contents. rewrite Esl, <- (omap_place (<[j := None]> (slots t)) j x) by by apply list_lookup_insert_eq.
    by rewrite list_insert_insert_eq. }
  assert (Hold : contents t ≡ₚ y :: omap id (<[j := None]> (slots t))) by by apply omap_remove.
  split; [|split; [done|split; [rewrite Esl; by apply list_lookup_insert_eq|by eexists]]].
  split.
  - change (mask t') with (mask t). unfold t'. rewrite length_at_entry. apply Ht.
  - change (mask t') with (mask t). rewrite Esl. unfold t'. rewrite fields_elem.
    apply (core_replace _ _ _ _ y); [apply Ht|done|by apply home_key].
  - change (numel t') with (numel t). rewrite (inv_numel t Ht), Hold, Hrest. done.
Qed.

Inductive inserted (x : T) (overwrite : bool) (t : table T) : option nat -> table T -> Prop :=
| ins_old j y rest t' : slots t !! j = Some (Some y) -> key y = key x ->
    slots t' !! j = Some (Some (if overwrite then x else y)) ->
    contents t ≡ₚ y :: rest -> contents t' ≡ₚ (if overwrite then x else y) :: rest -> inserted x overwrite t (Some j) t'
| ins_new j t' : (forall y, y ∈ contents t -> key y <> key x) ->
    slots t' !! j = Some (Some x) -> contents t' ≡ₚ x :: contents t -> inserted x overwrite t (Some j) t'
| ins_full t' : (forall y, y ∈ contents t -> key y <> key x) -> contents t <> [] ->
    contents t' ≡ₚ contents t -> inserted x overwrite t None t'.

Lemma table_insert_spec t x overwrite : table_inv t -> exists o t',
  insert_impl dflt hashfun equalfun crc32 x overwrite t = Ok (o, t') /\ table_inv t' /\ mask t' = mask t /\
  inserted x overwrite t o t'.
Proof.
  intros Ht. unfold insert_impl, try_find_and_overwrite. destruct (find_spec t x Ht) as (o & Ho & Hspec).
  unfold Table.find in Ho. rewrite Ho. cbn [obind]. pose proof (table_target_lt t x Ht) as Htl.
  destruct o as [j|]; cbn [obind fst snd].
  - destruct Hspec as (y & Hj & E). destruct overwrite.
    + destruct (slots_lookup _ _ _ Hj) as (e & He & Hse).
      rewrite (at_entry_ext j _ (set_elem true x) t e He) by (unfold slot in Hse; unfold set_elem; destruct (hasdata e); by simplify_eq).
      destruct (overwrite_spec t j x y Ht Hj E) as (H1 & H2 & H3 & rest & H4 & H5).
      eexists _, _. split; [done|]. split; [done|]. split; [done|]. by eapply ins_old.
    + eexists _, _. split; [done|]. split; [done|]. split; [done|].
      apply (ins_old _ _ _ _ y (omap id (<[j := None]> (slots t)))); try done; by apply omap_remove.
  - destruct (find_empty_spec t (Nat.min (length (data t)) (target_of hashfun crc32 x t + 31 * 20) - target_of hashfun crc32 x t)
      (target_of hashfun crc32 x t)) as (o & Ho' & Hempty); [lia|]. rewrite Ho'. cbn [obind].
    destruct o as [s|].
    + destruct Hempty as (Hs1 & Hs2 & Hs3). pose proof (lookup_slots_lt _ _ _ Hs2).
      destruct (hop_loop_spec (target_of hashfun crc32 x t) (length (data t)) t s Ht Hs2) as (o & t' & E & Ht' & Hsame & Hplace); [lia|].
      rewrite E. cbn [obind fst snd]. destruct Hsame as (Hm & Hl & Hc).
      assert (Hnew : forall y, y ∈ contents t' -> key y <> key x) by (intros y; rewrite Hc; apply Hspec).
      destruct o as [s'|].
      * destruct (Hplace s' eq_refl) as [Hr Hs'].
        destruct (place_spec t' x s' Ht' Hs') as (H1 & H2 & H3 & H4); [unfold target_of in *; by rewrite Hm|].
        eexists _, _. split; [done|]. unfold target_of in *. rewrite Hm in *.
        split; [done|]. split; [exact H2|]. apply ins_new; [by setoid_rewrite <- Hc|done|]. by rewrite H3, Hc.
      * eexists _, _. split; [done|]. split; [done|]. split; [done|]. apply ins_full; [done| |done].
        destruct Hs3 as [->|[y Hy]]; [|by eapply slot_nonempty].
        rewrite hop_loop_near in E by (done || lia). discriminate E.
    + destruct Hempty as [|[y Hy]]; [lia|]. eexists _, _. split; [done|]. split; [done|]. split; [done|].
      apply ins_full; [done| |done]. by eapply slot_nonempty.
Qed.

Lemma erase_at_spec t j x : table_inv t -> slots t !! j = Some (Some x) -> exists t',
  erase_at dflt hashfun crc32 (Some j) t = Ok (true, t') /\ table_inv t' /\ mask t' = mask t /\ contents t ≡ₚ x :: contents t'.
Proof.
  intros Ht Hj. destruct (slots_lookup _ _ _ Hj) as (e & He & Hse). unfold erase_at. rewrite He. cbn [of_option obind].
  assert (Ee : elem e = x) by (unfold slot in Hse; destruct (hasdata e); by simplify_eq). rewrite Ee.
  pose proof (core_near _ _ _ (inv_core t Ht) _ _ Hj) as Hn. pose proof (length_small t Ht).
  pose proof (lookup_slots_lt _ _ _ Hj). set (h := target_of hashfun crc32 x t) in *.
  assert (Hh : h = home (mask t) x) by done. rewrite <- Hh in Hn.
  rewrite wrap_small by (unfold is_u; lia). destruct (Z.leb_spec 32 (Z.of_nat j - Z.of_nat h)); [lia|].
  replace (Z.to_nat (Z.of_nat j - Z.of_nat h)) with (j - h)%nat by lia. eexists. split; [done|].
  match goal with |- table_inv ?u /\ _ => set (t' := u) end.
  assert (Esl : slots t' = <[j := None]> (slots t)).
  { change (slots t') with (slots (at_entry h (fun e => set_field (clear_bit (field e) (j - h)) e) (at_entry j (set_elem false dflt) t))).
    by rewrite (slots_field _ (fun f => clear_bit f (j - h))), slots_elem. }
  assert (Efl : fields t' = alter (fun f => clear_bit f (j - h)) h (fields t)).
  { change (fields t') with (fields (at_entry h (fun e => set_field (clear_bit (field e) (j - h)) e) (at_entry j (set_elem false dflt) t))).
    by rewrite (fields_field _ (fun f => clear_bit f (j - h))), fields_elem. }
  assert (Hc : contents t ≡ₚ x :: contents t') by (unfold contents; rewrite Esl; by apply omap_remove).
  assert (Hlen : length (data t') = length (data t)) by (unfold t'; cbn; by rewrite !length_alter).
  split; [|done]. split.
  - change (mask t') with (mask t). rewrite Hlen. apply Ht.
  - change (mask t') with (mask t). rewrite Esl, Efl, Hh. by apply core_remove; [apply Ht|].
  - change (numel t') with (u64 (numel t - 1)). pose proof (numel_small t Ht). pose proof (inv_numel t Ht) as Hnum.
    rewrite (Permutation_length Hc) in Hnum. cbn [length] in Hnum. rewrite wrap_small by (unfold is_u; lia). lia.
Qed.

Lemma map_replicate {A B} (f : A -> B) n x : map f (replicate n x) = replicate n (f x).
Proof. induction n as [|n IH]; cbn; [done|by rewrite IH]. Qed.
Lemma empty_spec t n k : data t = replicate n (mk_element false 0 dflt) -> numel t = 0 ->
  0 <= k <= 61 -> mask t = 2 ^ k - 1 -> Z.of_nat n = 2 ^ k + 32 -> table_inv t /\ contents t = [].
Proof.
  intros Hd Hn Hk Hm Hl.
  assert (Hsl : slots t = replicate n None) by (unfold slots; by rewrite Hd, map_replicate).
  assert (Hfl : fields t = replicate n 0) by (unfold fields; by rewrite Hd, map_replicate).
  assert (Hc : contents t = []).
  { unfold contents. rewrite Hsl. clear. by induction n. }
  split; [|done]. split.
  - exists k. by rewrite Hd, length_replicate.
  - rewrite Hsl, Hfl. split.
    + intros h f [-> _]%lookup_replicate_1. apply zero_is_field.
    + intros h f r [-> _]%lookup_replicate_1. rewrite Z.bits_0. split; [done|]. by intros (x & [? _]%lookup_replicate_1 & _).
    + by intros j x [? _]%lookup_replicate_1.
  - by rewrite Hc.
Qed.
Lemma new_table_spec len : 1 <= len <= 2 ^ 61 ->
  table_inv (new_table dflt len) /\ contents (new_table dflt len) = [].
Proof.
  intros H. destruct (next_powerof2_spec len H) as (k & Hk & E). unfold new_table. rewrite E.
  assert (2 ^ k <= 2 ^ 61) by (apply Z.pow_le_mono_r; lia). assert (0 < 2 ^ k) by (apply Z.pow_pos_nonneg; lia).
  rewrite (wrap_small 64 (2 ^ k + 32)), wrap_small by (unfold is_u; lia).
  apply (empty_spec _ (Z.to_nat (2 ^ k + 32)) k); cbn; try done; lia.
Qed.
Lemma table_clear_spec t : table_inv t -> table_inv (clear dflt t) /\ contents (clear dflt t) = [].
Proof.
  intros Ht. destruct (inv_mask t Ht) as (k & Hk & Hm & Hl).
  apply (empty_spec _ (length (data t)) k); try done. cbn. clear.
  by induction (data t) as [|e l IH]; cbn; [|rewrite IH].
Qed.

(** The iterators visit the data in the order of the entries. *)
Lemma table_iterate_spec t : forall n j fuel, (j + n = length (data t))%nat -> (n <= fuel)%nat ->
  iterate fuel (next_data n j t) t = omap id (drop j (slots t)).
Proof.
  induction n as [|n IH]; intros j fuel Hj Hf; cbn [next_data].
  - rewrite drop_ge by (unfold slots; rewrite length_map; lia).
    destruct fuel; cbn; [done|]. by rewrite lookup_ge_None_2 by lia.
  - destruct (lookup_lt t j) as [e He]; [lia|]. rewrite He. destruct (data_lookup _ _ _ He) as [Hs _].
    rewrite (drop_S _ _ _ Hs). unfold slot. destruct (hasdata e) eqn:E; cbn [omap list_omap id]; [|apply IH; lia].
    destruct fuel as [|fuel]; [lia|]. cbn [iterate]. rewrite He. f_equal. unfold increment.
    replace (length (data t) - S j)%nat with n by lia. apply IH; lia.
Qed.
Lemma table_elements_spec t : Table.elements t = contents t.
Proof. unfold Table.elements, begin. by rewrite table_iterate_spec by lia. Qed.
End table.
