(* ===== verification/HopscotchSpec.v ===== *)
(** The hopscotch map refines a finite map, whatever the hash function. *)
From Stdlib Require Import ZArith Lia List Bool.
From stdpp Require Import prelude gmap list.
From S2P Require Import Prelude.
From S2P Require Import Hopscotch.
From S2P Require Import HopscotchCorrect.
Import Hopscotch.Map.

Section map.
Context {K V : Type} `{Countable K} (default_key : K) (mapped_type : V) (hash : K -> Z) (crc32 : option (Z -> Z)).
Context (spill_order : gmap K V -> list (K * V)).
Hypothesis spill_order_spec : forall s, spill_order s ≡ₚ map_to_list s.

Notation inv := (table_inv (hashfun hash (V := V)) crc32).
Notation hmap := (@hmap K V _ _).
Notation tins := (table_insert default_key mapped_type hash crc32).

Lemma equalfun_spec (x y : K * V) : equalfun x y = true <-> x.1 = y.1.
Proof. apply bool_decide_eq_true. Qed.
Lemma hash_key (x y : K * V) : x.1 = y.1 -> hashfun hash x = hashfun hash y.
Proof. unfold hashfun. by intros ->. Qed.

(** [m] holds the map [g]. *)
Record rep (m : hmap) (g : gmap K V) : Prop := mk_rep {
  rep_inv : inv (container m);
  rep_nodup : NoDup (contents (container m)).*1;
  rep_apart k v : (k, v) ∈ contents (container m) -> spill m !! k = None;
  rep_lookup k v : g !! k = Some v <-> (k, v) ∈ contents (container m) \/ spill m !! k = Some v
}.

Lemma rep_absent m g k : rep m g -> g !! k = None ->
  (forall y, y ∈ contents (container m) -> y.1 <> k) /\ spill m !! k = None.
Proof.
  intros Hr Hk. split.
  - intros [k' v] Hy E. cbn in E. subst k'. assert (E : g !! k = Some v) by (apply (rep_lookup m g Hr); by left).
    by rewrite Hk in E.
  - destruct (spill m !! k) as [v|] eqn:E; [|done]. assert (E' : g !! k = Some v) by (apply (rep_lookup m g Hr); by right).
    by rewrite Hk in E'.
Qed.

Lemma rep_elements m g : rep m g -> elements spill_order m ≡ₚ map_to_list g.
Proof.
  intros Hr. unfold elements. rewrite table_elements_spec, spill_order_spec. apply NoDup_Permutation.
  - apply NoDup_app. split; [by eapply NoDup_fmap_1, rep_nodup|]. split; [|apply NoDup_map_to_list].
    intros [k v] H1 H2%elem_of_map_to_list. by rewrite (rep_apart m g Hr k v H1) in H2.
  - apply NoDup_map_to_list.
  - intros [k v]. rewrite elem_of_app, !elem_of_map_to_list. symmetry. apply (rep_lookup m g Hr).
Qed.
Lemma rep_size m g : rep m g -> Z.of_nat (base.size g) < 2 ^ 60 -> size m = Z.of_nat (base.size g).
Proof.
  intros Hr Hs. pose proof (rep_elements m g Hr) as E%Permutation_length. unfold elements in E.
  rewrite table_elements_spec, length_app, (Permutation_length (spill_order_spec _)), !length_map_to_list in E.
  unfold size, Table.size. rewrite (inv_numel _ _ _ (rep_inv m g Hr)), wrap_small by (unfold is_u; lia). lia.
Qed.

(** *** Positions *)

Definition points (i : iterator (K := K)) (m : hmap) (k : K) (v : V) : Prop :=
  match i with
  | InTable j => slots (container m) !! j = Some (Some (k, v))
  | InSpill k' => k' = k /\ spill m !! k = Some v
  | End => False
  end.
Lemma points_deref i m k v : points i m k v -> deref i m = Ok (k, v).
Proof.
  destruct i as [j|k'|]; cbn; [|by intros [-> ->]|done].
  intros (e & -> & Hs)%slots_lookup. unfold slot in Hs. destruct (Table.hasdata e); [|discriminate]. cbn. congruence.
Qed.
Lemma points_lookup i m g k v : rep m g -> points i m k v -> g !! k = Some v.
Proof.
  intros Hr Hp. apply (rep_lookup m g Hr). destruct i as [j|k'|]; cbn in Hp; [left|right; apply Hp|done].
  apply omap_held. by exists j.
Qed.

Lemma find_rep m g k : rep m g -> exists i, find mapped_type hash crc32 k m = Ok i /\
  ((i = End /\ g !! k = None) \/ exists v, points i m k v /\ g !! k = Some v).
Proof.
  intros Hr. unfold find. destruct (HopscotchCorrect.find_spec _ _ crc32 fst equalfun_spec hash_key (container m) (k, mapped_type) (rep_inv m g Hr))
    as (o & Ho & Hf). unfold table_find. rewrite Ho. cbn [obind]. destruct o as [j|].
  - destruct Hf as ([k' v] & Hj & E). cbn in E. subst k'. exists (InTable j). split; [done|]. right. exists v.
    split; [done|]. by apply (points_lookup (InTable j) m).
  - destruct (spill m !! k) as [v|] eqn:E; eexists; (split; [done|]).
    + right. exists v. split; [done|]. by apply (points_lookup (InSpill k) m).
    + left. split; [done|]. destruct (g !! k) as [v|] eqn:Eg; [|done].
      apply (rep_lookup m g Hr) in Eg as [Hin|Hs]; [|by rewrite E in Hs]. by destruct (Hf _ Hin).
Qed.

(** *** Insertion *)

Lemma nodup_keys (l l' : list (K * V)) : l ≡ₚ l' -> NoDup l'.*1 -> NoDup l.*1.
Proof. by intros ->. Qed.

Lemma table_insert_rep m g k v : rep m g -> g !! k = None -> exists o t', tins (k, v) (container m) = Ok (o, t') /\
  match o with
  | Some j => rep (mk_map t' (spill m)) (<[k := v]> g) /\ slots t' !! j = Some (Some (k, v))
  | None => rep (mk_map t' (spill m)) g /\ contents (container m) <> []
  end.
Proof.
  intros Hr Hk. destruct (rep_absent m g k Hr Hk) as [Hnew Hsp].
  destruct (HopscotchCorrect.table_insert_spec (default_key, mapped_type) _ _ crc32 fst equalfun_spec hash_key (container m) (k, v) true (rep_inv m g Hr))
    as (o & t' & Ho & Ht' & _ & Hins).
  exists o, t'. split; [exact Ho|]. destruct Hins as [j y rest t' Hy E|j t' _ Hj Hc|t' _ Hne Hc].
  - exfalso. apply (Hnew y); [|done]. apply omap_held. by exists j.
  - split; [|done]. split; cbn; [done| | |].
    + eapply nodup_keys; [exact Hc|]. cbn. apply NoDup_cons. split; [|apply Hr].
      intros ([k' v'] & -> & Hin)%list_elem_of_fmap. by apply (Hnew (k', v')).
    + intros k' v'. rewrite Hc, elem_of_cons. intros [[= -> ->]|Hin]; [done|by apply (rep_apart m g Hr k' v')].
    + intros k' v'. rewrite Hc, elem_of_cons, lookup_insert_Some, (rep_lookup m g Hr). destruct (decide (k = k')) as [<-|Hne].
      * split; [intros [[_ <-]|[? _]]; [by left; left|done]|]. intros [[[= ->]|Hin]|Hs]; [by left|by destruct (Hnew _ Hin)|by rewrite Hsp in Hs].
      * split; [intros [[? _]|[_ [?|?]]]; [done|by left; right|by right]|].
        intros [[[= -> ->]|Hin]|Hs]; [done|right; by split; [|left]|right; by split; [|right]].
  - split; [|done]. split; cbn; [done| | |].
    + eapply nodup_keys; [exact Hc|apply Hr].
    + intros k' v'. rewrite Hc. by apply (rep_apart m g Hr).
    + intros k' v'. rewrite Hc. by apply (rep_lookup m g Hr).
Qed.

Lemma spill_insert_rep m g k v : rep m g -> g !! k = None ->
  rep (mk_map (container m) (spill_insert (k, v) (spill m))) (<[k := v]> g) /\
  spill_insert (k, v) (spill m) !! k = Some v.
Proof.
  intros Hr Hk. destruct (rep_absent m g k Hr Hk) as [Hnew Hsp]. unfold spill_insert. cbn. rewrite Hsp.
  split; [|apply lookup_insert_eq]. split; cbn; [apply Hr|apply Hr| |].
  - intros k' v' Hin. rewrite lookup_insert_ne; [by apply (rep_apart m g Hr k' v')|]. intros ->. by apply (Hnew _ Hin).
  - intros k' v'. rewrite !lookup_insert_Some, (rep_lookup m g Hr). destruct (decide (k = k')) as [<-|Hne].
    + split; [intros [[_ <-]|[? _]]; [right; by left|done]|]. intros [Hin|[[_ <-]|[? _]]]; [by destruct (Hnew _ Hin)|by left|done].
    + split; [intros [[? _]|[_ [?|?]]]; [done|by left|right; by right]|].
      intros [Hin|[[? _]|[_ Hs]]]; [right; by split; [|left]|done|right; by split; [|right]].
Qed.

Lemma empty_rep n : 1 <= n <= 2 ^ 61 -> rep (mk_map (create_new_container default_key mapped_type n) ∅) ∅.
Proof.
  intros Hn. destruct (new_table_spec (dflt default_key mapped_type) (hashfun hash) crc32 n Hn) as [Hi Hc].
  split; cbn [container spill]; [done| | |]; unfold create_new_container; rewrite ?Hc; try done.
  - apply NoDup_nil_2.
  - intros k v. rewrite !lookup_empty. split; [done|]. by intros [?%elem_of_nil|?].
Qed.

(** Rehashing puts the elements one by one into a new table. *)
Lemma rehash_loop l : forall m g, rep m g -> NoDup l.*1 -> (forall k, k ∈ l.*1 -> g !! k = None) ->
  exists m', ofold (fun v m =>
    r <-? tins v (container m);
    Ok (match r.1 with
        | None => mk_map r.2 (spill_insert v (spill m))
        | Some _ => mk_map r.2 (spill m)
        end)) l m = Ok m' /\ rep m' (list_to_map l ∪ g).
Proof.
  induction l as [|[k v] l IH]; intros m g Hr Hn Hg; cbn [ofold].
  - exists m. split; [done|]. cbn. by rewrite (left_id_L ∅ _).
  - apply NoDup_cons in Hn as [Hk Hn]. assert (Hgk : g !! k = None) by (apply Hg; left).
    destruct (table_insert_rep m g k v Hr Hgk) as (o & t' & -> & Ho). cbn [obind fst snd].
    set (m1 := match o with Some _ => _ | None => _ end).
    assert (Hr' : rep m1 (<[k := v]> g)).
    { unfold m1. destruct o as [j|]; [by apply Ho|]. exact (proj1 (spill_insert_rep (mk_map t' (spill m)) g k v (proj1 Ho) Hgk)). }
    destruct (IH m1 _ Hr' Hn) as (m' & E & Hm').
    { intros k' Hk'. rewrite lookup_insert_ne; [apply Hg; by right|]. by intros ->. }
    exists m'. split; [exact E|]. cbn. rewrite <- insert_union_l, insert_union_r; [exact Hm'|].
    by apply not_elem_of_list_to_map_1.
Qed.
Lemma rehash_rep m g n : rep m g -> 1 <= n <= 2 ^ 61 -> exists m',
  rehash_to_new_container default_key mapped_type hash crc32 spill_order (Some n) m = Ok m' /\ rep m' g.
Proof.
  intros Hr Hn. unfold rehash_to_new_container. pose proof (rep_elements m g Hr) as E.
  destruct (rehash_loop (elements spill_order m) _ ∅ (empty_rep n Hn)) as (m' & Em & Hm').
  - eapply nodup_keys; [exact E|]. apply NoDup_fst_map_to_list.
  - intros k _. apply lookup_empty.
  - exists m'. split; [exact Em|]. rewrite (right_id_L ∅ _) in Hm'.
    rewrite (list_to_map_proper _ (map_to_list g)), list_to_map_to_list in Hm'; [done| |done].
    eapply nodup_keys; [exact E|]. apply NoDup_fst_map_to_list.
Qed.

Definition small (g : gmap K V) : Prop := Z.of_nat (base.size g) < 2 ^ 60.

(** A map whose table refused a datum is not empty. *)
Lemma refused_size m g : rep m g -> contents (container m) <> [] -> (0 < base.size g)%nat.
Proof.
  intros Hr Hne. pose proof (rep_elements m g Hr) as E%Permutation_length. unfold elements in E.
  rewrite table_elements_spec, length_app, length_map_to_list in E. destruct (contents (container m)); cbn in E; [done|lia].
Qed.

Lemma do_insert_rep m g k v : rep m g -> g !! k = None -> small g -> exists i m',
  do_insert default_key mapped_type hash crc32 spill_order (k, v) m = Ok (i, m') /\
  rep m' (<[k := v]> g) /\ points i m' k v.
Proof.
  intros Hr Hk Hs. unfold do_insert. destruct (table_insert_rep m g k v Hr Hk) as (o & t' & -> & Ho). cbn [obind fst snd].
  destruct o as [j|]; [exists (InTable j); eexists; split; [done|]; apply Ho|]. destruct Ho as [Hr' Hne].
  pose proof (refused_size m g Hr Hne). set (m1 := mk_map t' (spill m)) in *. unfold small in Hs.
  destruct (overloaded m1).
  - destruct (rehash_rep m1 g (u64 (size m1 * 2)) Hr') as (m2 & E2 & Hr2).
    { rewrite (rep_size m1 g Hr' Hs), wrap_small by (unfold is_u; lia). lia. }
    unfold rehash_to_new_container in E2 |- *. rewrite E2. cbn [obind].
    destruct (table_insert_rep m2 g k v Hr2 Hk) as (o & t2 & -> & Ho). cbn [obind fst snd].
    destruct o as [j|]; [exists (InTable j); eexists; split; [done|]; apply Ho|].
    destruct (spill_insert_rep _ _ k v (proj1 Ho) Hk) as [H1 H2]. eexists (InSpill k), _. split; [done|]. done.
  - destruct (spill_insert_rep _ _ k v Hr' Hk) as [H1 H2]. eexists (InSpill k), _. split; [done|]. done.
Qed.

(** *** Assignment, removal *)

Lemma assign_rep i m g k v x : rep m g -> points i m k v -> exists m',
  assign_second i x m = Ok m' /\ rep m' (<[k := x]> g).
Proof.
  intros Hr Hp. pose proof (points_lookup i m g k v Hr Hp) as Hg. destruct i as [j|k'|]; [| |done]; cbn in Hp |- *; eexists; (split; [done|]).
  - destruct (slots_lookup _ _ _ Hp) as (e & He & Hse).
    assert (Ee : Table.hasdata e = true /\ Table.elem e = (k, v)).
    { unfold slot in Hse. destruct (Table.hasdata e); [|done]. split; [done|congruence]. }
    rewrite (at_entry_ext j _ (Table.set_elem true (k, x)) _ e He) by (destruct Ee as [E1 E2]; unfold Table.set_elem; by rewrite E1, E2).
    destruct (overwrite_spec _ _ fst hash_key (container m) j (k, x) (k, v) (rep_inv m g Hr) Hp eq_refl)
      as (H1 & _ & H3 & rest & H4 & H5).
    pose proof (rep_nodup m g Hr) as Hn. rewrite H4 in Hn. cbn in Hn. apply NoDup_cons in Hn as [Hk Hn].
    pose proof (rep_lookup m g Hr) as Hl. setoid_rewrite H4 in Hl.
    split; cbn; [done| | |].
    + eapply nodup_keys; [exact H5|]. by apply NoDup_cons.
    + intros k' v' Hin. rewrite H5, elem_of_cons in Hin. destruct Hin as [[= -> ->]|Hin].
      * apply (rep_apart m g Hr k v). rewrite H4. by left.
      * apply (rep_apart m g Hr k' v'). rewrite H4. by right.
    + intros k' v'. rewrite H5, elem_of_cons, lookup_insert_Some, Hl, elem_of_cons.
      assert (Hnk : forall w, (k, w) ∉ rest) by (intros w Hw; apply Hk, list_elem_of_fmap; by exists (k, w)).
      assert (Hsk : spill m !! k = None) by (apply (rep_apart m g Hr k v); rewrite H4; by left).
      destruct (decide (k = k')) as [<-|Hne]; [|naive_solver].
      split; [intros [[_ <-]|[? _]]; [by left; left|done]|]. intros [[[= ->]|Hin]|Hin]; [by left|by destruct (Hnk v')|by rewrite Hsk in Hin].
  - destruct Hp as [-> Hsp]. split; cbn; [apply Hr|apply Hr| |].
    + intros k' v' Hin. rewrite lookup_alter_None. by apply (rep_apart m g Hr k' v').
    + intros k' v'. rewrite lookup_insert_Some, (rep_lookup m g Hr).
      assert (Hnk : forall w, (k, w) ∉ contents (container m)).
      { intros w Hw. by rewrite (rep_apart m g Hr _ _ Hw) in Hsp. }
      destruct (decide (k = k')) as [<-|Hne].
      * rewrite lookup_alter_eq, Hsp. cbn. naive_solver.
      * rewrite lookup_alter_ne by done. naive_solver.
Qed.
Lemma erase_rep m g k : rep m g -> exists b m', erase default_key mapped_type hash crc32 k m = Ok (b, m') /\
  b = Table.is_some (g !! k) /\ rep m' (delete k g).
Proof.
  intros Hr. unfold erase, table_erase, Table.erase.
  destruct (HopscotchCorrect.find_spec _ _ crc32 fst equalfun_spec hash_key (container m) (k, mapped_type) (rep_inv m g Hr)) as (o & -> & Hf).
  cbn [obind]. pose proof (rep_lookup m g Hr) as Hl. destruct o as [j|].
  - destruct Hf as ([k' v] & Hj & E). cbn in E. subst k'. pose proof (points_lookup (InTable j) m g k v Hr Hj) as Hg.
    destruct (erase_at_spec (dflt default_key mapped_type) _ crc32 (container m) j (k, v) (rep_inv m g Hr) Hj) as (t' & -> & Ht' & _ & Hc).
    cbn [obind fst snd]. eexists _, _. split; [done|]. rewrite Hg. split; [done|].
    pose proof (rep_nodup m g Hr) as Hn. rewrite Hc in Hn. cbn in Hn. apply NoDup_cons in Hn as [Hk Hn].
    assert (Hsk : spill m !! k = None) by (apply (rep_apart m g Hr k v); rewrite Hc; by left).
    assert (Hnk : forall w, (k, w) ∉ contents t') by (intros w Hw; apply Hk, list_elem_of_fmap; by exists (k, w)).
    setoid_rewrite Hc in Hl. split; cbn; [done|done| |].
    + intros k' v' Hin. apply (rep_apart m g Hr k' v'). rewrite Hc. by right.
    + intros k' v'. rewrite lookup_delete_Some, Hl, elem_of_cons. destruct (decide (k = k')) as [<-|Hne]; [|naive_solver].
      split; [by intros [? _]|]. intros [Hin|Hin]; [by destruct (Hnk v')|by rewrite Hsk in Hin].
  - cbn [Table.erase_at obind fst snd]. eexists _, _. split; [done|].
    assert (Hnk : forall w, (k, w) ∉ contents (container m)) by (intros w Hw; by apply (Hf _ Hw)).
    assert (Eg : g !! k = spill m !! k).
    { apply option_eq. intros v. rewrite Hl. naive_solver. }
    rewrite Eg. split; [done|]. split; cbn; [apply Hr|apply Hr| |].
    + intros k' v' Hin. apply lookup_delete_None. right. by apply (rep_apart m g Hr k' v').
    + intros k' v'. rewrite !lookup_delete_Some, Hl. naive_solver.
Qed.
End map.

(** ** Sequences of operations *)

Inductive op (K V : Type) :=
| Insert (k : K) (v : V) | Put (k : K) (v : V) | Find (k : K) | Count (k : K) | Erase (k : K)
| Clear | Rehash (s : Z) | Size.
Arguments Insert {K V} _ _.
Arguments Put {K V} _ _.
Arguments Find {K V} _.
Arguments Count {K V} _.
Arguments Erase {K V} _.
Arguments Clear {K V}.
Arguments Rehash {K V} _.
Arguments Size {K V}.
Inductive result (V : Type) := Done | Flag (b : bool) | Value (o : option V) | Number (n : Z).
Arguments Done {V}.
Arguments Flag {V} _.
Arguments Value {V} _.
Arguments Number {V} _.

Section run.
Context {K V : Type} `{Countable K} (default_key : K) (mapped_type : V) (hash : K -> Z) (crc32 : option (Z -> Z)).
Context (spill_order : gmap K V -> list (K * V)).

Definition run_op (o : op K V) (m : hmap) : outcome (result V * hmap) :=
  match o with
  | Insert k v => omap_ok (fun r => (Flag r.1.2, r.2)) (insert default_key mapped_type hash crc32 spill_order (k, v) m)
  | Put k v => omap_ok (pair Done) (put default_key mapped_type hash crc32 spill_order k v m)
  | Find k =>
      i <-? find mapped_type hash crc32 k m;
      match i with
      | End => Ok (Value None, m)
      | _ => v <-? deref i m; Ok (Value (Some v.2), m)
      end
  | Count k => omap_ok (fun b => (Flag b, m)) (count mapped_type hash crc32 k m)
  | Erase k => omap_ok (fun r => (Flag r.1, r.2)) (erase default_key mapped_type hash crc32 k m)
  | Clear => Ok (Done, clear default_key mapped_type m)
  | Rehash s => omap_ok (pair Done) (rehash default_key mapped_type hash crc32 spill_order s m)
  | Size => Ok (Number (size m), m)
  end.
Fixpoint run_ops (os : list (op K V)) (m : hmap) : outcome (list (result V) * hmap) :=
  match os with
  | [] => Ok ([], m)
  | o :: os => r <-? run_op o m; rs <-? run_ops os r.2; Ok (r.1 :: rs.1, rs.2)
  end.

(** The same operations on a finite map *)
Definition spec_op (o : op K V) (g : gmap K V) : result V * gmap K V :=
  match o with
  | Insert k v => match g !! k with Some _ => (Flag false, g) | None => (Flag true, <[k := v]> g) end
  | Put k v => (Done, <[k := v]> g)
  | Find k => (Value (g !! k), g)
  | Count k => (Flag (Table.is_some (g !! k)), g)
  | Erase k => (Flag (Table.is_some (g !! k)), delete k g)
  | Clear => (Done, ∅)
  | Rehash _ => (Done, g)
  | Size => (Number (Z.of_nat (base.size g)), g)
  end.
Fixpoint spec_ops (os : list (op K V)) (g : gmap K V) : list (result V) * gmap K V :=
  match os with
  | [] => ([], g)
  | o :: os => let r := spec_op o g in let rs := spec_ops os r.2 in (r.1 :: rs.1, rs.2)
  end.
(** A table has at most 2^61 entries besides the last 32. *)
Definition op_ok (o : op K V) : Prop := match o with Rehash s => s <= 2 ^ 61 | _ => True end.

Hypothesis spill_order_spec : forall s, spill_order s ≡ₚ map_to_list s.

Notation rep := (rep hash crc32).

Lemma subscript_rep m g k : rep m g -> small g -> exists i m', 
  subscript default_key mapped_type hash crc32 spill_order k m = Ok (i, m') /\
  let v := default mapped_type (g !! k) in rep m' (<[k := v]> g) /\ points i m' k v.
Proof.
  intros Hr Hs. unfold subscript. destruct (find_rep mapped_type hash crc32 m g k Hr) as (i & -> & [[-> Hk]|(v & Hp & Hk)]); cbn [obind].
  - destruct (do_insert_rep default_key mapped_type hash crc32 spill_order spill_order_spec m g k mapped_type Hr Hk Hs)
      as (i & m' & -> & H1 & H2). eexists _, _. split; [done|]. by rewrite Hk.
  - exists i, m. rewrite Hk. cbn. rewrite insert_id by done. by destruct i.
Qed.
Lemma find_op_rep m g k : rep m g -> run_op (Find k) m = Ok (Value (g !! k), m).
Proof.
  intros Hr. cbn. destruct (find_rep mapped_type hash crc32 m g k Hr) as (i & -> & [[-> ->]|(v & Hp & ->)]); cbn [obind]; [done|].
  rewrite (points_deref i m k v Hp). by destruct i.
Qed.
Lemma count_rep m g k : rep m g -> count mapped_type hash crc32 k m = Ok (Table.is_some (g !! k)).
Proof.
  intros Hr. destruct (find_rep mapped_type hash crc32 m g k Hr) as (i & E & Hi). unfold find in E. unfold count, table_count, Table.count.
  unfold table_find in E. destruct (Table.find _ _ _ _ _) as [o| |]; try discriminate E. cbn [obind omap_ok] in *.
  destruct o as [j|], (spill m !! k); cbn in *; injection E as <-; by destruct Hi as [[? ->]|(w & Hp & ->)].
Qed.
Lemma run_op_rep o m g : op_ok o -> rep m g -> small g -> exists m',
  run_op o m = Ok ((spec_op o g).1, m') /\ rep m' (spec_op o g).2.
Proof.
  intros Ho Hr Hs. destruct o as [k v|k v|k|k|k| |s|]; cbn [spec_op].
  - cbn. unfold insert. destruct (find_rep mapped_type hash crc32 m g k Hr) as (i & Hi & Hcase). cbn [fst]. rewrite Hi. cbn [obind].
    destruct Hcase as [[-> Hk]|(v' & Hp & Hk)]; rewrite Hk.
    + destruct (do_insert_rep default_key mapped_type hash crc32 spill_order spill_order_spec m g k v Hr Hk Hs)
        as (i & m' & -> & H1 & _). by exists m'.
    + exists m. by destruct i.
  - cbn. unfold put. destruct (subscript_rep m g k Hr Hs) as (i & m' & -> & Hr' & Hp). cbn [obind fst snd].
    destruct (assign_rep _ _ i m' _ k _ v Hr' Hp) as (m'' & -> & Hr''). exists m''. split; [done|].
    by rewrite insert_insert_eq in Hr''.
  - exists m. by rewrite (find_op_rep m g).
  - exists m. cbn. by rewrite (count_rep m g).
  - cbn. destruct (erase_rep default_key mapped_type hash crc32 m g k Hr) as (b & m' & -> & -> & Hr'). by exists m'.
  - eexists. split; [done|]. by apply empty_rep.
  - cbn. unfold rehash. destruct (Z.ltb_spec (capacity m) s); [|by exists m].
    destruct (rehash_rep default_key mapped_type hash crc32 spill_order spill_order_spec m g s Hr) as (m' & -> & Hr'); [|by exists m'].
    cbn in Ho. pose proof (wrap_range 64 (Table.capacity (container m) + Z.of_nat (base.size (spill m)))) as Hw.
    unfold capacity, is_u in *. lia.
  - exists m. cbn. by rewrite (rep_size hash crc32 spill_order spill_order_spec m g).
Qed.
Lemma spec_op_size o g : (base.size (spec_op o g).2 <= S (base.size g))%nat.
Proof.
  destruct o as [k v|k v|k|k|k| |s|]; cbn; try lia.
  - destruct (g !! k) eqn:E; cbn; [lia|]. by rewrite map_size_insert_None.
  - rewrite map_size_insert. destruct (g !! k); cbn; lia.
  - rewrite map_size_delete. destruct (g !! k); cbn; lia.
  - rewrite map_size_empty. lia.
Qed.
Lemma run_ops_rep os : forall m g, Forall op_ok os -> rep m g -> Z.of_nat (base.size g + length os) < 2 ^ 60 ->
  exists m', run_ops os m = Ok ((spec_ops os g).1, m') /\ rep m' (spec_ops os g).2.
Proof.
  induction os as [|o os IH]; intros m g Ho Hr Hs; [by exists m|]. apply Forall_cons in Ho as [Ho Hos]. cbn [length] in Hs.
  destruct (run_op_rep o m g Ho Hr) as (m1 & E1 & Hr1); [unfold small; lia|]. cbn. rewrite E1. cbn [obind fst snd].
  pose proof (spec_op_size o g). destruct (IH m1 _ Hos Hr1) as (m2 & -> & Hr2); [lia|]. by exists m2.
Qed.
End run.

(** C19. The hash map that group-by and the sketches use is a finite map: a sequence of
    fewer than 2^60 operations on a new [hopscotch_map] (insertions, assignments through
    [operator[]], searches, counts, removals, clearing, rehashing, sizes) gives the results it
    gives on a finite map, never leaves the arrays, and at the end the iterators
    visit each element of that map exactly once; whatever the hash function and the order of
    the spill, so also when displacements, rehashing and the spill are used. *)
Theorem hopscotch_map_refines {K V} `{Countable K} (default_key : K) (mapped_type : V) hash crc32 spill_order os :
  (forall s, spill_order s ≡ₚ map_to_list s) -> Forall op_ok os -> Z.of_nat (length os) < 2 ^ 60 ->
  exists m, run_ops default_key mapped_type hash crc32 spill_order os (new default_key mapped_type)
      = Ok ((spec_ops os ∅).1, m) /\
    elements spill_order m ≡ₚ map_to_list (spec_ops os ∅).2.
Proof.
  intros Hord Hos Hn.
  destruct (run_ops_rep default_key mapped_type hash crc32 spill_order Hord os (new default_key mapped_type) ∅)
    as (m & E & Hr); [done|by apply empty_rep|by rewrite map_size_empty|].
  exists m. split; [exact E|]. by apply (rep_elements hash crc32).
Qed.

(** Elements with one hash: more than 31 of them do not fit in the table. *)
Definition colliding (n : nat) : list (op nat nat) := map (fun i => Put i (i * i)%nat) (seq 0 n).
Definition run_colliding := run_ops (K := nat) 0%nat 0%nat (fun _ => 0) None map_to_list.

Lemma hopscotch_map_refines_witness :
  let os := colliding 33 ++ [Find 32%nat; Erase 3%nat; Count 3%nat; Rehash 500; Find 7%nat; Size] in
  Z.of_nat (length os) < 2 ^ 60 /\
  exists m, run_colliding os (new 0%nat 0%nat) = Ok ((spec_ops os ∅).1, m) /\
    elements map_to_list m ≡ₚ map_to_list (spec_ops os ∅).2.
Proof.
  cbv zeta. split; [reflexivity|].
  apply (hopscotch_map_refines 0%nat 0%nat (fun _ => 0) None map_to_list).
  - reflexivity.
  - repeat (apply Forall_cons; split; [vm_compute; (exact I || discriminate)|]). apply Forall_nil. exact I.
  - reflexivity.
Defined.

Definition spilled : outcome (@hmap nat nat _ _) := omap_ok snd (run_colliding (colliding 33) (new 0%nat 0%nat)).
Definition lookup_in (o : outcome (@hmap nat nat _ _)) (k : nat) : outcome (iterator (K := nat)) :=
  m <-? o; find 0%nat (fun _ => 0) None k m.

(** [operator=] copies the table but not the spill: the copy misses an element. *)
Lemma assigned_map_misses :
  lookup_in spilled 32 = Ok (InSpill 32%nat) /\
  lookup_in (omap_ok (assign (new 0%nat 0%nat)) spilled) 32 = Ok End.
Proof. split; vm_compute; reflexivity. Qed.
(** [load] of an empty map of the same capacity keeps the elements of the spill. *)
Lemma loaded_map_stale :
  lookup_in (m <-? spilled; load 0%nat 0%nat (fun _ => 0) None map_to_list (capacity m) [] m) 32 = Ok (InSpill 32%nat).
Proof. vm_compute; reflexivity. Qed.
(** [get] never reports that it found the key, and reads through the end iterator when it did not. *)
Lemma get_never_finds {K V} `{Countable K} (d : V) hash crc32 k (m : hmap) b v :
  get (K := K) d hash crc32 k m = Ok (b, v) -> b = false.
Proof.
  unfold get. destruct (find _ _ _ _ _) as [i| |]; try done. cbn [obind]. destruct i; cbn; [| |done];
    destruct (of_option _); cbn; try done; by intros [= <- _].
Qed.
