(* ===== verification/Hilbert.v ===== *)
(** The Hilbert curve: the model of [sgraph/hilbert_curve.hpp] and
    [sgraph/hilbert_parallel_for.hpp].

    The edges of a property graph are kept in a square of partitions, which the graph
    computations visit along a Hilbert curve.  One function turns a position on the
    curve into coordinates by operations on whole words, the other one turns coordinates
    into a position with a state machine in two constants.  Both are compared with
    a recursive definition of the curve. *)
From Stdlib Require Import ZArith Lia List Bool Btauto.
From stdpp Require Import prelude list.
From S2P Require Import Prelude.

Definition is_power_of_2 (x : Z) : bool := Z.land x (u64 (x - 1)) =? 0.

(** [i << n] of an [int], converted to [size_t]: undefined for a shift by 32 or more; bits
    that leave the word are dropped, as compilers do. *)
Definition shift_int (i n : Z) : outcome Z := if n <? 32 then Ok (u64 (signed 32 (Z.shiftl i n))) else Undef.

(** The exchange of two groups of bits that the masks select, in one step of an unshuffle *)
Definition unshuffle_step (sh m s : Z) : Z :=
  let t := Z.land (Z.lxor s (Z.shiftr s sh)) m in
  Z.lxor (Z.lxor s t) (u64 (Z.shiftl t sh)).

Definition hilbert_index_to_coordinate (s n : Z) : outcome (Z * Z) :=
  _ <-? assert (2 <=? n);
  _ <-? assert (is_power_of_2 n);
  let n := ctz n in
  pad <-? shift_int 0x55555555 (2 * n);
  let s := Z.lor s pad in
  let sr := Z.land (Z.shiftr s 1) 0x55555555 in
  let cs := Z.lxor (u64 (Z.land s 0x55555555 + sr)) 0x55555555 in
  let cs := Z.lxor cs (Z.shiftr cs 2) in
  let cs := Z.lxor cs (Z.shiftr cs 4) in
  let cs := Z.lxor cs (Z.shiftr cs 8) in
  let cs := Z.lxor cs (Z.shiftr cs 16) in
  let swap := Z.land cs 0x55555555 in
  let comp := Z.land (Z.shiftr cs 1) 0x55555555 in
  let t := Z.lxor (Z.land s swap) comp in
  let s := Z.lxor (Z.lxor (Z.lxor s sr) t) (u64 (Z.shiftl t 1)) in
  one <-? shift_int 1 (2 * n);
  let s := Z.land s (u64 (one - 1)) in
  let s := unshuffle_step 1 0x22222222 s in
  let s := unshuffle_step 2 0x0C0C0C0C s in
  let s := unshuffle_step 4 0x00F000F0 s in
  let s := unshuffle_step 8 0x0000FF00 s in
  Ok (Z.shiftr s 16, Z.land s 0xFFFF).

(** The loop over the bits [i = n - 1 .. 0] *)
Fixpoint index_loop (i : nat) (x y s state : Z) : Z :=
  match i with
  | O => s
  | S i =>
      let bit v := Z.land (Z.shiftr v (Z.of_nat i)) 1 in
      let row := Z.lor (Z.lor (4 * state) (2 * bit x)) (bit y) in
      index_loop i x y
        (Z.lor (u64 (Z.shiftl s 2)) (Z.land (Z.shiftr 0x361E9CB4 (2 * row)) 3))
        (Z.land (Z.shiftr 0x8FE65831 (2 * row)) 3)
  end.
Definition coordinate_to_hilbert_index (coord : Z * Z) (n : Z) : outcome Z :=
  _ <-? assert (2 <=? n);
  _ <-? assert (is_power_of_2 n);
  _ <-? assert (coord.1 <? n);
  _ <-? assert (coord.2 <? n);
  Ok (index_loop (Z.to_nat (ctz n)) coord.1 coord.2 0 0).

(** [hilbert_blocked_parallel_for]: the coordinates of the passes, in order; the
    coordinates of one pass are given to [preamble] and then visited in parallel. *)
Fixpoint passes_loop (fuel : nat) (n parallel_limit i : Z) : outcome (list (list (Z * Z))) :=
  if i <? u64 (n * n) then
    match fuel with
    | O => Undef
    | S fuel =>
        let lastcoord_this_pass := Z.min (u64 (i + parallel_limit)) (u64 (n * n)) in
        coordinates <-? otraverse (fun k => hilbert_index_to_coordinate (i + Z.of_nat k) n)
          (seq 0 (Z.to_nat (lastcoord_this_pass - i)));
        omap_ok (cons coordinates) (passes_loop fuel n parallel_limit (u64 (i + parallel_limit)))
    end
  else Ok [].
Definition hilbert_blocked_parallel_for (fuel : nat) (n parallel_limit : Z) : outcome (list (list (Z * Z))) :=
  passes_loop fuel n parallel_limit 0.

(** ** The curve, recursively

    A state says how the pattern is turned: coordinates exchanged, complemented. *)
Definition turn : Type := bool * bool.
Definition digit (s : Z) (k : nat) : bool * bool :=
  (Z.testbit s (2 * Z.of_nat k + 1), Z.testbit s (2 * Z.of_nat k)).
Definition next_turn (st : turn) (d : bool * bool) : turn :=
  (xorb st.1 (negb (xorb d.1 d.2)), xorb st.2 (d.1 && d.2)).
(** The quadrant of digit [d] *)
Definition quadrant (st : turn) (d : bool * bool) : bool * bool :=
  let st' := next_turn st d in
  let t := xorb (d.2 && st'.1) st'.2 in
  (xorb d.1 t, xorb (xorb d.1 d.2) t).
Fixpoint curve (k : nat) (st : turn) (s : Z) : Z * Z :=
  match k with
  | O => (0, 0)
  | S k =>
      let d := digit s k in
      let q := quadrant st d in
      let p := curve k (next_turn st d) s in
      (Z.b2z q.1 * 2 ^ Z.of_nat k + p.1, Z.b2z q.2 * 2 ^ Z.of_nat k + p.2)
  end.

Example coordinate_5 : hilbert_index_to_coordinate 5 4 = Ok (curve 2 (false, false) 5).
Proof. vm_compute. reflexivity. Qed.
Example index_5 : coordinate_to_hilbert_index (curve 3 (false, false) 45) 8 = Ok 45.
Proof. vm_compute. reflexivity. Qed.
