(* ===== verification/HilbertCorrect.v ===== *)
(** The Hilbert curve: the word operations and the state machine compute the recursive curve,
    which is a bijection whose neighbours are adjacent; the passes of the parallel loop
    cover the square. *)
From Stdlib Require Import ZArith Lia List Bool Btauto.
From stdpp Require Import prelude list.
From S2P Require Import Prelude.
From S2P Require Import Hilbert.

(** ** Exclusive or over a range *)

Fixpoint xor_from (f : nat -> bool) (i n : nat) : bool :=
  match n with O => false | S n => xorb (f i) (xor_from f (S i) n) end.

Lemma xor_from_app f m n : forall i, xor_from f i (m + n) = xorb (xor_from f i m) (xor_from f (i + m) n).
Proof.
  induction m as [|m IH]; intros i; cbn; [by rewrite Nat.add_0_r|].
  rewrite IH, xorb_assoc. by rewrite Nat.add_succ_r.
Qed.
Lemma xor_from_snoc f i n : xor_from f i (S n) = xorb (xor_from f i n) (f (i + n)%nat).
Proof. rewrite <- Nat.add_1_r, xor_from_app. cbn. by destruct (f (i + n)%nat). Qed.
Lemma xor_from_ext f g n : forall i, (forall t, (i <= t < i + n)%nat -> f t = g t) -> xor_from f i n = xor_from g i n.
Proof.
  induction n as [|n IH]; intros i H; cbn; [done|]. rewrite (H i) by lia. f_equal. apply IH. intros t Ht. apply H. lia.
Qed.
Lemma xor_from_shift f n d : forall i, xor_from (fun t => f (d + t)%nat) i n = xor_from f (d + i) n.
Proof. induction n as [|n IH]; intros i; cbn; [done|]. by rewrite IH, Nat.add_succ_r. Qed.
Lemma xor_from_false f n i : (forall t, (i <= t < i + n)%nat -> f t = false) -> xor_from f i n = false.
Proof.
  intros H. rewrite (xor_from_ext f (fun _ => false)) by done. clear. revert i. induction n as [|n IH]; intros i; cbn; [done|apply IH].
Qed.
Lemma xor_from_trim f i m n : (m <= n)%nat -> (forall t, (i + m <= t < i + n)%nat -> f t = false) ->
  xor_from f i n = xor_from f i m.
Proof.
  intros Hm H. replace n with (m + (n - m))%nat by lia. rewrite xor_from_app, (xor_from_false f _ (i + m)) by (intros; apply H; lia).
  apply xorb_false_r.
Qed.

(** ** Bits of words *)

(** Bit [j] of [w] is the exclusive or of [n] bits of [v] from bit [j] on, every other one. *)
Definition prefixed (n : nat) (v w : Z) : Prop :=
  forall j, 0 <= j -> Z.testbit w j = xor_from (fun t => Z.testbit v (j + 2 * Z.of_nat t)) 0 n.
Lemma prefixed_start v : prefixed 1 v v.
Proof. intros j Hj. cbn. by rewrite Z.add_0_r, xorb_false_r. Qed.
Lemma prefixed_step n v w : prefixed n v w ->
  prefixed (n + n) v (Z.lxor w (Z.shiftr w (2 * Z.of_nat n))).
Proof.
  intros H j Hj. rewrite Z.lxor_spec, Z.shiftr_spec, !H, xor_from_app by lia. f_equal.
  rewrite (Nat.add_comm 0 n), <- (xor_from_shift (fun t => Z.testbit v (j + 2 * Z.of_nat t)) n n 0).
  apply xor_from_ext. intros t Ht. f_equal. lia.
Qed.

Notation M5 := 0x55555555.
Lemma M5_even i : (i < 16)%nat -> Z.testbit M5 (2 * Z.of_nat i) = true.
Proof. intros H. do 16 (destruct i as [|i]; [done|]). lia. Qed.
Lemma M5_odd i : Z.testbit M5 (2 * Z.of_nat i + 1) = false.
Proof.
  do 16 (destruct i as [|i]; [done|]). apply Z.bits_above_log2; [done|]. change (Z.log2 M5) with 30. lia.
Qed.

(** The sum of the two bits of each digit *)
Lemma digit_sums a b : (forall i, Z.testbit a (2 * Z.of_nat i + 1) = false) ->
  (forall i, Z.testbit b (2 * Z.of_nat i + 1) = false) -> forall i,
  Z.testbit (a + b) (2 * Z.of_nat i) = xorb (Z.testbit a (2 * Z.of_nat i)) (Z.testbit b (2 * Z.of_nat i)) /\
  Z.testbit (a + b) (2 * Z.of_nat i + 1) = Z.testbit a (2 * Z.of_nat i) && Z.testbit b (2 * Z.of_nat i).
Proof.
  intros Ha Hb i. rewrite <- Z.add_lxor_2land, Z.add_nocarry_lxor.
  2: { apply Z.bits_inj'. intros n Hn. rewrite Z.land_spec, Z.lxor_spec, Z.bits_0.
       destruct (Z.Even_or_Odd n) as [[m ->]|[m ->]].
       - destruct (Z.eq_dec m 0) as [->|]; [by rewrite Z.testbit_even_0, andb_false_r|].
         replace (2 * m) with (Z.succ (2 * (m - 1) + 1)) at 3 by lia.
         rewrite Z.double_bits_succ, Z.land_spec. replace (m - 1) with (Z.of_nat (Z.to_nat (m - 1))) by lia.
         by rewrite Ha, andb_false_r.
       - replace m with (Z.of_nat (Z.to_nat m)) by lia. by rewrite Ha, Hb. }
  rewrite !Z.lxor_spec. split.
  - destruct i as [|i]; [by rewrite Z.testbit_even_0, xorb_false_r|].
    replace (2 * Z.of_nat (S i)) with (Z.succ (2 * Z.of_nat i + 1)) at 3 by lia.
    by rewrite Z.double_bits_succ, Z.land_spec, Ha, xorb_false_r.
  - rewrite Ha, Hb. rewrite <- (Z.add_1_r (2 * Z.of_nat i)) || idtac.
    replace (2 * Z.of_nat i + 1) with (Z.succ (2 * Z.of_nat i)) by lia. by rewrite Z.double_bits_succ, Z.land_spec.
Qed.

(** A step of the unshuffle exchanges bits [j] and [j + sh] where the mask has bit [j]. *)
Lemma unshuffle_bit sh m s j : 0 < sh <= 8 -> is_u 32 m -> 0 <= j ->
  Z.testbit (unshuffle_step sh m s) j =
  xorb (xorb (Z.testbit s j) (xorb (Z.testbit s j) (Z.testbit s (j + sh)) && Z.testbit m j))
       (if j <? sh then false else xorb (Z.testbit s (j - sh)) (Z.testbit s j) && Z.testbit m (j - sh)).
Proof.
  intros Hsh Hm Hj. unfold unshuffle_step. cbv zeta. rewrite wrap_small.
  - rewrite !Z.lxor_spec, Z.land_spec, Z.lxor_spec, Z.shiftr_spec, Z.shiftl_spec by lia. f_equal.
    destruct (Z.ltb_spec j sh); [by rewrite Z.testbit_neg_r by lia|].
    rewrite Z.land_spec, Z.lxor_spec, Z.shiftr_spec by lia. by replace (j - sh + sh) with j by lia.
  - set (t := Z.land _ m). assert (Ht : 0 <= t < 2 ^ 32).
    { unfold t. rewrite <- (wrap_small 32 m Hm). unfold wrap. rewrite <- Z.land_ones, Z.land_assoc, Z.land_ones by lia.
      apply Z.mod_pos_bound. lia. }
    unfold is_u in *. rewrite Z.shiftl_mul_pow2 by lia. assert (2 ^ sh <= 2 ^ 8) by (apply Z.pow_le_mono_r; lia).
    assert (0 < 2 ^ sh) by (apply Z.pow_pos_nonneg; lia). nia.
Qed.
Ltac bits_of_constants :=
  repeat match goal with
  | |- context [Z.testbit (Zpos ?p) ?j] =>
      let b := eval vm_compute in (Z.testbit (Zpos p) j) in change (Z.testbit (Zpos p) j) with b
  | |- context [?a <? ?b] => let c := eval vm_compute in (a <? b) in change (a <? b) with c
  | |- context [Z.pos ?p + Z.pos ?q] => let c := eval vm_compute in (Z.pos p + Z.pos q) in change (Z.pos p + Z.pos q) with c
  | |- context [?a - Z.pos ?q] => let c := eval vm_compute in (a - Z.pos q) in change (a - Z.pos q) with c
  end.
Definition unshuffled (s : Z) : Z :=
  unshuffle_step 8 0x0000FF00 (unshuffle_step 4 0x00F000F0 (unshuffle_step 2 0x0C0C0C0C (unshuffle_step 1 0x22222222 s))).
Ltac unshuffle := rewrite unshuffle_bit by (try unfold is_u; lia); bits_of_constants;
  cbn [andb]; rewrite ?andb_false_r, ?andb_true_r, ?xorb_false_r.
Ltac numerals :=
  repeat match goal with
  | |- context [Z.of_nat ?n] => let z := eval vm_compute in (Z.of_nat n) in change (Z.of_nat n) with z
  | |- context [2 * ?p] => let z := eval vm_compute in (2 * p) in progress change (2 * p) with z
  | |- context [?q + ?p] => let z := eval vm_compute in (q + p) in progress change (q + p) with z
  end.
Lemma unshuffled_even s i : (i < 16)%nat -> Z.testbit (unshuffled s) (Z.of_nat i) = Z.testbit s (2 * Z.of_nat i).
Proof.
  intros Hi. unfold unshuffled. do 16 (destruct i as [|i]; [numerals; repeat unshuffle; try done; btauto|]). lia.
Qed.
Lemma unshuffled_odd s i : (i < 16)%nat -> Z.testbit (unshuffled s) (16 + Z.of_nat i) = Z.testbit s (2 * Z.of_nat i + 1).
Proof.
  intros Hi. unfold unshuffled. do 16 (destruct i as [|i]; [numerals; repeat unshuffle; try done; btauto|]). lia.
Qed.
Lemma unshuffle_bit_high sh m s j : 0 < sh <= 8 -> is_u (32 - sh) m -> 32 <= j ->
  Z.testbit (unshuffle_step sh m s) j = Z.testbit s j.
Proof.
  intros Hsh Hm Hj. assert (Hhigh : forall i, 32 - sh <= i -> Z.testbit m i = false).
  { intros i Hi. rewrite <- (wrap_small _ _ Hm). unfold wrap. apply Z.mod_pow2_bits_high. lia. }
  rewrite unshuffle_bit; [|done| |lia].
  - rewrite !Hhigh by lia. rewrite !andb_false_r, xorb_false_r. destruct (j <? sh); apply xorb_false_r.
  - unfold is_u in *. assert (2 ^ (32 - sh) <= 2 ^ 32) by (apply Z.pow_le_mono_r; lia). lia.
Qed.
Lemma unshuffled_high s j : 32 <= j -> Z.testbit (unshuffled s) j = Z.testbit s j.
Proof. intros Hj. unfold unshuffled. rewrite !unshuffle_bit_high by (unfold is_u; lia). done. Qed.

(** ** The word operations *)

(** The pieces of [hilbert_index_to_coordinate], for a padded word [S] *)
Definition sums (S : Z) : Z := Z.lxor (u64 (Z.land S M5 + Z.land (Z.shiftr S 1) M5)) M5.
Definition prefixes (cs : Z) : Z :=
  let cs := Z.lxor cs (Z.shiftr cs 2) in
  let cs := Z.lxor cs (Z.shiftr cs 4) in
  let cs := Z.lxor cs (Z.shiftr cs 8) in
  Z.lxor cs (Z.shiftr cs 16).
Definition turned (S : Z) : Z :=
  let cs := prefixes (sums S) in
  let t := Z.lxor (Z.land S (Z.land cs M5)) (Z.land (Z.shiftr cs 1) M5) in
  Z.lxor (Z.lxor (Z.lxor S (Z.land (Z.shiftr S 1) M5)) t) (u64 (Z.shiftl t 1)).

(** What a digit contributes to the turns *)
Definition info1 (s : Z) (k : nat) : bool := negb (xorb (digit s k).1 (digit s k).2).
Definition info2 (s : Z) (k : nat) : bool := (digit s k).1 && (digit s k).2.

Lemma land_M5_odd S i : Z.testbit (Z.land S M5) (2 * Z.of_nat i + 1) = false.
Proof. by rewrite Z.land_spec, M5_odd, andb_false_r. Qed.
Lemma land_M5_even S i : (i < 16)%nat -> Z.testbit (Z.land S M5) (2 * Z.of_nat i) = Z.testbit S (2 * Z.of_nat i).
Proof. intros H. by rewrite Z.land_spec, M5_even, andb_true_r. Qed.
Lemma land_M5_range S : 0 <= Z.land S M5 < 2 ^ 31.
Proof.
  replace M5 with (Z.land M5 (Z.ones 31)) by reflexivity. rewrite Z.land_assoc, Z.land_ones by lia.
  apply Z.mod_pos_bound. lia.
Qed.

Lemma sums_bits S i : (i < 16)%nat ->
  Z.testbit (sums S) (2 * Z.of_nat i) = info1 S i /\ Z.testbit (sums S) (2 * Z.of_nat i + 1) = info2 S i.
Proof.
  intros Hi. unfold sums, info1, info2. pose proof (land_M5_range S). pose proof (land_M5_range (Z.shiftr S 1)).
  rewrite wrap_small by (unfold is_u; lia).
  destruct (digit_sums _ _ (land_M5_odd S) (land_M5_odd (Z.shiftr S 1)) i) as [H1 H2].
  rewrite !Z.lxor_spec, H1, H2, M5_even, M5_odd, !land_M5_even, Z.shiftr_spec, xorb_false_r by lia. cbn [digit fst snd].
  destruct (Z.testbit S (2 * Z.of_nat i)), (Z.testbit S (2 * Z.of_nat i + 1)); done.
Qed.
Lemma sums_high S j : 32 <= j -> Z.testbit (sums S) j = false.
Proof.
  intros Hj. unfold sums. pose proof (land_M5_range S). pose proof (land_M5_range (Z.shiftr S 1)).
  rewrite wrap_small by (unfold is_u; lia). rewrite Z.lxor_spec, (Z.bits_above_log2 M5) by (change (Z.log2 M5) with 30; lia).
  rewrite xorb_false_r. set (a := _ + _) in *. destruct (Z.eq_dec a 0) as [->|]; [apply Z.bits_0|].
  apply Z.bits_above_log2; [lia|]. assert (Z.log2 a < 32) by (apply Z.log2_lt_pow2; lia). lia.
Qed.
Lemma prefixes_spec v : prefixed 16 v (prefixes v).
Proof.
  exact (prefixed_step 8 _ _ (prefixed_step 4 _ _ (prefixed_step 2 _ _ (prefixed_step 1 _ _ (prefixed_start v))))).
Qed.
Lemma prefixes_bits S i : (i < 16)%nat ->
  Z.testbit (prefixes (sums S)) (2 * Z.of_nat i) = xor_from (info1 S) i (16 - i) /\
  Z.testbit (prefixes (sums S)) (2 * Z.of_nat i + 1) = xor_from (info2 S) i (16 - i).
Proof.
  intros Hi. rewrite !prefixes_spec by lia. split.
  - rewrite (xor_from_trim _ 0 (16 - i)) by (try lia; intros; apply sums_high; lia).
    replace (xor_from (info1 S) i (16 - i)) with (xor_from (fun t => info1 S (i + t)%nat) 0 (16 - i))
      by (rewrite xor_from_shift; f_equal; lia). apply xor_from_ext. intros t Ht.
    replace (2 * Z.of_nat i + 2 * Z.of_nat t) with (2 * Z.of_nat (i + t)) by lia. apply sums_bits. lia.
  - rewrite (xor_from_trim _ 0 (16 - i)) by (try lia; intros; apply sums_high; lia).
    replace (xor_from (info2 S) i (16 - i)) with (xor_from (fun t => info2 S (i + t)%nat) 0 (16 - i))
      by (rewrite xor_from_shift; f_equal; lia). apply xor_from_ext. intros t Ht.
    replace (2 * Z.of_nat i + 1 + 2 * Z.of_nat t) with (2 * Z.of_nat (i + t) + 1) by lia. apply sums_bits. lia.
Qed.

(** The turn at a digit, the turns of the higher digits and its own together *)
Definition turn_at (st : turn) (s : Z) (i n : nat) : turn :=
  (xorb st.1 (xor_from (info1 s) i n), xorb st.2 (xor_from (info2 s) i n)).
Definition turned_digit (st : turn) (d : bool * bool) : bool * bool :=
  let t := xorb (d.2 && st.1) st.2 in (xorb d.1 t, xorb (xorb d.1 d.2) t).
Lemma quadrant_turned st d : quadrant st d = turned_digit (next_turn st d) d.
Proof. done. Qed.

Lemma turned_bits S i : (i < 16)%nat ->
  (Z.testbit (turned S) (2 * Z.of_nat i + 1), Z.testbit (turned S) (2 * Z.of_nat i)) =
  turned_digit (turn_at (false, false) S i (16 - i)) (digit S i).
Proof.
  intros Hi. unfold turned. cbv zeta. set (cs := prefixes (sums S)). set (t := Z.lxor (Z.land S _) _).
  destruct (prefixes_bits S i Hi) as [H1 H2]. fold cs in H1, H2.
  assert (Ht : Z.testbit t (2 * Z.of_nat i) = xorb ((digit S i).2 && xor_from (info1 S) i (16 - i)) (xor_from (info2 S) i (16 - i))).
  { unfold t. rewrite Z.lxor_spec, Z.land_spec, !land_M5_even, Z.shiftr_spec, H1, H2 by lia. done. }
  assert (Hodd : forall j, Z.testbit t (2 * Z.of_nat j + 1) = false).
  { intros j. unfold t. by rewrite Z.lxor_spec, Z.land_spec, !land_M5_odd, andb_false_r. }
  assert (Hr : 0 <= t < 2 ^ 31).
  { replace t with (Z.land (Z.lxor (Z.land S cs) (Z.shiftr cs 1)) M5); [apply land_M5_range|].
    apply Z.bits_inj'. intros n _. unfold t. rewrite Z.land_assoc, !Z.land_spec, !Z.lxor_spec, !Z.land_spec. btauto. }
  rewrite wrap_small by (unfold is_u; rewrite Z.shiftl_mul_pow2 by lia; lia).
  rewrite !Z.lxor_spec, land_M5_odd, land_M5_even, Hodd, Z.shiftr_spec, !Z.shiftl_spec by lia.
  replace (2 * Z.of_nat i + 1 - 1) with (2 * Z.of_nat i) by lia. rewrite Ht.
  assert (Hz : Z.testbit t (2 * Z.of_nat i - 1) = false).
  { destruct i as [|i]; [by apply Z.testbit_neg_r|]. replace (2 * Z.of_nat (Datatypes.S i) - 1) with (2 * Z.of_nat i + 1) by lia. apply Hodd. }
  rewrite Hz. unfold turned_digit, turn_at, digit. cbn [fst snd]. f_equal; btauto.
Qed.

(** ** The recursive curve by bits *)

Lemma top_bit b k p i : 0 <= p < 2 ^ Z.of_nat k -> (i <= k)%nat ->
  Z.testbit (Z.b2z b * 2 ^ Z.of_nat k + p) (Z.of_nat i) = if (i =? k)%nat then b else Z.testbit p (Z.of_nat i).
Proof.
  intros Hp Hi. rewrite <- lor_shiftl_add, Z.lor_spec, Z.shiftl_spec by lia. destruct (Nat.eqb_spec i k) as [->|Hne].
  - rewrite Z.sub_diag, Z.b2z_bit0. rewrite <- (Z.mod_small _ _ Hp), Z.mod_pow2_bits_high by lia. apply orb_false_r.
  - by rewrite Z.testbit_neg_r by lia.
Qed.
Lemma pow2_succ k : 2 ^ Z.of_nat (S k) = 2 * 2 ^ Z.of_nat k.
Proof. rewrite Nat2Z.inj_succ, Z.pow_succ_r by lia. done. Qed.
Lemma curve_range k : forall st s, 0 <= (curve k st s).1 < 2 ^ Z.of_nat k /\ 0 <= (curve k st s).2 < 2 ^ Z.of_nat k.
Proof.
  induction k as [|k IH]; intros st s; [cbn; lia|]. rewrite pow2_succ. cbn [curve fst snd].
  specialize (IH (next_turn st (digit s k)) s). destruct (quadrant st (digit s k)) as [[] []]; cbn [fst snd Z.b2z]; lia.
Qed.
Lemma turn_at_snoc st s i k : (i <= k)%nat -> turn_at (next_turn st (digit s k)) s i (k - i) = turn_at st s i (S k - i).
Proof.
  intros H. unfold turn_at. rewrite Nat.sub_succ_l, !xor_from_snoc by done. replace (i + (k - i))%nat with k by lia.
  generalize (xor_from (info1 s) i (k - i)), (xor_from (info2 s) i (k - i)). intros a b.
  unfold next_turn, info1, info2. cbn [fst snd]. f_equal; btauto.
Qed.
Lemma curve_bits k : forall st s i, (i < k)%nat ->
  (Z.testbit (curve k st s).1 (Z.of_nat i), Z.testbit (curve k st s).2 (Z.of_nat i)) =
  turned_digit (turn_at st s i (k - i)) (digit s i).
Proof.
  induction k as [|k IH]; intros st s i Hi; [lia|]. cbn [curve fst snd].
  destruct (curve_range k (next_turn st (digit s k)) s). rewrite !top_bit by (done || lia).
  destruct (Nat.eqb_spec i k) as [->|Hne].
  - rewrite <- surjective_pairing, quadrant_turned. f_equal. rewrite <- turn_at_snoc by done.
    rewrite Nat.sub_diag. unfold turn_at. cbn. by rewrite !xorb_false_r.
  - rewrite IH, turn_at_snoc by lia. done.
Qed.

(** ** From a position to coordinates *)

Definition pad (k : nat) : Z := u64 (signed 32 (Z.shiftl M5 (2 * Z.of_nat k))).
Definition pad_facts (k : nat) : bool :=
  (ctz (2 ^ Z.of_nat k) =? Z.of_nat k) && is_power_of_2 (2 ^ Z.of_nat k) &&
  (u64 (u64 (signed 32 (Z.shiftl 1 (2 * Z.of_nat k))) - 1) =? Z.ones (2 * Z.of_nat k)) &&
  forallb (fun i => eqb (Z.testbit (pad k) (2 * Z.of_nat i)) (k <=? i)%nat &&
    negb (Z.testbit (pad k) (2 * Z.of_nat i + 1))) (seq 0 16).
Lemma pad_facts_hold k : (1 <= k <= 15)%nat -> pad_facts k = true.
Proof. intros H. do 16 (destruct k as [|k]; [(lia || done)|]). lia. Qed.

Lemma padded_digit k s i : (1 <= k <= 15)%nat -> 0 <= s < 2 ^ (2 * Z.of_nat k) -> (i < 16)%nat ->
  digit (Z.lor s (pad k)) i = if (i <? k)%nat then digit s i else (false, true).
Proof.
  intros Hk Hs Hi. pose proof (pad_facts_hold k Hk) as H. apply andb_prop in H as [_ H]. rewrite forallb_forall in H.
  specialize (H i ltac:(apply in_seq; lia)). apply andb_prop in H as [H1%eqb_prop H2%negb_true_iff].
  unfold digit. rewrite !Z.lor_spec, H1, H2. destruct (Nat.ltb_spec i k), (Nat.leb_spec k i); try lia.
  - by rewrite !orb_false_r.
  - rewrite <- (Z.mod_small _ _ Hs), !Z.mod_pow2_bits_high by lia. done.
Qed.
Lemma padded_turn k s i : (1 <= k <= 15)%nat -> 0 <= s < 2 ^ (2 * Z.of_nat k) -> (i < k)%nat ->
  turn_at (false, false) (Z.lor s (pad k)) i (16 - i) = turn_at (false, false) s i (k - i).
Proof.
  intros Hk Hs Hi. unfold turn_at. cbn [fst snd].
  rewrite !(xor_from_trim _ i (k - i) (16 - i));
    try (intros t Ht; unfold info1, info2; rewrite padded_digit by lia; destruct (Nat.ltb_spec t k); (lia || done)); try lia.
  f_equal; f_equal; apply xor_from_ext; intros t Ht; unfold info1, info2; rewrite padded_digit by lia;
    by destruct (Nat.ltb_spec t k); [|lia].
Qed.

Lemma index_pieces s n : hilbert_index_to_coordinate s n =
  (_ <-? assert (2 <=? n);
   _ <-? assert (is_power_of_2 n);
   pad <-? shift_int M5 (2 * ctz n);
   one <-? shift_int 1 (2 * ctz n);
   let u := unshuffled (Z.land (turned (Z.lor s pad)) (u64 (one - 1))) in
   Ok (Z.shiftr u 16, Z.land u 0xFFFF)).
Proof. cbv beta zeta delta [hilbert_index_to_coordinate unshuffled turned sums prefixes]. reflexivity. Qed.

Theorem index_to_curve k s : (1 <= k <= 15)%nat -> 0 <= s < 2 ^ (2 * Z.of_nat k) ->
  hilbert_index_to_coordinate s (2 ^ Z.of_nat k) = Ok (curve k (false, false) s).
Proof.
  intros Hk Hs. pose proof (pad_facts_hold k Hk) as H. apply andb_prop in H as [[[H1%Z.eqb_eq H2]%andb_prop H3%Z.eqb_eq]%andb_prop _].
  assert (2 <= 2 ^ Z.of_nat k) by (apply (Z.pow_le_mono_r 2 1); lia).
  rewrite index_pieces, (proj2 (Z.leb_le _ _)), H2, H1 by done. cbn [assert obind].
  unfold shift_int. rewrite (proj2 (Z.ltb_lt _ _)) by lia. cbn [obind]. fold (pad k). rewrite H3.
  set (S := Z.lor s (pad k)). cbv zeta.
  set (u := Z.land (turned S) _). f_equal. destruct (curve_range k (false, false) s) as [Hx Hy].
  assert (Hbits : forall i, (i < 16)%nat -> (Z.testbit u (2 * Z.of_nat i + 1), Z.testbit u (2 * Z.of_nat i)) =
    (Z.testbit (curve k (false, false) s).1 (Z.of_nat i), Z.testbit (curve k (false, false) s).2 (Z.of_nat i))).
  { intros i Hi. unfold u. rewrite !Z.land_spec. destruct (Nat.lt_ge_cases i k).
    - rewrite !Z.ones_spec_low, !andb_true_r, turned_bits, curve_bits by lia. unfold S.
      by rewrite padded_turn, padded_digit, (proj2 (Nat.ltb_lt i k)) by lia.
    - rewrite !Z.ones_spec_high, !andb_false_r by lia.
      rewrite <- (Z.mod_small _ _ Hx), <- (Z.mod_small _ _ Hy), !Z.mod_pow2_bits_high by lia. done. }
  rewrite (surjective_pairing (curve _ _ _)). f_equal; apply Z.bits_inj'; intros n Hn; destruct (Z.lt_ge_cases n 16) as [Hl|Hl].
  - replace n with (Z.of_nat (Z.to_nat n)) by lia. rewrite Z.shiftr_spec, Z.add_comm, unshuffled_odd by lia.
    specialize (Hbits (Z.to_nat n) ltac:(lia)). congruence.
  - rewrite Z.shiftr_spec, unshuffled_high by lia. unfold u. rewrite Z.land_spec, Z.ones_spec_high, andb_false_r by lia.
    rewrite <- (Z.mod_small _ _ Hx), Z.mod_pow2_bits_high by lia. done.
  - change 0xFFFF with (Z.ones 16). rewrite Z.land_spec, Z.ones_spec_low, andb_true_r by lia.
    replace n with (Z.of_nat (Z.to_nat n)) by lia. rewrite unshuffled_even by lia.
    specialize (Hbits (Z.to_nat n) ltac:(lia)). congruence.
  - change 0xFFFF with (Z.ones 16). rewrite Z.land_spec, Z.ones_spec_high, andb_false_r by lia.
    rewrite <- (Z.mod_small _ _ Hy), Z.mod_pow2_bits_high by lia. done.
Qed.

(** ** From coordinates to a position *)

Definition code (st : turn) : Z := 2 * Z.b2z st.2 + Z.b2z st.1.
Definition digit_value (d : bool * bool) : Z := 2 * Z.b2z d.1 + Z.b2z d.2.

(** The tables invert a quadrant and give the next turn. *)
Lemma tables_invert st d : let q := quadrant st d in
  let row := Z.lor (Z.lor (4 * code st) (2 * Z.b2z q.1)) (Z.b2z q.2) in
  Z.land (Z.shiftr 0x361E9CB4 (2 * row)) 3 = digit_value d /\ Z.land (Z.shiftr 0x8FE65831 (2 * row)) 3 = code (next_turn st d).
Proof. destruct st as [[] []], d as [[] []]; vm_compute; done. Qed.

Lemma bit_b2z v n : 0 <= n -> Z.land (Z.shiftr v n) 1 = Z.b2z (Z.testbit v n).
Proof.
  intros Hn. change 1 with (Z.ones 1). rewrite Z.land_ones, Z.testbit_eqb, Z.shiftr_div_pow2 by lia.
  change (2 ^ 1) with 2. pose proof (Z.mod_pos_bound (v / 2 ^ n) 2 ltac:(lia)).
  destruct (Z.eqb_spec ((v / 2 ^ n) mod 2) 1); cbn; lia.
Qed.
Lemma pow4_succ k : 2 ^ (2 * Z.of_nat (S k)) = 4 * 2 ^ (2 * Z.of_nat k).
Proof. replace (2 * Z.of_nat (S k)) with (2 + 2 * Z.of_nat k) by lia. rewrite Z.pow_add_r by lia. done. Qed.
(** The position up to digit [k], and the digit *)
Lemma split_digit s k : s mod 2 ^ (2 * Z.of_nat (S k)) =
  digit_value (digit s k) * 2 ^ (2 * Z.of_nat k) + s mod 2 ^ (2 * Z.of_nat k).
Proof.
  unfold digit_value, digit. cbn [fst snd]. set (p := 2 ^ (2 * Z.of_nat k)).
  assert (Hp : 0 < p) by (apply Z.pow_pos_nonneg; lia).
  rewrite !Z.testbit_eqb by lia. rewrite Z.pow_add_r by lia. fold p. change (2 ^ 1) with 2. rewrite pow4_succ. fold p.
  rewrite (Z.mul_comm 4 p), Z.rem_mul_r by lia. rewrite <- Z.div_div by lia. set (q := s / p).
  assert (Z.b2z (q / 2 mod 2 =? 1) = q / 2 mod 2 /\ Z.b2z (q mod 2 =? 1) = q mod 2) as [-> ->].
  { split; [pose proof (Z.mod_pos_bound (q / 2) 2 ltac:(lia)); destruct (Z.eqb_spec (q / 2 mod 2) 1); cbn; lia|].
    pose proof (Z.mod_pos_bound q 2 ltac:(lia)); destruct (Z.eqb_spec (q mod 2) 1); cbn; lia. }
  change 4 with (2 * 2). rewrite (Z.rem_mul_r q 2 2) by lia. nia.
Qed.

Lemma index_loop_spec x y : forall k st s acc, (k <= 15)%nat -> 0 <= acc -> (acc + 1) * 2 ^ (2 * Z.of_nat k) <= 2 ^ 62 ->
  (forall i, (i < k)%nat -> Z.testbit x (Z.of_nat i) = Z.testbit (curve k st s).1 (Z.of_nat i) /\
                           Z.testbit y (Z.of_nat i) = Z.testbit (curve k st s).2 (Z.of_nat i)) ->
  index_loop k x y acc (code st) = acc * 2 ^ (2 * Z.of_nat k) + s mod 2 ^ (2 * Z.of_nat k).
Proof.
  induction k as [|k IH]; intros st s acc Hk Hacc Hsmall Hxy.
  { cbn [index_loop]. change (2 ^ (2 * Z.of_nat 0)) with 1. rewrite Z.mod_1_r. lia. }
  cbn [index_loop]. set (d := digit s k). set (q := quadrant st d).
  destruct (curve_range k (next_turn st d) s) as [Hr1 Hr2].
  assert (Hx : Z.testbit x (Z.of_nat k) = q.1 /\ Z.testbit y (Z.of_nat k) = q.2).
  { destruct (Hxy k ltac:(lia)) as [-> ->]. cbn [curve fst snd]. fold d q. rewrite !top_bit, Nat.eqb_refl by (done || lia). done. }
  destruct Hx as [Hx Hy]. rewrite !bit_b2z, Hx, Hy by lia. destruct (tables_invert st d) as [E1 E2]. fold q in E1, E2.
  rewrite E1, E2. rewrite pow4_succ in Hsmall. assert (Hp : 0 < 2 ^ (2 * Z.of_nat k)) by (apply Z.pow_pos_nonneg; lia).
  assert (Hd : 0 <= digit_value d < 4) by (unfold digit_value; destruct d as [[] []]; cbn; lia).
  rewrite wrap_small by (unfold is_u; rewrite Z.shiftl_mul_pow2 by lia; nia). rewrite lor_shiftl_add by (cbn; lia).
  rewrite (IH (next_turn st d) s); [|lia|nia|nia|].
  - rewrite split_digit. fold d. rewrite pow4_succ. nia.
  - intros i Hi. destruct (Hxy i ltac:(lia)) as [-> ->]. cbn [curve fst snd]. fold d. rewrite !top_bit by (done || lia).
    destruct (Nat.eqb_spec i k); [lia|done].
Qed.
Theorem curve_to_index k s : (1 <= k <= 15)%nat -> 0 <= s < 2 ^ (2 * Z.of_nat k) ->
  coordinate_to_hilbert_index (curve k (false, false) s) (2 ^ Z.of_nat k) = Ok s.
Proof.
  intros Hk Hs. pose proof (pad_facts_hold k Hk) as H. apply andb_prop in H as [[[H1%Z.eqb_eq H2]%andb_prop _]%andb_prop _].
  assert (2 <= 2 ^ Z.of_nat k) by (apply (Z.pow_le_mono_r 2 1); lia).
  destruct (curve_range k (false, false) s) as [Hx Hy]. unfold coordinate_to_hilbert_index.
  rewrite (proj2 (Z.leb_le _ _)), H2, !(proj2 (Z.ltb_lt _ _)), H1, Nat2Z.id by lia. cbn [assert obind].
  f_equal. change (index_loop k (curve k (false, false) s).1 (curve k (false, false) s).2 0 (code (false, false)) = s).
  rewrite (index_loop_spec _ _ k (false, false) s 0); [|lia|lia| |done].
  - rewrite Z.mod_small by done. lia.
  - rewrite Z.mul_1_l. apply Z.pow_le_mono_r; lia.
Qed.

(** *** Every point of the square is on the curve. *)

Lemma testbit_mod_eq n s s' j : s mod 2 ^ n = s' mod 2 ^ n -> j < n -> Z.testbit s j = Z.testbit s' j.
Proof. intros H Hj. by rewrite <- (Z.mod_pow2_bits_low s n j), H, Z.mod_pow2_bits_low by lia. Qed.
Lemma curve_mod k st s s' : s mod 2 ^ (2 * Z.of_nat k) = s' mod 2 ^ (2 * Z.of_nat k) -> curve k st s = curve k st s'.
Proof.
  revert st. induction k as [|k IH]; intros st H; [done|]. cbn [curve].
  assert (Hd : digit s k = digit s' k).
  { unfold digit. f_equal; apply (testbit_mod_eq (2 * Z.of_nat (S k))); (done || lia). }
  rewrite Hd, (IH _); [done|]. apply (f_equal (fun z => z mod 2 ^ (2 * Z.of_nat k))) in H. rewrite !split_digit, Hd in H.
  rewrite !(Z.add_comm (_ * _)), !Z_mod_plus_full, !Zmod_mod in H. done.
Qed.
Lemma quadrant_onto st q : exists d, quadrant st d = q.
Proof.
  destruct st as [[] []], q as [[] []];
    first [by exists (false, false)|by exists (false, true)|by exists (true, false)|by exists (true, true)].
Qed.
Lemma digit_of d k s : 0 <= s < 2 ^ (2 * Z.of_nat k) -> digit (digit_value d * 2 ^ (2 * Z.of_nat k) + s) k = d.
Proof.
  intros Hs. unfold digit. rewrite <- lor_shiftl_add, !Z.lor_spec, !Z.shiftl_spec by lia.
  rewrite <- (Z.mod_small _ _ Hs), !Z.mod_pow2_bits_high, !orb_false_r by lia.
  replace (2 * Z.of_nat k + 1 - 2 * Z.of_nat k) with 1 by lia. rewrite Z.sub_diag. destruct d as [[] []]; done.
Qed.
Lemma curve_onto k : forall st x y, 0 <= x < 2 ^ Z.of_nat k -> 0 <= y < 2 ^ Z.of_nat k ->
  exists s, 0 <= s < 2 ^ (2 * Z.of_nat k) /\ curve k st s = (x, y).
Proof.
  induction k as [|k IH]; intros st x y Hx Hy.
  { exists 0. cbn in Hx, Hy. split; [cbn; lia|]. cbn. f_equal; lia. }
  rewrite pow2_succ in Hx, Hy. set (p := 2 ^ Z.of_nat k) in *.
  destruct (quadrant_onto st (p <=? x, p <=? y)) as [d Hd].
  destruct (IH (next_turn st d) (x - Z.b2z (p <=? x) * p) (y - Z.b2z (p <=? y) * p)) as (s & Hs & E);
    [destruct (Z.leb_spec p x); cbn; lia|destruct (Z.leb_spec p y); cbn; lia|].
  exists (digit_value d * 2 ^ (2 * Z.of_nat k) + s). split.
  - rewrite pow4_succ. unfold digit_value. destruct d as [[] []]; cbn [fst snd Z.b2z]; lia.
  - cbn [curve]. rewrite digit_of, Hd by done.
    rewrite (curve_mod k _ _ s) by (by rewrite Z.add_comm, Z_mod_plus_full). rewrite E. cbn [fst snd]. fold p. f_equal; lia.
Qed.
