(* ===== verification/HilbertSpec.v ===== *)
(** The Hilbert curve is a bijection with adjacent neighbours, and a parallel
    sweep visits every cell of the square once. *)
From Stdlib Require Import ZArith Lia List Bool.
From stdpp Require Import prelude list.
From S2P Require Import Prelude.
From S2P Require Import Hilbert.
From S2P Require Import HilbertCorrect.

(** ** Neighbours *)

Lemma curve_digit k st d r : 0 <= r < 2 ^ (2 * Z.of_nat k) ->
  curve (S k) st (digit_value d * 2 ^ (2 * Z.of_nat k) + r) =
  (Z.b2z (quadrant st d).1 * 2 ^ Z.of_nat k + (curve k (next_turn st d) r).1,
   Z.b2z (quadrant st d).2 * 2 ^ Z.of_nat k + (curve k (next_turn st d) r).2).
Proof.
  intros Hr. cbn [curve]. rewrite digit_of by done.
  by rewrite (curve_mod k _ _ r) by (by rewrite Z.add_comm, Z_mod_plus_full).
Qed.
Lemma pow4_pos k : 0 < 2 ^ (2 * Z.of_nat k).
Proof. apply Z.pow_pos_nonneg; lia. Qed.

(** The corners at which a curve starts and ends *)
Definition start_corner (k : nat) (st : turn) : Z * Z :=
  let m := Z.b2z st.2 * (2 ^ Z.of_nat k - 1) in (m, m).
Definition end_corner (k : nat) (st : turn) : Z * Z :=
  let b := xorb st.1 st.2 in
  (Z.b2z (negb b) * (2 ^ Z.of_nat k - 1), Z.b2z b * (2 ^ Z.of_nat k - 1)).
Lemma curve_start k : forall st, curve k st 0 = start_corner k st.
Proof.
  induction k as [|k IH]; intros st; [by destruct st as [[] []]|].
  pose proof (pow4_pos k). pose proof (curve_digit k st (false, false) 0 ltac:(lia)) as E.
  replace (digit_value (false, false) * 2 ^ (2 * Z.of_nat k) + 0) with 0 in E by (change (digit_value (false, false)) with 0; lia). rewrite E, IH. unfold start_corner. rewrite pow2_succ.
  destruct st as [[] []]; cbn [next_turn quadrant fst snd xorb negb andb Z.b2z]; f_equal; lia.
Qed.
Lemma curve_end k : forall st, curve k st (2 ^ (2 * Z.of_nat k) - 1) = end_corner k st.
Proof.
  induction k as [|k IH]; intros st; [by destruct st as [[] []]|]. pose proof (pow4_pos k).
  pose proof (curve_digit k st (true, true) (2 ^ (2 * Z.of_nat k) - 1) ltac:(lia)) as E.
  replace (2 ^ (2 * Z.of_nat (S k)) - 1) with (digit_value (true, true) * 2 ^ (2 * Z.of_nat k) + (2 ^ (2 * Z.of_nat k) - 1))
    by (rewrite pow4_succ; change (digit_value (true, true)) with 3; lia).
  rewrite E, IH. unfold end_corner. rewrite pow2_succ.
  destruct st as [[] []]; cbn [next_turn quadrant fst snd xorb negb andb Z.b2z]; f_equal; lia.
Qed.

Definition distance (p q : Z * Z) : Z := Z.abs (p.1 - q.1) + Z.abs (p.2 - q.2).
Lemma curve_adjacent k : forall st s, 0 <= s -> s + 1 < 2 ^ (2 * Z.of_nat k) ->
  distance (curve k st s) (curve k st (s + 1)) = 1.
Proof.
  induction k as [|k IH]; intros st s Hs Hs'; [cbn in Hs'; lia|]. pose proof (pow4_pos k) as Hp.
  pose proof (split_digit s k) as E. rewrite Z.mod_small in E by lia.
  set (d := digit s k) in *. set (r := s mod 2 ^ (2 * Z.of_nat k)) in *.
  assert (Hr : 0 <= r < 2 ^ (2 * Z.of_nat k)) by (apply Z.mod_pos_bound; lia).
  rewrite pow4_succ in Hs'. destruct (Z.lt_ge_cases (r + 1) (2 ^ (2 * Z.of_nat k))) as [Hlt|Hge].
  - specialize (IH (next_turn st d) r ltac:(lia) Hlt). rewrite E.
    rewrite <- Z.add_assoc, !curve_digit by lia. unfold distance in *. cbn [fst snd]. lia.
  - assert (Er : r = 2 ^ (2 * Z.of_nat k) - 1) by lia.
    clearbody d r. assert (Hd : exists d', digit_value d' = digit_value d + 1).
    { destruct d as [[] []]; [exfalso; change (digit_value (true, true)) with 3 in E; lia|by exists (true, true)|by exists (true, false)|by exists (false, true)]. }
    destruct Hd as [d' Hd']. replace (s + 1) with (digit_value d' * 2 ^ (2 * Z.of_nat k) + 0) by lia.
    rewrite E, !curve_digit, Er, curve_end, curve_start by lia. assert (0 < 2 ^ Z.of_nat k) by (apply Z.pow_pos_nonneg; lia).
    unfold distance, start_corner, end_corner.
    destruct d as [[] []], d' as [[] []]; vm_compute in Hd'; try discriminate Hd';
      destruct st as [[] []]; cbn [next_turn quadrant fst snd xorb negb andb Z.b2z]; lia.
Qed.

Lemma square_pow k : 2 ^ Z.of_nat k * 2 ^ Z.of_nat k = 2 ^ (2 * Z.of_nat k).
Proof. rewrite <- Z.pow_add_r by lia. f_equal. lia. Qed.

(** C22. On a square whose side is a power of two from 2 to 2^15, the positions and the
    coordinates determine each other: [coordinate_to_hilbert_index] (a state machine
    in two constants) inverts [hilbert_index_to_coordinate] (word operations that handle
    all the digits of a position at once) and the other way round, and the cells of successive positions
    are neighbours in the square. *)
Theorem hilbert_curve_correct k (n := 2 ^ Z.of_nat k) : (1 <= k <= 15)%nat ->
  (forall s, 0 <= s < n * n -> exists x y, 0 <= x < n /\ 0 <= y < n /\
     hilbert_index_to_coordinate s n = Ok (x, y) /\ coordinate_to_hilbert_index (x, y) n = Ok s) /\
  (forall x y, 0 <= x < n -> 0 <= y < n -> exists s, 0 <= s < n * n /\
     coordinate_to_hilbert_index (x, y) n = Ok s /\ hilbert_index_to_coordinate s n = Ok (x, y)) /\
  (forall s, 0 <= s -> s + 1 < n * n -> exists p q,
     hilbert_index_to_coordinate s n = Ok p /\ hilbert_index_to_coordinate (s + 1) n = Ok q /\ distance p q = 1).
Proof.
  intros Hk. unfold n. rewrite square_pow. split; [|split].
  - intros s Hs. destruct (curve_range k (false, false) s). exists (curve k (false, false) s).1, (curve k (false, false) s).2.
    rewrite <- surjective_pairing. auto using index_to_curve, curve_to_index.
  - intros x y Hx Hy. destruct (curve_onto k (false, false) x y Hx Hy) as (s & Hs & E). exists s. split; [done|].
    rewrite <- E. auto using index_to_curve, curve_to_index.
  - intros s Hs Hs'. eexists _, _. split; [apply index_to_curve; lia|]. split; [apply index_to_curve; lia|].
    by apply curve_adjacent.
Qed.
Lemma hilbert_curve_correct_witness : (1 <= 3 <= 15)%nat /\
  exists p q, hilbert_index_to_coordinate 31 8 = Ok p /\ hilbert_index_to_coordinate 32 8 = Ok q /\ distance p q = 1.
Proof.
  split; [lia|]. apply (proj2 (proj2 (hilbert_curve_correct 3 ltac:(lia))) 31); [lia|reflexivity].
Defined.

(** ** The sweep *)

Definition cell (k : nat) (s : nat) : Z * Z := curve k (false, false) (Z.of_nat s).
Lemma pass_coordinates k i m : (1 <= k <= 15)%nat -> Z.of_nat (i + m) <= 2 ^ (2 * Z.of_nat k) ->
  otraverse (fun j => hilbert_index_to_coordinate (Z.of_nat i + Z.of_nat j) (2 ^ Z.of_nat k)) (seq 0 m) =
  Ok (map (cell k) (seq i m)).
Proof.
  intros Hk Hi. rewrite (otraverse_map _ (fun j => cell k (i + j)%nat)).
  - f_equal. pose proof (fmap_add_seq i 0 m) as E. rewrite Nat.add_0_r in E. rewrite <- E. symmetry. apply map_map.
  - intros j Hj%elem_of_seq. unfold cell. rewrite Nat2Z.inj_add. apply index_to_curve; [done|lia].
Qed.

Definition good_pass (limit : Z) (ps : list (Z * Z)) : Prop := ps <> [] /\ Z.of_nat (length ps) <= limit.
Lemma passes_loop_spec k limit : (1 <= k <= 15)%nat -> 0 < limit < 2 ^ 63 -> forall fuel i m,
  Z.of_nat (i + m) = 2 ^ (2 * Z.of_nat k) -> (m <= fuel)%nat ->
  exists ps, passes_loop fuel (2 ^ Z.of_nat k) limit (Z.of_nat i) = Ok ps /\
    concat ps = map (cell k) (seq i m) /\ Forall (good_pass limit) ps.
Proof.
  intros Hk Hl. assert (Hsq : u64 (2 ^ Z.of_nat k * 2 ^ Z.of_nat k) = 2 ^ (2 * Z.of_nat k) /\ 2 ^ (2 * Z.of_nat k) <= 2 ^ 30).
  { rewrite square_pow. assert (2 ^ (2 * Z.of_nat k) <= 2 ^ 30) by (apply Z.pow_le_mono_r; lia).
    pose proof (pow4_pos k). rewrite wrap_small by (unfold is_u; lia). done. }
  destruct Hsq as [Hsq Hbound]. induction fuel as [|fuel IH]; intros i m Hi Hm; cbn [passes_loop]; rewrite Hsq.
  - assert (m = 0%nat) as -> by lia. destruct (Z.ltb_spec (Z.of_nat i) (2 ^ (2 * Z.of_nat k))); [lia|]. by exists [].
  - destruct (Z.ltb_spec (Z.of_nat i) (2 ^ (2 * Z.of_nat k))) as [Hlt|]; [|assert (m = 0%nat) as -> by lia; by exists []].
    rewrite !(wrap_small 64 (Z.of_nat i + limit)) by (unfold is_u; lia).
    set (w := Nat.min (Z.to_nat limit) m).
    replace (Z.to_nat (Z.min (Z.of_nat i + limit) (2 ^ (2 * Z.of_nat k)) - Z.of_nat i)) with w by lia.
    rewrite pass_coordinates by lia. cbn [obind].
    assert (Hpass : good_pass limit (map (cell k) (seq i w))).
    { split; [destruct w eqn:E; [lia|done]|]. rewrite length_map, length_seq. lia. }
    destruct (decide (w = m)) as [Hw|Hw].
    + exists [map (cell k) (seq i w)]. cbn [concat]. rewrite app_nil_r, Hw in *. split; [|by split; [|constructor]].
      destruct fuel; cbn [passes_loop]; rewrite Hsq; destruct (Z.ltb_spec (Z.of_nat i + limit) (2 ^ (2 * Z.of_nat k))); (lia || done).
    + destruct (IH (i + w)%nat (m - w)%nat) as (ps & E & Hc & Hf); [lia|lia|].
      replace (Z.of_nat i + limit) with (Z.of_nat (i + w)) by lia. rewrite E.
      exists (map (cell k) (seq i w) :: ps). split; [done|]. split; [|by constructor].
      cbn [concat]. rewrite Hc, <- map_app, <- seq_app. do 2 f_equal. lia.
Qed.

(** The cells of the square *)
Definition cells (k : nat) : list (Z * Z) := map (cell k) (seq 0 (Z.to_nat (2 ^ (2 * Z.of_nat k)))).
Lemma cells_nodup k : (1 <= k <= 15)%nat -> NoDup (cells k).
Proof.
  intros Hk. unfold cells. apply NoDup_fmap_2_strong; [|apply NoDup_seq].
  intros s s' Hs%elem_of_seq Hs'%elem_of_seq E. pose proof (pow4_pos k).
  assert (Ok (Z.of_nat s) = Ok (Z.of_nat s')) as [=]; [|lia].
  rewrite <- (curve_to_index k (Z.of_nat s)), <- (curve_to_index k (Z.of_nat s')) by lia. by unfold cell in E; rewrite E.
Qed.
Lemma cells_all k x y : (1 <= k <= 15)%nat -> 0 <= x < 2 ^ Z.of_nat k -> 0 <= y < 2 ^ Z.of_nat k -> (x, y) ∈ cells k.
Proof.
  intros Hk Hx Hy. destruct (curve_onto k (false, false) x y Hx Hy) as (s & Hs & E). apply list_elem_of_fmap.
  exists (Z.to_nat s). split; [unfold cell; rewrite Z2Nat.id by lia; by symmetry|]. apply elem_of_seq. lia.
Qed.

(** C23. [hilbert_blocked_parallel_for], on a square of a side 2^k with k from 1
    to 15 and with a limit from 1 to 2^63 - 1, returns, and its passes visit every
    cell of the square exactly once; no pass is empty or larger than the limit.
    (Larger sides are not covered: at 2^16 the index computation is
    undefined.) *)
Theorem hilbert_sweep_covers k limit fuel (n := 2 ^ Z.of_nat k) :
  (1 <= k <= 15)%nat -> 0 < limit < 2 ^ 63 -> n * n <= Z.of_nat fuel ->
  exists ps, hilbert_blocked_parallel_for fuel n limit = Ok ps /\
    NoDup (concat ps) /\ (forall x y, 0 <= x < n -> 0 <= y < n -> (x, y) ∈ concat ps) /\
    Z.of_nat (length (concat ps)) = n * n /\ Forall (good_pass limit) ps.
Proof.
  intros Hk Hl Hf. unfold n in *. rewrite square_pow in *. pose proof (pow4_pos k).
  destruct (passes_loop_spec k limit Hk Hl fuel 0 (Z.to_nat (2 ^ (2 * Z.of_nat k)))) as (ps & E & Hc & Hg); [lia|lia|].
  exists ps. split; [exact E|]. rewrite Hc. fold (cells k). split; [by apply cells_nodup|].
  split; [intros; by apply cells_all|]. split; [|done]. unfold cells. rewrite length_map, length_seq. lia.
Qed.
Lemma hilbert_sweep_covers_witness : 0 < 7 < 2 ^ 63 /\ exists ps, hilbert_blocked_parallel_for 16 4 7 = Ok ps /\ NoDup (concat ps).
Proof.
  split; [lia|]. destruct (hilbert_sweep_covers 2 7 16) as (ps & E & H & _); [lia|lia|vm_compute; discriminate|].
  exists ps. split; [exact E|exact H].
Defined.

(** From a side of 2^16 on, the shift by twice its logarithm is undefined. *)
Lemma hilbert_large_square s : hilbert_index_to_coordinate s (2 ^ 16) = Undef.
Proof. reflexivity. Qed.
